(* ===== verification/_CoqProject ===== *)
-Q . S2P
Prelude.v
Strings.v
Utf8.v
OrdMap.v
Regex.v
Ids.v
Float64.v
Json.v
Canonical.v
Model.v
Criteria.v
Template.v
PathText.v
Placeholder.v
Catalog.v
Sets.v
Graph.v
GraphOrder.v
GraphBuild.v
Redact.v
SetsProofs.v
Pointer.v
JsonPath.v
Workload.v
WorkloadText.v
WorkloadProofs.v
Overrides.v
Db.v
DbLogic.v
Identity.v
Rbac.v
Apps.v
Permits.v
Deployments.v
Resources.v
IdentityInv.v
IdentityRoles.v
DeployInv.v
Access.v
Operations.v
DeployProofs.v
Lifecycle.v
History.v
Phases.v
ResourceSteps.v
Restart.v
Recovery.v
Effects.v
Artifacts.v
Deletion.v
PlanInputs.v
PlanJob.v
JobProofs.v
CatalogStore.v
CatalogProofs.v
PlanTask.v
PlanRun.v
PlanLogic.v
PlanOrder.v
PlanEnd.v
PlanFrame.v
PlanKept.v
PlanRecords.v
PlanCrash.v
Recover.v
RecoverProofs.v
PlanChecks.v
CheckProofs.v
DriverRun.v
DriverRunProofs.v
Executor.v
ExecLogic.v
ExecutorProofs.v
SecretInputs.v
Preview.v
PreviewProofs.v
Scenarios.v
PlanScenario.v
CheckScenario.v
ExecScenario.v
