(* ===== verification/Prelude.v ===== *)
(** * A verification development for openporch

    openporch turns workload documents into deployments: a workload becomes a module of a
    deployment set, the set is expanded into a graph of resources matched to definitions by
    criteria, the graph is provisioned by drivers in dependency order, and everything is
    recorded in a store that also decides who may do what. This library models the core
    crate, the permission rule and the secret inputs of the server, the transactional part of the store, the
    planner that runs deployments and the executor that calls drivers, as executable
    definitions written after the source, and proves what makes them correct.

    ** The program and its parts

    - [src/crates/core]: identifiers, canonical JSON, the data model, criteria, placeholders,
      the resource catalog, sets and deltas, the resource graph, redaction of secrets, workload
      documents and overrides. Pure functions; they call each other directly.
    - [src/crates/store]: SQLite tables and the methods over them. Each method is one
      transaction; it checks the authority of the actor inside it and records an audit entry
      with it.
    - [src/crates/server]: HTTP routes; each declares a permission ([rbac.rs]) that is evaluated
      against the caller's roles before the store is called.
    - [src/crates/engine]: the planner runs a deployment, one task per resource. A task records
      what it is about to do in the store, calls the executor, which calls a driver, and records
      how it ended, so that a server that restarts knows which resources are in doubt.
      [src/crates/drivers]: what provisions.
    - [src/crates/client], [src/crates/cli], [src/provider]: clients of the HTTP API.

    ** Shared files

    [Prelude] has Rust's [Result] with the [?] operator ([let?]), loops that may return early,
    faults (an error or a panic), the tactics and hint databases, and lemmas on lists and
    options. [Strings] and [Utf8] model [str] (bytes and characters), [OrdMap] models
    [BTreeMap], [BTreeSet] and [IndexMap] with their iteration order, [Regex] the patterns the
    source documents, [Float64] the numbers and their printing, [Json] the values of
    [serde_json], [JsonPath] and [Pointer] the places inside a value.

    ** The core crate

    - [Ids] ([ids.rs]): each identifier type is a string with its validating constructor.
      The hand-written validators accept exactly what the documented patterns match.
    - [Canonical] ([canonical.rs]): the RFC 8785 text determines the value and, for exact
      numbers, the other way round.
    - [Model] ([model.rs]) and [Criteria] ([criteria.rs]): weights order criteria by their most
      significant field; selection returns the one heaviest definition or the documented error.
    - [Template], [PathText] and [Placeholder] ([placeholder.rs]): parsing reads exactly the
      grammar; resolution substitutes what the scope (class [Scope]) returns, fails on exactly
      the placeholders that are collected, and keeps secrets out of plain values.
    - [Catalog] ([catalog.rs]): outputs are accepted exactly when they fit the type.
    - [Sets], [SetsProofs] ([sets.rs]): applying the difference of two sets to the first gives the
      second; set IDs identify content.
    - [Graph], [GraphOrder], [GraphBuild] ([graph.rs]): construction always ends and never
      panics; nodes come from requests with their matching definitions; every reference of a
      definition's inputs, every read of a shared resource in a module whose texts can all be
      read, and every co-provisioning and match-dependents rule has its edge; one unreadable text
      hides all reads of its module; layers are a topological order, or a cycle is reported.
    - [Redact] ([redact.rs]): no secret is left in a redacted text, and only secrets are removed.
    - [Workload], [WorkloadText], [WorkloadProofs], [Overrides] ([workload.rs],
      [workload/overrides.rs]): validation accepts exactly the valid documents; conversion to a
      module keeps the content, translates the placeholders outside of [noExpand] files and
      marks the secret paths; overrides change what they name.

    ** The store

    - [Db]: the tables of [migrations/*.sql] as lists of rows in a record [Db]; statements
      ([select], [update], [delete_rows], [insert_row] with the constraints of the table);
      [StoreError] ([error.rs]); audit entries ([audit.rs]). A transaction is a function from a
      connection (database and number of system calls made) to a result and a connection:
      [BEGIN IMMEDIATE] takes the write lock, so transactions run one after another, and an
      error rolls back ([Operations.run]). [let*] and [;;] sequence statements.
    - [DbLogic]: a relational logic of transactions ([tx_rel], [inv_tx]).
    - [Identity] ([identity.rs], [sqlite_identity.rs]): principals, tokens, sessions, signing keys,
      invitations, roles, the authority checks. [Rbac] ([server/src/rbac.rs]): the permission rule.
    - [Apps] ([sqlite.rs], [deploy.rs]): environment types, applications, environments, sets,
      deltas. [Permits] ([sqlite_permits.rs]): plans and permits for destructive actions.
      [Deployments] ([sqlite.rs], [deploy.rs]): acceptance, finishing, deletion, logs.
    - [IdentityInv], [IdentityRoles], [DeployInv]: integrity of the tables, and what each method
      does to roles. [Access]: the specification of access control, a transition system
      [view_step] on the roles of all principals, and its properties. [Operations]: every writing
      method as a [StoreOp]; executions of any sequence of them, including failing ones, refine
      the specification; nobody gains what they may not be given; the last administrator stays;
      revoked credentials stay revoked.
    - [DeployProofs], [Lifecycle], [History]: the invariant of deployments and permits
      ([store_ok]), the specification of acceptance, retries, what a permit authorizes, that
      history is not rewritten, how environments disappear, and that an acceptable request is
      accepted.
    - [Resources] ([sqlite.rs], [deploy.rs], [sqlite_restore.rs]): operations on resources, from
      begin to checkpoint, unknown outcomes, detaching, scheduled deletion, restart and restore.
      [Phases]: the specification,
      a machine of a resource's phases (settled, running, in doubt). [ResourceSteps], [Restart],
      [Recovery]: every method is a step of the machine; doubt ends only by a decision and blocks
      new work until then; a restart leaves nothing running; an administrator can always end
      doubt (when the IDs that are drawn are fresh). The theorems about phases are for recovery
      documents without a [restored_status] mark ([ResourceSteps.plain_op]): only a restore from a
      backup writes that mark, the store does not check that a caller's document is without it,
      and the documents of the planner are. [Scenarios] runs an installation and applies the
      theorems to it.
    - [CatalogStore] ([sqlite_catalog.rs], [sqlite_accounts.rs], [sqlite_values.rs],
      [secret_use.rs]): what administrators configure, with the checks of each change: resource
      types, classes, drivers, definitions, accounts, secret stores, grants and shared values; the
      search for a cycle of credentials; who may use a secret. [CatalogProofs]: the search is exact
      and ends; after any sequence of requests, of these and of all other methods of the store, no
      credential depends on itself and nothing that is referred to is missing ([catalog_ok]); a use
      of a secret is authorized exactly when it is the owner's own or a grant covers it. What is
      assumed of the requests ([CatalogProofs.op_shaped]) is the shape of the references in a
      definition's inputs, which the server makes.
    - [SecretInputs] ([secrets.rs], [server/src/secret_inputs.rs]): the built-in secret store, and
      the server's move of secret inputs into it; what the server then records as a definition's
      references has the shape [CatalogProofs] assumes.

    ** The engine

    - [Effects]: programs that ask something outside of them and continue with any answer
      ([prog], [let!]); what such a program asked, with the answers, and what it gave ([gives]).
      Tasks, checks and recoveries are programs over their own calls.
    - [Artifacts] ([cloud/mod.rs], [registry.rs]): names of S3 objects and container images; the
      text of what is pinned reads back as it was written.
    - [Deletion] ([planner/deprovision.rs]): what a deployment deletes, exactly, and what stays
      because something uses it. The comments say that a deployment must complete the
      removal of removed workloads and of what they own; the code does not count what was chosen
      for another reason (it is scheduled), nor what depends on that alone, and the theorem says
      so.
    - [PlanInputs], [PlanJob], [JobProofs] ([planner.rs]): the snapshot of a deployment, the scope
      of a resource and its job; a scope shows only what the resource may see, and the sources
      recorded with a job account for the secrets in it.
    - [PlanTask] ([planner.rs], [planner/deprovision.rs]): the tasks as programs ([prog]) that ask
      the store, the executor and the clock and continue with any answer.
    - [PlanRun]: the main loop as a transition system [run_step] over the stages of a run:
      provisioning, preparing deletions, deleting, reporting. Calls are answered by the store of
      the other files ([answers]); a transaction may also fail; a task may stop at any point; and
      others use the store and the planner's permits between any two steps ([others_step]). What
      is assumed of others ([foreign]): they make no operations on this environment's resources,
      do not finish its deployment, and do not restart the server.
    - [PlanLogic]: programs that follow a protocol; calls of the executor never exceed the
      planner's permits. [PlanOrder]: a task starts only after what it depends on is provisioned,
      and a deletion after the users of what is deleted, in a listing the store gave during the
      run, are deleted; success means that everything provisioned and that every removal was
      carried out or is kept for something that uses it.
      [PlanEnd]: every run ends, whatever the answers and however tasks are interleaved.
    - [PlanFrame], [PlanKept], [PlanRecords], [PlanCrash]: the records tasks keep.
      At any moment of a run, a call of a driver whose outcome was not recorded has an operation
      in the store from which a restart finds it.
    - [PlanChecks], [CheckProofs] ([planner.rs]): pinning artifacts and images before a deployment
      is accepted, and the checks before it runs; when they find nothing missing, what the
      deployment names, replays and deletes was confirmed, unless it has no resources of its own;
      artifacts whose account cannot be resolved are left to their driver; pinned artifacts are
      object versions.
    - [Recover], [RecoverProofs] ([planner/recover.rs]): observing a resource in doubt. The job is
      rebuilt from what the call recorded, and is the one the driver was called with; the doubt
      ends only as what was observed allows.
    - [Preview], [PreviewProofs] ([preview.rs], [server/src/handlers/plans.rs]): what a deployment
      would change; permits are issued for exactly what a preview shows, and an accepted
      deployment has a permit bound for every change that needs one.
    - [DriverRun], [DriverRunProofs] ([drivers/src/lib.rs], [drivers/src/run.rs]): the interface of
      drivers, timeouts, and following a [put] or a [delete] until it settles. Every run settles,
      and says no more of the operation than the driver's answers do.
    - [Executor] ([executor.rs], [planner/log.rs]): the executor as programs that carry the secret
      values registered with their log ([exec], [let^]) and call the store, the secret store, the
      cloud, the keyring and drivers. [ExecLogic]: what a program may ask after a history of calls.
      [ExecutorProofs]: with the store of [CatalogStore], secrets are read only where an owner of
      the job's could use them, drivers change something only as permitted, and no text of
      the executor's own shows a secret (the lines a driver writes to the log itself are not
      modelled).
    - [PlanScenario], [CheckScenario], [ExecScenario]: a deployment is run step by
      step, checked and previewed, a job is executed, and the theorems are applied to them.

    ** Parameters

    Code that is not in the repository is a parameter of the definitions that use it: the digest
    of a set (SHA-256), JSON Patch and reading modules from JSON (with their documented laws,
    in [Sets]), the JSON text of a value ([Placeholder], [Redact]), reading YAML ([Workload],
    [Overrides]). [System] gives the answers of the clock and of the random generator, call by
    call; nothing is assumed about them except for acceptance in [History] and in the end of doubt, where the IDs
    that are drawn must not be in use; its field [scalar_pins] is what SQLite makes of pins that
    are not an object, which the source never writes.
    [Libraries] and [InputsReader] are the JSON text, SHA-256, readers and error texts that the
    planner calls; nothing is assumed about them, except that reading back the inputs that a call
    recorded gives those inputs, where a recovery rebuilds the call, and, for the executor, that
    the JSON text of a non-empty string is quoted and not empty inside the quotes. [CookieReader]
    reads a driver's state back from JSON. The cipher and the base64 text of the built-in secret
    store are parameters of [SecretInputs]; nothing is assumed about them. What the executor calls may answer anything. Whether the database is busy
    when the use of a token is recorded is a flag.

    ** Fuel

    Loops of the source that are not structural take fuel and return [None] when it runs out.
    The fuel is computed from the input, and the theorems show it is enough: graph construction
    ([build_graph_total]), layers ([topological_layers_correct]), template parsing
    ([template_parse_total]), redaction (the source's own limit on passes), the rounds
    that choose deletions ([removal_of_total], [kept_of_total]) and what is kept ([keepers_total]), the search for a cycle of
    credentials ([cycle_search_exact]). The store's loops are over lists.
    Tasks have no fuel: the attempts of a task are bounded by the limits of the planner. The polls
    of a driver's run are bounded by its timeout, which [driver_runs_settle] shows is enough.

    ** Not modelled

    Of the store, the cipher of the built-in secret store, retention, the row that names the
    owner of an installation, and copying the database file. Of the planner, logs and metrics; the checks are programs of their own, and [PlanRun] lets
    a run start refused with any findings. The drivers themselves, which run processes and call
    services, and the lines they write to the run log; HTTP routing, configuration, login; the clients. Rows of other organizations do not
    exist in the model: the store serves one organization and checks its name in every method. *)

From stdpp Require Import base list strings sorting pretty.

(** ** Rust's [Result] *)

Inductive result (A E : Type) : Type :=
| Ok (a : A)
| Err (e : E).
Arguments Ok {A E} a.
Arguments Err {A E} e.

Declare Scope rust_scope.
Delimit Scope rust_scope with rust.

(** [let? x := e in k] is the [?] operator: an error returns at once. *)
Notation "'let?' x := e 'in' k" :=
  (match e with Ok x => k | Err err => Err err end)
  (at level 10, x pattern, e at level 200, k at level 200)
  : rust_scope.
Open Scope rust_scope.

(** [map_err] and [ok_or]. *)
Definition map_err {A E F} (f : E → F) (r : result A E) : result A F :=
  match r with Ok a => Ok a | Err e => Err (f e) end.

Definition ok_or {A E} (o : option A) (e : E) : result A E :=
  match o with Some a => Ok a | None => Err e end.

Definition is_ok {A E} (r : result A E) : bool :=
  match r with Ok _ => true | Err _ => false end.

Definition result_map {A B E} (f : A → B) (r : result A E) : result B E :=
  match r with Ok a => Ok (f a) | Err e => Err e end.

(** How a computation fails: an error it returns, or a panic. *)
Inductive fault (E : Type) : Type :=
| Error (e : E)
| Panic.
Arguments Error {E} e.
Arguments Panic {E}.

(** [expect] and indexing: a missing value panics. *)
Definition expect {A E} (o : option A) : result A (fault E) := ok_or o Panic.

(** A returned error. *)
Definition returned {A E} (r : result A E) : result A (fault E) := map_err Error r.

(** A [for] loop whose body may return early with an error. *)
Definition try_fold {A S E} (f : S → A → result S E) : S → list A → result S E :=
  fix go s l :=
    match l with
    | [] => Ok s
    | x :: l => let? s := f s x in go s l
    end.

(** The same over [iter().enumerate()]. *)
Definition try_foldi {A S E} (f : nat → S → A → result S E) : nat → S → list A → result S E :=
  fix go i s l :=
    match l with
    | [] => Ok s
    | x :: l => let? s := f i s x in go (Datatypes.S i) s l
    end.

(** Collecting an iterator of results into a result of a vector. *)
Definition try_map {A B E} (f : A → result B E) : list A → result (list B) E :=
  fix go l :=
    match l with
    | [] => Ok []
    | x :: l => let? y := f x in let? ys := go l in Ok (y :: ys)
    end.

Definition try_mapi {A B E} (f : nat → A → result B E) : nat → list A → result (list B) E :=
  fix go i l :=
    match l with
    | [] => Ok []
    | x :: l => let? y := f i x in let? ys := go (Datatypes.S i) l in Ok (y :: ys)
    end.

(** [iter().enumerate()]. *)
Fixpoint enumerate_from {A} (n : nat) (l : list A) : list (nat * A) :=
  match l with
  | [] => []
  | x :: l => (n, x) :: enumerate_from (S n) l
  end.
Definition enumerate {A} (l : list A) : list (nat * A) := enumerate_from 0 l.

(** [loop { let changed = round; if !changed { break } }]. *)
Fixpoint until_stable {S} (round : S → S * bool) (fuel : nat) (s : S) : option S :=
  match fuel with
  | 0 => None
  | Datatypes.S fuel =>
      let (s, changed) := round s in
      if changed then until_stable round fuel s else Some s
  end.

(** [iter().find(p)]. *)
Fixpoint find {A} (p : A → bool) (l : list A) : option A :=
  match l with
  | [] => None
  | x :: l => if p x then Some x else find p l
  end.

(** [iter().filter_map(f)]. *)
Fixpoint filter_map {A B} (f : A → option B) (l : list A) : list B :=
  match l with
  | [] => []
  | x :: l => match f x with Some y => y :: filter_map f l | None => filter_map f l end
  end.

Definition option_default {A} (d : A) (o : option A) : A :=
  match o with Some a => a | None => d end.

Definition is_none {A} (o : option A) : bool :=
  match o with Some _ => false | None => true end.
Definition is_some {A} (o : option A) : bool := negb (is_none o).

(** ** Automation *)

(** Runs through the early returns of a computation known to succeed (or to
    fail), naming each intermediate equation. *)
Ltac inv_result H :=
  repeat (simplify_eq/=;
    lazymatch type of H with
    | match ?e with Ok _ => _ | Err _ => _ end = _ =>
        let E := fresh "E" in destruct e eqn:E; simplify_eq/=
    | map_err _ ?e = _ => unfold map_err in H
    | ok_or ?o _ = _ => unfold ok_or in H
    | match ?o with Some _ => _ | None => _ end = _ =>
        let E := fresh "E" in destruct o eqn:E; simplify_eq/=
    | (if ?b then _ else _) = _ =>
        let E := fresh "E" in destruct b eqn:E; simplify_eq/=
    end).

(** Splits boolean conjunctions and negations in hypotheses. *)
Ltac bool_hyps :=
  repeat match goal with
  | H : _ && _ = true |- _ => apply andb_true_iff in H as [? ?]
  | H : _ || _ = false |- _ => apply orb_false_iff in H as [? ?]
  | H : negb _ = true |- _ => apply negb_true_iff in H
  | H : negb _ = false |- _ => apply negb_false_iff in H
  | H : Nat.leb _ _ = true |- _ => apply Nat.leb_le in H
  | H : Nat.leb _ _ = false |- _ => apply Nat.leb_gt in H
  | H : Nat.ltb _ _ = true |- _ => apply Nat.ltb_lt in H
  | H : Nat.ltb _ _ = false |- _ => apply Nat.ltb_ge in H
  | H : Nat.eqb _ _ = true |- _ => apply Nat.eqb_eq in H
  | H : Nat.eqb _ _ = false |- _ => apply Nat.eqb_neq in H
  | H : bool_decide _ = true |- _ => apply bool_decide_eq_true in H
  | H : bool_decide _ = false |- _ => apply bool_decide_eq_false in H
  end.

Create HintDb rust.
Create Rewrite HintDb rust.

(** ** Generic lemmas *)

Lemma is_ok_spec {A X} (r : result A X) : is_ok r = true ↔ ∃ a, r = Ok a.
Proof. destruct r; simpl; split; [by eauto|done|done|by intros [? ?]]. Qed.

(** Rounds that decrease a measure end, in a state that the last round did not change. *)
Lemma until_stable_total {S} (round : S → S * bool) (m : S → nat) (P : S → Prop) :
  (∀ s, P s → P (round s).1 ∧ ((round s).2 = true → m (round s).1 < m s)) →
  ∀ fuel s, P s → m s < fuel →
  ∃ s0, P s0 ∧ (round s0).2 = false ∧ until_stable round fuel s = Some (round s0).1.
Proof.
  intros Hr. induction fuel as [|fuel IH]; intros s Hs Hm; [lia|]. simpl.
  destruct (Hr s Hs) as [Hp Hd]. destruct (round s) as [s' [|]] eqn:E; simpl in *.
  - apply IH; [done|]. specialize (Hd eq_refl). lia.
  - exists s. by rewrite E.
Qed.

Lemma try_fold_app {A S X} (f : S → A → result S X) s l1 l2 :
  try_fold f s (l1 ++ l2) = (let? s := try_fold f s l1 in try_fold f s l2).
Proof.
  revert s. induction l1 as [|x l1 IH]; intros s; [done|].
  simpl. destruct (f s x); [apply IH|done].
Qed.

(** An invariant of the loop body is an invariant of the loop. *)
Lemma try_fold_inv {A S X} (P : S → Prop) (f : S → A → result S X) l :
  (∀ s x s', x ∈ l → P s → f s x = Ok s' → P s') →
  ∀ s s', P s → try_fold f s l = Ok s' → P s'.
Proof.
  induction l as [|x l IH]; intros Hf s s' Hs H; simpl in H; [by simplify_eq|].
  destruct (f s x) as [s1|] eqn:E; [|done].
  eapply IH; [|by eapply Hf; [left| |]|exact H].
  intros; eapply Hf; [by right| |]; done.
Qed.

Lemma try_map_Ok {A B X} (f : A → result B X) l ys :
  try_map f l = Ok ys ↔ Forall2 (λ x y, f x = Ok y) l ys.
Proof.
  revert ys. induction l as [|x l IH]; intros ys; simpl.
  - split; [intros [= <-]; constructor | by inversion 1].
  - destruct (f x) as [y|e] eqn:E.
    + destruct (try_map f l) as [ys'|e'] eqn:El.
      * split.
        -- intros [= <-]. constructor; [done|]. by apply IH.
        -- intros (z & zs & Hz & Hzs & ->)%Forall2_cons_inv_l.
           apply IH in Hzs. congruence.
      * split; [done|].
        intros (z & zs & Hz & Hzs & ->)%Forall2_cons_inv_l. apply IH in Hzs. congruence.
    + split; [done|]. intros (z & zs & Hz & _)%Forall2_cons_inv_l. congruence.
Qed.

(** A loop that pushes one result per item is a map. *)
Lemma try_fold_push {A B X} (g : list B → A → result (list B) X) (f : A → result B X) l :
  (∀ acc x, g acc x = let? y := f x in Ok (acc ++ [y])) →
  ∀ acc, try_fold g acc l = result_map (app acc) (try_map f l).
Proof.
  intros Hg. induction l as [|x l IH]; intros acc; simpl; [by rewrite app_nil_r|].
  rewrite Hg. destruct (f x) as [y|]; [|done]. rewrite IH.
  destruct (try_map f l) as [ys|]; simpl; [|done]. by rewrite <-app_assoc.
Qed.

(** A loop that appends the results of each item is a map and a concatenation. *)
Lemma try_fold_append {A B X} (g : list B → A → result (list B) X) (f : A → result (list B) X) l :
  (∀ acc x, x ∈ l → g acc x = result_map (app acc) (f x)) →
  ∀ acc, try_fold g acc l = result_map (λ ys, acc ++ concat ys) (try_map f l).
Proof.
  induction l as [|x l IH]; intros Hg acc; simpl; [by rewrite app_nil_r|].
  rewrite Hg by (by left). destruct (f x) as [y|]; [|done]. simpl.
  rewrite IH by (intros; apply Hg; by right).
  destruct (try_map f l) as [ys|]; simpl; [|done]. by rewrite <-app_assoc.
Qed.

Lemma try_mapi_map {A B X} (f : nat → A → result B X) i l :
  try_mapi f i l = try_map (λ ix, f ix.1 ix.2) (enumerate_from i l).
Proof. revert i. induction l as [|x l IH]; intros i; simpl; [done|]. by rewrite IH. Qed.

Lemma try_foldi_fold {A T X} (f : nat → T → A → result T X) i s l :
  try_foldi f i s l = try_fold (λ s ix, f ix.1 s ix.2) s (enumerate_from i l).
Proof.
  revert i s. induction l as [|x l IH]; intros i s; simpl; [done|].
  destruct (f i s x); [apply IH|done].
Qed.

Lemma Forall2_elem_l {A B} (P : A → B → Prop) l k x :
  Forall2 P l k → x ∈ l → ∃ y, y ∈ k ∧ P x y.
Proof.
  intros HF [i Hi]%list_elem_of_lookup. destruct (Forall2_lookup_l _ _ _ _ _ HF Hi) as (y & Hy & HP).
  exists y. split; [by eapply list_elem_of_lookup_2|done].
Qed.

Lemma Forall2_elem_r {A B} (P : A → B → Prop) l k y :
  Forall2 P l k → y ∈ k → ∃ x, x ∈ l ∧ P x y.
Proof.
  intros HF [i Hi]%list_elem_of_lookup. destruct (Forall2_lookup_r _ _ _ _ _ HF Hi) as (x & Hx & HP).
  exists x. split; [by eapply list_elem_of_lookup_2|done].
Qed.

Lemma filter_ext_elem {A} (P Q : A → Prop) `{∀ x, Decision (P x), ∀ x, Decision (Q x)} (l : list A) :
  (∀ x, x ∈ l → P x ↔ Q x) → filter P l = filter Q l.
Proof.
  induction l as [|x l IH]; intros Hl; [done|]. rewrite !filter_cons.
  rewrite IH by (intros; apply Hl; by right).
  destruct (decide (P x)) as [HP|HP], (decide (Q x)) as [HQ|HQ]; try done;
    rewrite Hl in HP by (by left); done.
Qed.

Lemma filter_all {A} (P : A → Prop) `{∀ x, Decision (P x)} (l : list A) :
  (∀ x, x ∈ l → P x) → filter P l = l.
Proof.
  induction l as [|x l IH]; intros Hl; [done|]. rewrite filter_cons.
  rewrite decide_True by (apply Hl; by left). f_equal. apply IH. intros; apply Hl; by right.
Qed.

Lemma filter_fmap {A B} (f : A → B) (P : B → Prop) `{∀ x, Decision (P x)} (l : list A) :
  filter P (f <$> l) = f <$> filter (λ x, P (f x)) l.
Proof.
  induction l as [|x l IH]; [done|]. csimpl. rewrite !filter_cons. case_decide; csimpl; by rewrite IH.
Qed.

Lemma NoDup_fmap_filter {A B} (f : A → B) (P : A → Prop) `{∀ x, Decision (P x)} (l : list A) :
  NoDup (f <$> l) → NoDup (f <$> filter P l).
Proof.
  induction l as [|x l IH]; csimpl; [done|]. intros [Hx Hl]%NoDup_cons. rewrite filter_cons.
  case_decide; [|by apply IH]. csimpl. apply NoDup_cons. split; [|by apply IH].
  intros (y & Hy & [_ Hin]%list_elem_of_filter)%list_elem_of_fmap. destruct Hx.
  apply list_elem_of_fmap. by exists y.
Qed.

Lemma mapM_cons_Some {A B} (f : A → option B) x l y ys :
  f x = Some y → mapM f l = Some ys → mapM f (x :: l) = Some (y :: ys).
Proof. intros Hx Hl. simpl. by rewrite Hx; simpl; rewrite Hl. Qed.

Lemma find_Some {A} (p : A → bool) l x :
  find p l = Some x → x ∈ l ∧ p x = true.
Proof.
  induction l as [|y l IH]; simpl; [done|]. destruct (p y) eqn:E.
  - intros [= ->]. split; [by left|done].
  - intros H. destruct (IH H). split; [by right|done].
Qed.

Lemma find_None {A} (p : A → bool) l :
  find p l = None ↔ ∀ x, x ∈ l → p x = false.
Proof.
  induction l as [|y l IH]; simpl.
  - split; [|done]. intros _ x Hx. by apply not_elem_of_nil in Hx.
  - destruct (p y) eqn:E.
    + split; [done|]. intros H. specialize (H y). rewrite H in E; [done|by left].
    + rewrite IH. split.
      * intros H x [->|Hx]%elem_of_cons; auto.
      * intros H x Hx. apply H. by right.
Qed.

Lemma filter_map_app {A B} (f : A → option B) l l' : filter_map f (l ++ l') = filter_map f l ++ filter_map f l'.
Proof. induction l as [|x l IH]; [done|]. simpl. rewrite IH. by destruct (f x). Qed.

Lemma elem_of_filter_map {A B} (f : A → option B) l y :
  y ∈ filter_map f l ↔ ∃ x, x ∈ l ∧ f x = Some y.
Proof.
  induction l as [|x l IH]; simpl.
  - split; [by intros ?%not_elem_of_nil|]. intros (x & Hx & _). by apply not_elem_of_nil in Hx.
  - destruct (f x) as [z|] eqn:E.
    + rewrite elem_of_cons, IH. split.
      * intros [->|(x' & ? & ?)]; [exists x|exists x']; (split; [|done]); by constructor.
      * intros (x' & [->|Hx]%elem_of_cons & Hf); [left; congruence|right; eauto].
    + rewrite IH. split.
      * intros (x' & ? & ?). exists x'. split; [by right|done].
      * intros (x' & [->|Hx]%elem_of_cons & Hf); [congruence|eauto].
Qed.

Lemma elem_of_enumerate_from {A} (l : list A) n i x :
  (i, x) ∈ enumerate_from n l ↔ n ≤ i ∧ l !! (i - n) = Some x.
Proof.
  revert n. induction l as [|y l IH]; intros n; simpl.
  - rewrite lookup_nil. split; [by intros ?%not_elem_of_nil|]. by intros [_ ?].
  - rewrite elem_of_cons, IH. destruct (decide (i = n)) as [->|Hne].
    + rewrite Nat.sub_diag. simpl. split.
      * intros [[= ->]|[? ?]]; [done|lia].
      * intros [_ [= ->]]. by left.
    + split.
      * intros [[= ? ?]|[? Hl]]; [done|]. split; [lia|].
        replace (i - n) with (S (i - S n)) by lia. done.
      * intros [? Hl]. right. split; [lia|].
        replace (i - n) with (S (i - S n)) in Hl by lia. done.
Qed.

(** A loop of checks passes iff each check does. *)
Lemma try_fold_checks {A X} (check : A → result unit X) l :
  try_fold (λ _, check) tt l = Ok tt ↔ ∀ x, x ∈ l → check x = Ok tt.
Proof.
  induction l as [|x l IH]; simpl.
  - split; [|done]. intros _ x Hx. by apply not_elem_of_nil in Hx.
  - destruct (check x) as [[]|e] eqn:E.
    + rewrite IH. split; [intros H y [->|Hy]%elem_of_cons; auto|intros H y Hy; apply H; by right].
    + split; [done|]. intros H. rewrite H in E; [done|by left].
Qed.

Lemma try_fold_fmap {A B T X} (f : T → B → result T X) (g : A → B) s l :
  try_fold f s (g <$> l) = try_fold (λ s x, f s (g x)) s l.
Proof. revert s. induction l as [|x l IH]; intros s; csimpl; [done|]. by destruct (f s (g x)). Qed.

Lemma enumerate_from_elem {A} (l : list A) i j x : (j, x) ∈ enumerate_from i l → x ∈ l.
Proof.
  revert i. induction l as [|y l IH]; intros i; simpl; [by intros ?%not_elem_of_nil|].
  intros [[= -> ->]|Hin]%elem_of_cons; [by left|right; by eapply IH].
Qed.
