(* ===== verification/Strings.v ===== *)
(** * Rust strings

    A Rust [String] or [&str] is its UTF-8 bytes, the [string] type of the
    standard library. Lengths, slices, comparisons and searches for ASCII
    delimiters are on bytes, as in Rust. [chars] groups the bytes of each
    character by the width its first byte announces, so a [char] is the slice
    that encodes it; joining the characters of any string gives it back.

    The functions here are those of [std] that the modelled crates call:
    [split_once], [split], [find], [strip_prefix], [strip_suffix], [replace],
    [trim_start_matches], [chars], [parse::<usize>] and hexadecimal output. *)

From Stdlib Require Import Ascii.
From stdpp Require Import base list strings pretty.
From S2P Require Import Prelude.

Local Open Scope string_scope.
Local Open Scope nat_scope.
Local Open Scope list_scope.

#[global] Arguments String.append !_ _ / : simpl nomatch.

(** The empty string. *)
Abbreviation ε := EmptyString.

(** The string of one byte. *)
Definition str1 (c : ascii) : string := String c ε.

Definition dquote : ascii := Ascii.ascii_of_nat 34.
Definition squote : ascii := "'"%char.
Definition backslash : ascii := Ascii.ascii_of_nat 92.
Definition newline : ascii := Ascii.ascii_of_nat 10.

(** ** Byte classes *)

Definition in_range (lo hi : N) (c : ascii) : bool :=
  (lo <=? N_of_ascii c)%N && (N_of_ascii c <=? hi)%N.
Definition is_ascii_lowercase (c : ascii) : bool := in_range 97 122 c.
Definition is_ascii_uppercase (c : ascii) : bool := in_range 65 90 c.
Definition is_ascii_digit (c : ascii) : bool := in_range 48 57 c.
Definition is_ascii_alphanumeric (c : ascii) : bool :=
  is_ascii_lowercase c || is_ascii_uppercase c || is_ascii_digit c.

(** [s.bytes().all(p)]. *)
Fixpoint bytes_all (p : ascii → bool) (s : string) : bool :=
  match s with
  | ε => true
  | String c s => p c && bytes_all p s
  end.

(** [s.contains(c)] for an ASCII character. *)
Fixpoint contains_char (c : ascii) (s : string) : bool :=
  match s with
  | ε => false
  | String d s => Ascii.eqb d c || contains_char c s
  end.

Definition str_is_empty (s : string) : bool :=
  match s with ε => true | _ => false end.

(** The last byte. *)
Fixpoint last_byte (s : string) : option ascii :=
  match s with
  | ε => None
  | String c ε => Some c
  | String _ s => last_byte s
  end.
Definition first_byte (s : string) : option ascii :=
  match s with ε => None | String c _ => Some c end.

Definition starts_with_char (c : ascii) (s : string) : bool :=
  match first_byte s with Some d => Ascii.eqb d c | None => false end.
Definition ends_with_char (c : ascii) (s : string) : bool :=
  match last_byte s with Some d => Ascii.eqb d c | None => false end.

(** ** Slices *)

(** [&s[..n]] and [&s[n..]]. *)
Fixpoint str_take (n : nat) (s : string) : string :=
  match n, s with
  | S n, String c s => String c (str_take n s)
  | _, _ => ε
  end.
Fixpoint str_drop (n : nat) (s : string) : string :=
  match n, s with
  | S n, String _ s => str_drop n s
  | O, s => s
  | _, ε => ε
  end.

(** ** Searching *)

(** [s.find(c)] for an ASCII character. *)
Fixpoint find_char (c : ascii) (s : string) : option nat :=
  match s with
  | ε => None
  | String d s => if Ascii.eqb d c then Some 0 else S <$> find_char c s
  end.

(** [s.strip_prefix(p)]. *)
Fixpoint strip_prefix (p s : string) : option string :=
  match p, s with
  | ε, s => Some s
  | String c p, String d s => if Ascii.eqb c d then strip_prefix p s else None
  | String _ _, ε => None
  end.

Definition starts_with (p s : string) : bool := is_some (strip_prefix p s).

(** [s.strip_suffix(p)]. *)
Definition strip_suffix (p s : string) : option string :=
  if (String.length p <=? String.length s)%nat then
    let k := String.length s - String.length p in
    if String.eqb (str_drop k s) p then Some (str_take k s) else None
  else None.

(** [s.find(p)]. *)
Fixpoint str_find (p s : string) : option nat :=
  if starts_with p s then Some 0 else
  match s with
  | ε => None
  | String _ s => S <$> str_find p s
  end.

Definition str_contains (p s : string) : bool := is_some (str_find p s).

(** ** Splitting and joining *)

(** [s.split_once(c)] for an ASCII character. *)
Fixpoint split_once (c : ascii) (s : string) : option (string * string) :=
  match s with
  | ε => None
  | String d s =>
      if Ascii.eqb d c then Some (ε, s) else
      match split_once c s with
      | Some (a, b) => Some (String d a, b)
      | None => None
      end
  end.

(** [s.split(c)] for an ASCII character: never empty. *)
Fixpoint split (c : ascii) (s : string) : list string :=
  match s with
  | ε => [ε]
  | String d s =>
      if Ascii.eqb d c then ε :: split c s else
      match split c s with
      | h :: t => String d h :: t
      | [] => [str1 d]
      end
  end.

(** [parts.join(sep)] and [parts.concat()]. *)
Definition join (sep : string) (l : list string) : string := String.concat sep l.
Definition concat_str (l : list string) : string := foldr String.append ε l.

(** [s.replace(p, r)] for a non-empty [p]: occurrences from left to right that
    do not overlap. [skip] bytes belong to the occurrence just replaced. *)
Fixpoint replace_go (skip : nat) (p r s : string) : string :=
  match s with
  | ε => ε
  | String c s' =>
      match skip with
      | S k => replace_go k p r s'
      | O =>
          if starts_with p s then r +:+ replace_go (String.length p - 1) p r s'
          else String c (replace_go 0 p r s')
      end
  end.
Definition replace (p r s : string) : string := replace_go 0 p r s.

(** [s.trim_start_matches(c)]. *)
Fixpoint trim_start_matches (c : ascii) (s : string) : string :=
  match s with
  | ε => ε
  | String d s' => if Ascii.eqb d c then trim_start_matches c s' else s
  end.

(** ** Characters *)

(** The width of the UTF-8 sequence a byte starts. *)
Definition char_width (c : ascii) : nat :=
  let b := N_of_ascii c in
  if (b <? 192)%N then 1 else if (b <? 224)%N then 2 else if (b <? 240)%N then 3 else 4.

Fixpoint chars_go (skip : nat) (s : string) : list string :=
  match s with
  | ε => []
  | String c s' =>
      match skip with
      | S k => chars_go k s'
      | O => str_take (char_width c) s :: chars_go (char_width c - 1) s'
      end
  end.

(** [s.chars()], each character as the bytes that encode it. *)
Definition chars (s : string) : list string := chars_go 0 s.

(** The Unicode scalar value of a character. *)
Definition code_point (ch : string) : N :=
  match ch with
  | ε => 0
  | String b0 rest =>
      let lead := N_of_ascii b0 in
      let init := match rest with
                  | ε => lead
                  | String _ ε => N.land lead 31
                  | String _ (String _ ε) => N.land lead 15
                  | _ => N.land lead 7
                  end in
      (fix go acc s := match s with
                       | ε => acc
                       | String b s => go (N.lor (N.shiftl acc 6) (N.land (N_of_ascii b) 63)) s
                       end) init rest
  end.

(** [char::is_whitespace]: the Unicode property [White_Space]. *)
Definition is_whitespace (ch : string) : bool :=
  let n := code_point ch in
  ((9 <=? n) && (n <=? 13) || (n =? 32) || (n =? 133) || (n =? 160) || (n =? 5760)
   || (8192 <=? n) && (n <=? 8202) || (n =? 8232) || (n =? 8233) || (n =? 8239)
   || (n =? 8287) || (n =? 12288))%N.

(** [encode_utf16] of one character: one code unit, or a surrogate pair. *)
Definition utf16_units (ch : string) : list N :=
  let n := code_point ch in
  if (n <? 65536)%N then [n]
  else let m := (n - 65536)%N in
       [(55296 + N.shiftr m 10)%N; (56320 + N.land m 1023)%N].

(** [s.encode_utf16()]. *)
Definition encode_utf16 (s : string) : list N := mjoin (utf16_units <$> chars s).

(** ** Numbers *)

Definition digit_value (c : ascii) : N := (N_of_ascii c - 48)%N.

Fixpoint parse_digits (acc : N) (s : string) : option N :=
  match s with
  | ε => Some acc
  | String c s =>
      if is_ascii_digit c then parse_digits (acc * 10 + digit_value c) s else None
  end.

(** [s.parse::<usize>()] on a 64-bit target: an optional [+], at least one digit,
    and no overflow. *)
Definition parse_usize (s : string) : option N :=
  let body := match s with String c s' => if Ascii.eqb c "+" then s' else s | ε => ε end in
  if str_is_empty body then None else
  match parse_digits 0 body with
  | Some n => if (n <? 2 ^ 64)%N then Some n else None
  | None => None
  end.

(** [n.to_string()] for unsigned and signed integers. *)
Definition show_N (n : N) : string := pretty n.
Definition show_nat (n : nat) : string := pretty (N.of_nat n).
Definition show_Z (z : Z) : string := pretty z.

Definition hex_digit (n : N) : ascii :=
  if (n <? 10)%N then ascii_of_N (48 + n) else ascii_of_N (87 + n).

(** [format!("{b:02x}")]. *)
Definition hex2 (b : Byte.byte) : string :=
  let n := Byte.to_N b in
  String (hex_digit (n / 16)) (str1 (hex_digit (n mod 16))).

(** [format!("{n:04x}")] for [n] below [0x10000]. *)
Definition hex4 (n : N) : string :=
  String (hex_digit (n / 4096)) (String (hex_digit (n / 256 mod 16))
    (String (hex_digit (n / 16 mod 16)) (str1 (hex_digit (n mod 16))))).

(** ** Lemmas *)

Lemma app_eps_r (s : string) : s +:+ ε = s.
Proof. induction s as [|c s IH]; simpl; congruence. Qed.

Lemma app_assoc_str (a b c : string) : (a +:+ b) +:+ c = a +:+ (b +:+ c).
Proof. induction a as [|d a IH]; simpl; congruence. Qed.

Lemma length_app_str (a b : string) :
  String.length (a +:+ b) = String.length a + String.length b.
Proof. induction a as [|d a IH]; simpl; lia. Qed.

Lemma length_zero_eps s : String.length s = 0 → s = ε.
Proof. by destruct s. Qed.

Lemma app_inj_l (a b c : string) : a +:+ b = a +:+ c → b = c.
Proof. induction a; simpl; [done|]. intros [= ?]. auto. Qed.

Lemma app_length_inj (a a' b b' : string) :
  String.length a = String.length a' → a +:+ b = a' +:+ b' → a = a' ∧ b = b'.
Proof.
  revert a'. induction a as [|c a IH]; intros [|c' a'] Hl H; simplify_eq/=; [done|].
  destruct (IH a'); [lia|done|]. by subst.
Qed.

Lemma app_str1 c s : str1 c +:+ s = String c s.
Proof. done. Qed.

#[export] Hint Rewrite app_eps_r app_assoc_str length_app_str : rust.

Lemma bytes_all_app p a b : bytes_all p (a +:+ b) = bytes_all p a && bytes_all p b.
Proof. induction a as [|c a IH]; simpl; [done|]. by rewrite IH, andb_assoc. Qed.

Lemma bytes_all_impl (p q : ascii → bool) s :
  (∀ c, p c = true → q c = true) → bytes_all p s = true → bytes_all q s = true.
Proof.
  intros Hpq. induction s as [|c s IH]; simpl; [done|].
  intros [Hc Hs]%andb_true_iff. by rewrite Hpq, IH.
Qed.

Lemma contains_char_app c a b :
  contains_char c (a +:+ b) = contains_char c a || contains_char c b.
Proof. induction a as [|d a IH]; simpl; [done|]. by rewrite IH, orb_assoc. Qed.

(** A byte the class excludes does not occur. *)
Lemma bytes_all_no_char p c s :
  p c = false → bytes_all p s = true → contains_char c s = false.
Proof.
  intros Hc. induction s as [|d s IH]; simpl; [done|].
  intros [Hd Hs]%andb_true_iff. rewrite (IH Hs), orb_false_r.
  destruct (Ascii.eqb_spec d c); [congruence|done].
Qed.

Lemma split_once_Some c s a b :
  split_once c s = Some (a, b) → s = a +:+ String c b ∧ contains_char c a = false.
Proof.
  revert a. induction s as [|d s IH]; intros a; simpl; [done|].
  destruct (Ascii.eqb_spec d c) as [->|Hne].
  - intros [= <- <-]. done.
  - destruct (split_once c s) as [[a' b']|] eqn:E; [|done]. intros [= <- <-].
    destruct (IH a' eq_refl) as [-> H]. simpl. split; [done|].
    rewrite H, orb_false_r. by apply Ascii.eqb_neq.
Qed.

Lemma split_once_app c a b :
  contains_char c a = false → split_once c (a +:+ String c b) = Some (a, b).
Proof.
  induction a as [|d a IH]; simpl; [by rewrite Ascii.eqb_refl|].
  intros [Hd Ha]%orb_false_iff. by rewrite Hd, IH.
Qed.

Lemma split_once_None c s : split_once c s = None ↔ contains_char c s = false.
Proof.
  induction s as [|d s IH]; simpl; [done|]. destruct (Ascii.eqb d c); simpl; [done|].
  destruct (split_once c s) as [[a b]|]; [|naive_solver].
  split; [done|]. intros H. by apply IH in H.
Qed.

Lemma split_not_nil c s : split c s ≠ [].
Proof. destruct s as [|d s]; simpl; [done|]. destruct (Ascii.eqb d c), (split c s); done. Qed.

Lemma split_no_char c s : contains_char c s = false → split c s = [s].
Proof.
  induction s as [|d s IH]; simpl; [done|]. intros [Hd Hs]%orb_false_iff.
  by rewrite Hd, IH.
Qed.

Lemma split_app c a b :
  contains_char c a = false → split c (a +:+ String c b) = a :: split c b.
Proof.
  induction a as [|d a IH]; simpl; [by rewrite Ascii.eqb_refl|].
  intros [Hd Ha]%orb_false_iff. by rewrite Hd, IH.
Qed.

Lemma join_cons sep a b l : join sep (a :: b :: l) = a +:+ sep +:+ join sep (b :: l).
Proof. done. Qed.

(** Splitting loses nothing. *)
Lemma join_split c s : join (str1 c) (split c s) = s.
Proof.
  induction s as [|d s IH]; [done|]. cbn [split].
  destruct (split c s) as [|h t] eqn:E; [by apply split_not_nil in E|].
  destruct (Ascii.eqb_spec d c) as [->|].
  - rewrite join_cons. simpl. rewrite <-IH. done.
  - rewrite <-IH. destruct t; done.
Qed.

Lemma split_join c l :
  l ≠ [] → Forall (λ s, contains_char c s = false) l → split c (join (str1 c) l) = l.
Proof.
  induction l as [|a [|b l] IH]; [done| |]; intros _ Hl; apply Forall_cons in Hl as [Ha Hl].
  - simpl. by apply split_no_char.
  - rewrite join_cons, app_str1, split_app by done. f_equal. by apply IH.
Qed.

Lemma split_Forall_no_char c s : Forall (λ x, contains_char c x = false) (split c s).
Proof.
  induction s as [|d s IH]; simpl; [by constructor|].
  destruct (Ascii.eqb d c) eqn:E; [by constructor|].
  destruct (split c s) as [|h t]; [constructor; [|done]; simpl; by rewrite E|].
  apply Forall_cons in IH as [Hh Ht]. constructor; [|done]. simpl. by rewrite E, Hh.
Qed.

Lemma str_take_drop n s : str_take n s +:+ str_drop n s = s.
Proof. revert s. induction n as [|n IH]; intros [|c s]; simpl; [done..|]. by rewrite IH. Qed.

Lemma str_take_length_app a b : str_take (String.length a) (a +:+ b) = a.
Proof. induction a as [|c a IH]; simpl; [by destruct b|]. by rewrite IH. Qed.

Lemma str_drop_length_app a b : str_drop (String.length a) (a +:+ b) = b.
Proof. induction a as [|c a IH]; simpl; [by destruct b|done]. Qed.

Lemma length_str_take n s : String.length (str_take n s) = Nat.min n (String.length s).
Proof. revert s. induction n as [|n IH]; intros [|c s]; simpl; [done..|]. by rewrite IH. Qed.

Lemma length_str_drop n s : String.length (str_drop n s) = String.length s - n.
Proof. revert s. induction n as [|n IH]; intros [|c s]; simpl; done. Qed.

Lemma find_char_Some c s i :
  find_char c s = Some i →
  s = str_take i s +:+ String c (str_drop (S i) s) ∧ contains_char c (str_take i s) = false.
Proof.
  revert i. induction s as [|d s IH]; intros i; simpl; [done|].
  destruct (Ascii.eqb d c) eqn:E.
  - apply Ascii.eqb_eq in E as ->. intros [= <-]. done.
  - intros (j & Hj & ->)%fmap_Some. destruct (IH j Hj) as [Hs Hn]. simpl.
    rewrite E, Hn. split; [|done]. f_equal. exact Hs.
Qed.

Lemma find_char_None c s : find_char c s = None ↔ contains_char c s = false.
Proof.
  induction s as [|d s IH]; simpl; [done|]. destruct (Ascii.eqb d c); simpl; [done|].
  rewrite fmap_None. done.
Qed.

Lemma find_char_app c a b :
  contains_char c a = false → find_char c (a +:+ String c b) = Some (String.length a).
Proof.
  induction a as [|d a IH]; simpl; [by rewrite Ascii.eqb_refl|].
  intros [Hd Ha]%orb_false_iff. by rewrite Hd, IH.
Qed.

Lemma strip_prefix_Some p s r : strip_prefix p s = Some r ↔ s = p +:+ r.
Proof.
  revert s. induction p as [|c p IH]; intros s; simpl; [naive_solver|].
  destruct s as [|d s]; [done|]. destruct (Ascii.eqb_spec c d) as [->|Hne].
  - rewrite IH. naive_solver.
  - split; [done|]. naive_solver.
Qed.

Lemma strip_prefix_app p r : strip_prefix p (p +:+ r) = Some r.
Proof. by apply strip_prefix_Some. Qed.

Lemma starts_with_spec p s : starts_with p s = true ↔ ∃ r, s = p +:+ r.
Proof.
  unfold starts_with, is_some. setoid_rewrite <-strip_prefix_Some.
  destruct (strip_prefix p s); simpl; naive_solver.
Qed.

Lemma strip_suffix_Some p s r : strip_suffix p s = Some r ↔ s = r +:+ p.
Proof.
  unfold strip_suffix. destruct (Nat.leb_spec (String.length p) (String.length s)).
  - destruct (String.eqb_spec (str_drop (String.length s - String.length p) s) p) as [E|E].
    + split.
      * intros [= <-]. rewrite <-(str_take_drop (String.length s - String.length p) s) at 1.
        by rewrite E.
      * intros ->. rewrite length_app_str.
        replace (String.length r + String.length p - String.length p)
          with (String.length r) by lia. by rewrite str_take_length_app.
    + split; [done|]. intros ->. destruct E. rewrite length_app_str.
      replace (String.length r + String.length p - String.length p)
        with (String.length r) by lia. apply str_drop_length_app.
  - split; [done|]. intros ->. rewrite length_app_str in *. lia.
Qed.

(** [p] occurs in [s]. *)
Definition occurs (p s : string) : Prop := ∃ a b, s = a +:+ p +:+ b.

Lemma str_find_Some p s i :
  str_find p s = Some i → s = str_take i s +:+ p +:+ str_drop (i + String.length p) s.
Proof.
  revert i. induction s as [|c s IH]; intros i; cbn [str_find].
  - destruct (starts_with p ε) eqn:E; [|done]. intros [= <-].
    apply starts_with_spec in E as [r Hr]. simpl. rewrite Hr at 1.
    by rewrite Hr, str_drop_length_app.
  - destruct (starts_with p (String c s)) eqn:E.
    + intros [= <-]. apply starts_with_spec in E as [r Hr]. simpl.
      by rewrite Hr, str_drop_length_app.
    + intros (j & Hj & ->)%fmap_Some. simpl. f_equal. by apply IH.
Qed.

Lemma str_find_None p s : str_find p s = None ↔ ¬ occurs p s.
Proof.
  induction s as [|c s IH]; cbn [str_find].
  - destruct (starts_with p ε) eqn:E.
    + split; [done|]. intros []. apply starts_with_spec in E as [r Hr]. by exists ε, r.
    + split; [|done]. intros _ (a & b & H).
      destruct a; [|done]. assert (starts_with p ε = true); [|congruence].
      apply starts_with_spec. by exists b.
  - destruct (starts_with p (String c s)) eqn:E.
    + split; [done|]. intros []. apply starts_with_spec in E as [r Hr]. by exists ε, r.
    + rewrite fmap_None, IH. split.
      * intros Hn (a & b & H). destruct a as [|d a]; simpl in H.
        -- assert (starts_with p (String c s) = true); [|congruence].
           apply starts_with_spec. by exists b.
        -- apply Hn. injection H as -> ->. by exists a, b.
      * intros Hn (a & b & ->). apply Hn. by exists (String c a), b.
Qed.

Lemma str_contains_spec p s : str_contains p s = true ↔ occurs p s.
Proof.
  unfold str_contains, is_some. pose proof (str_find_None p s) as HN.
  destruct (str_find p s) as [i|] eqn:E; simpl.
  - split; [|done]. intros _. apply str_find_Some in E. by eexists _, _.
  - split; [done|]. intros H. by destruct (proj1 HN eq_refl).
Qed.

#[export] Instance occurs_dec p s : Decision (occurs p s).
Proof.
  refine (match str_contains p s as b return str_contains p s = b → _ with
          | true => λ H, left _ | false => λ H, right _ end eq_refl).
  - by apply str_contains_spec.
  - intros Ho%str_contains_spec. congruence.
Defined.

Lemma chars_go_concat k s : concat_str (chars_go k s) = str_drop k s.
Proof.
  revert k. induction s as [|c s IH]; intros k; simpl; [by destruct k|].
  destruct k as [|k]; [|apply IH]. simpl. rewrite IH.
  pose proof (str_take_drop (char_width c) (String c s)) as H.
  assert (char_width c ≠ 0) by (unfold char_width; repeat case_match; lia).
  destruct (char_width c) as [|w]; [done|]. simpl in *. rewrite Nat.sub_0_r. exact H.
Qed.

(** Joining the characters of a string gives the string. *)
Lemma chars_concat s : concat_str (chars s) = s.
Proof. unfold chars. by rewrite chars_go_concat. Qed.

Lemma concat_str_app l1 l2 : concat_str (l1 ++ l2) = concat_str l1 +:+ concat_str l2.
Proof. induction l1 as [|a l1 IH]; simpl; [done|]. by rewrite IH, app_assoc_str. Qed.

(** An ASCII string is the sequence of its bytes. *)
Definition is_ascii (c : ascii) : bool := (N_of_ascii c <? 128)%N.

Fixpoint bytes (s : string) : list ascii :=
  match s with ε => [] | String c s => c :: bytes s end.

Lemma bytes_app a b : bytes (a +:+ b) = bytes a ++ bytes b.
Proof. induction a as [|c a IH]; simpl; [done|]. by rewrite IH. Qed.

Lemma starts_with_char1 c d s : starts_with (str1 c) (String d s) = Ascii.eqb c d.
Proof. unfold starts_with. simpl. by destruct (Ascii.eqb c d). Qed.

Lemma char_width_ascii c : is_ascii c = true → char_width c = 1.
Proof. unfold is_ascii, char_width. intros H%N.ltb_lt. destruct (N.ltb_spec (N_of_ascii c) 192); [done|lia]. Qed.

Lemma chars_cons_ascii c s : is_ascii c = true → chars (String c s) = str1 c :: chars s.
Proof. intros H. unfold chars. cbn [chars_go]. by rewrite char_width_ascii. Qed.

Lemma chars_ascii s : bytes_all is_ascii s = true → chars s = str1 <$> bytes s.
Proof.
  induction s as [|c s IH]; [done|]. cbn [bytes_all bytes fmap list_fmap].
  intros [Hc Hs]%andb_true_iff. by rewrite chars_cons_ascii, IH.
Qed.

(** ** Valid UTF-8

    Rust strings are valid UTF-8. Where the meaning of a string's characters
    matters, that is a hypothesis. *)

Definition encode_utf8 (n : N) : string :=
  let b k := ascii_of_N k in
  let cont k := b (128 + N.land k 63)%N in
  (if n <? 128 then str1 (b n)
   else if n <? 2048 then String (b (192 + N.shiftr n 6)) (str1 (cont n))
   else if n <? 65536 then
     String (b (224 + N.shiftr n 12)) (String (cont (N.shiftr n 6)) (str1 (cont n)))
   else String (b (240 + N.shiftr n 18))
     (String (cont (N.shiftr n 12)) (String (cont (N.shiftr n 6)) (str1 (cont n)))))%N.

(** Unicode scalar values: no surrogates, at most [U+10FFFF]. *)
Definition is_scalar (n : N) : bool :=
  ((n <? 55296) || (57343 <? n) && (n <? 1114112))%N.

Definition valid_char (ch : string) : bool :=
  String.eqb ch (encode_utf8 (code_point ch)) && is_scalar (code_point ch).

Definition utf8_valid (s : string) : bool := forallb valid_char (chars s).

Lemma valid_char_inj c d :
  valid_char c = true → valid_char d = true → code_point c = code_point d → c = d.
Proof.
  unfold valid_char. intros [Hc _]%andb_true_iff [Hd _]%andb_true_iff H.
  apply String.eqb_eq in Hc, Hd. congruence.
Qed.

(** The first code unit tells a single unit from a surrogate pair. *)
Lemma utf16_units_cases c :
  valid_char c = true →
  (utf16_units c = [code_point c] ∧ (code_point c < 55296 ∨ 57343 < code_point c)%N)
  ∨ ∃ m, (code_point c = 65536 + m ∧ m < 1048576)%N
      ∧ utf16_units c = [(55296 + m / 1024)%N; (56320 + m mod 1024)%N].
Proof.
  unfold valid_char, is_scalar, utf16_units. intros [_ Hs]%andb_true_iff.
  apply orb_true_iff in Hs. rewrite andb_true_iff, !N.ltb_lt in Hs.
  destruct (N.ltb_spec (code_point c) 65536); [left; split; [done|lia]|right].
  exists (code_point c - 65536)%N. split; [lia|].
  rewrite N.shiftr_div_pow2. change 1023%N with (N.ones 10). rewrite N.land_ones. done.
Qed.

Lemma utf16_units_inj c d l k :
  valid_char c = true → valid_char d = true →
  utf16_units c ++ l = utf16_units d ++ k → c = d ∧ l = k.
Proof.
  intros Hc Hd. destruct (utf16_units_cases c Hc) as [[-> Hcr]|(m & [Hcm Hm] & ->)],
    (utf16_units_cases d Hd) as [[-> Hdr]|(m' & [Hdm Hm'] & ->)]; simpl; intros H.
  - injection H as He ->. split; [|done]. by apply valid_char_inj.
  - injection H as He _. pose proof (N.Div0.mul_div_le m' 1024).
    exfalso. set (q := (m' / 1024)%N) in *. clearbody q. lia.
  - injection H as He _. pose proof (N.Div0.mul_div_le m 1024).
    exfalso. set (q := (m / 1024)%N) in *. clearbody q. lia.
  - injection H as He Hr ->. split; [|done]. apply valid_char_inj; [done..|].
    rewrite Hcm, Hdm. f_equal. rewrite (N.div_mod m 1024), (N.div_mod m' 1024) by done.
    f_equal; [f_equal|]; lia.
Qed.

(** Different strings have different UTF-16 encodings. *)
Lemma encode_utf16_inj s t :
  utf8_valid s = true → utf8_valid t = true → encode_utf16 s = encode_utf16 t → s = t.
Proof.
  unfold utf8_valid, encode_utf16. intros Hs Ht H.
  rewrite <-(chars_concat s), <-(chars_concat t). f_equal. revert Hs Ht H.
  generalize (chars s), (chars t). clear. intros cs. induction cs as [|c cs IH]; intros [|d ds].
  - done.
  - simpl. intros _ [Hd _]%andb_true_iff H.
    destruct (utf16_units_cases d Hd) as [[E _]|(m & _ & E)]; rewrite E in H; done.
  - simpl. intros [Hc _]%andb_true_iff _ H.
    destruct (utf16_units_cases c Hc) as [[E _]|(m & _ & E)]; rewrite E in H; done.
  - simpl. intros [Hc Hcs]%andb_true_iff [Hd Hds]%andb_true_iff H.
    apply utf16_units_inj in H as [-> H]; [|done..]. f_equal. by apply IH.
Qed.
