(* ===== verification/Utf8.v ===== *)
(** * Characters and decimal numbers

    The characters of a concatenation, and reading back printed numbers. *)

From Stdlib Require Import Ascii.
From stdpp Require Import base list strings pretty.
From S2P Require Import Prelude Strings.

Local Open Scope string_scope.
Local Open Scope nat_scope.
Local Open Scope list_scope.

(** ** Decimal numbers *)

Lemma pretty_N_char_digit x :
  (x < 10)%N → is_ascii_digit (pretty_N_char x) = true ∧ digit_value (pretty_N_char x) = x.
Proof.
  intros Hx. destruct x as [|[[[[]|[]|]|[[]|[]|]|]|[[[]|[]|]|[[]|[]|]|]|]]; try lia; by vm_compute.
Qed.

Lemma parse_digits_pretty x s : parse_digits 0 (pretty_N_go x s) = parse_digits x s.
Proof.
  revert s. induction (N.lt_wf_0 x) as [x _ IH]; intros s.
  destruct (decide (0 < x)%N) as [Hx|Hx]; [|by replace x with 0%N by lia].
  rewrite pretty_N_go_step by done. rewrite IH by (apply N.div_lt; lia). cbn [parse_digits].
  destruct (pretty_N_char_digit (x `mod` 10)%N) as [-> ->]; [by apply N.mod_lt|].
  f_equal. rewrite (N.div_mod x 10) at 3 by done. lia.
Qed.

Lemma pretty_N_go_digits x s :
  bytes_all is_ascii_digit s = true → bytes_all is_ascii_digit (pretty_N_go x s) = true.
Proof.
  revert s. induction (N.lt_wf_0 x) as [x _ IH]; intros s Hs.
  destruct (decide (0 < x)%N) as [Hx|Hx]; [|by replace x with 0%N by lia].
  rewrite pretty_N_go_step by done. apply IH; [apply N.div_lt; lia|]. cbn [bytes_all].
  by rewrite (proj1 (pretty_N_char_digit _ (N.mod_lt x 10 ltac:(done)))), Hs.
Qed.

Lemma show_N_digits n : bytes_all is_ascii_digit (show_N n) = true.
Proof.
  unfold show_N, pretty, pretty_N. case_decide; [done|]. by apply pretty_N_go_digits.
Qed.

(** A printed number reads back. *)
Lemma parse_usize_show n : (n < 2 ^ 64)%N → parse_usize (show_N n) = Some n.
Proof.
  intros Hn. pose proof (show_N_digits n) as Hd. unfold parse_usize.
  assert (parse_digits 0 (show_N n) = Some n) as Hp.
  { unfold show_N, pretty, pretty_N. case_decide as E; [by subst|]. by rewrite parse_digits_pretty. }
  assert (show_N n ≠ ε) as Hne.
  { intros H. unfold show_N, pretty, pretty_N in *. case_decide as E; [done|].
    rewrite H in Hp. simpl in Hp. congruence. }
  destruct (show_N n) as [|c s] eqn:E; [done|].
  assert (Ascii.eqb c "+" = false) as ->.
  { simpl in Hd. apply andb_true_iff in Hd as [Hc _]. by destruct (Ascii.eqb_spec c "+") as [->|]. }
  cbn [str_is_empty]. rewrite Hp. by rewrite (proj2 (N.ltb_lt _ _)).
Qed.

(** ** Characters *)

(** A character with all its bytes. *)
Definition complete (ch : string) : bool :=
  match ch with ε => false | String c _ => String.length ch =? char_width c end.

Lemma char_width_pos c : ∃ k, char_width c = S k.
Proof. unfold char_width. repeat case_match; by eexists. Qed.

Lemma chars_go_skip a s : chars_go (String.length a) (a +:+ s) = chars s.
Proof. induction a as [|c a IH]; simpl; [done|]. apply IH. Qed.

Lemma chars_complete ch s : complete ch = true → chars (ch +:+ s) = ch :: chars s.
Proof.
  destruct ch as [|c r]; [done|]. unfold complete. intros H%Nat.eqb_eq.
  unfold chars at 1. cbn [String.append chars_go].
  rewrite <-H. change (String c (r +:+ s)) with (String c r +:+ s). rewrite str_take_length_app.
  f_equal. simpl. rewrite Nat.sub_0_r. apply chars_go_skip.
Qed.

Lemma chars_concat_complete l s :
  Forall (λ ch, complete ch = true) l → chars (concat_str l +:+ s) = l ++ chars s.
Proof.
  induction 1 as [|ch l Hc _ IH]; simpl; [done|]. by rewrite app_assoc_str, chars_complete, IH.
Qed.

Lemma N_of_ascii_of_N k : (k < 256)%N → N_of_ascii (ascii_of_N k) = k.
Proof. apply N_ascii_embedding. Qed.

Lemma char_width_lead k :
  (k < 256)%N → char_width (ascii_of_N k)
  = if (k <? 192)%N then 1 else if (k <? 224)%N then 2 else if (k <? 240)%N then 3 else 4.
Proof. intros H. unfold char_width. by rewrite N_of_ascii_of_N. Qed.

Lemma valid_char_complete ch : valid_char ch = true → complete ch = true.
Proof.
  unfold valid_char. intros [Heq%String.eqb_eq Hs]%andb_true_iff.
  set (n := code_point ch) in *. assert (n < 1114112)%N as Hn.
  { unfold is_scalar in Hs. apply orb_true_iff in Hs. rewrite andb_true_iff, !N.ltb_lt in Hs. lia. }
  clear Hs. rewrite Heq. unfold encode_utf8. rewrite !N.shiftr_div_pow2.
  change (2 ^ 6)%N with 64%N. change (2 ^ 12)%N with 4096%N. change (2 ^ 18)%N with 262144%N.
  destruct (N.ltb_spec n 128); [|destruct (N.ltb_spec n 2048); [|destruct (N.ltb_spec n 65536)]];
    unfold complete, str1; cbn [String.length]; apply Nat.eqb_eq.
  - rewrite char_width_lead by lia. destruct (N.ltb_spec n 192); [done|lia].
  - pose proof (N.Div0.div_lt_upper_bound n 64 32 ltac:(lia)) as Hq. revert Hq.
    generalize (n / 64)%N. intros q Hq. rewrite char_width_lead by lia.
    repeat case_match; rewrite ?N.ltb_lt, ?N.ltb_ge in *; lia.
  - pose proof (N.Div0.div_lt_upper_bound n 4096 16 ltac:(lia)) as Hq. revert Hq.
    generalize (n / 4096)%N. intros q Hq. rewrite char_width_lead by lia.
    repeat case_match; rewrite ?N.ltb_lt, ?N.ltb_ge in *; lia.
  - pose proof (N.Div0.div_lt_upper_bound n 262144 16 ltac:(lia)) as Hq. revert Hq.
    generalize (n / 262144)%N. intros q Hq. rewrite char_width_lead by lia.
    repeat case_match; rewrite ?N.ltb_lt, ?N.ltb_ge in *; lia.
Qed.

(** The characters of a valid string followed by more text. *)
Lemma chars_app_valid a s : utf8_valid a = true → chars (a +:+ s) = chars a ++ chars s.
Proof.
  intros Ha. rewrite <-(chars_concat a) at 1. apply chars_concat_complete.
  unfold utf8_valid in Ha. rewrite forallb_forall in Ha. apply Forall_forall.
  intros ch Hch%list_elem_of_In. by apply valid_char_complete, Ha.
Qed.

(** ASCII text is valid. *)
Lemma ascii_valid_char c : is_ascii c = true → valid_char (str1 c) = true.
Proof.
  unfold is_ascii. intros Hc. unfold valid_char. change (code_point (str1 c)) with (N_of_ascii c).
  unfold encode_utf8. rewrite Hc, ascii_N_embedding, String.eqb_refl. cbn [andb].
  unfold is_scalar. apply N.ltb_lt in Hc. by rewrite (proj2 (N.ltb_lt _ 55296)) by lia.
Qed.

Lemma ascii_valid s : bytes_all is_ascii s = true → utf8_valid s = true.
Proof.
  intros Hs. unfold utf8_valid. rewrite chars_ascii by done.
  induction s as [|c s IH]; [done|]. simpl in Hs. apply andb_true_iff in Hs as [Hc Hs].
  csimpl. by rewrite ascii_valid_char, IH.
Qed.
