(* ===== verification/OrdMap.v ===== *)
(** * Ordered maps, ordered sets and insertion-ordered maps

    [BTreeMap<K, V>] is the list of its entries in key order, [BTreeSet<K>] the
    list of its elements in order: iteration order, which decides error
    messages, provisioning layers and the reported cycle, is part of the model.
    [IndexMap<String, V>], which [serde_json]'s object type is in this
    repository (feature [preserve_order]), is the list of its entries in
    insertion order. *)

From Stdlib Require Import Ascii.
From stdpp Require Import base sets list strings sorting.
From S2P Require Import Prelude Strings.

(** ** Total orders, Rust's [Ord] *)

Class Ord (A : Type) := {
  cmp : A → A → comparison;
  cmp_eq_iff x y : cmp x y = Eq ↔ x = y;
  cmp_antisym x y : cmp y x = CompOpp (cmp x y);
  cmp_trans x y z : cmp x y = Lt → cmp y z = Lt → cmp x z = Lt;
}.

Definition olt `{Ord A} (x y : A) : Prop := cmp x y = Lt.

Section ord.
Context `{Ord A}.
Implicit Types x y z : A.

Lemma cmp_refl x : cmp x x = Eq.
Proof. by apply cmp_eq_iff. Qed.

Lemma cmp_gt_lt x y : cmp x y = Gt ↔ cmp y x = Lt.
Proof. rewrite (cmp_antisym x y). destruct (cmp x y); naive_solver. Qed.

Lemma cmp_neq x y : cmp x y ≠ Eq ↔ x ≠ y.
Proof. by rewrite cmp_eq_iff. Qed.

#[export] Instance olt_strict : StrictOrder olt.
Proof.
  split.
  - intros x Hx. unfold olt in Hx. rewrite cmp_refl in Hx. done.
  - intros x y z. apply cmp_trans.
Qed.

Lemma olt_neq x y : olt x y → x ≠ y.
Proof. intros Hlt ->. by apply (irreflexivity olt y). Qed.

End ord.

(** Comparing through an injective key. *)
Definition ord_inj {A B} `{Ord B} (f : A → B) (Hf : ∀ x y, f x = f y → x = y) : Ord A.
Proof.
  refine {| cmp x y := cmp (f x) (f y) |}.
  - intros x y. rewrite cmp_eq_iff. split; [apply Hf|congruence].
  - intros x y. apply cmp_antisym.
  - intros x y z. apply cmp_trans.
Defined.

#[export] Instance ord_N : Ord N.
Proof.
  refine {| cmp := N.compare |}.
  - apply N.compare_eq_iff.
  - intros x y. apply N.compare_antisym.
  - intros x y z. rewrite !N.compare_lt_iff. lia.
Defined.

#[export] Instance ord_Z : Ord Z.
Proof.
  refine {| cmp := Z.compare |}.
  - apply Z.compare_eq_iff.
  - intros x y. apply Z.compare_antisym.
  - intros x y z. rewrite !Z.compare_lt_iff. lia.
Defined.

#[export] Instance ord_nat : Ord nat.
Proof.
  refine {| cmp := Nat.compare |}.
  - apply Nat.compare_eq_iff.
  - intros x y. apply Nat.compare_antisym.
  - intros x y z. rewrite !Nat.compare_lt_iff. lia.
Defined.

Definition bool_cmp (x y : bool) : comparison :=
  match x, y with
  | false, true => Lt
  | true, false => Gt
  | _, _ => Eq
  end.
#[export] Instance ord_bool : Ord bool.
Proof. refine {| cmp := bool_cmp |}; [intros [] []|intros [] []|intros [] [] []]; done. Defined.

(** Lexicographic order on pairs, as derived for structs. *)
Definition pair_cmp {A B} `{Ord A, Ord B} (p q : A * B) : comparison :=
  match cmp p.1 q.1 with Eq => cmp p.2 q.2 | c => c end.
#[export] Instance ord_prod {A B} `{Ord A, Ord B} : Ord (A * B).
Proof.
  refine {| cmp := pair_cmp |}; unfold pair_cmp.
  - intros [a b] [a' b']. simpl. destruct (cmp a a') eqn:E.
    + apply cmp_eq_iff in E as ->. rewrite cmp_eq_iff. naive_solver.
    + split; [done|]. intros [= -> ->]. by rewrite cmp_refl in E.
    + split; [done|]. intros [= -> ->]. by rewrite cmp_refl in E.
  - intros [a b] [a' b']. simpl. rewrite (cmp_antisym a a').
    destruct (cmp a a'); simpl; [apply cmp_antisym|done..].
  - intros [a b] [a' b'] [a'' b'']. simpl.
    destruct (cmp a a') eqn:E1; [apply cmp_eq_iff in E1 as ->| |done].
    + destruct (cmp a' a''); [apply cmp_trans|done..].
    + destruct (cmp a' a'') eqn:E2; [apply cmp_eq_iff in E2 as ->; by rewrite E1| |done].
      by rewrite (cmp_trans a a' a'').
Defined.

(** [None] is less than [Some _]. *)
Definition option_cmp {A} `{Ord A} (x y : option A) : comparison :=
  match x, y with
  | None, None => Eq
  | None, Some _ => Lt
  | Some _, None => Gt
  | Some a, Some b => cmp a b
  end.
#[export] Instance ord_option {A} `{Ord A} : Ord (option A).
Proof.
  refine {| cmp := option_cmp |}.
  - intros [a|] [b|]; simpl; rewrite ?cmp_eq_iff; naive_solver.
  - intros [a|] [b|]; simpl; [apply cmp_antisym|done..].
  - intros [a|] [b|] [c|]; simpl; [apply cmp_trans|done..].
Defined.

(** Lexicographic order on sequences. *)
Fixpoint list_cmp {A} `{Ord A} (l k : list A) : comparison :=
  match l, k with
  | [], [] => Eq
  | [], _ => Lt
  | _, [] => Gt
  | a :: l, b :: k => match cmp a b with Eq => list_cmp l k | c => c end
  end.
#[export] Instance ord_list {A} `{Ord A} : Ord (list A).
Proof.
  refine {| cmp := list_cmp |}.
  - induction x as [|a l IH]; intros [|b k]; simpl; [done..|].
    destruct (cmp a b) eqn:E.
    + apply cmp_eq_iff in E as ->. rewrite IH. naive_solver.
    + split; [done|]. intros [= -> ->]. by rewrite cmp_refl in E.
    + split; [done|]. intros [= -> ->]. by rewrite cmp_refl in E.
  - induction x as [|a l IH]; intros [|b k]; simpl; [done..|].
    rewrite (cmp_antisym a b). destruct (cmp a b); simpl; [apply IH|done..].
  - induction x as [|a l IH]; intros [|b k] [|c m]; simpl; [done..|].
    destruct (cmp a b) eqn:E1; [apply cmp_eq_iff in E1 as ->| |done].
    + destruct (cmp b c); [apply IH|done..].
    + destruct (cmp b c) eqn:E2; [apply cmp_eq_iff in E2 as ->; by rewrite E1| |done].
      by rewrite (cmp_trans a b c).
Defined.

Lemma string_compare_refl (s : string) : String.compare s s = Eq.
Proof. induction s as [|c s IH]; simpl; [done|]. unfold Ascii.compare. by rewrite N.compare_refl. Qed.

(** Strings compare by their bytes. *)
#[export] Instance ord_string : Ord string.
Proof.
  refine {| cmp := String.compare |}.
  - split; [apply String.compare_eq_iff|]. intros ->. apply string_compare_refl.
  - intros x y. rewrite String.compare_antisym. done.
  - induction x as [|a x IH]; intros [|b y] [|c z]; simpl; [done..|].
    destruct (Ascii.compare a b) eqn:E1; [apply Ascii.compare_eq_iff in E1 as ->| |done].
    + destruct (Ascii.compare b c); [apply IH|done..].
    + destruct (Ascii.compare b c) eqn:E2;
        [apply Ascii.compare_eq_iff in E2 as ->; by rewrite E1| |done].
      unfold Ascii.compare in *. rewrite N.compare_lt_iff in *.
      by rewrite (proj2 (N.compare_lt_iff _ _) (N.lt_trans _ _ _ E1 E2)).
Defined.

(** ** Sorted vectors: [sort] and [binary_search] then [insert] *)

Section osort.
Context `{Ord A}.

Fixpoint oinsert (x : A) (l : list A) : list A :=
  match l with
  | [] => [x]
  | y :: l => match cmp x y with Gt => y :: oinsert x l | _ => x :: y :: l end
  end.

(** [v.sort()]; equal elements are identical, so stability does not show. *)
Definition osort (l : list A) : list A := foldr oinsert [] l.

Definition ole (x y : A) : Prop := cmp x y ≠ Gt.

#[export] Instance ole_trans : Transitive ole.
Proof.
  unfold ole. intros x y z H1 H2.
  destruct (cmp x y) eqn:E1; [apply cmp_eq_iff in E1 as ->; done| |done].
  destruct (cmp y z) eqn:E2; [apply cmp_eq_iff in E2 as ->; by rewrite E1| |done].
  by rewrite (cmp_trans x y z).
Qed.

#[export] Instance ole_antisym : AntiSymm (=) ole.
Proof.
  unfold ole. intros x y. rewrite (cmp_antisym x y).
  destruct (cmp x y) eqn:E; simpl; [by apply cmp_eq_iff in E|done..].
Qed.

Lemma oinsert_perm x l : oinsert x l ≡ₚ x :: l.
Proof.
  induction l as [|y l IH]; simpl; [done|]. destruct (cmp x y); [done..|].
  rewrite IH. apply Permutation_swap.
Qed.

Lemma osort_perm l : osort l ≡ₚ l.
Proof. induction l as [|x l IH]; simpl; [done|]. by rewrite oinsert_perm, IH. Qed.

Lemma oinsert_sorted x l : StronglySorted ole l → StronglySorted ole (oinsert x l).
Proof.
  induction l as [|y l IH]; intros Hl; simpl; [by repeat constructor|].
  apply StronglySorted_cons in Hl as [Hy Hl]. destruct (cmp x y) eqn:E.
  1,2: apply StronglySorted_cons; split; [|by apply StronglySorted_cons].
  1,2: assert (ole x y) by (unfold ole; congruence);
       constructor; [done|]; eapply Forall_impl; [exact Hy|]; intros z ?; by trans y.
  apply StronglySorted_cons. split; [|by apply IH].
  rewrite oinsert_perm. constructor; [|done].
  unfold ole. apply cmp_gt_lt in E. congruence.
Qed.

Lemma osort_sorted l : StronglySorted ole (osort l).
Proof. induction l; simpl; [constructor|]. by apply oinsert_sorted. Qed.

(** Sorting forgets the order of the input. *)
Lemma osort_Permutation l k : l ≡ₚ k → osort l = osort k.
Proof.
  intros Hp. apply (StronglySorted_unique ole); [apply osort_sorted..|].
  by rewrite !osort_perm.
Qed.

End osort.

(** ** [BTreeMap] *)

Section btree_map.
Context {K V : Type} `{Ord K}.

Fixpoint bt_get (k : K) (m : list (K * V)) : option V :=
  match m with
  | [] => None
  | (k', v) :: m => match cmp k k' with Eq => Some v | _ => bt_get k m end
  end.

(** Inserts, replacing the value of an equal key. *)
Fixpoint bt_insert (k : K) (v : V) (m : list (K * V)) : list (K * V) :=
  match m with
  | [] => [(k, v)]
  | (k', v') :: m' =>
      match cmp k k' with
      | Lt => (k, v) :: m
      | Eq => (k, v) :: m'
      | Gt => (k', v') :: bt_insert k v m'
      end
  end.

Fixpoint bt_remove (k : K) (m : list (K * V)) : list (K * V) :=
  match m with
  | [] => []
  | (k', v) :: m => match cmp k k' with Eq => bt_remove k m | _ => (k', v) :: bt_remove k m end
  end.

Definition bt_contains (k : K) (m : list (K * V)) : bool := is_some (bt_get k m).
Definition bt_keys (m : list (K * V)) : list K := m.*1.
Definition bt_values (m : list (K * V)) : list V := m.*2.

(** Collecting entries into a map: later entries win. *)
Definition bt_of_list (l : list (K * V)) : list (K * V) :=
  foldl (λ m kv, bt_insert kv.1 kv.2 m) [] l.

(** The representation invariant: keys strictly increase. *)
Definition bt_wf (m : list (K * V)) : Prop := StronglySorted olt (bt_keys m).

Implicit Types m : list (K * V).

Lemma bt_wf_cons k v m : bt_wf ((k, v) :: m) ↔ Forall (olt k) (bt_keys m) ∧ bt_wf m.
Proof. unfold bt_wf. simpl. apply StronglySorted_cons. Qed.

Lemma bt_wf_nil : bt_wf [].
Proof. constructor. Qed.

Lemma bt_get_insert k k' v m :
  bt_get k' (bt_insert k v m) = match cmp k' k with Eq => Some v | _ => bt_get k' m end.
Proof.
  induction m as [|[j w] m IH]; simpl; [by destruct (cmp k' k)|].
  destruct (cmp k j) eqn:E; simpl.
  - apply cmp_eq_iff in E as ->. by destruct (cmp k' j).
  - by destruct (cmp k' k).
  - destruct (cmp k' j) eqn:E2; [|done..]. apply cmp_eq_iff in E2 as ->.
    rewrite cmp_gt_lt in E. by rewrite E.
Qed.

Lemma bt_get_insert_eq k v m : bt_get k (bt_insert k v m) = Some v.
Proof. by rewrite bt_get_insert, cmp_refl. Qed.

Lemma bt_get_insert_ne k k' v m : k' ≠ k → bt_get k' (bt_insert k v m) = bt_get k' m.
Proof. intros Hne%cmp_neq. rewrite bt_get_insert. by destruct (cmp k' k). Qed.

Lemma bt_get_insert_if `{EqDecision K} k k' v m :
  bt_get k' (bt_insert k v m) = if decide (k' = k) then Some v else bt_get k' m.
Proof. case_decide; [subst; apply bt_get_insert_eq|by apply bt_get_insert_ne]. Qed.

Lemma bt_get_remove k k' m :
  bt_get k' (bt_remove k m) = match cmp k' k with Eq => None | _ => bt_get k' m end.
Proof.
  induction m as [|[j w] m IH]; simpl; [by destruct (cmp k' k)|].
  destruct (cmp k j) eqn:E; simpl.
  - apply cmp_eq_iff in E as ->. rewrite IH. by destruct (cmp k' j).
  - rewrite IH. destruct (cmp k' j) eqn:E2; [|done..]. apply cmp_eq_iff in E2 as ->.
    rewrite (cmp_antisym k j), E. done.
  - rewrite IH. destruct (cmp k' j) eqn:E2; [|done..]. apply cmp_eq_iff in E2 as ->.
    rewrite (cmp_antisym k j), E. done.
Qed.

Lemma bt_get_remove_eq k m : bt_get k (bt_remove k m) = None.
Proof. by rewrite bt_get_remove, cmp_refl. Qed.

Lemma bt_get_remove_ne k k' m : k' ≠ k → bt_get k' (bt_remove k m) = bt_get k' m.
Proof. intros Hne%cmp_neq. rewrite bt_get_remove. by destruct (cmp k' k). Qed.

Lemma bt_keys_insert k v m j : j ∈ bt_keys (bt_insert k v m) ↔ j = k ∨ j ∈ bt_keys m.
Proof.
  induction m as [|[k' w] m IH]; simpl; [set_solver|].
  destruct (cmp k k') eqn:E; simpl.
  - apply cmp_eq_iff in E as ->. set_solver.
  - set_solver.
  - unfold bt_keys in *. set_solver.
Qed.

Lemma bt_elem_insert k v m x : x ∈ bt_insert k v m → x = (k, v) ∨ x ∈ m.
Proof.
  induction m as [|[j u] m IH]; simpl; [set_solver|]. destruct (cmp k j); set_solver.
Qed.

Lemma bt_wf_insert k v m : bt_wf m → bt_wf (bt_insert k v m).
Proof.
  induction m as [|[k' w] m IH]; simpl; intros Hm.
  - apply bt_wf_cons. split; [constructor|done].
  - apply bt_wf_cons in Hm as [Hk Hm]. destruct (cmp k k') eqn:E.
    + apply cmp_eq_iff in E as ->. by apply bt_wf_cons.
    + apply bt_wf_cons. split; [|by apply bt_wf_cons]. simpl. constructor; [done|].
      eapply Forall_impl; [exact Hk|]. intros j Hj. by trans k'.
    + apply bt_wf_cons. split; [|by apply IH]. apply Forall_forall.
      intros j [->|Hj]%bt_keys_insert; [by apply cmp_gt_lt|].
      by eapply Forall_forall in Hk.
Qed.

Lemma bt_keys_remove k m j : j ∈ bt_keys (bt_remove k m) ↔ j ≠ k ∧ j ∈ bt_keys m.
Proof.
  induction m as [|[k' w] m IH]; simpl; [set_solver|].
  destruct (cmp k k') eqn:E; simpl; unfold bt_keys in *; simpl.
  - apply cmp_eq_iff in E as ->. set_solver.
  - assert (k ≠ k') by (intros ->; by rewrite cmp_refl in E). set_solver.
  - assert (k ≠ k') by (intros ->; by rewrite cmp_refl in E). set_solver.
Qed.

Lemma bt_wf_remove k m : bt_wf m → bt_wf (bt_remove k m).
Proof.
  induction m as [|[k' w] m IH]; simpl; intros Hm; [done|].
  apply bt_wf_cons in Hm as [Hk Hm].
  destruct (cmp k k'); [by apply IH|..].
  all: apply bt_wf_cons; split; [|by apply IH]; apply Forall_forall;
       intros j [_ Hj]%bt_keys_remove; by eapply Forall_forall in Hk.
Qed.

Lemma bt_get_keys k m : k ∈ bt_keys m ↔ is_Some (bt_get k m).
Proof.
  induction m as [|[k' w] m IH]; simpl.
  - split; [set_solver|by intros [? ?]].
  - destruct (cmp k k') eqn:E.
    + apply cmp_eq_iff in E as ->. split; [eauto|]. intros _. left.
    + assert (k ≠ k') by (intros ->; by rewrite cmp_refl in E).
      rewrite <-IH. unfold bt_keys. set_solver.
    + assert (k ≠ k') by (intros ->; by rewrite cmp_refl in E).
      rewrite <-IH. unfold bt_keys. set_solver.
Qed.

Lemma bt_get_elem k v m : bt_get k m = Some v → (k, v) ∈ m.
Proof.
  induction m as [|[k' w] m IH]; simpl; [done|]. destruct (cmp k k') eqn:E.
  - apply cmp_eq_iff in E as ->. intros [= ->]. left.
  - intros Hg. right. auto.
  - intros Hg. right. auto.
Qed.

Lemma bt_elem_get k v m : bt_wf m → (k, v) ∈ m → bt_get k m = Some v.
Proof.
  induction m as [|[k' w] m IH]; simpl; [set_solver|].
  intros [Hk Hm]%bt_wf_cons [[= -> ->]|Hin]%elem_of_cons; [by rewrite cmp_refl|].
  assert (olt k' k) as Hlt.
  { eapply Forall_forall in Hk; [exact Hk|]. unfold bt_keys. apply list_elem_of_fmap. by exists (k, v). }
  unfold olt in Hlt. rewrite (cmp_antisym k' k), Hlt. simpl. auto.
Qed.

Lemma bt_get_Some k v m : bt_wf m → bt_get k m = Some v ↔ (k, v) ∈ m.
Proof. intros Hm. split; [apply bt_get_elem|by apply bt_elem_get]. Qed.

Lemma bt_wf_NoDup m : bt_wf m → NoDup (bt_keys m).
Proof.
  induction m as [|[k v] m IH]; simpl; [constructor|]. intros [Hk Hm]%bt_wf_cons.
  constructor; [|by apply IH]. intros Hin. eapply Forall_forall in Hk; [|exact Hin].
  by apply (irreflexivity olt k).
Qed.

Lemma bt_get_lt k m : Forall (olt k) (bt_keys m) → bt_get k m = None.
Proof.
  intros Hk. destruct (bt_get k m) as [v|] eqn:E; [|done].
  assert (k ∈ bt_keys m) as Hin by (apply bt_get_keys; eauto).
  eapply Forall_forall in Hk; [|exact Hin]. by destruct (irreflexivity olt k).
Qed.

(** A map is its lookups. *)
Lemma bt_ext m1 m2 : bt_wf m1 → bt_wf m2 → (∀ k, bt_get k m1 = bt_get k m2) → m1 = m2.
Proof.
  revert m2. induction m1 as [|[k v] m1 IH]; intros [|[k' v'] m2] H1 H2 Hg.
  - done.
  - specialize (Hg k'). simpl in Hg. by rewrite cmp_refl in Hg.
  - specialize (Hg k). simpl in Hg. by rewrite cmp_refl in Hg.
  - apply bt_wf_cons in H1 as [Hk1 H1]. apply bt_wf_cons in H2 as [Hk2 H2].
    assert (k = k') as <-.
    { pose proof (Hg k) as Ha. pose proof (Hg k') as Hb. simpl in Ha, Hb.
      rewrite cmp_refl in Ha, Hb. destruct (cmp k k') eqn:E; [by apply cmp_eq_iff| |].
      - rewrite bt_get_lt in Ha; [done|]. eapply Forall_impl; [exact Hk2|]. intros; by trans k'.
      - apply cmp_gt_lt in E. rewrite E, bt_get_lt in Hb; [done|].
        eapply Forall_impl; [exact Hk1|]. intros; by trans k. }
    assert (v = v') as <-. { specialize (Hg k). simpl in Hg. rewrite cmp_refl in Hg. congruence. }
    f_equal. apply IH; [done..|]. intros j. specialize (Hg j). simpl in Hg.
    destruct (cmp j k) eqn:E; [|done..]. apply cmp_eq_iff in E as ->.
    by rewrite !bt_get_lt.
Qed.

Lemma bt_insert_id k v m : bt_wf m → bt_get k m = Some v → bt_insert k v m = m.
Proof.
  intros Hm Hg. apply bt_ext; [by apply bt_wf_insert|done|].
  intros j. rewrite bt_get_insert. destruct (cmp j k) eqn:E; [|done..].
  apply cmp_eq_iff in E as ->. done.
Qed.

Lemma bt_of_list_wf l : bt_wf (bt_of_list l).
Proof.
  unfold bt_of_list. generalize bt_wf_nil. generalize (@nil (K * V)).
  induction l as [|[k v] l IH]; intros m Hm; simpl; [done|]. apply IH. by apply bt_wf_insert.
Qed.

End btree_map.

(** Changing values keeps the keys. *)
Lemma bt_get_fmap {K V W} `{Ord K} (f : V → W) (k : K) (m : list (K * V)) :
  bt_get k (prod_map id f <$> m) = f <$> bt_get k m.
Proof. induction m as [|[k' v] m IH]; simpl; [done|]. by destruct (cmp k k'). Qed.

Lemma bt_wf_fmap {K V W} `{Ord K} (f : V → W) (m : list (K * V)) :
  bt_wf m → bt_wf (prod_map id f <$> m).
Proof.
  unfold bt_wf, bt_keys. intros Hm. rewrite <-list_fmap_compose.
  by rewrite (list_fmap_ext _ fst); [|by intros ? [? ?]].
Qed.

(** ** [BTreeSet] *)

Section btree_set.
Context {K : Type} `{Ord K}.

Fixpoint bs_mem (k : K) (s : list K) : bool :=
  match s with
  | [] => false
  | x :: s => match cmp k x with Eq => true | _ => bs_mem k s end
  end.

Fixpoint bs_insert (k : K) (s : list K) : list K :=
  match s with
  | [] => [k]
  | x :: s' =>
      match cmp k x with
      | Lt => k :: s
      | Eq => s
      | Gt => x :: bs_insert k s'
      end
  end.

Fixpoint bs_remove (k : K) (s : list K) : list K :=
  match s with
  | [] => []
  | x :: s => match cmp k x with Eq => bs_remove k s | _ => x :: bs_remove k s end
  end.

Definition bs_of_list (l : list K) : list K := foldl (λ s x, bs_insert x s) [] l.

Definition bs_wf (s : list K) : Prop := StronglySorted olt s.

Lemma bs_mem_spec k s : bs_mem k s = true ↔ k ∈ s.
Proof.
  induction s as [|x s IH]; simpl; [set_solver|]. destruct (cmp k x) eqn:E.
  - apply cmp_eq_iff in E as ->. split; [left|done].
  - assert (k ≠ x) by (intros ->; by rewrite cmp_refl in E). rewrite IH. set_solver.
  - assert (k ≠ x) by (intros ->; by rewrite cmp_refl in E). rewrite IH. set_solver.
Qed.

Lemma bs_mem_false k s : bs_mem k s = false ↔ k ∉ s.
Proof. rewrite <-bs_mem_spec. destruct (bs_mem k s); naive_solver. Qed.

Lemma elem_of_bs_insert k s j : j ∈ bs_insert k s ↔ j = k ∨ j ∈ s.
Proof.
  induction s as [|x s IH]; simpl; [set_solver|]. destruct (cmp k x) eqn:E.
  - apply cmp_eq_iff in E as ->. set_solver.
  - set_solver.
  - set_solver.
Qed.

Lemma elem_of_bs_remove k s j : j ∈ bs_remove k s ↔ j ≠ k ∧ j ∈ s.
Proof.
  induction s as [|x s IH]; simpl; [set_solver|]. destruct (cmp k x) eqn:E.
  - apply cmp_eq_iff in E as ->. set_solver.
  - assert (k ≠ x) by (intros ->; by rewrite cmp_refl in E). set_solver.
  - assert (k ≠ x) by (intros ->; by rewrite cmp_refl in E). set_solver.
Qed.

Lemma bs_wf_insert k s : bs_wf s → bs_wf (bs_insert k s).
Proof.
  induction s as [|x s IH]; simpl; intros Hs; [by repeat constructor|].
  pose proof Hs as [Hx Hs']%StronglySorted_cons. destruct (cmp k x) eqn:E; [done|..].
  - apply StronglySorted_cons. split; [|done]. constructor; [done|].
    eapply Forall_impl; [exact Hx|]. intros j Hj. by trans x.
  - apply StronglySorted_cons. split; [|by apply IH]. apply Forall_forall.
    intros j [->|Hj]%elem_of_bs_insert; [by apply cmp_gt_lt|].
    by eapply Forall_forall in Hx.
Qed.

Lemma bs_wf_remove k s : bs_wf s → bs_wf (bs_remove k s).
Proof.
  induction s as [|x s IH]; simpl; intros Hs; [done|].
  apply StronglySorted_cons in Hs as [Hx Hs]. destruct (cmp k x); [by apply IH|..].
  all: apply StronglySorted_cons; split; [|by apply IH]; apply Forall_forall;
       intros j [_ Hj]%elem_of_bs_remove; by eapply Forall_forall in Hx.
Qed.

Lemma bs_wf_NoDup s : bs_wf s → NoDup s.
Proof.
  induction s as [|x s IH]; [constructor|]. intros [Hx Hs]%StronglySorted_cons.
  constructor; [|by apply IH]. intros Hin. eapply Forall_forall in Hx; [|exact Hin].
  by apply (irreflexivity olt x).
Qed.

Lemma bs_insert_mem k s : bs_wf s → k ∈ s → bs_insert k s = s.
Proof.
  induction s as [|x s IH]; [set_solver|]. intros [Hx Hs]%StronglySorted_cons Hin. simpl.
  destruct (cmp k x) eqn:E; [done|..].
  - apply elem_of_cons in Hin as [->|Hin]; [by rewrite cmp_refl in E|].
    eapply Forall_forall in Hx; [|exact Hin]. unfold olt in Hx.
    rewrite (cmp_antisym k x), E in Hx. done.
  - apply elem_of_cons in Hin as [->|Hin]; [by rewrite cmp_refl in E|]. by rewrite IH.
Qed.

Lemma bs_insert_perm k s : k ∉ s → bs_insert k s ≡ₚ k :: s.
Proof.
  induction s as [|x s IH]; intros Hk; simpl; [done|]. apply not_elem_of_cons in Hk as [Hx Hk].
  destruct (cmp k x) eqn:E; [by apply cmp_eq_iff in E|done|]. rewrite IH by done. by constructor.
Qed.

Lemma elem_of_bs_of_list l j : j ∈ bs_of_list l ↔ j ∈ l.
Proof.
  unfold bs_of_list. enough (∀ s, j ∈ foldl (λ s x, bs_insert x s) s l ↔ j ∈ s ∨ j ∈ l) as ->
    by set_solver.
  induction l as [|x l IH]; intros s; simpl; [set_solver|].
  rewrite IH, elem_of_bs_insert. set_solver.
Qed.

Lemma bs_of_list_wf l : bs_wf (bs_of_list l).
Proof.
  unfold bs_of_list. assert (bs_wf []) as Hnil by constructor. revert Hnil.
  generalize (@nil K). induction l as [|x l IH]; intros s Hs; simpl; [done|].
  apply IH. by apply bs_wf_insert.
Qed.

End btree_set.

#[export] Hint Resolve bt_wf_nil bt_wf_insert bt_wf_remove bt_of_list_wf bs_wf_insert
  bs_wf_remove bs_of_list_wf : rust.
#[export] Hint Rewrite @bt_get_insert_eq @bt_get_remove_eq : rust.

(** ** [IndexMap<String, V>] *)

Section index_map.
Context {V : Type}.
Implicit Types m : list (string * V).

Fixpoint im_get (k : string) (m : list (string * V)) : option V :=
  match m with
  | [] => None
  | (k', v) :: m => if String.eqb k k' then Some v else im_get k m
  end.

Definition im_contains (k : string) (m : list (string * V)) : bool := is_some (im_get k m).

(** Replaces the value in place, or appends a new entry. *)
Fixpoint im_insert (k : string) (v : V) (m : list (string * V)) : list (string * V) :=
  match m with
  | [] => [(k, v)]
  | (k', v') :: m => if String.eqb k k' then (k', v) :: m else (k', v') :: im_insert k v m
  end.

(** Collecting entries: a repeated key keeps its first place and its last value. *)
Definition im_of_list (l : list (string * V)) : list (string * V) :=
  foldl (λ m kv, im_insert kv.1 kv.2 m) [] l.

(** The representation invariant: keys are distinct. *)
Definition im_wf (m : list (string * V)) : Prop := NoDup m.*1.

Lemma im_get_insert k k' v m :
  im_get k' (im_insert k v m) = if String.eqb k' k then Some v else im_get k' m.
Proof.
  induction m as [|[j w] m IH]; simpl; [done|].
  destruct (String.eqb_spec k j) as [->|Hkj]; simpl; [by destruct (String.eqb k' j)|].
  rewrite IH. destruct (String.eqb_spec k' j) as [->|]; [|done].
  destruct (String.eqb_spec j k); congruence.
Qed.

Lemma im_keys_insert k v m :
  (im_insert k v m).*1 = if im_contains k m then m.*1 else m.*1 ++ [k].
Proof.
  unfold im_contains, is_some. induction m as [|[j w] m IH]; csimpl; [done|].
  destruct (String.eqb k j); csimpl; [done|]. rewrite IH. by destruct (im_get k m).
Qed.

Lemma im_get_elem k v m : im_get k m = Some v → (k, v) ∈ m.
Proof.
  induction m as [|[k' w] m IH]; simpl; [done|].
  destruct (String.eqb_spec k k') as [->|]; [intros [= ->]; left|intros; right; auto].
Qed.

Lemma im_get_None k m : im_get k m = None ↔ k ∉ m.*1.
Proof.
  induction m as [|[k' w] m IH]; simpl; [set_solver|].
  destruct (String.eqb_spec k k') as [->|]; [set_solver|]. rewrite IH. set_solver.
Qed.

Lemma im_wf_cons k v m : im_wf ((k, v) :: m) ↔ k ∉ m.*1 ∧ im_wf m.
Proof. unfold im_wf. simpl. by rewrite NoDup_cons. Qed.

Lemma im_elem_get k v m : im_wf m → (k, v) ∈ m → im_get k m = Some v.
Proof.
  induction m as [|[k' w] m IH]; simpl; [set_solver|].
  intros [Hk Hm]%im_wf_cons [[= -> ->]|Hin]%elem_of_cons; [by rewrite String.eqb_refl|].
  destruct (String.eqb_spec k k') as [->|]; [|auto].
  destruct Hk. apply list_elem_of_fmap. by exists (k', v).
Qed.

Lemma im_wf_insert k v m : im_wf m → im_wf (im_insert k v m).
Proof.
  unfold im_wf. rewrite im_keys_insert. unfold im_contains, is_some.
  destruct (im_get k m) eqn:E; simpl; [done|]. intros Hm.
  apply NoDup_app. split; [done|]. split; [|by repeat constructor; set_solver].
  apply im_get_None in E. set_solver.
Qed.

Lemma im_of_list_wf l : im_wf (im_of_list l).
Proof.
  unfold im_of_list. assert (im_wf []) as Hnil by constructor. revert Hnil.
  generalize (@nil (string * V)). induction l as [|[k v] l IH]; intros m Hm; simpl; [done|].
  apply IH. by apply im_wf_insert.
Qed.

Lemma im_insert_fresh k v m : k ∉ m.*1 → im_insert k v m = m ++ [(k, v)].
Proof.
  induction m as [|[j w] m IH]; csimpl; [done|]. rewrite not_elem_of_cons. intros [Hj Hm].
  destruct (String.eqb_spec k j); [done|]. by rewrite IH.
Qed.

Lemma im_of_list_id m : im_wf m → im_of_list m = m.
Proof.
  unfold im_of_list. intros Hm. change m with ([] ++ m) at 2.
  assert (im_wf ([] ++ m)) as Hwf by done. clear Hm. revert Hwf. generalize (@nil (string * V)).
  induction m as [|[k v] m IH]; intros acc Hwf; simpl; [by rewrite app_nil_r|].
  unfold im_wf in Hwf. rewrite fmap_app in Hwf. csimpl in Hwf.
  rewrite im_insert_fresh.
  - rewrite IH; [by rewrite <-app_assoc|]. unfold im_wf. by rewrite <-app_assoc, fmap_app.
  - apply NoDup_app in Hwf as (_ & Hd & _). intros Hk. apply (Hd k Hk). by left.
Qed.

End index_map.

#[export] Hint Resolve im_wf_insert im_of_list_wf : rust.

(** ** Stable sorting by a key: [sort_by(|a, b| f(a).cmp(&f(b)))] *)

Section sort_by_key.
Context {A B : Type} `{Ord B} (f : A → B).

Fixpoint key_insert (x : A) (l : list A) : list A :=
  match l with
  | [] => [x]
  | y :: l => match cmp (f x) (f y) with Gt => y :: key_insert x l | _ => x :: y :: l end
  end.
Definition sort_by_key (l : list A) : list A := foldr key_insert [] l.

Definition key_le (x y : A) : Prop := ole (f x) (f y).

Lemma key_insert_perm x l : key_insert x l ≡ₚ x :: l.
Proof.
  induction l as [|y l IH]; simpl; [done|]. destruct (cmp (f x) (f y)); [done..|].
  rewrite IH. apply Permutation_swap.
Qed.

Lemma sort_by_key_perm l : sort_by_key l ≡ₚ l.
Proof. induction l as [|x l IH]; simpl; [done|]. by rewrite key_insert_perm, IH. Qed.

Lemma key_insert_sorted x l : StronglySorted key_le l → StronglySorted key_le (key_insert x l).
Proof.
  induction l as [|y l IH]; intros Hl; simpl; [by repeat constructor|].
  apply StronglySorted_cons in Hl as [Hy Hl]. destruct (cmp (f x) (f y)) eqn:E.
  1,2: apply StronglySorted_cons; split; [|by apply StronglySorted_cons].
  1,2: assert (key_le x y) by (unfold key_le, ole; congruence);
       constructor; [done|]; eapply Forall_impl; [exact Hy|];
       intros z ?; unfold key_le in *; by trans (f y).
  apply StronglySorted_cons. split; [|by apply IH].
  rewrite key_insert_perm. constructor; [|done].
  unfold key_le, ole. apply cmp_gt_lt in E. congruence.
Qed.

Lemma sort_by_key_sorted l : StronglySorted key_le (sort_by_key l).
Proof. induction l; simpl; [constructor|]. by apply key_insert_sorted. Qed.

(** With distinct keys, sorting forgets the order of the input. *)
Lemma sort_by_key_unique l k :
  NoDup (f <$> l) → l ≡ₚ k → sort_by_key l = sort_by_key k.
Proof.
  intros Hnd Hp. apply (StronglySorted_unique_strong key_le); [|apply sort_by_key_sorted..|].
  2: by rewrite !sort_by_key_perm.
  intros x1 x2 Hx1 Hx2 H1 H2.
  assert (f x1 = f x2) as Hf by (apply (anti_symm ole); done).
  rewrite sort_by_key_perm in Hx1. rewrite sort_by_key_perm, <-Hp in Hx2.
  clear -Hnd Hf Hx1 Hx2. induction l as [|y l IH]; [set_solver|].
  csimpl in *. apply NoDup_cons in Hnd as [Hy Hnd].
  apply elem_of_cons in Hx1 as [->|Hx1]; apply elem_of_cons in Hx2 as [->|Hx2]; [done|..].
  - destruct Hy. rewrite Hf. by apply list_elem_of_fmap_2.
  - destruct Hy. rewrite <-Hf. by apply list_elem_of_fmap_2.
  - by apply IH.
Qed.

End sort_by_key.

(** Mapping values commutes with sorting by a key that ignores them. *)
Lemma sort_by_key_fmap {A A' B} `{Ord B} (f : A → B) (f' : A' → B) (g : A → A') l :
  (∀ x, f' (g x) = f x) → sort_by_key f' (g <$> l) = g <$> sort_by_key f l.
Proof.
  intros Hg. assert (∀ x l, key_insert f' (g x) (g <$> l) = g <$> key_insert f x l) as Hi.
  { intros x k. induction k as [|y k IH]; csimpl; [done|]. rewrite !Hg.
    destruct (cmp (f x) (f y)); csimpl; by rewrite ?IH. }
  induction l as [|x l IH]; [done|]. csimpl. change (sort_by_key f' (g x :: (g <$> l)))
    with (key_insert f' (g x) (sort_by_key f' (g <$> l))). by rewrite IH, Hi.
Qed.
