(* ===== verification/Regex.v ===== *)
(** * Regular expressions

    The fragment the identifier patterns of the source are written in, with its
    matching relation: what a pattern matches, as a specification for the
    hand-written validators. *)

From Stdlib Require Import Ascii.
From stdpp Require Import base list strings.
From S2P Require Import Prelude Strings.

Inductive re : Type :=
| Cls (p : ascii → bool)
| Eps
| Cat (r1 r2 : re)
| Alt (r1 r2 : re)
| Star (r : re).

Definition Chr (c : ascii) : re := Cls (Ascii.eqb c).
Definition Plus (r : re) : re := Cat r (Star r).
Definition Opt (r : re) : re := Alt Eps r.

Inductive re_match : re → string → Prop :=
| match_cls p c : p c = true → re_match (Cls p) (str1 c)
| match_eps : re_match Eps ε
| match_cat r1 r2 a b : re_match r1 a → re_match r2 b → re_match (Cat r1 r2) (a +:+ b)
| match_alt_l r1 r2 a : re_match r1 a → re_match (Alt r1 r2) a
| match_alt_r r1 r2 a : re_match r2 a → re_match (Alt r1 r2) a
| match_star_nil r : re_match (Star r) ε
| match_star_cons r a b : re_match r a → re_match (Star r) b → re_match (Star r) (a +:+ b).
#[export] Hint Constructors re_match : rust.

Lemma match_Cls p s : re_match (Cls p) s ↔ ∃ c, s = str1 c ∧ p c = true.
Proof. split; [inversion 1; eauto|]. intros (c & -> & ?). by constructor. Qed.

Lemma match_Chr c s : re_match (Chr c) s ↔ s = str1 c.
Proof.
  unfold Chr. rewrite match_Cls. split.
  - intros (d & -> & Hd). by apply Ascii.eqb_eq in Hd as ->.
  - intros ->. exists c. by rewrite Ascii.eqb_refl.
Qed.

Lemma match_Cat r1 r2 s :
  re_match (Cat r1 r2) s ↔ ∃ a b, s = a +:+ b ∧ re_match r1 a ∧ re_match r2 b.
Proof. split; [inversion 1; eauto 10|]. intros (a & b & -> & ? & ?). by constructor. Qed.

Lemma match_Opt r s : re_match (Opt r) s ↔ s = ε ∨ re_match r s.
Proof.
  unfold Opt. split.
  - inversion 1 as [| | |? ? ? H'|? ? ? H'| |]; subst; [|by right]. left. by inversion H'.
  - intros [->|H]; [apply match_alt_l; constructor|by apply match_alt_r].
Qed.

(** A starred match is a sequence of matches. *)
Lemma match_Star r s :
  re_match (Star r) s ↔ ∃ l, s = concat_str l ∧ Forall (re_match r) l.
Proof.
  split.
  - intros H. remember (Star r) as r' eqn:Hr. induction H; simplify_eq/=.
    + by exists [].
    + destruct IHre_match2 as (l & -> & Hl); [done|]. exists (a :: l). by split; [|constructor].
  - intros (l & -> & Hl). induction Hl; simpl; by constructor.
Qed.

Lemma match_Plus r s :
  re_match (Plus r) s ↔ ∃ l, l ≠ [] ∧ s = concat_str l ∧ Forall (re_match r) l.
Proof.
  unfold Plus. rewrite match_Cat. setoid_rewrite match_Star. split.
  - intros (a & b & -> & Ha & l & -> & Hl). exists (a :: l). split; [done|]. split; [done|]. by constructor.
  - intros (l & Hne & -> & Hl). destruct l as [|a l]; [done|].
    apply Forall_cons in Hl as [Ha Hl]. exists a, (concat_str l). eauto 10.
Qed.

(** One or more bytes of a class. *)
Lemma match_Plus_Cls p s : re_match (Plus (Cls p)) s ↔ s ≠ ε ∧ bytes_all p s = true.
Proof.
  rewrite match_Plus. split.
  - intros (l & Hne & -> & Hl). split.
    + destruct l as [|a l]; [done|]. by apply Forall_cons in Hl as [(c & -> & _)%match_Cls _].
    + clear Hne. induction Hl as [|b k (c & -> & Hc)%match_Cls _ IH]; simpl; [done|].
      by rewrite Hc, IH.
  - intros [Hne Hs]. exists (str1 <$> bytes s). destruct s as [|c s]; [done|]. split; [done|].
    clear Hne. revert Hs. generalize (String c s). clear. intros s. induction s as [|d s IH].
    + by split; [|constructor].
    + cbn [bytes_all]. intros [Hd Hs]%andb_true_iff. destruct (IH Hs) as [Heq Hl].
      split; [simpl; by f_equal|]. constructor; [by constructor|done].
Qed.

(** A fixed text, and one of several patterns. *)
Fixpoint Lit (s : string) : re :=
  match s with ε => Eps | String c s => Cat (Chr c) (Lit s) end.
Definition Alts (l : list re) : re :=
  match l with [] => Cls (λ _, false) | r :: l => foldl Alt r l end.

Lemma match_Eps s : re_match Eps s ↔ s = ε.
Proof. split; [by inversion 1|intros ->; constructor]. Qed.

Lemma match_Lit t s : re_match (Lit t) s ↔ s = t.
Proof.
  revert s. induction t as [|c t IH]; intros s; simpl; [apply match_Eps|].
  rewrite match_Cat. setoid_rewrite match_Chr. setoid_rewrite IH. split.
  - by intros (a & b & -> & -> & ->).
  - intros ->. by exists (str1 c), t.
Qed.

Lemma match_Alt r1 r2 s : re_match (Alt r1 r2) s ↔ re_match r1 s ∨ re_match r2 s.
Proof.
  split; [inversion 1; subst; auto|]. intros [H|H]; [by apply match_alt_l|by apply match_alt_r].
Qed.

Lemma match_Alts l s : re_match (Alts l) s ↔ ∃ r, r ∈ l ∧ re_match r s.
Proof.
  destruct l as [|r l]; simpl.
  - rewrite match_Cls. split; [by intros (c & _ & ?)|by intros (r & ?%not_elem_of_nil & _)].
  - revert r. induction l as [|q l IH]; intros r; simpl.
    + split; [intros H; exists r; split; [by left|done]|by intros (q & ->%list_elem_of_singleton & H)].
    + rewrite IH. split.
      * intros (q' & [->|Hq]%elem_of_cons & H); [|exists q'; split; [by right; right|done]].
        apply match_Alt in H as [H|H]; [by exists r; split; [left|]|].
        exists q. split; [by right; left|done].
      * intros (q' & Hq & H). rewrite !elem_of_cons in Hq. destruct Hq as [->|[->|Hq]].
        -- exists (Alt r q). split; [by left|by apply match_alt_l].
        -- exists (Alt r q). split; [by left|by apply match_alt_r].
        -- exists q'. split; [by right|done].
Qed.
