(* ===== verification/Ids.v ===== *)
(** * Identifiers ([crates/core/src/ids.rs])

    Object IDs, classes, resource types, resource IDs, descriptors and GUResIDs,
    with their validation. Every identifier type of the source is a newtype over
    [String] whose only constructor validates; here an identifier is its string,
    [X_new] is the constructor, and [X_valid] the invariant it establishes. *)

From Stdlib Require Import Ascii.
From stdpp Require Import base sets list strings.
From S2P Require Import Prelude Strings OrdMap Regex.

Local Open Scope string_scope.
Local Open Scope nat_scope.
Local Open Scope list_scope.

Definition MAX_ID_LEN : nat := 50.

Record IdError := mk_IdError { ie_kind : string; ie_value : string; ie_reason : string }.

Definition OBJECT_ID_RULE : string :=
  "IDs use lowercase letters, digits and single hyphens, start and end with a letter or digit, and are 2 to 50 characters long".

Definition alnum (c : ascii) : bool := is_ascii_lowercase c || is_ascii_digit c.

(** [b.windows(2).all(p)]. *)
Fixpoint windows2_all (p : ascii → ascii → bool) (s : string) : bool :=
  match s with
  | String x (String y _ as s') => p x y && windows2_all p s'
  | _ => true
  end.

Definition is_valid_object_id (s : string) : bool :=
  let n := String.length s in
  if (n <? 2)%nat || (MAX_ID_LEN <? n)%nat then false else
  match first_byte s, last_byte s with
  | Some b0, Some bl =>
      if negb (alnum b0) || negb (alnum bl) then false else
      windows2_all (λ x y,
        if Ascii.eqb x "-" && Ascii.eqb y "-" then false
        else (alnum x || Ascii.eqb x "-") && (alnum y || Ascii.eqb y "-")) s
  | _, _ => false
  end.

Definition validate_object_id (kind s : string) : result unit IdError :=
  if is_valid_object_id s then Ok tt else Err (mk_IdError kind s OBJECT_ID_RULE).

(** The constructor the [object_id!] macro gives every object ID type. *)
Definition object_id_new (kind s : string) : result string IdError :=
  let? _ := validate_object_id kind s in Ok s.

Definition OrgId_new := object_id_new "organization ID".
Definition AppId_new := object_id_new "application ID".
Definition EnvId_new := object_id_new "environment ID".
Definition EnvTypeId_new := object_id_new "environment type ID".
Definition DefinitionId_new := object_id_new "resource definition ID".
Definition CriterionId_new := object_id_new "criterion ID".
Definition AccountId_new := object_id_new "cloud account ID".
Definition WorkloadId_new := object_id_new "workload name".

(** ** Classes *)

Definition ClassId_new (s : string) : result string IdError :=
  let? _ := validate_object_id "class" s in Ok s.
Definition default_class : string := "default".
Definition is_default (c : string) : bool := String.eqb c "default".

(** ** Resource types *)

Definition is_type_name (s : string) : bool :=
  negb (str_is_empty s)
  && (String.length s <=? MAX_ID_LEN)%nat
  && bytes_all (λ c, is_ascii_lowercase c || is_ascii_digit c || Ascii.eqb c "-") s
  && negb (starts_with_char "-" s)
  && negb (ends_with_char "-" s).

Definition resource_type_ok (s : string) : bool :=
  match split_once "/" s with
  | Some (org, name) => is_valid_object_id org && is_type_name name
  | None => is_type_name s
  end.

Definition ResourceTypeId_new (s : string) : result string IdError :=
  if resource_type_ok s then Ok s
  else Err (mk_IdError "resource type" s
    "types are lowercase names such as `postgres`, or `{org}/{name}` for custom types").

Definition is_custom (ty : string) : bool := contains_char "/" ty.

(** ** Resource IDs *)

Definition res_id_byte (c : ascii) : bool :=
  is_ascii_alphanumeric c || Ascii.eqb c "-" || Ascii.eqb c "_".

Definition res_id_ok (s : string) : bool :=
  negb (str_is_empty s)
  && (String.length s <=? 255)%nat
  && forallb (λ seg, negb (str_is_empty seg) && bytes_all res_id_byte seg) (split "." s).

Definition ResId_new (s : string) : result string IdError :=
  if res_id_ok s then Ok s
  else Err (mk_IdError "resource ID" s
    "resource IDs are dot-separated segments of letters, digits, `-` and `_`").

Definition ResId_workload (workload : string) : string := "modules." +:+ workload.
Definition ResId_private (workload key : string) : result string IdError :=
  ResId_new ("modules." +:+ workload +:+ ".externals." +:+ key).
Definition ResId_shared (id : string) : result string IdError := ResId_new ("shared." +:+ id).

(** ** Descriptors *)

Record Descriptor := mk_Descriptor { d_ty : string; d_class : string; d_id : string }.

#[export] Instance Descriptor_eq_dec : EqDecision Descriptor.
Proof. solve_decision. Defined.

(** The derived order: type, then class, then ID. *)
Definition descriptor_key (d : Descriptor) : string * (string * string) :=
  (d_ty d, (d_class d, d_id d)).
#[export] Instance ord_Descriptor : Ord Descriptor.
Proof. apply (ord_inj descriptor_key). by intros [] [] [= -> -> ->]. Defined.

Definition descriptor_err (s : string) : IdError :=
  mk_IdError "resource descriptor" s "expected `<type>.<class>#<res_id>`".

Definition Descriptor_parse (s : string) : result Descriptor IdError :=
  let? (head, id) := ok_or (split_once "#" s) (descriptor_err s) in
  let? (ty, class) := ok_or (split_once "." head) (descriptor_err s) in
  let? ty := ResourceTypeId_new ty in
  let? class := ClassId_new class in
  let? id := ResId_new id in
  Ok (mk_Descriptor ty class id).

Definition Descriptor_show (d : Descriptor) : string :=
  d_ty d +:+ "." +:+ d_class d +:+ "#" +:+ d_id d.

(** ** GUResIDs *)

Definition is_lower_hex (c : ascii) : bool := is_ascii_digit c || in_range 97 102 c.

Definition Guresid_new (s : string) : result string IdError :=
  if (String.length s =? 32)%nat && bytes_all is_lower_hex s then Ok s
  else Err (mk_IdError "GUResID" s "expected 32 lowercase hexadecimal characters").

Definition Guresid_from_bytes (l : list Byte.byte) : string := concat_str (hex2 <$> l).

(** ** Invariants *)

(** What a value of the identifier's type satisfies. *)
Definition descriptor_valid (d : Descriptor) : Prop :=
  resource_type_ok (d_ty d) = true ∧ is_valid_object_id (d_class d) = true
  ∧ res_id_ok (d_id d) = true.

(** ** Lemmas *)

Lemma object_id_new_Ok kind s t :
  object_id_new kind s = Ok t ↔ t = s ∧ is_valid_object_id s = true.
Proof.
  unfold object_id_new, validate_object_id.
  destruct (is_valid_object_id s); split; try naive_solver.
Qed.

Lemma ClassId_new_Ok s t : ClassId_new s = Ok t ↔ t = s ∧ is_valid_object_id s = true.
Proof. apply object_id_new_Ok. Qed.

Lemma ResourceTypeId_new_Ok s t :
  ResourceTypeId_new s = Ok t ↔ t = s ∧ resource_type_ok s = true.
Proof. unfold ResourceTypeId_new. destruct (resource_type_ok s); naive_solver. Qed.

Lemma ResId_new_Ok s t : ResId_new s = Ok t ↔ t = s ∧ res_id_ok s = true.
Proof. unfold ResId_new. destruct (res_id_ok s); naive_solver. Qed.

(** *** Object IDs as hyphen-separated segments *)

Definition seg_ok (s : string) : Prop := s ≠ ε ∧ bytes_all alnum s = true.
Definition segs_ok (s : string) : Prop := Forall seg_ok (split "-" s).

Definition id_window (x y : ascii) : bool :=
  if Ascii.eqb x "-" && Ascii.eqb y "-" then false
  else (alnum x || Ascii.eqb x "-") && (alnum y || Ascii.eqb y "-").

Lemma alnum_not_dash c : alnum c = true → Ascii.eqb c "-" = false.
Proof. destruct (Ascii.eqb_spec c "-") as [->|]; done. Qed.

Lemma segs_ok_cons c s :
  alnum c = true → segs_ok s → segs_ok (String c s).
Proof.
  unfold segs_ok. intros Hc Hs. cbn [split]. rewrite alnum_not_dash by done.
  destruct (split "-" s) as [|h t]; [by apply Forall_singleton; split; [|cbn; rewrite Hc]|].
  apply Forall_cons in Hs as [[_ Hh] Ht]. constructor; [|done]. split; [done|]. cbn.
  by rewrite Hc, Hh.
Qed.

Lemma segs_ok_one c : alnum c = true → segs_ok (str1 c).
Proof.
  intros Hc. unfold segs_ok. cbn [split str1]. rewrite alnum_not_dash by done.
  apply Forall_singleton. split; [done|]. cbn. by rewrite Hc.
Qed.

Lemma segs_ok_dash c s :
  alnum c = true → segs_ok s → segs_ok (String c (String "-" s)).
Proof.
  unfold segs_ok. intros Hc Hs. cbn [split]. rewrite alnum_not_dash by done. simpl.
  constructor; [|done]. split; [done|]. cbn. by rewrite Hc.
Qed.

Lemma windows_segs s bl :
  last_byte s = Some bl → alnum bl = true → windows2_all id_window s = true →
  match s with
  | ε => True
  | String c r => (alnum c = true → segs_ok s) ∧ (c = "-"%char → segs_ok r)
  end.
Proof.
  intros Hl Hbl. revert Hl. induction s as [|c [|d r] IH]; intros Hl Hw; [done|..].
  - injection Hl as ->. split; [apply segs_ok_one|intros ->; done].
  - cbn [windows2_all] in Hw. apply andb_true_iff in Hw as [Hcd Hw].
    destruct (IH Hl Hw) as [IH1 IH2]. unfold id_window in Hcd.
    destruct (Ascii.eqb_spec c "-") as [->|Hc]; simpl in Hcd.
    + split; [done|]. intros _. destruct (Ascii.eqb_spec d "-"); [done|].
      apply IH1. simpl in Hcd. by rewrite orb_false_r in Hcd.
    + split; [|done]. intros Hca. rewrite Hca in Hcd. simpl in Hcd.
      destruct (Ascii.eqb_spec d "-") as [->|]; [by apply segs_ok_dash, IH2|].
      rewrite orb_false_r in Hcd. by apply segs_ok_cons, IH1.
Qed.

Lemma segs_windows n s :
  (String.length s < n)%nat → segs_ok s →
  ∃ b0 bl, first_byte s = Some b0 ∧ alnum b0 = true ∧ last_byte s = Some bl ∧ alnum bl = true
    ∧ windows2_all id_window s = true.
Proof.
  revert s. induction n as [|n IH]; intros s Hn Hs; [lia|].
  destruct s as [|c r]; [by apply Forall_singleton in Hs as [? _]|].
  unfold segs_ok in Hs. cbn [split] in Hs. destruct (Ascii.eqb_spec c "-") as [->|Hc].
  { by apply Forall_cons in Hs as [[? _] _]. }
  destruct (split "-" r) as [|h t] eqn:E; [by apply split_not_nil in E|].
  apply Forall_cons in Hs as [[_ Hch] Ht]. cbn in Hch. apply andb_true_iff in Hch as [Hca Hh].
  destruct r as [|d r'].
  { exists c, c. done. }
  cbn [split] in E. destruct (Ascii.eqb_spec d "-") as [->|Hd].
  - injection E as <- <-. destruct (IH r') as (b0 & bl & H1 & H2 & H3 & H4 & H5).
    { simpl in Hn. lia. }
    { done. }
    exists c, bl. destruct r' as [|e r'']; [done|]. injection H1 as ->.
    repeat split; [done..|]. cbn [windows2_all]. cbn [windows2_all] in H5. rewrite H5.
    unfold id_window. rewrite Hca, (alnum_not_dash c Hca), H2, (alnum_not_dash b0 H2). done.
  - destruct (IH (String d r')) as (b0 & bl & H1 & H2 & H3 & H4 & H5).
    { simpl in Hn |- *. lia. }
    { unfold segs_ok. cbn [split]. rewrite (proj2 (Ascii.eqb_neq d "-") Hd), E.
      constructor; [|done]. split; [|done]. destruct (split "-" r'); by simplify_eq. }
    injection H1 as ->. exists c, bl. repeat split; [done..|].
    cbn [windows2_all]. cbn [windows2_all] in H5. rewrite H5.
    unfold id_window. rewrite Hca, H2, (alnum_not_dash c Hca). done.
Qed.

Lemma is_valid_object_id_segs s :
  is_valid_object_id s = true ↔ (2 ≤ String.length s ≤ MAX_ID_LEN)%nat ∧ segs_ok s.
Proof.
  unfold is_valid_object_id. fold id_window. split.
  - destruct (_ || _) eqn:Hlen; [done|]. bool_hyps. intros Hv. split; [lia|].
    destruct (first_byte s) as [b0|] eqn:E0; [|done].
    destruct (last_byte s) as [bl|] eqn:El; [|done].
    destruct (negb (alnum b0) || negb (alnum bl)) eqn:Hb; [done|]. bool_hyps.
    pose proof (windows_segs s bl El ltac:(done) Hv) as Hw.
    destruct s as [|c r]; [done|]. injection E0 as ->. by apply Hw.
  - intros [Hlen Hs]. replace (_ || _) with false.
    2: { symmetry. apply orb_false_iff. rewrite !Nat.ltb_ge. lia. }
    destruct (segs_windows (S (String.length s)) s) as (b0 & bl & -> & H1 & -> & H2 & H3); [lia|done|].
    by rewrite H1, H2.
Qed.

(** *** The published patterns *)

(** [OBJECT_ID_PATTERN]: [^[a-z0-9]+(?:-[a-z0-9]+)*$]. *)
Definition OBJECT_ID_PATTERN : re :=
  Cat (Plus (Cls alnum)) (Star (Cat (Chr "-") (Plus (Cls alnum)))).

(** The rule of the API specification: [^[a-z0-9](?:-?[a-z0-9]+)+$]. *)
Definition API_ID_PATTERN : re :=
  Cat (Cls alnum) (Plus (Cat (Opt (Chr "-")) (Plus (Cls alnum)))).

Lemma segs_ok_split s :
  segs_ok s ↔ ∃ h t, seg_ok h ∧ Forall seg_ok t
    ∧ s = h +:+ concat_str ((λ x, String "-" x) <$> t).
Proof.
  assert (∀ (h : string) t, join (str1 "-") (h :: t)
    = h +:+ concat_str ((λ x, String "-" x) <$> t)) as Hj.
  { intros h t. revert h. induction t as [|x t IH]; intros h; [by cbn; rewrite app_eps_r|].
    rewrite join_cons, IH. done. }
  split.
  - unfold segs_ok. intros Hs. pose proof (join_split "-" s) as Hjs.
    destruct (split "-" s) as [|h t] eqn:Esp; [by apply split_not_nil in Esp|].
    apply Forall_cons in Hs as [Hh Ht]. exists h, t. by rewrite <-Hj, Hjs.
  - intros (h & t & Hh & Ht & ->). unfold segs_ok. rewrite <-Hj.
    assert (Forall seg_ok (h :: t)) as Hht by (by constructor).
    rewrite split_join; [done|done|]. eapply Forall_impl; [exact Hht|].
    intros x [_ Hx]. by eapply (bytes_all_no_char alnum).
Qed.

Lemma match_dash_segs s :
  re_match (Star (Cat (Chr "-") (Plus (Cls alnum)))) s ↔
  ∃ t, Forall seg_ok t ∧ s = concat_str ((λ x, String "-" x) <$> t).
Proof.
  rewrite match_Star. split.
  - intros (l & -> & Hl). induction Hl as [|x l Hx Hl IH]; [by exists []|].
    apply match_Cat in Hx as (a & b & -> & Ha & Hb%match_Plus_Cls). apply match_Chr in Ha as ->.
    destruct IH as (t & Ht & Heq). exists (b :: t). split; [by constructor|].
    simpl. by rewrite Heq.
  - intros (t & Ht & ->). eexists. split; [done|]. apply Forall_fmap.
    eapply Forall_impl; [exact Ht|]. intros x Hx. apply match_Cat.
    exists (str1 "-"), x. split; [done|]. split; [by apply match_Chr|by apply match_Plus_Cls].
Qed.

Lemma object_id_pattern_segs s : re_match OBJECT_ID_PATTERN s ↔ segs_ok s.
Proof.
  rewrite segs_ok_split. unfold OBJECT_ID_PATTERN. rewrite match_Cat.
  setoid_rewrite match_dash_segs. setoid_rewrite match_Plus_Cls. split.
  - intros (h & b & -> & Hh & t & Ht & ->). by exists h, t.
  - intros (h & t & Hh & Ht & ->). exists h. eexists. split; [done|]. split; [done|]. by exists t.
Qed.

Lemma segs_ok_app_alnum s x :
  segs_ok s → bytes_all alnum x = true → segs_ok (s +:+ x).
Proof.
  rewrite segs_ok_split. intros (h & t & Hh & Ht & ->) Hx.
  destruct t as [|y t _] using rev_ind.
  - apply segs_ok_split. exists (h +:+ x), []. simpl. rewrite !app_eps_r.
    split; [|done]. destruct Hh as [Hne Hh]. split; [by destruct h|].
    by rewrite bytes_all_app, Hh, Hx.
  - apply Forall_app in Ht as [Ht Hy]. apply Forall_singleton in Hy as [Hyne Hy].
    apply segs_ok_split. exists h, (t ++ [y +:+ x]). split; [done|]. split.
    + apply Forall_app. split; [done|]. apply Forall_singleton. split; [by destruct y|].
      by rewrite bytes_all_app, Hy, Hx.
    + rewrite !fmap_app, !concat_str_app. cbn [fmap list_fmap concat_str foldr].
      rewrite !app_eps_r, !app_assoc_str. done.
Qed.

Lemma segs_ok_app_dash s x :
  segs_ok s → seg_ok x → segs_ok (s +:+ String "-" x).
Proof.
  rewrite !segs_ok_split. intros (h & t & Hh & Ht & ->) Hx. exists h, (t ++ [x]).
  split; [done|]. split; [apply Forall_app; by split; [|apply Forall_singleton]|].
  rewrite fmap_app, concat_str_app. cbn [fmap list_fmap concat_str foldr].
  by rewrite app_eps_r, app_assoc_str.
Qed.

Lemma api_id_pattern_segs s :
  re_match API_ID_PATTERN s ↔ (2 ≤ String.length s)%nat ∧ segs_ok s.
Proof.
  unfold API_ID_PATTERN. rewrite match_Cat. split.
  - intros (a & b & -> & (c & -> & Hc)%match_Cls & (l & Hne & -> & Hl)%match_Plus).
    assert (∀ x, re_match (Cat (Opt (Chr "-")) (Plus (Cls alnum))) x →
      x ≠ ε ∧ ∀ s, segs_ok s → segs_ok (s +:+ x)) as Hchunk.
    { intros x (u & v & -> & Hu & Hv%match_Plus_Cls)%match_Cat.
      apply match_Opt in Hu as [->|Hu]; [|apply match_Chr in Hu as ->].
      - split; [apply Hv|]. intros s Hs. apply segs_ok_app_alnum; [done|apply Hv].
      - split; [done|]. intros s Hs. by apply segs_ok_app_dash. }
    split.
    + destruct l as [|x l]; [done|]. apply Forall_cons in Hl as [Hx _].
      apply Hchunk in Hx as [Hx _]. destruct x; [done|]. simpl. lia.
    + clear Hne. pose proof (segs_ok_one c Hc) as Hs. revert Hs. generalize (str1 c).
      induction Hl as [|x l Hx Hl IH]; intros a Ha; simpl; [by rewrite app_eps_r|].
      rewrite <-app_assoc_str. apply IH. by apply Hchunk.
  - intros [Hlen Hs]. apply segs_ok_split in Hs as (h & t & [Hne Hh] & Ht & ->).
    destruct h as [|c h]; [done|]. simpl in Hh. apply andb_true_iff in Hh as [Hc Hh].
    exists (str1 c), (h +:+ concat_str ((λ x, String "-" x) <$> t)).
    split; [done|]. split; [apply match_Cls; eauto|].
    apply match_Plus. assert (Forall (re_match (Cat (Opt (Chr "-")) (Plus (Cls alnum))))
      ((λ x, String "-" x) <$> t)) as Hmt.
    { apply Forall_fmap. eapply Forall_impl; [exact Ht|]. intros x Hx. apply match_Cat.
      exists (str1 "-"), x. split; [done|]. split; [|by apply match_Plus_Cls].
      apply match_Opt. right. by apply match_Chr. }
    destruct h as [|d h].
    + exists ((λ x, String "-" x) <$> t). split; [|done]. intros ->%fmap_nil_inv.
      simpl in Hlen. lia.
    + exists (String d h :: ((λ x, String "-" x) <$> t)). split; [done|]. split; [done|].
      constructor; [|done]. apply match_Cat. exists ε, (String d h). split; [done|].
      split; [apply match_Opt; by left|]. by apply match_Plus_Cls.
Qed.

(** An object ID is accepted exactly when it matches the API's pattern
    [^[a-z0-9](?:-?[a-z0-9]+)+$] with at most 50 bytes, and exactly when it matches the
    published JSON Schema (pattern [^[a-z0-9]+(?:-[a-z0-9]+)*$], 2 to 50 bytes). *)
Theorem object_id_matches_patterns (s : string) :
  (is_valid_object_id s = true ↔
     re_match API_ID_PATTERN s ∧ (String.length s ≤ MAX_ID_LEN)%nat)
  ∧ (is_valid_object_id s = true ↔
     re_match OBJECT_ID_PATTERN s ∧ (2 ≤ String.length s ≤ MAX_ID_LEN)%nat).
Proof.
  rewrite is_valid_object_id_segs, api_id_pattern_segs, object_id_pattern_segs.
  split; split; intros; destruct_and!; repeat split; done.
Qed.

(** *** Alphabets *)

Definition id_byte (c : ascii) : bool := alnum c || Ascii.eqb c "-".

Lemma segs_ok_bytes s : segs_ok s → s ≠ ε ∧ bytes_all id_byte s = true.
Proof.
  intros (h & t & [Hne Hh] & Ht & ->)%segs_ok_split. split; [by destruct h|].
  assert (∀ x, bytes_all alnum x = true → bytes_all id_byte x = true) as Himpl.
  { intros x. apply bytes_all_impl. unfold id_byte. by intros c ->. }
  rewrite bytes_all_app, Himpl by done. clear -Ht Himpl.
  induction Ht as [|x t [_ Hx] _ IH]; simpl; [done|]. rewrite bytes_all_app, Himpl by done.
  exact IH.
Qed.

Lemma object_id_bytes s :
  is_valid_object_id s = true →
  s ≠ ε ∧ String.length s ≤ MAX_ID_LEN ∧ bytes_all id_byte s = true.
Proof.
  intros [Hlen Hs]%is_valid_object_id_segs. apply segs_ok_bytes in Hs as [? ?].
  repeat split; [done|lia|done].
Qed.

Lemma type_name_bytes s :
  is_type_name s = true →
  s ≠ ε ∧ String.length s ≤ MAX_ID_LEN ∧ bytes_all id_byte s = true.
Proof. unfold is_type_name. intros H. bool_hyps. repeat split; [by destruct s|done|done]. Qed.

Definition type_byte (c : ascii) : bool := id_byte c || Ascii.eqb c "/".

Lemma id_byte_type_byte s : bytes_all id_byte s = true → bytes_all type_byte s = true.
Proof. apply bytes_all_impl. unfold type_byte. by intros c ->. Qed.

Lemma resource_type_bytes s :
  resource_type_ok s = true →
  s ≠ ε ∧ String.length s ≤ 2 * MAX_ID_LEN + 1 ∧ bytes_all type_byte s = true.
Proof.
  unfold resource_type_ok. destruct (split_once "/" s) as [[org name]|] eqn:E.
  - intros [(Ho & Hlo & Hbo)%object_id_bytes (Hn & Hln & Hbn)%type_name_bytes]%andb_true_iff.
    apply split_once_Some in E as [-> _]. split; [by destruct org|].
    rewrite length_app_str, bytes_all_app. unfold MAX_ID_LEN in *. simpl. split; [lia|].
    by rewrite !id_byte_type_byte.
  - intros (Hn & Hln & Hbn)%type_name_bytes. unfold MAX_ID_LEN in *. split; [done|]. split; [lia|].
    by apply id_byte_type_byte.
Qed.

Lemma resource_type_no_char c s :
  type_byte c = false → resource_type_ok s = true → contains_char c s = false.
Proof. intros Hc (_ & _ & Hb)%resource_type_bytes. by eapply bytes_all_no_char. Qed.

Lemma object_id_no_char c s :
  id_byte c = false → is_valid_object_id s = true → contains_char c s = false.
Proof. intros Hc (_ & _ & Hb)%object_id_bytes. by eapply bytes_all_no_char. Qed.

#[export] Hint Resolve resource_type_no_char object_id_no_char : rust.

(** Parsing a descriptor inverts printing it: [Descriptor::parse] accepts a string
    exactly when it is the text [<type>.<class>#<res_id>] of a valid descriptor, and
    returns that descriptor. So texts identify descriptors. *)
Theorem descriptor_roundtrip (s : string) (d : Descriptor) :
  Descriptor_parse s = Ok d ↔ descriptor_valid d ∧ s = Descriptor_show d.
Proof.
  unfold Descriptor_parse, Descriptor_show. split.
  - intros H. destruct (split_once "#" s) as [[head id]|] eqn:E1; [|done]. simpl in H.
    destruct (split_once "." head) as [[ty class]|] eqn:E2; [|done]. simpl in H.
    inv_result H.
    apply ResourceTypeId_new_Ok in E as [-> ?]. apply ClassId_new_Ok in E0 as [-> ?].
    apply ResId_new_Ok in E3 as [-> ?].
    apply split_once_Some in E1 as [-> _]. apply split_once_Some in E2 as [-> _]. split.
    + by repeat split.
    + simpl. by rewrite app_assoc_str.
  - intros [(Ht & Hc & Hi) ->]. destruct d as [ty class id].
    cbn [d_ty d_class d_id] in *.
    replace (ty +:+ "." +:+ class +:+ "#" +:+ id)
      with ((ty +:+ "." +:+ class) +:+ String "#" id) by (by rewrite !app_assoc_str).
    rewrite split_once_app.
    2: { rewrite !contains_char_app. simpl. by rewrite resource_type_no_char, object_id_no_char. }
    cbn [ok_or]. change (ty +:+ "." +:+ class) with (ty +:+ String "." class).
    rewrite split_once_app by auto with rust. cbn [ok_or].
    unfold ResourceTypeId_new, ClassId_new, validate_object_id, ResId_new.
    by rewrite Ht, Hc, Hi.
Qed.

(** *** Resource IDs *)

Lemma res_id_ok_no_dot s :
  s ≠ ε → String.length s ≤ 255 → bytes_all res_id_byte s = true → res_id_ok s = true.
Proof.
  intros Hne Hlen Hb. unfold res_id_ok.
  rewrite split_no_char by (by apply (bytes_all_no_char res_id_byte)). simpl. rewrite Hb.
  destruct s; [done|]. rewrite (proj2 (Nat.leb_le _ _)) by lia. done.
Qed.

Lemma id_byte_res_id_byte c : id_byte c = true → res_id_byte c = true.
Proof.
  unfold id_byte, res_id_byte, alnum, is_ascii_alphanumeric.
  destruct (is_ascii_lowercase c), (is_ascii_uppercase c), (is_ascii_digit c), (Ascii.eqb c "-"); done.
Qed.

(** Replacing one byte by another. *)
Lemma replace_char_cons a b c s :
  replace (str1 a) (str1 b) (String c s)
  = String (if Ascii.eqb c a then b else c) (replace (str1 a) (str1 b) s).
Proof.
  unfold replace. cbn [replace_go]. unfold starts_with, is_some. cbn.
  rewrite (Ascii.eqb_sym a c). destruct (Ascii.eqb c a); by destruct s.
Qed.

Lemma replace_char_length a b s : String.length (replace (str1 a) (str1 b) s) = String.length s.
Proof. induction s as [|c s IH]; [done|]. rewrite replace_char_cons. simpl. by rewrite IH. Qed.

Lemma replace_char_bytes (p q : ascii → bool) a b s :
  q b = true → (∀ c, p c = true → c ≠ a → q c = true) →
  bytes_all p s = true → bytes_all q (replace (str1 a) (str1 b) s) = true.
Proof.
  intros Hb Hpq. induction s as [|c s IH]; [done|]. rewrite replace_char_cons. simpl.
  intros [Hc Hs]%andb_true_iff. rewrite IH by done. rewrite andb_true_r.
  destruct (Ascii.eqb_spec c a) as [->|Hne]; [done|]. by apply Hpq.
Qed.

Lemma type_res_id_ok ty : resource_type_ok ty = true → res_id_ok (replace "/" "-" ty) = true.
Proof.
  intros (Hne & Hlen & Hb)%resource_type_bytes.
  change "/" with (str1 "/"). change "-" with (str1 "-"). apply res_id_ok_no_dot.
  - destruct ty; [done|]. by rewrite replace_char_cons.
  - rewrite replace_char_length. unfold MAX_ID_LEN in Hlen. lia.
  - eapply replace_char_bytes; [done| |exact Hb]. intros c Hc Hne'.
    apply id_byte_res_id_byte. unfold type_byte in Hc.
    by rewrite (proj2 (Ascii.eqb_neq c "/") Hne'), orb_false_r in Hc.
Qed.

Lemma workload_res_id_ok w : is_valid_object_id w = true → res_id_ok (ResId_workload w) = true.
Proof.
  intros (Hne & Hlen & Hb)%object_id_bytes. unfold ResId_workload, res_id_ok.
  change ("modules." +:+ w) with ("modules" +:+ String "." w). rewrite length_app_str.
  assert (bytes_all res_id_byte w = true) as Hw
    by (eapply bytes_all_impl; [apply id_byte_res_id_byte|done]).
  rewrite split_app, split_no_char by first [done | by apply (bytes_all_no_char res_id_byte)].
  rewrite (proj2 (Nat.leb_le _ _)) by (simpl; unfold MAX_ID_LEN in Hlen; lia).
  simpl. rewrite Hw. by destruct w.
Qed.
#[export] Hint Resolve type_res_id_ok workload_res_id_ok : rust.

(** The [expect] calls on derived resource IDs never panic: an implicit type's name
    with [/] replaced by [-] (in [ResourceRef::resolve]) and a workload's
    [modules.<workload>] are valid resource IDs. *)
Theorem derived_resource_ids_valid (ty w : string) :
  (resource_type_ok ty = true → ResId_new (replace "/" "-" ty) = Ok (replace "/" "-" ty))
  ∧ (is_valid_object_id w = true → ResId_new (ResId_workload w) = Ok (ResId_workload w)).
Proof. split; intros; apply ResId_new_Ok; auto with rust. Qed.

(** *** GUResIDs *)

Lemma hex2_spec b :
  String.length (hex2 b) = 2 ∧ bytes_all is_lower_hex (hex2 b) = true.
Proof. by destruct b. Qed.

Definition unhex (c : ascii) : N :=
  if is_ascii_digit c then (N_of_ascii c - 48)%N else (N_of_ascii c - 87)%N.

Definition unhex2 (s : string) : N :=
  match s with String a (String b _) => (16 * unhex a + unhex b)%N | _ => 0%N end.

Lemma unhex2_hex2 b : Byte.of_N (unhex2 (hex2 b)) = Some b.
Proof. by destruct b. Qed.

Lemma hex2_inj b c : hex2 b = hex2 c → b = c.
Proof.
  intros H. apply (f_equal unhex2), (f_equal Byte.of_N) in H. rewrite !unhex2_hex2 in H. by injection H.
Qed.

(** 16 random bytes always give a valid GUResID, and different bytes give different
    GUResIDs, so the 128 random bits survive the encoding. *)
Theorem guresid_from_bytes_valid (l k : list Byte.byte) :
  length l = 16 →
  Guresid_new (Guresid_from_bytes l) = Ok (Guresid_from_bytes l)
  ∧ (Guresid_from_bytes l = Guresid_from_bytes k → length k = 16 → l = k).
Proof.
  intros Hl. split.
  - unfold Guresid_new.
    assert (∀ l, String.length (Guresid_from_bytes l) = 2 * length l
      ∧ bytes_all is_lower_hex (Guresid_from_bytes l) = true) as H.
    { clear. induction l as [|b l [IH1 IH2]]; [done|].
      change (Guresid_from_bytes (b :: l)) with (hex2 b +:+ Guresid_from_bytes l). destruct (hex2_spec b) as [Hb1 Hb2].
      rewrite length_app_str, bytes_all_app, Hb1, Hb2, IH1, IH2. simpl. split; [lia|done]. }
    destruct (H l) as [-> ->]. by rewrite Hl.
  - intros Heq Hk. assert (length l = length k) as Hlen by congruence. clear Hl Hk.
    revert k Heq Hlen. induction l as [|b l IH]; intros [|c k]; [done..|].
    change (hex2 b +:+ Guresid_from_bytes l = hex2 c +:+ Guresid_from_bytes k →
            length (b :: l) = length (c :: k) → b :: l = c :: k). intros Heq [= Hlen].
    apply app_length_inj in Heq as [->%hex2_inj Heq]; [|by rewrite !(proj1 (hex2_spec _))].
    f_equal. by apply IH.
Qed.

Lemma guresid_from_bytes_valid_witness :
  Guresid_new (Guresid_from_bytes (repeat Byte.x01 16))
  = Ok "01010101010101010101010101010101".
Proof. apply (guresid_from_bytes_valid (repeat Byte.x01 16) []). reflexivity. Defined.

Lemma derived_resource_ids_valid_witness :
  ResId_new (replace "/" "-" "acme/flags") = Ok "acme-flags"
  ∧ ResId_new (ResId_workload "web") = Ok "modules.web".
Proof.
  split.
  - apply (derived_resource_ids_valid "acme/flags" "web"). reflexivity.
  - apply (derived_resource_ids_valid "acme/flags" "web"). reflexivity.
Defined.
