(* ===== verification/Float64.v ===== *)
(** * 64-bit floats

    Rust's [f64] as the standard library's [spec_float] (sign, mantissa, binary
    exponent), the conversions from integers, and the digits [format!] prints for
    [{:e}]: the shortest decimal that reads back as the same float, computed with
    exact integers the way [core::num::flt2dec] does. *)

From Stdlib Require Import Ascii SpecFloat.
From stdpp Require Import base list strings numbers.
From S2P Require Import Prelude Strings.

Local Open Scope Z_scope.

Abbreviation f64 := spec_float.

Definition f64_prec : Z := 53.
Definition f64_emax : Z := 1024.

(** [z as f64]: rounds to nearest, ties to even. *)
Definition f64_of_Z (z : Z) : f64 := binary_normalize f64_prec f64_emax z 0 false.

(** A float a program can hold: in range, with its mantissa normalized. *)
Definition f64_valid (f : f64) : bool := valid_binary f64_prec f64_emax f.

Definition f64_is_zero (f : f64) : bool :=
  match f with S754_zero _ => true | _ => false end.
Definition f64_is_negative (f : f64) : bool :=
  match f with S754_finite s _ _ => s | S754_infinity s => s | _ => false end.

(** ** Shortest digits *)

(** A positive float and its rounding interval, in units of [2^exp]: every
    decimal between [mant - minus] and [mant + plus] reads back as the float, the
    ends included when [inclusive]. *)
Record Decoded := mk_Decoded {
  dc_mant : Z; dc_minus : Z; dc_plus : Z; dc_exp : Z; dc_inclusive : bool }.

Definition f64_decode (m : positive) (e : Z) : Decoded :=
  let mant := Zpos m in
  if mant <? 2 ^ 52 then mk_Decoded (2 * mant) 1 1 (e - 1) true
  else if mant =? 2 ^ 52 then mk_Decoded (4 * mant) 1 2 (e - 2) true
  else mk_Decoded (2 * mant) 1 1 (e - 1) (Z.even mant).

(** [a < b], or [a <= b] when the interval includes its ends. *)
Definition below (inclusive : bool) (a b : Z) : bool :=
  if inclusive then a <=? b else a <? b.

(** The fraction [x * 2^exp / 10^k] as numerator scale and denominator. *)
Definition scale_num (exp k : Z) : Z := 2 ^ Z.max exp 0 * 10 ^ Z.max (- k) 0.
Definition scale_den (exp k : Z) : Z := 10 ^ Z.max k 0 * 2 ^ Z.max (- exp) 0.

(** The least [k] from [k] on with the interval below [10^k]. *)
Fixpoint find_k (fuel : nat) (d : Decoded) (k : Z) : Z :=
  match fuel with
  | O => k
  | S fuel =>
      if below (dc_inclusive d) (scale_den (dc_exp d) k)
               ((dc_mant d + dc_plus d) * scale_num (dc_exp d) k)
      then find_k fuel d (k + 1) else k
  end.

(** Generates digits until the decimal so far, or the next one up, is in the
    interval. Returns the digits, last first, and whether to round up. *)
Fixpoint gen_digits (fuel : nat) (incl : bool) (mant minus plus scale : Z) (acc : list Z)
    : list Z * bool :=
  match fuel with
  | O => (acc, false)
  | S fuel =>
      let mant := mant * 10 in
      let minus := minus * 10 in
      let plus := plus * 10 in
      let acc := mant / scale :: acc in
      let mant := mant mod scale in
      let down := below incl mant minus in
      let up := below incl scale (mant + plus) in
      if down || up then (acc, up && (negb down || (scale <=? 2 * mant)))
      else gen_digits fuel incl mant minus plus scale acc
  end.

(** [round_up] on digits last first: whether it carried out of the first digit. *)
Fixpoint round_up (l : list Z) : list Z * bool :=
  match l with
  | [] => ([], true)
  | d :: l =>
      if d =? 9 then let '(l, c) := round_up l in (0 :: l, c) else (d + 1 :: l, false)
  end.

Definition digit_char (d : Z) : ascii := ascii_of_N (48 + Z.to_N d).

(** The digits [d1 d2 .. dn] and the exponent [k] with the float printed as
    [0.d1d2..dn * 10^k]. *)
Definition format_shortest (m : positive) (e : Z) : list Z * Z :=
  let d := f64_decode m e in
  let est := (Z.log2 (dc_mant d) + dc_exp d) * 1233 / 4096 - 1 in
  let k := find_k 6 d est in
  let sn := scale_num (dc_exp d) k in
  let '(rdigits, up) := gen_digits 18 (dc_inclusive d) (dc_mant d * sn) (dc_minus d * sn)
    (dc_plus d * sn) (scale_den (dc_exp d) k) [] in
  if up then
    let '(l, carry) := round_up rdigits in
    if carry then (1 :: rev l, k + 1) else (rev l, k)
  else (rev rdigits, k).

(** The mantissa's digits without the point, and the exponent, of
    [format!("{:e}", f)] for a positive finite [f]. *)
Definition lower_exp (m : positive) (e : Z) : string * Z :=
  let '(digits, k) := format_shortest m e in
  (foldr (λ d s, String (digit_char d) s) ε digits, k - 1).
