(* ===== verification/Json.v ===== *)
(** * JSON values

    [serde_json::Value] as the source uses it: its public variants, a number as
    the three representations [Number] distinguishes through [as_i64], [as_u64]
    and [as_f64], and an object as an insertion-ordered map (the feature
    [preserve_order] is on in [Cargo.toml]). Equality of values is [==]: objects
    are equal when they have the same entries in any order, which [norm] makes an
    equality of normal forms. *)

From Stdlib Require Import Ascii SpecFloat.
From stdpp Require Import base numbers sets strings sorting list.
From S2P Require Import Prelude Strings OrdMap Float64.

(** ** Numbers *)

Inductive Number : Type :=
| PosInt (n : N)
| NegInt (z : Z)
| Float (f : f64).

Definition i64_max : Z := 2 ^ 63 - 1.

Definition as_i64 (n : Number) : option Z :=
  match n with
  | PosInt n => if (Z.of_N n <=? i64_max)%Z then Some (Z.of_N n) else None
  | NegInt z => Some z
  | Float _ => None
  end.
Definition as_u64 (n : Number) : option N :=
  match n with PosInt n => Some n | _ => None end.
Definition as_f64 (n : Number) : f64 :=
  match n with
  | PosInt n => f64_of_Z (Z.of_N n)
  | NegInt z => f64_of_Z z
  | Float f => f
  end.

(** Numbers a program can hold: [u64], negative [i64], or a finite float. *)
Definition number_wf (n : Number) : bool :=
  match n with
  | PosInt n => (n <? 2 ^ 64)%N
  | NegInt z => (- 2 ^ 63 <=? z)%Z && (z <? 0)%Z
  | Float f => match f with
               | S754_zero _ => true
               | S754_finite _ _ _ => f64_valid f
               | _ => false
               end
  end.

Definition number_eqb (a b : Number) : bool :=
  match a, b with
  | PosInt a, PosInt b => (a =? b)%N
  | NegInt a, NegInt b => (a =? b)%Z
  | Float a, Float b => SFeqb a b
  | _, _ => false
  end.

(** ** Values *)

Unset Elimination Schemes.
Inductive Value : Type :=
| Null
| Bool (b : bool)
| Num (n : Number)
| Str (s : string)
| Arr (l : list Value)
| Obj (m : list (string * Value)).
Set Elimination Schemes.

(** Induction with the hypothesis for every item and every entry. *)
Section value_ind.
Variable P : Value → Prop.
Hypothesis P_Null : P Null.
Hypothesis P_Bool : ∀ b, P (Bool b).
Hypothesis P_Num : ∀ n, P (Num n).
Hypothesis P_Str : ∀ s, P (Str s).
Hypothesis P_Arr : ∀ l, Forall P l → P (Arr l).
Hypothesis P_Obj : ∀ m, Forall (λ kv, P kv.2) m → P (Obj m).

Fixpoint Value_ind (v : Value) : P v :=
  match v with
  | Null => P_Null
  | Bool b => P_Bool b
  | Num n => P_Num n
  | Str s => P_Str s
  | Arr l => P_Arr l ((fix go l : Forall P l :=
      match l with [] => Forall_nil_2 _ | v :: l => Forall_cons_2 _ v l (Value_ind v) (go l) end) l)
  | Obj m => P_Obj m ((fix go m : Forall (λ kv, P kv.2) m :=
      match m with
      | [] => Forall_nil_2 _
      | kv :: m => Forall_cons_2 (λ kv, P kv.2) kv m (Value_ind kv.2) (go m)
      end) m)
  end.
End value_ind.

Abbreviation jmap := (list (string * Value)).

Definition is_null (v : Value) : bool := match v with Null => true | _ => false end.
Definition is_string (v : Value) : bool := match v with Str _ => true | _ => false end.
Definition is_boolean (v : Value) : bool := match v with Bool _ => true | _ => false end.
Definition is_number (v : Value) : bool := match v with Num _ => true | _ => false end.
Definition is_object (v : Value) : bool := match v with Obj _ => true | _ => false end.
Definition is_array (v : Value) : bool := match v with Arr _ => true | _ => false end.
Definition is_i64 (v : Value) : bool :=
  match v with Num n => is_some (as_i64 n) | _ => false end.
Definition is_u64 (v : Value) : bool :=
  match v with Num n => is_some (as_u64 n) | _ => false end.
Definition as_str (v : Value) : option string := match v with Str s => Some s | _ => None end.
Definition as_array (v : Value) : option (list Value) :=
  match v with Arr l => Some l | _ => None end.
Definition as_object (v : Value) : option jmap := match v with Obj m => Some m | _ => None end.

(** [v.get(key)]: a field of an object. *)
Definition json_get (k : string) (v : Value) : option Value :=
  match v with Obj m => im_get k m | _ => None end.

(** [a == b]. *)
Fixpoint value_eqb (a b : Value) {struct a} : bool :=
  match a, b with
  | Null, Null => true
  | Bool a, Bool b => Bool.eqb a b
  | Num a, Num b => number_eqb a b
  | Str a, Str b => String.eqb a b
  | Arr l, Arr k =>
      (fix go l k := match l, k with
                     | [], [] => true
                     | x :: l, y :: k => value_eqb x y && go l k
                     | _, _ => false
                     end) l k
  | Obj m, Obj m' =>
      (length m =? length m')%nat
      && (fix go m := match m with
                      | [] => true
                      | (k, x) :: m =>
                          match im_get k m' with
                          | Some y => value_eqb x y && go m
                          | None => false
                          end
                      end) m
  | _, _ => false
  end.

(** ** Well-formed values *)

(** What every value a program holds satisfies: numbers in range, distinct keys. *)
Fixpoint value_wf (v : Value) : Prop :=
  match v with
  | Num n => number_wf n = true
  | Arr l => (fix go l := match l with [] => True | x :: l => value_wf x ∧ go l end) l
  | Obj m => im_wf m
      ∧ (fix go m := match m with [] => True | (_, x) :: m => value_wf x ∧ go m end) m
  | _ => True
  end.

Lemma value_wf_Arr l : value_wf (Arr l) ↔ Forall value_wf l.
Proof.
  induction l as [|x l IH]; [by split; [constructor|]|].
  rewrite Forall_cons, <-IH. done.
Qed.

Lemma value_wf_Obj m : value_wf (Obj m) ↔ im_wf m ∧ Forall (λ kv, value_wf kv.2) m.
Proof.
  simpl. apply and_iff_compat_l. induction m as [|[k x] m IH]; [by split; [constructor|]|].
  rewrite Forall_cons, <-IH. done.
Qed.

(** ** Normal forms *)

(** The two zeros compare equal. *)
Definition norm_number (n : Number) : Number :=
  match n with Float (S754_zero _) => Float (S754_zero false) | _ => n end.

Fixpoint norm (v : Value) : Value :=
  match v with
  | Num n => Num (norm_number n)
  | Arr l => Arr (norm <$> l)
  | Obj m => Obj (bt_of_list ((λ kv, (kv.1, norm kv.2)) <$> m))
  | _ => v
  end.

(** Values are equivalent when their normal forms agree. *)
Definition veq (v w : Value) : Prop := norm v = norm w.
#[export] Instance value_equiv : Equiv Value := veq.
#[export] Instance veq_equivalence : Equivalence (≡@{Value}).
Proof. split; unfold equiv, value_equiv, veq; [intros ?|intros ? ?|intros ? ? ?]; congruence. Qed.

(** *** Maps with distinct keys *)

Lemma bt_of_list_snoc {K V} `{Ord K} (l : list (K * V)) k v :
  bt_of_list (l ++ [(k, v)]) = bt_insert k v (bt_of_list l).
Proof. unfold bt_of_list. by rewrite foldl_app. Qed.

Lemma bt_get_of_list {V} (k : string) (m : list (string * V)) :
  im_wf m → bt_get k (bt_of_list m) = im_get k m.
Proof.
  induction m as [|[j v] m IH] using rev_ind; [done|]. intros Hm.
  unfold im_wf in Hm. rewrite fmap_app in Hm. apply NoDup_app in Hm as (Hm & Hj & _).
  rewrite bt_of_list_snoc, bt_get_insert, IH by done.
  assert (∀ l : list (string * V), im_get k (l ++ [(j, v)])
    = match im_get k l with Some x => Some x | None => if String.eqb k j then Some v else None end) as ->.
  { clear. induction l as [|[i x] l IH]; simpl; [done|]. by destruct (String.eqb k i). }
  destruct (cmp k j) eqn:E; [apply cmp_eq_iff in E as ->|..].
  - rewrite String.eqb_refl. destruct (im_get j m) eqn:Eg; [|done].
    destruct (Hj j); [|by left]. apply im_get_elem in Eg.
    apply list_elem_of_fmap. by eexists (j, _).
  - destruct (String.eqb_spec k j) as [->|]; [by rewrite cmp_refl in E|]. by destruct (im_get k m).
  - destruct (String.eqb_spec k j) as [->|]; [by rewrite cmp_refl in E|]. by destruct (im_get k m).
Qed.

Lemma im_get_fmap {V W} (f : V → W) (k : string) (m : list (string * V)) :
  im_get k ((λ kv, (kv.1, f kv.2)) <$> m) = f <$> im_get k m.
Proof. induction m as [|[j v] m IH]; csimpl; [done|]. by destruct (String.eqb k j). Qed.

Lemma im_wf_fmap {V W} (f : V → W) (m : list (string * V)) :
  im_wf ((λ kv, (kv.1, f kv.2)) <$> m) ↔ im_wf m.
Proof. unfold im_wf. rewrite <-list_fmap_compose. done. Qed.

(** Equal normal forms of objects: the same entries up to equivalence. *)
Lemma norm_Obj_eq m m' :
  im_wf m → im_wf m' →
  norm (Obj m) = norm (Obj m') ↔ ∀ k, norm <$> im_get k m = norm <$> im_get k m'.
Proof.
  intros Hm Hm'. simpl. split.
  - intros [= H] k. apply (f_equal (bt_get k)) in H.
    rewrite !bt_get_of_list, !im_get_fmap in H by (by apply im_wf_fmap). done.
  - intros H. f_equal. apply bt_ext; [apply bt_of_list_wf..|]. intros k.
    rewrite !bt_get_of_list, !im_get_fmap by (by apply im_wf_fmap). done.
Qed.

(** *** [==] is equivalence *)

Lemma number_eqb_spec a b :
  number_wf a = true → number_wf b = true →
  number_eqb a b = true ↔ norm_number a = norm_number b.
Proof.
  destruct a as [a|a|a], b as [b|b|b]; simpl; intros Ha Hb.
  1: rewrite N.eqb_eq; naive_solver.
  4: rewrite Z.eqb_eq; naive_solver.
  7: destruct a as [| | |[] ma ea], b as [| | |[] mb eb]; try done;
     unfold SFeqb; simpl; try (split; congruence);
     destruct (Z.compare_spec ea eb); try (split; [done|intros [= ->]; lia]);
     subst; fold (Pos.compare ma mb); destruct (Pos.compare_spec ma mb);
     simpl; split; intros; simplify_eq; try done; lia.
  all: split; [done|]; intros Heq; repeat case_match; congruence.
Qed.

Lemma value_eqb_Arr l k :
  value_eqb (Arr l) (Arr k) = true ↔ Forall2 (λ x y, value_eqb x y = true) l k.
Proof.
  revert k. induction l as [|x l IH]; intros [|y k].
  - by split.
  - split; [done|]. by inversion 1.
  - split; [done|]. by inversion 1.
  - rewrite Forall2_cons, <-IH. simpl. by rewrite andb_true_iff.
Qed.

Lemma value_eqb_Obj m m' :
  value_eqb (Obj m) (Obj m') = true ↔
  length m = length m' ∧
  Forall (λ kv, ∃ y, im_get kv.1 m' = Some y ∧ value_eqb kv.2 y = true) m.
Proof.
  simpl. rewrite andb_true_iff, Nat.eqb_eq. apply and_iff_compat_l.
  induction m as [|[k x] m IH]; [by split; [constructor|]|].
  rewrite Forall_cons, <-IH. simpl. destruct (im_get k m') as [y|].
  - rewrite andb_true_iff. naive_solver.
  - split; [done|]. by intros [(? & ? & _) _].
Qed.

Lemma im_get_key {V} k (v : V) m : im_get k m = Some v → k ∈ m.*1.
Proof. intros H%im_get_elem. apply list_elem_of_fmap. by exists (k, v). Qed.

(** Maps of the same size, one included in the other. *)
Lemma im_incl_length {V} (m m' : list (string * V)) :
  im_wf m → length m = length m' → m.*1 ⊆ m'.*1 → ∀ k, k ∈ m'.*1 → k ∈ m.*1.
Proof.
  intros Hm Hlen Hincl k Hk.
  assert (m.*1 ⊆+ m'.*1) as Hsub by (by apply NoDup_submseteq).
  apply submseteq_length_Permutation in Hsub as ->; [done|].
  rewrite !length_fmap. lia.
Qed.

Lemma Obj_entries_equiv m m' :
  im_wf m → im_wf m' →
  (length m = length m'
   ∧ Forall (λ kv, ∃ y, im_get kv.1 m' = Some y ∧ norm kv.2 = norm y) m)
  ↔ ∀ k, norm <$> im_get k m = norm <$> im_get k m'.
Proof.
  intros Hm Hm'. split.
  - intros [Hlen Hall] k. rewrite Forall_forall in Hall.
    destruct (im_get k m) as [x|] eqn:E.
    + apply im_get_elem in E. destruct (Hall _ E) as (y & Hg & Hy). simpl in Hg, Hy. rewrite Hg. simpl. by rewrite Hy.
    + destruct (im_get k m') as [y|] eqn:E'; [|done]. apply im_get_None in E. destruct E.
      eapply im_incl_length; [done..| |].
      * intros j Hj. apply list_elem_of_fmap in Hj as ([j' x] & -> & Hx).
        destruct (Hall _ Hx) as (z & Hz & _). by eapply im_get_key.
      * by eapply im_get_key.
  - intros Hg. assert (∀ k, k ∈ m.*1 ↔ k ∈ m'.*1) as Hdom.
    { intros k. specialize (Hg k).
      destruct (im_get k m) eqn:E, (im_get k m') eqn:E'; try done.
      - split; intros _; by eapply im_get_key.
      - apply im_get_None in E, E'. done. }
    split.
    + rewrite <-(length_fmap fst m), <-(length_fmap fst m').
      apply Permutation_length, NoDup_Permutation; done.
    + apply Forall_forall. intros [k x] Hx. specialize (Hg k).
      rewrite (im_elem_get k x m) in Hg by done. simpl in *.
      destruct (im_get k m') as [y|]; [|done]. simpl in Hg. exists y. split; [done|congruence].
Qed.

Lemma value_eqb_equiv v w :
  value_wf v → value_wf w → value_eqb v w = true ↔ v ≡ w.
Proof.
  unfold equiv, value_equiv, veq. revert w.
  induction v as [|b|n|s|l IH|m IH]; intros w Hv Hw.
  1: by destruct w.
  1: destruct w; try done; simpl; rewrite Bool.eqb_true_iff; split; congruence.
  1: destruct w; try done; simpl; rewrite number_eqb_spec by done; split; congruence.
  1: destruct w; try done; simpl; rewrite String.eqb_eq; split; congruence.
  - destruct w as [| | | |k|]; try done. rewrite value_eqb_Arr. simpl.
    apply value_wf_Arr in Hv, Hw. transitivity (norm <$> l = norm <$> k); [|split; congruence].
    revert k Hw. induction l as [|x l IHl]; intros [|y k] Hw; csimpl; [by split| | |].
    + split; [by inversion 1|done].
    + split; [by inversion 1|done].
    + apply Forall_cons in IH as [IHx IH], Hv as [Hx Hv], Hw as [Hy Hw].
      rewrite Forall2_cons, IHx, IHl by done.
      split; [intros [-> ->]; done|by intros [= -> ->]].
  - destruct w as [| | | | |m']; try done. rewrite value_eqb_Obj.
    apply value_wf_Obj in Hv as [Hm Hv], Hw as [Hm' Hw].
    rewrite norm_Obj_eq, <-Obj_entries_equiv by done. apply and_iff_compat_l.
    rewrite !Forall_forall in *. split; intros Hall kv Hkv;
      destruct (Hall kv Hkv) as (y & Hy & Heq); exists y; (split; [done|]);
      apply im_get_elem in Hy; apply (IH kv Hkv y (Hv kv Hkv) (Hw _ Hy)); done.
Qed.

(** *** Sorting distinct keys permutes the entries *)

Lemma bt_insert_perm {K V} `{Ord K} (k : K) (v : V) m :
  k ∉ bt_keys m → bt_insert k v m ≡ₚ (k, v) :: m.
Proof.
  induction m as [|[j w] m IH]; intros Hk; simpl; [done|].
  destruct (cmp k j) eqn:E; [|done|].
  - apply cmp_eq_iff in E as ->. destruct Hk. left.
  - rewrite IH by (intros Hin; apply Hk; by right). apply Permutation_swap.
Qed.

Lemma bt_of_list_perm {V} (m : list (string * V)) : im_wf m → bt_of_list m ≡ₚ m.
Proof.
  induction m as [|[k v] m IH] using rev_ind; [done|]. unfold im_wf.
  rewrite fmap_app. intros (Hm & Hk & _)%NoDup_app. rewrite bt_of_list_snoc, bt_insert_perm.
  - rewrite IH by done. apply Permutation_cons_append.
  - unfold bt_keys. rewrite IH by done. intros Hin. apply (Hk k Hin). left.
Qed.

(** ** Text

    Every key of every object is valid UTF-8. *)
Fixpoint json_utf8 (v : Value) : Prop :=
  match v with
  | Arr l => (fix go l := match l with [] => True | x :: l => json_utf8 x ∧ go l end) l
  | Obj m => (fix go m := match m with
                          | [] => True
                          | (k, x) :: m => utf8_valid k = true ∧ json_utf8 x ∧ go m
                          end) m
  | _ => True
  end.

Lemma json_utf8_Arr l : json_utf8 (Arr l) ↔ Forall json_utf8 l.
Proof.
  induction l as [|x l IH]; [by split; [constructor|]|]. rewrite Forall_cons, <-IH. done.
Qed.

Lemma json_utf8_Obj m :
  json_utf8 (Obj m) ↔ Forall (λ kv, utf8_valid kv.1 = true ∧ json_utf8 kv.2) m.
Proof.
  induction m as [|[k x] m IH]; [by split; [constructor|]|]. rewrite Forall_cons, <-IH.
  simpl. tauto.
Qed.

Lemma im_get_perm {V} (k : string) (m m' : list (string * V)) :
  im_wf m → m ≡ₚ m' → im_get k m = im_get k m'.
Proof.
  intros Hm Hp. assert (im_wf m') as Hm' by (unfold im_wf in *; by rewrite <-Hp).
  destruct (im_get k m) as [v|] eqn:E.
  - apply im_get_elem in E. rewrite Hp in E. symmetry. by apply im_elem_get.
  - apply im_get_None in E. rewrite Hp in E. by apply im_get_None in E.
Qed.

Lemma im_get_Forall2 {V W} (R : V → W → Prop) (k : string) m m' :
  Forall2 (λ a b, a.1 = b.1 ∧ R a.2 b.2) m m' → option_Forall2 R (im_get k m) (im_get k m').
Proof.
  induction 1 as [|[j x] [j' y] m m' [Hj HR] _ IH]; [constructor|]. simpl in *. subst j'.
  destruct (String.eqb k j); [by constructor|done].
Qed.
