(* ===== verification/Canonical.v ===== *)
(** * JSON canonicalization ([crates/core/src/canonical.rs])

    The JCS form (RFC 8785) that deployment set IDs and parameter conflicts are
    computed from: keys sorted by UTF-16 code units, minimal escapes, ECMAScript
    numbers. The theorems show that the form depends only on a value's content,
    and that, on the numbers the form prints exactly, it determines the content. *)

From Stdlib Require Import Ascii SpecFloat.
From stdpp Require Import base numbers sets strings sorting pretty list.
From S2P Require Import Prelude Strings OrdMap Float64 Json.

Local Open Scope string_scope.
Local Open Scope nat_scope.
Local Open Scope list_scope.

(** ** Strings *)

(** One byte of [write_string]. The characters it escapes are ASCII, and the bytes
    of every other character are pushed unchanged. *)
Definition escape_byte (c : ascii) : string :=
  if Ascii.eqb c dquote then String backslash (str1 dquote)
  else if Ascii.eqb c backslash then String backslash (str1 backslash)
  else match N_of_ascii c with
       | 8 => String backslash "b"
       | 12 => String backslash "f"
       | 10 => String backslash "n"
       | 13 => String backslash "r"
       | 9 => String backslash "t"
       | n => if (n <? 32)%N then String backslash (String "u" (hex4 n)) else str1 c
       end%N.

Fixpoint escape_body (s : string) : string :=
  match s with
  | ε => ε
  | String c s => escape_byte c +:+ escape_body s
  end.

Definition write_string (s : string) : string :=
  String dquote (escape_body s +:+ str1 dquote).

(** ** Numbers *)

Fixpoint repeat_char (n : nat) (c : ascii) : string :=
  match n with O => ε | S n => String c (repeat_char n c) end.

(** The layout [es_number] gives the digits [digits] of [0.digits * 10^n]. *)
Definition es_layout (digits : string) (n : Z) : string :=
  let k := Z.of_nat (String.length digits) in
  if (k <=? n)%Z && (n <=? 21)%Z then digits +:+ repeat_char (Z.to_nat (n - k)) "0"
  else if (0 <? n)%Z && (n <=? 21)%Z then
    str_take (Z.to_nat n) digits +:+ "." +:+ str_drop (Z.to_nat n) digits
  else if (-6 <? n)%Z && (n <=? 0)%Z then "0." +:+ repeat_char (Z.to_nat (- n)) "0" +:+ digits
  else
    let e := (n - 1)%Z in
    let e := if (0 <=? e)%Z then "+" +:+ show_Z e else show_Z e in
    if (k =? 1)%Z then digits +:+ "e" +:+ e
    else str_take 1 digits +:+ "." +:+ str_drop 1 digits +:+ "e" +:+ e.

(** JSON numbers are finite; the other floats print nothing here. *)
Definition es_number (f : f64) : string :=
  match f with
  | S754_zero _ => "0"
  | S754_finite s m e =>
      let '(digits, exp) := lower_exp m e in
      (if s then "-" else ε) +:+ es_layout digits (exp + 1)
  | _ => ε
  end.

Definition EXACT : Z := 2 ^ 53.

Definition write_number (n : Number) : string :=
  match as_i64 n with
  | Some i =>
      if (Z.abs i <=? EXACT)%Z then show_Z i
      else match as_u64 n with
           | Some u => if (Z.of_N u <=? EXACT)%Z then show_N u else es_number (as_f64 n)
           | None => es_number (as_f64 n)
           end
  | None =>
      match as_u64 n with
      | Some u => if (Z.of_N u <=? EXACT)%Z then show_N u else es_number (as_f64 n)
      | None => es_number (as_f64 n)
      end
  end.

(** ** Values *)

Definition utf16_key {A} (kv : string * A) : list N := encode_utf16 kv.1.

(** Entries are sorted after their values are written; the order depends on the
    keys only. *)
Fixpoint write_value (v : Value) : string :=
  match v with
  | Null => "null"
  | Bool b => if b then "true" else "false"
  | Num n => write_number n
  | Str s => write_string s
  | Arr l => "[" +:+ join "," (write_value <$> l) +:+ "]"
  | Obj m =>
      let entries := sort_by_key utf16_key ((λ kv, (kv.1, write_value kv.2)) <$> m) in
      "{" +:+ join "," ((λ kv, write_string kv.1 +:+ ":" +:+ kv.2) <$> entries) +:+ "}"
  end.

Definition to_canonical_string (v : Value) : string := write_value v.

(** The unit tests of the source. *)
Example canonical_numbers :
  write_value (Arr [Num (PosInt 1); Num (NegInt (-7)); Num (PosInt 9007199254740992);
    Num (NegInt (-9007199254740992)); Num (Float (f64_of_Z 2))])
  = "[1,-7,9007199254740992,-9007199254740992,2]"
  ∧ write_value (Arr [Num (PosInt 9007199254740993); Num (NegInt (-9007199254740993));
    Num (PosInt 18446744073709551615)])
  = "[9007199254740992,-9007199254740992,18446744073709552000]".
Proof. by vm_compute. Qed.

Example canonical_floats :
  let div a b := es_number (SFdiv 53 1024 (f64_of_Z a) (f64_of_Z b)) in (
  div 1 2 = "0.5" ∧ div (-5) 2 = "-2.5" ∧ es_number (f64_of_Z (10 ^ 21)) = "1e+21"
  ∧ es_number (f64_of_Z (10 ^ 20)) = "100000000000000000000" ∧ div 1 1000000 = "0.000001"
  ∧ div 1 10000000 = "1e-7" ∧ div 123456 1000 = "123.456" ∧ div 15 100000000000 = "1.5e-10"
  ∧ es_number (S754_zero true) = "0" ∧ div 3333333333333333 10000000 = "333333333.3333333")%Z.
Proof. vm_compute. repeat split. Qed.

(** ** The form depends on the content only *)

Lemma write_number_norm n : write_number (norm_number n) = write_number n.
Proof. destruct n as [| |[]]; done. Qed.

Lemma utf16_keys_NoDup {A} (m : list (string * A)) :
  im_wf m → Forall (λ kv, utf8_valid kv.1 = true) m → NoDup (utf16_key <$> m).
Proof.
  intros Hm Hu. induction m as [|[k x] m IH]; [constructor|]. csimpl.
  apply im_wf_cons in Hm as [Hk Hm]. apply Forall_cons in Hu as [Huk Hu].
  constructor; [|by apply IH]. intros ([j y] & Hj & Hin)%list_elem_of_fmap.
  apply Hk. apply list_elem_of_fmap. exists (j, y). split; [|done]. simpl.
  apply encode_utf16_inj; [done| |done].
  rewrite Forall_forall in Hu. apply (Hu (j, y) Hin).
Qed.

Lemma write_entries_norm m :
  im_wf m → Forall (λ kv, utf8_valid kv.1 = true) m →
  Forall (λ kv, write_value (norm kv.2) = write_value kv.2) m →
  sort_by_key utf16_key ((λ kv, (kv.1, write_value kv.2)) <$>
    bt_of_list ((λ kv, (kv.1, norm kv.2)) <$> m))
  = sort_by_key utf16_key ((λ kv, (kv.1, write_value kv.2)) <$> m).
Proof.
  intros Hm Hu IH. symmetry. apply sort_by_key_unique.
  - rewrite <-list_fmap_compose. by apply utf16_keys_NoDup.
  - rewrite bt_of_list_perm by (by apply im_wf_fmap). rewrite <-list_fmap_compose.
    erewrite list_fmap_ext; [done|]. intros i [k x] Hx. simpl. f_equal.
    symmetry. rewrite Forall_forall in IH. apply (IH (k, x)). by eapply list_elem_of_lookup_2.
Qed.

Lemma write_value_norm v : value_wf v → json_utf8 v → write_value (norm v) = write_value v.
Proof.
  induction v as [|b|n|s|l IH|m IH]; intros Hwf Hu; try done.
  - apply write_number_norm.
  - apply value_wf_Arr in Hwf. apply json_utf8_Arr in Hu. simpl. do 3 f_equal.
    rewrite <-list_fmap_compose. apply list_fmap_ext. intros i x Hx.
    apply list_elem_of_lookup_2 in Hx. rewrite Forall_forall in IH, Hwf, Hu. by apply IH; auto.
  - apply value_wf_Obj in Hwf as [Hm Hwf]. apply json_utf8_Obj in Hu. simpl.
    rewrite write_entries_norm; [done|done|by eapply Forall_impl; [exact Hu|]; intros ? [? _]|].
    rewrite Forall_forall in IH, Hwf, Hu |- *. intros kv Hkv. destruct (Hu kv Hkv).
    by apply IH; auto.
Qed.

(** The canonical form depends on a value's content only: values that are equal as
    JSON ([==] in the source: objects with the same entries in any order, [0.0] and
    [-0.0]) have the same canonical form, whatever order their keys were written in. *)
Theorem canonical_respects_equality (v w : Value) :
  value_wf v → value_wf w → json_utf8 v → json_utf8 w →
  value_eqb v w = true → to_canonical_string v = to_canonical_string w.
Proof.
  intros Hv Hw Huv Huw Heq. apply value_eqb_equiv in Heq; [|done..].
  unfold to_canonical_string. rewrite <-write_value_norm, <-(write_value_norm w) by done.
  by rewrite Heq.
Qed.

Lemma canonical_respects_equality_witness :
  let v := Obj [("b", Num (PosInt 1)); ("a", Obj [("z", Null); ("y", Bool true)])] in
  let w := Obj [("a", Obj [("y", Bool true); ("z", Null)]); ("b", Num (PosInt 1))] in
  v ≠ w ∧ to_canonical_string v = to_canonical_string w.
Proof.
  intros v w. split; [discriminate|]. apply canonical_respects_equality.
  1,2: repeat split; apply (bool_decide_unpack _); by vm_compute.
  1,2: by repeat split.
  by vm_compute.
Defined.

(** ** The form determines the content

    Texts of values are prefix codes: what follows a value in canonical text
    starts with a comma or a closing bracket, so the text of a value can be read
    off the front in one way. *)

Definition unescape_byte (s : string) : option (ascii * string) :=
  match s with
  | String c r =>
      if Ascii.eqb c backslash then
        match r with
        | String d r =>
            if Ascii.eqb d "b" then Some (ascii_of_N 8, r)
            else if Ascii.eqb d "f" then Some (ascii_of_N 12, r)
            else if Ascii.eqb d "n" then Some (ascii_of_N 10, r)
            else if Ascii.eqb d "r" then Some (ascii_of_N 13, r)
            else if Ascii.eqb d "t" then Some (ascii_of_N 9, r)
            else if Ascii.eqb d "u" then
              match r with
              | String _ (String _ (String h (String l r))) =>
                  let digit x := if is_ascii_digit x then (N_of_ascii x - 48)%N
                                 else (N_of_ascii x - 87)%N in
                  Some (ascii_of_N (16 * digit h + digit l), r)
              | _ => None
              end
            else Some (d, r)
        | ε => None
        end
      else Some (c, r)
  | ε => None
  end.

Lemma unescape_escape c r : unescape_byte (escape_byte c +:+ r) = Some (c, r).
Proof. by destruct c as [[] [] [] [] [] [] [] []]. Qed.

Lemma escape_byte_not_quote c r r' : escape_byte c +:+ r ≠ String dquote r'.
Proof. by destruct c as [[] [] [] [] [] [] [] []]. Qed.

Lemma escape_body_inj s t r1 r2 :
  escape_body s +:+ String dquote r1 = escape_body t +:+ String dquote r2 → s = t ∧ r1 = r2.
Proof.
  revert t. induction s as [|c s IH]; intros [|d t]; cbn [escape_body]; intros H.
  - by injection H.
  - rewrite app_assoc_str in H. symmetry in H. by apply escape_byte_not_quote in H.
  - rewrite app_assoc_str in H. by apply escape_byte_not_quote in H.
  - rewrite !app_assoc_str in H. pose proof (f_equal unescape_byte H) as Hu.
    rewrite !unescape_escape in Hu. injection Hu as -> Hu. by destruct (IH t Hu) as [-> ->].
Qed.

Lemma write_string_inj s t r1 r2 :
  write_string s +:+ r1 = write_string t +:+ r2 → s = t ∧ r1 = r2.
Proof.
  unfold write_string. simpl. rewrite !app_assoc_str. intros [= H]. by apply escape_body_inj.
Qed.

Definition num_byte (c : ascii) : bool := is_ascii_digit c || Ascii.eqb c "-".

Lemma pretty_N_go_bytes x s :
  bytes_all num_byte s = true → bytes_all num_byte (pretty_N_go x s) = true.
Proof.
  revert s. induction (N.lt_wf_0 x) as [x _ IH]; intros s Hs.
  destruct (decide (0 < x)%N) as [Hx|Hx].
  - rewrite pretty_N_go_step by done. apply IH; [apply N.div_lt; lia|].
    simpl. rewrite Hs, andb_true_r. unfold pretty_N_char. repeat case_match; done.
  - by replace x with 0%N by lia.
Qed.

Lemma pretty_N_go_ne x s : s ≠ ε → pretty_N_go x s ≠ ε.
Proof.
  revert s. induction (N.lt_wf_0 x) as [x _ IH]; intros s Hs.
  destruct (decide (0 < x)%N) as [Hx|Hx].
  - rewrite pretty_N_go_step by done. apply IH; [apply N.div_lt; lia|done].
  - by replace x with 0%N by lia.
Qed.

Lemma show_N_bytes n : show_N n ≠ ε ∧ bytes_all num_byte (show_N n) = true.
Proof.
  unfold show_N, pretty, pretty_N. case_decide; [done|].
  split; [|by apply pretty_N_go_bytes]. rewrite pretty_N_go_step by lia.
  by apply pretty_N_go_ne.
Qed.

Lemma show_Z_bytes z : show_Z z ≠ ε ∧ bytes_all num_byte (show_Z z) = true.
Proof.
  unfold show_Z, pretty, pretty_Z. destruct z; simpl; [done|apply show_N_bytes|].
  split; [done|]. apply show_N_bytes.
Qed.

(** The longest run of number bytes at the front is unique. *)
Definition stops (p : ascii → bool) (r : string) : Prop :=
  match r with ε => True | String c _ => p c = false end.

Lemma munch p a b r1 r2 :
  bytes_all p a = true → bytes_all p b = true → stops p r1 → stops p r2 →
  a +:+ r1 = b +:+ r2 → a = b ∧ r1 = r2.
Proof.
  revert b. induction a as [|c a IH]; intros [|d b]; simpl; intros Ha Hb H1 H2 H.
  - done.
  - subst r1. simpl in H1. bool_hyps. congruence.
  - subst r2. simpl in H2. bool_hyps. congruence.
  - injection H as -> H. bool_hyps. by destruct (IH b) as [-> ->].
Qed.

(** Numbers the form prints exactly: integers within [2^53]. *)
Definition exact_number (n : Number) : bool :=
  match n with
  | PosInt n => (Z.of_N n <=? EXACT)%Z
  | NegInt z => (- EXACT <=? z)%Z && (z <? 0)%Z
  | Float _ => false
  end.

Definition number_Z (n : Number) : Z :=
  match n with PosInt n => Z.of_N n | NegInt z => z | Float _ => 0 end.

Lemma write_exact_number n : exact_number n = true → write_number n = show_Z (number_Z n).
Proof.
  unfold exact_number, write_number, as_i64.
  destruct n as [n|z|f]; cbn [number_Z];
    [intros H%Z.leb_le|intros [H1%Z.leb_le H2%Z.ltb_lt]%andb_true_iff|done].
  - rewrite (proj2 (Z.leb_le _ i64_max)) by (unfold i64_max, EXACT in *; lia).
    by rewrite (proj2 (Z.leb_le _ EXACT)) by lia.
  - by rewrite (proj2 (Z.leb_le _ EXACT)) by lia.
Qed.

Lemma number_Z_inj a b :
  exact_number a = true → exact_number b = true → number_Z a = number_Z b → a = b.
Proof.
  destruct a as [a|a|a], b as [b|b|b]; simpl; intros Ha Hb H; try done; bool_hyps.
  - f_equal. lia.
  - apply Z.ltb_lt in H1. lia.
  - apply Z.ltb_lt in H1. lia.
  - congruence.
Qed.

Fixpoint exact_value (v : Value) : Prop :=
  match v with
  | Num n => exact_number n = true
  | Arr l => (fix go l := match l with [] => True | x :: l => exact_value x ∧ go l end) l
  | Obj m => (fix go m := match m with [] => True | (_, x) :: m => exact_value x ∧ go m end) m
  | _ => True
  end.

Lemma exact_value_Arr l : exact_value (Arr l) ↔ Forall exact_value l.
Proof.
  induction l as [|x l IH]; [by split; [constructor|]|]. rewrite Forall_cons, <-IH. done.
Qed.

Lemma exact_value_Obj m : exact_value (Obj m) ↔ Forall (λ kv, exact_value kv.2) m.
Proof.
  induction m as [|[k x] m IH]; [by split; [constructor|]|]. rewrite Forall_cons, <-IH. done.
Qed.

(** What can follow a value in canonical text. *)
Definition follows (r : string) : Prop :=
  match r with
  | ε => True
  | String c _ => c = ","%char ∨ c = "]"%char ∨ c = "}"%char
  end.

Lemma follows_stops r : follows r → stops num_byte r.
Proof. destruct r; [done|]. intros [-> | [-> | ->]]; done. Qed.

Definition head_ok (s : string) : Prop :=
  ∃ c r, s = String c r ∧ c ≠ ","%char ∧ c ≠ "]"%char ∧ c ≠ "}"%char.

Lemma write_number_head n : exact_number n = true →
  ∃ c r, write_number n = String c r ∧ num_byte c = true.
Proof.
  intros H. rewrite write_exact_number by done. destruct (show_Z_bytes (number_Z n)) as [Hne Hb].
  destruct (show_Z (number_Z n)) as [|c r]; [done|]. exists c, r. split; [done|].
  by apply andb_true_iff in Hb as [? _].
Qed.

Lemma write_value_head v : exact_value v → head_ok (write_value v).
Proof.
  destruct v as [|[]|n|s|l|m]; intros Hv; try (by eexists _, _).
  destruct (write_number_head n Hv) as (c & r & E & Hc). exists c, r. split; [exact E|].
  by repeat split; intros ->.
Qed.

(** A comma-separated list is read back item by item. *)
Section separated.
Context {A : Type} (f : A → string) (R : A → A → Prop) (ok : A → Prop) (close : ascii).
Hypothesis Hclose : close = "]"%char ∨ close = "}"%char.
Hypothesis f_head : ∀ x, ok x → head_ok (f x).

Definition reads (x : A) : Prop :=
  ∀ y r1 r2, ok y → follows r1 → follows r2 → f x +:+ r1 = f y +:+ r2 → R x y ∧ r1 = r2.

Lemma join_follows l r : follows (match l with [] => String close r
  | _ => String "," (join "," (f <$> l) +:+ String close r) end).
Proof. destruct l; simpl; [by destruct Hclose; auto|by left]. Qed.

Lemma join_fmap_cons x l r :
  join "," (f <$> x :: l) +:+ String close r
  = f x +:+ match l with [] => String close r
            | _ => String "," (join "," (f <$> l) +:+ String close r) end.
Proof.
  destruct l as [|y l]; [done|].
  change (f <$> x :: y :: l) with (f x :: f y :: (f <$> l)). rewrite join_cons.
  by rewrite !app_assoc_str.
Qed.

Lemma join_reads l k r1 r2 :
  Forall reads l → Forall ok l → Forall ok k →
  join "," (f <$> l) +:+ String close r1 = join "," (f <$> k) +:+ String close r2 →
  Forall2 R l k ∧ r1 = r2.
Proof.
  revert k. induction l as [|x l IH]; intros [|y k] Hr Hl Hk H.
  - by injection H as ->.
  - rewrite join_fmap_cons in H. apply Forall_cons in Hk as [Hy _].
    destruct (f_head y Hy) as (c & r & E & H1 & H2 & H3). rewrite E in H.
    injection H as He _. destruct Hclose; congruence.
  - rewrite join_fmap_cons in H. apply Forall_cons in Hl as [Hx _].
    destruct (f_head x Hx) as (c & r & E & H1 & H2 & H3). rewrite E in H.
    injection H as He _. destruct Hclose; congruence.
  - apply Forall_cons in Hr as [Hrx Hr], Hl as [Hx Hl], Hk as [Hy Hk].
    rewrite !join_fmap_cons in H. apply Hrx in H as [HR H]; [|done|apply join_follows..].
    destruct l as [|x' l], k as [|y' k].
    + injection H as ->. by repeat constructor.
    + injection H as He _. destruct Hclose; congruence.
    + injection H as He _. destruct Hclose; congruence.
    + injection H as H. destruct (IH _ Hr Hl Hk H). by split; [constructor|].
Qed.
End separated.

(** An entry of an object. *)
Definition write_entry (kv : string * Value) : string :=
  write_string kv.1 +:+ ":" +:+ write_value kv.2.

Lemma write_value_Obj m :
  write_value (Obj m)
  = "{" +:+ join "," (write_entry <$> sort_by_key utf16_key m) +:+ "}".
Proof.
  simpl. rewrite (sort_by_key_fmap utf16_key utf16_key) by done. by rewrite <-list_fmap_compose.
Qed.

(** Equal content, for well-formed values with exact numbers. *)
Definition same (v w : Value) : Prop := norm v = norm w.
Definition readable (v : Value) : Prop := exact_value v ∧ value_wf v.
Definition value_reads : Value → Prop := reads write_value same readable.

Lemma readable_Arr l : readable (Arr l) ↔ Forall readable l.
Proof. unfold readable. rewrite exact_value_Arr, value_wf_Arr, !Forall_forall. naive_solver. Qed.

Lemma readable_Obj m : readable (Obj m) ↔ im_wf m ∧ Forall (λ kv, readable kv.2) m.
Proof. unfold readable. rewrite exact_value_Obj, value_wf_Obj, !Forall_forall. naive_solver. Qed.

Lemma reads_Arr l k r1 r2 :
  Forall value_reads l → Forall readable l → Forall readable k →
  write_value (Arr l) +:+ r1 = write_value (Arr k) +:+ r2 → same (Arr l) (Arr k) ∧ r1 = r2.
Proof.
  intros IH Hl Hk H. cbn [write_value] in H. rewrite !app_assoc_str in H. injection H as H.
  apply (join_reads write_value same readable) in H as [Heq ->]; [|by left| |done..].
  - split; [|done]. unfold same. simpl. f_equal. clear -Heq. induction Heq; csimpl; by f_equal.
  - intros x [Hx _]. by apply write_value_head.
Qed.

Lemma reads_entry kv :
  value_reads kv.2 →
  reads write_entry (λ a b, a.1 = b.1 ∧ same a.2 b.2) (λ kv, readable kv.2) kv.
Proof.
  intros Hv [j y] s1 s2 Hy Hs1 Hs2 Hs. destruct kv as [k x]. unfold write_entry in Hs.
  rewrite !app_assoc_str in Hs. cbn [fst snd] in *.
  apply write_string_inj in Hs as [-> Hs]. injection Hs as Hs. by apply Hv in Hs as [? ->].
Qed.

Lemma reads_Obj m m' r1 r2 :
  Forall (λ kv, value_reads kv.2) m → readable (Obj m) → readable (Obj m') →
  write_value (Obj m) +:+ r1 = write_value (Obj m') +:+ r2 → same (Obj m) (Obj m') ∧ r1 = r2.
Proof.
  intros IH [Hm Hr]%readable_Obj [Hm' Hr']%readable_Obj H.
  rewrite !write_value_Obj, !app_assoc_str in H. injection H as H.
  apply (join_reads write_entry (λ a b, a.1 = b.1 ∧ same a.2 b.2) (λ kv, readable kv.2))
    in H as [Heq ->]; [|by right|..].
  - split; [|done]. apply norm_Obj_eq; [done..|]. intros j.
    rewrite (im_get_perm j m (sort_by_key utf16_key m)) by (done || by rewrite sort_by_key_perm).
    rewrite (im_get_perm j m' (sort_by_key utf16_key m')) by (done || by rewrite sort_by_key_perm).
    apply (im_get_Forall2 same j) in Heq. destruct Heq; by f_equal/=.
  - intros x _. by eexists _, _.
  - rewrite sort_by_key_perm. eapply Forall_impl; [exact IH|]. intros kv. apply reads_entry.
  - by rewrite sort_by_key_perm.
  - by rewrite sort_by_key_perm.
Qed.

(** A number is told from other values by its first byte. *)
Lemma number_head_only n r1 v r2 :
  exact_number n = true → (∀ m, v ≠ Num m) → write_number n +:+ r1 ≠ write_value v +:+ r2.
Proof.
  intros Hn Hv H. destruct (write_number_head n Hn) as (c & r & E & Hc). rewrite E in H.
  destruct v as [|[]|m|s|l|m]; try (by injection H as -> _). by destruct (Hv m).
Qed.

Lemma reads_Num n v r1 r2 :
  exact_number n = true → readable v → follows r1 → follows r2 →
  write_value (Num n) +:+ r1 = write_value v +:+ r2 → same (Num n) v ∧ r1 = r2.
Proof.
  intros Hn [Hev Hwv] Hr1 Hr2 H. destruct v as [|b|n'|s|l|m];
    try (exfalso; by eapply (number_head_only n r1), H).
  simpl in *. rewrite !write_exact_number in H by done.
  apply (munch num_byte) in H as [H ->]; [|apply show_Z_bytes|apply show_Z_bytes|by apply follows_stops..].
  split; [|done]. apply (inj pretty) in H. unfold same. by rewrite (number_Z_inj n n').
Qed.

Lemma write_value_reads v : readable v → value_reads v.
Proof.
  induction v as [|b|n|s|l IH|m IH]; intros Hv w r1 r2 Hw Hr1 Hr2 H;
    (destruct w as [|b'|n'|s'|k|m'];
      [| |try (exfalso; symmetry in H; eapply (number_head_only n' r2); [apply Hw| |exact H]; done)|..]);
    try (destruct b; discriminate H); try (destruct b'; discriminate H); try discriminate H.
  - by injection H as ->.
  - destruct b, b'; try discriminate H; by injection H as ->.
  - apply reads_Num; [apply Hv|done..].
  - apply reads_Num; [apply Hv|done..].
  - apply reads_Num; [apply Hv|done..].
  - apply reads_Num; [apply Hv|done..].
  - apply reads_Num; [apply Hv|done..].
  - apply reads_Num; [apply Hv|done..].
  - simpl in H. by apply write_string_inj in H as [-> ->].
  - apply readable_Arr in Hv, Hw. apply reads_Arr; try done.
    rewrite Forall_forall in *. intros x Hx. apply IH; auto.
  - pose proof Hv as [_ Hv']%readable_Obj. apply reads_Obj; try done.
    rewrite Forall_forall in *. intros x Hx. apply IH; auto.
Qed.

(** The canonical form of readable values decides their equality. *)
Lemma canonical_equiv v w :
  readable v → readable w → json_utf8 v → json_utf8 w →
  to_canonical_string v = to_canonical_string w ↔ v ≡ w.
Proof.
  intros Hv Hw Huv Huw. unfold to_canonical_string. split.
  - intros H. destruct (write_value_reads v Hv w ε ε) as [Hn _]; [done..|by rewrite H|done].
  - intros H. rewrite <-write_value_norm, <-(write_value_norm w) by (try apply Hv; try apply Hw; done).
    by rewrite H.
Qed.

(** C38: on integers within [2^53], which the form prints exactly, the canonical form
    determines the content: two values have the same canonical form exactly when they are
    equal as JSON. So set IDs and parameter conflicts compare contents, and nothing else. *)
Theorem canonical_identifies_content (v w : Value) :
  value_wf v → value_wf w → json_utf8 v → json_utf8 w → exact_value v → exact_value w →
  to_canonical_string v = to_canonical_string w ↔ value_eqb v w = true.
Proof.
  intros Hv Hw Huv Huw Hev Hew. rewrite value_eqb_equiv by done. by apply canonical_equiv.
Qed.

Lemma canonical_identifies_content_witness :
  to_canonical_string (Obj [("n", Num (PosInt 1))]) = to_canonical_string (Obj [("n", Num (PosInt 2))])
  ↔ value_eqb (Obj [("n", Num (PosInt 1))]) (Obj [("n", Num (PosInt 2))]) = true.
Proof.
  apply canonical_identifies_content.
  1,2: repeat split; apply (bool_decide_unpack _); by vm_compute.
  all: by repeat split.
Defined.
