(* ===== verification/Model.v ===== *)
(** * Domain objects ([crates/core/src/model.rs]) *)

From Stdlib Require Import Ascii.
From stdpp Require Import base strings list.
From S2P Require Import Prelude Strings OrdMap Float64 Json Ids.

(** A reference to a secret in a secret store. *)
Record SecretRef := mk_SecretRef {
  sr_store : string; sr_reference : string; sr_version : option string }.
#[export] Instance SecretRef_eq_dec : EqDecision SecretRef.
Proof. solve_decision. Defined.

(** One matching criterion of a resource definition: every field is optional. *)
Record Criterion := mk_Criterion {
  c_id : option string;
  c_env_type : option string;
  c_app_id : option string;
  c_env_id : option string;
  c_res_id : option string;
  c_class : option string }.
#[export] Instance Criterion_eq_dec : EqDecision Criterion.
Proof. solve_decision. Defined.

Record DriverInputs := mk_DriverInputs {
  di_values : jmap; di_secrets : jmap; di_secret_refs : jmap }.

(** A co-provisioning entry. *)
Record Provision := mk_Provision {
  p_is_dependent : bool; p_match_dependents : bool; p_params : option Value }.

Record ResourceDefinition := mk_ResourceDefinition {
  rd_id : string;
  rd_name : string;
  rd_ty : string;
  rd_driver_type : string;
  rd_driver_account : option string;
  rd_driver_inputs : DriverInputs;
  rd_provision : list (string * Provision);
  rd_criteria : list Criterion }.

Inductive CloudAccountType := Aws | AwsRole | AwsIdentity.

Record CloudAccount := mk_CloudAccount {
  ca_id : string;
  ca_name : string;
  ca_ty : CloudAccountType;
  ca_config : jmap;
  ca_secret_refs : list (string * SecretRef) }.

(** The context a resource is resolved in. *)
Record ResourceContext := mk_ResourceContext {
  rc_org : string; rc_app : string; rc_env : string; rc_env_type : string;
  rc_res : Descriptor }.
#[export] Instance ResourceContext_eq_dec : EqDecision ResourceContext.
Proof. solve_decision. Defined.
