(* ===== verification/Criteria.v ===== *)
(** * Matching criteria ([crates/core/src/criteria.rs])

    A criterion matches when every field it sets equals the context; its weight
    adds a distinct power of two per field, so weights order criteria by their
    most significant field. The heaviest matching definition wins and a tie is an
    error. The theorems characterize the weight, the selection and its errors, and
    show the selection does not depend on the order of the definitions. *)

From Stdlib Require Import Ascii.
From stdpp Require Import base sets strings sorting list.
From S2P Require Import Prelude Strings OrdMap Float64 Json Ids Model.

Local Open Scope nat_scope.

Inductive MatchError :=
| NoMatch (ctx : ResourceContext)
| Ambiguous (descriptor : string) (definitions : list string) (weight : nat).

(** One optional field: fails on a different value, else adds its weight. *)
Definition field_weight (field : option string) (value : string) (w weight : nat) : option nat :=
  match field with
  | Some v => if String.eqb v value then Some (weight + w) else None
  | None => Some weight
  end.

Definition criterion_weight (criterion : Criterion) (ctx : ResourceContext) : option nat :=
  weight ← field_weight (c_env_type criterion) (rc_env_type ctx) 1 0;
  weight ← field_weight (c_app_id criterion) (rc_app ctx) 2 weight;
  weight ← field_weight (c_env_id criterion) (rc_env ctx) 4 weight;
  weight ← field_weight (c_res_id criterion) (d_id (rc_res ctx)) 8 weight;
  match c_class criterion with
  | Some v => if String.eqb v (d_class (rc_res ctx)) then Some (weight + 16) else None
  | None => if is_default (d_class (rc_res ctx)) then Some weight else None
  end.

(** [iter.max()]. *)
Definition max_option (l : list nat) : option nat :=
  match l with
  | [] => None
  | x :: l => Some (foldl Nat.max x l)
  end.

Definition definition_weight (def : ResourceDefinition) (ctx : ResourceContext) : option nat :=
  if negb (String.eqb (rd_ty def) (d_ty (rc_res ctx))) then None
  else max_option (filter_map (λ c, criterion_weight c ctx) (rd_criteria def)).

(** The loop's state: the best definitions so far, in order, and their weight. *)
Definition select_step (ctx : ResourceContext)
    (st : list ResourceDefinition * nat) (def : ResourceDefinition)
    : list ResourceDefinition * nat :=
  let '(best, best_weight) := st in
  match definition_weight def ctx with
  | None => st
  | Some w =>
      if match best with [] => true | _ => false end || (best_weight <? w) then ([def], w)
      else if w =? best_weight then (best ++ [def], best_weight)
      else st
  end.

Definition select_definition (defs : list ResourceDefinition) (ctx : ResourceContext)
    : result ResourceDefinition MatchError :=
  let '(best, best_weight) := foldl (select_step ctx) ([], 0) defs in
  match best with
  | [] => Err (NoMatch ctx)
  | [d] => Ok d
  | _ => Err (Ambiguous (Descriptor_show (rc_res ctx)) (osort (rd_id <$> best)) best_weight)
  end.

(** ** Weights *)

Definition field_matches (field : option string) (value : string) : Prop :=
  match field with Some v => v = value | None => True end.

(** What the documentation calls a match: every field that is set equals the
    context, and an absent class stands for [default]. *)
Definition criterion_matches (c : Criterion) (ctx : ResourceContext) : Prop :=
  field_matches (c_env_type c) (rc_env_type ctx)
  ∧ field_matches (c_app_id c) (rc_app ctx)
  ∧ field_matches (c_env_id c) (rc_env ctx)
  ∧ field_matches (c_res_id c) (d_id (rc_res ctx))
  ∧ option_default default_class (c_class c) = d_class (rc_res ctx).

Definition bit (o : option string) (w : nat) : nat := if is_some o then w else 0.

Definition weight_of (c : Criterion) : nat :=
  bit (c_env_type c) 1 + bit (c_app_id c) 2 + bit (c_env_id c) 4 + bit (c_res_id c) 8
  + bit (c_class c) 16.

Lemma field_weight_Some f v w n r :
  field_weight f v w n = Some r ↔ field_matches f v ∧ r = n + bit f w.
Proof.
  unfold bit, is_some. destruct f as [x|]; simpl; [|rewrite Nat.add_0_r; naive_solver].
  destruct (String.eqb_spec x v); naive_solver.
Qed.

(** [criterion_weight] is the documented rule: a weight exists exactly when every
    field the criterion sets equals the context (an absent class standing for [default]),
    and it is the sum 1, 2, 4, 8, 16 over the set fields, so at most 31. *)
Theorem criterion_weight_spec (c : Criterion) (ctx : ResourceContext) (w : nat) :
  criterion_weight c ctx = Some w ↔ criterion_matches c ctx ∧ w = weight_of c ∧ w ≤ 31.
Proof.
  unfold criterion_weight, criterion_matches, weight_of.
  assert (∀ o k, bit o k ≤ k) as Hbit by (intros o k; unfold bit; case_match; lia).
  pose proof (Hbit (c_env_type c) 1). pose proof (Hbit (c_app_id c) 2).
  pose proof (Hbit (c_env_id c) 4). pose proof (Hbit (c_res_id c) 8).
  pose proof (Hbit (c_class c) 16).
  setoid_rewrite bind_Some. setoid_rewrite field_weight_Some.
  setoid_rewrite bind_Some. setoid_rewrite field_weight_Some.
  setoid_rewrite bind_Some. setoid_rewrite field_weight_Some.
  setoid_rewrite bind_Some. setoid_rewrite field_weight_Some.
  assert (∀ n, match c_class c with
    | Some v => if String.eqb v (d_class (rc_res ctx)) then Some (n + 16) else None
    | None => if is_default (d_class (rc_res ctx)) then Some n else None
    end = Some w ↔ option_default default_class (c_class c) = d_class (rc_res ctx)
      ∧ w = n + bit (c_class c) 16) as Hclass.
  { intros n. unfold bit, is_some. destruct (c_class c) as [v|]; simpl.
    - destruct (String.eqb_spec v (d_class (rc_res ctx))); naive_solver.
    - unfold is_default. rewrite String.eqb_sym, Nat.add_0_r.
      destruct (String.eqb_spec "default" (d_class (rc_res ctx))); naive_solver. }
  setoid_rewrite Hclass. split.
  - intros (? & [? ->] & ? & [? ->] & ? & [? ->] & ? & [? ->] & ? & ->). split_and!; [done..|lia].
  - intros [(? & ? & ? & ? & ?) [-> _]]. do 4 (eexists; split; [done|]). split; [done|lia].
Qed.

(** ** Selection *)

Section select.
Context (ctx : ResourceContext).
Implicit Types defs : list ResourceDefinition.

Abbreviation weight d := (definition_weight d ctx).

(** The loop invariant: [best] holds the definitions of weight [bw] so far, in
    order, and no definition so far is heavier. *)
Definition select_inv (defs best : list ResourceDefinition) (bw : nat) : Prop :=
  best = filter (λ d, weight d = Some bw) defs
  ∧ ∀ d w, d ∈ defs → weight d = Some w → best ≠ [] ∧ w ≤ bw.

Lemma select_step_inv defs best bw d :
  select_inv defs best bw →
  let '(best', bw') := select_step ctx (best, bw) d in select_inv (defs ++ [d]) best' bw'.
Proof.
  intros [Hb Hw]. unfold select_step. destruct (weight d) as [w|] eqn:E.
  - destruct (_ || _) eqn:Ec; [|destruct (Nat.eqb_spec w bw) as [->|Hne]].
    + assert (filter (λ d, weight d = Some w) defs = []) as Hnil.
      { apply elem_of_nil_inv. intros x [Hx1 Hx2]%list_elem_of_filter. destruct (Hw x w Hx2 Hx1) as [Hne Hle].
        apply orb_true_iff in Ec as [Ec|Ec]; [by destruct best|]. bool_hyps. lia. }
      split.
      * rewrite filter_app, Hnil, filter_cons_True by exact E. done.
      * intros d' w' [Hd|Hd%list_elem_of_singleton]%elem_of_app Hw'; [|split; [done|]; subst d'; rewrite E in Hw'; injection Hw'; lia].
        split; [done|]. destruct (Hw d' w' Hd Hw') as [Hne Hle].
        apply orb_true_iff in Ec as [Ec|Ec]; [by destruct best|]. bool_hyps. lia.
    + split.
      * rewrite filter_app, <-Hb, filter_cons_True by exact E. done.
      * intros d' w' [Hd|Hd%list_elem_of_singleton]%elem_of_app Hw'.
        -- destruct (Hw d' w' Hd Hw'). split; [by destruct best|done].
        -- subst d'. rewrite E in Hw'. injection Hw' as <-. split; [by destruct best|done].
    + apply orb_false_iff in Ec as [Ec1 Ec2]. bool_hyps. split.
      * rewrite filter_app, <-Hb, filter_cons_False by naive_solver. by rewrite app_nil_r.
      * intros d' w' [Hd|Hd%list_elem_of_singleton]%elem_of_app Hw'; [by eapply Hw|].
        subst d'. rewrite E in Hw'. injection Hw' as <-. split; [by destruct best|lia].
  - split.
    + rewrite filter_app, <-Hb, filter_cons_False by naive_solver. by rewrite app_nil_r.
    + intros d' w' [Hd|Hd%list_elem_of_singleton]%elem_of_app Hw'; [by eapply Hw|]. congruence.
Qed.

Lemma select_loop_inv defs :
  let '(best, bw) := foldl (select_step ctx) ([], 0) defs in select_inv defs best bw.
Proof.
  induction defs as [|d defs IH] using rev_ind.
  - split; [done|]. intros ? ? ?%not_elem_of_nil. done.
  - rewrite foldl_app. simpl. destruct (foldl _ _ defs) as [best bw]. by apply select_step_inv.
Qed.

(** Permuting the definitions permutes the best ones and keeps their weight. *)
Lemma select_inv_perm defs defs' best best' bw bw' :
  defs ≡ₚ defs' → select_inv defs best bw → select_inv defs' best' bw' →
  best ≡ₚ best' ∧ (best ≠ [] → bw = bw').
Proof.
  intros Hp [Hb Hw] [Hb' Hw'].
  assert (∀ x w (l b : list ResourceDefinition), x :: b = filter (λ d, weight d = Some w) l →
    x ∈ l ∧ weight x = Some w) as Hin.
  { intros x w l b Hx. assert (x ∈ x :: b) as Hin by left. rewrite Hx in Hin.
    apply list_elem_of_filter in Hin. tauto. }
  destruct best as [|x best].
  - destruct best' as [|y best']; [done|].
    destruct (Hin y bw' defs' best' Hb') as [Hy Hy'].
    rewrite <-Hp in Hy. by destruct (Hw y bw' Hy Hy').
  - destruct (Hin x bw defs best Hb) as [Hx Hx'].
    pose proof Hx as Hx2. rewrite Hp in Hx2. destruct (Hw' x bw Hx2 Hx') as [Hne Hle].
    destruct best' as [|y best']; [done|].
    destruct (Hin y bw' defs' best' Hb') as [Hy Hy'].
    rewrite <-Hp in Hy. destruct (Hw y bw' Hy Hy') as [_ Hle'].
    assert (bw = bw') as <- by lia. split; [|done]. rewrite Hb, Hb'. by rewrite Hp.
Qed.

End select.

(** What the selection promises: the unique heaviest definition, or the reason
    there is none. *)
Definition selected (defs : list ResourceDefinition) (ctx : ResourceContext)
    (r : result ResourceDefinition MatchError) : Prop :=
  match r with
  | Ok d => ∃ w l1 l2, defs = l1 ++ d :: l2 ∧ definition_weight d ctx = Some w
      ∧ ∀ d' w', d' ∈ l1 ++ l2 → definition_weight d' ctx = Some w' → w' < w
  | Err (NoMatch c) => c = ctx ∧ ∀ d, d ∈ defs → definition_weight d ctx = None
  | Err (Ambiguous s ids w) =>
      s = Descriptor_show (rc_res ctx)
      ∧ ids = osort (rd_id <$> filter (λ d, definition_weight d ctx = Some w) defs)
      ∧ 2 ≤ length ids
      ∧ ∀ d w', d ∈ defs → definition_weight d ctx = Some w' → w' ≤ w
  end.

Lemma filter_singleton_split {A} (P : A → Prop) `{∀ x, Decision (P x)} l x :
  filter P l = [x] → ∃ l1 l2, l = l1 ++ x :: l2 ∧ P x ∧ ∀ y, y ∈ l1 ++ l2 → ¬ P y.
Proof.
  induction l as [|y l IH]; [done|]. destruct (decide (P y)) as [Hy|Hy].
  - rewrite filter_cons_True by done. intros [= -> Hl]. exists [], l. split; [done|]. split; [done|].
    intros z Hz Pz. assert (z ∈ filter P l) as Hf by (by apply list_elem_of_filter).
    rewrite Hl in Hf. by apply not_elem_of_nil in Hf.
  - rewrite filter_cons_False by done. intros (l1 & l2 & -> & Hx & Hn)%IH.
    exists (y :: l1), l2. split; [done|]. split; [done|].
    intros z [->|Hz]%elem_of_cons; [done|by apply Hn].
Qed.

Lemma select_definition_elem defs ctx d : select_definition defs ctx = Ok d → d ∈ defs.
Proof.
  unfold select_definition. pose proof (select_loop_inv ctx defs) as Hinv.
  destruct (foldl _ _ defs) as [best bw]. destruct Hinv as [Hb _].
  destruct best as [|d' [|]]; try done. intros [= ->].
  assert (d ∈ filter (λ d, definition_weight d ctx = Some bw) defs) as Hd by (rewrite <-Hb; by left).
  by apply list_elem_of_filter in Hd as [_ ?].
Qed.

(** [select_definition] returns a definition exactly when it is the only heaviest
    match; [NoMatch] means that nothing matches, and [Ambiguous] lists, sorted, exactly
    the definitions tied at the highest weight. *)
Theorem select_definition_spec (defs : list ResourceDefinition) (ctx : ResourceContext) :
  selected defs ctx (select_definition defs ctx).
Proof.
  unfold select_definition. pose proof (select_loop_inv ctx defs) as Hinv.
  destruct (foldl _ _ defs) as [best bw]. destruct Hinv as [Hb Hw].
  destruct best as [|d [|d' best]].
  - split; [done|]. intros d Hd. destruct (definition_weight d ctx) eqn:E; [|done].
    by destruct (Hw d n Hd E).
  - symmetry in Hb. apply filter_singleton_split in Hb as (l1 & l2 & -> & Hd & Hn).
    exists bw, l1, l2. split; [done|]. split; [done|]. intros d' w' Hd' Hw'.
    assert (d' ∈ l1 ++ d :: l2) as Hin by (apply elem_of_app in Hd'; set_solver).
    destruct (Hw d' w' Hin Hw') as [_ Hle].
    assert (w' ≠ bw) by (intros ->; by apply (Hn d')). lia.
  - split; [done|]. split; [by rewrite <-Hb|].
    split; [rewrite (Permutation_length (osort_perm _)); simpl; lia|].
    intros e w' He Hw'. by destruct (Hw e w' He Hw').
Qed.

(** The order in which definitions are listed does not matter: a permutation of the
    definitions selects the same definition, or fails with the same error. *)
Theorem select_definition_order_irrelevant
    (defs defs' : list ResourceDefinition) (ctx : ResourceContext) :
  defs ≡ₚ defs' → select_definition defs ctx = select_definition defs' ctx.
Proof.
  intros Hp. unfold select_definition.
  pose proof (select_loop_inv ctx defs) as H1. pose proof (select_loop_inv ctx defs') as H2.
  destruct (foldl _ _ defs) as [best bw], (foldl _ _ defs') as [best' bw'].
  destruct (select_inv_perm ctx _ _ _ _ _ _ Hp H1 H2) as [Hbest Hbw].
  destruct best as [|d [|d2 best]].
  - apply Permutation_nil_l in Hbest. by subst.
  - apply Permutation_singleton_l in Hbest. by subst.
  - assert (osort (rd_id <$> d :: d2 :: best) = osort (rd_id <$> best')) as ->
      by (apply osort_Permutation; by rewrite Hbest).
    rewrite Hbw by done. apply Permutation_length in Hbest.
    destruct best' as [|? [|? ?]]; done.
Qed.

Lemma select_definition_order_irrelevant_witness :
  let def id crit := mk_ResourceDefinition id ε "s3" "openporch/echo" None
    (mk_DriverInputs [] [] []) [] [crit] in
  let a := def "s3-a" (mk_Criterion None (Some "development") None None None None) in
  let b := def "s3-b" (mk_Criterion None None (Some "shop") None None None) in
  let ctx := mk_ResourceContext "acme" "shop" "dev" "development"
    (mk_Descriptor "s3" "default" "shared.b") in
  select_definition [a; b] ctx = Ok b ∧ select_definition [a; b] ctx = select_definition [b; a] ctx.
Proof.
  intros def a b ctx. split; [reflexivity|].
  apply select_definition_order_irrelevant. apply Permutation_swap.
Defined.
