(* ===== verification/Template.v ===== *)
(** * Placeholder syntax ([crates/core/src/placeholder.rs], parsing)

    A string is parsed into literal text and placeholders [${...}], with [$\{] as
    an escape for a literal [${]. Both loops of the source (over the string and
    over a placeholder's path) are functions with fuel; [None] is running out of
    it, which the source's bound excludes ([template_parse_total]). *)

From Stdlib Require Import Ascii.
From stdpp Require Import base sets strings list.
From S2P Require Import Prelude Strings.

Local Open Scope string_scope.
Local Open Scope nat_scope.
Local Open Scope list_scope.

Inductive PlaceholderErrorKind :=
| Syntax (m : string)
| UnknownRoot (r : string)
| NotAllowed (m : string)
| Unresolvable (m : string)
| SecretInNonSecret.

Record PlaceholderError := mk_PlaceholderError {
  pe_placeholder : string; pe_location : string; pe_kind : PlaceholderErrorKind }.

Inductive Segment :=
| Name (s : string)
| Quoted (s : string)
| Index (i : N).
#[export] Instance Segment_eq_dec : EqDecision Segment.
Proof. solve_decision. Defined.

Definition segment_key (seg : Segment) : option string :=
  match seg with Name s | Quoted s => Some s | Index _ => None end.

Definition segment_show (seg : Segment) : string :=
  match seg with
  | Name s => "." +:+ s
  | Quoted s => "['" +:+ s +:+ "']"
  | Index i => "[" +:+ show_N i +:+ "]"
  end.

Record RawPlaceholder := mk_RawPlaceholder { rp_text : string; rp_segments : list Segment }.

Definition rp_root (p : RawPlaceholder) : string :=
  match rp_segments p with
  | seg :: _ => option_default ε (segment_key seg)
  | [] => ε
  end.

Inductive Part :=
| Literal (s : string)
| Placeholder (p : RawPlaceholder).

Abbreviation Template := (list Part).

(** ** Paths *)

(** [c] is neither punctuation of a path nor whitespace. *)
Definition is_name_char (ch : string) : bool :=
  negb (String.eqb ch "." || String.eqb ch "[" || String.eqb ch "]" || String.eqb ch "'"
        || String.eqb ch (str1 dquote))
  && negb (is_whitespace ch).

Fixpoint take_while {A} (p : A → bool) (l : list A) : list A :=
  match l with
  | x :: l => if p x then x :: take_while p l else []
  | [] => []
  end.
Fixpoint drop_while {A} (p : A → bool) (l : list A) : list A :=
  match l with
  | x :: l' => if p x then drop_while p l' else l
  | [] => []
  end.

(** The characters before the first [c], and those after it. *)
Fixpoint until (c : string) (l : list string) : option (list string * list string) :=
  match l with
  | [] => None
  | x :: l =>
      if String.eqb x c then Some ([], l)
      else match until c l with Some (a, b) => Some (x :: a, b) | None => None end
  end.

(** The content of brackets: a quoted string or an index. *)
Definition parse_bracket (inner : string) : result Segment PlaceholderErrorKind :=
  let unquote q := s ← strip_prefix (str1 q) inner; strip_suffix (str1 q) s in
  match unquote squote with
  | Some q => Ok (Quoted q)
  | None =>
      match unquote dquote with
      | Some q => Ok (Quoted q)
      | None =>
          match parse_usize inner with
          | Some i => Ok (Index i)
          | None => Err (Syntax "brackets hold a quoted string or a non-negative index")
          end
      end
  end.

(** The loop of [parse_path] over the characters not read yet. *)
Fixpoint path_loop (fuel : nat) (segments : list Segment) (l : list string)
    : option (result (list Segment) PlaceholderErrorKind) :=
  match l with
  | [] => Some (Ok segments)
  | c :: l' =>
      match fuel with
      | O => None
      | S fuel =>
          if String.eqb c "[" then
            match until "]" l' with
            | None => Some (Err (Syntax "unterminated `[`"))
            | Some (inner, rest) =>
                match parse_bracket (concat_str inner) with
                | Err e => Some (Err e)
                | Ok seg => path_loop fuel (segments ++ [seg]) rest
                end
            end
          else if String.eqb c "." && match segments with [] => false | _ => true end then
            match take_while is_name_char l' with
            | [] => Some (Err (Syntax "empty path segment"))
            | name => path_loop fuel (segments ++ [Name (concat_str name)])
                        (drop_while is_name_char l')
            end
          else if match segments with [] => true | _ => false end && is_name_char c then
            path_loop fuel (segments ++ [Name (concat_str (take_while is_name_char l))])
              (drop_while is_name_char l)
          else Some (Err (Syntax ("unexpected `" +:+ c +:+ "`")))
      end
  end.

Definition out_of_fuel {A} : result A PlaceholderErrorKind := Err (Syntax "out of fuel").

Definition parse_path (body : string) : result (list Segment) PlaceholderErrorKind :=
  let l := chars body in
  match l with
  | [] => Err (Syntax "empty placeholder")
  | _ => option_default out_of_fuel (path_loop (length l) [] l)
  end.

(** ** Templates *)

(** The position of the closing brace, skipping quoted strings. *)
Fixpoint find_end (quote : option ascii) (i : nat) (s : string) : option nat :=
  match s with
  | ε => None
  | String c s =>
      match quote with
      | Some q => find_end (if Ascii.eqb c q then None else quote) (S i) s
      | None =>
          if Ascii.eqb c squote || Ascii.eqb c dquote then find_end (Some c) (S i) s
          else if Ascii.eqb c "}" then Some i
          else find_end None (S i) s
      end
  end.
Definition find_placeholder_end (s : string) : option nat := find_end None 0 s.

Definition push_literal_part (lit : string) (parts : list Part) : list Part :=
  if str_is_empty lit then parts else parts ++ [Literal lit].

(** [$\{] and [${]. *)
Definition esc_open : string := String "$" (String backslash (str1 "{")).
Definition open_brace : string := "${".

(** The loop of [Template::parse]: the parts and the literal text so far, and the
    text not read yet. *)
Fixpoint template_loop (fuel : nat) (parts : list Part) (lit rest : string)
    : option (result Template PlaceholderErrorKind) :=
  match find_char "$" rest with
  | None => Some (Ok (push_literal_part (lit +:+ rest) parts))
  | Some i =>
      match fuel with
      | O => None
      | S fuel =>
          let lit := lit +:+ str_take i rest in
          let after := str_drop i rest in
          match strip_prefix esc_open after with
          | Some tail => template_loop fuel parts (lit +:+ open_brace) tail
          | None =>
              match strip_prefix open_brace after with
              | Some tail =>
                  match find_placeholder_end tail with
                  | None => Some (Err (Syntax "unterminated `${`"))
                  | Some end_ =>
                      let body := str_take end_ tail in
                      match parse_path body with
                      | Err e => Some (Err e)
                      | Ok segments =>
                          let p := mk_RawPlaceholder (open_brace +:+ body +:+ "}") segments in
                          template_loop fuel (push_literal_part lit parts ++ [Placeholder p]) ε
                            (str_drop (S end_) tail)
                      end
                  end
              | None => template_loop fuel parts (lit +:+ "$") (str_drop 1 after)
              end
          end
      end
  end.

Definition template_parse (s : string) : result Template PlaceholderErrorKind :=
  option_default out_of_fuel (template_loop (String.length s) [] ε s).

Definition is_literal_part (p : Part) : bool :=
  match p with Literal _ => true | Placeholder _ => false end.
Definition template_is_literal (t : Template) : bool := forallb is_literal_part t.

Definition part_placeholder (p : Part) : option RawPlaceholder :=
  match p with Placeholder p => Some p | Literal _ => None end.
Definition template_placeholders (t : Template) : list RawPlaceholder :=
  filter_map part_placeholder t.
Definition template_whole (t : Template) : option RawPlaceholder :=
  match t with [Placeholder p] => Some p | _ => None end.

(** The unit tests of the source. *)
Example template_escape :
  template_parse ("cost: $5 and " +:+ esc_open +:+ "x} ${context.env.id}")
  = Ok [Literal "cost: $5 and ${x} ";
        Placeholder (mk_RawPlaceholder "${context.env.id}" [Name "context"; Name "env"; Name "id"])].
Proof. by vm_compute. Qed.
Example template_brackets :
  template_parse "${resources['dns.public#shared.api-dns'].outputs.tags[1]}"
  = Ok [Placeholder (mk_RawPlaceholder "${resources['dns.public#shared.api-dns'].outputs.tags[1]}"
      [Name "resources"; Quoted "dns.public#shared.api-dns"; Name "outputs"; Name "tags"; Index 1])].
Proof. by vm_compute. Qed.
Example template_syntax_errors :
  forallb (λ s, negb (is_ok (template_parse s))) ["${"; "${}"; "${a..b}"; "${a[}"; "${a[x]}"] = true.
Proof. by vm_compute. Qed.

(** ** Termination *)

Lemma drop_while_length {A} (p : A → bool) l : length (drop_while p l) ≤ length l.
Proof. induction l as [|x l IH]; simpl; [done|]. case_match; simpl; lia. Qed.

Lemma until_length c l a b : until c l = Some (a, b) → length b < length l.
Proof.
  revert a. induction l as [|x l IH]; intros a; simpl; [done|].
  case_match; [intros [= <- <-]; lia|]. destruct (until c l) as [[a' b']|]; [|done].
  intros [= <- <-]. specialize (IH a' eq_refl). lia.
Qed.

Lemma path_loop_total n segs l : length l ≤ n → ∃ r, path_loop n segs l = Some r.
Proof.
  revert segs l. induction n as [|n IH]; intros segs [|c l] Hn; simpl in Hn; [by eexists|lia|by eexists|].
  pose proof (drop_while_length is_name_char l) as Hdw. cbn [path_loop].
  destruct (String.eqb c "[").
  { destruct (until "]" l) as [[inner rest]|] eqn:Eu; [|by eauto].
    apply until_length in Eu. destruct (parse_bracket _); [apply IH; lia|by eauto]. }
  destruct (String.eqb c "." && _).
  { destruct (take_while is_name_char l); [by eauto|apply IH; lia]. }
  destruct (_ && is_name_char c) eqn:E; [|by eauto].
  apply IH. apply andb_true_iff in E as [_ Hc]. simpl. rewrite Hc. lia.
Qed.

Lemma template_loop_total n parts lit rest :
  String.length rest ≤ n → ∃ r, template_loop n parts lit rest = Some r.
Proof.
  revert parts lit rest. induction n as [|n IH]; intros parts lit rest Hn.
  - destruct rest; [|simpl in Hn; lia]. by eexists.
  - cbn [template_loop]. destruct (find_char "$" rest) as [i|] eqn:Ef; [|by eauto].
    assert (String.length (str_drop i rest) ≤ S n) as Hd by (rewrite length_str_drop; lia).
    destruct (strip_prefix esc_open _) as [tail|] eqn:E1.
    { apply IH. apply strip_prefix_Some in E1. rewrite E1 in Hd.
      rewrite length_app_str in Hd. simpl in Hd. lia. }
    destruct (strip_prefix open_brace _) as [tail|] eqn:E2.
    { destruct (find_placeholder_end tail); [|by eauto]. destruct (parse_path _); [|by eauto].
      apply IH. apply strip_prefix_Some in E2. rewrite E2, length_app_str in Hd.
      rewrite length_str_drop. simpl in Hd. lia. }
    apply IH. rewrite !length_str_drop in *. apply find_char_Some in Ef as [Hr _].
    apply (f_equal String.length) in Hr. rewrite length_app_str, length_str_take in Hr.
    simpl in Hr. lia.
Qed.

Lemma template_loop_mono n m parts lit rest r :
  template_loop n parts lit rest = Some r → n ≤ m → template_loop m parts lit rest = Some r.
Proof.
  revert m parts lit rest. induction n as [|n IH]; intros m parts lit rest.
  - simpl. destruct (find_char "$" rest) eqn:E; [done|]. intros [= <-] _. destruct m; simpl; by rewrite E.
  - intros H Hm. destruct m as [|m]; [lia|].
    cbn [template_loop] in *. destruct (find_char "$" rest); [|done].
    destruct (strip_prefix esc_open _); [apply IH; [done|lia]|].
    destruct (strip_prefix open_brace _); [|apply IH; [done|lia]].
    destruct (find_placeholder_end _); [|done]. destruct (parse_path _); [|done].
    apply IH; [done|lia].
Qed.

(** Parsing terminates: on every string, the fuel that [Template::parse] and
    [parse_path] start with (the length of the text not read yet) is enough for their
    loops to reach a result. *)
Theorem template_parse_total (s : string) :
  (∃ r, template_loop (String.length s) [] ε s = Some r ∧ template_parse s = r)
  ∧ (∃ r, path_loop (length (chars s)) [] (chars s) = Some r).
Proof.
  split.
  - destruct (template_loop_total (String.length s) [] ε s) as [r Hr]; [done|].
    exists r. unfold template_parse. by rewrite Hr.
  - by apply path_loop_total.
Qed.

(** ** The loop without fuel *)

Definition parses (parts : list Part) (lit rest : string)
    (r : result Template PlaceholderErrorKind) : Prop :=
  ∃ n, template_loop n parts lit rest = Some r.

Lemma template_parse_parses s r : template_parse s = r ↔ parses [] ε s r.
Proof.
  unfold template_parse. destruct (template_loop_total (String.length s) [] ε s) as [r' Hr]; [done|].
  rewrite Hr. simpl. split; [intros <-; by eexists|].
  intros [n Hn]. apply (template_loop_mono _ (Nat.max n (String.length s))) in Hn; [|lia].
  apply (template_loop_mono _ (Nat.max n (String.length s))) in Hr; [|lia]. congruence.
Qed.

Lemma contains_char_find_app c a r :
  contains_char c a = false →
  find_char c (a +:+ r) = (λ i, String.length a + i) <$> find_char c r.
Proof.
  induction a as [|d a IH]; simpl; [by destruct (find_char c r)|].
  intros [Hd Ha]%orb_false_iff. rewrite Hd, IH by done. by destruct (find_char c r).
Qed.

Lemma str_take_app_plus a n r : str_take (String.length a + n) (a +:+ r) = a +:+ str_take n r.
Proof. induction a as [|c a IH]; simpl; [done|]. by rewrite IH. Qed.

Lemma str_drop_app_plus a n r : str_drop (String.length a + n) (a +:+ r) = str_drop n r.
Proof. induction a as [|c a IH]; simpl; done. Qed.

(** Text without [$] joins the literal. *)
Lemma loop_text n parts lit a r :
  contains_char "$" a = false →
  template_loop n parts lit (a +:+ r) = template_loop n parts (lit +:+ a) r.
Proof.
  intros Ha. destruct n; cbn [template_loop]; rewrite contains_char_find_app by done;
    destruct (find_char "$" r) as [i|]; cbn [fmap option_fmap option_map];
    rewrite ?str_take_app_plus, ?str_drop_app_plus, ?app_assoc_str; done.
Qed.

Lemma parses_text parts lit a r res :
  contains_char "$" a = false →
  parses parts lit (a +:+ r) res ↔ parses parts (lit +:+ a) r res.
Proof. intros Ha. unfold parses. by setoid_rewrite loop_text. Qed.

Lemma parses_end parts lit res :
  parses parts lit ε res ↔ res = Ok (push_literal_part lit parts).
Proof.
  unfold parses. split.
  - intros [n Hn]. destruct n; simpl in Hn; rewrite app_eps_r in Hn; congruence.
  - intros ->. exists 0. simpl. by rewrite app_eps_r.
Qed.

Lemma parses_esc parts lit r res :
  parses parts lit (esc_open +:+ r) res ↔ parses parts (lit +:+ open_brace) r res.
Proof.
  unfold parses. split.
  - intros [[|n] Hn]; [done|]. simpl in Hn. rewrite app_eps_r in Hn. by exists n.
  - intros [n Hn]. exists (S n). simpl. by rewrite app_eps_r.
Qed.

Definition starts_with_open (r : string) : bool :=
  starts_with "{" r || starts_with (String backslash "{") r.

Lemma parses_dollar parts lit r res :
  starts_with_open r = false →
  parses parts lit (String "$" r) res ↔ parses parts (lit +:+ "$") r res.
Proof.
  unfold starts_with_open, starts_with, is_some. rewrite orb_false_iff. intros Hopen.
  assert (strip_prefix esc_open (String "$" r) = None) as E1.
  { change (strip_prefix (String backslash "{") r = None).
    destruct Hopen as [_ H2]. destruct (strip_prefix (String backslash "{") r); done. }
  assert (strip_prefix open_brace (String "$" r) = None) as E2.
  { change (strip_prefix "{" r = None). destruct Hopen as [H1 _].
    destruct (strip_prefix "{" r); done. }
  unfold parses. split.
  - intros [[|n] Hl]; [done|]. exists n. cbn [template_loop] in Hl.
    change (find_char "$" (String "$" r)) with (Some 0) in Hl. cbn [str_take str_drop] in Hl.
    by rewrite E1, E2, app_eps_r in Hl.
  - intros [n Hl]. exists (S n). cbn [template_loop].
    change (find_char "$" (String "$" r)) with (Some 0). cbn [str_take str_drop].
    by rewrite E1, E2, app_eps_r.
Qed.

Lemma loop_placeholder n parts lit tail end_ segs :
  find_placeholder_end tail = Some end_ → parse_path (str_take end_ tail) = Ok segs →
  template_loop (S n) parts lit (open_brace +:+ tail)
  = template_loop n (push_literal_part lit parts
      ++ [Placeholder (mk_RawPlaceholder (open_brace +:+ str_take end_ tail +:+ "}") segs)]) ε
      (str_drop (S end_) tail).
Proof.
  intros He Hp. cbn [template_loop].
  change (find_char "$" (open_brace +:+ tail)) with (Some 0). cbv beta iota zeta.
  cbn [str_take str_drop]. change (strip_prefix esc_open (open_brace +:+ tail)) with (@None string).
  rewrite strip_prefix_app. cbv beta iota. by rewrite He, Hp, app_eps_r.
Qed.

Lemma parses_placeholder parts lit body r segs res :
  find_placeholder_end (body +:+ "}" +:+ r) = Some (String.length body) →
  parse_path body = Ok segs →
  parses parts lit (open_brace +:+ body +:+ "}" +:+ r) res ↔
  parses (push_literal_part lit parts
          ++ [Placeholder (mk_RawPlaceholder (open_brace +:+ body +:+ "}") segs)]) ε r res.
Proof.
  intros He Hp. unfold parses.
  assert (str_take (String.length body) (body +:+ "}" +:+ r) = body) as Ht
    by apply str_take_length_app.
  assert (str_drop (S (String.length body)) (body +:+ "}" +:+ r) = r) as Hd.
  { rewrite <-app_assoc_str. replace (S (String.length body)) with (String.length (body +:+ "}"))
      by (rewrite length_app_str; simpl; lia). apply str_drop_length_app. }
  pose proof (λ n, loop_placeholder n parts lit (body +:+ "}" +:+ r) (String.length body) segs He) as Hn.
  rewrite Ht, Hd in Hn. specialize (λ n, Hn n Hp) as Hn'. clear Hn. rename Hn' into Hn.
  split.
  - intros [[|n] Hl]; [done|]. rewrite Hn in Hl. by exists n.
  - intros [n Hl]. exists (S n). by rewrite Hn.
Qed.

(** ** Printing a template back *)

(** A literal is written with every [${] escaped. *)
Fixpoint escape_literal (s : string) : string :=
  match s with
  | String c r =>
      match r with
      | String d r' =>
          if Ascii.eqb c "$" && Ascii.eqb d "{" then esc_open +:+ escape_literal r'
          else String c (escape_literal r)
      | ε => String c ε
      end
  | ε => ε
  end.

Definition part_unparse (p : Part) : string :=
  match p with Literal l => escape_literal l | Placeholder p => rp_text p end.
Definition template_unparse (t : Template) : string := concat_str (part_unparse <$> t).

(** A placeholder whose text is [${body}], the path of which is its segments. *)
Definition placeholder_wf (p : RawPlaceholder) : Prop :=
  ∃ body, rp_text p = open_brace +:+ body +:+ "}"
    ∧ find_placeholder_end (body +:+ "}") = Some (String.length body)
    ∧ parse_path body = Ok (rp_segments p).

(** Literals are non-empty, separated, and free of the escape sequence. *)
Fixpoint template_wf (t : Template) : Prop :=
  match t with
  | [] => True
  | Literal l :: t =>
      l ≠ ε ∧ ¬ occurs esc_open l ∧ match t with Literal _ :: _ => False | _ => True end
      ∧ template_wf t
  | Placeholder p :: t => placeholder_wf p ∧ template_wf t
  end.

Lemma escape_literal_cons c r :
  c ≠ "$"%char ∨ starts_with "{" r = false →
  escape_literal (String c r) = String c (escape_literal r).
Proof.
  intros Hc. destruct r as [|d r]; [done|]. cbn [escape_literal].
  destruct (Ascii.eqb_spec c "$"), (Ascii.eqb_spec d "{"); subst; try done.
  destruct Hc as [Hc|Hc]; [done|]. by vm_compute in Hc.
Qed.

Lemma escape_literal_open r : escape_literal (open_brace +:+ r) = esc_open +:+ escape_literal r.
Proof. done. Qed.

Lemma occurs_cons p c s : occurs p (String c s) ↔ starts_with p (String c s) = true ∨ occurs p s.
Proof.
  rewrite starts_with_spec. split.
  - intros ([|d a] & b & Heq); [left; by exists b|]. injection Heq as <- Heq.
    right. by exists a, b.
  - intros [[b Hb]|(a & b & ->)]; [by exists ε, b|by exists (String c a), b].
Qed.

Lemma starts_with_app p a b : starts_with p a = true → starts_with p (a +:+ b) = true.
Proof.
  rewrite !starts_with_spec. intros [r ->]. exists (r +:+ b). by rewrite app_assoc_str.
Qed.

Lemma starts_with_cons c p d s :
  starts_with (String c p) (String d s) = Ascii.eqb c d && starts_with p s.
Proof. unfold starts_with. simpl. by destruct (Ascii.eqb c d). Qed.

(** The text of a part never begins with a brace or a backslash and a brace. *)
Lemma escape_starts l :
  starts_with_open l = true → starts_with_open (escape_literal l) = true.
Proof.
  unfold starts_with_open. rewrite !orb_true_iff. intros [H|H].
  - left. destruct l as [|c l]; [done|]. rewrite starts_with_cons in H. bool_hyps.
    apply Ascii.eqb_eq in H as <-. rewrite escape_literal_cons by (by left).
    by rewrite starts_with_cons.
  - right. destruct l as [|c [|d l]]; [done| |]; rewrite !starts_with_cons in H;
      apply andb_true_iff in H as [<-%Ascii.eqb_eq H]; [done|].
    apply andb_true_iff in H as [<-%Ascii.eqb_eq _].
    rewrite !escape_literal_cons by (by left). by rewrite !starts_with_cons.
Qed.

Lemma no_esc_dollar l :
  ¬ occurs esc_open (String "$" l) ↔
  starts_with (String backslash "{") l = false ∧ ¬ occurs esc_open l.
Proof.
  rewrite occurs_cons. unfold esc_open at 1. rewrite starts_with_cons, Ascii.eqb_refl, andb_true_l.
  destruct (starts_with _ l); intuition congruence.
Qed.

Lemma no_esc_cons c l :
  c ≠ "$"%char → ¬ occurs esc_open (String c l) ↔ ¬ occurs esc_open l.
Proof.
  intros Hc. rewrite occurs_cons. unfold esc_open at 1. rewrite starts_with_cons.
  destruct (Ascii.eqb_spec "$" c); [congruence|]. rewrite andb_false_l. intuition congruence.
Qed.

Lemma escape_literal_head l r c :
  starts_with (str1 c) (escape_literal l +:+ r) = true → c ≠ "$"%char →
  (∃ l', l = String c l' ∧ escape_literal l = String c (escape_literal l'))
  ∨ l = ε ∧ starts_with (str1 c) r = true.
Proof.
  intros H Hc. destruct l as [|d l]; [by right|left].
  destruct (Ascii.eqb_spec d "$") as [->|Hd].
  - exfalso. revert H. destruct (starts_with "{" l) eqn:El.
    + apply starts_with_spec in El as [l' ->].
      change (String "$" ("{" +:+ l')) with (open_brace +:+ l').
      rewrite escape_literal_open. unfold esc_open, str1. cbn [String.append].
      rewrite starts_with_cons. by destruct (Ascii.eqb_spec c "$").
    + rewrite escape_literal_cons by (by right). unfold str1. cbn [String.append].
      rewrite starts_with_cons. by destruct (Ascii.eqb_spec c "$").
  - revert H. rewrite escape_literal_cons by (by left). unfold str1. cbn [String.append].
    rewrite starts_with_cons. intros [->%Ascii.eqb_eq _]%andb_true_iff. by exists l.
Qed.

Lemma escape_starts_inv l r :
  r = ε ∨ starts_with "$" r = true →
  starts_with_open (escape_literal l +:+ r) = true → starts_with_open l = true.
Proof.
  intros Hr H. assert (∀ c, c ≠ "$"%char → starts_with (str1 c) r = false) as Hr'.
  { intros c Hc. destruct Hr as [->|[r' ->]%starts_with_spec]; [done|].
    unfold str1. cbn [String.append]. rewrite starts_with_cons. by destruct (Ascii.eqb_spec c "$"). }
  unfold starts_with_open in *. apply orb_true_iff in H as [H|H].
  - apply escape_literal_head in H as [(l' & -> & _)|[_ H]]; [done| |done].
    by rewrite Hr' in H.
  - assert (starts_with (str1 backslash) (escape_literal l +:+ r) = true) as Hb.
    { apply starts_with_spec in H as [x ->]. by apply starts_with_spec; eexists. }
    apply escape_literal_head in Hb as [(l' & -> & Hl')|[_ Hb]]; [| |done];
      [|by rewrite Hr' in Hb].
    rewrite Hl' in H. cbn [String.append] in H. rewrite starts_with_cons in H.
    apply andb_true_iff in H as [_ H].
    apply escape_literal_head in H as [(l2 & -> & _)|[_ H]]; [| |done]; [|by rewrite Hr' in H].
    apply orb_true_iff. right. by rewrite !starts_with_cons.
Qed.

Lemma str1_no_dollar c : c ≠ "$"%char → contains_char "$" (str1 c) = false.
Proof. intros Hc. cbn. by destruct (Ascii.eqb_spec c "$"), (Ascii.eqb_spec "$" c). Qed.

(** Reading back the text of a literal. *)
Lemma parses_literal parts lit l r res :
  ¬ occurs esc_open l → r = ε ∨ starts_with "$" r = true →
  parses parts lit (escape_literal l +:+ r) res ↔ parses parts (lit +:+ l) r res.
Proof.
  intros Hesc Hr. assert (starts_with_open r = false) as Hr'.
  { destruct Hr as [->|[r' ->]%starts_with_spec]; done. }
  revert lit Hesc. induction l as [l IH] using (induction_ltof1 _ String.length); unfold ltof in IH.
  intros lit Hesc. destruct l as [|c l]; [by rewrite app_eps_r|].
  destruct (Ascii.eqb_spec c "$") as [->|Hc]; swap 1 2.
  { rewrite escape_literal_cons by (by left).
    change (String c ?x +:+ r) with (str1 c +:+ (x +:+ r)).
    rewrite parses_text by (by apply str1_no_dollar).
    apply no_esc_cons in Hesc; [|done].
    rewrite IH, app_assoc_str; [done|simpl; lia|done]. }
  apply no_esc_dollar in Hesc as [Hbs Hesc]. destruct (starts_with "{" l) eqn:El.
  { apply starts_with_spec in El as [l' ->].
    change (String "$" ("{" +:+ l')) with (open_brace +:+ l') in *.
    rewrite escape_literal_open, app_assoc_str, parses_esc, IH, app_assoc_str; [done|simpl; lia|].
    by apply no_esc_cons in Hesc. }
  rewrite escape_literal_cons by (by right). cbn [String.append].
  rewrite parses_dollar, IH, app_assoc_str; [done|simpl; lia|done|].
  destruct (starts_with_open (escape_literal l +:+ r)) eqn:Eo; [|done].
  apply escape_starts_inv in Eo; [|done]. unfold starts_with_open in Eo. by rewrite El, Hbs in Eo.
Qed.

(** What [Template::parse] does at the front of the text it has not read. *)
Inductive front (rest : string) : Prop :=
| front_end : rest = ε → front rest
| front_text c r : rest = String c r → c ≠ "$"%char → front rest
| front_esc r : rest = esc_open +:+ r → front rest
| front_dollar r : rest = String "$" r → starts_with_open r = false → front rest
| front_open r : rest = open_brace +:+ r → front rest.

Lemma front_cases rest : front rest.
Proof.
  destruct rest as [|c r]; [by apply front_end|].
  destruct (Ascii.eqb_spec c "$") as [->|Hc]; [|by eapply front_text].
  destruct (starts_with "{" r) eqn:E1.
  { apply starts_with_spec in E1 as [r' ->]. by apply (front_open _ r'). }
  destruct (starts_with (String backslash "{") r) eqn:E2.
  { apply starts_with_spec in E2 as [r' ->]. by apply (front_esc _ r'). }
  apply (front_dollar _ r); [done|]. unfold starts_with_open. by rewrite E1, E2.
Qed.

Lemma find_end_Some q i s e :
  find_end q i s = Some e →
  ∃ n, e = i + n ∧ s = str_take n s +:+ "}" +:+ str_drop (S n) s
    ∧ find_end q i (str_take n s +:+ "}") = Some e.
Proof.
  revert q i. induction s as [|c s IH]; intros q i; simpl; [done|].
  assert (∀ q', find_end q' (S i) s = Some e →
    (∀ s', find_end q i (String c s') = find_end q' (S i) s') →
    ∃ n, e = i + n ∧ String c s = str_take n (String c s) +:+ "}" +:+ str_drop n s
      ∧ find_end q i (str_take n (String c s) +:+ "}") = Some e) as Hstep.
  { intros q' H Hq. apply IH in H as (n & -> & Hs & Hf). exists (S n).
    split_and!; [lia| |]; simpl str_take; cbn [String.append]; [by rewrite Hs at 1|].
    by rewrite Hq. }
  destruct q as [q|].
  - intros H. by eapply Hstep.
  - destruct (_ || _) eqn:Eq; [intros H; eapply Hstep; [done|]; intros; simpl; by rewrite Eq|].
    destruct (Ascii.eqb_spec c "}") as [->|Hc].
    + intros [= <-]. exists 0. rewrite Nat.add_0_r. by destruct s.
    + intros H. eapply Hstep; [done|]. intros. simpl. rewrite Eq.
      by destruct (Ascii.eqb_spec c "}").
Qed.

(** A parse that gets past [${] has a placeholder there. *)
Lemma parses_open_inv parts lit tail t :
  parses parts lit (open_brace +:+ tail) (Ok t) →
  ∃ p r, placeholder_wf p ∧ open_brace +:+ tail = rp_text p +:+ r
    ∧ String.length r < String.length tail
    ∧ parses (push_literal_part lit parts ++ [Placeholder p]) ε r (Ok t).
Proof.
  intros [[|n] Hn]; [done|]. cbn [template_loop] in Hn.
  change (find_char "$" (open_brace +:+ tail)) with (Some 0) in Hn. cbv beta iota zeta in Hn.
  cbn [str_take str_drop] in Hn.
  change (strip_prefix esc_open (open_brace +:+ tail)) with (@None string) in Hn.
  rewrite strip_prefix_app in Hn. cbv beta iota in Hn. rewrite app_eps_r in Hn.
  destruct (find_placeholder_end tail) as [e|] eqn:Ee; [|done].
  destruct (parse_path _) as [segs|] eqn:Ep; [|done].
  apply find_end_Some in Ee as (m & -> & Ht & Hf). rewrite Nat.add_0_l in *.
  assert (m < String.length tail) as Hm.
  { apply (f_equal String.length) in Ht. autorewrite with rust in Ht.
    rewrite length_str_take, length_str_drop in Ht. simpl in Ht. lia. }
  exists (mk_RawPlaceholder (open_brace +:+ str_take m tail +:+ "}") segs), (str_drop (S m) tail).
  split_and!; [| | |by exists n].
  - exists (str_take m tail). split_and!; [done| |done].
    unfold find_placeholder_end. rewrite Hf, length_str_take. f_equal. lia.
  - cbn [rp_text]. rewrite !app_assoc_str. by rewrite Ht at 1.
  - rewrite length_str_drop. lia.
Qed.

Definition literal_part (l : string) : Template := push_literal_part l [].

Lemma push_literal_part_app l parts : push_literal_part l parts = parts ++ literal_part l.
Proof. unfold literal_part, push_literal_part. case_match; [by rewrite app_nil_r|done]. Qed.

(** A successful parse splits the text at its first placeholder. *)
Lemma parses_split rest parts lit t :
  parses parts lit rest (Ok t) →
  ∃ l t', t = parts ++ literal_part (lit +:+ l) ++ t'
    ∧ rest = escape_literal l +:+ template_unparse t'
    ∧ ¬ occurs esc_open l ∧ template_wf t'
    ∧ match t' with Literal _ :: _ => False | _ => True end.
Proof.
  revert parts lit. induction rest as [rest IH] using (induction_ltof1 _ String.length).
  unfold ltof in IH. intros parts lit H.
  destruct (front_cases rest) as [->|c r -> Hc|r ->|r -> Hr|tail ->].
  - apply parses_end in H as [= ->]. exists ε, []. rewrite push_literal_part_app.
    rewrite app_eps_r, app_nil_r. split_and!; try done. by intros (a & b & Hab); destruct a.
  - change (String c r) with (str1 c +:+ r) in H.
    rewrite parses_text in H by (by apply str1_no_dollar).
    apply IH in H as (l & t' & -> & -> & Hl & Ht & Hm); [|simpl; lia].
    exists (String c l), t'. rewrite app_assoc_str, escape_literal_cons by (by left).
    split_and!; try done. by apply no_esc_cons.
  - apply parses_esc, IH in H as (l & t' & -> & -> & Hl & Ht & Hm); [|simpl; lia].
    exists (open_brace +:+ l), t'. rewrite escape_literal_open, !app_assoc_str.
    split_and!; try done. apply no_esc_dollar. split; [done|]. by apply no_esc_cons.
  - rewrite parses_dollar in H by done.
    apply IH in H as (l & t' & -> & -> & Hl & Ht & Hm); [|simpl; lia].
    assert (starts_with_open l = false) as Ho.
    { destruct (starts_with_open l) eqn:E; [|done]. apply escape_starts in E.
      unfold starts_with_open in *. apply orb_false_iff in Hr as [H1 H2].
      apply orb_true_iff in E as [E|E]; apply (starts_with_app _ _ (template_unparse t')) in E;
        congruence. }
    unfold starts_with_open in Ho. apply orb_false_iff in Ho as [Ho1 Ho2].
    exists (String "$" l), t'. rewrite app_assoc_str, escape_literal_cons by (by right).
    split_and!; try done. by apply no_esc_dollar.
  - apply parses_open_inv in H as (p & r & Hp & Htail & Hlen & H).
    apply IH in H as (l & t' & -> & -> & Hl & Ht & Hm); [|simpl; lia].
    exists ε, (Placeholder p :: literal_part l ++ t').
    rewrite push_literal_part_app, app_eps_r, <-!app_assoc. split_and!; try done.
    + rewrite Htail. unfold template_unparse. csimpl. f_equal. rewrite fmap_app, concat_str_app.
      f_equal. destruct l; csimpl; by rewrite ?app_eps_r.
    + by intros (a & b & Hab); destruct a.
    + split; [done|]. destruct l; [done|]. cbn. split_and!; done.
Qed.

Lemma find_end_app q i s r e : find_end q i s = Some e → find_end q i (s +:+ r) = Some e.
Proof.
  revert q i. induction s as [|c s IH]; intros q i; simpl; [done|].
  destruct q; [apply IH|]. destruct (_ || _); [apply IH|]. by destruct (Ascii.eqb c "}"); [|apply IH].
Qed.

Lemma template_unparse_head t :
  match t with Literal _ :: _ => False | _ => True end → template_wf t →
  template_unparse t = ε ∨ starts_with "$" (template_unparse t) = true.
Proof.
  destruct t as [|[l|p] t]; [by left|done|]. intros _ [(body & Hb & _) _]. right.
  unfold template_unparse. csimpl. by rewrite Hb.
Qed.

Lemma parses_unparse t parts lit :
  template_wf t → (lit ≠ ε → match t with Literal _ :: _ => False | _ => True end) →
  parses parts lit (template_unparse t) (Ok (parts ++ literal_part lit ++ t)).
Proof.
  revert parts lit. induction t as [|[l|p] t IH]; intros parts lit Hwf Hlit.
  - apply parses_end. by rewrite push_literal_part_app, app_nil_r.
  - destruct Hwf as (Hl & Hesc & Hnext & Hwf).
    assert (lit = ε) as -> by (destruct lit; [done|by destruct Hlit]).
    change (template_unparse (Literal l :: t)) with (escape_literal l +:+ template_unparse t).
    apply parses_literal; [done|by apply template_unparse_head|].
    change (ε +:+ l) with l. apply (IH parts l) in Hwf; [|done].
    replace (literal_part ε ++ Literal l :: t) with (literal_part l ++ t); [done|].
    by destruct l.
  - destruct Hwf as [(body & Hb & Hf & Hp) Hwf].
    change (template_unparse (Placeholder p :: t)) with (rp_text p +:+ template_unparse t).
    rewrite Hb, !app_assoc_str. eapply parses_placeholder; [|done|].
    + unfold find_placeholder_end. rewrite <-app_assoc_str. by apply find_end_app.
    + rewrite <-Hb. destruct p as [text segs]. cbn [rp_text rp_segments] in *.
      rewrite push_literal_part_app.
      apply (IH ((parts ++ literal_part lit) ++ [Placeholder (mk_RawPlaceholder text segs)]) ε)
        in Hwf; [|done].
      by rewrite <-!app_assoc in *.
Qed.

(** Parsing and printing are inverse. *)
Lemma template_parse_unparse (s : string) (t : Template) :
  template_parse s = Ok t ↔ template_wf t ∧ template_unparse t = s.
Proof.
  rewrite template_parse_parses. split.
  - intros (l & t' & -> & -> & Hl & Ht & Hm)%parses_split. simpl.
    destruct l as [|c l]; [done|]. split; [split_and!; done|].
    unfold template_unparse. by csimpl.
  - intros [Hwf <-]. by apply (parses_unparse t [] ε).
Qed.

(** A template is exactly a reading of its text: [Template::parse] yields [t]
    from [s] iff [t] is well-formed (non-empty, separated literals that do not contain
    the escape sequence; placeholders of the form [${path}] whose segments are that
    path's) and [s] is [t] written back with every [${] of a literal escaped. In
    particular text outside placeholders is never lost or reordered. *)
Theorem template_parse_iff (s : string) (t : Template) :
  template_parse s = Ok t ↔ template_wf t ∧ template_unparse t = s.
Proof. apply template_parse_unparse. Qed.
