(* ===== verification/PathText.v ===== *)
(** * Printing placeholder paths ([crates/core/src/placeholder.rs])

    A path written with [Segment]'s [Display] is read back by [parse_path] and
    [find_placeholder_end], for segments a dotted or single-quoted writing can hold. *)

From Stdlib Require Import Ascii.
From stdpp Require Import base sets strings list.
From S2P Require Import Prelude Strings Utf8 Template.

Local Open Scope string_scope.
Local Open Scope nat_scope.
Local Open Scope list_scope.

(** ** Segments that can be written *)

Definition lacks (cs : list ascii) (s : string) : bool := forallb (λ c, negb (contains_char c s)) cs.

Definition plain_segment (seg : Segment) : bool :=
  match seg with
  | Name s => negb (str_is_empty s) && utf8_valid s && forallb is_name_char (chars s)
              && lacks [squote; dquote; "]"%char; "}"%char] s
  | Quoted s => utf8_valid s && lacks [squote; "]"%char] s
  | Index i => (i <? 2 ^ 64)%N
  end.

(** ** The loop without fuel *)

Definition path_parses (segs : list Segment) (l : list string)
    (r : result (list Segment) PlaceholderErrorKind) : Prop :=
  ∃ n, path_loop n segs l = Some r.

Lemma path_loop_mono n m segs l r :
  path_loop n segs l = Some r → n ≤ m → path_loop m segs l = Some r.
Proof.
  revert m segs l. induction n as [|n IH]; intros m segs [|c l] H Hm; try done; [by destruct m..|].
  destruct m as [|m]; [lia|]. cbn [path_loop] in *.
  destruct (String.eqb c "[").
  { destruct (until "]" l) as [[inner rest]|]; [|done]. destruct (parse_bracket _); [|done].
    apply IH; [done|lia]. }
  destruct (String.eqb c "." && _).
  { destruct (take_while is_name_char l); [done|apply IH; [done|lia]]. }
  destruct (_ && is_name_char c); [apply IH; [done|lia]|done].
Qed.

Lemma parse_path_parses body segs :
  body ≠ ε → path_parses [] (chars body) (Ok segs) → parse_path body = Ok segs.
Proof.
  intros Hne [n Hn]. unfold parse_path.
  destruct (path_loop_total (length (chars body)) [] (chars body)) as [r Hr]; [done|].
  assert (r = Ok segs) as ->.
  { apply (path_loop_mono _ (Nat.max n (length (chars body)))) in Hn; [|lia].
    apply (path_loop_mono _ (Nat.max n (length (chars body)))) in Hr; [|lia]. congruence. }
  rewrite Hr. destruct (chars body) eqn:E; [|done]. pose proof (chars_concat body) as Hc.
  rewrite E in Hc. by destruct body.
Qed.

(** Text that does not continue a name. *)
Definition ends_name (l : list string) : Prop :=
  match l with [] => True | c :: _ => is_name_char c = false end.

Lemma take_while_app {A} (p : A → bool) l k :
  forallb p l = true → match k with [] => True | x :: _ => p x = false end →
  take_while p (l ++ k) = l ∧ drop_while p (l ++ k) = k.
Proof.
  intros Hl Hk. induction l as [|x l IH]; simpl in *.
  - destruct k as [|x k]; simpl; [done|]. by rewrite Hk.
  - apply andb_true_iff in Hl as [-> Hl]. by destruct (IH Hl) as [-> ->].
Qed.

Lemma path_name segs s l r :
  segs ≠ [] → s ≠ ε → forallb is_name_char (chars s) = true → ends_name l →
  path_parses (segs ++ [Name s]) l r → path_parses segs ("." :: chars s ++ l) r.
Proof.
  intros Hsegs Hs Hn Hl [n Hr]. exists (S n). cbn [path_loop].
  destruct segs as [|sg segs]; [done|]. cbn [String.eqb Ascii.eqb Bool.eqb andb].
  destruct (take_while_app is_name_char (chars s) l Hn Hl) as [-> ->].
  pose proof (chars_concat s) as Hc. destruct (chars s) as [|c cs]; [by destruct s|].
  by rewrite Hc.
Qed.

Lemma path_root s l r :
  s ≠ ε → forallb is_name_char (chars s) = true → ends_name l →
  path_parses [Name s] l r → path_parses [] (chars s ++ l) r.
Proof.
  intros Hs Hn Hl [n Hr]. exists (S n).
  pose proof (take_while_app is_name_char (chars s) l Hn Hl) as [Ht Hd].
  pose proof (chars_concat s) as Hc. destruct (chars s) as [|c cs]; [by destruct s|].
  cbn [app] in *. cbn [path_loop]. cbn [forallb] in Hn. apply andb_true_iff in Hn as [Hc' _].
  destruct (String.eqb_spec c "[") as [->|_]; [done|].
  rewrite andb_false_r, Hc'. cbn [andb app]. by rewrite Ht, Hd, Hc.
Qed.

Lemma until_app (q : list string) l :
  "]" ∉ q → until "]" (q ++ "]" :: l) = Some (q, l).
Proof.
  induction q as [|x q IH]; intros Hq; simpl; [done|].
  destruct (String.eqb_spec x "]") as [->|]; [destruct Hq; by left|].
  rewrite IH; [done|]. intros H. apply Hq. by right.
Qed.

Lemma path_bracket segs (inner : list string) seg l r :
  "]" ∉ inner → parse_bracket (concat_str inner) = Ok seg →
  path_parses (segs ++ [seg]) l r → path_parses segs ("[" :: inner ++ "]" :: l) r.
Proof.
  intros Hi Hp [n Hr]. exists (S n). cbn [path_loop String.eqb Ascii.eqb Bool.eqb].
  by rewrite until_app, Hp.
Qed.

Lemma parse_bracket_quoted q : parse_bracket ("'" +:+ q +:+ "'") = Ok (Quoted q).
Proof.
  unfold parse_bracket. cbv zeta. change ("'" +:+ q +:+ "'") with (str1 squote +:+ q +:+ str1 squote).
  rewrite strip_prefix_app. cbn [mbind option_bind].
  by rewrite (proj2 (strip_suffix_Some (str1 squote) _ q)).
Qed.

Lemma parse_bracket_index i : (i < 2 ^ 64)%N → parse_bracket (show_N i) = Ok (Index i).
Proof.
  intros Hi. unfold parse_bracket. cbv zeta. rewrite parse_usize_show by done.
  pose proof (show_N_digits i) as Hd. destruct (show_N i) as [|c s] eqn:E.
  { pose proof (parse_usize_show i Hi) as H. rewrite E in H. done. }
  simpl in Hd. apply andb_true_iff in Hd as [Hc _].
  assert (∀ q, is_ascii_digit q = false → strip_prefix (str1 q) (String c s) = None) as Hq.
  { intros q Hq. simpl. destruct (Ascii.eqb_spec q c) as [->|]; [congruence|done]. }
  by rewrite !Hq.
Qed.

(** ** Characters of the pieces *)

Lemma elem_chars_contains c s : str1 c ∈ chars s → contains_char c s = true.
Proof.
  intros H. rewrite <-(chars_concat s). induction (chars s) as [|ch l IH]; [by apply not_elem_of_nil in H|].
  simpl. rewrite contains_char_app. apply elem_of_cons in H as [<-|H].
  - simpl. by rewrite Ascii.eqb_refl.
  - by rewrite IH, orb_true_r.
Qed.

Lemma chars_lit a s : bytes_all is_ascii a = true → chars (a +:+ s) = (str1 <$> bytes a) ++ chars s.
Proof.
  induction a as [|c a IH]; [done|]. cbn [bytes_all bytes String.append].
  intros [Hc Ha]%andb_true_iff. rewrite chars_cons_ascii, IH by done. done.
Qed.

Lemma digits_ascii s : bytes_all is_ascii_digit s = true → bytes_all is_ascii s = true.
Proof.
  apply bytes_all_impl. intros c. unfold is_ascii_digit, in_range, is_ascii.
  rewrite andb_true_iff, N.leb_le, N.leb_le, N.ltb_lt. lia.
Qed.

Lemma lacks_elem cs s c : lacks cs s = true → c ∈ cs → contains_char c s = false.
Proof.
  unfold lacks. rewrite forallb_forall. intros H Hc%list_elem_of_In. by apply negb_true_iff, H.
Qed.

Definition path_text (segs : list Segment) : string := concat_str (segment_show <$> segs).

Lemma path_text_cons seg segs : path_text (seg :: segs) = segment_show seg +:+ path_text segs.
Proof. done. Qed.

Lemma path_text_ends segs : ends_name (chars (path_text segs)).
Proof.
  destruct segs as [|[s|s|i] segs]; [done|..]; rewrite path_text_cons; cbn [segment_show];
    rewrite !app_assoc_str.
  - by rewrite (chars_lit ".").
  - by rewrite (chars_lit "['").
  - by rewrite (chars_lit "[").
Qed.

Lemma path_tail tail : Forall (λ seg, plain_segment seg = true) tail → ∀ segs,
  segs ≠ [] → path_parses segs (chars (path_text tail)) (Ok (segs ++ tail)).
Proof.
  induction 1 as [|seg tail Hseg _ IH]; intros segs Hne.
  { exists 0. simpl. by rewrite app_nil_r. }
  assert (path_parses (segs ++ [seg]) (chars (path_text tail)) (Ok (segs ++ seg :: tail))) as Hnext.
  { specialize (IH (segs ++ [seg])). rewrite <-app_assoc in IH. apply IH. by destruct segs. }
  rewrite path_text_cons. destruct seg as [s|s|i]; cbn [plain_segment] in Hseg.
  - apply andb_true_iff in Hseg as [[[Hs Hv]%andb_true_iff Hn]%andb_true_iff _].
    cbn [segment_show]. rewrite app_assoc_str, (chars_lit "."), chars_app_valid by done. csimpl.
    apply path_name; try done; [by destruct s|apply path_text_ends].
  - apply andb_true_iff in Hseg as [Hv Hl].
    cbn [segment_show]. rewrite !app_assoc_str, (chars_lit "['"), chars_app_valid by done.
    rewrite (chars_lit "']") by done. csimpl.
    assert (∀ l, "'" :: chars s ++ "'" :: "]" :: l = ("'" :: chars s ++ ["'"]) ++ "]" :: l) as ->.
    { intros l. simpl. by rewrite <-app_assoc. }
    apply (path_bracket segs ("'" :: chars s ++ ["'"]) (Quoted s)).
    + intros [?|[Hin|?%list_elem_of_singleton]%elem_of_app]%elem_of_cons; [done| |done].
      change "]" with (str1 "]") in Hin. apply elem_chars_contains in Hin.
      rewrite (lacks_elem _ _ "]"%char Hl) in Hin by (by right; left). done.
    + simpl. rewrite concat_str_app, chars_concat. apply parse_bracket_quoted.
    + done.
  - pose proof (digits_ascii _ (show_N_digits i)) as Ha. apply N.ltb_lt in Hseg.
    cbn [segment_show]. rewrite !app_assoc_str, (chars_lit "["), chars_lit, (chars_lit "]") by done. csimpl.
    apply (path_bracket segs (str1 <$> bytes (show_N i)) (Index i)).
    + intros (c & Hc & Hin)%list_elem_of_fmap. injection Hc as <-.
      pose proof (show_N_digits i) as Hd. clear -Hin Hd. induction (show_N i) as [|c s IH]; simpl in *.
      { by apply not_elem_of_nil in Hin. }
      apply andb_true_iff in Hd as [Hc Hd]. apply elem_of_cons in Hin as [<-|Hin]; [done|by apply IH].
    + rewrite <-chars_ascii, chars_concat by done. by apply parse_bracket_index.
    + done.
Qed.

(** A path that is written reads back. *)
Lemma parse_path_text (root : string) tail :
  root ≠ ε → utf8_valid root = true → forallb is_name_char (chars root) = true →
  Forall (λ seg, plain_segment seg = true) tail →
  parse_path (root +:+ path_text tail) = Ok (Name root :: tail).
Proof.
  intros Hne Hv Hn Ht. apply parse_path_parses; [by destruct root|].
  rewrite chars_app_valid by done. apply path_root; try done; [apply path_text_ends|].
  by apply (path_tail tail Ht [Name root]).
Qed.

(** ** The end of a placeholder *)

Lemma find_end_text i s r :
  lacks [squote; dquote; "}"%char] s = true →
  find_end None i (s +:+ r) = find_end None (i + String.length s) r.
Proof.
  revert i. induction s as [|c s IH]; intros i Hs; [by rewrite Nat.add_0_r|].
  cbn [String.append find_end String.length].
  assert (∀ q, q ∈ [squote; dquote; "}"%char] → Ascii.eqb c q = false ∧ contains_char q s = false) as Hc.
  { intros q Hq. pose proof (lacks_elem _ _ q Hs Hq) as H. simpl in H. by apply orb_false_iff in H. }
  rewrite (proj1 (Hc squote ltac:(by left))), (proj1 (Hc dquote ltac:(by right; left))),
    (proj1 (Hc "}"%char ltac:(by right; right; left))). cbn [orb].
  rewrite IH; [f_equal; lia|]. unfold lacks. apply forallb_forall. intros q Hq%list_elem_of_In.
  by rewrite (proj2 (Hc q Hq)).
Qed.

Lemma find_end_quoted q i s r :
  contains_char q s = false →
  find_end (Some q) i (s +:+ String q r) = find_end None (i + String.length s + 1) r.
Proof.
  revert i. induction s as [|c s IH]; intros i Hs; cbn [String.append find_end String.length].
  - rewrite Ascii.eqb_refl. f_equal. lia.
  - simpl in Hs. apply orb_false_iff in Hs as [Hc Hs]. rewrite Hc, IH by done. f_equal. lia.
Qed.

Lemma digits_lack s : bytes_all is_ascii_digit s = true → lacks [squote; dquote; "}"%char] s = true.
Proof.
  intros H. unfold lacks. apply forallb_forall. intros c Hc%list_elem_of_In.
  apply negb_true_iff. eapply bytes_all_no_char; [|exact H].
  revert Hc. rewrite !elem_of_cons, elem_of_nil. intros [->|[->|[->|[]]]]; done.
Qed.

Lemma find_end_segment seg i r :
  plain_segment seg = true →
  find_end None i (segment_show seg +:+ r) = find_end None (i + String.length (segment_show seg)) r.
Proof.
  destruct seg as [s|s|j]; cbn [plain_segment segment_show].
  - intros [_ Hl]%andb_true_iff. rewrite app_assoc_str, (find_end_text i ".") by done.
    rewrite find_end_text; [simpl; f_equal; lia|]. unfold lacks in *. rewrite forallb_forall in *.
    intros c Hc. apply Hl. simpl in *. intuition.
  - intros [_ Hl]%andb_true_iff. rewrite !app_assoc_str.
    change ("['" +:+ s +:+ "']" +:+ r) with ("[" +:+ String squote (s +:+ String squote (String "]" r))).
    rewrite (find_end_text i "[") by done. cbn [find_end].
    change (Ascii.eqb squote squote) with true. cbn [orb].
    rewrite find_end_quoted by (apply (lacks_elem _ _ _ Hl); by left).
    change (String "]" r) with ("]" +:+ r). rewrite (find_end_text _ "]") by done.
    rewrite !length_app_str. simpl. f_equal. lia.
  - intros _. rewrite !app_assoc_str, (find_end_text i "[") by done.
    rewrite find_end_text by (apply digits_lack, show_N_digits).
    rewrite (find_end_text _ "]") by done. rewrite !length_app_str. simpl. f_equal. lia.
Qed.

Lemma find_end_path tail i r :
  Forall (λ seg, plain_segment seg = true) tail →
  find_end None i (path_text tail +:+ r) = find_end None (i + String.length (path_text tail)) r.
Proof.
  intros H. revert i. induction H as [|seg tail Hs _ IH]; intros i; [by rewrite Nat.add_0_r|].
  - rewrite path_text_cons, app_assoc_str, find_end_segment, IH, length_app_str by done. f_equal. lia.
Qed.

(** The placeholder with the given path. *)
Definition placeholder_of (root : string) (tail : list Segment) : RawPlaceholder :=
  mk_RawPlaceholder (open_brace +:+ (root +:+ path_text tail) +:+ "}") (Name root :: tail).

Lemma placeholder_of_wf root tail :
  root ≠ ε → utf8_valid root = true → forallb is_name_char (chars root) = true →
  lacks [squote; dquote; "}"%char] root = true →
  Forall (λ seg, plain_segment seg = true) tail → placeholder_wf (placeholder_of root tail).
Proof.
  intros Hne Hv Hn Hl Ht. exists (root +:+ path_text tail). split_and!; [done| |by apply parse_path_text].
  unfold find_placeholder_end. rewrite app_assoc_str, find_end_text, find_end_path by done.
  cbn. by rewrite length_app_str.
Qed.
