(* ===== verification/Placeholder.v ===== *)
(** * Placeholders: interpretation and resolution ([crates/core/src/placeholder.rs])

    What a parsed placeholder means in a dialect, and the substitution of looked-up
    values for the placeholders of a JSON value. A scope supplies the values; the
    theorems on resolution hold for every instance of the class [Scope], and
    [MapScope] is the source's in-memory instance. The text [serde_json] prints for a
    non-string value is the section variable [json_text]. *)

From Stdlib Require Import Ascii.
From stdpp Require Import base sets strings list.
From S2P Require Import Prelude Strings OrdMap Regex Ids Float64 Json Model Template.

Local Open Scope string_scope.
Local Open Scope nat_scope.
Local Open Scope list_scope.

(** ** Context keys *)

Inductive ContextKey :=
| OrgId | AppId | EnvId | EnvType | ResId | ResClass | ResType | ResGuresid | DeployId | DeploySetId.
#[export] Instance ContextKey_eq_dec : EqDecision ContextKey.
Proof. solve_decision. Defined.

(** The position of the variant, by which keys are ordered. *)
Definition context_key_index (k : ContextKey) : nat :=
  match k with
  | OrgId => 0 | AppId => 1 | EnvId => 2 | EnvType => 3 | ResId => 4
  | ResClass => 5 | ResType => 6 | ResGuresid => 7 | DeployId => 8 | DeploySetId => 9
  end.
#[export] Instance ord_ContextKey : Ord ContextKey.
Proof. apply (ord_inj context_key_index). by intros [] []. Defined.

Definition context_key_all : list ContextKey :=
  [OrgId; AppId; EnvId; EnvType; ResId; ResClass; ResType; ResGuresid; DeployId; DeploySetId].

Definition context_key_path (k : ContextKey) : string :=
  match k with
  | OrgId => "org.id" | AppId => "app.id" | EnvId => "env.id" | EnvType => "env.type"
  | ResId => "res.id" | ResClass => "res.class" | ResType => "res.type"
  | ResGuresid => "res.guresid" | DeployId => "deploy.id" | DeploySetId => "deploy.set.id"
  end.

(** ** Resource references *)

(** A possibly partial reference [<type>[.<class>][#<id>]]. *)
Record ResourceRef := mk_ResourceRef {
  rr_ty : string; rr_class : option string; rr_id : option string }.
#[export] Instance ResourceRef_eq_dec : EqDecision ResourceRef.
Proof. solve_decision. Defined.

Definition ResourceRef_parse (s : string) : result ResourceRef IdError :=
  let? (head, id) :=
    match split_once "#" s with
    | Some (h, id) => let? id := ResId_new id in Ok (h, Some id)
    | None => Ok (s, None)
    end in
  let? (ty, class) :=
    match split_once "." head with
    | Some (t, c) => let? c := ClassId_new c in Ok (t, Some c)
    | None => Ok (head, None)
    end in
  let? ty := ResourceTypeId_new ty in
  Ok (mk_ResourceRef ty class id).

(** The resource ID a type name stands for; the source panics where it is not valid. *)
Definition implicit_res_id (ty : string) : string :=
  match ResId_new (replace "/" "-" ty) with Ok id => id | Err _ => ε end.

Definition ResourceRef_resolve (r : ResourceRef) (referrer : Descriptor) (implicit : bool)
    : Descriptor :=
  if implicit then
    mk_Descriptor (rr_ty r) (option_default default_class (rr_class r))
      (option_default (implicit_res_id (rr_ty r)) (rr_id r))
  else
    mk_Descriptor (rr_ty r) (option_default (d_class referrer) (rr_class r))
      (option_default (d_id referrer) (rr_id r)).

Definition ResourceRef_show (r : ResourceRef) : string :=
  rr_ty r
  +:+ match rr_class r with Some c => "." +:+ c | None => ε end
  +:+ match rr_id r with Some id => "#" +:+ id | None => ε end.

(** ** Expressions *)

Inductive ResourceField :=
| FieldOutputs (path : list Segment)
| FieldGuresid
| FieldAccount.

Inductive Expr :=
| EContext (k : ContextKey)
| EResource (target : ResourceRef) (field : ResourceField)
| EExternals (key : string) (path : list Segment)
| EShared (id : string) (path : list Segment)
| EValues (key : string) (path : list Segment)
| EPod (path : list string).

Inductive Dialect := DialectDefinition | DialectDriverAccount | DialectSet.
#[export] Instance Dialect_eq_dec : EqDecision Dialect.
Proof. solve_decision. Defined.

Fixpoint names (segs : list Segment) : option (list string) :=
  match segs with
  | [] => Some []
  | Name n :: segs => ns ← names segs; Some (n :: ns)
  | _ :: _ => None
  end.

Definition is_field (s : Segment) : bool :=
  match s with
  | Name n => String.eqb n "outputs" || String.eqb n "guresid" || String.eqb n "account"
  | _ => false
  end.

(** [iter().position(p)]. *)
Fixpoint position {A} (p : A → bool) (l : list A) : option nat :=
  match l with
  | [] => None
  | x :: l => if p x then Some 0 else S <$> position p l
  end.

Definition resource_ref_expected : PlaceholderErrorKind :=
  Syntax "expected `resources.<type>[.<class>][#<id>].outputs.<name>`".

Definition id_error_show (e : IdError) : string :=
  "invalid " +:+ ie_kind e +:+ " `" +:+ ie_value e +:+ "`: " +:+ ie_reason e.

(** The text of the reference and the segments after it. *)
Definition ref_text_of (segs : list Segment)
    : result (string * list Segment) PlaceholderErrorKind :=
  match segs with
  | Quoted q :: rest => Ok (q, rest)
  | Name _ :: _ =>
      let? n := ok_or (position is_field segs) resource_ref_expected in
      let? parts := ok_or (names (take n segs)) resource_ref_expected in
      if match parts with [] => true | _ => false end
         || (negb (existsb (contains_char "#") parts) && (2 <? length parts)) then
        Err resource_ref_expected
      else Ok (join "." parts, drop n segs)
  | _ => Err resource_ref_expected
  end.

Definition parse_resource_ref (segs : list Segment)
    : result (ResourceRef * ResourceField) PlaceholderErrorKind :=
  let? (ref_text, rest) := ref_text_of segs in
  let? target := map_err (λ e, Syntax (id_error_show e)) (ResourceRef_parse ref_text) in
  let? field :=
    match rest with
    | Name n :: path =>
        if String.eqb n "outputs" && match path with [] => false | _ => true end then
          Ok (FieldOutputs path)
        else match path with
             | [] =>
                 if String.eqb n "guresid" then Ok FieldGuresid
                 else if String.eqb n "account" then Ok FieldAccount
                 else Err resource_ref_expected
             | _ => Err resource_ref_expected
             end
    | _ => Err resource_ref_expected
    end in
  Ok (target, field).

Definition is_account (f : ResourceField) : bool :=
  match f with FieldAccount => true | _ => false end.

(** [Expr::interpret]; the branches are tried in the order of the source's [match]. *)
Definition interpret (raw : RawPlaceholder) (dialect : Dialect)
    : result Expr PlaceholderErrorKind :=
  let segs := rp_segments raw in
  let root := rp_root raw in
  let definition := negb (bool_decide (dialect = DialectSet)) in
  let set := bool_decide (dialect = DialectSet) in
  if String.eqb root "context" && definition then
    let? path := ok_or (names (drop 1 segs)) (Syntax "context paths are names") in
    match find (λ k, String.eqb (context_key_path k) (join "." path)) context_key_all with
    | Some k => Ok (EContext k)
    | None => Err (Unresolvable ("unknown context value `context." +:+ join "." path +:+ "`"))
    end
  else if String.eqb root "context" then
    Err (NotAllowed "workloads cannot use `context` placeholders; use `values` for environment configuration")
  else if String.eqb root "resources" && definition then
    let? (target, field) := parse_resource_ref (drop 1 segs) in
    if is_account field && negb (bool_decide (dialect = DialectDriverAccount)) then
      Err (NotAllowed "`.account` is only allowed in `driver_account`")
    else Ok (EResource target field)
  else if (String.eqb root "externals" || String.eqb root "shared") && set then
    let expected := Syntax ("expected `" +:+ root +:+ ".<id>.<output>`") in
    let? key := ok_or (seg ← segs !! 1; segment_key seg) expected in
    let path := drop 2 segs in
    match path with
    | [] => Err expected
    | _ => Ok (if String.eqb root "externals" then EExternals key path else EShared key path)
    end
  else if String.eqb root "values" && set then
    let? key := ok_or (seg ← segs !! 1; segment_key seg) (Syntax "expected `values.<key>`") in
    Ok (EValues key (drop 2 segs))
  else if String.eqb root "pod" && set then
    let? path := ok_or (names (drop 1 segs)) (Syntax "pod paths are names") in
    match path with
    | [] => Err (Syntax "expected `pod.<path>`")
    | _ => Ok (EPod path)
    end
  else Err (UnknownRoot root).

(** ** Secret expressions *)

Inductive SecretPart :=
| SPLiteral (s : string)
| SPSecret (r : SecretRef).
#[export] Instance SecretPart_eq_dec : EqDecision SecretPart.
Proof. solve_decision. Defined.

Abbreviation SecretExpr := (list SecretPart).

Definition secret_whole (r : SecretRef) : SecretExpr := [SPSecret r].

Definition secret_references (e : SecretExpr) : list SecretRef :=
  filter_map (λ p, match p with SPSecret r => Some r | SPLiteral _ => None end) e.

Definition secret_render {E} (read : SecretRef → result string E) (e : SecretExpr)
    : result string E :=
  try_fold (λ out p,
    match p with
    | SPLiteral s => Ok (out +:+ s)
    | SPSecret r => let? s := read r in Ok (out +:+ s)
    end) ε e.

(** The last part is extended when it is a literal. *)
Fixpoint secret_push_literal (e : SecretExpr) (s : string) : SecretExpr :=
  match e with
  | [] => if str_is_empty s then [] else [SPLiteral s]
  | [SPLiteral l] => [SPLiteral (l +:+ s)]
  | p :: e => p :: secret_push_literal e s
  end.

(** ** Resolved values *)

Inductive Resolved :=
| RValue (v : Value)
| RSecret (e : SecretExpr)
| RArray (items : list Resolved)
| RObject (items : list (string * Resolved)).

Definition is_tainted (r : Resolved) : bool :=
  match r with RValue _ => false | _ => true end.

Definition as_plain (r : Resolved) : option Value :=
  match r with RValue v => Some v | _ => None end.

(** The source panics on a tainted value, which its callers exclude. *)
Definition into_value_unchecked (r : Resolved) : Value :=
  match r with RValue v => v | _ => Null end.

Definition resolved_array (items : list Resolved) : Resolved :=
  if forallb (λ r, negb (is_tainted r)) items then RValue (Arr (into_value_unchecked <$> items))
  else RArray items.

Definition resolved_object (items : list (string * Resolved)) : Resolved :=
  if forallb (λ kr : string * Resolved, negb (is_tainted kr.2)) items then
    RValue (Obj (im_of_list ((λ kr : string * Resolved, (kr.1, into_value_unchecked kr.2)) <$> items)))
  else RObject items.

Inductive Lookup :=
| LValue (v : Value)
| LSecret (r : SecretRef).

(** Supplies values for placeholders; the error is a reason. *)
Class Scope (S : Type) := lookup_expr : S → Expr → result Lookup string.

Inductive Sink := SinkPlain | SinkSecret.
#[export] Instance Sink_eq_dec : EqDecision Sink.
Proof. solve_decision. Defined.

(** ** Resolution *)

Section resolve.
Context `{Scope Sc} (scope : Sc) (json_text : Value → string).
Context (dialect : Dialect) (sink : Sink).

(** Looking up the placeholders in order, refusing a secret in a plain sink. *)
Definition lookup_placeholder (location : string) (lookups : list Lookup) (p : RawPlaceholder)
    : result (list Lookup) PlaceholderError :=
  let err kind := mk_PlaceholderError (rp_text p) location kind in
  let? expr := map_err err (interpret p dialect) in
  let? found := map_err (λ reason, err (Unresolvable reason)) (lookup_expr scope expr) in
  match found with
  | LSecret _ =>
      if bool_decide (sink = SinkPlain) then Err (err SecretInNonSecret)
      else Ok (lookups ++ [found])
  | LValue _ => Ok (lookups ++ [found])
  end.

(** The expression of a string with text: one lookup is used per placeholder ([None]
    when there are fewer, where the source would panic). *)
Fixpoint build_expr (expr : SecretExpr) (parts : list Part) (lookups : list Lookup)
    : option SecretExpr :=
  match parts with
  | [] => Some expr
  | Literal l :: parts => build_expr (secret_push_literal expr l) parts lookups
  | Placeholder _ :: parts =>
      match lookups with
      | LValue (Str v) :: lookups => build_expr (secret_push_literal expr v) parts lookups
      | LValue v :: lookups => build_expr (secret_push_literal expr (json_text v)) parts lookups
      | LSecret r :: lookups => build_expr (expr ++ [SPSecret r]) parts lookups
      | [] => None
      end
  end.

Definition panicked : PlaceholderError := mk_PlaceholderError ε ε (Syntax "panicked").

Definition resolve_string (s location : string) : result Resolved PlaceholderError :=
  let? template := map_err (mk_PlaceholderError s location) (template_parse s) in
  let? lookups :=
    try_fold (lookup_placeholder location) [] (template_placeholders template) in
  if is_some (template_whole template) then
    match last lookups with
    | Some (LValue v) => Ok (RValue v)
    | Some (LSecret r) => Ok (RSecret (secret_whole r))
    | None => Err panicked
    end
  else
    let? expr := ok_or (build_expr [] template lookups) panicked in
    match secret_references expr with
    | _ :: _ => Ok (RSecret expr)
    | [] =>
        let? text := map_err (λ _ : unit, panicked) (secret_render (λ _, Ok ε) expr) in
        Ok (RValue (Str text))
    end.

Definition index_location (location : string) (i : nat) : string :=
  location +:+ "[" +:+ show_nat i +:+ "]".
Definition key_location (location k : string) : string := location +:+ "." +:+ k.

Fixpoint resolve_value (value : Value) (location : string) {struct value}
    : result Resolved PlaceholderError :=
  match value with
  | Str s => resolve_string s location
  | Arr items =>
      let? out := try_mapi (λ i item, resolve_value item (index_location location i)) 0 items in
      Ok (resolved_array out)
  | Obj m =>
      let? out := try_map (λ kv : string * Value,
        let? r := resolve_value kv.2 (key_location location kv.1) in Ok (kv.1, r)) m in
      Ok (resolved_object out)
  | other => Ok (RValue other)
  end.

(** *** Collecting placeholders *)

Definition Collected : Type := string * RawPlaceholder * Expr.

Fixpoint collect_into (value : Value) (location : string) (out : list Collected) {struct value}
    : result (list Collected) PlaceholderError :=
  match value with
  | Str s =>
      let? t := map_err (mk_PlaceholderError s location) (template_parse s) in
      try_fold (λ out p,
        let? e := map_err (mk_PlaceholderError (rp_text p) location) (interpret p dialect) in
        Ok (out ++ [(location, p, e)])) out (template_placeholders t)
  | Arr items =>
      try_foldi (λ i out item, collect_into item (index_location location i) out) 0 out items
  | Obj m =>
      try_fold (λ out (kv : string * Value), collect_into kv.2 (key_location location kv.1) out)
        out m
  | _ => Ok out
  end.

Definition collect_placeholders (value : Value) (location : string)
    : result (list Collected) PlaceholderError :=
  collect_into value location [].
End resolve.

(** ** The in-memory scope *)

Record ResourceOutputs := mk_ResourceOutputs {
  ro_values : jmap;
  ro_secrets : list (string * SecretRef);
  ro_guresid : option string;
  ro_account : option string }.

Fixpoint walk (v : Value) (path : list Segment) : result Value string :=
  match path with
  | [] => Ok v
  | seg :: path =>
      let next :=
        match seg, v with
        | Index i, Arr a => a !! N.to_nat i
        | Name k, Obj m | Quoted k, Obj m => im_get k m
        | _, _ => None
        end in
      let? v := ok_or next ("no field `" +:+ segment_show seg +:+ "`") in
      walk v path
  end.

Definition outputs_get (o : ResourceOutputs) (path : list Segment) : result Lookup string :=
  match path with
  | [] => Err "an output name is required"
  | first :: rest =>
      let? name := ok_or (segment_key first) "output names are strings" in
      match bt_get name (ro_secrets o) with
      | Some r =>
          match rest with
          | [] => Ok (LSecret r)
          | _ => Err ("secret output `" +:+ name +:+ "` has no fields")
          end
      | None =>
          let? v := ok_or (im_get name (ro_values o)) ("no output `" +:+ name +:+ "`") in
          result_map LValue (walk v rest)
      end
  end.

Inductive SharedValue :=
| SVValue (v : Value)
| SVSecret (r : SecretRef).

Record MapScope := mk_MapScope {
  ms_context : list (ContextKey * Value);
  ms_referrer : option Descriptor;
  ms_implicit_types : list string;
  ms_resources : list (Descriptor * ResourceOutputs);
  ms_externals : list (string * ResourceOutputs);
  ms_shared : list (string * ResourceOutputs);
  ms_values : list (string * SharedValue) }.

Definition descriptor_for (ms : MapScope) (target : ResourceRef) : result Descriptor string :=
  let implicit := bool_decide (rr_ty target ∈ ms_implicit_types ms) in
  match ms_referrer ms, rr_class target, rr_id target with
  | Some r, _, _ => Ok (ResourceRef_resolve target r implicit)
  | None, Some c, Some id => Ok (mk_Descriptor (rr_ty target) c id)
  | None, _, _ =>
      if implicit then
        let dummy := mk_Descriptor (rr_ty target) default_class "x" in
        Ok (ResourceRef_resolve target dummy true)
      else Err ("`" +:+ ResourceRef_show target +:+ "` needs a class and ID here")
  end.

Definition map_scope_lookup (ms : MapScope) (expr : Expr) : result Lookup string :=
  match expr with
  | EContext k =>
      let? v := ok_or (bt_get k (ms_context ms))
        ("`context." +:+ context_key_path k +:+ "` is not available here") in
      Ok (LValue v)
  | EResource target field =>
      let? d := descriptor_for ms target in
      let? outputs := ok_or (bt_get d (ms_resources ms))
        ("resource `" +:+ Descriptor_show d +:+ "` is not in the graph") in
      match field with
      | FieldOutputs path => outputs_get outputs path
      | FieldGuresid =>
          let? g := ok_or (ro_guresid outputs)
            ("resource `" +:+ Descriptor_show d +:+ "` has no GUResID yet") in
          Ok (LValue (Str g))
      | FieldAccount =>
          let? a := ok_or (ro_account outputs)
            ("resource `" +:+ Descriptor_show d +:+ "` has no cloud account") in
          Ok (LValue (Str a))
      end
  | EExternals key path =>
      let? o := ok_or (bt_get key (ms_externals ms)) ("no dependency `" +:+ key +:+ "`") in
      outputs_get o path
  | EShared id path =>
      let? o := ok_or (bt_get id (ms_shared ms)) ("no shared resource `" +:+ id +:+ "`") in
      outputs_get o path
  | EValues key path =>
      match bt_get key (ms_values ms), path with
      | Some (SVValue v), _ => result_map LValue (walk v path)
      | Some (SVSecret r), [] => Ok (LSecret r)
      | Some (SVSecret _), _ => Err ("secret value `" +:+ key +:+ "` has no fields")
      | None, _ => Err ("no shared value `" +:+ key +:+ "`")
      end
  | EPod path =>
      Err ("`pod." +:+ join "." path +:+ "` needs a workload target that supports pod references")
  end.
#[export] Instance map_scope_Scope : Scope MapScope := map_scope_lookup.

(** The unit tests of the source. *)
Definition test_secret : SecretRef := mk_SecretRef "openporch" "p" None.
Definition test_scope : MapScope :=
  mk_MapScope [(EnvId, Str "dev")] (Some (mk_Descriptor "dns" "default" "modules.api")) ["base-env"]
    [(mk_Descriptor "base-env" "default" "base-env",
      mk_ResourceOutputs [("region", Str "eu"); ("n", Num (PosInt 3))] [] None None)]
    [("db", mk_ResourceOutputs [("host", Str "h")] [("password", test_secret)] None None)] [] [].

Example resolve_whole_keeps_type (json_text : Value → string) :
  resolve_string test_scope json_text DialectDefinition SinkPlain
    "${resources.base-env.outputs.n}" "x" = Ok (RValue (Num (PosInt 3))).
Proof. by vm_compute. Qed.
Example resolve_secret_mixed (json_text : Value → string) :
  resolve_string test_scope json_text DialectSet SinkSecret
    "pg://${externals.db.host}:${externals.db.password}@" "x"
  = Ok (RSecret [SPLiteral "pg://h:"; SPSecret test_secret; SPLiteral "@"]).
Proof. by vm_compute. Qed.
Example resolve_secret_refused (json_text : Value → string) :
  resolve_string test_scope json_text DialectSet SinkPlain "${externals.db.password}" "x"
  = Err (mk_PlaceholderError "${externals.db.password}" "x" SecretInNonSecret).
Proof. by vm_compute. Qed.

(** ** References and dialects *)

Definition resource_ref_valid (r : ResourceRef) : Prop :=
  resource_type_ok (rr_ty r) = true
  ∧ from_option (λ c, is_valid_object_id c = true) True (rr_class r)
  ∧ from_option (λ id, res_id_ok id = true) True (rr_id r).

(** The type and class of a valid reference contain neither separator. *)
Lemma ref_head_no_hash ty cl :
  resource_type_ok ty = true → from_option (λ c, is_valid_object_id c = true) True cl →
  contains_char "#" (ty +:+ match cl with Some c => "." +:+ c | None => ε end) = false.
Proof.
  intros Ht Hc. rewrite contains_char_app, resource_type_no_char by done.
  destruct cl as [c|]; [|done]. rewrite contains_char_app, (object_id_no_char "#" c); done.
Qed.

Lemma ref_head_roundtrip ty cl :
  resource_type_ok ty = true → from_option (λ c, is_valid_object_id c = true) True cl →
  match split_once "." (ty +:+ match cl with Some c => "." +:+ c | None => ε end) with
  | Some (t, c) => let? c := ClassId_new c in Ok (t, Some c)
  | None => Ok (ty +:+ match cl with Some c => "." +:+ c | None => ε end, None)
  end = Ok (ty, cl).
Proof.
  intros Ht Hc. destruct cl as [c|].
  - change ("." +:+ c) with (String "." c). rewrite split_once_app by auto with rust.
    unfold ClassId_new, validate_object_id. simpl in Hc. by rewrite Hc.
  - rewrite app_eps_r, (proj2 (split_once_None _ _)) by auto with rust. done.
Qed.

Lemma ref_head_inv head ty cl :
  match split_once "." head with
  | Some (t, c) => let? c := ClassId_new c in Ok (t, Some c)
  | None => Ok (head, None)
  end = Ok (ty, cl) →
  head = ty +:+ match cl with Some c => "." +:+ c | None => ε end
  ∧ from_option (λ c, is_valid_object_id c = true) True cl.
Proof.
  destruct (split_once "." head) as [[t c]|] eqn:E.
  - destruct (ClassId_new c) as [c'|] eqn:Ec; [|done]. intros [= <- <-].
    apply ClassId_new_Ok in Ec as [-> ?]. by apply split_once_Some in E as [-> _].
  - intros [= <- <-]. by rewrite app_eps_r.
Qed.

Lemma resource_ref_parse_iff s r :
  ResourceRef_parse s = Ok r ↔ resource_ref_valid r ∧ ResourceRef_show r = s.
Proof.
  unfold ResourceRef_parse, ResourceRef_show, resource_ref_valid. split.
  - intros H. assert (∃ head id, s = head +:+ match id with Some i => "#" +:+ i | None => ε end
      ∧ from_option (λ i, res_id_ok i = true) True id
      ∧ (match split_once "#" s with
         | Some (h, i) => let? i := ResId_new i in Ok (h, Some i)
         | None => Ok (s, None)
         end) = Ok (head, id)) as (head & id & -> & Hid & Heq).
    { destruct (split_once "#" s) as [[h i]|] eqn:Es.
      - destruct (ResId_new i) as [i'|] eqn:Ei; [|done]. apply ResId_new_Ok in Ei as [-> ?].
        apply split_once_Some in Es as [-> _]. by exists h, (Some i).
      - exists s, None. by rewrite app_eps_r. }
    rewrite Heq in H. match type of H with match ?m with _ => _ end = _ => destruct m as [[ty cl]|] eqn:E end;
      [|done]. apply ref_head_inv in E as [-> Hcl].
    destruct (ResourceTypeId_new ty) as [t|] eqn:Et; [|done].
    apply ResourceTypeId_new_Ok in Et as [-> ?]. simplify_eq. cbn [rr_ty rr_class rr_id].
    by rewrite app_assoc_str.
  - intros [(Ht & Hc & Hi) <-]. destruct r as [ty cl id]; cbn [rr_ty rr_class rr_id] in *.
    rewrite <-app_assoc_str. destruct id as [i|].
    + change ("#" +:+ i) with (String "#" i). rewrite split_once_app by (by apply ref_head_no_hash).
      unfold ResId_new. simpl in Hi. rewrite Hi, ref_head_roundtrip by done.
      unfold ResourceTypeId_new. by rewrite Ht.
    + rewrite app_eps_r, (proj2 (split_once_None _ _)) by (by apply ref_head_no_hash).
      rewrite ref_head_roundtrip by done. unfold ResourceTypeId_new. by rewrite Ht.
Qed.

(** Resource references round-trip: the text [s] parses to the reference [r] iff
    [r] is a valid reference that prints as [s]. *)
Theorem resource_ref_roundtrip (s : string) (r : ResourceRef) :
  ResourceRef_parse s = Ok r ↔ resource_ref_valid r ∧ ResourceRef_show r = s.
Proof. apply resource_ref_parse_iff. Qed.

(** The expressions a dialect admits. *)
Definition expr_allowed (dialect : Dialect) (e : Expr) : Prop :=
  match e with
  | EContext _ => dialect ≠ DialectSet
  | EResource target field =>
      dialect ≠ DialectSet ∧ resource_ref_valid target
      ∧ match field with
        | FieldOutputs path => path ≠ []
        | FieldGuresid => True
        | FieldAccount => dialect = DialectDriverAccount
        end
  | EExternals _ path | EShared _ path => dialect = DialectSet ∧ path ≠ []
  | EValues _ _ => dialect = DialectSet
  | EPod path => dialect = DialectSet ∧ path ≠ []
  end.

(** A placeholder that means the expression. *)
Definition expr_segments (e : Expr) : list Segment :=
  match e with
  | EContext k => Name "context" :: (Name <$> split "." (context_key_path k))
  | EResource target field =>
      Name "resources" :: Quoted (ResourceRef_show target)
      :: match field with
         | FieldOutputs path => Name "outputs" :: path
         | FieldGuresid => [Name "guresid"]
         | FieldAccount => [Name "account"]
         end
  | EExternals key path => Name "externals" :: Quoted key :: path
  | EShared id path => Name "shared" :: Quoted id :: path
  | EValues key path => Name "values" :: Quoted key :: path
  | EPod path => Name "pod" :: (Name <$> path)
  end.

Lemma names_fmap l : names (Name <$> l) = Some l.
Proof. induction l as [|x l IH]; [done|]. csimpl. by rewrite IH. Qed.

Lemma parse_resource_ref_Ok segs target field :
  parse_resource_ref segs = Ok (target, field) →
  (∃ s, ResourceRef_parse s = Ok target)
  ∧ match field with FieldOutputs path => path ≠ [] | _ => True end.
Proof.
  unfold parse_resource_ref. intros H. destruct (ref_text_of segs) as [[text rest]|]; [|done].
  destruct (ResourceRef_parse text) as [t|] eqn:Et; simpl in H; [|done].
  destruct rest as [|[n|q|i] path]; try done.
  destruct (_ && _) eqn:Ec.
  - simplify_eq. split; [by exists text|]. by apply andb_true_iff in Ec as [_ ?]; destruct path.
  - destruct path; [|done].
    destruct (String.eqb n "guresid"); [|destruct (String.eqb n "account"); [|done]];
      simplify_eq; (split; [by exists text|done]).
Qed.

Lemma dialect_cases d : bool_decide (d = DialectSet) = true ∧ d = DialectSet
  ∨ bool_decide (d = DialectSet) = false ∧ d ≠ DialectSet.
Proof. case_bool_decide; auto. Qed.

Lemma interpret_allowed raw d e : interpret raw d = Ok e → expr_allowed d e.
Proof.
  unfold interpret. intros H.
  destruct (dialect_cases d) as [[Ed Hd]|[Ed Hd]]; rewrite Ed in H; cbn [negb] in H;
    rewrite ?andb_true_r, ?andb_false_r in H.
  - destruct (String.eqb _ "context"); [done|].
    destruct (String.eqb _ "externals" || _).
    { destruct (rp_segments raw !! 1 ≫= segment_key); [|done]. simpl in H.
      destruct (drop 2 (rp_segments raw)) as [|x l] eqn:El; [done|]. simplify_eq.
      by case_match; simplify_eq. }
    destruct (String.eqb _ "values").
    { destruct (rp_segments raw !! 1 ≫= segment_key); [|done]. simpl in H. by simplify_eq. }
    destruct (String.eqb _ "pod"); [|done]. destruct (names _) as [[|x l]|]; simpl in H; by simplify_eq.
  - destruct (String.eqb _ "context").
    { destruct (names _); [|done]. cbn [ok_or] in H. destruct (find _ _); by simplify_eq. }
    destruct (String.eqb _ "resources"); [|done].
    destruct (parse_resource_ref _) as [[target field]|] eqn:E; [|done].
    apply parse_resource_ref_Ok in E as [[s Hs] Hf].
    destruct (is_account field && _) eqn:Ea; simplify_eq. split; [done|].
    split; [by apply resource_ref_parse_iff in Hs as [? _]|].
    destruct field; [done..|]. by apply negb_false_iff, bool_decide_eq_true in Ea.
Qed.

Lemma interpret_segments d e text :
  expr_allowed d e → interpret (mk_RawPlaceholder text (expr_segments e)) d = Ok e.
Proof.
  intros H. destruct e as [k|target field|key path|id path|key path|path]; simpl in H.
  - destruct d; [by destruct k|by destruct k|done].
  - destruct H as (Hd & Ht & Hf).
    assert (parse_resource_ref (drop 1 (expr_segments (EResource target field))) = Ok (target, field)) as Hp.
    { cbn [expr_segments drop]. unfold parse_resource_ref. cbn [ref_text_of].
      rewrite (proj2 (resource_ref_parse_iff _ target)) by done. cbn [map_err].
      destruct field as [[|x l]| |]; done. }
    unfold interpret. cbn [rp_segments]. rewrite Hp.
    change (rp_root _) with "resources".
    destruct field; destruct d; done.
  - destruct H as [-> Hp]. by destruct path.
  - destruct H as [-> Hp]. by destruct path.
  - by subst.
  - destruct H as [-> Hp]. unfold interpret. cbn [rp_segments expr_segments drop].
    change (drop 0 ?l) with l. rewrite names_fmap. by destruct path.
Qed.

(** Dialects keep their placeholders apart: an expression can be written in a
    dialect iff the dialect admits it. Definitions read only the context and other
    resources, [.account] only in [driver_account]; deployment sets read only
    [externals], [shared], [values] and [pod]; references name valid types, classes
    and IDs, and output paths are never empty. *)
Theorem interpret_dialects (d : Dialect) (e : Expr) :
  (∃ raw, interpret raw d = Ok e) ↔ expr_allowed d e.
Proof.
  split; [intros [raw Hraw]; by eapply interpret_allowed|].
  intros He. exists (mk_RawPlaceholder ε (expr_segments e)). by apply interpret_segments.
Qed.

Lemma implicit_res_id_ok ty : resource_type_ok ty = true → res_id_ok (implicit_res_id ty) = true.
Proof.
  intros Ht. unfold implicit_res_id, ResId_new. by rewrite type_res_id_ok, ?type_res_id_ok.
Qed.

Lemma resolve_valid r referrer implicit :
  resource_ref_valid r → descriptor_valid referrer →
  descriptor_valid (ResourceRef_resolve r referrer implicit).
Proof.
  intros (Ht & Hc & Hi) (_ & Hrc & Hri). destruct r as [ty cl id]; simpl in *.
  destruct implicit; (split_and!; simpl; [done|by destruct cl|]); destruct id; simpl; try done.
  by apply implicit_res_id_ok.
Qed.

(** A reference names one valid descriptor, and nothing it writes is overridden:
    for a valid reference and referrer, [descriptor_for] returns a valid descriptor of
    the reference's type that has the class and the ID the reference gives (so that the
    source's [expect] does not panic); without a referrer it fails only for a partial
    reference to a type that is not implicit. *)
Theorem descriptor_for_valid (ms : MapScope) (target : ResourceRef) :
  resource_ref_valid target → (∀ r, ms_referrer ms = Some r → descriptor_valid r) →
  match descriptor_for ms target with
  | Ok d => descriptor_valid d ∧ d_ty d = rr_ty target
      ∧ (∀ c, rr_class target = Some c → d_class d = c)
      ∧ (∀ i, rr_id target = Some i → d_id d = i)
  | Err _ => ms_referrer ms = None ∧ rr_ty target ∉ ms_implicit_types ms
      ∧ (rr_class target = None ∨ rr_id target = None)
  end.
Proof.
  intros Ht Hr. unfold descriptor_for.
  assert (∀ r i, descriptor_valid r →
    let d := ResourceRef_resolve target r i in
    descriptor_valid d ∧ d_ty d = rr_ty target
      ∧ (∀ c, rr_class target = Some c → d_class d = c)
      ∧ (∀ i, rr_id target = Some i → d_id d = i)) as Hres.
  { intros r i Hv d. split; [by apply resolve_valid|]. subst d. unfold ResourceRef_resolve.
    destruct i; (split; [done|]); split; intros x Hx; simpl; by rewrite Hx. }
  assert (descriptor_valid (mk_Descriptor (rr_ty target) default_class "x")) as Hdummy.
  { split_and!; [apply Ht|done|done]. }
  destruct (ms_referrer ms) as [r|]; [apply Hres; by apply Hr|].
  destruct target as [ty [c|] [i|]]; cbn [rr_ty rr_class rr_id] in *.
  - destruct Ht as (? & ? & ?). split_and!; try done; by intros ? [= ->].
  - case_bool_decide; [by apply Hres|by auto].
  - case_bool_decide; [by apply Hres|by auto].
  - case_bool_decide; [by apply Hres|by auto].
Qed.

Lemma descriptor_for_valid_witness :
  descriptor_for test_scope (mk_ResourceRef "base-env" None None)
    = Ok (mk_Descriptor "base-env" "default" "base-env")
  ∧ descriptor_valid (mk_Descriptor "base-env" "default" "base-env").
Proof.
  split; [reflexivity|].
  refine (proj1 (descriptor_for_valid test_scope (mk_ResourceRef "base-env" None None) _ _)).
  - repeat split.
  - intros r [= <-]. repeat split.
Defined.

(** ** Secret expressions *)

Definition part_reveal (read : SecretRef → string) (p : SecretPart) : string :=
  match p with SPLiteral s => s | SPSecret r => read r end.
Definition reveal_expr (read : SecretRef → string) (e : SecretExpr) : string :=
  concat_str (part_reveal read <$> e).

Lemma reveal_expr_app read e1 e2 : reveal_expr read (e1 ++ e2) = reveal_expr read e1 +:+ reveal_expr read e2.
Proof. unfold reveal_expr. by rewrite fmap_app, concat_str_app. Qed.

Lemma reveal_push_literal read e s : reveal_expr read (secret_push_literal e s) = reveal_expr read e +:+ s.
Proof.
  induction e as [|[l|r] e IH].
  - simpl. by destruct s; cbn; rewrite ?app_eps_r.
  - destruct e; [cbn; by rewrite !app_eps_r|].
    change (l +:+ reveal_expr read (secret_push_literal (s0 :: e) s)
            = (l +:+ reveal_expr read (s0 :: e)) +:+ s). by rewrite IH, app_assoc_str.
  - change (read r +:+ reveal_expr read (secret_push_literal e s)
            = (read r +:+ reveal_expr read e) +:+ s). by rewrite IH, app_assoc_str.
Qed.

Lemma references_app e1 e2 :
  secret_references (e1 ++ e2) = secret_references e1 ++ secret_references e2.
Proof.
  unfold secret_references. induction e1 as [|[l|r] e1 IH]; simpl; [done..|]. by rewrite IH.
Qed.

Lemma references_push_literal e s :
  secret_references (secret_push_literal e s) = secret_references e.
Proof.
  induction e as [|[l|r] e IH]; [by destruct s|by destruct e|].
  change (r :: secret_references (secret_push_literal e s) = r :: secret_references e). by rewrite IH.
Qed.

Lemma render_loop {X} (read : SecretRef → string) e out :
  try_fold (λ out p,
    match p with
    | SPLiteral s => Ok (out +:+ s)
    | SPSecret r => let? s := Ok (E := X) (read r) in Ok (out +:+ s)
    end) out e = Ok (out +:+ reveal_expr read e).
Proof.
  revert out. induction e as [|[l|r] e IH]; intros out; simpl.
  - by rewrite app_eps_r.
  - rewrite IH. unfold reveal_expr. csimpl. by rewrite app_assoc_str.
  - rewrite IH. unfold reveal_expr. csimpl. by rewrite app_assoc_str.
Qed.

Lemma secret_render_total {X} (read : SecretRef → string) e :
  secret_render (E := X) (λ r, Ok (read r)) e = Ok (reveal_expr read e).
Proof. apply render_loop. Qed.

(** ** Resolution: reference semantics *)

(** A secret appears somewhere inside. *)
Fixpoint has_secret (r : Resolved) : bool :=
  match r with
  | RValue _ => false
  | RSecret e => match secret_references e with [] => false | _ => true end
  | RArray items => existsb has_secret items
  | RObject items => existsb (λ kr, has_secret kr.2) items
  end.

Section reveal.
Context (read : SecretRef → string).

(** The value that is seen once the secrets are read. *)
Fixpoint reveal (r : Resolved) : Value :=
  match r with
  | RValue v => v
  | RSecret e => Str (reveal_expr read e)
  | RArray items => Arr (map reveal items)
  | RObject items => Obj (map (λ kr, (kr.1, reveal kr.2)) items)
  end.

Definition reveal_lookup (l : Lookup) : Value :=
  match l with LValue v => v | LSecret r => Str (read r) end.
End reveal.

Definition is_secret_lookup (l : Lookup) : bool :=
  match l with LSecret _ => true | LValue _ => false end.

Section resolution.
Context `{Scope Sc} (scope : Sc) (json_text : Value → string) (dialect : Dialect) (sink : Sink).

Abbreviation resolve_string' := (resolve_string scope json_text dialect sink).
Abbreviation resolve_value' := (resolve_value scope json_text dialect sink).

(** The text a value is inserted as: strings raw, other values as JSON. *)
Definition value_text (v : Value) : string :=
  match v with Str s => s | _ => json_text v end.

(** Substitution, written without an accumulator, lookups or taint. *)
Definition placeholder_value (read : SecretRef → string) (p : RawPlaceholder) : option Value :=
  match interpret p dialect with
  | Ok e => match lookup_expr scope e with Ok l => Some (reveal_lookup read l) | Err _ => None end
  | Err _ => None
  end.
Definition part_text (read : SecretRef → string) (p : Part) : option string :=
  match p with
  | Literal l => Some l
  | Placeholder p => value_text <$> placeholder_value read p
  end.
Definition subst_string (read : SecretRef → string) (s : string) : option Value :=
  match template_parse s with
  | Ok [Placeholder p] => placeholder_value read p
  | Ok t => (λ l, Str (concat_str l)) <$> mapM (part_text read) t
  | Err _ => None
  end.
Fixpoint subst_value (read : SecretRef → string) (v : Value) : option Value :=
  match v with
  | Str s => subst_string read s
  | Arr l => Arr <$> mapM (subst_value read) l
  | Obj m => Obj <$> mapM (λ kv, v ← subst_value read kv.2; Some (kv.1, v)) m
  | v => Some v
  end.

(** What one lookup must give for the sink. *)
Definition lookup_ok (e : Expr) (l : Lookup) : Prop :=
  lookup_expr scope e = Ok l ∧ (sink = SinkPlain → is_secret_lookup l = false).

Definition lookup_one (location : string) (p : RawPlaceholder) : result Lookup PlaceholderError :=
  let err kind := mk_PlaceholderError (rp_text p) location kind in
  let? expr := map_err err (interpret p dialect) in
  let? found := map_err (λ reason, err (Unresolvable reason)) (lookup_expr scope expr) in
  if is_secret_lookup found && bool_decide (sink = SinkPlain) then Err (err SecretInNonSecret)
  else Ok found.

Lemma lookups_eq location ps :
  try_fold (lookup_placeholder scope dialect sink location) [] ps = try_map (lookup_one location) ps.
Proof.
  rewrite (try_fold_push _ (lookup_one location)); [by destruct (try_map _ _)|].
  intros acc p. unfold lookup_placeholder, lookup_one.
  destruct (map_err _ (interpret p dialect)); [|done].
  destruct (map_err _ (lookup_expr scope _)) as [[v|r]|]; try done. simpl. by case_bool_decide.
Qed.

Lemma lookup_one_Ok location p l :
  lookup_one location p = Ok l ↔ ∃ e, interpret p dialect = Ok e ∧ lookup_ok e l.
Proof.
  unfold lookup_one, lookup_ok. destruct (interpret p dialect) as [e|] eqn:Ei; simpl.
  - destruct (lookup_expr scope e) as [l'|] eqn:El; simpl.
    + destruct (is_secret_lookup l') eqn:Es; simpl; [case_bool_decide|]; split.
      * done.
      * intros (e' & [= <-] & Hl & Hs). rewrite El in Hl. simplify_eq. rewrite Hs in Es; done.
      * intros [= <-]. by exists e.
      * intros (e' & [= <-] & Hl & _). congruence.
      * intros [= <-]. by exists e.
      * intros (e' & [= <-] & Hl & _). congruence.
    + split; [done|]. intros (e' & [= <-] & Hl & _). congruence.
  - split; [done|]. by intros (e' & ? & _).
Qed.

Lemma build_expr_spec t lks e :
  length lks = length (template_placeholders t) →
  ∃ e', build_expr json_text e t lks = Some e'
    ∧ secret_references e' = secret_references e
        ++ filter_map (λ l, match l with LSecret r => Some r | LValue _ => None end) lks
    ∧ ∀ read, Forall2 (λ p l, placeholder_value read p = Some (reveal_lookup read l))
                (template_placeholders t) lks →
        ∃ texts, mapM (part_text read) t = Some texts
          ∧ reveal_expr read e' = reveal_expr read e +:+ concat_str texts.
Proof.
  revert lks e. induction t as [|[l|p] t IH]; intros lks e Hlen.
  - destruct lks; [|done]. exists e. rewrite app_nil_r. split_and!; try done.
    intros read _. exists []. by rewrite app_eps_r.
  - destruct (IH lks (secret_push_literal e l) Hlen) as (e' & He & Hr & Hv).
    exists e'. rewrite references_push_literal in Hr. split_and!; [done|done|].
    intros read HF. destruct (Hv read HF) as (texts & Ht & Hx). exists (l :: texts).
    split; [by apply mapM_cons_Some|]. by rewrite Hx, reveal_push_literal, app_assoc_str.
  - destruct lks as [|lk lks]; [done|]. injection Hlen as Hlen.
    assert (∃ e1, build_expr json_text e (Placeholder p :: t) (lk :: lks) = build_expr json_text e1 t lks
      ∧ secret_references e1 = secret_references e
          ++ match lk with LSecret r => [r] | LValue _ => [] end
      ∧ ∀ read, reveal_expr read e1 = reveal_expr read e +:+ value_text (reveal_lookup read lk))
      as (e1 & -> & Hr1 & Hv1).
    { destruct lk as [v|r].
      - exists (secret_push_literal e (value_text v)). split; [by destruct v|].
        split; [by rewrite references_push_literal, app_nil_r|].
        intros. by rewrite reveal_push_literal.
      - exists (e ++ [SPSecret r]). split; [done|]. split; [by rewrite references_app|].
        intros. rewrite reveal_expr_app. cbn. by rewrite app_eps_r. }
    destruct (IH lks e1 Hlen) as (e' & He & Hr & Hv). exists e'. split_and!; [done| |].
    + rewrite Hr, Hr1, <-app_assoc. by destruct lk.
    + intros read HF. apply Forall2_cons in HF as [Hp HF].
      destruct (Hv read HF) as (texts & Ht & Hx).
      exists (value_text (reveal_lookup read lk) :: texts).
      split; [apply mapM_cons_Some; [|done]; cbn [part_text]; by rewrite Hp|].
      by rewrite Hx, Hv1, app_assoc_str.
Qed.

(** The lookups of a string's placeholders, and whether one is a secret. *)
Definition any_secret (lks : list Lookup) : bool := existsb is_secret_lookup lks.

Lemma filter_map_secrets lks :
  match filter_map (λ l, match l with LSecret r => Some r | LValue _ => None end) lks with
  | [] => false | _ => true end = any_secret lks.
Proof. induction lks as [|[v|r] lks IH]; simpl; [done| |done]. by rewrite IH. Qed.

Lemma lookups_reveal location ps lks read :
  Forall2 (λ p l, lookup_one location p = Ok l) ps lks →
  Forall2 (λ p l, placeholder_value read p = Some (reveal_lookup read l)) ps lks.
Proof.
  intros HF. eapply Forall2_impl; [exact HF|]. intros p l (e & He & Hl & _)%lookup_one_Ok.
  unfold placeholder_value. by rewrite He, Hl.
Qed.

(** Every string whose placeholders are found resolves. *)
Lemma resolve_string_Ok s location t lks :
  template_parse s = Ok t →
  try_map (lookup_one location) (template_placeholders t) = Ok lks →
  ∃ r, resolve_string' s location = Ok r ∧ is_tainted r = any_secret lks
    ∧ has_secret r = any_secret lks
    ∧ ∀ read, subst_string read s = Some (reveal read r).
Proof.
  intros Ht Hl. unfold resolve_string, subst_string. rewrite Ht. cbn [map_err].
  rewrite lookups_eq, Hl. apply try_map_Ok in Hl.
  destruct (template_whole t) as [p|] eqn:Ew.
  - destruct t as [|[l|q] [|]]; try done. injection Ew as ->. cbn [is_some is_none negb].
    apply Forall2_cons_inv_l in Hl as (lk & lks' & Hlk & Hnil & ->).
    apply Forall2_nil_inv_l in Hnil as ->.
    apply lookup_one_Ok in Hlk as (e & He & Hlk & _).
    unfold placeholder_value. rewrite He, Hlk. destruct lk as [v|r]; simpl; eexists; split_and!; try done.
    intros read. cbn. by rewrite app_eps_r.
  - cbn [is_some is_none negb].
    destruct (build_expr_spec t lks []) as (e & -> & Hr & Hv);
      [symmetry; by eapply Forall2_length|]. simpl. rewrite app_nil_l in Hr.
    rewrite Hr. pose proof (filter_map_secrets lks) as Hs.
    assert (∀ read, match t with [Placeholder p] => placeholder_value read p
      | _ => (λ l, Str (concat_str l)) <$> mapM (part_text read) t end
      = Some (Str (reveal_expr read e))) as Hsub.
    { intros read. destruct (Hv read) as (texts & Hm & ->); [by eapply lookups_reveal|].
      destruct t as [|[l|q] [|]]; try done; (rewrite Hm; done). }
    destruct (filter_map _ lks) as [|r0 rs] eqn:Ef.
    + rewrite (secret_render_total (λ _, ε)). simpl. eexists. split_and!; try done.
      intros read. rewrite Hsub. simpl. do 2 f_equal. unfold reveal_expr. f_equal.
      clear -Hr. apply list_fmap_ext. intros i [l|r] Hi; [done|exfalso].
      apply list_elem_of_lookup_2 in Hi.
      assert (r ∈ secret_references e) as Hin by (apply elem_of_filter_map; eexists; split; [exact Hi|done]).
      rewrite Hr in Hin. by apply not_elem_of_nil in Hin.
    + eexists. split_and!; try done. simpl. by rewrite Hr.
Qed.

Lemma resolve_string_inv s location r :
  resolve_string' s location = Ok r →
  ∃ t lks, template_parse s = Ok t
    ∧ try_map (lookup_one location) (template_placeholders t) = Ok lks.
Proof.
  unfold resolve_string. destruct (template_parse s) as [t|]; cbn [map_err]; [|done].
  rewrite lookups_eq. destruct (try_map _ _) as [lks|] eqn:E; [|done]. intros _. by exists t, lks.
Qed.

(** *** Collecting *)

Definition collect_one (location : string) (p : RawPlaceholder) : result Collected PlaceholderError :=
  let? e := map_err (mk_PlaceholderError (rp_text p) location) (interpret p dialect) in
  Ok (location, p, e).

Lemma collect_into_app v : ∀ location out,
  collect_into dialect v location out
  = result_map (app out) (collect_into dialect v location []).
Proof.
  induction v as [|b|n|s|l IH|m IH] using Value_ind; intros location out;
    try (simpl; by rewrite app_nil_r).
  - cbn [collect_into]. destruct (template_parse s) as [t|]; [|done]. cbn [map_err].
    rewrite !(try_fold_push _ (collect_one location)); [by destruct (try_map _ _)|..];
      (intros acc p; unfold collect_one; by destruct (map_err _ _)).
  - cbn [collect_into]. rewrite !try_foldi_fold.
    rewrite !(try_fold_append _ (λ ix, collect_into dialect ix.2 (index_location location ix.1) []));
      [by destruct (try_map _ _)|..];
      (intros acc [i x] [_ Hx%list_elem_of_lookup_2]%elem_of_enumerate_from;
       rewrite Forall_forall in IH; by apply IH).
  - cbn [collect_into].
    rewrite !(try_fold_append _ (λ kv, collect_into dialect kv.2 (key_location location kv.1) []));
      [by destruct (try_map _ _)|..];
      (intros acc [k x] Hx; rewrite Forall_forall in IH; by apply (IH (k, x))).
Qed.

Lemma collect_Str s location :
  collect_placeholders dialect (Str s) location
  = (let? t := map_err (mk_PlaceholderError s location) (template_parse s) in
     try_map (collect_one location) (template_placeholders t)).
Proof.
  unfold collect_placeholders. cbn [collect_into]. destruct (map_err _ _); [|done].
  rewrite (try_fold_push _ (collect_one location)); [by destruct (try_map _ _)|].
  intros acc p; unfold collect_one; by destruct (map_err _ _).
Qed.

Lemma collect_Arr l location :
  collect_placeholders dialect (Arr l) location
  = result_map (@concat _) (try_map (λ ix,
      collect_placeholders dialect ix.2 (index_location location ix.1)) (enumerate l)).
Proof.
  unfold collect_placeholders. cbn [collect_into]. rewrite try_foldi_fold.
  apply (try_fold_append _ (λ ix, collect_into dialect ix.2 (index_location location ix.1) [])).
  intros acc x _. apply collect_into_app.
Qed.

Lemma collect_Obj m location :
  collect_placeholders dialect (Obj m) location
  = result_map (@concat _) (try_map (λ kv,
      collect_placeholders dialect kv.2 (key_location location kv.1)) m).
Proof.
  unfold collect_placeholders. cbn [collect_into].
  apply (try_fold_append _ (λ kv, collect_into dialect kv.2 (key_location location kv.1) [])).
  intros acc x _. apply collect_into_app.
Qed.

(** *** Resolving and collecting agree *)

Definition found (cs : list Collected) (lks : list Lookup) : Prop :=
  Forall2 (λ c l, lookup_ok c.2 l) cs lks.

(** A resolution (of type [T], holding a resolved value) and the collected
    placeholders of the same value. *)
Definition agrees {T} (π : T → Resolved) (res : result T PlaceholderError)
    (col : result (list Collected) PlaceholderError) : Prop :=
  (∀ r, res = Ok r → ∃ cs lks, col = Ok cs ∧ found cs lks
     ∧ is_tainted (π r) = any_secret lks ∧ has_secret (π r) = any_secret lks)
  ∧ (∀ cs lks, col = Ok cs → found cs lks → ∃ r, res = Ok r).

Lemma agrees_list {I T} (π : T → Resolved) (res : I → result T PlaceholderError) col items :
  (∀ x, x ∈ items → agrees π (res x) (col x)) →
  (∀ rs, try_map res items = Ok rs → ∃ cs lks,
     result_map (@concat _) (try_map col items) = Ok cs ∧ found cs lks
     ∧ existsb (λ r, is_tainted (π r)) rs = any_secret lks
     ∧ existsb (λ r, has_secret (π r)) rs = any_secret lks)
  ∧ (∀ cs lks, result_map (@concat _) (try_map col items) = Ok cs → found cs lks →
     ∃ rs, try_map res items = Ok rs).
Proof.
  induction items as [|x items IH]; intros Hag.
  - split; [intros rs [= <-]; by exists [], []; split_and!; try constructor|]. intros. by exists [].
  - destruct (Hag x) as [H1 H2]; [by left|].
    destruct IH as [IH1 IH2]; [intros; apply Hag; by right|]. simpl. split.
    + intros rs Hrs. destruct (res x) as [r|] eqn:Er; [|done].
      destruct (try_map res items) as [rs'|]; simplify_eq.
      destruct (H1 r eq_refl) as (cs & lks & -> & Hf & Ht & Hs).
      destruct (IH1 rs' eq_refl) as (cs' & lks' & Hc' & Hf' & Ht' & Hs').
      destruct (try_map col items) as [css|]; simplify_eq/=.
      exists (cs ++ concat css), (lks ++ lks'). split_and!; [done|by apply Forall2_app|..];
        unfold any_secret in *; rewrite existsb_app; congruence.
    + intros cs lks Hcs Hf. destruct (col x) as [cs1|] eqn:Ec; [|done].
      destruct (try_map col items) as [css|] eqn:Ecs; simplify_eq/=.
      apply Forall2_app_inv_l in Hf as (lks1 & lks2 & Hf1 & Hf2 & ->).
      destruct (H2 cs1 lks1 eq_refl Hf1) as [r ->].
      destruct (IH2 (concat css) lks2 eq_refl Hf2) as [rs ->]. by eexists.
Qed.

Lemma forallb_untainted {T} (π : T → Resolved) rs :
  forallb (λ r, negb (is_tainted (π r))) rs = negb (existsb (λ r, is_tainted (π r)) rs).
Proof. induction rs as [|r rs IH]; simpl; [done|]. by rewrite IH, negb_orb. Qed.

Lemma agrees_container {T} (π : T → Resolved) res col (mk : list T → Resolved) :
  (∀ rs, is_tainted (mk rs) = existsb (λ r, is_tainted (π r)) rs) →
  (∀ rs, has_secret (mk rs)
     = existsb (λ r, is_tainted (π r)) rs && existsb (λ r, has_secret (π r)) rs) →
  (∀ rs, res = Ok rs → ∃ cs lks, col = Ok cs ∧ found cs lks
     ∧ existsb (λ r, is_tainted (π r)) rs = any_secret lks
     ∧ existsb (λ r, has_secret (π r)) rs = any_secret lks)
  ∧ (∀ cs lks, col = Ok cs → found cs lks → ∃ rs, res = Ok rs) →
  agrees id (let? rs := res in Ok (mk rs)) col.
Proof.
  intros Ht Hs [H1 H2]. split.
  - intros r Hr. destruct res as [rs|]; simplify_eq.
    destruct (H1 rs eq_refl) as (cs & lks & -> & Hf & Et & Es). exists cs, lks.
    unfold id. rewrite Ht, Hs, Et, Es, andb_diag. done.
  - intros cs lks Hc Hf. destruct (H2 cs lks Hc Hf) as [rs ->]. by eexists.
Qed.

Lemma resolved_array_taint rs :
  is_tainted (resolved_array rs) = existsb is_tainted rs
  ∧ has_secret (resolved_array rs) = existsb is_tainted rs && existsb has_secret rs.
Proof.
  unfold resolved_array. rewrite (forallb_untainted id). by destruct (existsb _ rs) eqn:E.
Qed.

Lemma resolved_object_taint rs :
  is_tainted (resolved_object rs) = existsb (λ kr, is_tainted kr.2) rs
  ∧ has_secret (resolved_object rs)
    = existsb (λ kr, is_tainted kr.2) rs && existsb (λ kr, has_secret kr.2) rs.
Proof.
  unfold resolved_object. rewrite (forallb_untainted snd). by destruct (existsb _ rs) eqn:E.
Qed.

Lemma agrees_plain v : agrees id (Ok (RValue v)) (Ok []).
Proof.
  split; [|by eexists]. intros r [= <-]. exists [], []. by split_and!; try constructor.
Qed.

Lemma collect_one_lookup location ps cs lks :
  Forall2 (λ p c, collect_one location p = Ok c) ps cs → found cs lks →
  Forall2 (λ p l, lookup_one location p = Ok l) ps lks.
Proof.
  intros Hc. revert lks. induction Hc as [|p c ps cs Hpc Hc IH]; intros lks Hf.
  - by apply Forall2_nil_inv_l in Hf as ->.
  - apply Forall2_cons_inv_l in Hf as (l & lks' & Hl & Hf & ->). constructor; [|by apply IH].
    apply lookup_one_Ok. unfold collect_one in Hpc.
    destruct (interpret p dialect) as [e|]; simplify_eq/=. by exists e.
Qed.

Lemma lookup_collect_one location ps lks :
  Forall2 (λ p l, lookup_one location p = Ok l) ps lks →
  ∃ cs, Forall2 (λ p c, collect_one location p = Ok c) ps cs ∧ found cs lks.
Proof.
  induction 1 as [|p l ps lks Hl HF (cs & Hcs & Hf)]; [exists []; split; constructor|].
  apply lookup_one_Ok in Hl as (e & He & Hl). exists ((location, p, e) :: cs).
  split; constructor; try done. unfold collect_one. by rewrite He.
Qed.

Lemma agrees_string s location :
  agrees id (resolve_string' s location) (collect_placeholders dialect (Str s) location).
Proof.
  rewrite collect_Str. split.
  - intros r Hr. destruct (resolve_string_inv s location r Hr) as (t & lks & Ht & Hl).
    destruct (resolve_string_Ok s location t lks Ht Hl) as (r' & Hr' & Hta & Hs & _).
    rewrite Hr in Hr'. injection Hr' as <-. apply try_map_Ok, lookup_collect_one in Hl as (cs & Hcs & Hf).
    exists cs, lks. rewrite Ht. apply try_map_Ok in Hcs. by split_and!.
  - intros cs lks Hc Hf. destruct (template_parse s) as [t|] eqn:Ht; [|done]. simpl in Hc.
    apply try_map_Ok in Hc. pose proof (collect_one_lookup _ _ _ _ Hc Hf) as Hl%try_map_Ok.
    destruct (resolve_string_Ok s location t lks Ht Hl) as (r & Hr & _). by exists r.
Qed.

Lemma agrees_value v : ∀ location,
  agrees id (resolve_value' v location) (collect_placeholders dialect v location).
Proof.
  induction v as [|b|n|s|l IH|m IH] using Value_ind; intros location;
    try apply agrees_plain; [apply agrees_string|..]; rewrite Forall_forall in IH.
  - rewrite collect_Arr. cbn [resolve_value]. rewrite try_mapi_map.
    apply (agrees_container id); [apply resolved_array_taint..|].
    apply agrees_list. intros [i x] [_ Hx%list_elem_of_lookup_2]%elem_of_enumerate_from.
    by apply IH.
  - rewrite collect_Obj. cbn [resolve_value].
    apply (agrees_container snd); [apply resolved_object_taint..|].
    apply agrees_list. intros [k x] Hx. destruct (IH _ Hx (key_location location k)) as [H1 H2].
    split; simpl in *.
    + intros kr Hkr. destruct (resolve_value' x _) as [r|]; simplify_eq. by apply H1.
    + intros cs lks Hc Hf. destruct (H2 cs lks Hc Hf) as [r ->]. by eexists.
Qed.

(** *** Resolving substitutes *)

Lemma try_map_mapi {A B X} (f : A → result B X) i l : try_map f l = try_mapi (λ _, f) i l.
Proof. revert i. induction l as [|x l IH]; intros i; simpl; [done|]. by rewrite (IH (S i)). Qed.

Lemma mapM_try_mapi {A T U X} (f : nat → A → result T X) (sub : A → option U) (π : T → U) i l rs :
  try_mapi f i l = Ok rs →
  (∀ j x r, x ∈ l → f j x = Ok r → sub x = Some (π r)) → mapM sub l = Some (π <$> rs).
Proof.
  revert i rs. induction l as [|x l IH]; intros i rs Hrs Hx; simpl in Hrs; [by simplify_eq|].
  destruct (f i x) as [r|] eqn:Er; [|done]. destruct (try_mapi f (S i) l) as [rs'|] eqn:El; [|done].
  simplify_eq. csimpl. apply mapM_cons_Some; [by eapply Hx; [left|]|].
  eapply IH; [done|]. intros; eapply Hx; [by right|done].
Qed.

Lemma try_map_keys {A T X} (f : string → A → result T X) (m : list (string * A)) rs :
  try_map (λ kv : string * A, let? r := f kv.1 kv.2 in Ok (kv.1, r)) m = Ok rs → rs.*1 = m.*1.
Proof.
  revert rs. induction m as [|[k x] m IH]; intros rs Hrs; simpl in Hrs; [by simplify_eq|].
  destruct (f k x) as [r|]; [|done]. destruct (try_map _ m) as [rs'|]; [|done]. simplify_eq.
  csimpl. f_equal. by apply IH.
Qed.

Lemma reveal_array read rs : reveal read (resolved_array rs) = Arr (reveal read <$> rs).
Proof.
  unfold resolved_array. destruct (forallb _ rs) eqn:E; [|done]. simpl. f_equal.
  apply list_fmap_ext. intros i r Hi%list_elem_of_lookup_2.
  rewrite forallb_forall in E. apply list_elem_of_In, E in Hi. by destruct r.
Qed.

Lemma reveal_object read rs :
  NoDup rs.*1 →
  reveal read (resolved_object rs) = Obj ((λ kr, (kr.1, reveal read kr.2)) <$> rs).
Proof.
  intros Hnd. unfold resolved_object. destruct (forallb _ rs) eqn:E; [|done]. simpl. f_equal.
  rewrite im_of_list_id.
  - apply list_fmap_ext. intros i [k r] Hi%list_elem_of_lookup_2.
    rewrite forallb_forall in E. apply list_elem_of_In, E in Hi. by destruct r.
  - unfold im_wf. rewrite <-list_fmap_compose. done.
Qed.

Lemma resolve_subst read v : ∀ location r,
  value_wf v → resolve_value' v location = Ok r → subst_value read v = Some (reveal read r).
Proof.
  induction v as [|b|n|s|l IH|m IH] using Value_ind; intros location r Hwf Hr;
    try (simpl in *; by simplify_eq); [|rewrite Forall_forall in IH..].
  - destruct (resolve_string_inv s location r Hr) as (t & lks & Ht & Hl).
    destruct (resolve_string_Ok s location t lks Ht Hl) as (r' & Hr' & _ & _ & Hsub).
    cbn [resolve_value] in Hr. rewrite Hr in Hr'. injection Hr' as <-. apply Hsub.
  - cbn [resolve_value] in Hr. destruct (try_mapi _ _ l) as [rs|] eqn:Ers; [|done].
    simplify_eq. rewrite reveal_array. cbn [subst_value].
    rewrite value_wf_Arr, Forall_forall in Hwf.
    rewrite (mapM_try_mapi _ _ (reveal read) _ _ _ Ers); [done|].
    intros j x r Hx. apply IH; [done|by apply Hwf].
  - cbn [resolve_value] in Hr. destruct (try_map _ m) as [rs|] eqn:Ers; [|done].
    simplify_eq. rewrite value_wf_Obj, Forall_forall in Hwf. destruct Hwf as [Hnd Hwf].
    rewrite reveal_object by (by rewrite (try_map_keys (λ k x, resolve_value' x (key_location location k)) _ _ Ers)).
    rewrite (try_map_mapi _ 0) in Ers. cbn [subst_value].
    rewrite (mapM_try_mapi _ _ (λ kr, (kr.1, reveal read kr.2)) _ _ _ Ers); [done|].
    intros j [k x] kr Hx Hkr. simpl in *. destruct (resolve_value' x _) as [r'|] eqn:Er; simplify_eq.
    pose proof (IH _ Hx _ _ (Hwf _ Hx) Er) as Hsub. simpl in Hsub. by rewrite Hsub.
Qed.
End resolution.

(** Resolution succeeds exactly when the collected placeholders can be read:
    [resolve_value] returns a value iff [collect_placeholders] succeeds and the scope
    finds every collected placeholder, none of them a secret when the sink is plain. So
    the graph builder, which follows the collected placeholders, sees every resource a
    later resolution reads. *)
Theorem resolve_value_iff_collected `{Scope Sc} (scope : Sc) (json_text : Value → string)
    (dialect : Dialect) (sink : Sink) (v : Value) (location : string) :
  (∃ r, resolve_value scope json_text dialect sink v location = Ok r) ↔
  ∃ cs, collect_placeholders dialect v location = Ok cs
    ∧ ∀ c, c ∈ cs → ∃ l, lookup_expr scope c.2 = Ok l
        ∧ (sink = SinkPlain → is_secret_lookup l = false).
Proof.
  destruct (agrees_value scope json_text dialect sink v location) as [H1 H2]. split.
  - intros [r Hr]. destruct (H1 r Hr) as (cs & lks & Hc & Hf & _). exists cs.
    split; [done|]. intros c Hin. by apply (Forall2_elem_l _ _ _ _ Hf) in Hin as (l & _ & Hl); exists l.
  - intros (cs & Hc & Hall).
    assert (∃ lks, found scope sink cs lks) as [lks Hf]; [|by eapply H2].
    clear -Hall. induction cs as [|c cs IH]; [exists []; constructor|].
    destruct IH as [lks Hf]; [intros; apply Hall; by right|].
    destruct (Hall c) as [l Hl]; [by left|]. exists (l :: lks). by constructor.
Qed.

(** C35: secrets never reach a plain input, and taint is exact: a resolved value counts
    as tainted iff a secret appears somewhere inside it, iff some placeholder of the
    value was looked up as a secret; with a plain sink it is always plain JSON. *)
Theorem resolve_value_taint `{Scope Sc} (scope : Sc) (json_text : Value → string)
    (dialect : Dialect) (sink : Sink) (v : Value) (location : string)
    (r : Resolved) :
  resolve_value scope json_text dialect sink v location = Ok r →
  is_tainted r = has_secret r
  ∧ (sink = SinkPlain → ∃ w, r = RValue w)
  ∧ ∃ cs, collect_placeholders dialect v location = Ok cs
      ∧ (is_tainted r = true ↔ ∃ c sr, c ∈ cs ∧ lookup_expr scope c.2 = Ok (LSecret sr)).
Proof.
  intros Hr. destruct (agrees_value scope json_text dialect sink v location) as [H1 _].
  destruct (H1 r Hr) as (cs & lks & Hc & Hf & Ht & Hs). unfold id in *. split; [congruence|].
  assert (any_secret lks = true ↔ ∃ c sr, c ∈ cs ∧ lookup_expr scope c.2 = Ok (LSecret sr)) as Hany.
  { unfold any_secret. rewrite existsb_exists. split.
    - intros ([|sr] & Hin%list_elem_of_In & Hl); [done|].
      apply (Forall2_elem_r _ _ _ _ Hf) in Hin as (c & Hin & Hok & _). by exists c, sr.
    - intros (c & sr & Hin & Hl). apply (Forall2_elem_l _ _ _ _ Hf) in Hin as (l & Hin & Hok & _).
      exists (LSecret sr). rewrite Hl in Hok. injection Hok as <-.
      split; [by apply list_elem_of_In|done]. }
  split; [|exists cs; split; [done|]; by rewrite Ht].
  intros Hp. destruct r as [w|e|rs|rs]; [by exists w|exfalso..];
    symmetry in Ht; simpl in Ht; apply existsb_exists in Ht as (l & Hin%list_elem_of_In & Hl);
    apply (Forall2_elem_r _ _ _ _ Hf) in Hin as (c & _ & _ & Hplain); by rewrite Hplain in Hl.
Qed.

Lemma resolve_value_taint_witness :
  ∃ r, resolve_value test_scope (λ _, ε) DialectSet SinkSecret
         (Obj [("url", Str "pg://${externals.db.password}")]) "x" = Ok r
       ∧ is_tainted r = has_secret r.
Proof.
  eexists. split; [vm_compute; reflexivity|].
  eapply (resolve_value_taint test_scope (λ _, ε) DialectSet SinkSecret
    (Obj [("url", Str "pg://${externals.db.password}")]) "x"). vm_compute. reflexivity.
Defined.

(** resolution is substitution: whatever strings the secrets turn out to hold, the
    resolved value with its secrets read is the value with every placeholder replaced,
    a whole-string placeholder by the value itself and one inside text by the value's
    text, and nothing else changed. *)
Theorem resolve_value_substitutes `{Scope Sc} (scope : Sc) (json_text : Value → string)
    (dialect : Dialect) (sink : Sink) (v : Value) (location : string) (r : Resolved)
    (read : SecretRef → string) :
  value_wf v → resolve_value scope json_text dialect sink v location = Ok r →
  subst_value scope json_text dialect read v = Some (reveal read r).
Proof. apply resolve_subst. Qed.

Lemma resolve_value_substitutes_witness :
  subst_value test_scope (λ _, ε) DialectSet (λ _, "s3cret")
    (Arr [Str "${externals.db.host}/${externals.db.password}"])
  = Some (Arr [Str "h/s3cret"]).
Proof.
  eapply (resolve_value_substitutes test_scope (λ _, ε) DialectSet SinkSecret
    (Arr [Str "${externals.db.host}/${externals.db.password}"]) "x"
    (RArray [RSecret [SPLiteral "h/"; SPSecret test_secret]])).
  - apply value_wf_Arr. by repeat constructor.
  - vm_compute. reflexivity.
Defined.
