(* ===== verification/Catalog.v ===== *)
(** * The resource type catalog ([crates/core/src/catalog.rs])

    Built-in types with their output schemas, resource classes, and the validation of
    driver outputs against a type's schema. *)

From Stdlib Require Import Ascii.
From stdpp Require Import base sets strings list.
From S2P Require Import Prelude Strings OrdMap Regex Ids Float64 Json.

Local Open Scope string_scope.
Local Open Scope nat_scope.
Local Open Scope list_scope.

Inductive ResourceUse := Direct | Indirect | Implicit.
#[export] Instance ResourceUse_eq_dec : EqDecision ResourceUse.
Proof. solve_decision. Defined.

Record ResourceType := mk_ResourceType {
  rt_id : string;
  rt_name : string;
  rt_use : ResourceUse;
  rt_category : string;
  rt_inputs_schema : Value;
  rt_outputs_schema : Value }.

Inductive OutputKind := KindValue | KindSecret.
#[export] Instance OutputKind_eq_dec : EqDecision OutputKind.
Proof. solve_decision. Defined.

Record OutputError := mk_OutputError { oe_ty : string; oe_output : string; oe_problem : string }.

(** ** Schemas *)

Definition section (t : ResourceType) (kind : OutputKind) : option jmap :=
  let key := match kind with KindValue => "values" | KindSecret => "secrets" end in
  p ← json_get "properties" (rt_outputs_schema t); s ← json_get key p; as_object s.

(** Whether outputs not named in the schema are allowed. *)
Definition is_open (t : ResourceType) (kind : OutputKind) : bool :=
  match s ← section t kind; im_get "additionalProperties" s with
  | None => true
  | Some v => negb (value_eqb v (Bool false))
  end.

(** The declared outputs: name, schema and whether it is required. *)
Definition declared (t : ResourceType) (kind : OutputKind) : list (string * Value * bool) :=
  match section t kind with
  | None => []
  | Some s =>
      let required : list string :=
        match im_get "required" s ≫= as_array with
        | Some a => bs_of_list (filter_map as_str a)
        | None => []
        end in
      match im_get "properties" s ≫= as_object with
      | Some p => (λ kv : string * Value, (kv.1, kv.2, bs_mem kv.1 required)) <$> p
      | None => []
      end
  end.

Definition declares (t : ResourceType) (name : string) (kind : OutputKind) : bool :=
  existsb (λ d : string * Value * bool, String.eqb d.1.1 name) (declared t kind).

Definition output_kind (t : ResourceType) (name : string) : option OutputKind :=
  find (declares t name) [KindValue; KindSecret].

Definition has_open_outputs (t : ResourceType) : bool :=
  is_open t KindValue || is_open t KindSecret.

Definition json_type_matches (want : string) (v : Value) : bool :=
  if String.eqb want "string" then is_string v
  else if String.eqb want "integer" then is_i64 v || is_u64 v
  else if String.eqb want "number" then is_number v
  else if String.eqb want "boolean" then is_boolean v
  else if String.eqb want "object" then is_object v
  else if String.eqb want "array" then is_array v
  else if String.eqb want "null" then is_null v
  else true.

(** The type a schema asks for. *)
Definition schema_type (schema : Value) : option string := json_get "type" schema ≫= as_str.

Section validate.
Context (t : ResourceType) (values : jmap) (secrets : list string).

Definition output_err (output problem : string) : OutputError :=
  mk_OutputError (rt_id t) output problem.

Definition check_value (d : string * Value * bool) : result unit OutputError :=
  let '(name, schema, required) := d in
  match im_get name values with
  | Some v =>
      match schema_type schema with
      | Some want =>
          if json_type_matches want v then Ok tt
          else Err (output_err name ("must be of type " +:+ want))
      | None => Ok tt
      end
  | None =>
      if bs_mem name secrets then Err (output_err name "must be a value output, not a secret")
      else if required then Err (output_err name "is missing")
      else Ok tt
  end.

Definition check_secret (d : string * Value * bool) : result unit OutputError :=
  let '(name, _, required) := d in
  if im_contains name values then Err (output_err name "must be a secret output, not a value")
  else if required && negb (bs_mem name secrets) then Err (output_err name "is missing")
  else Ok tt.

Definition validate_outputs : result unit OutputError :=
  match find (λ k, bs_mem k secrets) values.*1 with
  | Some name => Err (output_err name "must be a secret output, not a value")
  | None =>
      let? _ := try_fold (λ _, check_value) tt (declared t KindValue) in
      try_fold (λ _, check_secret) tt (declared t KindSecret)
  end.
End validate.

Definition validate_secret_output (t : ResourceType) (name : string) (value : Value)
    : result unit OutputError :=
  match find (λ d : string * Value * bool, String.eqb d.1.1 name) (declared t KindSecret) with
  | None => Ok tt
  | Some (_, schema, _) =>
      match schema_type schema with
      | Some want =>
          if json_type_matches want value then Ok tt
          else Err (output_err t name ("must be of type " +:+ want))
      | None => Ok tt
      end
  end.

(** ** Classes *)

Record ResourceClass := mk_ResourceClass {
  cl_id : string; cl_resource_type : string; cl_description : string }.

Abbreviation ClassRegistry := (list (string * string)).

Definition ClassRegistry_new (classes : list ResourceClass) : ClassRegistry :=
  bs_of_list ((λ c, (cl_resource_type c, cl_id c)) <$> classes).

Definition registry_contains (r : ClassRegistry) (ty class : string) : bool :=
  is_default class || bs_mem (ty, class) r.

(** ** Building schemas *)

Definition type_schema (t : string) : Value := Obj [("type", Str t)].

Definition outputs_section (open : bool) (props : jmap) (required : list string) : Value :=
  Obj [("type", Str "object"); ("properties", Obj props);
       ("required", Arr (Str <$> required)); ("additionalProperties", Bool open)].

Definition json_schema_uri : Value := Str "https://json-schema.org/draft/2020-12/schema".

Definition outputs (values : list (string * string * bool)) (secrets : list (string * bool))
    (open : bool) : Value :=
  let vprops := im_of_list ((λ v : string * string * bool, (v.1.1, type_schema v.1.2)) <$> values) in
  let vreq := (λ v : string * string * bool, v.1.1) <$> filter (λ v, v.2 = true) values in
  let sprops := im_of_list ((λ s : string * bool, (s.1, type_schema "string")) <$> secrets) in
  let sreq := fst <$> filter (λ s : string * bool, s.2 = true) secrets in
  Obj [("$schema", json_schema_uri); ("type", Str "object");
       ("properties", Obj [("values", outputs_section open vprops vreq);
                           ("secrets", outputs_section open sprops sreq)])].

Definition open_inputs : Value := Obj [("$schema", json_schema_uri); ("type", Str "object")].

(** [ty]: the source panics when [id] is not a valid type. *)
Definition ty (id name : string) (use_ : ResourceUse) (category : string)
    (inputs_schema outputs_schema : Value) : ResourceType :=
  mk_ResourceType id name use_ category inputs_schema outputs_schema.

(** ** Drivers *)

Definition BUILTIN_DRIVERS : list string :=
  ["openporch/echo"; "openporch/none"; "openporch/template"; "openporch/opentofu"].
Definition BUILTIN_DRIVER_NAMESPACE : string := "openporch".

Inductive DriverTarget := TargetResource | TargetWorkload.
Definition driver_target_of_type (ty : string) : DriverTarget :=
  if String.eqb ty "workload" then TargetWorkload else TargetResource.
Definition driver_target_as_str (t : DriverTarget) : string :=
  match t with TargetResource => "resources" | TargetWorkload => "workloads" end.

(** ** Built-in types *)

Definition db : Value :=
  outputs [("host", "string", true); ("name", "string", true); ("port", "integer", true)]
    [("username", true); ("password", true)] false.

Definition builtin_types : list ResourceType := [
  ty "workload" "Workload" Implicit "workload"
    (Obj [("$schema", json_schema_uri); ("type", Str "object"); ("properties", Obj [("id", Obj [("type", Str "string")]); ("class", Obj [("type", Str "string")]); ("spec", Obj [("type", Str "object"); ("description", Str "The resolved workload document: containers or function, triggers, service, deploy, target")]); ("dependencies", Obj [("type", Str "object"); ("description", Str "Outputs of the workload's direct dependencies by key")])]); ("required", Arr [Str "id"; Str "class"; Str "spec"; Str "dependencies"]); ("additionalProperties", Bool false)])
    (outputs [("url", "string", false)] [] true);
  ty "base-env" "Base environment" Implicit "environment"
    open_inputs
    (outputs [] [] true);
  ty "k8s-cluster" "Kubernetes cluster" Implicit "kubernetes"
    open_inputs
    (outputs [("name", "string", true); ("server", "string", false); ("loadbalancer", "string", false); ("region", "string", false)] [("credentials", false)] false);
  ty "k8s-namespace" "Kubernetes namespace" Implicit "kubernetes"
    open_inputs
    (outputs [("namespace", "string", true)] [] false);
  ty "k8s-service-account" "Kubernetes service account" Indirect "kubernetes"
    open_inputs
    (outputs [("name", "string", true)] [] false);
  ty "config" "Configuration" Direct "config"
    open_inputs
    (outputs [] [] true);
  ty "dns" "DNS name" Direct "dns"
    open_inputs
    (outputs [("host", "string", true)] [] false);
  ty "route" "Route" Direct "dns"
    (Obj [("$schema", json_schema_uri); ("type", Str "object"); ("properties", Obj [("host", Obj [("type", Str "string")]); ("path", Obj [("type", Str "string")]); ("port", Obj [("type", Str "integer")]); ("service", Obj [("type", Str "string")])])])
    (outputs [] [] false);
  ty "postgres" "PostgreSQL database" Direct "datastore"
    open_inputs
    db;
  ty "postgres-instance" "PostgreSQL instance" Indirect "datastore"
    open_inputs
    (outputs [("host", "string", true); ("port", "integer", true)] [("username", true); ("password", true)] false);
  ty "mysql" "MySQL database" Direct "datastore"
    open_inputs
    db;
  ty "redis" "Redis" Direct "datastore"
    open_inputs
    (outputs [("host", "string", true); ("port", "integer", true)] [("username", false); ("password", true)] false);
  ty "s3" "S3 bucket" Direct "datastore"
    open_inputs
    (outputs [("bucket", "string", true); ("region", "string", true); ("arn", "string", false)] [] false);
  ty "sqs" "SQS queue" Direct "messaging"
    open_inputs
    (outputs [("arn", "string", true); ("url", "string", true); ("region", "string", true)] [] false);
  ty "sns-topic" "SNS topic" Direct "messaging"
    open_inputs
    (outputs [("arn", "string", true); ("region", "string", true); ("name", "string", false)] [] false);
  ty "dynamodb-table" "DynamoDB table" Direct "datastore"
    open_inputs
    (outputs [("name", "string", true); ("arn", "string", true); ("region", "string", true); ("stream_arn", "string", false)] [] false);
  ty "aws-role" "AWS IAM role" Indirect "aws"
    open_inputs
    (outputs [("arn", "string", true); ("name", "string", false)] [] false);
  ty "aws-policy" "AWS IAM policy" Indirect "aws"
    open_inputs
    (outputs [("arn", "string", true)] [] false) ].

Definition builtin_type (id : string) : option ResourceType :=
  find (λ t, String.eqb (rt_id t) id) builtin_types.

(** ** Validation *)

(** The contract between a driver's outputs and the type's schema. *)
Definition outputs_ok (t : ResourceType) (values : jmap) (secrets : list string) : Prop :=
  (∀ k, k ∈ values.*1 → k ∉ secrets)
  ∧ (∀ n schema req, (n, schema, req) ∈ declared t KindValue →
       match im_get n values with
       | Some v => ∀ want, schema_type schema = Some want → json_type_matches want v = true
       | None => n ∉ secrets ∧ req = false
       end)
  ∧ (∀ n schema req, (n, schema, req) ∈ declared t KindSecret →
       n ∉ values.*1 ∧ (req = true → n ∈ secrets)).

Lemma check_value_Ok t values secrets n schema req :
  check_value t values secrets (n, schema, req) = Ok tt ↔
  match im_get n values with
  | Some v => ∀ want, schema_type schema = Some want → json_type_matches want v = true
  | None => n ∉ secrets ∧ req = false
  end.
Proof.
  simpl. destruct (im_get n values) as [v|].
  - destruct (schema_type schema) as [want|]; [|by split]. destruct (json_type_matches want v) eqn:E.
    + split; [|done]. by intros _ ? [= <-].
    + split; [done|]. intros H. rewrite H in E; done.
  - rewrite <-bs_mem_false. destruct (bs_mem n secrets), req; naive_solver.
Qed.

Lemma check_secret_Ok t values secrets n schema req :
  check_secret t values secrets (n, schema, req) = Ok tt ↔
  n ∉ values.*1 ∧ (req = true → n ∈ secrets).
Proof.
  simpl. rewrite <-im_get_None, <-bs_mem_spec. unfold im_contains, is_some, is_none.
  destruct (im_get n values), (bs_mem n secrets), req; simpl; naive_solver.
Qed.

(** Driver outputs are accepted exactly when they keep the type's contract: no name
    is both a value and a secret, every declared value that is present has its declared
    JSON type, every required output is present, and declared values and secrets are
    never given as the other kind. In particular no output declared as a secret can be
    stored as plaintext. *)
Theorem validate_outputs_iff (t : ResourceType) (values : jmap) (secrets : list string) :
  validate_outputs t values secrets = Ok tt ↔ outputs_ok t values secrets.
Proof.
  unfold validate_outputs, outputs_ok. destruct (find _ values.*1) as [k|] eqn:Ef.
  - apply find_Some in Ef as [Hk Hs%bs_mem_spec]. split; [done|]. by intros (H & _); apply (H k) in Hk.
  - rewrite find_None in Ef.
    assert (∀ k, k ∈ values.*1 → k ∉ secrets) as Hdis
      by (intros k Hk; apply bs_mem_false; by apply Ef).
    destruct (try_fold _ tt (declared t KindValue)) as [[]|e] eqn:Ev.
    + rewrite try_fold_checks in Ev. rewrite try_fold_checks. split.
      * intros Hs. split; [done|]. split; intros n schema req Hd.
        -- by apply (check_value_Ok t), Ev.
        -- by apply (check_secret_Ok t values secrets n schema req), Hs.
      * intros (_ & _ & Hs) [[n schema] req] Hd. apply check_secret_Ok. by eapply Hs.
    + split; [done|]. intros (_ & Hv & _). exfalso.
      assert (try_fold (λ _, check_value t values secrets) tt (declared t KindValue) = Ok tt); [|congruence].
      apply try_fold_checks. intros [[n schema] req] Hd. apply check_value_Ok. by eapply Hv.
Qed.

(** ** Schemas built by [outputs] *)

Lemma im_wf_of_names {A} (name : A → string) (f : A → Value) (l : list A) :
  NoDup (name <$> l) → im_of_list ((λ x, (name x, f x)) <$> l) = (λ x, (name x, f x)) <$> l.
Proof. intros Hnd. apply im_of_list_id. unfold im_wf. by rewrite <-list_fmap_compose. Qed.

Lemma filter_map_as_str l : filter_map as_str (Str <$> l) = l.
Proof. induction l as [|x l IH]; csimpl; [done|]. by rewrite IH. Qed.

(** Membership in the required names, for distinct names. *)
Lemma required_mem {A} (name : A → string) (req : A → bool) (l : list A) x :
  NoDup (name <$> l) → x ∈ l →
  bs_mem (name x) (bs_of_list (name <$> filter (λ y, req y = true) l)) = req x.
Proof.
  intros Hnd Hx. destruct (req x) eqn:E.
  - apply bs_mem_spec, elem_of_bs_of_list, list_elem_of_fmap. exists x.
    split; [done|]. by apply list_elem_of_filter.
  - apply bs_mem_false. rewrite elem_of_bs_of_list, list_elem_of_fmap.
    intros (y & Hy & [Hr Hin]%list_elem_of_filter). assert (x = y); [|congruence].
    apply list_elem_of_lookup in Hx as [i Hi]. apply list_elem_of_lookup in Hin as [j Hj].
    assert (i = j); [|congruence]. eapply (NoDup_lookup _ i j (name x) Hnd);
      rewrite list_lookup_fmap; [by rewrite Hi|by rewrite Hj; simpl; rewrite Hy].
Qed.

Lemma declared_section {A} (name : A → string) (sch : A → Value) (req : A → bool) l open t kind :
  NoDup (name <$> l) →
  section t kind
  = as_object (outputs_section open (im_of_list ((λ x, (name x, sch x)) <$> l))
      (name <$> filter (λ x, req x = true) l)) →
  declared t kind = (λ x, (name x, sch x, req x)) <$> l.
Proof.
  intros Hnd Hs. unfold declared. rewrite Hs. cbn. rewrite im_wf_of_names by done.
  rewrite filter_map_as_str, <-list_fmap_compose. apply list_fmap_ext.
  intros i x Hi%list_elem_of_lookup_2. simpl. by rewrite required_mem.
Qed.

(** The schema helper means what its arguments say: for distinct output names, a
    type whose schema is [outputs values secrets open] declares exactly those values,
    with their JSON types, and those secrets, as strings, each required as given, and
    is open exactly when asked. *)
Theorem outputs_declares (id name category : string) (use_ : ResourceUse) (inputs : Value)
    (values : list (string * string * bool)) (secrets : list (string * bool)) (open : bool) :
  NoDup (fst <$> (fst <$> values)) → NoDup (fst <$> secrets) →
  let t := ty id name use_ category inputs (outputs values secrets open) in
  declared t KindValue = (λ v, (v.1.1, type_schema v.1.2, v.2)) <$> values
  ∧ declared t KindSecret = (λ s, (s.1, type_schema "string", s.2)) <$> secrets
  ∧ ∀ kind, is_open t kind = open.
Proof.
  intros Hv Hs t. rewrite <-list_fmap_compose in Hv. split_and!.
  - by apply (declared_section (λ v : string * string * bool, v.1.1)
      (λ v, type_schema v.1.2) snd values open).
  - by apply (declared_section (λ s : string * bool, s.1) (λ _, type_schema "string") snd secrets open).
  - intros []; by destruct open.
Qed.

Lemma outputs_declares_witness :
  declared (ty "redis" "Redis" Direct "datastore" open_inputs
    (outputs [("host", "string", true)] [("username", false)] false)) KindSecret
  = [("username", type_schema "string", false)].
Proof.
  apply (outputs_declares "redis" "Redis" "datastore" Direct open_inputs
    [("host", "string", true)] [("username", false)] false).
  - apply NoDup_singleton.
  - apply NoDup_singleton.
Defined.

(** The built-in catalog is consistent: its type IDs are valid (so that building it
    does not panic) and distinct, lookup by ID finds each type, and no type declares a
    name both as a value and as a secret. *)
Theorem builtin_types_consistent :
  NoDup (rt_id <$> builtin_types)
  ∧ Forall (λ t, ResourceTypeId_new (rt_id t) = Ok (rt_id t)
      ∧ builtin_type (rt_id t) = Some t
      ∧ Forall (λ n, declares t n KindValue = false) ((λ d, d.1.1) <$> declared t KindSecret))
      builtin_types.
Proof.
  split; [apply (bool_decide_unpack _); by vm_compute|].
  repeat (apply Forall_cons; split;
    [split_and!; [done|done|repeat (apply Forall_cons; split; [done|]); apply Forall_nil_2]|]).
  apply Forall_nil_2.
Qed.
