(* ===== verification/Sets.v ===== *)
(** * Deployment sets and deltas ([crates/core/src/sets.rs])

    A set describes what runs in an environment; a delta describes a change to a set.
    The JSON form of a set is what the [serde] attributes of its types ask for. Reading
    that form back, JSON Patch and SHA-256 are code outside the repository: they are
    parameters of the definitions that use them. *)

From Stdlib Require Import Ascii.
From stdpp Require Import base sets strings list.
From S2P Require Import Prelude Strings OrdMap Regex Ids Float64 Json Canonical.

Local Open Scope string_scope.
Local Open Scope nat_scope.
Local Open Scope list_scope.

Definition SET_ID_ALGORITHM : string := "jcs-sha256-base64url-v1".

(** A resource dependency of a workload. *)
Record External := mk_External {
  e_ty : string; e_class : string; e_id : option string; e_params : option Value }.

(** A workload in a set. *)
Record Module_ := mk_Module {
  m_class : string; m_spec : jmap; m_externals : list (string * External) }.

Record SharedResource := mk_SharedResource {
  s_ty : string; s_class : string; s_params : option Value }.

Record DeploymentSet := mk_DeploymentSet {
  ds_modules : list (string * Module_); ds_shared : list (string * SharedResource) }.

Definition empty_set : DeploymentSet := mk_DeploymentSet [] [].

(** ** JSON form *)

(** A field that is skipped when it is [None]. *)
Definition opt_field (k : string) (o : option Value) : jmap :=
  match o with Some v => [(k, v)] | None => [] end.

Definition external_to_value (e : External) : Value :=
  Obj ([("type", Str (e_ty e)); ("class", Str (e_class e))]
       ++ opt_field "id" (Str <$> e_id e) ++ opt_field "params" (e_params e)).

Definition map_to_value {A} (f : A → Value) (m : list (string * A)) : Value :=
  Obj ((λ kv, (kv.1, f kv.2)) <$> m).

Definition module_to_value (m : Module_) : Value :=
  Obj [("class", Str (m_class m)); ("spec", Obj (m_spec m));
       ("externals", map_to_value external_to_value (m_externals m))].

Definition shared_resource_to_value (s : SharedResource) : Value :=
  Obj ([("type", Str (s_ty s)); ("class", Str (s_class s))] ++ opt_field "params" (s_params s)).

Definition shared_to_value (m : list (string * SharedResource)) : Value :=
  map_to_value shared_resource_to_value m.

Definition set_to_value (s : DeploymentSet) : Value :=
  Obj [("modules", map_to_value module_to_value (ds_modules s));
       ("shared", shared_to_value (ds_shared s))].

Definition canonical_json (s : DeploymentSet) : string := to_canonical_string (set_to_value s).

(** The set ID, for a digest of the canonical text. *)
Definition set_id (digest : string → string) (s : DeploymentSet) : string :=
  digest (canonical_json s).

(** ** Equality *)

(** The derived [==]: maps entry by entry, JSON values by [Value]'s [==]. *)
Fixpoint bt_eqb {A} (eqb : A → A → bool) (m m' : list (string * A)) : bool :=
  match m, m' with
  | [], [] => true
  | (k, x) :: m, (k', y) :: m' => String.eqb k k' && eqb x y && bt_eqb eqb m m'
  | _, _ => false
  end.

Definition option_eqb {A} (eqb : A → A → bool) (x y : option A) : bool :=
  match x, y with
  | Some x, Some y => eqb x y
  | None, None => true
  | _, _ => false
  end.

Definition external_eqb (e f : External) : bool :=
  String.eqb (e_ty e) (e_ty f) && String.eqb (e_class e) (e_class f)
  && option_eqb String.eqb (e_id e) (e_id f) && option_eqb value_eqb (e_params e) (e_params f).

Definition module_eqb (m n : Module_) : bool :=
  String.eqb (m_class m) (m_class n) && value_eqb (Obj (m_spec m)) (Obj (m_spec n))
  && bt_eqb external_eqb (m_externals m) (m_externals n).

Definition shared_resource_eqb (s t : SharedResource) : bool :=
  String.eqb (s_ty s) (s_ty t) && String.eqb (s_class s) (s_class t)
  && option_eqb value_eqb (s_params s) (s_params t).

Definition shared_eqb (s t : list (string * SharedResource)) : bool :=
  bt_eqb shared_resource_eqb s t.

Definition set_eqb (a b : DeploymentSet) : bool :=
  bt_eqb module_eqb (ds_modules a) (ds_modules b) && shared_eqb (ds_shared a) (ds_shared b).

(** ** Deltas *)

Section deltas.
(** JSON Patch operations, [json_patch::patch] and [json_patch::diff]; reading a module
    and the shared resources from JSON. Errors are their texts. *)
Context {PatchOperation : Type}.
Context (patch : Value → list PatchOperation → result Value string).
Context (diff : Value → Value → list PatchOperation).
Context (module_from_value : Value → result Module_ string).
Context (shared_from_value : Value → result (list (string * SharedResource)) string).

Record ModuleChanges := mk_ModuleChanges {
  mc_add : list (string * Module_);
  mc_remove : list string;
  mc_update : list (string * list PatchOperation) }.

Record Delta := mk_Delta { dl_modules : ModuleChanges; dl_shared : list PatchOperation }.

Definition delta_default : Delta := mk_Delta (mk_ModuleChanges [] [] []) [].

Definition is_nil {A} (l : list A) : bool := match l with [] => true | _ => false end.

Definition delta_is_empty (d : Delta) : bool :=
  is_nil (mc_add (dl_modules d)) && is_nil (mc_remove (dl_modules d))
  && is_nil (mc_update (dl_modules d)) && is_nil (dl_shared d).

Inductive DeltaError :=
| RemoveMissing (id : string)
| AddExisting (id : string)
| UpdateMissing (id : string)
| UpdateFailed (workload reason : string)
| SharedFailed (reason : string).

Definition remove_module (modules : list (string * Module_)) (id : string)
    : result (list (string * Module_)) DeltaError :=
  match bt_get id modules with
  | None => Err (RemoveMissing id)
  | Some _ => Ok (bt_remove id modules)
  end.

Definition add_module (modules : list (string * Module_)) (kv : string * Module_)
    : result (list (string * Module_)) DeltaError :=
  if bt_contains kv.1 modules then Err (AddExisting kv.1)
  else Ok (bt_insert kv.1 kv.2 modules).

Definition update_module (modules : list (string * Module_)) (kv : string * list PatchOperation)
    : result (list (string * Module_)) DeltaError :=
  let '(id, ops) := kv in
  let? m := ok_or (bt_get id modules) (UpdateMissing id) in
  let? doc := map_err (UpdateFailed id) (patch (module_to_value m) ops) in
  let? m' := map_err (UpdateFailed id) (module_from_value doc) in
  Ok (bt_insert id m' modules).

(** Removals, then additions, then updates, then shared changes. *)
Definition apply_delta (set : DeploymentSet) (delta : Delta) : result DeploymentSet DeltaError :=
  let? modules := try_fold remove_module (ds_modules set) (mc_remove (dl_modules delta)) in
  let? modules := try_fold add_module modules (mc_add (dl_modules delta)) in
  let? modules := try_fold update_module modules (mc_update (dl_modules delta)) in
  if is_nil (dl_shared delta) then Ok (mk_DeploymentSet modules (ds_shared set))
  else
    let? doc := map_err SharedFailed (patch (shared_to_value (ds_shared set)) (dl_shared delta)) in
    let? shared := map_err SharedFailed (shared_from_value doc) in
    Ok (mk_DeploymentSet modules shared).

Definition workload_delta (set : DeploymentSet) (id : string) (module : Module_) : Delta :=
  match bt_get id (ds_modules set) with
  | None => mk_Delta (mk_ModuleChanges (bt_insert id module []) [] []) []
  | Some old =>
      let ops := diff (module_to_value old) (module_to_value module) in
      mk_Delta (mk_ModuleChanges [] [] (bt_insert id ops [])) []
  end.

Definition diff_step (a : list (string * Module_))
    (acc : list (string * Module_) * list (string * list PatchOperation)) (kv : string * Module_) :=
  let '(add, update) := acc in
  let '(id, module) := kv in
  match bt_get id a with
  | None => (bt_insert id module add, update)
  | Some old =>
      if negb (module_eqb old module) then
        (add, bt_insert id (diff (module_to_value old) (module_to_value module)) update)
      else (add, update)
  end.

Definition diff_sets (a b : DeploymentSet) : Delta :=
  let remove := filter (λ id, bt_contains id (ds_modules b) = false) (bt_keys (ds_modules a)) in
  let '(add, update) := foldl (diff_step (ds_modules a)) ([], []) (ds_modules b) in
  let shared :=
    if negb (shared_eqb (ds_shared a) (ds_shared b)) then
      diff (shared_to_value (ds_shared a)) (shared_to_value (ds_shared b))
    else [] in
  mk_Delta (mk_ModuleChanges add remove update) shared.
End deltas.
