(* ===== verification/Graph.v ===== *)
(** * The resource graph ([crates/core/src/graph.rs])

    The graph of a deployment: nodes from the set, from references in matched
    definitions and from co-provisioning; its edges; and its provisioning order. The
    builder's state is a record that every operation takes and returns. A panic of the
    source is the error [Panic]; the loops take fuel and return [None] when it runs
    out. *)

From Stdlib Require Import Ascii.
From stdpp Require Import base sets strings list.
From S2P Require Import Prelude Strings OrdMap Regex Ids Float64 Json Canonical Model Criteria Template Placeholder Catalog Sets.

Local Open Scope string_scope.
Local Open Scope nat_scope.
Local Open Scope list_scope.

Record GraphInput := mk_GraphInput {
  gi_org : string;
  gi_app : string;
  gi_env : string;
  gi_env_type : string;
  gi_set : DeploymentSet;
  gi_definitions : list ResourceDefinition;
  gi_types : list ResourceType;
  gi_classes : ClassRegistry }.

Inductive GraphError :=
| UnknownType (path ty : string)
| InvalidId (path : string) (source : IdError)
| MissingClass (path ty class : string)
| GMatch (path : string) (source : MatchError)
| GPlaceholder (definition : string) (source : PlaceholderError)
| Conflict (descriptor : Descriptor) (first second : string)
| Cycle (cycle : list Descriptor).

(** Why a node is in the graph. *)
Record Request := mk_Request { rq_path : string; rq_params : option string }.
#[export] Instance Request_eq_dec : EqDecision Request.
Proof. solve_decision. Defined.
Definition request_key (r : Request) : string * option string := (rq_path r, rq_params r).
#[export] Instance ord_Request : Ord Request.
Proof. apply (ord_inj request_key). by intros [] [] [= -> ->]. Defined.

Record Node := mk_Node {
  n_descriptor : Descriptor;
  n_definition : string;
  n_driver_type : string;
  n_params : option Value;
  n_requests : list Request;
  n_depends_on : list Descriptor }.

Abbreviation Nodes := (list (Descriptor * Node)).

Record ResourceGraph := mk_ResourceGraph { g_nodes : Nodes; g_layers : list (list Descriptor) }.

Definition graph_edges (g : ResourceGraph) : list (Descriptor * Descriptor) :=
  mjoin ((λ n, (λ d, (n_descriptor n, d)) <$> n_depends_on n) <$> bt_values (g_nodes g)).
Definition graph_order (g : ResourceGraph) : list Descriptor := mjoin (g_layers g).

Record CoProvision := mk_CoProvision {
  co_source : Descriptor; co_co : Descriptor; co_match_dependents : bool }.
Definition co_key (c : CoProvision) : Descriptor * (Descriptor * bool) :=
  (co_source c, (co_co c, co_match_dependents c)).
#[export] Instance ord_CoProvision : Ord CoProvision.
Proof. apply (ord_inj co_key). by intros [] [] [= -> -> ->]. Defined.

Record Builder := mk_Builder {
  b_nodes : Nodes;
  b_explicit : list (Descriptor * (string * string));
  b_queue : list Descriptor;
  b_co : list CoProvision }.

Definition empty_builder : Builder := mk_Builder [] [] [] [].

Abbreviation graph_result A := (result A (fault GraphError)).

(** ** The builder *)

Section builder.
Context (input : GraphInput).

Definition resource_type (ty : string) : option ResourceType :=
  find (λ t, String.eqb (rt_id t) ty) (gi_types input).

Definition is_implicit (ty : string) : bool :=
  match resource_type ty with
  | Some t => bool_decide (rt_use t = Implicit)
  | None => false
  end.

Definition context_of (d : Descriptor) : ResourceContext :=
  mk_ResourceContext (gi_org input) (gi_app input) (gi_env input) (gi_env_type input) d.

Definition not_null (p : option Value) : option Value :=
  match p with Some v => if is_null v then None else Some v | None => None end.

(** The two paths of a conflict, sorted. *)
Definition sort_paths (a b : string) : string * string :=
  match cmp a b with Gt => (b, a) | _ => (a, b) end.

(** A request for a node that exists: its inputs must agree with earlier ones. *)
Definition request_existing (b : Builder) (d : Descriptor) (node : Node) (path : string)
    (params : option Value) : graph_result Builder :=
  let canonical := to_canonical_string <$> params in
  let add node explicit :=
    let node := mk_Node (n_descriptor node) (n_definition node) (n_driver_type node)
      (n_params node) (bs_insert (mk_Request path canonical) (n_requests node))
      (n_depends_on node) in
    mk_Builder (bt_insert d node (b_nodes b)) explicit (b_queue b) (b_co b) in
  match params, canonical with
  | Some p, Some c =>
      match bt_get d (b_explicit b) with
      | Some (first, existing) =>
          if negb (String.eqb existing c) then
            let '(first, second) := sort_paths first path in
            Err (Error (Conflict d first second))
          else Ok (add node (b_explicit b))
      | None =>
          let node := mk_Node (n_descriptor node) (n_definition node) (n_driver_type node)
            (not_null (Some p)) (n_requests node) (n_depends_on node) in
          Ok (add node (bt_insert d (path, c) (b_explicit b)))
      end
  | _, _ => Ok (add node (b_explicit b))
  end.

(** A request for a new node: its definition is selected and it is queued. *)
Definition request_new (b : Builder) (d : Descriptor) (path : string) (params : option Value)
    : graph_result Builder :=
  let canonical := to_canonical_string <$> params in
  let? def := returned (map_err (GMatch path)
    (select_definition (gi_definitions input) (context_of d))) in
  let explicit :=
    match canonical with
    | Some c => bt_insert d (path, c) (b_explicit b)
    | None => b_explicit b
    end in
  let node := mk_Node d (rd_id def) (rd_driver_type def) (not_null params)
    [mk_Request path canonical] [] in
  Ok (mk_Builder (bt_insert d node (b_nodes b)) explicit (b_queue b ++ [d]) (b_co b)).

Definition request (b : Builder) (d : Descriptor) (path : string) (params : option Value)
    : graph_result Builder :=
  if is_none (resource_type (d_ty d)) then Err (Error (UnknownType path (d_ty d)))
  else if negb (registry_contains (gi_classes input) (d_ty d) (d_class d)) then
    Err (Error (MissingClass path (d_ty d) (d_class d)))
  else
    match bt_get d (b_nodes b) with
    | Some node => request_existing b d node path params
    | None => request_new b d path params
    end.

(** Adds the edge and whether it was new. *)
Definition edge (b : Builder) (from to : Descriptor) : graph_result (Builder * bool) :=
  let? node := expect (bt_get from (b_nodes b)) in
  let node' := mk_Node (n_descriptor node) (n_definition node) (n_driver_type node)
    (n_params node) (n_requests node) (bs_insert to (n_depends_on node)) in
  Ok (mk_Builder (bt_insert from node' (b_nodes b)) (b_explicit b) (b_queue b) (b_co b),
      negb (bs_mem to (n_depends_on node))).

Definition add_edge (b : Builder) (from to : Descriptor) : graph_result Builder :=
  let? (b, _) := edge b from to in Ok b.

Definition resolve_ref (target : ResourceRef) (referrer : Descriptor) : Descriptor :=
  ResourceRef_resolve target referrer (is_implicit (rr_ty target)).

(** [definition `<id>` <loc> for `<d>`]. *)
Definition expand_path (def : ResourceDefinition) (d : Descriptor) (loc : string) : string :=
  "definition `" +:+ rd_id def +:+ "` " +:+ loc +:+ " for `" +:+ Descriptor_show d +:+ "`".

(** The placeholders of a definition's driver inputs and account. *)
Definition definition_placeholders (def : ResourceDefinition)
    : result (list Collected) PlaceholderError :=
  let? values := collect_placeholders DialectDefinition
    (Obj (di_values (rd_driver_inputs def))) "driver_inputs.values" in
  let? secrets := collect_placeholders DialectDefinition
    (Obj (di_secrets (rd_driver_inputs def))) "driver_inputs.secrets" in
  let? account :=
    match rd_driver_account def with
    | Some acct => collect_placeholders DialectDriverAccount (Str acct) "driver_account"
    | None => Ok []
    end in
  Ok (values ++ secrets ++ account).

(** One placeholder of the driver inputs. *)
Definition expand_input (def : ResourceDefinition) (d : Descriptor) (b : Builder) (c : Collected)
    : graph_result Builder :=
  let '(loc, _, expr) := c in
  match expr with
  | EResource target _ =>
      let to := resolve_ref target d in
      let? b := request b to (expand_path def d loc) None in
      add_edge b d to
  | _ => Ok b
  end.

(** One placeholder of a co-provisioned resource's params. *)
Definition expand_param (def : ResourceDefinition) (d co : Descriptor) (b : Builder)
    (c : Collected) : graph_result Builder :=
  let '(loc, _, expr) := c in
  match expr with
  | EResource target _ =>
      let to := resolve_ref target d in
      let? b := request b to (expand_path def d loc) None in
      if bool_decide (to = co) then Ok b else add_edge b co to
  | _ => Ok b
  end.

(** One co-provisioning entry. *)
Definition expand_provision (def : ResourceDefinition) (d : Descriptor) (b : Builder)
    (kv : string * Provision) : graph_result Builder :=
  let '(key, prov) := kv in
  let perr e := GPlaceholder (rd_id def) e in
  let loc := "provision." +:+ key in
  let? target := returned (map_err
    (λ e, perr (mk_PlaceholderError key loc (Syntax (id_error_show e)))) (ResourceRef_parse key)) in
  let co := resolve_ref target d in
  let params := option_default Null (p_params prov) in
  let? b := request b co (expand_path def d loc) (Some params) in
  let? b := if p_is_dependent prov then add_edge b d co else add_edge b co d in
  let? placeholders := returned (map_err perr
    (collect_placeholders DialectDefinition params (loc +:+ ".params"))) in
  let? b := try_fold (expand_param def d co) b placeholders in
  Ok (mk_Builder (b_nodes b) (b_explicit b) (b_queue b)
        (bs_insert (mk_CoProvision d co (p_match_dependents prov)) (b_co b))).

Definition find_definition (id : string) : option ResourceDefinition :=
  find (λ x, String.eqb (rd_id x) id) (gi_definitions input).

Definition expand (b : Builder) (d : Descriptor) : graph_result Builder :=
  let? node := expect (bt_get d (b_nodes b)) in
  let? def := expect (find_definition (n_definition node)) in
  let? found := returned (map_err (GPlaceholder (rd_id def)) (definition_placeholders def)) in
  let? b := try_fold (expand_input def d) b found in
  try_fold (expand_provision def d) b (rd_provision def).

(** [while let Some(d) = b.queue.pop_front()]. *)
Fixpoint expand_all (fuel : nat) (b : Builder) : option (graph_result Builder) :=
  match b_queue b with
  | [] => Some (Ok b)
  | d :: queue =>
      match fuel with
      | O => None
      | S fuel =>
          match expand (mk_Builder (b_nodes b) (b_explicit b) queue (b_co b)) d with
          | Ok b => expand_all fuel b
          | Err e => Some (Err e)
          end
      end
  end.

(** *** Co-provisioned resources that wait with their source *)

Definition consumers (b : Builder) (c : CoProvision) : list Descriptor :=
  n_descriptor <$> filter (λ n,
    bs_mem (co_source c) (n_depends_on n) = true
    ∧ n_descriptor n ≠ co_co c ∧ n_descriptor n ≠ co_source c) (bt_values (b_nodes b)).

Definition match_one (s : Builder * bool) (c : CoProvision) : graph_result (Builder * bool) :=
  try_fold (λ (s : Builder * bool) consumer,
    let? (b, new) := edge s.1 consumer (co_co c) in Ok (b, s.2 || new)) s (consumers s.1 c).

(** One round over the entries; whether an edge was added. *)
Definition match_round (b : Builder) : graph_result (Builder * bool) :=
  try_fold match_one (b, false) (filter (λ c, co_match_dependents c = true) (b_co b)).

Fixpoint match_dependents (fuel : nat) (b : Builder) : option (graph_result Builder) :=
  match fuel with
  | O => None
  | S fuel =>
      match match_round b with
      | Err e => Some (Err e)
      | Ok (b, true) => match_dependents fuel b
      | Ok (b, false) => Some (Ok b)
      end
  end.
End builder.

(** ** Ordering *)

Abbreviation Remaining := (list (Descriptor * list Descriptor)).

(** The loop of [find_cycle]: the path so far, the index of each node on it, and the
    last node. *)
Fixpoint find_cycle_loop (fuel : nat) (remaining : Remaining) (path : list Descriptor)
    (seen : list (Descriptor * nat)) (current : Descriptor)
    : option (graph_result (list Descriptor)) :=
  match fuel with
  | O => None
  | S fuel =>
      match bt_get current remaining with
      | None | Some [] => Some (Err Panic)
      | Some (next :: _) =>
          match bt_get next seen with
          | Some i => Some (Ok (drop i path ++ [next]))
          | None =>
              find_cycle_loop fuel remaining (path ++ [next])
                (bt_insert next (length path) seen) next
          end
      end
  end.

Definition find_cycle (remaining : Remaining) : option (graph_result (list Descriptor)) :=
  match bt_keys remaining with
  | [] => Some (Err Panic)
  | start :: _ =>
      find_cycle_loop (length remaining) remaining [start] (bt_insert start 0 []) start
  end.

Definition no_deps (e : Descriptor * list Descriptor) : Prop := e.2 = [].

Definition remove_ready (ready : list Descriptor) (remaining : Remaining) : Remaining :=
  (λ e, (e.1, foldl (λ deps d, bs_remove d deps) e.2 ready))
    <$> foldl (λ r d, bt_remove d r) remaining ready.

Fixpoint layers_loop (fuel : nat) (layers : list (list Descriptor)) (remaining : Remaining)
    : option (graph_result (list (list Descriptor))) :=
  match remaining with
  | [] => Some (Ok layers)
  | _ =>
      match fuel with
      | O => None
      | S fuel =>
          let ready := fst <$> filter no_deps remaining in
          match ready with
          | [] =>
              match find_cycle remaining with
              | Some (Ok c) => Some (Err (Error (Cycle c)))
              | Some (Err e) => Some (Err e)
              | None => None
              end
          | _ => layers_loop fuel (layers ++ [ready]) (remove_ready ready remaining)
          end
      end
  end.

Definition topological_layers (nodes : Nodes) : option (graph_result (list (list Descriptor))) :=
  layers_loop (length nodes) [] ((λ kn, (kn.1, n_depends_on kn.2)) <$> nodes).

(** ** Building the graph *)

Section build.
Context (input : GraphInput).

Definition base_env : Descriptor := mk_Descriptor "base-env" default_class "base-env".

Definition workload_descriptor (wid : string) (m : Module_) : Descriptor :=
  mk_Descriptor "workload" (m_class m) (ResId_workload wid).

Definition workload_params (wid : string) (m : Module_) : Value :=
  Obj [("id", Str wid); ("class", Str (m_class m)); ("spec", Obj (m_spec m))].

Definition external_res_id (wid key : string) (ext : External) : result string IdError :=
  match e_id ext with
  | Some id => ResId_shared id
  | None => ResId_private wid key
  end.

Definition build_external (wid : string) (w : Descriptor) (b : Builder) (kv : string * External)
    : graph_result Builder :=
  let '(key, ext) := kv in
  let path := "modules." +:+ wid +:+ ".externals." +:+ key in
  let? res_id := returned (map_err (InvalidId path) (external_res_id wid key ext)) in
  let dep := mk_Descriptor (e_ty ext) (e_class ext) res_id in
  let? b := request input b dep path (Some (option_default Null (e_params ext))) in
  add_edge b w dep.

Definition build_module (b : Builder) (kv : string * Module_) : graph_result Builder :=
  let '(wid, m) := kv in
  let w := workload_descriptor wid m in
  let? b := request input b w ("modules." +:+ wid) (Some (workload_params wid m)) in
  try_fold (build_external wid w) b (m_externals m).

Definition build_shared (b : Builder) (kv : string * SharedResource) : graph_result Builder :=
  let '(id, shared) := kv in
  let path := "shared." +:+ id in
  let? res_id := returned (map_err (InvalidId path) (ResId_shared id)) in
  let d := mk_Descriptor (s_ty shared) (s_class shared) res_id in
  request input b d path (Some (option_default Null (s_params shared))).

(** The dependency of a workload on a shared resource it reads. *)
Definition build_shared_read (w : Descriptor) (b : Builder) (c : Collected)
    : graph_result Builder :=
  match c.2 with
  | EShared id _ =>
      match bt_get id (ds_shared (gi_set input)) with
      | None => Ok b
      | Some shared =>
          match ResId_shared id with
          | Ok res_id => add_edge b w (mk_Descriptor (s_ty shared) (s_class shared) res_id)
          | Err _ => Ok b
          end
      end
  | _ => Ok b
  end.

Definition shared_reads (m : Module_) : list Collected :=
  match collect_placeholders DialectSet (Obj (m_spec m)) "spec" with
  | Ok found => found
  | Err _ => []
  end.

Definition build_module_reads (b : Builder) (kv : string * Module_) : graph_result Builder :=
  let '(wid, m) := kv in
  try_fold (build_shared_read (workload_descriptor wid m)) b (shared_reads m).

(** Everything before the definitions are expanded. *)
Definition build_roots : graph_result Builder :=
  let? b := request input empty_builder base_env "base-env" None in
  let? b := try_fold build_module b (ds_modules (gi_set input)) in
  let? b := try_fold build_shared b (ds_shared (gi_set input)) in
  try_fold build_module_reads b (ds_modules (gi_set input)).

(** [build_graph], for the fuel of the expansion loop. *)
Definition build_graph (fuel : nat) : option (graph_result ResourceGraph) :=
  match build_roots with
  | Err e => Some (Err e)
  | Ok b =>
      match expand_all input fuel b with
      | None => None
      | Some (Err e) => Some (Err e)
      | Some (Ok b) =>
          match match_dependents (S (length (b_nodes b) * length (b_nodes b))) b with
          | None => None
          | Some (Err e) => Some (Err e)
          | Some (Ok b) =>
              match topological_layers (b_nodes b) with
              | None => None
              | Some (Err e) => Some (Err e)
              | Some (Ok layers) => Some (Ok (mk_ResourceGraph (b_nodes b) layers))
              end
          end
      end
  end.
End build.
