(* ===== verification/GraphOrder.v ===== *)
(** * The provisioning order ([topological_layers] and [find_cycle] of
    [crates/core/src/graph.rs])

    Layers place every node after its dependencies and as early as possible, and exist
    exactly when the graph has no cycle; otherwise the reported cycle is one. *)

From Stdlib Require Import Ascii.
From stdpp Require Import base sets strings relations list.
From S2P Require Import Prelude Strings OrdMap Regex Ids Float64 Json Canonical Model Criteria Template Placeholder Catalog Sets Graph.

Local Open Scope string_scope.
Local Open Scope nat_scope.
Local Open Scope list_scope.

(** ** Chains and cycles *)

Section chains.
Context {A : Type} (dep : A → A → Prop).

(** Each element depends on the next. *)
Fixpoint chain (l : list A) : Prop :=
  match l with
  | a :: ((b :: _) as l') => dep a b ∧ chain l'
  | _ => True
  end.

Lemma chain_drop i l : chain l → chain (drop i l).
Proof.
  revert l. induction i as [|i IH]; intros l H; [by rewrite drop_0|].
  destruct l as [|a [|b l]]; [done|by destruct i|]. destruct H as [_ H]. by apply (IH (b :: l)).
Qed.

Lemma chain_snoc l a b : chain (l ++ [a]) → dep a b → chain (l ++ [a; b]).
Proof.
  induction l as [|x [|y l] IH]; intros H Hab; [done|..].
  - by destruct H as [? _].
  - destruct H as [Hxy H]. split; [done|]. by apply IH.
Qed.

Lemma tc_impl {B} (R S : B → B → Prop) x y : (∀ a b, R a b → S a b) → tc R x y → tc S x y.
Proof. intros HRS. induction 1; [by apply tc_once, HRS|eapply tc_l; eauto]. Qed.

(** A cycle is a chain that returns to its start. *)
Definition is_cycle (c : list A) : Prop := ∃ x l, c = x :: l ++ [x] ∧ chain c.

Lemma chain_tc x l y : chain (x :: l ++ [y]) → tc dep x y.
Proof.
  revert x. induction l as [|z l IH]; intros x H.
  - destruct H as [H _]. by apply tc_once.
  - destruct H as [H1 H2]. eapply tc_l; [exact H1|]. by apply IH.
Qed.

Lemma cycle_tc c : is_cycle c → ∃ x, tc dep x x.
Proof. intros (x & l & -> & H). exists x. by eapply chain_tc. Qed.
End chains.

(** ** The loops on an abstract map of dependencies *)

Lemma bt_remove_filter {K V} `{Ord K, EqDecision K} (k : K) (m : list (K * V)) :
  bt_remove k m = filter (λ e, e.1 ≠ k) m.
Proof.
  induction m as [|[j v] m IH]; [done|]. simpl. rewrite filter_cons. simpl.
  destruct (cmp k j) eqn:E.
  - apply cmp_eq_iff in E as ->. by rewrite decide_False by naive_solver.
  - rewrite decide_True by (intros ->; by rewrite cmp_refl in E). by rewrite IH.
  - rewrite decide_True by (intros ->; by rewrite cmp_refl in E). by rewrite IH.
Qed.

Lemma bs_remove_filter {K} `{Ord K, EqDecision K} (k : K) (s : list K) :
  bs_remove k s = filter (λ e, e ≠ k) s.
Proof.
  induction s as [|j s IH]; [done|]. simpl. rewrite filter_cons.
  destruct (cmp k j) eqn:E.
  - apply cmp_eq_iff in E as ->. by rewrite decide_False by naive_solver.
  - rewrite decide_True by (intros ->; by rewrite cmp_refl in E). by rewrite IH.
  - rewrite decide_True by (intros ->; by rewrite cmp_refl in E). by rewrite IH.
Qed.

(** Removing several keys in turn filters them out. *)
Lemma foldl_filter {A B} `{EqDecision A} (f : B → A) (l : list B) (ready : list A) :
  foldl (λ r d, filter (λ e, f e ≠ d) r) l ready = filter (λ e, f e ∉ ready) l.
Proof.
  revert l. induction ready as [|d ready IH]; intros l; simpl.
  - symmetry. apply filter_all. intros. apply not_elem_of_nil.
  - rewrite IH, list_filter_filter. apply list_filter_iff. intros x.
    rewrite not_elem_of_cons. tauto.
Qed.

Lemma remove_ready_filter ready r :
  remove_ready ready r
  = (λ e, (e.1, filter (λ d, d ∉ ready) e.2)) <$> filter (λ e, e.1 ∉ ready) r.
Proof.
  unfold remove_ready. rewrite <-(foldl_filter fst).
  replace (foldl (λ r d, bt_remove d r) r ready)
    with (foldl (λ r d, filter (λ e : Descriptor * list Descriptor, e.1 ≠ d) r) r ready).
  2: { clear. revert r. induction ready as [|d l IH]; intros r; simpl; [done|].
       by rewrite IH, bt_remove_filter. }
  apply list_fmap_ext. intros _ e _. f_equal. rewrite <-(foldl_filter id).
  generalize (e.2). clear. induction ready as [|d l IH]; intros r; simpl; [done|].
  by rewrite IH, bs_remove_filter.
Qed.

Section order.
Context (R0 : Remaining) (HR0 : NoDup (R0.*1)).

Definition dep (a b : Descriptor) : Prop := ∃ ds, (a, ds) ∈ R0 ∧ b ∈ ds.
Context (Hclosed : ∀ a b, dep a b → b ∈ R0.*1).

(** What is left once the nodes of [P] are placed. *)
Definition rem (P : list Descriptor) : Remaining :=
  (λ e, (e.1, filter (λ d, d ∉ P) e.2)) <$> filter (λ e, e.1 ∉ P) R0.

Lemma rem_nil : rem [] = R0.
Proof.
  unfold rem. rewrite filter_all by (intros; apply not_elem_of_nil).
  rewrite <-(list_fmap_id R0) at 2. apply list_fmap_ext. intros _ [k ds] _. simpl. f_equal.
  apply filter_all. intros; apply not_elem_of_nil.
Qed.

Lemma elem_of_rem P d ds :
  (d, ds) ∈ rem P ↔ ∃ ds0, (d, ds0) ∈ R0 ∧ d ∉ P ∧ ds = filter (λ x, x ∉ P) ds0.
Proof.
  unfold rem. rewrite list_elem_of_fmap. split.
  - intros ([k ds0] & [= -> ->] & [Hk Hin]%list_elem_of_filter). by exists ds0.
  - intros (ds0 & Hin & Hd & ->). exists (d, ds0). split; [done|]. by apply list_elem_of_filter.
Qed.

Lemma elem_of_rem_keys P d : d ∈ (rem P).*1 ↔ d ∈ R0.*1 ∧ d ∉ P.
Proof.
  rewrite !list_elem_of_fmap. split.
  - intros ([k ds] & -> & Hin). apply elem_of_rem in Hin as (ds0 & Hin & Hd & _).
    split; [by exists (k, ds0)|done].
  - intros [([k ds] & -> & Hin) Hd]. exists (k, filter (λ x, x ∉ P) ds).
    split; [done|]. apply elem_of_rem. by exists ds.
Qed.

Lemma remove_ready_rem P ready : remove_ready ready (rem P) = rem (P ++ ready).
Proof.
  rewrite remove_ready_filter. unfold rem. rewrite filter_fmap, <-list_fmap_compose.
  rewrite list_filter_filter. erewrite (list_filter_iff _ (λ e, e.1 ∉ P ++ ready)).
  2: { intros e. simpl. rewrite not_elem_of_app. tauto. }
  apply list_fmap_ext. intros _ [k ds] _. simpl. f_equal. rewrite list_filter_filter.
  apply list_filter_iff. intros x. rewrite not_elem_of_app. tauto.
Qed.

Lemma dep_unique d ds b : (d, ds) ∈ R0 → dep d b ↔ b ∈ ds.
Proof.
  intros Hin. split; [|by exists ds].
  intros (ds' & Hin' & Hb). assert (ds = ds') as ->; [|done].
  apply list_elem_of_lookup in Hin as [i Hi], Hin' as [j Hj].
  assert (i = j); [|congruence]. eapply (NoDup_lookup _ i j d HR0); rewrite list_lookup_fmap;
    [by rewrite Hi|by rewrite Hj].
Qed.

(** *** Finding a cycle *)

Section cycle.
Context (R : Remaining).
Context (Hkeys : NoDup R.*1).
Context (Hnext : ∀ d ds, (d, ds) ∈ R → ds ≠ [] ∧ ∀ x, x ∈ ds → dep d x ∧ x ∈ R.*1).

Lemma bt_get_key_Some d : d ∈ R.*1 → ∃ ds, bt_get d R = Some ds ∧ (d, ds) ∈ R.
Proof.
  intros Hd. apply bt_get_keys in Hd as [ds Hds]. exists ds. split; [done|]. by apply bt_get_elem.
Qed.

Lemma find_cycle_loop_spec fuel path seen current :
  length R < fuel + length (path ++ [current]) →
  NoDup (path ++ [current]) → (∀ x, x ∈ path ++ [current] → x ∈ R.*1) →
  chain dep (path ++ [current]) →
  (∀ x i, bt_get x seen = Some i ↔ (path ++ [current]) !! i = Some x) →
  ∃ c, find_cycle_loop fuel R (path ++ [current]) seen current = Some (Ok c) ∧ is_cycle dep c.
Proof.
  revert path seen current. induction fuel as [|fuel IH]; intros path seen current Hf Hnd Hin Hch Hs.
  { exfalso. assert (length (path ++ [current]) ≤ length R.*1); [|rewrite length_fmap in *; lia].
    apply submseteq_length, NoDup_submseteq; done. }
  cbn [find_cycle_loop]. destruct (bt_get_key_Some current) as (ds & -> & Hds).
  { apply Hin, elem_of_app. right. by left. }
  apply Hnext in Hds as [Hne Hds]. destruct ds as [|next ds]; [done|].
  destruct (Hds next) as [Hdep Hkey]; [by left|].
  assert (chain dep ((path ++ [current]) ++ [next])) as Hch'.
  { rewrite <-app_assoc. by apply chain_snoc. }
  destruct (bt_get next seen) as [i|] eqn:Es.
  - eexists. split; [done|]. apply Hs in Es.
    exists next, (drop (S i) (path ++ [current])). split.
    + by rewrite (drop_S _ next).
    + apply (chain_drop _ i) in Hch'. rewrite drop_app_le in Hch'; [done|].
      apply lookup_lt_Some in Es. lia.
  - assert (next ∉ path ++ [current]) as Hfresh.
    { intros [i Hi]%list_elem_of_lookup. apply Hs in Hi. congruence. }
    apply IH; [rewrite !length_app in *; simpl in *; lia| | |done|].
    + apply NoDup_app. split; [done|]. split; [|apply NoDup_singleton].
      intros x Hx ->%list_elem_of_singleton. done.
    + intros x [Hx| ->%list_elem_of_singleton]%elem_of_app; [by apply Hin|done].
    + intros x i. rewrite bt_get_insert. destruct (cmp x next) eqn:E.
      * apply cmp_eq_iff in E as ->. split.
        -- intros [= <-]. by rewrite list_lookup_middle.
        -- intros Hi. f_equal. apply lookup_app_Some in Hi as [Hi|[Hi Hl]].
           { by apply list_elem_of_lookup_2 in Hi. }
           apply lookup_lt_Some in Hl. simpl in Hl. lia.
      * rewrite Hs. assert (x ≠ next) by (intros ->; by rewrite cmp_refl in E). split.
        -- intros Hi. by apply lookup_app_l_Some.
        -- intros [Hi|[Hi Hl]]%lookup_app_Some; [done|]. by apply list_lookup_singleton_Some in Hl as [_ ?].
      * rewrite Hs. assert (x ≠ next) by (intros ->; by rewrite cmp_refl in E). split.
        -- intros Hi. by apply lookup_app_l_Some.
        -- intros [Hi|[Hi Hl]]%lookup_app_Some; [done|]. by apply list_lookup_singleton_Some in Hl as [_ ?].
Qed.

Lemma find_cycle_spec : R ≠ [] → ∃ c, find_cycle R = Some (Ok c) ∧ is_cycle dep c.
Proof.
  intros Hne. assert (∃ start l, R.*1 = start :: l) as (start & l & E).
  { clear -Hne. destruct R as [|[start ds] l]; [done|]. by exists start, l.*1. }
  unfold find_cycle, bt_keys. rewrite E. apply (find_cycle_loop_spec _ []); rewrite ?app_nil_l.
  - simpl. lia.
  - apply NoDup_singleton.
  - intros x ->%list_elem_of_singleton. rewrite E. by left.
  - done.
  - intros x i. rewrite list_lookup_singleton_Some. cbn [bt_insert bt_get].
    destruct (cmp x start) eqn:Ec.
    + apply cmp_eq_iff in Ec as ->. split; [by intros [= <-]|by intros [-> _]].
    + split; [done|]. intros [_ <-]. by rewrite cmp_refl in Ec.
    + split; [done|]. intros [_ <-]. by rewrite cmp_refl in Ec.
Qed.
End cycle.

(** *** Layers *)

(** The layers so far hold distinct nodes, and the nodes placed up to a layer are those
    whose dependencies are all placed before it. *)
Definition layered (layers : list (list Descriptor)) : Prop :=
  NoDup (mjoin layers)
  ∧ ∀ i d, i < length layers →
      d ∈ mjoin (take (S i) layers) ↔
      d ∈ R0.*1 ∧ ∀ x, dep d x → x ∈ mjoin (take i layers).

Lemma elem_of_ready P d :
  d ∈ fst <$> filter no_deps (rem P) ↔ d ∈ R0.*1 ∧ d ∉ P ∧ ∀ x, dep d x → x ∈ P.
Proof.
  rewrite list_elem_of_fmap. split.
  - intros ([k ds] & -> & [Hnd Hin]%list_elem_of_filter). unfold no_deps in Hnd. simpl in *. subst.
    apply elem_of_rem in Hin as (ds0 & Hin & Hk & Hf). split_and!; [|done|].
    + apply list_elem_of_fmap. by exists (k, ds0).
    + intros x Hx%(dep_unique _ _ _ Hin). destruct (decide (x ∈ P)) as [|HP]; [done|].
      assert (x ∈ filter (λ x, x ∉ P) ds0) as Hx' by (by apply list_elem_of_filter).
      rewrite <-Hf in Hx'. by apply not_elem_of_nil in Hx'.
  - intros (([k ds] & -> & Hin)%list_elem_of_fmap & Hk & Hdep). exists (k, filter (λ x, x ∉ P) ds).
    split; [done|]. apply list_elem_of_filter. split.
    + unfold no_deps. simpl. destruct (filter _ ds) as [|x l] eqn:E; [done|].
      assert (x ∈ filter (λ x, x ∉ P) ds) as [HP Hx]%list_elem_of_filter by (rewrite E; by left).
      destruct HP. apply Hdep. simpl. by apply (dep_unique _ _ _ Hin).
    + apply elem_of_rem. by exists ds.
Qed.

Lemma layered_placed layers d :
  layered layers → d ∈ mjoin layers → d ∈ R0.*1 ∧ ∀ x, dep d x → x ∈ mjoin layers.
Proof.
  intros [_ Hl] Hd. destruct layers as [|l layers] using rev_ind; [by apply not_elem_of_nil in Hd|].
  rewrite <-(take_ge (layers ++ [l]) (S (length layers))) in Hd by (rewrite length_app; simpl; lia).
  apply Hl in Hd as [Hk Hdep]; [|rewrite length_app; simpl; lia]. split; [done|].
  intros x Hx%Hdep. rewrite take_app_length in Hx. rewrite join_app, elem_of_app. by left.
Qed.

Lemma rem_NoDup P : NoDup (rem P).*1.
Proof. unfold rem. rewrite <-list_fmap_compose. by apply NoDup_fmap_filter. Qed.

Lemma rem_empty P d : rem P = [] → d ∈ R0.*1 → d ∈ P.
Proof.
  intros E Hd. destruct (decide (d ∈ P)) as [|Hn]; [done|].
  assert (d ∈ (rem P).*1) as Hr by (by apply elem_of_rem_keys).
  rewrite E in Hr. by apply not_elem_of_nil in Hr.
Qed.

(** With no node ready, every node left has a dependency that is left. *)
Lemma rem_stuck P d ds :
  fst <$> filter no_deps (rem P) = [] → (d, ds) ∈ rem P →
  ds ≠ [] ∧ ∀ x, x ∈ ds → dep d x ∧ x ∈ (rem P).*1.
Proof.
  intros Hr Hin. split.
  - intros ->. assert (d ∈ fst <$> filter no_deps (rem P)) as Hd.
    { apply list_elem_of_fmap. exists (d, []). split; [done|]. by apply list_elem_of_filter. }
    rewrite Hr in Hd. by apply not_elem_of_nil in Hd.
  - intros x Hx. apply elem_of_rem in Hin as (ds0 & Hin & Hd & ->).
    apply list_elem_of_filter in Hx as [HxP Hx].
    assert (dep d x) as Hdep by (by exists ds0). split; [done|].
    apply elem_of_rem_keys. split; [by eapply Hclosed|done].
Qed.

Lemma layered_step layers :
  layered layers →
  layered (layers ++ [fst <$> filter no_deps (rem (mjoin layers))]).
Proof.
  intros Hlay. pose proof Hlay as [Hnd Hl]. split.
  - rewrite join_app. simpl. rewrite app_nil_r. apply NoDup_app. split; [done|]. split.
    + intros d Hd (_ & Hd' & _)%elem_of_ready. done.
    + apply NoDup_fmap_filter, rem_NoDup.
  - intros i d Hi. rewrite length_app in Hi. simpl in Hi.
    destruct (decide (i < length layers)) as [Hlt|Hge].
    + rewrite !take_app_le by lia. by apply Hl.
    + assert (i = length layers) as -> by lia. rewrite take_app_length.
      rewrite take_ge by (rewrite length_app; simpl; lia).
      rewrite join_app, elem_of_app. simpl. rewrite app_nil_r, elem_of_ready. split.
      * intros [Hd|(? & ? & ?)]; [by apply layered_placed|done].
      * intros [Hk Hdep]. destruct (decide (d ∈ mjoin layers)); [by left|by right].
Qed.

Lemma layered_nil : layered [].
Proof. split; [constructor|]. intros i d Hi. simpl in Hi. lia. Qed.

Lemma rem_decreases P : 
  (fst <$> filter no_deps (rem P)) ≠ [] →
  length (rem (P ++ (fst <$> filter no_deps (rem P)))) < length (rem P).
Proof.
  intros Hne. rewrite <-remove_ready_rem, remove_ready_filter, length_fmap.
  destruct (filter no_deps (rem P)) as [|e l] eqn:E; [done|].
  assert (e ∈ rem P) as He.
  { apply (list_elem_of_filter no_deps). rewrite E. by left. }
  apply (length_filter_lt _ _ e); [done|]. intros H. apply H. csimpl. by left.
Qed.

Lemma layers_loop_spec fuel layers :
  layered layers → length (rem (mjoin layers)) ≤ fuel →
  match layers_loop fuel layers (rem (mjoin layers)) with
  | Some (Ok ls) => layered ls ∧ ∀ d, d ∈ R0.*1 → d ∈ mjoin ls
  | Some (Err (Error (Cycle c))) => is_cycle dep c
  | _ => False
  end.
Proof.
  revert layers. induction fuel as [|fuel IH]; intros layers Hl Hf.
  - destruct (rem (mjoin layers)) as [|e l] eqn:E; [|simpl in Hf; lia].
    split; [done|]. intros d. by apply rem_empty.
  - destruct (decide (rem (mjoin layers) = [])) as [E|E].
    { rewrite E. split; [done|]. intros d. by apply rem_empty. }
    assert (∀ r, r ≠ [] → layers_loop (S fuel) layers r
      = match fst <$> filter no_deps r with
        | [] => match find_cycle r with
                | Some (Ok c) => Some (Err (Error (Cycle c)))
                | Some (Err e) => Some (Err e)
                | None => None
                end
        | _ => let ready := fst <$> filter no_deps r in
            layers_loop fuel (layers ++ [ready]) (remove_ready ready r)
        end) as -> by (by intros [|? ?] ?); [|done].
    destruct (fst <$> filter no_deps (rem (mjoin layers))) as [|x ready] eqn:Er.
    + destruct (find_cycle_spec (rem (mjoin layers))) as (c & -> & Hc); try done.
      intros d ds Hin. by apply rem_stuck.
    + cbv zeta. rewrite <-Er. replace (remove_ready _ _)
        with (rem (mjoin (layers ++ [fst <$> filter no_deps (rem (mjoin layers))]))).
      2: { rewrite join_app. simpl. by rewrite app_nil_r, remove_ready_rem. }
      apply IH; [by apply layered_step|]. rewrite join_app. simpl. rewrite app_nil_r.
      assert (length (rem (mjoin layers ++ (fst <$> filter no_deps (rem (mjoin layers)))))
        < length (rem (mjoin layers))); [|lia].
      apply rem_decreases. by rewrite Er.
Qed.

Lemma elem_of_mjoin_take i j (d : Descriptor) (layers : list (list Descriptor)) :
  i ≤ j → d ∈ mjoin (take i layers) → d ∈ mjoin (take j layers).
Proof.
  intros Hij Hd. rewrite <-(take_drop i (take j layers)), take_take, Nat.min_l by done.
  rewrite join_app, elem_of_app. by left.
Qed.

(** Layers rule cycles out. *)
Lemma layered_tc layers a b i :
  layered layers → tc dep a b → i < length layers →
  a ∈ mjoin (take (S i) layers) → b ∈ mjoin (take i layers).
Proof.
  intros [_ Hl] Htc. revert i. induction Htc as [a b Hab|a b c Hab _ IH]; intros i Hi Ha.
  - apply Hl in Ha as [_ Ha]; [|done]. by apply Ha.
  - apply Hl in Ha as [_ Ha]; [|done]. apply Ha in Hab.
    destruct i as [|i]; [by apply not_elem_of_nil in Hab|].
    apply IH in Hab; [|lia]. apply (elem_of_mjoin_take i); [lia|done].
Qed.

Lemma layered_acyclic layers :
  layered layers → (∀ d, d ∈ R0.*1 → d ∈ mjoin layers) → ∀ d, ¬ tc dep d d.
Proof.
  intros Hl Hall d Htc.
  assert (∀ i, i ≤ length layers → d ∉ mjoin (take i layers)) as Hno.
  { induction i as [|i IH]; intros Hi Hd; [by apply not_elem_of_nil in Hd|].
    apply (layered_tc _ _ _ _ Hl Htc) in Hd; [|lia]. apply IH in Hd; [done|lia]. }
  apply (Hno (length layers)); [done|]. rewrite firstn_all. apply Hall.
  assert (∃ x, dep d x) as (x & ds & Hin & _) by (inversion Htc; eauto).
  apply list_elem_of_fmap. by exists (d, ds).
Qed.
End order.

(** ** Nodes *)

(** [a] depends on [b] in the graph. *)
Definition depends (nodes : Nodes) (a b : Descriptor) : Prop :=
  ∃ n, bt_get a nodes = Some n ∧ b ∈ n_depends_on n.

(** Every dependency is a node. *)
Definition nodes_closed (nodes : Nodes) : Prop :=
  ∀ a b, depends nodes a b → b ∈ bt_keys nodes.

Definition acyclic (nodes : Nodes) : Prop := ∀ d, ¬ tc (depends nodes) d d.

Definition order_map (nodes : Nodes) : Remaining := (λ kn, (kn.1, n_depends_on kn.2)) <$> nodes.

Lemma order_map_keys nodes : (order_map nodes).*1 = bt_keys nodes.
Proof. unfold order_map. by rewrite <-list_fmap_compose. Qed.

Lemma dep_order_map nodes a b :
  bt_wf nodes → dep (order_map nodes) a b ↔ depends nodes a b.
Proof.
  intros Hwf. unfold dep, depends, order_map. split.
  - intros (ds & ([k n] & [= -> ->] & Hin)%list_elem_of_fmap & Hb). exists n.
    split; [by apply bt_elem_get|done].
  - intros (n & Hn & Hb). exists (n_depends_on n). split; [|done].
    apply list_elem_of_fmap. exists (a, n). split; [done|]. by apply bt_get_elem.
Qed.

Lemma chain_iff {A} (R S : A → A → Prop) l : (∀ x y, R x y ↔ S x y) → chain R l ↔ chain S l.
Proof.
  intros HRS. induction l as [|x [|y l] IH]; [done|done|].
  change (R x y ∧ chain R (y :: l) ↔ S x y ∧ chain S (y :: l)). by rewrite HRS, IH.
Qed.

Lemma topological_layers_cases nodes :
  bt_wf nodes → nodes_closed nodes →
  match topological_layers nodes with
  | Some (Ok layers) => layered (order_map nodes) layers
      ∧ ∀ d, d ∈ bt_keys nodes → d ∈ mjoin layers
  | Some (Err (Error (Cycle c))) => is_cycle (depends nodes) c
  | _ => False
  end.
Proof.
  intros Hwf Hcl. pose proof (layers_loop_spec (order_map nodes)) as H.
  rewrite order_map_keys in H. specialize (H (bt_wf_NoDup _ Hwf)).
  specialize (H (λ a b Hab, Hcl a b (proj1 (dep_order_map nodes a b Hwf) Hab)) (length nodes) []).
  rewrite rem_nil in H. unfold topological_layers. fold (order_map nodes).
  destruct (layers_loop _ _ _) as [[ls|[[]|]]|]; try apply H; try apply layered_nil;
    try (unfold order_map; by rewrite length_fmap).
  destruct H as (x & l & -> & Hc); [apply layered_nil|unfold order_map; by rewrite length_fmap|].
  exists x, l. split; [done|]. eapply chain_iff; [|exact Hc]. intros a b. by rewrite dep_order_map.
Qed.

(** The layers of a closed graph. *)
Lemma layers_spec nodes layers :
  bt_wf nodes → nodes_closed nodes → topological_layers nodes = Some (Ok layers) →
  acyclic nodes ∧ mjoin layers ≡ₚ bt_keys nodes
  ∧ ∀ i d, i < length layers →
      d ∈ mjoin (take (S i) layers) ↔
      d ∈ bt_keys nodes ∧ ∀ x, depends nodes d x → x ∈ mjoin (take i layers).
Proof.
  intros Hwf Hcl Ht. pose proof (topological_layers_cases nodes Hwf Hcl) as H. rewrite Ht in H.
  assert (∀ a b, dep (order_map nodes) a b ↔ depends nodes a b) as Hdep
    by (intros; by apply dep_order_map).
  destruct H as [Hl Hall]. pose proof Hl as [Hnd Hiff]. rewrite order_map_keys in *. split_and!.
  - intros d Htc. apply (layered_acyclic (order_map nodes) layers Hl) with (d := d).
    { by rewrite order_map_keys. }
    eapply tc_impl; [|exact Htc]. intros a b. apply Hdep.
  - apply NoDup_Permutation; [done|by apply bt_wf_NoDup|]. intros d. split; [|apply Hall].
    intros Hd. apply (layered_placed (order_map nodes)) in Hd as [Hd _]; [|done].
    by rewrite order_map_keys in Hd.
  - intros i d Hi. rewrite Hiff by done. by setoid_rewrite Hdep.
Qed.

(** provisioning layers exist exactly when the graph has no dependency cycle. For
    closed nodes, [topological_layers] never panics or loops: it returns layers that
    hold every node exactly once, the nodes of the first [i + 1] layers being those
    whose dependencies are all in the first [i] (so dependencies come strictly earlier
    and every node as early as it can), and then the graph is acyclic; or it reports a
    cycle that is a chain of dependencies of the graph back to its start. *)
Theorem topological_layers_correct (nodes : Nodes) :
  bt_wf nodes → nodes_closed nodes →
  match topological_layers nodes with
  | Some (Ok layers) =>
      acyclic nodes ∧ mjoin layers ≡ₚ bt_keys nodes
      ∧ ∀ i d, i < length layers →
          d ∈ mjoin (take (S i) layers) ↔
          d ∈ bt_keys nodes ∧ ∀ x, depends nodes d x → x ∈ mjoin (take i layers)
  | Some (Err (Error (Cycle c))) => is_cycle (depends nodes) c ∧ ¬ acyclic nodes
  | _ => False
  end.
Proof.
  intros Hwf Hcl. pose proof (topological_layers_cases nodes Hwf Hcl) as H.
  pose proof (layers_spec nodes) as Hspec.
  destruct (topological_layers nodes) as [[ls|[[]|]]|]; try done.
  - by apply Hspec.
  - split; [done|]. intros Hac. apply cycle_tc in H as [x Hx]. by apply (Hac x).
Qed.

(** A node that depends on the given ones. *)
Definition test_node (d : Descriptor) (deps : list Descriptor) : Descriptor * Node :=
  (d, mk_Node d "def" "openporch/echo" None [] deps).
Definition test_a : Descriptor := mk_Descriptor "dns" "default" "a".
Definition test_b : Descriptor := mk_Descriptor "dns" "default" "b".

Lemma topological_layers_correct_witness :
  topological_layers [test_node test_a [test_b]; test_node test_b []] = Some (Ok [[test_b]; [test_a]])
  ∧ acyclic [test_node test_a [test_b]; test_node test_b []].
Proof.
  split; [reflexivity|].
  refine (proj1 (topological_layers_correct [test_node test_a [test_b]; test_node test_b []] _ _)).
  - repeat constructor.
  - intros a b (n & Hn & Hb). apply bt_get_elem in Hn.
    apply elem_of_cons in Hn as [[= -> ->]|Hn]; [apply list_elem_of_singleton in Hb as ->; by right; left|].
    apply list_elem_of_singleton in Hn as [= -> ->]. by apply not_elem_of_nil in Hb.
Defined.
