(* ===== verification/GraphBuild.v ===== *)
(** * Building the resource graph: invariants ([crates/core/src/graph.rs])

    The builder never panics and always finishes; the graph it returns is closed, holds
    the nodes the requests ask for with the definitions that match them, and has the
    edges that references, co-provisioning and [match_dependents] call for. *)

From Stdlib Require Import Ascii.
From stdpp Require Import base sets strings relations list.
From S2P Require Import Prelude Strings OrdMap Regex Ids Float64 Json Canonical Model Criteria Template Placeholder Catalog Sets Graph GraphOrder.

Local Open Scope string_scope.
Local Open Scope nat_scope.
Local Open Scope list_scope.

(** ** What a value reads *)

(** A text of a value. *)
Inductive text_in : Value → string → Prop :=
| text_here s : text_in (Str s) s
| text_item l v s : v ∈ l → text_in v s → text_in (Arr l) s
| text_entry m k v s : (k, v) ∈ m → text_in v s → text_in (Obj m) s.

(** Every text of the value is a template with placeholders of the dialect. *)
Definition readable (dialect : Dialect) (v : Value) : Prop :=
  ∀ s, text_in v s → ∃ t, template_parse s = Ok t
    ∧ ∀ p, p ∈ template_placeholders t → is_ok (interpret p dialect) = true.

(** A text of the value has a placeholder that reads [e]. *)
Definition refers (dialect : Dialect) (v : Value) (e : Expr) : Prop :=
  ∃ s t p, text_in v s ∧ template_parse s = Ok t ∧ p ∈ template_placeholders t ∧ interpret p dialect = Ok e.

(** What was collected of a value. *)
Definition collects (dialect : Dialect) (v : Value) (r : result (list Collected) PlaceholderError) : Prop :=
  match r with
  | Ok cs => readable dialect v ∧ ∀ e, refers dialect v e ↔ e ∈ cs.*2
  | Err _ => ¬ readable dialect v
  end.

(** What was collected of the parts of a value. *)
Lemma collect_parts {A X} (f : A → result (list Collected) X) (ok : A → Prop) (has : A → Expr → Prop) l :
  (∀ x, x ∈ l → match f x with Ok cs => ok x ∧ ∀ e, has x e ↔ e ∈ cs.*2 | Err _ => ¬ ok x end) →
  match result_map (@concat _) (try_map f l) with
  | Ok cs => (∀ x, x ∈ l → ok x) ∧ ∀ e, (∃ x, x ∈ l ∧ has x e) ↔ e ∈ cs.*2
  | Err _ => ∃ x, x ∈ l ∧ ¬ ok x
  end.
Proof.
  induction l as [|x l IH]; intros Hl; simpl; [set_solver|].
  assert (x ∈ x :: l) as Hin by left. specialize (Hl x Hin) as Hx.
  destruct (f x) as [cs|]; simpl in *; [|exists x; set_solver]. destruct Hx as [Hx1 Hx2].
  destruct (try_map f l) as [css|]; simpl in *; [|destruct IH as (y & ? & ?); [set_solver|exists y; set_solver]].
  destruct IH as [H1 H2]; [set_solver|]. split; [intros y [->|?]%elem_of_cons; auto|].
  intros e. rewrite fmap_app, elem_of_app, <- Hx2, <- H2. setoid_rewrite elem_of_cons. naive_solver.
Qed.

Lemma collects_text dialect s location : collects dialect (Str s) (collect_placeholders dialect (Str s) location).
Proof.
  rewrite collect_Str. assert (∀ x, text_in (Str s) x ↔ x = s) as Hx by (intros x; split; [by inversion 1|intros ->; constructor]).
  destruct (template_parse s) as [t|] eqn:Et; simpl.
  2: { intros Hr. destruct (Hr s) as (t & Ht & _); [by apply Hx|congruence]. }
  pose proof (collect_parts (λ p, result_map (λ c, [c]) (collect_one dialect location p))
    (λ p, is_ok (interpret p dialect) = true) (λ p e, interpret p dialect = Ok e) (template_placeholders t)) as Hp.
  assert (result_map (@concat _) (try_map (λ p, result_map (λ c, [c]) (collect_one dialect location p)) (template_placeholders t))
    = try_map (collect_one dialect location) (template_placeholders t)) as E.
  { generalize (template_placeholders t). induction l as [|p l IH]; [done|]. simpl in *. destruct (collect_one _ _ p); simpl; [|done].
    rewrite <- IH. by destruct (try_map _ l). }
  rewrite E in Hp. ospecialize (Hp _).
  { intros p _. unfold collect_one. destruct (interpret p dialect); simpl; [|done]. split; [done|]. intros e. rewrite list_elem_of_singleton.
    naive_solver. }
  clear E. destruct (try_map _ _) as [cs|]; simpl.
  - destruct Hp as [H1 H2]. split; [intros x ->%Hx; by exists t|]. intros e. rewrite <- H2. unfold refers. split.
    + intros (x & t' & p & ->%Hx & Ht' & Hin & Hi). exists p. rewrite Et in Ht'. by injection Ht' as <-.
    + intros (p & Hin & Hi). exists s, t, p. split; [by apply Hx|done].
  - intros Hr. destruct (Hr s) as (t' & Ht' & Hall), Hp as (p & Hin & Hi); [by apply Hx|].
    rewrite Et in Ht'. injection Ht' as <-. by apply Hi, Hall.
Qed.

(** Collecting finds exactly what a value reads, and fails exactly when a text of it cannot be read. *)
Lemma collect_collects dialect v location : collects dialect v (collect_placeholders dialect v location).
Proof.
  revert location. induction v as [| | |s|l IH|m IH] using Value_ind; intros location;
    try (by split; [intros x Hx; inversion Hx|intros e; split; [intros (x & ? & ? & Hx & _); inversion Hx|by intros ?%not_elem_of_nil]]).
  - apply collects_text.
  - rewrite collect_Arr, Forall_forall in *.
    pose proof (collect_parts (λ ix, collect_placeholders dialect ix.2 (index_location location ix.1)) (λ ix, readable dialect ix.2)
      (λ ix, refers dialect ix.2) (enumerate l)) as Hp.
    ospecialize (Hp _); [intros [i x] Hx%enumerate_from_elem; by apply IH|].
    assert (∀ x, x ∈ l → ∃ i, (i, x) ∈ enumerate l) as Hall.
    { intros x [i Hi]%list_elem_of_lookup. exists i. apply elem_of_enumerate_from. split; [lia|]. by rewrite Nat.sub_0_r. }
    destruct (result_map _ _) as [cs|]; simpl.
    + destruct Hp as [H1 H2]. split.
      * intros x Hx. inversion Hx as [|? v ? Hin Hv|]; subst. destruct (Hall v Hin) as [i Hi]. by eapply (H1 _ Hi).
      * intros e. rewrite <- H2. split.
        -- intros (x & t & p & Hx & Hr). inversion Hx as [|? v ? Hin Hv|]; subst. destruct (Hall v Hin) as [i Hi]. exists (i, v). split; [done|].
           by exists x, t, p.
        -- intros ([i v] & Hin%enumerate_from_elem & x & t & p & Hx & Hr). exists x, t, p. split; [by eapply text_item|done].
    + destruct Hp as ([i v] & Hin%enumerate_from_elem & Hv). intros Hr. apply Hv. intros x Hx. apply Hr. by eapply text_item.
  - rewrite collect_Obj, Forall_forall in *.
    pose proof (collect_parts (λ kv, collect_placeholders dialect kv.2 (key_location location kv.1)) (λ kv, readable dialect kv.2)
      (λ kv, refers dialect kv.2) m) as Hp.
    ospecialize (Hp _); [intros [k x] Hx; by apply (IH (k, x))|]. destruct (result_map _ _) as [cs|]; simpl.
    + destruct Hp as [H1 H2]. split.
      * intros x Hx. inversion Hx as [| |? k v ? Hin Hv]; subst. by eapply (H1 _ Hin).
      * intros e. rewrite <- H2. split.
        -- intros (x & t & p & Hx & Hr). inversion Hx as [| |? k v ? Hin Hv]; subst. exists (k, v). split; [done|]. by exists x, t, p.
        -- intros ([k v] & Hin & x & t & p & Hx & Hr). exists x, t, p. split; [by eapply text_entry|done].
    + destruct Hp as ([k v] & Hin & Hv). intros Hr. apply Hv. intros x Hx. apply Hr. by eapply text_entry.
Qed.

(** ** Computations that may fail but do not panic *)

Definition safe {A E} (P : A → Prop) (r : result A (fault E)) : Prop :=
  match r with Ok a => P a | Err (Error _) => True | Err Panic => False end.

Lemma safe_impl {A E} (P Q : A → Prop) (r : result A (fault E)) :
  safe P r → (∀ a, P a → Q a) → safe Q r.
Proof. destruct r as [a|[]]; simpl; auto. Qed.

Lemma safe_bind {A B E} (P : A → Prop) (Q : B → Prop) (r : result A (fault E))
    (k : A → result B (fault E)) :
  safe P r → (∀ a, P a → safe Q (k a)) → safe Q (let? a := r in k a).
Proof. destruct r as [a|[]]; simpl; auto. Qed.

Lemma safe_returned {A E} (P : A → Prop) (r : result A E) :
  (∀ a, r = Ok a → P a) → safe P (returned r).
Proof. destruct r; simpl; auto. Qed.

(** A loop whose body keeps an invariant, moves up a preorder, and establishes for each
    item a fact that survives moving up. *)
Lemma try_fold_safe {A T E} (P : T → Prop) (le : T → T → Prop) (Q : A → T → Prop)
    (f : T → A → result T (fault E)) l :
  PreOrder le →
  (∀ x s s', x ∈ l → Q x s → le s s' → P s' → Q x s') →
  (∀ s x, x ∈ l → P s → safe (λ s', P s' ∧ le s s' ∧ Q x s') (f s x)) →
  ∀ s, P s → safe (λ s', P s' ∧ le s s' ∧ ∀ x, x ∈ l → Q x s') (try_fold f s l).
Proof.
  intros Hle. induction l as [|x l IH]; intros Hmono Hf s HP; simpl.
  - split_and!; [done|done|]. by intros x Hx%not_elem_of_nil.
  - eapply safe_bind; [apply Hf; [by left|done]|]. intros s1 (HP1 & Hle1 & HQ1).
    eapply safe_impl; [apply IH; [| |done]|].
    + intros y s2 s3 Hy. apply Hmono. by right.
    + intros s2 y Hy. apply Hf. by right.
    + intros s2 (HP2 & Hle2 & HQ2). split_and!; [done|by etrans|].
      intros y [->|Hy]%elem_of_cons; [|by apply HQ2]. eapply Hmono; [by left|done..].
Qed.

(** ** Maps *)

Lemma bt_keys_insert_existing {K V} `{Ord K} (d : K) (v w : V) m :
  bt_wf m → bt_get d m = Some w → bt_keys (bt_insert d v m) = bt_keys m.
Proof.
  induction m as [|[k x] m IH]; simpl; [done|]. intros [Hk Hm]%bt_wf_cons Hg.
  destruct (cmp d k) eqn:E; unfold bt_keys in *; csimpl.
  - apply cmp_eq_iff in E. by subst.
  - exfalso. assert (Forall (olt d) (bt_keys m)) as Hlt.
    { eapply Forall_impl; [exact Hk|]. intros y Hy. by transitivity k. }
    apply bt_get_lt in Hlt. congruence.
  - f_equal. by apply IH.
Qed.

Lemma length_bt_insert_existing {K V} `{Ord K} (d : K) (v w : V) m :
  bt_wf m → bt_get d m = Some w → length (bt_insert d v m) = length m.
Proof.
  intros Hm Hg. pose proof (bt_keys_insert_existing d v w m Hm Hg) as Hk.
  apply (f_equal length) in Hk. unfold bt_keys in Hk. by rewrite !length_fmap in Hk.
Qed.

Lemma length_bt_insert_new {K V} `{Ord K} (d : K) (v : V) m :
  bt_get d m = None → length (bt_insert d v m) = S (length m).
Proof.
  intros Hg. rewrite bt_insert_perm; [done|]. rewrite bt_get_keys, Hg. by intros [].
Qed.

(** ** The invariant *)

Section invariant.
Context (input : GraphInput).

(** The descriptors that may become nodes. *)
Context (U : Descriptor → Prop).

(** Requests that carry inputs agree with the one that fixed them. *)
Definition requests_ok (explicit : option (string * string)) (n : Node) : Prop :=
  match explicit with
  | None => n_params n = None ∧ ∀ r, r ∈ n_requests n → rq_params r = None
  | Some (p, c) =>
      mk_Request p (Some c) ∈ n_requests n
      ∧ (∀ r, r ∈ n_requests n → rq_params r = None ∨ rq_params r = Some c)
      ∧ to_canonical_string (option_default Null (n_params n)) = c
  end.

Record node_ok (b : Builder) (d : Descriptor) (n : Node) : Prop := mk_node_ok {
  no_descriptor : n_descriptor n = d;
  no_definition : ∃ def, select_definition (gi_definitions input) (context_of input d) = Ok def
    ∧ n_definition n = rd_id def ∧ n_driver_type n = rd_driver_type def;
  no_type : is_Some (resource_type input (d_ty d));
  no_class : registry_contains (gi_classes input) (d_ty d) (d_class d) = true;
  no_deps_wf : bs_wf (n_depends_on n);
  no_closed : ∀ x, x ∈ n_depends_on n → x ∈ bt_keys (b_nodes b);
  no_requests_wf : bs_wf (n_requests n);
  no_requests : requests_ok (bt_get d (b_explicit b)) n;
  no_universe : U d }.

Record inv (b : Builder) : Prop := mk_inv {
  inv_wf : bt_wf (b_nodes b);
  inv_nodes : ∀ d n, bt_get d (b_nodes b) = Some n → node_ok b d n;
  inv_explicit : ∀ d, bt_get d (b_nodes b) = None → bt_get d (b_explicit b) = None;
  inv_queue : ∀ d, d ∈ b_queue b → d ∈ bt_keys (b_nodes b);
  inv_co : ∀ c, c ∈ b_co b → co_source c ∈ bt_keys (b_nodes b) ∧ co_co c ∈ bt_keys (b_nodes b) }.

(** The builder only grows. *)
Record grows (b b' : Builder) : Prop := mk_grows {
  gr_nodes : ∀ d n, bt_get d (b_nodes b) = Some n → ∃ n', bt_get d (b_nodes b') = Some n'
    ∧ n_definition n' = n_definition n ∧ n_depends_on n ⊆ n_depends_on n';
  gr_co : b_co b ⊆ b_co b';
  gr_queue : b_queue b ⊆ b_queue b';
  gr_new : ∀ d, d ∈ bt_keys (b_nodes b') → d ∈ bt_keys (b_nodes b) ∨ d ∈ b_queue b';
  gr_count : length (b_queue b') + length (b_nodes b) = length (b_queue b) + length (b_nodes b') }.

Lemma grows_keys b b' d : grows b b' → d ∈ bt_keys (b_nodes b) → d ∈ bt_keys (b_nodes b').
Proof.
  intros Hg [n Hn]%bt_get_keys. apply (gr_nodes _ _ Hg) in Hn as (n' & Hn' & _).
  apply bt_get_keys. by exists n'.
Qed.

#[export] Instance grows_preorder : PreOrder grows.
Proof.
  split.
  - intros b. constructor; [|done|done|by left|done]. intros d n Hn. by exists n.
  - intros b1 b2 b3 H12 H23. constructor.
    + intros d n (n2 & Hn2 & Hd2 & Hs2)%(gr_nodes _ _ H12).
      apply (gr_nodes _ _ H23) in Hn2 as (n3 & Hn3 & Hd3 & Hs3).
      exists n3. split_and!; [done|congruence|by etrans].
    + etrans; [apply (gr_co _ _ H12)|apply (gr_co _ _ H23)].
    + etrans; [apply (gr_queue _ _ H12)|apply (gr_queue _ _ H23)].
    + intros d [Hd|Hd]%(gr_new _ _ H23); [|by right].
      apply (gr_new _ _ H12) in Hd as [Hd|Hd]; [by left|]. right. by apply (gr_queue _ _ H23).
    + pose proof (gr_count _ _ H12). pose proof (gr_count _ _ H23). lia.
Qed.

Lemma grows_depends b b' x y : grows b b' → depends (b_nodes b) x y → depends (b_nodes b') x y.
Proof.
  intros Hg (n & Hn & Hy). apply (gr_nodes _ _ Hg) in Hn as (n' & Hn' & _ & Hs).
  exists n'. split; [done|]. by apply Hs.
Qed.

Lemma inv_nodes_closed b : inv b → nodes_closed (b_nodes b).
Proof. intros Hb x y (n & Hn & Hy). by eapply no_closed; [apply (inv_nodes _ Hb)|]. Qed.

(** *** Updating a node in place *)

(** The same node with more requests, parameters or dependencies. *)
Definition update_node (b : Builder) (d : Descriptor) (n : Node)
    (explicit : list (Descriptor * (string * string))) : Builder :=
  mk_Builder (bt_insert d n (b_nodes b)) explicit (b_queue b) (b_co b).

Lemma update_keys b d n n' explicit :
  bt_wf (b_nodes b) → bt_get d (b_nodes b) = Some n →
  bt_keys (b_nodes (update_node b d n' explicit)) = bt_keys (b_nodes b).
Proof. apply bt_keys_insert_existing. Qed.

Lemma bt_get_insert_cases {K V} `{Ord K} (k j : K) (v w : V) m :
  bt_get j (bt_insert k v m) = Some w → j = k ∧ w = v ∨ j ≠ k ∧ bt_get j m = Some w.
Proof.
  rewrite bt_get_insert. destruct (cmp j k) eqn:E.
  - apply cmp_eq_iff in E as ->. intros [= <-]. by left.
  - right. split; [|done]. intros ->. by rewrite cmp_refl in E.
  - right. split; [|done]. intros ->. by rewrite cmp_refl in E.
Qed.

(** Frame: only [d]'s node and request record change. *)
Lemma update_inv b d n n' explicit :
  inv b → bt_get d (b_nodes b) = Some n →
  (∀ x, x ≠ d → bt_get x explicit = bt_get x (b_explicit b)) →
  node_ok (update_node b d n' explicit) d n' →
  inv (update_node b d n' explicit).
Proof.
  intros Hb Hn Hex Hok. pose proof (inv_wf _ Hb) as Hwf.
  pose proof (update_keys b d n n' explicit Hwf Hn) as Hkeys. constructor.
  - by apply bt_wf_insert.
  - intros x m [[-> ->]|[Hne Hm]]%bt_get_insert_cases; [done|].
    destruct (inv_nodes _ Hb _ _ Hm). constructor; try done.
    + intros y Hy. rewrite Hkeys. auto.
    + cbn [b_explicit update_node]. by rewrite Hex.
  - intros x Hx. cbn [b_nodes b_explicit update_node] in *. rewrite bt_get_insert in Hx.
    destruct (cmp x d) eqn:E; [done|..];
      (rewrite Hex; [by apply (inv_explicit _ Hb)|]; intros ->; by rewrite cmp_refl in E).
  - intros x Hx. rewrite Hkeys. by apply (inv_queue _ Hb).
  - intros c Hc. rewrite Hkeys. by apply (inv_co _ Hb).
Qed.

Lemma update_grows b d n n' explicit :
  inv b → bt_get d (b_nodes b) = Some n →
  n_definition n' = n_definition n → n_depends_on n ⊆ n_depends_on n' →
  grows b (update_node b d n' explicit).
Proof.
  intros Hb Hn Hdef Hdeps. pose proof (inv_wf _ Hb) as Hwf. constructor; [|done|done|..].
  - intros x m Hm. cbn [b_nodes update_node]. rewrite bt_get_insert. destruct (cmp x d) eqn:E.
    + apply cmp_eq_iff in E as ->. rewrite Hn in Hm. injection Hm as <-. by exists n'.
    + by exists m.
    + by exists m.
  - intros x Hx. left. by rewrite (update_keys b d n n' explicit) in Hx.
  - cbn [b_nodes b_queue update_node]. by rewrite (length_bt_insert_existing _ _ n).
Qed.

(** *** Edges *)

Lemma edge_spec b from to :
  inv b → from ∈ bt_keys (b_nodes b) → to ∈ bt_keys (b_nodes b) →
  safe (λ bn, inv bn.1 ∧ grows b bn.1 ∧ depends (b_nodes bn.1) from to
          ∧ (bn.2 = false → bn.1 = b)) (edge b from to).
Proof.
  intros Hb [n Hn]%bt_get_keys Hto. unfold edge. rewrite Hn. cbn [expect ok_or].
  set (n' := mk_Node _ _ _ _ _ _). fold (update_node b from n' (b_explicit b)). simpl.
  pose proof (inv_nodes _ Hb _ _ Hn) as Hok.
  assert (∀ x, x ∈ n_depends_on n' ↔ x = to ∨ x ∈ n_depends_on n) as Hin
    by (intros; apply elem_of_bs_insert).
  split_and!.
  - eapply update_inv; [done..|]. destruct Hok. constructor; try done.
    + by apply bs_wf_insert.
    + intros x [->|Hx]%Hin; rewrite (update_keys b from n); auto using inv_wf.
  - apply (update_grows b from n); [done..|]. intros x Hx. apply Hin. by right.
  - exists n'. split; [|apply Hin; by left]. cbn [b_nodes update_node].
    apply bt_get_insert_eq.
  - intros Hnew%negb_false_iff%bs_mem_spec. destruct b as [nodes ex q co].
    unfold update_node. cbn [b_nodes b_explicit b_queue b_co] in *. f_equal.
    apply bt_insert_id; [apply (inv_wf _ Hb)|]. rewrite Hn. f_equal. subst n'.
    rewrite bs_insert_mem; [by destruct n|apply (no_deps_wf _ _ _ Hok)|done].
Qed.

Lemma add_edge_spec b from to :
  inv b → from ∈ bt_keys (b_nodes b) → to ∈ bt_keys (b_nodes b) →
  safe (λ b', inv b' ∧ grows b b' ∧ depends (b_nodes b') from to) (add_edge b from to).
Proof.
  intros Hb Hf Ht. unfold add_edge. eapply safe_bind; [by apply edge_spec|].
  intros [b' new] (H1 & H2 & H3 & _). by split_and!.
Qed.

(** *** Requests *)

Lemma canonical_not_null p :
  to_canonical_string (option_default Null (not_null (Some p))) = to_canonical_string p.
Proof. by destruct p. Qed.

Lemma request_existing_spec b d n path params :
  inv b → bt_get d (b_nodes b) = Some n →
  safe (λ b', inv b' ∧ grows b b' ∧ d ∈ bt_keys (b_nodes b'))
    (request_existing b d n path params).
Proof.
  intros Hb Hn. pose proof (inv_nodes _ Hb _ _ Hn) as Hok. pose proof (inv_wf _ Hb) as Hwf.
  assert (∀ n' explicit, n_descriptor n' = n_descriptor n → n_definition n' = n_definition n →
    n_driver_type n' = n_driver_type n → n_depends_on n' = n_depends_on n →
    bs_wf (n_requests n') → (∀ x, x ≠ d → bt_get x explicit = bt_get x (b_explicit b)) →
    requests_ok (bt_get d explicit) n' →
    safe (λ b', inv b' ∧ grows b b' ∧ d ∈ bt_keys (b_nodes b'))
      (Ok (E := fault GraphError) (update_node b d n' explicit))) as Hup.
  { intros n' explicit H1 H2 H3 H4 H5 H6 H7. cbn [safe]. split_and!.
    - eapply update_inv; [done..|]. destruct Hok. constructor; try congruence; try done.
      + destruct no_definition0 as (def & ? & ? & ?). exists def. split_and!; congruence.
      + intros x Hx. rewrite H4 in Hx. rewrite (update_keys b d n) by done. auto.
    - apply (update_grows b d n); [done..|]. by rewrite H4.
    - rewrite (update_keys b d n) by done. apply bt_get_keys. by exists n. }
  pose proof (no_requests_wf _ _ _ Hok) as Hrwf. pose proof (no_requests _ _ _ Hok) as Hreq.
  assert (∀ r x, x ∈ bs_insert r (n_requests n) ↔ x = r ∨ x ∈ n_requests n) as Hins
    by (intros; apply elem_of_bs_insert).
  unfold request_existing. destruct params as [p|]; cbn [fmap option_fmap option_map].
  - destruct (bt_get d (b_explicit b)) as [[first existing]|] eqn:Ee.
    + destruct (String.eqb_spec existing (to_canonical_string p)) as [->|Hne]; cbn [negb].
      * apply Hup; try done; [by apply bs_wf_insert|]. rewrite Ee.
        destruct Hreq as (H1 & H2 & H3). split_and!; [apply Hins; by right| |done].
        intros r [->|Hr]%Hins; [by right|by apply H2].
      * by destruct (sort_paths first path).
    + destruct Hreq as [Hp Hr]. apply Hup; try done; [by apply bs_wf_insert| |].
      * intros x Hx. by apply bt_get_insert_ne.
      * rewrite bt_get_insert_eq. split_and!; [apply Hins; by left| |apply canonical_not_null].
        intros r [->|Hin]%Hins; [by right|]. left. by apply Hr.
  - apply Hup; try done; [by apply bs_wf_insert|].
    destruct (bt_get d (b_explicit b)) as [[first existing]|].
    + destruct Hreq as (H1 & H2 & H3). split_and!; [apply Hins; by right| |done].
      intros r [->|Hr]%Hins; [by left|by apply H2].
    + destruct Hreq as [Hp Hr]. split; [done|]. intros r [->|Hin]%Hins; [done|by apply Hr].
Qed.

Lemma request_new_spec b d path params :
  inv b → bt_get d (b_nodes b) = None → U d → is_Some (resource_type input (d_ty d)) →
  registry_contains (gi_classes input) (d_ty d) (d_class d) = true →
  safe (λ b', inv b' ∧ grows b b' ∧ d ∈ bt_keys (b_nodes b')) (request_new input b d path params).
Proof.
  intros Hb Hn HU Hty Hcl. pose proof (inv_wf _ Hb) as Hwf. unfold request_new.
  eapply safe_bind; [apply safe_returned; intros def Hdef; exact Hdef|].
  intros def Hdef. destruct (select_definition _ _) as [def'|] eqn:Esel; [|done].
  injection Hdef as ->. set (node := mk_Node _ _ _ _ _ _).
  set (explicit := match to_canonical_string <$> params with Some c => _ | None => _ end).
  assert (∀ x, x ≠ d → bt_get x explicit = bt_get x (b_explicit b)) as Hex.
  { intros x Hx. subst explicit. destruct params; [by apply bt_get_insert_ne|done]. }
  assert (∀ x, x ∈ bt_keys (bt_insert d node (b_nodes b)) ↔ x = d ∨ x ∈ bt_keys (b_nodes b)) as Hkeys
    by (intros; apply bt_keys_insert).
  simpl. split_and!; [constructor|constructor|]; cbn [b_nodes b_explicit b_queue b_co].
  - by apply bt_wf_insert.
  - intros x m [[-> ->]|[Hne Hm]]%bt_get_insert_cases.
    + constructor; try done.
      * by exists def.
      * constructor.
      * by intros x Hx%not_elem_of_nil.
      * repeat constructor.
      * cbn [b_explicit]. subst explicit node. destruct params as [p|].
        -- cbn. rewrite bt_get_insert_eq. split_and!; [by left| |apply canonical_not_null].
           intros r ->%list_elem_of_singleton. by right.
        -- cbn. rewrite (inv_explicit _ Hb) by done. split; [done|].
           by intros r ->%list_elem_of_singleton.
    + destruct (inv_nodes _ Hb _ _ Hm). constructor; try done.
      * intros y Hy. apply Hkeys. right. auto.
      * cbn [b_explicit]. by rewrite Hex.
  - intros x Hx. rewrite bt_get_insert in Hx. destruct (cmp x d) eqn:E; [done|..];
      (rewrite Hex; [by apply (inv_explicit _ Hb)|]; intros ->; by rewrite cmp_refl in E).
  - intros x [Hx| ->%list_elem_of_singleton]%elem_of_app; apply Hkeys; [right|by left].
    by apply (inv_queue _ Hb).
  - intros c Hc. rewrite !Hkeys. apply (inv_co _ Hb) in Hc as [? ?]. auto.
  - intros x m Hm. exists m. split_and!; [|done|done]. rewrite bt_get_insert_ne; [done|].
    intros ->. congruence.
  - done.
  - intros x Hx. apply elem_of_app. by left.
  - intros x [->|Hx]%Hkeys; [right|by left]. apply elem_of_app. right. by left.
  - rewrite length_app, length_bt_insert_new by done. simpl. lia.
  - apply Hkeys. by left.
Qed.

Lemma request_spec b d path params :
  inv b → U d →
  safe (λ b', inv b' ∧ grows b b' ∧ d ∈ bt_keys (b_nodes b')) (request input b d path params).
Proof.
  intros Hb HU. unfold request. destruct (resource_type input (d_ty d)) as [t|] eqn:Et; [|done].
  cbn [is_none]. destruct (registry_contains _ _ _) eqn:Ec; [|done]. cbn [negb].
  destruct (bt_get d (b_nodes b)) as [n|] eqn:En; [by apply request_existing_spec|].
  by apply request_new_spec.
Qed.

(** *** Expanding a definition *)

(** Every descriptor a definition names stays in the universe. *)
Definition refs_of (cs : list Collected) : list ResourceRef :=
  filter_map (λ c : Collected, match c.2 with EResource target _ => Some target | _ => None end) cs.

Definition collected (r : result (list Collected) PlaceholderError) : list Collected :=
  match r with Ok cs => cs | Err _ => [] end.

Definition provision_params (key : string) (prov : Provision)
    : result (list Collected) PlaceholderError :=
  collect_placeholders DialectDefinition (option_default Null (p_params prov))
    (("provision." +:+ key) +:+ ".params").

(** The references of a definition: driver inputs, provision keys and their params. *)
Definition definition_refs (def : ResourceDefinition) : list ResourceRef :=
  refs_of (collected (definition_placeholders def))
  ++ mjoin ((λ kv : string * Provision,
       match ResourceRef_parse kv.1 with Ok target => [target] | Err _ => [] end
       ++ refs_of (collected (provision_params kv.1 kv.2))) <$> rd_provision def).

Context (HU : ∀ def target d, def ∈ gi_definitions input → target ∈ definition_refs def →
  U d → U (resolve_ref input target d)).

Lemma elem_of_refs_of target field (c : Collected) cs :
  c ∈ cs → c.2 = EResource target field → target ∈ refs_of cs.
Proof. intros Hc He. apply elem_of_filter_map. exists c. by rewrite He. Qed.

(** The dependency an input placeholder of [d]'s definition calls for. *)
Definition input_edge (d : Descriptor) (c : Collected) (b : Builder) : Prop :=
  match c.2 with
  | EResource target _ => depends (b_nodes b) d (resolve_ref input target d)
  | _ => True
  end.

Definition param_edge (d co : Descriptor) (c : Collected) (b : Builder) : Prop :=
  match c.2 with
  | EResource target _ =>
      let to := resolve_ref input target d in to = co ∨ depends (b_nodes b) co to
  | _ => True
  end.

Lemma expand_input_spec def d b c cs :
  inv b → U d → d ∈ bt_keys (b_nodes b) → c ∈ cs →
  (∀ target, target ∈ refs_of cs → U (resolve_ref input target d)) →
  safe (λ b', inv b' ∧ grows b b' ∧ input_edge d c b') (expand_input input def d b c).
Proof.
  intros Hb Hd Hkey Hc HUt. destruct c as [[loc p] e]. unfold expand_input, input_edge.
  destruct e as [|target field| | | |]; try (simpl; by split_and!). cbn [snd].
  assert (U (resolve_ref input target d)) as HUt' by (by eapply HUt, elem_of_refs_of).
  eapply safe_bind; [by apply request_spec|]. intros b1 (Hb1 & Hg1 & Hk1).
  eapply safe_impl; [apply add_edge_spec; [done|by eapply grows_keys|done]|].
  intros b2 (Hb2 & Hg2 & Hdep). split_and!; [done|by etrans|done].
Qed.

Lemma expand_param_spec def d co b c cs :
  inv b → U d → co ∈ bt_keys (b_nodes b) → c ∈ cs →
  (∀ target, target ∈ refs_of cs → U (resolve_ref input target d)) →
  safe (λ b', inv b' ∧ grows b b' ∧ param_edge d co c b') (expand_param input def d co b c).
Proof.
  intros Hb Hd Hkey Hc HUt. destruct c as [[loc p] e]. unfold expand_param, param_edge.
  destruct e as [|target field| | | |]; try (simpl; by split_and!). cbn [snd].
  assert (U (resolve_ref input target d)) as HUt' by (by eapply HUt, elem_of_refs_of).
  eapply safe_bind; [by apply request_spec|]. intros b1 (Hb1 & Hg1 & Hk1).
  case_bool_decide; [simpl; by auto|].
  eapply safe_impl; [apply add_edge_spec; [done|by eapply grows_keys|done]|].
  intros b2 (Hb2 & Hg2 & Hdep). split_and!; [done|by etrans|by right].
Qed.

(** What one co-provisioning entry of [d]'s definition calls for. *)
Definition provision_edges (d : Descriptor) (kv : string * Provision) (b : Builder) : Prop :=
  ∃ target cs, ResourceRef_parse kv.1 = Ok target ∧ provision_params kv.1 kv.2 = Ok cs
    ∧ let co := resolve_ref input target d in
      (if p_is_dependent kv.2 then depends (b_nodes b) d co else depends (b_nodes b) co d)
      ∧ (∀ c, c ∈ cs → param_edge d co c b)
      ∧ mk_CoProvision d co (p_match_dependents kv.2) ∈ b_co b.

Lemma param_edge_grows d co c b b' : param_edge d co c b → grows b b' → param_edge d co c b'.
Proof.
  unfold param_edge. destruct c.2; try done. intros [->|H] Hg; [by left|right].
  by eapply grows_depends.
Qed.

Lemma expand_provision_spec def d b kv :
  inv b → U d → d ∈ bt_keys (b_nodes b) → def ∈ gi_definitions input → kv ∈ rd_provision def →
  safe (λ b', inv b' ∧ grows b b' ∧ provision_edges d kv b') (expand_provision input def d b kv).
Proof.
  intros Hb Hd Hkey Hdef Hkv. destruct kv as [key prov]. unfold expand_provision.
  assert (∀ target, target ∈ match ResourceRef_parse key with Ok t => [t] | Err _ => [] end
      ++ refs_of (collected (provision_params key prov)) → U (resolve_ref input target d)) as HUt.
  { intros target Ht. eapply HU; [done| |done]. apply elem_of_app. right.
    apply list_elem_of_join. eexists. split; [exact Ht|]. apply list_elem_of_fmap.
    by exists (key, prov). }
  eapply safe_bind; [apply safe_returned; intros target Ht; exact Ht|]. intros target Ht.
  destruct (ResourceRef_parse key) as [target'|] eqn:Eparse; [|done]. injection Ht as ->.
  set (co := resolve_ref input target d).
  assert (U co) as HUco by (apply HUt; by left).
  eapply safe_bind; [by apply request_spec|]. intros b1 (Hb1 & Hg1 & Hk1).
  assert (d ∈ bt_keys (b_nodes b1)) as Hd1 by (by eapply grows_keys).
  eapply (safe_bind (λ b2, inv b2 ∧ grows b1 b2 ∧ if p_is_dependent prov
    then depends (b_nodes b2) d co else depends (b_nodes b2) co d)).
  { destruct (p_is_dependent prov); by apply add_edge_spec. }
  intros b2 (Hb2 & Hg2 & Hdep).
  eapply safe_bind; [apply safe_returned; intros cs Hcs; exact Hcs|]. intros cs Hcs.
  fold (provision_params key prov) in Hcs.
  destruct (provision_params key prov) as [cs'|] eqn:Ecs; [|done]. injection Hcs as ->.
  eapply safe_bind.
  - apply (try_fold_safe (λ b, inv b ∧ co ∈ bt_keys (b_nodes b)) grows (param_edge d co)).
    + apply _.
    + intros c s s' _ H1 H2 _. by eapply param_edge_grows.
    + intros s c Hc [Hs Hks]. eapply safe_impl; [eapply (expand_param_spec def d co s c cs)|]; try done.
      * intros t Htt. apply HUt, elem_of_app. by right.
      * intros s' (H1 & H2 & H3). split_and!; [done|by eapply grows_keys|done|done].
    + split; [done|]. by eapply grows_keys.
  - intros b3 ([Hb3 Hk3] & Hg3 & Hall). simpl.
    assert (grows b b3) as Hg by (etrans; [exact Hg1|]; by etrans).
    assert (d ∈ bt_keys (b_nodes b3)) as Hd3 by (by eapply grows_keys).
    split_and!.
    + destruct Hb3. constructor; cbn [b_nodes b_explicit b_queue b_co]; try done.
      * intros x n Hn. destruct (inv_nodes0 x n Hn). by constructor.
      * intros c [->|Hc]%elem_of_bs_insert; [done|by apply inv_co0].
    + destruct Hg. constructor; try done. cbn [b_co].
      intros c Hc. apply elem_of_bs_insert. right. by apply gr_co0.
    + exists target, cs. split; [done|]. split; [done|]. cbn [b_nodes b_co fst snd].
      fold co. split_and!.
      * destruct (p_is_dependent prov); by eapply (grows_depends b2).
      * done.
      * apply elem_of_bs_insert. by left.
Qed.

(** Everything [d]'s matched definition calls for is in the graph. *)
Definition expanded (b : Builder) (d : Descriptor) : Prop :=
  ∃ n def cs, bt_get d (b_nodes b) = Some n ∧ find_definition input (n_definition n) = Some def
    ∧ definition_placeholders def = Ok cs
    ∧ (∀ c, c ∈ cs → input_edge d c b)
    ∧ (∀ kv, kv ∈ rd_provision def → provision_edges d kv b).

Lemma input_edge_grows d c b b' : input_edge d c b → grows b b' → input_edge d c b'.
Proof.
  unfold input_edge. destruct c.2; try done. intros H Hg. by eapply grows_depends.
Qed.

Lemma provision_edges_grows d kv b b' :
  provision_edges d kv b → grows b b' → provision_edges d kv b'.
Proof.
  intros (target & cs & Ht & Hcs & H1 & H2 & H3) Hg. exists target, cs.
  split; [done|]. split; [done|]. simpl. split_and!.
  - destruct (p_is_dependent kv.2); by eapply grows_depends.
  - intros c Hc. eapply param_edge_grows; [by apply H2|done].
  - by apply (gr_co _ _ Hg).
Qed.

Lemma expanded_grows b b' d : expanded b d → grows b b' → expanded b' d.
Proof.
  intros (n & def & cs & Hn & Hdef & Hcs & H1 & H2) Hg.
  apply (gr_nodes _ _ Hg) in Hn as (n' & Hn' & Hd' & _). exists n', def, cs.
  rewrite Hd'. split_and!; [done|done|done|..].
  - intros c Hc. eapply input_edge_grows; [by apply H1|done].
  - intros kv Hkv. eapply provision_edges_grows; [by apply H2|done].
Qed.

(** The definition a node names exists. *)
Lemma find_definition_Some b d n :
  inv b → bt_get d (b_nodes b) = Some n →
  ∃ def, find_definition input (n_definition n) = Some def ∧ def ∈ gi_definitions input.
Proof.
  intros Hb Hn. destruct (no_definition _ _ _ (inv_nodes _ Hb _ _ Hn)) as (def & Hsel & -> & _).
  unfold find_definition. destruct (find _ _) as [def'|] eqn:E.
  - exists def'. split; [done|]. by apply find_Some in E as [? _].
  - exfalso. rewrite find_None in E. apply select_definition_elem in Hsel.
    specialize (E def Hsel). by rewrite String.eqb_refl in E.
Qed.

Lemma expand_spec b d :
  inv b → d ∈ bt_keys (b_nodes b) →
  safe (λ b', inv b' ∧ grows b b' ∧ expanded b' d) (expand input b d).
Proof.
  intros Hb Hd. pose proof Hd as [n Hn]%bt_get_keys.
  pose proof (no_universe _ _ _ (inv_nodes _ Hb _ _ Hn)) as HUd.
  destruct (find_definition_Some b d n Hb Hn) as (def & Hdef & Hin).
  unfold expand. rewrite Hn. cbn [expect ok_or]. rewrite Hdef. cbn [expect ok_or].
  eapply safe_bind; [apply safe_returned; intros cs Hcs; exact Hcs|]. intros cs Hcs.
  destruct (definition_placeholders def) as [cs'|] eqn:Ecs; [|done]. injection Hcs as ->.
  eapply safe_bind.
  { apply (try_fold_safe (λ b, inv b ∧ d ∈ bt_keys (b_nodes b)) grows (input_edge d)).
    - apply _.
    - intros c s s' _ H1 H2 _. by eapply input_edge_grows.
    - intros s c Hc [Hs Hks]. eapply safe_impl; [eapply (expand_input_spec def d s c cs)|]; try done.
      + intros t Ht. eapply HU; [done| |done]. unfold definition_refs. rewrite Ecs.
        apply elem_of_app. by left.
      + intros s' (H1 & H2 & H3). split_and!; [done|by eapply grows_keys|done|done].
    - done. }
  intros b1 ([Hb1 Hk1] & Hg1 & Hall1). eapply safe_impl.
  { apply (try_fold_safe (λ b, inv b ∧ d ∈ bt_keys (b_nodes b)) grows (provision_edges d)).
    - apply _.
    - intros kv s s' _ H1 H2 _. by eapply provision_edges_grows.
    - intros s kv Hkv [Hs Hks].
      eapply safe_impl; [by eapply (expand_provision_spec def d s kv)|].
      intros s' (H1 & H2 & H3). split_and!; [done|by eapply grows_keys|done|done].
    - done. }
  intros b2 ([Hb2 Hk2] & Hg2 & Hall2).
  assert (grows b b2) as Hg by (by etrans). split_and!; [done|done|].
  apply (gr_nodes _ _ Hg) in Hn as (n' & Hn' & Hd' & _). exists n', def, cs. rewrite Hd'.
  split_and!; [done|done|done| |done].
  intros c Hc. eapply input_edge_grows; [by apply Hall1|done].
Qed.

(** *** The expansion loop *)

(** Every node is expanded or waits in the queue. *)
Definition progress (b : Builder) : Prop :=
  ∀ d, d ∈ bt_keys (b_nodes b) → d ∈ b_queue b ∨ expanded b d.

Context (Ulist : list Descriptor) (HUlist : ∀ d, U d → d ∈ Ulist).

Lemma inv_length b : inv b → length (b_nodes b) ≤ length Ulist.
Proof.
  intros Hb. rewrite <-(length_fmap fst). apply submseteq_length, NoDup_submseteq.
  - apply (bt_wf_NoDup _ (inv_wf _ Hb)).
  - intros d [n Hn]%bt_get_keys. apply HUlist. by eapply no_universe, (inv_nodes _ Hb).
Qed.

Definition pop (b : Builder) (queue : list Descriptor) : Builder :=
  mk_Builder (b_nodes b) (b_explicit b) queue (b_co b).

Lemma pop_inv b d queue : inv b → b_queue b = d :: queue → inv (pop b queue).
Proof.
  intros Hb Hq. destruct Hb. constructor; cbn [b_nodes b_explicit b_queue b_co pop]; try done.
  - intros x n Hn. destruct (inv_nodes0 x n Hn). by constructor.
  - intros x Hx. apply inv_queue0. rewrite Hq. by right.
Qed.

Lemma expand_all_spec fuel b :
  inv b → progress b → length Ulist + length (b_queue b) ≤ fuel + length (b_nodes b) →
  ∃ r, expand_all input fuel b = Some r
    ∧ safe (λ b', inv b' ∧ (∀ d n, bt_get d (b_nodes b) = Some n →
          ∃ n', bt_get d (b_nodes b') = Some n' ∧ n_depends_on n ⊆ n_depends_on n')
        ∧ ∀ d, d ∈ bt_keys (b_nodes b') → expanded b' d) r.
Proof.
  revert b. induction fuel as [|fuel IH]; intros b Hb Hp Hf.
  - assert (b_queue b = []) as Hq.
    { apply nil_length_inv. pose proof (inv_length b Hb). lia. }
    simpl. rewrite Hq. eexists. split; [done|]. simpl. split_and!; [done|by eauto|].
    intros d Hd. destruct (Hp d Hd) as [Hq'|]; [|done]. rewrite Hq in Hq'. by apply not_elem_of_nil in Hq'.
  - cbn [expand_all]. destruct (b_queue b) as [|d queue] eqn:Hq.
    { eexists. split; [done|]. simpl. split_and!; [done|by eauto|].
      intros d Hd. destruct (Hp d Hd) as [Hq'|]; [|done]. rewrite Hq in Hq'. by apply not_elem_of_nil in Hq'. }
    fold (pop b queue). pose proof (pop_inv b d queue Hb Hq) as Hpop.
    assert (d ∈ bt_keys (b_nodes (pop b queue))) as Hd.
    { apply (inv_queue _ Hb). rewrite Hq. by left. }
    pose proof (expand_spec _ _ Hpop Hd) as Hex.
    destruct (expand input (pop b queue) d) as [b'|[e|]]; [|by eexists|done].
    destruct Hex as (Hb' & Hg & Hexp).
    destruct (IH b') as (r & Hr & Hsafe); [done| | |].
    + intros x Hx. destruct (gr_new _ _ Hg x Hx) as [Hx'|Hx']; [|by left].
      destruct (Hp x Hx') as [Hin|Hex'].
      * rewrite Hq in Hin. apply elem_of_cons in Hin as [->|Hin]; [by right|].
        left. by apply (gr_queue _ _ Hg).
      * right. eapply expanded_grows; [|exact Hg]. exact Hex'.
    + pose proof (gr_count _ _ Hg) as Hc. cbn [pop b_nodes b_queue] in Hc. simpl in Hf. lia.
    + exists r. split; [done|]. eapply safe_impl; [exact Hsafe|].
      intros b2 (H1 & H2 & H3). split_and!; [done| |done].
      intros x n Hn. apply (gr_nodes _ _ Hg) in Hn as (n1 & Hn1 & _ & Hs1).
      apply H2 in Hn1 as (n2 & Hn2 & Hs2). exists n2. split; [done|by etrans].
Qed.

(** *** Matching dependents *)

Definition dependsb (nodes : Nodes) (a b : Descriptor) : bool :=
  match bt_get a nodes with Some n => bs_mem b (n_depends_on n) | None => false end.

Lemma dependsb_spec nodes a b : dependsb nodes a b = true ↔ depends nodes a b.
Proof.
  unfold dependsb, depends. destruct (bt_get a nodes) as [n|].
  - rewrite bs_mem_spec. split; [by exists n|by intros (? & [= <-] & ?)].
  - split; [done|]. by intros (? & ? & _).
Qed.

Definition pairs (l : list Descriptor) : list (Descriptor * Descriptor) :=
  mjoin ((λ a, (λ b, (a, b)) <$> l) <$> l).

(** The edges between nodes that the graph does not have. *)
Definition missing (b : Builder) : nat :=
  length (filter (λ p, dependsb (b_nodes b) p.1 p.2 = false) (pairs (bt_keys (b_nodes b)))).

Lemma elem_of_pairs a b l : (a, b) ∈ pairs l ↔ a ∈ l ∧ b ∈ l.
Proof.
  unfold pairs. rewrite list_elem_of_join. split.
  - intros (k & Hab & (x & -> & Hx)%list_elem_of_fmap).
    apply list_elem_of_fmap in Hab as (y & [= -> ->] & Hy). done.
  - intros [Ha Hb]. exists ((λ b, (a, b)) <$> l). split; apply list_elem_of_fmap; eauto.
Qed.

Lemma length_pairs l : length (pairs l) = length l * length l.
Proof.
  assert (∀ k : list Descriptor, length (mjoin ((λ a, (λ b, (a, b)) <$> l) <$> k)) = length k * length l) as H; [|apply H].
  induction k as [|x k IH]; [done|]. csimpl. by rewrite length_app, length_fmap, IH.
Qed.

Lemma missing_bound b : missing b ≤ length (b_nodes b) * length (b_nodes b).
Proof.
  unfold missing. etrans; [apply length_filter|]. rewrite length_pairs. unfold bt_keys.
  by rewrite length_fmap.
Qed.

Lemma missing_grows b b' :
  grows b b' → bt_keys (b_nodes b') = bt_keys (b_nodes b) →
  missing b' ≤ missing b
  ∧ ∀ x y, x ∈ bt_keys (b_nodes b) → y ∈ bt_keys (b_nodes b) → ¬ depends (b_nodes b) x y →
      depends (b_nodes b') x y → missing b' < missing b.
Proof.
  intros Hg Hk. unfold missing. rewrite Hk.
  assert (∀ p, dependsb (b_nodes b') p.1 p.2 = false → dependsb (b_nodes b) p.1 p.2 = false) as Himp.
  { intros p. rewrite <-!not_true_iff_false, !dependsb_spec. intros H1 H2. apply H1.
    by eapply grows_depends. }
  rewrite <-(list_filter_filter_l _ (λ p, dependsb (b_nodes b) p.1 p.2 = false)) by exact Himp.
  split; [apply length_filter|]. intros x y Hx Hy Hno Hyes.
  apply (length_filter_lt _ _ (x, y)).
  - apply list_elem_of_filter. split; [|by apply elem_of_pairs].
    apply not_true_iff_false. by rewrite dependsb_spec.
  - simpl. apply not_false_iff_true. by apply dependsb_spec.
Qed.

(** The consumers of an entry's source wait for its co-provisioned resource. *)
Definition matched (b : Builder) (c : CoProvision) : Prop :=
  ∀ x, depends (b_nodes b) x (co_source c) → x ≠ co_co c → x ≠ co_source c →
    depends (b_nodes b) x (co_co c).

Record match_le (s s' : Builder * bool) : Prop := mk_match_le {
  ml_grows : grows s.1 s'.1;
  ml_keys : bt_keys (b_nodes s'.1) = bt_keys (b_nodes s.1);
  ml_co : b_co s'.1 = b_co s.1;
  ml_same : s'.2 = false → s' = s;
  ml_added : s'.2 = true → s.2 = true ∨ missing s'.1 < missing s.1 }.

#[export] Instance match_le_preorder : PreOrder match_le.
Proof.
  split; [intros s; constructor; by auto|].
  intros s1 s2 s3 H12 H23. destruct H12 as [g12 k12 c12 same12 add12], H23 as [g23 k23 c23 same23 add23].
  constructor; [by etrans|congruence|congruence| |].
  - intros H. rewrite (same23 H). apply same12. by rewrite <-(same23 H).
  - destruct (missing_grows _ _ g12 k12) as [Hm12 _], (missing_grows _ _ g23 k23) as [Hm23 _].
    intros [H|H]%add23; [|right; lia]. destruct (add12 H) as [|]; [by left|right; lia].
Qed.

Lemma edge_match_spec s from to :
  inv s.1 → from ∈ bt_keys (b_nodes s.1) → to ∈ bt_keys (b_nodes s.1) →
  safe (λ s', inv s'.1 ∧ match_le s s' ∧ depends (b_nodes s'.1) from to)
    (let? (b, new) := edge s.1 from to in Ok (b, s.2 || new)).
Proof.
  intros Hs Hf Ht. pose proof (edge_spec s.1 from to Hs Hf Ht) as He.
  unfold edge in *. pose proof Hf as [n Hn]%bt_get_keys. rewrite Hn in *.
  cbn [expect ok_or safe fst snd] in *. set (b' := mk_Builder _ _ _ _) in *.
  destruct He as (Hb' & Hg & Hdep & Hsame).
  assert (bt_keys (b_nodes b') = bt_keys (b_nodes s.1)) as Hk.
  { by apply (bt_keys_insert_existing from _ n); [apply (inv_wf _ Hs)|]. }
  split_and!; [done| |done]. constructor; cbn [fst snd]; try done.
  - intros [H1 H2]%orb_false_iff. rewrite H1, (Hsame H2) in *. rewrite H2. destruct s; by f_equal.
  - intros [H1|H1]%orb_true_iff; [by left|right].
    destruct (missing_grows _ _ Hg Hk) as [_ Hlt]. apply (Hlt from to); [done..| |done].
    intros (m & Hm & Hin). rewrite Hn in Hm. injection Hm as <-.
    apply bs_mem_spec in Hin. by rewrite Hin in H1.
Qed.

Lemma match_one_spec s c :
  inv s.1 → c ∈ b_co s.1 →
  safe (λ s', inv s'.1 ∧ match_le s s' ∧ (s'.2 = false → matched s'.1 c)) (match_one s c).
Proof.
  intros Hs Hc. apply (inv_co _ Hs) in Hc as [Hsrc Hco]. unfold match_one.
  assert (∀ x, x ∈ consumers s.1 c ↔ depends (b_nodes s.1) x (co_source c)
    ∧ x ≠ co_co c ∧ x ≠ co_source c) as Hcons.
  { intros x. unfold consumers. rewrite list_elem_of_fmap. unfold bt_values.
    setoid_rewrite list_elem_of_filter. setoid_rewrite list_elem_of_fmap. split.
    - intros (n & -> & (Hm & H1 & H2) & ([k m] & -> & Hin)). simpl in *.
      apply bt_elem_get in Hin; [|apply (inv_wf _ Hs)].
      pose proof (no_descriptor _ _ _ (inv_nodes _ Hs _ _ Hin)) as Hk. rewrite Hk in *.
      split_and!; [|done|done]. exists m. split; [done|]. by apply bs_mem_spec.
    - intros ((n & Hn & Hin) & H1 & H2). exists n.
      pose proof (no_descriptor _ _ _ (inv_nodes _ Hs _ _ Hn)) as ->.
      split_and!; [done|by apply bs_mem_spec|done|done|]. exists (x, n). split; [done|].
      by apply bt_get_elem. }
  eapply safe_impl.
  - apply (try_fold_safe (λ t : Builder * bool, inv t.1 ∧ bt_keys (b_nodes t.1) = bt_keys (b_nodes s.1))
      match_le (λ x t, depends (b_nodes t.1) x (co_co c))).
    + apply _.
    + intros x t t' _ H1 H2 _. eapply grows_depends; [apply (ml_grows _ _ H2)|done].
    + intros t x Hx [Ht Hk]. eapply safe_impl; [apply edge_match_spec; [done| |]|].
      * rewrite Hk. apply Hcons in Hx as ((n & Hn & _) & _). apply bt_get_keys. by exists n.
      * by rewrite Hk.
      * intros t' (H1 & H2 & H3). split_and!; [done| |done|done].
        by rewrite (ml_keys _ _ H2).
    + done.
  - intros s' ([Hs' Hk'] & Hle & Hall). split_and!; [done|done|].
    intros Hfalse x Hx H1 H2. apply Hall, Hcons. split_and!; [|done|done].
    by rewrite <-(ml_same _ _ Hle Hfalse).
Qed.

Lemma match_round_spec b :
  inv b →
  safe (λ s, inv s.1 ∧ match_le (b, false) s
      ∧ (s.2 = false → ∀ c, c ∈ b_co b → co_match_dependents c = true → matched s.1 c))
    (match_round b).
Proof.
  intros Hb. unfold match_round. eapply safe_impl.
  - apply (try_fold_safe (λ s : Builder * bool, inv s.1 ∧ b_co s.1 = b_co b) match_le
      (λ c s, s.2 = false → matched s.1 c)).
    + apply _.
    + intros c s s' _ H1 H2 _ Hf. pose proof (ml_same _ _ H2 Hf) as ->. by apply H1.
    + intros s c [_ Hc]%list_elem_of_filter [Hs Hco].
      eapply safe_impl; [apply match_one_spec; [done|by rewrite Hco]|].
      intros s' (H1 & H2 & H3). split_and!; [done|by rewrite (ml_co _ _ H2)|done|done].
    + done.
  - intros s ([Hs _] & Hle & Hall). split_and!; [done|done|].
    intros Hf c Hc Hm. apply Hall; [by apply list_elem_of_filter|done].
Qed.

Lemma match_dependents_spec fuel b :
  inv b → missing b < fuel →
  ∃ r, match_dependents fuel b = Some r
    ∧ safe (λ b', inv b' ∧ grows b b' ∧ b_co b' = b_co b
        ∧ bt_keys (b_nodes b') = bt_keys (b_nodes b)
        ∧ ∀ c, c ∈ b_co b' → co_match_dependents c = true → matched b' c) r.
Proof.
  revert b. induction fuel as [|fuel IH]; intros b Hb Hf; [lia|].
  cbn [match_dependents]. pose proof (match_round_spec b Hb) as Hr.
  destruct (match_round b) as [[b1 [|]]|[e|]]; [| |by eexists|done].
  - destruct Hr as (Hb1 & Hle & _). simpl in Hb1.
    destruct (ml_added _ _ Hle eq_refl) as [|Hlt]; [done|]. simpl in Hlt.
    destruct (IH b1) as (r & -> & Hsafe); [done|lia|]. exists r. split; [done|].
    eapply safe_impl; [exact Hsafe|]. intros b2 (H1 & H2 & H3 & H4 & H5).
    split_and!; [done| |rewrite H3; apply (ml_co _ _ Hle)|rewrite H4; apply (ml_keys _ _ Hle)|done].
    etrans; [apply (ml_grows _ _ Hle)|done].
  - destruct Hr as (Hb1 & Hle & Hall). eexists. split; [done|]. simpl.
    split_and!; [done|apply (ml_grows _ _ Hle)|apply (ml_co _ _ Hle)|apply (ml_keys _ _ Hle)|].
    intros c Hc Hm. pose proof (ml_co _ _ Hle) as Hco. simpl in Hco. rewrite Hco in Hc.
    by apply Hall.
Qed.

(** *** The roots *)

Definition external_descriptor (wid key : string) (ext : External) : option Descriptor :=
  match external_res_id wid key ext with
  | Ok res_id => Some (mk_Descriptor (e_ty ext) (e_class ext) res_id)
  | Err _ => None
  end.

Definition shared_descriptor (id : string) (s : SharedResource) : option Descriptor :=
  match ResId_shared id with
  | Ok res_id => Some (mk_Descriptor (s_ty s) (s_class s) res_id)
  | Err _ => None
  end.

(** The resources the set asks for itself. *)
Definition module_roots (kv : string * Module_) : list Descriptor :=
  workload_descriptor kv.1 kv.2
  :: filter_map (λ ke : string * External, external_descriptor kv.1 ke.1 ke.2) (m_externals kv.2).
Definition root_descriptors : list Descriptor :=
  base_env :: mjoin (module_roots <$> ds_modules (gi_set input))
  ++ filter_map (λ ks : string * SharedResource, shared_descriptor ks.1 ks.2)
       (ds_shared (gi_set input)).

Context (HUroots : ∀ d, d ∈ root_descriptors → U d).

Lemma module_root_U kv d : kv ∈ ds_modules (gi_set input) → d ∈ module_roots kv → U d.
Proof.
  intros Hkv Hd. apply HUroots. right. apply elem_of_app. left. apply list_elem_of_join.
  exists (module_roots kv). split; [done|]. apply list_elem_of_fmap. by exists kv.
Qed.

(** A workload is a node and depends on its externals. *)
Definition module_built (kv : string * Module_) (b : Builder) : Prop :=
  workload_descriptor kv.1 kv.2 ∈ bt_keys (b_nodes b)
  ∧ ∀ key ext, (key, ext) ∈ m_externals kv.2 → ∃ d,
      external_descriptor kv.1 key ext = Some d
      ∧ depends (b_nodes b) (workload_descriptor kv.1 kv.2) d.

Definition shared_built (ks : string * SharedResource) (b : Builder) : Prop :=
  ∃ d, shared_descriptor ks.1 ks.2 = Some d ∧ d ∈ bt_keys (b_nodes b).

(** A workload depends on the shared resources of the set that its spec reads. *)
Definition shared_read_edge (w : Descriptor) (c : Collected) (b : Builder) : Prop :=
  ∀ id path s d, c.2 = EShared id path → bt_get id (ds_shared (gi_set input)) = Some s →
    shared_descriptor id s = Some d → depends (b_nodes b) w d.
Definition module_reads (kv : string * Module_) (b : Builder) : Prop :=
  ∀ c, c ∈ shared_reads kv.2 → shared_read_edge (workload_descriptor kv.1 kv.2) c b.

Lemma module_built_grows kv b b' : module_built kv b → grows b b' → module_built kv b'.
Proof.
  intros [H1 H2] Hg. split; [by eapply grows_keys|].
  intros key ext (d & Hd & Hdep)%H2. exists d. split; [done|]. by eapply grows_depends.
Qed.

Lemma shared_read_edge_grows w c b b' : shared_read_edge w c b → grows b b' → shared_read_edge w c b'.
Proof.
  intros H Hg id path s d H1 H2 H3. eapply grows_depends; [exact Hg|]. by eapply H.
Qed.

Lemma build_external_spec kv b ke :
  kv ∈ ds_modules (gi_set input) → ke ∈ m_externals kv.2 →
  inv b → workload_descriptor kv.1 kv.2 ∈ bt_keys (b_nodes b) →
  safe (λ b', inv b' ∧ grows b b' ∧ ∃ d, external_descriptor kv.1 ke.1 ke.2 = Some d
      ∧ depends (b_nodes b') (workload_descriptor kv.1 kv.2) d)
    (build_external input kv.1 (workload_descriptor kv.1 kv.2) b ke).
Proof.
  intros Hkv Hke Hb Hw. destruct ke as [key ext]. unfold build_external. cbn [fst snd].
  eapply safe_bind; [apply safe_returned; intros r Hr; exact Hr|]. intros r Hr.
  destruct (external_res_id kv.1 key ext) as [r'|] eqn:Er; [|done]. injection Hr as ->.
  assert (external_descriptor kv.1 key ext = Some (mk_Descriptor (e_ty ext) (e_class ext) r)) as Hd
    by (unfold external_descriptor; by rewrite Er).
  eapply safe_bind; [apply request_spec; [done|]|].
  - eapply module_root_U; [done|]. right. apply elem_of_filter_map. by exists (key, ext).
  - intros b1 (Hb1 & Hg1 & Hk1). eapply safe_impl.
    + apply add_edge_spec; [done| |done]. by eapply grows_keys.
    + intros b2 (Hb2 & Hg2 & Hdep). split_and!; [done|by etrans|]. by eexists.
Qed.

Lemma build_module_spec kv b :
  kv ∈ ds_modules (gi_set input) → inv b →
  safe (λ b', inv b' ∧ grows b b' ∧ module_built kv b') (build_module input b kv).
Proof.
  intros Hkv Hb. destruct kv as [wid m]. unfold build_module.
  eapply safe_bind; [apply request_spec; [done|]; eapply module_root_U; [exact Hkv|by left]|].
  intros b1 (Hb1 & Hg1 & Hk1). eapply safe_impl.
  - apply (try_fold_safe (λ b, inv b ∧ workload_descriptor wid m ∈ bt_keys (b_nodes b)) grows
      (λ ke b, ∃ d, external_descriptor wid ke.1 ke.2 = Some d
        ∧ depends (b_nodes b) (workload_descriptor wid m) d)).
    + apply _.
    + intros ke s s' _ (d & Hd & Hdep) Hg _. exists d. split; [done|]. by eapply grows_depends.
    + intros s ke Hke [Hs Hw]. eapply safe_impl; [by apply (build_external_spec (wid, m) s ke)|].
      intros s' (H1 & H2 & H3). split_and!; [done|by eapply grows_keys|done|done].
    + done.
  - intros b2 ([Hb2 Hw2] & Hg2 & Hall). split_and!; [done|by etrans|]. split; [done|].
    intros key ext Hke. by apply (Hall (key, ext)).
Qed.

Lemma build_shared_spec ks b :
  ks ∈ ds_shared (gi_set input) → inv b →
  safe (λ b', inv b' ∧ grows b b' ∧ shared_built ks b') (build_shared input b ks).
Proof.
  intros Hks Hb. destruct ks as [id s]. unfold build_shared, shared_built. cbn [fst snd].
  eapply safe_bind; [apply safe_returned; intros r Hr; exact Hr|]. intros r Hr.
  destruct (ResId_shared id) as [r'|] eqn:Er; [|done]. injection Hr as ->.
  assert (shared_descriptor id s = Some (mk_Descriptor (s_ty s) (s_class s) r)) as Hd
    by (unfold shared_descriptor; by rewrite Er).
  eapply safe_impl; [apply request_spec; [done|]|].
  - apply HUroots. right. apply elem_of_app. right. apply elem_of_filter_map. by exists (id, s).
  - intros b1 (Hb1 & Hg1 & Hk1). split_and!; [done|done|]. by eexists.
Qed.

Lemma build_module_reads_spec kv b :
  inv b → workload_descriptor kv.1 kv.2 ∈ bt_keys (b_nodes b) →
  (∀ ks, ks ∈ ds_shared (gi_set input) → shared_built ks b) →
  safe (λ b', inv b' ∧ grows b b' ∧ module_reads kv b') (build_module_reads input b kv).
Proof.
  intros Hb Hw Hsh. destruct kv as [wid m]. unfold build_module_reads. cbn [fst snd] in *.
  eapply safe_impl.
  - apply (try_fold_safe (λ b', inv b' ∧ grows b b') grows
      (shared_read_edge (workload_descriptor wid m))).
    + apply _.
    + intros c s s' _ H1 H2 _. by eapply shared_read_edge_grows.
    + intros s c _ [Hs Hg]. unfold build_shared_read.
      assert (∀ b', b' = s → (∀ id path x d, c.2 = EShared id path →
        bt_get id (ds_shared (gi_set input)) = Some x → shared_descriptor id x = Some d → False) →
        safe (λ b', (inv b' ∧ grows b b') ∧ grows s b' ∧ shared_read_edge (workload_descriptor wid m) c b')
          (Ok (E := fault GraphError) b')) as Hskip.
      { intros b' -> Hno. split_and!; try done. intros id path x d H1 H2 H3. exfalso. by eapply Hno. }
      destruct (c.2) as [|t f|k p|id path|k p|p] eqn:Ec;
        try (apply Hskip; [done|]; intros; congruence).
      destruct (bt_get id _) as [x|] eqn:Ex; [|apply Hskip; [done|]; intros; congruence].
      destruct (ResId_shared id) as [r|] eqn:Er.
      2: { apply Hskip; [done|]. intros id' path' x' d [= <- <-] Hx' Hd. unfold shared_descriptor in Hd.
           by rewrite Er in Hd. }
      destruct (Hsh (id, x)) as (d & Hd & Hk); [by apply bt_get_elem|]. cbn [fst snd] in Hd.
      pose proof Hd as Hd'. unfold shared_descriptor in Hd'. rewrite Er in Hd'. injection Hd' as Hd'.
      rewrite Hd'. eapply safe_impl; [apply add_edge_spec; [done|by eapply grows_keys..]|].
      intros b2 (H1 & H2 & H3). split_and!; [done|by etrans|done|].
      intros id' path' x' d2 Hc' Hx' Hd2. rewrite Ec in Hc'. injection Hc' as <- <-. congruence.
    + done.
  - intros b' ([Hb' Hg] & _ & Hall). split_and!; [done|done|]. exact Hall.
Qed.

Lemma empty_inv : inv empty_builder.
Proof.
  constructor; cbn [b_nodes b_explicit b_queue b_co empty_builder];
    first [apply bt_wf_nil | done | by intros ? ?%not_elem_of_nil].
Qed.

(** What the set itself calls for. *)
Definition roots_built (b : Builder) : Prop :=
  base_env ∈ bt_keys (b_nodes b)
  ∧ (∀ kv, kv ∈ ds_modules (gi_set input) → module_built kv b ∧ module_reads kv b)
  ∧ (∀ ks, ks ∈ ds_shared (gi_set input) → shared_built ks b).

(** The set's nodes and edges stay when nodes only gain dependencies. *)
Lemma roots_built_mono b b' :
  (∀ d n, bt_get d (b_nodes b) = Some n → ∃ n', bt_get d (b_nodes b') = Some n'
     ∧ n_depends_on n ⊆ n_depends_on n') →
  roots_built b → roots_built b'.
Proof.
  intros Hmono (H1 & H2 & H3).
  assert (∀ d, d ∈ bt_keys (b_nodes b) → d ∈ bt_keys (b_nodes b')) as Hk.
  { intros d [n (n' & Hn' & _)%Hmono]%bt_get_keys. apply bt_get_keys. by exists n'. }
  assert (∀ x y, depends (b_nodes b) x y → depends (b_nodes b') x y) as Hd.
  { intros x y (n & (n' & Hn' & Hs)%Hmono & Hy). exists n'. split; [done|]. by apply Hs. }
  split_and!; [by apply Hk|..].
  - intros kv [[Hm He] Hr]%H2. split; [split; [by apply Hk|]|].
    + intros key ext (d & Hx & Hdep)%He. exists d. auto.
    + intros c Hc id path s d E1 E2 E3. apply Hd. by eapply Hr.
  - intros ks (d & Hx & Hkey)%H3. exists d. auto.
Qed.

Lemma build_roots_spec :
  safe (λ b, inv b ∧ roots_built b
      ∧ length (b_queue b) = length (b_nodes b) ∧ (∀ d, d ∈ bt_keys (b_nodes b) → d ∈ b_queue b))
    (build_roots input).
Proof.
  unfold build_roots.
  eapply safe_bind; [apply request_spec; [apply empty_inv|apply HUroots; by left]|].
  intros b1 (Hb1 & Hg1 & Hk1). eapply safe_bind.
  { apply (try_fold_safe inv grows module_built); [apply _| | |done].
    - intros kv s s' _ H1 H2 _. by eapply module_built_grows.
    - intros s kv Hkv Hs. by apply build_module_spec. }
  intros b2 (Hb2 & Hg2 & Hm2). eapply safe_bind.
  { apply (try_fold_safe inv grows shared_built); [apply _| | |done].
    - intros ks s s' _ (d & Hd & Hk) H2 _. exists d. split; [done|]. by eapply grows_keys.
    - intros s ks Hks Hs. by apply build_shared_spec. }
  intros b3 (Hb3 & Hg3 & Hs3). eapply safe_impl.
  { apply (try_fold_safe (λ b, inv b ∧ grows b3 b) grows module_reads); [apply _| | |done].
    - intros kv s s' _ H1 H2 _ c Hc. eapply shared_read_edge_grows; [by apply H1|done].
    - intros s kv Hkv [Hs Hg]. eapply safe_impl; [apply build_module_reads_spec; [done|..]|].
      + eapply grows_keys; [exact Hg|]. eapply grows_keys; [exact Hg3|]. by apply Hm2.
      + intros ks (d & Hd & Hk)%Hs3. exists d. split; [done|]. by eapply grows_keys.
      + intros s' (H1 & H2 & H3). split_and!; [done|by etrans|done|done]. }
  intros b4 ([Hb4 Hg4] & _ & Hr4).
  assert (grows b1 b4) as Hg14 by (etrans; [exact Hg2|]; by etrans).
  assert (grows empty_builder b4) as Hg by (by etrans). split_and!; [done|..].
  - split_and!; [by eapply (grows_keys b1)|..].
    + intros kv Hkv. split; [|by apply Hr4].
      eapply module_built_grows; [by apply Hm2|by etrans].
    + intros ks (d & Hd & Hk)%Hs3. exists d. split; [done|]. by eapply (grows_keys b3).
  - pose proof (gr_count _ _ Hg) as Hc. cbn in Hc. lia.
  - intros d Hd. destruct (gr_new _ _ Hg d Hd) as [Hn|]; [by apply not_elem_of_nil in Hn|done].
Qed.

(** *** The whole construction *)

Lemma build_graph_spec fuel :
  length Ulist ≤ fuel →
  ∃ r, build_graph input fuel = Some r
    ∧ match r with
      | Ok g => ∃ b, g_nodes g = b_nodes b ∧ inv b ∧ roots_built b
          ∧ (∀ d, d ∈ bt_keys (b_nodes b) → expanded b d)
          ∧ (∀ c, c ∈ b_co b → co_match_dependents c = true → matched b c)
          ∧ topological_layers (b_nodes b) = Some (Ok (g_layers g))
      | Err (Error _) => True
      | Err Panic => False
      end.
Proof.
  intros Hfuel. unfold build_graph. pose proof build_roots_spec as Hr.
  destruct (build_roots input) as [b0|[e|]]; [|by eexists|done].
  destruct Hr as (Hb0 & Hroots & Hlen & Hq).
  destruct (expand_all_spec fuel b0) as (r1 & -> & Hs1); [done| |lia|].
  { intros d Hd. left. by apply Hq. }
  destruct r1 as [b1|[e|]]; [|by eexists|done].
  destruct Hs1 as (Hb1 & Hmono & Hexp).
  pose proof (missing_bound b1) as Hmb.
  destruct (match_dependents_spec (S (length (b_nodes b1) * length (b_nodes b1))) b1)
    as (r2 & -> & Hs2); [done|lia|].
  destruct r2 as [b2|[e|]]; [|by eexists|done].
  destruct Hs2 as (Hb2 & Hg2 & Hco & Hkeys & Hmatch).
  pose proof (topological_layers_cases (b_nodes b2) (inv_wf _ Hb2) (inv_nodes_closed _ Hb2)) as Ht.
  destruct (topological_layers (b_nodes b2)) as [[ls|[[]|]]|] eqn:El; try done; try (by eexists).
  eexists. split; [done|]. exists b2. split_and!; try done.
  - apply (roots_built_mono b1); [|by apply (roots_built_mono b0)].
    intros d n (n' & Hn' & _ & Hsub)%(gr_nodes _ _ Hg2). by exists n'.
  - intros d Hd. eapply expanded_grows; [|exact Hg2]. apply Hexp. by rewrite <-Hkeys.
Qed.
End invariant.

(** ** The descriptors a graph can reach *)

Section universe.
Context (input : GraphInput).

Definition graph_refs : list ResourceRef := mjoin (definition_refs <$> gi_definitions input).

(** The types, classes and IDs that the set and the definitions name. *)
Definition universe_types : list string :=
  (d_ty <$> root_descriptors input) ++ (rr_ty <$> graph_refs).
Definition universe_classes : list string :=
  default_class :: (d_class <$> root_descriptors input) ++ filter_map rr_class graph_refs.
Definition universe_ids : list string :=
  (d_id <$> root_descriptors input) ++ filter_map rr_id graph_refs
  ++ ((λ r, implicit_res_id (rr_ty r)) <$> graph_refs).

Definition universe : list Descriptor :=
  mjoin ((λ t, mjoin ((λ c, mk_Descriptor t c <$> universe_ids) <$> universe_classes))
    <$> universe_types).

Definition in_universe (d : Descriptor) : Prop :=
  d_ty d ∈ universe_types ∧ d_class d ∈ universe_classes ∧ d_id d ∈ universe_ids.

Lemma elem_of_universe d : in_universe d → d ∈ universe.
Proof.
  intros (Ht & Hc & Hi). destruct d as [t c i]. cbn [d_ty d_class d_id] in *.
  unfold universe. apply list_elem_of_join. eexists. split; [|apply list_elem_of_fmap; eauto].
  apply list_elem_of_join. eexists. split; [|apply list_elem_of_fmap; eauto].
  apply list_elem_of_fmap. eauto.
Qed.

Lemma root_in_universe d : d ∈ root_descriptors input → in_universe d.
Proof.
  intros Hd. unfold in_universe, universe_types, universe_classes, universe_ids. split_and!.
  - apply elem_of_app. left. by apply list_elem_of_fmap_2.
  - right. apply elem_of_app. left. by apply list_elem_of_fmap_2.
  - apply elem_of_app. left. by apply list_elem_of_fmap_2.
Qed.

Lemma resolve_in_universe def target d :
  def ∈ gi_definitions input → target ∈ definition_refs def →
  in_universe d → in_universe (resolve_ref input target d).
Proof.
  intros Hdef Ht (H1 & H2 & H3).
  assert (target ∈ graph_refs) as Hr.
  { apply list_elem_of_join. exists (definition_refs def). split; [done|].
    by apply list_elem_of_fmap_2. }
  assert (∀ c, rr_class target = Some c → c ∈ universe_classes) as Hc.
  { intros c Hc. right. apply elem_of_app. right. apply elem_of_filter_map. by exists target. }
  assert (∀ i, rr_id target = Some i → i ∈ universe_ids) as Hi.
  { intros i Hi. apply elem_of_app. right. apply elem_of_app. left. apply elem_of_filter_map.
    by exists target. }
  unfold resolve_ref, ResourceRef_resolve.
  destruct (is_implicit input (rr_ty target)); split_and!; cbn [d_ty d_class d_id].
  - apply elem_of_app. right. by apply list_elem_of_fmap_2.
  - destruct (rr_class target) as [c|]; [by apply Hc|by left].
  - destruct (rr_id target) as [i|]; [by apply Hi|]. apply elem_of_app. right.
    apply elem_of_app. right. by apply (list_elem_of_fmap_2 (λ r, implicit_res_id (rr_ty r))).
  - apply elem_of_app. right. by apply list_elem_of_fmap_2.
  - destruct (rr_class target) as [c|]; [by apply Hc|done].
  - destruct (rr_id target) as [i|]; [by apply Hi|done].
Qed.

Lemma expand_all_mono n m b r :
  expand_all input n b = Some r → n ≤ m → expand_all input m b = Some r.
Proof.
  revert m b. induction n as [|n IH]; intros m b.
  - simpl. destruct (b_queue b) eqn:E; [|done]. intros [= <-] _. destruct m; simpl; by rewrite E.
  - intros H Hm. destruct m as [|m]; [lia|]. cbn [expand_all] in *.
    destruct (b_queue b); [done|]. destruct (expand _ _ _); [|done]. apply IH; [done|lia].
Qed.

Lemma build_graph_mono n m r :
  build_graph input n = Some r → n ≤ m → build_graph input m = Some r.
Proof.
  unfold build_graph. destruct (build_roots input) as [b|]; [|done]. intros H Hm.
  destruct (expand_all input n b) as [r'|] eqn:E; [|done]. by rewrite (expand_all_mono _ m _ _ E Hm).
Qed.

(** The specification of the construction, for any fuel. *)
Lemma build_graph_Ok fuel g :
  build_graph input fuel = Some (Ok g) →
  ∃ b, g_nodes g = b_nodes b ∧ inv input in_universe b ∧ roots_built input b
    ∧ (∀ d, d ∈ bt_keys (b_nodes b) → expanded input b d)
    ∧ (∀ c, c ∈ b_co b → co_match_dependents c = true → matched b c)
    ∧ topological_layers (b_nodes b) = Some (Ok (g_layers g)).
Proof.
  intros H. apply (build_graph_mono _ (fuel + length universe)) in H; [|lia].
  destruct (build_graph_spec input in_universe resolve_in_universe universe elem_of_universe
    root_in_universe (fuel + length universe)) as (r & Hr & Hs); [lia|].
  rewrite Hr in H. by injection H as ->.
Qed.
End universe.

(** C32: graph construction always finishes and never panics: for every input there is a
    bound on the number of expansions (the descriptors that can be made of the types,
    classes and IDs named by the set and the definitions), with which [build_graph]
    returns a graph or an error; no [expect] or index of the source fails, and neither
    [match_dependents] nor the ordering runs out of the fuel they are given. *)
Theorem build_graph_total (input : GraphInput) (extra : nat) :
  ∃ r, build_graph input (length (universe input) + extra) = Some r ∧ r ≠ Err Panic.
Proof.
  destruct (build_graph_spec input (in_universe input) (resolve_in_universe input) (universe input)
    (elem_of_universe input) (root_in_universe input) (length (universe input) + extra))
    as (r & Hr & Hs); [lia|].
  exists r. split; [done|]. by intros ->.
Qed.

(** C34: the nodes of a graph are sound: each has a known type and a defined class, is
    filed under its own descriptor, and uses the definition that matching selects for
    it; its requests that carry inputs all carry the same inputs (in canonical form),
    which are the node's params, and a node requested only by reference has none. *)
Theorem build_graph_nodes_sound (input : GraphInput) (fuel : nat) (g : ResourceGraph)
    (d : Descriptor) (n : Node) :
  build_graph input fuel = Some (Ok g) → bt_get d (g_nodes g) = Some n →
  n_descriptor n = d
  ∧ is_Some (resource_type input (d_ty d))
  ∧ registry_contains (gi_classes input) (d_ty d) (d_class d) = true
  ∧ (∃ def, select_definition (gi_definitions input) (context_of input d) = Ok def
       ∧ n_definition n = rd_id def ∧ n_driver_type n = rd_driver_type def)
  ∧ (∀ r c, r ∈ n_requests n → rq_params r = Some c →
       to_canonical_string (option_default Null (n_params n)) = c)
  ∧ ((∀ r, r ∈ n_requests n → rq_params r = None) → n_params n = None).
Proof.
  intros Hg Hn. destruct (build_graph_Ok input fuel g Hg) as (b & Heq & Hb & _).
  rewrite Heq in Hn. destruct (inv_nodes _ _ _ Hb _ _ Hn) as [? ? ? ? _ _ _ Hreq _].
  unfold requests_ok in Hreq. split_and!; try done.
  - intros r c Hr Hc. destruct (bt_get d (b_explicit b)) as [[p c']|].
    + destruct Hreq as (_ & H2 & H3). destruct (H2 r Hr); congruence.
    + destruct Hreq as [_ H2]. rewrite H2 in Hc; done.
  - intros Hall. destruct (bt_get d (b_explicit b)) as [[p c']|]; [|by destruct Hreq].
    destruct Hreq as (H1 & _). by apply Hall in H1.
Qed.

(** What a definition's inputs and account read. *)
Definition definition_refers (def : ResourceDefinition) (e : Expr) : Prop :=
  refers DialectDefinition (Obj (di_values (rd_driver_inputs def))) e
  ∨ refers DialectDefinition (Obj (di_secrets (rd_driver_inputs def))) e
  ∨ ∃ account, rd_driver_account def = Some account ∧ refers DialectDriverAccount (Str account) e.

Lemma definition_placeholders_spec def cs e :
  definition_placeholders def = Ok cs → definition_refers def e → e ∈ cs.*2.
Proof.
  unfold definition_placeholders.
  pose proof (collect_collects DialectDefinition (Obj (di_values (rd_driver_inputs def))) "driver_inputs.values") as Hv.
  pose proof (collect_collects DialectDefinition (Obj (di_secrets (rd_driver_inputs def))) "driver_inputs.secrets") as Hs.
  destruct (collect_placeholders _ _ "driver_inputs.values") as [values|]; [|done]. cbn [collects] in Hv. cbv beta iota.
  destruct (collect_placeholders _ _ "driver_inputs.secrets") as [secrets|]; [|done]. cbn [collects] in Hs. cbv beta iota.
  destruct Hv as [_ Hv], Hs as [_ Hs]. unfold definition_refers. rewrite Hv, Hs. destruct (rd_driver_account def) as [account|].
  - pose proof (collect_collects DialectDriverAccount (Str account) "driver_account") as Ha.
    destruct (collect_placeholders _ _ "driver_account") as [accounts|]; [|done]. cbn [collects] in Ha. cbv beta iota. destruct Ha as [_ Ha].
    intros [= <-]. rewrite !fmap_app, !elem_of_app. intros [?|[?|(x & [= <-] & Hx%Ha)]]; auto.
  - intros [= <-]. rewrite !fmap_app, !elem_of_app. intros [?|[?|(x & [=] & _)]]; auto.
Qed.

Lemma shared_reads_spec m e :
  readable DialectSet (Obj (m_spec m)) → refers DialectSet (Obj (m_spec m)) e → e ∈ (shared_reads m).*2.
Proof.
  intros Hr He. unfold shared_reads. pose proof (collect_collects DialectSet (Obj (m_spec m)) "spec") as Hc.
  destruct (collect_placeholders _ _ _) as [cs|]; cbn in Hc; [by apply Hc|done].
Qed.

(** C33: a graph has every dependency that is asked for, and only dependencies that are
    nodes: the base environment and every workload are nodes; a workload depends on its
    externals and, when every text of its spec can be read as a template, on the resources of
    the set's shared part that a placeholder of the spec reads; a node depends on every
    resource that a placeholder of its definition's values, secrets or account reads; a
    co-provisioned resource depends on its source or, with [is_dependent], the source on it, the
    co-provisioned resource depends on every other resource that a placeholder of its params
    reads, and with [match_dependents] every other resource that depends on the source depends
    on it too. *)
Theorem build_graph_dependencies (input : GraphInput) (fuel : nat) (g : ResourceGraph) :
  build_graph input fuel = Some (Ok g) →
  nodes_closed (g_nodes g)
  ∧ base_env ∈ bt_keys (g_nodes g)
  ∧ (∀ wid m, (wid, m) ∈ ds_modules (gi_set input) →
       let w := workload_descriptor wid m in
       w ∈ bt_keys (g_nodes g)
       ∧ (∀ key ext, (key, ext) ∈ m_externals m → ∃ d,
            external_descriptor wid key ext = Some d ∧ depends (g_nodes g) w d)
       ∧ (readable DialectSet (Obj (m_spec m)) → ∀ id path s d, refers DialectSet (Obj (m_spec m)) (EShared id path) →
            bt_get id (ds_shared (gi_set input)) = Some s → shared_descriptor id s = Some d →
            depends (g_nodes g) w d))
  ∧ (∀ d n def, bt_get d (g_nodes g) = Some n →
       find_definition input (n_definition n) = Some def →
       (∀ target field, definition_refers def (EResource target field) →
          depends (g_nodes g) d (resolve_ref input target d))
       ∧ (∀ key prov, (key, prov) ∈ rd_provision def →
            ∃ target, ResourceRef_parse key = Ok target
              ∧ let co := resolve_ref input target d in
                (if p_is_dependent prov then depends (g_nodes g) d co
                 else depends (g_nodes g) co d)
                ∧ (∀ other field, refers DialectDefinition (option_default Null (p_params prov)) (EResource other field) →
                   resolve_ref input other d ≠ co → depends (g_nodes g) co (resolve_ref input other d))
                ∧ (p_match_dependents prov = true →
                   ∀ x, depends (g_nodes g) x d → x ≠ co → x ≠ d → depends (g_nodes g) x co))).
Proof.
  intros Hg. destruct (build_graph_Ok input fuel g Hg) as (b & -> & Hb & Hroots & Hexp & Hm & _).
  destruct Hroots as (Hbase & Hmods & _). split_and!; [by apply (inv_nodes_closed _ _ _ Hb)|done|..].
  - intros wid m [[Hw Hext] Hreads]%Hmods. split_and!; [done|done|].
    intros Hr id path s d (c & He & Hc)%(shared_reads_spec m _ Hr)%list_elem_of_fmap_1 H2 H3. by eapply (Hreads c Hc).
  - intros d n def Hn Hdef.
    destruct (Hexp d) as (n' & def' & cs & Hn' & Hdef' & Hcs & Hin & Hprov).
    { apply bt_get_keys. by exists n. }
    rewrite Hn in Hn'. injection Hn' as <-. rewrite Hdef in Hdef'. injection Hdef' as <-. split.
    + intros target field (c & He & Hc)%(definition_placeholders_spec def cs _ Hcs)%list_elem_of_fmap_1. specialize (Hin c Hc).
      unfold input_edge in Hin. by rewrite <- He in Hin.
    + intros key prov (target & cs' & Hp & Hcs' & Hedge & Hparams & Hco)%Hprov.
      exists target. split; [done|]. cbn [fst snd] in *. split_and!; [done| |].
      * intros other field Hr Hne. unfold provision_params in Hcs'.
        pose proof (collect_collects DialectDefinition (option_default Null (p_params prov)) (("provision." +:+ key) +:+ ".params")) as Hc.
        rewrite Hcs' in Hc. apply (proj2 Hc), list_elem_of_fmap_1 in Hr as (c & He & Hr). specialize (Hparams c Hr).
        unfold param_edge in Hparams. rewrite <- He in Hparams. by destruct Hparams.
      * intros Hmd x Hx H1 H2. rewrite Hmd in Hco. by apply (Hm _ Hco eq_refl).
Qed.

(** provisioning in layer order respects every dependency: the layers of a graph
    hold each node exactly once, and each dependency of a node is in an earlier layer;
    so the graph has no cycle. *)
Theorem build_graph_ordered (input : GraphInput) (fuel : nat) (g : ResourceGraph) :
  build_graph input fuel = Some (Ok g) →
  graph_order g ≡ₚ bt_keys (g_nodes g)
  ∧ acyclic (g_nodes g)
  ∧ ∀ i layer d x, g_layers g !! i = Some layer → d ∈ layer → depends (g_nodes g) d x →
      ∃ j layer', j < i ∧ g_layers g !! j = Some layer' ∧ x ∈ layer'.
Proof.
  intros Hg. destruct (build_graph_Ok input fuel g Hg) as (b & Hn & Hb & _ & _ & _ & Ht).
  rewrite Hn. pose proof (layers_spec (b_nodes b) (g_layers g) (inv_wf _ _ _ Hb)
    (inv_nodes_closed _ _ _ Hb) Ht) as (Hac & Hperm & Hiff).
  split_and!; [done|done|]. intros i layer d x Hi Hd Hdep.
  assert (d ∈ mjoin (take (S i) (g_layers g))) as Hd'.
  { rewrite (take_S_r _ _ _ Hi), join_app. apply elem_of_app. right. simpl. by rewrite app_nil_r. }
  apply Hiff in Hd' as [_ Hall]; [|by eapply lookup_lt_Some].
  apply Hall, list_elem_of_join in Hdep as (layer' & Hx & (j & Hj)%list_elem_of_lookup).
  exists j, layer'. apply lookup_take_Some in Hj as [Hj Hlt]. done.
Qed.

(** ** An example *)

Definition test_definition (id ty : string) (inputs : jmap) (provision : list (string * Provision))
    : ResourceDefinition :=
  mk_ResourceDefinition id id ty "openporch/echo" None (mk_DriverInputs inputs [] []) provision
    [mk_Criterion None None None None None None].

(** A workload with a database, which refers to a DNS name and co-provisions a bucket. *)
Definition test_input : GraphInput :=
  mk_GraphInput "acme" "shop" "dev" "development"
    (mk_DeploymentSet
      [("web", mk_Module "default" [("image", Str "${shared.zone.host}")]
         [("db", mk_External "postgres" "default" None None)])]
      [("zone", mk_SharedResource "dns" "default" None)])
    [test_definition "d-base" "base-env" [] []; test_definition "d-work" "workload" [] [];
     test_definition "d-dns" "dns" [] []; test_definition "d-s3" "s3" [] [];
     test_definition "d-pg" "postgres" [("h", Str "${resources.dns.outputs.host}")]
       [("s3", mk_Provision false true None)]]
    builtin_types [].

Definition test_graph : ResourceGraph :=
  match build_graph test_input 10 with
  | Some (Ok g) => g
  | _ => mk_ResourceGraph [] []
  end.

Definition web_db (ty : string) : Descriptor := mk_Descriptor ty "default" "modules.web.externals.db".

Example test_graph_layers :
  g_layers test_graph
  = [[base_env; web_db "dns"; mk_Descriptor "dns" "default" "shared.zone"];
     [web_db "postgres"]; [web_db "s3"]; [mk_Descriptor "workload" "default" "modules.web"]].
Proof. by vm_compute. Qed.

Lemma build_graph_nodes_sound_witness :
  ∃ n, bt_get (web_db "postgres") (g_nodes test_graph) = Some n ∧ n_definition n = "d-pg"
    ∧ n_descriptor n = web_db "postgres".
Proof.
  eexists. split; [vm_compute; reflexivity|]. split; [reflexivity|].
  eapply (build_graph_nodes_sound test_input 10 test_graph (web_db "postgres"));
    vm_compute; reflexivity.
Defined.

Definition web_module : Module_ :=
  mk_Module "default" [("image", Str "${shared.zone.host}")] [("db", mk_External "postgres" "default" None None)].

(** The workload depends on the shared name that its image is read from. *)
Lemma build_graph_dependencies_witness :
  depends (g_nodes test_graph) (workload_descriptor "web" web_module) (mk_Descriptor "dns" "default" "shared.zone").
Proof.
  assert (build_graph test_input 10 = Some (Ok test_graph)) as Hg by (vm_compute; reflexivity).
  destruct (build_graph_dependencies test_input 10 test_graph Hg) as (_ & _ & Hm & _).
  destruct (Hm "web" web_module) as (_ & _ & Hr); [left|].
  pose proof (collect_collects DialectSet (Obj (m_spec web_module)) "spec") as Hc.
  assert (snd <$> collected (collect_placeholders DialectSet (Obj (m_spec web_module)) "spec") = [EShared "zone" [Name "host"]])
    as Hcs by (vm_compute; reflexivity).
  destruct (collect_placeholders DialectSet (Obj (m_spec web_module)) "spec") as [cs|e]; [|discriminate Hcs].
  destruct Hc as [Hread Hrefs]. refine (Hr Hread "zone" [Name "host"] (mk_SharedResource "dns" "default" None) _ _ _ _).
  - apply Hrefs. simpl in Hcs. rewrite Hcs. left.
  - reflexivity.
  - vm_compute. reflexivity.
Defined.

Lemma build_graph_ordered_witness :
  graph_order test_graph ≡ₚ bt_keys (g_nodes test_graph).
Proof. apply (build_graph_ordered test_input 10). vm_compute. reflexivity. Defined.

(** ** Files that are not expanded *)

(** A workload that reads a shared DNS name and has a file marked [noExpand] with the content
    [content]. *)
Definition verbatim_input (content : string) : GraphInput :=
  mk_GraphInput "acme" "shop" "dev" "development"
    (mk_DeploymentSet
      [("web", mk_Module "default"
         [("containers", Obj [("web", Obj
            [("files", Obj [("/t", Obj [("content", Str content); ("noExpand", Bool true)])]);
             ("variables", Obj [("HOST", Str "${shared.zone.host}")])])])] [])]
      [("zone", mk_SharedResource "dns" "default" None)])
    [test_definition "d-base" "base-env" [] []; test_definition "d-work" "workload" [] [];
     test_definition "d-dns" "dns" [] []]
    builtin_types [].

(** C40: a text that cannot be read hides what a workload reads. In any set, when some text of a
    workload's spec is not a template of the set's dialect, which the verbatim content of a file
    marked [noExpand] need not be, the step that adds the workload's dependencies on shared
    resources adds none, whatever its other texts read. So there are sets that differ in the
    content of such a file only, whose graphs are built, and in one of which the workload has no
    dependency on the shared resource that a variable of it reads, and is in its layer instead of
    a later one, while in the other it depends on it. *)
Theorem unreadable_text_hides_reads :
  (∀ (input : GraphInput) (b : Builder) (wid : string) (m : Module_),
     ¬ readable DialectSet (Obj (m_spec m)) → build_module_reads input b (wid, m) = Ok b)
  ∧ ∃ verbatim plain g g',
      let w := mk_Descriptor "workload" "default" "modules.web" in
      let zone := mk_Descriptor "dns" "default" "shared.zone" in
      build_graph (verbatim_input verbatim) 10 = Some (Ok g) ∧ g_layers g = [[base_env; zone; w]] ∧ ¬ depends (g_nodes g) w zone
      ∧ build_graph (verbatim_input plain) 10 = Some (Ok g') ∧ g_layers g' = [[base_env; zone]; [w]] ∧ depends (g_nodes g') w zone.
Proof.
  split.
  - intros input b wid m Hr. unfold build_module_reads, shared_reads.
    pose proof (collect_collects DialectSet (Obj (m_spec m)) "spec") as Hc.
    destruct (collect_placeholders _ _ _) as [cs|]; [|done]. by destruct Hc.
  - exists "awk '{ print ${1} }'", "plain". do 2 eexists. cbv zeta.
    do 2 (split; [by vm_compute|]). split; [rewrite <- dependsb_spec; by vm_compute|].
    do 2 (split; [by vm_compute|]). rewrite <- dependsb_spec. by vm_compute.
Qed.
