(* ===== verification/Redact.v ===== *)
(** * Redaction of secrets ([crates/core/src/redact.rs])

    Known secret values, as written and in the escaped forms that JSON and HCL print,
    are replaced in text. The JSON escaping of a string is [serde_json]'s: the section
    variable [json_string] is the text it prints, quotes included. *)

From Stdlib Require Import Ascii.
From stdpp Require Import base sets strings sorting list.
From S2P Require Import Prelude Strings OrdMap.

Local Open Scope string_scope.
Local Open Scope nat_scope.
Local Open Scope list_scope.

Definition REDACTED : string := "[REDACTED]".
Definition PASSES : nat := 8.

(** Every form of every value. *)
Abbreviation Redactor := (list string).

(** [Vec::dedup]: drops consecutive repeats. *)
Fixpoint dedup (l : list string) : list string :=
  match l with
  | x :: l' =>
      match l' with
      | y :: _ => if String.eqb x y then dedup l' else x :: dedup l'
      | [] => [x]
      end
  | [] => []
  end.

(** ** One pass *)

(** The occurrences of [form] from [from] on, also overlapping ones, as byte ranges. *)
Fixpoint find_all (fuel : nat) (text form : string) (from : nat) : option (list (nat * nat)) :=
  match str_find form (str_drop from text) with
  | None => Some []
  | Some i =>
      match fuel with
      | O => None
      | S fuel =>
          let start := from + i in
          let step :=
            match str_drop start text with String c _ => char_width c | ε => 1 end in
          rest ← find_all fuel text form (start + step);
          Some ((start, start + String.length form) :: rest)
      end
  end.

(** The text from [at_] on with the merged ranges replaced; [start] and [end_] are the
    range being merged. *)
Fixpoint merge_ranges (text marker : string) (at_ start end_ : nat) (ranges : list (nat * nat))
    : string :=
  match ranges with
  | (s, e) :: ranges =>
      if s <=? end_ then merge_ranges text marker at_ start (Nat.max end_ e) ranges
      else str_take (start - at_) (str_drop at_ text) +:+ marker
           +:+ merge_ranges text marker end_ s e ranges
  | [] => str_take (start - at_) (str_drop at_ text) +:+ marker +:+ str_drop end_ text
  end.

(** The outer option is running out of fuel, the inner one the source's [None]. *)
Definition redact_pass (forms : Redactor) (text marker : string) : option (option string) :=
  found ← mapM (λ form, find_all (String.length text) text form 0) forms;
  match osort (mjoin found) with
  | [] => Some None
  | (start, end_) :: ranges => Some (Some (merge_ranges text marker 0 start end_ ranges))
  end.

Definition redact_marker (forms : Redactor) : string :=
  if existsb (λ f, str_contains f REDACTED) forms then ε else REDACTED.

(** Further passes until nothing matches, or the marker alone. *)
Fixpoint redact_loop (passes : nat) (forms : Redactor) (marker out : string) : option string :=
  match passes with
  | O => Some marker
  | S passes =>
      match redact_pass forms out marker with
      | None => None
      | Some (Some next) => redact_loop passes forms marker next
      | Some None => Some out
      end
  end.

Definition redact (forms : Redactor) (text : string) : option string :=
  let marker := redact_marker forms in
  match redact_pass forms text marker with
  | None => None
  | Some None => Some text
  | Some (Some out) => redact_loop PASSES forms marker out
  end.

(** ** Building a redactor *)

Section forms.
Context (json_string : string → string).

(** U+2028 and U+2029. *)
Definition line_separator : string := encode_utf8 8232.
Definition paragraph_separator : string := encode_utf8 8233.
Definition unicode_escape (hex : string) : string := String backslash ("u" +:+ hex).

Definition json_form (v : string) : string :=
  option_default ε (j ← strip_prefix (str1 dquote) (json_string v); strip_suffix (str1 dquote) j).

Definition go_form (json : string) : string :=
  replace paragraph_separator (unicode_escape "2029")
    (replace line_separator (unicode_escape "2028")
      (replace "&" (unicode_escape "0026")
        (replace ">" (unicode_escape "003e")
          (replace "<" (unicode_escape "003c") json)))).

Definition hcl_form (s : string) : string := replace "%{" "%%{" (replace "${" "$${" s).

Definition escaped_forms (v : string) : list string :=
  let json := json_form v in
  let go := go_form json in
  filter (λ f, f ≠ v) [hcl_form json; hcl_form go; json; go].

Definition redactor_add (forms : Redactor) (values : list string) : Redactor :=
  dedup (osort (forms ++ mjoin ((λ v,
    if str_is_empty v then [] else escaped_forms v ++ [v]) <$> values))).

Definition redactor_new (values : list string) : Redactor := redactor_add [] values.
End forms.

Definition redactor_is_empty (forms : Redactor) : bool :=
  match forms with [] => true | _ => false end.

(** The unit tests of the source, with plain quoting for [serde_json]. *)
Definition quote_plain (v : string) : string := str1 dquote +:+ v +:+ str1 dquote.
Example redact_replaces :
  redact (redactor_new quote_plain ["hunter2"; "abc"; ε]) "pw=hunter2; x=abc!"
  = Some "pw=[REDACTED]; x=[REDACTED]!".
Proof. by vm_compute. Qed.
Example redact_overlapping :
  redact (redactor_new quote_plain ["abcd"; "cdef"]) "xabcdefx" = Some "x[REDACTED]x".
Proof. by vm_compute. Qed.
Example redact_hcl_form :
  redact (redactor_new quote_plain ["a${b"]) "v = a$${b" = Some "v = [REDACTED]".
Proof. by vm_compute. Qed.
Example redact_marker_secret :
  redact (redactor_new quote_plain ["ED"]) "xEDy" = Some "xy".
Proof. by vm_compute. Qed.

(** ** Lemmas *)

Lemma elem_of_dedup x l : x ∈ dedup l ↔ x ∈ l.
Proof.
  induction l as [|y [|z l] IH]; [done|done|]. simpl in *.
  destruct (String.eqb_spec y z) as [->|Hne]; rewrite ?elem_of_cons, IH; set_solver.
Qed.

Lemma elem_of_osort {A} `{Ord A} (x : A) l : x ∈ osort l ↔ x ∈ l.
Proof. by rewrite (osort_perm l). Qed.

Lemma str_find_bound p s i : str_find p s = Some i → i + String.length p ≤ String.length s.
Proof.
  revert i. induction s as [|c s IH]; intros i; cbn [str_find].
  - destruct (starts_with p ε) eqn:E; [|done]. intros [= <-].
    apply starts_with_spec in E as [r Hr]. apply (f_equal String.length) in Hr.
    rewrite length_app_str in Hr. simpl in *. lia.
  - destruct (starts_with p (String c s)) eqn:E.
    + intros [= <-]. apply starts_with_spec in E as [r ->]. rewrite length_app_str. lia.
    + intros (j & Hj & ->)%fmap_Some. apply IH in Hj. simpl. lia.
Qed.

Lemma find_all_total fuel text form from :
  form ≠ ε → String.length text ≤ fuel + from → ∃ l, find_all fuel text form from = Some l.
Proof.
  intros Hne. revert from. induction fuel as [|fuel IH]; intros from Hf.
  - simpl. destruct (str_find form (str_drop from text)) as [i|] eqn:E; [|by eexists].
    apply str_find_bound in E. rewrite length_str_drop in E. destruct form; [done|]. simpl in E. lia.
  - simpl. destruct (str_find form (str_drop from text)) as [i|] eqn:E; [|by eexists].
    destruct (IH (from + i + match str_drop (from + i) text with String c _ => char_width c | ε => 1 end))
      as [l ->]; [|by eexists].
    assert (∀ c, 1 ≤ char_width c) by (intros; unfold char_width; repeat case_match; lia).
    case_match; [lia|]. specialize (H a). lia.
Qed.

Lemma find_all_nil fuel text form from :
  find_all fuel text form from = Some [] → ¬ occurs form (str_drop from text).
Proof.
  destruct fuel; simpl; (destruct (str_find form _) eqn:E; [|by intros _; apply str_find_None]);
    [done|]. by destruct (find_all _ _ _ _).
Qed.

Lemma redact_pass_total forms text marker :
  ε ∉ forms → ∃ r, redact_pass forms text marker = Some r.
Proof.
  intros Hne. unfold redact_pass.
  destruct (mapM _ forms) as [found|] eqn:E.
  - simpl. destruct (osort (mjoin found)) as [|[s e] l]; by eexists.
  - exfalso. apply mapM_None in E. apply Exists_exists in E as (form & Hin & Hf).
    destruct (find_all_total (String.length text) text form 0) as [l Hl]; [|lia|congruence].
    intros ->. done.
Qed.

(** Nothing matches: no form occurs. *)
Lemma redact_pass_None forms text marker :
  redact_pass forms text marker = Some None → ∀ form, form ∈ forms → ¬ occurs form text.
Proof.
  unfold redact_pass. destruct (mapM _ forms) as [found|] eqn:E; [|done]. simpl.
  destruct (osort (mjoin found)) as [|[s e] l] eqn:Es; [|done]. intros _ form Hin.
  apply mapM_Some in E. destruct (Forall2_elem_l _ _ _ _ E Hin) as (r & Hr & Hf).
  assert (r = []) as ->.
  { destruct r as [|x r]; [done|]. exfalso. assert (x ∈ mjoin found) as Hx.
    { apply list_elem_of_join. exists (x :: r). split; [by left|done]. }
    apply elem_of_osort in Hx. rewrite Es in Hx. by apply not_elem_of_nil in Hx. }
  by apply find_all_nil in Hf.
Qed.

Lemma occurs_empty p : p ≠ ε → ¬ occurs p ε.
Proof. intros Hp (a & b & H). by destruct a, p. Qed.

Lemma redact_marker_clean forms form :
  form ∈ forms → form ≠ ε → ¬ occurs form (redact_marker forms).
Proof.
  intros Hin Hne. unfold redact_marker. destruct (existsb _ forms) eqn:E; [by apply occurs_empty|].
  intros Ho%str_contains_spec. rewrite <-not_true_iff_false, existsb_exists in E. apply E.
  exists form. split; [by apply list_elem_of_In|done].
Qed.

Lemma redact_loop_clean passes forms out r form :
  form ∈ forms → form ≠ ε →
  redact_loop passes forms (redact_marker forms) out = Some r → ¬ occurs form r.
Proof.
  intros Hin Hne. revert out. induction passes as [|passes IH]; intros out; simpl.
  - intros [= <-]. by apply redact_marker_clean.
  - destruct (redact_pass _ _ _) as [[next|]|] eqn:E; [apply IH| |done].
    intros [= <-]. by eapply redact_pass_None.
Qed.

Lemma redact_loop_total passes forms marker out :
  ε ∉ forms → ∃ r, redact_loop passes forms marker out = Some r.
Proof.
  intros Hne. revert out. induction passes as [|passes IH]; intros out; simpl; [by eexists|].
  destruct (redact_pass_total forms out marker Hne) as [[next|] ->]; [apply IH|by eexists].
Qed.

(** ** What one pass leaves *)

(** The bytes of [text], which starts at position [i], outside every range. *)
Fixpoint keep (ranges : list (nat * nat)) (i : nat) (text : string) : string :=
  match text with
  | ε => ε
  | String c text =>
      if existsb (λ r : nat * nat, (r.1 <=? i) && (i <? r.2)) ranges then keep ranges (S i) text
      else String c (keep ranges (S i) text)
  end.

Lemma keep_app ranges i a b :
  keep ranges i (a +:+ b) = keep ranges i a +:+ keep ranges (i + String.length a) b.
Proof.
  revert i. induction a as [|c a IH]; intros i; simpl; [by rewrite Nat.add_0_r|].
  rewrite IH. replace (S i + String.length a) with (i + S (String.length a)) by lia.
  by destruct (existsb _ ranges).
Qed.

Lemma keep_uncovered ranges i text :
  (∀ r j, r ∈ ranges → i ≤ j → j < i + String.length text → j < r.1 ∨ r.2 ≤ j) →
  keep ranges i text = text.
Proof.
  revert i. induction text as [|c text IH]; intros i H; simpl; [done|].
  destruct (existsb _ ranges) eqn:E.
  - apply existsb_exists in E as (r & Hr%list_elem_of_In & Hi). bool_hyps.
    destruct (H r i Hr); simpl; lia.
  - f_equal. apply IH. intros r j Hr Hj1 Hj2. apply (H r j Hr); simpl; lia.
Qed.

Lemma keep_covered ranges i text s e :
  (s, e) ∈ ranges → s ≤ i → i + String.length text ≤ e → keep ranges i text = ε.
Proof.
  intros Hin. revert i. induction text as [|c text IH]; intros i Hs He; simpl in *; [done|].
  assert (existsb (λ r : nat * nat, (r.1 <=? i) && (i <? r.2)) ranges = true) as ->.
  { apply existsb_exists. exists (s, e). split; [by apply list_elem_of_In|]. simpl.
    apply andb_true_iff. rewrite Nat.leb_le, Nat.ltb_lt. lia. }
  apply IH; lia.
Qed.

Lemma keep_ext ranges ranges' i text :
  (∀ j, i ≤ j → (∃ r, r ∈ ranges ∧ r.1 ≤ j < r.2) ↔ (∃ r, r ∈ ranges' ∧ r.1 ≤ j < r.2)) →
  keep ranges i text = keep ranges' i text.
Proof.
  revert i. induction text as [|c text IH]; intros i H; simpl; [done|].
  assert (existsb (λ r : nat * nat, (r.1 <=? i) && (i <? r.2)) ranges
    = existsb (λ r : nat * nat, (r.1 <=? i) && (i <? r.2)) ranges') as ->.
  { apply eq_true_iff_eq. rewrite !existsb_exists. setoid_rewrite <-list_elem_of_In.
    setoid_rewrite andb_true_iff. setoid_rewrite Nat.leb_le.
    apply (H i). lia. }
  rewrite IH; [done|]. intros j Hj. apply H. lia.
Qed.

(** The text kept between two positions. *)
Lemma str_drop_split a b text :
  a ≤ b → str_drop a text = str_take (b - a) (str_drop a text) +:+ str_drop b text.
Proof.
  intros Hab. rewrite <-(str_take_drop (b - a) (str_drop a text)) at 1. f_equal.
  revert b text Hab. induction a as [|a IH]; intros b text Hab.
  - simpl. by rewrite Nat.sub_0_r; destruct text.
  - destruct text as [|c text]; [by destruct (b - S a), b|]. destruct b as [|b]; [lia|].
    simpl. apply IH. lia.
Qed.

Lemma keep_past ranges s e i text :
  e ≤ i → keep ((s, e) :: ranges) i text = keep ranges i text.
Proof.
  intros He. apply keep_ext. intros j Hj. split.
  - intros ([a b] & [[= -> ->]|Hin]%elem_of_cons & Hr); simpl in *; [lia|]. by exists (a, b).
  - intros (r & Hin & Hr). exists r. split; [by right|done].
Qed.

(** What is kept before, inside and after a leading range. *)
Lemma keep_split ranges at_ start end_ text :
  at_ ≤ start → start ≤ end_ → (∀ r, r ∈ ranges → end_ ≤ r.1) →
  keep ((start, end_) :: ranges) at_ (str_drop at_ text)
  = str_take (start - at_) (str_drop at_ text) +:+ keep ranges end_ (str_drop end_ text).
Proof.
  intros H1 H2 H3. rewrite (str_drop_split at_ start text H1) at 1. rewrite keep_app. f_equal.
  - apply keep_uncovered. intros r j Hr Hj1 Hj2. rewrite length_str_take in Hj2.
    apply elem_of_cons in Hr as [->|Hr]; [simpl; lia|]. specialize (H3 r Hr). lia.
  - rewrite (str_drop_split start end_ text H2), length_str_take, length_str_drop.
    destruct (decide (start ≤ String.length text)) as [Hle|Hgt].
    + replace (at_ + _) with start by lia. rewrite keep_app.
      rewrite (keep_covered _ _ _ start end_); [|by left|lia|rewrite length_str_take; lia].
      rewrite length_str_take, length_str_drop. cbn [String.append].
      destruct (decide (end_ ≤ String.length text)) as [Hle'|Hgt'].
      * replace (start + _) with end_ by lia. by apply keep_past.
      * assert (str_drop end_ text = ε) as -> by (apply length_zero_eps; rewrite length_str_drop; lia).
        done.
    + assert (str_drop start text = ε) as -> by (apply length_zero_eps; rewrite length_str_drop; lia).
      assert (str_drop end_ text = ε) as -> by (apply length_zero_eps; rewrite length_str_drop; lia).
      by destruct (end_ - start).
Qed.

Lemma merge_ranges_spec text marker ranges : ∀ at_ start end_,
  at_ ≤ start → start ≤ end_ →
  StronglySorted (λ x y : nat * nat, x.1 ≤ y.1) ranges →
  (∀ r, r ∈ ranges → start ≤ r.1 ∧ r.1 ≤ r.2) →
  ∃ pieces, merge_ranges text marker at_ start end_ ranges = join marker pieces
    ∧ concat_str pieces = keep ((start, end_) :: ranges) at_ (str_drop at_ text)
    ∧ 2 ≤ length pieces.
Proof.
  induction ranges as [|[s e] ranges IH]; intros at_ start end_ Hat Hse Hsort Hr; cbn [merge_ranges].
  - exists [str_take (start - at_) (str_drop at_ text); str_drop end_ text].
    split_and!; [done| |simpl; lia]. rewrite keep_split by (done || by intros ? ?%not_elem_of_nil).
    simpl. rewrite app_eps_r. f_equal. symmetry. apply keep_uncovered. by intros ? ? ?%not_elem_of_nil.
  - apply StronglySorted_inv in Hsort as [Hsort Hs]. rewrite Forall_forall in Hs.
    destruct (Hr (s, e)) as [Hss Hse']; [by left|]. simpl in *.
    destruct (Nat.leb_spec s end_) as [Hle|Hgt].
    + destruct (IH at_ start (Nat.max end_ e)) as (pieces & Hp & Hc & Hl); [done|lia|done| |].
      { intros r Hin. apply Hr. by right. }
      exists pieces. split_and!; [done| |done]. rewrite Hc. apply keep_ext. intros j Hj. split.
      * intros (r & [->|Hin]%elem_of_cons & Hj'); simpl in *.
        -- destruct (decide (j < end_)); [exists (start, end_)|exists (s, e)];
             (split; [set_solver|simpl; lia]).
        -- exists r. split; [by right; right|done].
      * intros (r & [->|[->|Hin]%elem_of_cons]%elem_of_cons & Hj'); simpl in *.
        -- exists (start, Nat.max end_ e). split; [by left|simpl; lia].
        -- exists (start, Nat.max end_ e). split; [by left|simpl; lia].
        -- exists r. split; [by right|done].
    + destruct (IH end_ s e) as (pieces & Hp & Hc & Hl); [lia|done|done| |].
      { intros r Hin. split; [by apply Hs|]. apply Hr. by right. }
      exists (str_take (start - at_) (str_drop at_ text) :: pieces). split_and!; [|..|simpl; lia].
      * rewrite Hp. destruct pieces as [|x pieces]; [simpl in Hl; lia|]. by rewrite join_cons.
      * simpl. rewrite Hc. rewrite (keep_split ((s, e) :: ranges)); [done|done|done|].
        intros r [->|Hin]%elem_of_cons; [simpl; lia|]. specialize (Hs r Hin). simpl in Hs. lia.
Qed.

Lemma str_drop_drop a b s : str_drop a (str_drop b s) = str_drop (b + a) s.
Proof.
  revert s. induction b as [|b IH]; intros s; simpl; [by destruct s|].
  destruct s; [by destruct a|apply IH].
Qed.

Lemma str_find_at p s i : str_find p s = Some i → str_take (String.length p) (str_drop i s) = p.
Proof.
  intros H. pose proof (str_find_bound _ _ _ H) as Hb. apply str_find_Some in H.
  rewrite H at 1. replace (str_drop i (str_take i s +:+ _)) with (p +:+ str_drop (i + String.length p) s).
  - apply str_take_length_app.
  - replace i with (String.length (str_take i s)) at 2 by (rewrite length_str_take; lia).
    by rewrite str_drop_length_app.
Qed.

(** A range that a pass removes is an occurrence of a form. *)
Lemma find_all_sound fuel text form from l s e :
  find_all fuel text form from = Some l → (s, e) ∈ l →
  e = s + String.length form ∧ str_take (String.length form) (str_drop s text) = form.
Proof.
  revert from l. induction fuel as [|fuel IH]; intros from l; simpl;
    (destruct (str_find form (str_drop from text)) as [i|] eqn:E;
      [|by intros [= <-] ?%not_elem_of_nil]); [done|].
  destruct (find_all fuel _ _ _) as [rest|] eqn:Er; [|done]. simpl.
  intros [= <-] [[= -> ->]|Hin]%elem_of_cons; [|by eapply IH]. split; [done|].
  apply str_find_at in E. by rewrite <-str_drop_drop.
Qed.

Lemma pair_sorted (l : list (nat * nat)) :
  StronglySorted ole l → StronglySorted (λ x y : nat * nat, x.1 ≤ y.1) l.
Proof.
  intros H. induction H as [|x l Hl IH Hx]; constructor; [done|].
  eapply Forall_impl; [exact Hx|]. intros [c d] Hle. destruct x as [a b]. simpl.
  unfold ole, cmp, ord_prod, pair_cmp in Hle. simpl in Hle.
  destruct (Nat.compare_spec a c); [lia|lia|done].
Qed.

Lemma replace_ne p r s : r ≠ ε → s ≠ ε → replace p r s ≠ ε.
Proof.
  intros Hr Hs. destruct s as [|c s]; [done|]. unfold replace. cbn [replace_go].
  destruct (starts_with p (String c s)); [|done]. by destruct r.
Qed.

Lemma forms_ne json_string v f :
  json_form json_string v ≠ ε → f ∈ escaped_forms json_string v → f ≠ ε.
Proof.
  intros Hj [_ Hf]%list_elem_of_filter.
  assert (go_form (json_form json_string v) ≠ ε) as Hgo by (by repeat (apply replace_ne; [done|])).
  assert (∀ s, s ≠ ε → hcl_form s ≠ ε) as Hhcl by (intros; by repeat (apply replace_ne; [done|])).
  repeat (apply elem_of_cons in Hf as [->|Hf]; [by auto|]). by apply not_elem_of_nil in Hf.
Qed.

Lemma elem_of_redactor_add json_string forms values f :
  f ∈ redactor_add json_string forms values ↔
  f ∈ forms ∨ ∃ v, v ∈ values ∧ v ≠ ε ∧ (f = v ∨ f ∈ escaped_forms json_string v).
Proof.
  unfold redactor_add. rewrite elem_of_dedup, elem_of_osort, elem_of_app, list_elem_of_join. f_equiv. split.
  - intros (l & Hf & (v & -> & Hv)%list_elem_of_fmap). destruct v as [|c v]; [by apply not_elem_of_nil in Hf|].
    exists (String c v). split_and!; [done|done|]. simpl in Hf.
    apply elem_of_app in Hf as [Hf|Hf%list_elem_of_singleton]; auto.
  - intros (v & Hv & Hne & Hf). eexists. split; [|by apply list_elem_of_fmap; exists v].
    destruct v as [|c v]; [done|]. simpl. apply elem_of_app.
    destruct Hf as [->|Hf]; [right; by left|by left].
Qed.

(** Redaction always finishes, and leaves no form. *)
Lemma redact_clean (forms : Redactor) (text : string) :
  ε ∉ forms → ∃ out, redact forms text = Some out ∧ ∀ f, f ∈ forms → ¬ occurs f out.
Proof.
  intros Hne. unfold redact.
  destruct (redact_pass_total forms text (redact_marker forms) Hne) as [[next|] Hp]; rewrite Hp.
  - destruct (redact_loop_total PASSES forms (redact_marker forms) next Hne) as [out Hout].
    exists out. split; [done|]. intros f Hf.
    refine (redact_loop_clean PASSES forms next out f Hf _ Hout). by intros ->.
  - exists text. split; [done|]. by eapply redact_pass_None.
Qed.

(** C37: redaction hides every secret: no known value and no escaped form of one occurs
    in redacted text, whatever the text and however the values overlap each other or
    the marker; and redaction always finishes with a result. (The JSON form of a
    non-empty string is assumed to be non-empty.) *)
Theorem redact_hides_secrets (json_string : string → string) (values : list string) (text : string) :
  (∀ v, v ∈ values → v ≠ ε → json_form json_string v ≠ ε) →
  ∃ out, redact (redactor_new json_string values) text = Some out
    ∧ ∀ v, v ∈ values → v ≠ ε →
        ¬ occurs v out ∧ ∀ f, f ∈ escaped_forms json_string v → ¬ occurs f out.
Proof.
  intros Hjson. destruct (redact_clean (redactor_new json_string values) text) as (out & Hout & Hall).
  { intros [?%not_elem_of_nil|(v & Hv & Hv' & [?|Hf])]%elem_of_redactor_add; [done..|].
    by apply (forms_ne json_string v ε); [apply Hjson| |]. }
  exists out. split; [done|]. intros v Hv Hvne. split.
  - apply Hall, elem_of_redactor_add. right. exists v. auto.
  - intros f Hf. apply Hall, elem_of_redactor_add. right. exists v. auto.
Qed.

Lemma redact_hides_secrets_witness :
  ∃ out, redact (redactor_new quote_plain ["hunter2"]) "pw=hunter2" = Some out ∧ ¬ occurs "hunter2" out.
Proof.
  destruct (redact_hides_secrets quote_plain ["hunter2"] "pw=hunter2") as (out & Hout & Hall).
  - intros v ->%list_elem_of_singleton _. by vm_compute.
  - exists out. split; [exact Hout|]. refine (proj1 (Hall "hunter2" _ _)); [by left|done].
Defined.

(** Redaction removes nothing but secrets: a pass that changes the text removes
    exactly the bytes covered by some occurrence of a known form, overlapping and
    adjacent occurrences becoming one marker, and keeps every other byte in order; and
    text in which no form occurs is returned as it is. *)
Theorem redact_removes_only_secrets (forms : Redactor) (text marker : string) :
  ε ∉ forms →
  ((∀ f, f ∈ forms → ¬ occurs f text) → redact forms text = Some text)
  ∧ ∀ out, redact_pass forms text marker = Some (Some out) →
      ∃ ranges pieces,
        (∀ s e, (s, e) ∈ ranges → ∃ f, f ∈ forms ∧ e = s + String.length f
           ∧ str_take (String.length f) (str_drop s text) = f)
        ∧ out = join marker pieces ∧ 2 ≤ length pieces
        ∧ concat_str pieces = keep ranges 0 text.
Proof.
  intros Hne. unfold redact_pass.
  assert (∀ found, mapM (λ form, find_all (String.length text) text form 0) forms = Some found →
    ∀ s e, (s, e) ∈ osort (mjoin found) → ∃ f, f ∈ forms ∧ e = s + String.length f
      ∧ str_take (String.length f) (str_drop s text) = f) as Hocc.
  { intros found E s e (l & Hin & Hl)%elem_of_osort%list_elem_of_join.
    apply mapM_Some in E. destruct (Forall2_elem_r _ _ _ _ E Hl) as (f & Hf & Hfind).
    exists f. split; [done|]. by eapply find_all_sound. }
  split.
  - intros Hno. unfold redact.
    destruct (redact_pass_total forms text (redact_marker forms) Hne) as [r Hr]. rewrite Hr.
    destruct r as [next|]; [exfalso|done]. unfold redact_pass in Hr.
    destruct (mapM _ forms) as [found|] eqn:E; [|done]. simpl in Hr.
    destruct (osort (mjoin found)) as [|[s e] l] eqn:Es; [done|].
    destruct (Hocc found eq_refl s e) as (f & Hf & _ & Hat); [rewrite Es; by left|].
    apply (Hno f Hf). exists (str_take s text), (str_drop (s + String.length f) text).
    pose proof (str_take_drop (String.length f) (str_drop s text)) as Hs. rewrite Hat in Hs.
    by rewrite <-str_drop_drop, Hs, str_take_drop.
  - intros out. destruct (mapM _ forms) as [found|] eqn:E; [|done]. simpl.
    pose proof (osort_sorted (mjoin found)) as Hsort%pair_sorted.
    specialize (Hocc found eq_refl).
    destruct (osort (mjoin found)) as [|[s e] l]; [done|]. intros [= <-].
    apply StronglySorted_inv in Hsort as [Hsort Hs]. rewrite Forall_forall in Hs.
    assert (∀ a b, (a, b) ∈ (s, e) :: l → a ≤ b) as Hle.
    { intros a b (f & _ & -> & _)%Hocc. lia. }
    destruct (merge_ranges_spec text marker l 0 s e) as (pieces & Hp & Hc & Hl);
      [lia|apply Hle; by left|done|..].
    { intros [a b] Hin. split; [by apply Hs|]. apply Hle. by right. }
    exists ((s, e) :: l), pieces. split_and!; [done|done|done|]. rewrite Hc. by destruct text.
Qed.

Lemma redact_removes_only_secrets_witness :
  redact ["abc"] "xyz" = Some "xyz".
Proof.
  apply (redact_removes_only_secrets ["abc"] "xyz" REDACTED).
  - intros H%list_elem_of_singleton. done.
  - intros f ->%list_elem_of_singleton H%str_contains_spec. by vm_compute in H.
Defined.
