(* ===== verification/SetsProofs.v ===== *)
(** * Deployment sets: equality, identity and deltas ([crates/core/src/sets.rs])

    Sets are equal exactly when their JSON forms are, equal sets have equal IDs, and
    the delta between two sets applied to the first gives the second. *)

From Stdlib Require Import Ascii.
From stdpp Require Import base sets strings sorting list.
From S2P Require Import Prelude Strings OrdMap Regex Ids Float64 Json Canonical Sets.

Local Open Scope string_scope.
Local Open Scope nat_scope.
Local Open Scope list_scope.

(** ** Maps *)

Lemma bt_get_im_get {V} (k : string) (m : list (string * V)) : bt_get k m = im_get k m.
Proof.
  induction m as [|[j v] m IH]; [done|]. cbn [bt_get im_get]. rewrite IH.
  destruct (String.eqb_spec k j) as [->|Hne]; [by rewrite cmp_refl|].
  destruct (cmp k j) eqn:E; [|done|done]. by apply cmp_eq_iff in E.
Qed.

Lemma bt_wf_im_wf {V} (m : list (string * V)) : bt_wf m → im_wf m.
Proof. apply bt_wf_NoDup. Qed.

Lemma bt_of_list_id {V} (m : list (string * V)) : bt_wf m → bt_of_list m = m.
Proof.
  intros Hm. apply bt_ext; [apply bt_of_list_wf|done|]. intros k.
  by rewrite bt_get_of_list, bt_get_im_get by (by apply bt_wf_im_wf).
Qed.

(** Maps with related values at the same keys. *)
Definition map_rel {A B} (R : A → B → Prop) : list (string * A) → list (string * B) → Prop :=
  Forall2 (λ x y, x.1 = y.1 ∧ R x.2 y.2).

Lemma bt_map_rel {A B} (R : A → B → Prop) (m : list (string * A)) (n : list (string * B)) :
  bt_wf m → bt_wf n → (∀ k, option_Forall2 R (bt_get k m) (bt_get k n)) → map_rel R m n.
Proof.
  revert n. induction m as [|[k x] m IH]; intros [|[j y] n] Hm Hn H.
  - constructor.
  - specialize (H j). cbn [bt_get] in H. rewrite cmp_refl in H. inversion H.
  - specialize (H k). cbn [bt_get] in H. rewrite cmp_refl in H. inversion H.
  - pose proof Hm as [Hk Hm']%bt_wf_cons. pose proof Hn as [Hj Hn']%bt_wf_cons.
    destruct (cmp k j) eqn:E.
    + apply cmp_eq_iff in E as ->. pose proof (H j) as Hjj. cbn [bt_get] in Hjj.
      rewrite cmp_refl in Hjj. inversion Hjj; subst. constructor; [done|]. apply IH; [done..|].
      intros i. specialize (H i). cbn [bt_get] in H. destruct (cmp i j) eqn:Ei; [|done|done].
      apply cmp_eq_iff in Ei as ->. rewrite !bt_get_lt by done. constructor.
    + exfalso. specialize (H k). cbn [bt_get] in H. rewrite cmp_refl, E in H.
      rewrite bt_get_lt in H; [inversion H|]. eapply Forall_impl; [exact Hj|].
      intros i Hi. unfold olt in *. by apply (transitivity (y := j) (R := olt)).
    + exfalso. apply cmp_gt_lt in E. specialize (H j). cbn [bt_get] in H. rewrite cmp_refl, E in H.
      rewrite bt_get_lt in H; [inversion H|]. eapply Forall_impl; [exact Hk|].
      intros i Hi. unfold olt in *. by apply (transitivity (y := k) (R := olt)).
Qed.

Lemma bt_eqb_map_rel {A} (eqb : A → A → bool) m n :
  bt_eqb eqb m n = true ↔ map_rel (λ x y, eqb x y = true) m n.
Proof.
  revert n. induction m as [|[k x] m IH]; intros [|[j y] n]; simpl.
  - split; [constructor|done].
  - split; [done|]. by inversion 1.
  - split; [done|]. by inversion 1.
  - unfold map_rel in *. rewrite Forall2_cons, <-IH, !andb_true_iff, String.eqb_eq. simpl. tauto.
Qed.

Lemma map_rel_impl {A B} (R S : A → B → Prop) m n :
  map_rel R m n → (∀ k x y, (k, x) ∈ m → (k, y) ∈ n → R x y → S x y) → map_rel S m n.
Proof.
  unfold map_rel. induction 1 as [|[k x] [j y] m n [Hk HR] HF IH]; intros HS; [constructor|].
  simpl in *. subst. constructor; [split; [done|]; simpl; eapply HS; [by left..|done]|].
  apply IH. intros k' x' y' Hx Hy. apply (HS k'); by right.
Qed.

(** ** Equality of JSON forms *)

(** Two maps have equal JSON forms iff their values do, key by key. *)
Lemma map_to_value_equiv {A} (f : A → Value) m n :
  bt_wf m → bt_wf n →
  map_to_value f m ≡ map_to_value f n ↔ map_rel (λ x y, f x ≡ f y) m n.
Proof.
  intros Hm Hn. unfold map_to_value, equiv, value_equiv, veq. cbn [norm].
  rewrite <-!list_fmap_compose. rewrite !bt_of_list_id.
  2,3: unfold bt_wf, bt_keys in *; by rewrite <-list_fmap_compose.
  transitivity (((λ kv : string * A, (kv.1, norm (f kv.2))) <$> m)
    = ((λ kv : string * A, (kv.1, norm (f kv.2))) <$> n)); [split; [by intros [= H]|intros H; f_equal; exact H]|].
  unfold map_rel. clear. revert n. induction m as [|[k x] m IH]; intros [|[j y] n]; csimpl.
  - by split.
  - split; [done|]. by inversion 1.
  - split; [done|]. by inversion 1.
  - rewrite Forall2_cons, <-IH. simpl. split; [by intros [= -> -> ->]|by intros [[-> ->] ->]].
Qed.

(** Equality of objects is equality of each field. *)
Lemma Obj_equiv m n :
  im_wf m → im_wf n → Obj m ≡ Obj n ↔ ∀ k, norm <$> im_get k m = norm <$> im_get k n.
Proof. apply norm_Obj_eq. Qed.

Lemma Str_equiv s t : Str s ≡ Str t ↔ s = t.
Proof. unfold equiv, value_equiv, veq. simpl. split; [by intros [= ->]|by intros ->]. Qed.

Definition opt_equiv (v w : option Value) : Prop := norm <$> v = norm <$> w.

Lemma option_value_eqb v w :
  from_option value_wf True v → from_option value_wf True w →
  option_eqb value_eqb v w = true ↔ opt_equiv v w.
Proof.
  unfold opt_equiv. destruct v as [v|], w as [w|]; simpl; intros Hv Hw; try (by split).
  rewrite value_eqb_equiv by done. unfold equiv, value_equiv, veq.
  split; [by intros ->|by intros [= ->]].
Qed.

Definition external_map (e : External) : jmap :=
  [("type", Str (e_ty e)); ("class", Str (e_class e))]
  ++ opt_field "id" (Str <$> e_id e) ++ opt_field "params" (e_params e).

Lemma external_to_value_map e : external_to_value e = Obj (external_map e).
Proof. done. Qed.

Lemma external_fields e k :
  im_get k (external_map e)
  = if String.eqb k "type" then Some (Str (e_ty e))
    else if String.eqb k "class" then Some (Str (e_class e))
    else if String.eqb k "id" then Str <$> e_id e
    else if String.eqb k "params" then e_params e else None.
Proof.
  destruct e as [t c [i|] [p|]]; cbn [external_map e_ty e_class e_id e_params opt_field fmap
    option_fmap option_map app im_get];
    (destruct (String.eqb_spec k "type") as [->|]; [done|]);
    (destruct (String.eqb_spec k "class") as [->|]; [done|]);
    (destruct (String.eqb_spec k "id") as [->|]; [done|]); by destruct (String.eqb k "params").
Qed.

Lemma external_to_value_im_wf e :
  im_wf (external_map e).
Proof.
  destruct e as [t c [i|] [p|]]; unfold im_wf; cbn; apply (bool_decide_unpack _); by vm_compute.
Qed.

Lemma external_to_value_wf e :
  value_wf (external_to_value e) ↔ from_option value_wf True (e_params e).
Proof.
  pose proof (external_to_value_im_wf e) as Hk. revert Hk.
  rewrite external_to_value_map. destruct e as [t c [i|] [p|]]; unfold external_map; cbn [e_ty e_class e_id e_params opt_field
    fmap option_fmap option_map app]; intros Hk; rewrite value_wf_Obj, ?Forall_cons, Forall_nil;
    simpl; tauto.
Qed.

Lemma external_equiv e f :
  external_to_value e ≡ external_to_value f ↔
  e_ty e = e_ty f ∧ e_class e = e_class f ∧ e_id e = e_id f ∧ opt_equiv (e_params e) (e_params f).
Proof.
  rewrite !external_to_value_map, (Obj_equiv _ _ (external_to_value_im_wf e) (external_to_value_im_wf f)).
  unfold opt_equiv. split.
  - intros H. pose proof (H "type") as Ht. pose proof (H "class") as Hc. pose proof (H "id") as Hi.
    pose proof (H "params") as Hp.
    rewrite !external_fields in Ht, Hc, Hi, Hp. simpl in *.
    split_and!; [congruence|congruence| |done].
    destruct (e_id e), (e_id f); simpl in Hi; congruence.
  - intros (H1 & H2 & H3 & H4) k. rewrite !external_fields, H1, H2, H3.
    destruct (String.eqb k "type"), (String.eqb k "class"), (String.eqb k "id"), (String.eqb k "params"); done.
Qed.

Lemma external_eqb_equiv e f :
  value_wf (external_to_value e) → value_wf (external_to_value f) →
  external_eqb e f = true ↔ external_to_value e ≡ external_to_value f.
Proof.
  rewrite !external_to_value_wf. intros He Hf. rewrite external_equiv. unfold external_eqb.
  rewrite !andb_true_iff, !String.eqb_eq, option_value_eqb by done.
  assert (option_eqb String.eqb (e_id e) (e_id f) = true ↔ e_id e = e_id f) as ->; [|tauto].
  destruct (e_id e), (e_id f); simpl; rewrite ?String.eqb_eq; split; congruence.
Qed.

(** *** Shared resources *)

Definition shared_as_external (s : SharedResource) : External :=
  mk_External (s_ty s) (s_class s) None (s_params s).

Lemma shared_as_external_value s :
  external_to_value (shared_as_external s) = shared_resource_to_value s.
Proof. by destruct s as [t c [p|]]. Qed.

Lemma shared_resource_eqb_equiv s t :
  value_wf (shared_resource_to_value s) → value_wf (shared_resource_to_value t) →
  shared_resource_eqb s t = true ↔ shared_resource_to_value s ≡ shared_resource_to_value t.
Proof.
  rewrite <-!shared_as_external_value. intros Hs Ht. rewrite <-external_eqb_equiv by done.
  unfold external_eqb, shared_resource_eqb. simpl. by rewrite andb_true_r.
Qed.

(** *** Modules *)

(** What a module of a program satisfies. *)
Record module_wf (m : Module_) : Prop := mk_module_wf {
  mw_spec : value_wf (Obj (m_spec m));
  mw_externals : bt_wf (m_externals m);
  mw_values : ∀ k e, (k, e) ∈ m_externals m → value_wf (external_to_value e) }.

Lemma map_to_value_wf {A} (f : A → Value) m :
  bt_wf m → (∀ k x, (k, x) ∈ m → value_wf (f x)) → value_wf (map_to_value f m).
Proof.
  intros Hm Hf. unfold map_to_value. apply value_wf_Obj. split.
  - apply im_wf_fmap. by apply bt_wf_im_wf.
  - apply Forall_fmap, Forall_forall. intros [k x] Hx. by eapply Hf.
Qed.

Lemma module_to_value_wf m : module_wf m → value_wf (module_to_value m).
Proof.
  intros [Hs Hb Hv]. unfold module_to_value. apply value_wf_Obj. split.
  - apply (bool_decide_unpack _). by vm_compute.
  - repeat (apply Forall_cons; split; [|]); [done|done| |apply Forall_nil_2].
    by apply map_to_value_wf.
Qed.

Lemma three_fields_equiv a b c a' b' c' (ka kb kc : string) :
  NoDup [ka; kb; kc] →
  Obj [(ka, a); (kb, b); (kc, c)] ≡ Obj [(ka, a'); (kb, b'); (kc, c')] ↔
  a ≡ a' ∧ b ≡ b' ∧ c ≡ c'.
Proof.
  intros Hnd. rewrite Obj_equiv by exact Hnd. unfold equiv, value_equiv, veq. split.
  - intros H. pose proof (H ka) as Ha. pose proof (H kb) as Hb. pose proof (H kc) as Hc.
    apply NoDup_cons in Hnd as [H1 Hnd]. apply NoDup_cons in Hnd as [H2 _].
    assert (kb ≠ ka) by (intros ->; apply H1; by left).
    assert (kc ≠ ka) by (intros ->; apply H1; by right; left).
    assert (kc ≠ kb) by (intros ->; apply H2; by left).
    cbn [im_get] in Ha, Hb, Hc. rewrite !String.eqb_refl in Ha, Hb, Hc.
    rewrite (proj2 (String.eqb_neq kb ka)) in Hb by done.
    rewrite (proj2 (String.eqb_neq kc ka)), (proj2 (String.eqb_neq kc kb)) in Hc by done.
    simpl in *. split_and!; congruence.
  - intros (H1 & H2 & H3) k. cbn [im_get].
    destruct (String.eqb k ka), (String.eqb k kb), (String.eqb k kc); simpl; congruence.
Qed.

Lemma module_equiv m n :
  module_wf m → module_wf n →
  module_to_value m ≡ module_to_value n ↔
  m_class m = m_class n ∧ Obj (m_spec m) ≡ Obj (m_spec n)
  ∧ map_rel (λ e f, external_to_value e ≡ external_to_value f) (m_externals m) (m_externals n).
Proof.
  intros Hm Hn. unfold module_to_value. rewrite three_fields_equiv.
  - by rewrite Str_equiv, (map_to_value_equiv _ _ _ (mw_externals _ Hm) (mw_externals _ Hn)).
  - apply (bool_decide_unpack _). by vm_compute.
Qed.

Lemma module_eqb_equiv m n :
  module_wf m → module_wf n →
  module_eqb m n = true ↔ module_to_value m ≡ module_to_value n.
Proof.
  intros Hm Hn. rewrite module_equiv by done. unfold module_eqb.
  rewrite !andb_true_iff, String.eqb_eq, bt_eqb_map_rel.
  rewrite (value_eqb_equiv _ _ (mw_spec _ Hm) (mw_spec _ Hn)).
  assert (map_rel (λ x y, external_eqb x y = true) (m_externals m) (m_externals n)
    ↔ map_rel (λ e f, external_to_value e ≡ external_to_value f) (m_externals m) (m_externals n))
    as ->; [|tauto].
  split; intros H; (eapply map_rel_impl; [exact H|]); intros k x y Hx Hy;
    apply external_eqb_equiv; first [exact (mw_values _ Hm _ _ Hx) | exact (mw_values _ Hn _ _ Hy)].
Qed.

(** *** Sets *)

Definition shared_wf (m : list (string * SharedResource)) : Prop :=
  bt_wf m ∧ ∀ k s, (k, s) ∈ m → value_wf (shared_resource_to_value s).

Record set_wf (a : DeploymentSet) : Prop := mk_set_wf {
  sw_modules : bt_wf (ds_modules a);
  sw_module : ∀ k m, (k, m) ∈ ds_modules a → module_wf m;
  sw_shared : shared_wf (ds_shared a) }.

Lemma shared_eqb_equiv s t :
  shared_wf s → shared_wf t → shared_eqb s t = true ↔ shared_to_value s ≡ shared_to_value t.
Proof.
  intros [Hs Hsv] [Ht Htv]. unfold shared_eqb, shared_to_value.
  rewrite bt_eqb_map_rel, map_to_value_equiv by done.
  split; intros H; (eapply map_rel_impl; [exact H|]); intros k x y Hx Hy;
    apply shared_resource_eqb_equiv; eauto.
Qed.

Lemma modules_eqb_equiv m n :
  bt_wf m → bt_wf n → (∀ k x, (k, x) ∈ m → module_wf x) → (∀ k x, (k, x) ∈ n → module_wf x) →
  bt_eqb module_eqb m n = true ↔ map_to_value module_to_value m ≡ map_to_value module_to_value n.
Proof.
  intros Hm Hn Hmw Hnw. rewrite bt_eqb_map_rel, map_to_value_equiv by done.
  split; intros H; (eapply map_rel_impl; [exact H|]); intros k x y Hx Hy;
    apply module_eqb_equiv; eauto.
Qed.

Lemma two_fields_equiv a b a' b' (ka kb : string) :
  ka ≠ kb → Obj [(ka, a); (kb, b)] ≡ Obj [(ka, a'); (kb, b')] ↔ a ≡ a' ∧ b ≡ b'.
Proof.
  intros Hne. assert (NoDup [ka; kb]) as Hnd.
  { apply NoDup_cons. split; [by intros ->%list_elem_of_singleton|apply NoDup_singleton]. }
  rewrite Obj_equiv by exact Hnd. unfold equiv, value_equiv, veq. split.
  - intros H. pose proof (H ka) as Ha. pose proof (H kb) as Hb. cbn [im_get] in Ha, Hb.
    rewrite !String.eqb_refl in Ha, Hb. rewrite (proj2 (String.eqb_neq kb ka)) in Hb by done.
    simpl in *. split; congruence.
  - intros (H1 & H2) k. cbn [im_get]. destruct (String.eqb k ka), (String.eqb k kb); simpl; congruence.
Qed.

Lemma set_eqb_equiv a b :
  set_wf a → set_wf b → set_eqb a b = true ↔ set_to_value a ≡ set_to_value b.
Proof.
  intros [Ham Hamw Has] [Hbm Hbmw Hbs]. unfold set_eqb, set_to_value.
  rewrite andb_true_iff, two_fields_equiv by done.
  by rewrite modules_eqb_equiv, shared_eqb_equiv by done.
Qed.

Lemma set_to_value_wf a : set_wf a → value_wf (set_to_value a).
Proof.
  intros [Hm Hmw [Hs Hsw]]. apply value_wf_Obj. split.
  - apply (bool_decide_unpack _). by vm_compute.
  - repeat (apply Forall_cons; split; [|]); [| |apply Forall_nil_2]; simpl.
    + apply map_to_value_wf; [done|]. intros k x Hx. apply module_to_value_wf. eauto.
    + by apply map_to_value_wf.
Qed.

(** set IDs identify content: for sets of valid strings and exact integers, two
    sets are equal ([==]) exactly when their canonical JSON is the same text; so equal
    sets have the same ID under any digest, and sets with different contents have the
    same ID only if the digest collides. *)
Theorem set_id_identifies (digest : string → string) (a b : DeploymentSet) :
  set_wf a → set_wf b → json_utf8 (set_to_value a) → json_utf8 (set_to_value b) →
  exact_value (set_to_value a) → exact_value (set_to_value b) →
  (set_eqb a b = true ↔ canonical_json a = canonical_json b)
  ∧ (set_eqb a b = true → set_id digest a = set_id digest b)
  ∧ (set_id digest a = set_id digest b →
     set_eqb a b = true ∨ ∃ x y, x ≠ y ∧ digest x = digest y).
Proof.
  intros Ha Hb Hua Hub Hea Heb.
  assert (set_eqb a b = true ↔ canonical_json a = canonical_json b) as Hiff.
  { rewrite set_eqb_equiv by done. unfold canonical_json.
    rewrite canonical_equiv; [done|..]; try done; split; auto using set_to_value_wf. }
  split_and!; [done|..].
  - intros H. unfold set_id. by rewrite (proj1 Hiff H).
  - intros H. destruct (decide (canonical_json a = canonical_json b)) as [Heq|Hne].
    + left. by apply Hiff.
    + right. by exists (canonical_json a), (canonical_json b).
Qed.

(** Two writings of one set, and a set with another class. *)
Definition test_set (spec : jmap) : DeploymentSet :=
  mk_DeploymentSet [("web", mk_Module "default" spec [("db", mk_External "postgres" "default" None None)])] [].
Definition test_spec : jmap := [("image", Str "a"); ("port", Num (PosInt 80))].
Definition test_spec' : jmap := [("port", Num (PosInt 80)); ("image", Str "a")].

Lemma test_set_wf spec : value_wf (Obj spec) → set_wf (test_set spec).
Proof.
  intros Hs. constructor.
  - repeat constructor.
  - intros k m [= -> ->]%list_elem_of_singleton. constructor; [done|repeat constructor|].
    intros k e [= -> ->]%list_elem_of_singleton. apply external_to_value_wf. done.
  - split; [constructor|]. by intros k s ?%not_elem_of_nil.
Qed.

Lemma set_id_identifies_witness :
  test_set test_spec ≠ test_set test_spec'
  ∧ set_id (λ s, s) (test_set test_spec) = set_id (λ s, s) (test_set test_spec').
Proof.
  split; [discriminate|]. apply set_id_identifies.
  1,2: apply test_set_wf; repeat split; apply (bool_decide_unpack _); by vm_compute.
  1,2,3,4: by repeat split.
  by vm_compute.
Defined.

(** ** Deltas *)

Section delta_loops.
Context {PatchOperation : Type}.
Context (patch : Value → list PatchOperation → result Value string).
Context (module_from_value : Value → result Module_ string).

Abbreviation Modules := (list (string * Module_)).

Lemma bt_get_insert_string {V} (k j : string) (v : V) m :
  bt_get j (bt_insert k v m) = if String.eqb j k then Some v else bt_get j m.
Proof.
  destruct (String.eqb_spec j k) as [->|Hne]; [apply bt_get_insert_eq|by apply bt_get_insert_ne].
Qed.

Lemma bt_get_remove_string {V} (k j : string) (m : list (string * V)) :
  bt_get j (bt_remove k m) = if String.eqb j k then None else bt_get j m.
Proof.
  destruct (String.eqb_spec j k) as [->|Hne]; [apply bt_get_remove_eq|by apply bt_get_remove_ne].
Qed.

(** Removals succeed exactly when each removed workload is there, and remove them. *)
Lemma remove_loop (l : list string) (m : Modules) :
  bt_wf m →
  match try_fold remove_module m l with
  | Ok m' => bt_wf m' ∧ (∀ id, id ∈ l → is_Some (bt_get id m)) ∧
      ∀ id, bt_get id m' = if bool_decide (id ∈ l) then None else bt_get id m
  | Err _ => ¬ (NoDup l ∧ ∀ id, id ∈ l → is_Some (bt_get id m))
  end.
Proof.
  revert m. induction l as [|x l IH]; intros m Hm; simpl.
  - split_and!; [done|by intros id ?%not_elem_of_nil|done].
  - unfold remove_module at 1. destruct (bt_get x m) as [old|] eqn:Ex; simpl.
    2: { intros [_ H]. destruct (H x) as [? ?]; [by left|congruence]. }
    specialize (IH (bt_remove x m) (bt_wf_remove _ _ Hm)).
    destruct (try_fold remove_module (bt_remove x m) l) as [m'|e].
    + destruct IH as (Hwf & Hin & Hget). split_and!; [done|..].
      * intros id [->|Hid]%elem_of_cons; [by eexists|]. apply Hin in Hid as [v Hv].
        rewrite bt_get_remove_string in Hv. destruct (String.eqb id x); [done|]. by eexists.
      * intros id. rewrite Hget, bt_get_remove_string.
        destruct (String.eqb_spec id x) as [->|Hne].
        -- rewrite (bool_decide_eq_true_2 (x ∈ x :: l)) by (by left). by case_bool_decide.
        -- assert (bool_decide (id ∈ x :: l) = bool_decide (id ∈ l)) as ->; [|done].
           apply bool_decide_ext. rewrite elem_of_cons. tauto.
    + intros [[Hx Hnd]%NoDup_cons Hall]. apply IH. split; [done|]. intros id Hid.
      rewrite bt_get_remove_string. destruct (String.eqb_spec id x) as [->|Hne]; [done|].
      apply Hall. by right.
Qed.

(** Additions succeed exactly when no added workload is there already. *)
Lemma add_loop (l m : Modules) :
  bt_wf m → NoDup l.*1 →
  match try_fold add_module m l with
  | Ok m' => bt_wf m' ∧ (∀ id, id ∈ l.*1 → bt_get id m = None) ∧
      ∀ id, bt_get id m' = match im_get id l with Some x => Some x | None => bt_get id m end
  | Err _ => ∃ id, id ∈ l.*1 ∧ is_Some (bt_get id m)
  end.
Proof.
  revert m. induction l as [|[k x] l IH]; intros m Hm Hnd; simpl.
  - split_and!; [done|by intros id ?%not_elem_of_nil|done].
  - csimpl in Hnd. apply NoDup_cons in Hnd as [Hk Hnd]. unfold add_module at 1, bt_contains. simpl.
    destruct (bt_get k m) as [old|] eqn:Ek; simpl; [exists k; csimpl; split; [by left|by eexists]|].
    specialize (IH (bt_insert k x m) (bt_wf_insert _ _ _ Hm) Hnd).
    destruct (try_fold add_module _ l) as [m'|e].
    + destruct IH as (Hwf & Hnone & Hget). split_and!; [done|..].
      * intros id. csimpl. intros [->|Hid]%elem_of_cons; [done|]. apply Hnone in Hid.
        rewrite bt_get_insert_string in Hid. by destruct (String.eqb id k).
      * intros id. rewrite Hget, bt_get_insert_string.
        destruct (String.eqb_spec id k) as [->|Hne]; [|done].
        by rewrite (proj2 (im_get_None k l)) by done.
    + destruct IH as (id & Hid & [v Hv]). exists id. csimpl. split; [by right|].
      rewrite bt_get_insert_string in Hv. destruct (String.eqb_spec id k) as [->|]; [done|by eexists].
Qed.

(** One update. *)
Definition updated (m : Module_) (ops : list PatchOperation) (m' : Module_) : Prop :=
  ∃ doc, patch (module_to_value m) ops = Ok doc ∧ module_from_value doc = Ok m'.

Lemma update_loop (l : list (string * list PatchOperation)) (m m' : Modules) :
  bt_wf m → NoDup l.*1 → try_fold (update_module patch module_from_value) m l = Ok m' →
  bt_wf m' ∧ ∀ id,
    match im_get id l with
    | Some ops => ∃ old new, bt_get id m = Some old ∧ bt_get id m' = Some new ∧ updated old ops new
    | None => bt_get id m' = bt_get id m
    end.
Proof.
  revert m. induction l as [|[k ops] l IH]; intros m Hm Hnd H; simpl in H.
  - injection H as ->. done.
  - csimpl in Hnd. apply NoDup_cons in Hnd as [Hk Hnd].
    destruct (bt_get k m) as [old|] eqn:Ek; simpl in H; [|done].
    destruct (patch (module_to_value old) ops) as [doc|] eqn:Ep; simpl in H; [|done].
    destruct (module_from_value doc) as [new|] eqn:Ef; simpl in H; [|done].
    destruct (IH _ (bt_wf_insert k new m Hm) Hnd H) as [Hwf Hget]. split; [done|].
    intros w. specialize (Hget w). cbn [im_get].
    destruct (String.eqb_spec w k) as [->|Hne]; rewrite bt_get_insert_string in Hget.
    + rewrite (proj2 (im_get_None k l)), String.eqb_refl in Hget by done.
      exists old, new. split_and!; [done|done|]. by exists doc.
    + by rewrite (proj2 (String.eqb_neq w k)) in Hget by done.
Qed.

Lemma update_loop_Ok (l : list (string * list PatchOperation)) (m : Modules) :
  NoDup l.*1 →
  (∀ id ops, (id, ops) ∈ l → ∃ old new, bt_get id m = Some old ∧ updated old ops new) →
  ∃ m', try_fold (update_module patch module_from_value) m l = Ok m'.
Proof.
  revert m. induction l as [|[k ops] l IH]; intros m Hnd H; simpl; [by eexists|].
  csimpl in Hnd. apply NoDup_cons in Hnd as [Hk Hnd].
  destruct (H k ops) as (old & new & Hg & doc & Hp & Hf); [by left|].
  rewrite Hg. simpl. rewrite Hp. simpl. rewrite Hf. simpl.
  apply IH; [done|]. intros id ops' Hin. destruct (H id ops') as (o & n & Ho & Hu); [by right|].
  exists o, n. split; [|done]. rewrite bt_get_insert_string.
  destruct (String.eqb_spec id k) as [->|]; [|done]. destruct Hk. apply list_elem_of_fmap.
  by exists (k, ops').
Qed.
End delta_loops.

(** A delta as programs hold it: its maps are sorted maps. *)
Definition delta_wf {PatchOperation} (d : @Delta PatchOperation) : Prop :=
  bt_wf (mc_add (dl_modules d)) ∧ bt_wf (mc_update (dl_modules d)).

(** What applying a delta does: when it succeeds, every removed workload was in the
    set and every added one was not (removals come first, so a workload can be replaced);
    afterwards a workload has its patched module if the delta updates it, the added module
    if it adds it, is gone if it only removes it, and is unchanged otherwise; and shared
    resources change only through shared operations. *)
Theorem apply_delta_spec {PatchOperation : Type}
    (patch : Value → list PatchOperation → result Value string)
    (module_from_value : Value → result Module_ string)
    (shared_from_value : Value → result (list (string * SharedResource)) string)
    (set out : DeploymentSet) (delta : Delta) :
  bt_wf (ds_modules set) → delta_wf delta →
  apply_delta patch module_from_value shared_from_value set delta = Ok out →
  let changes := dl_modules delta in
  let removed id := id ∈ mc_remove changes in
  bt_wf (ds_modules out)
  ∧ (∀ id, removed id → is_Some (bt_get id (ds_modules set)))
  ∧ (∀ id, is_Some (bt_get id (mc_add changes)) → removed id ∨ bt_get id (ds_modules set) = None)
  ∧ (∀ id,
       let before :=
         match bt_get id (mc_add changes) with
         | Some m => Some m
         | None => if bool_decide (removed id) then None else bt_get id (ds_modules set)
         end in
       match bt_get id (mc_update changes) with
       | Some ops => ∃ old new, before = Some old ∧ bt_get id (ds_modules out) = Some new
           ∧ updated patch module_from_value old ops new
       | None => bt_get id (ds_modules out) = before
       end)
  ∧ (dl_shared delta = [] → ds_shared out = ds_shared set).
Proof.
  intros Hset [Hadd Hupd] H changes removed. unfold apply_delta in H.
  pose proof (remove_loop (mc_remove changes) (ds_modules set) Hset) as Hr. fold changes in H.
  destruct (try_fold remove_module _ _) as [m1|]; [|done]. destruct Hr as (Hw1 & Hin1 & Hg1).
  pose proof (add_loop (mc_add changes) m1 Hw1 (bt_wf_im_wf _ Hadd)) as Ha.
  destruct (try_fold add_module m1 _) as [m2|]; [|done]. destruct Ha as (Hw2 & Hin2 & Hg2).
  destruct (try_fold (update_module _ _) m2 _) as [m3|] eqn:Eu; [|done].
  apply update_loop in Eu as [Hw3 Hg3]; [|done|by apply bt_wf_im_wf].
  assert (ds_modules out = m3 ∧ (dl_shared delta = [] → ds_shared out = ds_shared set)) as [-> Hsh].
  { destruct (dl_shared delta) as [|op ops]; simpl in H; [by injection H as <-|].
    destruct (patch _ _) as [doc|]; [|done]. simpl in H.
    destruct (shared_from_value doc) as [sh|]; [|done]. simpl in H. by injection H as <-. }
  split_and!; [done|done| | |done].
  - intros id [x Hx]. assert (id ∈ (mc_add changes).*1) as Hid.
    { apply bt_get_keys. by eexists. }
    apply Hin2 in Hid. rewrite Hg1 in Hid. unfold removed. case_bool_decide; auto.
  - intros id. specialize (Hg3 id). rewrite <-bt_get_im_get in Hg3.
    assert (bt_get id m2 = match bt_get id (mc_add changes) with
      | Some m => Some m
      | None => if bool_decide (removed id) then None else bt_get id (ds_modules set) end) as Hb.
    { rewrite Hg2, <-bt_get_im_get, Hg1. done. }
    cbv zeta. rewrite <-Hb. done.
Qed.

(** ** Differences *)

(** What [json_patch] promises: applying the difference of two documents to the first
    gives the second, up to [==], and no operations change nothing. *)
Class JsonPatch {PatchOperation : Type} (patch : Value → list PatchOperation → result Value string)
    (diff : Value → Value → list PatchOperation) : Prop := {
  patch_diff : ∀ a b, value_wf a → value_wf b →
    ∃ c, patch a (diff a b) = Ok c ∧ value_wf c ∧ c ≡ b;
  patch_nil : ∀ a, patch a [] = Ok a }.

(** Resources and modules as their types hold them (types and classes are valid IDs)
    whose params are present or absent, not [null] ([serde] reads [null] as absent). *)
Definition resource_plain (ty class : string) (params : option Value) : Prop :=
  is_ok (ResourceTypeId_new ty) = true ∧ is_ok (ClassId_new class) = true ∧ params ≠ Some Null.
Definition external_plain (e : External) : Prop :=
  resource_plain (e_ty e) (e_class e) (e_params e).
Definition module_plain (m : Module_) : Prop :=
  is_ok (ClassId_new (m_class m)) = true ∧ ∀ k e, (k, e) ∈ m_externals m → external_plain e.
Definition shared_plain (m : list (string * SharedResource)) : Prop :=
  ∀ k s, (k, s) ∈ m → resource_plain (s_ty s) (s_class s) (s_params s).

(** What [serde] promises: the JSON form of a module, up to [==], is read as that module,
    up to [==]; the same for the shared resources. *)
Class SetSerde (module_from_value : Value → result Module_ string)
    (shared_from_value : Value → result (list (string * SharedResource)) string) : Prop := {
  module_from_to : ∀ m doc, module_wf m → module_plain m → value_wf doc →
    doc ≡ module_to_value m →
    ∃ m', module_from_value doc = Ok m' ∧ module_wf m' ∧ module_to_value m' ≡ module_to_value m;
  shared_from_to : ∀ m doc, shared_wf m → shared_plain m → value_wf doc →
    doc ≡ shared_to_value m →
    ∃ m', shared_from_value doc = Ok m' ∧ shared_wf m' ∧ shared_to_value m' ≡ shared_to_value m }.

Section differences.
Context {PatchOperation : Type} (patch : Value → list PatchOperation → result Value string)
  (diff : Value → Value → list PatchOperation).
Context (module_from_value : Value → result Module_ string)
  (shared_from_value : Value → result (list (string * SharedResource)) string).
Context `{!JsonPatch patch diff} `{!SetSerde module_from_value shared_from_value}.

(** Patching a module with its difference to another gives the other. *)
Lemma updated_diff old new :
  module_wf old → module_wf new → module_plain new →
  ∃ m, updated patch module_from_value old
         (diff (module_to_value old) (module_to_value new)) m
    ∧ module_wf m ∧ module_to_value m ≡ module_to_value new.
Proof.
  intros Ho Hn Hp.
  destruct (patch_diff (module_to_value old) (module_to_value new)) as (doc & Hd & Hw & Heq);
    [by apply module_to_value_wf..|].
  destruct (module_from_to new doc Hn Hp Hw Heq) as (m & Hm & Hmw & Hme).
  exists m. split_and!; [by exists doc|done|done].
Qed.

Lemma updated_fun old ops m m' :
  updated patch module_from_value old ops m → updated patch module_from_value old ops m' → m = m'.
Proof. intros (d & H1 & H2) (d' & H1' & H2'). congruence. Qed.

(** The additions and updates of the difference loop. *)
Lemma diff_loop (a l : list (string * Module_)) :
  NoDup l.*1 →
  let '(add, update) := foldl (diff_step diff a) ([], []) l in
  bt_wf add ∧ bt_wf update ∧ ∀ id,
    bt_get id add = match im_get id l, bt_get id a with Some m, None => Some m | _, _ => None end
    ∧ bt_get id update
      = match im_get id l, bt_get id a with
        | Some m, Some old =>
            if module_eqb old m then None
            else Some (diff (module_to_value old) (module_to_value m))
        | _, _ => None
        end.
Proof.
  induction l as [|[k m] l IH] using rev_ind; intros Hnd; [by split_and!; [constructor..|]|].
  rewrite fmap_app in Hnd. apply NoDup_app in Hnd as (Hnd & Hk & _). specialize (IH Hnd).
  assert (im_get k l = None) as Hkl.
  { apply im_get_None. intros Hin. apply (Hk k Hin). by left. }
  assert (∀ id, im_get id (l ++ [(k, m)]) = if String.eqb id k then Some m else im_get id l) as Hg.
  { intros id. clear -Hkl. induction l as [|[j x] l IH]; simpl in *; [done|].
    destruct (String.eqb_spec id j) as [->|]; [|apply IH; by destruct (String.eqb k j)].
    destruct (String.eqb_spec j k) as [->|]; [|done]. by rewrite String.eqb_refl in Hkl. }
  rewrite foldl_app. simpl. destruct (foldl (diff_step diff a) ([], []) l) as [add update].
  destruct IH as (Hwa & Hwu & IH). unfold diff_step.
  destruct (bt_get k a) as [old|] eqn:Ek; [destruct (module_eqb old m) eqn:Ee; cbn [negb]|];
    (split_and!; [by auto using bt_wf_insert..|]); intros w; rewrite Hg;
    rewrite ?bt_get_insert_string; destruct (IH w) as [IH1 IH2];
    destruct (String.eqb_spec w k) as [->|Hne]; rewrite ?Hkl, ?Ek, ?Ee in *; done.
Qed.

Lemma map_rel_equiv_modules m n :
  bt_wf m → bt_wf n →
  (∀ k, option_Forall2 (λ x y, module_to_value x ≡ module_to_value y) (bt_get k m) (bt_get k n)) →
  map_to_value module_to_value m ≡ map_to_value module_to_value n.
Proof. intros Hm Hn H. apply map_to_value_equiv; [done..|]. by apply bt_map_rel. Qed.

Lemma shared_to_value_wf s : shared_wf s → value_wf (shared_to_value s).
Proof. intros [Hs Hv]. by apply map_to_value_wf. Qed.

(** The shared part of applying a difference. *)
Lemma apply_shared_diff (modules : list (string * Module_)) s t :
  shared_wf s → shared_wf t → shared_plain t →
  ∃ t', (let ops := if negb (shared_eqb s t)
           then diff (shared_to_value s) (shared_to_value t) else [] in
         if is_nil ops then Ok (mk_DeploymentSet modules s)
         else
           let? doc := map_err SharedFailed (patch (shared_to_value s) ops) in
           let? shared := map_err SharedFailed (shared_from_value doc) in
           Ok (mk_DeploymentSet modules shared)) = Ok (mk_DeploymentSet modules t')
    ∧ shared_to_value t' ≡ shared_to_value t ∧ shared_wf t'.
Proof.
  intros Hs Ht Hp. destruct (shared_eqb s t) eqn:E; cbn [negb].
  - exists s. split_and!; [done|by apply shared_eqb_equiv|done].
  - destruct (patch_diff (shared_to_value s) (shared_to_value t)) as (doc & Hd & Hw & Heq);
      [by apply shared_to_value_wf..|].
    destruct (shared_from_to t doc Ht Hp Hw Heq) as (t' & Hf & Hw' & He').
    destruct (diff (shared_to_value s) (shared_to_value t)) as [|op ops] eqn:Ed; simpl.
    + rewrite patch_nil in Hd. injection Hd as <-.
      apply (shared_eqb_equiv s t Hs Ht) in Heq. congruence.
    + rewrite Hd. simpl. rewrite Hf. by exists t'.
Qed.

(** The modules after removing, adding and updating what the difference says. *)
Lemma apply_modules_diff a b :
  set_wf a → set_wf b → (∀ k m, (k, m) ∈ ds_modules b → module_plain m) →
  let changes := dl_modules (diff_sets diff a b) in
  ∃ m1 m2 m3, try_fold remove_module (ds_modules a) (mc_remove changes) = Ok m1
    ∧ try_fold add_module m1 (mc_add changes) = Ok m2
    ∧ try_fold (update_module patch module_from_value) m2 (mc_update changes) = Ok m3
    ∧ bt_wf m3
    ∧ ∀ k, option_Forall2 (λ x y, module_wf x ∧ module_to_value x ≡ module_to_value y)
        (bt_get k m3) (bt_get k (ds_modules b)).
Proof.
  intros Ha Hb Hp. unfold diff_sets.
  pose proof (diff_loop (ds_modules a) (ds_modules b) (bt_wf_im_wf _ (sw_modules _ Hb))) as Hd.
  destruct (foldl _ _ (ds_modules b)) as [add update]. destruct Hd as (Hwa & Hwu & Hget).
  cbn [dl_modules mc_add mc_remove mc_update].
  set (remove := filter _ (bt_keys (ds_modules a))).
  assert (∀ k, k ∈ remove ↔ is_Some (bt_get k (ds_modules a)) ∧ bt_get k (ds_modules b) = None) as Hrem.
  { intros k. unfold remove. rewrite list_elem_of_filter, bt_get_keys. unfold bt_contains.
    destruct (bt_get k (ds_modules b)); simpl; naive_solver. }
  pose proof (remove_loop remove (ds_modules a) (sw_modules _ Ha)) as Hr.
  destruct (try_fold remove_module _ remove) as [m1|] eqn:E1.
  2: { exfalso. apply Hr. split; [|intros k Hk; by apply Hrem].
       apply NoDup_filter, bt_wf_NoDup, (sw_modules _ Ha). }
  destruct Hr as (Hw1 & _ & Hg1).
  pose proof (add_loop add m1 Hw1 (bt_wf_im_wf _ Hwa)) as Hadd.
  destruct (try_fold add_module m1 add) as [m2|] eqn:E2.
  2: { exfalso. destruct Hadd as (k & [x Hx]%bt_get_keys & [y Hy]). rewrite Hg1 in Hy.
       rewrite (proj1 (Hget k)) in Hx. case_bool_decide; [done|].
       rewrite Hy in Hx. by destruct (im_get k (ds_modules b)). }
  destruct Hadd as (Hw2 & _ & Hg2).
  assert (∀ k old, bt_get k (ds_modules a) = Some old → module_wf old) as Haw
    by (intros k old Hk; exact (sw_module _ Ha k old (bt_get_elem _ _ _ Hk))).
  assert (∀ k new, bt_get k (ds_modules b) = Some new → module_wf new ∧ module_plain new) as Hbw.
  { intros k new Hk%bt_get_elem. split; [exact (sw_module _ Hb _ _ Hk)|by eapply Hp]. }
  assert (∀ k, bt_get k m2 = match bt_get k (ds_modules b) with
    | None => None
    | Some new => match bt_get k (ds_modules a) with Some old => Some old | None => Some new end
    end) as Hm2.
  { intros k. rewrite Hg2, <-bt_get_im_get, (proj1 (Hget k)), Hg1, <-bt_get_im_get.
    pose proof (Hrem k) as Hk. case_bool_decide as Hin; rewrite Hk in Hin;
      destruct (bt_get k (ds_modules a)), (bt_get k (ds_modules b)); naive_solver. }
  destruct (update_loop_Ok patch module_from_value update m2) as [m3 E3].
  { by apply bt_wf_im_wf. }
  { intros k ops Hin%(bt_elem_get _ _ _ Hwu). rewrite (proj2 (Hget k)), <-bt_get_im_get in Hin.
    rewrite Hm2. destruct (bt_get k (ds_modules b)) as [new|] eqn:Eb; [|done].
    destruct (bt_get k (ds_modules a)) as [old|] eqn:Ea; [|done].
    destruct (module_eqb old new); [done|]. injection Hin as <-.
    destruct (Hbw k new Eb) as [Hnw Hnp].
    destruct (updated_diff old new) as (m & Hm & _); [by eapply Haw|done..|]. by exists old, m. }
  exists m1, m2, m3. split_and!; try done.
  { by apply update_loop in E3 as [? _]; [|done|by apply bt_wf_im_wf]. }
  apply update_loop in E3 as [_ Hg3]; [|done|by apply bt_wf_im_wf].
  intros k. specialize (Hg3 k). rewrite <-bt_get_im_get, (proj2 (Hget k)), <-bt_get_im_get in Hg3.
  destruct (bt_get k (ds_modules b)) as [new|] eqn:Eb; swap 1 2.
  { rewrite Hm2, Eb in Hg3. destruct (bt_get k (ds_modules a)); rewrite Hg3; constructor. }
  destruct (Hbw k new Eb) as [Hnw Hnp]. rewrite Hm2, Eb in Hg3.
  destruct (bt_get k (ds_modules a)) as [old|] eqn:Ea; [|rewrite Hg3; by constructor].
  destruct (module_eqb old new) eqn:Ee.
  - rewrite Hg3. constructor. split; [by eapply Haw|]. apply module_eqb_equiv; [by eapply Haw|done..].
  - destruct Hg3 as (old' & m & [= <-] & -> & Hu). constructor.
    destruct (updated_diff old new) as (m' & Hu' & Hw' & He'); [by eapply Haw|done..|].
    by rewrite (updated_fun _ _ _ _ Hu Hu').
Qed.
End differences.

(** the difference of two sets transforms the first into the second: for sets whose
    params are never an explicit [null], applying [diff_sets a b] to [a] succeeds and
    gives a set equal to [b]. *)
Theorem diff_sets_apply {PatchOperation : Type}
    (patch : Value → list PatchOperation → result Value string)
    (diff : Value → Value → list PatchOperation)
    (module_from_value : Value → result Module_ string)
    (shared_from_value : Value → result (list (string * SharedResource)) string)
    (a b : DeploymentSet) :
  JsonPatch patch diff → SetSerde module_from_value shared_from_value →
  set_wf a → set_wf b →
  (∀ k m, (k, m) ∈ ds_modules b → module_plain m) → shared_plain (ds_shared b) →
  ∃ b', apply_delta patch module_from_value shared_from_value a (diff_sets diff a b) = Ok b'
    ∧ set_eqb b' b = true.
Proof.
  intros HP HS Ha Hb Hmp Hsp.
  destruct (apply_modules_diff patch diff module_from_value shared_from_value a b Ha Hb Hmp)
    as (m1 & m2 & m3 & E1 & E2 & E3 & Hw3 & Hrel).
  destruct (apply_shared_diff patch diff module_from_value shared_from_value m3
    (ds_shared a) (ds_shared b) (sw_shared _ Ha) (sw_shared _ Hb) Hsp) as (t' & Et & Heq & Hwt).
  exists (mk_DeploymentSet m3 t'). split.
  - unfold apply_delta. rewrite E1, E2, E3.
    assert (dl_shared (diff_sets diff a b) = if negb (shared_eqb (ds_shared a) (ds_shared b))
      then diff (shared_to_value (ds_shared a)) (shared_to_value (ds_shared b)) else []) as ->; [|done].
    unfold diff_sets. by destruct (foldl _ _ (ds_modules b)).
  - apply set_eqb_equiv; [|done|].
    + constructor; [done| |done]. intros k m Hin%(bt_elem_get _ _ _ Hw3). specialize (Hrel k).
      simpl in *. rewrite Hin in Hrel. by inversion Hrel as [? ? [? _]|].
    + unfold set_to_value. apply two_fields_equiv; [done|]. split; [|done].
      apply map_rel_equiv_modules; [done|apply (sw_modules _ Hb)|].
      intros k. cbn [ds_modules]. destruct (Hrel k) as [x y [_ H]|]; by constructor.
Qed.

(** *** Readers that keep the laws

    The object forms of the records, with [null] read as an absent option. *)

Definition not_null_field (o : option Value) : option Value :=
  match o with Some Null => None | _ => o end.

Definition read_external (v : Value) : result External string :=
  match v with
  | Obj m =>
      match im_get "type" m, im_get "class" m with
      | Some (Str t), Some (Str c) =>
          let? ty := map_err ie_reason (ResourceTypeId_new t) in
          let? class := map_err ie_reason (ClassId_new c) in
          Ok (mk_External ty class (not_null_field (im_get "id" m) ≫= as_str)
                (not_null_field (im_get "params" m)))
      | _, _ => Err "missing field"
      end
  | _ => Err "expected an object"
  end.

Definition read_shared_resource (v : Value) : result SharedResource string :=
  let? e := read_external v in Ok (mk_SharedResource (e_ty e) (e_class e) (e_params e)).

Definition read_map {A} (f : Value → result A string) (v : Value) : result (list (string * A)) string :=
  match v with
  | Obj m =>
      let? l := try_map (λ kv : string * Value, let? x := f kv.2 in Ok (kv.1, x)) m in
      Ok (bt_of_list l)
  | _ => Err "expected an object"
  end.

Definition read_module (v : Value) : result Module_ string :=
  match v with
  | Obj m =>
      match im_get "class" m, im_get "spec" m, im_get "externals" m with
      | Some (Str c), Some (Obj spec), Some ext =>
          let? class := map_err ie_reason (ClassId_new c) in
          let? externals := read_map read_external ext in Ok (mk_Module class spec externals)
      | _, _, _ => Err "missing field"
      end
  | _ => Err "expected an object"
  end.

Lemma norm_Str_inv v s : norm v = Str s → v = Str s.
Proof. destruct v; simpl; try done. Qed.

Lemma equiv_Obj_inv v m : v ≡ Obj m → ∃ m', v = Obj m'.
Proof. unfold equiv, value_equiv, veq. destruct v; simpl; try done. by eexists. Qed.

Lemma field_Str k (m : jmap) (o : option Value) s :
  norm <$> im_get k m = norm <$> o → o = Some (Str s) → im_get k m = Some (Str s).
Proof.
  intros H ->. destruct (im_get k m) as [v|]; [|done]. simpl in H. injection H as H.
  by rewrite (norm_Str_inv v s).
Qed.

Lemma value_wf_field k v m : value_wf (Obj m) → im_get k m = Some v → value_wf v.
Proof.
  intros [_ H]%value_wf_Obj Hk%im_get_elem. rewrite Forall_forall in H. by apply (H (k, v)).
Qed.

Lemma norm_Null_inv v : norm v = Null → v = Null.
Proof. by destruct v. Qed.

Lemma read_type_id t : is_ok (ResourceTypeId_new t) = true → ResourceTypeId_new t = Ok t.
Proof. unfold ResourceTypeId_new. by destruct (resource_type_ok t). Qed.

Lemma read_class_id c : is_ok (ClassId_new c) = true → ClassId_new c = Ok c.
Proof. unfold ClassId_new, validate_object_id. by destruct (is_valid_object_id c). Qed.

Lemma read_external_spec e doc :
  external_plain e → value_wf doc → doc ≡ external_to_value e →
  ∃ e', read_external doc = Ok e' ∧ value_wf (external_to_value e')
    ∧ external_to_value e' ≡ external_to_value e.
Proof.
  intros (Hty & Hcl & Hp) Hw Heq. rewrite external_to_value_map in Heq.
  destruct (equiv_Obj_inv _ _ Heq) as [m ->]. pose proof Hw as [Hm _]%value_wf_Obj.
  rewrite (Obj_equiv m (external_map e) Hm (external_to_value_im_wf e)) in Heq.
  assert (∀ k, norm <$> im_get k m = norm <$> im_get k (external_map e)) as Hf by done. clear Heq.
  pose proof (Hf "id") as Hid. pose proof (Hf "params") as Hpar.
  rewrite external_fields in Hid, Hpar. simpl in Hid, Hpar. unfold read_external.
  rewrite (field_Str _ _ _ (e_ty e) (Hf "type")) by (by rewrite external_fields).
  rewrite (field_Str _ _ _ (e_class e) (Hf "class")) by (by rewrite external_fields).
  rewrite (read_type_id _ Hty), (read_class_id _ Hcl). cbn [map_err].
  assert (not_null_field (im_get "params" m) = im_get "params" m) as ->.
  { destruct (im_get "params" m) as [[]|]; try done.
    destruct (e_params e) as [p|]; [|done]. simpl in Hpar. injection Hpar as Hn.
    symmetry in Hn. apply norm_Null_inv in Hn as ->. done. }
  assert (not_null_field (im_get "id" m) ≫= as_str = e_id e) as ->.
  { destruct (e_id e) as [i|]; simpl in Hid.
    - rewrite (field_Str "id" m (Some (Str i)) i); [done|by rewrite Hid|done].
    - by destruct (im_get "id" m). }
  eexists. split; [done|]. split.
  - apply external_to_value_wf. simpl. destruct (im_get "params" m) as [p|] eqn:Ep; [|done].
    simpl. by eapply value_wf_field.
  - apply external_equiv. simpl. by split_and!.
Qed.

Lemma try_map_fst {A B X} (g : string * A → result (string * B) X) m l :
  (∀ x y, g x = Ok y → y.1 = x.1) → try_map g m = Ok l → l.*1 = m.*1.
Proof.
  intros Hg. revert l. induction m as [|x m IH]; intros l H; simpl in H; [by injection H as <-|].
  destruct (g x) as [y|] eqn:E; [|done]. destruct (try_map g m) as [l'|]; [|done]. injection H as <-.
  csimpl. rewrite (Hg _ _ E). f_equal. by apply IH.
Qed.

Lemma read_map_spec {A} (f : A → Value) (read : Value → result A string) (m : list (string * A)) doc :
  bt_wf m → value_wf doc → doc ≡ map_to_value f m →
  (∀ k x v, (k, x) ∈ m → value_wf v → v ≡ f x →
     ∃ y, read v = Ok y ∧ value_wf (f y) ∧ f y ≡ f x) →
  ∃ m', read_map read doc = Ok m' ∧ bt_wf m'
    ∧ (∀ k y, (k, y) ∈ m' → value_wf (f y)) ∧ map_to_value f m' ≡ map_to_value f m.
Proof.
  intros Hm Hw Heq Hread. unfold map_to_value in Heq.
  destruct (equiv_Obj_inv _ _ Heq) as [d ->]. pose proof Hw as [Hd Hdw]%value_wf_Obj.
  rewrite Obj_equiv in Heq by (done || by apply im_wf_fmap, bt_wf_im_wf).
  assert (∀ k, norm <$> im_get k d = (λ x, norm (f x)) <$> bt_get k m) as Hf.
  { intros k. rewrite Heq, im_get_fmap, bt_get_im_get. by destruct (im_get k m). }
  set (rd := λ kv : string * Value, let? x := read kv.2 in Ok (kv.1, x)).
  assert (∃ l, try_map rd d = Ok l ∧ ∀ k, match im_get k d with
     | Some v => ∃ x y, bt_get k m = Some x ∧ im_get k l = Some y ∧ value_wf (f y) ∧ f y ≡ f x
     | None => im_get k l = None end) as (l & Hl & Hlk).
  { assert (∀ k v, (k, v) ∈ d → ∃ x y, bt_get k m = Some x ∧ read v = Ok y ∧ value_wf (f y) ∧ f y ≡ f x) as Hd'.
    { intros k v Hin. specialize (Hf k). rewrite (im_elem_get k v d Hd Hin) in Hf.
      destruct (bt_get k m) as [x|] eqn:Ex; [|done]. injection Hf as Hf.
      rewrite Forall_forall in Hdw. specialize (Hdw _ Hin).
      destruct (Hread k x v) as (y & Hy & Hwy & Heqy); [by apply bt_get_elem|done|done|].
      exists x, y. done. }
    clear -Hd'. induction d as [|[k v] d IH]; [by exists []|].
    destruct IH as (l & Hl & Hlk); [intros; apply Hd'; by right|].
    destruct (Hd' k v) as (x & y & Hx & Hy & Hwy & Heqy); [by left|].
    exists ((k, y) :: l). split; [simpl; unfold rd at 1; simpl; rewrite Hy; by rewrite Hl|].
    intros j. cbn [im_get]. destruct (String.eqb_spec j k) as [->|]; [by exists x, y|apply Hlk]. }
  exists (bt_of_list l). unfold read_map. fold rd. rewrite Hl.
  assert (im_wf l) as Hlw.
  { unfold im_wf. rewrite (try_map_fst rd d l) by (done || intros [? ?] [? ?]; unfold rd; simpl;
      destruct (read _); congruence). done. }
  assert (∀ k, option_Forall2 (λ y x, value_wf (f y) ∧ f y ≡ f x) (bt_get k (bt_of_list l)) (bt_get k m)) as Hrel.
  { intros k. rewrite bt_get_of_list by done. specialize (Hlk k). specialize (Hf k).
    destruct (im_get k d) as [v|].
    - destruct Hlk as (x & y & -> & -> & ? & ?). by constructor.
    - rewrite Hlk. destruct (bt_get k m); [done|constructor]. }
  split_and!; [done|apply bt_of_list_wf| |].
  - intros k y Hin%(bt_elem_get _ _ _ (bt_of_list_wf l)). specialize (Hrel k). rewrite Hin in Hrel.
    by inversion Hrel as [? ? [? _]|].
  - apply map_to_value_equiv; [apply bt_of_list_wf|done|]. apply bt_map_rel; [apply bt_of_list_wf|done|].
    intros k. destruct (Hrel k) as [? ? [_ ?]|]; by constructor.
Qed.

Lemma read_shared_resource_spec r doc :
  resource_plain (s_ty r) (s_class r) (s_params r) → value_wf doc →
  doc ≡ shared_resource_to_value r →
  ∃ r', read_shared_resource doc = Ok r' ∧ value_wf (shared_resource_to_value r')
    ∧ shared_resource_to_value r' ≡ shared_resource_to_value r.
Proof.
  intros Hp Hw Heq. rewrite <-shared_as_external_value in Heq.
  destruct (read_external_spec (shared_as_external r) doc Hp Hw Heq) as (e & He & Hew & Hee).
  unfold read_shared_resource. rewrite He. eexists. split; [done|].
  apply external_equiv in Hee as (H1 & H2 & H3 & H4). rewrite <-!shared_as_external_value. split.
  - apply external_to_value_wf. by apply external_to_value_wf in Hew.
  - apply external_equiv. by split_and!.
Qed.

Lemma read_module_spec m doc :
  module_wf m → module_plain m → value_wf doc → doc ≡ module_to_value m →
  ∃ m', read_module doc = Ok m' ∧ module_wf m' ∧ module_to_value m' ≡ module_to_value m.
Proof.
  intros Hm [Hc Hp] Hw Heq. unfold module_to_value in Heq.
  destruct (equiv_Obj_inv _ _ Heq) as [d ->]. pose proof Hw as [Hd _]%value_wf_Obj.
  rewrite Obj_equiv in Heq by (done || apply (bool_decide_unpack _); by vm_compute).
  pose proof (Heq "class") as Hcl. pose proof (Heq "spec") as Hsp. pose proof (Heq "externals") as Hex.
  cbn [im_get String.eqb Ascii.eqb Bool.eqb] in Hcl, Hsp, Hex. unfold read_module.
  rewrite (field_Str "class" d _ (m_class m) Hcl) by done.
  destruct (im_get "spec" d) as [spec|] eqn:Es; [|done]. injection Hsp as Hsp.
  destruct (equiv_Obj_inv spec (m_spec m) Hsp) as [sp ->].
  destruct (im_get "externals" d) as [ext|] eqn:Ee; [|done]. injection Hex as Hex.
  rewrite (read_class_id _ Hc). cbn [map_err].
  destruct (read_map_spec external_to_value read_external (m_externals m) ext) as (xs & Hx & Hxw & Hxv & Hxe).
  { apply (mw_externals _ Hm). }
  { by eapply value_wf_field. }
  { exact Hex. }
  { intros k e v Hin Hvw Hve. apply read_external_spec; [by eapply Hp|done|done]. }
  rewrite Hx. eexists. split; [done|]. split.
  - constructor; [by eapply value_wf_field|done|done].
  - unfold module_to_value. simpl. apply three_fields_equiv; [|by split_and!].
    apply (bool_decide_unpack _). by vm_compute.
Qed.

Instance read_SetSerde : SetSerde read_module (read_map read_shared_resource).
Proof.
  constructor; [apply read_module_spec|]. intros m doc [Hm Hmv] Hp Hw Heq.
  destruct (read_map_spec shared_resource_to_value read_shared_resource m doc)
    as (m' & Hr & Hw' & Hv' & He); [done..| |by exists m'].
  intros k x v Hin Hvw Hve. apply read_shared_resource_spec; [by eapply Hp|done|done].
Qed.

(** Patches that replace the whole document. *)
Definition replace_patch (v : Value) (ops : list Value) : result Value string :=
  Ok (foldl (λ _ op, op) v ops).
Definition replace_diff (a b : Value) : list Value := [b].

Instance replace_JsonPatch : JsonPatch replace_patch replace_diff.
Proof. constructor; [intros a b Ha Hb; by exists b|done]. Qed.

(** A set with another image, and with a workload more. *)
Definition test_set_next : DeploymentSet :=
  mk_DeploymentSet
    [("api", mk_Module "default" [] []);
     ("web", mk_Module "default" [("image", Str "b")] [("db", mk_External "postgres" "default" None None)])]
    [("dns", mk_SharedResource "dns" "default" None)].

Lemma test_set_next_wf : set_wf test_set_next.
Proof.
  constructor.
  - repeat constructor.
  - intros k m [[= -> ->]|[= -> ->]%list_elem_of_singleton]%elem_of_cons; constructor;
      try by repeat constructor.
    + by intros k e ?%not_elem_of_nil.
    + apply value_wf_Obj. split; [apply NoDup_singleton|by repeat constructor].
    + intros k e [= -> ->]%list_elem_of_singleton. by apply external_to_value_wf.
  - split; [repeat constructor|]. intros k r [= -> ->]%list_elem_of_singleton.
    rewrite <-shared_as_external_value. by apply external_to_value_wf.
Qed.

Lemma test_set_next_plain k m : (k, m) ∈ ds_modules test_set_next → module_plain m.
Proof.
  intros [[= -> ->]|[= -> ->]%list_elem_of_singleton]%elem_of_cons; (split; [by vm_compute|]).
  - by intros k e ?%not_elem_of_nil.
  - intros k e [= -> ->]%list_elem_of_singleton. split_and!; [by vm_compute..|done].
Qed.

Lemma test_spec_wf : value_wf (Obj test_spec).
Proof. repeat split; apply (bool_decide_unpack _); by vm_compute. Qed.

Lemma apply_delta_spec_witness :
  ∃ out, apply_delta replace_patch read_module (read_map read_shared_resource)
    (test_set test_spec) (diff_sets replace_diff (test_set test_spec) test_set_next) = Ok out
  ∧ bt_wf (ds_modules out).
Proof.
  eexists. split; [by vm_compute|].
  eapply (apply_delta_spec replace_patch read_module (read_map read_shared_resource)
    (test_set test_spec) _ (diff_sets replace_diff (test_set test_spec) test_set_next)).
  - repeat constructor.
  - split; vm_compute; repeat constructor.
  - by vm_compute.
Defined.

Lemma diff_sets_apply_witness :
  ∃ out, apply_delta replace_patch read_module (read_map read_shared_resource)
    (test_set test_spec) (diff_sets replace_diff (test_set test_spec) test_set_next) = Ok out
  ∧ set_eqb out test_set_next = true.
Proof.
  apply diff_sets_apply; [apply _|apply _|apply test_set_wf, test_spec_wf|apply test_set_next_wf
    |apply test_set_next_plain|].
  intros k r [= -> ->]%list_elem_of_singleton. split_and!; [by vm_compute..|done].
Defined.
