(* ===== verification/Pointer.v ===== *)
(** * JSON pointers

    [Value::pointer_mut] of [serde_json] (RFC 6901), which the source uses to address the
    content of files inside a workload document, and the parts of
    [crates/core/src/workload.rs] that build pointers and set values aside. *)

From Stdlib Require Import Ascii.
From stdpp Require Import base sets strings list.
From S2P Require Import Prelude Strings OrdMap Float64 Json.

Local Open Scope string_scope.
Local Open Scope nat_scope.
Local Open Scope list_scope.

(** ** Tokens *)

Definition escape_pointer (key : string) : string := replace "/" "~1" (replace "~" "~0" key).

Definition unescape_token (token : string) : string := replace "~0" "~" (replace "~1" "/" token).

(** The tokens of a pointer: none for the empty one, those after each [/] otherwise. *)
Definition pointer_tokens (p : string) : option (list string) :=
  match p with
  | ε => Some []
  | String c rest => if Ascii.eqb c "/" then Some (unescape_token <$> split "/" rest) else None
  end.

(** An array index of a pointer: no sign and no leading zeros. *)
Definition parse_index (s : string) : option nat :=
  if starts_with "+" s || starts_with "0" s && negb (String.length s =? 1) then None
  else N.to_nat <$> parse_usize s.

(** ** Lookup and update *)

Definition child_get (v : Value) (token : string) : option Value :=
  match v with
  | Obj m => im_get token m
  | Arr l => parse_index token ≫= λ i, l !! i
  | _ => None
  end.

Definition child_set (v : Value) (token : string) (x : Value) : Value :=
  match v with
  | Obj m => Obj (im_insert token x m)
  | Arr l => match parse_index token with Some i => Arr (<[i := x]> l) | None => v end
  | _ => v
  end.

Fixpoint tokens_get (v : Value) (tokens : list string) : option Value :=
  match tokens with
  | [] => Some v
  | t :: tokens => child_get v t ≫= λ c, tokens_get c tokens
  end.

(** Writes through the reference [pointer_mut] returns; [None] when there is none. *)
Fixpoint tokens_set (v : Value) (tokens : list string) (x : Value) : option Value :=
  match tokens with
  | [] => Some x
  | t :: tokens =>
      c ← child_get v t; c' ← tokens_set c tokens x; Some (child_set v t c')
  end.

Definition pointer_get (v : Value) (p : string) : option Value :=
  pointer_tokens p ≫= tokens_get v.
Definition pointer_set (v : Value) (p : string) (x : Value) : option Value :=
  tokens ← pointer_tokens p; tokens_set v tokens x.

(** One pointer of [set_aside]: the value there is taken, leaving [null]. *)
Definition set_aside_step (acc : Value * list (string * Value)) (p : string)
    : Value * list (string * Value) :=
  let '(v, kept) := acc in
  match pointer_get v p, pointer_set v p Null with
  | Some x, Some v' => (v', kept ++ [(p, x)])
  | _, _ => (v, kept)
  end.

(** Replaces the values at [pointers] with [null] and returns them. *)
Definition set_aside (v : Value) (pointers : list string) : Value * list (string * Value) :=
  foldl set_aside_step (v, []) pointers.

(** The loop of [to_module] that puts them back; [None] is its [expect] failing. *)
Definition put_back (v : Value) (kept : list (string * Value)) : option Value :=
  foldl (λ v kv, v ← v; pointer_set v kv.1 kv.2) (Some v) kept.

Example set_aside_example :
  set_aside (Obj [("a", Arr [Str "x"; Str "y"]); ("b/c", Str "z")]) ["/a/1"; "/b~1c"; "/a/01"]
  = (Obj [("a", Arr [Str "x"; Null]); ("b/c", Null)], [("/a/1", Str "y"); ("/b~1c", Str "z")]).
Proof. by vm_compute. Qed.
