(* ===== verification/JsonPath.v ===== *)
(** * Strings inside JSON values

    Where the strings of a value are, editing them in place, and what reading and writing
    through JSON pointers does to a value edited that way. *)

From Stdlib Require Import Ascii.
From stdpp Require Import base sets strings list.
From S2P Require Import Prelude Strings OrdMap Float64 Json Pointer.

Local Open Scope string_scope.
Local Open Scope nat_scope.
Local Open Scope list_scope.

Inductive step := Field (k : string) | Item (i : nat).
#[export] Instance step_eq_dec : EqDecision step.
Proof. solve_decision. Defined.
Abbreviation path := (list step).

(** [f] at every item, with its index. *)
Definition mapi {A B} (f : nat → A → B) : nat → list A → list B :=
  fix go i l := match l with [] => [] | x :: l => f i x :: go (S i) l end.

Definition under {A} (s : step) (l : list (path * A)) : list (path * A) :=
  (λ e : path * A, (s :: e.1, e.2)) <$> l.

(** The strings of a value in order, each with its path. *)
Fixpoint strings (v : Value) : list (path * string) :=
  match v with
  | Str s => [([], s)]
  | Arr l => mjoin (mapi (λ i x, under (Item i) (strings x)) 0 l)
  | Obj m => mjoin ((λ kv : string * Value, under (Field kv.1) (strings kv.2)) <$> m)
  | _ => []
  end.

(** The value with each string [s] at a path [p] replaced by [g p s]. *)
Fixpoint edit (g : path → string → Value) (v : Value) : Value :=
  match v with
  | Str s => g [] s
  | Arr l => Arr (mapi (λ i x, edit (λ p, g (Item i :: p)) x) 0 l)
  | Obj m => Obj ((λ kv : string * Value, (kv.1, edit (λ p, g (Field kv.1 :: p)) kv.2)) <$> m)
  | other => other
  end.

Example edit_example :
  edit (λ p s, if bool_decide (p = [Field "a"; Item 1]) then Null else Str (s +:+ "!"))
    (Obj [("a", Arr [Str "x"; Str "y"]); ("b", Bool true)])
  = Obj [("a", Arr [Str "x!"; Null]); ("b", Bool true)].
Proof. by vm_compute. Qed.

(** ** Editing *)

Lemma mapi_ext_Forall {A B} (P : A → Prop) (f g : nat → A → B) i l :
  Forall P l → (∀ j x, P x → f j x = g j x) → mapi f i l = mapi g i l.
Proof. intros Hl H. revert i. induction Hl; intros i; simpl; [done|]. by rewrite H, IHHl. Qed.

Lemma mapi_mapi {A B C} (f : nat → B → C) (g : nat → A → B) i l :
  mapi f i (mapi g i l) = mapi (λ i x, f i (g i x)) i l.
Proof. revert i. induction l as [|x l IH]; intros i; simpl; [done|]. by rewrite IH. Qed.

Lemma mapi_id {A} (i : nat) (l : list A) : mapi (λ _ x, x) i l = l.
Proof. revert i. induction l as [|x l IH]; intros i; simpl; [done|]. by rewrite IH. Qed.

Lemma mapi_enumerate {A B} (f : nat → A → B) i l :
  mapi f i l = (λ e : nat * A, f e.1 e.2) <$> enumerate_from i l.
Proof. revert i. induction l as [|x l IH]; intros i; csimpl; [done|]. by rewrite IH. Qed.

Lemma edit_ext v : ∀ g h, (∀ p s, g p s = h p s) → edit g v = edit h v.
Proof.
  induction v as [| | |s|l IH|m IH] using Value_ind; intros g h H; simpl; try done.
  - f_equal. eapply mapi_ext_Forall; [exact IH|]. intros j x Hx. by apply Hx.
  - f_equal. apply list_fmap_ext. intros i [k x] Hx%list_elem_of_lookup_2. simpl. f_equal.
    rewrite Forall_forall in IH. by apply (IH _ Hx).
Qed.

Lemma edit_id v : edit (λ _, Str) v = v.
Proof.
  induction v as [| | |s|l IH|m IH] using Value_ind; simpl; try done.
  - f_equal. rewrite <-(mapi_id 0 l) at 2. eapply mapi_ext_Forall; [exact IH|]. by intros.
  - f_equal. rewrite <-(list_fmap_id m) at 2. apply list_fmap_ext.
    intros i [k x] Hx%list_elem_of_lookup_2. simpl. f_equal.
    rewrite Forall_forall in IH. by apply (IH _ Hx).
Qed.

(** Editing twice. *)
Lemma edit_edit v : ∀ g h, edit h (edit g v) = edit (λ p s, edit (λ q, h (p ++ q)) (g p s)) v.
Proof.
  induction v as [| | |s|l IH|m IH] using Value_ind; intros g h; simpl; try done.
  - f_equal. rewrite mapi_mapi. eapply mapi_ext_Forall; [exact IH|]. intros j x Hx. apply Hx.
  - f_equal. rewrite <-list_fmap_compose. apply list_fmap_ext.
    intros i [k x] Hx%list_elem_of_lookup_2. simpl. f_equal.
    rewrite Forall_forall in IH. by apply (IH _ Hx).
Qed.

(** ** Paths through objects *)

(** [v] has the value [x] at the keys [ts], through objects with distinct keys. *)
Fixpoint object_path (v : Value) (ts : list string) (x : Value) : Prop :=
  match ts with
  | [] => v = x
  | t :: ts => ∃ m c, v = Obj m ∧ im_wf m ∧ im_get t m = Some c ∧ object_path c ts x
  end.

Definition set_at (ts : path) (x : Value) (g : path → string → Value) (p : path) (s : string) : Value :=
  if bool_decide (p = ts) then x else g p s.

Lemma tokens_get_edit v ts s : ∀ g,
  object_path v ts (Str s) → tokens_get (edit g v) ts = Some (g (Field <$> ts) s).
Proof.
  revert v. induction ts as [|t ts IH]; intros v g; simpl; [by intros ->|].
  intros (m & c & -> & Hm & Hc & Hp). cbn [edit child_get].
  assert (im_get t ((λ kv : string * Value, (kv.1, edit (λ p, g (Field kv.1 :: p)) kv.2)) <$> m)
    = Some (edit (λ p, g (Field t :: p)) c)) as ->; [|simpl; by rewrite IH].
  clear -Hc. induction m as [|[k y] m IHm]; csimpl in *; [done|].
  destruct (String.eqb_spec t k) as [->|]; [by injection Hc as ->|by apply IHm].
Qed.

Lemma im_insert_fmap {V W} (f g : string → V → W) t c (m : list (string * V)) :
  im_wf m → im_get t m = Some c → (∀ k v, k ≠ t → f k v = g k v) →
  im_insert t (g t c) ((λ kv, (kv.1, f kv.1 kv.2)) <$> m) = (λ kv, (kv.1, g kv.1 kv.2)) <$> m.
Proof.
  intros Hm Hc Hfg. induction m as [|[k y] m IH]; csimpl; [done|]. simpl in Hc.
  apply im_wf_cons in Hm as [Hk Hm]. destruct (String.eqb_spec t k) as [->|Hne].
  - injection Hc as ->. f_equal. apply list_fmap_ext. intros i [j z] Hz%list_elem_of_lookup_2.
    simpl. f_equal. apply Hfg. intros ->. apply Hk, list_elem_of_fmap. by exists (k, z).
  - rewrite IH by done. by rewrite Hfg.
Qed.

Lemma tokens_set_edit v ts s x : ∀ g,
  object_path v ts (Str s) → tokens_set (edit g v) ts x = Some (edit (set_at (Field <$> ts) x g) v).
Proof.
  revert v. induction ts as [|t ts IH]; intros v g; simpl; [by intros ->|].
  intros (m & c & -> & Hm & Hc & Hp). cbn [edit child_get child_set].
  assert (im_get t ((λ kv : string * Value, (kv.1, edit (λ p, g (Field kv.1 :: p)) kv.2)) <$> m)
    = Some (edit (λ p, g (Field t :: p)) c)) as ->.
  { clear -Hc. induction m as [|[k y] m IHm]; csimpl in *; [done|].
    destruct (String.eqb_spec t k) as [->|]; [by injection Hc as ->|by apply IHm]. }
  simpl. rewrite IH by done. simpl. do 2 f_equal.
  change (list_fmap string step Field ts) with (Field <$> ts).
  rewrite (edit_ext c _ (λ p, set_at (Field t :: (Field <$> ts)) x g (Field t :: p))).
  - apply (im_insert_fmap (λ k y, edit (λ p, g (Field k :: p)) y)
      (λ k y, edit (λ p, set_at (Field t :: (Field <$> ts)) x g (Field k :: p)) y)); [done..|].
    intros k y Hk. apply edit_ext. intros p s'. unfold set_at. rewrite bool_decide_eq_false_2; [done|].
    congruence.
  - intros p s'. unfold set_at. assert (bool_decide (p = Field <$> ts)
      = bool_decide (Field t :: p = Field t :: (Field <$> ts))) as ->; [|done].
    apply bool_decide_ext. split; [by intros ->|by intros [= ->]].
Qed.

(** ** Pointers *)

(** Each byte replaced by a text. *)
Fixpoint map_bytes (f : ascii → string) (s : string) : string :=
  match s with ε => ε | String c s => f c +:+ map_bytes f s end.

Lemma map_bytes_app f a b : map_bytes f (a +:+ b) = map_bytes f a +:+ map_bytes f b.
Proof. induction a as [|c a IH]; simpl; [done|]. by rewrite IH, app_assoc_str. Qed.

Lemma map_bytes_map f g s : map_bytes f (map_bytes g s) = map_bytes (λ c, map_bytes f (g c)) s.
Proof. induction s as [|c s IH]; simpl; [done|]. by rewrite map_bytes_app, IH. Qed.

Lemma map_bytes_ext f g s : (∀ c, f c = g c) → map_bytes f s = map_bytes g s.
Proof. intros H. induction s as [|c s IH]; simpl; [done|]. by rewrite H, IH. Qed.

Lemma replace_char c r s :
  replace (str1 c) r s = map_bytes (λ d, if Ascii.eqb c d then r else str1 d) s.
Proof.
  unfold replace. induction s as [|d s IH]; [done|].
  cbn [replace_go map_bytes]. rewrite starts_with_char1.
  destruct (Ascii.eqb c d); cbn; by rewrite IH.
Qed.

Definition token_byte (c : ascii) : string :=
  if Ascii.eqb c "~" then "~0" else if Ascii.eqb c "/" then "~1" else str1 c.

Lemma escape_pointer_bytes s : escape_pointer s = map_bytes token_byte s.
Proof.
  unfold escape_pointer. change "/" with (str1 "/"). change "~" with (str1 "~").
  rewrite !replace_char, map_bytes_map. apply map_bytes_ext. intros c. unfold token_byte.
  rewrite (Ascii.eqb_sym "~" c). destruct (Ascii.eqb_spec c "~") as [->|]; [done|].
  cbn [map_bytes str1]. by rewrite app_eps_r, (Ascii.eqb_sym "/" c).
Qed.

Lemma escape_pointer_no_slash s : contains_char "/" (escape_pointer s) = false.
Proof.
  rewrite escape_pointer_bytes. induction s as [|c s IH]; simpl; [done|].
  rewrite contains_char_app, IH, orb_false_r. unfold token_byte.
  destruct (Ascii.eqb_spec c "~"); [done|]. destruct (Ascii.eqb_spec c "/"); [done|]. simpl.
  by destruct (Ascii.eqb_spec c "/").
Qed.

(** One step of [replace] at a byte that does not start an occurrence. *)
Lemma replace_skip p r c s :
  starts_with p (String c s) = false → replace p r (String c s) = String c (replace p r s).
Proof. unfold replace. intros H. cbn [replace_go]. by rewrite H. Qed.

Lemma replace_two a b r s :
  replace (String a (String b ε)) r (String a (String b s)) = r +:+ replace (String a (String b ε)) r s.
Proof.
  unfold replace. cbn [replace_go]. assert (starts_with (String a (String b ε)) (String a (String b s)) = true) as ->.
  { apply starts_with_spec. by exists s. }
  done.
Qed.

Lemma starts_with_two a b c d s :
  starts_with (String a (String b ε)) (String c (String d s)) = Ascii.eqb a c && Ascii.eqb b d.
Proof. unfold starts_with. simpl. destruct (Ascii.eqb a c), (Ascii.eqb b d); done. Qed.

Lemma starts_with_head a p c s : a ≠ c → starts_with (String a p) (String c s) = false.
Proof. intros H. unfold starts_with. simpl. by destruct (Ascii.eqb_spec a c). Qed.

Definition half_token_byte (c : ascii) : string := if Ascii.eqb c "~" then "~0" else str1 c.

Lemma unescape_slash s :
  replace "~1" "/" (map_bytes token_byte s) = map_bytes half_token_byte s.
Proof.
  induction s as [|c s IH]; [done|]. cbn [map_bytes]. unfold token_byte at 1, half_token_byte at 1.
  destruct (Ascii.eqb_spec c "~") as [->|Ht].
  - change ("~0" +:+ ?x) with (String "~" (String "0" x)).
    rewrite replace_skip by done. by rewrite replace_skip, IH.
  - destruct (Ascii.eqb_spec c "/") as [->|Hs].
    + change ("~1" +:+ ?x) with (String "~" (String "1" x)). rewrite replace_two. by rewrite IH.
    + change (str1 c +:+ ?x) with (String c x). rewrite replace_skip by (by apply starts_with_head).
      by rewrite IH.
Qed.

Lemma unescape_tilde s : replace "~0" "~" (map_bytes half_token_byte s) = s.
Proof.
  induction s as [|c s IH]; [done|]. cbn [map_bytes]. unfold half_token_byte at 1.
  destruct (Ascii.eqb_spec c "~") as [->|Ht].
  - change ("~0" +:+ ?x) with (String "~" (String "0" x)). rewrite replace_two. by rewrite IH.
  - change (str1 c +:+ ?x) with (String c x). rewrite replace_skip by (by apply starts_with_head).
    by rewrite IH.
Qed.

(** A key survives being written into a pointer. *)
Lemma unescape_pointer s : unescape_token (escape_pointer s) = s.
Proof. unfold unescape_token. by rewrite escape_pointer_bytes, unescape_slash, unescape_tilde. Qed.

(** The pointer to a path of keys. *)
Definition keys_pointer (ts : list string) : string :=
  concat_str ((λ t, "/" +:+ escape_pointer t) <$> ts).

Lemma pointer_tokens_keys ts : pointer_tokens (keys_pointer ts) = Some ts.
Proof.
  destruct ts as [|t ts]; [done|]. unfold keys_pointer. csimpl.
  change (("/" +:+ ?a) +:+ ?b) with (String "/" (a +:+ b)). cbn [pointer_tokens Ascii.eqb Bool.eqb].
  f_equal. revert t. induction ts as [|u ts IH]; intros t; csimpl.
  - rewrite app_eps_r, split_no_char by apply escape_pointer_no_slash. csimpl.
    by rewrite unescape_pointer.
  - change (("/" +:+ ?a) +:+ ?b) with (String "/" (a +:+ b)).
    rewrite split_app by apply escape_pointer_no_slash. csimpl. rewrite unescape_pointer. f_equal.
    apply IH.
Qed.

Lemma keys_pointer_inj ts us : keys_pointer ts = keys_pointer us → ts = us.
Proof. intros H. apply (f_equal pointer_tokens) in H. rewrite !pointer_tokens_keys in H. congruence. Qed.

(** ** Setting strings aside and putting them back *)

Definition keys_path (ts : list string) : path := Field <$> ts.

Lemma keys_path_inj ts us : keys_path ts = keys_path us → ts = us.
Proof.
  revert us. induction ts as [|t ts IH]; intros [|u us] H; try done. injection H as -> H.
  f_equal. by apply IH.
Qed.

(** The value whose strings at the given paths of keys are [null]. *)
Definition hide (tss : list (list string)) (p : path) (s : string) : Value :=
  if bool_decide (p ∈ keys_path <$> tss) then Null else Str s.

Lemma hide_set_at tss ts p s :
  set_at (keys_path ts) Null (hide tss) p s = hide (tss ++ [ts]) p s.
Proof.
  unfold set_at, hide. rewrite fmap_app. csimpl.
  destruct (bool_decide_reflect (p = keys_path ts)) as [->|Hne].
  - by rewrite bool_decide_eq_true_2 by (apply elem_of_app; right; by left).
  - assert (bool_decide (p ∈ keys_path <$> tss)
      = bool_decide (p ∈ (keys_path <$> tss) ++ [keys_path ts])) as ->; [|done].
    apply bool_decide_ext. rewrite elem_of_app, list_elem_of_singleton. tauto.
Qed.

(** Setting aside distinct strings: [null] in their places, and the strings in order. *)
Lemma set_aside_hide v (l : list (list string * string)) :
  NoDup l.*1 → (∀ ts s, (ts, s) ∈ l → object_path v ts (Str s)) →
  set_aside v (keys_pointer <$> l.*1)
  = (edit (hide l.*1) v, (λ e, (keys_pointer e.1, Str e.2)) <$> l).
Proof.
  unfold set_aside. induction l as [|[ts s] l IH] using rev_ind; intros Hnd Hp.
  { simpl. f_equal. rewrite <-(edit_id v) at 1. apply edit_ext. intros p s. unfold hide.
    by rewrite bool_decide_eq_false_2 by apply not_elem_of_nil. }
  rewrite fmap_app in Hnd. apply NoDup_app in Hnd as (Hnd & Hts & _).
  rewrite !fmap_app, foldl_app, IH; [|done|intros; apply Hp; set_solver]. csimpl.
  assert (object_path v ts (Str s)) as Hv by (apply Hp; set_solver).
  unfold pointer_get, pointer_set. rewrite pointer_tokens_keys. simpl.
  rewrite (tokens_get_edit v ts s), (tokens_set_edit v ts s) by done.
  fold (keys_path ts). assert (hide l.*1 (keys_path ts) s = Str s) as ->.
  { unfold hide. rewrite bool_decide_eq_false_2; [done|]. intros (us & Heq & Hus)%list_elem_of_fmap.
    apply keys_path_inj in Heq as ->. apply (Hts us Hus). by left. }
  f_equal. apply edit_ext. intros p s'. by rewrite hide_set_at.
Qed.

(** Putting values back at paths of strings of the original value. *)
Fixpoint restored (g : path → string → Value) (l : list (list string * string))
    : path → string → Value :=
  match l with
  | [] => g
  | (ts, s) :: l => restored (set_at (keys_path ts) (Str s) g) l
  end.

Lemma put_back_edit v g (l : list (list string * string)) :
  (∀ ts s, (ts, s) ∈ l → object_path v ts (Str s)) →
  put_back (edit g v) ((λ e, (keys_pointer e.1, Str e.2)) <$> l) = Some (edit (restored g l) v).
Proof.
  unfold put_back. revert g. induction l as [|[ts s] l IH]; intros g Hp; csimpl; [done|].
  unfold pointer_set at 2. rewrite pointer_tokens_keys. simpl.
  rewrite (tokens_set_edit v ts s) by (apply Hp; by left). apply IH.
  intros us t Hus. apply Hp. by right.
Qed.

Lemma restored_spec g l p s :
  NoDup l.*1 →
  restored g l p s = match find (λ e : list string * string, bool_decide (p = keys_path e.1)) l with
                     | Some e => Str e.2
                     | None => g p s
                     end.
Proof.
  revert g. induction l as [|[ts t] l IH]; intros g Hnd; [done|].
  csimpl in Hnd. apply NoDup_cons in Hnd as [Hts Hnd]. cbn [restored find fst].
  rewrite IH by done. unfold set_at. case_bool_decide as Hp; [|done].
  destruct (find _ l) as [[us u]|] eqn:E; [|done]. apply find_Some in E as [Hin Heq].
  apply bool_decide_eq_true in Heq. rewrite Hp in Heq. apply keys_path_inj in Heq as ->. destruct Hts. apply list_elem_of_fmap.
  by exists (us, u).
Qed.

(** ** The strings of a value *)

Lemma elem_of_mapi {A B} (f : nat → A → B) i l y :
  y ∈ mapi f i l ↔ ∃ j x, l !! j = Some x ∧ y = f (i + j) x.
Proof.
  revert i. induction l as [|a l IH]; intros i; cbn [mapi].
  - rewrite elem_of_nil. split; [done|]. by intros (j & x & Hx & _).
  - rewrite elem_of_cons, IH. split.
    + intros [->|(j & x & Hx & ->)]; [exists 0, a; by rewrite Nat.add_0_r|].
      exists (S j), x. split; [done|]. f_equal. lia.
    + intros ([|j] & x & Hx & ->); simpl in Hx; [left|right; exists j, x; split; [done|f_equal; lia]].
      injection Hx as ->. by rewrite Nat.add_0_r.
Qed.

Lemma mapi_lookup {A B} (f : nat → A → B) i l j : mapi f i l !! j = f (i + j) <$> l !! j.
Proof.
  revert i j. induction l as [|a l IH]; intros i [|j]; simpl; try done.
  - by rewrite Nat.add_0_r.
  - rewrite IH. by replace (S i + j) with (i + S j) by lia.
Qed.

Lemma elem_of_under {A} st (l : list (path * A)) p a :
  (p, a) ∈ under st l ↔ ∃ q, p = st :: q ∧ (q, a) ∈ l.
Proof.
  unfold under. rewrite list_elem_of_fmap. split.
  - intros ([q b] & [= -> ->] & Hin). by exists q.
  - intros (q & -> & Hin). by exists (q, a).
Qed.

Lemma strings_Arr l p s :
  (p, s) ∈ strings (Arr l) ↔ ∃ i x q, l !! i = Some x ∧ p = Item i :: q ∧ (q, s) ∈ strings x.
Proof.
  simpl. rewrite list_elem_of_join. setoid_rewrite elem_of_mapi. split.
  - intros (u & Hu & i & x & Hi & ->).
    apply elem_of_under in Hu as (q & -> & Hq). by exists i, x, q.
  - intros (i & x & q & Hi & -> & Hq). exists (under (Item i) (strings x)).
    split; [apply elem_of_under; by exists q|by exists i, x].
Qed.

Lemma strings_Obj m p s :
  (p, s) ∈ strings (Obj m) ↔ ∃ k x q, (k, x) ∈ m ∧ p = Field k :: q ∧ (q, s) ∈ strings x.
Proof.
  simpl. rewrite list_elem_of_join. setoid_rewrite list_elem_of_fmap. split.
  - intros (u & Hu & [k x] & -> & Hk). apply elem_of_under in Hu as (q & -> & Hq).
    by exists k, x, q.
  - intros (k & x & q & Hk & -> & Hq). exists (under (Field k) (strings x)).
    split; [apply elem_of_under; by exists q|by exists (k, x)].
Qed.

Definition prefixed {A} (p : path) (l : list (path * A)) : list (path * A) :=
  (λ e : path * A, (p ++ e.1, e.2)) <$> l.

Lemma under_prefixed {A} st p (l : list (path * A)) : under st (prefixed p l) = prefixed (st :: p) l.
Proof. unfold under, prefixed. by rewrite <-list_fmap_compose. Qed.

Lemma prefixed_nil {A} (l : list (path * A)) : prefixed [] l = l.
Proof. unfold prefixed. rewrite <-(list_fmap_id l) at 2. apply list_fmap_ext. by intros i [p a]. Qed.

Lemma under_edited {A B} st (f : path * A → list (path * B)) (l : list (path * A)) :
  under st (mjoin (f <$> l)) = mjoin ((λ e, under st (f e)) <$> l).
Proof. induction l as [|e l IH]; [done|]. csimpl. unfold under in *. by rewrite fmap_app, IH. Qed.

Lemma mjoin_edited {I A B} (f : path * A → list (path * B)) (g : I → list (path * A)) (l : list I) :
  mjoin ((λ i, mjoin (f <$> g i)) <$> l) = mjoin (f <$> mjoin (g <$> l)).
Proof. induction l as [|i l IH]; [done|]. csimpl. by rewrite IH, fmap_app, join_app. Qed.

(** The strings of an edited value are those of what was put in place of each string. *)
Lemma strings_edit v : ∀ g,
  strings (edit g v)
  = mjoin ((λ e : path * string, prefixed e.1 (strings (g e.1 e.2))) <$> strings v).
Proof.
  induction v as [| | |t|l IH|m IH] using Value_ind; intros g; try done.
  - simpl. by rewrite app_nil_r, prefixed_nil.
  - cbn [edit strings]. rewrite mapi_mapi, !mapi_enumerate, <-mjoin_edited. f_equal.
    apply list_fmap_ext. intros j [i x] Hx%list_elem_of_lookup_2. cbn [fst snd].
    apply enumerate_from_elem in Hx. rewrite Forall_forall in IH. rewrite (IH x Hx), under_edited.
    unfold under at 2. rewrite <-list_fmap_compose. f_equal. apply list_fmap_ext.
    intros ? [p s] _. simpl. by rewrite under_prefixed.
  - cbn [edit strings]. rewrite <-list_fmap_compose, <-mjoin_edited. f_equal.
    apply list_fmap_ext. intros j [k x] Hx%list_elem_of_lookup_2. cbn [fst snd compose].
    rewrite Forall_forall in IH. pose proof (IH _ Hx) as IHx. cbn [snd] in IHx. rewrite IHx, under_edited.
    unfold under at 2. rewrite <-list_fmap_compose. f_equal. apply list_fmap_ext.
    intros ? [p s] _. simpl. by rewrite under_prefixed.
Qed.

Lemma strings_hide v tss :
  strings (edit (hide tss) v) = filter (λ e, e.1 ∉ keys_path <$> tss) (strings v).
Proof.
  rewrite strings_edit. induction (strings v) as [|[p s] l IH]; [done|]. csimpl. rewrite IH.
  unfold hide at 1. rewrite filter_cons. cbn [fst].
  case_bool_decide; case_decide; try done. simpl. by rewrite app_nil_r.
Qed.

(** Edits that agree on the strings of a value. *)
Lemma edit_ext_strings v : ∀ g h,
  (∀ p s, (p, s) ∈ strings v → g p s = h p s) → edit g v = edit h v.
Proof.
  induction v as [| | |s|l IH|m IH] using Value_ind; intros g h H; try done.
  - apply H. by left.
  - cbn [edit]. f_equal. rewrite !mapi_enumerate. apply list_fmap_ext.
    intros j [i x] Hx%list_elem_of_lookup_2. cbn [fst snd]. rewrite Forall_forall in IH.
    apply IH; [by eapply enumerate_from_elem|]. intros p s Hp. apply H, strings_Arr.
    apply elem_of_enumerate_from in Hx as (Hle & Hx). exists i, x, p. split_and!; try done.
    by rewrite Nat.sub_0_r in Hx.
  - cbn [edit]. f_equal. apply list_fmap_ext. intros i [k x] Hx%list_elem_of_lookup_2. cbn [fst snd].
    f_equal. rewrite Forall_forall in IH. apply (IH _ Hx). intros p s Hp. apply H, strings_Obj.
    by exists k, x, p.
Qed.

(** The string at a path through objects is the only one with that path. *)
Lemma object_path_string v ts c s :
  object_path v ts (Str c) → (keys_path ts, s) ∈ strings v → s = c.
Proof.
  revert v. induction ts as [|t ts IH]; intros v; cbn [object_path].
  - intros ->. simpl. by intros [= ->]%list_elem_of_singleton.
  - intros (m & x & -> & Hm & Hx & Hp) (k & y & q & Hk & Heq & Hq)%strings_Obj.
    injection Heq as <- <-. rewrite (im_elem_get t y m Hm Hk) in Hx. injection Hx as ->. by apply (IH x).
Qed.

(** A check of every string of a value, whatever it calls the places. *)
Section checks.
Context {X : Type} (P : string → Prop) (check : Value → string → result unit X).
Context (at_item : string → nat → string) (at_key : string → string → string).
Context (check_Str : ∀ s path, check (Str s) path = Ok tt ↔ P s).
Context (check_Arr : ∀ l path,
  check (Arr l) path = try_foldi (λ i _ x, check x (at_item path i)) 0 tt l).
Context (check_Obj : ∀ m path,
  check (Obj m) path = try_fold (λ _ (kv : string * Value), check kv.2 (at_key path kv.1)) tt m).
Context (check_other : ∀ v path, strings v = [] → is_array v = false → is_object v = false →
  check v path = Ok tt).

Lemma try_foldi_checks {A} (f : nat → A → result unit X) i l :
  try_foldi (λ i _, f i) i tt l = Ok tt ↔ ∀ j x, l !! j = Some x → f (i + j) x = Ok tt.
Proof.
  revert i. induction l as [|x l IH]; intros i; simpl; [by split|].
  destruct (f i x) as [[]|e] eqn:E.
  - rewrite IH. split.
    + intros H [|j] y Hy; simpl in Hy; [injection Hy as <-; by rewrite Nat.add_0_r|].
      replace (i + S j) with (S i + j) by lia. by apply H.
    + intros H j y Hy. replace (S i + j) with (i + S j) by lia. by apply H.
  - split; [done|]. intros H. specialize (H 0 x eq_refl). rewrite Nat.add_0_r in H. congruence.
Qed.

Lemma check_strings v : ∀ path,
  check v path = Ok tt ↔ ∀ p s, (p, s) ∈ strings v → P s.
Proof.
  induction v as [| | |s|l IH|m IH] using Value_ind; intros path;
    try by (rewrite check_other by done; split; [intros _ p s []%not_elem_of_nil|]).
  - rewrite check_Str. simpl. split; [by intros H p s' [= -> ->]%list_elem_of_singleton|].
    intros H. apply (H []). by left.
  - rewrite check_Arr, (try_foldi_checks (λ i x, check x (at_item path i))). rewrite Forall_forall in IH.
    setoid_rewrite strings_Arr. split.
    + intros H p s (i & x & q & Hi & -> & Hq). specialize (H i x Hi).
      rewrite (IH x) in H by (by eapply list_elem_of_lookup_2). by eapply H.
    + intros H j x Hx. apply (IH x); [by eapply list_elem_of_lookup_2|]. intros p s Hp.
      apply (H (Item j :: p)). by exists j, x, p.
  - rewrite check_Obj. rewrite Forall_forall in IH. setoid_rewrite strings_Obj.
    rewrite (try_fold_checks (λ kv, check kv.2 (at_key path kv.1))). split.
    + intros H p s (k & x & q & Hk & -> & Hq). specialize (H (k, x) Hk). rewrite (IH (k, x) Hk) in H.
      by eapply H.
    + intros H [k x] Hk. apply (IH (k, x) Hk). intros p s Hp. apply (H (Field k :: p)).
      by exists k, x, p.
Qed.
End checks.
