(* ===== verification/Workload.v ===== *)
(** * Workload documents ([crates/core/src/workload.rs])

    The document and its JSON form (as its [serde] attributes ask), Score import,
    validation, and conversion into a module of a deployment set. Reading YAML and
    [serde]'s deserialization are code outside the repository and are parameters. *)

From Stdlib Require Import Ascii.
From stdpp Require Import base sets strings list.
From S2P Require Import Prelude Strings OrdMap Regex Ids Float64 Json Template Catalog Sets Pointer.

Local Open Scope string_scope.
Local Open Scope nat_scope.
Local Open Scope list_scope.

Definition API_VERSION : string := "openporch.dev/v1".
Definition SCORE_API_VERSION : string := "score.dev/v1b1".

(** ** The document *)

Record Metadata := mk_Metadata {
  md_name : string; md_class : option string; md_annotations : list (string * string) }.

Record File := mk_File {
  f_mode : option string; f_source : option string; f_content : option string;
  f_no_expand : option bool }.

Record Quantities := mk_Quantities { q_memory : option string; q_cpu : option string }.

Record ContainerResources := mk_ContainerResources {
  cr_limits : option Quantities; cr_requests : option Quantities }.

Record HttpHeader := mk_HttpHeader { hh_name : string; hh_value : string }.

Record HttpProbe := mk_HttpProbe {
  hp_scheme : option string; hp_host : option string; hp_path : string; hp_port : N;
  hp_http_headers : list HttpHeader }.

Record ExecProbe := mk_ExecProbe { xp_command : list string }.

Record Probe := mk_Probe { pr_http_get : option HttpProbe; pr_exec : option ExecProbe }.

Record Container := mk_Container {
  c_image : string;
  c_command : option (list string);
  c_args : option (list string);
  c_variables : list (string * string);
  c_files : list (string * File);
  c_resources : option ContainerResources;
  c_liveness_probe : option Probe;
  c_readiness_probe : option Probe }.

Record ServicePort := mk_ServicePort {
  sp_port : N; sp_target_port : option N; sp_protocol : option string }.

Record Service := mk_Service { sv_ports : list (string * ServicePort) }.

Inductive Package :=
| Zip (artifact runtime handler : string)
| Image (image : string).

Record Concurrency := mk_Concurrency { cc_reserved : option N; cc_provisioned : option N }.

Record Function_ := mk_Function {
  fn_package : Package; fn_variables : list (string * string); fn_memory : string;
  fn_timeout : string; fn_concurrency : option Concurrency }.

Definition default_memory : string := "256Mi".
Definition default_timeout : string := "30s".

Inductive HttpAuth := AuthNone | AuthIam.

Record HttpTrigger := mk_HttpTrigger {
  ht_port : option string; ht_path : option string; ht_auth : option HttpAuth }.

Record ScheduleTrigger := mk_ScheduleTrigger {
  st_cron : string; st_timezone : option string; st_input : option Value }.

Record QueueTrigger := mk_QueueTrigger { qt_resource : string; qt_batch_size : option N }.

Record TopicTrigger := mk_TopicTrigger { tt_resource : string }.

Record StreamTrigger := mk_StreamTrigger {
  sm_resource : string; sm_batch_size : option N; sm_starting_position : option string }.

Inductive Trigger :=
| Http (t : HttpTrigger)
| Schedule (t : ScheduleTrigger)
| Queue (t : QueueTrigger)
| Topic (t : TopicTrigger)
| Stream (t : StreamTrigger).

Definition trigger_kind (t : Trigger) : string :=
  match t with
  | Http _ => "http" | Schedule _ => "schedule" | Queue _ => "queue"
  | Topic _ => "topic" | Stream _ => "stream"
  end.

Definition trigger_resource (t : Trigger) : option string :=
  match t with
  | Queue t => Some (qt_resource t)
  | Topic t => Some (tt_resource t)
  | Stream t => Some (sm_resource t)
  | Http _ | Schedule _ => None
  end.

Record ResourceMetadata := mk_ResourceMetadata { rm_annotations : list (string * string) }.

Record ResourceRequest := mk_ResourceRequest {
  rr_ty : string; rr_class : option string; rr_id : option string; rr_params : option Value;
  rr_metadata : option ResourceMetadata }.

Inductive DeployStatus := StatusDeploy | StatusAvailable.

Record Deploy := mk_Deploy { dp_status : option DeployStatus; dp_timeout : option string }.

Record Workload := mk_Workload {
  w_api_version : string;
  w_kind : string;
  w_metadata : Metadata;
  w_containers : option (list (string * Container));
  w_function : option Function_;
  w_service : option Service;
  w_triggers : list (string * Trigger);
  w_resources : list (string * ResourceRequest);
  w_deploy : option Deploy;
  w_target : option jmap }.

(** ** Score files and overlays *)

Record ScoreMetadata := mk_ScoreMetadata {
  sc_name : string; sc_annotations : list (string * string) }.

Record ScoreWorkload := mk_ScoreWorkload {
  sw_api_version : string;
  sw_metadata : ScoreMetadata;
  sw_containers : list (string * Container);
  sw_service : option Service;
  sw_resources : list (string * ResourceRequest) }.

Record OverlayMetadata := mk_OverlayMetadata { om_class : option string }.

Record WorkloadOverlay := mk_WorkloadOverlay {
  ov_api_version : string;
  ov_kind : string;
  ov_metadata : option OverlayMetadata;
  ov_triggers : list (string * Trigger);
  ov_deploy : option Deploy;
  ov_target : option jmap }.

Definition overlay_default : WorkloadOverlay := mk_WorkloadOverlay ε ε None [] None None.

Record WorkloadError := mk_WorkloadError { we_path : string; we_message : string }.

Definition from_score (score : ScoreWorkload) (overlay : option WorkloadOverlay) : Workload :=
  let overlay := option_default overlay_default overlay in
  mk_Workload API_VERSION "Workload"
    (mk_Metadata (sc_name (sw_metadata score)) (ov_metadata overlay ≫= om_class)
       (sc_annotations (sw_metadata score)))
    (Some (sw_containers score)) None (sw_service score) (ov_triggers overlay)
    (sw_resources score) (ov_deploy overlay) (ov_target overlay).

(** ** JSON form *)

(** Fields that are always there, that are skipped when [None], and that are skipped when
    empty. *)
Definition field (k : string) (v : Value) : jmap := [(k, v)].
Definition seq_field {A} (k : string) (f : list A → Value) (l : list A) : jmap :=
  match l with [] => [] | _ => [(k, f l)] end.

Definition strs (l : list string) : Value := Arr (Str <$> l).
Definition str_map (m : list (string * string)) : Value := map_to_value Str m.
Definition uint (n : N) : Value := Num (PosInt n).

Definition metadata_to_value (m : Metadata) : Value :=
  Obj (field "name" (Str (md_name m)) ++ opt_field "class" (Str <$> md_class m)
       ++ seq_field "annotations" str_map (md_annotations m)).

Definition file_to_value (f : File) : Value :=
  Obj (opt_field "mode" (Str <$> f_mode f) ++ opt_field "source" (Str <$> f_source f)
       ++ opt_field "content" (Str <$> f_content f) ++ opt_field "noExpand" (Bool <$> f_no_expand f)).

Definition quantities_to_value (q : Quantities) : Value :=
  Obj (opt_field "memory" (Str <$> q_memory q) ++ opt_field "cpu" (Str <$> q_cpu q)).

Definition container_resources_to_value (r : ContainerResources) : Value :=
  Obj (opt_field "limits" (quantities_to_value <$> cr_limits r)
       ++ opt_field "requests" (quantities_to_value <$> cr_requests r)).

Definition http_header_to_value (h : HttpHeader) : Value :=
  Obj (field "name" (Str (hh_name h)) ++ field "value" (Str (hh_value h))).

Definition http_probe_to_value (p : HttpProbe) : Value :=
  Obj (opt_field "scheme" (Str <$> hp_scheme p) ++ opt_field "host" (Str <$> hp_host p)
       ++ field "path" (Str (hp_path p)) ++ field "port" (uint (hp_port p))
       ++ seq_field "httpHeaders" (λ l, Arr (http_header_to_value <$> l)) (hp_http_headers p)).

Definition exec_probe_to_value (p : ExecProbe) : Value := Obj (field "command" (strs (xp_command p))).

Definition probe_to_value (p : Probe) : Value :=
  Obj (opt_field "httpGet" (http_probe_to_value <$> pr_http_get p)
       ++ opt_field "exec" (exec_probe_to_value <$> pr_exec p)).

Definition container_to_value (c : Container) : Value :=
  Obj (field "image" (Str (c_image c)) ++ opt_field "command" (strs <$> c_command c)
       ++ opt_field "args" (strs <$> c_args c) ++ seq_field "variables" str_map (c_variables c)
       ++ seq_field "files" (map_to_value file_to_value) (c_files c)
       ++ opt_field "resources" (container_resources_to_value <$> c_resources c)
       ++ opt_field "livenessProbe" (probe_to_value <$> c_liveness_probe c)
       ++ opt_field "readinessProbe" (probe_to_value <$> c_readiness_probe c)).

Definition service_port_to_value (p : ServicePort) : Value :=
  Obj (field "port" (uint (sp_port p)) ++ opt_field "targetPort" (uint <$> sp_target_port p)
       ++ opt_field "protocol" (Str <$> sp_protocol p)).

Definition service_to_value (s : Service) : Value :=
  Obj (field "ports" (map_to_value service_port_to_value (sv_ports s))).

Definition package_to_value (p : Package) : Value :=
  match p with
  | Zip a r h => Obj [("type", Str "zip"); ("artifact", Str a); ("runtime", Str r); ("handler", Str h)]
  | Image i => Obj [("type", Str "image"); ("image", Str i)]
  end.

Definition concurrency_to_value (c : Concurrency) : Value :=
  Obj (opt_field "reserved" (uint <$> cc_reserved c)
       ++ opt_field "provisioned" (uint <$> cc_provisioned c)).

Definition function_to_value (f : Function_) : Value :=
  Obj (field "package" (package_to_value (fn_package f))
       ++ seq_field "variables" str_map (fn_variables f)
       ++ field "memory" (Str (fn_memory f)) ++ field "timeout" (Str (fn_timeout f))
       ++ opt_field "concurrency" (concurrency_to_value <$> fn_concurrency f)).

Definition http_auth_to_value (a : HttpAuth) : Value :=
  Str (match a with AuthNone => "none" | AuthIam => "iam" end).

Definition trigger_body (t : Trigger) : Value :=
  match t with
  | Http t => Obj (opt_field "port" (Str <$> ht_port t) ++ opt_field "path" (Str <$> ht_path t)
                   ++ opt_field "auth" (http_auth_to_value <$> ht_auth t))
  | Schedule t => Obj (field "cron" (Str (st_cron t)) ++ opt_field "timezone" (Str <$> st_timezone t)
                       ++ opt_field "input" (st_input t))
  | Queue t => Obj (field "resource" (Str (qt_resource t))
                    ++ opt_field "batchSize" (uint <$> qt_batch_size t))
  | Topic t => Obj (field "resource" (Str (tt_resource t)))
  | Stream t => Obj (field "resource" (Str (sm_resource t))
                     ++ opt_field "batchSize" (uint <$> sm_batch_size t)
                     ++ opt_field "startingPosition" (Str <$> sm_starting_position t))
  end.

Definition trigger_to_value (t : Trigger) : Value := Obj [(trigger_kind t, trigger_body t)].

Definition resource_metadata_to_value (m : ResourceMetadata) : Value :=
  Obj (field "annotations" (str_map (rm_annotations m))).

Definition resource_request_to_value (r : ResourceRequest) : Value :=
  Obj (field "type" (Str (rr_ty r)) ++ opt_field "class" (Str <$> rr_class r)
       ++ opt_field "id" (Str <$> rr_id r) ++ opt_field "params" (rr_params r)
       ++ opt_field "metadata" (resource_metadata_to_value <$> rr_metadata r)).

Definition deploy_status_to_value (s : DeployStatus) : Value :=
  Str (match s with StatusDeploy => "deploy" | StatusAvailable => "available" end).

Definition deploy_to_value (d : Deploy) : Value :=
  Obj (opt_field "status" (deploy_status_to_value <$> dp_status d)
       ++ opt_field "timeout" (Str <$> dp_timeout d)).

Definition containers_to_value (c : list (string * Container)) : Value :=
  map_to_value container_to_value c.

Definition workload_to_value (w : Workload) : Value :=
  Obj (field "apiVersion" (Str (w_api_version w)) ++ field "kind" (Str (w_kind w))
       ++ field "metadata" (metadata_to_value (w_metadata w))
       ++ opt_field "containers" (containers_to_value <$> w_containers w)
       ++ opt_field "function" (function_to_value <$> w_function w)
       ++ opt_field "service" (service_to_value <$> w_service w)
       ++ seq_field "triggers" (map_to_value trigger_to_value) (w_triggers w)
       ++ seq_field "resources" (map_to_value resource_request_to_value) (w_resources w)
       ++ opt_field "deploy" (deploy_to_value <$> w_deploy w)
       ++ opt_field "target" (Obj <$> w_target w)).

(** ** Recognisers *)

Definition is_number_text (num : string) : bool :=
  let '(int, frac) :=
    match split_once "." num with Some (a, b) => (a, Some b) | None => (num, None) end in
  negb (str_is_empty int) && bytes_all is_ascii_digit int
  && match frac with
     | None => true
     | Some f => negb (str_is_empty f) && bytes_all is_ascii_digit f
     end.

Definition quantity_suffixes : list string :=
  ["Ki"; "Mi"; "Gi"; "Ti"; "Pi"; "Ei"; "k"; "M"; "G"; "T"; "P"; "E"; "m"; ε].

Definition is_quantity (s : string) : bool :=
  existsb (λ suf, match strip_suffix suf s with Some num => is_number_text num | None => false end)
    quantity_suffixes.

(** [bytes().take_while(p).count()]. *)
Fixpoint count_while (p : ascii → bool) (s : string) : nat :=
  match s with String c s => if p c then S (count_while p s) else 0 | ε => 0 end.

Definition duration_units : list string := ["ms"; "s"; "m"; "h"].

(** The [while] loop of [is_duration]; [None] is running out of fuel. *)
Fixpoint duration_loop (fuel : nat) (rest : string) : option bool :=
  match rest with
  | ε => Some true
  | _ =>
      match fuel with
      | O => None
      | S fuel =>
          let digits := count_while is_ascii_digit rest in
          if digits =? 0 then Some false
          else
            let rest := str_drop digits rest in
            match find (λ u, starts_with u rest) duration_units with
            | Some u => duration_loop fuel (str_drop (String.length u) rest)
            | None => Some false
            end
      end
  end.

Definition is_duration (s : string) : bool :=
  if str_is_empty s then false
  else option_default false (duration_loop (String.length s) s).

(** [split_whitespace]: the maximal runs of characters that are not white space. *)
Fixpoint split_ws (cur : list string) (l : list string) : list (list string) :=
  match l with
  | [] => match cur with [] => [] | _ => [cur] end
  | c :: l =>
      if is_whitespace c then match cur with [] => split_ws [] l | _ => cur :: split_ws [] l end
      else split_ws (cur ++ [c]) l
  end.

Definition ascii_char (p : ascii → bool) (ch : string) : bool :=
  match ch with String c ε => p c | _ => false end.

Definition cron_byte (c : ascii) : bool :=
  is_ascii_alphanumeric c || contains_char c "*,/-?LW#".

Definition is_cron (s : string) : bool :=
  let fields := split_ws [] (chars s) in
  (length fields =? 5) && forallb (forallb (ascii_char cron_byte)) fields.

Example recognisers :
  (is_quantity <$> ["256Mi"; "0.5"; "250m"; "1."; ".5"; "x"; "5Zi"])
    = [true; true; true; false; false; false; false]
  ∧ (is_duration <$> ["30s"; "5m"; "1h30m"; "100ms"; "5"; "m"; "5x"; ε])
    = [true; true; true; true; false; false; false; false]
  ∧ (is_cron <$> ["0 2 * * *"; "*/5 1-3 ? * MON"; "* * * *"; "a b c d !"])
    = [true; true; false; false].
Proof. by vm_compute. Qed.

(** ** Placeholders *)

Definition kind_show (k : PlaceholderErrorKind) : string :=
  match k with
  | Syntax m => "invalid placeholder syntax: " +:+ m
  | UnknownRoot r => "unknown placeholder root `" +:+ r +:+ "`"
  | NotAllowed m => "placeholder not allowed here: " +:+ m
  | Unresolvable m => "cannot resolve placeholder: " +:+ m
  | SecretInNonSecret => "a secret cannot be used in a non-secret input"
  end.

Definition parse_at (path s : string) : result Template WorkloadError :=
  map_err (λ e, mk_WorkloadError path (kind_show e)) (template_parse s).

Definition join_path (path key : string) : string :=
  if str_is_empty path then key else path +:+ "." +:+ key.

Fixpoint reject_placeholders (v : Value) (path : string) {struct v} : result unit WorkloadError :=
  match v with
  | Str s =>
      let? t := parse_at path s in
      if match template_placeholders t with [] => false | _ => true end then
        Err (mk_WorkloadError path "placeholders are not supported in resource params")
      else Ok tt
  | Arr items =>
      try_foldi (λ i _ item, reject_placeholders item (join_path path (show_nat i))) 0 tt items
  | Obj m => try_fold (λ _ (kv : string * Value), reject_placeholders kv.2 (join_path path kv.1)) tt m
  | _ => Ok tt
  end.

Definition check_root (path : string) (p : RawPlaceholder) : result unit WorkloadError :=
  let root := rp_root p in
  if String.eqb root "resources" || String.eqb root "values" || String.eqb root "pod" then Ok tt
  else if String.eqb root "context" then
    Err (mk_WorkloadError path ("`" +:+ rp_text p +:+ "`: workloads cannot use `context` placeholders; use `values` for environment configuration"))
  else Err (mk_WorkloadError path ("`" +:+ rp_text p +:+ "`: unknown placeholder root `" +:+ root +:+ "`")).

Fixpoint check_placeholders (v : Value) (path : string) {struct v} : result unit WorkloadError :=
  match v with
  | Str s =>
      let? t := parse_at path s in
      try_fold (λ _, check_root path) tt (template_placeholders t)
  | Arr items =>
      try_foldi (λ i _ item, check_placeholders item (path +:+ "[" +:+ show_nat i +:+ "]")) 0 tt items
  | Obj m => try_fold (λ _ (kv : string * Value), check_placeholders kv.2 (join_path path kv.1)) tt m
  | _ => Ok tt
  end.

(** ** Validation *)

Section validate.
Context (w : Workload).

Abbreviation fail path message := (Err (mk_WorkloadError path message)).

(** The entries of an optional map. *)
Definition entries {A} (o : option (list A)) : list A := option_default [] o.

Definition class_ : string := option_default default_class (md_class (w_metadata w)).

Definition is_http (t : Trigger) : bool := match t with Http _ => true | _ => false end.

Definition effective_triggers : list (string * Trigger) :=
  let triggers := w_triggers w in
  let has_http := existsb is_http triggers.*2 in
  if negb has_http && is_some (w_containers w) then
    match w_service w ≫= λ s, head (sv_ports s) with
    | Some (name, _) =>
        if negb (im_contains name triggers) then
          im_insert name (Http (mk_HttpTrigger (Some name) None None)) triggers
        else triggers
    | None => triggers
    end
  else triggers.

Definition validate_shape : result unit WorkloadError :=
  match w_containers w, w_function w with
  | Some _, Some _ => fail "." "a workload is either containers or a function, not both"
  | None, None => fail "." "a workload needs `containers` or `function`"
  | Some [], None => fail "containers" "at least one container is required"
  | _, _ => Ok tt
  end.

Definition validate_file (id : string) (kv : string * File) : result unit WorkloadError :=
  let '(target, f) := kv in
  if Bool.eqb (is_some (f_source f)) (is_some (f_content f)) then
    fail ("containers." +:+ id +:+ ".files." +:+ target) "set exactly one of `source` and `content`"
  else Ok tt.

Definition validate_quantity (id field : string) (nv : string * option string)
    : result unit WorkloadError :=
  match nv.2 with
  | Some v =>
      if negb (is_quantity v) then
        fail ("containers." +:+ id +:+ ".resources." +:+ field +:+ "." +:+ nv.1)
          ("`" +:+ v +:+ "` is not a quantity")
      else Ok tt
  | None => Ok tt
  end.

Definition validate_container (kv : string * Container) : result unit WorkloadError :=
  let '(id, c) := kv in
  if str_is_empty (c_image c) then fail ("containers." +:+ id +:+ ".image") "must not be empty"
  else
    let? _ := try_fold (λ _, validate_file id) tt (c_files c) in
    try_fold (λ _ (fq : string * option Quantities),
      let '(field, q) := fq in
      try_fold (λ _, validate_quantity id field) tt
        [("memory", q ≫= q_memory); ("cpu", q ≫= q_cpu)]) tt
      [("limits", c_resources c ≫= cr_limits); ("requests", c_resources c ≫= cr_requests)].

Definition validate_package (p : Package) : result unit WorkloadError :=
  match p with
  | Zip artifact runtime handler =>
      try_fold (λ _ (nv : string * string),
        if str_is_empty nv.2 then fail ("function.package." +:+ nv.1) "must not be empty" else Ok tt)
        tt [("artifact", artifact); ("runtime", runtime); ("handler", handler)]
  | Image image =>
      if str_is_empty image then fail "function.package.image" "must not be empty" else Ok tt
  end.

Definition validate_function (f : Function_) : result unit WorkloadError :=
  let? _ := validate_package (fn_package f) in
  if negb (is_quantity (fn_memory f)) then
    fail "function.memory" ("`" +:+ fn_memory f +:+ "` is not a quantity such as `256Mi`")
  else if negb (is_duration (fn_timeout f)) then
    fail "function.timeout" ("`" +:+ fn_timeout f +:+ "` is not a duration such as `30s`")
  else Ok tt.

Definition validate_resource (kv : string * ResourceRequest) : result unit WorkloadError :=
  let '(key, r) := kv in
  if match rr_id r with Some id => negb (is_valid_object_id id) | None => false end then
    fail ("resources." +:+ key +:+ ".id") OBJECT_ID_RULE
  else match rr_params r with
       | Some params => reject_placeholders params ("resources." +:+ key +:+ ".params")
       | None => Ok tt
       end.

Definition validate_http (path : string) (h : HttpTrigger) : result unit WorkloadError :=
  match ht_port h with
  | Some port =>
      if is_some (w_function w) then fail (path +:+ ".port") "functions have no ports"
      else if negb match w_service w with Some s => im_contains port (sv_ports s) | None => false end
      then fail (path +:+ ".port") ("`" +:+ port +:+ "` is not a service port")
      else Ok tt
  | None => Ok tt
  end.

Definition validate_trigger (kv : string * Trigger) : result unit WorkloadError :=
  let '(name, t) := kv in
  let path := "triggers." +:+ name +:+ "." +:+ trigger_kind t in
  let undeclared := match trigger_resource t with
                    | Some res => negb (im_contains res (w_resources w))
                    | None => false
                    end in
  if undeclared then
    fail (path +:+ ".resource")
      ("resource `" +:+ option_default ε (trigger_resource t) +:+ "` is not declared under `resources`")
  else match t with
       | Schedule s =>
           if negb (is_cron (st_cron s)) then
             fail (path +:+ ".cron") ("`" +:+ st_cron s +:+ "` is not a 5-field cron expression")
           else Ok tt
       | Http h => validate_http path h
       | _ => Ok tt
       end.

Definition validate_deploy : result unit WorkloadError :=
  match w_deploy w ≫= dp_timeout with
  | Some t =>
      if negb (is_duration t) then
        fail "deploy.timeout" ("`" +:+ t +:+ "` is not a duration such as `5m`")
      else Ok tt
  | None => Ok tt
  end.

(** The pointer to the content of a file that is not expanded. *)
Definition no_expand_pointer (prefix id : string) (kv : string * File) : option string :=
  let '(target, f) := kv in
  match f_no_expand f, f_content f with
  | Some true, Some _ =>
      Some (prefix +:+ "/containers/" +:+ escape_pointer id +:+ "/files/" +:+ escape_pointer target
            +:+ "/content")
  | _, _ => None
  end.

Definition no_expand_pointers (prefix : string) : list string :=
  mjoin ((λ kv : string * Container, filter_map (no_expand_pointer prefix kv.1) (c_files kv.2))
    <$> entries (w_containers w)).

Definition validate : result unit WorkloadError :=
  let? _ := validate_shape in
  let? _ := try_fold (λ _, validate_container) tt (entries (w_containers w)) in
  if is_some (w_service w) && is_some (w_function w) then
    fail "service" "`service` applies to container workloads only"
  else
    let? _ := match w_function w with Some f => validate_function f | None => Ok tt end in
    let? _ := try_fold (λ _, validate_resource) tt (w_resources w) in
    let? _ := try_fold (λ _, validate_trigger) tt (w_triggers w) in
    let? _ := validate_deploy in
    let json := (set_aside (workload_to_value w) (no_expand_pointers ε)).1 in
    check_placeholders json ε.
End validate.

(** ** Reading documents *)

Section parse.
(** YAML values, reading them, their string fields, and [serde]'s deserialization of each
    document kind ([parse_yaml]). *)
Context {Yaml : Type}.
Context (yaml_from_str : string → result Yaml string).
Context (yaml_str : Yaml → string → option string).
Context (workload_from_yaml : Yaml → result Workload WorkloadError).
Context (score_from_yaml : Yaml → result ScoreWorkload WorkloadError).
Context (overlay_from_yaml : Yaml → result WorkloadOverlay WorkloadError).

Definition overlay_parse (document : string) : result WorkloadOverlay WorkloadError :=
  let? value := map_err (mk_WorkloadError "overlay") (yaml_from_str document) in
  let? o := map_err (λ e, mk_WorkloadError ("overlay " +:+ we_path e) (we_message e))
              (overlay_from_yaml value) in
  if negb (String.eqb (ov_api_version o) API_VERSION)
     || negb (String.eqb (ov_kind o) "WorkloadOverlay") then
    Err (mk_WorkloadError "overlay"
      ("expected `apiVersion: " +:+ API_VERSION +:+ "` and `kind: WorkloadOverlay`"))
  else Ok o.

Definition workload_parse (document : string) (overlay : option string)
    : result Workload WorkloadError :=
  let? value := map_err (mk_WorkloadError ".") (yaml_from_str document) in
  let? workload :=
    match yaml_str value "apiVersion" with
    | Some v =>
        if String.eqb v API_VERSION then
          if is_some overlay then
            Err (mk_WorkloadError "." "overlays apply only to Score files")
          else
            let? w := workload_from_yaml value in
            if negb (String.eqb (w_kind w) "Workload") then
              Err (mk_WorkloadError "kind" "expected `Workload`")
            else Ok w
        else if String.eqb v SCORE_API_VERSION then
          let? score := score_from_yaml value in
          let? overlay :=
            match overlay with
            | Some o => let? o := overlay_parse o in Ok (Some o)
            | None => Ok None
            end in
          Ok (from_score score overlay)
        else
          Err (mk_WorkloadError "apiVersion"
            ("unsupported `" +:+ v +:+ "`; expected `" +:+ API_VERSION +:+ "` or `"
             +:+ SCORE_API_VERSION +:+ "`"))
    | None => Err (mk_WorkloadError "apiVersion" "missing")
    end in
  let? _ := validate workload in
  Ok workload.
End parse.

(** ** Translation *)

Definition name_byte (c : ascii) : bool :=
  is_ascii_alphanumeric c || Ascii.eqb c "-" || Ascii.eqb c "_".

Definition segment_text (name : string) : string :=
  if forallb (ascii_char name_byte) (chars name) then segment_show (Name name)
  else segment_show (Quoted name).

Definition is_secret_sink (pointer : string) : bool :=
  match split "/" (trim_start_matches "/" pointer) with
  | [a; _; c; _] => String.eqb a "containers" && String.eqb c "variables"
  | [a; _; c; _; e] => String.eqb a "containers" && String.eqb c "files" && String.eqb e "content"
  | [a; b; _] => String.eqb a "function" && String.eqb b "variables"
  | _ => false
  end.

Section translate.
Context (resources : list (string * ResourceRequest)) (types : list ResourceType).

Definition expected (p : RawPlaceholder) : string :=
  "`" +:+ rp_text p +:+ "`: expected `resources.<key>.<output>`".

Definition kind_of (p : RawPlaceholder) (r : ResourceRequest) (ty : ResourceType) (output : string)
    : result OutputKind string :=
  match output_kind ty output with
  | Some k => Ok k
  | None =>
      if has_open_outputs ty then Ok KindValue
      else Err ("`" +:+ rp_text p +:+ "`: resource type `" +:+ rr_ty r +:+ "` has no output `"
                +:+ output +:+ "`")
  end.

Definition is_secret_kind (k : OutputKind) : bool := bool_decide (k = KindSecret).

Definition translate_resource_placeholder (p : RawPlaceholder) : result (string * bool) string :=
  match rp_segments p with
  | _ :: key :: output :: rest =>
      let? key := ok_or (segment_key key) (expected p) in
      let? output := ok_or (segment_key output) (expected p) in
      let? r := ok_or (im_get key resources)
        ("`" +:+ rp_text p +:+ "`: resource `" +:+ key +:+ "` is not declared under `resources`") in
      let? ty := ok_or (find (λ t, String.eqb (rt_id t) (rr_ty r)) types)
        ("`" +:+ rp_text p +:+ "`: unknown resource type `" +:+ rr_ty r +:+ "`") in
      let? kind := kind_of p r ty output in
      if is_secret_kind kind && match rest with [] => false | _ => true end then
        Err ("`" +:+ rp_text p +:+ "`: secret output `" +:+ output +:+ "` has no fields")
      else
        let head := match rr_id r with
                    | Some id => "shared" +:+ segment_text id
                    | None => "externals" +:+ segment_text key
                    end in
        let text := open_brace +:+ head +:+ segment_text output
                    +:+ concat_str (segment_show <$> rest) +:+ "}" in
        Ok (text, is_secret_kind kind)
  | _ => Err (expected p)
  end.

(** One part of a string: the text written so far and the first secret placeholder. *)
Definition translate_part (path : string) (acc : string * option string) (part : Part)
    : result (string * option string) WorkloadError :=
  let '(out, secret) := acc in
  match part with
  | Literal l => Ok (out +:+ replace open_brace esc_open l, secret)
  | Placeholder p =>
      if String.eqb (rp_root p) "resources" then
        let? (text, is_secret) :=
          map_err (mk_WorkloadError path) (translate_resource_placeholder p) in
        let secret := if is_secret && is_none secret then Some (rp_text p) else secret in
        Ok (out +:+ text, secret)
      else Ok (out +:+ rp_text p, secret)
  end.

Definition translate_string (s pointer : string) (secret_paths : list string)
    : result (string * list string) WorkloadError :=
  let path := replace "/" "." (trim_start_matches "/" pointer) in
  let? t := parse_at path s in
  if template_is_literal t then Ok (s, secret_paths)
  else
    let? (out, secret) := try_fold (translate_part path) (ε, None) t in
    match secret with
    | Some placeholder =>
        if negb (is_secret_sink pointer) then
          Err (mk_WorkloadError path ("`" +:+ placeholder
            +:+ "` is a secret output; secrets can only be used in variables and file content"))
        else Ok (out, secret_paths ++ [pointer])
    | None => Ok (out, secret_paths)
    end.

Fixpoint translate (v : Value) (pointer : string) (secret_paths : list string) {struct v}
    : result (Value * list string) WorkloadError :=
  match v with
  | Str s =>
      let? (s, secret_paths) := translate_string s pointer secret_paths in
      Ok (Str s, secret_paths)
  | Arr a =>
      let? (a, secret_paths) := try_foldi (λ i (acc : list Value * list string) item,
        let? (item, sp) := translate item (pointer +:+ "/" +:+ show_nat i) acc.2 in
        Ok (acc.1 ++ [item], sp)) 0 ([], secret_paths) a in
      Ok (Arr a, secret_paths)
  | Obj m =>
      let? (m, secret_paths) := try_fold (λ (acc : jmap * list string) (kv : string * Value),
        let? (item, sp) := translate kv.2 (pointer +:+ "/" +:+ escape_pointer kv.1) acc.2 in
        Ok (acc.1 ++ [(kv.1, item)], sp)) ([], secret_paths) m in
      Ok (Obj m, secret_paths)
  | other => Ok (other, secret_paths)
  end.
End translate.

(** ** Conversion *)

Record ConvertedWorkload := mk_ConvertedWorkload {
  cw_id : string; cw_module : Module_; cw_secret_paths : list string }.

Definition to_external (r : ResourceRequest) : External :=
  mk_External (rr_ty r) (option_default default_class (rr_class r)) (rr_id r)
    (match rr_params r with
     | Some p => if is_null p then None else Some p
     | None => None
     end).

Definition to_externals (w : Workload) : list (string * External) :=
  foldl (λ m (kv : string * ResourceRequest), bt_insert kv.1 (to_external kv.2) m) [] (w_resources w).

Definition to_deploy (w : Workload) : Value :=
  let deploy := option_default (mk_Deploy None None) (w_deploy w) in
  Obj [("status", deploy_status_to_value (option_default StatusAvailable (dp_status deploy)));
       ("timeout", Str (option_default "5m" (dp_timeout deploy)))].

(** The spec before translation. *)
Definition to_spec (w : Workload) : jmap :=
  opt_field "containers" (containers_to_value <$> w_containers w)
  ++ opt_field "function" (function_to_value <$> w_function w)
  ++ opt_field "service" (service_to_value <$> w_service w)
  ++ seq_field "triggers" (map_to_value trigger_to_value) (effective_triggers w)
  ++ field "deploy" (to_deploy w)
  ++ opt_field "target" (Obj <$> w_target w)
  ++ seq_field "annotations" str_map (md_annotations (w_metadata w)).

Definition to_module (w : Workload) (types : list ResourceType)
    : result ConvertedWorkload (fault WorkloadError) :=
  let (spec, kept) := set_aside (Obj (to_spec w)) (no_expand_pointers w ε) in
  let? (spec, secret_paths) := returned (translate (w_resources w) types spec ε []) in
  let? spec := expect (put_back spec kept) in
  let? spec := expect (as_object spec) in
  Ok (mk_ConvertedWorkload (md_name (w_metadata w))
        (mk_Module (class_ w) spec (to_externals w)) secret_paths).
