(* ===== verification/WorkloadText.v ===== *)
(** * Text in workloads ([crates/core/src/workload.rs])

    The recognisers for quantities, durations and schedules against the patterns they
    implement, and what translation does to the text of one string. *)

From Stdlib Require Import Ascii.
From stdpp Require Import base sets strings list.
From S2P Require Import Prelude Strings Utf8 OrdMap Regex Ids Float64 Json Template PathText Catalog Sets Pointer JsonPath Workload.

Local Open Scope string_scope.
Local Open Scope nat_scope.
Local Open Scope list_scope.

(** ** Quantities and durations *)

Definition Digits : re := Plus (Cls is_ascii_digit).

(** [[0-9]+(\.[0-9]+)?(Ki|Mi|...|m)?] *)
Definition QUANTITY_PATTERN : re :=
  Cat (Cat Digits (Opt (Cat (Chr ".") Digits))) (Alts (Lit <$> quantity_suffixes)).

(** [([0-9]+(ms|s|m|h))+] *)
Definition DURATION_PATTERN : re := Plus (Cat Digits (Alts (Lit <$> duration_units))).

Lemma match_units (l : list string) s : re_match (Alts (Lit <$> l)) s ↔ s ∈ l.
Proof.
  rewrite match_Alts. setoid_rewrite list_elem_of_fmap. split.
  - by intros (r & (u & -> & Hu) & ->%match_Lit).
  - intros Hs. exists (Lit s). split; [by exists s|by apply match_Lit].
Qed.

Lemma digits_no_dot s : bytes_all is_ascii_digit s = true → contains_char "." s = false.
Proof. by apply bytes_all_no_char. Qed.

Lemma not_empty_true s : negb (str_is_empty s) = true ↔ s ≠ ε.
Proof. by destruct s. Qed.

Lemma match_Digits s : re_match Digits s ↔ s ≠ ε ∧ bytes_all is_ascii_digit s = true.
Proof. apply match_Plus_Cls. Qed.

Lemma match_fraction s :
  re_match (Cat (Chr ".") Digits) s ↔ ∃ f, s = String "." f ∧ f ≠ ε ∧ bytes_all is_ascii_digit f = true.
Proof.
  rewrite match_Cat. setoid_rewrite match_Chr. setoid_rewrite match_Digits. split.
  - intros (a & f & -> & -> & Hf). by exists f.
  - intros (f & -> & Hf). by exists (str1 "."), f.
Qed.

Lemma is_number_text_spec s :
  is_number_text s = true ↔ re_match (Cat Digits (Opt (Cat (Chr ".") Digits))) s.
Proof.
  unfold is_number_text. rewrite match_Cat. setoid_rewrite match_Opt.
  setoid_rewrite match_fraction. setoid_rewrite match_Digits. split.
  - destruct (split_once "." s) as [[a b]|] eqn:E.
    + apply split_once_Some in E as [-> _]. rewrite !andb_true_iff, !not_empty_true.
      intros [[? ?] [? ?]]. exists a, (String "." b). split_and!; try done. right. by exists b.
    + rewrite andb_true_r, andb_true_iff, not_empty_true. intros [? ?]. exists s, ε.
      rewrite app_eps_r. split_and!; auto.
  - intros (a & b & -> & [Ha Hd] & [->|(f & -> & Hf & Hfd)]).
    + rewrite app_eps_r. rewrite (proj2 (split_once_None _ _)) by (by apply digits_no_dot).
      by rewrite Hd, (proj2 (not_empty_true a)).
    + rewrite split_once_app by (by apply digits_no_dot).
      by rewrite Hd, Hfd, (proj2 (not_empty_true a)), (proj2 (not_empty_true f)).
Qed.

Lemma is_quantity_spec s : is_quantity s = true ↔ re_match QUANTITY_PATTERN s.
Proof.
  unfold is_quantity, QUANTITY_PATTERN. rewrite existsb_exists, match_Cat. split.
  - intros (suf & Hin & H). destruct (strip_suffix suf s) as [num|] eqn:E; [|done].
    apply strip_suffix_Some in E as ->. exists num, suf. split_and!; [done|by apply is_number_text_spec|].
    apply match_units. by apply list_elem_of_In.
  - intros (num & suf & -> & Hn & Hs%match_units). exists suf. split; [by apply list_elem_of_In|].
    assert (strip_suffix suf (num +:+ suf) = Some num) as -> by (by apply strip_suffix_Some).
    by apply is_number_text_spec.
Qed.

Lemma count_while_split p s :
  bytes_all p (str_take (count_while p s) s) = true
  ∧ match str_drop (count_while p s) s with String c _ => p c = false | ε => True end
  ∧ count_while p s ≤ String.length s.
Proof.
  induction s as [|c s IH]; simpl; [done|]. destruct (p c) eqn:E; simpl; [|by split_and!; [|rewrite E|lia]].
  rewrite E. destruct IH as (-> & ? & ?). split_and!; [done|done|lia].
Qed.

Lemma count_while_app p a b :
  bytes_all p a = true → match b with String c _ => p c = false | ε => True end →
  count_while p (a +:+ b) = String.length a.
Proof.
  intros Ha Hb. induction a as [|c a IH]; simpl in *.
  - destruct b as [|c b]; [done|]. simpl. by rewrite Hb.
  - apply andb_true_iff in Ha as [-> Ha]. by rewrite IH.
Qed.

Lemma duration_units_not_digit u : u ∈ duration_units →
  ∃ c r, u = String c r ∧ is_ascii_digit c = false.
Proof.
  unfold duration_units. rewrite !elem_of_cons, elem_of_nil.
  intros [->|[->|[->|[->|[]]]]]; eexists _, _; by split.
Qed.

Definition Duration : re := Cat Digits (Alts (Lit <$> duration_units)).

Lemma durations_head r :
  re_match (Star Duration) r → match r with String c _ => is_ascii_digit c = true | ε => True end.
Proof.
  intros (l & -> & Hl)%match_Star. destruct l as [|x l]; [done|].
  apply Forall_cons in Hl as [(a & b & -> & [Ha Hd]%match_Plus_Cls & _)%match_Cat _].
  destruct a as [|c a]; [done|]. simpl in *. by apply andb_true_iff in Hd as [? _].
Qed.

(** A non-empty sequence of durations begins with digits and a unit. *)
Lemma durations_step t :
  t ≠ ε → re_match (Star Duration) t ↔
  ∃ a u r, t = a +:+ u +:+ r ∧ a ≠ ε ∧ bytes_all is_ascii_digit a = true
    ∧ u ∈ duration_units ∧ re_match (Star Duration) r.
Proof.
  intros Ht. split.
  - intros (l & -> & Hl)%match_Star. destruct l as [|x l]; [done|].
    apply Forall_cons in Hl as [(a & u & -> & [Ha Hd]%match_Plus_Cls & Hu%match_units)%match_Cat Hl].
    exists a, u, (concat_str l). simpl. rewrite app_assoc_str. split_and!; try done.
    apply match_Star. by exists l.
  - intros (a & u & r & -> & Ha & Hd & Hu & Hr). rewrite <-app_assoc_str.
    apply match_star_cons; [|done]. apply match_cat; [by apply match_Plus_Cls|by apply match_units].
Qed.

(** The unit found is the one before the next digits. *)
Lemma find_unit u r :
  u ∈ duration_units → match r with String c _ => is_ascii_digit c = true | ε => True end →
  find (λ x, starts_with x (u +:+ r)) duration_units = Some u.
Proof.
  unfold duration_units. rewrite !elem_of_cons, elem_of_nil.
  intros [->|[->|[->|[->|[]]]]] Hr; try done. destruct r as [|c r]; [done|].
  cbn [String.append find]. unfold starts_with at 1. cbn [strip_prefix]. rewrite Ascii.eqb_refl.
  destruct (Ascii.eqb_spec "s" c) as [<-|]; done.
Qed.

Lemma duration_split a u r :
  bytes_all is_ascii_digit a = true → u ∈ duration_units → re_match (Star Duration) r →
  count_while is_ascii_digit (a +:+ u +:+ r) = String.length a
  ∧ find (λ x, starts_with x (u +:+ r)) duration_units = Some u.
Proof.
  intros Ha Hu Hr. split; [|by apply find_unit, durations_head].
  apply count_while_app; [done|]. by destruct (duration_units_not_digit u Hu) as (c & u' & -> & ?).
Qed.

Lemma duration_loop_spec n s :
  String.length s ≤ n →
  ∃ b, duration_loop n s = Some b ∧ (b = true ↔ re_match (Star Duration) s).
Proof.
  revert s. induction n as [|n IH]; intros [|c s] Hn; simpl in Hn;
    try (exists true; split; [done|]; split; [constructor|done]); [lia|].
  cbn [duration_loop]. set (t := String c s) in *. setoid_rewrite (durations_step t ltac:(done)).
  set (d := count_while is_ascii_digit t) in *.
  destruct (count_while_split is_ascii_digit t) as (Hd & _ & _). fold d in Hd.
  destruct (d =? 0) eqn:Ez.
  { exists false. split; [done|]. split; [done|]. intros (a & u & r & Ht & Ha & Hda & Hu & Hr).
    apply Nat.eqb_eq in Ez. unfold d in Ez. rewrite Ht in Ez.
    rewrite (proj1 (duration_split a u r Hda Hu Hr)) in Ez. by destruct a. }
  apply Nat.eqb_neq in Ez. pose proof (str_take_drop d t) as Ht. set (rest := str_drop d t) in *.
  assert (∀ a u r, t = a +:+ u +:+ r → bytes_all is_ascii_digit a = true → u ∈ duration_units →
    re_match (Star Duration) r → find (λ x, starts_with x rest) duration_units = Some u ∧ rest = u +:+ r)
    as Hsplit.
  { intros a u r Htu Ha Hu Hr. destruct (duration_split a u r Ha Hu Hr) as [Hc Hf].
    unfold rest, d. rewrite Htu, Hc, str_drop_length_app. done. }
  destruct (find (λ u, starts_with u rest) duration_units) as [u|] eqn:Eu; swap 1 2.
  { exists false. split; [done|]. split; [done|]. intros (a & u & r & Htu & _ & Hda & Hu & Hr).
    by destruct (Hsplit a u r). }
  apply find_Some in Eu as [Hu [r Hr]%starts_with_spec].
  assert (String.length r ≤ n) as Hlen.
  { apply (f_equal String.length) in Hr. unfold rest in Hr. rewrite length_str_drop, length_app_str in Hr.
    unfold t in Hr. simpl in Hr. lia. }
  destruct (IH r Hlen) as (b & Hb & Hbs). exists b. split; [by rewrite Hr, str_drop_length_app|].
  rewrite Hbs. split.
  - intros H. exists (str_take d t), u, r. rewrite <-Hr, Ht. split_and!; try done.
    intros H0. apply (f_equal String.length) in H0. rewrite length_str_take in H0. unfold t in H0.
    simpl in H0. lia.
  - intros (a & u' & r' & Htu & _ & Hda & Hu' & Hr'). destruct (Hsplit a u' r') as [[= <-] Hrest]; try done.
    rewrite Hr in Hrest. by apply app_inj_l in Hrest as ->.
Qed.

Lemma is_duration_spec s : is_duration s = true ↔ re_match DURATION_PATTERN s.
Proof.
  unfold is_duration. destruct (str_is_empty s) eqn:E.
  { destruct s; [|done]. split; [done|]. intros H. exfalso.
    apply match_Plus in H as ([|x l] & Hne & Hs & Hl); [done|].
    apply Forall_cons in Hl as [(a & b & -> & [Ha _]%match_Plus_Cls & _)%match_Cat _].
    by destruct a. }
  assert (s ≠ ε) as Hs by (by destruct s).
  destruct (duration_loop_spec (String.length s) s) as (b & -> & Hb); [done|]. simpl. rewrite Hb.
  unfold DURATION_PATTERN, Plus. fold Duration. rewrite durations_step by done. rewrite match_Cat.
  unfold Duration at 2. setoid_rewrite (match_Cat Digits). setoid_rewrite match_Digits.
  setoid_rewrite match_units. split.
  - intros (a & u & r & -> & Ha & Hd & Hu & Hr). exists (a +:+ u), r. rewrite app_assoc_str.
    split_and!; try done. by exists a, u.
  - intros (x & r & -> & (a & u & -> & [Ha Hd] & Hu) & Hr). exists a, u, r. by rewrite app_assoc_str.
Qed.

(** The hand-written recognisers accept exactly what their patterns describe: a
    quantity is [[0-9]+(\.[0-9]+)?] with an optional suffix, a duration is a sequence of
    [[0-9]+(ms|s|m|h)]; the loop over a duration ends on every string. *)
Theorem text_recognisers (s : string) :
  (is_quantity s = true ↔ re_match QUANTITY_PATTERN s)
  ∧ (is_duration s = true ↔ re_match DURATION_PATTERN s)
  ∧ ∃ b, duration_loop (String.length s) s = Some b.
Proof.
  split_and!; [apply is_quantity_spec|apply is_duration_spec|].
  destruct (duration_loop_spec (String.length s) s) as (b & Hb & _); [done|]. by exists b.
Qed.

(** ** Translation of one string *)

Lemma replace_escape l : replace open_brace esc_open l = escape_literal l.
Proof.
  induction l as [l IH] using (induction_ltof1 _ String.length); unfold ltof in IH.
  destruct l as [|c [|d r]]; [done| |].
  - rewrite replace_skip; [done|]. destruct (Ascii.eqb_spec "$" c) as [<-|]; [done|by apply starts_with_head].
  - cbn [escape_literal]. destruct (Ascii.eqb_spec c "$") as [->|Hc]; [destruct (Ascii.eqb_spec d "{") as [->|Hd]|];
      cbn [andb].
    + unfold open_brace. rewrite replace_two. f_equal. apply IH. simpl. lia.
    + rewrite replace_skip; [f_equal; apply IH; simpl; lia|].
      unfold open_brace. rewrite starts_with_two. rewrite Ascii.eqb_refl. cbn [andb].
      by destruct (Ascii.eqb_spec "{" d).
    + rewrite replace_skip; [f_equal; apply IH; simpl; lia|]. by apply starts_with_head.
Qed.

(** A name as a path segment. *)
Definition name_segment (name : string) : Segment :=
  if forallb (ascii_char name_byte) (chars name) then Name name else Quoted name.

Lemma segment_text_show name : segment_text name = segment_show (name_segment name).
Proof. unfold segment_text, name_segment. by destruct (forallb _ _). Qed.

Section translation.
Context (resources : list (string * ResourceRequest)) (types : list ResourceType).

(** [p] names an output of a declared resource, and [q] is the reference a set uses for
    it; [secret] is whether the output is a secret. *)
Definition translates (p q : RawPlaceholder) (secret : bool) : Prop :=
  ∃ root kseg oseg rest key output r ty kind,
    rp_segments p = root :: kseg :: oseg :: rest
    ∧ segment_key kseg = Some key ∧ segment_key oseg = Some output
    ∧ im_get key resources = Some r
    ∧ find (λ t, String.eqb (rt_id t) (rr_ty r)) types = Some ty
    ∧ (output_kind ty output = Some kind
       ∨ output_kind ty output = None ∧ has_open_outputs ty = true ∧ kind = KindValue)
    ∧ (kind = KindSecret → rest = [])
    ∧ q = match rr_id r with
          | Some id => placeholder_of "shared" (name_segment id :: name_segment output :: rest)
          | None => placeholder_of "externals" (name_segment key :: name_segment output :: rest)
          end
    ∧ secret = is_secret_kind kind.

Lemma translate_resource_placeholder_Ok p text secret :
  translate_resource_placeholder resources types p = Ok (text, secret) →
  ∃ q, translates p q secret ∧ rp_text q = text.
Proof.
  unfold translate_resource_placeholder. destruct (rp_segments p) as [|root [|kseg [|oseg rest]]] eqn:Es; try done.
  destruct (segment_key kseg) as [key|] eqn:Ek; [|done]. cbn [ok_or].
  destruct (segment_key oseg) as [output|] eqn:Eo; [|done]. cbn [ok_or].
  destruct (im_get key resources) as [r|] eqn:Er; [|done]. cbn [ok_or].
  destruct (find _ types) as [ty|] eqn:Et; [|done]. cbn [ok_or].
  destruct (kind_of p r ty output) as [kind|] eqn:Ekd; [|done].
  destruct (is_secret_kind kind && _) eqn:Esec; [done|]. intros [= <- <-].
  eexists. split.
  - exists root, kseg, oseg, rest, key, output, r, ty, kind. split_and!; try done.
    + unfold kind_of in Ekd. destruct (output_kind ty output) as [k|]; [left; congruence|right].
      destruct (has_open_outputs ty); [|done]. split_and!; congruence.
    + intros ->. unfold is_secret_kind in Esec. rewrite bool_decide_eq_true_2 in Esec by done.
      by destruct rest.
  - rewrite !segment_text_show. unfold placeholder_of. destruct (rr_id r); cbn [rp_text];
      rewrite ?segment_text_show, !path_text_cons; unfold path_text; rewrite ?app_assoc_str; done.
Qed.

(** What translation makes of a part. *)
Definition part_translated (part part' : Part) (secret : bool) : Prop :=
  match part with
  | Literal l => part' = Literal l ∧ secret = false
  | Placeholder p =>
      if String.eqb (rp_root p) "resources" then ∃ q, part' = Placeholder q ∧ translates p q secret
      else part' = Placeholder p ∧ secret = false
  end.

Lemma translate_part_Ok path out sec part out' sec' :
  translate_part resources types path (out, sec) part = Ok (out', sec') →
  ∃ part' secret, part_translated part part' secret ∧ out' = out +:+ part_unparse part'
    ∧ is_some sec' = is_some sec || secret.
Proof.
  unfold translate_part. destruct part as [l|p].
  - intros [= <- <-]. exists (Literal l), false. simpl. by rewrite replace_escape, orb_false_r.
  - unfold part_translated. destruct (String.eqb (rp_root p) "resources").
    + destruct (translate_resource_placeholder _ _ p) as [[text secret]|] eqn:E; [|done]. cbn [map_err].
      intros [= <- <-]. apply translate_resource_placeholder_Ok in E as (q & Hq & <-).
      exists (Placeholder q), secret. split_and!; [by exists q|done|].
      by destruct secret, sec.
    + intros [= <- <-]. exists (Placeholder p), false. by rewrite orb_false_r.
Qed.

Lemma translate_parts_Ok path t : ∀ out sec out' sec',
  try_fold (translate_part resources types path) (out, sec) t = Ok (out', sec') →
  ∃ t' secrets, Forall3 part_translated t t' secrets ∧ out' = out +:+ template_unparse t'
    ∧ is_some sec' = is_some sec || existsb id secrets.
Proof.
  induction t as [|part t IH]; intros out sec out' sec'; cbn [try_fold].
  - intros [= <- <-]. exists [], []. split_and!; [constructor|by rewrite app_eps_r|by rewrite orb_false_r].
  - destruct (translate_part _ _ path (out, sec) part) as [[o s]|] eqn:E; [|done].
    intros (t' & secrets & Ht & -> & Hs)%IH.
    apply translate_part_Ok in E as (part' & secret & Hp & -> & Hs').
    exists (part' :: t'), (secret :: secrets). split_and!; [by constructor| |].
    + rewrite app_assoc_str. done.
    + simpl. by rewrite Hs, Hs', orb_assoc.
Qed.
End translation.

(** *** Names that can be written back *)

(** A reference whose key and output are not empty and whose segments can be written. *)
Definition plain_reference (p : RawPlaceholder) : Prop :=
  ∀ root kseg oseg rest, rp_segments p = root :: kseg :: oseg :: rest →
    Forall (λ seg, plain_segment seg = true) (kseg :: oseg :: rest)
    ∧ segment_key kseg ≠ Some ε ∧ segment_key oseg ≠ Some ε.

Lemma name_byte_ascii c : name_byte c = true → is_ascii c = true.
Proof. destruct c as [[] [] [] [] [] [] [] []]; vm_compute; done. Qed.

Lemma name_byte_name_char c : name_byte c = true → is_name_char (str1 c) = true.
Proof. destruct c as [[] [] [] [] [] [] [] []]; vm_compute; done. Qed.

Lemma id_byte_name_byte c : id_byte c = true → name_byte c = true.
Proof. destruct c as [[] [] [] [] [] [] [] []]; vm_compute; done. Qed.

Lemma name_bytes_Name s :
  s ≠ ε → bytes_all name_byte s = true →
  name_segment s = Name s ∧ plain_segment (Name s) = true.
Proof.
  intros Hne Hs. assert (bytes_all is_ascii s = true) as Ha
    by (eapply bytes_all_impl; [apply name_byte_ascii|done]).
  assert (forallb (ascii_char name_byte) (chars s) = true ∧ forallb is_name_char (chars s) = true) as [H1 H2].
  { rewrite chars_ascii by done. clear -Hs. induction s as [|c s IH]; [done|]. csimpl in *.
    apply andb_true_iff in Hs as [Hc Hs]. rewrite Hc, (name_byte_name_char c Hc). by apply IH. }
  split; [unfold name_segment; by rewrite H1|]. cbn [plain_segment].
  rewrite H2, (ascii_valid s Ha). destruct s as [|c s]; [done|]. cbn [str_is_empty negb andb].
  unfold lacks. apply forallb_forall. intros q Hq%list_elem_of_In. apply negb_true_iff.
  eapply bytes_all_no_char; [|exact Hs]. revert Hq. rewrite !elem_of_cons, elem_of_nil.
  intros [->|[->|[->|[->|[]]]]]; done.
Qed.

Lemma ascii_chars_bytes p s : forallb (ascii_char p) (chars s) = true → bytes_all p s = true.
Proof.
  intros H. rewrite <-(chars_concat s). induction (chars s) as [|ch l IH]; [done|]. simpl in *.
  apply andb_true_iff in H as [Hc Hl]. rewrite bytes_all_app, (IH Hl), andb_true_r.
  destruct ch as [|c [|d ch]]; try done. simpl in *. by rewrite Hc.
Qed.

Lemma name_segment_plain seg n :
  plain_segment seg = true → segment_key seg = Some n → n ≠ ε → plain_segment (name_segment n) = true.
Proof.
  intros Hp Hk Hne. destruct (forallb (ascii_char name_byte) (chars n)) eqn:E.
  { apply ascii_chars_bytes in E. by destruct (name_bytes_Name n Hne E) as [-> ?]. }
  unfold name_segment. rewrite E. cbn [plain_segment].
  destruct seg as [s|s|i]; cbn [segment_key plain_segment] in *; [|by injection Hk as ->|done].
  injection Hk as ->. apply andb_true_iff in Hp as [[[_ ->]%andb_true_iff _]%andb_true_iff Hl].
  cbn [andb]. unfold lacks in *. rewrite forallb_forall in *. intros c Hc. apply Hl. simpl in *. intuition.
Qed.

Lemma object_id_segment w :
  is_valid_object_id w = true → plain_segment (name_segment w) = true.
Proof.
  intros (Hne & _ & Hb)%object_id_bytes.
  assert (bytes_all name_byte w = true) as Hn by (eapply bytes_all_impl; [apply id_byte_name_byte|done]).
  by destruct (name_bytes_Name w Hne Hn) as [-> ?].
Qed.

Lemma translates_wf resources types p q secret :
  (∀ key r w, im_get key resources = Some r → rr_id r = Some w → is_valid_object_id w = true) →
  plain_reference p → translates resources types p q secret → placeholder_wf q.
Proof.
  intros Hids Hp (root & kseg & oseg & rest & key & output & r & ty & kind & Hs & Hk & Ho & Hr & _ & _ & _ & -> & _).
  destruct (Hp _ _ _ _ Hs) as ([Hkp [Hop Hrp]%Forall_cons]%Forall_cons & Hkne & Hone).
  assert (plain_segment (name_segment output) = true) as Hout
    by (eapply name_segment_plain; [exact Hop|done|congruence]).
  destruct (rr_id r) as [w|] eqn:Ei; apply placeholder_of_wf; try done; repeat constructor; try done.
  - apply object_id_segment. by eapply Hids.
  - eapply name_segment_plain; [exact Hkp|done|congruence].
Qed.

Lemma translated_template_wf resources types t t' secrets :
  (∀ key r w, im_get key resources = Some r → rr_id r = Some w → is_valid_object_id w = true) →
  (∀ p, p ∈ template_placeholders t → rp_root p = "resources" → plain_reference p) →
  Forall3 (part_translated resources types) t t' secrets → template_wf t → template_wf t'.
Proof.
  intros Hids Hpl H. revert Hpl. induction H as [|part part' secret t t' secrets Hp HF IH]; intros Hpl Hwf; [done|].
  assert (∀ p, p ∈ template_placeholders t → rp_root p = "resources" → plain_reference p) as Hpl'.
  { intros p Hin. apply Hpl. unfold template_placeholders in *. apply elem_of_filter_map in Hin as (x & Hx & Hpx).
    apply elem_of_filter_map. exists x. split; [by right|done]. }
  destruct part as [l|p]; cbn [part_translated] in Hp.
  - destruct Hp as [-> _]. destruct Hwf as (Hl & Hesc & Hn & Hwf). cbn [template_wf].
    split_and!; try done; [|by apply IH].
    inversion HF as [|x x' sx tx tx' ? Hx]; subst; [done|]. destruct x as [|p]; [done|].
    cbn [part_translated] in Hx. destruct (String.eqb (rp_root p) "resources"); [|by destruct Hx as [-> _]].
    by destruct Hx as (q & -> & _).
  - destruct Hwf as [Hpw Hwf]. destruct (String.eqb_spec (rp_root p) "resources") as [Hr|_].
    + destruct Hp as (q & -> & Hq). split; [|by apply IH]. eapply translates_wf; [done| |done].
      apply Hpl; [|done]. apply elem_of_filter_map. exists (Placeholder p). split; [by left|done].
    + destruct Hp as [-> _]. split; [done|by apply IH].
Qed.

Lemma parse_at_Ok path s t : parse_at path s = Ok t ↔ template_parse s = Ok t.
Proof. unfold parse_at. destruct (template_parse s); simpl; split; congruence. Qed.

Lemma literal_translated resources types t :
  template_is_literal t = true →
  Forall3 (part_translated resources types) t t ((λ _, false) <$> t).
Proof.
  unfold template_is_literal. induction t as [|[l|p] t IH]; csimpl; [constructor| |done].
  intros H. constructor; [done|by apply IH].
Qed.

Lemma existsb_const_false {A} (t : list A) : existsb id ((λ _, false) <$> t) = false.
Proof. by induction t. Qed.

(** A translated string means what the document's string meant, over the set's
    references: when a string is translated, it and its translation parse into parts that
    correspond one by one, literals and other placeholders unchanged, and each
    [${resources.<key>.<output>...}] replaced by [${externals.<key>.<output>...}], or by
    [${shared.<id>.<output>...}] when the resource has an ID; every such reference names a
    declared resource and an output of its type; and the pointer is recorded as secret
    exactly when a secret output is used, which only variables and file content may. For
    shared IDs that are object IDs (which validation checks) and names that single quotes
    can hold. *)
Theorem translate_string_spec (resources : list (string * ResourceRequest)) (types : list ResourceType)
    (s pointer s' : string) (paths paths' : list string) :
  (∀ key r w, im_get key resources = Some r → rr_id r = Some w → is_valid_object_id w = true) →
  (∀ t p, template_parse s = Ok t → p ∈ template_placeholders t → rp_root p = "resources" →
     plain_reference p) →
  translate_string resources types s pointer paths = Ok (s', paths') →
  ∃ t t' secrets,
    template_parse s = Ok t ∧ template_parse s' = Ok t'
    ∧ Forall3 (part_translated resources types) t t' secrets
    ∧ paths' = paths ++ (if existsb id secrets then [pointer] else [])
    ∧ (existsb id secrets = true → is_secret_sink pointer = true).
Proof.
  intros Hids Hpl H. unfold translate_string in H.
  destruct (parse_at _ s) as [t|] eqn:E; [|done]. apply parse_at_Ok in E.
  destruct (template_is_literal t) eqn:El.
  { injection H as <- <-. exists t, t, ((λ _, false) <$> t). rewrite existsb_const_false, app_nil_r.
    split_and!; try done. by apply literal_translated. }
  destruct (try_fold _ (ε, None) t) as [[out sec]|] eqn:Et; [|done].
  apply translate_parts_Ok in Et as (t' & secrets & HF & -> & Hs). cbn [String.append is_some is_none negb orb] in *.
  assert (template_parse (template_unparse t') = Ok t') as Hparse.
  { apply template_parse_unparse. split; [|done]. pose proof E as [Hwf _]%template_parse_unparse.
    eapply translated_template_wf; [done| |done|done]. intros p Hp. by apply (Hpl t). }
  exists t, t', secrets. destruct sec as [placeholder|]; simpl in Hs; rewrite <-Hs.
  - destruct (is_secret_sink pointer); [|done]. injection H as <- <-. by split_and!.
  - injection H as <- <-. rewrite app_nil_r. by split_and!.
Qed.

(** The unit test of the source: a connection string. *)
Definition test_resources : list (string * ResourceRequest) :=
  [("db", mk_ResourceRequest "postgres" None None None None);
   ("dns", mk_ResourceRequest "dns" None (Some "api-dns") None None)].

Definition test_text : string := "postgresql://${resources.db.password}@${resources.dns.host}/x".

Lemma translate_string_spec_witness :
  ∃ t', template_parse "postgresql://${externals.db.password}@${shared.api-dns.host}/x" = Ok t'
  ∧ length t' = 5.
Proof.
  destruct (translate_string_spec test_resources builtin_types test_text
    "/containers/web/variables/DB_URL" "postgresql://${externals.db.password}@${shared.api-dns.host}/x"
    [] ["/containers/web/variables/DB_URL"]) as (t & t' & secrets & Ht & Ht' & HF & _).
  - intros key r w Hr Hw. cbn [im_get test_resources] in Hr.
    destruct (String.eqb key "db"); [by injection Hr as <-|].
    destruct (String.eqb key "dns"); [|done]. injection Hr as <-. by injection Hw as <-.
  - intros t p Ht Hp _. vm_compute in Ht. injection Ht as <-.
    unfold template_placeholders in Hp. cbn [filter_map part_placeholder] in Hp.
    rewrite !elem_of_cons, elem_of_nil in Hp. destruct Hp as [->|[->|[]]];
      intros root kseg oseg rest [= <- <- <- <-]; (split; [repeat constructor; by vm_compute|by split]).
  - by vm_compute.
  - exists t'. split; [exact Ht'|]. vm_compute in Ht'. by injection Ht' as <-.
Defined.
