(* ===== verification/WorkloadProofs.v ===== *)
(** * Validation and conversion of workloads ([crates/core/src/workload.rs])

    What a validated workload satisfies, and what conversion into a module does to every
    string of the document. *)

From Stdlib Require Import Ascii.
From stdpp Require Import base sets strings list.
From S2P Require Import Prelude Strings Utf8 OrdMap Regex Ids Float64 Json Template PathText Placeholder Catalog Sets Pointer JsonPath Workload WorkloadText.

Local Open Scope string_scope.
Local Open Scope nat_scope.
Local Open Scope list_scope.

(** ** Objects built from fields *)

Lemma im_get_app {V} k (a b : list (string * V)) :
  im_get k (a ++ b) = match im_get k a with Some v => Some v | None => im_get k b end.
Proof. induction a as [|[j v] a IH]; simpl; [done|]. by destruct (String.eqb k j). Qed.

Lemma im_get_opt_field k j o : im_get k (opt_field j o) = if String.eqb k j then o else None.
Proof. destruct o; simpl; by destruct (String.eqb k j). Qed.

Lemma im_get_field k j v : im_get k (field j v) = if String.eqb k j then Some v else None.
Proof. done. Qed.

Lemma im_get_seq_field {A} k j (f : list A → Value) l :
  im_get k (seq_field j f l)
  = if String.eqb k j then match l with [] => None | _ => Some (f l) end else None.
Proof. destruct l; simpl; by destruct (String.eqb k j). Qed.

Hint Rewrite @im_get_app im_get_opt_field im_get_field @im_get_seq_field : fields.

(** The keys of fields, in the order they are written. *)
Lemma keys_opt_field k o : (opt_field k o).*1 `sublist_of` [k].
Proof. destruct o; simpl; [done|]. by apply sublist_cons, sublist_nil_l. Qed.

Lemma keys_seq_field {A} k (f : list A → Value) l : (seq_field k f l).*1 `sublist_of` [k].
Proof. destruct l; simpl; [by apply sublist_cons, sublist_nil_l|done]. Qed.

Lemma keys_field k v : (field k v).*1 `sublist_of` [k].
Proof. done. Qed.

Lemma keys_cons (k : string) (ks : list string) (a b : jmap) :
  a.*1 `sublist_of` [k] → b.*1 `sublist_of` ks → (a ++ b).*1 `sublist_of` k :: ks.
Proof. intros Ha Hb. rewrite fmap_app. change (k :: ks) with ([k] ++ ks). by apply sublist_app. Qed.

Lemma im_wf_keys (ks : list string) (m : jmap) : NoDup ks → m.*1 `sublist_of` ks → im_wf m.
Proof. intros Hks Hm. unfold im_wf. by eapply sublist_NoDup. Qed.

Ltac fields_wf :=
  eapply im_wf_keys; [|repeat (eapply keys_cons;
    [first [apply keys_opt_field | apply keys_seq_field | apply keys_field]|]);
    first [apply keys_opt_field | apply keys_seq_field | apply keys_field]];
  apply (bool_decide_unpack _); by vm_compute.

(** ** Files that are not expanded *)

(** What a workload document holds: maps with distinct keys. *)
Record workload_wf (w : Workload) : Prop := mk_workload_wf {
  ww_containers : im_wf (entries (w_containers w));
  ww_files : ∀ id c, (id, c) ∈ entries (w_containers w) → im_wf (c_files c);
  ww_resources : im_wf (w_resources w) }.

(** The path and content of a file that is not expanded. *)
Definition no_expand_file (id : string) (kv : string * File) : option (list string * string) :=
  match f_no_expand kv.2, f_content kv.2 with
  | Some true, Some content => Some (["containers"; id; "files"; kv.1; "content"], content)
  | _, _ => None
  end.

Definition no_expand_files (w : Workload) : list (list string * string) :=
  mjoin ((λ kv : string * Container, filter_map (no_expand_file kv.1) (c_files kv.2))
    <$> entries (w_containers w)).

Definition no_expand_paths (w : Workload) : list path := keys_path <$> (no_expand_files w).*1.

Lemma elem_of_no_expand_files w ts s :
  (ts, s) ∈ no_expand_files w ↔
  ∃ id c target f, (id, c) ∈ entries (w_containers w) ∧ (target, f) ∈ c_files c
    ∧ f_no_expand f = Some true ∧ f_content f = Some s
    ∧ ts = ["containers"; id; "files"; target; "content"].
Proof.
  unfold no_expand_files. rewrite list_elem_of_join. setoid_rewrite list_elem_of_fmap. split.
  - intros (l & Hl & [id c] & -> & Hc). apply elem_of_filter_map in Hl as ([target f] & Hf & Hn).
    unfold no_expand_file in Hn. simpl in Hn.
    destruct (f_no_expand f) as [[]|] eqn:E1; try done. destruct (f_content f) eqn:E2; [|done].
    injection Hn as <- <-. by exists id, c, target, f.
  - intros (id & c & target & f & Hc & Hf & E1 & E2 & ->). eexists. split; [|by exists (id, c)].
    apply elem_of_filter_map. exists (target, f). split; [done|]. unfold no_expand_file. simpl.
    by rewrite E1, E2.
Qed.

Lemma filter_map_fmap {A B C} (f : A → option B) (h : B → C) l :
  filter_map (λ x, h <$> f x) l = h <$> filter_map f l.
Proof. induction l as [|x l IH]; simpl; [done|]. destruct (f x); csimpl; by rewrite IH. Qed.

Lemma keys_pointer_file id target :
  keys_pointer ["containers"; id; "files"; target; "content"]
  = "/containers/" +:+ escape_pointer id +:+ "/files/" +:+ escape_pointer target +:+ "/content".
Proof.
  unfold keys_pointer. csimpl. change (escape_pointer "containers") with "containers".
  change (escape_pointer "files") with "files". change (escape_pointer "content") with "content".
  simpl. by rewrite ?app_assoc_str.
Qed.

Lemma no_expand_pointers_keys w :
  no_expand_pointers w ε = keys_pointer <$> (no_expand_files w).*1.
Proof.
  unfold no_expand_pointers, no_expand_files. generalize (entries (w_containers w)) as cs.
  induction cs as [|[id c] cs IH]; [done|]. csimpl. rewrite !fmap_app, IH. f_equal.
  rewrite <-list_fmap_compose, <-filter_map_fmap. clear. induction (c_files c) as [|[target f] l IH]; [done|].
  cbn [filter_map]. unfold no_expand_file at 1, no_expand_pointer at 1. cbn [fst snd].
  destruct (f_no_expand f) as [[]|]; try done. destruct (f_content f); [|done].
  cbn [fmap option_fmap option_map compose fst]. by rewrite keys_pointer_file, IH.
Qed.

Lemma no_expand_files_NoDup w : workload_wf w → NoDup (no_expand_files w).*1.
Proof.
  intros [Hcs Hf _]. revert Hcs Hf. unfold no_expand_files. generalize (entries (w_containers w)) as cs.
  induction cs as [|[id c] cs IH]; intros Hcs Hf; [constructor|].
  apply im_wf_cons in Hcs as [Hid Hcs]. csimpl. rewrite fmap_app. apply NoDup_app. split_and!.
  - assert (im_wf (c_files c)) as Hf' by (eapply Hf; by left). clear -Hf'. rename Hf' into Hf. induction (c_files c) as [|[t f] l IH]; [constructor|].
    apply im_wf_cons in Hf as [Ht Hl]. cbn [filter_map]. unfold no_expand_file at 1. simpl.
    destruct (f_no_expand f) as [[]|]; try by apply IH. destruct (f_content f); [|by apply IH].
    csimpl. constructor; [|by apply IH]. intros ([ts u] & Heq & Hin)%list_elem_of_fmap. simpl in Heq.
    apply elem_of_filter_map in Hin as ([t' f'] & Hin & Hn). unfold no_expand_file in Hn. simpl in Hn.
    destruct (f_no_expand f') as [[]|]; try done. destruct (f_content f'); [|done].
    injection Hn as <- _. injection Heq as <-. apply Ht, list_elem_of_fmap. by exists (t, f').
  - intros ts ([ts' s] & -> & Hin)%list_elem_of_fmap ([us u] & Heq & Hin')%list_elem_of_fmap. simpl in Heq.
    apply elem_of_filter_map in Hin as ([t f] & _ & Hn). unfold no_expand_file in Hn. simpl in Hn.
    apply list_elem_of_join in Hin' as (l & Hl & ([id' c'] & -> & Hc')%list_elem_of_fmap).
    apply elem_of_filter_map in Hl as ([t' f'] & _ & Hn'). unfold no_expand_file in Hn'. simpl in Hn'.
    destruct (f_no_expand f) as [[]|], (f_no_expand f') as [[]|]; try done.
    destruct (f_content f), (f_content f'); try done. subst us.
    injection Hn as <- _. injection Hn' as <- _ _. apply Hid, list_elem_of_fmap. by exists (id', c').
  - apply IH; [done|]. intros id' c' Hc'. eapply Hf. by right.
Qed.

Lemma file_object_path f s :
  f_content f = Some s → object_path (file_to_value f) ["content"] (Str s).
Proof.
  intros Hs. do 2 eexists. split_and!; [done|fields_wf| |done].
  autorewrite with fields. simpl. by rewrite Hs.
Qed.

Lemma map_object_path {A} (f : A → Value) m k x ts y :
  im_wf m → (k, x) ∈ m → object_path (f x) ts y → object_path (map_to_value f m) (k :: ts) y.
Proof.
  intros Hm Hk Hp. eexists _, (f x). split_and!; [done|by apply im_wf_fmap| |done].
  rewrite im_get_fmap. by rewrite (im_elem_get k x m).
Qed.

(** A field of an object whose fields have distinct keys. *)
Lemma field_object_path m k v ts y :
  im_wf m → im_get k m = Some v → object_path v ts y → object_path (Obj m) (k :: ts) y.
Proof. intros Hm Hk Hp. by exists m, v. Qed.

Lemma container_object_path c target f s :
  im_wf (c_files c) → (target, f) ∈ c_files c → f_content f = Some s →
  object_path (container_to_value c) ["files"; target; "content"] (Str s).
Proof.
  intros Hw Hf Hs.
  apply (field_object_path _ _ (map_to_value file_to_value (c_files c))); [fields_wf| |].
  - autorewrite with fields. simpl. destruct (c_files c); [by apply not_elem_of_nil in Hf|done].
  - by eapply map_object_path; [| |apply file_object_path].
Qed.

Lemma no_expand_object_path w m :
  workload_wf w → im_wf m → im_get "containers" m = containers_to_value <$> w_containers w →
  ∀ ts s, (ts, s) ∈ no_expand_files w → object_path (Obj m) ts (Str s).
Proof.
  intros [Hw Hfw _] Hm Hc ts s Hin. apply elem_of_no_expand_files in Hin
    as (id & c & target & f & Hid & Hf & _ & Hs & ->).
  destruct (w_containers w) as [cs|]; [|by apply not_elem_of_nil in Hid].
  eapply field_object_path; [done..|]. eapply map_object_path; [done..|].
  eapply container_object_path; eauto.
Qed.

Lemma workload_fields_wf w : ∃ m, workload_to_value w = Obj m ∧ im_wf m
  ∧ im_get "containers" m = containers_to_value <$> w_containers w.
Proof.
  eexists. split; [done|]. split; [fields_wf|]. autorewrite with fields. simpl.
  by destruct (w_containers w).
Qed.

Lemma to_spec_fields_wf w :
  im_wf (to_spec w) ∧ im_get "containers" (to_spec w) = containers_to_value <$> w_containers w.
Proof.
  split; [fields_wf|]. unfold to_spec. autorewrite with fields. simpl. by destruct (w_containers w).
Qed.

(** The document and the spec with the files set aside. *)
Lemma set_aside_document w :
  workload_wf w →
  set_aside (workload_to_value w) (no_expand_pointers w ε)
  = (edit (hide (no_expand_files w).*1) (workload_to_value w),
     (λ e, (keys_pointer e.1, Str e.2)) <$> no_expand_files w).
Proof.
  intros Hw. rewrite no_expand_pointers_keys. apply set_aside_hide; [by apply no_expand_files_NoDup|].
  destruct (workload_fields_wf w) as (m & -> & Hm & Hc). by apply no_expand_object_path.
Qed.

Lemma set_aside_spec w :
  workload_wf w →
  set_aside (Obj (to_spec w)) (no_expand_pointers w ε)
  = (edit (hide (no_expand_files w).*1) (Obj (to_spec w)),
     (λ e, (keys_pointer e.1, Str e.2)) <$> no_expand_files w).
Proof.
  intros Hw. rewrite no_expand_pointers_keys. apply set_aside_hide; [by apply no_expand_files_NoDup|].
  destruct (to_spec_fields_wf w) as [Hm Hc]. by apply no_expand_object_path.
Qed.

(** ** What validation checks *)

(** Text with well-formed placeholders, all with a root of the list. *)
Definition text_ok (roots : list string) (s : string) : Prop :=
  ∃ t, template_parse s = Ok t ∧ ∀ p, p ∈ template_placeholders t → rp_root p ∈ roots.

Definition workload_roots : list string := ["resources"; "values"; "pod"].

Definition file_ok (f : File) : Prop :=
  (is_Some (f_source f) ∧ f_content f = None) ∨ (f_source f = None ∧ is_Some (f_content f)).

Definition quantities_ok (q : Quantities) : Prop :=
  (∀ v, q_memory q = Some v → is_quantity v = true) ∧ (∀ v, q_cpu q = Some v → is_quantity v = true).

Definition container_ok (c : Container) : Prop :=
  c_image c ≠ ε ∧ (∀ target f, (target, f) ∈ c_files c → file_ok f)
  ∧ (∀ r q, c_resources c = Some r → cr_limits r = Some q ∨ cr_requests r = Some q → quantities_ok q).

Definition function_ok (f : Function_) : Prop :=
  match fn_package f with
  | Zip artifact runtime handler => artifact ≠ ε ∧ runtime ≠ ε ∧ handler ≠ ε
  | Image image => image ≠ ε
  end
  ∧ is_quantity (fn_memory f) = true ∧ is_duration (fn_timeout f) = true.

Definition resource_ok (r : ResourceRequest) : Prop :=
  (∀ id, rr_id r = Some id → is_valid_object_id id = true)
  ∧ (∀ params p s, rr_params r = Some params → (p, s) ∈ strings params → text_ok [] s).

(** A trigger reads a declared resource, a schedule is a cron expression, and an HTTP port
    is a service port. *)
Definition trigger_ok (w : Workload) (t : Trigger) : Prop :=
  (∀ res, trigger_resource t = Some res → is_Some (im_get res (w_resources w)))
  ∧ match t with
    | Schedule s => is_cron (st_cron s) = true
    | Http h => ∀ port, ht_port h = Some port →
        w_function w = None ∧ ∃ s, w_service w = Some s ∧ is_Some (im_get port (sv_ports s))
    | _ => True
    end.

(** Either containers, at least one, or a function and no service. *)
Definition shape_ok (w : Workload) : Prop :=
  (w_function w = None ∧ ∃ c cs, w_containers w = Some (c :: cs))
  ∨ (w_containers w = None ∧ is_Some (w_function w) ∧ w_service w = None).

Record workload_ok (w : Workload) : Prop := mk_workload_ok {
  ok_shape : shape_ok w;
  ok_containers : ∀ id c, (id, c) ∈ entries (w_containers w) → container_ok c;
  ok_function : ∀ f, w_function w = Some f → function_ok f;
  ok_resources : ∀ key r, (key, r) ∈ w_resources w → resource_ok r;
  ok_triggers : ∀ name t, (name, t) ∈ w_triggers w → trigger_ok w t;
  ok_deploy : ∀ t, w_deploy w ≫= dp_timeout = Some t → is_duration t = true;
  ok_text : ∀ p s, (p, s) ∈ strings (workload_to_value w) → p ∉ no_expand_paths w →
    text_ok workload_roots s }.

Lemma str_is_empty_spec s : str_is_empty s = true ↔ s = ε.
Proof. by destruct s. Qed.

Lemma check_root_Ok path p : check_root path p = Ok tt ↔ rp_root p ∈ workload_roots.
Proof.
  unfold check_root, workload_roots. rewrite !elem_of_cons, elem_of_nil.
  destruct (String.eqb_spec (rp_root p) "resources"); [tauto|].
  destruct (String.eqb_spec (rp_root p) "values"); [tauto|].
  destruct (String.eqb_spec (rp_root p) "pod"); [tauto|]. simpl.
  destruct (String.eqb (rp_root p) "context"); intuition done.
Qed.

Lemma check_placeholders_Ok v path :
  check_placeholders v path = Ok tt ↔ ∀ p s, (p, s) ∈ strings v → text_ok workload_roots s.
Proof.
  eapply (check_strings _ check_placeholders); [|done|done|by intros [] ?]. clear. intros s path.
  simpl. unfold text_ok. destruct (parse_at path s) as [t|] eqn:E.
  - apply parse_at_Ok in E. rewrite E, (try_fold_checks (check_root path)).
    setoid_rewrite check_root_Ok. split; [by exists t|]. by intros (t' & [= <-] & H).
  - split; [done|]. intros (t & Ht & _). apply (parse_at_Ok path) in Ht. congruence.
Qed.

Lemma reject_placeholders_Ok v path :
  reject_placeholders v path = Ok tt ↔ ∀ p s, (p, s) ∈ strings v → text_ok [] s.
Proof.
  eapply (check_strings _ reject_placeholders); [|done|done|by intros [] ?]. clear. intros s path.
  simpl. unfold text_ok. destruct (parse_at path s) as [t|] eqn:E.
  - apply parse_at_Ok in E. rewrite E. destruct (template_placeholders t) as [|p l] eqn:El; simpl.
    + split; [|done]. exists t. split; [done|]. rewrite El. by intros p ?%not_elem_of_nil.
    + split; [done|]. intros (t' & [= <-] & H). specialize (H p). rewrite El in H.
      destruct (not_elem_of_nil (rp_root p)). apply H. by left.
  - split; [done|]. intros (t & Ht & _). apply (parse_at_Ok path) in Ht. congruence.
Qed.

Lemma validate_file_Ok id target f : validate_file id (target, f) = Ok tt ↔ file_ok f.
Proof.
  unfold validate_file, file_ok, is_Some.
  destruct (f_source f), (f_content f); simpl; naive_solver.
Qed.

Lemma validate_quantity_Ok id field name v :
  validate_quantity id field (name, v) = Ok tt ↔ ∀ q, v = Some q → is_quantity q = true.
Proof.
  unfold validate_quantity. simpl. destruct v as [v|]; [|by split].
  destruct (is_quantity v) eqn:E; simpl; split; try done; [by intros _ q [= <-]|].
  intros H. specialize (H v eq_refl). congruence.
Qed.

Lemma two_elem {A} (P : A → Prop) (a b : A) : (∀ x, x ∈ [a; b] → P x) ↔ P a ∧ P b.
Proof.
  split; [intros H; split; apply H; [by left|by right; left]|].
  intros [Ha Hb] x Hx. rewrite !elem_of_cons, elem_of_nil in Hx. by destruct Hx as [->|[->|[]]].
Qed.

Lemma quantities_opt (o : option Quantities) :
  (∀ v, o ≫= q_memory = Some v → is_quantity v = true)
  ∧ (∀ v, o ≫= q_cpu = Some v → is_quantity v = true) ↔ ∀ q, o = Some q → quantities_ok q.
Proof.
  unfold quantities_ok. destruct o as [q|]; simpl; [|by split].
  split; [by intros H q' [= <-]|intros H; by apply H].
Qed.

Lemma validate_container_Ok id c : validate_container (id, c) = Ok tt ↔ container_ok c.
Proof.
  unfold validate_container, container_ok. destruct (str_is_empty (c_image c)) eqn:Ei.
  { apply str_is_empty_spec in Ei. split; [done|]. by intros [? _]. }
  assert (c_image c ≠ ε) as Hi by (intros H; by rewrite H in Ei).
  pose proof (try_fold_checks (validate_file id) (c_files c)) as Hf.
  destruct (try_fold (λ _, validate_file id) tt (c_files c)) as [[]|e].
  - rewrite (try_fold_checks (λ fq : string * option Quantities, let '(field, q) := fq in
      try_fold (λ _, validate_quantity id field) tt [("memory", q ≫= q_memory); ("cpu", q ≫= q_cpu)])).
    rewrite two_elem. rewrite !(try_fold_checks (validate_quantity id _)), !two_elem.
    rewrite !validate_quantity_Ok.
    assert (∀ target f, (target, f) ∈ c_files c → file_ok f) as Hf'.
    { intros target f Hin. apply (validate_file_Ok id target). by apply Hf. }
    rewrite !quantities_opt. destruct (c_resources c) as [r|]; simpl; [|by split_and!].
    split; [|by intros (_ & _ & H); split; intros q Hq; apply (H r q eq_refl); auto].
    intros [H1 H2]. split_and!; [done..|]. intros r' q [= <-] [Hq|Hq]; auto.
  - split; [done|]. intros (_ & H & _). apply Hf. intros [target f] Hin. apply validate_file_Ok. by eapply H.
Qed.

Lemma not_empty_check {X} (s : string) (e : X) :
  (if str_is_empty s then Err e else Ok tt) = Ok tt ↔ s ≠ ε.
Proof. by destruct s. Qed.

Lemma flag_check {X} (b : bool) (e : X) : (if negb b then Err e else Ok tt) = Ok tt ↔ b = true.
Proof. by destruct b. Qed.

Lemma and_then_Ok {X} (a b : result unit X) :
  (let? _ := a in b) = Ok tt ↔ a = Ok tt ∧ b = Ok tt.
Proof. destruct a as [[]|]; naive_solver. Qed.

Lemma validate_function_Ok f : validate_function f = Ok tt ↔ function_ok f.
Proof.
  unfold validate_function, function_ok, validate_package. rewrite and_then_Ok.
  assert ((if negb (is_quantity (fn_memory f)) then
      Err (mk_WorkloadError "function.memory" ("`" +:+ fn_memory f +:+ "` is not a quantity such as `256Mi`"))
    else if negb (is_duration (fn_timeout f)) then
      Err (mk_WorkloadError "function.timeout" ("`" +:+ fn_timeout f +:+ "` is not a duration such as `30s`"))
    else Ok tt) = Ok tt ↔ is_quantity (fn_memory f) = true ∧ is_duration (fn_timeout f) = true) as ->.
  { destruct (is_quantity _), (is_duration _); simpl; naive_solver. }
  destruct (fn_package f) as [a r h|i].
  - simpl. destruct a, r, h; simpl; naive_solver.
  - by rewrite not_empty_check.
Qed.

Lemma validate_resource_Ok key r : validate_resource (key, r) = Ok tt ↔ resource_ok r.
Proof.
  unfold validate_resource, resource_ok.
  destruct (match rr_id r with Some id => negb (is_valid_object_id id) | None => false end) eqn:Ei.
  { split; [done|]. intros [H _]. destruct (rr_id r) as [w|]; [|done]. by rewrite H in Ei. }
  assert (∀ id, rr_id r = Some id → is_valid_object_id id = true) as Hid.
  { intros w Hw. rewrite Hw in Ei. by apply negb_false_iff. }
  destruct (rr_params r) as [params|]; [rewrite reject_placeholders_Ok|by split].
  split; [intros H; split; [done|]; by intros ? p s [= <-]; apply H|].
  intros [_ H] p s. by apply H.
Qed.

Lemma validate_http_Ok w path h :
  validate_http w path h = Ok tt ↔
  ∀ port, ht_port h = Some port →
    w_function w = None ∧ ∃ s, w_service w = Some s ∧ is_Some (im_get port (sv_ports s)).
Proof.
  unfold validate_http. destruct (ht_port h) as [port|]; [|by split].
  destruct (w_function w); simpl.
  { split; [done|]. intros H. by destruct (H port eq_refl). }
  destruct (w_service w) as [s|]; simpl.
  2: { split; [done|]. intros H. by destruct (H port eq_refl) as (_ & s & ? & _). }
  unfold im_contains, is_some, is_Some. destruct (im_get port (sv_ports s)) eqn:E; simpl.
  - split; [|done]. intros _ p [= <-]. split; [done|]. exists s. eauto.
  - split; [done|]. intros H. destruct (H port eq_refl) as (_ & s' & [= <-] & x & Hx). congruence.
Qed.

Lemma validate_trigger_Ok w name t : validate_trigger w (name, t) = Ok tt ↔ trigger_ok w t.
Proof.
  unfold validate_trigger, trigger_ok.
  assert (match trigger_resource t with
          | Some res => negb (im_contains res (w_resources w)) | None => false end = false
    ↔ ∀ res, trigger_resource t = Some res → is_Some (im_get res (w_resources w))) as Hres.
  { destruct (trigger_resource t) as [res|]; [|by split].
    unfold im_contains, is_some, is_Some. destruct (im_get res (w_resources w)) eqn:E; simpl.
    - split; [|done]. intros _ ? [= <-]. eauto.
    - split; [done|]. intros H. destruct (H res eq_refl). congruence. }
  destruct (match trigger_resource t with Some _ => _ | None => _ end).
  - split; [done|]. intros [H _]. by apply Hres in H.
  - assert (∀ A B : Prop, (A ↔ B) → (A ↔ (∀ res, trigger_resource t = Some res →
      is_Some (im_get res (w_resources w))) ∧ B)) as Hsplit by tauto.
    apply Hsplit. destruct t as [h|s|q|tp|st]; try by split.
    + apply validate_http_Ok.
    + apply flag_check.
Qed.

Lemma validate_deploy_Ok w :
  validate_deploy w = Ok tt ↔ ∀ t, w_deploy w ≫= dp_timeout = Some t → is_duration t = true.
Proof.
  unfold validate_deploy. destruct (w_deploy w ≫= dp_timeout) as [t|]; [|by split].
  rewrite flag_check. split; [by intros H ? [= <-]|auto].
Qed.

Lemma validate_shape_Ok w :
  validate_shape w = Ok tt ∧ is_some (w_service w) && is_some (w_function w) = false ↔ shape_ok w.
Proof.
  unfold validate_shape, shape_ok, is_Some.
  destruct (w_containers w) as [[|c cs]|], (w_function w), (w_service w); simpl; naive_solver.
Qed.

Lemma validate_loop {A} (check : A → result unit WorkloadError) (P : A → Prop) l :
  (∀ x, check x = Ok tt ↔ P x) →
  try_fold (λ _, check) tt l = Ok tt ↔ ∀ x, x ∈ l → P x.
Proof. intros H. rewrite try_fold_checks. by setoid_rewrite H. Qed.

Lemma pairs_elem {A B} (l : list (A * B)) (P : B → Prop) :
  (∀ x, x ∈ l → P x.2) ↔ ∀ a b, (a, b) ∈ l → P b.
Proof. split; [intros H a b; apply (H (a, b))|intros H [a b]; apply H]. Qed.

(** Validation accepts exactly the workloads that are well formed: containers or a
    function (never both, never neither), images and packages that are not empty, files
    with one source of content, quantities, durations and cron expressions that read as
    such, shared IDs that are object IDs, triggers that name declared resources and
    service ports, no placeholders in resource params, and, everywhere else except in the
    content of files that are not expanded, only placeholders rooted at [resources],
    [values] or [pod]. *)
Theorem validate_iff (w : Workload) :
  workload_wf w → validate w = Ok tt ↔ workload_ok w.
Proof.
  intros Hw. unfold validate. rewrite set_aside_document by done. cbn [fst].
  transitivity (shape_ok w ∧ (∀ id c, (id, c) ∈ entries (w_containers w) → container_ok c)
    ∧ (∀ f, w_function w = Some f → function_ok f)
    ∧ (∀ key r, (key, r) ∈ w_resources w → resource_ok r)
    ∧ (∀ name t, (name, t) ∈ w_triggers w → trigger_ok w t)
    ∧ (∀ t, w_deploy w ≫= dp_timeout = Some t → is_duration t = true)
    ∧ (∀ p s, (p, s) ∈ strings (workload_to_value w) → p ∉ no_expand_paths w →
         text_ok workload_roots s)); [|split; [by intros (?&?&?&?&?&?&?)|by intros []; split_and!]].
  rewrite !and_then_Ok, <-validate_shape_Ok.
  rewrite (validate_loop validate_container (λ x, container_ok x.2)), pairs_elem
    by (intros [id c]; apply validate_container_Ok).
  assert ((if is_some (w_service w) && is_some (w_function w) then
      Err (mk_WorkloadError "service" "`service` applies to container workloads only")
    else let? _ := match w_function w with Some f => validate_function f | None => Ok tt end in
      let? _ := try_fold (λ _, validate_resource) tt (w_resources w) in
      let? _ := try_fold (λ _, validate_trigger w) tt (w_triggers w) in
      let? _ := validate_deploy w in
      check_placeholders (edit (hide (no_expand_files w).*1) (workload_to_value w)) ε) = Ok tt
    ↔ is_some (w_service w) && is_some (w_function w) = false
      ∧ (∀ f, w_function w = Some f → function_ok f)
      ∧ (∀ key r, (key, r) ∈ w_resources w → resource_ok r)
      ∧ (∀ name t, (name, t) ∈ w_triggers w → trigger_ok w t)
      ∧ (∀ t, w_deploy w ≫= dp_timeout = Some t → is_duration t = true)
      ∧ (∀ p s, (p, s) ∈ strings (workload_to_value w) → p ∉ no_expand_paths w →
           text_ok workload_roots s)) as ->; [|tauto].
  destruct (_ && _); [by split; [|intros [? _]]|].
  rewrite !and_then_Ok, validate_deploy_Ok, check_placeholders_Ok.
  rewrite (validate_loop validate_resource (λ x, resource_ok x.2)), pairs_elem
    by (intros [id r]; apply validate_resource_Ok).
  rewrite (validate_loop (validate_trigger w) (λ x, trigger_ok w x.2)), pairs_elem
    by (intros [id r]; apply validate_trigger_Ok).
  rewrite strings_hide. setoid_rewrite list_elem_of_filter. unfold no_expand_paths. cbn [fst].
  assert (match w_function w with Some f => validate_function f | None => Ok tt end = Ok tt
    ↔ ∀ f, w_function w = Some f → function_ok f) as ->; [|naive_solver].
  destruct (w_function w) as [f|]; [|by split]. rewrite validate_function_Ok.
  split; [by intros H ? [= <-]|auto].
Qed.

(** ** Translation of a document *)

Definition step_pointer (st : step) : string :=
  match st with Field k => "/" +:+ escape_pointer k | Item i => "/" +:+ show_nat i end.

(** The JSON pointer of a path. *)
Definition pointer_of (p : path) : string := concat_str (step_pointer <$> p).

Section translate_values.
Context (resources : list (string * ResourceRequest)) (types : list ResourceType).

Abbreviation translated s pointer := (translate_string resources types s pointer []).

Definition text_at (pointer s : string) : string :=
  match translated s pointer with Ok (s', _) => s' | Err _ => s end.
Definition secrets_at (pointer s : string) : list string :=
  match translated s pointer with Ok (_, paths) => paths | Err _ => [] end.

Lemma translate_string_paths s pointer paths :
  translate_string resources types s pointer paths
  = match translated s pointer with Ok (s', more) => Ok (s', paths ++ more) | Err e => Err e end.
Proof.
  unfold translate_string. destruct (parse_at _ s); [|done].
  destruct (template_is_literal _); [by rewrite app_nil_r|].
  destruct (try_fold _ _ _) as [[out [pl|]]|]; [|by rewrite app_nil_r|done].
  by destruct (is_secret_sink pointer).
Qed.

(** What translating a value at a pointer gives. *)
Definition translation_of (v : Value) (pointer : string) (paths : list string)
    (r : result (Value * list string) WorkloadError) : Prop :=
  match r with
  | Ok (v', paths') =>
      v' = edit (λ p s, Str (text_at (pointer +:+ pointer_of p) s)) v
      ∧ paths' = paths ++ mjoin ((λ e : path * string, secrets_at (pointer +:+ pointer_of e.1) e.2) <$> strings v)
      ∧ (∀ p s, (p, s) ∈ strings v → is_ok (translated s (pointer +:+ pointer_of p)) = true)
  | Err _ => ∃ p s, (p, s) ∈ strings v ∧ is_ok (translated s (pointer +:+ pointer_of p)) = false
  end.

Lemma pointer_of_cons pointer st p :
  pointer +:+ pointer_of (st :: p) = (pointer +:+ step_pointer st) +:+ pointer_of p.
Proof. unfold pointer_of. csimpl. by rewrite app_assoc_str. Qed.

Lemma secrets_under pointer st (l : list (path * string)) :
  (λ e : path * string, secrets_at (pointer +:+ pointer_of e.1) e.2) <$> under st l
  = (λ e : path * string, secrets_at ((pointer +:+ step_pointer st) +:+ pointer_of e.1) e.2) <$> l.
Proof.
  unfold under. rewrite <-list_fmap_compose. apply list_fmap_ext. intros i [p s] _. simpl.
  by rewrite pointer_of_cons.
Qed.

(** The children of an array or an object, each with its step. *)
Lemma translate_children {B} (mk : step → Value → B) (l : list (step * Value)) pointer : ∀ dn paths,
  Forall (λ e, ∀ pointer paths,
    translation_of e.2 pointer paths (translate resources types e.2 pointer paths)) l →
  let found := mjoin ((λ e : step * Value, under e.1 (strings e.2)) <$> l) in
  match try_fold (λ (acc : list B * list string) (e : step * Value),
      let? (x, sp) := translate resources types e.2 (pointer +:+ step_pointer e.1) acc.2 in
      Ok (acc.1 ++ [mk e.1 x], sp)) (dn, paths) l with
  | Ok (l', paths') =>
      l' = dn ++ ((λ e : step * Value, mk e.1 (edit (λ p s,
        Str (text_at (pointer +:+ pointer_of (e.1 :: p)) s)) e.2)) <$> l)
      ∧ paths' = paths ++ mjoin ((λ e : path * string, secrets_at (pointer +:+ pointer_of e.1) e.2) <$> found)
      ∧ (∀ p s, (p, s) ∈ found → is_ok (translated s (pointer +:+ pointer_of p)) = true)
  | Err _ => ∃ p s, (p, s) ∈ found ∧ is_ok (translated s (pointer +:+ pointer_of p)) = false
  end.
Proof.
  intros dn paths HF. revert dn paths. cbv zeta.
  induction HF as [|[st x] l Hx _ IH]; intros dn paths; csimpl.
  { rewrite !app_nil_r. split_and!; [done..|]. by intros p s ?%not_elem_of_nil. }
  specialize (Hx (pointer +:+ step_pointer st) paths). cbn [snd] in Hx.
  destruct (translate resources types x _ paths) as [[x' paths']|e]; simpl in Hx.
  2: { destruct Hx as (p & s & Hp & Hbad). exists (st :: p), s.
       rewrite pointer_of_cons. split; [|done]. apply elem_of_app. left. apply elem_of_under. by exists p. }
  destruct Hx as (-> & -> & Hok). match goal with |- context [try_fold ?f ?acc l] =>
    specialize (IH acc.1 acc.2); cbn [fst snd] in IH; destruct (try_fold f acc l) as [[l' paths'']|e] end.
  - destruct IH as (-> & -> & Hok'). split_and!.
    + rewrite <-app_assoc. csimpl. do 3 f_equal. apply edit_ext. intros p s. by rewrite pointer_of_cons.
    + rewrite fmap_app, join_app, secrets_under, <-app_assoc. done.
    + intros p s [Hp|Hp]%elem_of_app; [|by apply Hok'].
      apply elem_of_under in Hp as (q & -> & Hq). rewrite pointer_of_cons. by apply Hok.
  - destruct IH as (p & s & Hp & Hbad). exists p, s. split; [|done]. apply elem_of_app. by right.
Qed.

Lemma translate_spec v : ∀ pointer paths,
  translation_of v pointer paths (translate resources types v pointer paths).
Proof.
  induction v as [| | |s|l IH|m IH] using Value_ind; intros pointer paths;
    try by (simpl; rewrite app_nil_r; split_and!; [done..|intros p s ?%not_elem_of_nil]).
  - cbn [translate strings]. rewrite translate_string_paths.
    assert (pointer +:+ pointer_of [] = pointer) as Hp by apply app_eps_r.
    destruct (translated s pointer) as [[s' more]|e] eqn:E; unfold translation_of; cbn [strings edit].
    + csimpl. unfold text_at, secrets_at. rewrite Hp, E, app_nil_r. split_and!; [done..|].
      intros p t [= -> ->]%list_elem_of_singleton. by rewrite Hp, E.
    + exists [], s. split; [by left|]. by rewrite Hp, E.
  - cbn [translate]. rewrite try_foldi_fold.
    pose proof (translate_children (λ _ x, x) ((λ e, (Item e.1, e.2)) <$> enumerate_from 0 l) pointer [] paths) as H.
    rewrite try_fold_fmap in H. rewrite <-!list_fmap_compose in H. cbn [fst snd] in H.
    assert (Forall (λ e : step * Value, ∀ pointer paths, translation_of e.2 pointer paths
      (translate resources types e.2 pointer paths)) ((λ e, (Item e.1, e.2)) <$> enumerate_from 0 l)) as HF.
    { apply Forall_fmap, Forall_forall. intros [i x] Hx. simpl. rewrite Forall_forall in IH. apply IH.
      by eapply enumerate_from_elem. }
    specialize (H HF). cbv zeta in H. cbn [step_pointer] in H.
    destruct (try_fold _ _ (enumerate_from 0 l)) as [[l' paths']|e]; simpl; rewrite !mapi_enumerate; exact H
      || (destruct H as (-> & H); split; [done|exact H]).
  - cbn [translate].
    pose proof (translate_children (λ st x, (match st with Field k => k | Item _ => ε end, x))
      ((λ e : string * Value, (Field e.1, e.2)) <$> m) pointer [] paths) as H.
    rewrite try_fold_fmap in H. rewrite <-!list_fmap_compose in H. cbn [fst snd] in H.
    assert (Forall (λ e : step * Value, ∀ pointer paths, translation_of e.2 pointer paths
      (translate resources types e.2 pointer paths)) ((λ e : string * Value, (Field e.1, e.2)) <$> m)) as HF.
    { apply Forall_fmap. eapply Forall_impl; [exact IH|]. by intros [k x]. }
    specialize (H HF). cbv zeta in H. cbn [step_pointer] in H.
    destruct (try_fold _ _ m) as [[l' paths']|e]; simpl; exact H
      || (destruct H as (-> & H); split; [done|exact H]).
Qed.
End translate_values.

(** *** What a translated string is *)

Section texts.
Context (resources : list (string * ResourceRequest)) (types : list ResourceType).

(** [s] becomes [s']: literals stay, each reference to a resource becomes the set's reference to
    it, and other placeholders stay; [secret] is whether a secret output is among them. *)
Definition string_translated (s s' : string) (secret : bool) : Prop :=
  ∃ t t' secrets, template_parse s = Ok t ∧ Forall3 (part_translated resources types) t t' secrets
    ∧ s' = (if template_is_literal t then s else template_unparse t') ∧ secret = existsb id secrets.

Lemma translates_complete p q secret :
  translates resources types p q secret → translate_resource_placeholder resources types p = Ok (rp_text q, secret).
Proof.
  intros (root & kseg & oseg & rest & key & output & r & ty & kind & Es & Ek & Eo & Er & Et & Ekd & Hsec & -> & ->).
  unfold translate_resource_placeholder. rewrite Es, Ek, Eo. cbn [ok_or]. rewrite Er. cbn [ok_or]. rewrite Et. cbn [ok_or].
  assert (kind_of p r ty output = Ok kind) as ->.
  { unfold kind_of. destruct Ekd as [-> |(-> & -> & ->)]; done. }
  assert (is_secret_kind kind && match rest with [] => false | _ :: _ => true end = false) as ->.
  { unfold is_secret_kind. case_bool_decide as E; [|done]. by rewrite (Hsec E). }
  f_equal. f_equal. rewrite !segment_text_show. unfold placeholder_of. destruct (rr_id r); cbn [rp_text];
    rewrite ?segment_text_show, !path_text_cons; unfold path_text; rewrite ?app_assoc_str; done.
Qed.

Lemma part_translated_complete path out sec part part' secret :
  part_translated resources types part part' secret →
  ∃ out' sec', translate_part resources types path (out, sec) part = Ok (out', sec') ∧ is_some sec' = is_some sec || secret.
Proof.
  unfold part_translated, translate_part. destruct part as [l|p].
  - intros [-> ->]. do 2 eexists. split; [done|]. by rewrite orb_false_r.
  - destruct (String.eqb (rp_root p) "resources").
    + intros (q & -> & Hq). rewrite (translates_complete p q secret Hq). cbn [map_err]. do 2 eexists. split; [done|].
      by destruct secret, sec.
    + intros [-> ->]. do 2 eexists. split; [done|]. by rewrite orb_false_r.
Qed.

Lemma parts_translated_complete path t t' secrets :
  Forall3 (part_translated resources types) t t' secrets → ∀ out sec,
  ∃ out' sec', try_fold (translate_part resources types path) (out, sec) t = Ok (out', sec')
    ∧ is_some sec' = is_some sec || existsb id secrets.
Proof.
  induction 1 as [|part part' secret t t' secrets Hp _ IH]; intros out sec; cbn [try_fold].
  - do 2 eexists. split; [done|]. by rewrite orb_false_r.
  - destruct (part_translated_complete path out sec _ _ _ Hp) as (o & sc & -> & Hs).
    destruct (IH o sc) as (out' & sec' & -> & Hs'). do 2 eexists. split; [done|]. simpl. by rewrite Hs', Hs, orb_assoc.
Qed.

(** Translating a string gives what it should, and fails only when there is no such thing, or when
    it uses a secret where none may be. *)
Lemma translate_string_exact s pointer :
  match translate_string resources types s pointer [] with
  | Ok (s', paths) => ∃ secret, string_translated s s' secret ∧ paths = (if secret then [pointer] else [])
      ∧ (secret = true → is_secret_sink pointer = true)
  | Err _ => ∀ s' secret, string_translated s s' secret → secret = true ∧ is_secret_sink pointer = false
  end.
Proof.
  unfold translate_string. destruct (parse_at _ s) as [t|e] eqn:E.
  2: { intros s' secret (t & _ & _ & Ht & _). by apply (parse_at_Ok (replace "/" "." (trim_start_matches "/" pointer))) in Ht; rewrite E in Ht. }
  apply parse_at_Ok in E. destruct (template_is_literal t) eqn:El.
  { exists false. split_and!; [|done..]. exists t, t, ((λ _, false) <$> t). rewrite El, existsb_const_false.
    split_and!; try done. by apply literal_translated. }
  destruct (try_fold _ (ε, None) t) as [[out sec]|e] eqn:Et.
  - pose proof Et as (t' & secrets & HF & -> & Hs)%translate_parts_Ok. cbn [String.append is_some is_none negb orb] in *.
    assert (string_translated s (template_unparse t') (existsb id secrets)) as Hst.
    { exists t, t', secrets. by rewrite El. }
    destruct sec as [placeholder|]; simpl in Hs; rewrite <- Hs in Hst.
    + destruct (is_secret_sink pointer); simpl; [by exists true|].
      intros s' secret (u & u' & secrets' & Hu & HF' & _ & ->). rewrite E in Hu. injection Hu as <-.
      destruct (parts_translated_complete (replace "/" "." (trim_start_matches "/" pointer)) t u' secrets' HF' ε None)
        as (o & sc & Ho & Hsc). rewrite Et in Ho. injection Ho as <- <-. by split.
    + by exists false.
  - intros s' secret (u & u' & secrets' & Hu & HF' & _ & ->). rewrite E in Hu. injection Hu as <-.
    destruct (parts_translated_complete (replace "/" "." (trim_start_matches "/" pointer)) t u' secrets' HF' ε None)
      as (o & sc & Ho & Hsc). by rewrite Et in Ho.
Qed.
End texts.

Lemma secrets_functional resources types t t1 t2 l1 l2 :
  Forall3 (part_translated resources types) t t1 l1 → Forall3 (part_translated resources types) t t2 l2 →
  existsb id l2 = existsb id l1.
Proof.
  intros H1 H2. destruct (parts_translated_complete _ _ ε _ _ _ H1 ε None) as (o & s & E & Hs).
  destruct (parts_translated_complete _ _ ε _ _ _ H2 ε None) as (o' & s' & E' & Hs'). rewrite E in E'. injection E' as -> ->.
  cbn in *. congruence.
Qed.

(** *** Where secrets may be *)

Definition step_text (st : step) : string := match st with Field k => k | Item i => show_nat i end.

(** A variable of a container, the content of one of its files, or a variable of a function. *)
Definition secret_place (p : path) : Prop :=
  (∃ id name, step_text <$> p = ["containers"; id; "variables"; name])
  ∨ (∃ id target, step_text <$> p = ["containers"; id; "files"; target; "content"])
  ∨ ∃ name, step_text <$> p = ["function"; "variables"; name].

Lemma escape_digits x : bytes_all is_ascii_digit x = true → escape_pointer x = x.
Proof.
  rewrite escape_pointer_bytes. induction x as [|c x IH]; [done|]. cbn [bytes_all map_bytes].
  intros [Hc Hx]%andb_true_iff. rewrite (IH Hx). unfold token_byte.
  destruct (Ascii.eqb_spec c "~") as [->|_]; [done|]. by destruct (Ascii.eqb_spec c "/") as [->|_].
Qed.

Lemma pointer_of_keys p : pointer_of p = keys_pointer (step_text <$> p).
Proof.
  unfold pointer_of, keys_pointer. rewrite <- list_fmap_compose. f_equal. apply list_fmap_ext. intros _ [k|i] _; [done|].
  unfold compose. cbn [step_pointer step_text]. rewrite escape_digits; [done|]. apply show_N_digits.
Qed.

Lemma sink_tokens t ts :
  t ≠ ε → split "/" (trim_start_matches "/" (keys_pointer (t :: ts))) = escape_pointer <$> t :: ts.
Proof.
  intros Hne. assert (∀ us u, split "/" (escape_pointer u +:+ keys_pointer us) = escape_pointer <$> u :: us) as Hsplit.
  { induction us as [|v us IH]; intros u; unfold keys_pointer; csimpl.
    - by rewrite app_eps_r, split_no_char by apply escape_pointer_no_slash.
    - change (("/" +:+ ?a) +:+ ?b) with (String "/" (a +:+ b)). rewrite split_app by apply escape_pointer_no_slash.
      f_equal. apply IH. }
  rewrite <- Hsplit. f_equal. unfold keys_pointer. csimpl. change (("/" +:+ ?a) +:+ ?b) with (String "/" (a +:+ b)).
  cbn [trim_start_matches Ascii.eqb Bool.eqb]. pose proof (escape_pointer_no_slash t) as Hs. rewrite escape_pointer_bytes in *.
  destruct t as [|c t]; [done|]. cbn [map_bytes] in *. unfold token_byte in *. destruct (Ascii.eqb_spec c "~"); [done|].
  destruct (Ascii.eqb_spec c "/"); [done|]. cbn in *. by destruct (Ascii.eqb_spec c "/").
Qed.

Lemma escape_is k x : escape_pointer x = x → String.eqb (escape_pointer k) x = true ↔ k = x.
Proof.
  intros Hx. rewrite String.eqb_eq. split; [|by intros ->]. intros E. rewrite <- Hx in E. apply (f_equal unescape_token) in E.
  by rewrite !unescape_pointer in E.
Qed.

(** The code finds these places by their pointers. *)
Lemma secret_sink_place k p : k ≠ ε → is_secret_sink (pointer_of (Field k :: p)) = true ↔ secret_place (Field k :: p).
Proof.
  intros Hk. unfold is_secret_sink, secret_place. rewrite pointer_of_keys, fmap_cons. cbn [step_text]. rewrite (sink_tokens k _ Hk).
  set (ts := k :: (step_text <$> p)). clearbody ts. clear.
  destruct ts as [|a [|b [|c [|d [|e [|? ?]]]]]]; cbn [fmap list_fmap]; rewrite ?andb_true_iff, ?escape_is by done; naive_solver.
Qed.

(** ** Conversion *)

Lemma to_externals_get w key :
  im_wf (w_resources w) →
  bt_get key (to_externals w) = to_external <$> im_get key (w_resources w).
Proof.
  unfold to_externals, im_wf. generalize (w_resources w) as l. intros l.
  induction l as [|[k r] l IH] using rev_ind; [done|]. rewrite fmap_app.
  intros (Hl & Hk & _)%NoDup_app. rewrite foldl_app. cbn [foldl fst snd].
  destruct (String.eqb_spec key k) as [->|Hne].
  - rewrite bt_get_insert_eq, im_get_app, (proj2 (im_get_None k l)).
    + simpl. by rewrite String.eqb_refl.
    + intros Hin. apply (Hk k Hin). by left.
  - rewrite bt_get_insert_ne by done. rewrite (IH Hl), im_get_app. cbn [im_get].
    rewrite (proj2 (String.eqb_neq key k)) by done. by destruct (im_get key l).
Qed.

(** What is put in place of each string of the spec. *)
Definition converted_text (w : Workload) (types : list ResourceType) (p : path) (s : string) : Value :=
  Str (if bool_decide (p ∈ no_expand_paths w) then s else text_at (w_resources w) types (pointer_of p) s).

(** The strings of the spec that are expanded, with their paths. *)
Definition expanded_strings (w : Workload) : list (path * string) :=
  filter (λ e, e.1 ∉ no_expand_paths w) (strings (Obj (to_spec w))).

Lemma translate_hidden w types :
  workload_wf w →
  translation_of (w_resources w) types (edit (hide (no_expand_files w).*1) (Obj (to_spec w))) ε []
    (translate (w_resources w) types (edit (hide (no_expand_files w).*1) (Obj (to_spec w))) ε [])
  ∧ ∀ v, v = edit (λ p s, Str (text_at (w_resources w) types (pointer_of p) s))
             (edit (hide (no_expand_files w).*1) (Obj (to_spec w))) →
    put_back v ((λ e, (keys_pointer e.1, Str e.2)) <$> no_expand_files w)
    = Some (edit (converted_text w types) (Obj (to_spec w))).
Proof.
  intros Hw. split; [apply translate_spec|]. intros v ->. rewrite edit_edit.
  destruct (to_spec_fields_wf w) as [Hm Hc].
  pose proof (no_expand_object_path w (to_spec w) Hw Hm Hc) as Hp.
  rewrite put_back_edit by done. f_equal. apply edit_ext_strings. intros p s Hs.
  rewrite restored_spec by (by apply no_expand_files_NoDup). unfold converted_text, no_expand_paths.
  destruct (find _ (no_expand_files w)) as [[ts c]|] eqn:E.
  - apply find_Some in E as [Hin ->%bool_decide_eq_true]. cbn [fst snd] in *.
    rewrite (object_path_string _ ts c s (Hp ts c Hin) Hs).
    rewrite bool_decide_eq_true_2; [done|]. apply list_elem_of_fmap. exists ts. split; [done|].
    apply list_elem_of_fmap. by exists (ts, c).
  - assert (p ∉ keys_path <$> (no_expand_files w).*1) as Hno.
    { intros (ts & -> & ([ts' c] & -> & Hin)%list_elem_of_fmap)%list_elem_of_fmap.
      pose proof (proj1 (find_None _ _) E _ Hin) as Hf%bool_decide_eq_false. done. }
    unfold hide. rewrite !bool_decide_eq_false_2 by done. cbn [edit]. by rewrite app_nil_r.
Qed.

(** Conversion never panics, and does to the document exactly what it should: it
    succeeds iff every string outside the files that are not expanded translates; the
    module then has the workload's class, an external for each declared resource, and the
    document's spec with those strings translated where they stand, the content of files
    that are not expanded kept verbatim, and everything else unchanged; the secret paths
    are the pointers of the strings that use secrets, in document order. *)
Lemma to_module_edits (w : Workload) (types : list ResourceType) :
  workload_wf w →
  let translated e := translate_string (w_resources w) types e.2 (pointer_of e.1) [] in
  match to_module w types with
  | Ok cw =>
      cw_id cw = md_name (w_metadata w)
      ∧ m_class (cw_module cw) = class_ w
      ∧ (∀ key, bt_get key (m_externals (cw_module cw)) = to_external <$> im_get key (w_resources w))
      ∧ Obj (m_spec (cw_module cw)) = edit (converted_text w types) (Obj (to_spec w))
      ∧ cw_secret_paths cw
        = mjoin ((λ e : path * string, secrets_at (w_resources w) types (pointer_of e.1) e.2)
            <$> expanded_strings w)
      ∧ ∀ e, e ∈ expanded_strings w → is_ok (translated e) = true
  | Err (Error _) => ∃ e, e ∈ expanded_strings w ∧ is_ok (translated e) = false
  | Err Panic => False
  end.
Proof.
  intros Hw translated. unfold to_module. rewrite set_aside_spec by done.
  destruct (translate_hidden w types Hw) as [Ht Hput]. unfold expanded_strings, no_expand_paths.
  rewrite <-strings_hide.
  destruct (translate _ _ (edit (hide _) _) ε []) as [[v paths]|e]; cbn [returned map_err].
  - destruct Ht as (Hv & -> & Hok). rewrite (Hput v Hv). cbn [expect ok_or edit as_object].
    cbn [cw_id cw_module cw_secret_paths m_class m_externals m_spec].
    split_and!; try done; [intros key; apply to_externals_get, (ww_resources _ Hw)|].
    intros [p s] Hin. by apply Hok.
  - destruct Ht as (p & s & Hin & Hbad). by exists (p, s).
Qed.

(** ** Triggers *)

Lemma validate_parts w :
  validate w = Ok tt → shape_ok w ∧ ∀ name t, (name, t) ∈ w_triggers w → trigger_ok w t.
Proof.
  unfold validate. rewrite !and_then_Ok. intros (Hs & _ & H).
  destruct (is_some (w_service w) && is_some (w_function w)) eqn:E; [done|].
  split; [by apply validate_shape_Ok|]. rewrite !and_then_Ok in H. destruct H as (_ & _ & Ht & _).
  intros name t Hin. apply (validate_trigger_Ok w name). rewrite (try_fold_checks (validate_trigger w)) in Ht. by apply Ht.
Qed.

(** The trigger that the first service port implies. *)
Definition implied_trigger (w : Workload) : option (string * Trigger) :=
  match w_containers w, w_service w ≫= λ s, head (sv_ports s) with
  | Some _, Some (name, _) =>
      if existsb is_http (w_triggers w).*2 || im_contains name (w_triggers w) then None
      else Some (name, Http (mk_HttpTrigger (Some name) None None))
  | _, _ => None
  end.

Lemma effective_triggers_implied w :
  effective_triggers w = w_triggers w ++ match implied_trigger w with Some e => [e] | None => [] end.
Proof.
  unfold effective_triggers, implied_trigger. destruct (w_containers w); simpl.
  2: { rewrite andb_false_r, app_nil_r. done. }
  destruct (existsb is_http _); simpl.
  { destruct (w_service w ≫= _) as [[name ?]|]; by rewrite app_nil_r. }
  destruct (w_service w ≫= _) as [[name ?]|]; [|by rewrite app_nil_r].
  unfold im_contains, is_some. destruct (im_get name (w_triggers w)) eqn:E; simpl; [by rewrite app_nil_r|].
  apply im_insert_fresh. by apply im_get_None.
Qed.

(** The triggers of a validated workload are the declared ones, plus at most one: when
    a container workload has a service port and no HTTP trigger, an HTTP trigger for its
    first port, under the port's name unless a trigger has that name; and that trigger is
    as valid as the declared ones, so that the converted spec refers to existing ports. *)
Theorem effective_triggers_valid (w : Workload) :
  validate w = Ok tt →
  (∀ name t, (name, t) ∈ effective_triggers w → trigger_ok w t)
  ∧ effective_triggers w = w_triggers w ++ option_list (implied_trigger w)
  ∧ (∀ cs s name port ports, w_containers w = Some cs → w_service w = Some s →
       sv_ports s = (name, port) :: ports → im_get name (w_triggers w) = None →
       ∃ n h, (n, Http h) ∈ effective_triggers w).
Proof.
  intros [Hs Ht]%validate_parts. rewrite effective_triggers_implied. split_and!; [| |].
  - intros name t [Hin|Hin]%elem_of_app; [by eapply Ht|].
    unfold implied_trigger in Hin. destruct (w_containers w) as [cs|] eqn:Ec; [|by apply not_elem_of_nil in Hin].
    destruct (w_service w) as [sv|] eqn:Es; [|by apply not_elem_of_nil in Hin]. cbn [mbind option_bind] in Hin.
    destruct (sv_ports sv) as [|[n p] ports] eqn:Ep; [by apply not_elem_of_nil in Hin|]. cbn [head] in Hin.
    destruct (_ || _); [by apply not_elem_of_nil in Hin|].
    apply list_elem_of_singleton in Hin as [= -> ->]. split; [done|]. intros port [= <-].
    destruct Hs as [[Hf _]|[Hc _]]; [|congruence]. split; [done|]. exists sv. split; [done|].
    rewrite Ep. simpl. by rewrite String.eqb_refl.
  - by destruct (implied_trigger w).
  - intros cs s name port ports Hc Hsv Hp Hn. destruct (existsb is_http (w_triggers w).*2) eqn:E.
    + apply existsb_exists in E as (t & Hin%list_elem_of_In & Hh).
      apply list_elem_of_fmap in Hin as ([n t'] & -> & Hin). destruct t' as [h| | | |]; try done.
      exists n, h. apply elem_of_app. by left.
    + exists name, (mk_HttpTrigger (Some name) None None). apply elem_of_app. right.
      unfold implied_trigger. rewrite Hc, Hsv, E. cbn [mbind option_bind]. rewrite Hp. cbn [head].
      unfold im_contains, is_some. rewrite Hn. simpl. by left.
Qed.

(** ** What conversion gives *)

(** The fields of a module's spec, before translation: the document's, with the implied trigger,
    what is deployed by default, and the annotations. *)
Definition spec_field (w : Workload) (k : string) : option Value :=
  if String.eqb k "containers" then containers_to_value <$> w_containers w
  else if String.eqb k "function" then function_to_value <$> w_function w
  else if String.eqb k "service" then service_to_value <$> w_service w
  else if String.eqb k "triggers" then
    match w_triggers w ++ option_list (implied_trigger w) with
    | [] => None
    | triggers => Some (map_to_value trigger_to_value triggers)
    end
  else if String.eqb k "deploy" then
    let status := match w_deploy w ≫= dp_status with Some StatusDeploy => "deploy" | _ => "available" end in
    Some (Obj [("status", Str status); ("timeout", Str (option_default "5m" (w_deploy w ≫= dp_timeout)))])
  else if String.eqb k "target" then Obj <$> w_target w
  else if String.eqb k "annotations" then
    match md_annotations (w_metadata w) with [] => None | annotations => Some (str_map annotations) end
  else None.

Lemma to_spec_fields w k : im_get k (to_spec w) = spec_field w k.
Proof.
  unfold to_spec, spec_field. rewrite !im_get_app, !im_get_opt_field, im_get_field, !im_get_seq_field, effective_triggers_implied.
  assert (match implied_trigger w with Some e => [e] | None => [] end = option_list (implied_trigger w)) as -> by (by destruct (implied_trigger w)).
  destruct (String.eqb_spec k "containers") as [->|]; [by destruct (w_containers w)|].
  destruct (String.eqb_spec k "function") as [->|]; [by destruct (w_function w)|].
  destruct (String.eqb_spec k "service") as [->|]; [by destruct (w_service w)|].
  destruct (String.eqb_spec k "triggers") as [->|]; [by destruct (_ ++ _)|].
  destruct (String.eqb_spec k "deploy") as [->|]; [unfold to_deploy; by destruct (w_deploy w) as [[[[]|] []]|]|].
  destruct (String.eqb_spec k "target") as [->|]; [by destruct (w_target w)|].
  destruct (String.eqb_spec k "annotations") as [->|]; [by destruct (md_annotations (w_metadata w))|done].
Qed.

(** A string of the spec, at its path. *)
Definition spec_string (w : Workload) (q : path) (s : string) : Prop :=
  ∃ k v p, spec_field w k = Some v ∧ (p, s) ∈ strings v ∧ q = Field k :: p.

Lemma spec_strings w q s : (q, s) ∈ strings (Obj (to_spec w)) ↔ spec_string w q s.
Proof.
  unfold spec_string. rewrite strings_Obj. setoid_rewrite <- to_spec_fields. destruct (to_spec_fields_wf w) as [Hwf _].
  split; intros (k & v & p & Hk & ?); exists k, v, p; (split; [|naive_solver]); [by apply im_elem_get|by apply im_get_elem].
Qed.

Lemma im_get_edit g m k :
  im_get k ((λ kv : string * Value, (kv.1, edit (g kv.1) kv.2)) <$> m) = edit (g k) <$> im_get k m.
Proof.
  induction m as [|[j v] m IH]; [done|]. csimpl. destruct (String.eqb_spec k j) as [->|]; [done|exact IH].
Qed.

Lemma spec_field_ne w k v : spec_field w k = Some v → k ≠ ε.
Proof. by intros Hk ->. Qed.

(** C36: what a workload becomes. Conversion never panics. It succeeds exactly when every string of
    the spec, but for the content of files that are not expanded, has a translation (it is a
    template, and each [resources] placeholder in it names a declared resource and an output of its
    type) that uses a secret output only in a variable of a container or a function or in the
    content of a file. The module then has the workload's name and class, and for each declared
    resource an external of its type, class, ID and params (none for null); its spec has the document's containers, function, service, triggers (with
    the one the first port implies), deployment defaults, target and annotations and no other
    field, with each such string replaced by its translation and everything else, the content of
    files that are not expanded too, as it was; and the secret paths are exactly the pointers of
    the strings that use a secret output. *)
Theorem to_module_spec (w : Workload) (types : list ResourceType) :
  workload_wf w →
  let becomes := string_translated (w_resources w) types in
  match to_module w types with
  | Ok cw =>
      cw_id cw = md_name (w_metadata w)
      ∧ m_class (cw_module cw) = option_default "default" (md_class (w_metadata w))
      ∧ (∀ key, bt_get key (m_externals (cw_module cw))
          = (λ r, mk_External (rr_ty r) (option_default "default" (rr_class r)) (rr_id r)
               match rr_params r with Some Null => None | params => params end) <$> im_get key (w_resources w))
      ∧ ∃ text : path → string → string,
          (∀ k, im_get k (m_spec (cw_module cw)) = edit (λ p s, Str (text (Field k :: p) s)) <$> spec_field w k)
          ∧ (∀ q s, spec_string w q s → q ∈ no_expand_paths w → text q s = s)
          ∧ (∀ q s, spec_string w q s → q ∉ no_expand_paths w →
               ∃ secret, becomes s (text q s) secret ∧ (secret = true → secret_place q))
          ∧ ∀ x, x ∈ cw_secret_paths cw ↔ ∃ q s, spec_string w q s ∧ q ∉ no_expand_paths w
               ∧ becomes s (text q s) true ∧ x = pointer_of q
  | Err (Error _) => ∃ q s, spec_string w q s ∧ q ∉ no_expand_paths w
      ∧ ∀ s' secret, becomes s s' secret → secret = true ∧ ¬ secret_place q
  | Err Panic => False
  end.
Proof.
  intros Hw becomes. pose proof (to_module_edits w types Hw) as Hm. cbv zeta in Hm.
  assert (∀ q s, (q, s) ∈ expanded_strings w ↔ spec_string w q s ∧ q ∉ no_expand_paths w) as Hexp.
  { intros q s. unfold expanded_strings. rewrite list_elem_of_filter, spec_strings. naive_solver. }
  assert (∀ q s, spec_string w q s → is_secret_sink (pointer_of q) = true ↔ secret_place q) as Hsink.
  { intros q s (k & v & p & Hk%spec_field_ne & _ & ->). by apply secret_sink_place. }
  destruct (to_module w types) as [cw|[e|]]; [|destruct Hm as ([q s] & [Hs Hq]%Hexp & Hbad)|done].
  - destruct Hm as (Hid & Hcl & Hext & Hspec & Hpaths & Hok). split_and!; [done..| |].
    { intros key. rewrite Hext. destruct (im_get key (w_resources w)) as [[? ? ? [[]|] ?]|]; done. }
    exists (λ p s, if bool_decide (p ∈ no_expand_paths w) then s else text_at (w_resources w) types (pointer_of p) s).
    assert (∀ q s, spec_string w q s → q ∉ no_expand_paths w → ∃ secret,
      becomes s (text_at (w_resources w) types (pointer_of q) s) secret ∧ (secret = true → secret_place q)
      ∧ secrets_at (w_resources w) types (pointer_of q) s = if secret then [pointer_of q] else []) as Htext.
    { intros q s Hs Hq. pose proof (Hok (q, s) (proj2 (Hexp q s) (conj Hs Hq))) as Hk. cbn [fst snd] in Hk.
      pose proof (translate_string_exact (w_resources w) types s (pointer_of q)) as Hx. unfold text_at, secrets_at.
      destruct (translate_string _ _ s (pointer_of q) []) as [[s' paths]|]; [|done]. destruct Hx as (secret & Hb & -> & Hp).
      exists secret. split_and!; [done| |done]. intros Hsec. by apply (Hsink q s), Hp. }
    split_and!.
    + intros k. cbn [edit] in Hspec. injection Hspec as ->. rewrite <- to_spec_fields.
      apply (im_get_edit (λ k p s, converted_text w types (Field k :: p) s)).
    + intros q s _ Hq. by rewrite bool_decide_eq_true_2.
    + intros q s Hs Hq. rewrite bool_decide_eq_false_2 by done. destruct (Htext q s Hs Hq) as (secret & Hb & Hp & _). eauto.
    + intros x. rewrite Hpaths, list_elem_of_join. split.
      * intros (l & Hx & ([q s] & -> & [Hs Hq]%Hexp)%list_elem_of_fmap). cbn [fst snd] in Hx.
        destruct (Htext q s Hs Hq) as (secret & Hb & _ & E). rewrite E in Hx. destruct secret; [|by apply not_elem_of_nil in Hx].
        apply list_elem_of_singleton in Hx as ->. exists q, s. rewrite bool_decide_eq_false_2 by done. auto.
      * intros (q & s & Hs & Hq & Hb & ->). rewrite bool_decide_eq_false_2 in Hb by done. eexists. split.
        2: { apply list_elem_of_fmap. exists (q, s). split; [done|]. by apply Hexp. }
        cbn [fst snd]. destruct (Htext q s Hs Hq) as (secret & Hb' & _ & ->).
        assert (secret = true) as ->; [|by left]. destruct Hb as (t & t1 & l1 & Ht & HF1 & _ & E1), Hb' as (t' & t2 & l2 & Ht' & HF2 & _ & ->).
        rewrite Ht in Ht'. injection Ht' as <-. rewrite E1. eapply secrets_functional; eauto.
  - exists q, s. split_and!; [done..|]. intros s' secret Hb. cbn [fst snd] in Hbad.
    pose proof (translate_string_exact (w_resources w) types s (pointer_of q)) as Hx.
    destruct (translate_string _ _ s (pointer_of q) []) as [[? ?]|]; [done|]. destruct (Hx _ _ Hb) as [Hsec Hno].
    split; [done|]. intros Hp%(Hsink q s Hs). congruence.
Qed.

(** ** An example *)

Definition test_workload : Workload :=
  mk_Workload API_VERSION "Workload" (mk_Metadata "web" None [])
    (Some [("web", mk_Container "nginx" None None [("DB_URL", test_text)]
       [("/etc/tpl", mk_File None None (Some "${context.env.id} ${") (Some true))] None None None)])
    None (Some (mk_Service [("http", mk_ServicePort 80 None None)])) [] test_resources None None.

Lemma test_workload_wf : workload_wf test_workload.
Proof.
  constructor; [apply NoDup_singleton| |apply (bool_decide_unpack _); by vm_compute].
  intros w c [= -> ->]%list_elem_of_singleton. apply NoDup_singleton.
Qed.

Lemma validate_iff_witness : workload_ok test_workload.
Proof. apply validate_iff; [apply test_workload_wf|by vm_compute]. Defined.

Lemma to_module_edits_example :
  match to_module test_workload builtin_types with
  | Ok cw => cw_id cw = "web"
      ∧ cw_secret_paths cw = ["/containers/web/variables/DB_URL"]
      ∧ pointer_get (Obj (m_spec (cw_module cw))) "/containers/web/files/~1etc~1tpl/content"
        = Some (Str "${context.env.id} ${")
  | Err _ => False
  end.
Proof.
  pose proof (to_module_edits test_workload builtin_types test_workload_wf) as H.
  destruct (to_module test_workload builtin_types) as [cw|e] eqn:E; [|by vm_compute in E].
  destruct H as (Hid & _ & _ & Hspec & Hpaths & _). split_and!; [exact Hid| |].
  - rewrite Hpaths. by vm_compute.
  - rewrite Hspec. by vm_compute.
Defined.

(** The password of the database is in a variable, whose path is marked. *)
Lemma to_module_spec_witness :
  ∃ cw, to_module test_workload builtin_types = Ok cw
    ∧ ∃ q s s', spec_string test_workload q s ∧ string_translated (w_resources test_workload) builtin_types s s' true
        ∧ "/containers/web/variables/DB_URL" = pointer_of q.
Proof.
  pose proof (to_module_spec test_workload builtin_types test_workload_wf) as H.
  assert (match to_module test_workload builtin_types with Ok cw => cw_secret_paths cw | Err _ => [] end
    = ["/containers/web/variables/DB_URL"]) as Hp by (by vm_compute).
  destruct (to_module test_workload builtin_types) as [cw|e]; [|discriminate Hp]. exists cw. split; [reflexivity|].
  destruct H as (_ & _ & _ & text & _ & _ & _ & Hsec).
  destruct (proj1 (Hsec "/containers/web/variables/DB_URL")) as (q & s & Hs & _ & Hb & Hq); [rewrite Hp; left|].
  exists q, s, (text q s). auto.
Defined.

Lemma effective_triggers_valid_witness :
  trigger_ok test_workload (Http (mk_HttpTrigger (Some "http") None None)).
Proof. apply (effective_triggers_valid test_workload ltac:(by vm_compute)) with "http". by left. Defined.

(** ** Names that single quotes cannot hold *)

(** A workload whose only resource is called [it's], read by the placeholder
    [${resources["it's"].host}]. *)
Definition quote_text : string :=
  "${resources[" +:+ str1 dquote +:+ "it's" +:+ str1 dquote +:+ "].host}".

Definition quote_workload : Workload :=
  mk_Workload API_VERSION "Workload" (mk_Metadata "web" None [])
    (Some [("web", mk_Container "nginx" None None [("DB_HOST", quote_text)] [] None None None)])
    None None [] [("it's", mk_ResourceRequest "postgres" None None None None)] None None.

(** Conversion does not keep every valid reference readable: a workload that reads the
    resource [it's] passes validation and converts, but [Segment]'s text puts the name in
    single quotes as it is, and the placeholders of the module's spec no longer parse. *)
Theorem to_module_quote_unreadable :
  validate quote_workload = Ok tt
  ∧ ∃ cw, to_module quote_workload builtin_types = Ok cw
      ∧ pointer_get (Obj (m_spec (cw_module cw))) "/containers/web/variables/DB_HOST"
        = Some (Str "${externals['it's'].host}")
      ∧ is_ok (collect_placeholders DialectSet (Obj (m_spec (cw_module cw))) "spec") = false.
Proof.
  split; [by vm_compute|]. eexists. split; [by vm_compute|]. split; by vm_compute.
Qed.
