(* ===== verification/Overrides.v ===== *)
(** * Deploy-time overrides ([crates/core/src/workload/overrides.rs])

    Images, artifacts and properties applied to a workload before its delta is created,
    and the check that nothing left for deploy time is still missing. Reading a value as
    YAML and reading a workload from JSON are code outside the repository: parameters. *)

From Stdlib Require Import Ascii.
From stdpp Require Import base sets strings list.
From S2P Require Import Prelude Strings OrdMap Regex Ids Float64 Json Template Catalog Sets Pointer JsonPath Workload WorkloadProofs.

Local Open Scope string_scope.
Local Open Scope nat_scope.
Local Open Scope list_scope.

Definition FUNCTION_NAME : string := "main".

Record Overrides := mk_Overrides {
  o_images : list (string * string);
  o_artifacts : list (string * string);
  o_properties : list (string * string) }.

Definition overrides_is_empty (o : Overrides) : bool :=
  is_nil (o_images o) && is_nil (o_artifacts o) && is_nil (o_properties o).

(** ** Images and artifacts *)

Definition set_package (f : Function_) (p : Package) : Function_ :=
  mk_Function p (fn_variables f) (fn_memory f) (fn_timeout f) (fn_concurrency f).

Definition set_image (c : Container) (image : string) : Container :=
  mk_Container image (c_command c) (c_args c) (c_variables c) (c_files c) (c_resources c)
    (c_liveness_probe c) (c_readiness_probe c).

Definition set_function (w : Workload) (f : Function_) : Workload :=
  mk_Workload (w_api_version w) (w_kind w) (w_metadata w) (w_containers w) (Some f) (w_service w)
    (w_triggers w) (w_resources w) (w_deploy w) (w_target w).

Definition set_containers (w : Workload) (c : list (string * Container)) : Workload :=
  mk_Workload (w_api_version w) (w_kind w) (w_metadata w) (Some c) (w_function w) (w_service w)
    (w_triggers w) (w_resources w) (w_deploy w) (w_target w).

(** The function, when [name] names it. *)
Definition named_function (w : Workload) (name : string) : option Function_ :=
  if String.eqb name FUNCTION_NAME then w_function w else None.

Definition override_image (w : Workload) (kv : string * string) : result Workload WorkloadError :=
  let '(name, image) := kv in
  let path := "images." +:+ name in
  match named_function w name with
  | Some f =>
      match fn_package f with
      | Image _ => Ok (set_function w (set_package f (Image image)))
      | Zip _ _ _ =>
          Err (mk_WorkloadError path "function `main` is a zip package; supply an artifact instead")
      end
  | None =>
      match w_containers w with
      | Some cs =>
          match im_get name cs with
          | Some c => Ok (set_containers w (im_insert name (set_image c image) cs))
          | None => Err (mk_WorkloadError path ("the workload has no container or function `" +:+ name +:+ "`"))
          end
      | None => Err (mk_WorkloadError path ("the workload has no container or function `" +:+ name +:+ "`"))
      end
  end.

Definition override_artifact (w : Workload) (kv : string * string) : result Workload WorkloadError :=
  let '(name, artifact) := kv in
  let path := "artifacts." +:+ name in
  match named_function w name with
  | None =>
      Err (mk_WorkloadError path ("the workload has no function `" +:+ name
        +:+ "`; a function is named `" +:+ FUNCTION_NAME +:+ "`"))
  | Some f =>
      match fn_package f with
      | Zip _ runtime handler => Ok (set_function w (set_package f (Zip artifact runtime handler)))
      | Image _ =>
          Err (mk_WorkloadError path "function `main` is an image package; supply an image instead")
      end
  end.

(** ** What must be supplied *)

Definition check_container (_ : unit) (kv : string * Container) : result unit WorkloadError :=
  let '(id, c) := kv in
  if String.eqb (c_image c) "." then
    Err (mk_WorkloadError ("containers." +:+ id +:+ ".image")
      ("supplied at deploy time: pass `--image " +:+ id +:+ "=<ref>`"))
  else Ok tt.

Definition check_supplied (w : Workload) : result unit WorkloadError :=
  let? _ := try_fold check_container tt (entries (w_containers w)) in
  match fn_package <$> w_function w with
  | Some (Zip artifact _ _) =>
      if String.eqb artifact "." then
        Err (mk_WorkloadError "function.package.artifact"
          ("supplied at deploy time: pass `--artifact " +:+ FUNCTION_NAME +:+ "=<uri>`"))
      else Ok tt
  | Some (Image image) =>
      if String.eqb image "." then
        Err (mk_WorkloadError "function.package.image"
          ("supplied at deploy time: pass `--image " +:+ FUNCTION_NAME +:+ "=<ref>`"))
      else Ok tt
  | None => Ok tt
  end.

(** ** Properties *)

Definition slot_error (path message : string) : WorkloadError :=
  mk_WorkloadError ("properties." +:+ path) message.

(** A mutable reference into a document: the value there, and the document after writing. *)
Record Ref := mk_Ref { ref_get : Value; ref_set : Value → Value }.

(** A reference to a child: [map.entry(key)] with what it inserts when vacant, or an index. *)
Definition child_ref (node : Value) (key : string) (vacant : Value) (path descend : string)
    : result Ref WorkloadError :=
  match node with
  | Obj map =>
      Ok (mk_Ref (option_default vacant (im_get key map)) (λ v, Obj (im_insert key v map)))
  | Arr items =>
      match i ← N.to_nat <$> parse_usize key; x ← items !! i; Some (i, x) with
      | Some (i, x) => Ok (mk_Ref x (λ v, Arr (<[i := v]> items)))
      | None => Err (slot_error path ("`" +:+ key +:+ "` is not an index of the list"))
      end
  | _ => Err (slot_error path descend)
  end.

(** The loop over the parents, then the last key. *)
Fixpoint slot_loop (node : Value) (path : string) (parents : list string) (last : string)
    : result Ref WorkloadError :=
  match parents with
  | [] => child_ref node last Null path ("cannot set `" +:+ last +:+ "` here")
  | key :: parents =>
      let? r := child_ref node key (Obj []) path ("cannot descend into `" +:+ key +:+ "`") in
      let node := if is_null (ref_get r) then Obj [] else ref_get r in
      let? r' := slot_loop node path parents last in
      Ok (mk_Ref (ref_get r') (λ v, ref_set r (ref_set r' v)))
  end.

(** [split_last] of the keys of a path. *)
Fixpoint split_last (l : list string) : option (list string * string) :=
  match l with
  | [] => None
  | x :: l => match split_last l with Some (p, y) => Some (x :: p, y) | None => Some ([], x) end
  end.

(** The reference at [path]; [split] yields at least one key, so the [expect] on
    [split_last] cannot fail ([slot_keys]). *)
Definition slot (doc : Value) (path : string) : result Ref WorkloadError :=
  let keys := split "." path in
  if existsb str_is_empty keys then Err (slot_error path "a path is keys separated by single dots")
  else
    match split_last keys with
    | Some (parents, last) => slot_loop doc path parents last
    | None => Err (slot_error path "no keys")
    end.

Definition set_value (doc : Value) (path : string) (value : Value) : result Value WorkloadError :=
  let? r := slot doc path in Ok (ref_set r value).

Section overrides.
Context (yaml_value : string → option Value).
Context (workload_from_value : Value → result Workload string).

Definition set_property (doc : Value) (path raw : string) : result (Value * bool) WorkloadError :=
  let? r := slot doc path in
  let value := if is_string (ref_get r) then None else yaml_value raw in
  let as_yaml := match value with Some v => negb (is_string v) | None => false end in
  Ok (ref_set r (option_default (Str raw) value), as_yaml).

Definition apply_property (before : Value) (kv : string * string) : result Value WorkloadError :=
  let '(path, raw) := kv in
  let? (doc, as_yaml) := set_property before path raw in
  if as_yaml && negb (is_ok (workload_from_value doc)) then
    let? as_string := set_value before path (Str raw) in
    if is_ok (workload_from_value as_string) then Ok as_string else Ok doc
  else Ok doc.

Definition apply_properties (w : Workload) (properties : list (string * string))
    : result Workload WorkloadError :=
  if is_nil properties then Ok w
  else
    let? doc := try_fold apply_property (workload_to_value w) properties in
    map_err (λ e, mk_WorkloadError "properties" ("the result is not a workload: " +:+ e))
      (workload_from_value doc).

Definition with_overrides (w : Workload) (o : Overrides) : result Workload WorkloadError :=
  let? w := try_fold override_image w (o_images o) in
  let? w := try_fold override_artifact w (o_artifacts o) in
  let? w := apply_properties w (o_properties o) in
  let? _ := validate w in
  let? _ := check_supplied w in
  Ok w.
End overrides.

(** ** Properties of a document *)

(** The child a key of a path selects. *)
Definition child_at (node : Value) (key : string) : option Value :=
  match node with
  | Obj map => im_get key map
  | Arr items => i ← N.to_nat <$> parse_usize key; items !! i
  | _ => None
  end.

Fixpoint keys_get (v : Value) (keys : list string) : option Value :=
  match keys with
  | [] => Some v
  | key :: keys => c ← child_at v key; keys_get c keys
  end.

(** Two keys that never select the same child: different names, not one index. *)
Definition apart (k k' : string) : Prop :=
  k ≠ k' ∧ (parse_usize k ≠ parse_usize k' ∨ parse_usize k = None).

(** Two paths with a common prefix and then keys that are apart. *)
Fixpoint diverge (ks ks' : list string) : Prop :=
  match ks, ks' with
  | k :: ks, k' :: ks' => apart k k' ∨ (k = k' ∧ diverge ks ks')
  | _, _ => False
  end.

Lemma child_ref_spec node key vacant path d r :
  child_ref node key vacant path d = Ok r →
  ref_get r = option_default vacant (child_at node key)
  ∧ ∀ v, child_at (ref_set r v) key = Some v
      ∧ ∀ k', apart key k' → child_at (ref_set r v) k' = child_at node k'.
Proof.
  destruct node as [| | | |items|map]; try done; cbn [child_ref child_at].
  - destruct (N.to_nat <$> parse_usize key) as [i|] eqn:Ei; [|done]. cbn [mbind option_bind].
    destruct (items !! i) as [x|] eqn:Ex; [|done]. intros [= <-]. split; [done|]. intros v. cbn [ref_set child_at].
    rewrite Ei. cbn [mbind option_bind]. split; [apply list_lookup_insert_eq; by eapply lookup_lt_Some|].
    intros k' [_ Hk]. destruct (N.to_nat <$> parse_usize k') as [j|] eqn:Ej; [|done]. cbn [mbind option_bind].
    apply list_lookup_insert_ne. intros ->. apply fmap_Some in Ei as (n & Hn & ->).
    apply fmap_Some in Ej as (m & Hm & Heq). apply N2Nat.inj in Heq as ->.
    destruct Hk as [Hk|Hk]; congruence.
  - intros [= <-]. split; [done|]. intros v. cbn [ref_set child_at]. split.
    + by rewrite im_get_insert, String.eqb_refl.
    + intros k' [Hk _]. rewrite im_get_insert. by destruct (String.eqb_spec k' key) as [->|].
Qed.

Lemma slot_loop_spec parents last path : ∀ node r,
  slot_loop node path parents last = Ok r →
  ∀ v, keys_get (ref_set r v) (parents ++ [last]) = Some v
    ∧ ∀ ks', diverge (parents ++ [last]) ks' → keys_get (ref_set r v) ks' = keys_get node ks'.
Proof.
  induction parents as [|key parents IH]; intros node r H v; cbn [slot_loop app] in *.
  - apply child_ref_spec in H as [_ H]. destruct (H v) as [Hget Hframe]. split; [simpl; by rewrite Hget|].
    intros [|k' ks'] Hd; [done|]. cbn [keys_get]. destruct Hd as [Hd|[_ Hd]]; [by rewrite Hframe|by destruct ks'].
  - destruct (child_ref _ _ _ _ _) as [r1|] eqn:E1; [|done].
    destruct (slot_loop _ _ parents last) as [r2|] eqn:E2; [|done]. injection H as <-. cbn [ref_set].
    apply child_ref_spec in E1 as [Hg H1]. destruct (H1 (ref_set r2 v)) as [Hget Hframe].
    destruct (IH _ _ E2 v) as [Hget2 Hframe2]. cbn [keys_get]. rewrite Hget. cbn [mbind option_bind].
    split; [done|]. intros [|k' ks'] Hd; [done|]. cbn [keys_get].
    destruct Hd as [Hd|[<- Hd]]; [by rewrite Hframe|]. rewrite Hget. cbn [mbind option_bind].
    rewrite Hframe2, Hg by done. destruct ks' as [|k2 ks']; [by destruct parents|].
    destruct (child_at node key) as [c|]; [|done]. cbn [option_default mbind option_bind]. by destruct c.
Qed.

Lemma split_last_Some l p x : split_last l = Some (p, x) → l = p ++ [x].
Proof.
  revert p. induction l as [|y l IH]; intros p; simpl; [done|].
  destruct (split_last l) as [[q z]|] eqn:E.
  - intros [= <- <-]. simpl. f_equal. by apply IH.
  - intros [= <- <-]. destruct l as [|a l]; [done|]. simpl in E. by destruct (split_last l) as [[]|].
Qed.

(** A path has at least one key. *)
Lemma slot_keys path : ∃ parents last, split_last (split "." path) = Some (parents, last).
Proof.
  pose proof (split_not_nil "." path) as H. destruct (split "." path) as [|x l]; [done|]. simpl.
  destruct (split_last l) as [[p y]|]; by eexists _, _.
Qed.

(** Setting a property changes that property and nothing else: when [set_value]
    succeeds, the path reads as the new value, and every path that parts from it at some
    key (another name, or another index of a list) reads as before; maps missing on the
    way are created, and an existing value is never moved. *)
Theorem set_value_spec (doc doc' v : Value) (path : string) :
  set_value doc path v = Ok doc' →
  keys_get doc' (split "." path) = Some v
  ∧ ∀ ks, diverge (split "." path) ks → keys_get doc' ks = keys_get doc ks.
Proof.
  unfold set_value, slot. destruct (existsb str_is_empty _); [done|].
  destruct (slot_keys path) as (parents & last & E). rewrite E. apply split_last_Some in E as ->.
  destruct (slot_loop doc path parents last) as [r|] eqn:Er; [|done]. intros [= <-].
  by apply (slot_loop_spec parents last path doc r Er v).
Qed.

Lemma set_value_spec_witness :
  keys_get (Obj [("a", Arr [Str "x"; Obj [("b", Null); ("c", Str "new")]]); ("d", Str "y")]) ["a"; "1"; "c"]
  = Some (Str "new").
Proof.
  apply (set_value_spec (Obj [("a", Arr [Str "x"; Obj [("b", Null)]]); ("d", Str "y")]) _ (Str "new") "a.1.c").
  by vm_compute.
Defined.

(** ** Images and artifacts *)

(** The workload with the images and artifacts of [o]. *)
Definition overridden_package (o : Overrides) (p : Package) : Package :=
  match p with
  | Image image => Image (option_default image (im_get FUNCTION_NAME (o_images o)))
  | Zip artifact runtime handler =>
      Zip (option_default artifact (im_get FUNCTION_NAME (o_artifacts o))) runtime handler
  end.

Definition overridden_containers (images : list (string * string)) (cs : list (string * Container))
    : list (string * Container) :=
  (λ kv : string * Container,
    (kv.1, set_image kv.2 (option_default (c_image kv.2) (im_get kv.1 images)))) <$> cs.

(** Nothing of a workload is left for deploy time. *)
Definition supplied (w : Workload) : Prop :=
  (∀ id c, (id, c) ∈ entries (w_containers w) → c_image c ≠ ".")
  ∧ ∀ f, w_function w = Some f →
      match fn_package f with Zip artifact _ _ => artifact ≠ "." | Image image => image ≠ "." end.

Lemma check_supplied_Ok w : check_supplied w = Ok tt ↔ supplied w.
Proof.
  unfold check_supplied, supplied.
  assert (try_fold check_container tt (entries (w_containers w)) = Ok tt
    ↔ ∀ id c, (id, c) ∈ entries (w_containers w) → c_image c ≠ ".") as Hc.
  { change check_container with (λ _ : unit, check_container tt). rewrite try_fold_checks. split.
    - intros H id c Hin. specialize (H _ Hin). unfold check_container in H.
      by destruct (String.eqb_spec (c_image c) ".").
    - intros H [id c] Hin. unfold check_container.
      destruct (String.eqb_spec (c_image c) ".") as [E|]; [by apply H in Hin|done]. }
  destruct (try_fold check_container tt _) as [[]|e]; [|split; [done|]; intros [H _]; by apply Hc in H].
  destruct (w_function w) as [f|]; simpl.
  2: { split; [|done]. intros _. split; [by apply Hc|done]. }
  destruct (fn_package f) as [a r h|i] eqn:Ep.
  - destruct (String.eqb_spec a ".") as [->|Hne]; split; try done.
    + intros [_ H]. specialize (H f eq_refl). by rewrite Ep in H.
    + intros _. split; [by apply Hc|]. intros f' [= <-]. by rewrite Ep.
  - destruct (String.eqb_spec i ".") as [->|Hne]; split; try done.
    + intros [_ H]. specialize (H f eq_refl). by rewrite Ep in H.
    + intros _. split; [by apply Hc|]. intros f' [= <-]. by rewrite Ep.
Qed.

Lemma set_containers_id w cs : w_containers w = Some cs → set_containers w cs = w.
Proof. intros H. destruct w. simpl in *. by subst. Qed.

Lemma set_function_id w f : w_function w = Some f → set_function w f = w.
Proof. intros H. destruct w. simpl in *. by subst. Qed.

Lemma set_image_id c : set_image c (c_image c) = c.
Proof. by destruct c. Qed.

Lemma overridden_containers_nil cs : overridden_containers [] cs = cs.
Proof.
  unfold overridden_containers. rewrite <-(list_fmap_id cs) at 2. apply list_fmap_ext.
  intros i [k c] _. simpl. by rewrite set_image_id.
Qed.

(** One image, then the others. *)
Lemma overridden_containers_cons name image images cs c :
  im_wf cs → name ∉ images.*1 → im_get name cs = Some c →
  overridden_containers images (im_insert name (set_image c image) cs)
  = overridden_containers ((name, image) :: images) cs.
Proof.
  intros Hcs Hn Hc. assert (im_insert name (set_image c image) cs
    = (λ kv : string * Container, (kv.1, if String.eqb kv.1 name then set_image kv.2 image else kv.2)) <$> cs) as ->.
  { rewrite <-(im_insert_fmap (λ _ x, x) (λ k x, if String.eqb k name then set_image x image else x) name c cs);
      [|done|done|].
    - rewrite String.eqb_refl. f_equal. rewrite <-(list_fmap_id cs) at 1. apply list_fmap_ext. by intros i [].
    - intros k v Hk. by destruct (String.eqb_spec k name). }
  unfold overridden_containers. rewrite <-list_fmap_compose. apply list_fmap_ext. intros i [k x] _. simpl.
  destruct (String.eqb_spec k name) as [->|]; [|done].
  by rewrite (proj2 (im_get_None name images)) by done.
Qed.

Lemma override_images_containers images : ∀ w cs w',
  w_function w = None → w_containers w = Some cs → im_wf cs → im_wf images →
  try_fold override_image w images = Ok w' →
  w' = set_containers w (overridden_containers images cs).
Proof.
  induction images as [|[name image] images IH]; intros w cs w' Hf Hc Hcs Hi H; cbn [try_fold] in H.
  - injection H as <-. rewrite overridden_containers_nil. symmetry. by apply set_containers_id.
  - apply im_wf_cons in Hi as [Hn Hi]. unfold override_image at 1, named_function in H.
    rewrite Hf, Hc in H. assert ((if String.eqb name FUNCTION_NAME then @None Function_ else None) = None) as Hnone
      by (by destruct (String.eqb name FUNCTION_NAME)). rewrite Hnone in H.
    destruct (im_get name cs) as [c|] eqn:Ec; [|done].
    apply (IH _ (im_insert name (set_image c image) cs)) in H as ->; try done; [|by apply im_wf_insert].
    by rewrite (overridden_containers_cons name image images cs c).
Qed.

Lemma override_artifacts_containers artifacts w w' :
  w_function w = None → try_fold override_artifact w artifacts = Ok w' → w' = w.
Proof.
  intros Hf. destruct artifacts as [|[name artifact] l]; cbn [try_fold]; [by intros [= <-]|].
  unfold override_artifact at 1, named_function. rewrite Hf. by destruct (String.eqb name FUNCTION_NAME).
Qed.

(** The package after images or artifacts alone. *)
Lemma override_images_function images : ∀ w f w',
  w_function w = Some f → w_containers w = None → im_wf images →
  try_fold override_image w images = Ok w' →
  w' = set_function w (set_package f (overridden_package (mk_Overrides images [] []) (fn_package f))).
Proof.
  induction images as [|[name image] images IH]; intros w f w' Hf Hc Hi H; cbn [try_fold] in H.
  - injection H as <-. rewrite <-(set_function_id w f Hf) at 1. f_equal. destruct f as [p]. by destruct p.
  - apply im_wf_cons in Hi as [Hn Hi]. unfold override_image at 1, named_function in H.
    rewrite Hf, Hc in H. destruct (String.eqb_spec name FUNCTION_NAME) as [->|]; [|done].
    destruct (fn_package f) as [|i] eqn:Ep; [done|].
    apply (IH _ (set_package f (Image image))) in H as ->; try done. simpl.
    by rewrite (proj2 (im_get_None FUNCTION_NAME images)) by done.
Qed.

Lemma override_artifacts_function artifacts : ∀ w f w',
  w_function w = Some f → im_wf artifacts →
  try_fold override_artifact w artifacts = Ok w' →
  w' = set_function w (set_package f (overridden_package (mk_Overrides [] artifacts []) (fn_package f))).
Proof.
  induction artifacts as [|[name artifact] artifacts IH]; intros w f w' Hf Hi H; cbn [try_fold] in H.
  - injection H as <-. rewrite <-(set_function_id w f Hf) at 1. f_equal. destruct f as [p]. by destruct p.
  - apply im_wf_cons in Hi as [Hn Hi]. unfold override_artifact at 1, named_function in H.
    rewrite Hf in H. destruct (String.eqb_spec name FUNCTION_NAME) as [->|]; [|done].
    destruct (fn_package f) as [a r h|i] eqn:Ep; [|done].
    apply (IH _ (set_package f (Zip artifact r h))) in H as ->; try done. simpl.
    by rewrite (proj2 (im_get_None FUNCTION_NAME artifacts)) by done.
Qed.

(** The workload with the images and artifacts of [o], and nothing else changed. *)
Definition overridden (w : Workload) (o : Overrides) : Workload :=
  mk_Workload (w_api_version w) (w_kind w) (w_metadata w)
    (overridden_containers (o_images o) <$> w_containers w)
    ((λ f, set_package f (overridden_package o (fn_package f))) <$> w_function w)
    (w_service w) (w_triggers w) (w_resources w) (w_deploy w) (w_target w).

Lemma overrides_applied w o w1 w2 :
  workload_wf w → shape_ok w → im_wf (o_images o) → im_wf (o_artifacts o) →
  try_fold override_image w (o_images o) = Ok w1 → try_fold override_artifact w1 (o_artifacts o) = Ok w2 →
  w2 = overridden w o.
Proof.
  intros Hw Hs Hi Ha H1 H2. destruct Hs as [(Hf & c & cs & Hc)|(Hc & [f Hf] & _)].
  - pose proof (ww_containers _ Hw) as Hcs. rewrite Hc in Hcs.
    apply (override_images_containers _ w (c :: cs)) in H1 as ->; try done.
    apply override_artifacts_containers in H2 as ->; [|done].
    unfold overridden. rewrite Hf, Hc. destruct w; simpl in *. by subst.
  - apply (override_images_function _ w f) in H1 as ->; try done.
    eapply override_artifacts_function in H2 as ->; [|done|done].
    unfold overridden. rewrite Hf, Hc. destruct w, f as [[]]; simpl in *; by subst.
Qed.

(** Overriding a validated workload yields a workload that is validated again and has
    no image or artifact left to supply; without properties, it is the workload with
    exactly the images of the named containers and the function's image or artifact
    replaced. *)
Theorem with_overrides_spec (yaml_value : string → option Value)
    (workload_from_value : Value → result Workload string) (w w' : Workload) (o : Overrides) :
  workload_wf w → validate w = Ok tt → im_wf (o_images o) → im_wf (o_artifacts o) →
  with_overrides yaml_value workload_from_value w o = Ok w' →
  validate w' = Ok tt ∧ supplied w' ∧ (o_properties o = [] → w' = overridden w o).
Proof.
  intros Hw [Hs _]%validate_parts Hi Ha H. unfold with_overrides in H.
  destruct (try_fold override_image _ _) as [w1|] eqn:E1; [|done].
  destruct (try_fold override_artifact _ _) as [w2|] eqn:E2; [|done].
  destruct (apply_properties _ _ _ _) as [w3|] eqn:E3; [|done].
  destruct (validate w3) as [[]|] eqn:Ev; [|done].
  destruct (check_supplied w3) as [[]|] eqn:Es; [|done]. injection H as <-.
  split_and!; [done|by apply check_supplied_Ok|]. intros Hp. rewrite Hp in E3. injection E3 as <-.
  by apply (overrides_applied w o w1).
Qed.

Lemma with_overrides_spec_witness :
  supplied (overridden test_workload (mk_Overrides [("web", "nginx:2")] [] [])).
Proof.
  apply (with_overrides_spec (λ _, None) (λ _, Err "not read") test_workload _
    (mk_Overrides [("web", "nginx:2")] [] [])).
  - apply test_workload_wf.
  - by vm_compute.
  - apply NoDup_singleton.
  - apply NoDup_nil_2.
  - by vm_compute.
Defined.
