(* ===== verification/Db.v ===== *)
(** * The database ([crates/store/migrations], [crates/store/src/error.rs], [audit.rs])

    The tables of the store, with their columns, and transactions over them. Every store
    method first checks that its [org] is the installation's ([check_org]), so the tables hold
    the rows of that organization and the [org_id] columns are left out. A transaction of the
    source ([BEGIN IMMEDIATE], which takes the write lock) is a function of the database that
    returns a result and a new database or an error, in which case nothing is written. Times
    and random identifiers come from the system: [System] gives the answer to each call, and
    the number of calls made so far is part of the connection. JSON columns hold the value
    that [serde_json] writes and reads back; binary columns are byte strings. *)

From Stdlib Require Import Ascii.
From stdpp Require Import base sets strings list.
From S2P Require Import Prelude Strings OrdMap Json Model Catalog.

Local Open Scope string_scope.
Local Open Scope Z_scope.
Local Open Scope list_scope.

(** ** Rows *)

(** What the registration of an external driver says ([sqlite_catalog.rs]), kept as JSON. *)
Record DriverTargets := mk_DriverTargets { dtg_resources : bool; dtg_workloads : bool; dtg_triggers : bool }.
Record DriverCapabilities := mk_DriverCapabilities {
  dcap_targets : DriverTargets; dcap_observe : bool; dcap_recover : bool; dcap_preview : bool; dcap_cancel : bool
}.
Record DriverRecord := mk_DriverRecord {
  dr_id : string; dr_target : string; dr_inputs_schema : option Value; dr_token : option SecretRef;
  dr_protocol_version : string; dr_cookie_version : Z; dr_outputs_schema : option Value;
  dr_capabilities : DriverCapabilities
}.

Record PrincipalRow := mk_PrincipalRow {
  pr_id : string; pr_type : string; pr_name : string; pr_email : option string;
  pr_org_role : string; pr_created_at : Z; pr_created_by : option string
}.

Record IdentityRow := mk_IdentityRow {
  idn_provider : string; idn_subject : string; idn_principal : string;
  idn_login : option string; idn_email : option string; idn_created_at : Z
}.

Record InvitationRow := mk_InvitationRow {
  iv_id : string; iv_org_role : string; iv_email : option string; iv_provider : option string;
  iv_subject : option string; iv_login : option string; iv_code_hash : string;
  iv_expires_at : Z; iv_created_at : Z; iv_created_by : string; iv_consumed_at : option Z;
  iv_consumed_by : option string
}.

Record TokenRow := mk_TokenRow {
  tk_principal : string; tk_id : string; tk_description : option string;
  tk_token_hash : string; tk_expires_at : option Z; tk_created_at : Z; tk_created_by : string;
  tk_last_used_at : option Z; tk_revoked_at : option Z
}.

Record SessionRow := mk_SessionRow {
  se_jti : string; se_principal : string; se_issued_at : Z; se_expires_at : Z;
  se_revoked_at : option Z
}.

Record SigningKeyRow := mk_SigningKeyRow {
  sk_id : string; sk_purpose : string; sk_algorithm : string; sk_key_id : string;
  sk_nonce : string; sk_ciphertext : string; sk_created_at : Z; sk_retired_at : option Z
}.

Record AuditRow := mk_AuditRow {
  au_seq : Z; au_id : string; au_at : Z; au_org : string; au_actor : option string;
  au_request_id : option string; au_operation_id : option string; au_method : string;
  au_path : string; au_action : string; au_target : option string; au_outcome : string;
  au_status_code : option Z; au_reason : option string; au_correlates : option string
}.

Record EnvTypeRow := mk_EnvTypeRow {
  et_id : string; et_description : string; et_protected : bool; et_created_at : Z;
  et_created_by : option string
}.

Record AppRow := mk_AppRow {
  ap_id : string; ap_name : string; ap_created_at : Z; ap_created_by : option string;
  ap_state : string
}.

Record EnvRow := mk_EnvRow {
  en_app : string; en_id : string; en_name : string; en_type : string; en_generation : Z;
  en_desired_set_id : option string; en_last_successful_set_id : option string;
  en_last_successful_deploy_id : option string; en_state : string; en_created_at : Z;
  en_created_by : option string
}.

Record AppRoleRow := mk_AppRoleRow {
  ar_app : string; ar_principal : string; ar_role : string
}.

Record EnvTypeRoleRow := mk_EnvTypeRoleRow {
  er_env_type : string; er_principal : string; er_role : string
}.

Record SetRow := mk_SetRow {
  st_app : string; st_id : string; st_algorithm : string; st_content : string;
  st_created_at : Z
}.

Record DeltaRow := mk_DeltaRow {
  de_app : string; de_id : string; de_env : option string; de_content : Value;
  de_base_generation : option Z; de_frozen_at : option Z; de_created_at : Z;
  de_created_by : option string; de_updated_at : Z
}.

Record DeploymentRow := mk_DeploymentRow {
  dp_app : string; dp_env : string; dp_id : string; dp_seq : Z; dp_kind : string;
  dp_actor : string; dp_set_id : option string; dp_delta_id : option string;
  dp_comment : string; dp_generation : Z; dp_status : string;
  dp_idempotency_key : option string; dp_fingerprint : option string; dp_snapshot : Value;
  dp_error : option string; dp_created_at : Z; dp_finished_at : option Z
}.

Record PlanRow := mk_PlanRow {
  pl_app : string; pl_env : string; pl_id : string; pl_actor : string; pl_kind : string;
  pl_base_generation : Z; pl_set_id : option string; pl_body : Value; pl_created_at : Z;
  pl_expires_at : Z
}.

Record PermitRow := mk_PermitRow {
  pm_id : string; pm_app : string; pm_env : string; pm_plan : string; pm_descriptor : string;
  pm_guresid : option string; pm_action : string; pm_plan_fingerprint : option string;
  pm_base_generation : Z; pm_config_digest : string; pm_issuer : string; pm_created_at : Z;
  pm_expires_at : Z; pm_bound_to : option string; pm_bound_at : option Z;
  pm_used_at : option Z; pm_issued_entry : option string
}.

Record ApprovalRow := mk_ApprovalRow {
  aq_app : string; aq_env : string; aq_guresid : string; aq_descriptor : string;
  aq_action : string; aq_fingerprint : string; aq_actions : list (string * string);
  aq_deployment_id : string; aq_created_at : Z
}.

Record ResourceRow := mk_ResourceRow {
  rs_app : string; rs_env : string; rs_descriptor : string; rs_guresid : string;
  rs_definition_id : option string; rs_definition_version : option Z;
  rs_driver_type : option string; rs_inputs : Value; rs_outputs : Value;
  rs_secret_outputs : Value; rs_cookie_key_id : option string; rs_cookie_nonce : option string;
  rs_cookie : option string; rs_status : string; rs_recovery : Value; rs_snapshot : Value;
  rs_backend : option string; rs_external_ids : list string; rs_ownership : string;
  rs_dependencies : list string; rs_last_deploy_id : option string; rs_observed_at : option Z;
  rs_scheduled_deletion : bool; rs_created_at : Z; rs_updated_at : Z;
  rs_driver_account : option string; rs_target : option string; rs_cleanup_pending : bool
}.

Record DeploymentResourceRow := mk_DeploymentResourceRow {
  dr_app : string; dr_env : string; dr_deployment_id : string; dr_descriptor : string;
  dr_guresid : string; dr_status : string; dr_attempts : Z; dr_outputs : option Value;
  dr_error : option string; dr_observed_at : option Z
}.

Record OperationRow := mk_OperationRow {
  op_id : string; op_app : string; op_env : string; op_deployment_id : string;
  op_guresid : string; op_kind : string; op_input_fingerprint : string; op_state : string;
  op_attempt : Z; op_recovery : Value; op_error : option string; op_started_at : Z;
  op_finished_at : option Z; op_definition_id : option string;
  op_definition_version : option Z; op_driver_type : option string
}.

Record LogRow := mk_LogRow {
  lg_seq : Z; lg_app : string; lg_env : string; lg_deployment_id : string;
  lg_operation_id : option string; lg_guresid : option string; lg_at : Z; lg_level : string;
  lg_message : string; lg_descriptor : option string
}.

Record TombstoneRow := mk_TombstoneRow {
  tb_seq : Z; tb_app : string; tb_env : string; tb_descriptor : string; tb_guresid : string;
  tb_reason : string; tb_actor : option string; tb_body : Value; tb_at : Z;
  tb_cookie_key_id : option string; tb_cookie_nonce : option string; tb_cookie : option string;
  tb_secret_outputs : option Value
}.

Record ValueRow := mk_ValueRow {
  av_app : string; av_env : string; av_key : string; av_description : string;
  av_value : option string; av_secret_ref : option Value; av_updated_at : Z
}.

Record ValueVersionRow := mk_ValueVersionRow {
  vv_seq : Z; vv_app : string; vv_env : string; vv_id : string; vv_content : Value;
  vv_created_at : Z; vv_created_by : option string
}.

Record SecretGrantRow := mk_SecretGrantRow {
  sg_id : string; sg_store : string; sg_ref : string; sg_app : option string;
  sg_env : option string; sg_org_wide : bool; sg_created_at : Z; sg_created_by : string
}.

Record TypeRow := mk_TypeRow {
  ty_id : string; ty_body : ResourceType; ty_created_at : Z; ty_created_by : option string
}.

Record ClassRow := mk_ClassRow {
  kl_type : string; kl_id : string; kl_description : string; kl_created_at : Z;
  kl_created_by : option string
}.

Record DriverRow := mk_DriverRow {
  dv_id : string; dv_body : DriverRecord; dv_created_at : Z; dv_created_by : option string
}.

Record AccountRow := mk_AccountRow {
  cc_id : string; cc_name : string; cc_type : string; cc_config : jmap;
  cc_secret_refs : list (string * SecretRef); cc_created_at : Z; cc_created_by : option string
}.

Record DefinitionRow := mk_DefinitionRow {
  df_id : string; df_name : string; df_type : string; df_driver_type : string;
  df_driver_account : option string; df_driver_inputs : DriverInputs;
  df_provision : list (string * Provision); df_version : Z; df_created_at : Z;
  df_created_by : option string; df_updated_at : Z
}.

Record CriterionRow := mk_CriterionRow {
  ct_definition : string; ct_id : string; ct_env_type : option string; ct_app : option string;
  ct_env : option string; ct_res : option string; ct_class : option string
}.

Record SecretStoreRow := mk_SecretStoreRow {
  ss_id : string; ss_type : string; ss_config : jmap; ss_is_primary : bool; ss_created_at : Z;
  ss_created_by : option string
}.

(** A table is the list of its rows, in insertion order; [db_seq] are the counters of the
    [AUTOINCREMENT] columns (audit log, logs, tombstones and value versions). *)
Record Db := mk_Db {
  db_principals : list PrincipalRow;
  db_identities : list IdentityRow;
  db_invitations : list InvitationRow;
  db_api_tokens : list TokenRow;
  db_sessions : list SessionRow;
  db_signing_keys : list SigningKeyRow;
  db_audit_log : list AuditRow;
  db_env_types : list EnvTypeRow;
  db_apps : list AppRow;
  db_envs : list EnvRow;
  db_app_roles : list AppRoleRow;
  db_env_type_roles : list EnvTypeRoleRow;
  db_sets : list SetRow;
  db_deltas : list DeltaRow;
  db_deployments : list DeploymentRow;
  db_plans : list PlanRow;
  db_permits : list PermitRow;
  db_approval_requests : list ApprovalRow;
  db_active_resources : list ResourceRow;
  db_deployment_resources : list DeploymentResourceRow;
  db_operations : list OperationRow;
  db_logs : list LogRow;
  db_tombstones : list TombstoneRow;
  db_app_values : list ValueRow;
  db_value_set_versions : list ValueVersionRow;
  db_secret_grants : list SecretGrantRow;
  db_resource_types : list TypeRow;
  db_resource_classes : list ClassRow;
  db_drivers : list DriverRow;
  db_cloud_accounts : list AccountRow;
  db_definitions : list DefinitionRow;
  db_criteria : list CriterionRow;
  db_secret_stores : list SecretStoreRow;
  db_seq : Z * Z * Z * Z
}.

Definition empty_db : Db :=
  mk_Db [] [] [] [] [] [] [] [] [] [] [] [] [] [] [] [] [] [] [] [] [] [] [] [] [] [] [] [] [] [] [] [] [] (0, 0, 0, 0)%Z.

(** *** Changing one table *)

Definition upd_principals (f : list PrincipalRow → list PrincipalRow) (d : Db) : Db :=
  mk_Db (f (db_principals d)) (db_identities d) (db_invitations d) (db_api_tokens d)
    (db_sessions d) (db_signing_keys d) (db_audit_log d) (db_env_types d) (db_apps d) (db_envs
    d) (db_app_roles d) (db_env_type_roles d) (db_sets d) (db_deltas d) (db_deployments d)
    (db_plans d) (db_permits d) (db_approval_requests d) (db_active_resources d)
    (db_deployment_resources d) (db_operations d) (db_logs d) (db_tombstones d) (db_app_values
    d) (db_value_set_versions d) (db_secret_grants d) (db_resource_types d)
    (db_resource_classes d) (db_drivers d) (db_cloud_accounts d) (db_definitions d)
    (db_criteria d) (db_secret_stores d) (db_seq d).

Definition upd_identities (f : list IdentityRow → list IdentityRow) (d : Db) : Db :=
  mk_Db (db_principals d) (f (db_identities d)) (db_invitations d) (db_api_tokens d)
    (db_sessions d) (db_signing_keys d) (db_audit_log d) (db_env_types d) (db_apps d) (db_envs
    d) (db_app_roles d) (db_env_type_roles d) (db_sets d) (db_deltas d) (db_deployments d)
    (db_plans d) (db_permits d) (db_approval_requests d) (db_active_resources d)
    (db_deployment_resources d) (db_operations d) (db_logs d) (db_tombstones d) (db_app_values
    d) (db_value_set_versions d) (db_secret_grants d) (db_resource_types d)
    (db_resource_classes d) (db_drivers d) (db_cloud_accounts d) (db_definitions d)
    (db_criteria d) (db_secret_stores d) (db_seq d).

Definition upd_invitations (f : list InvitationRow → list InvitationRow) (d : Db) : Db :=
  mk_Db (db_principals d) (db_identities d) (f (db_invitations d)) (db_api_tokens d)
    (db_sessions d) (db_signing_keys d) (db_audit_log d) (db_env_types d) (db_apps d) (db_envs
    d) (db_app_roles d) (db_env_type_roles d) (db_sets d) (db_deltas d) (db_deployments d)
    (db_plans d) (db_permits d) (db_approval_requests d) (db_active_resources d)
    (db_deployment_resources d) (db_operations d) (db_logs d) (db_tombstones d) (db_app_values
    d) (db_value_set_versions d) (db_secret_grants d) (db_resource_types d)
    (db_resource_classes d) (db_drivers d) (db_cloud_accounts d) (db_definitions d)
    (db_criteria d) (db_secret_stores d) (db_seq d).

Definition upd_api_tokens (f : list TokenRow → list TokenRow) (d : Db) : Db :=
  mk_Db (db_principals d) (db_identities d) (db_invitations d) (f (db_api_tokens d))
    (db_sessions d) (db_signing_keys d) (db_audit_log d) (db_env_types d) (db_apps d) (db_envs
    d) (db_app_roles d) (db_env_type_roles d) (db_sets d) (db_deltas d) (db_deployments d)
    (db_plans d) (db_permits d) (db_approval_requests d) (db_active_resources d)
    (db_deployment_resources d) (db_operations d) (db_logs d) (db_tombstones d) (db_app_values
    d) (db_value_set_versions d) (db_secret_grants d) (db_resource_types d)
    (db_resource_classes d) (db_drivers d) (db_cloud_accounts d) (db_definitions d)
    (db_criteria d) (db_secret_stores d) (db_seq d).

Definition upd_sessions (f : list SessionRow → list SessionRow) (d : Db) : Db :=
  mk_Db (db_principals d) (db_identities d) (db_invitations d) (db_api_tokens d) (f
    (db_sessions d)) (db_signing_keys d) (db_audit_log d) (db_env_types d) (db_apps d)
    (db_envs d) (db_app_roles d) (db_env_type_roles d) (db_sets d) (db_deltas d)
    (db_deployments d) (db_plans d) (db_permits d) (db_approval_requests d)
    (db_active_resources d) (db_deployment_resources d) (db_operations d) (db_logs d)
    (db_tombstones d) (db_app_values d) (db_value_set_versions d) (db_secret_grants d)
    (db_resource_types d) (db_resource_classes d) (db_drivers d) (db_cloud_accounts d)
    (db_definitions d) (db_criteria d) (db_secret_stores d) (db_seq d).

Definition upd_signing_keys (f : list SigningKeyRow → list SigningKeyRow) (d : Db) : Db :=
  mk_Db (db_principals d) (db_identities d) (db_invitations d) (db_api_tokens d) (db_sessions
    d) (f (db_signing_keys d)) (db_audit_log d) (db_env_types d) (db_apps d) (db_envs d)
    (db_app_roles d) (db_env_type_roles d) (db_sets d) (db_deltas d) (db_deployments d)
    (db_plans d) (db_permits d) (db_approval_requests d) (db_active_resources d)
    (db_deployment_resources d) (db_operations d) (db_logs d) (db_tombstones d) (db_app_values
    d) (db_value_set_versions d) (db_secret_grants d) (db_resource_types d)
    (db_resource_classes d) (db_drivers d) (db_cloud_accounts d) (db_definitions d)
    (db_criteria d) (db_secret_stores d) (db_seq d).

Definition upd_audit_log (f : list AuditRow → list AuditRow) (d : Db) : Db :=
  mk_Db (db_principals d) (db_identities d) (db_invitations d) (db_api_tokens d) (db_sessions
    d) (db_signing_keys d) (f (db_audit_log d)) (db_env_types d) (db_apps d) (db_envs d)
    (db_app_roles d) (db_env_type_roles d) (db_sets d) (db_deltas d) (db_deployments d)
    (db_plans d) (db_permits d) (db_approval_requests d) (db_active_resources d)
    (db_deployment_resources d) (db_operations d) (db_logs d) (db_tombstones d) (db_app_values
    d) (db_value_set_versions d) (db_secret_grants d) (db_resource_types d)
    (db_resource_classes d) (db_drivers d) (db_cloud_accounts d) (db_definitions d)
    (db_criteria d) (db_secret_stores d) (db_seq d).

Definition upd_env_types (f : list EnvTypeRow → list EnvTypeRow) (d : Db) : Db :=
  mk_Db (db_principals d) (db_identities d) (db_invitations d) (db_api_tokens d) (db_sessions
    d) (db_signing_keys d) (db_audit_log d) (f (db_env_types d)) (db_apps d) (db_envs d)
    (db_app_roles d) (db_env_type_roles d) (db_sets d) (db_deltas d) (db_deployments d)
    (db_plans d) (db_permits d) (db_approval_requests d) (db_active_resources d)
    (db_deployment_resources d) (db_operations d) (db_logs d) (db_tombstones d) (db_app_values
    d) (db_value_set_versions d) (db_secret_grants d) (db_resource_types d)
    (db_resource_classes d) (db_drivers d) (db_cloud_accounts d) (db_definitions d)
    (db_criteria d) (db_secret_stores d) (db_seq d).

Definition upd_apps (f : list AppRow → list AppRow) (d : Db) : Db :=
  mk_Db (db_principals d) (db_identities d) (db_invitations d) (db_api_tokens d) (db_sessions
    d) (db_signing_keys d) (db_audit_log d) (db_env_types d) (f (db_apps d)) (db_envs d)
    (db_app_roles d) (db_env_type_roles d) (db_sets d) (db_deltas d) (db_deployments d)
    (db_plans d) (db_permits d) (db_approval_requests d) (db_active_resources d)
    (db_deployment_resources d) (db_operations d) (db_logs d) (db_tombstones d) (db_app_values
    d) (db_value_set_versions d) (db_secret_grants d) (db_resource_types d)
    (db_resource_classes d) (db_drivers d) (db_cloud_accounts d) (db_definitions d)
    (db_criteria d) (db_secret_stores d) (db_seq d).

Definition upd_envs (f : list EnvRow → list EnvRow) (d : Db) : Db :=
  mk_Db (db_principals d) (db_identities d) (db_invitations d) (db_api_tokens d) (db_sessions
    d) (db_signing_keys d) (db_audit_log d) (db_env_types d) (db_apps d) (f (db_envs d))
    (db_app_roles d) (db_env_type_roles d) (db_sets d) (db_deltas d) (db_deployments d)
    (db_plans d) (db_permits d) (db_approval_requests d) (db_active_resources d)
    (db_deployment_resources d) (db_operations d) (db_logs d) (db_tombstones d) (db_app_values
    d) (db_value_set_versions d) (db_secret_grants d) (db_resource_types d)
    (db_resource_classes d) (db_drivers d) (db_cloud_accounts d) (db_definitions d)
    (db_criteria d) (db_secret_stores d) (db_seq d).

Definition upd_app_roles (f : list AppRoleRow → list AppRoleRow) (d : Db) : Db :=
  mk_Db (db_principals d) (db_identities d) (db_invitations d) (db_api_tokens d) (db_sessions
    d) (db_signing_keys d) (db_audit_log d) (db_env_types d) (db_apps d) (db_envs d) (f
    (db_app_roles d)) (db_env_type_roles d) (db_sets d) (db_deltas d) (db_deployments d)
    (db_plans d) (db_permits d) (db_approval_requests d) (db_active_resources d)
    (db_deployment_resources d) (db_operations d) (db_logs d) (db_tombstones d) (db_app_values
    d) (db_value_set_versions d) (db_secret_grants d) (db_resource_types d)
    (db_resource_classes d) (db_drivers d) (db_cloud_accounts d) (db_definitions d)
    (db_criteria d) (db_secret_stores d) (db_seq d).

Definition upd_env_type_roles (f : list EnvTypeRoleRow → list EnvTypeRoleRow) (d : Db) : Db :=
  mk_Db (db_principals d) (db_identities d) (db_invitations d) (db_api_tokens d) (db_sessions
    d) (db_signing_keys d) (db_audit_log d) (db_env_types d) (db_apps d) (db_envs d)
    (db_app_roles d) (f (db_env_type_roles d)) (db_sets d) (db_deltas d) (db_deployments d)
    (db_plans d) (db_permits d) (db_approval_requests d) (db_active_resources d)
    (db_deployment_resources d) (db_operations d) (db_logs d) (db_tombstones d) (db_app_values
    d) (db_value_set_versions d) (db_secret_grants d) (db_resource_types d)
    (db_resource_classes d) (db_drivers d) (db_cloud_accounts d) (db_definitions d)
    (db_criteria d) (db_secret_stores d) (db_seq d).

Definition upd_sets (f : list SetRow → list SetRow) (d : Db) : Db :=
  mk_Db (db_principals d) (db_identities d) (db_invitations d) (db_api_tokens d) (db_sessions
    d) (db_signing_keys d) (db_audit_log d) (db_env_types d) (db_apps d) (db_envs d)
    (db_app_roles d) (db_env_type_roles d) (f (db_sets d)) (db_deltas d) (db_deployments d)
    (db_plans d) (db_permits d) (db_approval_requests d) (db_active_resources d)
    (db_deployment_resources d) (db_operations d) (db_logs d) (db_tombstones d) (db_app_values
    d) (db_value_set_versions d) (db_secret_grants d) (db_resource_types d)
    (db_resource_classes d) (db_drivers d) (db_cloud_accounts d) (db_definitions d)
    (db_criteria d) (db_secret_stores d) (db_seq d).

Definition upd_deltas (f : list DeltaRow → list DeltaRow) (d : Db) : Db :=
  mk_Db (db_principals d) (db_identities d) (db_invitations d) (db_api_tokens d) (db_sessions
    d) (db_signing_keys d) (db_audit_log d) (db_env_types d) (db_apps d) (db_envs d)
    (db_app_roles d) (db_env_type_roles d) (db_sets d) (f (db_deltas d)) (db_deployments d)
    (db_plans d) (db_permits d) (db_approval_requests d) (db_active_resources d)
    (db_deployment_resources d) (db_operations d) (db_logs d) (db_tombstones d) (db_app_values
    d) (db_value_set_versions d) (db_secret_grants d) (db_resource_types d)
    (db_resource_classes d) (db_drivers d) (db_cloud_accounts d) (db_definitions d)
    (db_criteria d) (db_secret_stores d) (db_seq d).

Definition upd_deployments (f : list DeploymentRow → list DeploymentRow) (d : Db) : Db :=
  mk_Db (db_principals d) (db_identities d) (db_invitations d) (db_api_tokens d) (db_sessions
    d) (db_signing_keys d) (db_audit_log d) (db_env_types d) (db_apps d) (db_envs d)
    (db_app_roles d) (db_env_type_roles d) (db_sets d) (db_deltas d) (f (db_deployments d))
    (db_plans d) (db_permits d) (db_approval_requests d) (db_active_resources d)
    (db_deployment_resources d) (db_operations d) (db_logs d) (db_tombstones d) (db_app_values
    d) (db_value_set_versions d) (db_secret_grants d) (db_resource_types d)
    (db_resource_classes d) (db_drivers d) (db_cloud_accounts d) (db_definitions d)
    (db_criteria d) (db_secret_stores d) (db_seq d).

Definition upd_plans (f : list PlanRow → list PlanRow) (d : Db) : Db :=
  mk_Db (db_principals d) (db_identities d) (db_invitations d) (db_api_tokens d) (db_sessions
    d) (db_signing_keys d) (db_audit_log d) (db_env_types d) (db_apps d) (db_envs d)
    (db_app_roles d) (db_env_type_roles d) (db_sets d) (db_deltas d) (db_deployments d) (f
    (db_plans d)) (db_permits d) (db_approval_requests d) (db_active_resources d)
    (db_deployment_resources d) (db_operations d) (db_logs d) (db_tombstones d) (db_app_values
    d) (db_value_set_versions d) (db_secret_grants d) (db_resource_types d)
    (db_resource_classes d) (db_drivers d) (db_cloud_accounts d) (db_definitions d)
    (db_criteria d) (db_secret_stores d) (db_seq d).

Definition upd_permits (f : list PermitRow → list PermitRow) (d : Db) : Db :=
  mk_Db (db_principals d) (db_identities d) (db_invitations d) (db_api_tokens d) (db_sessions
    d) (db_signing_keys d) (db_audit_log d) (db_env_types d) (db_apps d) (db_envs d)
    (db_app_roles d) (db_env_type_roles d) (db_sets d) (db_deltas d) (db_deployments d)
    (db_plans d) (f (db_permits d)) (db_approval_requests d) (db_active_resources d)
    (db_deployment_resources d) (db_operations d) (db_logs d) (db_tombstones d) (db_app_values
    d) (db_value_set_versions d) (db_secret_grants d) (db_resource_types d)
    (db_resource_classes d) (db_drivers d) (db_cloud_accounts d) (db_definitions d)
    (db_criteria d) (db_secret_stores d) (db_seq d).

Definition upd_approval_requests (f : list ApprovalRow → list ApprovalRow) (d : Db) : Db :=
  mk_Db (db_principals d) (db_identities d) (db_invitations d) (db_api_tokens d) (db_sessions
    d) (db_signing_keys d) (db_audit_log d) (db_env_types d) (db_apps d) (db_envs d)
    (db_app_roles d) (db_env_type_roles d) (db_sets d) (db_deltas d) (db_deployments d)
    (db_plans d) (db_permits d) (f (db_approval_requests d)) (db_active_resources d)
    (db_deployment_resources d) (db_operations d) (db_logs d) (db_tombstones d) (db_app_values
    d) (db_value_set_versions d) (db_secret_grants d) (db_resource_types d)
    (db_resource_classes d) (db_drivers d) (db_cloud_accounts d) (db_definitions d)
    (db_criteria d) (db_secret_stores d) (db_seq d).

Definition upd_active_resources (f : list ResourceRow → list ResourceRow) (d : Db) : Db :=
  mk_Db (db_principals d) (db_identities d) (db_invitations d) (db_api_tokens d) (db_sessions
    d) (db_signing_keys d) (db_audit_log d) (db_env_types d) (db_apps d) (db_envs d)
    (db_app_roles d) (db_env_type_roles d) (db_sets d) (db_deltas d) (db_deployments d)
    (db_plans d) (db_permits d) (db_approval_requests d) (f (db_active_resources d))
    (db_deployment_resources d) (db_operations d) (db_logs d) (db_tombstones d) (db_app_values
    d) (db_value_set_versions d) (db_secret_grants d) (db_resource_types d)
    (db_resource_classes d) (db_drivers d) (db_cloud_accounts d) (db_definitions d)
    (db_criteria d) (db_secret_stores d) (db_seq d).

Definition upd_deployment_resources (f : list DeploymentResourceRow → list DeploymentResourceRow) (d : Db) : Db :=
  mk_Db (db_principals d) (db_identities d) (db_invitations d) (db_api_tokens d) (db_sessions
    d) (db_signing_keys d) (db_audit_log d) (db_env_types d) (db_apps d) (db_envs d)
    (db_app_roles d) (db_env_type_roles d) (db_sets d) (db_deltas d) (db_deployments d)
    (db_plans d) (db_permits d) (db_approval_requests d) (db_active_resources d) (f
    (db_deployment_resources d)) (db_operations d) (db_logs d) (db_tombstones d)
    (db_app_values d) (db_value_set_versions d) (db_secret_grants d) (db_resource_types d)
    (db_resource_classes d) (db_drivers d) (db_cloud_accounts d) (db_definitions d)
    (db_criteria d) (db_secret_stores d) (db_seq d).

Definition upd_operations (f : list OperationRow → list OperationRow) (d : Db) : Db :=
  mk_Db (db_principals d) (db_identities d) (db_invitations d) (db_api_tokens d) (db_sessions
    d) (db_signing_keys d) (db_audit_log d) (db_env_types d) (db_apps d) (db_envs d)
    (db_app_roles d) (db_env_type_roles d) (db_sets d) (db_deltas d) (db_deployments d)
    (db_plans d) (db_permits d) (db_approval_requests d) (db_active_resources d)
    (db_deployment_resources d) (f (db_operations d)) (db_logs d) (db_tombstones d)
    (db_app_values d) (db_value_set_versions d) (db_secret_grants d) (db_resource_types d)
    (db_resource_classes d) (db_drivers d) (db_cloud_accounts d) (db_definitions d)
    (db_criteria d) (db_secret_stores d) (db_seq d).

Definition upd_logs (f : list LogRow → list LogRow) (d : Db) : Db :=
  mk_Db (db_principals d) (db_identities d) (db_invitations d) (db_api_tokens d) (db_sessions
    d) (db_signing_keys d) (db_audit_log d) (db_env_types d) (db_apps d) (db_envs d)
    (db_app_roles d) (db_env_type_roles d) (db_sets d) (db_deltas d) (db_deployments d)
    (db_plans d) (db_permits d) (db_approval_requests d) (db_active_resources d)
    (db_deployment_resources d) (db_operations d) (f (db_logs d)) (db_tombstones d)
    (db_app_values d) (db_value_set_versions d) (db_secret_grants d) (db_resource_types d)
    (db_resource_classes d) (db_drivers d) (db_cloud_accounts d) (db_definitions d)
    (db_criteria d) (db_secret_stores d) (db_seq d).

Definition upd_tombstones (f : list TombstoneRow → list TombstoneRow) (d : Db) : Db :=
  mk_Db (db_principals d) (db_identities d) (db_invitations d) (db_api_tokens d) (db_sessions
    d) (db_signing_keys d) (db_audit_log d) (db_env_types d) (db_apps d) (db_envs d)
    (db_app_roles d) (db_env_type_roles d) (db_sets d) (db_deltas d) (db_deployments d)
    (db_plans d) (db_permits d) (db_approval_requests d) (db_active_resources d)
    (db_deployment_resources d) (db_operations d) (db_logs d) (f (db_tombstones d))
    (db_app_values d) (db_value_set_versions d) (db_secret_grants d) (db_resource_types d)
    (db_resource_classes d) (db_drivers d) (db_cloud_accounts d) (db_definitions d)
    (db_criteria d) (db_secret_stores d) (db_seq d).

Definition upd_app_values (f : list ValueRow → list ValueRow) (d : Db) : Db :=
  mk_Db (db_principals d) (db_identities d) (db_invitations d) (db_api_tokens d) (db_sessions
    d) (db_signing_keys d) (db_audit_log d) (db_env_types d) (db_apps d) (db_envs d)
    (db_app_roles d) (db_env_type_roles d) (db_sets d) (db_deltas d) (db_deployments d)
    (db_plans d) (db_permits d) (db_approval_requests d) (db_active_resources d)
    (db_deployment_resources d) (db_operations d) (db_logs d) (db_tombstones d) (f
    (db_app_values d)) (db_value_set_versions d) (db_secret_grants d) (db_resource_types d)
    (db_resource_classes d) (db_drivers d) (db_cloud_accounts d) (db_definitions d)
    (db_criteria d) (db_secret_stores d) (db_seq d).

Definition upd_value_set_versions (f : list ValueVersionRow → list ValueVersionRow) (d : Db) : Db :=
  mk_Db (db_principals d) (db_identities d) (db_invitations d) (db_api_tokens d) (db_sessions
    d) (db_signing_keys d) (db_audit_log d) (db_env_types d) (db_apps d) (db_envs d)
    (db_app_roles d) (db_env_type_roles d) (db_sets d) (db_deltas d) (db_deployments d)
    (db_plans d) (db_permits d) (db_approval_requests d) (db_active_resources d)
    (db_deployment_resources d) (db_operations d) (db_logs d) (db_tombstones d) (db_app_values
    d) (f (db_value_set_versions d)) (db_secret_grants d) (db_resource_types d)
    (db_resource_classes d) (db_drivers d) (db_cloud_accounts d) (db_definitions d)
    (db_criteria d) (db_secret_stores d) (db_seq d).

Definition upd_secret_grants (f : list SecretGrantRow → list SecretGrantRow) (d : Db) : Db :=
  mk_Db (db_principals d) (db_identities d) (db_invitations d) (db_api_tokens d) (db_sessions
    d) (db_signing_keys d) (db_audit_log d) (db_env_types d) (db_apps d) (db_envs d)
    (db_app_roles d) (db_env_type_roles d) (db_sets d) (db_deltas d) (db_deployments d)
    (db_plans d) (db_permits d) (db_approval_requests d) (db_active_resources d)
    (db_deployment_resources d) (db_operations d) (db_logs d) (db_tombstones d) (db_app_values
    d) (db_value_set_versions d) (f (db_secret_grants d)) (db_resource_types d)
    (db_resource_classes d) (db_drivers d) (db_cloud_accounts d) (db_definitions d)
    (db_criteria d) (db_secret_stores d) (db_seq d).

Definition upd_resource_types (f : list TypeRow → list TypeRow) (d : Db) : Db :=
  mk_Db (db_principals d) (db_identities d) (db_invitations d) (db_api_tokens d) (db_sessions
    d) (db_signing_keys d) (db_audit_log d) (db_env_types d) (db_apps d) (db_envs d)
    (db_app_roles d) (db_env_type_roles d) (db_sets d) (db_deltas d) (db_deployments d)
    (db_plans d) (db_permits d) (db_approval_requests d) (db_active_resources d)
    (db_deployment_resources d) (db_operations d) (db_logs d) (db_tombstones d) (db_app_values
    d) (db_value_set_versions d) (db_secret_grants d) (f (db_resource_types d))
    (db_resource_classes d) (db_drivers d) (db_cloud_accounts d) (db_definitions d)
    (db_criteria d) (db_secret_stores d) (db_seq d).

Definition upd_resource_classes (f : list ClassRow → list ClassRow) (d : Db) : Db :=
  mk_Db (db_principals d) (db_identities d) (db_invitations d) (db_api_tokens d) (db_sessions
    d) (db_signing_keys d) (db_audit_log d) (db_env_types d) (db_apps d) (db_envs d)
    (db_app_roles d) (db_env_type_roles d) (db_sets d) (db_deltas d) (db_deployments d)
    (db_plans d) (db_permits d) (db_approval_requests d) (db_active_resources d)
    (db_deployment_resources d) (db_operations d) (db_logs d) (db_tombstones d) (db_app_values
    d) (db_value_set_versions d) (db_secret_grants d) (db_resource_types d) (f
    (db_resource_classes d)) (db_drivers d) (db_cloud_accounts d) (db_definitions d)
    (db_criteria d) (db_secret_stores d) (db_seq d).

Definition upd_drivers (f : list DriverRow → list DriverRow) (d : Db) : Db :=
  mk_Db (db_principals d) (db_identities d) (db_invitations d) (db_api_tokens d) (db_sessions
    d) (db_signing_keys d) (db_audit_log d) (db_env_types d) (db_apps d) (db_envs d)
    (db_app_roles d) (db_env_type_roles d) (db_sets d) (db_deltas d) (db_deployments d)
    (db_plans d) (db_permits d) (db_approval_requests d) (db_active_resources d)
    (db_deployment_resources d) (db_operations d) (db_logs d) (db_tombstones d) (db_app_values
    d) (db_value_set_versions d) (db_secret_grants d) (db_resource_types d)
    (db_resource_classes d) (f (db_drivers d)) (db_cloud_accounts d) (db_definitions d)
    (db_criteria d) (db_secret_stores d) (db_seq d).

Definition upd_cloud_accounts (f : list AccountRow → list AccountRow) (d : Db) : Db :=
  mk_Db (db_principals d) (db_identities d) (db_invitations d) (db_api_tokens d) (db_sessions
    d) (db_signing_keys d) (db_audit_log d) (db_env_types d) (db_apps d) (db_envs d)
    (db_app_roles d) (db_env_type_roles d) (db_sets d) (db_deltas d) (db_deployments d)
    (db_plans d) (db_permits d) (db_approval_requests d) (db_active_resources d)
    (db_deployment_resources d) (db_operations d) (db_logs d) (db_tombstones d) (db_app_values
    d) (db_value_set_versions d) (db_secret_grants d) (db_resource_types d)
    (db_resource_classes d) (db_drivers d) (f (db_cloud_accounts d)) (db_definitions d)
    (db_criteria d) (db_secret_stores d) (db_seq d).

Definition upd_definitions (f : list DefinitionRow → list DefinitionRow) (d : Db) : Db :=
  mk_Db (db_principals d) (db_identities d) (db_invitations d) (db_api_tokens d) (db_sessions
    d) (db_signing_keys d) (db_audit_log d) (db_env_types d) (db_apps d) (db_envs d)
    (db_app_roles d) (db_env_type_roles d) (db_sets d) (db_deltas d) (db_deployments d)
    (db_plans d) (db_permits d) (db_approval_requests d) (db_active_resources d)
    (db_deployment_resources d) (db_operations d) (db_logs d) (db_tombstones d) (db_app_values
    d) (db_value_set_versions d) (db_secret_grants d) (db_resource_types d)
    (db_resource_classes d) (db_drivers d) (db_cloud_accounts d) (f (db_definitions d))
    (db_criteria d) (db_secret_stores d) (db_seq d).

Definition upd_criteria (f : list CriterionRow → list CriterionRow) (d : Db) : Db :=
  mk_Db (db_principals d) (db_identities d) (db_invitations d) (db_api_tokens d) (db_sessions
    d) (db_signing_keys d) (db_audit_log d) (db_env_types d) (db_apps d) (db_envs d)
    (db_app_roles d) (db_env_type_roles d) (db_sets d) (db_deltas d) (db_deployments d)
    (db_plans d) (db_permits d) (db_approval_requests d) (db_active_resources d)
    (db_deployment_resources d) (db_operations d) (db_logs d) (db_tombstones d) (db_app_values
    d) (db_value_set_versions d) (db_secret_grants d) (db_resource_types d)
    (db_resource_classes d) (db_drivers d) (db_cloud_accounts d) (db_definitions d) (f
    (db_criteria d)) (db_secret_stores d) (db_seq d).

Definition upd_secret_stores (f : list SecretStoreRow → list SecretStoreRow) (d : Db) : Db :=
  mk_Db (db_principals d) (db_identities d) (db_invitations d) (db_api_tokens d) (db_sessions
    d) (db_signing_keys d) (db_audit_log d) (db_env_types d) (db_apps d) (db_envs d)
    (db_app_roles d) (db_env_type_roles d) (db_sets d) (db_deltas d) (db_deployments d)
    (db_plans d) (db_permits d) (db_approval_requests d) (db_active_resources d)
    (db_deployment_resources d) (db_operations d) (db_logs d) (db_tombstones d) (db_app_values
    d) (db_value_set_versions d) (db_secret_grants d) (db_resource_types d)
    (db_resource_classes d) (db_drivers d) (db_cloud_accounts d) (db_definitions d)
    (db_criteria d) (f (db_secret_stores d)) (db_seq d).

Definition set_seq (seq : Z * Z * Z * Z) (d : Db) : Db :=
  mk_Db (db_principals d) (db_identities d) (db_invitations d) (db_api_tokens d) (db_sessions
    d) (db_signing_keys d) (db_audit_log d) (db_env_types d) (db_apps d) (db_envs d)
    (db_app_roles d) (db_env_type_roles d) (db_sets d) (db_deltas d) (db_deployments d)
    (db_plans d) (db_permits d) (db_approval_requests d) (db_active_resources d)
    (db_deployment_resources d) (db_operations d) (db_logs d) (db_tombstones d) (db_app_values
    d) (db_value_set_versions d) (db_secret_grants d) (db_resource_types d)
    (db_resource_classes d) (db_drivers d) (db_cloud_accounts d) (db_definitions d)
    (db_criteria d) (db_secret_stores d) seq.

(** ** Errors *)

(** What SQLite reports when a statement violates a constraint, and its driver when a row is
    missing or a column has another type. *)
Inductive DbError :=
  UniqueViolation | CheckViolation | ForeignKeyViolation | RowNotFound | ColumnDecode.

Inductive StoreError :=
| AlreadyOwned (path : string)
| SchemaTooNew (found supported : Z)
| NotFound (what : string)
| AlreadyExists (what : string)
| StaleGeneration (expected actual : Z)
| Busy (deployment : string)
| Detached (descriptor : string)
| RecoveryRequired (descriptors : string)
| MigrationRequired (descriptor from to : string)
| PermitInvalid (reason : string)
| ApprovalRequired (reason : string)
| IdempotencyMismatch (key : string)
| Invalid (reason : string)
| Conflict (reason : string)
| Forbidden (reason : string)
| Corrupt (what : string)
| Database (error : DbError).

(** ** Transactions *)

(** What transactions get from outside: the clock and the random number generator, by the
    number of calls made before, and what SQLite's [json_set] makes of a member [pins] that is
    a text, a number or a boolean (the source only writes objects). *)
Class System := {
  clock : nat → Z;
  entropy : nat → nat → string;
  scalar_pins : Value → result Value StoreError;
}.

Record Conn := mk_Conn { c_db : Db; c_calls : nat }.

Definition tx (A : Type) : Type := Conn → result (A * Conn) StoreError.

Definition ret {A} (a : A) : tx A := λ c, Ok (a, c).
Definition fail {A} (e : StoreError) : tx A := λ _, Err e.
Definition bind {A B} (m : tx A) (k : A → tx B) : tx B :=
  λ c, match m c with Ok (a, c') => k a c' | Err e => Err e end.

Declare Scope tx_scope.
Delimit Scope tx_scope with tx.
Notation "'let*' x := m 'in' k" := (bind m (λ x, k))
  (at level 10, x pattern, m at level 200, k at level 200) : tx_scope.
Notation "m ;; k" := (bind m (λ _, k)) (at level 100, right associativity) : tx_scope.
Open Scope tx_scope.

(** Reading and writing the tables. *)
Definition query {A} (f : Db → A) : tx A := λ c, Ok (f (c_db c), c).
Definition execute (f : Db → Db) : tx unit := λ c, Ok (tt, mk_Conn (f (c_db c)) (c_calls c)).

(** A guard, and the results of other computations. *)
Definition check (b : bool) (e : StoreError) : tx unit := if b then ret tt else fail e.
Definition lift {A} (r : result A StoreError) : tx A := λ c,
  match r with Ok a => Ok (a, c) | Err e => Err e end.
Definition require {A} (o : option A) (e : StoreError) : tx A :=
  match o with Some a => ret a | None => fail e end.

(** [match res { Err(e) if unique_violation(e) => Err(e'), res => res }]. *)
Definition or_exists {A} (m : tx A) (e : StoreError) : tx A := λ c,
  match m c with
  | Err (Database UniqueViolation) => Err e
  | r => r
  end.

(** The result of [m] as a value, its changes kept only when it succeeds. *)
Definition attempt {A} (m : tx A) : tx (result A StoreError) := λ c,
  match m c with Ok (a, c') => Ok (Ok a, c') | Err e => Ok (Err e, c) end.

Fixpoint for_each {A} (f : A → tx unit) (l : list A) : tx unit :=
  match l with
  | [] => ret tt
  | x :: l => let* _ := f x in for_each f l
  end.

Fixpoint fold_each {A S} (f : S → A → tx S) (s : S) (l : list A) : tx S :=
  match l with
  | [] => ret s
  | x :: l => let* s := f s x in fold_each f s l
  end.

Section system.
Context `{System}.

Definition now_ms : tx Z := λ c, Ok (clock (c_calls c), mk_Conn (c_db c) (S (c_calls c))).

(** [bytes] random bytes in hexadecimal. *)
Definition random_hex (bytes : nat) : tx string := λ c,
  Ok (entropy (c_calls c) bytes, mk_Conn (c_db c) (S (c_calls c))).
End system.

(** ** Statements *)

Section statements.
Context {A : Type}.

(** [SELECT ... WHERE p], and with [fetch_optional]. *)
Definition select (p : A → bool) (t : list A) : list A := filter (λ r, p r = true) t.
Definition select_one (p : A → bool) (t : list A) : option A := find p t.

(** [UPDATE ... SET f WHERE p] and [DELETE ... WHERE p]. *)
Definition update (p : A → bool) (f : A → A) (t : list A) : list A :=
  (λ r, if p r then f r else r) <$> t.
Definition delete_rows (p : A → bool) (t : list A) : list A := filter (λ r, p r = false) t.
End statements.

(** [INSERT]: the constraints of the table are checked, then the row is added. *)
Definition insert_row {A} (table : Db → list A) (upd : (list A → list A) → Db → Db)
    (checked unique referenced : Db → bool) (row : A) : tx unit :=
  let* d := query (λ d, d) in
  check (checked d) (Database CheckViolation);;
  check (unique d) (Database UniqueViolation);;
  check (referenced d) (Database ForeignKeyViolation);;
  execute (upd (λ t, t ++ [row])).

(** [a = b] in SQL, which is not true of [NULL]. *)
Definition sql_eq (a b : option string) : bool :=
  match a, b with Some a, Some b => String.eqb a b | _, _ => false end.

(** [COALESCE(a, b)]. *)
Definition coalesce {A} (a b : option A) : option A :=
  match a with Some _ => a | None => b end.

Definition eq_opt (a b : option string) : bool :=
  match a, b with
  | Some a, Some b => String.eqb a b
  | None, None => true
  | _, _ => false
  end.

(** [eq_ignore_ascii_case], which is also how SQLite's [lower] and [LIKE] fold case. *)
Definition to_ascii_lowercase (c : ascii) : ascii :=
  if is_ascii_uppercase c then ascii_of_N (N_of_ascii c + 32)%N else c.

Fixpoint str_lowercase (s : string) : string :=
  match s with
  | ε => ε
  | String c s => String (to_ascii_lowercase c) (str_lowercase s)
  end.

Definition eq_ignore_ascii_case (a b : string) : bool :=
  String.eqb (str_lowercase a) (str_lowercase b).

(** [text LIKE pattern ESCAPE '\'], on characters: [%] matches any text, [_] any character,
    and the escape character makes the next one literal. *)
Fixpoint like_chars (p : list string) : list string → bool :=
  match p with
  | [] => λ t, match t with [] => true | _ => false end
  | c :: p' =>
      if String.eqb c (str1 backslash) then
        match p' with
        | [] => λ _, false
        | c' :: p'' => λ t,
            match t with [] => false | x :: t => eq_ignore_ascii_case c' x && like_chars p'' t end
        end
      else if String.eqb c "%" then
        fix any t := like_chars p' t || match t with [] => false | _ :: t => any t end
      else if String.eqb c "_" then λ t,
        match t with [] => false | _ :: t => like_chars p' t end
      else λ t,
        match t with [] => false | x :: t => eq_ignore_ascii_case c x && like_chars p' t end
  end.

Definition sql_like (pattern text : string) : bool := like_chars (chars pattern) (chars text).

(** [format!("`{s}`")]. *)
Definition quoted (s : string) : string := "`" +:+ s +:+ "`".

(** ** Audit ([crates/store/src/audit.rs]) *)

Inductive AuditOutcome := Accepted | Succeeded | Failed | Denied.

Definition outcome_as_str (o : AuditOutcome) : string :=
  match o with
  | Accepted => "accepted"
  | Succeeded => "succeeded"
  | Failed => "failed"
  | Denied => "denied"
  end.

Record AuditIntent := mk_AuditIntent {
  ai_org : string; ai_actor : option string; ai_request_id : option string;
  ai_method : string; ai_path : string; ai_action : string; ai_target : option string;
  ai_outcome : AuditOutcome; ai_status_code : option Z; ai_reason : option string
}.

Definition audit_accepted (org actor method path action : string) : AuditIntent :=
  mk_AuditIntent org (Some actor) None method path action None Accepted None None.

Section audit.
Context `{System}.

(** [audit::insert], which returns the ID of the entry. *)
Definition audit_insert (intent : AuditIntent) (operation_id correlates : option string)
    : tx string :=
  let* id := random_hex 16 in
  let* now := now_ms in
  let* seq := query db_seq in
  let '(audit, logs, tombs, values) := seq in
  insert_row db_audit_log upd_audit_log
    (λ _, true) (λ d, negb (existsb (λ r, String.eqb (au_id r) id) (db_audit_log d)))
    (λ _, true)
    (mk_AuditRow (audit + 1) id now (ai_org intent) (ai_actor intent) (ai_request_id intent)
      operation_id (ai_method intent) (ai_path intent) (ai_action intent) (ai_target intent)
      (outcome_as_str (ai_outcome intent)) (ai_status_code intent) (ai_reason intent)
      correlates);;
  execute (set_seq (audit + 1, logs, tombs, values));;
  ret id.

Definition audit_in (intent : AuditIntent) : tx unit :=
  let* _ := audit_insert intent None None in ret tt.
End audit.

(** ** The store *)

Section store.
Context (store_org : string).

(** [self.check_org(org)]. *)
Definition check_org (org : string) : tx unit :=
  check (String.eqb org store_org) (NotFound ("organization " +:+ quoted org)).
End store.

(** A clock that ticks and IDs that count, for examples. *)
Definition example_system : System := {|
  clock n := Z.of_nat n;
  entropy n _ := "id" +:+ show_nat n;
  scalar_pins v := Ok v;
|}.
