(* ===== verification/DbLogic.v ===== *)
(** * Reasoning about transactions

    Two ways to reason about the transactions of [Db]: [tx_rel], a relation between the
    database before and after every successful run, which composes along [bind]; and
    [inv_tx], which takes a successful run apart into its steps. Then lemmas on the
    statements: what a select, update, insert or delete does to a table with a key. *)

From Stdlib Require Import Ascii.
From stdpp Require Import base sets strings list.
From S2P Require Import Prelude Strings OrdMap Json Db.

Local Open Scope string_scope.
Local Open Scope Z_scope.
Local Open Scope list_scope.

(** ** Successful runs, step by step *)

Lemma bind_Ok {A B} (m : tx A) (k : A → tx B) c r :
  bind m k c = Ok r ↔ ∃ a c', m c = Ok (a, c') ∧ k a c' = Ok r.
Proof.
  unfold bind. destruct (m c) as [[a c']|e]; [|by split; [|intros (? & ? & ? & _)]].
  split; [by eauto|by intros (? & ? & [= <- <-] & ?)].
Qed.

Lemma check_Ok b e c r : check b e c = Ok r ↔ b = true ∧ r = (tt, c).
Proof. destruct b; simpl; unfold ret, fail; naive_solver. Qed.

Lemma ret_Ok {A} (a : A) c r : ret a c = Ok r ↔ r = (a, c).
Proof. unfold ret. naive_solver. Qed.

Lemma require_Ok {A} (o : option A) e c r : require o e c = Ok r ↔ ∃ a, o = Some a ∧ r = (a, c).
Proof. destruct o; simpl; unfold ret, fail; naive_solver. Qed.

Lemma lift_Ok {A} (x : result A StoreError) c r : lift x c = Ok r ↔ ∃ a, x = Ok a ∧ r = (a, c).
Proof. destruct x; unfold lift; naive_solver. Qed.

Lemma or_exists_Ok {A} (m : tx A) e c r : or_exists m e c = Ok r ↔ m c = Ok r.
Proof. unfold or_exists. destruct (m c) as [|[]] eqn:E; try done. by destruct error. Qed.

Lemma attempt_Ok {A} (m : tx A) c r :
  attempt m c = Ok r ↔ (∃ a c', m c = Ok (a, c') ∧ r = (Ok a, c')) ∨ (∃ e, m c = Err e ∧ r = (Err e, c)).
Proof. unfold attempt. destruct (m c) as [[a c']|e]; naive_solver. Qed.

Lemma insert_row_Ok {A} table upd checked unique referenced (row : A) c r :
  insert_row table upd checked unique referenced row c = Ok r ↔
  checked (c_db c) = true ∧ unique (c_db c) = true ∧ referenced (c_db c) = true
  ∧ r = (tt, mk_Conn (upd (λ t, t ++ [row]) (c_db c)) (c_calls c)).
Proof.
  unfold insert_row, query, execute, check, bind. simpl.
  destruct (checked (c_db c)), (unique (c_db c)), (referenced (c_db c)); simpl;
    unfold fail; naive_solver.
Qed.

(** Takes [H : m c = Ok r] apart, without audit entries. *)
Ltac inv_tx0 H :=
  lazymatch type of H with
  | bind _ _ _ = Ok _ =>
      let a := fresh "a" in let c := fresh "c" in let H1 := fresh "H" in
      apply bind_Ok in H as (a & c & H1 & H); inv_tx0 H1; inv_tx0 H
  | check _ _ _ = Ok _ =>
      let H1 := fresh "Hc" in apply check_Ok in H as [H1 H]; simplify_eq/=
  | ret _ _ = Ok _ => apply ret_Ok in H; simplify_eq/=
  | fail _ _ = Ok _ => discriminate H
  | query _ _ = Ok _ => unfold query in H; simplify_eq/=
  | execute _ _ = Ok _ => unfold execute in H; simplify_eq/=
  | now_ms _ = Ok _ => unfold now_ms in H; simplify_eq/=
  | random_hex _ _ = Ok _ => unfold random_hex in H; simplify_eq/=
  | require _ _ _ = Ok _ =>
      let a := fresh "v" in let H1 := fresh "Hr" in
      apply require_Ok in H as (a & H1 & H); simplify_eq/=
  | lift _ _ = Ok _ =>
      let a := fresh "v" in let H1 := fresh "Hl" in
      apply lift_Ok in H as (a & H1 & H); simplify_eq/=
  | or_exists _ _ _ = Ok _ => apply or_exists_Ok in H; inv_tx0 H
  | check_org _ _ _ = Ok _ => unfold check_org in H; inv_tx0 H
  | insert_row _ _ _ _ _ _ _ = Ok _ =>
      let H1 := fresh "Hchk" in let H2 := fresh "Huniq" in let H3 := fresh "Href" in
      apply insert_row_Ok in H as (H1 & H2 & H3 & H); simplify_eq/=
  | _ => idtac
  end.

(** An audit entry changes the log and its counter only. *)
Lemma audit_insert_Ok `{System} intent op corr c a c' :
  audit_insert intent op corr c = Ok (a, c') →
  ∃ f s n, c' = mk_Conn (set_seq s (upd_audit_log f (c_db c))) n.
Proof.
  intros Hx. unfold audit_insert in Hx. inv_tx0 Hx.
  destruct (db_seq (c_db c)) as [[[? ?] ?] ?]. inv_tx0 Hx. by eexists _, _, _.
Qed.

Lemma audit_in_Ok `{System} intent c a c' :
  audit_in intent c = Ok (a, c') → ∃ f s n, c' = mk_Conn (set_seq s (upd_audit_log f (c_db c))) n.
Proof. intros Hx. unfold audit_in in Hx. inv_tx0 Hx. by eapply audit_insert_Ok. Qed.

(** Takes [H : m c = Ok r] apart. *)
Ltac inv_tx H :=
  lazymatch type of H with
  | bind _ _ _ = Ok _ =>
      let a := fresh "a" in let c := fresh "c" in let H1 := fresh "H" in
      apply bind_Ok in H as (a & c & H1 & H); inv_tx H1; inv_tx H
  | check _ _ _ = Ok _ =>
      let H1 := fresh "Hc" in apply check_Ok in H as [H1 H]; simplify_eq/=
  | ret _ _ = Ok _ => apply ret_Ok in H; simplify_eq/=
  | fail _ _ = Ok _ => discriminate H
  | query _ _ = Ok _ => unfold query in H; simplify_eq/=
  | execute _ _ = Ok _ => unfold execute in H; simplify_eq/=
  | now_ms _ = Ok _ => unfold now_ms in H; simplify_eq/=
  | random_hex _ _ = Ok _ => unfold random_hex in H; simplify_eq/=
  | require _ _ _ = Ok _ =>
      let a := fresh "v" in let H1 := fresh "Hr" in
      apply require_Ok in H as (a & H1 & H); simplify_eq/=
  | lift _ _ = Ok _ =>
      let a := fresh "v" in let H1 := fresh "Hl" in
      apply lift_Ok in H as (a & H1 & H); simplify_eq/=
  | or_exists _ _ _ = Ok _ => apply or_exists_Ok in H; inv_tx H
  | check_org _ _ _ = Ok _ => unfold check_org in H; inv_tx H
  | insert_row _ _ _ _ _ _ _ = Ok _ =>
      let H1 := fresh "Hchk" in let H2 := fresh "Huniq" in let H3 := fresh "Href" in
      apply insert_row_Ok in H as (H1 & H2 & H3 & H); simplify_eq/=
  | audit_insert _ _ _ _ = Ok _ =>
      let f := fresh "f" in let s := fresh "s" in let n := fresh "n" in
      apply audit_insert_Ok in H as (f & s & n & H); simplify_eq/=
  | audit_in _ _ = Ok _ =>
      let f := fresh "f" in let s := fresh "s" in let n := fresh "n" in
      apply audit_in_Ok in H as (f & s & n & H); simplify_eq/=
  | _ => idtac
  end.

(** ** Relations between the databases before and after *)

Definition tx_rel (R : relation Db) {A} (m : tx A) : Prop :=
  ∀ c a c', m c = Ok (a, c') → R (c_db c) (c_db c').

Section tx_rel.
Context (R : relation Db) `{!PreOrder R}.

Lemma tx_rel_ret {A} (a : A) : tx_rel R (ret a).
Proof. intros c b c' H. by inv_tx H. Qed.

Lemma tx_rel_fail {A} e : tx_rel R (fail (A := A) e).
Proof. by intros c a c' H. Qed.

Lemma tx_rel_bind {A B} (m : tx A) (k : A → tx B) :
  tx_rel R m → (∀ a, tx_rel R (k a)) → tx_rel R (bind m k).
Proof.
  intros Hm Hk c b c' (a & c1 & H1 & H2)%bind_Ok. etrans; [by eapply Hm|]. by eapply Hk.
Qed.

Lemma tx_rel_query {A} (f : Db → A) : tx_rel R (query f).
Proof. intros c a c' H. by inv_tx H. Qed.

Lemma tx_rel_execute f : (∀ d, R d (f d)) → tx_rel R (execute f).
Proof. intros Hf c a c' H. inv_tx H. apply Hf. Qed.

Lemma tx_rel_check b e : tx_rel R (check b e).
Proof. intros c a c' H. by inv_tx H. Qed.

Lemma tx_rel_lift {A} (r : result A StoreError) : tx_rel R (lift r).
Proof. intros c a c' H. by inv_tx H. Qed.

Lemma tx_rel_require {A} (o : option A) e : tx_rel R (require o e).
Proof. intros c a c' H. by inv_tx H. Qed.

Lemma tx_rel_or_exists {A} (m : tx A) e : tx_rel R m → tx_rel R (or_exists m e).
Proof. intros Hm c a c' H%or_exists_Ok. by eapply Hm. Qed.

Lemma tx_rel_attempt {A} (m : tx A) : tx_rel R m → tx_rel R (attempt m).
Proof.
  intros Hm c r c' H. apply attempt_Ok in H as [(a & c1 & H & [= -> ->])|(e & H & [= -> ->])]; [|done].
  by eapply Hm.
Qed.

Lemma tx_rel_for_each {A} (f : A → tx unit) l : (∀ x, tx_rel R (f x)) → tx_rel R (for_each f l).
Proof. intros Hf. induction l; [apply tx_rel_ret|]. by apply tx_rel_bind. Qed.

Lemma tx_rel_fold_each {A S} (f : S → A → tx S) s l :
  (∀ s x, tx_rel R (f s x)) → tx_rel R (fold_each f s l).
Proof.
  intros Hf. revert s. induction l; intros s; [apply tx_rel_ret|]. by apply tx_rel_bind.
Qed.

Lemma tx_rel_insert {A} table upd checked unique referenced (row : A) :
  (∀ d, checked d = true → unique d = true → referenced d = true → R d (upd (λ t, t ++ [row]) d)) →
  tx_rel R (insert_row table upd checked unique referenced row).
Proof. intros Hi c a c' H. inv_tx H. by apply Hi. Qed.

Lemma tx_rel_check_org org org' : tx_rel R (check_org org org').
Proof. apply tx_rel_check. Qed.

Context `{System}.

Lemma tx_rel_now : tx_rel R now_ms.
Proof. intros c a c' Hx. by inv_tx Hx. Qed.

Lemma tx_rel_random n : tx_rel R (random_hex n).
Proof. intros c a c' Hx. by inv_tx Hx. Qed.

(** An audit entry only adds to the log. *)
Lemma tx_rel_audit intent op corr :
  (∀ d f s, R d (set_seq s (upd_audit_log f d))) → tx_rel R (audit_insert intent op corr).
Proof.
  intros Ha c a c' Hx. inv_tx Hx. apply Ha.
Qed.

Lemma tx_rel_audit_in intent :
  (∀ d f s, R d (set_seq s (upd_audit_log f d))) → tx_rel R (audit_in intent).
Proof. intros Ha. apply tx_rel_bind; [by apply tx_rel_audit|]. intros ?. apply tx_rel_ret. Qed.
End tx_rel.

(** A step whose result satisfies [P]. *)
Lemma tx_rel_bind_post {A B} (R : relation Db) `{!PreOrder R} (P : A → Prop) (m : tx A) (k : A → tx B) :
  tx_rel R m → (∀ c a c', m c = Ok (a, c') → P a) → (∀ a, P a → tx_rel R (k a)) → tx_rel R (bind m k).
Proof.
  intros Hm Hp Hk c b c' (a & c1 & H1 & H2)%bind_Ok. etrans; [by apply (Hm _ _ _ H1)|].
  by apply (Hk a (Hp _ _ _ H1) _ _ _ H2).
Qed.

Lemma tx_rel_impl {A} (R S : relation Db) (m : tx A) :
  (∀ d d', R d d' → S d d') → tx_rel R m → tx_rel S m.
Proof. intros Hi Hm c a c' H. by eapply Hi, Hm. Qed.

Create HintDb tx.
#[export] Hint Extern 1 (PreOrder _) => (split; [intros ?; done|intros ???; naive_solver]) : tx.

(** Reduces [tx_rel R m] to its writes. *)
Ltac tx_step :=
  lazymatch goal with
  | |- tx_rel _ (bind _ _) => apply tx_rel_bind; [try apply _| |intros ?]
  | |- tx_rel _ (ret _) => apply tx_rel_ret; apply _
  | |- tx_rel _ (fail _) => apply tx_rel_fail
  | |- tx_rel _ (query _) => apply tx_rel_query; apply _
  | |- tx_rel _ (check _ _) => apply tx_rel_check; apply _
  | |- tx_rel _ (check_org _ _) => apply tx_rel_check_org; apply _
  | |- tx_rel _ (lift _) => apply tx_rel_lift; apply _
  | |- tx_rel _ (require _ _) => apply tx_rel_require; apply _
  | |- tx_rel _ (or_exists _ _) => apply tx_rel_or_exists
  | |- tx_rel _ (attempt _) => apply tx_rel_attempt; [apply _|]
  | |- tx_rel _ (for_each _ _) => apply tx_rel_for_each; [apply _|intros ?]
  | |- tx_rel _ (fold_each _ _ _) => apply tx_rel_fold_each; [apply _|intros ? ?]
  | |- tx_rel _ now_ms => apply tx_rel_now; apply _
  | |- tx_rel _ (random_hex _) => apply tx_rel_random; apply _
  | |- tx_rel _ (execute _) => apply tx_rel_execute; intros ?
  | |- tx_rel _ (insert_row _ _ _ _ _ _) => apply tx_rel_insert; intros ? ? ? ?
  | |- tx_rel _ (audit_in _) => apply tx_rel_audit_in; [apply _|intros ? ? ?]
  | |- tx_rel _ (audit_insert _ _ _) => apply tx_rel_audit; intros ? ? ?
  | |- tx_rel _ (match ?x with _ => _ end) => destruct x
  | |- tx_rel _ _ => solve [eauto with tx]
  end.
Ltac tx_steps := repeat tx_step.

(** Transactions that only read. *)
Abbreviation reads := (tx_rel eq).

#[export] Instance eq_PreOrder {A} : PreOrder (@eq A).
Proof. split; [intros ?; done|intros ???; congruence]. Qed.

Lemma reads_rel {A} (R : relation Db) `{!PreOrder R} (m : tx A) : reads m → tx_rel R m.
Proof. intros Hm c a c' H. rewrite (Hm _ _ _ H). done. Qed.

(** The database after a reading step is the one before. *)
Ltac settle H :=
  lazymatch type of H with
  | ?m ?c = Ok (?a, ?c') =>
      let E := fresh "E" in
      assert (c_db c = c_db c') as E by
        (let Hr := fresh in assert (reads m) as Hr by (solve [eauto with tx]); exact (Hr _ _ _ H));
      is_var c'; let d' := fresh "d" in destruct c' as [d' ?]; simpl in E; subst d'
  end.

(** ** Statements on tables *)

Section tables.
Context {A : Type}.
Implicit Types (p : A → bool) (t : list A).

Lemma select_one_Some p t r : select_one p t = Some r → r ∈ t ∧ p r = true.
Proof. apply find_Some. Qed.

Lemma select_one_None p t : select_one p t = None ↔ ∀ r, r ∈ t → p r = false.
Proof. apply find_None. Qed.

Lemma elem_of_select p t r : r ∈ select p t ↔ r ∈ t ∧ p r = true.
Proof. unfold select. rewrite list_elem_of_filter. naive_solver. Qed.

Lemma elem_of_update p f t r :
  r ∈ update p f t ↔ ∃ r0, r0 ∈ t ∧ r = (if p r0 then f r0 else r0).
Proof. unfold update. rewrite list_elem_of_fmap. naive_solver. Qed.

Lemma elem_of_delete p t r : r ∈ delete_rows p t ↔ r ∈ t ∧ p r = false.
Proof. unfold delete_rows. rewrite list_elem_of_filter. naive_solver. Qed.

(** A column that an update does not change. *)
Lemma update_column {B} (g : A → B) p f t : (∀ r, g (f r) = g r) → g <$> update p f t = g <$> t.
Proof.
  intros Hg. unfold update. rewrite <- list_fmap_compose. apply list_fmap_ext.
  intros i r _. simpl. destruct (p r); [apply Hg|done].
Qed.

Lemma delete_column_NoDup {B} (g : A → B) p t : NoDup (g <$> t) → NoDup (g <$> delete_rows p t).
Proof. apply NoDup_fmap_filter. Qed.

Lemma existsb_false p t : existsb p t = false ↔ ∀ r, r ∈ t → p r = false.
Proof.
  split.
  - intros H r Hr. destruct (p r) eqn:E; [|done].
    rewrite <- H. symmetry. apply existsb_exists. exists r. by rewrite <- list_elem_of_In.
  - intros H. destruct (existsb p t) eqn:E; [|done].
    apply existsb_exists in E as (r & Hr%list_elem_of_In & Hp). by rewrite H in Hp.
Qed.

Lemma existsb_true p t : existsb p t = true ↔ ∃ r, r ∈ t ∧ p r = true.
Proof. rewrite existsb_exists. by setoid_rewrite list_elem_of_In. Qed.

(** Inserting a row with a new key. *)
Lemma insert_column_NoDup {B} (g : A → B) t row :
  NoDup (g <$> t) → (∀ r, r ∈ t → g r ≠ g row) → NoDup (g <$> t ++ [row]).
Proof.
  intros Hn Hf. rewrite fmap_app. apply NoDup_app. split_and!; [done| |apply NoDup_singleton].
  intros x (r & -> & Hr)%list_elem_of_fmap [= Hx]%list_elem_of_singleton. by eapply Hf.
Qed.

(** In a table whose key is unique, a row is known by its key. *)
Lemma row_of_key {B} (g : A → B) t r s :
  NoDup (g <$> t) → r ∈ t → s ∈ t → g r = g s → r = s.
Proof.
  induction t as [|x t IH]; intros Hn Hr Hs He; [by apply not_elem_of_nil in Hr|].
  simpl in Hn. apply NoDup_cons in Hn as [Hx Hn].
  apply elem_of_cons in Hr as [->|Hr], Hs as [->|Hs]; [done| | |by apply IH].
  - destruct Hx. rewrite He. by apply list_elem_of_fmap_2.
  - destruct Hx. rewrite <- He. by apply list_elem_of_fmap_2.
Qed.

(** In a table whose key is unique, a lookup by key finds the row. *)
Lemma select_key {B} `{EqDecision B} (g : A → B) p t r :
  NoDup (g <$> t) → (∀ x y, p x = true → p y = true → g x = g y) →
  r ∈ t → p r = true → select_one p t = Some r.
Proof.
  intros Hn Hp. induction t as [|x t IH]; intros Hr Hpr; [by apply not_elem_of_nil in Hr|].
  simpl in *. apply NoDup_cons in Hn as [Hx Hn].
  apply elem_of_cons in Hr as [->|Hr]; [by rewrite Hpr|].
  destruct (p x) eqn:Ex; [|by apply IH]. exfalso. apply Hx. rewrite (Hp x r) by done.
  by apply list_elem_of_fmap_2.
Qed.

(** Lookups after each statement. *)
Lemma select_one_app p t row :
  select_one p (t ++ [row]) =
  match select_one p t with Some r => Some r | None => if p row then Some row else None end.
Proof.
  unfold select_one. induction t as [|x t IH]; simpl; [by destruct (p row)|]. by destruct (p x).
Qed.

Lemma select_one_update p q f t :
  (∀ r, p (f r) = p r) →
  select_one p (update q f t) = (λ r, if q r then f r else r) <$> select_one p t.
Proof.
  intros Hf. unfold select_one, update. induction t as [|x t IH]; simpl; [done|].
  assert (p (if q x then f x else x) = p x) as -> by (destruct (q x); auto).
  by destruct (p x).
Qed.

Lemma select_one_delete p q t :
  (∀ r, p r = true → q r = false) → select_one p (delete_rows q t) = select_one p t.
Proof.
  intros Hq. unfold select_one, delete_rows. induction t as [|x t IH]; simpl; [done|].
  destruct (p x) eqn:Ep.
  - rewrite filter_cons_True by auto. simpl. by rewrite Ep.
  - rewrite filter_cons. case_decide; simpl; [by rewrite Ep|done].
Qed.

Lemma select_one_deleted p q t :
  (∀ r, p r = true → q r = true) → select_one p (delete_rows q t) = None.
Proof.
  intros Hq. apply select_one_None. intros r [Hr Hqr]%elem_of_delete.
  destruct (p r) eqn:E; [|done]. by rewrite Hq in Hqr.
Qed.
End tables.
