(* ===== verification/Identity.v ===== *)
(** * Principals, roles and credentials ([crates/store/src/identity.rs], [sqlite_identity.rs])

    Members of the organization with their roles, the authority checks that guard every
    change to them, API tokens, sessions, invitations and external identities. Each method
    of the source's [IdentityStore] is a transaction here; the parameter [org] of the inner
    functions is the installation's organization, which [check_org] has compared. *)

From Stdlib Require Import Ascii.
From stdpp Require Import base sets strings list.
From S2P Require Import Prelude Strings OrdMap Json Db.

Local Open Scope string_scope.
Local Open Scope Z_scope.
Local Open Scope list_scope.

(** ** Roles *)

Inductive OrgRole := Administrator | Manager | Member | OrgViewer.
#[export] Instance OrgRole_eq_dec : EqDecision OrgRole.
Proof. solve_decision. Defined.

Definition org_role_as_str (r : OrgRole) : string :=
  match r with
  | Administrator => "administrator"
  | Manager => "manager"
  | Member => "member"
  | OrgViewer => "orgViewer"
  end.

Definition org_role_parse (s : string) : option OrgRole :=
  if String.eqb s "administrator" then Some Administrator
  else if String.eqb s "manager" then Some Manager
  else if String.eqb s "member" then Some Member
  else if String.eqb s "orgViewer" then Some OrgViewer
  else None.

(** Ordered from weakest to strongest. *)
Inductive AppRole := Viewer | Developer | Owner.
#[export] Instance AppRole_eq_dec : EqDecision AppRole.
Proof. solve_decision. Defined.

Definition app_role_as_str (r : AppRole) : string :=
  match r with Viewer => "viewer" | Developer => "developer" | Owner => "owner" end.

Definition app_role_parse (s : string) : option AppRole :=
  if String.eqb s "viewer" then Some Viewer
  else if String.eqb s "developer" then Some Developer
  else if String.eqb s "owner" then Some Owner
  else None.

Definition app_role_rank (r : AppRole) : nat :=
  match r with Viewer => 0 | Developer => 1 | Owner => 2 end.
Definition app_role_leb (a b : AppRole) : bool := (app_role_rank a <=? app_role_rank b)%nat.

(** [role >= Some(least)] on an optional role: nothing is below every role. *)
Definition at_least (least : AppRole) (role : option AppRole) : bool :=
  match role with Some r => app_role_leb least r | None => false end.

(** ** Records *)

Record Principal := mk_Principal {
  p_id : string; p_kind : string; p_name : string; p_email : option string;
  p_role : OrgRole; p_identity : option string; p_created_at : Z; p_created_by : option string
}.

Record NewPrincipal := mk_NewPrincipal {
  np_id : string; np_kind : string; np_name : string; np_email : option string; np_role : OrgRole
}.

Record TokenInfo := mk_TokenInfo {
  ti_id : string; ti_description : option string; ti_expires_at : option Z; ti_created_at : Z;
  ti_created_by : string; ti_last_used_at : option Z; ti_revoked_at : option Z
}.

(** The roles of a principal at every level. *)
Record Roles := mk_Roles {
  r_org : option OrgRole; r_apps : list (string * AppRole); r_deployer : list string
}.

Definition default_roles : Roles := mk_Roles None [] [].

Record Invitation := mk_Invitation {
  in_id : string; in_role : OrgRole; in_email : option string; in_provider : option string;
  in_subject : option string; in_login : option string; in_expires_at : Z; in_created_at : Z;
  in_created_by : string; in_consumed_at : option Z
}.

Record NewInvitation := mk_NewInvitation {
  ni_id : string; ni_role : OrgRole; ni_email : option string; ni_provider : option string;
  ni_subject : option string; ni_login : option string; ni_code_hash : string; ni_expires_at : Z
}.

Record ExternalIdentity := mk_ExternalIdentity {
  ei_provider : string; ei_subject : string; ei_login : option string;
  ei_verified_emails : list string; ei_name : string
}.

Record AuditFilter := mk_AuditFilter {
  af_from : option Z; af_to : option Z; af_user_id : option string;
  af_path_prefix : option string; af_method : option string; af_before : option Z; af_limit : Z
}.

(** ** Reading principals *)

Definition is_principal (id : string) (r : PrincipalRow) : bool := String.eqb (pr_id r) id.

(** The identity column of [PRINCIPAL_COLUMNS]: [provider:subject]. *)
Definition principal_identity (d : Db) (id : string) : option string :=
  (λ i, idn_provider i +:+ ":" +:+ idn_subject i)
    <$> select_one (λ i, String.eqb (idn_principal i) id) (db_identities d).

Definition principal_from_row (d : Db) (r : PrincipalRow) : result Principal StoreError :=
  let? role := ok_or (org_role_parse (pr_org_role r)) (Corrupt ("role " +:+ quoted (pr_org_role r))) in
  Ok (mk_Principal (pr_id r) (pr_type r) (pr_name r) (pr_email r) role
        (principal_identity d (pr_id r)) (pr_created_at r) (pr_created_by r)).

Definition fetch_principal (id : string) : tx (option Principal) :=
  let* d := query (λ d, d) in
  match select_one (is_principal id) (db_principals d) with
  | None => ret None
  | Some r => let* p := lift (principal_from_row d r) in ret (Some p)
  end.

Definition require_principal (id : string) : tx Principal :=
  let* p := fetch_principal id in
  require p (NotFound ("user " +:+ quoted id)).

Definition principal_type_ok (kind : string) : bool :=
  String.eqb kind "user" || String.eqb kind "service".

(** Fails with a conflict if the change would leave no administrator. *)
Definition guard_last_admin (id : string) : tx unit :=
  let* others := query (λ d, select (λ r, String.eqb (pr_org_role r) "administrator"
                                        && negb (is_principal id r)) (db_principals d)) in
  check (negb (Nat.eqb (length others) 0))
    (Conflict "the organization must keep at least one administrator").

(** A principal's roles at every level; empty for non-members. *)
Definition roles_in (principal : string) : tx Roles :=
  let* p := fetch_principal principal in
  match p with
  | None => ret default_roles
  | Some p =>
      query (λ d,
        mk_Roles (Some (p_role p))
          (bt_of_list (filter_map
            (λ r, (λ role, (ar_app r, role)) <$> app_role_parse (ar_role r))
            (select (λ r, String.eqb (ar_principal r) principal) (db_app_roles d))))
          (bs_of_list (er_env_type
            <$> select (λ r, String.eqb (er_principal r) principal) (db_env_type_roles d))))
  end.

(** ** Authority *)

Definition is_administrator (r : option OrgRole) : bool := bool_decide (r = Some Administrator).

(** Whether an organization role may be held by someone acting on behalf of [issuer]. *)
Definition org_role_covers (issuer target : OrgRole) : bool :=
  bool_decide (issuer = Administrator) || bool_decide (target = Member)
  || bool_decide (issuer = target).

Definition apps_covered (issuer target : Roles) : bool :=
  forallb (λ kr : string * AppRole,
    match bt_get kr.1 (r_apps issuer) with
    | Some r => app_role_leb kr.2 r
    | None => false
    end) (r_apps target).

(** Whether [issuer] holds at least every permission [target] holds. *)
Definition covers (issuer target : Roles) : bool :=
  if is_administrator (r_org issuer) then true
  else match r_org issuer, r_org target with
       | Some i, Some t =>
           org_role_covers i t && apps_covered issuer target
           && forallb (λ t, bs_mem t (r_deployer issuer)) (r_deployer target)
       | _, _ =>
           is_none (r_org target)
           && match r_apps target with [] => true | _ => false end
           && match r_deployer target with [] => true | _ => false end
       end.

Definition authority_denied (actor : string) : StoreError :=
  Forbidden (quoted actor +:+ " does not hold every permission this change would grant or affect").

Definition check_authority_for (actor target : option string) (resulting : option OrgRole)
    (removal : bool) : tx unit :=
  match actor with
  | None => ret tt
  | Some actor =>
      let* issuer := roles_in actor in
      if is_administrator (r_org issuer) then ret tt
      else
        check (bool_decide (r_org issuer = Some Manager)) (authority_denied actor);;
        let* current := match target with Some t => roles_in t | None => ret default_roles end in
        check (negb (is_administrator (r_org current) || (negb removal && negb (covers issuer current))))
          (authority_denied actor);;
        match resulting with
        | None => ret tt
        | Some role =>
            let after := mk_Roles (Some role) (r_apps current) (r_deployer current) in
            check (negb (bool_decide (role = Administrator) || negb (covers issuer after)))
              (authority_denied actor)
        end
  end.

Definition check_authority (actor target : option string) (resulting : option OrgRole) : tx unit :=
  check_authority_for actor target resulting false.

Definition check_removal_authority (actor : option string) (target : string) : tx unit :=
  check_authority_for actor (Some target) None true.

Definition check_app_authority (actor : option string) (app : string) : tx unit :=
  match actor with
  | None => ret tt
  | Some actor =>
      let* roles := roles_in actor in
      check (is_administrator (r_org roles) || bool_decide (bt_get app (r_apps roles) = Some Owner))
        (Forbidden (quoted actor +:+ " is not `owner` on " +:+ quoted app))
  end.

Definition not_developer (actor app : string) : StoreError :=
  Forbidden (quoted actor +:+ " is not `developer` or `owner` on " +:+ quoted app).

Definition requires_deployer (env_type : string) : StoreError :=
  Forbidden ("requires the `deployer` role on environment type " +:+ quoted env_type).

Definition check_configure_authority (actor : option string) (app : string) : tx unit :=
  let* exists_ := query (λ d, select_one (λ a, String.eqb (ap_id a) app) (db_apps d)) in
  check (is_some exists_) (NotFound ("application " +:+ quoted app));;
  match actor with
  | None => ret tt
  | Some actor =>
      let* roles := roles_in actor in
      check (is_administrator (r_org roles) || at_least Developer (bt_get app (r_apps roles)))
        (not_developer actor app)
  end.

Definition check_values_authority (actor : option string) (app : string) (env : option string)
    : tx unit :=
  check_configure_authority actor app;;
  match actor with
  | None => ret tt
  | Some actor =>
      let* roles := roles_in actor in
      if is_administrator (r_org roles) then ret tt
      else
        let* types := query (λ d, bs_of_list (en_type <$> select (λ e, String.eqb (en_app e) app
          && match env with None => true | Some i => String.eqb (en_id e) i end) (db_envs d))) in
        match find (λ t, negb (bs_mem t (r_deployer roles))) types with
        | None => ret tt
        | Some t => fail (requires_deployer t)
        end
  end.

Definition check_env_authority (actor : option string) (app env_type : string) : tx unit :=
  match actor with
  | None => ret tt
  | Some actor =>
      let* roles := roles_in actor in
      if is_administrator (r_org roles) then ret tt
      else
        check (at_least Developer (bt_get app (r_apps roles))) (not_developer actor app);;
        check (bs_mem env_type (r_deployer roles)) (requires_deployer env_type)
  end.

Definition check_admin_authority (actor : option string) : tx unit :=
  match actor with
  | None => ret tt
  | Some actor =>
      let* roles := roles_in actor in
      check (is_administrator (r_org roles)) (Forbidden (quoted actor +:+ " is not an administrator"))
  end.

Definition check_create_app_authority (actor : option string) : tx unit :=
  match actor with
  | None => ret tt
  | Some actor =>
      let* roles := roles_in actor in
      check (match r_org roles with Some Administrator | Some Manager => true | _ => false end)
        (Forbidden (quoted actor +:+ " is not an administrator or manager"))
  end.

(** ** The identity store *)

Section methods.
Context `{System} (store_org : string).

Abbreviation check_org := (check_org store_org).

Definition insert_principal (p : NewPrincipal) (created_by : option string) : tx unit :=
  let* now := now_ms in
  or_exists
    (insert_row db_principals upd_principals (λ _, principal_type_ok (np_kind p))
      (λ d, negb (existsb (is_principal (np_id p)) (db_principals d))) (λ _, true)
      (mk_PrincipalRow (np_id p) (np_kind p) (np_name p) (np_email p)
        (org_role_as_str (np_role p)) now created_by))
    (AlreadyExists ("user " +:+ quoted (np_id p))).

Definition create_principal (org : string) (principal : NewPrincipal) (audit : AuditIntent)
    : tx Principal :=
  check_org org;;
  check_authority (ai_actor audit) None (Some (np_role principal));;
  insert_principal principal (ai_actor audit);;
  audit_in audit;;
  require_principal (np_id principal).

(** Whether a principal of this ID exists, which the foreign keys require. *)
Definition has_principal (id : string) (d : Db) : bool := existsb (is_principal id) (db_principals d).

Definition is_token (principal id : string) (t : TokenRow) : bool :=
  String.eqb (tk_principal t) principal && String.eqb (tk_id t) id.

Definition insert_token (row : TokenRow) : tx unit :=
  insert_row db_api_tokens upd_api_tokens (λ _, true)
    (λ d, negb (existsb (λ t, is_token (tk_principal row) (tk_id row) t
                              || String.eqb (tk_token_hash t) (tk_token_hash row))
                  (db_api_tokens d)))
    (has_principal (tk_principal row)) row.

Definition bootstrap_admin : NewPrincipal :=
  mk_NewPrincipal "bootstrap" "service" "Bootstrap administrator" None Administrator.

Definition create_bootstrap_admin (org token_hash : string) (expires_at : Z) (audit : AuditIntent)
    : tx Principal :=
  check_org org;;
  insert_principal bootstrap_admin None;;
  let* now := now_ms in
  insert_token (mk_TokenRow "bootstrap" "bootstrap" (Some "Created on first start") token_hash
    (Some expires_at) now "system" None None);;
  audit_in audit;;
  require_principal "bootstrap".

Definition principal (org id : string) : tx (option Principal) :=
  check_org org;; fetch_principal id.

Definition principals (org : string) : tx (list Principal) :=
  check_org org;;
  let* d := query (λ d, d) in
  lift (try_map (principal_from_row d) (sort_by_key pr_id (db_principals d))).

Definition set_org_role_column (id : string) (role : OrgRole) : tx unit :=
  execute (upd_principals (update (is_principal id) (λ r,
    mk_PrincipalRow (pr_id r) (pr_type r) (pr_name r) (pr_email r) (org_role_as_str role)
      (pr_created_at r) (pr_created_by r)))).

Definition set_name_column (id name : string) : tx unit :=
  execute (upd_principals (update (is_principal id) (λ r,
    mk_PrincipalRow (pr_id r) (pr_type r) name (pr_email r) (pr_org_role r)
      (pr_created_at r) (pr_created_by r)))).

(** The guard of a role change: demoting an administrator must leave another one. *)
Definition guard_demotion (id : string) (current role : OrgRole) : tx unit :=
  if bool_decide (current = Administrator) && negb (bool_decide (role = Administrator))
  then guard_last_admin id else ret tt.

Definition set_org_role (org id : string) (role : OrgRole) (audit : AuditIntent) : tx Principal :=
  check_org org;;
  let* current := require_principal id in
  check_authority (ai_actor audit) (Some id) (Some role);;
  guard_demotion id (p_role current) role;;
  set_org_role_column id role;;
  audit_in audit;;
  require_principal id.

Definition update_principal (org id : string) (role : option OrgRole) (name : option string)
    (audit : AuditIntent) : tx Principal :=
  check_org org;;
  let* current := require_principal id in
  check_authority (ai_actor audit) (Some id) role;;
  match role with
  | Some role => guard_demotion id (p_role current) role;; set_org_role_column id role
  | None => ret tt
  end;;
  match name with Some name => set_name_column id name | None => ret tt end;;
  audit_in audit;;
  require_principal id.

(** [DELETE FROM principals], with the rows that reference the principal [ON DELETE CASCADE]. *)
Definition delete_principal (id : string) : tx unit :=
  execute (λ d,
    upd_principals (delete_rows (is_principal id))
    (upd_identities (delete_rows (λ r, String.eqb (idn_principal r) id))
    (upd_api_tokens (delete_rows (λ r, String.eqb (tk_principal r) id))
    (upd_sessions (delete_rows (λ r, String.eqb (se_principal r) id))
    (upd_app_roles (delete_rows (λ r, String.eqb (ar_principal r) id))
    (upd_env_type_roles (delete_rows (λ r, String.eqb (er_principal r) id)) d)))))).

Definition remove_principal (org id : string) (audit : AuditIntent) : tx unit :=
  check_org org;;
  let* current := require_principal id in
  check_removal_authority (ai_actor audit) id;;
  (if bool_decide (p_role current = Administrator) then guard_last_admin id else ret tt);;
  delete_principal id;;
  audit_in audit.

Definition is_identity (provider subject : string) (r : IdentityRow) : bool :=
  String.eqb (idn_provider r) provider && String.eqb (idn_subject r) subject.

Definition insert_identity (row : IdentityRow) : tx unit :=
  insert_row db_identities upd_identities (λ _, true)
    (λ d, negb (existsb (λ r, is_identity (idn_provider row) (idn_subject row) r
                              || String.eqb (idn_principal r) (idn_principal row))
                  (db_identities d)))
    (has_principal (idn_principal row)) row.

(** [SET revoked_at = COALESCE(revoked_at, now)]. *)
Definition revoke_session_row (now : Z) (r : SessionRow) : SessionRow :=
  mk_SessionRow (se_jti r) (se_principal r) (se_issued_at r) (se_expires_at r)
    (coalesce (se_revoked_at r) (Some now)).

Definition set_identity (org id provider subject : string) (audit : AuditIntent) : tx Principal :=
  check_org org;;
  let* current := require_principal id in
  check_admin_authority (ai_actor audit);;
  check (String.eqb (p_kind current) "user")
    (Invalid "only users have an identity; service users authenticate with tokens");;
  let* linked := query (λ d, idn_principal
    <$> select_one (is_identity provider subject) (db_identities d)) in
  check (match linked with Some other => String.eqb other id | None => true end)
    (Conflict "this identity already belongs to another member");;
  let* now := now_ms in
  execute (upd_identities (delete_rows (λ r, String.eqb (idn_principal r) id)));;
  insert_identity (mk_IdentityRow provider subject id None (p_email current) now);;
  execute (upd_sessions (update (λ r, String.eqb (se_principal r) id) (revoke_session_row now)));;
  audit_in audit;;
  require_principal id.

Definition roles (org principal : string) : tx Roles :=
  check_org org;; roles_in principal.

(** *** Tokens *)

Definition token_from_row (r : TokenRow) : TokenInfo :=
  mk_TokenInfo (tk_id r) (tk_description r) (tk_expires_at r) (tk_created_at r)
    (tk_created_by r) (tk_last_used_at r) (tk_revoked_at r).

(** Who may create tokens of [target]: its principal, or for a service user those the
    delegation ceiling allows. *)
Definition check_token_authority (actor : option string) (target : Principal) (id : string)
    : tx unit :=
  match actor with
  | Some a =>
      if String.eqb a id then ret tt
      else if negb (String.eqb (p_kind target) "service") then
        fail (Forbidden "tokens of a user can only be created by that user")
      else check_authority actor (Some id) None
  | None => check_authority None (Some id) None
  end.

Definition create_token (org principal id : string) (description : option string)
    (expires_at : option Z) (token_hash : string) (audit : AuditIntent) : tx TokenInfo :=
  check_org org;;
  let created_by := option_default "system" (ai_actor audit) in
  let* target := require_principal principal in
  check_token_authority (ai_actor audit) target principal;;
  let* now := now_ms in
  or_exists
    (insert_token (mk_TokenRow principal id description token_hash expires_at now created_by
       None None))
    (AlreadyExists ("token " +:+ quoted id));;
  audit_in audit;;
  let* row := query (λ d, select_one (is_token principal id) (db_api_tokens d)) in
  let* row := require row (Database RowNotFound) in
  ret (token_from_row row).

Definition tokens (org principal : string) : tx (list TokenInfo) :=
  check_org org;;
  query (λ d, token_from_row <$> sort_by_key tk_id
    (select (λ t, String.eqb (tk_principal t) principal) (db_api_tokens d))).

Definition revoke_token_row (now : Z) (t : TokenRow) : TokenRow :=
  mk_TokenRow (tk_principal t) (tk_id t) (tk_description t) (tk_token_hash t) (tk_expires_at t)
    (tk_created_at t) (tk_created_by t) (tk_last_used_at t) (coalesce (tk_revoked_at t) (Some now)).

Definition check_revoke_authority (actor : option string) (principal : string) : tx unit :=
  match actor with
  | Some a =>
      if String.eqb a principal then ret tt
      else
        let* target := require_principal principal in
        let* issuer := roles_in a in
        if is_administrator (r_org issuer) then ret tt
        else
          check (String.eqb (p_kind target) "service")
            (Forbidden "tokens of a user can only be revoked by that user or an administrator");;
          check_authority (Some a) (Some principal) None
  | None => ret tt
  end.

Definition revoke_token (org principal id : string) (audit : AuditIntent) : tx unit :=
  check_org org;;
  check_revoke_authority (ai_actor audit) principal;;
  let* now := now_ms in
  let* n := query (λ d, select (is_token principal id) (db_api_tokens d)) in
  execute (upd_api_tokens (update (is_token principal id) (revoke_token_row now)));;
  check (negb (Nat.eqb (length n) 0)) (NotFound ("token " +:+ quoted id));;
  audit_in audit.

Definition TOKEN_USE_INTERVAL_MS : Z := 60000.

(** Unrevoked and unexpired. *)
Definition token_live (now : Z) (t : TokenRow) : bool :=
  is_none (tk_revoked_at t)
  && match tk_expires_at t with None => true | Some e => now <? e end.

Definition use_token_row (now : Z) (t : TokenRow) : TokenRow :=
  mk_TokenRow (tk_principal t) (tk_id t) (tk_description t) (tk_token_hash t) (tk_expires_at t)
    (tk_created_at t) (tk_created_by t) (Some now) (tk_revoked_at t).

(** [busy] is whether the database is busy when the use is recorded, which then is skipped. *)
Definition authenticate_token (busy : bool) (org token_hash : string) (now : Z)
    : tx (option Principal) :=
  check_org org;;
  let* found := query (λ d, tk_principal
    <$> select_one (λ t, String.eqb (tk_token_hash t) token_hash && token_live now t)
          (db_api_tokens d)) in
  match found with
  | None => ret None
  | Some principal =>
      (if busy then ret tt
       else execute (upd_api_tokens (update
         (λ t, String.eqb (tk_token_hash t) token_hash
               && match tk_last_used_at t with
                  | None => true
                  | Some used => used <=? now - TOKEN_USE_INTERVAL_MS
                  end)
         (use_token_row now))));;
      fetch_principal principal
  end.

(** *** Sessions *)

Definition record_session (org jti principal : string) (expires_at : Z) (audit : AuditIntent)
    : tx unit :=
  check_org org;;
  let* now := now_ms in
  insert_row db_sessions upd_sessions (λ _, true)
    (λ d, negb (existsb (λ r, String.eqb (se_jti r) jti) (db_sessions d)))
    (has_principal principal) (mk_SessionRow jti principal now expires_at None);;
  audit_in audit.

Definition session_live (jti principal : string) (now : Z) (r : SessionRow) : bool :=
  String.eqb (se_jti r) jti && String.eqb (se_principal r) principal
  && is_none (se_revoked_at r) && (now <? se_expires_at r).

Definition authenticate_session (org jti principal : string) (now : Z) : tx (option Principal) :=
  check_org org;;
  let* ok := query (λ d, select_one (session_live jti principal now) (db_sessions d)) in
  match ok with
  | None => ret None
  | Some _ => fetch_principal principal
  end.

Definition revoke_session (org jti : string) (audit : AuditIntent) : tx unit :=
  check_org org;;
  let* now := now_ms in
  execute (upd_sessions (update (λ r, String.eqb (se_jti r) jti) (revoke_session_row now)));;
  audit_in audit.

Record Sealed := mk_Sealed { sl_key_id : string; sl_nonce : string; sl_ciphertext : string }.

(** The newest of the rows: [ORDER BY created_at DESC LIMIT 1]. *)
Definition newest_key (l : list SigningKeyRow) : option SigningKeyRow :=
  foldl (λ best k, match best with
                   | Some b => if sk_created_at b <? sk_created_at k then Some k else best
                   | None => Some k
                   end) None l.

Definition signing_key (purpose algorithm : string) (generated : Sealed) : tx Sealed :=
  let* existing := query (λ d, newest_key (select
    (λ k, String.eqb (sk_purpose k) purpose && is_none (sk_retired_at k)) (db_signing_keys d))) in
  match existing with
  | Some k => ret (mk_Sealed (sk_key_id k) (sk_nonce k) (sk_ciphertext k))
  | None =>
      let* id := random_hex 16 in
      let* now := now_ms in
      insert_row db_signing_keys upd_signing_keys (λ _, true)
        (λ d, negb (existsb (λ k, String.eqb (sk_id k) id) (db_signing_keys d))) (λ _, true)
        (mk_SigningKeyRow id purpose algorithm (sl_key_id generated) (sl_nonce generated)
          (sl_ciphertext generated) now None);;
      ret generated
  end.

(** *** Invitations *)

Definition invitation_from_row (r : InvitationRow) : result Invitation StoreError :=
  let? role := ok_or (org_role_parse (iv_org_role r)) (Corrupt ("role " +:+ quoted (iv_org_role r))) in
  Ok (mk_Invitation (iv_id r) role (iv_email r) (iv_provider r) (iv_subject r) (iv_login r)
        (iv_expires_at r) (iv_created_at r) (iv_created_by r) (iv_consumed_at r)).

Definition is_invitation (id : string) (r : InvitationRow) : bool := String.eqb (iv_id r) id.

Definition create_invitation (org : string) (invitation : NewInvitation) (audit : AuditIntent)
    : tx Invitation :=
  check_org org;;
  let* created_by := require (ai_actor audit) (Conflict "invitations need an inviting principal") in
  check_authority (Some created_by) None (Some (ni_role invitation));;
  let* now := now_ms in
  insert_row db_invitations upd_invitations (λ _, true)
    (λ d, negb (existsb (is_invitation (ni_id invitation)) (db_invitations d))) (λ _, true)
    (mk_InvitationRow (ni_id invitation) (org_role_as_str (ni_role invitation))
      (ni_email invitation) (ni_provider invitation) (ni_subject invitation) (ni_login invitation)
      (ni_code_hash invitation) (ni_expires_at invitation) now created_by None None);;
  audit_in audit;;
  let* row := query (λ d, select_one (is_invitation (ni_id invitation)) (db_invitations d)) in
  let* row := require row (Database RowNotFound) in
  lift (invitation_from_row row).

Definition invitations (org : string) : tx (list Invitation) :=
  check_org org;;
  let* rows := query db_invitations in
  lift (try_map invitation_from_row (sort_by_key (λ r, - iv_created_at r) rows)).

Definition principal_by_identity (org provider subject : string) : tx (option Principal) :=
  check_org org;;
  let* id := query (λ d, idn_principal
    <$> select_one (is_identity provider subject) (db_identities d)) in
  match id with
  | Some id => fetch_principal id
  | None => ret None
  end.

(** Whether the identity is the invited one, and the email the member gets. *)
Definition invitation_matches (inv : Invitation) (identity : ExternalIdentity)
    : bool * option string :=
  match in_provider inv, in_subject inv, in_email inv with
  | Some p, Some s, _ =>
      (String.eqb p (ei_provider identity) && String.eqb s (ei_subject identity),
       head (ei_verified_emails identity))
  | _, _, Some invited =>
      match find (λ v, eq_ignore_ascii_case v invited) (ei_verified_emails identity) with
      | Some v => (true, Some v)
      | None => (false, None)
      end
  | _, _, _ => (false, None)
  end.

(** [lower(email) = lower(?)], for a column that may be null. *)
Definition email_taken (email : string) (r : PrincipalRow) : bool :=
  match pr_email r with Some e => eq_ignore_ascii_case e email | None => false end.

Definition check_email_free (email : string) : tx unit :=
  let* taken := query (λ d, select_one (email_taken email) (db_principals d)) in
  check (is_none taken)
    (Conflict ("this email already belongs to a member linked to another identity; an "
      +:+ "administrator must change that binding")).

Definition consume_invitation_row (now : Z) (user_id : string) (r : InvitationRow) : InvitationRow :=
  mk_InvitationRow (iv_id r) (iv_org_role r) (iv_email r) (iv_provider r) (iv_subject r)
    (iv_login r) (iv_code_hash r) (iv_expires_at r) (iv_created_at r) (iv_created_by r)
    (Some now) (Some user_id).

(** The checks of [accept_invitation] up to the first change: the invitation, and the email
    of the new member. *)
Definition check_invitation (code_hash : string) (identity : ExternalIdentity) (now : Z)
    : tx (Invitation * option string) :=
  let* found := query (λ d, select_one (λ r, String.eqb (iv_code_hash r) code_hash)
    (db_invitations d)) in
  let* row := require found (Conflict "an invitation is required") in
  let* inv := lift (invitation_from_row row) in
  check (is_none (in_consumed_at inv)) (Conflict "the invitation was already used");;
  check (now <? in_expires_at inv) (Conflict "the invitation has expired");;
  let* authority := attempt (check_authority (Some (in_created_by inv)) None (Some (in_role inv))) in
  check (is_ok authority) (Conflict "the invitation is no longer valid; ask for a new one");;
  let '(matches, email) := invitation_matches inv identity in
  check matches (Conflict "the invitation is for a different identity or an unverified email");;
  let* linked := query (λ d, select_one (is_identity (ei_provider identity) (ei_subject identity))
    (db_identities d)) in
  check (is_none linked) (Conflict "this identity already belongs to a user");;
  for_each check_email_free (ei_verified_emails identity);;
  ret (inv, email).

Definition accept_invitation (org code_hash : string) (identity : ExternalIdentity)
    (user_id : string) (now : Z) : tx Principal :=
  check_org org;;
  let* (inv, email) := check_invitation code_hash identity now in
  insert_principal (mk_NewPrincipal user_id "user" (ei_name identity) email (in_role inv))
    (Some (in_created_by inv));;
  insert_identity (mk_IdentityRow (ei_provider identity) (ei_subject identity) user_id
    (ei_login identity) email now);;
  execute (upd_invitations (update (is_invitation (in_id inv)) (consume_invitation_row now user_id)));;
  let audit := audit_accepted org user_id "POST"
    ("/orgs/" +:+ org +:+ "/invitations/" +:+ in_id inv) "invitation.accept" in
  audit_in (mk_AuditIntent (ai_org audit) (ai_actor audit) (ai_request_id audit) (ai_method audit)
    (ai_path audit) (ai_action audit) (Some user_id) (ai_outcome audit) (ai_status_code audit)
    (ai_reason audit));;
  require_principal user_id.

(** *** Applications and environment types, as listed *)

Definition apps (org : string) : tx (list AppRow) :=
  check_org org;; query (λ d, sort_by_key ap_id (db_apps d)).

Definition app (org id : string) : tx (option AppRow) :=
  let* l := apps org in ret (find (λ a, String.eqb (ap_id a) id) l).

Definition app_env_types (org app : string) : tx (list string) :=
  check_org org;;
  query (λ d, bs_of_list (en_type <$> select (λ e, String.eqb (en_app e) app) (db_envs d))).

Definition env_types (org : string) : tx (list EnvTypeRow) :=
  check_org org;; query (λ d, sort_by_key et_id (db_env_types d)).

Definition env_type (org id : string) : tx (option EnvTypeRow) :=
  let* l := env_types org in ret (find (λ t, String.eqb (et_id t) id) l).

(** *** Roles *)

Definition is_app_role (app principal : string) (r : AppRoleRow) : bool :=
  String.eqb (ar_app r) app && String.eqb (ar_principal r) principal.

Definition has_app (id : string) (d : Db) : bool := existsb (λ a, String.eqb (ap_id a) id) (db_apps d).
Definition has_env_type (id : string) (d : Db) : bool :=
  existsb (λ t, String.eqb (et_id t) id) (db_env_types d).

(** [INSERT INTO app_roles ... ON CONFLICT DO UPDATE SET role]. *)
Definition upsert_app_role (app principal : string) (role : AppRole) : tx unit :=
  let* old := query (λ d, existsb (is_app_role app principal) (db_app_roles d)) in
  if old then
    execute (upd_app_roles (update (is_app_role app principal)
      (λ r, mk_AppRoleRow (ar_app r) (ar_principal r) (app_role_as_str role))))
  else
    insert_row db_app_roles upd_app_roles (λ _, true) (λ _, true)
      (λ d, has_app app d && has_principal principal d)
      (mk_AppRoleRow app principal (app_role_as_str role)).

Definition set_app_role (org app principal : string) (role : AppRole) (audit : AuditIntent)
    : tx unit :=
  check_org org;;
  check_app_authority (ai_actor audit) app;;
  let* _ := require_principal principal in
  upsert_app_role app principal role;;
  audit_in audit.

Definition remove_app_role (org app principal : string) (audit : AuditIntent) : tx unit :=
  check_org org;;
  check_app_authority (ai_actor audit) app;;
  let* n := query (λ d, select (is_app_role app principal) (db_app_roles d)) in
  execute (upd_app_roles (delete_rows (is_app_role app principal)));;
  check (negb (Nat.eqb (length n) 0))
    (NotFound ("role of " +:+ quoted principal +:+ " on " +:+ quoted app));;
  audit_in audit.

Definition app_roles (org app : string) : tx (list (string * AppRole)) :=
  check_org org;;
  query (λ d, filter_map (λ r, (λ role, (ar_principal r, role)) <$> app_role_parse (ar_role r))
    (sort_by_key ar_principal (select (λ r, String.eqb (ar_app r) app) (db_app_roles d)))).

Definition is_env_type_role (env_type principal : string) (r : EnvTypeRoleRow) : bool :=
  String.eqb (er_env_type r) env_type && String.eqb (er_principal r) principal.

(** [INSERT INTO env_type_roles ... ON CONFLICT DO NOTHING]. *)
Definition insert_env_type_role (env_type principal : string) : tx unit :=
  let* old := query (λ d, existsb (is_env_type_role env_type principal) (db_env_type_roles d)) in
  if old then ret tt
  else insert_row db_env_type_roles upd_env_type_roles (λ _, true) (λ _, true)
    (λ d, has_env_type env_type d && has_principal principal d)
    (mk_EnvTypeRoleRow env_type principal "deployer").

Definition set_env_type_role (org env_type principal : string) (audit : AuditIntent) : tx unit :=
  check_org org;;
  check_admin_authority (ai_actor audit);;
  let* _ := require_principal principal in
  insert_env_type_role env_type principal;;
  audit_in audit.

Definition remove_env_type_role (org env_type principal : string) (audit : AuditIntent) : tx unit :=
  check_org org;;
  check_admin_authority (ai_actor audit);;
  let* n := query (λ d, select (is_env_type_role env_type principal) (db_env_type_roles d)) in
  execute (upd_env_type_roles (delete_rows (is_env_type_role env_type principal)));;
  check (negb (Nat.eqb (length n) 0))
    (NotFound ("role of " +:+ quoted principal +:+ " on " +:+ quoted env_type));;
  audit_in audit.

Definition env_type_roles (org env_type : string) : tx (list string) :=
  check_org org;;
  query (λ d, er_principal <$> sort_by_key er_principal
    (select (λ r, String.eqb (er_env_type r) env_type) (db_env_type_roles d))).

(** *** The audit log *)

(** The [LIKE] pattern of a path prefix: its wildcards escaped. *)
Definition prefix_pattern (p : string) : string :=
  replace "_" (String backslash "_") (replace "%" (String backslash "%")
    (replace (str1 backslash) (String backslash (str1 backslash)) p)) +:+ "%".

Definition audit_matches (filter : AuditFilter) (r : AuditRow) : bool :=
  match af_from filter with None => true | Some t => t <=? au_at r end
  && match af_to filter with None => true | Some t => au_at r <? t end
  && match af_user_id filter with None => true | Some u => sql_eq (au_actor r) (Some u) end
  && match af_path_prefix filter with
     | None => true
     | Some p => sql_like (prefix_pattern p) (au_path r)
     end
  && match af_method filter with None => true | Some m => String.eqb (au_method r) m end
  && match af_before filter with None => true | Some s => au_seq r <? s end.

Definition audit_query (org : string) (filter : AuditFilter) : tx (list AuditRow) :=
  check_org org;;
  query (λ d, take (Z.to_nat (Z.min 1000 (Z.max 1 (af_limit filter))))
    (sort_by_key (λ r, - au_seq r)
      (select (λ r, String.eqb (au_org r) org && audit_matches filter r) (db_audit_log d)))).
End methods.
