(* ===== verification/Rbac.v ===== *)
(** * Permissions ([crates/server/src/rbac.rs])

    Every route of the API declares one permission, evaluated against the caller's roles
    before its handler runs. The theorem at the end ties the rule to the delegation ceiling
    of the store: whoever covers the roles of another may do whatever the other may. *)

From Stdlib Require Import Ascii.
From stdpp Require Import base sets strings list.
From S2P Require Import Prelude Strings OrdMap Db Identity.

Local Open Scope string_scope.
Local Open Scope list_scope.

Inductive OrgPerm := ReadMembers | ReadAll | ManageMembers | CreateApp | Administer.
Inductive AppPerm := Read | Configure | Manage | Deploy.
Inductive Permission :=
| Public
| Authenticated
| PermOrg (p : OrgPerm)
| PermApp (p : AppPerm).

Inductive Decision_ :=
| Allow
| Deny (reason : string)
| Hidden.

(** The application, and the type of the environment, of a request. *)
Record Scope := mk_Scope { sc_app : option string; sc_env_type : option string }.

Definition is_admin (roles : Roles) : bool := is_administrator (r_org roles).

Definition can_see_app (roles : Roles) (app : string) : bool :=
  is_admin roles || bool_decide (r_org roles = Some OrgViewer)
  || is_some (bt_get app (r_apps roles)).

Definition deny (what : string) : Decision_ := Deny ("requires " +:+ what).

Definition evaluate_org (p : OrgPerm) (role : OrgRole) : Decision_ :=
  match p, role with
  | ReadMembers, _ => Allow
  | ReadAll, OrgViewer => Allow
  | ReadAll, _ => deny "the `administrator` or `orgViewer` role"
  | (ManageMembers | CreateApp), Manager => Allow
  | (ManageMembers | CreateApp), _ => deny "the `administrator` or `manager` role"
  | Administer, _ => deny "the `administrator` role"
  end.

Definition evaluate_app (p : AppPerm) (roles : Roles) (scope : Scope) : Decision_ :=
  match sc_app scope with
  | None => Deny "no application in scope"
  | Some app =>
      if negb (can_see_app roles app) then Hidden
      else
        let role := bt_get app (r_apps roles) in
        match p with
        | Read => Allow
        | Configure =>
            if at_least Developer role then Allow
            else deny ("`developer` or `owner` on " +:+ quoted app)
        | Manage =>
            if bool_decide (role = Some Owner) then Allow
            else deny ("`owner` on " +:+ quoted app)
        | Deploy =>
            if negb (at_least Developer role) then
              deny ("`developer` or `owner` on " +:+ quoted app)
            else
              match sc_env_type scope with
              | Some t =>
                  if bs_mem t (r_deployer roles) then Allow
                  else Deny ("requires the `deployer` role on environment type " +:+ quoted t)
              | None => Deny "no environment in scope"
              end
        end
  end.

Definition evaluate (perm : Permission) (roles : Roles) (scope : Scope) : Decision_ :=
  match r_org roles with
  | None => Deny "not a member of the organization"
  | Some org_role =>
      if bool_decide (org_role = Administrator) then Allow
      else
        match perm with
        | Public | Authenticated => Allow
        | PermOrg p => evaluate_org p org_role
        | PermApp p => evaluate_app p roles scope
        end
  end.

(** ** What the rule grants *)

(** The documented rule: administrators may do anything; reading everything is for
    organization viewers, managing members and creating applications for managers; an
    application is read by those with a role on it and organization viewers, configured by
    its developers and owners, managed by its owners, and deployed by its developers and
    owners who deploy to the environment's type. *)
Definition permitted (perm : Permission) (roles : Roles) (scope : Scope) : Prop :=
  ∃ role, r_org roles = Some role ∧
  (role = Administrator ∨
   match perm with
   | Public | Authenticated | PermOrg ReadMembers => True
   | PermOrg ReadAll => role = OrgViewer
   | PermOrg (ManageMembers | CreateApp) => role = Manager
   | PermOrg Administer => False
   | PermApp p =>
       ∃ app, sc_app scope = Some app ∧
       match p with
       | Read => role = OrgViewer ∨ ∃ r, bt_get app (r_apps roles) = Some r
       | Configure => ∃ r, bt_get app (r_apps roles) = Some r ∧ r ≠ Viewer
       | Manage => bt_get app (r_apps roles) = Some Owner
       | Deploy => (∃ r, bt_get app (r_apps roles) = Some r ∧ r ≠ Viewer)
           ∧ ∃ t, sc_env_type scope = Some t ∧ t ∈ r_deployer roles
       end
   end).

Lemma exists_Some {A} (x : A) (P : A → Prop) : (∃ a, Some x = Some a ∧ P a) ↔ P x.
Proof. split; [by intros (a & [= <-] & ?)|by exists x]. Qed.

Lemma at_least_developer role : at_least Developer role = true ↔ ∃ r, role = Some r ∧ r ≠ Viewer.
Proof. destruct role as [[]|]; simpl; naive_solver. Qed.

Lemma bs_mem_decide (k : string) l : bs_mem k l = true ↔ k ∈ l.
Proof. apply bs_mem_spec. Qed.

Lemma can_see_app_spec roles app :
  can_see_app roles app = true ↔
  r_org roles = Some Administrator ∨ r_org roles = Some OrgViewer
  ∨ ∃ r, bt_get app (r_apps roles) = Some r.
Proof.
  unfold can_see_app, is_admin, is_administrator. rewrite !orb_true_iff, !bool_decide_eq_true.
  destruct (bt_get app (r_apps roles)); unfold is_some; simpl; naive_solver.
Qed.

Lemma evaluate_org_allow p role :
  evaluate_org p role = Allow ↔
  match p with
  | ReadMembers => True
  | ReadAll => role = OrgViewer
  | ManageMembers | CreateApp => role = Manager
  | Administer => False
  end.
Proof. destruct p, role; simpl; unfold deny; naive_solver. Qed.

Lemma evaluate_app_allow p roles scope :
  evaluate_app p roles scope = Allow ↔
  ∃ app, sc_app scope = Some app ∧ can_see_app roles app = true ∧
    match p with
    | Read => True
    | Configure => at_least Developer (bt_get app (r_apps roles)) = true
    | Manage => bt_get app (r_apps roles) = Some Owner
    | Deploy => at_least Developer (bt_get app (r_apps roles)) = true
        ∧ ∃ t, sc_env_type scope = Some t ∧ t ∈ r_deployer roles
    end.
Proof.
  unfold evaluate_app.
  destruct (sc_app scope) as [app|]; [|by split; [|intros (? & ? & _)]]. rewrite exists_Some.
  destruct (can_see_app roles app) eqn:Hs; simpl; [|by split; [|intros [? _]]].
  destruct p; simpl.
  - done.
  - by destruct (at_least _ _); split; [| | |intros [_ ?]].
  - case_bool_decide; by split; [|intros [_ ?]].
  - destruct (at_least _ _) eqn:E; simpl; [|by split; [|intros (_ & ? & _)]].
    destruct (sc_env_type scope) as [t|]; [|by split; [|intros (_ & _ & ? & ? & _)]].
    rewrite exists_Some, <- bs_mem_decide. by destruct (bs_mem t _); split; [| | |intros (_ & _ & ?)].
Qed.

Lemma evaluate_permitted perm roles scope :
  evaluate perm roles scope = Allow ↔ permitted perm roles scope.
Proof.
  unfold evaluate, permitted. destruct (r_org roles) as [role|] eqn:Er; [|naive_solver].
  case_bool_decide as Ha; [naive_solver|]. destruct perm as [| |p|p].
  - naive_solver.
  - naive_solver.
  - rewrite evaluate_org_allow. destruct p; naive_solver.
  - rewrite evaluate_app_allow. split.
    + intros (app & Ha' & Hs & Hp). apply can_see_app_spec in Hs. exists role. split; [done|]. right.
      exists app. split; [done|]. rewrite Er in Hs.
      destruct p; try rewrite at_least_developer in Hp; naive_solver.
    + intros (role' & [= <-] & [->|(app & Ha' & Hp)]); [done|]. exists app. split; [done|].
      rewrite can_see_app_spec, Er. destruct p; rewrite ?at_least_developer; naive_solver.
Qed.

(** ** Delegation *)

Lemma app_role_leb_spec a b : app_role_leb a b = true ↔ (app_role_rank a ≤ app_role_rank b)%nat.
Proof. apply Nat.leb_le. Qed.

(** What covering means for roles of members who are not administrators. *)
Lemma covers_spec issuer target :
  covers issuer target = true ↔
  r_org issuer = Some Administrator
  ∨ (r_org target = None ∧ r_apps target = [] ∧ r_deployer target = [])
  ∨ (∃ i t, r_org issuer = Some i ∧ r_org target = Some t ∧ (t = Member ∨ i = t)
      ∧ (∀ app r, (app, r) ∈ r_apps target → ∃ r', bt_get app (r_apps issuer) = Some r'
          ∧ (app_role_rank r ≤ app_role_rank r')%nat)
      ∧ ∀ e, e ∈ r_deployer target → e ∈ r_deployer issuer).
Proof.
  unfold covers, is_administrator. case_bool_decide as Ha; [naive_solver|].
  assert (r_org issuer ≠ Some Administrator) as Ha' by done. clear Ha.
  destruct (r_org issuer) as [i|] eqn:Ei, (r_org target) as [t|] eqn:Et; simpl.
  2: { rewrite andb_true_iff. destruct (r_apps target), (r_deployer target); naive_solver. }
  2: { split; [done|]. naive_solver. }
  2: { rewrite andb_true_iff. destruct (r_apps target), (r_deployer target); naive_solver. }
  rewrite !andb_true_iff. unfold org_role_covers, apps_covered.
  rewrite !orb_true_iff, !bool_decide_eq_true, !forallb_forall. split.
  - intros [[Hor Happs] Hdep]. right; right. exists i, t. split_and!; [done|done| | |].
    + destruct Hor as [[->|]|]; naive_solver.
    + intros app r Hin. specialize (Happs (app, r) (proj1 (list_elem_of_In _ _) Hin)). simpl in Happs.
      destruct (bt_get app (r_apps issuer)) as [r'|]; [|done]. exists r'. split; [done|].
      by apply app_role_leb_spec.
    + intros e He. apply bs_mem_decide. apply Hdep. by apply list_elem_of_In.
  - intros [?|[?|(i' & t' & [= <-] & [= <-] & Hor & Happs & Hdep)]]; [congruence|naive_solver|].
    split; [split; [destruct Hor; auto|]|].
    + intros [app r] Hin%list_elem_of_In. destruct (Happs app r Hin) as (r' & Hr' & Hle).
      simpl. rewrite Hr'. by apply app_role_leb_spec.
    + intros e He%list_elem_of_In. by apply bs_mem_decide, Hdep.
Qed.

Lemma covers_app issuer target app r :
  covers issuer target = true → r_org issuer ≠ Some Administrator →
  bt_get app (r_apps target) = Some r →
  ∃ r', bt_get app (r_apps issuer) = Some r' ∧ (app_role_rank r ≤ app_role_rank r')%nat.
Proof.
  intros Hc Ha Hg. apply bt_get_elem in Hg.
  apply covers_spec in Hc as [?|[(_ & Happs & _)|(i & t & _ & _ & _ & Happs & _)]]; [done| |].
  - rewrite Happs in Hg. by apply not_elem_of_nil in Hg.
  - by apply Happs.
Qed.

Lemma stronger_than_viewer r r' :
  (app_role_rank r ≤ app_role_rank r')%nat → (r ≠ Viewer → r' ≠ Viewer) ∧ (r = Owner → r' = Owner).
Proof. destruct r, r'; simpl; split; try done; lia. Qed.

Lemma covers_evaluate issuer target perm scope :
  covers issuer target = true → evaluate perm target scope = Allow →
  evaluate perm issuer scope = Allow.
Proof.
  rewrite !evaluate_permitted. intros Hc (t & Ht & Hp).
  assert (r_org issuer = Some Administrator ∨ r_org issuer ≠ Some Administrator) as [Ha|Ha]
    by (destruct (decide (r_org issuer = Some Administrator)); auto); [by exists Administrator; auto|].
  pose proof (λ app r, covers_app issuer target app r Hc Ha) as Happ.
  apply covers_spec in Hc as [?|[(? & _)|(i & t' & Hi & Ht' & Hor & _ & Hdep)]]; [done|congruence|].
  simplify_eq. exists i. split; [done|]. destruct Hp as [->|Hp].
  { destruct Hor as [|]; [done|naive_solver]. }
  right. destruct perm as [| |p|p]; [done|done| |].
  - destruct p; try done; destruct Hor as [-> | ->]; done.
  - destruct Hp as (app & Hs & Hp). exists app. split; [done|]. destruct p.
    + destruct Hp as [->|(r & Hr)]; [destruct Hor as [| ->]; [done|auto]|].
      right. destruct (Happ app r Hr) as (r' & ? & _). by exists r'.
    + destruct Hp as (r & Hr & Hv). destruct (Happ app r Hr) as (r' & ? & Hle).
      exists r'. split; [done|]. by apply (stronger_than_viewer r).
    + destruct (Happ app Owner Hp) as (r' & -> & Hle). f_equal. by apply (stronger_than_viewer Owner).
    + destruct Hp as ((r & Hr & Hv) & e & He & Hin). destruct (Happ app r Hr) as (r' & ? & Hle).
      split; [exists r'; split; [done|by apply (stronger_than_viewer r)]|]. exists e. auto.
Qed.

(** The permission rule is the documented one, and the delegation ceiling respects it:
    a request is allowed exactly when the caller's roles permit it; and a principal who
    covers another's roles (so that it may issue tokens to it, invite it or change it) is
    allowed every request that the other is allowed. *)
Theorem delegation_respects_permissions (issuer target : Roles) (perm : Permission)
    (scope : Scope) :
  (evaluate perm target scope = Allow ↔ permitted perm target scope)
  ∧ (covers issuer target = true → evaluate perm target scope = Allow →
     evaluate perm issuer scope = Allow).
Proof. split; [apply evaluate_permitted|apply covers_evaluate]. Qed.

(** A manager who owns an application covers its developers. *)
Lemma delegation_respects_permissions_witness :
  let issuer := mk_Roles (Some Manager) [("shop", Owner)] ["development"] in
  let target := mk_Roles (Some Member) [("shop", Developer)] ["development"] in
  let scope := mk_Scope (Some "shop") (Some "development") in
  covers issuer target = true ∧ evaluate (PermApp Deploy) issuer scope = Allow.
Proof.
  split; [by vm_compute|].
  apply (delegation_respects_permissions
    (mk_Roles (Some Manager) [("shop", Owner)] ["development"])
    (mk_Roles (Some Member) [("shop", Developer)] ["development"])
    (PermApp Deploy) (mk_Scope (Some "shop") (Some "development"))); by vm_compute.
Defined.
