(* ===== verification/Apps.v ===== *)
(** * Applications, environments, sets and deltas ([crates/store/src/sqlite.rs])

    The part of the store that keeps environment types, applications and their environments,
    and the content deployments are made of: sets, stored under the digest of their
    content, and deltas, which a deployment freezes. *)

From Stdlib Require Import Ascii.
From stdpp Require Import base sets strings list.
From S2P Require Import Prelude Strings OrdMap Json Sets Db Identity.

Local Open Scope string_scope.
Local Open Scope Z_scope.
Local Open Scope list_scope.

(** ** Records *)

Record DraftDelta := mk_DraftDelta { dd_id : string; dd_content : Value }.

Record NewEnv := mk_NewEnv {
  ne_id : string; ne_name : string; ne_env_type : string; ne_draft : option DraftDelta
}.

Record EnvRecord := mk_EnvRecord {
  ec_app : string; ec_id : string; ec_name : string; ec_env_type : string; ec_generation : Z;
  ec_desired_set_id : option string; ec_last_successful_set_id : option string;
  ec_last_successful_deploy_id : option string; ec_state : string
}.

Definition env_into_record (r : EnvRow) : EnvRecord :=
  mk_EnvRecord (en_app r) (en_id r) (en_name r) (en_type r) (en_generation r)
    (en_desired_set_id r) (en_last_successful_set_id r) (en_last_successful_deploy_id r)
    (en_state r).

Record DeltaRecord := mk_DeltaRecord {
  dc_id : string; dc_env : option string; dc_base_generation : option Z; dc_content : Value;
  dc_frozen : bool; dc_created_by : option string
}.

Definition delta_record (r : DeltaRow) : DeltaRecord :=
  mk_DeltaRecord (de_id r) (de_env r) (de_base_generation r) (de_content r)
    (is_some (de_frozen_at r)) (de_created_by r).

(** ** Keys *)

Definition is_app (id : string) (r : AppRow) : bool := String.eqb (ap_id r) id.
Definition is_env_type (id : string) (r : EnvTypeRow) : bool := String.eqb (et_id r) id.
Definition is_env (app env : string) (r : EnvRow) : bool :=
  String.eqb (en_app r) app && String.eqb (en_id r) env.
Definition is_delta (app id : string) (r : DeltaRow) : bool :=
  String.eqb (de_app r) app && String.eqb (de_id r) id.
Definition is_set (app id : string) (r : SetRow) : bool :=
  String.eqb (st_app r) app && String.eqb (st_id r) id.

Definition env_name (app env : string) : string := quoted (app +:+ "/" +:+ env).

Section apps.
Context `{System} (store_org : string).

Abbreviation check_org := (check_org store_org).

Definition record_audit (intent : AuditIntent) : tx string :=
  check_org (ai_org intent);; audit_insert intent None None.

Definition audit_entries (org : string) (limit : Z) : tx (list AuditRow) :=
  check_org org;;
  query (λ d, take (Z.to_nat limit)
    (sort_by_key (λ r, - au_seq r) (select (λ r, String.eqb (au_org r) org) (db_audit_log d)))).

(** ** Environment types *)

Definition create_env_type (org id description : string) (protected : bool) (audit : AuditIntent)
    : tx unit :=
  check_org org;;
  check_admin_authority (ai_actor audit);;
  let* now := now_ms in
  or_exists
    (insert_row db_env_types upd_env_types (λ _, true)
      (λ d, negb (existsb (is_env_type id) (db_env_types d))) (λ _, true)
      (mk_EnvTypeRow id description protected now (ai_actor audit)))
    (AlreadyExists ("environment type " +:+ quoted id));;
  audit_in audit.

(** [INSERT ... ON CONFLICT DO NOTHING]. *)
Definition ensure_env_type (id : string) : tx unit :=
  let* now := now_ms in
  let* old := query (λ d, existsb (is_env_type id) (db_env_types d)) in
  if old then ret tt
  else execute (upd_env_types (λ t, t ++ [mk_EnvTypeRow id ε false now None])).

Definition update_env_type (org id : string) (description : option string)
    (protected : option bool) (audit : AuditIntent) : tx unit :=
  check_org org;;
  check_admin_authority (ai_actor audit);;
  let* n := query (λ d, select (is_env_type id) (db_env_types d)) in
  execute (upd_env_types (update (is_env_type id) (λ r,
    mk_EnvTypeRow (et_id r) (option_default (et_description r) description)
      (option_default (et_protected r) protected) (et_created_at r) (et_created_by r))));;
  check (negb (Nat.eqb (length n) 0)) (NotFound ("environment type " +:+ quoted id));;
  audit_in audit.

Definition delete_env_type (org id : string) (audit : AuditIntent) : tx unit :=
  check_org org;;
  check_admin_authority (ai_actor audit);;
  let* exists_ := query (λ d, select_one (is_env_type id) (db_env_types d)) in
  check (is_some exists_) (NotFound ("environment type " +:+ quoted id));;
  let* users := query (λ d, take 5 ((λ e, en_app e +:+ "/" +:+ en_id e)
    <$> sort_by_key (λ e, (en_app e, en_id e))
          (select (λ e, String.eqb (en_type e) id) (db_envs d)))) in
  check (match users with [] => true | _ => false end)
    (Conflict ("environment type " +:+ quoted id +:+ " is used by " +:+ join ", " users));;
  execute (upd_env_type_roles (delete_rows (λ r, String.eqb (er_env_type r) id)));;
  execute (upd_env_types (delete_rows (is_env_type id)));;
  audit_in audit.

(** ** Applications *)

(** A row of a new environment. *)
Definition new_env_row (app id name env_type : string) (now : Z) (created_by : option string)
    : EnvRow :=
  mk_EnvRow app id name env_type 0 None None None "active" now created_by.

Definition insert_env (row : EnvRow) : tx unit :=
  insert_row db_envs upd_envs (λ _, true)
    (λ d, negb (existsb (is_env (en_app row) (en_id row)) (db_envs d)))
    (λ d, has_app (en_app row) d && has_env_type (en_type row) d) row.

Definition create_app (org id name owner : string) (audit : AuditIntent) : tx unit :=
  check_org org;;
  let* now := now_ms in
  check_create_app_authority (ai_actor audit);;
  or_exists
    (insert_row db_apps upd_apps (λ _, true)
      (λ d, negb (existsb (is_app id) (db_apps d))) (λ _, true)
      (mk_AppRow id name now (Some owner) "active"))
    (AlreadyExists ("application " +:+ quoted id));;
  ensure_env_type "development";;
  insert_env (new_env_row id "development" "Development" "development" now (Some owner));;
  insert_row db_app_roles upd_app_roles (λ _, true)
    (λ d, negb (existsb (is_app_role id owner) (db_app_roles d)))
    (λ d, has_app id d && has_principal owner d)
    (mk_AppRoleRow id owner "owner");;
  audit_in audit.

(** The application must exist and not be in deletion. *)
Definition check_app_active (id : string) : tx unit :=
  let* a := query (λ d, select_one (is_app id) (db_apps d)) in
  match a with
  | None => fail (NotFound ("application " +:+ quoted id))
  | Some a =>
      check (String.eqb (ap_state a) "active")
        (Conflict ("application " +:+ quoted id +:+ " is being deleted"))
  end.

Definition update_app (org id name : string) (audit : AuditIntent) : tx unit :=
  check_org org;;
  check_app_active id;;
  check_app_authority (ai_actor audit) id;;
  execute (upd_apps (update (is_app id)
    (λ r, mk_AppRow (ap_id r) name (ap_created_at r) (ap_created_by r) (ap_state r))));;
  audit_in audit.

(** ** Environments *)

Definition create_env (org app : string) (env : NewEnv) (audit : AuditIntent) : tx unit :=
  check_org org;;
  let* type_exists := query (λ d, select_one (is_env_type (ne_env_type env)) (db_env_types d)) in
  check (is_some type_exists) (NotFound ("environment type " +:+ quoted (ne_env_type env)));;
  check_app_active app;;
  check_env_authority (ai_actor audit) app (ne_env_type env);;
  let* now := now_ms in
  or_exists
    (insert_env (new_env_row app (ne_id env) (ne_name env) (ne_env_type env) now (ai_actor audit)))
    (AlreadyExists ("environment " +:+ env_name app (ne_id env)));;
  match ne_draft env with
  | None => ret tt
  | Some draft =>
      or_exists
        (insert_row db_deltas upd_deltas (λ _, true)
          (λ d, negb (existsb (is_delta app (dd_id draft)) (db_deltas d))) (λ _, true)
          (mk_DeltaRow app (dd_id draft) (Some (ne_id env)) (dd_content draft) None None now
            (ai_actor audit) now))
        (AlreadyExists ("delta " +:+ quoted (dd_id draft)))
  end;;
  audit_in audit.

Definition envs (org app : string) : tx (list EnvRecord) :=
  check_org org;;
  query (λ d, env_into_record <$> sort_by_key en_id
    (select (λ e, String.eqb (en_app e) app) (db_envs d))).

Definition env (org app id : string) : tx (option EnvRecord) :=
  check_org org;; query (λ d, env_into_record <$> select_one (is_env app id) (db_envs d)).

Definition update_env (org app env name : string) (audit : AuditIntent) : tx unit :=
  check_org org;;
  check_configure_authority (ai_actor audit) app;;
  let* found := query (λ d,
    e ← select_one (is_env app env) (db_envs d);
    a ← select_one (is_app app) (db_apps d);
    Some (en_type e, en_state e, ap_state a)) in
  match found with
  | None => fail (NotFound ("environment " +:+ env_name app env))
  | Some (env_type, env_state, app_state) =>
      check_env_authority (ai_actor audit) app env_type;;
      check (String.eqb app_state "active" && String.eqb env_state "active")
        (Conflict ("environment " +:+ env_name app env +:+ " is being deleted"));;
      execute (upd_envs (update (is_env app env) (λ r,
        mk_EnvRow (en_app r) (en_id r) name (en_type r) (en_generation r) (en_desired_set_id r)
          (en_last_successful_set_id r) (en_last_successful_deploy_id r) (en_state r)
          (en_created_at r) (en_created_by r))));;
      audit_in audit
  end.

(** ** Sets *)

Section sets.
Context (digest : string → string).

(** [INSERT ... ON CONFLICT DO NOTHING]. *)
Definition insert_set (app : string) (set : DeploymentSet) : tx unit :=
  let* now := now_ms in
  let id := set_id digest set in
  let* old := query (λ d, existsb (is_set app id) (db_sets d)) in
  if old then ret tt
  else execute (upd_sets (λ t, t ++ [mk_SetRow app id SET_ID_ALGORITHM (canonical_json set) now])).

Definition put_set (org app : string) (set : DeploymentSet) : tx string :=
  check_org org;;
  insert_set app set;;
  ret (set_id digest set).

Definition put_set_audited (org app : string) (set : DeploymentSet) (audit : AuditIntent)
    : tx string :=
  check_org org;;
  check_configure_authority (ai_actor audit) app;;
  insert_set app set;;
  audit_in audit;;
  ret (set_id digest set).

(** Reading a set from its text is [serde_json]'s. *)
Definition set (read : string → result DeploymentSet string) (org app id : string)
    : tx (option DeploymentSet) :=
  check_org org;;
  let* content := query (λ d, st_content <$> select_one (is_set app id) (db_sets d)) in
  match content with
  | None => ret None
  | Some c =>
      let* s := lift (map_err (λ e, Corrupt ("set " +:+ quoted id +:+ ": " +:+ e)) (read c)) in
      ret (Some s)
  end.
End sets.

(** ** Deltas *)

(** The environment and generation a new delta is drafted against must be current. *)
Definition check_draft (app : string) (draft : option (string * Z)) : tx unit :=
  match draft with
  | None => ret tt
  | Some (env, base) =>
      let* e := query (λ d, select_one (is_env app env) (db_envs d)) in
      let* e := require e (NotFound ("environment " +:+ env_name app env)) in
      check (en_generation e =? base) (StaleGeneration base (en_generation e))
  end.

Definition write_delta (org app id : string) (draft : option (string * Z)) (content : Value)
    (audit : AuditIntent) : tx unit :=
  check_org org;;
  let* now := now_ms in
  check_configure_authority (ai_actor audit) app;;
  check_draft app draft;;
  let* old := query (λ d, select_one (is_delta app id) (db_deltas d)) in
  check (is_none (o ← old; de_frozen_at o))
    (Conflict ("delta " +:+ quoted id +:+ " has been deployed and can no longer change"));;
  match old with
  | Some _ =>
      execute (upd_deltas (update (is_delta app id) (λ r,
        mk_DeltaRow (de_app r) (de_id r) (de_env r) content (de_base_generation r)
          (de_frozen_at r) (de_created_at r) (de_created_by r) now)))
  | None =>
      execute (upd_deltas (λ t, t ++ [mk_DeltaRow app id (fst <$> draft) content (snd <$> draft)
        None now (ai_actor audit) now]))
  end;;
  audit_in audit.

Definition put_delta (org app id : string) (content : Value) (audit : AuditIntent) : tx unit :=
  write_delta org app id None content audit.

Definition put_env_delta (org app id : string) (draft : string * Z) (content : Value)
    (audit : AuditIntent) : tx unit :=
  write_delta org app id (Some draft) content audit.

Definition delta (org app id : string) : tx (option DeltaRecord) :=
  check_org org;; query (λ d, delta_record <$> select_one (is_delta app id) (db_deltas d)).

Definition deltas (org app : string) : tx (list DeltaRecord) :=
  check_org org;;
  query (λ d, delta_record <$> sort_by_key (λ r, (- de_created_at r, de_id r))
    (select (λ r, String.eqb (de_app r) app) (db_deltas d))).
End apps.
