(* ===== verification/Permits.v ===== *)
(** * Plans and destructive-action permits ([crates/store/src/sqlite_permits.rs])

    A preview is stored as a plan; permits are issued from it, one per action on a resource,
    and a deployment binds the permits it presents when it is accepted. Using a permit checks
    that its issuer still has the authority to issue it. A refused use is recorded in the
    audit log and reported as an error: [use_permit] commits and returns the error as a
    value. *)

From Stdlib Require Import Ascii.
From stdpp Require Import base sets strings list.
From S2P Require Import Prelude Strings OrdMap Json Canonical Sets Db Identity Apps.

Local Open Scope string_scope.
Local Open Scope Z_scope.
Local Open Scope list_scope.

Definition PERMIT_TTL_MS : Z := 60 * 60 * 1000.

(** The actions a permit can authorize. *)
Definition ACTIONS : list string := ["delete"; "detach"; "replace"; "unknown"].

(** What [bound_to] holds for a permit a detach used. *)
Definition DETACHED : string := "detach".

Definition is_action (a : string) : bool := existsb (String.eqb a) ACTIONS.

(** ** Records *)

Record PermitBinding := mk_PermitBinding {
  pb_presented : list string; pb_digests : list (string * string);
  pb_required : list (string * string)
}.

Definition no_permits : PermitBinding := mk_PermitBinding [] [] [].

Record NewPlan := mk_NewPlan {
  npl_org : string; npl_app : string; npl_env : string; npl_kind : string;
  npl_base_generation : Z; npl_set_id : option string; npl_body : Value; npl_audit : AuditIntent
}.

Record NewPermit := mk_NewPermit {
  npm_descriptor : string; npm_guresid : option string; npm_action : string;
  npm_plan_fingerprint : option string; npm_config_digest : string
}.

Record PermitRecord := mk_PermitRecord {
  pc_id : string; pc_plan : string; pc_descriptor : string; pc_guresid : option string;
  pc_action : string; pc_plan_fingerprint : option string; pc_base_generation : Z;
  pc_issuer : string; pc_expires_at : Z; pc_bound_to : option string
}.

Record PermitUse := mk_PermitUse {
  pu_org : string; pu_app : string; pu_env : string; pu_deployment : option string;
  pu_presented : list string; pu_descriptor : string; pu_guresid : option string;
  pu_action : string; pu_fingerprint : option string
}.

Record ApprovalRequest := mk_ApprovalRequest {
  rq_descriptor : string; rq_guresid : string; rq_action : string; rq_fingerprint : string;
  rq_actions : list (string * string); rq_deployment_id : string
}.

Record BoundPermit := mk_BoundPermit {
  bp_descriptor : string; bp_action : string; bp_issued_entry : option string
}.

Record UsedPermit := mk_UsedPermit { up_issued_entry : option string; up_first : bool }.

(** An intent with another action, target, outcome and reason: [AuditIntent { .., ..intent }]. *)
Definition with_outcome (i : AuditIntent) (action : string) (target : option string)
    (outcome : AuditOutcome) (reason : option string) : AuditIntent :=
  mk_AuditIntent (ai_org i) (ai_actor i) (ai_request_id i) (ai_method i) (ai_path i) action
    target outcome (ai_status_code i) reason.

Definition with_target (i : AuditIntent) (target : option string) : AuditIntent :=
  mk_AuditIntent (ai_org i) (ai_actor i) (ai_request_id i) (ai_method i) (ai_path i)
    (ai_action i) target (ai_outcome i) (ai_status_code i) (ai_reason i).

(** ** Authority of the issuer *)

(** The type of an environment ([env_type] in [sqlite_permits.rs]). *)
Definition env_type_of (app env : string) : tx string :=
  let* t := query (λ d, en_type <$> select_one (is_env app env) (db_envs d)) in
  require t (NotFound ("environment " +:+ env_name app env)).

Definition env_generation (app env : string) : tx Z :=
  let* g := query (λ d, en_generation <$> select_one (is_env app env) (db_envs d)) in
  require g (Database RowNotFound).

(** In an environment of a protected type, a destructive permit needs an administrator, and
    a change of unknown impact gets none. *)
Definition check_protection (env_type action issuer : string) : tx unit :=
  let* protected := query (λ d, et_protected <$> select_one (is_env_type env_type) (db_env_types d)) in
  if negb (match protected with Some true => true | _ => false end) then ret tt
  else if String.eqb action "unknown" then
    fail (Forbidden ("environment type " +:+ quoted env_type
      +:+ " is protected: a change whose impact its driver cannot preview gets no permit; deploy "
      +:+ "it where its driver can plan it, or remove the protection"))
  else
    let* r := attempt (check_admin_authority (Some issuer)) in
    match r with
    | Err (Forbidden _) =>
        fail (Forbidden ("environment type " +:+ quoted env_type +:+ " is protected: " +:+ quoted issuer
          +:+ " is not an administrator, which a " +:+ action +:+ " permit there needs"))
    | other => lift other
    end.

Definition issue_authority (app env_type action issuer : string) : tx unit :=
  (if String.eqb action "detach" then check_admin_authority (Some issuer)
   else check_env_authority (Some issuer) app env_type);;
  check_protection env_type action issuer.

(** Why the issuer no longer holds the authority, or [None] while it does. *)
Definition issuer_lost (app env_type action issuer : string) : tx (option string) :=
  let* authority := attempt (issue_authority app env_type action issuer) in
  match authority with
  | Ok _ => ret None
  | Err (Forbidden e) => ret (Some e)
  | Err e => fail e
  end.

Section permits.
Context `{System} (store_org : string).

Abbreviation check_org := (check_org store_org).

(** ** Plans *)

Definition put_plan (plan : NewPlan) : tx PlanRow :=
  check_org (npl_org plan);;
  let* actor := require (ai_actor (npl_audit plan)) (Forbidden "plans need an acting principal") in
  let* now := now_ms in
  let* hex := random_hex 12 in
  let record := mk_PlanRow (npl_app plan) (npl_env plan) ("pln-" +:+ hex) actor (npl_kind plan)
    (npl_base_generation plan) (npl_set_id plan) (npl_body plan) now (now + PERMIT_TTL_MS) in
  insert_row db_plans upd_plans (λ _, true)
    (λ d, negb (existsb (λ r, String.eqb (pl_id r) (pl_id record)) (db_plans d))) (λ _, true) record;;
  audit_in (with_target (npl_audit plan)
    (Some (npl_app plan +:+ "/" +:+ npl_env plan +:+ "/" +:+ pl_id record)));;
  ret record.

Definition is_plan (app env id : string) (r : PlanRow) : bool :=
  String.eqb (pl_app r) app && String.eqb (pl_env r) env && String.eqb (pl_id r) id.

Definition plan (org app env id : string) : tx (option PlanRow) :=
  check_org org;; query (λ d, select_one (is_plan app env id) (db_plans d)).

(** ** Issuing permits *)

Definition permit_row (app env plan : string) (base now : Z) (issuer entry hex : string)
    (p : NewPermit) : PermitRow :=
  mk_PermitRow ("prm-" +:+ hex) app env plan (npm_descriptor p) (npm_guresid p) (npm_action p)
    (npm_plan_fingerprint p) base (npm_config_digest p) issuer now (now + PERMIT_TTL_MS)
    None None None (Some entry).

Definition permit_record (r : PermitRow) : PermitRecord :=
  mk_PermitRecord (pm_id r) (pm_plan r) (pm_descriptor r) (pm_guresid r) (pm_action r)
    (pm_plan_fingerprint r) (pm_base_generation r) (pm_issuer r) (pm_expires_at r) (pm_bound_to r).

Definition insert_permit (row : PermitRow) : tx unit :=
  insert_row db_permits upd_permits (λ _, is_action (pm_action row))
    (λ d, negb (existsb (λ r, String.eqb (pm_id r) (pm_id row)) (db_permits d))) (λ _, true) row.

(** The checks of an issue: the plan's generation is the environment's. *)
Definition check_issue (app env plan : string) (permits : list NewPermit) (issuer : string)
    : tx (Z * Z) :=
  let* found := query (λ d, select_one (is_plan app env plan) (db_plans d)) in
  let* found := require found (NotFound ("plan " +:+ quoted plan)) in
  let base := pl_base_generation found in
  let* now := now_ms in
  check (now <? pl_expires_at found)
    (PermitInvalid ("plan " +:+ quoted plan +:+ " has expired; preview again"));;
  let* generation := env_generation app env in
  check (base =? generation)
    (PermitInvalid ("plan " +:+ quoted plan +:+ " was made at generation " +:+ show_Z base
      +:+ ", but the environment is at " +:+ show_Z generation +:+ "; preview again"));;
  match find (λ p, negb (is_action (npm_action p))) permits with
  | Some p =>
      fail (Invalid (quoted (npm_action p) +:+ " is not a destructive action; use one of "
        +:+ join ", " ACTIONS))
  | None => ret tt
  end;;
  let* env_type := env_type_of app env in
  check_env_authority (Some issuer) app env_type;;
  (if existsb (λ p, String.eqb (npm_action p) "detach") permits
   then check_admin_authority (Some issuer) else ret tt);;
  for_each (λ p, check_protection env_type (npm_action p) issuer) permits;;
  ret (base, now).

Definition issue_permits (org app env plan : string) (permits : list NewPermit)
    (audit : AuditIntent) : tx (list PermitRecord) :=
  check_org org;;
  let* issuer := require (ai_actor audit) (Forbidden "permits need an acting principal") in
  let* (base, now) := check_issue app env plan permits issuer in
  let* entry := audit_insert (with_target audit (Some (app +:+ "/" +:+ env +:+ "/" +:+ plan))) None None in
  fold_each (λ records p,
    let* hex := random_hex 16 in
    let row := permit_row app env plan base now issuer entry hex p in
    insert_permit row;;
    ret (records ++ [permit_record row])) [] permits.

(** ** Using permits *)

Definition is_permit (app env id : string) (r : PermitRow) : bool :=
  String.eqb (pm_app r) app && String.eqb (pm_env r) env && String.eqb (pm_id r) id.

Definition permit_covers (u : PermitUse) (r : PermitRow) : bool :=
  String.eqb (pm_app r) (pu_app u) && String.eqb (pm_env r) (pu_env u)
  && String.eqb (pm_descriptor r) (pu_descriptor u) && String.eqb (pm_action r) (pu_action u).

(** The permits bound to the deployment, or those a detach presents. *)
Definition candidates (u : PermitUse) (d : Db) : list PermitRow :=
  match pu_deployment u with
  | Some deployment =>
      sort_by_key pm_id (select (λ r, permit_covers u r && sql_eq (pm_bound_to r) (Some deployment))
        (db_permits d))
  | None =>
      filter_map (λ id, select_one (λ r, permit_covers u r && String.eqb (pm_id r) id) (db_permits d))
        (pu_presented u)
  end.

(** [used_at = COALESCE(used_at, now), bound_to = COALESCE(bound_to, 'detach'), ...]. *)
Definition use_permit_row (now : Z) (r : PermitRow) : PermitRow :=
  mk_PermitRow (pm_id r) (pm_app r) (pm_env r) (pm_plan r) (pm_descriptor r) (pm_guresid r)
    (pm_action r) (pm_plan_fingerprint r) (pm_base_generation r) (pm_config_digest r)
    (pm_issuer r) (pm_created_at r) (pm_expires_at r)
    (coalesce (pm_bound_to r) (Some DETACHED)) (coalesce (pm_bound_at r) (Some now))
    (coalesce (pm_used_at r) (Some now)) (pm_issued_entry r).

(** Why a candidate is refused for what it is, before its issuer is checked. *)
Definition refusal (u : PermitUse) (generation now : Z) (r : PermitRow) : option string :=
  let p := "permit " +:+ quoted (pm_id r) in
  if is_some (pm_guresid r) && negb (eq_opt (pm_guresid r) (pu_guresid u)) then
    Some (p +:+ " is for another resource identity")
  else if is_some (pm_plan_fingerprint r) && negb (eq_opt (pm_plan_fingerprint r) (pu_fingerprint u)) then
    Some (p +:+ " covers driver plan " +:+ option_default ε (pm_plan_fingerprint r) +:+ ", not this one")
  else if is_some (pu_deployment u) then None
  else if is_some (pm_bound_to r) then Some (p +:+ " was already used")
  else if pm_expires_at r <=? now then Some (p +:+ " has expired")
  else if negb (pm_base_generation r =? generation) then
    Some (p +:+ " was issued at generation " +:+ show_Z (pm_base_generation r)
      +:+ ", but the environment is at " +:+ show_Z generation)
  else None.

(** The loop over the candidates: the first that holds is used. *)
Fixpoint try_permits (u : PermitUse) (env_type : string) (generation now : Z)
    (refused : list string) (l : list PermitRow) : tx UsedPermit :=
  match l with
  | [] =>
      let what := pu_action u +:+ " of " +:+ quoted (pu_descriptor u) in
      fail (ApprovalRequired (match refused with
        | [] => "no permit covers the " +:+ what
        | _ => "no permit covers the " +:+ what +:+ ": " +:+ join "; " refused
        end))
  | r :: l =>
      match refusal u generation now r with
      | Some why => try_permits u env_type generation now (refused ++ [why]) l
      | None =>
          let* lost := issuer_lost (pu_app u) env_type (pu_action u) (pm_issuer r) in
          match lost with
          | Some e =>
              try_permits u env_type generation now
                (refused ++ ["permit " +:+ quoted (pm_id r) +:+ " no longer holds: " +:+ e]) l
          | None =>
              execute (upd_permits (update (λ x, String.eqb (pm_id x) (pm_id r)) (use_permit_row now)));;
              ret (mk_UsedPermit (pm_issued_entry r) (is_none (pm_used_at r)))
          end
      end
  end.

Definition consume_permit (u : PermitUse) : tx UsedPermit :=
  check (is_some (pu_deployment u) || String.eqb (pu_action u) "detach")
    (Invalid ("a " +:+ pu_action u +:+ " permit is used only by the deployment it is bound to"));;
  let* env_type := env_type_of (pu_app u) (pu_env u) in
  let* rows := query (candidates u) in
  let* generation := env_generation (pu_app u) (pu_env u) in
  let* now := now_ms in
  try_permits u env_type generation now [] rows.

(** ** The entry of a deployment's acceptance *)

Definition acceptance_intent (org app env deployment : string)
    : tx (option string * AuditIntent) :=
  let* accepted := query (λ d, head (sort_by_key au_seq (select (λ r,
    String.eqb (au_org r) org && sql_eq (au_operation_id r) (Some deployment)
    && String.eqb (au_outcome r) "accepted") (db_audit_log d)))) in
  ret (match accepted with
       | Some r => (Some (au_id r), mk_AuditIntent org (au_actor r) (au_request_id r) (au_method r)
           (au_path r) ε (au_target r) Accepted None None)
       | None => (None, mk_AuditIntent org None None "POST"
           ("/orgs/" +:+ org +:+ "/apps/" +:+ app +:+ "/envs/" +:+ env +:+ "/deploys") ε None Accepted
           None None)
       end).

(** A refused use is recorded with the deployment it stopped, then reported. *)
Definition use_permit (u : PermitUse) : tx (result unit StoreError) :=
  check_org (pu_org u);;
  let* deployment := require (pu_deployment u) (Invalid "a detach uses its permit inside the detach itself") in
  let* used := attempt (consume_permit u) in
  let* (accepted, intent) := acceptance_intent (pu_org u) (pu_app u) (pu_env u) deployment in
  let target := Some (pu_app u +:+ "/" +:+ pu_env u +:+ "/" +:+ pu_descriptor u) in
  match used with
  | Ok used =>
      (if up_first used then
         let* _ := audit_insert (with_outcome intent "permit.use" target Succeeded (Some (pu_action u)))
           (Some deployment) (up_issued_entry used) in ret tt
       else ret tt);;
      ret (Ok tt)
  | Err (ApprovalRequired e) =>
      let* _ := audit_insert (with_outcome intent "permit.use" target Denied (Some "approval_required"))
        (Some deployment) accepted in
      ret (Err (ApprovalRequired e))
  | Err e => fail e
  end.

Definition permit_envs (org app : string) (ids : list string) : tx (list (string * string)) :=
  check_org org;;
  query (λ d, bt_of_list (filter_map (λ id, (λ r, (id, pm_env r)) <$>
    select_one (λ r, String.eqb (pm_app r) app && String.eqb (pm_id r) id) (db_permits d)) ids)).

(** ** Approval requests *)

Definition record_approval_request (org app env : string) (request : ApprovalRequest) : tx unit :=
  check_org org;;
  execute (upd_approval_requests (delete_rows (λ r, String.eqb (aq_guresid r) (rq_guresid request))));;
  let* now := now_ms in
  insert_row db_approval_requests upd_approval_requests (λ _, true)
    (λ d, negb (existsb (λ r, String.eqb (aq_guresid r) (rq_guresid request)
        && String.eqb (aq_fingerprint r) (rq_fingerprint request)) (db_approval_requests d)))
    (λ _, true)
    (mk_ApprovalRow app env (rq_guresid request) (rq_descriptor request) (rq_action request)
      (rq_fingerprint request) (rq_actions request) (rq_deployment_id request) now).

Definition approval_requests (org app env : string) : tx (list ApprovalRequest) :=
  check_org org;;
  query (λ d, (λ r, mk_ApprovalRequest (aq_descriptor r) (aq_guresid r) (aq_action r)
      (aq_fingerprint r) (aq_actions r) (aq_deployment_id r))
    <$> sort_by_key aq_descriptor (select (λ r, String.eqb (aq_app r) app && String.eqb (aq_env r) env)
          (db_approval_requests d))).

(** ** Binding permits to a deployment *)

Definition bind_permit_row (deployment : string) (now : Z) (r : PermitRow) : PermitRow :=
  mk_PermitRow (pm_id r) (pm_app r) (pm_env r) (pm_plan r) (pm_descriptor r) (pm_guresid r)
    (pm_action r) (pm_plan_fingerprint r) (pm_base_generation r) (pm_config_digest r)
    (pm_issuer r) (pm_created_at r) (pm_expires_at r) (Some deployment) (Some now)
    (pm_used_at r) (pm_issued_entry r).

(** One presented permit. *)
Definition bind_permit (app env env_type : string) (generation : Z) (deployment : string)
    (digests : list (string * string)) (now : Z) (bound : list BoundPermit) (id : string)
    : tx (list BoundPermit) :=
  let p := "permit " +:+ quoted id in
  let* row := query (λ d, select_one (is_permit app env id) (db_permits d)) in
  let* r := require row (PermitInvalid (p +:+ " was not issued for " +:+ env_name app env)) in
  check (is_none (pm_bound_to r))
    (PermitInvalid (p +:+ " was already bound to another deployment; preview again"));;
  check (now <? pm_expires_at r) (PermitInvalid (p +:+ " has expired; preview again"));;
  check (pm_base_generation r =? generation)
    (PermitInvalid (p +:+ " was issued at generation " +:+ show_Z (pm_base_generation r)
      +:+ ", but the environment is at " +:+ show_Z generation +:+ "; preview again"));;
  check (negb (String.eqb (pm_action r) "detach"))
    (PermitInvalid (p +:+ " is for a detach, which no deployment runs"));;
  let* lost := issuer_lost app env_type (pm_action r) (pm_issuer r) in
  match lost with
  | Some e => fail (PermitInvalid (p +:+ " no longer holds: " +:+ e))
  | None => ret tt
  end;;
  check (eq_opt (bt_get (pm_descriptor r) digests) (Some (pm_config_digest r)))
    (PermitInvalid (p +:+ " is for " +:+ quoted (pm_descriptor r)
      +:+ " as previewed, but its configuration has changed since or the deployment does not "
      +:+ "change it; preview again"));;
  execute (upd_permits (update (λ x, String.eqb (pm_id x) id) (bind_permit_row deployment now)));;
  ret (bound ++ [mk_BoundPermit (pm_descriptor r) (pm_action r) (pm_issued_entry r)]).

(** A required action that no bound permit covers. *)
Definition action_covered (bound : list BoundPermit) (da : string * string) : bool :=
  existsb (λ b, String.eqb (bp_descriptor b) da.1 && String.eqb (bp_action b) da.2) bound.

Definition bind_permits (app env : string) (generation : Z) (deployment : string)
    (binding : PermitBinding) : tx (list BoundPermit) :=
  let* now := now_ms in
  let presented := bs_of_list (pb_presented binding) in
  let* env_type := match presented with [] => ret ε | _ => env_type_of app env end in
  let* bound := fold_each
    (bind_permit app env env_type generation deployment (pb_digests binding) now) [] presented in
  let missing := (λ da, da.2 +:+ " of " +:+ quoted da.1)
    <$> List.filter (λ da, negb (action_covered bound da)) (pb_required binding) in
  check (match missing with [] => true | _ => false end)
    (ApprovalRequired ("the deployment needs permits for: " +:+ join ", " missing
      +:+ "; preview it and request them"));;
  ret bound.

Definition audit_bound (accepted : AuditIntent) (app env deployment : string)
    (bound : list BoundPermit) : tx unit :=
  for_each (λ b,
    let* _ := audit_insert (with_outcome accepted "permit.bind"
        (Some (app +:+ "/" +:+ env +:+ "/" +:+ bp_descriptor b)) Accepted (Some (bp_action b)))
      (Some deployment) (bp_issued_entry b) in ret tt) bound.
End permits.
