(* ===== verification/Deployments.v ===== *)
(** * Deployments ([crates/store/src/sqlite.rs], [deploy.rs])

    Accepting a deployment or a deletion, and finishing it. Acceptance is one transaction: the
    retry with the same key, the authority of the actor, the state of the environment and its
    generation, the one running deployment, uncertain resources, the set and the delta, the
    permits, and then the new deployment with the next generation. *)

From Stdlib Require Import Ascii.
From stdpp Require Import base sets strings list.
From S2P Require Import Prelude Strings OrdMap Json Canonical Sets Db Identity Apps Permits.

Local Open Scope string_scope.
Local Open Scope Z_scope.
Local Open Scope list_scope.

(** ** Records *)

Inductive DeploymentKind := Deploy | DeleteEnv.
#[export] Instance DeploymentKind_eq_dec : EqDecision DeploymentKind.
Proof. solve_decision. Defined.

Definition deployment_kind_as_str (k : DeploymentKind) : string :=
  match k with Deploy => "deploy" | DeleteEnv => "delete_env" end.

Definition deployment_kind_parse (s : string) : result DeploymentKind StoreError :=
  if String.eqb s "deploy" then Ok Deploy
  else if String.eqb s "delete_env" then Ok DeleteEnv
  else Err (Corrupt ("deployment kind " +:+ quoted s)).

Inductive DeploymentStatus := InProgress | StatusSucceeded | StatusFailed.
#[export] Instance DeploymentStatus_eq_dec : EqDecision DeploymentStatus.
Proof. solve_decision. Defined.

Definition deployment_status_parse (s : string) : result DeploymentStatus StoreError :=
  if String.eqb s "in_progress" then Ok InProgress
  else if String.eqb s "succeeded" then Ok StatusSucceeded
  else if String.eqb s "failed" then Ok StatusFailed
  else Err (Corrupt ("deployment status " +:+ quoted s)).

Record DeploymentRecord := mk_DeploymentRecord {
  dl_id : string; dl_app : string; dl_env : string; dl_seq : Z; dl_kind : DeploymentKind;
  dl_actor : string; dl_set_id : option string; dl_delta_id : option string;
  dl_comment : string; dl_generation : Z; dl_status : DeploymentStatus;
  dl_error : option string; dl_created_at : Z; dl_finished_at : option Z
}.

Record DeploymentRequest := mk_DeploymentRequest {
  dq_org : string; dq_app : string; dq_env : string; dq_actor : string;
  dq_expected_generation : Z; dq_idempotency_key : option string; dq_fingerprint : string;
  dq_kind : DeploymentKind; dq_set_id : option string; dq_delta_id : option string;
  dq_delta_content : option Value; dq_comment : string; dq_snapshot : Value;
  dq_audit : AuditIntent; dq_permits : PermitBinding
}.

Inductive Acceptance :=
| Created (d : DeploymentRecord)
| Replayed (d : DeploymentRecord).

Definition acceptance_deployment (a : Acceptance) : DeploymentRecord :=
  match a with Created d | Replayed d => d end.

Record AppDeletionRequest := mk_AppDeletionRequest {
  ad_org : string; ad_app : string; ad_actor : string; ad_comment : string;
  ad_snapshot : Value; ad_audit : AuditIntent; ad_permits : list (string * PermitBinding)
}.

Record AppDeletion := mk_AppDeletion { adl_deletions : list Acceptance; adl_removed : bool }.

(** A line of a log; its position is ignored when appending. *)
Record LogLine := mk_LogLine {
  ll_operation_id : option string; ll_descriptor : option string; ll_guresid : option string;
  ll_at : Z; ll_level : string; ll_message : string
}.

Definition deployment_into_record (r : DeploymentRow) : result DeploymentRecord StoreError :=
  let? kind := deployment_kind_parse (dp_kind r) in
  let? status := deployment_status_parse (dp_status r) in
  Ok (mk_DeploymentRecord (dp_id r) (dp_app r) (dp_env r) (dp_seq r) kind (dp_actor r) (dp_set_id r)
        (dp_delta_id r) (dp_comment r) (dp_generation r) status (dp_error r) (dp_created_at r)
        (dp_finished_at r)).

(** ** Keys *)

Definition in_env (app env : string) (r : DeploymentRow) : bool :=
  String.eqb (dp_app r) app && String.eqb (dp_env r) env.
Definition is_deployment (app env id : string) (r : DeploymentRow) : bool :=
  in_env app env r && String.eqb (dp_id r) id.
Definition is_running (r : DeploymentRow) : bool := String.eqb (dp_status r) "in_progress".
Definition has_key (actor key : string) (r : DeploymentRow) : bool :=
  String.eqb (dp_actor r) actor && sql_eq (dp_idempotency_key r) (Some key).

Definition res_in_env (app env : string) (r : ResourceRow) : bool :=
  String.eqb (rs_app r) app && String.eqb (rs_env r) env.

Definition fetch_deployment (app env id : string) : tx (option DeploymentRecord) :=
  let* row := query (λ d, select_one (is_deployment app env id) (db_deployments d)) in
  match row with
  | None => ret None
  | Some r => let* x := lift (deployment_into_record r) in ret (Some x)
  end.

(** A deployment that must be there. *)
Definition require_deployment (app env id : string) : tx DeploymentRecord :=
  let* d := fetch_deployment app env id in
  require d (Corrupt ("deployment " +:+ quoted id)).

Section deployments.
Context `{System} (store_org : string).

Abbreviation check_org := (check_org store_org).

(** ** Logs *)

Definition append_log (row : Z → LogRow) : tx unit :=
  let* seq := query db_seq in
  let '(audit, logs, tombs, values) := seq in
  execute (upd_logs (λ t, t ++ [row (logs + 1)]));;
  execute (set_seq (audit, logs + 1, tombs, values)).

(** [INSERT INTO logs ... SELECT ... FROM deployments WHERE id = ? AND status = 'in_progress']. *)
Definition log_in_tx (deployment_id : string) (op : option (string * string))
    (level message : string) : tx unit :=
  let* now := now_ms in
  let* running := query (λ d, select (λ r, String.eqb (dp_id r) deployment_id && is_running r)
    (db_deployments d)) in
  let* descriptor := query (λ d,
    g ← snd <$> op; rs_descriptor <$> select_one (λ r, String.eqb (rs_guresid r) g) (db_active_resources d)) in
  for_each (λ r, append_log (λ seq, mk_LogRow seq (dp_app r) (dp_env r) (dp_id r) (fst <$> op)
    (snd <$> op) now level message descriptor)) running.

Definition append_logs (org app env deployment_id : string) (lines : list LogLine) : tx unit :=
  check_org org;;
  for_each (λ line,
    let* running := query (λ d, select (λ r, is_deployment app env deployment_id r && is_running r)
      (db_deployments d)) in
    for_each (λ r, append_log (λ seq, mk_LogRow seq (dp_app r) (dp_env r) (dp_id r)
      (ll_operation_id line) (ll_guresid line) (ll_at line) (ll_level line) (ll_message line)
      (ll_descriptor line))) running) lines.

Definition deployment_logs (org app env deployment_id : string) (after : option Z) (limit : Z)
    : tx (list LogRow) :=
  check_org org;;
  query (λ d, (if limit <? 0 then (λ l, l) else take (Z.to_nat limit)) (sort_by_key lg_seq
    (select (λ r, String.eqb (lg_app r) app && String.eqb (lg_env r) env
        && String.eqb (lg_deployment_id r) deployment_id && (option_default 0 after <? lg_seq r))
      (db_logs d)))).

(** ** Reading deployments *)

Definition latest_deployment (org app env : string) : tx (option DeploymentRecord) :=
  check_org org;;
  let* row := query (λ d, head (sort_by_key (λ r, - dp_seq r)
    (select (in_env app env) (db_deployments d)))) in
  match row with
  | None => ret None
  | Some r => let* x := lift (deployment_into_record r) in ret (Some x)
  end.

(** [before_seq] is [i64::MAX] without a bound, which no [seq] reaches. *)
Definition I64_MAX : Z := 9223372036854775807.

Definition deployments (org app env : string) (limit : Z) (before_seq : option Z)
    : tx (list DeploymentRecord) :=
  check_org org;;
  let* rows := query (λ d, take (Z.to_nat (Z.max 0 limit)) (sort_by_key (λ r, - dp_seq r)
    (select (λ r, in_env app env r && String.eqb (dp_kind r) "deploy"
        && (dp_seq r <? option_default I64_MAX before_seq)) (db_deployments d)))) in
  lift (try_map deployment_into_record rows).

(** The deployment an earlier request with the key made. *)
Definition prior_deployment (app env actor key : string) : tx (option (string * option string)) :=
  query (λ d, (λ r, (dp_id r, dp_fingerprint r))
    <$> select_one (λ r, in_env app env r && has_key actor key r) (db_deployments d)).

Definition idempotent_deployment (org app env actor key : string)
    : tx (option (DeploymentRecord * string)) :=
  check_org org;;
  let* prior := prior_deployment app env actor key in
  match prior with
  | None => ret None
  | Some (id, fingerprint) =>
      let* d := require_deployment app env id in
      ret (Some (d, option_default ε fingerprint))
  end.

Definition deployment_resources (org app env id : string) : tx (list DeploymentResourceRow) :=
  check_org org;;
  query (λ d, sort_by_key dr_descriptor (select (λ r, String.eqb (dr_app r) app
    && String.eqb (dr_env r) env && String.eqb (dr_deployment_id r) id) (db_deployment_resources d))).

Definition deployment_snapshot (org app env id : string) : tx (option Value) :=
  check_org org;;
  query (λ d, dp_snapshot <$> select_one (is_deployment app env id) (db_deployments d)).

Definition app_deployment (org app id : string) : tx (option DeploymentRecord) :=
  check_org org;;
  let* row := query (λ d, select_one (λ r, String.eqb (dp_app r) app && String.eqb (dp_id r) id)
    (db_deployments d)) in
  match row with
  | None => ret None
  | Some r => let* x := lift (deployment_into_record r) in ret (Some x)
  end.

Definition deployment (org app env id : string) : tx (option DeploymentRecord) :=
  check_org org;; fetch_deployment app env id.

(** ** Acceptance *)

(** Whether the state of the environment and its application admits the request. *)
Definition check_kind (app env : string) (kind : DeploymentKind) (app_state state : string) : tx unit :=
  match kind with
  | Deploy =>
      if negb (String.eqb app_state "active") then
        fail (Conflict ("application " +:+ quoted app +:+ " is being deleted"))
      else check (String.eqb state "active")
        (Conflict ("environment " +:+ env_name app env +:+ " is " +:+ state))
  | DeleteEnv =>
      if String.eqb state "deleting" then
        fail (Conflict ("environment " +:+ env_name app env +:+ " is already being deleted"))
      else check (negb (String.eqb env "development" && String.eqb app_state "active"))
        (Conflict "the `development` environment exists as long as its application")
  end.

Definition check_set (app : string) (kind : DeploymentKind) (set_id : option string) : tx unit :=
  match kind, set_id with
  | Deploy, None => fail (Conflict "a deployment needs a set")
  | DeleteEnv, Some _ => fail (Conflict "an environment deletion deploys no set")
  | Deploy, Some id =>
      let* s := query (λ d, select_one (is_set app id) (db_sets d)) in
      check (is_some s) (NotFound ("set " +:+ quoted id))
  | DeleteEnv, None => ret tt
  end.

(** The delta must be the one the set was derived from. *)
Definition check_delta (app : string) (delta_id : option string) (content : option Value) : tx unit :=
  match delta_id, content with
  | Some delta, Some expected =>
      let* stored := query (λ d, de_content <$> select_one (is_delta app delta) (db_deltas d)) in
      let* stored := require stored (NotFound ("delta " +:+ quoted delta)) in
      check (value_eqb stored expected)
        (Conflict ("delta " +:+ quoted delta +:+ " changed while the deployment was being prepared"))
  | _, _ => ret tt
  end.

Definition freeze_delta_row (now : Z) (r : DeltaRow) : DeltaRow :=
  mk_DeltaRow (de_app r) (de_id r) (de_env r) (de_content r) (de_base_generation r)
    (coalesce (de_frozen_at r) (Some now)) (de_created_at r) (de_created_by r) (de_updated_at r).

Definition freeze_delta (app : string) (delta_id : option string) : tx unit :=
  match delta_id with
  | None => ret tt
  | Some delta =>
      let* now := now_ms in
      let* n := query (λ d, select (is_delta app delta) (db_deltas d)) in
      execute (upd_deltas (update (is_delta app delta) (freeze_delta_row now)));;
      check (negb (Nat.eqb (length n) 0)) (NotFound ("delta " +:+ quoted delta))
  end.

(** [COALESCE(MAX(seq), 0) + 1]. *)
Definition next_seq (app env : string) (d : Db) : Z :=
  match dp_seq <$> select (in_env app env) (db_deployments d) with
  | [] => 1
  | s :: l => foldl Z.max s l + 1
  end.

(** The constraints of the table, with its index of the running deployment. *)
Definition deployment_unique (row : DeploymentRow) (d : Db) : bool :=
  negb (existsb (λ r, in_env (dp_app row) (dp_env row) r
    && (String.eqb (dp_id r) (dp_id row) || (dp_seq r =? dp_seq row)
        || (String.eqb (dp_actor r) (dp_actor row)
            && sql_eq (dp_idempotency_key r) (dp_idempotency_key row))
        || (is_running r && is_running row))) (db_deployments d)).

Definition insert_deployment (row : DeploymentRow) : tx unit :=
  insert_row db_deployments upd_deployments (λ _, true) (deployment_unique row)
    (λ d, existsb (is_env (dp_app row) (dp_env row)) (db_envs d)) row.

(** The environment on acceptance: a deletion keeps the desired set. *)
Definition accept_env_row (generation : Z) (set_id : option string) (deleting : bool) (r : EnvRow)
    : EnvRow :=
  mk_EnvRow (en_app r) (en_id r) (en_name r) (en_type r) generation
    (coalesce set_id (en_desired_set_id r)) (en_last_successful_set_id r)
    (en_last_successful_deploy_id r) (if deleting then "deleting" else en_state r)
    (en_created_at r) (en_created_by r).

(** The checks of an acceptance, after the retry; they return the generation. *)
Definition check_accept (req : DeploymentRequest) : tx Z :=
  let app := dq_app req in
  let env := dq_env req in
  let* e := query (λ d, select_one (is_env app env) (db_envs d)) in
  let* e := require e (NotFound ("environment " +:+ env_name app env)) in
  check_env_authority (ai_actor (dq_audit req)) app (en_type e);;
  let* a := query (λ d, select_one (is_app app) (db_apps d)) in
  let* a := require a (Database RowNotFound) in
  check_kind app env (dq_kind req) (ap_state a) (en_state e);;
  check (en_generation e =? dq_expected_generation req)
    (StaleGeneration (dq_expected_generation req) (en_generation e));;
  let* running := query (λ d, select_one (λ r, in_env app env r && is_running r) (db_deployments d)) in
  match running with Some r => fail (Busy (dp_id r)) | None => ret tt end;;
  let* uncertain := query (λ d, rs_descriptor <$> sort_by_key rs_descriptor
    (select (λ r, res_in_env app env r
       && (String.eqb (rs_status r) "unknown" || String.eqb (rs_status r) "recovery_required"))
     (db_active_resources d))) in
  check (match uncertain with [] => true | _ => false end) (RecoveryRequired (join ", " uncertain));;
  check_set app (dq_kind req) (dq_set_id req);;
  check_delta app (dq_delta_id req) (dq_delta_content req);;
  ret (en_generation e).

(** A new deployment, once the request is checked. *)
Definition create_deployment (req : DeploymentRequest) (generation : Z) : tx DeploymentRecord :=
  let app := dq_app req in
  let env := dq_env req in
  let* id := random_hex 16 in
  let* bound := bind_permits app env generation id (dq_permits req) in
  let* seq := query (next_seq app env) in
  let* now := now_ms in
  insert_deployment (mk_DeploymentRow app env id seq (deployment_kind_as_str (dq_kind req))
    (dq_actor req) (dq_set_id req) (dq_delta_id req) (dq_comment req) (generation + 1)
    "in_progress" (dq_idempotency_key req) (Some (dq_fingerprint req)) (dq_snapshot req) None now None);;
  execute (upd_envs (update (is_env app env) (accept_env_row (generation + 1) (dq_set_id req)
    (bool_decide (dq_kind req = DeleteEnv)))));;
  let audit := dq_audit req in
  let intent := with_outcome audit (ai_action audit)
    (Some (option_default (app +:+ "/" +:+ env) (ai_target audit))) Accepted (ai_reason audit) in
  let* _ := audit_insert intent (Some id) None in
  audit_bound intent app env id bound;;
  require_deployment app env id.

Definition accept_new (req : DeploymentRequest) : tx Acceptance :=
  let* generation := check_accept req in
  freeze_delta (dq_app req) (dq_delta_id req);;
  let* d := create_deployment req generation in
  ret (Created d).

Definition accept_in_tx (req : DeploymentRequest) : tx Acceptance :=
  match dq_idempotency_key req with
  | None => accept_new req
  | Some key =>
      let* prior := prior_deployment (dq_app req) (dq_env req) (dq_actor req) key in
      match prior with
      | None => accept_new req
      | Some (id, fingerprint) =>
          check (eq_opt fingerprint (Some (dq_fingerprint req))) (IdempotencyMismatch key);;
          let* d := require_deployment (dq_app req) (dq_env req) id in
          ret (Replayed d)
      end
  end.

Definition accept_deployment (req : DeploymentRequest) : tx Acceptance :=
  check_org (dq_org req);; accept_in_tx req.

(** ** Removal *)

(** Removes an application whose environments are all gone. *)
Definition remove_app (app : string) : tx unit :=
  execute (λ d,
    upd_apps (delete_rows (is_app app))
    (upd_app_roles (delete_rows (λ r, String.eqb (ar_app r) app))
    (upd_secret_grants (delete_rows (λ r, sql_eq (sg_app r) (Some app)))
    (upd_sets (delete_rows (λ r, String.eqb (st_app r) app))
    (upd_deltas (delete_rows (λ r, String.eqb (de_app r) app))
    (upd_value_set_versions (delete_rows (λ r, String.eqb (vv_app r) app))
    (upd_app_values (delete_rows (λ r, String.eqb (av_app r) app)) d))))))).

Definition opt_str (o : option string) : Value := match o with Some s => Str s | None => Null end.

(** The body of the tombstone of a released resource: [json_object(...)]. *)
Definition released_body (r : ResourceRow) : Value :=
  Obj [("definition_id", opt_str (rs_definition_id r)); ("driver_type", opt_str (rs_driver_type r));
       ("ownership", Str (rs_ownership r)); ("external_ids", Arr (Str <$> rs_external_ids r));
       ("backend", opt_str (rs_backend r)); ("outputs", rs_outputs r)].

Definition append_tombstone (row : Z → TombstoneRow) : tx unit :=
  let* seq := query db_seq in
  let '(audit, logs, tombs, values) := seq in
  execute (upd_tombstones (λ t, t ++ [row (tombs + 1)]));;
  execute (set_seq (audit, logs, tombs + 1, values)).

(** Resources the environment lists but does not own get a tombstone. *)
Definition release_resources (app env : string) : tx unit :=
  let* now := now_ms in
  let* rows := query (λ d, select (res_in_env app env) (db_active_resources d)) in
  for_each (λ r, append_tombstone (λ seq, mk_TombstoneRow seq (rs_app r) (rs_env r) (rs_descriptor r)
    (rs_guresid r) "released" None (released_body r) now None None None None)) rows.

(** Removes a deleted environment and everything recorded about it. *)
Definition remove_env (app env : string) : tx unit :=
  release_resources app env;;
  execute (λ d,
    upd_envs (delete_rows (is_env app env))
    (upd_secret_grants (delete_rows (λ r, sql_eq (sg_app r) (Some app) && sql_eq (sg_env r) (Some env)))
    (upd_deltas (delete_rows (λ r, String.eqb (de_app r) app && sql_eq (de_env r) (Some env)))
    (upd_value_set_versions (delete_rows (λ r, String.eqb (vv_app r) app && String.eqb (vv_env r) env))
    (upd_app_values (delete_rows (λ r, String.eqb (av_app r) app && String.eqb (av_env r) env))
    (upd_deployments (delete_rows (in_env app env))
    (upd_deployment_resources (delete_rows (λ r, String.eqb (dr_app r) app && String.eqb (dr_env r) env))
    (upd_logs (delete_rows (λ r, String.eqb (lg_app r) app && String.eqb (lg_env r) env))
    (upd_operations (delete_rows (λ r, String.eqb (op_app r) app && String.eqb (op_env r) env))
    (upd_active_resources (delete_rows (res_in_env app env))
    (upd_approval_requests (delete_rows (λ r, String.eqb (aq_app r) app && String.eqb (aq_env r) env))
    (upd_plans (delete_rows (λ r, String.eqb (pl_app r) app && String.eqb (pl_env r) env))
    (upd_permits (delete_rows (λ r, String.eqb (pm_app r) app && String.eqb (pm_env r) env)) d))))))))))))).

(** ** Finishing *)

Definition finish_deployment_row (status : string) (error : option string) (now : Z)
    (r : DeploymentRow) : DeploymentRow :=
  mk_DeploymentRow (dp_app r) (dp_env r) (dp_id r) (dp_seq r) (dp_kind r) (dp_actor r) (dp_set_id r)
    (dp_delta_id r) (dp_comment r) (dp_generation r) status (dp_idempotency_key r)
    (dp_fingerprint r) (dp_snapshot r) error (dp_created_at r) (Some now).

Definition succeed_env_row (set_id : option string) (id : string) (r : EnvRow) : EnvRow :=
  mk_EnvRow (en_app r) (en_id r) (en_name r) (en_type r) (en_generation r) (en_desired_set_id r)
    set_id (Some id) (en_state r) (en_created_at r) (en_created_by r).

Definition set_env_state (state : string) (r : EnvRow) : EnvRow :=
  mk_EnvRow (en_app r) (en_id r) (en_name r) (en_type r) (en_generation r) (en_desired_set_id r)
    (en_last_successful_set_id r) (en_last_successful_deploy_id r) state (en_created_at r)
    (en_created_by r).

(** What must be gone before the environment is: what it owns, and what it adopted and was
    told to delete. *)
Definition blocks_removal (app env : string) (r : ResourceRow) : bool :=
  res_in_env app env r
  && (String.eqb (rs_ownership r) "owned"
      || (String.eqb (rs_ownership r) "adopted" && rs_scheduled_deletion r)).

(** The outcome of a deletion that reported none. *)
Definition finish_error (app env : string) (kind : DeploymentKind) (error : option string)
    : tx (option string) :=
  match kind, error with
  | DeleteEnv, None =>
      let* owned := query (λ d, take 5 (rs_descriptor <$> sort_by_key rs_descriptor
        (select (blocks_removal app env) (db_active_resources d)))) in
      ret (match owned with
           | [] => None
           | _ => Some ("resources to delete remain: " +:+ join ", " owned
               +:+ "; delete the environment again")
           end)
  | _, _ => ret error
  end.

(** The environment after the outcome; whether the application went with it. *)
Definition finish_env (app env id : string) (kind : DeploymentKind) (set_id error : option string)
    : tx bool :=
  match kind, error with
  | Deploy, None => execute (upd_envs (update (is_env app env) (succeed_env_row set_id id)));; ret false
  | Deploy, Some _ => ret false
  | DeleteEnv, Some _ =>
      execute (upd_envs (update (is_env app env) (set_env_state "deletion_failed")));; ret false
  | DeleteEnv, None =>
      remove_env app env;;
      let* a := query (λ d, select_one (is_app app) (db_apps d)) in
      let* a := require a (Database RowNotFound) in
      let* remaining := query (λ d, select (λ e, String.eqb (en_app e) app) (db_envs d)) in
      if String.eqb (ap_state a) "deleting" && Nat.eqb (length remaining) 0
      then remove_app app;; ret true else ret false
  end.

(** The log ends with the outcome. *)
Definition outcome_line (error : option string) : string * string :=
  match error with
  | None => ("info", "deployment succeeded")
  | Some e => ("error", "deployment failed: " +:+ e)
  end.

Definition finish_audit (org app env id : string) (error : option string) (app_removed : bool)
    : tx unit :=
  let* (correlates, accepted) := acceptance_intent org app env id in
  let intent := mk_AuditIntent (ai_org accepted) (ai_actor accepted) (ai_request_id accepted)
    (ai_method accepted) (ai_path accepted) "deployment.finish" (Some (app +:+ "/" +:+ env))
    (if is_some error then Failed else Succeeded) None
    (if is_some error then Some "deployment_failed" else None) in
  let* _ := audit_insert intent (Some id) correlates in
  if app_removed then
    let* _ := audit_insert (with_outcome intent "app.delete" (Some app) (ai_outcome intent)
      (ai_reason intent)) (Some id) correlates in ret tt
  else ret tt.

Definition finish_in_tx (org app env id : string) (error : option string) : tx unit :=
  let* row := query (λ d, select_one (is_deployment app env id) (db_deployments d)) in
  let* r := require row (NotFound ("deployment " +:+ quoted id)) in
  check (is_running r) (Conflict ("deployment " +:+ quoted id +:+ " is already " +:+ dp_status r));;
  let* kind := lift (deployment_kind_parse (dp_kind r)) in
  let* error := finish_error app env kind error in
  log_in_tx id None (outcome_line error).1 (outcome_line error).2;;
  let* now := now_ms in
  execute (upd_deployments (update (is_deployment app env id)
    (finish_deployment_row (if is_some error then "failed" else "succeeded") error now)));;
  let* app_removed := finish_env app env id kind (dp_set_id r) error in
  finish_audit org app env id error app_removed.

Definition finish_deployment (org app env id : string) (error : option string) : tx unit :=
  check_org org;; finish_in_tx org app env id error.

(** ** Deleting an application *)

Definition set_app_state (state : string) (r : AppRow) : AppRow :=
  mk_AppRow (ap_id r) (ap_name r) (ap_created_at r) (ap_created_by r) state.

(** The request that deletes one of its environments. *)
Definition deletion_request (req : AppDeletionRequest) (env : string) (generation : Z)
    (permits : PermitBinding) : DeploymentRequest :=
  mk_DeploymentRequest (ad_org req) (ad_app req) env (ad_actor req) generation None ε DeleteEnv
    None None None (ad_comment req) (ad_snapshot req) (with_target (ad_audit req) None) permits.

Definition delete_env_of (req : AppDeletionRequest) (deletions : list Acceptance) (e : EnvRow)
    : tx (list Acceptance) :=
  let app := ad_app req in
  let env := en_id e in
  if String.eqb (en_state e) "deleting" then
    let* running := query (λ d, select_one (λ r, in_env app env r && is_running r
      && String.eqb (dp_kind r) "delete_env") (db_deployments d)) in
    let* r := require running (Corrupt ("environment " +:+ env_name app env +:+ " has no running deletion")) in
    let* d := require_deployment app env (dp_id r) in
    ret (deletions ++ [Replayed d])
  else
    let* permits := require (bt_get env (ad_permits req))
      (Conflict ("environment " +:+ env_name app env
        +:+ " was added while the application's deletion was prepared; try again")) in
    let* acceptance := accept_in_tx (deletion_request req env (en_generation e) permits) in
    ret (deletions ++ [acceptance]).

(** [ORDER BY id = 'development', id]: [development] last. *)
Definition env_order (e : EnvRow) : Z * string :=
  (if String.eqb (en_id e) "development" then 1 else 0, en_id e).

Definition accept_app_deletion (req : AppDeletionRequest) : tx AppDeletion :=
  check_org (ad_org req);;
  let app := ad_app req in
  let* exists_ := query (λ d, select_one (is_app app) (db_apps d)) in
  check (is_some exists_) (NotFound ("application " +:+ quoted app));;
  let actor := ai_actor (ad_audit req) in
  check_app_authority actor app;;
  let* envs := query (λ d, sort_by_key env_order (select (λ e, String.eqb (en_app e) app) (db_envs d))) in
  for_each (λ e, check_env_authority actor app (en_type e)) envs;;
  execute (upd_apps (update (is_app app) (set_app_state "deleting")));;
  let* deletions := fold_each (delete_env_of req) [] envs in
  let* _ := audit_insert (with_target (ad_audit req)
    (Some (option_default app (ai_target (ad_audit req))))) None None in
  let removed := match envs with [] => true | _ => false end in
  (if removed then remove_app app else ret tt);;
  ret (mk_AppDeletion deletions removed).
End deployments.
