(* ===== verification/Resources.v ===== *)
(** * Resources and their operations ([crates/store/src/sqlite.rs], [deploy.rs])

    A driver call is bracketed by two transactions: [begin_operation] records it before the
    driver runs, under the permanent identity of the resource, and [checkpoint_operation] records
    its result. An operation whose result was not recorded leaves its resource in doubt, which
    blocks the environment until the outcome is established ([resolve_operation]). After a restart,
    [recover_interrupted] closes what was running. An operator may detach a resource, or
    schedule its deletion. *)

From Stdlib Require Import Ascii SpecFloat.
From stdpp Require Import base sets strings list.
From S2P Require Import Prelude Strings OrdMap Ids Float64 Json Canonical Model Db Identity Apps Permits Deployments.

Local Open Scope string_scope.
Local Open Scope Z_scope.
Local Open Scope list_scope.

(** ** Records *)

Inductive OperationKind := Put | Delete.
#[export] Instance OperationKind_eq_dec : EqDecision OperationKind.
Proof. solve_decision. Defined.

Definition operation_kind_as_str (k : OperationKind) : string :=
  match k with Put => "put" | Delete => "delete" end.

Record OperationStart := mk_OperationStart {
  os_org : string; os_app : string; os_env : string; os_deployment_id : string;
  os_descriptor : Descriptor; os_definition_id : option string;
  os_definition_version : option Z; os_driver_type : option string; os_kind : OperationKind;
  os_input_fingerprint : string; os_recovery : Value
}.

Record OperationStarted := mk_OperationStarted {
  ost_operation_id : string; ost_guresid : string; ost_attempt : Z
}.

Record Provisioned := mk_Provisioned {
  pv_outputs : Value; pv_secret_outputs : list (string * SecretRef); pv_cookie : option Sealed;
  pv_recovery : Value; pv_inputs : Value; pv_dependencies : list string; pv_snapshot : Value;
  pv_account : option string; pv_target : option string; pv_backend : option string;
  pv_external_ids : list string; pv_pin : option Value
}.

Inductive CheckpointResult :=
| WasProvisioned (p : Provisioned)
| WasDeleted
| WasFailed (error : string)
| CleanupPending (error : string)
| WasUnknown (error : string) (cookie : option Sealed).

Inductive ResourceRunStatus := RunPending | RunSkipped | RunFailed | RunUnknown.

Definition run_status_as_str (s : ResourceRunStatus) : string :=
  match s with
  | RunPending => "pending"
  | RunSkipped => "skipped"
  | RunFailed => "failed"
  | RunUnknown => "unknown"
  end.

Record Detach := mk_Detach {
  dt_descriptor : string; dt_guresid : string; dt_reason : string;
  dt_permits : option (list string)
}.

Record UncertainOperation := mk_UncertainOperation {
  uo_operation_id : string; uo_deployment_id : string; uo_guresid : string; uo_app : string;
  uo_env : string; uo_descriptor : string
}.

(** An active resource is its row; reading the JSON columns gives the values that were written. *)
Record UnknownOperation := mk_UnknownOperation {
  un_operation_id : string; un_deployment_id : string; un_kind : OperationKind; un_attempt : Z;
  un_input_fingerprint : string; un_recovery : Value; un_error : option string;
  un_resource : ResourceRow
}.

Inductive Resolution :=
| Observed (r : CheckpointResult)
| Repeatable (reason : string)
| NeedsRecovery (reason : string)
| Confirmed
| Operator (reason : string).

Record RecoveryReport := mk_RecoveryReport {
  rr_failed_deployments : list string; rr_uncertain : list UncertainOperation
}.

(** ** Rows *)

Definition is_resource (app env descriptor : string) (r : ResourceRow) : bool :=
  res_in_env app env r && String.eqb (rs_descriptor r) descriptor.
Definition has_guresid (g : string) (r : ResourceRow) : bool := String.eqb (rs_guresid r) g.
Definition is_operation (id : string) (o : OperationRow) : bool := String.eqb (op_id o) id.
Definition op_in_state (g state : string) (o : OperationRow) : bool :=
  String.eqb (op_guresid o) g && String.eqb (op_state o) state.

(** The record in a deployment of the resource with the GUResID. *)
Definition is_run_of (deployment g : string) (r : DeploymentResourceRow) : bool :=
  String.eqb (dr_deployment_id r) deployment && String.eqb (dr_guresid r) g.
Definition is_run (app env deployment descriptor : string) (r : DeploymentResourceRow) : bool :=
  String.eqb (dr_app r) app && String.eqb (dr_env r) env
  && String.eqb (dr_deployment_id r) deployment && String.eqb (dr_descriptor r) descriptor.

(** The outcome of the resource's last operation is not known. *)
Definition in_doubt (status : string) : bool :=
  String.eqb status "unknown" || String.eqb status "recovery_required".

(** [SET status = ?, updated_at = ?], with [observed_at = ?] when it is observed. *)
Definition set_res_status (status : string) (observed : option Z) (now : Z) (r : ResourceRow)
    : ResourceRow :=
  mk_ResourceRow (rs_app r) (rs_env r) (rs_descriptor r) (rs_guresid r) (rs_definition_id r)
    (rs_definition_version r) (rs_driver_type r) (rs_inputs r) (rs_outputs r)
    (rs_secret_outputs r) (rs_cookie_key_id r) (rs_cookie_nonce r) (rs_cookie r) status
    (rs_recovery r) (rs_snapshot r) (rs_backend r) (rs_external_ids r) (rs_ownership r)
    (rs_dependencies r) (rs_last_deploy_id r) (coalesce observed (rs_observed_at r))
    (rs_scheduled_deletion r) (rs_created_at r) now (rs_driver_account r) (rs_target r)
    (rs_cleanup_pending r).

(** The flags of a deletion, and when they changed. *)
Definition set_res_flags (scheduled cleanup : bool) (updated : Z) (r : ResourceRow) : ResourceRow :=
  mk_ResourceRow (rs_app r) (rs_env r) (rs_descriptor r) (rs_guresid r) (rs_definition_id r)
    (rs_definition_version r) (rs_driver_type r) (rs_inputs r) (rs_outputs r)
    (rs_secret_outputs r) (rs_cookie_key_id r) (rs_cookie_nonce r) (rs_cookie r) (rs_status r)
    (rs_recovery r) (rs_snapshot r) (rs_backend r) (rs_external_ids r) (rs_ownership r)
    (rs_dependencies r) (rs_last_deploy_id r) (rs_observed_at r) scheduled (rs_created_at r)
    updated (rs_driver_account r) (rs_target r) cleanup.

(** [SET cookie_key_id = ?, cookie_nonce = ?, cookie = ?]. *)
Definition set_cookie (c : Sealed) (r : ResourceRow) : ResourceRow :=
  mk_ResourceRow (rs_app r) (rs_env r) (rs_descriptor r) (rs_guresid r) (rs_definition_id r)
    (rs_definition_version r) (rs_driver_type r) (rs_inputs r) (rs_outputs r)
    (rs_secret_outputs r) (Some (sl_key_id c)) (Some (sl_nonce c)) (Some (sl_ciphertext c))
    (rs_status r) (rs_recovery r) (rs_snapshot r) (rs_backend r) (rs_external_ids r)
    (rs_ownership r) (rs_dependencies r) (rs_last_deploy_id r) (rs_observed_at r)
    (rs_scheduled_deletion r) (rs_created_at r) (rs_updated_at r) (rs_driver_account r)
    (rs_target r) (rs_cleanup_pending r).

(** An existing resource when an operation begins: until it has provisioned once, its
    definition columns show the latest attempt. *)
Definition begin_res_row (start : OperationStart) (status : string) (now : Z) (r : ResourceRow)
    : ResourceRow :=
  let latest {A} (new old : option A) :=
    if is_some (rs_last_deploy_id r) then old else coalesce new old in
  mk_ResourceRow (rs_app r) (rs_env r) (rs_descriptor r) (rs_guresid r)
    (latest (os_definition_id start) (rs_definition_id r))
    (latest (os_definition_version start) (rs_definition_version r))
    (latest (os_driver_type start) (rs_driver_type r)) (rs_inputs r) (rs_outputs r)
    (rs_secret_outputs r) (rs_cookie_key_id r) (rs_cookie_nonce r) (rs_cookie r) status
    (rs_recovery r) (rs_snapshot r) (rs_backend r) (rs_external_ids r) (rs_ownership r)
    (rs_dependencies r) (rs_last_deploy_id r) (rs_observed_at r) (rs_scheduled_deletion r)
    (rs_created_at r) now (rs_driver_account r) (rs_target r)
    (if bool_decide (os_kind start = Put) then false else rs_cleanup_pending r).

(** A new resource. *)
Definition new_resource (start : OperationStart) (descriptor guresid : string) (now : Z)
    : ResourceRow :=
  mk_ResourceRow (os_app start) (os_env start) descriptor guresid (os_definition_id start)
    (os_definition_version start) (os_driver_type start) (Obj []) (Obj []) (Obj []) None None
    None "provisioning" (os_recovery start) (Obj []) None [] "owned" [] None None false now now
    None None false.

Definition secret_ref_to_value (r : SecretRef) : Value :=
  Obj ([("store", Str (sr_store r)); ("ref", Str (sr_reference r))]
    ++ match sr_version r with Some v => [("version", Str v)] | None => [] end).

(** A resource that was provisioned by the operation [o]. *)
Definition provision_res_row (p : Provisioned) (o : OperationRow) (now : Z) (r : ResourceRow)
    : ResourceRow :=
  mk_ResourceRow (rs_app r) (rs_env r) (rs_descriptor r) (rs_guresid r)
    (coalesce (op_definition_id o) (rs_definition_id r))
    (coalesce (op_definition_version o) (rs_definition_version r))
    (coalesce (op_driver_type o) (rs_driver_type r)) (pv_inputs p) (pv_outputs p)
    (Obj ((λ e, (e.1, secret_ref_to_value e.2)) <$> pv_secret_outputs p))
    (sl_key_id <$> pv_cookie p) (sl_nonce <$> pv_cookie p) (sl_ciphertext <$> pv_cookie p)
    "provisioned" (pv_recovery p) (pv_snapshot p) (pv_backend p) (pv_external_ids p)
    (rs_ownership r) (pv_dependencies p) (Some (op_deployment_id o)) (Some now)
    (rs_scheduled_deletion r) (rs_created_at r) now (pv_account p) (pv_target p)
    (rs_cleanup_pending r).

(** [UPDATE operations SET state = ?, error = ?, finished_at = ?]. *)
Definition set_op_state (state : string) (error : option string) (finished : option Z)
    (o : OperationRow) : OperationRow :=
  mk_OperationRow (op_id o) (op_app o) (op_env o) (op_deployment_id o) (op_guresid o)
    (op_kind o) (op_input_fingerprint o) state (op_attempt o) (op_recovery o) error
    (op_started_at o) finished (op_definition_id o) (op_definition_version o)
    (op_driver_type o).

Definition set_op_recovery (recovery : Value) (o : OperationRow) : OperationRow :=
  mk_OperationRow (op_id o) (op_app o) (op_env o) (op_deployment_id o) (op_guresid o)
    (op_kind o) (op_input_fingerprint o) (op_state o) (op_attempt o) recovery (op_error o)
    (op_started_at o) (op_finished_at o) (op_definition_id o) (op_definition_version o)
    (op_driver_type o).

(** [UPDATE deployment_resources SET status = ?, error = ?]. *)
Definition set_run (status : string) (error : option string) (r : DeploymentResourceRow)
    : DeploymentResourceRow :=
  mk_DeploymentResourceRow (dr_app r) (dr_env r) (dr_deployment_id r) (dr_descriptor r)
    (dr_guresid r) status (dr_attempts r) (dr_outputs r) error (dr_observed_at r).

Definition next_generation_row (r : EnvRow) : EnvRow :=
  mk_EnvRow (en_app r) (en_id r) (en_name r) (en_type r) (en_generation r + 1)
    (en_desired_set_id r) (en_last_successful_set_id r) (en_last_successful_deploy_id r)
    (en_state r) (en_created_at r) (en_created_by r).

(** ** JSON in SQL *)

(** [json_type(recovery, '$.inputs') IS NOT NULL]: the inputs are recorded right before the
    driver runs. *)
Definition has_inputs (recovery : Value) : bool :=
  match recovery with Obj o => im_contains "inputs" o | _ => false end.

(** [json_extract(v, '$.restored') = 1]. *)
Definition is_one (v : Value) : bool :=
  match v with
  | Bool b => b
  | Num n => SFeqb (as_f64 n) (f64_of_Z 1)
  | _ => false
  end.

(** The status that a resource had in the backup its operation was restored from:
    [CASE WHEN json_extract(recovery, '$.restored') = 1
     THEN COALESCE(json_extract(recovery, '$.restored_status'), 'provisioned') END], read as a
    text. An array or object would give its JSON text, which is no status. *)
Definition restored_status (recovery : Value) : result (option string) StoreError :=
  match recovery with
  | Obj o =>
      if match im_get "restored" o with Some v => is_one v | None => false end then
        match im_get "restored_status" o with
        | None | Some Null => Ok (Some "provisioned")
        | Some (Str s) => Ok (Some s)
        | Some (Arr l) => Ok (Some (to_canonical_string (Arr l)))
        | Some (Obj m) => Ok (Some (to_canonical_string (Obj m)))
        | Some (Bool _ | Num _) => Err (Database ColumnDecode)
        end
      else Ok None
  | _ => Ok None
  end.

(** [json_set(snapshot, '$.pins', json_set(COALESCE(json_extract(snapshot, '$.pins'), '{}'),
    '$.' || json_quote(descriptor), json(pin)))]. *)
Definition set_pin `{System} (descriptor : string) (pin snapshot : Value) : result Value StoreError :=
  match snapshot with
  | Obj o =>
      let put pins := Ok (Obj (im_insert "pins" pins o)) in
      match im_get "pins" o with
      | None | Some Null => put (Obj [(descriptor, pin)])
      | Some (Obj pins) => put (Obj (im_insert descriptor pin pins))
      | Some (Arr l) => put (Arr l)
      | Some scalar => let? pins := scalar_pins scalar in put pins
      end
  | _ => Ok snapshot
  end.

Definition set_snapshot (snapshot : Value) (r : DeploymentRow) : DeploymentRow :=
  mk_DeploymentRow (dp_app r) (dp_env r) (dp_id r) (dp_seq r) (dp_kind r) (dp_actor r)
    (dp_set_id r) (dp_delta_id r) (dp_comment r) (dp_generation r) (dp_status r)
    (dp_idempotency_key r) (dp_fingerprint r) snapshot (dp_error r) (dp_created_at r)
    (dp_finished_at r).

Section resources.
Context `{System} (store_org : string).

Abbreviation check_org := (check_org store_org).

(** ** Beginning an operation *)

(** The deployment must be running. *)
Definition check_in_progress (app env id : string) : tx unit :=
  let* status := query (λ d, dp_status <$> select_one (is_deployment app env id) (db_deployments d)) in
  match status with
  | Some status =>
      check (String.eqb status "in_progress")
        (Conflict ("deployment " +:+ quoted id +:+ " is " +:+ status))
  | None => fail (NotFound ("deployment " +:+ quoted id))
  end.

(** Whether a driver has provisioned the resource, as far as the record tells. *)
Definition was_provisioned (r : ResourceRow) : bool :=
  is_some (rs_last_deploy_id r) || is_some (rs_cookie r) || is_some (rs_target r).

Definition driver_conflict (start : OperationStart) (r : ResourceRow) : option (string * string) :=
  match rs_driver_type r, os_driver_type start with
  | Some current, Some driver =>
      if was_provisioned r && bool_decide (os_kind start = Put) && negb (String.eqb driver current)
      then Some (current, driver) else None
  | _, _ => None
  end.

(** Closes an operation: its state, its resource's status, and its record in its deployment. *)
Definition close_operation (id deployment guresid : string) (op_state status run error : string)
    (finished : option Z) (now : Z) : tx unit :=
  execute (upd_operations (update (is_operation id) (set_op_state op_state (Some error) finished)));;
  execute (upd_active_resources (update (has_guresid guresid) (set_res_status status None now)));;
  execute (upd_deployment_resources (update (is_run_of deployment guresid) (set_run run (Some error)))).

(** An operation that was left open. While its deployment runs it is in progress; otherwise
    it is closed the way a restart would close it. Returns whether its outcome is unknown. *)
Definition close_abandoned (descriptor : string) (r : ResourceRow) (o : OperationRow) : tx bool :=
  let* status := query (λ d, dp_status <$>
    select_one (λ x, String.eqb (dp_id x) (op_deployment_id o)) (db_deployments d)) in
  let* status := require status (Database RowNotFound) in
  check (negb (String.eqb status "in_progress"))
    (Conflict ("operation " +:+ quoted (op_id o) +:+ " on " +:+ quoted descriptor +:+ " has not finished"));;
  let* now := now_ms in
  let '(op_state, resource_status, error) :=
    if String.eqb (op_kind o) "delete" && rs_cleanup_pending r then
      ("failed", "deletion_failed", "abandoned; cleanup pending")
    else if String.eqb (op_kind o) "put" && negb (has_inputs (op_recovery o)) then
      ("failed", "failed", "abandoned before the driver was called")
    else ("unknown", "unknown", "abandoned without a recorded result") in
  close_operation (op_id o) (op_deployment_id o) (rs_guresid r) op_state resource_status op_state error
    (Some now) now;;
  ret (String.eqb op_state "unknown").

(** The latest tombstone of the descriptor is a detach. *)
Definition detached (app env descriptor : string) : tx bool :=
  let* reason := query (λ d, tb_reason <$> head (sort_by_key (λ t, - tb_seq t) (select (λ t,
    String.eqb (tb_app t) app && String.eqb (tb_env t) env && String.eqb (tb_descriptor t) descriptor)
    (db_tombstones d)))) in
  ret (eq_opt reason (Some "detached")).

Definition id_error (e : IdError) : string :=
  "invalid " +:+ ie_kind e +:+ " " +:+ quoted (ie_value e) +:+ ": " +:+ ie_reason e.

Definition insert_resource (row : ResourceRow) : tx unit :=
  insert_row db_active_resources upd_active_resources (λ _, true)
    (λ d, negb (existsb (λ r, is_resource (rs_app row) (rs_env row) (rs_descriptor row) r
        || has_guresid (rs_guresid row) r) (db_active_resources d)))
    (λ _, true) row.

(** The resource the operation is on: its identity, or [None] when the outcome of an
    abandoned operation is unknown. *)
Definition begin_resource (start : OperationStart) (descriptor : string) (now : Z) : tx (option string) :=
  let app := os_app start in
  let env := os_env start in
  let* existing := query (λ d, select_one (is_resource app env descriptor) (db_active_resources d)) in
  match existing with
  | Some r =>
      check (negb (in_doubt (rs_status r))) (RecoveryRequired descriptor);;
      match driver_conflict start r with
      | Some (from, to) => fail (MigrationRequired descriptor from to)
      | None => ret tt
      end;;
      let* open := query (λ d, select_one (op_in_state (rs_guresid r) "started") (db_operations d)) in
      let* unknown := match open with Some o => close_abandoned descriptor r o | None => ret false end in
      if unknown : bool then ret None
      else
        let status := match os_kind start with Put => "provisioning" | Delete => "deleting" end in
        execute (upd_active_resources (update (has_guresid (rs_guresid r)) (begin_res_row start status now)));;
        let* g := lift (map_err (λ e, Corrupt (id_error e)) (Guresid_new (rs_guresid r))) in
        ret (Some g)
  | None =>
      check (bool_decide (os_kind start = Put)) (NotFound ("active resource " +:+ quoted descriptor));;
      let* gone := detached app env descriptor in
      check (negb gone) (Detached descriptor);;
      let* g := random_hex 16 in
      insert_resource (new_resource start descriptor g now);;
      ret (Some g)
  end.

Definition insert_operation (row : OperationRow) : tx unit :=
  insert_row db_operations upd_operations (λ _, true)
    (λ d, negb (existsb (is_operation (op_id row)) (db_operations d))) (λ _, true) row.

(** [INSERT INTO deployment_resources ... ON CONFLICT DO UPDATE ... WHERE replace]. *)
Definition upsert_run (row : DeploymentResourceRow) (replace : DeploymentResourceRow → bool)
    (f : DeploymentResourceRow → DeploymentResourceRow) : tx unit :=
  let key := is_run (dr_app row) (dr_env row) (dr_deployment_id row) (dr_descriptor row) in
  let* old := query (λ d, existsb key (db_deployment_resources d)) in
  if old then execute (upd_deployment_resources (update (λ r, key r && replace r) f))
  else insert_row db_deployment_resources upd_deployment_resources (λ _, true) (λ _, true)
    (λ d, existsb (is_deployment (dr_app row) (dr_env row) (dr_deployment_id row)) (db_deployments d)) row.

(** Records the operation, before the driver is called. The one refusal that is committed,
    with the abandoned operation marked unknown, is returned as a value. *)
Definition begin_operation (start : OperationStart) : tx (result OperationStarted StoreError) :=
  check_org (os_org start);;
  let app := os_app start in
  let env := os_env start in
  let deployment := os_deployment_id start in
  let descriptor := Descriptor_show (os_descriptor start) in
  let* now := now_ms in
  check_in_progress app env deployment;;
  let* resource := begin_resource start descriptor now in
  match resource with
  | None => ret (Err (RecoveryRequired descriptor))
  | Some g =>
      let* n := query (λ d, length (select (λ o, String.eqb (op_deployment_id o) deployment
        && String.eqb (op_guresid o) g) (db_operations d))) in
      let attempt := Z.of_nat n + 1 in
      let* id := random_hex 16 in
      insert_operation (mk_OperationRow id app env deployment g (operation_kind_as_str (os_kind start))
        (os_input_fingerprint start) "started" attempt (os_recovery start) None now None
        (os_definition_id start) (os_definition_version start) (os_driver_type start));;
      upsert_run (mk_DeploymentResourceRow app env deployment descriptor g "provisioning" attempt None
          None None) (λ _, true)
        (λ r, mk_DeploymentResourceRow (dr_app r) (dr_env r) (dr_deployment_id r) (dr_descriptor r)
          (dr_guresid r) "provisioning" attempt (dr_outputs r) None (dr_observed_at r));;
      ret (Ok (mk_OperationStarted id g attempt))
  end.

(** ** Checkpoints *)

(** Which results an operation of the kind and state admits. *)
Definition check_result (id : string) (state kind : string) (result : CheckpointResult) : tx unit :=
  let matches := match result with
    | WasProvisioned _ => Some (String.eqb kind "put")
    | WasDeleted => Some (String.eqb kind "delete")
    | CleanupPending _ => Some (String.eqb kind "delete" && String.eqb state "started")
    | WasFailed _ | WasUnknown _ _ => None
    end in
  match matches with
  | Some ok =>
      check ok (Conflict ("operation " +:+ quoted id +:+ " is a " +:+ kind +:+ "; the result does not match it"))
  | None =>
      check (negb (String.eqb state "unknown"))
        (Conflict ("operation " +:+ quoted id
          +:+ " has an unknown outcome; it is resolved only by an observation of the resource"))
  end.

(** The body of the tombstone of a deleted resource. *)
Definition deleted_body (r : ResourceRow) : Value :=
  Obj [("definition_id", opt_str (rs_definition_id r)); ("driver_type", opt_str (rs_driver_type r));
       ("external_ids", Arr (Str <$> rs_external_ids r)); ("backend", opt_str (rs_backend r))].

(** [INSERT INTO tombstones ... SELECT ... FROM active_resources WHERE guresid = ?] and
    [DELETE FROM active_resources WHERE guresid = ?]. *)
Definition bury (guresid : string) (stone : ResourceRow → Z → TombstoneRow) : tx unit :=
  let* rows := query (λ d, select (has_guresid guresid) (db_active_resources d)) in
  for_each (λ r, append_tombstone (stone r)) rows;;
  execute (upd_active_resources (delete_rows (has_guresid guresid))).

Definition pin_deployment (o : OperationRow) (descriptor : string) (pin : option Value) : tx unit :=
  match pin with
  | None => ret tt
  | Some pin =>
      let is_dep := is_deployment (op_app o) (op_env o) (op_deployment_id o) in
      let* row := query (λ d, select_one is_dep (db_deployments d)) in
      match row with
      | None => ret tt
      | Some r =>
          let* snapshot := lift (set_pin descriptor pin (dp_snapshot r)) in
          execute (upd_deployments (update is_dep (set_snapshot snapshot)))
      end
  end.

(** What the result does to the resource, with the states it leaves: of the operation, of the
    resource (when not already written), of its record in the deployment, the error and the
    outputs. *)
Definition apply_result (o : OperationRow) (descriptor : string) (now : Z) (result : CheckpointResult)
    : tx (string * option string * string * option string * option Value) :=
  let g := op_guresid o in
  match result with
  | WasProvisioned p =>
      execute (upd_active_resources (update (has_guresid g) (provision_res_row p o now)));;
      pin_deployment o descriptor (pv_pin p);;
      ret ("succeeded", None, "provisioned", None, Some (pv_outputs p))
  | WasDeleted =>
      bury g (λ r seq, mk_TombstoneRow seq (rs_app r) (rs_env r) (rs_descriptor r) (rs_guresid r)
        "deleted" None (deleted_body r) now None None None None);;
      ret ("succeeded", None, "deleted", None, None)
  | WasFailed error =>
      ret ("failed", Some (if String.eqb (op_kind o) "delete" then "deletion_failed" else "failed"),
        "failed", Some error, None)
  | CleanupPending error =>
      execute (upd_active_resources (update (has_guresid g)
        (λ r, set_res_flags (rs_scheduled_deletion r) true (rs_updated_at r) r)));;
      ret ("failed", Some "deletion_failed", "failed", Some ("cleanup pending: " +:+ error), None)
  | WasUnknown error cookie =>
      match cookie with
      | Some c => execute (upd_active_resources (update (has_guresid g) (set_cookie c)))
      | None => ret tt
      end;;
      ret ("unknown", Some "unknown", "unknown", Some error, None)
  end.

Definition checkpoint_in_tx (id : string) (result : CheckpointResult) : tx unit :=
  let* now := now_ms in
  let* o := query (λ d, select_one (is_operation id) (db_operations d)) in
  let* o := require o (NotFound ("operation " +:+ quoted id)) in
  check (String.eqb (op_state o) "started" || String.eqb (op_state o) "unknown")
    (Conflict ("operation " +:+ quoted id +:+ " is already " +:+ op_state o));;
  check_result id (op_state o) (op_kind o) result;;
  let* descriptor := query (λ d, rs_descriptor <$> select_one (has_guresid (op_guresid o)) (db_active_resources d)) in
  let* descriptor := require descriptor (Database RowNotFound) in
  let* (op_state, resource_status, run_status, error, outputs) := apply_result o descriptor now result in
  match resource_status with
  | Some status =>
      execute (upd_active_resources (update (has_guresid (op_guresid o)) (set_res_status status (Some now) now)))
  | None => ret tt
  end;;
  execute (upd_operations (update (is_operation id) (set_op_state op_state error (Some now))));;
  execute (upd_deployment_resources (update (is_run (op_app o) (op_env o) (op_deployment_id o) descriptor)
    (λ r, mk_DeploymentResourceRow (dr_app r) (dr_env r) (dr_deployment_id r) (dr_descriptor r)
      (dr_guresid r) run_status (dr_attempts r) outputs error (Some now)))).

Definition checkpoint_operation (id : string) (result : CheckpointResult) : tx unit :=
  checkpoint_in_tx id result.

Definition record_operation_inputs (id : string) (recovery : Value) : tx unit :=
  let* o := query (λ d, select_one (is_operation id) (db_operations d)) in
  check (is_some o) (NotFound ("operation " +:+ quoted id));;
  let started o := is_operation id o && String.eqb (op_state o) "started" in
  let* n := query (λ d, select started (db_operations d)) in
  execute (upd_operations (update started (set_op_recovery recovery)));;
  check (negb (Nat.eqb (length n) 0))
    (Conflict ("operation " +:+ quoted id +:+ " is no longer started")).

(** ** Outcomes that are not known *)

Definition active_resource (org app env descriptor : string) : tx (option ResourceRow) :=
  check_org org;; query (λ d, select_one (is_resource app env descriptor) (db_active_resources d)).

Definition active_resources (org app env : string) : tx (list ResourceRow) :=
  check_org org;;
  query (λ d, sort_by_key rs_descriptor (select (res_in_env app env) (db_active_resources d))).

Definition definition_resources (org definition : string) : tx (list ResourceRow) :=
  check_org org;;
  query (λ d, sort_by_key (λ r, (rs_app r, (rs_env r, rs_descriptor r)))
    (select (λ r, sql_eq (rs_definition_id r) (Some definition)) (db_active_resources d))).

Definition resource_cookie (r : ResourceRow) : option Sealed :=
  match rs_cookie_key_id r, rs_cookie_nonce r, rs_cookie r with
  | Some k, Some n, Some c => Some (mk_Sealed k n c)
  | _, _, _ => None
  end.

Definition unknown_operation (org app env descriptor : string) : tx (option UnknownOperation) :=
  let* resource := active_resource org app env descriptor in
  match resource with
  | None => ret None
  | Some r =>
      let* row := query (λ d, head (sort_by_key (λ o, - op_started_at o)
        (select (op_in_state (rs_guresid r) "unknown") (db_operations d)))) in
      ret ((λ o, mk_UnknownOperation (op_id o) (op_deployment_id o)
        (if String.eqb (op_kind o) "delete" then Delete else Put) (op_attempt o)
        (op_input_fingerprint o) (op_recovery o) (op_error o) r) <$> row)
  end.

(** Keeps the cookie of an observation, unless another one was stored meanwhile. *)
Definition keep_recovery_cookie (id : string) (observed_with : option Sealed) (cookie : Sealed) : tx unit :=
  let* o := query (λ d, select_one (λ o, is_operation id o && String.eqb (op_state o) "unknown")
    (db_operations d)) in
  match o with
  | None => ret tt
  | Some o =>
      execute (upd_active_resources (update (λ r, has_guresid (op_guresid o) r
        && eq_opt (rs_cookie_nonce r) (sl_nonce <$> observed_with)
        && eq_opt (rs_cookie r) (sl_ciphertext <$> observed_with)) (set_cookie cookie)))
  end.

Definition check_idle (app env : string) : tx unit :=
  let* running := query (λ d, select_one (λ r, in_env app env r && is_running r) (db_deployments d)) in
  match running with Some r => fail (Busy (dp_id r)) | None => ret tt end.

Definition RESOURCE_STATUSES : list string :=
  ["pending"; "provisioning"; "provisioned"; "failed"; "unknown"; "recovery_required"; "deleting";
   "deletion_failed"].

(** [UPDATE active_resources SET status = ? ... WHERE guresid = ?], which the table checks. *)
Definition restore_status (guresid status : string) (now : Z) : tx unit :=
  let* rows := query (λ d, select (has_guresid guresid) (db_active_resources d)) in
  check (match rows with [] => true | _ => existsb (String.eqb status) RESOURCE_STATUSES end)
    (Database CheckViolation);;
  execute (upd_active_resources (update (has_guresid guresid) (set_res_status status (Some now) now))).

(** What a resolution does; the error with which the operation is to be repeated. *)
Definition apply_resolution (o : OperationRow) (restored : option string) (deployment : string)
    (now : Z) (actor : option string) (resolution : Resolution) : tx (option string) :=
  match resolution with
  | Observed result => checkpoint_in_tx (op_id o) result;; ret None
  | Confirmed =>
      let* status := require restored
        (Conflict ("operation " +:+ quoted (op_id o) +:+ " was not restored from a backup")) in
      execute (upd_operations (update (is_operation (op_id o)) (set_op_state "succeeded" None (Some now))));;
      restore_status (op_guresid o) status now;;
      ret None
  | Repeatable reason => ret (Some ("recovered: " +:+ reason))
  | Operator reason =>
      let* actor := require actor (Forbidden "only an administrator resolves an unknown outcome") in
      check_admin_authority (Some actor);;
      ret (Some ("resolved by " +:+ quoted actor +:+ ": " +:+ reason))
  | NeedsRecovery reason =>
      let error := "recovery required: " +:+ reason in
      execute (upd_operations (update (is_operation (op_id o))
        (λ o, set_op_state (op_state o) (Some error) (op_finished_at o) o)));;
      execute (upd_active_resources (update (has_guresid (op_guresid o))
        (set_res_status "recovery_required" (Some now) now)));;
      execute (upd_deployment_resources (update (is_run_of deployment (op_guresid o))
        (λ r, set_run (dr_status r) (Some error) r)));;
      ret None
  end.

Definition resolve_operation (id : string) (resolution : Resolution) (audit : AuditIntent) : tx unit :=
  let* o := query (λ d, select_one (is_operation id) (db_operations d)) in
  let* restored := lift (match o with Some o => restored_status (op_recovery o) | None => Ok None end) in
  let* o := require o (NotFound ("operation " +:+ quoted id)) in
  let deployment := if is_some restored then ε else op_deployment_id o in
  check (String.eqb (op_state o) "unknown")
    (Conflict ("operation " +:+ quoted id +:+ " is " +:+ op_state o +:+ "; its outcome is already known"));;
  check_idle (op_app o) (op_env o);;
  let* now := now_ms in
  let* repeat := apply_resolution o restored deployment now (ai_actor audit) resolution in
  match repeat with
  | None => ret tt
  | Some error =>
      let status := if String.eqb (op_kind o) "delete" then "deletion_failed" else "failed" in
      execute (upd_operations (update (is_operation id) (set_op_state "failed" (Some error) (Some now))));;
      execute (upd_active_resources (update (has_guresid (op_guresid o)) (set_res_status status (Some now) now)));;
      execute (upd_deployment_resources (update (is_run_of deployment (op_guresid o)) (set_run "failed" (Some error))))
  end;;
  let* _ := audit_insert audit (Some id) None in ret tt.

(** The status of a resource in a deployment that no operation decided; a status an operation
    recorded is kept. *)
Definition record_resource_status (org app env deployment descriptor : string) (status : ResourceRunStatus)
    (error : option string) : tx unit :=
  check_org org;;
  let* now := now_ms in
  let* g := query (λ d, option_default ε (rs_guresid <$>
    select_one (is_resource app env descriptor) (db_active_resources d))) in
  upsert_run (mk_DeploymentResourceRow app env deployment descriptor g (run_status_as_str status) 0 None
      error (Some now))
    (λ r, String.eqb (dr_status r) "pending" || String.eqb (dr_status r) "skipped")
    (λ r, mk_DeploymentResourceRow (dr_app r) (dr_env r) (dr_deployment_id r) (dr_descriptor r)
      (dr_guresid r) (run_status_as_str status) (dr_attempts r) (dr_outputs r) error (Some now)).

(** ** Detaching and scheduled deletion *)

Definition opt_num (o : option Z) : Value :=
  match o with
  | Some z => Num (if z <? 0 then NegInt z else PosInt (Z.to_N z))
  | None => Null
  end.

(** The body of the tombstone of a detached resource. *)
Definition detached_body (reason : string) (r : ResourceRow) : Value :=
  Obj [("definition_id", opt_str (rs_definition_id r));
       ("definition_version", opt_num (rs_definition_version r));
       ("driver_type", opt_str (rs_driver_type r)); ("driver_account", opt_str (rs_driver_account r));
       ("target", opt_str (rs_target r)); ("ownership", Str (rs_ownership r));
       ("external_ids", Arr (Str <$> rs_external_ids r)); ("backend", opt_str (rs_backend r));
       ("outputs", rs_outputs r); ("snapshot", rs_snapshot r); ("recovery", rs_recovery r);
       ("dependencies", Arr (Str <$> rs_dependencies r)); ("reason", Str reason)].

(** Whether the resource may be detached: its outcome is known, it was provisioned, it is not
    already deleted, and nothing is open on it. *)
Definition check_detach (app env : string) (detach : Detach) : tx unit :=
  let descriptor := dt_descriptor detach in
  let* row := query (λ d, select_one (is_resource app env descriptor) (db_active_resources d)) in
  let* r := require row (NotFound ("active resource " +:+ quoted descriptor)) in
  check (String.eqb (rs_guresid r) (dt_guresid detach))
    (Conflict (quoted descriptor +:+ " was replaced by another resource; check it again"));;
  check (negb (in_doubt (rs_status r))) (RecoveryRequired descriptor);;
  check (is_some (rs_last_deploy_id r))
    (Conflict (quoted descriptor +:+ " never provisioned; delete it or deploy it instead"));;
  check (negb (rs_cleanup_pending r))
    (Conflict (quoted descriptor
      +:+ " was already deleted; the next deployment that leaves it out removes its record"));;
  let* open := query (λ d, select_one (λ o, op_in_state (rs_guresid r) "started" o
    || op_in_state (rs_guresid r) "unknown" o) (db_operations d)) in
  match open with
  | Some o => fail (Conflict ("operation " +:+ quoted (op_id o) +:+ " on " +:+ quoted descriptor +:+ " has not finished"))
  | None => ret tt
  end.

(** The permit is used with the detach, so a refused detach keeps it. *)
Definition detach_permit (org app env : string) (detach : Detach) : tx (option UsedPermit) :=
  match dt_permits detach with
  | None => ret None
  | Some presented =>
      let* used := consume_permit (mk_PermitUse org app env None presented (dt_descriptor detach)
        (Some (dt_guresid detach)) "detach" None) in
      ret (Some used)
  end.

Definition detach_resource (org app env : string) (detach : Detach) (audit : AuditIntent) : tx TombstoneRow :=
  check_org org;;
  check_admin_authority (ai_actor audit);;
  check_idle app env;;
  check_detach app env detach;;
  let g := dt_guresid detach in
  let* used := detach_permit org app env detach in
  let* now := now_ms in
  bury g (λ r seq, mk_TombstoneRow seq (rs_app r) (rs_env r) (rs_descriptor r) (rs_guresid r)
    "detached" (ai_actor audit) (detached_body (dt_reason detach) r) now (rs_cookie_key_id r)
    (rs_cookie_nonce r) (rs_cookie r) (Some (rs_secret_outputs r)));;
  execute (upd_envs (update (is_env app env) next_generation_row));;
  audit_in audit;;
  match used with
  | None => ret tt
  | Some used =>
      let* _ := audit_insert (with_outcome audit "permit.use"
          (Some (app +:+ "/" +:+ env +:+ "/" +:+ dt_descriptor detach)) Succeeded (Some "detach"))
        None (up_issued_entry used) in ret tt
  end;;
  let* stone := query (λ d, head (sort_by_key (λ t, - tb_seq t)
    (select (λ t, String.eqb (tb_guresid t) g) (db_tombstones d)))) in
  require stone (Database RowNotFound).

Definition tombstones (org app env : string) : tx (list TombstoneRow) :=
  check_org org;;
  query (λ d, sort_by_key tb_seq (select (λ t, String.eqb (tb_app t) app && String.eqb (tb_env t) env)
    (db_tombstones d))).

Definition schedule_deletion (org app env descriptor : string) (audit : AuditIntent) : tx unit :=
  check_org org;;
  let* env_type := env_type_of app env in
  check_env_authority (ai_actor audit) app env_type;;
  let* row := query (λ d, select_one (is_resource app env descriptor) (db_active_resources d)) in
  let* r := require row (NotFound ("active resource " +:+ quoted descriptor)) in
  check (negb (String.eqb (rs_ownership r) "external"))
    (Conflict (quoted descriptor +:+ " is external; openporch never deletes it"));;
  if rs_scheduled_deletion r then audit_in audit
  else
    check_idle app env;;
    execute (upd_envs (update (is_env app env) next_generation_row));;
    let* now := now_ms in
    execute (upd_active_resources (update (is_resource app env descriptor)
      (λ r, set_res_flags true (rs_cleanup_pending r) now r)));;
    audit_in audit.

(** ** After a restart *)

(** The operations of deletions that the driver confirmed, whose records remain. *)
Definition open_cleanups (d : Db) : list OperationRow :=
  select (λ o, String.eqb (op_state o) "started" && String.eqb (op_kind o) "delete"
    && existsb (λ r, has_guresid (op_guresid o) r && rs_cleanup_pending r) (db_active_resources d))
  (db_operations d).

(** The operations whose driver was not called yet. *)
Definition unstarted_operations (d : Db) : list OperationRow :=
  select (λ o, String.eqb (op_state o) "started" && String.eqb (op_kind o) "put"
    && negb (has_inputs (op_recovery o))) (db_operations d).

Definition uncertain_operations (d : Db) : list (OperationRow * option ResourceRow) :=
  (λ o, (o, select_one (has_guresid (op_guresid o)) (db_active_resources d)))
  <$> sort_by_key op_started_at (select (λ o, String.eqb (op_state o) "started") (db_operations d)).

(** Closes one operation and notes it in the log of its deployment. *)
Definition interrupt (op_state status : string) (error level line : string) (finished : option Z)
    (now : Z) (o : OperationRow) : tx unit :=
  close_operation (op_id o) (op_deployment_id o) (op_guresid o) op_state status op_state error
    finished now;;
  log_in_tx (op_deployment_id o) (Some (op_id o, op_guresid o)) level line.

Definition interrupt_cleanup (now : Z) : OperationRow → tx unit :=
  interrupt "failed" "deletion_failed" "interrupted by a restart; cleanup pending" "warn"
    ("deleted, but removing its record was interrupted by a restart; deploy "
     +:+ "again to finish the cleanup") (Some now) now.

Definition interrupt_unstarted (now : Z) : OperationRow → tx unit :=
  interrupt "failed" "failed" "interrupted by a restart before the driver was called; nothing changed"
    "warn" ("interrupted by a restart before the driver was called; nothing changed, so "
     +:+ "deploy again") (Some now) now.

(** The finish time of an operation whose outcome is unknown stays empty. *)
Definition interrupt_uncertain (now : Z) (o : OperationRow) : tx unit :=
  interrupt "unknown" "unknown" "interrupted by a restart" "error"
    ("outcome unknown: interrupted by a restart; the resource needs recovery "
     +:+ "before it is deployed again") (op_finished_at o) now o.

(** Why the deployment failed. *)
Definition restart_error (opened cleanup unstarted : nat) : string :=
  join "; " (["interrupted by a server restart"]
    ++ (if Nat.ltb 0 opened then [show_nat opened +:+ " resource(s) may have changed and need recovery before the "
          +:+ "environment is deployed again"] else [])
    ++ (if Nat.ltb 0 cleanup then [show_nat cleanup +:+ " deleted resource(s) keep their records until the next "
          +:+ "deployment finishes the cleanup"] else [])
    ++ (if Nat.ltb 0 unstarted then [show_nat unstarted +:+ " resource(s) had not reached their driver and are retried by the "
          +:+ "next deployment"] else [])
    ++ (if Nat.eqb opened 0 && Nat.eqb cleanup 0 && Nat.eqb unstarted 0 then
          ["no operation was in flight, so deploy again to continue"] else [])).

Definition of_deployment (id : string) (l : list OperationRow) : nat :=
  length (select (λ o, String.eqb (op_deployment_id o) id) l).

Definition uncertain_report (e : OperationRow * option ResourceRow) : option UncertainOperation :=
  r ← e.2;
  Some (mk_UncertainOperation (op_id e.1) (op_deployment_id e.1) (op_guresid e.1) (rs_app r)
    (rs_env r) (rs_descriptor r)).

Definition recover_interrupted : tx RecoveryReport :=
  let* running := query (λ d, sort_by_key dp_created_at (select is_running (db_deployments d))) in
  let* now := now_ms in
  let* cleanups := query open_cleanups in
  for_each (interrupt_cleanup now) cleanups;;
  let* unstarted := query unstarted_operations in
  for_each (interrupt_unstarted now) unstarted;;
  let* uncertain := query uncertain_operations in
  for_each (interrupt_uncertain now) (fst <$> uncertain);;
  for_each (λ r,
    let error := restart_error (of_deployment (dp_id r) (fst <$> uncertain))
      (of_deployment (dp_id r) cleanups) (of_deployment (dp_id r) unstarted) in
    finish_in_tx store_org (dp_app r) (dp_env r) (dp_id r) (Some error)) running;;
  ret (mk_RecoveryReport (dp_id <$> running) (filter_map uncertain_report uncertain)).

(** ** After a restore ([sqlite_restore.rs]) *)

Definition RESTORED : string := "restored from a backup; observing the resource before it is changed".

(** [json_extract(recovery, '$.restored')], read as an integer. *)
Definition restored_flag (recovery : Value) : result (option Z) StoreError :=
  match recovery with
  | Obj o =>
      match im_get "restored" o with
      | None | Some Null => Ok None
      | Some (Bool b) => Ok (Some (if b then 1 else 0))
      | Some (Num n) => result_map Some (ok_or (as_i64 n) (Database ColumnDecode))
      | Some _ => Err (Database ColumnDecode)
      end
  | _ => Ok None
  end.

(** [recovery["restored"] = true; recovery["restored_status"] = status], on an object. *)
Definition mark_recovery (status : string) (recovery : Value) : Value :=
  match recovery with
  | Obj o => Obj (im_insert "restored_status" (Str status) (im_insert "restored" (Bool true) o))
  | v => v
  end.

Definition is_open (o : OperationRow) : bool :=
  String.eqb (op_state o) "started" || String.eqb (op_state o) "unknown".

(** The last successful provisioning that recorded its inputs. *)
Definition last_provisioning (g : string) (d : Db) : option OperationRow :=
  head (sort_by_key (λ o, - op_started_at o) (select (λ o, String.eqb (op_guresid o) g
    && String.eqb (op_kind o) "put" && String.eqb (op_state o) "succeeded" && has_inputs (op_recovery o))
    (db_operations d))).

Definition open_operation (g : string) (d : Db) : option OperationRow :=
  head (sort_by_key (λ o, - op_started_at o)
    (select (λ o, String.eqb (op_guresid o) g && is_open o) (db_operations d))).

Definition mark_resource (now : Z) (marked : list UncertainOperation) (r : ResourceRow)
    : tx (list UncertainOperation) :=
  let g := rs_guresid r in
  let mark id deployment := mk_UncertainOperation id deployment g (rs_app r) (rs_env r) (rs_descriptor r) in
  let* open := query (open_operation g) in
  match open with
  | Some o =>
      let* flag := lift (restored_flag (op_recovery o)) in
      ret (if bool_decide (flag = Some 1) then marked ++ [mark (op_id o) (op_deployment_id o)] else marked)
  | None =>
      let* last := query (last_provisioning g) in
      match last with
      | None => ret marked
      | Some l =>
          let* id := random_hex 16 in
          insert_operation (mk_OperationRow id (rs_app r) (rs_env r) (op_deployment_id l) g "put"
            (op_input_fingerprint l) "unknown" (op_attempt l) (mark_recovery (rs_status r) (op_recovery l))
            (Some RESTORED) now None None None None);;
          execute (upd_active_resources (update (has_guresid g) (set_res_status "unknown" None now)));;
          ret (marked ++ [mark id (op_deployment_id l)])
      end
  end.

(** Every resource the backup records as provisioned gets an operation of unknown outcome. *)
Definition mark_restored : tx (list UncertainOperation) :=
  let* now := now_ms in
  let* resources := query (λ d, sort_by_key (λ r, (rs_app r, (rs_env r, rs_descriptor r)))
    (select (λ r, negb (rs_cleanup_pending r) && negb (String.eqb (rs_status r) "deletion_failed"))
      (db_active_resources d))) in
  fold_each (mark_resource now) [] resources.
End resources.
