(* ===== verification/IdentityInv.v ===== *)
(** * Integrity of the identity tables

    Keys are unique, references lead to rows, stored roles read back. Every method of the
    identity store and of the application store keeps this; so reading roles never reports a
    corrupt record, and the roles that authority checks use are those the tables hold. *)

From Stdlib Require Import Ascii.
From stdpp Require Import base sets strings list.
From S2P Require Import Prelude Strings OrdMap Json Sets Db DbLogic Identity Apps.

Local Open Scope string_scope.
Local Open Scope Z_scope.
Local Open Scope list_scope.

Lemma org_role_parse_as_str r : org_role_parse (org_role_as_str r) = Some r.
Proof. by destruct r. Qed.

Lemma app_role_parse_as_str r : app_role_parse (app_role_as_str r) = Some r.
Proof. by destruct r. Qed.

Lemma org_role_as_str_inj r s : org_role_as_str r = org_role_as_str s → r = s.
Proof. by destruct r, s. Qed.

(** ** The invariant *)

Definition app_role_key (r : AppRoleRow) : string * string := (ar_app r, ar_principal r).
Definition env_type_role_key (r : EnvTypeRoleRow) : string * string := (er_env_type r, er_principal r).
Definition token_key (t : TokenRow) : string * string := (tk_principal t, tk_id t).
Definition identity_key (r : IdentityRow) : string * string := (idn_provider r, idn_subject r).
Definition env_key (r : EnvRow) : string * string := (en_app r, en_id r).

Record tables_ok (ps : list PrincipalRow) (ids : list IdentityRow) (ivs : list InvitationRow)
    (tks : list TokenRow) (ses : list SessionRow) (ets : list EnvTypeRow) (aps : list AppRow)
    (ens : list EnvRow) (ars : list AppRoleRow) (ers : list EnvTypeRoleRow) : Prop := {
  ok_principals : NoDup (pr_id <$> ps);
  ok_roles : ∀ r, r ∈ ps → ∃ role, pr_org_role r = org_role_as_str role;
  ok_identity_keys : NoDup (identity_key <$> ids);
  ok_identity_principals : NoDup (idn_principal <$> ids);
  ok_invitations : NoDup (iv_id <$> ivs);
  ok_invitation_roles : ∀ r, r ∈ ivs → ∃ role, iv_org_role r = org_role_as_str role;
  ok_tokens : NoDup (token_key <$> tks);
  ok_hashes : NoDup (tk_token_hash <$> tks);
  ok_sessions : NoDup (se_jti <$> ses);
  ok_env_types : NoDup (et_id <$> ets);
  ok_apps : NoDup (ap_id <$> aps);
  ok_envs : NoDup (env_key <$> ens);
  ok_app_roles : NoDup (app_role_key <$> ars);
  ok_app_role_names : ∀ r, r ∈ ars → ∃ role, ar_role r = app_role_as_str role;
  ok_env_type_roles : NoDup (env_type_role_key <$> ers);
  ok_identity_refs : ∀ r, r ∈ ids → idn_principal r ∈ pr_id <$> ps;
  ok_token_refs : ∀ r, r ∈ tks → tk_principal r ∈ pr_id <$> ps;
  ok_session_refs : ∀ r, r ∈ ses → se_principal r ∈ pr_id <$> ps;
  ok_app_role_refs : ∀ r, r ∈ ars → ar_principal r ∈ pr_id <$> ps ∧ ar_app r ∈ ap_id <$> aps;
  ok_env_type_role_refs : ∀ r, r ∈ ers → er_principal r ∈ pr_id <$> ps ∧ er_env_type r ∈ et_id <$> ets;
  ok_env_refs : ∀ r, r ∈ ens → en_app r ∈ ap_id <$> aps ∧ en_type r ∈ et_id <$> ets;
}.

Definition identity_ok (d : Db) : Prop :=
  tables_ok (db_principals d) (db_identities d) (db_invitations d) (db_api_tokens d)
    (db_sessions d) (db_env_types d) (db_apps d) (db_envs d) (db_app_roles d)
    (db_env_type_roles d).

(** The relation that transactions keep. *)
Definition keeps_ok : relation Db := λ d d', identity_ok d → identity_ok d'.

#[export] Instance keeps_ok_PreOrder : PreOrder keeps_ok.
Proof. split; [by intros d H|]. intros d1 d2 d3 H12 H23 H. by apply H23, H12. Qed.

Lemma empty_ok : identity_ok empty_db.
Proof. constructor; try apply NoDup_nil_2; intros r Hr; by apply not_elem_of_nil in Hr. Qed.

(** ** Rows by key *)

Lemma has_principal_spec id d : has_principal id d = true ↔ id ∈ pr_id <$> db_principals d.
Proof.
  unfold has_principal, is_principal. rewrite existsb_true, list_elem_of_fmap.
  setoid_rewrite String.eqb_eq. naive_solver.
Qed.

Lemma has_app_spec id d : has_app id d = true ↔ id ∈ ap_id <$> db_apps d.
Proof.
  unfold has_app. rewrite existsb_true, list_elem_of_fmap.
  setoid_rewrite String.eqb_eq. naive_solver.
Qed.

Lemma has_env_type_spec id d : has_env_type id d = true ↔ id ∈ et_id <$> db_env_types d.
Proof.
  unfold has_env_type. rewrite existsb_true, list_elem_of_fmap.
  setoid_rewrite String.eqb_eq. naive_solver.
Qed.

Lemma eqb_pair (a b c d : string) : String.eqb a b && String.eqb c d = true ↔ (a, c) = (b, d).
Proof. rewrite andb_true_iff, !String.eqb_eq. naive_solver. Qed.

Lemma is_app_role_spec app p r : is_app_role app p r = true ↔ app_role_key r = (app, p).
Proof. apply eqb_pair. Qed.

Lemma is_env_type_role_spec e p r : is_env_type_role e p r = true ↔ env_type_role_key r = (e, p).
Proof. apply eqb_pair. Qed.

Lemma is_token_spec p i t : is_token p i t = true ↔ token_key t = (p, i).
Proof. apply eqb_pair. Qed.

Lemma is_identity_spec p s r : is_identity p s r = true ↔ identity_key r = (p, s).
Proof. apply eqb_pair. Qed.

Lemma is_env_spec app env r : is_env app env r = true ↔ env_key r = (app, env).
Proof. apply eqb_pair. Qed.

Lemma is_principal_spec id r : is_principal id r = true ↔ pr_id r = id.
Proof. apply String.eqb_eq. Qed.

(** No row satisfies [p], so no row has the key it tests. *)
Lemma unique_key {A B} (g : A → B) (p : A → bool) (t : list A) (k : B) :
  (∀ r, g r = k → p r = true) → negb (existsb p t) = true → ∀ r, r ∈ t → g r ≠ k.
Proof.
  intros Hp Hn r Hr Hk. apply negb_true_iff in Hn. apply (proj1 (existsb_false p t) Hn r) in Hr.
  by rewrite Hp in Hr.
Qed.

(** ** Statements keep the invariant *)

Ltac keep_fields :=
  intros Hok; destruct Hok; constructor; simpl in *; try assumption.

Ltac inserted :=
  intros ? [?| ->%list_elem_of_singleton]%elem_of_app; [by eauto|simpl].

Lemma insert_principal_ok d row :
  negb (existsb (is_principal (pr_id row)) (db_principals d)) = true →
  (∃ role, pr_org_role row = org_role_as_str role) →
  keeps_ok d (upd_principals (λ t, t ++ [row]) d).
Proof.
  intros Hu Hr. unfold keeps_ok, identity_ok.
  keep_fields; try (intros r Hin; rewrite fmap_app, !elem_of_app; naive_solver).
  - apply insert_column_NoDup; [done|]. eapply unique_key; [|done]. intros r. apply is_principal_spec.
  - by inserted.
Qed.

Lemma update_principal_ok d p f :
  (∀ r, pr_id (f r) = pr_id r) → (∀ r, r ∈ db_principals d → ∃ role, pr_org_role (f r) = org_role_as_str role) →
  keeps_ok d (upd_principals (update p f) d).
Proof.
  intros Hid Hr. unfold keeps_ok, identity_ok.
  keep_fields; rewrite ?update_column by done; try assumption.
  intros r (r0 & Hin & ->)%elem_of_update. destruct (p r0); eauto.
Qed.

Lemma keeps_ok_insert_token d row :
  negb (existsb (λ t, is_token (tk_principal row) (tk_id row) t
                      || String.eqb (tk_token_hash t) (tk_token_hash row)) (db_api_tokens d)) = true →
  has_principal (tk_principal row) d = true →
  keeps_ok d (upd_api_tokens (λ t, t ++ [row]) d).
Proof.
  intros Hu Hp%has_principal_spec. unfold keeps_ok, identity_ok. keep_fields.
  - apply insert_column_NoDup; [done|]. eapply unique_key; [|done].
    intros r Hk. cbv beta. by rewrite (proj2 (is_token_spec (tk_principal row) (tk_id row) r) Hk).
  - apply insert_column_NoDup; [done|]. eapply unique_key; [|done].
    intros r Hk. cbv beta. by rewrite Hk, String.eqb_refl, orb_true_r.
  - by inserted.
Qed.

Lemma keeps_ok_update_tokens d p f :
  (∀ r, token_key (f r) = token_key r) → (∀ r, tk_token_hash (f r) = tk_token_hash r) →
  keeps_ok d (upd_api_tokens (update p f) d).
Proof.
  intros Hk Hh. unfold keeps_ok, identity_ok. keep_fields; rewrite ?update_column by done; try assumption.
  intros r (r0 & Hin & ->)%elem_of_update. destruct (p r0); [|by eauto].
  replace (tk_principal (f r0)) with (tk_principal r0); [by eauto|].
  specialize (Hk r0). unfold token_key in Hk. congruence.
Qed.

Lemma keeps_ok_insert_identity d row :
  negb (existsb (λ r, is_identity (idn_provider row) (idn_subject row) r
                      || String.eqb (idn_principal r) (idn_principal row)) (db_identities d)) = true →
  has_principal (idn_principal row) d = true →
  keeps_ok d (upd_identities (λ t, t ++ [row]) d).
Proof.
  intros Hu Hp%has_principal_spec. unfold keeps_ok, identity_ok. keep_fields.
  - apply insert_column_NoDup; [done|]. eapply unique_key; [|done].
    intros r Hk. cbv beta. by rewrite (proj2 (is_identity_spec (idn_provider row) (idn_subject row) r) Hk).
  - apply insert_column_NoDup; [done|]. eapply unique_key; [|done].
    intros r Hk. cbv beta. by rewrite Hk, String.eqb_refl, orb_true_r.
  - by inserted.
Qed.

Lemma keeps_ok_delete_identities d p : keeps_ok d (upd_identities (delete_rows p) d).
Proof.
  unfold keeps_ok, identity_ok. keep_fields; try by apply delete_column_NoDup.
  intros r [Hr _]%elem_of_delete. by eauto.
Qed.

Lemma keeps_ok_insert_session d row :
  negb (existsb (λ r, String.eqb (se_jti r) (se_jti row)) (db_sessions d)) = true →
  has_principal (se_principal row) d = true →
  keeps_ok d (upd_sessions (λ t, t ++ [row]) d).
Proof.
  intros Hu Hp%has_principal_spec. unfold keeps_ok, identity_ok. keep_fields; [|by inserted].
  apply insert_column_NoDup; [done|]. eapply unique_key; [|done]. intros r. apply String.eqb_eq.
Qed.

Lemma keeps_ok_revoke_sessions d p now : keeps_ok d (upd_sessions (update p (revoke_session_row now)) d).
Proof.
  unfold keeps_ok, identity_ok. keep_fields; [by rewrite update_column|].
  intros r (r0 & Hin & ->)%elem_of_update. destruct (p r0); simpl; by eauto.
Qed.

Lemma keeps_ok_insert_invitation d row role :
  negb (existsb (is_invitation (iv_id row)) (db_invitations d)) = true →
  iv_org_role row = org_role_as_str role →
  keeps_ok d (upd_invitations (λ t, t ++ [row]) d).
Proof.
  intros Hu Hr. unfold keeps_ok, identity_ok. keep_fields; [|by inserted; eauto].
  apply insert_column_NoDup; [done|]. eapply unique_key; [|done]. intros r. apply String.eqb_eq.
Qed.

Lemma keeps_ok_consume_invitation d p now user :
  keeps_ok d (upd_invitations (update p (consume_invitation_row now user)) d).
Proof.
  unfold keeps_ok, identity_ok. keep_fields; [by rewrite update_column|].
  intros r (r0 & Hin & ->)%elem_of_update. destruct (p r0); simpl; by eauto.
Qed.

Lemma keeps_ok_insert_app_role d row role :
  negb (existsb (is_app_role (ar_app row) (ar_principal row)) (db_app_roles d)) = true →
  has_app (ar_app row) d = true → has_principal (ar_principal row) d = true →
  ar_role row = app_role_as_str role →
  keeps_ok d (upd_app_roles (λ t, t ++ [row]) d).
Proof.
  intros Hu Ha%has_app_spec Hp%has_principal_spec Hr. unfold keeps_ok, identity_ok. keep_fields.
  - apply insert_column_NoDup; [done|]. eapply unique_key; [|done]. intros r. apply is_app_role_spec.
  - by inserted; eauto.
  - by inserted.
Qed.

Lemma keeps_ok_update_app_role d p role :
  keeps_ok d (upd_app_roles
    (update p (λ r, mk_AppRoleRow (ar_app r) (ar_principal r) (app_role_as_str role))) d).
Proof.
  unfold keeps_ok, identity_ok. keep_fields; [by rewrite update_column| |];
    intros r (r0 & Hin & ->)%elem_of_update; destruct (p r0); simpl; by eauto.
Qed.

Lemma keeps_ok_delete_app_roles d p : keeps_ok d (upd_app_roles (delete_rows p) d).
Proof.
  unfold keeps_ok, identity_ok. keep_fields; [by apply delete_column_NoDup| |];
    intros r [Hr _]%elem_of_delete; by eauto.
Qed.

Lemma keeps_ok_insert_env_type_role d row :
  existsb (is_env_type_role (er_env_type row) (er_principal row)) (db_env_type_roles d) = false →
  has_env_type (er_env_type row) d = true → has_principal (er_principal row) d = true →
  keeps_ok d (upd_env_type_roles (λ t, t ++ [row]) d).
Proof.
  intros Hu Ha%has_env_type_spec Hp%has_principal_spec. unfold keeps_ok, identity_ok. keep_fields.
  - apply insert_column_NoDup; [done|]. eapply unique_key; [|by apply negb_true_iff].
    intros r. apply is_env_type_role_spec.
  - by inserted.
Qed.

Lemma keeps_ok_delete_env_type_roles d p : keeps_ok d (upd_env_type_roles (delete_rows p) d).
Proof.
  unfold keeps_ok, identity_ok. keep_fields; [by apply delete_column_NoDup|].
  intros r [Hr _]%elem_of_delete; by eauto.
Qed.

Lemma keeps_ok_insert_env_type d row :
  negb (existsb (is_env_type (et_id row)) (db_env_types d)) = true →
  keeps_ok d (upd_env_types (λ t, t ++ [row]) d).
Proof.
  intros Hu. unfold keeps_ok, identity_ok.
  keep_fields; try (intros r Hin; rewrite fmap_app, !elem_of_app; naive_solver).
  apply insert_column_NoDup; [done|]. eapply unique_key; [|done]. intros r. apply String.eqb_eq.
Qed.

Lemma keeps_ok_update_env_types d p f :
  (∀ r, et_id (f r) = et_id r) → keeps_ok d (upd_env_types (update p f) d).
Proof.
  intros Hf. unfold keeps_ok, identity_ok. keep_fields; by rewrite ?update_column.
Qed.

Lemma keeps_ok_insert_app d row :
  negb (existsb (is_app (ap_id row)) (db_apps d)) = true →
  keeps_ok d (upd_apps (λ t, t ++ [row]) d).
Proof.
  intros Hu. unfold keeps_ok, identity_ok.
  keep_fields; try (intros r Hin; rewrite fmap_app, !elem_of_app; naive_solver).
  apply insert_column_NoDup; [done|]. eapply unique_key; [|done]. intros r. apply String.eqb_eq.
Qed.

Lemma keeps_ok_update_apps d p f :
  (∀ r, ap_id (f r) = ap_id r) → keeps_ok d (upd_apps (update p f) d).
Proof. intros Hf. unfold keeps_ok, identity_ok. keep_fields; by rewrite ?update_column. Qed.

Lemma keeps_ok_insert_env d row :
  negb (existsb (is_env (en_app row) (en_id row)) (db_envs d)) = true →
  has_app (en_app row) d = true → has_env_type (en_type row) d = true →
  keeps_ok d (upd_envs (λ t, t ++ [row]) d).
Proof.
  intros Hu Ha%has_app_spec Ht%has_env_type_spec. unfold keeps_ok, identity_ok.
  keep_fields; [|by inserted].
  apply insert_column_NoDup; [done|]. eapply unique_key; [|done]. intros r. apply is_env_spec.
Qed.

Lemma keeps_ok_update_envs d p f :
  (∀ r, env_key (f r) = env_key r) → (∀ r, en_type (f r) = en_type r) →
  keeps_ok d (upd_envs (update p f) d).
Proof.
  intros Hk Ht. unfold keeps_ok, identity_ok. keep_fields; [by rewrite update_column|].
  intros r (r0 & Hin & ->)%elem_of_update. destruct (p r0); [|by eauto].
  specialize (Hk r0). unfold env_key in Hk. injection Hk as -> _. rewrite Ht. by eauto.
Qed.

(** Deleting a principal, or an environment type, with the rows that refer to it. *)
Lemma keeps_ok_delete_principal id d c :
  delete_principal id (mk_Conn d c) = Ok (tt, mk_Conn
    (upd_principals (delete_rows (is_principal id))
    (upd_identities (delete_rows (λ r, String.eqb (idn_principal r) id))
    (upd_api_tokens (delete_rows (λ r, String.eqb (tk_principal r) id))
    (upd_sessions (delete_rows (λ r, String.eqb (se_principal r) id))
    (upd_app_roles (delete_rows (λ r, String.eqb (ar_principal r) id))
    (upd_env_type_roles (delete_rows (λ r, String.eqb (er_principal r) id)) d)))))) c).
Proof. done. Qed.

Lemma not_deleted {A} (key : A → string) (id : string) (t : list A) k :
  k ∈ key <$> t → k ≠ id → k ∈ key <$> delete_rows (λ r, String.eqb (key r) id) t.
Proof.
  intros (r & -> & Hr)%list_elem_of_fmap Hne. apply list_elem_of_fmap. exists r. split; [done|].
  apply elem_of_delete. split; [done|]. by apply String.eqb_neq.
Qed.

Lemma keeps_ok_delete_principal_rel id : tx_rel keeps_ok (delete_principal id).
Proof.
  apply tx_rel_execute. intros d. unfold keeps_ok, identity_ok.
  keep_fields; try by apply delete_column_NoDup.
  all: intros r [Hr Hid]%elem_of_delete; try apply String.eqb_neq in Hid; try by eauto.
  - apply not_deleted; eauto.
  - apply not_deleted; eauto.
  - apply not_deleted; eauto.
  - destruct (ok_app_role_refs0 r Hr). split; [|done]. by apply not_deleted.
  - destruct (ok_env_type_role_refs0 r Hr). split; [|done]. by apply not_deleted.
Qed.

Lemma keeps_ok_delete_env_type id d :
  (∀ e, e ∈ db_envs d → en_type e ≠ id) →
  keeps_ok d (upd_env_types (delete_rows (is_env_type id))
    (upd_env_type_roles (delete_rows (λ r, String.eqb (er_env_type r) id)) d)).
Proof.
  intros Hu. unfold keeps_ok, identity_ok. keep_fields; try by apply delete_column_NoDup.
  - intros r [Hr Hid%String.eqb_neq]%elem_of_delete. destruct (ok_env_type_role_refs0 r Hr).
    split; [done|]. by apply (not_deleted et_id).
  - intros r Hr. destruct (ok_env_refs0 r Hr). split; [done|]. by apply (not_deleted et_id); auto.
Qed.

(** ** Reading methods *)

Lemma fetch_principal_reads id : reads (fetch_principal id).
Proof. unfold fetch_principal. tx_steps. Qed.
#[export] Hint Resolve fetch_principal_reads : tx.

Lemma require_principal_reads id : reads (require_principal id).
Proof. unfold require_principal. tx_steps. Qed.
#[export] Hint Resolve require_principal_reads : tx.

Lemma roles_in_reads p : reads (roles_in p).
Proof. unfold roles_in. tx_steps. Qed.
#[export] Hint Resolve roles_in_reads : tx.

Lemma guard_last_admin_reads id : reads (guard_last_admin id).
Proof. unfold guard_last_admin. tx_steps. Qed.
#[export] Hint Resolve guard_last_admin_reads : tx.

Lemma check_authority_for_reads actor target role removal :
  reads (check_authority_for actor target role removal).
Proof. unfold check_authority_for. tx_steps. Qed.
#[export] Hint Resolve check_authority_for_reads : tx.

Lemma check_authority_reads actor target role : reads (check_authority actor target role).
Proof. apply check_authority_for_reads. Qed.

Lemma check_removal_authority_reads actor target : reads (check_removal_authority actor target).
Proof. apply check_authority_for_reads. Qed.

Lemma check_app_authority_reads actor app : reads (check_app_authority actor app).
Proof. unfold check_app_authority. tx_steps. Qed.

Lemma check_configure_authority_reads actor app : reads (check_configure_authority actor app).
Proof. unfold check_configure_authority. tx_steps. Qed.
#[export] Hint Resolve check_authority_reads check_removal_authority_reads
  check_app_authority_reads check_configure_authority_reads : tx.

Lemma check_values_authority_reads actor app env : reads (check_values_authority actor app env).
Proof. unfold check_values_authority. tx_steps. Qed.

Lemma check_env_authority_reads actor app env_type : reads (check_env_authority actor app env_type).
Proof. unfold check_env_authority. tx_steps. Qed.

Lemma check_admin_authority_reads actor : reads (check_admin_authority actor).
Proof. unfold check_admin_authority. tx_steps. Qed.

Lemma check_create_app_authority_reads actor : reads (check_create_app_authority actor).
Proof. unfold check_create_app_authority. tx_steps. Qed.

Lemma check_token_authority_reads actor target id : reads (check_token_authority actor target id).
Proof. unfold check_token_authority. tx_steps. Qed.

Lemma check_revoke_authority_reads actor p : reads (check_revoke_authority actor p).
Proof. unfold check_revoke_authority. tx_steps. Qed.

Lemma guard_demotion_reads id current role : reads (guard_demotion id current role).
Proof. unfold guard_demotion. tx_steps. Qed.

Lemma check_email_free_reads email : reads (check_email_free email).
Proof. unfold check_email_free. tx_steps. Qed.
#[export] Hint Resolve check_email_free_reads : tx.

Lemma check_invitation_reads code identity now : reads (check_invitation code identity now).
Proof. unfold check_invitation. tx_steps. Qed.

Lemma check_app_active_reads id : reads (check_app_active id).
Proof. unfold check_app_active. tx_steps. Qed.

Lemma check_draft_reads app draft : reads (check_draft app draft).
Proof. unfold check_draft. tx_steps. Qed.

#[export] Hint Resolve check_values_authority_reads check_env_authority_reads
  check_admin_authority_reads check_create_app_authority_reads check_token_authority_reads
  check_revoke_authority_reads guard_demotion_reads check_invitation_reads
  check_app_active_reads check_draft_reads : tx.

(** Reading methods keep every relation. *)
#[export] Hint Extern 5 (tx_rel ?R _) =>
  (lazymatch R with eq => fail | _ => apply reads_rel; [apply _|] end) : tx.

(** ** Writing methods keep the invariant *)

Section methods.
Context `{System} (org : string).

Ltac keep_ok := tx_steps; try (intros Hk; exact Hk).

Lemma insert_principal_keeps p by_ : tx_rel keeps_ok (insert_principal p by_).
Proof. unfold insert_principal. keep_ok. apply insert_principal_ok; simpl; eauto. Qed.
#[local] Hint Resolve insert_principal_keeps : tx.

Lemma create_principal_keeps o p audit : tx_rel keeps_ok (create_principal org o p audit).
Proof. unfold create_principal. keep_ok. Qed.

Lemma insert_token_keeps row : tx_rel keeps_ok (insert_token row).
Proof. unfold insert_token. keep_ok. by apply keeps_ok_insert_token. Qed.
#[local] Hint Resolve insert_token_keeps : tx.

Lemma create_bootstrap_admin_keeps o hash exp audit :
  tx_rel keeps_ok (create_bootstrap_admin org o hash exp audit).
Proof. unfold create_bootstrap_admin. keep_ok. Qed.

Lemma set_org_role_column_keeps id role : tx_rel keeps_ok (set_org_role_column id role).
Proof. apply tx_rel_execute. intros d. apply update_principal_ok; [done|]. simpl. eauto. Qed.

Lemma set_name_column_keeps id name : tx_rel keeps_ok (set_name_column id name).
Proof.
  apply tx_rel_execute. intros d Hok. apply update_principal_ok; [done| |done].
  intros r Hr. simpl. exact (ok_roles _ _ _ _ _ _ _ _ _ _ Hok r Hr).
Qed.
#[local] Hint Resolve set_org_role_column_keeps set_name_column_keeps : tx.

Lemma set_org_role_keeps o id role audit : tx_rel keeps_ok (set_org_role org o id role audit).
Proof. unfold set_org_role. keep_ok. Qed.

Lemma update_principal_keeps o id role name audit :
  tx_rel keeps_ok (update_principal org o id role name audit).
Proof. unfold update_principal. keep_ok. Qed.

#[local] Hint Resolve keeps_ok_delete_principal_rel : tx.
Lemma remove_principal_keeps o id audit : tx_rel keeps_ok (remove_principal org o id audit).
Proof. unfold remove_principal. keep_ok. Qed.

Lemma insert_identity_keeps row : tx_rel keeps_ok (insert_identity row).
Proof. unfold insert_identity. keep_ok. by apply keeps_ok_insert_identity. Qed.
#[local] Hint Resolve insert_identity_keeps : tx.

Lemma set_identity_keeps o id provider subject audit :
  tx_rel keeps_ok (set_identity org o id provider subject audit).
Proof.
  unfold set_identity. keep_ok.
  - apply keeps_ok_delete_identities.
  - apply keeps_ok_revoke_sessions.
Qed.

Lemma create_token_keeps o p id desc exp hash audit :
  tx_rel keeps_ok (create_token org o p id desc exp hash audit).
Proof. unfold create_token. keep_ok. Qed.

Lemma revoke_token_keeps o p id audit : tx_rel keeps_ok (revoke_token org o p id audit).
Proof. unfold revoke_token. keep_ok. by apply keeps_ok_update_tokens. Qed.

Lemma authenticate_token_keeps busy o hash now :
  tx_rel keeps_ok (authenticate_token org busy o hash now).
Proof. unfold authenticate_token. keep_ok. by apply keeps_ok_update_tokens. Qed.

Lemma record_session_keeps o jti p exp audit :
  tx_rel keeps_ok (record_session org o jti p exp audit).
Proof. unfold record_session. keep_ok. by apply keeps_ok_insert_session. Qed.

Lemma revoke_session_keeps o jti audit : tx_rel keeps_ok (revoke_session org o jti audit).
Proof. unfold revoke_session. keep_ok. apply keeps_ok_revoke_sessions. Qed.

Lemma signing_key_keeps purpose alg gen : tx_rel keeps_ok (signing_key purpose alg gen).
Proof. unfold signing_key. keep_ok. Qed.

Lemma create_invitation_keeps o inv audit : tx_rel keeps_ok (create_invitation org o inv audit).
Proof. unfold create_invitation. keep_ok. by eapply keeps_ok_insert_invitation. Qed.

Lemma accept_invitation_keeps o code identity user now :
  tx_rel keeps_ok (accept_invitation org o code identity user now).
Proof. unfold accept_invitation. keep_ok. apply keeps_ok_consume_invitation. Qed.

Lemma upsert_app_role_keeps app p role : tx_rel keeps_ok (upsert_app_role app p role).
Proof.
  intros c u c' Hx Hok. unfold upsert_app_role in Hx. inv_tx Hx.
  destruct (existsb _ _) eqn:E in Hx; inv_tx Hx; [by apply keeps_ok_update_app_role|].
  apply andb_true_iff in Href as [? ?]. eapply keeps_ok_insert_app_role; try done. simpl. by rewrite E.
Qed.
#[local] Hint Resolve upsert_app_role_keeps : tx.

Lemma set_app_role_keeps o app p role audit : tx_rel keeps_ok (set_app_role org o app p role audit).
Proof. unfold set_app_role. keep_ok. Qed.

Lemma remove_app_role_keeps o app p audit : tx_rel keeps_ok (remove_app_role org o app p audit).
Proof. unfold remove_app_role. keep_ok. apply keeps_ok_delete_app_roles. Qed.

Lemma insert_env_type_role_keeps e p : tx_rel keeps_ok (insert_env_type_role e p).
Proof.
  intros c u c' Hx Hok. unfold insert_env_type_role in Hx. inv_tx Hx.
  destruct (existsb _ _) eqn:E in Hx; inv_tx Hx; [done|].
  apply andb_true_iff in Href as [? ?]. by apply keeps_ok_insert_env_type_role.
Qed.
#[local] Hint Resolve insert_env_type_role_keeps : tx.

Lemma set_env_type_role_keeps o e p audit : tx_rel keeps_ok (set_env_type_role org o e p audit).
Proof. unfold set_env_type_role. keep_ok. Qed.

Lemma remove_env_type_role_keeps o e p audit :
  tx_rel keeps_ok (remove_env_type_role org o e p audit).
Proof. unfold remove_env_type_role. keep_ok. apply keeps_ok_delete_env_type_roles. Qed.

(** *** Applications *)

Lemma record_audit_keeps intent : tx_rel keeps_ok (record_audit org intent).
Proof. unfold record_audit. keep_ok. Qed.

Lemma create_env_type_keeps o id desc prot audit :
  tx_rel keeps_ok (create_env_type org o id desc prot audit).
Proof. unfold create_env_type. keep_ok. by apply keeps_ok_insert_env_type. Qed.

Lemma ensure_env_type_keeps id : tx_rel keeps_ok (ensure_env_type id).
Proof.
  intros c u c' Hx Hok. unfold ensure_env_type in Hx. inv_tx Hx.
  destruct (existsb _ _) eqn:E in Hx; inv_tx Hx; [done|].
  apply keeps_ok_insert_env_type; [|done]. simpl. by rewrite E.
Qed.
#[local] Hint Resolve ensure_env_type_keeps : tx.

Lemma update_env_type_keeps o id desc prot audit :
  tx_rel keeps_ok (update_env_type org o id desc prot audit).
Proof. unfold update_env_type. keep_ok. by apply keeps_ok_update_env_types. Qed.

Lemma no_users {A} (n : nat) (l : list A) : take (S n) l = [] → l = [].
Proof. by destruct l. Qed.

Lemma delete_env_type_keeps o id audit : tx_rel keeps_ok (delete_env_type org o id audit).
Proof.
  intros c u c' Hx Hok. unfold delete_env_type in Hx. inv_tx Hx.
  apply check_admin_authority_reads in H0.
  apply keeps_ok_delete_env_type; [|by rewrite <- H0].
  destruct (take 5 _) eqn:E in Hc1; [|done]. apply no_users, fmap_nil_inv in E. intros e He Ht.
  assert (e ∈ sort_by_key (λ e, (en_app e, en_id e))
    (select (λ e, String.eqb (en_type e) id) (db_envs (c_db c0)))) as Hs.
  { rewrite sort_by_key_perm. apply elem_of_select. split; [done|]. by apply String.eqb_eq. }
  rewrite E in Hs. by apply not_elem_of_nil in Hs.
Qed.

Lemma insert_env_keeps row : tx_rel keeps_ok (insert_env row).
Proof.
  unfold insert_env. tx_steps. apply andb_true_iff in H2 as [? ?]. by apply keeps_ok_insert_env.
Qed.
#[local] Hint Resolve insert_env_keeps : tx.

Lemma create_app_keeps o id name owner audit :
  tx_rel keeps_ok (create_app org o id name owner audit).
Proof.
  unfold create_app. keep_ok; [by apply keeps_ok_insert_app|].
  match goal with H : _ && _ = true |- _ => apply andb_true_iff in H as [? ?] end.
  by eapply (keeps_ok_insert_app_role _ _ Owner).
Qed.

Lemma update_app_keeps o id name audit : tx_rel keeps_ok (update_app org o id name audit).
Proof. unfold update_app. keep_ok. by apply keeps_ok_update_apps. Qed.

Lemma create_env_keeps o app env audit : tx_rel keeps_ok (create_env org o app env audit).
Proof. unfold create_env. keep_ok. Qed.

Lemma update_env_keeps o app env name audit : tx_rel keeps_ok (update_env org o app env name audit).
Proof. unfold update_env. keep_ok. by apply keeps_ok_update_envs. Qed.

Lemma insert_set_keeps digest app s : tx_rel keeps_ok (insert_set digest app s).
Proof. unfold insert_set. keep_ok. Qed.
#[local] Hint Resolve insert_set_keeps : tx.

Lemma put_set_keeps digest o app s : tx_rel keeps_ok (put_set org digest o app s).
Proof. unfold put_set. keep_ok. Qed.

Lemma put_set_audited_keeps digest o app s audit :
  tx_rel keeps_ok (put_set_audited org digest o app s audit).
Proof. unfold put_set_audited. keep_ok. Qed.

Lemma write_delta_keeps o app id draft content audit :
  tx_rel keeps_ok (write_delta org o app id draft content audit).
Proof. unfold write_delta. keep_ok. Qed.
End methods.
