(* ===== verification/IdentityRoles.v ===== *)
(** * Roles as the tables hold them, and what each method does to them

    The abstract state of the identity store is a [View]: who has which organization role,
    which role on which application, and who may deploy to which environment type. Reading
    roles returns the view's; each method changes the view the way its name says. *)

From Stdlib Require Import Ascii.
From stdpp Require Import base sets strings list.
From S2P Require Import Prelude Strings OrdMap Json Sets Db DbLogic Identity Apps IdentityInv.

Local Open Scope string_scope.
Local Open Scope Z_scope.
Local Open Scope list_scope.

(** ** Views *)

Record View := mk_View {
  v_org : string → option OrgRole;
  v_app : string → string → option AppRole;
  v_dep : string → string → bool
}.

#[export] Instance View_equiv : Equiv View := λ v w,
  (∀ p, v_org v p = v_org w p) ∧ (∀ a p, v_app v a p = v_app w a p)
  ∧ (∀ e p, v_dep v e p = v_dep w e p).

#[export] Instance View_equivalence : Equivalence (≡@{View}).
Proof.
  split.
  - by intros v.
  - intros v w (? & ? & ?). split_and!; intros; congruence.
  - intros u v w (? & ? & ?) (? & ? & ?). split_and!; intros; congruence.
Qed.

Definition org_role_of (d : Db) (p : string) : option OrgRole :=
  select_one (is_principal p) (db_principals d) ≫= λ r, org_role_parse (pr_org_role r).
Definition app_role_of (d : Db) (a p : string) : option AppRole :=
  select_one (is_app_role a p) (db_app_roles d) ≫= λ r, app_role_parse (ar_role r).
Definition deploys_to (d : Db) (e p : string) : bool :=
  existsb (is_env_type_role e p) (db_env_type_roles d).

Definition view (d : Db) : View := mk_View (org_role_of d) (app_role_of d) (deploys_to d).

(** Changing one entry. *)
Definition view_set_org (p : string) (r : option OrgRole) (v : View) : View :=
  mk_View (λ x, if String.eqb x p then r else v_org v x) (v_app v) (v_dep v).
Definition view_set_app (a p : string) (r : option AppRole) (v : View) : View :=
  mk_View (v_org v) (λ b x, if String.eqb b a && String.eqb x p then r else v_app v b x) (v_dep v).
Definition view_set_dep (e p : string) (b : bool) (v : View) : View :=
  mk_View (v_org v) (v_app v) (λ f x, if String.eqb f e && String.eqb x p then b else v_dep v f x).
(** A principal, or an environment type, that is gone. *)
Definition view_forget (p : string) (v : View) : View :=
  mk_View (λ x, if String.eqb x p then None else v_org v x)
    (λ a x, if String.eqb x p then None else v_app v a x)
    (λ e x, if String.eqb x p then false else v_dep v e x).
Definition view_forget_app (a : string) (v : View) : View :=
  mk_View (v_org v) (λ b x, if String.eqb b a then None else v_app v b x) (v_dep v).
Definition view_forget_type (e : string) (v : View) : View :=
  mk_View (v_org v) (v_app v) (λ f x, if String.eqb f e then false else v_dep v f x).

#[export] Instance view_forget_app_proper a : Proper ((≡) ==> (≡)) (view_forget_app a).
Proof.
  intros v w (Ho & Ha & Hd). split_and!; intros; simpl; [apply Ho| |apply Hd]. case_match; auto.
Qed.

#[export] Instance view_set_org_Proper p r : Proper ((≡) ==> (≡)) (view_set_org p r).
Proof. intros v w (Ho & Ha & Hd). split_and!; intros; simpl; [by rewrite Ho|done|done]. Qed.

(** ** Reading roles *)

Definition roles_of (d : Db) (p : string) : Roles :=
  match org_role_of d p with
  | None => default_roles
  | Some role =>
      mk_Roles (Some role)
        (bt_of_list (filter_map
          (λ r, (λ role, (ar_app r, role)) <$> app_role_parse (ar_role r))
          (select (λ r, String.eqb (ar_principal r) p) (db_app_roles d))))
        (bs_of_list (er_env_type
          <$> select (λ r, String.eqb (er_principal r) p) (db_env_type_roles d)))
  end.

Lemma fetch_principal_Ok id c x c' :
  fetch_principal id c = Ok (x, c') →
  c' = c ∧ p_role <$> x = org_role_of (c_db c) id
  ∧ (∀ p, x = Some p → ∃ r, select_one (is_principal id) (db_principals (c_db c)) = Some r
       ∧ p_id p = pr_id r ∧ p_kind p = pr_type r ∧ p_email p = pr_email r).
Proof.
  intros Hx. unfold fetch_principal in Hx. inv_tx Hx. unfold org_role_of.
  destruct (select_one _ _) as [r|] eqn:Er; inv_tx Hx; [|done].
  unfold principal_from_row in Hl. simpl. unfold ok_or in Hl.
  destruct (org_role_parse _) eqn:Ep; simplify_eq/=. split_and!; [done|done|]. naive_solver.
Qed.

Lemma require_principal_Ok id c p c' :
  require_principal id c = Ok (p, c') →
  c' = c ∧ org_role_of (c_db c) id = Some (p_role p)
  ∧ ∃ r, select_one (is_principal id) (db_principals (c_db c)) = Some r
     ∧ p_id p = pr_id r ∧ p_kind p = pr_type r ∧ p_email p = pr_email r.
Proof.
  intros Hx. unfold require_principal in Hx. inv_tx Hx.
  apply fetch_principal_Ok in H as (-> & Ho & Hr). simpl in *. naive_solver.
Qed.

Lemma roles_in_Ok p c r c' :
  roles_in p c = Ok (r, c') → c' = c ∧ r = roles_of (c_db c) p.
Proof.
  intros Hx. unfold roles_in in Hx. inv_tx Hx.
  apply fetch_principal_Ok in H as (-> & Ho & _). unfold roles_of.
  destruct a as [a|]; inv_tx Hx; simpl in Ho; by rewrite <- Ho.
Qed.

Section ok.
Context (d : Db) (Hok : identity_ok d).

Lemma org_role_total p r : select_one (is_principal p) (db_principals d) = Some r → is_Some (org_role_of d p).
Proof using Hok.
  intros Hr. unfold org_role_of. rewrite Hr. simpl. apply select_one_Some in Hr as [Hr _].
  destruct (ok_roles _ _ _ _ _ _ _ _ _ _ Hok r Hr) as [role ->]. rewrite org_role_parse_as_str. by eexists.
Qed.

Lemma org_role_member p : p ∈ pr_id <$> db_principals d ↔ is_Some (org_role_of d p).
Proof using Hok.
  split.
  - intros (r & -> & Hr)%list_elem_of_fmap.
    destruct (select_one (is_principal (pr_id r)) (db_principals d)) as [r'|] eqn:E;
      [by eapply org_role_total|].
    apply (proj1 (select_one_None _ _) E) in Hr. unfold is_principal in Hr. by rewrite String.eqb_refl in Hr.
  - intros [role Hr]. unfold org_role_of in Hr.
    destruct (select_one _ _) as [r|] eqn:E; [|done]. apply select_one_Some in E as [Hin Hp%is_principal_spec].
    apply list_elem_of_fmap. eauto.
Qed.

(** Reading roles never fails. *)
Lemma roles_in_total p n : roles_in p (mk_Conn d n) = Ok (roles_of d p, mk_Conn d n).
Proof using Hok.
  unfold roles_in, roles_of, fetch_principal, bind, query. simpl.
  destruct (select_one (is_principal p) (db_principals d)) as [r|] eqn:E.
  - destruct (org_role_total p r E) as [role Hr]. unfold org_role_of in *. rewrite E in *. simpl in *.
    unfold lift, principal_from_row, ok_or. by rewrite Hr.
  - unfold org_role_of. by rewrite E.
Qed.

Lemma app_role_lookup a p r :
  r ∈ db_app_roles d → app_role_key r = (a, p) →
  app_role_of d a p = app_role_parse (ar_role r).
Proof using Hok.
  intros Hr Hk. unfold app_role_of. erewrite (select_key app_role_key); [done| | |exact Hr|].
  - apply Hok.
  - intros x y Hx%is_app_role_spec Hy%is_app_role_spec. congruence.
  - by apply is_app_role_spec.
Qed.

Lemma app_role_Some a p role :
  app_role_of d a p = Some role ↔
  ∃ r, r ∈ db_app_roles d ∧ app_role_key r = (a, p) ∧ app_role_parse (ar_role r) = Some role.
Proof using Hok.
  split.
  - unfold app_role_of. destruct (select_one _ _) as [r|] eqn:E; [|done]. simpl.
    apply select_one_Some in E as [Hr Hk%is_app_role_spec]. eauto.
  - intros (r & Hr & Hk & Hp). by rewrite (app_role_lookup a p r).
Qed.

Lemma principal_app_roles_wf p :
  im_wf (filter_map (λ r, (λ role, (ar_app r, role)) <$> app_role_parse (ar_role r))
    (select (λ r, String.eqb (ar_principal r) p) (db_app_roles d))).
Proof using Hok.
  unfold im_wf. pose proof (ok_app_roles _ _ _ _ _ _ _ _ _ _ Hok) as Hn.
  induction (db_app_roles d) as [|r l IH]; [constructor|]. simpl in Hn. apply NoDup_cons in Hn as [Hr Hn].
  unfold select. rewrite filter_cons. case_decide as Hp; [|by apply IH]. simpl.
  destruct (app_role_parse (ar_role r)) as [role|]; simpl; [|by apply IH].
  apply NoDup_cons. split; [|by apply IH]. intros ([a x] & Ha & Hin)%list_elem_of_fmap. simpl in Ha. subst a.
  apply elem_of_filter_map in Hin as (r' & Hin & He). apply elem_of_select in Hin as [Hin Hp'].
  destruct (app_role_parse (ar_role r')); simplify_eq/=. apply Hr. apply list_elem_of_fmap.
  exists r'. split; [|done]. unfold app_role_key. apply String.eqb_eq in Hp, Hp'. congruence.
Qed.

Lemma roles_of_org p : r_org (roles_of d p) = org_role_of d p.
Proof. unfold roles_of. by destruct (org_role_of d p). Qed.

Lemma roles_of_app p a : bt_get a (r_apps (roles_of d p)) = app_role_of d a p.
Proof using Hok.
  apply option_eq. intros role. rewrite app_role_Some. unfold roles_of.
  destruct (org_role_of d p) as [o|] eqn:Eo; simpl.
  - rewrite bt_get_of_list by apply principal_app_roles_wf. split.
    + intros Hg%im_get_elem. apply elem_of_filter_map in Hg as (r & [Hr Hp%String.eqb_eq]%elem_of_select & He).
      destruct (app_role_parse (ar_role r)) eqn:Ep; simplify_eq/=. exists r. by rewrite Ep.
    + intros (r & Hr & Hk & Hp). apply im_elem_get; [apply principal_app_roles_wf|].
      apply elem_of_filter_map. exists r. unfold app_role_key in Hk. simplify_eq. split.
      * apply elem_of_select. split; [done|]. apply String.eqb_refl.
      * by rewrite Hp.
  - split; [done|]. intros (r & Hr & Hk & _).
    destruct (ok_app_role_refs _ _ _ _ _ _ _ _ _ _ Hok r Hr) as [Hp _].
    apply org_role_member in Hp as [o Ho]. unfold app_role_key in Hk. by simplify_eq.
Qed.

Lemma deploys_to_spec e p :
  deploys_to d e p = true ↔ ∃ r, r ∈ db_env_type_roles d ∧ env_type_role_key r = (e, p).
Proof. unfold deploys_to. rewrite existsb_true. by setoid_rewrite is_env_type_role_spec. Qed.

Lemma roles_of_deployer p e : e ∈ r_deployer (roles_of d p) ↔ deploys_to d e p = true.
Proof using Hok.
  rewrite deploys_to_spec. unfold roles_of. destruct (org_role_of d p) as [o|] eqn:Eo; simpl.
  - rewrite elem_of_bs_of_list, list_elem_of_fmap. setoid_rewrite elem_of_select.
    setoid_rewrite String.eqb_eq. unfold env_type_role_key. naive_solver.
  - split; [by intros ?%not_elem_of_nil|]. intros (r & Hr & Hk).
    destruct (ok_env_type_role_refs _ _ _ _ _ _ _ _ _ _ Hok r Hr) as [Hp _].
    apply org_role_member in Hp as [o Ho]. unfold env_type_role_key in Hk. by simplify_eq.
Qed.

(** A principal that does not exist has no roles. *)
Lemma view_absent p : p ∉ pr_id <$> db_principals d →
  org_role_of d p = None ∧ (∀ a, app_role_of d a p = None) ∧ ∀ e, deploys_to d e p = false.
Proof using Hok.
  intros Hp. assert (org_role_of d p = None) as Ho.
  { destruct (org_role_of d p) eqn:E; [|done]. by destruct Hp; apply org_role_member. }
  split_and!; [done| |].
  - intros a. rewrite <- roles_of_app. unfold roles_of. by rewrite Ho.
  - intros e. apply not_true_is_false. rewrite <- roles_of_deployer. unfold roles_of. rewrite Ho.
    apply not_elem_of_nil.
Qed.
End ok.

(** ** What statements do to the view *)

Lemma view_same d d' :
  db_principals d' = db_principals d → db_app_roles d' = db_app_roles d →
  db_env_type_roles d' = db_env_type_roles d → view d' ≡ view d.
Proof.
  intros Hp Ha He. split_and!; intros; simpl; unfold org_role_of, app_role_of, deploys_to;
    congruence.
Qed.

(** The role tables are unchanged. *)
Definition same_roles : relation Db := λ d d',
  db_principals d' = db_principals d ∧ db_app_roles d' = db_app_roles d
  ∧ db_env_type_roles d' = db_env_type_roles d.

#[export] Instance same_roles_PreOrder : PreOrder same_roles.
Proof. split; [by intros d|]. intros d1 d2 d3 (? & ? & ?) (? & ? & ?). split_and!; congruence. Qed.

Lemma same_roles_view {A} (m : tx A) c a c' :
  tx_rel same_roles m → m c = Ok (a, c') → view (c_db c') ≡ view (c_db c).
Proof. intros Hm Hx. apply Hm in Hx as (? & ? & ?). by apply view_same. Qed.

Lemma principal_other x id : String.eqb x id = false → ∀ r, is_principal x r = true → is_principal id r = false.
Proof.
  intros Hx r Hr%is_principal_spec. unfold is_principal. apply String.eqb_neq in Hx.
  apply String.eqb_neq. congruence.
Qed.

Lemma view_insert_principal d row role :
  negb (existsb (is_principal (pr_id row)) (db_principals d)) = true →
  pr_org_role row = org_role_as_str role →
  view (upd_principals (λ t, t ++ [row]) d) ≡ view_set_org (pr_id row) (Some role) (view d).
Proof.
  intros Hu Hr. split_and!; [|done|done]. intros x. simpl. unfold org_role_of. simpl.
  rewrite select_one_app. destruct (String.eqb_spec x (pr_id row)) as [->|Hne].
  - apply negb_true_iff in Hu. rewrite (proj2 (select_one_None _ _) (proj1 (existsb_false _ _) Hu)).
    unfold is_principal. rewrite String.eqb_refl. simpl. by rewrite Hr, org_role_parse_as_str.
  - unfold is_principal at 2. apply not_eq_sym, String.eqb_neq in Hne. rewrite Hne.
    by destruct (select_one _ _).
Qed.

Lemma view_update_role d id role f :
  is_Some (org_role_of d id) → (∀ r, pr_id (f r) = pr_id r) →
  (∀ r, pr_org_role (f r) = org_role_as_str role) →
  view (upd_principals (update (is_principal id) f) d) ≡ view_set_org id (Some role) (view d).
Proof.
  intros [o Ho] Hid Hf. split_and!; [|done|done]. intros x. simpl. unfold org_role_of in *. simpl.
  rewrite select_one_update by (intros r; unfold is_principal; by rewrite Hid).
  destruct (String.eqb_spec x id) as [->|Hne].
  - destruct (select_one (is_principal id) _) as [r|] eqn:E; [|done]. simpl.
    apply select_one_Some in E as [_ ->]. by rewrite Hf, org_role_parse_as_str.
  - destruct (select_one (is_principal x) _) as [r|] eqn:E; [|done]. simpl.
    apply select_one_Some in E as [_ Hx]. by rewrite (principal_other x id) by (try apply String.eqb_neq; done).
Qed.

Lemma view_update_name d p f :
  (∀ r, pr_id (f r) = pr_id r) → (∀ r, pr_org_role (f r) = pr_org_role r) →
  view (upd_principals (update p f) d) ≡ view d.
Proof.
  intros Hid Hf. split_and!; [|done|done]. intros x. simpl. unfold org_role_of. simpl.
  rewrite select_one_update by (intros r; unfold is_principal; by rewrite Hid).
  destruct (select_one _ _) as [r|]; [|done]. simpl. destruct (p r); [|done]. by rewrite Hf.
Qed.

Lemma existsb_delete {A} (p q : A → bool) t :
  (∀ r, p r = true → q r = false) → existsb p (delete_rows q t) = existsb p t.
Proof.
  intros Hq. apply eq_iff_eq_true. rewrite !existsb_true. setoid_rewrite elem_of_delete. naive_solver.
Qed.

Lemma existsb_deleted {A} (p q : A → bool) t :
  (∀ r, p r = true → q r = true) → existsb p (delete_rows q t) = false.
Proof.
  intros Hq. apply existsb_false. intros r [_ Hr]%elem_of_delete. destruct (p r) eqn:E; [|done].
  by rewrite Hq in Hr.
Qed.

Lemma view_delete_principal id c u c' :
  delete_principal id c = Ok (u, c') → view (c_db c') ≡ view_forget id (view (c_db c)).
Proof.
  intros Hx. unfold delete_principal in Hx. inv_tx Hx.
  split_and!; intros; simpl; unfold org_role_of, app_role_of, deploys_to; simpl.
  - destruct (String.eqb_spec p id) as [->|Hne]; [by rewrite select_one_deleted|].
    rewrite select_one_delete; [done|]. apply principal_other. by apply String.eqb_neq.
  - destruct (String.eqb_spec p id) as [->|Hne].
    + rewrite select_one_deleted; [done|]. by intros r [_ ?]%andb_true_iff.
    + rewrite select_one_delete; [done|]. intros r [_ ->%String.eqb_eq]%andb_true_iff.
      by apply String.eqb_neq.
  - destruct (String.eqb_spec p id) as [->|Hne].
    + apply existsb_deleted. by intros r [_ ?]%andb_true_iff.
    + apply existsb_delete. intros r [_ ->%String.eqb_eq]%andb_true_iff. by apply String.eqb_neq.
Qed.

Lemma view_insert_app_role a p role d :
  existsb (is_app_role a p) (db_app_roles d) = false →
  view (upd_app_roles (λ t, t ++ [mk_AppRoleRow a p (app_role_as_str role)]) d)
  ≡ view_set_app a p (Some role) (view d).
Proof.
  intros E. split_and!; [done| |done]. intros b x. simpl. unfold app_role_of. simpl.
  rewrite select_one_app. destruct (String.eqb b a && String.eqb x p) eqn:Eb.
  - apply eqb_pair in Eb as [= -> ->]. rewrite (proj2 (select_one_None _ _) (proj1 (existsb_false _ _) E)).
    unfold is_app_role. simpl. rewrite !String.eqb_refl. simpl. apply app_role_parse_as_str.
  - destruct (select_one _ _); [done|]. destruct (is_app_role b x _) eqn:Ea; [|done].
    apply is_app_role_spec in Ea. symmetry in Ea. apply eqb_pair in Ea. simpl in Ea. congruence.
Qed.

Lemma view_upsert_app_role a p role c u c' :
  upsert_app_role a p role c = Ok (u, c') →
  view (c_db c') ≡ view_set_app a p (Some role) (view (c_db c)).
Proof.
  intros Hx. unfold upsert_app_role in Hx. inv_tx Hx.
  destruct (existsb _ _) eqn:E in Hx; inv_tx Hx; (split_and!; [done| |done]); intros b x; simpl;
    unfold app_role_of; simpl.
  - rewrite select_one_update by done. destruct (String.eqb b a && String.eqb x p) eqn:Eb.
    + apply eqb_pair in Eb as [= -> ->]. apply existsb_true in E as (r & Hr & Hk).
      destruct (select_one (is_app_role a p) _) as [r'|] eqn:Es.
      * apply select_one_Some in Es as [_ Es]. simpl. rewrite Es. apply app_role_parse_as_str.
      * apply (proj1 (select_one_None _ _) Es) in Hr. congruence.
    + destruct (select_one _ _) as [r|] eqn:Es; [|done]. simpl. apply select_one_Some in Es as [_ Es].
      destruct (is_app_role a p r) eqn:Ea; [|done].
      apply is_app_role_spec in Es, Ea. rewrite Es in Ea. apply eqb_pair in Ea. congruence.
  - exact (proj1 (proj2 (view_insert_app_role a p role _ E)) b x).
Qed.

Lemma view_delete_app_role a p d :
  view (upd_app_roles (delete_rows (is_app_role a p)) d) ≡ view_set_app a p None (view d).
Proof.
  split_and!; [done| |done]. intros b x. simpl. unfold app_role_of. simpl.
  destruct (String.eqb b a && String.eqb x p) eqn:Eb.
  - apply eqb_pair in Eb as [= -> ->]. by rewrite select_one_deleted.
  - rewrite select_one_delete; [done|]. intros r Hr%is_app_role_spec.
    apply not_true_is_false. intros Ha%is_app_role_spec. rewrite Hr in Ha. apply eqb_pair in Ha. congruence.
Qed.

Lemma view_insert_env_type_role e p c u c' :
  insert_env_type_role e p c = Ok (u, c') →
  view (c_db c') ≡ view_set_dep e p true (view (c_db c)).
Proof.
  intros Hx. unfold insert_env_type_role in Hx. inv_tx Hx.
  destruct (existsb _ _) eqn:E in Hx; inv_tx Hx; (split_and!; [done|done|]); intros f x; simpl;
    unfold deploys_to; simpl; (destruct (String.eqb f e && String.eqb x p) eqn:Eb; [|try done]).
  - by apply eqb_pair in Eb as [= -> ->].
  - apply eqb_pair in Eb as [= -> ->]. rewrite existsb_app. simpl. unfold is_env_type_role at 2. simpl.
    by rewrite !String.eqb_refl, orb_true_r.
  - rewrite existsb_app. simpl. unfold is_env_type_role at 2. simpl.
    rewrite (String.eqb_sym e f), (String.eqb_sym p x), Eb. by rewrite orb_false_r.
Qed.

Lemma view_delete_env_type_role e p d :
  view (upd_env_type_roles (delete_rows (is_env_type_role e p)) d) ≡ view_set_dep e p false (view d).
Proof.
  split_and!; [done|done|]. intros f x. simpl. unfold deploys_to. simpl.
  destruct (String.eqb f e && String.eqb x p) eqn:Eb.
  - apply eqb_pair in Eb as [= -> ->]. by apply existsb_deleted.
  - apply existsb_delete. intros r Hr%is_env_type_role_spec.
    apply not_true_is_false. intros Ha%is_env_type_role_spec. rewrite Hr in Ha. apply eqb_pair in Ha. congruence.
Qed.

Lemma view_delete_env_type e d :
  view (upd_env_types (delete_rows (is_env_type e))
    (upd_env_type_roles (delete_rows (λ r, String.eqb (er_env_type r) e)) d))
  ≡ view_forget_type e (view d).
Proof.
  split_and!; [done|done|]. intros f x. simpl. unfold deploys_to. simpl.
  destruct (String.eqb_spec f e) as [->|Hne].
  - apply existsb_deleted. by intros r [? _]%andb_true_iff.
  - apply existsb_delete. intros r [->%String.eqb_eq _]%andb_true_iff. by apply String.eqb_neq.
Qed.
