(* ===== verification/DeployInv.v ===== *)
(** * Permits, deployments and resources: what they read and write

    The reading parts of the methods on permits, deployments and resources, and, for their writing
    parts, that they keep the integrity of the identity tables and what they do to roles: only the
    removal of an application changes them. *)

From Stdlib Require Import Ascii.
From stdpp Require Import base sets strings list.
From S2P Require Import Prelude Strings OrdMap Json Sets Db DbLogic Identity Apps Permits Deployments Resources IdentityInv IdentityRoles.

Local Open Scope string_scope.
Local Open Scope Z_scope.
Local Open Scope list_scope.

(** ** Reading *)

Lemma env_type_of_reads app env : reads (env_type_of app env).
Proof. unfold env_type_of. tx_steps. Qed.
Lemma env_generation_reads app env : reads (env_generation app env).
Proof. unfold env_generation. tx_steps. Qed.
Lemma check_protection_reads t a i : reads (check_protection t a i).
Proof. unfold check_protection. tx_steps. Qed.
#[export] Hint Resolve env_type_of_reads env_generation_reads check_protection_reads : tx.

Lemma issue_authority_reads app t a i : reads (issue_authority app t a i).
Proof. unfold issue_authority. tx_steps. Qed.
#[export] Hint Resolve issue_authority_reads : tx.

Lemma issuer_lost_reads app t a i : reads (issuer_lost app t a i).
Proof. unfold issuer_lost. tx_steps. Qed.
#[export] Hint Resolve issuer_lost_reads : tx.

Lemma check_issue_reads `{System} app env plan l i : reads (check_issue app env plan l i).
Proof. unfold check_issue. tx_steps. Qed.
Lemma acceptance_intent_reads org app env id : reads (acceptance_intent org app env id).
Proof. unfold acceptance_intent. tx_steps. Qed.
Lemma fetch_deployment_reads app env id : reads (fetch_deployment app env id).
Proof. unfold fetch_deployment. tx_steps. Qed.
#[export] Hint Resolve check_issue_reads acceptance_intent_reads fetch_deployment_reads : tx.

Lemma require_deployment_reads app env id : reads (require_deployment app env id).
Proof. unfold require_deployment. tx_steps. Qed.
Lemma prior_deployment_reads app env actor key : reads (prior_deployment app env actor key).
Proof. unfold prior_deployment. tx_steps. Qed.
Lemma check_kind_reads app env k a s : reads (check_kind app env k a s).
Proof. unfold check_kind. tx_steps. Qed.
Lemma check_set_reads app k s : reads (check_set app k s).
Proof. unfold check_set. tx_steps. Qed.
Lemma check_delta_reads app i c : reads (check_delta app i c).
Proof. unfold check_delta. tx_steps. Qed.
#[export] Hint Resolve require_deployment_reads prior_deployment_reads check_kind_reads
  check_set_reads check_delta_reads : tx.

Lemma check_accept_reads req : reads (check_accept req).
Proof. unfold check_accept. tx_steps. Qed.
Lemma finish_error_reads app env k e : reads (finish_error app env k e).
Proof. unfold finish_error. tx_steps. Qed.
#[export] Hint Resolve check_accept_reads finish_error_reads : tx.

(** ** Writing

    What a relation must allow for the methods on permits and deployments to keep it. *)

Class allows_deploys (R : relation Db) := {
  allows_PreOrder :: PreOrder R;
  allows_audit d f s : R d (set_seq s (upd_audit_log f d));
  allows_seq d s : R d (set_seq s d);
  allows_plans d f : R d (upd_plans f d);
  allows_permits d f : R d (upd_permits f d);
  allows_approvals d f : R d (upd_approval_requests f d);
  allows_logs d f : R d (upd_logs f d);
  allows_deployments d f : R d (upd_deployments f d);
  allows_deltas d f : R d (upd_deltas f d);
  allows_tombstones d f : R d (upd_tombstones f d);
  allows_resources d f : R d (upd_active_resources f d);
  allows_runs d f : R d (upd_deployment_resources f d);
  allows_operations d f : R d (upd_operations f d);
  allows_envs d p f :
    (∀ r, env_key (f r) = env_key r) → (∀ r, en_type (f r) = en_type r) →
    R d (upd_envs (update p f) d);
  allows_apps d p f : (∀ r, ap_id (f r) = ap_id r) → R d (upd_apps (update p f) d);
}.

Lemma try_permits_rel (R : relation Db) `{!PreOrder R} u t g now l rows :
  (∀ d i now, R d (upd_permits (update (λ x, String.eqb (pm_id x) i) (use_permit_row now)) d)) →
  tx_rel R (try_permits u t g now l rows).
Proof.
  intros Hu. revert l. induction rows as [|r rows IH]; intros l; simpl; [tx_steps|].
  destruct (refusal _ _ _ _); [done|]. tx_steps; auto.
Qed.

(** A statement that such a relation allows. *)
Ltac allowed :=
  first [apply allows_audit | apply allows_seq | apply allows_plans | apply allows_permits
    | apply allows_approvals | apply allows_logs | apply allows_deployments | apply allows_deltas
    | apply allows_tombstones | apply allows_resources | apply allows_runs | apply allows_operations
    | apply allows_envs; reflexivity | apply allows_apps; reflexivity].

Section allows.
Context `{System} (org : string) (R : relation Db) `{!allows_deploys R}.

#[local] Hint Extern 2 (R _ _) => allowed : tx.

Ltac by_allows := tx_steps; eauto with tx.

Lemma put_plan_allowed p : tx_rel R (put_plan org p).
Proof. unfold put_plan. by_allows. Qed.

Lemma issue_permits_allowed o app env p l audit : tx_rel R (issue_permits org o app env p l audit).
Proof. unfold issue_permits, insert_permit. by_allows. Qed.

Lemma try_permits_allowed u t g now l rows : tx_rel R (try_permits u t g now l rows).
Proof. apply try_permits_rel; [apply _|]. intros d i now'. apply allows_permits. Qed.
#[local] Hint Resolve try_permits_allowed : tx.

Lemma use_permit_allowed u : tx_rel R (use_permit org u).
Proof. unfold use_permit, consume_permit. by_allows. Qed.

Lemma record_approval_request_allowed o app env r : tx_rel R (record_approval_request org o app env r).
Proof. unfold record_approval_request. by_allows. Qed.

Lemma bind_permits_allowed app env g id b : tx_rel R (bind_permits app env g id b).
Proof. unfold bind_permits, bind_permit. by_allows. Qed.
#[local] Hint Resolve bind_permits_allowed : tx.

Lemma append_log_allowed row : tx_rel R (append_log row).
Proof. unfold append_log. by_allows. Qed.
#[local] Hint Resolve append_log_allowed : tx.

Lemma log_in_tx_allowed id op level m : tx_rel R (log_in_tx id op level m).
Proof. unfold log_in_tx. by_allows. Qed.
#[local] Hint Resolve log_in_tx_allowed : tx.

Lemma append_logs_allowed o app env id lines : tx_rel R (append_logs org o app env id lines).
Proof. unfold append_logs. by_allows. Qed.

Lemma freeze_delta_allowed app id : tx_rel R (freeze_delta app id).
Proof. unfold freeze_delta. by_allows. Qed.
#[local] Hint Resolve freeze_delta_allowed : tx.

Lemma accept_new_allowed req : tx_rel R (accept_new req).
Proof. unfold accept_new, create_deployment, insert_deployment, audit_bound. by_allows. Qed.
#[local] Hint Resolve accept_new_allowed : tx.

Lemma accept_in_tx_allowed req : tx_rel R (accept_in_tx req).
Proof. unfold accept_in_tx. by_allows. Qed.
#[local] Hint Resolve accept_in_tx_allowed : tx.

Lemma accept_deployment_allowed req : tx_rel R (accept_deployment org req).
Proof. unfold accept_deployment. by_allows. Qed.

Lemma delete_env_of_allowed req l e : tx_rel R (delete_env_of req l e).
Proof. unfold delete_env_of. by_allows. Qed.

Lemma release_resources_allowed app env : tx_rel R (release_resources app env).
Proof. unfold release_resources, append_tombstone. by_allows. Qed.
End allows.

(** ** The integrity of the tables *)

#[export] Instance keeps_ok_deploys : allows_deploys keeps_ok.
Proof.
  split; try apply _; try (intros; by unfold keeps_ok, identity_ok).
  - intros d p f Hk Ht. by apply keeps_ok_update_envs.
  - intros d p f Hk. by apply keeps_ok_update_apps.
Qed.

#[export] Instance same_roles_deploys : allows_deploys same_roles.
Proof. split; try apply _; intros; by split_and!. Qed.

Lemma remove_env_keeps `{System} app env : tx_rel keeps_ok (remove_env app env).
Proof.
  unfold remove_env. tx_steps; [by apply release_resources_allowed; apply _|].
  unfold keeps_ok, identity_ok. keep_fields; [by apply delete_column_NoDup|].
  intros r [Hr _]%elem_of_delete. by eauto.
Qed.

Lemma remove_env_same `{System} app env : tx_rel same_roles (remove_env app env).
Proof. unfold remove_env. tx_steps; [by apply release_resources_allowed; apply _|]. by split_and!. Qed.
#[export] Hint Resolve remove_env_keeps remove_env_same : tx.

(** An application goes with its roles, once no environment refers to it. *)
Lemma remove_app_keeps app d n u c' :
  (∀ e, e ∈ db_envs d → en_app e ≠ app) → identity_ok d →
  remove_app app (mk_Conn d n) = Ok (u, c') → identity_ok (c_db c').
Proof.
  intros He Hok Hx. unfold remove_app in Hx. inv_tx Hx. revert Hok. unfold identity_ok.
  keep_fields; try by apply delete_column_NoDup.
  - intros r [Hr _]%elem_of_delete. by eauto.
  - intros r [Hr Hne%String.eqb_neq]%elem_of_delete. destruct (ok_app_role_refs r Hr). split; [done|].
    by apply not_deleted.
  - intros r Hr. destruct (ok_env_refs r Hr). split; [|done]. apply not_deleted; [done|]. by apply He.
Qed.

Lemma remove_app_view app c u c' :
  remove_app app c = Ok (u, c') → view (c_db c') ≡ view_forget_app app (view (c_db c)).
Proof.
  intros Hx. unfold remove_app in Hx. inv_tx Hx. split_and!; [done| |done].
  intros b x. simpl. unfold app_role_of. simpl. destruct (String.eqb_spec b app) as [->|Hne].
  - rewrite select_one_deleted; [done|]. by intros r [? _]%andb_true_iff.
  - rewrite select_one_delete; [done|]. intros r [->%String.eqb_eq _]%andb_true_iff. by apply String.eqb_neq.
Qed.

(** The outcome of a step that may remove the application [app]. *)
Definition may_forget_app (app : string) (d d' : Db) : Prop :=
  identity_ok d' ∧ (view d' ≡ view d ∨ view d' ≡ view_forget_app app (view d)).

Lemma no_envs_left app d :
  select (λ e, String.eqb (en_app e) app) (db_envs d) = [] → ∀ e, e ∈ db_envs d → en_app e ≠ app.
Proof.
  intros Hs e He Ha. assert (e ∈ select (λ e, String.eqb (en_app e) app) (db_envs d)) as Hin.
  { apply elem_of_select. split; [done|]. by apply String.eqb_eq. }
  rewrite Hs in Hin. by apply not_elem_of_nil in Hin.
Qed.

Lemma kept_same {A} (m : tx A) app d n a c' :
  tx_rel keeps_ok m → tx_rel same_roles m → identity_ok d → m (mk_Conn d n) = Ok (a, c') →
  may_forget_app app d (c_db c').
Proof.
  intros Hk Hs Hok Hx. split; [by apply (Hk _ _ _ Hx)|]. left. by apply (same_roles_view m _ _ _ Hs Hx).
Qed.

Section removal.
Context `{System} (org : string).

Lemma finish_env_step app env id kind set_id error d n b c' :
  identity_ok d → finish_env app env id kind set_id error (mk_Conn d n) = Ok (b, c') →
  may_forget_app app d (c_db c').
Proof.
  intros Hok Hx. destruct (decide (kind = DeleteEnv ∧ error = None)) as [[-> ->]|Hn].
  - unfold finish_env in Hx. inv_tx Hx. pose proof (remove_env_keeps _ _ _ _ _ H0 Hok) as Hok'.
    pose proof (same_roles_view _ _ _ _ (remove_env_same app env) H0) as Hv. simpl in *.
    destruct (String.eqb _ _ && _) eqn:E in Hx; inv_tx Hx; [|by split; [|left]].
    apply andb_true_iff in E as [_ E%Nat.eqb_eq]. apply length_zero_iff_nil in E.
    destruct c as [dc nc]. split.
    + by eapply remove_app_keeps; [apply no_envs_left; exact E| |exact H1].
    + right. etrans; [by apply (remove_app_view _ _ _ _ H1)|]. by f_equiv.
  - apply (kept_same (finish_env app env id kind set_id error) app d n b c'); try done;
      destruct kind, error; simpl; try (by destruct Hn); tx_steps; try (by split_and!);
      by apply keeps_ok_update_envs.
Qed.

Lemma forget_before app d d1 d2 :
  identity_ok d → keeps_ok d d1 → same_roles d d1 → may_forget_app app d1 d2 →
  may_forget_app app d d2.
Proof.
  intros Hok Hk (? & ? & ?) [Hok2 Hv]. split; [done|].
  assert (view d1 ≡ view d) as E by (by apply view_same). by rewrite <- E.
Qed.

Lemma forget_after app d d1 d2 :
  keeps_ok d1 d2 → same_roles d1 d2 → may_forget_app app d d1 → may_forget_app app d d2.
Proof.
  intros Hk (? & ? & ?) [Hok1 Hv]. split; [by apply Hk|].
  assert (view d2 ≡ view d1) as E by (by apply view_same). by rewrite E.
Qed.

Lemma finish_audit_allowed R `{!allows_deploys R} o app env id error b :
  tx_rel R (finish_audit o app env id error b).
Proof. unfold finish_audit. tx_steps; apply allows_audit. Qed.

Lemma finish_deployment_step o app env id error d n u c' :
  identity_ok d → finish_deployment org o app env id error (mk_Conn d n) = Ok (u, c') →
  may_forget_app app d (c_db c').
Proof.
  intros Hok Hx. unfold finish_deployment, finish_in_tx in Hx. inv_tx Hx. settle H0.
  eapply forget_after; [by apply (finish_audit_allowed keeps_ok _ _ _ _ _ _ _ _ _ Hx)
    |by apply (finish_audit_allowed same_roles _ _ _ _ _ _ _ _ _ Hx)|].
  pose proof (log_in_tx_allowed keeps_ok _ _ _ _ _ _ _ H1) as Hk.
  pose proof (log_in_tx_allowed same_roles _ _ _ _ _ _ _ H1) as Hs.
  eapply (forget_before _ _ (upd_deployments _ (c_db c0))); [done|exact Hk|exact Hs|].
  eapply finish_env_step; [by apply Hk|exact H2].
Qed.

Lemma delete_envs_allowed R `{!allows_deploys R} req acc l : tx_rel R (fold_each (delete_env_of req) acc l).
Proof. apply tx_rel_fold_each; [apply _|]. intros ? ?. by apply delete_env_of_allowed. Qed.

Lemma check_envs_reads actor app l : reads (for_each (λ e, check_env_authority actor app (en_type e)) l).
Proof. tx_steps. Qed.

Lemma accept_app_deletion_step req d n r c' :
  identity_ok d → accept_app_deletion org req (mk_Conn d n) = Ok (r, c') →
  may_forget_app (ad_app req) d (c_db c')
  ∧ ∃ n1 u c1, check_app_authority (ai_actor (ad_audit req)) (ad_app req) (mk_Conn d n1) = Ok (u, c1).
Proof.
  intros Hok Hx. unfold accept_app_deletion in Hx. inv_tx Hx. split; [|by eauto]. settle H0.
  apply check_envs_reads in H1. destruct c as [d1 n1]. simpl in *. subst d1.
  pose proof (delete_envs_allowed keeps_ok _ _ _ _ _ _ H2) as Hk.
  pose proof (delete_envs_allowed same_roles _ _ _ _ _ _ H2) as Hs. simpl in *.
  set (d2 := set_seq s (upd_audit_log f (c_db c1))) in *.
  assert (keeps_ok d d2 ∧ same_roles d d2) as [Hk2 Hs2].
  { split; [intros _; apply Hk; by apply keeps_ok_update_apps|exact Hs]. }
  destruct (sort_by_key env_order _) as [|e l] eqn:E; [|inv_tx H3].
  - eapply (forget_before _ _ d2); [done..|]. simpl in H2. inv_tx H2. split.
    + eapply (remove_app_keeps _ d2); [|by apply Hk2|exact H3]. apply no_envs_left.
      apply Permutation_nil. rewrite <- E. apply sort_by_key_perm.
    + right. by apply (remove_app_view _ _ _ _ H3).
  - split; [by apply Hk2|]. left. destruct Hs2 as (? & ? & ?). by apply view_same.
Qed.
End removal.

(** ** Resources and their operations *)

Lemma check_in_progress_reads app env id : reads (check_in_progress app env id).
Proof. unfold check_in_progress. tx_steps. Qed.
Lemma detached_reads app env descriptor : reads (detached app env descriptor).
Proof. unfold detached. tx_steps. Qed.
Lemma check_result_reads id state kind r : reads (check_result id state kind r).
Proof. unfold check_result. tx_steps. Qed.
Lemma check_idle_reads app env : reads (check_idle app env).
Proof. unfold check_idle. tx_steps. Qed.
Lemma check_detach_reads app env detach : reads (check_detach app env detach).
Proof. unfold check_detach. tx_steps. Qed.
#[export] Hint Resolve check_in_progress_reads detached_reads check_result_reads check_idle_reads
  check_detach_reads : tx.

Lemma finish_error_failed app env kind error c e c' :
  finish_error app env kind (Some error) c = Ok (e, c') → e = Some error.
Proof. unfold finish_error. destruct kind; intros Hx; by inv_tx Hx. Qed.

(** ** Writing *)

Section allows.
Context `{System} (org : string) (R : relation Db) `{!allows_deploys R}.

#[local] Hint Extern 2 (R _ _) => allowed : tx.

Ltac by_allows := tx_steps; eauto with tx.

Lemma close_operation_allowed id dep g a b c e f now : tx_rel R (close_operation id dep g a b c e f now).
Proof. unfold close_operation. by_allows. Qed.
#[local] Hint Resolve close_operation_allowed : tx.

Lemma begin_resource_allowed start descriptor now : tx_rel R (begin_resource start descriptor now).
Proof. unfold begin_resource, close_abandoned, insert_resource. by_allows. Qed.
#[local] Hint Resolve begin_resource_allowed : tx.

Lemma upsert_run_allowed row p f : tx_rel R (upsert_run row p f).
Proof. unfold upsert_run. by_allows. Qed.
#[local] Hint Resolve upsert_run_allowed : tx.

Lemma begin_operation_allowed start : tx_rel R (begin_operation org start).
Proof. unfold begin_operation, insert_operation. by_allows. Qed.

Lemma bury_allowed g stone : tx_rel R (bury g stone).
Proof. unfold bury, append_tombstone. by_allows. Qed.
#[local] Hint Resolve bury_allowed : tx.

Lemma checkpoint_in_tx_allowed id r : tx_rel R (checkpoint_in_tx id r).
Proof. unfold checkpoint_in_tx, apply_result, pin_deployment. by_allows. Qed.
#[local] Hint Resolve checkpoint_in_tx_allowed : tx.

Lemma record_operation_inputs_allowed id v : tx_rel R (record_operation_inputs id v).
Proof. unfold record_operation_inputs. by_allows. Qed.

Lemma keep_recovery_cookie_allowed id o c : tx_rel R (keep_recovery_cookie id o c).
Proof. unfold keep_recovery_cookie. by_allows. Qed.

Lemma resolve_operation_allowed id r audit : tx_rel R (resolve_operation id r audit).
Proof. unfold resolve_operation, apply_resolution, restore_status. by_allows. Qed.

Lemma record_resource_status_allowed o app env id descriptor s e :
  tx_rel R (record_resource_status org o app env id descriptor s e).
Proof. unfold record_resource_status. by_allows. Qed.

Lemma detach_resource_allowed o app env detach audit : tx_rel R (detach_resource org o app env detach audit).
Proof.
  unfold detach_resource, detach_permit, consume_permit. by_allows. by apply try_permits_allowed.
Qed.

Lemma schedule_deletion_allowed o app env descriptor audit :
  tx_rel R (schedule_deletion org o app env descriptor audit).
Proof. unfold schedule_deletion. by_allows. Qed.

(** A failed deployment removes nothing. *)
Lemma finish_failed_allowed app env id error : tx_rel R (finish_in_tx org app env id (Some error)).
Proof.
  unfold finish_in_tx. do 4 (apply tx_rel_bind; [apply _|by tx_steps|intros ?]).
  apply (tx_rel_bind_post R (λ e, e = Some error)); [by tx_steps|by apply finish_error_failed|].
  intros ? ->. unfold finish_env. tx_steps; eauto with tx;
    [by apply log_in_tx_allowed|by apply finish_audit_allowed].
Qed.
#[local] Hint Resolve finish_failed_allowed : tx.

Lemma interrupt_allowed a b e level line f now o : tx_rel R (interrupt a b e level line f now o).
Proof. unfold interrupt. by_allows. by apply log_in_tx_allowed. Qed.
#[local] Hint Resolve interrupt_allowed : tx.

Lemma recover_interrupted_allowed : tx_rel R (recover_interrupted org).
Proof. unfold recover_interrupted, interrupt_cleanup, interrupt_unstarted, interrupt_uncertain. by_allows. Qed.

Lemma mark_restored_allowed : tx_rel R mark_restored.
Proof. unfold mark_restored, mark_resource, insert_operation. by_allows. Qed.
End allows.
