(* ===== verification/Access.v ===== *)
(** * Access control: the identity store against its specification

    The specification is a transition system on views: which changes of roles an actor may
    make, with the delegation ceiling and the last administrator. Every method of the store
    implements a transition of it ([exec_refines]); the properties of the specification, that an
    administrator always remains and that nobody grants what they do not hold, are therefore
    properties of the store, along any sequence of its operations. *)

From Stdlib Require Import Ascii.
From stdpp Require Import base sets strings list relations.
From S2P Require Import Prelude Strings OrdMap Json Sets Db DbLogic Identity Rbac Apps Permits Deployments IdentityInv IdentityRoles DeployInv.

Local Open Scope string_scope.
Local Open Scope Z_scope.
Local Open Scope list_scope.

(** ** The specification *)

(** [a] holds every role that [t] holds. *)
Definition view_covers (v : View) (a t : string) : Prop :=
  (v_org v t = None ∨ v_org v t = Some Member ∨ v_org v t = v_org v a)
  ∧ (∀ app r, v_app v app t = Some r →
       ∃ r', v_app v app a = Some r' ∧ (app_role_rank r ≤ app_role_rank r')%nat)
  ∧ ∀ e, v_dep v e t = true → v_dep v e a = true.

Definition administers (v : View) (actor : option string) : Prop :=
  ∀ a, actor = Some a → v_org v a = Some Administrator.

(** Who may give [p] the organization role [role], and who may remove [p]: the server
    itself, administrators, and managers below the ceiling. *)
Definition may_set_org (v : View) (actor : option string) (p : string) (role : OrgRole) : Prop :=
  ∀ a, actor = Some a → v_org v a = Some Administrator
    ∨ (v_org v a = Some Manager ∧ v_org v p ≠ Some Administrator ∧ view_covers v a p
       ∧ (role = Member ∨ role = Manager)).

Definition may_remove (v : View) (actor : option string) (p : string) : Prop :=
  ∀ a, actor = Some a → v_org v a = Some Administrator
    ∨ (v_org v a = Some Manager ∧ v_org v p ≠ Some Administrator).

(** Another administrator than [p]. *)
Definition other_admin (v : View) (p : string) : Prop :=
  v_org v p = Some Administrator → ∃ q, q ≠ p ∧ v_org v q = Some Administrator.

Inductive view_step (actor : option string) (v v' : View) : Prop :=
| vs_same : v' ≡ v → view_step actor v v'
| vs_org p role :
    may_set_org v actor p role → (role ≠ Administrator → other_admin v p) →
    v' ≡ view_set_org p (Some role) v → view_step actor v v'
| vs_forget p :
    may_remove v actor p → other_admin v p → v' ≡ view_forget p v → view_step actor v v'
| vs_app app p role :
    (∀ a, actor = Some a → v_org v a = Some Administrator ∨ v_app v app a = Some Owner) →
    v' ≡ view_set_app app p role v → view_step actor v v'
| vs_new_app app p :
    (∀ a, actor = Some a → v_org v a = Some Administrator ∨ v_org v a = Some Manager) →
    (∀ x, v_app v app x = None) →
    v' ≡ view_set_app app p (Some Owner) v → view_step actor v v'
| vs_dep e p b : administers v actor → v' ≡ view_set_dep e p b v → view_step actor v v'
| vs_forget_type e : administers v actor → v' ≡ view_forget_type e v → view_step actor v v'
| vs_forget_app app :
    (∀ a, actor = Some a → v_org v a = Some Administrator ∨ v_app v app a = Some Owner) →
    v' ≡ view_forget_app app v → view_step actor v v'.

(** ** Properties of the specification *)

Definition has_admin (v : View) : Prop := ∃ p, v_org v p = Some Administrator.

Lemma view_step_admin actor v v' : view_step actor v v' → has_admin v → has_admin v'.
Proof.
  intros Hs [q Hq]. destruct Hs as
    [(Ho & _)|p role _ Hl (Ho & _)|p _ Hl (Ho & _)|app p role _ (Ho & _)|app p _ _ (Ho & _)
    |e p b _ (Ho & _)|e _ (Ho & _)|app _ (Ho & _)];
    try (exists q; by rewrite Ho).
  - destruct (decide (role = Administrator)) as [->|Hr].
    + exists p. rewrite Ho. simpl. by rewrite String.eqb_refl.
    + destruct (decide (q = p)) as [->|Hne].
      * destruct (Hl Hr Hq) as (q' & Hne & Hq'). exists q'. rewrite Ho. simpl.
        apply String.eqb_neq in Hne. by rewrite Hne.
      * exists q. rewrite Ho. simpl. apply String.eqb_neq in Hne. by rewrite Hne.
  - destruct (decide (q = p)) as [->|Hne].
    + destruct (Hl Hq) as (q' & Hne & Hq'). exists q'. rewrite Ho. simpl.
      apply String.eqb_neq in Hne. by rewrite Hne.
    + exists q. rewrite Ho. simpl. apply String.eqb_neq in Hne. by rewrite Hne.
Qed.

(** What a step by [a] may have given to anyone: nothing new, except, by a manager, an
    organization role below administrator to someone it covers; by the owner of an
    application, roles on it; and an application that nobody had a role on. *)
Definition granted_within (a : string) (v v' : View) : Prop :=
  (∀ p, v_org v' p = v_org v p ∨ v_org v' p = None
     ∨ (v_org v a = Some Manager ∧ v_org v p ≠ Some Administrator ∧ view_covers v a p
        ∧ (v_org v' p = Some Member ∨ v_org v' p = Some Manager)))
  ∧ (∀ app p, v_app v' app p = v_app v app p ∨ v_app v' app p = None
     ∨ v_app v app a = Some Owner
     ∨ (v_org v a = Some Manager ∧ ∀ x, v_app v app x = None))
  ∧ ∀ e p, v_dep v' e p = true → v_dep v e p = true.

Lemma view_step_granted a v v' :
  v_org v a ≠ Some Administrator → view_step (Some a) v v' → granted_within a v v'.
Proof.
  intros Ha Hs. destruct Hs as
    [(Ho & Happ & Hd)|p role Hm _ (Ho & Happ & Hd)|p _ _ (Ho & Happ & Hd)
    |app p role Hm (Ho & Happ & Hd)|app p Hm Hn (Ho & Happ & Hd)|e p b Hm _|e Hm _
    |app _ (Ho & Happ & Hd)];
    try (by destruct Ha; apply Hm).
  - split_and!; [intros p; by left; rewrite Ho|intros app p; by left; rewrite Happ|].
    intros e p. by rewrite Hd.
  - split_and!; [|intros app q; left; by rewrite Happ|intros e q; by rewrite Hd].
    intros q. rewrite Ho. simpl. destruct (String.eqb_spec q p) as [->|]; [|by left].
    destruct (Hm a eq_refl) as [?|(? & ? & ? & Hr)]; [done|]. right; right. split_and!; [done..|].
    destruct Hr as [-> | ->]; auto.
  - split_and!; intros *; rewrite ?Ho, ?Happ, ?Hd; simpl; destruct (String.eqb _ p); auto; done.
  - split_and!; [intros q; left; by rewrite Ho| |intros e q; by rewrite Hd].
    intros b q. rewrite Happ. simpl. destruct (_ && _) eqn:E; [|by left].
    apply eqb_pair in E as [= -> ->]. destruct (Hm a eq_refl); [done|auto].
  - split_and!; [intros q; left; by rewrite Ho| |intros e q; by rewrite Hd].
    intros b q. rewrite Happ. simpl. destruct (_ && _) eqn:E; [|by left].
    apply eqb_pair in E as [= -> ->]. destruct (Hm a eq_refl); [done|auto].
  - split_and!; intros *; rewrite ?Ho, ?Happ, ?Hd; simpl; auto. destruct (String.eqb _ app); auto.
Qed.

(** ** Authority checks *)

#[local] Arguments check_authority_for : simpl never.
#[local] Arguments check_authority : simpl never.

Section authority.
Context (d : Db) (Hok : identity_ok d).
Implicit Types (c : Conn).

Lemma covers_view a t :
  org_role_of d a = Some Manager → covers (roles_of d a) (roles_of d t) = true →
  view_covers (view d) a t.
Proof using Hok.
  intros Ha Hc. apply covers_spec in Hc.
  assert (r_org (roles_of d a) = Some Manager) as Hm by by rewrite roles_of_org.
  destruct Hc as [?|[(Ht & Happs & Hdep)|(i & o & Hi & Ht & Hor & Happs & Hdep)]]; [congruence| |].
  - rewrite roles_of_org in Ht by done. split_and!; simpl.
    + by left.
    + intros app r. rewrite <- roles_of_app by done. by rewrite Happs.
    + intros e He. apply roles_of_deployer in He; [|done]. rewrite Hdep in He. by apply not_elem_of_nil in He.
  - rewrite roles_of_org in Ht by done. split_and!; simpl.
    + rewrite Ht, Ha. destruct Hor as [-> | <-]; [auto|]. right; right. congruence.
    + intros app r. rewrite <- !roles_of_app by done. intros Hg%bt_get_elem. by apply Happs.
    + intros e. rewrite <- !roles_of_deployer by done. apply Hdep.
Qed.

(** The delegation ceiling, as the checks read it from the tables. *)
Lemma check_authority_for_Ok actor target role removal n u c' :
  check_authority_for actor target role removal (mk_Conn d n) = Ok (u, c') →
  c_db c' = d ∧ ∀ a, actor = Some a →
    org_role_of d a = Some Administrator
    ∨ (org_role_of d a = Some Manager
       ∧ (∀ t, target = Some t → org_role_of d t ≠ Some Administrator
            ∧ (removal = false → covers (roles_of d a) (roles_of d t) = true))
       ∧ (∀ r, role = Some r → r = Member ∨ r = Manager)).
Proof using Hok.
  intros Hx. split; [by apply check_authority_for_reads in Hx|]. intros a ->. simpl in Hx.
  unfold check_authority_for in Hx. inv_tx Hx. apply roles_in_Ok in H as [-> ->]. simpl in Hx.
  unfold is_administrator in Hx. rewrite roles_of_org in Hx by done.
  case_bool_decide as Ha; [by left|]. right. inv_tx Hx. apply bool_decide_eq_true in Hc.
  split_and!; [done| |].
  - intros t ->. apply roles_in_Ok in H as [-> ->]. simpl in *. apply negb_true_iff, orb_false_iff in Hc0 as [Ht Hcov].
    apply bool_decide_eq_false in Ht. rewrite roles_of_org in Ht by done.
    split; [done|]. intros ->. simpl in Hcov. by apply negb_false_iff in Hcov.
  - intros r ->. simpl in Hx. inv_tx Hx. apply negb_true_iff, orb_false_iff in Hc1 as [Hr Hcov].
    apply negb_false_iff, covers_spec in Hcov. simpl in Hcov. rewrite roles_of_org in Hcov by done.
    rewrite Hc in Hcov. naive_solver.
Qed.

Lemma check_set_org actor target role n u c' :
  check_authority_for actor target (Some role) false (mk_Conn d n) = Ok (u, c') →
  ∀ p, match target with Some t => p = t | None => p ∉ pr_id <$> db_principals d end →
  may_set_org (view d) actor p role.
Proof using Hok.
  intros Hx p Hp a ->. apply check_authority_for_Ok in Hx as [_ Hx].
  destruct (Hx a eq_refl) as [?|(Hm & Ht & Hr)]; [by left|]. right. simpl.
  split_and!; [done| | |by apply Hr].
  - destruct target as [t|]; [subst; by apply Ht|]. apply view_absent in Hp as [-> _]; done.
  - destruct target as [t|].
    + subst. apply covers_view; [done|]. by apply Ht.
    + apply view_absent in Hp as (Ho & Happs & Hdep); [|done]. split_and!; simpl; [by left| |].
      * intros app r. by rewrite Happs.
      * intros e. by rewrite Hdep.
Qed.

Lemma check_app_authority_Ok actor app n u c' :
  check_app_authority actor app (mk_Conn d n) = Ok (u, c') →
  ∀ a, actor = Some a → org_role_of d a = Some Administrator ∨ app_role_of d app a = Some Owner.
Proof using Hok.
  intros Hx a ->. unfold check_app_authority in Hx. inv_tx Hx. apply roles_in_Ok in H as [-> ->].
  simpl in *. unfold is_administrator in Hc. rewrite roles_of_org, roles_of_app in Hc by done.
  apply orb_true_iff in Hc as [?%bool_decide_eq_true|?%bool_decide_eq_true]; auto.
Qed.

Lemma check_admin_authority_Ok actor n u c' :
  check_admin_authority actor (mk_Conn d n) = Ok (u, c') → administers (view d) actor.
Proof using Hok.
  intros Hx a ->. unfold check_admin_authority in Hx. inv_tx Hx. apply roles_in_Ok in H as [-> ->].
  simpl in *. unfold is_administrator in Hc. rewrite roles_of_org in Hc by done.
  by apply bool_decide_eq_true in Hc.
Qed.

Lemma check_create_app_authority_Ok actor n u c' :
  check_create_app_authority actor (mk_Conn d n) = Ok (u, c') →
  ∀ a, actor = Some a → org_role_of d a = Some Administrator ∨ org_role_of d a = Some Manager.
Proof using Hok.
  intros Hx a ->. unfold check_create_app_authority in Hx. inv_tx Hx. apply roles_in_Ok in H as [-> ->].
  simpl in *. rewrite roles_of_org in Hc by done. destruct (org_role_of d a) as [[]|]; auto; done.
Qed.

(** What deploying needs: developer on the application and deployer on the type. *)
Definition may_deploy (v : View) (actor : option string) (app env_type : string) : Prop :=
  ∀ a, actor = Some a → v_org v a = Some Administrator
    ∨ ((∃ r, v_app v app a = Some r ∧ r ≠ Viewer) ∧ v_dep v env_type a = true).

Lemma check_env_authority_Ok actor app e n u c' :
  check_env_authority actor app e (mk_Conn d n) = Ok (u, c') → may_deploy (view d) actor app e.
Proof using Hok.
  intros Hx a ->. unfold check_env_authority in Hx. inv_tx Hx. apply roles_in_Ok in H as [-> ->].
  simpl in *. unfold is_administrator in Hx. rewrite roles_of_org in Hx by done.
  case_bool_decide as Ha; [by left|]. right. inv_tx Hx. rewrite roles_of_app in Hc by done.
  apply at_least_developer in Hc. split; [done|]. by apply bs_mem_spec, roles_of_deployer in Hc0.
Qed.

(** The guards of the last administrator. *)
Lemma guard_last_admin_Ok id n u c' :
  guard_last_admin id (mk_Conn d n) = Ok (u, c') →
  ∃ q, q ≠ id ∧ org_role_of d q = Some Administrator.
Proof using Hok.
  intros Hx. unfold guard_last_admin in Hx. inv_tx Hx.
  destruct (select _ _) as [|r l] eqn:E in Hc; [done|].
  assert (r ∈ select (λ r, String.eqb (pr_org_role r) "administrator" && negb (is_principal id r))
    (db_principals d)) as Hr by (rewrite E; left).
  apply elem_of_select in Hr as [Hin [Hadm%String.eqb_eq Hne%negb_true_iff]%andb_true_iff].
  exists (pr_id r). split; [by apply String.eqb_neq|]. unfold org_role_of.
  erewrite (select_key pr_id); [by simpl; rewrite Hadm|by apply Hok| |exact Hin|].
  - intros x y Hx%is_principal_spec Hy%is_principal_spec. congruence.
  - by apply is_principal_spec.
Qed.

Lemma guard_demotion_Ok id current role n u c' :
  org_role_of d id = Some current →
  guard_demotion id current role (mk_Conn d n) = Ok (u, c') →
  role ≠ Administrator → other_admin (view d) id.
Proof using Hok.
  intros Hc Hx Hr Ha. simpl in Ha. unfold guard_demotion in Hx.
  rewrite bool_decide_true, (bool_decide_false (role = _)) in Hx by congruence.
  by apply guard_last_admin_Ok in Hx.
Qed.
End authority.

(** ** Methods implement steps *)

Section steps.
Context `{System} (org : string).
Context (d : Db) (Hok : identity_ok d) (n : nat).

Abbreviation start := (mk_Conn d n).

(** Methods that leave the role tables alone. *)
Lemma same_step {A} (m : tx A) actor a c' :
  tx_rel same_roles m → m start = Ok (a, c') → view_step actor (view d) (view (c_db c')).
Proof. intros Hm Hx. apply vs_same. by apply (same_roles_view m start a c'). Qed.

Lemma insert_principal_view p by_ c u c' :
  insert_principal p by_ c = Ok (u, c') →
  np_id p ∉ pr_id <$> db_principals (c_db c)
  ∧ view (c_db c') ≡ view_set_org (np_id p) (Some (np_role p)) (view (c_db c)).
Proof.
  intros Hx. unfold insert_principal in Hx. inv_tx Hx. split.
  - intros (r & Hid & Hr)%list_elem_of_fmap. apply negb_true_iff in Huniq.
    apply (proj1 (existsb_false _ _) Huniq) in Hr. unfold is_principal in Hr.
    by rewrite <- Hid, String.eqb_refl in Hr.
  - by apply (view_insert_principal (c_db c) (mk_PrincipalRow _ _ _ _ _ _ _)).
Qed.

Lemma create_principal_step o p audit r c' :
  create_principal org o p audit start = Ok (r, c') →
  view_step (ai_actor audit) (view d) (view (c_db c')).
Proof using Hok.
  intros Hx. unfold create_principal in Hx. inv_tx Hx. pose proof H0 as Ha. settle H0.
  apply insert_principal_view in H1 as [Hn Hv]. apply require_principal_Ok in Hx as [-> _].
  apply (vs_org _ _ _ (np_id p) (np_role p)); [| |exact Hv].
  - by apply (check_set_org d Hok _ _ _ _ _ _ Ha).
  - intros _ Hadm. simpl in Hadm. apply view_absent in Hn as [Ho _]; [|done]. simpl in Ho. congruence.
Qed.

Lemma bootstrap_step o hash exp audit r c' :
  create_bootstrap_admin org o hash exp audit start = Ok (r, c') →
  view_step None (view d) (view (c_db c')) ∧ has_admin (view (c_db c')).
Proof using Hok.
  intros Hx. unfold create_bootstrap_admin in Hx. inv_tx Hx.
  apply insert_principal_view in H0 as [_ Hv]. unfold insert_token in *. inv_tx H1.
  apply require_principal_Ok in Hx as [-> _]. simpl. split.
  - by apply (vs_org _ _ _ "bootstrap" Administrator).
  - exists "bootstrap". change (v_org (view (c_db c)) "bootstrap" = Some Administrator).
    by rewrite (proj1 Hv).
Qed.

Lemma set_org_role_step o id role audit r c' :
  set_org_role org o id role audit start = Ok (r, c') →
  view_step (ai_actor audit) (view d) (view (c_db c')).
Proof using Hok.
  intros Hx. unfold set_org_role in Hx. inv_tx Hx. apply require_principal_Ok in H0 as (-> & Ho & _).
  pose proof H1 as Ha. settle H1. pose proof H2 as Hg. settle H2.
  unfold set_org_role_column in *. inv_tx H3. apply require_principal_Ok in Hx as [-> _]. simpl in *.
  apply (vs_org _ _ _ id role).
  - by apply (check_set_org d Hok _ _ _ _ _ _ Ha).
  - by apply (guard_demotion_Ok d Hok _ _ _ _ _ _ Ho Hg).
  - by apply (view_update_role d id role); [eexists| |].
Qed.

Lemma set_name_view name id c u c' :
  match name with Some name => set_name_column id name | None => ret tt end c = Ok (u, c') →
  view (c_db c') ≡ view (c_db c).
Proof.
  intros Hx. destruct name; [|by inv_tx Hx]. unfold set_name_column in Hx. inv_tx Hx.
  by apply view_update_name.
Qed.

Lemma update_principal_step o id role name audit r c' :
  update_principal org o id role name audit start = Ok (r, c') →
  view_step (ai_actor audit) (view d) (view (c_db c')).
Proof using Hok.
  intros Hx. unfold update_principal in Hx. inv_tx Hx. apply require_principal_Ok in H0 as (-> & Ho & _).
  pose proof H1 as Ha. settle H1. apply require_principal_Ok in Hx as [-> _]. simpl in *.
  apply set_name_view in H3. destruct role as [role|].
  - inv_tx H2. pose proof H0 as Hg. settle H0. unfold set_org_role_column in *. inv_tx H2.
    apply (vs_org _ _ _ id role).
    + by apply (check_set_org d Hok _ _ _ _ _ _ Ha).
    + by apply (guard_demotion_Ok d Hok _ _ _ _ _ _ Ho Hg).
    + etrans; [exact H3|]. by apply (view_update_role d id role); [eexists| |].
  - inv_tx H2. by apply vs_same.
Qed.

Lemma remove_principal_step o id audit r c' :
  remove_principal org o id audit start = Ok (r, c') →
  view_step (ai_actor audit) (view d) (view (c_db c')).
Proof using Hok.
  intros Hx. unfold remove_principal in Hx. inv_tx Hx. apply require_principal_Ok in H0 as (-> & Ho & _).
  pose proof H1 as Ha. settle H1.
  assert (other_admin (view d) id ∧ c_db c1 = d) as [Hg Hd].
  { case_bool_decide as Hr.
    - pose proof H2 as Hg. settle H2. split; [|done]. intros _. by apply (guard_last_admin_Ok d Hok _ _ _ _ Hg).
    - inv_tx H2. split; [|done]. intros Hadm. simpl in *. congruence. }
  apply view_delete_principal in H3. rewrite Hd in H3. simpl.
  apply (vs_forget _ _ _ id); [|done|exact H3].
  intros b Hb. apply (check_authority_for_Ok d Hok) in Ha as [_ Ha]. destruct (Ha b Hb) as [?|(? & Ht & _)]; [by left|].
  right. split; [done|]. by apply (Ht id).
Qed.

Lemma set_app_role_step o app p role audit r c' :
  set_app_role org o app p role audit start = Ok (r, c') →
  view_step (ai_actor audit) (view d) (view (c_db c')).
Proof using Hok.
  intros Hx. unfold set_app_role in Hx. inv_tx Hx. settle H0. apply require_principal_Ok in H1 as (-> & _).
  apply view_upsert_app_role in H2. apply (vs_app _ _ _ app p (Some role)); [|exact H2].
  by apply (check_app_authority_Ok d Hok _ _ _ _ _ H0).
Qed.

Lemma remove_app_role_step o app p audit r c' :
  remove_app_role org o app p audit start = Ok (r, c') →
  view_step (ai_actor audit) (view d) (view (c_db c')).
Proof using Hok.
  intros Hx. unfold remove_app_role in Hx. inv_tx Hx. settle H0.
  apply (vs_app _ _ _ app p None); [|apply (view_delete_app_role app p d)].
  by apply (check_app_authority_Ok d Hok _ _ _ _ _ H0).
Qed.

Lemma set_env_type_role_step o e p audit r c' :
  set_env_type_role org o e p audit start = Ok (r, c') →
  view_step (ai_actor audit) (view d) (view (c_db c')).
Proof using Hok.
  intros Hx. unfold set_env_type_role in Hx. inv_tx Hx. settle H0. apply require_principal_Ok in H1 as (-> & _).
  apply view_insert_env_type_role in H2. apply (vs_dep _ _ _ e p true); [|exact H2].
  by apply (check_admin_authority_Ok d Hok _ _ _ _ H0).
Qed.

Lemma remove_env_type_role_step o e p audit r c' :
  remove_env_type_role org o e p audit start = Ok (r, c') →
  view_step (ai_actor audit) (view d) (view (c_db c')).
Proof using Hok.
  intros Hx. unfold remove_env_type_role in Hx. inv_tx Hx. settle H0.
  apply (vs_dep _ _ _ e p false); [|apply (view_delete_env_type_role e p d)].
  by apply (check_admin_authority_Ok d Hok _ _ _ _ H0).
Qed.

Lemma delete_env_type_step o e audit r c' :
  delete_env_type org o e audit start = Ok (r, c') →
  view_step (ai_actor audit) (view d) (view (c_db c')).
Proof using Hok.
  intros Hx. unfold delete_env_type in Hx. inv_tx Hx. settle H0.
  apply (vs_forget_type _ _ _ e); [|apply (view_delete_env_type e d)].
  by apply (check_admin_authority_Ok d Hok _ _ _ _ H0).
Qed.

(** An invitation gives the role it was created with, on the authority of its creator at
    the time of acceptance. *)
Definition inviter (d : Db) (code_hash : string) : option string :=
  iv_created_by <$> select_one (λ r, String.eqb (iv_code_hash r) code_hash) (db_invitations d).

Lemma check_invitation_Ok code identity now c r c' :
  identity_ok (c_db c) → check_invitation code identity now c = Ok (r, c') →
  ∃ row, select_one (λ r, String.eqb (iv_code_hash r) code) (db_invitations (c_db c)) = Some row
    ∧ iv_consumed_at row = None ∧ now < iv_expires_at row
    ∧ in_id r.1 = iv_id row ∧ in_created_by r.1 = iv_created_by row
    ∧ (∀ p, p ∉ pr_id <$> db_principals (c_db c) →
         may_set_org (view (c_db c)) (Some (iv_created_by row)) p (in_role r.1)).
Proof.
  intros Hok' Hx. unfold check_invitation in Hx. inv_tx Hx.
  unfold invitation_from_row, ok_or in Hl. destruct (org_role_parse _) as [role|] eqn:Er; [|done].
  simplify_eq/=. exists v. split_and!; [done|by destruct (iv_consumed_at v)|lia| | |].
  all: destruct (invitation_matches _ identity) as [m email]; inv_tx Hx; simpl; try done.
  intros p Hp. apply attempt_Ok in H0 as [(u & c3 & H0 & [= -> ->])|(e & H0 & [= -> ->])]; [|done].
  destruct c0 as [d0 n0]. by apply (check_set_org d0 Hok' _ _ _ _ _ _ H0).
Qed.

Lemma accept_invitation_step o code identity user now r c' :
  accept_invitation org o code identity user now start = Ok (r, c') →
  view_step (inviter d code) (view d) (view (c_db c')).
Proof using Hok.
  intros Hx. unfold accept_invitation in Hx. inv_tx Hx. pose proof H0 as Hi. settle H0.
  destruct a as [inv email]. apply check_invitation_Ok in Hi as (row & Hrow & _ & _ & _ & Hby & Hm); [|done].
  inv_tx Hx. apply insert_principal_view in H1 as [Hn Hv]. unfold insert_identity in *. inv_tx H2.
  apply require_principal_Ok in Hx as [-> _]. simpl in *. unfold inviter. rewrite Hrow. simpl.
  apply (vs_org _ _ _ user (in_role inv)); [by apply Hm| |exact Hv].
  intros _ Hadm. simpl in Hadm. apply view_absent in Hn as [Ho _]; [|done]. simpl in Ho. congruence.
Qed.

Lemma ensure_env_type_same id : tx_rel same_roles (ensure_env_type id).
Proof. unfold ensure_env_type. by tx_steps. Qed.

Lemma create_app_step o id name owner audit r c' :
  create_app org o id name owner audit start = Ok (r, c') →
  view_step (ai_actor audit) (view d) (view (c_db c')).
Proof using Hok.
  intros Hx. unfold create_app in Hx. inv_tx Hx.
  pose proof H0 as Ha. settle H0. apply ensure_env_type_same in H1 as (Hp & Har & Her).
  unfold insert_env in H2. inv_tx H2. apply negb_true_iff in Huniq, Huniq0.
  assert (∀ x, app_role_of d id x = None) as Hnone.
  { intros x. destruct (app_role_of d id x) eqn:E; [|done]. apply app_role_Some in E as (row & Hr & Hk & _); [|done].
    destruct (ok_app_role_refs _ _ _ _ _ _ _ _ _ _ Hok row Hr) as [_ (ap & Hid & Hap)%list_elem_of_fmap].
    apply (proj1 (existsb_false _ _) Huniq) in Hap. unfold is_app in Hap. unfold app_role_key in Hk.
    apply String.eqb_neq in Hap. congruence. }
  apply (vs_new_app _ _ _ id owner); [|exact Hnone|].
  - by apply (check_create_app_authority_Ok d Hok _ _ _ _ Ha).
  - etrans; [exact (view_insert_app_role id owner Owner _ Huniq0)|].
    split_and!; intros; simpl; unfold org_role_of, app_role_of, deploys_to; simpl;
      rewrite ?Hp, ?Har, ?Her; done.
Qed.

(** A deployment that finishes may take its application with it. *)
Lemma finish_step o app env id error r c' :
  finish_deployment org o app env id error start = Ok (r, c') →
  view_step None (view d) (view (c_db c')).
Proof using Hok.
  intros [_ Hv]%finish_deployment_step; [|done]. destruct Hv as [Hv|Hv].
  - by apply vs_same.
  - by apply (vs_forget_app _ _ _ app).
Qed.

Lemma app_deletion_step req r c' :
  accept_app_deletion org req start = Ok (r, c') →
  view_step (ai_actor (ad_audit req)) (view d) (view (c_db c')).
Proof using Hok.
  intros [[_ Hv] (n1 & u & c1 & Ha)]%accept_app_deletion_step; [|done]. destruct Hv as [Hv|Hv].
  - by apply vs_same.
  - apply (vs_forget_app _ _ _ (ad_app req)); [|done]. by apply (check_app_authority_Ok d Hok _ _ _ _ _ Ha).
Qed.
End steps.

(** ** Methods that leave the roles alone *)

Section same.
Context `{System} (org : string).

Ltac same := intros; tx_steps; by repeat split.

Lemma insert_token_same row : tx_rel same_roles (insert_token row).
Proof. unfold insert_token. same. Qed.
Lemma insert_identity_same row : tx_rel same_roles (insert_identity row).
Proof. unfold insert_identity. same. Qed.
#[local] Hint Resolve insert_token_same insert_identity_same : tx.

Lemma set_identity_same o id p s audit : tx_rel same_roles (set_identity org o id p s audit).
Proof. unfold set_identity. same. Qed.
Lemma create_token_same o p id de e h audit : tx_rel same_roles (create_token org o p id de e h audit).
Proof. unfold create_token. same. Qed.
Lemma revoke_token_same o p id audit : tx_rel same_roles (revoke_token org o p id audit).
Proof. unfold revoke_token. same. Qed.
Lemma authenticate_token_same busy o h now : tx_rel same_roles (authenticate_token org busy o h now).
Proof. unfold authenticate_token. same. Qed.
Lemma record_session_same o jti p e audit : tx_rel same_roles (record_session org o jti p e audit).
Proof. unfold record_session. same. Qed.
Lemma revoke_session_same o jti audit : tx_rel same_roles (revoke_session org o jti audit).
Proof. unfold revoke_session. same. Qed.
Lemma signing_key_same pu al g : tx_rel same_roles (signing_key pu al g).
Proof. unfold signing_key. same. Qed.
Lemma create_invitation_same o inv audit : tx_rel same_roles (create_invitation org o inv audit).
Proof. unfold create_invitation. same. Qed.
Lemma record_audit_same intent : tx_rel same_roles (record_audit org intent).
Proof. unfold record_audit. same. Qed.
Lemma create_env_type_same o id de p audit : tx_rel same_roles (create_env_type org o id de p audit).
Proof. unfold create_env_type. same. Qed.
Lemma update_env_type_same o id de p audit : tx_rel same_roles (update_env_type org o id de p audit).
Proof. unfold update_env_type. same. Qed.
Lemma update_app_same o id name audit : tx_rel same_roles (update_app org o id name audit).
Proof. unfold update_app. same. Qed.
Lemma insert_env_same row : tx_rel same_roles (insert_env row).
Proof. unfold insert_env. same. Qed.
#[local] Hint Resolve insert_env_same : tx.
Lemma create_env_same o app env audit : tx_rel same_roles (create_env org o app env audit).
Proof. unfold create_env. same. Qed.
Lemma update_env_same o app env name audit : tx_rel same_roles (update_env org o app env name audit).
Proof. unfold update_env. same. Qed.
Lemma insert_set_same digest app s : tx_rel same_roles (insert_set digest app s).
Proof. unfold insert_set. same. Qed.
#[local] Hint Resolve insert_set_same : tx.
Lemma put_set_same digest o app s : tx_rel same_roles (put_set org digest o app s).
Proof. unfold put_set. same. Qed.
Lemma put_set_audited_same digest o app s audit : tx_rel same_roles (put_set_audited org digest o app s audit).
Proof. unfold put_set_audited. same. Qed.
Lemma write_delta_same o app id dr co audit : tx_rel same_roles (write_delta org o app id dr co audit).
Proof. unfold write_delta. same. Qed.
End same.
