(* ===== verification/Operations.v ===== *)
(** * The store as a whole: sequences of operations

    Every method of the store that writes is a [StoreOp]; [run] executes one, in a transaction
    that a failure rolls back, and [run_all] a sequence of them. What the specification of
    access control and the tables promise holds along any sequence. *)

From Stdlib Require Import Ascii.
From stdpp Require Import base sets strings list.
From S2P Require Import Prelude Strings OrdMap Json Sets Db DbLogic Identity Rbac Apps Permits Deployments Resources IdentityInv IdentityRoles DeployInv Access.

Local Open Scope string_scope.
Local Open Scope Z_scope.
Local Open Scope list_scope.

Inductive StoreOp :=
| OpCreatePrincipal (org : string) (p : NewPrincipal) (audit : AuditIntent)
| OpBootstrap (org hash : string) (expires_at : Z) (audit : AuditIntent)
| OpSetOrgRole (org id : string) (role : OrgRole) (audit : AuditIntent)
| OpUpdatePrincipal (org id : string) (role : option OrgRole) (name : option string)
    (audit : AuditIntent)
| OpRemovePrincipal (org id : string) (audit : AuditIntent)
| OpSetIdentity (org id provider subject : string) (audit : AuditIntent)
| OpCreateToken (org principal id : string) (description : option string)
    (expires_at : option Z) (hash : string) (audit : AuditIntent)
| OpRevokeToken (org principal id : string) (audit : AuditIntent)
| OpAuthenticateToken (busy : bool) (org hash : string) (now : Z)
| OpRecordSession (org jti principal : string) (expires_at : Z) (audit : AuditIntent)
| OpRevokeSession (org jti : string) (audit : AuditIntent)
| OpSigningKey (purpose algorithm : string) (generated : Sealed)
| OpCreateInvitation (org : string) (invitation : NewInvitation) (audit : AuditIntent)
| OpAcceptInvitation (org code : string) (identity : ExternalIdentity) (user : string) (now : Z)
| OpSetAppRole (org app principal : string) (role : AppRole) (audit : AuditIntent)
| OpRemoveAppRole (org app principal : string) (audit : AuditIntent)
| OpSetEnvTypeRole (org env_type principal : string) (audit : AuditIntent)
| OpRemoveEnvTypeRole (org env_type principal : string) (audit : AuditIntent)
| OpRecordAudit (intent : AuditIntent)
| OpCreateEnvType (org id description : string) (protected : bool) (audit : AuditIntent)
| OpUpdateEnvType (org id : string) (description : option string) (protected : option bool)
    (audit : AuditIntent)
| OpDeleteEnvType (org id : string) (audit : AuditIntent)
| OpCreateApp (org id name owner : string) (audit : AuditIntent)
| OpUpdateApp (org id name : string) (audit : AuditIntent)
| OpCreateEnv (org app : string) (env : NewEnv) (audit : AuditIntent)
| OpUpdateEnv (org app env name : string) (audit : AuditIntent)
| OpPutSet (org app : string) (set : DeploymentSet)
| OpPutSetAudited (org app : string) (set : DeploymentSet) (audit : AuditIntent)
| OpWriteDelta (org app id : string) (draft : option (string * Z)) (content : Value)
    (audit : AuditIntent)
| OpPutPlan (plan : NewPlan)
| OpIssuePermits (org app env plan : string) (permits : list NewPermit) (audit : AuditIntent)
| OpUsePermit (u : PermitUse)
| OpRecordApprovalRequest (org app env : string) (request : ApprovalRequest)
| OpAppendLogs (org app env deployment : string) (lines : list LogLine)
| OpAcceptDeployment (req : DeploymentRequest)
| OpAcceptAppDeletion (req : AppDeletionRequest)
| OpFinishDeployment (org app env id : string) (error : option string)
| OpBeginOperation (start : OperationStart)
| OpCheckpoint (id : string) (result : CheckpointResult)
| OpRecordInputs (id : string) (recovery : Value)
| OpKeepCookie (id : string) (observed_with : option Sealed) (cookie : Sealed)
| OpResolve (id : string) (resolution : Resolution) (audit : AuditIntent)
| OpRecordStatus (org app env deployment descriptor : string) (status : ResourceRunStatus)
    (error : option string)
| OpDetach (org app env : string) (detach : Detach) (audit : AuditIntent)
| OpScheduleDeletion (org app env descriptor : string) (audit : AuditIntent)
| OpRecover
| OpMarkRestored.

Section operations.
Context `{System} (org : string) (digest : string → string).

(** A method whose result is not kept. *)
Definition drop {A} (m : tx A) : tx unit := let* _ := m in ret tt.

Definition exec (op : StoreOp) : tx unit :=
  match op with
  | OpCreatePrincipal o p audit => drop (create_principal org o p audit)
  | OpBootstrap o hash exp audit => drop (create_bootstrap_admin org o hash exp audit)
  | OpSetOrgRole o id role audit => drop (set_org_role org o id role audit)
  | OpUpdatePrincipal o id role name audit => drop (update_principal org o id role name audit)
  | OpRemovePrincipal o id audit => remove_principal org o id audit
  | OpSetIdentity o id p s audit => drop (set_identity org o id p s audit)
  | OpCreateToken o p id desc exp hash audit => drop (create_token org o p id desc exp hash audit)
  | OpRevokeToken o p id audit => revoke_token org o p id audit
  | OpAuthenticateToken busy o hash now => drop (authenticate_token org busy o hash now)
  | OpRecordSession o jti p exp audit => record_session org o jti p exp audit
  | OpRevokeSession o jti audit => revoke_session org o jti audit
  | OpSigningKey purpose alg gen => drop (signing_key purpose alg gen)
  | OpCreateInvitation o inv audit => drop (create_invitation org o inv audit)
  | OpAcceptInvitation o code i user now => drop (accept_invitation org o code i user now)
  | OpSetAppRole o app p role audit => set_app_role org o app p role audit
  | OpRemoveAppRole o app p audit => remove_app_role org o app p audit
  | OpSetEnvTypeRole o e p audit => set_env_type_role org o e p audit
  | OpRemoveEnvTypeRole o e p audit => remove_env_type_role org o e p audit
  | OpRecordAudit intent => drop (record_audit org intent)
  | OpCreateEnvType o id desc prot audit => create_env_type org o id desc prot audit
  | OpUpdateEnvType o id desc prot audit => update_env_type org o id desc prot audit
  | OpDeleteEnvType o id audit => delete_env_type org o id audit
  | OpCreateApp o id name owner audit => create_app org o id name owner audit
  | OpUpdateApp o id name audit => update_app org o id name audit
  | OpCreateEnv o app env audit => create_env org o app env audit
  | OpUpdateEnv o app env name audit => update_env org o app env name audit
  | OpPutSet o app set => drop (put_set org digest o app set)
  | OpPutSetAudited o app set audit => drop (put_set_audited org digest o app set audit)
  | OpWriteDelta o app id draft content audit => write_delta org o app id draft content audit
  | OpPutPlan plan => drop (put_plan org plan)
  | OpIssuePermits o app env plan permits audit => drop (issue_permits org o app env plan permits audit)
  | OpUsePermit u => drop (use_permit org u)
  | OpRecordApprovalRequest o app env request => record_approval_request org o app env request
  | OpAppendLogs o app env deployment lines => append_logs org o app env deployment lines
  | OpAcceptDeployment req => drop (accept_deployment org req)
  | OpAcceptAppDeletion req => drop (accept_app_deletion org req)
  | OpFinishDeployment o app env id error => finish_deployment org o app env id error
  | OpBeginOperation start => drop (begin_operation org start)
  | OpCheckpoint id result => checkpoint_operation id result
  | OpRecordInputs id recovery => record_operation_inputs id recovery
  | OpKeepCookie id observed_with cookie => keep_recovery_cookie id observed_with cookie
  | OpResolve id resolution audit => resolve_operation id resolution audit
  | OpRecordStatus o app env id descriptor status error =>
      record_resource_status org o app env id descriptor status error
  | OpDetach o app env detach audit => drop (detach_resource org o app env detach audit)
  | OpScheduleDeletion o app env descriptor audit => schedule_deletion org o app env descriptor audit
  | OpRecover => drop (recover_interrupted org)
  | OpMarkRestored => drop mark_restored
  end.

(** On whose authority: the actor of the audited request; the server for the operations it
    makes of its own; for an invitation, the member who created it. *)
Definition op_actor (d : Db) (op : StoreOp) : option string :=
  match op with
  | OpCreatePrincipal _ _ audit | OpSetOrgRole _ _ _ audit | OpUpdatePrincipal _ _ _ _ audit
  | OpRemovePrincipal _ _ audit | OpSetIdentity _ _ _ _ audit | OpCreateToken _ _ _ _ _ _ audit
  | OpRevokeToken _ _ _ audit | OpRecordSession _ _ _ _ audit | OpRevokeSession _ _ audit
  | OpCreateInvitation _ _ audit | OpSetAppRole _ _ _ _ audit | OpRemoveAppRole _ _ _ audit
  | OpSetEnvTypeRole _ _ _ audit | OpRemoveEnvTypeRole _ _ _ audit | OpRecordAudit audit
  | OpCreateEnvType _ _ _ _ audit | OpUpdateEnvType _ _ _ _ audit | OpDeleteEnvType _ _ audit
  | OpCreateApp _ _ _ _ audit | OpUpdateApp _ _ _ audit | OpCreateEnv _ _ _ audit
  | OpUpdateEnv _ _ _ _ audit | OpPutSetAudited _ _ _ audit
  | OpWriteDelta _ _ _ _ _ audit | OpIssuePermits _ _ _ _ _ audit | OpResolve _ _ audit
  | OpDetach _ _ _ _ audit | OpScheduleDeletion _ _ _ _ audit => ai_actor audit
  | OpPutPlan plan => ai_actor (npl_audit plan)
  | OpAcceptDeployment req => ai_actor (dq_audit req)
  | OpAcceptAppDeletion req => ai_actor (ad_audit req)
  | OpAcceptInvitation _ code _ _ _ => inviter d code
  | OpBootstrap _ _ _ _ | OpAuthenticateToken _ _ _ _ | OpSigningKey _ _ _ | OpPutSet _ _ _
  | OpUsePermit _ | OpRecordApprovalRequest _ _ _ _ | OpAppendLogs _ _ _ _ _
  | OpFinishDeployment _ _ _ _ _ | OpBeginOperation _ | OpCheckpoint _ _ | OpRecordInputs _ _
  | OpKeepCookie _ _ _ | OpRecordStatus _ _ _ _ _ _ _ | OpRecover | OpMarkRestored => None
  end.

Definition run (op : StoreOp) (c : Conn) : Conn :=
  match exec op c with Ok (_, c') => c' | Err _ => c end.

Definition run_all (ops : list StoreOp) (c : Conn) : Conn := foldl (λ c op, run op c) c ops.

(** ** Refinement *)

Lemma drop_rel R `{!PreOrder R} {A} (m : tx A) : tx_rel R m → tx_rel R (drop m).
Proof. intros Hm. unfold drop. by apply tx_rel_bind; [| |intros; apply tx_rel_ret]. Qed.

Lemma drop_Ok {A} (m : tx A) c u c' : drop m c = Ok (u, c') → ∃ a, m c = Ok (a, c').
Proof. intros (a & c1 & Hm & [= _ ->]%ret_Ok)%bind_Ok. by eexists. Qed.

Lemma exec_keeps op : tx_rel keeps_ok (exec op).
Proof.
  destruct op; simpl; try (apply drop_rel; [apply _|]);
  first [apply create_principal_keeps | apply create_bootstrap_admin_keeps
    | apply set_org_role_keeps | apply update_principal_keeps | apply remove_principal_keeps
    | apply set_identity_keeps | apply create_token_keeps | apply revoke_token_keeps
    | apply authenticate_token_keeps | apply record_session_keeps | apply revoke_session_keeps
    | apply signing_key_keeps | apply create_invitation_keeps | apply accept_invitation_keeps
    | apply set_app_role_keeps | apply remove_app_role_keeps | apply set_env_type_role_keeps
    | apply remove_env_type_role_keeps | apply record_audit_keeps | apply create_env_type_keeps
    | apply update_env_type_keeps | apply delete_env_type_keeps | apply create_app_keeps
    | apply update_app_keeps | apply create_env_keeps | apply update_env_keeps
    | apply put_set_keeps | apply put_set_audited_keeps | apply write_delta_keeps
    | apply put_plan_allowed; apply _ | apply issue_permits_allowed; apply _ | apply use_permit_allowed; apply _
    | apply record_approval_request_allowed; apply _ | apply append_logs_allowed; apply _
    | apply accept_deployment_allowed; apply _
    | apply begin_operation_allowed; apply _ | apply checkpoint_in_tx_allowed; apply _
    | apply record_operation_inputs_allowed; apply _ | apply keep_recovery_cookie_allowed; apply _
    | apply resolve_operation_allowed; apply _ | apply record_resource_status_allowed; apply _
    | apply detach_resource_allowed; apply _ | apply schedule_deletion_allowed; apply _
    | apply recover_interrupted_allowed; apply _ | apply mark_restored_allowed; apply _
    | intros [dc nc] a c' Hx Hok; by eapply accept_app_deletion_step in Hx as [[? _] _]
    | intros [dc nc] a c' Hx Hok; by eapply finish_deployment_step in Hx as [? _]].
Qed.

Lemma exec_step op d n u c' :
  identity_ok d → exec op (mk_Conn d n) = Ok (u, c') →
  view_step (op_actor d op) (view d) (view (c_db c')).
Proof.
  intros Hok Hx. destruct op; simpl in *; try apply drop_Ok in Hx as [? Hx];
  first [by eapply create_principal_step | by eapply bootstrap_step in Hx as [? _]
    | by eapply set_org_role_step | by eapply update_principal_step | by eapply remove_principal_step
    | by eapply accept_invitation_step | by eapply set_app_role_step | by eapply remove_app_role_step
    | by eapply set_env_type_role_step | by eapply remove_env_type_role_step
    | by eapply delete_env_type_step | by eapply create_app_step
    | by eapply app_deletion_step | by eapply finish_step
    | eapply same_step; [|exact Hx]].
  - apply set_identity_same.
  - apply create_token_same.
  - apply revoke_token_same.
  - apply authenticate_token_same.
  - apply record_session_same.
  - apply revoke_session_same.
  - apply signing_key_same.
  - apply create_invitation_same.
  - apply record_audit_same.
  - apply create_env_type_same.
  - apply update_env_type_same.
  - apply update_app_same.
  - apply create_env_same.
  - apply update_env_same.
  - apply put_set_same.
  - apply put_set_audited_same.
  - apply write_delta_same.
  - apply put_plan_allowed; apply _.
  - apply issue_permits_allowed; apply _.
  - apply use_permit_allowed; apply _.
  - apply record_approval_request_allowed; apply _.
  - apply append_logs_allowed; apply _.
  - apply accept_deployment_allowed; apply _.
  - apply begin_operation_allowed; apply _.
  - apply checkpoint_in_tx_allowed; apply _.
  - apply record_operation_inputs_allowed; apply _.
  - apply keep_recovery_cookie_allowed; apply _.
  - apply resolve_operation_allowed; apply _.
  - apply record_resource_status_allowed; apply _.
  - apply detach_resource_allowed; apply _.
  - apply schedule_deletion_allowed; apply _.
  - apply recover_interrupted_allowed; apply _.
  - apply mark_restored_allowed; apply _.
Qed.

Lemma run_ok op c : identity_ok (c_db c) → identity_ok (c_db (run op c)).
Proof.
  intros Hok. unfold run. destruct (exec op c) as [[u c']|e] eqn:E; [|done].
  by apply (exec_keeps op _ _ _ E).
Qed.

Lemma run_all_ok ops c : identity_ok (c_db c) → identity_ok (c_db (run_all ops c)).
Proof. revert c. induction ops as [|op ops IH]; intros c Hc; [done|]. by apply IH, run_ok. Qed.

Lemma run_step op c :
  identity_ok (c_db c) → view_step (op_actor (c_db c) op) (view (c_db c)) (view (c_db (run op c))).
Proof.
  intros Hok. unfold run. destruct (exec op c) as [[u c']|e] eqn:E; [|by apply vs_same].
  destruct c as [d n]. by eapply exec_step.
Qed.

(** C1: the store implements the access-control specification. Every method that succeeds
    keeps the integrity of the tables and makes a transition of [view_step], on the
    authority of the actor it was called for: role changes stay below the delegation
    ceiling, the last administrator stays, roles on an application come from its owners, and
    everything else leaves all roles as they are. *)
Theorem store_refines_access_control (op : StoreOp) (d : Db) (n : nat) (u : unit) (c' : Conn) :
  identity_ok d → exec op (mk_Conn d n) = Ok (u, c') →
  identity_ok (c_db c') ∧ view_step (op_actor d op) (view d) (view (c_db c')).
Proof.
  intros Hok Hx. split; [by apply (exec_keeps op _ _ _ Hx)|by eapply exec_step].
Qed.

(** the tables keep their integrity, and the organization an administrator, along any
    sequence of operations, whichever fail. *)
Theorem administrator_remains (ops : list StoreOp) (c : Conn) :
  identity_ok (c_db c) →
  identity_ok (c_db (run_all ops c))
  ∧ (has_admin (view (c_db c)) → has_admin (view (c_db (run_all ops c)))).
Proof.
  intros Hok. split; [by apply run_all_ok|]. revert c Hok.
  induction ops as [|op ops IH]; intros c Hok Ha; [done|]. simpl.
  apply IH; [by apply run_ok|]. by eapply view_step_admin; [apply run_step|].
Qed.

(** ** No escalation *)

(** Every operation of the sequence is made by a member who is not an administrator when
    it runs. *)
Fixpoint without_administrators (ops : list StoreOp) (c : Conn) : Prop :=
  match ops with
  | [] => True
  | op :: ops =>
      (∃ a, op_actor (c_db c) op = Some a ∧ v_org (view (c_db c)) a ≠ Some Administrator)
      ∧ without_administrators ops (run op c)
  end.

(** C15: members who are not administrators can never, by any sequence of operations,
    make an administrator or give anyone the right to deploy to an environment type; and
    each one of their operations grants no more than [granted_within] allows. *)
Theorem no_escalation (ops : list StoreOp) (c : Conn) :
  identity_ok (c_db c) → without_administrators ops c →
  (∀ p, v_org (view (c_db (run_all ops c))) p = Some Administrator →
     v_org (view (c_db c)) p = Some Administrator)
  ∧ (∀ e p, v_dep (view (c_db (run_all ops c))) e p = true → v_dep (view (c_db c)) e p = true)
  ∧ (∀ op rest a, ops = op :: rest → op_actor (c_db c) op = Some a →
       granted_within a (view (c_db c)) (view (c_db (run op c)))).
Proof.
  revert c. induction ops as [|op ops IH]; intros c Hok Hw; [done|].
  destruct Hw as [(a & Ha & Hn) Hw]. simpl.
  assert (granted_within a (view (c_db c)) (view (c_db (run op c)))) as Hg.
  { apply view_step_granted; [done|]. rewrite <- Ha. by apply run_step. }
  destruct (IH (run op c)) as (Hadm & Hdep & _); [by apply run_ok|done|].
  destruct (Hg) as (Ho & _ & Hd). split_and!.
  - intros p Hp%Hadm. destruct (Ho p) as [E|[E|(_ & _ & _ & [E|E])]]; simpl in *; congruence.
  - intros e p Hp%Hdep. by apply Hd.
  - intros op' rest a' [= <- _] Ha'. congruence.
Qed.
(** ** Credentials *)

(** What a client authenticates with: an API token, by its hash, or a session. *)
Inductive Credential :=
| TokenCred (hash : string)
| SessionCred (jti principal : string).

Definition has_hash (h : string) (t : TokenRow) : bool := String.eqb (tk_token_hash t) h.

Definition cred_live (now : Z) (cr : Credential) (d : Db) : bool :=
  match cr with
  | TokenCred h => existsb (λ t, has_hash h t && token_live now t) (db_api_tokens d)
  | SessionCred jti p => existsb (session_live jti p now) (db_sessions d)
  end.

(** The operations that create the credential. *)
Definition issues (cr : Credential) (op : StoreOp) : bool :=
  match cr, op with
  | TokenCred h, OpBootstrap _ hash _ _ => String.eqb hash h
  | TokenCred h, OpCreateToken _ _ _ _ _ hash _ => String.eqb hash h
  | SessionCred jti _, OpRecordSession _ j _ _ _ => String.eqb j jti
  | _, _ => false
  end.

(** Nothing but issuing it brings a credential to life. *)
Definition stays_dead (cr : Credential) : relation Db := λ d d',
  ∀ now, cred_live now cr d = false → cred_live now cr d' = false.

#[export] Instance stays_dead_PreOrder cr : PreOrder (stays_dead cr).
Proof. split; [by intros d ?|]. intros d1 d2 d3 H12 H23 now Hd. by apply H23, H12. Qed.

Lemma stays_dead_same cr d d' :
  db_api_tokens d' = db_api_tokens d → db_sessions d' = db_sessions d → stays_dead cr d d'.
Proof. intros Ht Hs now. destruct cr; simpl; by rewrite ?Ht, ?Hs. Qed.

Lemma existsb_update_dead {A} (p q : A → bool) f t :
  (∀ r, p (f r) = true → p r = true) → existsb p t = false → existsb p (update q f t) = false.
Proof.
  intros Hf Hn. apply existsb_false. intros r (r0 & Hr & ->)%elem_of_update.
  apply (proj1 (existsb_false _ _) Hn) in Hr. destruct (q r0); [|done].
  destruct (p (f r0)) eqn:E; [|done]. apply Hf in E. congruence.
Qed.

Lemma existsb_delete_dead {A} (p q : A → bool) t :
  existsb p t = false → existsb p (delete_rows q t) = false.
Proof.
  intros Hn. apply existsb_false. intros r [Hr _]%elem_of_delete. by apply (proj1 (existsb_false _ _) Hn) in Hr.
Qed.

Lemma stays_dead_tokens cr f d :
  (∀ now h t, existsb (λ t, has_hash h t && token_live now t) t = false → cr = TokenCred h →
     existsb (λ t, has_hash h t && token_live now t) (f t) = false) →
  stays_dead cr d (upd_api_tokens f d).
Proof. intros Hf now. destruct cr; simpl; eauto. Qed.

Lemma stays_dead_sessions cr f d :
  (∀ now jti p t, existsb (session_live jti p now) t = false → cr = SessionCred jti p →
     existsb (session_live jti p now) (f t) = false) →
  stays_dead cr d (upd_sessions f d).
Proof. intros Hf now. destruct cr; simpl; eauto. Qed.

Lemma insert_token_dead cr row :
  cr ≠ TokenCred (tk_token_hash row) → tx_rel (stays_dead cr) (insert_token row).
Proof.
  intros Hh. unfold insert_token. tx_steps. apply stays_dead_tokens. intros now h t Ht ->.
  rewrite existsb_app, Ht. simpl. unfold has_hash. destruct (String.eqb_spec (tk_token_hash row) h); [|done].
  by subst.
Qed.

Lemma revoked_dead now h t r :
  has_hash h (revoke_token_row t r) && token_live now (revoke_token_row t r) = true →
  has_hash h r && token_live now r = true.
Proof.
  unfold has_hash, token_live, revoke_token_row. simpl. rewrite !andb_true_iff.
  destruct (tk_revoked_at r); simpl; naive_solver.
Qed.

Lemma revoked_session_dead jti p now t r :
  session_live jti p now (revoke_session_row t r) = true → session_live jti p now r = true.
Proof.
  unfold session_live, revoke_session_row. simpl. rewrite !andb_true_iff.
  destruct (se_revoked_at r); simpl; naive_solver.
Qed.

Lemma revoke_sessions_dead cr p now d :
  stays_dead cr d (upd_sessions (update p (revoke_session_row now)) d).
Proof.
  apply stays_dead_sessions. intros n jti q t Ht _. apply existsb_update_dead; [|done].
  intros r. apply revoked_session_dead.
Qed.

Lemma revoke_tokens_dead cr p now d :
  stays_dead cr d (upd_api_tokens (update p (revoke_token_row now)) d).
Proof.
  apply stays_dead_tokens. intros n h t Ht _. apply existsb_update_dead; [|done].
  intros r. apply revoked_dead.
Qed.

Lemma use_tokens_dead cr p now d : stays_dead cr d (upd_api_tokens (update p (use_token_row now)) d).
Proof. apply stays_dead_tokens. intros n h t Ht _. by apply existsb_update_dead. Qed.

Lemma delete_principal_dead cr id : tx_rel (stays_dead cr) (delete_principal id).
Proof.
  unfold delete_principal. tx_steps. intros now. destruct cr; simpl; apply existsb_delete_dead.
Qed.

#[local] Hint Resolve insert_token_dead delete_principal_dead : tx.
#[local] Hint Extern 1 (stays_dead _ _ _) =>
  first [apply revoke_sessions_dead | apply revoke_tokens_dead | apply use_tokens_dead
        | apply stays_dead_same; reflexivity] : tx.

#[export] Instance stays_dead_deploys cr : allows_deploys (stays_dead cr).
Proof. split; try apply _; intros; by apply stays_dead_same. Qed.

(** Removing an application or an environment keeps credentials. *)
Lemma remove_app_dead cr app : tx_rel (stays_dead cr) (remove_app app).
Proof. unfold remove_app. tx_steps. by apply stays_dead_same. Qed.
Lemma remove_env_dead cr app env : tx_rel (stays_dead cr) (remove_env app env).
Proof.
  unfold remove_env. tx_steps; [by apply release_resources_allowed; apply _|]. by apply stays_dead_same.
Qed.
#[local] Hint Resolve remove_app_dead remove_env_dead : tx.
#[local] Hint Extern 1 (tx_rel (stays_dead _) _) =>
  first [apply put_plan_allowed; apply _ | apply issue_permits_allowed; apply _
    | apply use_permit_allowed; apply _ | apply record_approval_request_allowed; apply _
    | apply append_logs_allowed; apply _ | apply accept_deployment_allowed; apply _
    | apply delete_env_of_allowed; apply _ | apply log_in_tx_allowed; apply _
    | apply finish_audit_allowed; apply _ | apply begin_operation_allowed; apply _
    | apply checkpoint_in_tx_allowed; apply _
    | apply record_operation_inputs_allowed; apply _ | apply keep_recovery_cookie_allowed; apply _
    | apply resolve_operation_allowed; apply _ | apply record_resource_status_allowed; apply _
    | apply detach_resource_allowed; apply _ | apply schedule_deletion_allowed; apply _
    | apply recover_interrupted_allowed; apply _ | apply mark_restored_allowed; apply _] : tx.

Lemma exec_dead cr op : issues cr op = false → tx_rel (stays_dead cr) (exec op).
Proof.
  intros Hi. destruct op; simpl; unfold drop, create_principal, create_bootstrap_admin,
    set_org_role, update_principal, remove_principal, set_identity, create_token, revoke_token,
    authenticate_token, record_session, revoke_session, signing_key, create_invitation,
    accept_invitation, set_app_role, remove_app_role, set_env_type_role, remove_env_type_role,
    record_audit, create_env_type, update_env_type, delete_env_type, create_app, update_app,
    create_env, update_env, put_set, put_set_audited, write_delta, insert_principal,
    set_org_role_column, set_name_column, insert_identity, upsert_app_role,
    insert_env_type_role, ensure_env_type, insert_env, insert_set, accept_app_deletion,
    finish_deployment, finish_in_tx, finish_env; tx_steps;
    try solve [auto with tx].
  - apply insert_token_dead. intros ->. simpl in Hi. by rewrite String.eqb_refl in Hi.
  - apply insert_token_dead. intros ->. simpl in Hi. by rewrite String.eqb_refl in Hi.
  - apply stays_dead_sessions. intros now j p t Ht ->. rewrite existsb_app, Ht. simpl in *.
    unfold session_live. simpl. by rewrite Hi.
Qed.

Lemma run_all_dead cr ops c now :
  forallb (λ op, negb (issues cr op)) ops = true →
  cred_live now cr (c_db c) = false → cred_live now cr (c_db (run_all ops c)) = false.
Proof.
  revert c. induction ops as [|op ops IH]; intros c Hi Hd; [done|]. simpl in *.
  apply andb_true_iff in Hi as [Ho%negb_true_iff Hi]. apply IH; [done|]. unfold run.
  destruct (exec op c) as [[u c']|e] eqn:E; [|done]. by apply (exec_dead cr op Ho _ _ _ E).
Qed.

(** ** Authentication *)

Definition authenticate (busy : bool) (cr : Credential) (now : Z) : tx (option Principal) :=
  match cr with
  | TokenCred h => authenticate_token org busy org h now
  | SessionCred jti p => authenticate_session org org jti p now
  end.

(** [p] is whom the live credential stands for. *)
Definition cred_of (now : Z) (cr : Credential) (d : Db) (p : string) : Prop :=
  match cr with
  | TokenCred h =>
      ∃ t, t ∈ db_api_tokens d ∧ has_hash h t && token_live now t = true ∧ tk_principal t = p
  | SessionCred jti q => q = p ∧ ∃ r, r ∈ db_sessions d ∧ session_live jti q now r = true
  end.

Lemma fetch_principal_total d n p :
  identity_ok d → p ∈ pr_id <$> db_principals d →
  ∃ pr, fetch_principal p (mk_Conn d n) = Ok (Some pr, mk_Conn d n)
    ∧ p_id pr = p ∧ org_role_of d p = Some (p_role pr).
Proof.
  intros Hok Hp. apply org_role_member in Hp as [role Hr]; [|done]. unfold fetch_principal, query, bind. simpl.
  unfold org_role_of in *. destruct (select_one _ _) as [row|] eqn:E; [|done]. simpl in *.
  unfold principal_from_row, lift, ok_or. rewrite Hr. eexists. split_and!; [done| |done].
  apply select_one_Some in E as [_ E]. by apply is_principal_spec.
Qed.

(** The answer [r] to an attempt to authenticate. *)
Definition answers (now : Z) (cr : Credential) (d : Db) (r : option Principal) : Prop :=
  (is_Some r ↔ cred_live now cr d = true)
  ∧ ∀ p, r = Some p → cred_of now cr d (p_id p) ∧ v_org (view d) (p_id p) = Some (p_role p).

Lemma answers_none now cr d : cred_live now cr d = false → answers now cr d None.
Proof. intros Hd. unfold answers. rewrite Hd. split; [|done]. by split; [intros [? ?]|]. Qed.

Lemma answers_some now cr d d' n p :
  identity_ok d' → db_principals d' = db_principals d → p ∈ pr_id <$> db_principals d →
  cred_live now cr d = true → cred_of now cr d p →
  ∃ r c', fetch_principal p (mk_Conn d' n) = Ok (r, c') ∧ answers now cr d r.
Proof.
  intros Ho Hd Hp Hl Hc. destruct (fetch_principal_total d' n p Ho) as (pr & -> & Hid & Hr);
    [by rewrite Hd|]. eexists _, _. split; [done|]. split; [by rewrite Hl|].
  intros q [= <-]. rewrite Hid. split; [done|]. simpl. unfold org_role_of in *. by rewrite <- Hd.
Qed.

Lemma authenticate_token_total busy h now d n :
  identity_ok d →
  ∃ r c', authenticate_token org busy org h now (mk_Conn d n) = Ok (r, c') ∧ answers now (TokenCred h) d r.
Proof.
  intros Hok. unfold authenticate_token, bind, check_org, check, query. rewrite String.eqb_refl. simpl.
  destruct (select_one _ _) as [t|] eqn:E; simpl.
  - apply select_one_Some in E as [Ht Hl].
    pose proof (ok_token_refs _ _ _ _ _ _ _ _ _ _ Hok t Ht) as Hp.
    destruct busy; apply answers_some; try done;
      try (by apply keeps_ok_update_tokens); try (apply existsb_true; by exists t); by exists t.
  - eexists _, _. split; [done|]. apply answers_none. simpl. apply existsb_false. intros t Ht.
    by apply (proj1 (select_one_None _ _) E) in Ht.
Qed.

Lemma authenticate_session_total jti q now d n :
  identity_ok d →
  ∃ r c', authenticate_session org org jti q now (mk_Conn d n) = Ok (r, c')
    ∧ answers now (SessionCred jti q) d r.
Proof.
  intros Hok. unfold authenticate_session, bind, check_org, check, query. rewrite String.eqb_refl. simpl.
  destruct (select_one _ _) as [t|] eqn:E; simpl.
  - apply select_one_Some in E as [Ht Hl].
    pose proof (ok_session_refs _ _ _ _ _ _ _ _ _ _ Hok t Ht) as Hp.
    assert (se_principal t = q) as Hq.
    { unfold session_live in Hl. by apply andb_true_iff in Hl as [[[_ ?%String.eqb_eq]%andb_true_iff _]%andb_true_iff _]. }
    rewrite Hq in Hp. apply answers_some; try done; [apply existsb_true; by exists t|].
    split; [done|by exists t].
  - eexists _, _. split; [done|]. apply answers_none. simpl. apply existsb_false. intros t Ht.
    by apply (proj1 (select_one_None _ _) E) in Ht.
Qed.

Lemma authenticate_total busy cr now d n :
  identity_ok d → ∃ r c', authenticate busy cr now (mk_Conn d n) = Ok (r, c') ∧ answers now cr d r.
Proof.
  destruct cr; [apply authenticate_token_total|apply authenticate_session_total].
Qed.

(** ** Revocation *)

(** The operations that end a credential. *)
Definition revokes (cr : Credential) (d : Db) (op : StoreOp) : bool :=
  match cr, op with
  | TokenCred h, OpRevokeToken _ p id _ => existsb (λ t, has_hash h t && is_token p id t) (db_api_tokens d)
  | TokenCred h, OpRemovePrincipal _ p _ =>
      existsb (λ t, has_hash h t && String.eqb (tk_principal t) p) (db_api_tokens d)
  | SessionCred jti _, OpRevokeSession _ j _ => String.eqb j jti
  | SessionCred _ q, OpRemovePrincipal _ p _ => String.eqb p q
  | SessionCred _ q, OpSetIdentity _ p _ _ _ => String.eqb p q
  | _, _ => false
  end.

(** The row of a hash is the only one. *)
Lemma hash_unique d h t t' :
  identity_ok d → t ∈ db_api_tokens d → t' ∈ db_api_tokens d →
  has_hash h t = true → has_hash h t' = true → t = t'.
Proof.
  intros Hok Ht Ht' Hh%String.eqb_eq Hh'%String.eqb_eq.
  apply (row_of_key tk_token_hash (db_api_tokens d)); [apply Hok|done..|congruence].
Qed.

Lemma revoke_token_dead d n o p id audit u c' h now :
  identity_ok d → existsb (λ t, has_hash h t && is_token p id t) (db_api_tokens d) = true →
  revoke_token org o p id audit (mk_Conn d n) = Ok (u, c') →
  cred_live now (TokenCred h) (c_db c') = false.
Proof.
  intros Hok (t & Ht & [Hh Hk]%andb_true_iff)%existsb_true Hx. unfold revoke_token in Hx.
  inv_tx Hx. settle H0. apply existsb_false. intros r (r0 & Hr & ->)%elem_of_update.
  apply not_true_is_false. intros [Hr' Hl]%andb_true_iff.
  assert (has_hash h r0 = true) as Hr0 by (by destruct (is_token p id r0)).
  rewrite (hash_unique d h r0 t) in Hl by done. rewrite Hk in Hl. unfold token_live in Hl. simpl in Hl.
  by destruct (tk_revoked_at t).
Qed.

Lemma remove_principal_dead d n o p audit u c' cr now :
  identity_ok d → revokes cr d (OpRemovePrincipal o p audit) = true →
  remove_principal org o p audit (mk_Conn d n) = Ok (u, c') → cred_live now cr (c_db c') = false.
Proof.
  intros Hok Hr Hx. unfold remove_principal in Hx. inv_tx Hx. settle H0. settle H1.
  assert (c_db c1 = d) as Hd.
  { case_bool_decide; [by apply guard_last_admin_reads in H2|by inv_tx H2]. }
  unfold delete_principal in H3. inv_tx H3. destruct cr as [h|jti q]; simpl in *.
  - apply existsb_true in Hr as (t & Ht & [Hh Hp]%andb_true_iff).
    apply existsb_false. intros r [Hin Hne]%elem_of_delete. apply not_true_is_false.
    intros [Hh' _]%andb_true_iff. rewrite (hash_unique _ h r t Hok) in Hne by done. congruence.
  - apply String.eqb_eq in Hr as ->. apply existsb_deleted.
    intros r [[[_ ?]%andb_true_iff _]%andb_true_iff _]%andb_true_iff. done.
Qed.

Lemma revoked_sessions_dead jti q now now' f t :
  (∀ r, se_jti r = jti → se_principal r = q → f r = true) →
  existsb (session_live jti q now) (update f (revoke_session_row now') t) = false.
Proof.
  intros Hf. apply existsb_false. intros r (r0 & _ & ->)%elem_of_update.
  apply not_true_is_false. intros Hl. unfold session_live in Hl.
  apply andb_true_iff in Hl as [[[Hj%String.eqb_eq Hq%String.eqb_eq]%andb_true_iff Hn]%andb_true_iff _].
  rewrite (Hf r0) in Hn by (by destruct (f r0)). simpl in Hn. by destruct (se_revoked_at r0).
Qed.

Lemma revokes_dead cr d n op u c' now :
  identity_ok d → revokes cr d op = true → exec op (mk_Conn d n) = Ok (u, c') →
  cred_live now cr (c_db c') = false.
Proof.
  intros Hok Hr Hx. destruct cr as [h|jti q], op; try done; simpl in Hx, Hr.
  - by eapply remove_principal_dead in Hx.
  - by eapply revoke_token_dead in Hx.
  - by eapply remove_principal_dead in Hx.
  - apply String.eqb_eq in Hr as ->. apply drop_Ok in Hx as [p Hx]. unfold set_identity in Hx. inv_tx Hx.
    settle H0. settle H1. unfold insert_identity in *. inv_tx H2. apply require_principal_reads in Hx.
    simpl in Hx. rewrite <- Hx. apply revoked_sessions_dead. intros r _ ->. apply String.eqb_refl.
  - apply String.eqb_eq in Hr as ->. unfold revoke_session in Hx. inv_tx Hx.
    apply revoked_sessions_dead. intros r -> _. apply String.eqb_refl.
Qed.

(** authentication always answers, and with the principal of the credential exactly
    when the credential is live: an unrevoked, unexpired token of that hash, or session of
    that ID and principal. The principal comes with its present role. *)
Theorem authentication_iff_live (busy : bool) (cr : Credential) (now : Z) (d : Db) (n : nat) :
  identity_ok d →
  ∃ r c', authenticate busy cr now (mk_Conn d n) = Ok (r, c')
    ∧ (is_Some r ↔ cred_live now cr d = true)
    ∧ (∀ p, r = Some p → cred_of now cr d (p_id p) ∧ v_org (view d) (p_id p) = Some (p_role p)).
Proof. apply authenticate_total. Qed.

(** C31: revocation is permanent. After a token or session is revoked, its principal is
    removed, or (for a session) its principal's identity is changed, no sequence of
    operations makes it authenticate again, at any time, unless the same credential is
    issued anew. *)
Theorem revocation_is_permanent (cr : Credential) (d : Db) (n : nat) (op : StoreOp) (u : unit)
    (c' : Conn) (ops : list StoreOp) (busy : bool) (now : Z) :
  identity_ok d → revokes cr d op = true → exec op (mk_Conn d n) = Ok (u, c') →
  forallb (λ op, negb (issues cr op)) ops = true →
  ∃ c'', authenticate busy cr now (run_all ops c') = Ok (None, c'').
Proof.
  intros Hok Hr Hx Hi. pose proof (exec_keeps op _ _ _ Hx Hok) as Hok'.
  pose proof (revokes_dead _ _ _ _ _ _ now Hok Hr Hx) as Hd.
  apply (run_all_dead _ ops _ _ Hi) in Hd.
  apply (run_all_ok ops) in Hok' as Hok''.
  destruct (run_all ops c') as [d2 n2]. destruct (authenticate_total busy cr now d2 n2 Hok'') as (r & c2 & -> & Ha & _).
  simpl in Hd. destruct r; [|by eexists]. rewrite Hd in Ha.
  assert (false = true) by (apply Ha; by eexists). done.
Qed.

(** ** Delegation by tokens *)

Lemma check_token_authority_Ok actor target p d n u c' :
  identity_ok d → check_token_authority actor target p (mk_Conn d n) = Ok (u, c') →
  ∀ a, actor = Some a → a = p
    ∨ (p_kind target = "service" ∧ covers (roles_of d a) (roles_of d p) = true).
Proof.
  intros Hok Hx a ->. unfold check_token_authority in Hx.
  destruct (String.eqb_spec a p) as [Hp|Hne]; [by left|].
  destruct (String.eqb_spec (p_kind target) "service") as [Hk|]; [|done]. cbn [negb] in Hx. unfold check_authority in Hx. right. split; [done|].
  apply (check_authority_for_Ok d Hok) in Hx as [_ Hx]. destruct (Hx a eq_refl) as [Ha|(_ & Ht & _)].
  - apply covers_spec. left. by rewrite roles_of_org.
  - by apply (Ht p eq_refl).
Qed.

(** A token delegates no more than its creator has. A member creates tokens for itself
    or for a service user; whatever requests the token allows, its creator could make
    itself. *)
Theorem token_delegates_own_permissions (o p id : string) (desc : option string)
    (expires : option Z) (hash : string) (audit : AuditIntent) (a : string) (d : Db) (n : nat)
    (t : TokenInfo) (c' : Conn) :
  identity_ok d → ai_actor audit = Some a →
  create_token org o p id desc expires hash audit (mk_Conn d n) = Ok (t, c') →
  (a = p ∨ ∃ r, select_one (is_principal p) (db_principals d) = Some r ∧ pr_type r = "service")
  ∧ ∀ perm scope, evaluate perm (roles_of d p) scope = Allow → evaluate perm (roles_of d a) scope = Allow.
Proof.
  intros Hok Ha Hx. unfold create_token in Hx. inv_tx Hx.
  apply require_principal_Ok in H0 as (-> & _ & r & Hsel & _ & Hk & _).
  apply (check_token_authority_Ok _ _ _ _ _ _ _ Hok) with (a := a) in H1; [|done].
  destruct H1 as [->|[Hs Hcov]]; [auto|]. split; [right; exists r; by rewrite <- Hk|].
  intros perm scope. by apply covers_evaluate.
Qed.
End operations.

(** ** Examples *)

Module Example.
#[local] Existing Instance example_system.

Definition by_ (actor : string) : AuditIntent := audit_accepted "acme" actor "POST" "/" "test".
Definition abbreviated (s : string) : string := s.

(** A new installation: the bootstrap administrator, a manager, and a service user. *)
Definition setup : list StoreOp := [
  OpBootstrap "acme" "h0" 3600000 (by_ "system");
  OpCreatePrincipal "acme" (mk_NewPrincipal "mia" "user" "Mia" None Manager) (by_ "bootstrap");
  OpCreatePrincipal "acme" (mk_NewPrincipal "ci" "service" "CI" None Member) (by_ "mia");
  OpCreateApp "acme" "shop" "Shop" "mia" (by_ "mia");
  OpCreateToken "acme" "ci" "deploy" None None "h1" (by_ "mia")].

Definition db1 : Conn := run_all "acme" abbreviated setup (mk_Conn empty_db 0).

Lemma db1_ok : identity_ok (c_db db1).
Proof. apply run_all_ok. apply empty_ok. Qed.

Lemma store_refines_access_control_witness :
  let op := OpSetOrgRole "acme" "ci" Manager (by_ "mia") in
  let c' := run "acme" abbreviated op db1 in
  exec "acme" abbreviated op (mk_Conn (c_db db1) (c_calls db1)) = Ok (tt, c')
  ∧ v_org (view (c_db c')) "ci" = Some Manager
  ∧ view_step (Some "mia") (view (c_db db1)) (view (c_db c')).
Proof.
  split; [by vm_compute|]. split; [by vm_compute|].
  apply (store_refines_access_control "acme" abbreviated
    (OpSetOrgRole "acme" "ci" Manager (by_ "mia")) (c_db db1) (c_calls db1) tt).
  - apply db1_ok.
  - by vm_compute.
Defined.

Lemma administrator_remains_witness :
  has_admin (view (c_db db1))
  ∧ has_admin (view (c_db (run_all "acme" abbreviated
      [OpSetOrgRole "acme" "bootstrap" Member (by_ "bootstrap");
       OpRemovePrincipal "acme" "bootstrap" (by_ "bootstrap")] db1))).
Proof.
  assert (has_admin (view (c_db db1))) as Ha by (exists "bootstrap"; by vm_compute).
  split; [exact Ha|]. apply (administrator_remains "acme" abbreviated); [apply db1_ok|exact Ha].
Defined.

Lemma no_escalation_witness :
  let ops := [OpSetOrgRole "acme" "mia" Administrator (by_ "mia");
              OpSetAppRole "acme" "shop" "ci" Developer (by_ "mia");
              OpSetEnvTypeRole "acme" "development" "ci" (by_ "ci")] in
  without_administrators "acme" abbreviated ops db1
  ∧ v_app (view (c_db (run_all "acme" abbreviated ops db1))) "shop" "ci" = Some Developer
  ∧ ∀ p, v_org (view (c_db (run_all "acme" abbreviated ops db1))) p = Some Administrator →
      v_org (view (c_db db1)) p = Some Administrator.
Proof.
  intros ops. assert (without_administrators "acme" abbreviated ops db1) as Hw.
  { repeat split; [exists "mia"|exists "mia"|exists "ci"]; by vm_compute. }
  split; [exact Hw|]. split; [by vm_compute|].
  apply (no_escalation "acme" abbreviated ops db1); [apply db1_ok|exact Hw].
Defined.

Lemma authentication_iff_live_witness :
  cred_live 5 (TokenCred "h1") (c_db db1) = true
  ∧ ∃ r c', authenticate "acme" false (TokenCred "h1") 5 (mk_Conn (c_db db1) 0) = Ok (r, c')
      ∧ (is_Some r ↔ cred_live 5 (TokenCred "h1") (c_db db1) = true).
Proof.
  split; [by vm_compute|].
  destruct (authentication_iff_live "acme" false (TokenCred "h1") 5 (c_db db1) 0 db1_ok)
    as (r & c' & Hx & Hi & _). exists r, c'. exact (conj Hx Hi).
Defined.

Lemma revocation_is_permanent_witness :
  let op := OpRevokeToken "acme" "ci" "deploy" (by_ "mia") in
  let ops := [OpCreateToken "acme" "ci" "again" None None "h2" (by_ "mia")] in
  ∃ c'', authenticate "acme" false (TokenCred "h1") 5
    (run_all "acme" abbreviated ops (run "acme" abbreviated op db1)) = Ok (None, c'').
Proof.
  apply (revocation_is_permanent "acme" abbreviated (TokenCred "h1") (c_db db1) (c_calls db1)
    (OpRevokeToken "acme" "ci" "deploy" (by_ "mia")) tt); [apply db1_ok|by vm_compute..].
Defined.

Lemma token_delegates_own_permissions_witness :
  let roles := roles_of (c_db db1) in
  is_ok (create_token "acme" "acme" "ci" "t2" None None "h2" (by_ "mia") (mk_Conn (c_db db1) 9)) = true
  ∧ ∀ perm scope, evaluate perm (roles "ci") scope = Allow → evaluate perm (roles "mia") scope = Allow.
Proof.
  assert (is_ok (create_token "acme" "acme" "ci" "t2" None None "h2" (by_ "mia") (mk_Conn (c_db db1) 9))
    = true) as Hk by (by vm_compute).
  split; [exact Hk|]. apply is_ok_spec in Hk as [[t c'] E].
  apply (token_delegates_own_permissions "acme" "acme" "ci" "t2" None None "h2" (by_ "mia") "mia"
    (c_db db1) 9 t c' db1_ok eq_refl E).
Defined.
End Example.
