(* ===== verification/DeployProofs.v ===== *)
(** * Deployments in order

    The invariant of deployments and permits: attempts of an environment are ordered and each
    has a higher generation than those before, at most one runs, and a permit bound to a
    deployment was issued at the generation the deployment replaced. *)

From Stdlib Require Import Ascii.
From stdpp Require Import base sets strings list.
From S2P Require Import Prelude Strings OrdMap Json Sets Db DbLogic Identity Apps Permits Deployments Resources IdentityInv IdentityRoles DeployInv Access.

Local Open Scope string_scope.
Local Open Scope Z_scope.
Local Open Scope list_scope.

Definition deployment_env (r : DeploymentRow) : string * string := (dp_app r, dp_env r).
Definition deployment_key (r : DeploymentRow) : string * string * string := (dp_app r, dp_env r, dp_id r).

(** The deployment a permit is bound to, if a deployment it is. *)
Definition bound_deployment (p : PermitRow) : option (string * string * string) :=
  if String.eqb (pm_action p) "detach" then None
  else (λ x, (pm_app p, pm_env p, x)) <$> pm_bound_to p.

Record rows_ok (es : list EnvRow) (ds : list DeploymentRow) (ps : list PermitRow) : Prop := {
  dk_envs : NoDup (env_key <$> es);
  dk_keys : NoDup (deployment_key <$> ds);
  dk_running : ∀ r s, r ∈ ds → s ∈ ds → deployment_env r = deployment_env s →
    is_running r = true → is_running s = true → r = s;
  dk_order : ∀ r s, r ∈ ds → s ∈ ds → deployment_env r = deployment_env s →
    r = s ∨ (dp_seq r < dp_seq s ∧ dp_generation r < dp_generation s)
    ∨ (dp_seq s < dp_seq r ∧ dp_generation s < dp_generation r);
  dk_idempotent : ∀ r s key, r ∈ ds → s ∈ ds → deployment_env r = deployment_env s →
    has_key (dp_actor s) key r = true → has_key (dp_actor s) key s = true → r = s;
  dk_record : ∀ r, r ∈ ds → ∃ x, deployment_into_record r = Ok x;
  dk_refs : ∀ r, r ∈ ds → ∃ e, e ∈ es ∧ env_key e = deployment_env r ∧ dp_generation r ≤ en_generation e;
  dk_permits : NoDup (pm_id <$> ps);
  dk_bound : ∀ p k, p ∈ ps → bound_deployment p = Some k →
    ∃ r, r ∈ ds ∧ deployment_key r = k ∧ dp_generation r = pm_base_generation p + 1;
}.

Definition deploy_ok (d : Db) : Prop := rows_ok (db_envs d) (db_deployments d) (db_permits d).

Definition keeps_deploys : relation Db := λ d d', deploy_ok d → deploy_ok d'.

#[export] Instance keeps_deploys_PreOrder : PreOrder keeps_deploys.
Proof. split; [by intros d H|]. intros d1 d2 d3 H12 H23 H. by apply H23, H12. Qed.

Lemma deploys_same d d' :
  db_envs d' = db_envs d → db_deployments d' = db_deployments d → db_permits d' = db_permits d →
  keeps_deploys d d'.
Proof. intros He Hd Hp. unfold keeps_deploys, deploy_ok. by rewrite He, Hd, Hp. Qed.

Lemma empty_deploy_ok : deploy_ok empty_db.
Proof.
  constructor; try apply NoDup_nil_2; try (intros r Hr; by apply not_elem_of_nil in Hr);
    try (intros r s Hr; by apply not_elem_of_nil in Hr); intros r s k Hr; by apply not_elem_of_nil in Hr.
Qed.

Lemma in_env_spec app env r : in_env app env r = true ↔ deployment_env r = (app, env).
Proof. apply eqb_pair. Qed.

Lemma is_deployment_spec app env id r :
  is_deployment app env id r = true ↔ deployment_key r = (app, env, id).
Proof.
  unfold is_deployment. rewrite andb_true_iff, in_env_spec, String.eqb_eq.
  unfold deployment_env, deployment_key. naive_solver.
Qed.

(** ** Environments *)

Lemma keeps_insert_env d row :
  negb (existsb (is_env (en_app row) (en_id row)) (db_envs d)) = true →
  keeps_deploys d (upd_envs (λ t, t ++ [row]) d).
Proof.
  intros Hu [He Hk Hr Ho Hi Hx Hf Hp Hb]. constructor; simpl; try assumption.
  - apply insert_column_NoDup; [done|]. eapply unique_key; [|done]. intros r. apply is_env_spec.
  - intros r Hin. destruct (Hf r Hin) as (e & He' & ? & ?). exists e. rewrite elem_of_app. auto.
Qed.

Lemma keeps_update_envs d p f :
  (∀ r, env_key (f r) = env_key r) → (∀ r, en_generation r ≤ en_generation (f r)) →
  keeps_deploys d (upd_envs (update p f) d).
Proof.
  intros Hf Hg [He Hk Hr Ho Hi Hx Hd Hp Hb]. constructor; simpl; try assumption.
  - by rewrite update_column.
  - intros r Hin. destruct (Hd r Hin) as (e & He' & ? & ?). exists (if p e then f e else e). split_and!.
    + apply elem_of_update. eauto.
    + destruct (p e); by rewrite ?Hf.
    + specialize (Hg e). destruct (p e); lia.
Qed.

(** ** Permits *)

Lemma keeps_insert_permit d row :
  pm_bound_to row = None →
  negb (existsb (λ r, String.eqb (pm_id r) (pm_id row)) (db_permits d)) = true →
  keeps_deploys d (upd_permits (λ t, t ++ [row]) d).
Proof.
  intros Hn Hu [He Hk Hr Ho Hi Hx Hd Hp Hb]. constructor; simpl; try assumption.
  - apply insert_column_NoDup; [done|]. eapply unique_key; [|done]. intros r. apply String.eqb_eq.
  - intros p k [Hin| ->%list_elem_of_singleton]%elem_of_app; [by apply Hb|].
    unfold bound_deployment. rewrite Hn. by destruct (String.eqb _ _).
Qed.

(** An update of permits that are bound already, or for a detach. *)
Lemma keeps_use_permit d i now :
  (∀ r, r ∈ db_permits d → pm_id r = i → is_Some (pm_bound_to r) ∨ pm_action r = "detach") →
  keeps_deploys d (upd_permits (update (λ x, String.eqb (pm_id x) i) (use_permit_row now)) d).
Proof.
  intros Hu [He Hk Hr Ho Hi Hx Hd Hp Hb]. constructor; simpl; try assumption.
  - by rewrite update_column.
  - intros p k (r & Hin & ->)%elem_of_update. destruct (String.eqb_spec (pm_id r) i) as [Hid|]; [|by apply Hb].
    intros Hk'. apply (Hb r k Hin). revert Hk'. unfold bound_deployment. simpl.
    destruct (String.eqb_spec (pm_action r) "detach"); [done|].
    destruct (Hu r Hin Hid) as [[x Hbx]|?]; [|done]. by rewrite Hbx.
Qed.

(** ** Finishing, and other updates of deployments *)

(** An update that keeps what identifies and orders a deployment, and starts none. *)
Lemma keeps_update_deployments d p f :
  (∀ r, deployment_key (f r) = deployment_key r) → (∀ r, dp_seq (f r) = dp_seq r) →
  (∀ r, dp_generation (f r) = dp_generation r) → (∀ r, dp_actor (f r) = dp_actor r) →
  (∀ r, dp_idempotency_key (f r) = dp_idempotency_key r) →
  (∀ r, is_running (f r) = true → is_running r = true) →
  (∀ r x, deployment_into_record r = Ok x → ∃ y, deployment_into_record (f r) = Ok y) →
  keeps_deploys d (upd_deployments (update p f) d).
Proof.
  intros Fk Fs Fg Fa Fi Fr Fx [He Hk Hr Ho Hi Hx Hd Hp Hb]. set (g := λ r, if p r then f r else r).
  assert (∀ r, deployment_key (g r) = deployment_key r ∧ deployment_env (g r) = deployment_env r
    ∧ dp_seq (g r) = dp_seq r ∧ dp_generation (g r) = dp_generation r) as Hg.
  { intros r. unfold g. destruct (p r); [|done]. split_and!; auto. specialize (Fk r).
    unfold deployment_key, deployment_env in *. congruence. }
  assert (∀ r, is_running (g r) = true → is_running r = true) as Hg'.
  { intros r. unfold g. destruct (p r); auto. }
  assert (∀ r a k, has_key a k (g r) = has_key a k r ∧ dp_actor (g r) = dp_actor r) as Hkey.
  { intros r a k. unfold g, has_key. destruct (p r); [|done]. by rewrite Fa, Fi. }
  constructor; simpl; try assumption.
  - by rewrite update_column.
  - intros r s (r0 & Hr0 & ->)%elem_of_update (s0 & Hs0 & ->)%elem_of_update. fold (g r0) (g s0).
    intros E Hr'%Hg' Hs'%Hg'. f_equal. apply Hr; try done.
    destruct (Hg r0) as (_ & <- & _), (Hg s0) as (_ & <- & _). done.
  - intros r s (r0 & Hr0 & ->)%elem_of_update (s0 & Hs0 & ->)%elem_of_update. fold (g r0) (g s0).
    destruct (Hg r0) as (_ & Er & -> & ->), (Hg s0) as (_ & Es & -> & ->). rewrite Er, Es.
    intros E. destruct (Ho r0 s0 Hr0 Hs0 E) as [->|?]; auto.
  - intros r s k (r0 & Hr0 & ->)%elem_of_update (s0 & Hs0 & ->)%elem_of_update. fold (g r0) (g s0).
    destruct (Hg r0) as (_ & -> & _), (Hg s0) as (_ & -> & _).
    destruct (Hkey s0 (dp_actor (g s0)) k) as [-> ->], (Hkey r0 (dp_actor s0) k) as [-> _].
    intros E Hr' Hs'. by rewrite (Hi r0 s0 k Hr0 Hs0 E Hr' Hs').
  - intros r (r0 & Hr0 & ->)%elem_of_update. destruct (Hx r0 Hr0) as [x Hrec].
    destruct (p r0); [by eapply Fx|by eexists].
  - intros r (r0 & Hr0 & ->)%elem_of_update. fold (g r0). destruct (Hg r0) as (_ & -> & _ & ->). by apply Hd.
  - intros q k Hin Hk'. destruct (Hb q k Hin Hk') as (r & Hr0 & <- & <-). exists (g r). split.
    + apply elem_of_update. eauto.
    + by destruct (Hg r) as (-> & _ & _ & ->).
Qed.

Lemma keeps_finish d app env id status error now :
  status = "failed" ∨ status = "succeeded" →
  keeps_deploys d (upd_deployments (update (is_deployment app env id) (finish_deployment_row status error now)) d).
Proof.
  intros Hs. apply keeps_update_deployments; try done.
  - intros r. unfold is_running. simpl. by destruct Hs as [-> | ->].
  - intros r x. unfold deployment_into_record. simpl.
    destruct (deployment_kind_parse (dp_kind r)); [|done]. simpl. destruct Hs as [-> | ->]; by eexists.
Qed.

Lemma keeps_snapshot d p v : keeps_deploys d (upd_deployments (update p (set_snapshot v)) d).
Proof. apply keeps_update_deployments; try done. intros r x Hx. by eexists. Qed.

(** ** Removal *)

Lemma remove_env_deploys d app env :
  keeps_deploys d (upd_envs (delete_rows (is_env app env))
    (upd_deployments (delete_rows (in_env app env))
    (upd_permits (delete_rows (λ r, String.eqb (pm_app r) app && String.eqb (pm_env r) env)) d))).
Proof.
  intros [He Hk Hr Ho Hi Hx Hd Hp Hb]. constructor; simpl; try by apply delete_column_NoDup.
  - intros r s [? _]%elem_of_delete [? _]%elem_of_delete. by apply Hr.
  - intros r s [? _]%elem_of_delete [? _]%elem_of_delete. by apply Ho.
  - intros r s k [? _]%elem_of_delete [? _]%elem_of_delete. by apply Hi.
  - intros r [? _]%elem_of_delete. by apply Hx.
  - intros r [Hin Hn]%elem_of_delete. destruct (Hd r Hin) as (e & Hin' & Hke & Hle). exists e.
    split_and!; [|done|done]. apply elem_of_delete. split; [done|].
    apply not_true_is_false. rewrite is_env_spec, Hke. intros E%in_env_spec. congruence.
  - intros p k [Hin Hn]%elem_of_delete Hk'. destruct (Hb p k Hin Hk') as (r & Hr' & Hkr & Hg).
    exists r. split_and!; [|done|done]. apply elem_of_delete. split; [done|].
    apply not_true_is_false. rewrite in_env_spec. intros E. revert Hk'. unfold bound_deployment.
    destruct (String.eqb (pm_action p) _); [done|]. destruct (pm_bound_to p); [|done].
    intros [= <-]. apply not_true_iff_false in Hn. rewrite eqb_pair in Hn.
    unfold deployment_key, deployment_env in *. congruence.
Qed.

(** ** The authority of an issuer *)

#[local] Arguments check_admin_authority : simpl never.
#[local] Arguments check_env_authority : simpl never.

Definition protected_type (d : Db) (t : string) : bool :=
  match et_protected <$> select_one (is_env_type t) (db_env_types d) with Some true => true | _ => false end.

(** What issuing a permit for [action] needs, and what using it needs of its issuer: deploying
    to the environment, or being an administrator for a detach; in a protected environment
    type, being an administrator, and no permit for a change of unknown impact. *)
Definition may_issue (v : View) (prot : bool) (app t action issuer : string) : Prop :=
  (if String.eqb action "detach" then v_org v issuer = Some Administrator
   else may_deploy v (Some issuer) app t)
  ∧ (prot = true → action ≠ "unknown" ∧ v_org v issuer = Some Administrator).

Section authority.
Context (d : Db) (Hok : identity_ok d).

Lemma check_protection_Ok t action issuer n u c' :
  check_protection t action issuer (mk_Conn d n) = Ok (u, c') →
  protected_type d t = true → action ≠ "unknown" ∧ v_org (view d) issuer = Some Administrator.
Proof using Hok.
  intros Hx Hp. unfold check_protection in Hx. inv_tx Hx. unfold protected_type in Hp. rewrite Hp in Hx.
  simpl in Hx. destruct (String.eqb_spec action "unknown"); [done|]. split; [done|]. inv_tx Hx.
  apply attempt_Ok in H as [(a' & c1 & Hi & [= -> ->])|(e & _ & [= -> ->])]; [|by destruct e].
  by apply (check_admin_authority_Ok d Hok _ _ _ _ Hi).
Qed.

Lemma issue_authority_Ok app t action issuer n u c' :
  issue_authority app t action issuer (mk_Conn d n) = Ok (u, c') →
  may_issue (view d) (protected_type d t) app t action issuer.
Proof using Hok.
  intros Hx. unfold issue_authority in Hx. inv_tx Hx. unfold may_issue.
  destruct (String.eqb action "detach"); pose proof H as Ha; settle H;
    (split; [|by apply (check_protection_Ok _ _ _ _ _ _ Hx)]).
  - by apply (check_admin_authority_Ok d Hok _ _ _ _ Ha).
  - by apply (check_env_authority_Ok d Hok _ _ _ _ _ _ Ha).
Qed.

Lemma issuer_lost_Ok app t action issuer n c' :
  issuer_lost app t action issuer (mk_Conn d n) = Ok (None, c') →
  c_db c' = d ∧ may_issue (view d) (protected_type d t) app t action issuer.
Proof using Hok.
  intros Hx. split; [symmetry; by apply (issuer_lost_reads _ _ _ _ _ _ _ Hx)|].
  unfold issuer_lost in Hx. inv_tx Hx.
  apply attempt_Ok in H as [(u & c1 & Hi & [= -> ->])|(e & _ & [= -> ->])]; [|by destruct e].
  by eapply issue_authority_Ok.
Qed.
End authority.

(** ** Binding permits *)

(** What acceptance checks of a presented permit. *)
Record binds (app env env_type : string) (generation now : Z) (digests : list (string * string))
    (d : Db) (i : string) (r : PermitRow) : Prop := {
  bd_row : r ∈ db_permits d;
  bd_id : is_permit app env i r = true;
  bd_unbound : pm_bound_to r = None;
  bd_unexpired : now < pm_expires_at r;
  bd_generation : pm_base_generation r = generation;
  bd_action : pm_action r ≠ "detach";
  bd_digest : bt_get (pm_descriptor r) digests = Some (pm_config_digest r);
  bd_issuer : may_issue (view d) (protected_type d env_type) app env_type (pm_action r) (pm_issuer r);
}.

Definition bind_all (ids : list string) (deployment : string) (now : Z) (r : PermitRow) : PermitRow :=
  if existsb (String.eqb (pm_id r)) ids then bind_permit_row deployment now r else r.

Definition bound_permit (r : PermitRow) : BoundPermit :=
  mk_BoundPermit (pm_descriptor r) (pm_action r) (pm_issued_entry r).

Lemma eq_opt_true a b : eq_opt a b = true → a = b.
Proof. destruct a, b; simpl; try done. by intros ->%String.eqb_eq. Qed.

Lemma bind_permit_Ok app env t g dep digests now acc i c bound c' :
  identity_ok (c_db c) →
  bind_permit app env t g dep digests now acc i c = Ok (bound, c') →
  ∃ r, binds app env t g now digests (c_db c) i r
    ∧ bound = acc ++ [bound_permit r]
    ∧ c_db c' = upd_permits (update (λ x, String.eqb (pm_id x) i) (bind_permit_row dep now)) (c_db c).
Proof.
  intros Hok Hx. unfold bind_permit in Hx. inv_tx Hx.
  destruct a as [e|]; [done|]. inv_tx H0. destruct c0 as [d0 n0]. apply issuer_lost_Ok in H as [Hd Hi]; [|done].
  simpl in *. apply select_one_Some in Hr as [Hin Hid]. exists v. split_and!; [|done|by rewrite Hd].
  constructor; [done|done|by destruct (pm_bound_to v)|lia|lia| | |done].
  - by apply negb_true_iff, String.eqb_neq in Hc2.
  - by apply eq_opt_true.
Qed.

Lemma is_permit_id app env i r : is_permit app env i r = true → pm_id r = i.
Proof. unfold is_permit. rewrite andb_true_iff, String.eqb_eq. by intros [_ ?]. Qed.

Lemma bind_update i dep now t :
  update (λ x, String.eqb (pm_id x) i) (bind_permit_row dep now) t = bind_all [i] dep now <$> t.
Proof. apply list_fmap_ext. intros k x _. unfold bind_all. simpl. by rewrite orb_false_r. Qed.

Lemma bind_all_cons i ids dep now r :
  bind_all ids dep now (bind_all [i] dep now r) = bind_all (i :: ids) dep now r.
Proof.
  unfold bind_all. simpl. rewrite orb_false_r.
  destruct (String.eqb (pm_id r) i); [|done]. simpl. by destruct (existsb _ ids).
Qed.

(** Rows bound already are not those bound later. *)
Lemma binds_before app env t g now digests d i j dep r :
  i ≠ j → binds app env t g now digests (upd_permits (fmap (bind_all [i] dep now)) d) j r →
  binds app env t g now digests d j r.
Proof.
  intros Hne [Hr Hid ? ? ? ? ? ?]. constructor; try done. simpl in Hr.
  apply list_elem_of_fmap in Hr as (r0 & Hr & Hin). unfold bind_all in Hr. simpl in Hr.
  rewrite orb_false_r in Hr. destruct (String.eqb_spec (pm_id r0) i) as [Hi|]; [|by subst].
  apply is_permit_id in Hid. subst r. simpl in *. congruence.
Qed.

Lemma upd_permits_ext f g d : f (db_permits d) = g (db_permits d) → upd_permits f d = upd_permits g d.
Proof. intros E. unfold upd_permits. by rewrite E. Qed.

Lemma upd_permits_id f d : f (db_permits d) = db_permits d → upd_permits f d = d.
Proof. intros E. unfold upd_permits. rewrite E. by destruct d. Qed.

Lemma bind_each_Ok app env t g dep digests now ids acc c bound c' :
  identity_ok (c_db c) → NoDup ids →
  fold_each (bind_permit app env t g dep digests now) acc ids c = Ok (bound, c') →
  ∃ rows, Forall2 (binds app env t g now digests (c_db c)) ids rows
    ∧ bound = acc ++ (bound_permit <$> rows)
    ∧ c_db c' = upd_permits (fmap (bind_all ids dep now)) (c_db c).
Proof.
  revert acc c. induction ids as [|i ids IH]; intros acc c Hok Hn Hx; simpl in Hx.
  - inv_tx Hx. exists []. split_and!; [constructor|by rewrite app_nil_r|].
    symmetry. apply upd_permits_id. by apply list_fmap_id.
  - inv_tx Hx. apply NoDup_cons in Hn as [Hi Hn]. apply bind_permit_Ok in H as (r & Hb & -> & Hd); [|done].
    assert (c_db c0 = upd_permits (fmap (bind_all [i] dep now)) (c_db c)) as Hd'.
    { rewrite Hd. apply upd_permits_ext, bind_update. }
    apply IH in Hx as (rows & Hf & -> & Hd''); [|by rewrite Hd'|done].
    exists (r :: rows). split_and!.
    + constructor; [done|]. rewrite Hd' in Hf. revert Hi Hf. clear. revert rows.
      induction ids as [|j ids IH]; intros rows Hi Hf; inversion_clear Hf; constructor.
      * eapply binds_before; [|done]. intros ->. apply Hi. left.
      * apply IH; [|done]. intros ?. apply Hi. by right.
    + by rewrite <- app_assoc.
    + rewrite Hd'', Hd'.
      change (upd_permits (fmap (bind_all ids dep now) ∘ fmap (bind_all [i] dep now)) (c_db c)
        = upd_permits (fmap (bind_all (i :: ids) dep now)) (c_db c)).
      apply upd_permits_ext. unfold compose. rewrite <- list_fmap_compose. apply list_fmap_ext. intros k x _. apply bind_all_cons.
Qed.

(** Acceptance binds exactly the presented permits, all of them valid, and they cover every
    destructive action that is known beforehand. *)
Record bound_to (app env : string) (generation : Z) (dep : string) (b : PermitBinding)
    (d d' : Db) (now : Z) : Prop := {
  bt_valid : ∀ i, i ∈ pb_presented b → ∃ e r, select_one (is_env app env) (db_envs d) = Some e
    ∧ binds app env (en_type e) generation now (pb_digests b) d i r;
  bt_required : ∀ da, da ∈ pb_required b → ∃ i e r, i ∈ pb_presented b
    ∧ select_one (is_env app env) (db_envs d) = Some e
    ∧ binds app env (en_type e) generation now (pb_digests b) d i r
    ∧ (pm_descriptor r, pm_action r) = da;
  bt_update : d' = upd_permits (fmap (bind_all (bs_of_list (pb_presented b)) dep now)) d;
}.

Lemma bind_permits_Ok `{System} app env g dep b d n bound c' :
  identity_ok d → bind_permits app env g dep b (mk_Conn d n) = Ok (bound, c') →
  bound_to app env g dep b d (c_db c') (clock n).
Proof.
  intros Hok Hx. unfold bind_permits in Hx. inv_tx Hx.
  assert (c_db c = d ∧ ∀ i, i ∈ bs_of_list (pb_presented b) → ∃ e, select_one (is_env app env) (db_envs d) = Some e
    ∧ en_type e = a) as [Hd Ht].
  { destruct (bs_of_list (pb_presented b)) as [|i l].
    - inv_tx H0. split; [done|]. by intros i ?%not_elem_of_nil.
    - unfold env_type_of in H0. inv_tx H0. simpl in *. split; [done|]. intros _ _.
      destruct (select_one _ _) as [e|]; simplify_eq/=. eauto. }
  destruct c as [d0 n0]. simpl in Hd. subst d0.
  apply bind_each_Ok in H1 as (rows & Hf & -> & Hd'); [|done|apply bs_wf_NoDup, bs_of_list_wf].
  assert (∀ i, i ∈ pb_presented b → ∃ e r, r ∈ rows ∧ select_one (is_env app env) (db_envs d) = Some e
    ∧ binds app env (en_type e) g (clock n) (pb_digests b) d i r) as Hv.
  { intros i Hi. apply elem_of_bs_of_list in Hi. destruct (Ht i Hi) as (e & He & <-).
    destruct (Forall2_elem_l _ _ _ _ Hf Hi) as (r & Hr & Hb). eauto. }
  constructor; [by intros i Hi; destruct (Hv i Hi) as (e & r & _ & ? & ?); eauto| |exact Hd'].
  intros da Hda. destruct (action_covered (bound_permit <$> rows) da) eqn:E.
  - unfold action_covered in E. apply existsb_true in E as (x & (r & -> & Hr)%list_elem_of_fmap & Hda').
    apply eqb_pair in Hda'. simpl in Hda'.
    destruct (Forall2_elem_r _ _ _ _ Hf Hr) as (i & Hi & Hb). destruct (Ht i Hi) as (e & He & <-).
    exists i, e, r. split_and!; try done; [by apply elem_of_bs_of_list|by destruct da].
  - exfalso. destruct (List.filter _ _) as [|x l] eqn:Ef in Hc; [|done].
    assert (da ∈ List.filter (λ da, negb (action_covered (bound_permit <$> rows) da)) (pb_required b)) as Hin.
    { apply list_elem_of_In, filter_In. split; [by apply list_elem_of_In|]. by rewrite E. }
    simpl in *. rewrite Ef in Hin. by apply not_elem_of_nil in Hin.
Qed.

(** ** New deployments *)

(** Only the audit log has changed. *)
Definition only_audit : relation Db := λ d d', ∃ f s, d' = set_seq s (upd_audit_log f d).

#[export] Instance only_audit_PreOrder : PreOrder only_audit.
Proof.
  split.
  - intros d. exists (λ t, t), (db_seq d). by destruct d.
  - intros d1 d2 d3 (f & s & ->) (g & t & ->). by exists (g ∘ f), t.
Qed.

Lemma audit_bound_only `{System} i app env id bound : tx_rel only_audit (audit_bound i app env id bound).
Proof. unfold audit_bound. tx_steps. by eexists _, _. Qed.

Definition new_deployment (req : DeploymentRequest) (id : string) (seq generation now : Z) : DeploymentRow :=
  mk_DeploymentRow (dq_app req) (dq_env req) id seq (deployment_kind_as_str (dq_kind req))
    (dq_actor req) (dq_set_id req) (dq_delta_id req) (dq_comment req) generation
    "in_progress" (dq_idempotency_key req) (Some (dq_fingerprint req)) (dq_snapshot req) None now None.

(** What creating a deployment does: permits are bound, the deployment is added with the
    next generation, which the environment takes. *)
Definition creates (req : DeploymentRequest) (generation : Z) (d d' : Db) (row : DeploymentRow) : Prop :=
  ∃ d1 now created,
    bound_to (dq_app req) (dq_env req) generation (dp_id row) (dq_permits req) d d1 now
    ∧ row = new_deployment req (dp_id row) (next_seq (dq_app req) (dq_env req) d) (generation + 1) created
    ∧ deployment_unique row d = true
    ∧ existsb (is_env (dq_app req) (dq_env req)) (db_envs d) = true
    ∧ only_audit (upd_envs (update (is_env (dq_app req) (dq_env req))
          (accept_env_row (generation + 1) (dq_set_id req) (bool_decide (dq_kind req = DeleteEnv))))
        (upd_deployments (λ t, t ++ [row]) d1)) d'.

Lemma require_deployment_Ok app env id c r c' :
  require_deployment app env id c = Ok (r, c') →
  c' = c ∧ ∃ row, select_one (is_deployment app env id) (db_deployments (c_db c)) = Some row
    ∧ deployment_into_record row = Ok r.
Proof.
  intros Hx. unfold require_deployment, fetch_deployment in Hx. inv_tx Hx.
  destruct (select_one _ _) as [row|]; inv_tx H; eauto.
Qed.

Lemma into_record_Ok row r :
  deployment_into_record row = Ok r →
  dl_id r = dp_id row ∧ dl_generation r = dp_generation row
  ∧ deployment_status_parse (dp_status row) = Ok (dl_status r).
Proof.
  unfold deployment_into_record. destruct (deployment_kind_parse (dp_kind row)); [|done]. simpl.
  destruct (deployment_status_parse (dp_status row)); [|done]. simpl. by intros [= <-].
Qed.

Lemma unique_deployment row d :
  deployment_unique row d = true → is_running row = true → ∀ r, r ∈ db_deployments d →
  deployment_env r = deployment_env row →
  dp_id r ≠ dp_id row ∧ is_running r = false
  ∧ ∀ k, has_key (dp_actor row) k r = true → has_key (dp_actor row) k row = true → False.
Proof.
  intros Hu Hrun r Hr He. unfold deployment_unique in Hu. apply negb_true_iff in Hu.
  apply (proj1 (existsb_false _ _) Hu) in Hr. rewrite (proj2 (in_env_spec _ _ _) He) in Hr. simpl in Hr.
  rewrite Hrun, andb_true_r in Hr. rewrite !orb_false_iff in Hr.
  destruct Hr as [[[? _] Hk] ?]. split_and!; [by apply String.eqb_neq|done|].
  unfold has_key. intros k [Ha Hkr]%andb_true_iff [_ Hkw]%andb_true_iff. rewrite Ha in Hk. simpl in Hk.
  destruct (dp_idempotency_key r), (dp_idempotency_key row); try done. simpl in *.
  apply String.eqb_eq in Hkr as ->, Hkw as ->. by rewrite String.eqb_refl in Hk.
Qed.

Lemma create_deployment_Ok `{System} req g d n r c' :
  identity_ok d → create_deployment req g (mk_Conn d n) = Ok (r, c') →
  ∃ row, creates req g d (c_db c') row
    ∧ deployment_into_record row = Ok r.
Proof.
  intros Hok Hx. unfold create_deployment in Hx. inv_tx Hx.
  apply bind_permits_Ok in H0; [|done]. unfold insert_deployment in H1. inv_tx H1.
  apply audit_bound_only in H2. apply require_deployment_Ok in Hx as [-> (row & Hs & Hrec)].
  set (new := mk_DeploymentRow _ _ _ _ _ _ _ _ _ _ _ _ _ _ _ _ _) in *.
  pose proof (bt_update _ _ _ _ _ _ _ _ H0) as Hd1.
  assert (row = new) as ->.
  { destruct H2 as (f' & s' & Hc1). rewrite Hc1 in Hs. simpl in Hs. rewrite select_one_app in Hs.
    destruct (select_one _ (db_deployments (c_db c0))) as [r0|] eqn:E.
    - exfalso. apply select_one_Some in E as [Hin Hid%is_deployment_spec].
      destruct (unique_deployment new _ Huniq eq_refl r0 Hin) as [Hne _];
        unfold deployment_key, deployment_env in *; simpl in *; congruence.
    - destruct (is_deployment _ _ _ new); by simplify_eq. }
  exists new. split; [|done]. exists (c_db c0), (clock (S n)), (clock (c_calls c0)).
  rewrite Hd1 in Huniq, Href. split_and!; [done| |done|done|].
  - unfold new. by rewrite Hd1.
  - etrans; [|exact H2]. by eexists _, _.
Qed.

Lemma foldl_max_le s l : s ≤ foldl Z.max s l ∧ ∀ x, x ∈ l → x ≤ foldl Z.max s l.
Proof.
  revert s. induction l as [|y l IH]; intros s; simpl; [split; [lia|by intros ? ?%not_elem_of_nil]|].
  destruct (IH (Z.max s y)) as [Hs Hl]. split; [lia|].
  intros x [->|Hx]%elem_of_cons; [lia|by apply Hl].
Qed.

Lemma next_seq_gt app env d r :
  r ∈ db_deployments d → deployment_env r = (app, env) → dp_seq r < next_seq app env d.
Proof.
  intros Hr He. unfold next_seq.
  assert (dp_seq r ∈ dp_seq <$> select (in_env app env) (db_deployments d)) as Hin.
  { apply list_elem_of_fmap_2, elem_of_select. split; [done|]. by apply in_env_spec. }
  destruct (dp_seq <$> _) as [|s l]; [by apply not_elem_of_nil in Hin|].
  destruct (foldl_max_le s l) as [Hs Hl]. apply elem_of_cons in Hin as [->|Hin]; [lia|].
  specialize (Hl _ Hin). lia.
Qed.

(** The row of an environment, by its key. *)
Lemma env_row d app env e e' :
  NoDup (env_key <$> db_envs d) → select_one (is_env app env) (db_envs d) = Some e →
  e' ∈ db_envs d → is_env app env e' = true → e' = e.
Proof.
  intros Hn [He' Hk']%select_one_Some Hin Hk. apply (row_of_key env_key (db_envs d)); [done..|].
  apply is_env_spec in Hk, Hk'. congruence.
Qed.

Section created.
Context (req : DeploymentRequest) (g : Z) (d d' : Db) (row : DeploymentRow) (e : EnvRow).
Context (Hok : deploy_ok d) (Hc : creates req g d d' row).
Context (He : select_one (is_env (dq_app req) (dq_env req)) (db_envs d) = Some e) (Hg : en_generation e = g).

Lemma created_env : deployment_env row = (dq_app req, dq_env req) ∧ is_running row = true
  ∧ dp_generation row = g + 1 ∧ dp_seq row = next_seq (dq_app req) (dq_env req) d.
Proof using Hc. destruct Hc as (d1 & now & cr & _ & -> & _). done. Qed.

Lemma created_deployments : db_deployments d' = db_deployments d ++ [row].
Proof using Hc. destruct Hc as (d1 & now & cr & Hb & _ & _ & _ & f & s & ->). simpl.
  by rewrite (bt_update _ _ _ _ _ _ _ _ Hb). Qed.

Lemma created_old r : r ∈ db_deployments d → deployment_env r = deployment_env row →
  dp_id r ≠ dp_id row ∧ is_running r = false ∧ dp_seq r < dp_seq row ∧ dp_generation r < dp_generation row
  ∧ ∀ k, has_key (dp_actor row) k r = true → has_key (dp_actor row) k row = true → False.
Proof using Hok Hc He Hg.
  intros Hr Hen. destruct created_env as (Henv & Hrun & Hgen & Hseq).
  destruct Hc as (d1 & now & cr & _ & _ & Hu & _).
  destruct (unique_deployment row d Hu Hrun r Hr Hen) as (? & ? & ?). split_and!; [done|done| | |done].
  - rewrite Hseq. apply next_seq_gt; [done|congruence].
  - rewrite Hgen. destruct (dk_refs _ _ _ Hok r Hr) as (e' & Hin & Hk & Hle).
    assert (e' = e) as ->; [|lia]. eapply env_row; [apply Hok|exact He|done|].
    apply is_env_spec. congruence.
Qed.

Lemma created_envs : ∀ x, x ∈ db_envs d → ∃ y, y ∈ db_envs d' ∧ env_key y = env_key x
  ∧ en_generation x ≤ en_generation y ∧ (env_key x = deployment_env row → en_generation y = g + 1).
Proof using Hok Hc He Hg.
  intros x Hx. destruct created_env as (Henv & _).
  assert (db_envs d' = update (is_env (dq_app req) (dq_env req))
    (accept_env_row (g + 1) (dq_set_id req) (bool_decide (dq_kind req = DeleteEnv))) (db_envs d)) as ->.
  { destruct Hc as (d1 & now & cr & Hb & _ & _ & _ & f & s & ->). simpl.
    by rewrite (bt_update _ _ _ _ _ _ _ _ Hb). }
  eexists. split_and!; [apply elem_of_update; by exists x|by destruct (is_env _ _ x)| |].
  - destruct (is_env _ _ x) eqn:E; [|done]. assert (x = e) as ->; [|simpl; lia].
    eapply env_row; [apply Hok|exact He|done|done].
  - intros Hk. rewrite (proj2 (is_env_spec (dq_app req) (dq_env req) x)) by congruence. done.
Qed.

Lemma created_bound p k : p ∈ db_permits d' → bound_deployment p = Some k →
  ∃ r, r ∈ db_deployments d' ∧ deployment_key r = k ∧ dp_generation r = pm_base_generation p + 1.
Proof using Hok Hc Hg.
  rewrite created_deployments. destruct created_env as (Henv & _ & Hgen & _).
  destruct Hc as (d1 & now & cr & Hb & _ & _ & _ & f & s & ->). simpl.
  rewrite (bt_update _ _ _ _ _ _ _ _ Hb). simpl. intros (p0 & -> & Hp0)%list_elem_of_fmap Hk.
  unfold bind_all in *. destruct (existsb _ _) eqn:Ex.
  - apply existsb_true in Ex as (i & Hi & <-%String.eqb_eq). rewrite elem_of_bs_of_list in Hi.
    destruct (bt_valid _ _ _ _ _ _ _ _ Hb _ Hi) as (e' & r & _ & Hbd).
    assert (r = p0) as ->.
    { apply (row_of_key pm_id (db_permits d)); [apply Hok|apply Hbd|done|]. eapply is_permit_id, Hbd. }
    exists row. split_and!; [apply elem_of_app; right; left| |].
    + pose proof (bd_id _ _ _ _ _ _ _ _ _ Hbd) as Hid. unfold is_permit in Hid.
      apply andb_true_iff in Hid as [[= Ha Hv]%eqb_pair _]. unfold bound_deployment in Hk. simpl in Hk.
      destruct (String.eqb _ _); [done|]. simplify_eq. unfold deployment_key, deployment_env in *. congruence.
    + rewrite Hgen. simpl. by rewrite (bd_generation _ _ _ _ _ _ _ _ _ Hbd).
  - destruct (dk_bound _ _ _ Hok p0 k Hp0 Hk) as (r & Hr & ? & ?). exists r.
    split_and!; [by apply elem_of_app; left|done|done].
Qed.

Lemma created_ok : deploy_ok d'.
Proof using Hok Hc He Hg.
  destruct created_env as (Henv & Hrun & Hgen & Hseq). constructor.
  - destruct Hc as (d1 & now & cr & Hb & _ & _ & _ & f & s & ->). simpl.
    rewrite (bt_update _ _ _ _ _ _ _ _ Hb), update_column by done. apply Hok.
  - rewrite created_deployments. apply insert_column_NoDup; [apply Hok|]. intros r Hr Hk.
    destruct (created_old r Hr) as [Hne _]; unfold deployment_key, deployment_env in *; congruence.
  - rewrite created_deployments.
    intros r s [Hr| ->%list_elem_of_singleton]%elem_of_app [Hs| ->%list_elem_of_singleton]%elem_of_app E Hr' Hs'.
    + by apply (dk_running _ _ _ Hok).
    + destruct (created_old r Hr E) as (_ & ? & _). congruence.
    + destruct (created_old s Hs) as (_ & ? & _); congruence.
    + done.
  - rewrite created_deployments.
    intros r s [Hr| ->%list_elem_of_singleton]%elem_of_app [Hs| ->%list_elem_of_singleton]%elem_of_app E.
    + by apply (dk_order _ _ _ Hok).
    + destruct (created_old r Hr E) as (_ & _ & ? & ? & _). auto.
    + destruct (created_old s Hs) as (_ & _ & ? & ? & _); [done|]. auto.
    + by left.
  - rewrite created_deployments.
    intros r s k [Hr| ->%list_elem_of_singleton]%elem_of_app [Hs| ->%list_elem_of_singleton]%elem_of_app E Hkr Hks.
    + by apply (dk_idempotent _ _ _ Hok r s k).
    + destruct (created_old r Hr E) as (_ & _ & _ & _ & Hn). by destruct (Hn k).
    + destruct (created_old s Hs) as (_ & _ & _ & _ & Hn); [done|].
      assert (dp_actor row = dp_actor s) as Ha by (by apply andb_true_iff in Hkr as [?%String.eqb_eq _]).
      rewrite <- Ha in *. by destruct (Hn k).
    + done.
  - rewrite created_deployments. intros r [Hr| ->%list_elem_of_singleton]%elem_of_app.
    + by apply (dk_record _ _ _ Hok).
    + destruct Hc as (d1 & now & cr & _ & -> & _). unfold deployment_into_record. simpl.
      destruct (dq_kind req); by eexists.
  - rewrite created_deployments. intros r [Hr| ->%list_elem_of_singleton]%elem_of_app.
    + destruct (dk_refs _ _ _ Hok r Hr) as (x & Hx & Hk & Hle).
      destruct (created_envs x Hx) as (y & Hy & Hky & Hgy & _). exists y. split_and!; [done|congruence|lia].
    + pose proof He as Hin. apply select_one_Some in Hin as [Hin Hk%is_env_spec].
      destruct (created_envs e Hin) as (y & Hy & Hky & _ & Hgy). exists y.
      split_and!; [done|congruence|]. rewrite Hgy by congruence. lia.
  - destruct Hc as (d1 & now & cr & Hb & _ & _ & _ & f & s & ->). simpl.
    rewrite (bt_update _ _ _ _ _ _ _ _ Hb). simpl. rewrite <- list_fmap_compose.
    rewrite (list_fmap_ext _ pm_id); [apply Hok|]. intros i x _. unfold bind_all, compose.
    by destruct (existsb _ _).
  - exact created_bound.
Qed.
End created.

(** ** Acceptance *)

(** When a request is acceptable: the actor may deploy there, the environment and its
    application are in a state that admits it, the generation is the one the client read,
    nothing runs, no resource is in doubt, and what is deployed is what was prepared. *)
Record acceptable (req : DeploymentRequest) (d : Db) (e : EnvRow) : Prop := {
  ac_env : select_one (is_env (dq_app req) (dq_env req)) (db_envs d) = Some e;
  ac_authority : may_deploy (view d) (ai_actor (dq_audit req)) (dq_app req) (en_type e);
  ac_state : ∃ a, select_one (is_app (dq_app req)) (db_apps d) = Some a
    ∧ match dq_kind req with
      | Deploy => ap_state a = "active" ∧ en_state e = "active"
      | DeleteEnv => en_state e ≠ "deleting" ∧ (dq_env req = "development" → ap_state a ≠ "active")
      end;
  ac_generation : en_generation e = dq_expected_generation req;
  ac_idle : ∀ r, r ∈ db_deployments d → deployment_env r = (dq_app req, dq_env req) → is_running r = false;
  ac_certain : ∀ r, r ∈ db_active_resources d → res_in_env (dq_app req) (dq_env req) r = true →
    rs_status r ≠ "unknown" ∧ rs_status r ≠ "recovery_required";
  ac_set : match dq_kind req with
    | Deploy => ∃ id, dq_set_id req = Some id ∧ is_Some (select_one (is_set (dq_app req) id) (db_sets d))
    | DeleteEnv => dq_set_id req = None
    end;
  ac_delta : ∀ id content, dq_delta_id req = Some id → dq_delta_content req = Some content →
    ∃ r, select_one (is_delta (dq_app req) id) (db_deltas d) = Some r ∧ value_eqb (de_content r) content = true;
}.

Lemma check_kind_Ok app env k a s c u c' :
  check_kind app env k a s c = Ok (u, c') ↔ c' = c ∧
    match k with
    | Deploy => a = "active" ∧ s = "active"
    | DeleteEnv => s ≠ "deleting" ∧ (env = "development" → a ≠ "active")
    end.
Proof.
  unfold check_kind, check, ret, fail. destruct u, k.
  - destruct (String.eqb_spec a "active"), (String.eqb_spec s "active"); simpl; naive_solver.
  - destruct (String.eqb_spec s "deleting"); [naive_solver|].
    destruct (String.eqb_spec env "development"), (String.eqb_spec a "active"); simpl; naive_solver.
Qed.

Lemma check_set_Ok app k i c u c' :
  check_set app k i c = Ok (u, c') ↔ c' = c ∧
    match k with
    | Deploy => ∃ id, i = Some id ∧ is_Some (select_one (is_set app id) (db_sets (c_db c)))
    | DeleteEnv => i = None
    end.
Proof.
  unfold check_set, check, bind, query, ret, fail. destruct u, k, i as [id|]; try naive_solver.
  destruct (select_one _ _) as [s|] eqn:E; simpl.
  - split; [intros [= <-]|by intros [-> _]]. split; [done|]. exists id. split; [done|]. by eexists.
  - split; [done|]. intros (_ & id' & [= <-] & [x Hx]). congruence.
Qed.

Lemma check_delta_Ok app i v c u c' :
  check_delta app i v c = Ok (u, c') ↔ c' = c ∧
    ∀ id content, i = Some id → v = Some content →
      ∃ r, select_one (is_delta app id) (db_deltas (c_db c)) = Some r ∧ value_eqb (de_content r) content = true.
Proof.
  unfold check_delta, check, bind, query, require, ret, fail. destruct u, i as [id|], v as [content|];
    try (split; [intros [= <-]; split; [done|]; intros; congruence|by intros [-> _]]).
  destruct (select_one _ _) as [r|] eqn:E; simpl; [destruct (value_eqb _ _) eqn:Ev|].
  - split; [intros [= <-]; split; [done|]; intros ? ? [= <-] [= <-]; eauto|by intros [-> _]].
  - split; [done|]. intros [_ Hi]. destruct (Hi id content eq_refl eq_refl) as (r' & Hr & Hv). congruence.
  - split; [done|]. intros [_ Hi]. destruct (Hi id content eq_refl eq_refl) as (r' & Hr & Hv). congruence.
Qed.

(** No row sorted out of a table. *)
Lemma none_selected {A} (p : A → bool) (key : A → string) (t : list A) :
  match key <$> sort_by_key key (select p t) with [] => true | _ => false end = true →
  ∀ r, r ∈ t → p r = false.
Proof.
  intros Hn r Hr. destruct (p r) eqn:E; [|done].
  assert (key r ∈ key <$> sort_by_key key (select p t)) as Hin.
  { apply list_elem_of_fmap_2. rewrite sort_by_key_perm. by apply elem_of_select. }
  destruct (key <$> _); [|done]. by apply not_elem_of_nil in Hin.
Qed.

Lemma check_accept_Ok req d n g c' :
  identity_ok d → check_accept req (mk_Conn d n) = Ok (g, c') →
  c_db c' = d ∧ ∃ e, acceptable req d e ∧ en_generation e = g.
Proof.
  intros Hok Hx. split; [symmetry; by apply (check_accept_reads _ _ _ _ Hx)|].
  unfold check_accept in Hx. inv_tx Hx. pose proof H as Ha. settle H.
  apply check_kind_Ok in H0 as [-> Hk]. simpl in *.
  destruct (select_one _ (db_deployments d)) as [r|] eqn:Er in H1; inv_tx H1.
  apply check_set_Ok in H2 as [-> Hs]. apply check_delta_Ok in H3 as [-> Hd].
  exists v. split; [|done]. constructor; [done| |by eauto|lia| | |done|done].
  - by apply (check_env_authority_Ok d Hok _ _ _ _ _ _ Ha).
  - intros r Hin He%in_env_spec. apply (proj1 (select_one_None _ _) Er) in Hin. by rewrite He in Hin.
  - intros r Hin He. apply (none_selected _ _ _ Hc0) in Hin. rewrite He in Hin. simpl in Hin.
    apply orb_false_iff in Hin as [? ?]. by split; apply String.eqb_neq.
Qed.

(** Freezing a delta touches no other table. *)
Definition only_deltas : relation Db := λ d d', ∃ f, d' = upd_deltas f d.

#[export] Instance only_deltas_PreOrder : PreOrder only_deltas.
Proof.
  split.
  - intros d. exists (λ t, t). by destruct d.
  - intros d1 d2 d3 (f & ->) (g & ->). by exists (g ∘ f).
Qed.

Lemma freeze_delta_only `{System} app i : tx_rel only_deltas (freeze_delta app i).
Proof. unfold freeze_delta. tx_steps. by eexists. Qed.

Lemma accept_new_Ok `{System} req d n a c' :
  identity_ok d → accept_new req (mk_Conn d n) = Ok (a, c') →
  ∃ e f r row, acceptable req d e ∧ a = Created r ∧ deployment_into_record row = Ok r
    ∧ creates req (en_generation e) (upd_deltas f d) (c_db c') row.
Proof.
  intros Hok Hx. unfold accept_new in Hx. inv_tx Hx.
  apply check_accept_Ok in H0 as [Hd (e & He & <-)]; [|done].
  apply freeze_delta_only in H1 as [f Hf]. destruct c0 as [d0 n0]. simpl in Hf. subst d0. rewrite Hd in *.
  apply create_deployment_Ok in H2 as (row & Hc & Hrec); [|done]. by exists e, f, a2, row.
Qed.

Lemma accept_new_deploys `{System} req d n a c' :
  identity_ok d → deploy_ok d → accept_new req (mk_Conn d n) = Ok (a, c') → deploy_ok (c_db c').
Proof.
  intros Hok Hdep Hx. apply accept_new_Ok in Hx as (e & f & r & row & He & _ & _ & Hc); [|done].
  eapply (created_ok _ _ _ _ _ e); [|exact Hc|apply He|done]. exact Hdep.
Qed.

(** ** The invariant of the store *)

Definition store_ok (d : Db) : Prop := identity_ok d ∧ deploy_ok d.
Definition keeps_store : relation Db := λ d d', store_ok d → store_ok d'.

#[export] Instance keeps_store_PreOrder : PreOrder keeps_store.
Proof. split; [by intros d H|]. intros d1 d2 d3 H12 H23 H. by apply H23, H12. Qed.

Lemma empty_store_ok : store_ok empty_db.
Proof. split; [apply empty_ok|apply empty_deploy_ok]. Qed.

Lemma keeps_both d d' : keeps_ok d d' → keeps_deploys d d' → keeps_store d d'.
Proof. intros Hi Hd [? ?]. split; auto. Qed.

Lemma audit_store d f s : keeps_store d (set_seq s (upd_audit_log f d)).
Proof. intros [Hok Hd]. by split. Qed.

Lemma tx_keeps_both {A} (m : tx A) : tx_rel keeps_ok m → tx_rel keeps_deploys m → tx_rel keeps_store m.
Proof. intros Hi Hd c a c' Hx. apply keeps_both; [by apply (Hi _ _ _ Hx)|by apply (Hd _ _ _ Hx)]. Qed.

Section methods.
Context `{System} (org : string).

Lemma accept_new_store req : tx_rel keeps_store (accept_new req).
Proof.
  intros [d n] a c' Hx [Hok Hdep]. split; [by apply (accept_new_allowed keeps_ok _ _ _ _ Hx)|].
  by eapply accept_new_deploys.
Qed.
#[local] Hint Resolve accept_new_store : tx.

Lemma accept_in_tx_store req : tx_rel keeps_store (accept_in_tx req).
Proof. unfold accept_in_tx. tx_steps. Qed.
#[local] Hint Resolve accept_in_tx_store : tx.

Lemma accept_deployment_store req : tx_rel keeps_store (accept_deployment org req).
Proof. unfold accept_deployment. tx_steps. Qed.

Lemma delete_env_of_store req l e : tx_rel keeps_store (delete_env_of req l e).
Proof. unfold delete_env_of. tx_steps. Qed.
#[local] Hint Resolve delete_env_of_store : tx.

(** Methods and statements that touch none of the three tables. *)
Definition same_deploys : relation Db := λ d d',
  db_envs d' = db_envs d ∧ db_deployments d' = db_deployments d ∧ db_permits d' = db_permits d.

#[export] Instance same_deploys_PreOrder : PreOrder same_deploys.
Proof. split; [by intros d|]. intros d1 d2 d3 (? & ? & ?) (? & ? & ?). split_and!; congruence. Qed.

Lemma same_deploys_keeps {A} (m : tx A) : tx_rel same_deploys m → tx_rel keeps_deploys m.
Proof. intros Hm. eapply tx_rel_impl; [|exact Hm]. intros d d' (? & ? & ?). by apply deploys_same. Qed.

Ltac same := intros; tx_steps; by split_and!.

Lemma append_log_same row : tx_rel same_deploys (append_log row).
Proof. unfold append_log. same. Qed.
#[local] Hint Resolve append_log_same : tx.
Lemma log_in_tx_same id op level m : tx_rel same_deploys (log_in_tx id op level m).
Proof. unfold log_in_tx. same. Qed.
Lemma append_logs_same o app env id lines : tx_rel same_deploys (append_logs org o app env id lines).
Proof. unfold append_logs. same. Qed.
Lemma finish_audit_same o app env id error b : tx_rel same_deploys (finish_audit o app env id error b).
Proof. unfold finish_audit. same. Qed.
Lemma release_resources_same app env : tx_rel same_deploys (release_resources app env).
Proof. unfold release_resources, append_tombstone. same. Qed.
Lemma remove_app_same app : tx_rel same_deploys (remove_app app).
Proof. unfold remove_app. same. Qed.
#[local] Hint Resolve append_logs_same log_in_tx_same finish_audit_same release_resources_same
  remove_app_same : tx.

Lemma remove_env_keeps_deploys app env : tx_rel keeps_deploys (remove_env app env).
Proof.
  unfold remove_env. apply tx_rel_bind; [apply _|apply same_deploys_keeps; eauto with tx|].
  intros _. apply tx_rel_execute. intros d. apply remove_env_deploys.
Qed.
#[local] Hint Resolve remove_env_keeps_deploys : tx.

Lemma finish_env_deploys app env id k s e : tx_rel keeps_deploys (finish_env app env id k s e).
Proof.
  unfold finish_env. tx_steps; try (by apply keeps_update_envs); apply same_deploys_keeps; eauto with tx.
Qed.
#[local] Hint Resolve finish_env_deploys : tx.

Lemma finish_in_tx_deploys o app env id error : tx_rel keeps_deploys (finish_in_tx o app env id error).
Proof.
  unfold finish_in_tx. tx_steps; try (apply same_deploys_keeps; solve [eauto with tx]).
  apply keeps_finish. destruct (is_some _); auto.
Qed.
#[local] Hint Resolve finish_in_tx_deploys : tx.

Lemma finish_deployment_deploys o app env id error : tx_rel keeps_deploys (finish_deployment org o app env id error).
Proof. unfold finish_deployment. tx_steps. Qed.

(** *** Resources *)

Lemma close_operation_same id dep g a b c e f now : tx_rel same_deploys (close_operation id dep g a b c e f now).
Proof. unfold close_operation. same. Qed.
#[local] Hint Resolve close_operation_same : tx.

Lemma begin_operation_same start : tx_rel same_deploys (begin_operation org start).
Proof.
  unfold begin_operation, begin_resource, close_abandoned, insert_resource, insert_operation, upsert_run. same.
Qed.

Lemma bury_same g stone : tx_rel same_deploys (bury g stone).
Proof. unfold bury, append_tombstone. same. Qed.

Lemma interrupt_same a b e level line f now o : tx_rel same_deploys (interrupt a b e level line f now o).
Proof. unfold interrupt. same. Qed.

Lemma record_operation_inputs_same id v : tx_rel same_deploys (record_operation_inputs id v).
Proof. unfold record_operation_inputs. same. Qed.

Lemma keep_recovery_cookie_same id o c : tx_rel same_deploys (keep_recovery_cookie id o c).
Proof. unfold keep_recovery_cookie. same. Qed.

Lemma record_resource_status_same o app env id descriptor s e :
  tx_rel same_deploys (record_resource_status org o app env id descriptor s e).
Proof. unfold record_resource_status, upsert_run. same. Qed.

Lemma mark_restored_same : tx_rel same_deploys mark_restored.
Proof. unfold mark_restored, mark_resource, insert_operation. same. Qed.

#[local] Hint Extern 1 (keeps_deploys _ _) =>
  first [apply deploys_same; reflexivity | apply keeps_snapshot | apply keeps_update_envs; [done|simpl; lia]] : tx.
#[local] Hint Extern 1 (tx_rel keeps_deploys _) =>
  apply same_deploys_keeps; first [apply begin_operation_same | apply bury_same | apply interrupt_same
    | apply record_operation_inputs_same | apply keep_recovery_cookie_same | apply record_resource_status_same
    | apply mark_restored_same] : tx.

Lemma begin_operation_deploys start : tx_rel keeps_deploys (begin_operation org start).
Proof. auto with tx. Qed.
Lemma record_operation_inputs_deploys id v : tx_rel keeps_deploys (record_operation_inputs id v).
Proof. auto with tx. Qed.
Lemma keep_recovery_cookie_deploys id o c : tx_rel keeps_deploys (keep_recovery_cookie id o c).
Proof. auto with tx. Qed.
Lemma record_resource_status_deploys o app env id descriptor s e :
  tx_rel keeps_deploys (record_resource_status org o app env id descriptor s e).
Proof. auto with tx. Qed.

Lemma mark_restored_deploys : tx_rel keeps_deploys mark_restored.
Proof. auto with tx. Qed.

Lemma checkpoint_in_tx_deploys id r : tx_rel keeps_deploys (checkpoint_in_tx id r).
Proof. unfold checkpoint_in_tx, apply_result, pin_deployment. tx_steps; auto with tx. Qed.
#[local] Hint Resolve checkpoint_in_tx_deploys : tx.

Lemma resolve_operation_deploys id r audit : tx_rel keeps_deploys (resolve_operation id r audit).
Proof. unfold resolve_operation, apply_resolution, restore_status. tx_steps; auto with tx. Qed.

Lemma schedule_deletion_deploys o app env descriptor audit :
  tx_rel keeps_deploys (schedule_deletion org o app env descriptor audit).
Proof. unfold schedule_deletion. tx_steps; auto with tx. Qed.

Lemma recover_interrupted_deploys : tx_rel keeps_deploys (recover_interrupted org).
Proof.
  unfold recover_interrupted, interrupt_cleanup, interrupt_unstarted, interrupt_uncertain. tx_steps; auto with tx.
Qed.
End methods.

(** ** Using permits *)

(** A permit that authorizes the use [u]. *)
Record authorizes (u : PermitUse) (env_type : string) (generation now : Z) (d : Db) (r : PermitRow) : Prop := {
  az_candidate : r ∈ candidates u d;
  az_accepted : refusal u generation now r = None;
  az_issuer : may_issue (view d) (protected_type d env_type) (pu_app u) env_type (pu_action u) (pm_issuer r);
}.

Lemma try_permits_Ok u t g now refused rows d n up c' :
  identity_ok d → try_permits u t g now refused rows (mk_Conn d n) = Ok (up, c') →
  ∃ r, r ∈ rows ∧ refusal u g now r = None
    ∧ may_issue (view d) (protected_type d t) (pu_app u) t (pu_action u) (pm_issuer r)
    ∧ c_db c' = upd_permits (update (λ x, String.eqb (pm_id x) (pm_id r)) (use_permit_row now)) d
    ∧ up = mk_UsedPermit (pm_issued_entry r) (is_none (pm_used_at r)).
Proof.
  intros Hok. revert refused n. induction rows as [|r rows IH]; intros refused n Hx; [done|]. simpl in Hx.
  destruct (refusal u g now r) eqn:Er.
  { apply IH in Hx as (r' & Hr & ?). exists r'. split; [by right|done]. }
  inv_tx Hx. destruct a as [e|].
  - settle H. apply IH in Hx as (r' & Hr & ?). exists r'. split; [by right|done].
  - apply issuer_lost_Ok in H as [Hd Hi]; [|done]. inv_tx Hx. exists r.
    split_and!; [left|done..].
Qed.

Lemma consume_permit_Ok `{System} u d n up c' :
  identity_ok d → consume_permit u (mk_Conn d n) = Ok (up, c') →
  ∃ e now r, select_one (is_env (pu_app u) (pu_env u)) (db_envs d) = Some e
    ∧ (is_some (pu_deployment u) = true ∨ pu_action u = "detach")
    ∧ authorizes u (en_type e) (en_generation e) now d r
    ∧ c_db c' = upd_permits (update (λ x, String.eqb (pm_id x) (pm_id r)) (use_permit_row now)) d
    ∧ up = mk_UsedPermit (pm_issued_entry r) (is_none (pm_used_at r)).
Proof.
  intros Hok Hx. unfold consume_permit, env_type_of, env_generation in Hx. inv_tx Hx.
  destruct (select_one _ (db_envs d)) as [e|]; simplify_eq/=.
  apply try_permits_Ok in Hx as (r & Hin & Href & Hi & Hd & ->); [|done].
  exists e, (clock n), r. split_and!; try done.
  apply orb_true_iff in Hc as [?|?%String.eqb_eq]; auto.
Qed.

Lemma candidate_row u d r : r ∈ candidates u d → r ∈ db_permits d ∧ permit_covers u r = true
  ∧ match pu_deployment u with
    | Some x => pm_bound_to r = Some x
    | None => pm_id r ∈ pu_presented u
    end.
Proof.
  unfold candidates. destruct (pu_deployment u) as [x|].
  - rewrite sort_by_key_perm. intros [Hr [Hc Hb]%andb_true_iff]%elem_of_select. split_and!; try done.
    destruct (pm_bound_to r); [|done]. simpl in Hb. by apply String.eqb_eq in Hb as ->.
  - intros (i & Hi & Hs)%elem_of_filter_map. apply select_one_Some in Hs as [Hr [Hc ->%String.eqb_eq]%andb_true_iff].
    done.
Qed.

(** A use leaves the invariant. *)
Lemma used_deploys u d r now :
  r ∈ candidates u d → (is_some (pu_deployment u) = true ∨ pu_action u = "detach") →
  keeps_deploys d (upd_permits (update (λ x, String.eqb (pm_id x) (pm_id r)) (use_permit_row now)) d).
Proof.
  intros (Hr & Hc & Hb)%candidate_row Hu Hd. apply keeps_use_permit; [|done].
  intros r' Hr' Hid. assert (r' = r) as -> by (eapply (row_of_key pm_id); [apply Hd|done..]).
  destruct (pu_deployment u) as [x|]; [left; by eexists|right].
  destruct Hu as [?|Ha]; [done|]. unfold permit_covers in Hc.
  apply andb_true_iff in Hc as [_ ->%String.eqb_eq]. done.
Qed.

Section more_methods.
Context `{System} (org : string).

Lemma consume_permit_store u : tx_rel keeps_store (consume_permit u).
Proof.
  intros [d n] a c' Hx [Hok Hdep].
  apply consume_permit_Ok in Hx as (e & now & r & _ & Hu & Ha & -> & _); [|done].
  split; [done|]. by apply (used_deploys u d r now); [apply Ha| |].
Qed.
#[local] Hint Resolve consume_permit_store : tx.

Lemma use_permit_store u : tx_rel keeps_store (use_permit org u).
Proof. unfold use_permit. tx_steps; apply audit_store. Qed.

Lemma detach_resource_store o app env detach audit : tx_rel keeps_store (detach_resource org o app env detach audit).
Proof.
  unfold detach_resource, detach_permit. tx_steps; try apply audit_store.
  - apply tx_keeps_both; [by apply bury_allowed; apply _|apply same_deploys_keeps, bury_same].
  - apply keeps_both; [by apply keeps_ok_update_envs|]. apply keeps_update_envs; [done|]. simpl. lia.
Qed.

Lemma issue_permits_deploys o app env p l audit : tx_rel keeps_deploys (issue_permits org o app env p l audit).
Proof.
  unfold issue_permits, insert_permit. tx_steps; [by apply deploys_same|]. by apply keeps_insert_permit.
Qed.
End more_methods.
