(* ===== verification/Lifecycle.v ===== *)
(** * The life of deployments, permits and environments

    Along any sequence of operations of the store: the invariant of deployments and permits, what
    an acceptance needs and does, what a permit authorizes and whom it needs, that what is
    finished or bound stays so, and that an environment goes only with everything it owns. *)

From Stdlib Require Import Ascii.
From stdpp Require Import base sets strings list.
From S2P Require Import Prelude Strings OrdMap Json Sets Db DbLogic Identity Rbac Apps Permits Deployments Resources IdentityInv IdentityRoles DeployInv Access Operations DeployProofs.

Local Open Scope string_scope.
Local Open Scope Z_scope.
Local Open Scope list_scope.

Section lifecycle.
Context `{System} (org : string) (digest : string → string).

Abbreviation exec := (exec org digest).
Abbreviation run := (run org digest).
Abbreviation run_all := (run_all org digest).

(** ** The invariant *)

#[local] Hint Extern 1 (keeps_deploys _ _) =>
  first [apply deploys_same; reflexivity | by apply keeps_update_envs | by apply keeps_insert_env] : tx.

Lemma accept_app_deletion_store req : tx_rel keeps_store (accept_app_deletion org req).
Proof.
  intros [d n] a c' Hx [Hok Hd]. split; [by eapply accept_app_deletion_step in Hx as [[? _] _]|].
  unfold accept_app_deletion in Hx. inv_tx Hx. settle H0. apply check_envs_reads in H1.
  destruct c as [d1 n1]. simpl in *. subst d1.
  assert (tx_rel keeps_store (fold_each (delete_env_of req) []
    (sort_by_key env_order (select (λ e, String.eqb (en_app e) (ad_app req)) (db_envs d))))) as Hf.
  { apply tx_rel_fold_each; [apply _|]. intros ? ?. apply delete_env_of_store. }
  apply Hf in H2. destruct H2 as [_ Hd1]; [by split; [apply keeps_ok_update_apps|]|].
  destruct (sort_by_key env_order _); [|inv_tx H3]; [|exact Hd1].
  by apply (same_deploys_keeps _ (remove_app_same _) _ _ _ H3).
Qed.

#[local] Hint Resolve issue_permits_deploys finish_deployment_deploys begin_operation_deploys
  checkpoint_in_tx_deploys record_operation_inputs_deploys keep_recovery_cookie_deploys
  resolve_operation_deploys record_resource_status_deploys schedule_deletion_deploys
  recover_interrupted_deploys mark_restored_deploys : tx.
#[local] Hint Extern 1 (tx_rel keeps_deploys (append_logs _ _ _ _ _ _)) =>
  apply same_deploys_keeps, append_logs_same : tx.

(** The methods that keep the invariant of deployments by themselves. *)
Lemma exec_deploys op :
  match op with
  | OpAcceptDeployment _ | OpAcceptAppDeletion _ | OpUsePermit _ | OpDetach _ _ _ _ _ => False
  | _ => True
  end →
  tx_rel keeps_deploys (exec op).
Proof.
  intros Hop. destruct op; try done; clear Hop; simpl; unfold drop, create_principal, create_bootstrap_admin,
    set_org_role, update_principal, remove_principal, set_identity, create_token, revoke_token,
    authenticate_token, record_session, revoke_session, signing_key, create_invitation,
    accept_invitation, set_app_role, remove_app_role, set_env_type_role, remove_env_type_role,
    record_audit, create_env_type, update_env_type, delete_env_type, create_app, update_app,
    create_env, update_env, put_set, put_set_audited, write_delta, insert_principal,
    set_org_role_column, set_name_column, insert_identity, upsert_app_role,
    insert_env_type_role, ensure_env_type, insert_env, insert_set, insert_token, delete_principal,
    put_plan, record_approval_request, checkpoint_operation; tx_steps; auto with tx.
Qed.

Lemma exec_store op : tx_rel keeps_store (exec op).
Proof.
  destruct op; try (apply tx_keeps_both; [apply exec_keeps|by apply exec_deploys]);
    apply drop_rel; try apply _.
  - apply use_permit_store.
  - apply accept_deployment_store.
  - apply accept_app_deletion_store.
  - apply detach_resource_store.
Qed.

Lemma run_store op c : store_ok (c_db c) → store_ok (c_db (run op c)).
Proof.
  intros Hok. unfold Operations.run. destruct (exec op c) as [[u c']|e] eqn:E; [|done].
  by apply (exec_store op _ _ _ E).
Qed.

Lemma run_all_store ops c : store_ok (c_db c) → store_ok (c_db (run_all ops c)).
Proof. revert c. induction ops as [|op ops IH]; intros c Hok; [done|]. by apply IH, run_store. Qed.

(** C7: the order of deployments. Any sequence of operations keeps this, from the empty
    database or any other state where it holds: an environment has at most one running deployment or deletion, its
    attempts are ordered and each has a higher generation than those before it, none above
    the environment's; and a permit that is bound to a deployment was issued at exactly the
    generation that the deployment replaced. The tables keep their integrity too. *)
Theorem deployments_in_order (ops : list StoreOp) (c : Conn) :
  store_ok (c_db c) → store_ok (c_db (run_all ops c)).
Proof. apply run_all_store. Qed.

(** ** Acceptance *)

Lemma acceptance_key req d n a c' key :
  dq_idempotency_key req = Some key → identity_ok d →
  accept_in_tx req (mk_Conn d n) = Ok (a, c') →
  match a with
  | Created _ => accept_new req (mk_Conn d n) = Ok (a, c')
      ∧ ∀ r, r ∈ db_deployments d → in_env (dq_app req) (dq_env req) r && has_key (dq_actor req) key r = false
  | Replayed r => c_db c' = d ∧ ∃ row, row ∈ db_deployments d ∧ deployment_env row = (dq_app req, dq_env req)
      ∧ has_key (dq_actor req) key row = true ∧ dp_fingerprint row = Some (dq_fingerprint req)
      ∧ dp_id row = dl_id r
  end.
Proof.
  intros Hk Hok Hx. unfold accept_in_tx in Hx. rewrite Hk in Hx. unfold prior_deployment in Hx. inv_tx Hx.
  destruct (select_one _ _) as [row|] eqn:Es; simpl in Hx.
  - inv_tx Hx. apply require_deployment_Ok in H0 as [-> (row' & Hs & Hr)]. split; [done|].
    apply select_one_Some in Es as [Hin [He Hh]%andb_true_iff]. exists row.
    split_and!; [done|by apply in_env_spec|done|by apply eq_opt_true|].
    apply into_record_Ok in Hr as [-> _]. apply select_one_Some in Hs as [_ Hid%is_deployment_spec]. unfold deployment_key in Hid. congruence.
  - pose proof Hx as Hx'. apply accept_new_Ok in Hx' as (e & f & r & row & _ & -> & _); [|done].
    split; [done|]. by apply select_one_None.
Qed.

(** A new deployment was acceptable and was created. *)
Lemma accept_created req d n r c' :
  identity_ok d → accept_deployment org req (mk_Conn d n) = Ok (Created r, c') →
  ∃ e f row, acceptable req d e ∧ deployment_into_record row = Ok r
    ∧ creates req (en_generation e) (upd_deltas f d) (c_db c') row.
Proof.
  intros Hok Hx. unfold accept_deployment in Hx. inv_tx Hx.
  assert (accept_new req (mk_Conn d n) = Ok (Created r, c')) as Hnew.
  { destruct (dq_idempotency_key req) as [key|] eqn:Ek.
    - exact (proj1 (acceptance_key _ _ _ _ _ _ Ek Hok Hx)).
    - unfold accept_in_tx in Hx. by rewrite Ek in Hx. }
  apply accept_new_Ok in Hnew as (e & f & r' & row & He & [= <-] & Hrec & Hcr); [|done]. eauto 10.
Qed.

(** C2: what acceptance needs and does. A new deployment is created only when the request is
    acceptable ([acceptable]: authority, state, generation, nothing running, nothing in
    doubt, the prepared set and delta); it is added as running with the next generation,
    which becomes the environment's; every permit presented was valid and its issuer still
    has the authority, every destructive action known beforehand has one, and they are bound
    to this deployment. A replay changes nothing and returns the earlier deployment of the
    same request. *)
Theorem acceptance_spec (req : DeploymentRequest) (d : Db) (n : nat) (a : Acceptance) (c' : Conn) :
  store_ok d → accept_deployment org req (mk_Conn d n) = Ok (a, c') →
  match a with
  | Created r => ∃ e f d1 now row,
      acceptable req d e
      ∧ deployment_into_record row = Ok r ∧ db_deployments (c_db c') = db_deployments d ++ [row]
      ∧ dl_status r = InProgress ∧ dl_generation r = dq_expected_generation req + 1
      ∧ (∃ e', e' ∈ db_envs (c_db c') ∧ env_key e' = env_key e ∧ en_generation e' = dl_generation r)
      ∧ bound_to (dq_app req) (dq_env req) (dq_expected_generation req) (dl_id r) (dq_permits req)
          (upd_deltas f d) d1 now
      ∧ db_permits (c_db c') = db_permits d1
  | Replayed r => c_db c' = d ∧ ∃ key row, dq_idempotency_key req = Some key ∧ row ∈ db_deployments d
      ∧ deployment_env row = (dq_app req, dq_env req) ∧ has_key (dq_actor req) key row = true
      ∧ dp_fingerprint row = Some (dq_fingerprint req) ∧ dp_id row = dl_id r
  end.
Proof.
  intros [Hok Hd] Hx. destruct a as [r|r].
  - apply accept_created in Hx as (e & f & row & He & Hrec & Hcr); [|done].
    pose proof (ac_generation _ _ _ He) as Hg. pose proof (created_envs _ _ (upd_deltas f d) _ _ e Hd Hcr (ac_env _ _ _ He) eq_refl) as Hen.
    pose proof (created_deployments _ _ _ _ _ Hcr) as Hds. pose proof (created_env _ _ _ _ _ Hcr) as (Hkey & Hrun & Hgen & _).
    destruct Hcr as (d1 & now & cr & Hb & Hrow & _ & _ & f' & s' & Hc').
    exists e, f, d1, now, row. pose proof (ac_env _ _ _ He) as Hsel.
    apply select_one_Some in Hsel as [Hin Hke%is_env_spec].
    assert (dl_status r = InProgress ∧ dl_generation r = dp_generation row ∧ dl_id r = dp_id row) as (? & Hgr & Hid).
    { apply into_record_Ok in Hrec as (-> & -> & Hs). rewrite Hrow in Hs. simpl in Hs.
      split_and!; [by injection Hs|done|done]. }
    destruct (Hen e Hin) as (e' & He' & Hk' & _ & Hg'). rewrite <- Hg, Hid, Hgr.
    split_and!; try done; [|by rewrite Hc'].
    exists e'. split_and!; [done|done|]. rewrite Hg', Hgen by congruence. done.
  - unfold accept_deployment in Hx. inv_tx Hx. destruct (dq_idempotency_key req) as [key|] eqn:Ek.
    + destruct (acceptance_key _ _ _ _ _ _ Ek Hok Hx) as [? (row & ?)]. split; [done|]. by exists key, row.
    + unfold accept_in_tx in Hx. rewrite Ek in Hx. by apply accept_new_Ok in Hx as (? & ? & ? & ? & _ & ? & _).
Qed.

(** ** Retries *)

Lemma require_deployment_total d n row :
  deploy_ok d → row ∈ db_deployments d →
  ∃ r, deployment_into_record row = Ok r
    ∧ require_deployment (dp_app row) (dp_env row) (dp_id row) (mk_Conn d n) = Ok (r, mk_Conn d n).
Proof.
  intros Hd Hr. destruct (dk_record _ _ _ Hd row Hr) as [r Hrec]. exists r. split; [done|].
  unfold require_deployment, fetch_deployment, bind, query. simpl.
  rewrite (select_key deployment_key _ _ row); [|apply Hd| |done|by apply is_deployment_spec].
  - unfold lift. by rewrite Hrec.
  - intros x y Hx%is_deployment_spec Hy%is_deployment_spec. congruence.
Qed.

(** retries. For as long as a deployment is recorded, whatever its status, a request with
    its idempotency key by the same actor for the same environment changes nothing: with the
    same fingerprint it returns the deployment as it is now, with another it is refused. *)
Theorem retry_is_replayed (req : DeploymentRequest) (key : string) (row : DeploymentRow) (d : Db) (n : nat) :
  store_ok d → row ∈ db_deployments d → deployment_env row = (dq_app req, dq_env req) →
  dp_actor row = dq_actor req → dp_idempotency_key row = Some key →
  dq_org req = org → dq_idempotency_key req = Some key →
  if eq_opt (dp_fingerprint row) (Some (dq_fingerprint req))
  then ∃ r, deployment_into_record row = Ok r
    ∧ accept_deployment org req (mk_Conn d n) = Ok (Replayed r, mk_Conn d n)
  else accept_deployment org req (mk_Conn d n) = Err (IdempotencyMismatch key).
Proof.
  intros [Hok Hd] Hr He Ha Hk Ho Hq.
  assert (has_key (dq_actor req) key row = true) as Hkey.
  { unfold has_key. rewrite Ha, Hk. simpl. by rewrite !String.eqb_refl. }
  assert (select_one (λ r, in_env (dq_app req) (dq_env req) r && has_key (dq_actor req) key r)
    (db_deployments d) = Some row) as Hs.
  { destruct (select_one _ _) as [r|] eqn:E.
    - apply select_one_Some in E as [Hin [Hen%in_env_spec Hkr]%andb_true_iff]. f_equal.
      apply (dk_idempotent _ _ _ Hd r row key); [done|done|congruence| |]; by rewrite Ha.
    - apply (proj1 (select_one_None _ _) E) in Hr. apply in_env_spec in He. by rewrite He, Hkey in Hr. }
  destruct (require_deployment_total d n row Hd Hr) as (r & Hrec & Hreq).
  injection He as Happ Henv. rewrite Happ, Henv in Hreq.
  assert (accept_deployment org req (mk_Conn d n) =
    (check (eq_opt (dp_fingerprint row) (Some (dq_fingerprint req))) (IdempotencyMismatch key);;
     let* d := require_deployment (dq_app req) (dq_env req) (dp_id row) in ret (Replayed d)) (mk_Conn d n)) as ->.
  { unfold accept_deployment, check_org, accept_in_tx, prior_deployment, bind at 1. rewrite Ho, String.eqb_refl.
    simpl. rewrite Hq. unfold bind at 1, query. simpl. by rewrite Hs. }
  unfold bind, check. destruct (eq_opt _ _); [|done]. exists r. split; [done|]. simpl. by rewrite Hreq.
Qed.

(** ** Permits *)

Lemma refusal_None u g now r :
  refusal u g now r = None →
  (pm_guresid r = None ∨ pm_guresid r = pu_guresid u)
  ∧ (pm_plan_fingerprint r = None ∨ pm_plan_fingerprint r = pu_fingerprint u)
  ∧ (pu_deployment u = None → pm_bound_to r = None ∧ now < pm_expires_at r ∧ pm_base_generation r = g).
Proof.
  unfold refusal. destruct (is_some (pm_guresid r) && _) eqn:Eg; [done|].
  destruct (is_some (pm_plan_fingerprint r) && _) eqn:Ef; [done|]. intros Hr. split_and!.
  - destruct (pm_guresid r); [|by left]. right. apply eq_opt_true. by apply negb_false_iff in Eg.
  - destruct (pm_plan_fingerprint r); [|by left]. right. apply eq_opt_true. by apply negb_false_iff in Ef.
  - intros Hn. rewrite Hn in Hr. simpl in Hr. destruct (pm_bound_to r); [done|]. simpl in Hr.
    destruct (Z.leb_spec (pm_expires_at r) now); [done|].
    destruct (Z.eqb_spec (pm_base_generation r) g); [done|]. done.
Qed.

(** C6: what a permit authorizes. A destructive action of a deployment goes ahead only with a
    permit for that action on that resource (its identity, and its driver plan when the
    permit names one), bound to that deployment when it was accepted at the generation the
    permit was issued at, and whose issuer has, at this moment, the authority to issue it:
    deploying there, and in a protected environment type being an administrator, with no
    permit for a change of unknown impact. A refused use leaves every permit as it was and
    reports that approval is required. *)
Theorem permit_use_authorized (u : PermitUse) (d : Db) (n : nat) (res : result unit StoreError) (c' : Conn) :
  store_ok d → use_permit org u (mk_Conn d n) = Ok (res, c') →
  match res with
  | Ok _ => ∃ dep e p, pu_deployment u = Some dep
      ∧ select_one (is_env (pu_app u) (pu_env u)) (db_envs d) = Some e
      ∧ p ∈ db_permits d ∧ pm_bound_to p = Some dep
      ∧ (pm_descriptor p, pm_action p) = (pu_descriptor u, pu_action u)
      ∧ (pm_guresid p = None ∨ pm_guresid p = pu_guresid u)
      ∧ (pm_plan_fingerprint p = None ∨ pm_plan_fingerprint p = pu_fingerprint u)
      ∧ may_issue (view d) (protected_type d (en_type e)) (pu_app u) (en_type e) (pu_action u) (pm_issuer p)
      ∧ (pu_action u ≠ "detach" → ∃ r, r ∈ db_deployments d
           ∧ deployment_key r = (pu_app u, pu_env u, dep) ∧ dp_generation r = pm_base_generation p + 1)
  | Err x => (∃ why, x = ApprovalRequired why) ∧ db_permits (c_db c') = db_permits d
  end.
Proof.
  intros [Hok Hd] Hx. unfold use_permit in Hx. inv_tx Hx.
  apply attempt_Ok in H0 as [(up & c1 & Hu & [= -> ->])|(e & Hu & [= -> ->])].
  - assert (res = Ok tt) as ->.
    { destruct a0 as [acc intent]. destruct (up_first up); inv_tx Hx; done. }
    apply consume_permit_Ok in Hu as (e & now & p & He & _ & [Hcand Href Hi] & _); [|done].
    apply candidate_row in Hcand as (Hp & Hcov & Hb). rewrite Hr in Hb. apply refusal_None in Href as (Hg & Hf & _).
    unfold permit_covers in Hcov. rewrite !andb_true_iff, !String.eqb_eq in Hcov.
    destruct Hcov as [[[Ha Hv] Hdesc] Hact]. exists v, e, p. split_and!; try done; [by rewrite Hdesc, Hact|].
    intros Hna. apply (dk_bound _ _ _ Hd p (pu_app u, pu_env u, v) Hp). unfold bound_deployment.
    rewrite Hact, (proj2 (String.eqb_neq _ _) Hna), Hb, Ha, Hv. done.
  - destruct a0 as [acc intent]. apply acceptance_intent_reads in H1. destruct e; try discriminate Hx.
    destruct c0 as [d0 n0]. simpl in H1. subst d0. inv_tx Hx. split; [by eexists|done].
Qed.
End lifecycle.
