(* ===== verification/History.v ===== *)
(** * What never changes, and what is accepted

    Finished deployments do not change, a bound permit stays bound to what it is bound to, and
    the generation of an environment does not go down; and rows only disappear with the
    environment they belong to, whose deletion leaves nothing it owns. At the end, the converse of
    the acceptance conditions. *)

From Stdlib Require Import Ascii.
From stdpp Require Import base sets strings list.
From S2P Require Import Prelude Strings OrdMap Json Sets Db DbLogic Identity Rbac Apps Permits Deployments Resources IdentityInv IdentityRoles DeployInv Access Operations DeployProofs Lifecycle.

Local Open Scope string_scope.
Local Open Scope Z_scope.
Local Open Scope list_scope.

(** ** Later versions of a row *)

(** Two snapshots that differ at most in the versions that drivers ran ([pins]). *)
Definition same_but_pins (v v' : Value) : Prop :=
  ∀ k, k ≠ "pins" → (m ← as_object v'; im_get k m) = (m ← as_object v; im_get k m).

(** A deployment changes once, when it finishes, apart from the pins in its snapshot. *)
Definition deployment_le (r r' : DeploymentRow) : Prop :=
  same_but_pins (dp_snapshot r) (dp_snapshot r')
  ∧ (r' = set_snapshot (dp_snapshot r') r
     ∨ (is_running r = true ∧ ∃ status error now, (status = "failed" ∨ status = "succeeded")
        ∧ r' = set_snapshot (dp_snapshot r') (finish_deployment_row status error now r))).

(** A permit is bound once. *)
Definition permit_le (p p' : PermitRow) : Prop :=
  pm_id p' = pm_id p ∧ pm_app p' = pm_app p ∧ pm_env p' = pm_env p
  ∧ pm_descriptor p' = pm_descriptor p ∧ pm_action p' = pm_action p ∧ pm_guresid p' = pm_guresid p
  ∧ pm_plan_fingerprint p' = pm_plan_fingerprint p ∧ pm_base_generation p' = pm_base_generation p
  ∧ pm_config_digest p' = pm_config_digest p ∧ pm_issuer p' = pm_issuer p
  ∧ pm_expires_at p' = pm_expires_at p
  ∧ (is_Some (pm_bound_to p) → pm_bound_to p' = pm_bound_to p).

Definition env_le (e e' : EnvRow) : Prop :=
  env_key e' = env_key e ∧ en_type e' = en_type e ∧ en_generation e ≤ en_generation e'.

#[export] Instance same_but_pins_PreOrder : PreOrder same_but_pins.
Proof. split; [by intros v k|]. intros u v w Huv Hvw k Hk. by rewrite (Hvw k Hk), (Huv k Hk). Qed.

Lemma set_pin_same `{System} descriptor pin v v' : set_pin descriptor pin v = Ok v' → same_but_pins v v'.
Proof.
  unfold set_pin. destruct v as [| | | | |o]; try by intros [= <-].
  assert (∀ x, same_but_pins (Obj o) (Obj (im_insert "pins" x o))) as Hp.
  { intros x k Hk. simpl. rewrite im_get_insert. apply String.eqb_neq in Hk. by rewrite Hk. }
  intros Hx. destruct (im_get "pins" o) as [[| | | | |]|]; simplify_eq/=; try apply Hp.
  all: destruct (scalar_pins _); simplify_eq/=; apply Hp.
Qed.

#[export] Instance deployment_le_PreOrder : PreOrder deployment_le.
Proof.
  split.
  - intros r. split; [done|]. left. by destruct r.
  - intros r s t [Hrs Hr] [Hst Hs]. split; [by etrans|]. destruct Hr as [Er|(Hr & st & er & now & Hx & Er)].
    + destruct Hs as [Es|(Hs & st & er & now & Hx & Es)].
      * left. rewrite Es, Er. done.
      * right. rewrite Er in Hs. split; [done|]. exists st, er, now. split; [done|]. by rewrite Es, Er.
    + right. split; [done|]. exists st, er, now. split; [done|].
      destruct Hs as [Es|(Hs & _)]; [by rewrite Es, Er|].
      rewrite Er in Hs. unfold is_running in Hs. simpl in Hs. by destruct Hx as [-> | ->].
Qed.

Lemma deployment_le_key r r' : deployment_le r r' → deployment_key r' = deployment_key r.
Proof. by intros [_ [->|(_ & st & er & now & _ & ->)]]. Qed.

#[export] Instance permit_le_PreOrder : PreOrder permit_le.
Proof.
  split; [by intros p; split_and!|]. unfold permit_le. intros p q r Hpq Hqr.
  destruct Hpq as (? & ? & ? & ? & ? & ? & ? & ? & ? & ? & ? & Hb).
  destruct Hqr as (? & ? & ? & ? & ? & ? & ? & ? & ? & ? & ? & Hb'). split_and!; try congruence.
  intros Hs. rewrite Hb'; [by apply Hb|]. by rewrite Hb.
Qed.

#[export] Instance env_le_PreOrder : PreOrder env_le.
Proof.
  split; [by intros e; split_and!|]. intros e f g (? & ? & ?) (? & ? & ?). split_and!; [congruence..|lia].
Qed.

(** Every row of [t] has a version in [t'], and the converse. *)
Definition kept {A} (le : relation A) (t t' : list A) : Prop := ∀ x, x ∈ t → ∃ y, y ∈ t' ∧ le x y.
Definition derived {A} (le : relation A) (t t' : list A) : Prop := ∀ y, y ∈ t' → ∃ x, x ∈ t ∧ le x y.

Section versions.
Context {A B : Type} (key : A → B) (le : relation A) `{!PreOrder le}.

#[export] Instance kept_PreOrder : PreOrder (kept le).
Proof.
  split; [by intros t x Hx; exists x|]. intros t u v Htu Huv x Hx.
  destruct (Htu x Hx) as (y & Hy & Hxy), (Huv y Hy) as (z & Hz & Hyz). exists z. split; [done|by etrans].
Qed.

#[export] Instance derived_PreOrder : PreOrder (derived le).
Proof.
  split; [by intros t x Hx; exists x|]. intros t u v Htu Huv z Hz.
  destruct (Huv z Hz) as (y & Hy & Hyz), (Htu y Hy) as (x & Hx & Hxy). exists x. split; [done|by etrans].
Qed.

Lemma kept_insert t x : kept le t (t ++ [x]).
Proof. intros y Hy. exists y. split; [by apply elem_of_app; left|done]. Qed.

Lemma kept_update t p f : (∀ x, x ∈ t → p x = true → le x (f x)) → kept le t (update p f t).
Proof.
  intros Hf x Hx. exists (if p x then f x else x). split; [apply elem_of_update; eauto|].
  destruct (p x) eqn:E; [by apply Hf|done].
Qed.

Lemma derived_update t p f : (∀ x, x ∈ t → p x = true → le x (f x)) → derived le t (update p f t).
Proof.
  intros Hf y (x & Hx & ->)%elem_of_update. exists x. split; [done|].
  destruct (p x) eqn:E; [by apply Hf|done].
Qed.

Lemma derived_delete t p : derived le t (delete_rows p t).
Proof. intros y [Hy _]%elem_of_delete. by exists y. Qed.

(** With a key, the version is the row of that key. *)
Lemma kept_version t t' x y :
  (∀ x y, le x y → key y = key x) → NoDup (key <$> t') → kept le t t' →
  x ∈ t → y ∈ t' → key x = key y → le x y.
Proof.
  intros Hk Hn Hkept Hx Hy He. destruct (Hkept x Hx) as (y' & Hy' & Hle).
  assert (y' = y) as ->; [|done]. apply (row_of_key key t'); [done..|]. rewrite (Hk x y'); done.
Qed.

Lemma derived_version t t' x y :
  (∀ x y, le x y → key y = key x) → NoDup (key <$> t) → derived le t t' →
  x ∈ t → y ∈ t' → key x = key y → le x y.
Proof.
  intros Hk Hn Hd Hx Hy He. destruct (Hd y Hy) as (x' & Hx' & Hle).
  assert (x' = x) as ->; [|done]. apply (row_of_key key t); [done..|]. rewrite <- (Hk x' y); done.
Qed.
End versions.

(** ** The tables *)

Record grows (d d' : Db) : Prop := {
  gr_envs : kept env_le (db_envs d) (db_envs d');
  gr_deployments : kept deployment_le (db_deployments d) (db_deployments d');
  gr_permits : kept permit_le (db_permits d) (db_permits d');
}.

Record derives (d d' : Db) : Prop := {
  de_envs : derived env_le (db_envs d) (db_envs d');
  de_deployments : derived deployment_le (db_deployments d) (db_deployments d');
  de_permits : derived permit_le (db_permits d) (db_permits d');
}.

#[export] Instance grows_PreOrder : PreOrder grows.
Proof. split; [by intros d; constructor|]. intros d e f [] []. constructor; by etrans. Qed.
#[export] Instance derives_PreOrder : PreOrder derives.
Proof. split; [by intros d; constructor|]. intros d e f [] []. constructor; by etrans. Qed.

Lemma grows_same d d' : same_deploys d d' → grows d d'.
Proof. intros (He & Hd & Hp). constructor; by rewrite ?He, ?Hd, ?Hp. Qed.
Lemma derives_same d d' : same_deploys d d' → derives d d'.
Proof. intros (He & Hd & Hp). constructor; by rewrite ?He, ?Hd, ?Hp. Qed.

Lemma grows_insert_env d row : grows d (upd_envs (λ t, t ++ [row]) d).
Proof. constructor; simpl; try done. by apply kept_insert; apply _. Qed.

Lemma grows_insert_permit d row : grows d (upd_permits (λ t, t ++ [row]) d).
Proof. constructor; simpl; try done. by apply kept_insert; apply _. Qed.

Lemma grows_update_envs d p f : (∀ e, env_le e (f e)) → grows d (upd_envs (update p f) d).
Proof. intros Hf. constructor; simpl; try done. apply kept_update; [apply _|]. intros; apply Hf. Qed.

Lemma use_permit_le now p : permit_le p (use_permit_row now p).
Proof. split_and!; try done. simpl. by intros [x ->]. Qed.

Lemma grows_use_permit d p now : grows d (upd_permits (update p (use_permit_row now)) d).
Proof.
  constructor; simpl; try done. apply kept_update; [apply _|]. intros x _ _. apply use_permit_le.
Qed.

(** A new deployment. *)
Lemma creates_grows req d f d' row e :
  deploy_ok d → acceptable req d e → creates req (en_generation e) (upd_deltas f d) d' row → grows d d'.
Proof.
  intros Hd He Hc. constructor.
  - intros x Hx. pose proof (created_envs _ _ (upd_deltas f d) _ _ e Hd Hc (ac_env _ _ _ He) eq_refl x Hx)
      as (y & Hy & Hk & Hg & _). exists y. split; [done|]. split_and!; [done| |done].
    destruct Hc as (d1 & now & cr & Hb & _ & _ & _ & g & s & ->). simpl in Hy.
    rewrite (bt_update _ _ _ _ _ _ _ _ Hb) in Hy. simpl in Hy. apply elem_of_update in Hy as (x' & Hx' & Hy).
    assert (env_key x' = env_key y) as E by (rewrite Hy; by destruct (is_env _ _ x')).
    assert (x' = x) as -> by (apply (row_of_key env_key (db_envs d)); [apply Hd|done|done|congruence]).
    rewrite Hy. by destruct (is_env _ _ x).
  - rewrite (created_deployments _ _ _ _ _ Hc). by apply kept_insert; apply _.
  - destruct Hc as (d1 & now & cr & Hb & _ & _ & _ & g & s & ->). simpl.
    rewrite (bt_update _ _ _ _ _ _ _ _ Hb). simpl. intros p Hp.
    exists (bind_all (bs_of_list (pb_presented (dq_permits req))) (dp_id row) now p).
    split; [by apply list_elem_of_fmap_2|]. unfold bind_all. destruct (existsb _ _) eqn:Ex; [|done].
    apply existsb_true in Ex as (i & Hi & <-%String.eqb_eq). rewrite elem_of_bs_of_list in Hi.
    destruct (bt_valid _ _ _ _ _ _ _ _ Hb _ Hi) as (e' & r & _ & Hbd).
    assert (r = p) as ->.
    { apply (row_of_key pm_id (db_permits d)); [apply Hd|apply Hbd|done|]. eapply is_permit_id, Hbd. }
    split_and!; try done. rewrite (bd_unbound _ _ _ _ _ _ _ _ _ Hbd). by intros [? ?].
Qed.

(** ** Methods *)

Definition grows_store : relation Db := λ d d', store_ok d → store_ok d' ∧ grows d d'.

#[export] Instance grows_store_PreOrder : PreOrder grows_store.
Proof.
  split; [by intros d Hd|]. intros d1 d2 d3 H12 H23 Hd.
  destruct (H12 Hd) as [Hd2 ?], (H23 Hd2) as [? ?]. split; [done|by etrans].
Qed.

Lemma tx_grows_store {A} (m : tx A) : tx_rel keeps_store m → tx_rel grows m → tx_rel grows_store m.
Proof. intros Hk Hg c a c' Hx Hd. split; [by apply (Hk _ _ _ Hx)|by apply (Hg _ _ _ Hx)]. Qed.

Section methods.
Context `{System} (org : string) (digest : string → string).

Lemma accept_new_grows req : tx_rel grows_store (accept_new req).
Proof.
  intros [d n] a c' Hx Hd. split; [by apply (accept_new_store _ _ _ _ Hx)|].
  apply accept_new_Ok in Hx as (e & f & r & row & He & _ & _ & Hc); [|apply Hd].
  by eapply creates_grows; [apply Hd|done|done].
Qed.
#[local] Hint Resolve accept_new_grows : tx.

Lemma accept_in_tx_grows req : tx_rel grows_store (accept_in_tx req).
Proof. unfold accept_in_tx. tx_steps. Qed.
#[local] Hint Resolve accept_in_tx_grows : tx.

Lemma accept_deployment_grows req : tx_rel grows_store (accept_deployment org req).
Proof. unfold accept_deployment. tx_steps. Qed.

Lemma delete_env_of_grows req l e : tx_rel grows_store (delete_env_of req l e).
Proof. unfold delete_env_of. tx_steps. Qed.

Lemma accept_app_deletion_grows req : tx_rel grows_store (accept_app_deletion org req).
Proof.
  intros c a c' Hx Hd. split; [by apply (accept_app_deletion_store _ _ _ _ _ Hx)|]. revert Hx.
  destruct c as [d n]. intros Hx. unfold accept_app_deletion in Hx. inv_tx Hx. settle H0. apply check_envs_reads in H1.
  destruct c as [d1 n1]. simpl in *. subst d1.
  assert (tx_rel grows_store (fold_each (delete_env_of req) []
    (sort_by_key env_order (select (λ e, String.eqb (en_app e) (ad_app req)) (db_envs d))))) as Hf.
  { apply tx_rel_fold_each; [apply _|]. intros ? ?. apply delete_env_of_grows. }
  apply Hf in H2. destruct H2 as [_ Hg]; [destruct Hd; by split; [apply keeps_ok_update_apps|]|].
  assert (grows d (set_seq s (upd_audit_log f (c_db c1)))) as Hg'.
  { etrans; [|by etrans; [exact Hg|apply grows_same; split_and!]]. by apply grows_same. }
  destruct (sort_by_key env_order _); [|inv_tx H3]; [|exact Hg'].
  etrans; [exact Hg'|]. apply grows_same. by apply (remove_app_same _ _ _ _ H3).
Qed.

#[local] Hint Extern 1 (grows _ _) =>
  first [apply grows_insert_env | apply grows_insert_permit | apply grows_use_permit
    | apply grows_same; by split_and! | apply grows_update_envs; intros; by split_and!] : tx.

Lemma use_permit_grows u : tx_rel grows (use_permit org u).
Proof.
  assert (∀ t g now l rows, tx_rel grows (try_permits u t g now l rows)) as Ht.
  { intros. apply try_permits_rel; [apply _|]. intros. apply grows_use_permit. }
  unfold use_permit, consume_permit. tx_steps; auto with tx.
Qed.

Lemma append_logs_grows o app env id lines : tx_rel grows (append_logs org o app env id lines).
Proof. eapply tx_rel_impl; [apply grows_same|]. apply append_logs_same. Qed.
#[local] Hint Resolve use_permit_grows append_logs_grows : tx.


(** ** Finishing *)

Lemma finish_error_Ok app env kind error c e c' :
  finish_error app env kind error c = Ok (e, c') →
  c' = c ∧ (kind = DeleteEnv → e = None →
    error = None ∧ ∀ x, x ∈ db_active_resources (c_db c) → blocks_removal app env x = false).
Proof.
  intros Hx. unfold finish_error in Hx. destruct kind; [by inv_tx Hx|].
  destruct error as [er|]; inv_tx Hx; [done|]. split; [done|]. intros _ Hn. split; [done|].
  apply (none_selected (blocks_removal app env) rs_descriptor).
  destruct (rs_descriptor <$> _); [done|]. by simpl in Hn.
Qed.

#[local] Hint Extern 1 (derives _ _) =>
  first [apply derives_same; by split_and!] : tx.

Lemma derives_update_envs d p f : (∀ e, env_le e (f e)) → derives d (upd_envs (update p f) d).
Proof. intros Hf. constructor; simpl; try done. apply derived_update; [apply _|]. intros; apply Hf. Qed.

Lemma remove_env_derives app env : tx_rel derives (remove_env app env).
Proof.
  unfold remove_env. apply tx_rel_bind; [apply _| |intros _].
  - eapply tx_rel_impl; [apply derives_same|]. apply release_resources_same.
  - apply tx_rel_execute. intros d. constructor; simpl; apply derived_delete; apply _.
Qed.

Lemma remove_app_derives app : tx_rel derives (remove_app app).
Proof. eapply tx_rel_impl; [apply derives_same|]. apply remove_app_same. Qed.
#[local] Hint Resolve remove_env_derives remove_app_derives : tx.

Lemma finish_env_derives app env id kind s e : tx_rel derives (finish_env app env id kind s e).
Proof. unfold finish_env. tx_steps; apply derives_update_envs; intros x; by split_and!. Qed.

(** The row of the deployment that finishes. *)
Lemma finish_row_le d app env id row status error now :
  deploy_ok d → select_one (is_deployment app env id) (db_deployments d) = Some row → is_running row = true →
  status = "failed" ∨ status = "succeeded" →
  ∀ r, r ∈ db_deployments d → is_deployment app env id r = true →
  deployment_le r (finish_deployment_row status error now r).
Proof.
  intros Hd [Hrow Hk]%select_one_Some Hrun Hst r Hr Hkr.
  assert (r = row) as ->.
  { apply (row_of_key deployment_key (db_deployments d)); [apply Hd|done..|].
    apply is_deployment_spec in Hk, Hkr. congruence. }
  split; [done|]. right. split; [done|]. exists status, error, now. split; [done|]. by destruct row.
Qed.

Lemma finish_deployment_derives o app env id error d n u c' :
  deploy_ok d → finish_deployment org o app env id error (mk_Conn d n) = Ok (u, c') → derives d (c_db c').
Proof.
  intros Hd Hx. unfold finish_deployment, finish_in_tx in Hx. inv_tx Hx.
  apply finish_error_Ok in H0 as [-> _]. apply log_in_tx_same in H1.
  apply finish_env_derives in H2. apply finish_audit_same in Hx. simpl in *.
  etrans; [|by apply derives_same]. etrans; [|exact H2]. etrans; [by apply derives_same; exact H1|].
  constructor; simpl; try done. apply derived_update; [apply _|].
  destruct H1 as (_ & -> & _). apply (finish_row_le d _ _ _ v); try done. destruct (is_some a); auto.
Qed.

(** Tables that only the removal of an environment shrinks. *)
Definition same_env_data : relation Db := λ d d',
  same_deploys d d' ∧ db_active_resources d' = db_active_resources d ∧ db_tombstones d' = db_tombstones d.

#[export] Instance same_env_data_PreOrder : PreOrder same_env_data.
Proof. split; [by intros d|]. intros d1 d2 d3 (? & ? & ?) (? & ? & ?). split_and!; [by etrans|congruence..]. Qed.

Ltac same_data := tx_steps; by split_and!.

Lemma append_log_data row : tx_rel same_env_data (append_log row).
Proof. unfold append_log. same_data. Qed.
#[local] Hint Resolve append_log_data : tx.
Lemma log_in_tx_data id op level m : tx_rel same_env_data (log_in_tx id op level m).
Proof. unfold log_in_tx. same_data. Qed.
Lemma finish_audit_data o app env id error b : tx_rel same_env_data (finish_audit o app env id error b).
Proof. unfold finish_audit. same_data. Qed.
Lemma remove_app_data app : tx_rel same_env_data (remove_app app).
Proof. unfold remove_app. same_data. Qed.

(** What the removal of an environment leaves. *)
Record removes (app env : string) (d d' : Db) : Prop := {
  rm_envs : db_envs d' = delete_rows (is_env app env) (db_envs d);
  rm_deployments : ∀ r, r ∈ db_deployments d' → deployment_env r ≠ (app, env);
  rm_permits : ∀ p, p ∈ db_permits d' → (pm_app p, pm_env p) ≠ (app, env);
  rm_resources : ∀ x, x ∈ db_active_resources d' → res_in_env app env x = false;
  rm_released : ∀ x, x ∈ db_active_resources d → res_in_env app env x = true →
    ∃ t, t ∈ db_tombstones d' ∧ tb_guresid t = rs_guresid x ∧ tb_reason t = "released"
      ∧ tb_body t = released_body x;
}.

Lemma append_tombstones_Ok (row : ResourceRow → Z → TombstoneRow) rows c u c' :
  for_each (λ r, append_tombstone (row r)) rows c = Ok (u, c') →
  same_deploys (c_db c) (c_db c') ∧ db_active_resources (c_db c') = db_active_resources (c_db c)
  ∧ (∀ t, t ∈ db_tombstones (c_db c) → t ∈ db_tombstones (c_db c'))
  ∧ ∀ r, r ∈ rows → ∃ s, row r s ∈ db_tombstones (c_db c').
Proof.
  revert c. induction rows as [|r rows IH]; intros c Hx; simpl in Hx.
  - inv_tx Hx. split_and!; try done. by intros r ?%not_elem_of_nil.
  - apply bind_Ok in Hx as (a & c1 & H1 & Hx). apply IH in Hx as (Hs & Hr & Ht & Hrows).
    unfold append_tombstone in H1. inv_tx H1. destruct (db_seq _) as [[[? ?] ?] ?]. inv_tx H1.
    split_and!; [done|done| |].
    + intros t Hin. apply Ht. simpl. by apply elem_of_app; left.
    + intros x [->|Hin]%elem_of_cons; [|by apply Hrows]. eexists. apply Ht. simpl.
      apply elem_of_app; right; left.
Qed.

Lemma remove_env_Ok app env c u c' : remove_env app env c = Ok (u, c') → removes app env (c_db c) (c_db c').
Proof.
  intros Hx. unfold remove_env, release_resources in Hx. inv_tx Hx.
  apply append_tombstones_Ok in H0 as ((He & Hd & Hp) & Hr & _ & Ht). simpl in *.
  constructor; simpl.
  - by rewrite He.
  - intros r [_ Hn]%elem_of_delete E%in_env_spec. congruence.
  - intros p [_ Hn]%elem_of_delete E%eqb_pair. congruence.
  - by intros x [_ Hn]%elem_of_delete.
  - intros x Hx Hin. destruct (Ht x) as [s Hs]; [by apply elem_of_select|]. by eexists.
Qed.

Lemma removes_same app env d d1 d2 d3 :
  same_env_data d d1 ∨ (db_envs d1 = db_envs d ∧ db_active_resources d1 = db_active_resources d) →
  removes app env d1 d2 → same_env_data d2 d3 → removes app env d d3.
Proof.
  intros H1 [Hen Hd Hp Hr Ht] ((He3 & Hd3 & Hp3) & Hr3 & Ht3).
  assert (db_envs d1 = db_envs d ∧ db_active_resources d1 = db_active_resources d) as [He Hrs].
  { destruct H1 as [((? & _) & ? & _)|?]; done. }
  constructor; rewrite ?He3, ?Hd3, ?Hp3, ?Hr3, ?Ht3; try done; [by rewrite Hen, He|].
  intros x Hx. apply Ht. by rewrite Hrs.
Qed.

Lemma finish_in_tx_Ok o app env id error d n u c' :
  deploy_ok d → finish_in_tx o app env id error (mk_Conn d n) = Ok (u, c') →
  ∃ row kind, row ∈ db_deployments d ∧ deployment_key row = (app, env, id) ∧ is_running row = true
    ∧ deployment_kind_parse (dp_kind row) = Ok kind
    ∧ (grows d (c_db c') ∨ (kind = DeleteEnv ∧ error = None ∧ removes app env d (c_db c')
         ∧ ∀ x, x ∈ db_active_resources d → blocks_removal app env x = false)).
Proof.
  intros Hd Hx. unfold finish_in_tx in Hx. inv_tx Hx.
  apply finish_error_Ok in H0 as [-> Hfin]. apply log_in_tx_data in H1. apply finish_audit_data in Hx.
  pose proof Hr as [Hin Hk%is_deployment_spec]%select_one_Some. exists v, v0. split_and!; try done.
  destruct (decide (v0 = DeleteEnv ∧ a = None)) as [[-> ->]|Hn].
  - right. destruct (Hfin eq_refl eq_refl) as [-> Hb]. split_and!; try done.
    unfold finish_env in H2. inv_tx H2. apply remove_env_Ok in H0.
    assert (same_env_data (c_db c) (c_db c1)) as Hs.
    { destruct (_ && _); inv_tx H2; [by apply (remove_app_data _ _ _ _ H3)|done]. }
    eapply removes_same; [|exact H0|by etrans]. right. destruct H1 as ((? & _) & ? & _). done.
  - left. etrans; [|by apply grows_same, Hx].
    assert (tx_rel grows (finish_env app env id v0 (dp_set_id v) a)) as Hg.
    { destruct v0, a; simpl; try (by destruct Hn); tx_steps; auto with tx. }
    etrans; [|apply (Hg _ _ _ H2)]. etrans; [apply grows_same, H1|].
    constructor; simpl; try done. apply kept_update; [apply _|]. destruct H1 as [(_ & -> & _) _].
    apply (finish_row_le d _ _ _ v); try done. destruct (is_some a); auto.
Qed.

(** ** Resources *)

(** A failed deployment keeps everything. *)
Lemma finish_failed_grows o app env id error : tx_rel grows_store (finish_in_tx o app env id (Some error)).
Proof.
  intros [d n] u c' Hx Hd. split.
  - destruct Hd as [Hi Hd]. split; [by apply (finish_failed_allowed o keeps_ok _ _ _ _ _ _ _ Hx)|].
    by apply (finish_in_tx_deploys _ _ _ _ _ _ _ _ Hx).
  - apply finish_in_tx_Ok in Hx as (row & kind & _ & _ & _ & _ & [Hg|(_ & [=] & _)]); [done|apply Hd].
Qed.
#[local] Hint Resolve finish_failed_grows : tx.

#[local] Hint Extern 1 (tx_rel grows_store (interrupt _ _ _ _ _ _ _ _)) =>
  apply tx_grows_store;
    [apply tx_keeps_both; [by apply interrupt_allowed; apply _|apply same_deploys_keeps, interrupt_same]
    |eapply tx_rel_impl; [apply grows_same|apply interrupt_same]] : tx.

Lemma recover_interrupted_grows : tx_rel grows_store (recover_interrupted org).
Proof.
  unfold recover_interrupted, interrupt_cleanup, interrupt_unstarted, interrupt_uncertain. tx_steps; auto with tx.
Qed.

(** The pins of the deployment of an operation. *)
Lemma pin_deployment_grows o descriptor pin d n u c' :
  deploy_ok d → pin_deployment o descriptor pin (mk_Conn d n) = Ok (u, c') → grows d (c_db c').
Proof.
  intros Hd Hx. unfold pin_deployment in Hx. destruct pin as [pin|]; [|by inv_tx Hx]. inv_tx Hx.
  destruct (select_one _ _) as [row|] eqn:Es; inv_tx Hx; [|done].
  constructor; simpl; try done. apply kept_update; [apply _|]. intros r Hr Hk.
  apply select_one_Some in Es as [Hrow Hkr]. assert (r = row) as ->.
  { apply (row_of_key deployment_key (db_deployments d)); [apply Hd|done..|].
    apply is_deployment_spec in Hk, Hkr. congruence. }
  split; [by eapply set_pin_same|by left].
Qed.
(** A step that leaves deployments, permits and environments as they are. *)
Lemma grows_store_same d d' : keeps_ok d d' → same_deploys d d' → grows_store d d'.
Proof.
  intros Hk Hs [Hi Hd]. split; [split; [by apply Hk|]|by apply grows_same].
  destruct Hs as (He & Hdp & Hp). by apply (deploys_same d).
Qed.

#[local] Hint Extern 1 (grows_store _ _) => apply grows_store_same; [allowed|by split_and!] : tx.

Lemma tx_grows_same {A} (m : tx A) : tx_rel keeps_ok m → tx_rel same_deploys m → tx_rel grows_store m.
Proof. intros Hk Hs c a c' Hx. apply grows_store_same; [by apply (Hk _ _ _ Hx)|by apply (Hs _ _ _ Hx)]. Qed.

Lemma pin_deployment_store o descriptor pin : tx_rel grows_store (pin_deployment o descriptor pin).
Proof.
  intros [d n] u c' Hx [Hi Hd]. split; [|by eapply pin_deployment_grows]. split.
  - assert (tx_rel keeps_ok (pin_deployment o descriptor pin)) as Hk.
    { unfold pin_deployment. tx_steps. apply allows_deployments. }
    by apply (Hk _ _ _ Hx).
  - assert (tx_rel keeps_deploys (pin_deployment o descriptor pin)) as Hk.
    { unfold pin_deployment. tx_steps. apply keeps_snapshot. }
    by apply (Hk _ _ _ Hx).
Qed.

Lemma bury_grows g stone : tx_rel grows_store (bury g stone).
Proof. apply tx_grows_same; [by apply bury_allowed; apply _|apply bury_same]. Qed.
#[local] Hint Resolve pin_deployment_store bury_grows : tx.

Lemma checkpoint_in_tx_grows id r : tx_rel grows_store (checkpoint_in_tx id r).
Proof. unfold checkpoint_in_tx, apply_result. tx_steps; auto with tx. Qed.
#[local] Hint Resolve checkpoint_in_tx_grows : tx.

Lemma resolve_operation_grows id r audit : tx_rel grows_store (resolve_operation id r audit).
Proof. unfold resolve_operation, apply_resolution, restore_status. tx_steps; auto with tx. Qed.

(** The next generation of an environment. *)
Lemma next_generation_grows d app env : grows_store d (upd_envs (update (is_env app env) next_generation_row) d).
Proof.
  intros [Hi Hd]. split; [split|].
  - by apply keeps_ok_update_envs.
  - apply keeps_update_envs; [done| |done]. simpl. lia.
  - apply grows_update_envs. intros e. split_and!; try done. simpl. lia.
Qed.
#[local] Hint Resolve next_generation_grows : tx.

Lemma schedule_deletion_grows o app env descriptor audit :
  tx_rel grows_store (schedule_deletion org o app env descriptor audit).
Proof. unfold schedule_deletion. tx_steps; auto with tx. Qed.

Lemma detach_resource_grows o app env detach audit : tx_rel grows_store (detach_resource org o app env detach audit).
Proof.
  assert (∀ u, tx_rel grows_store (consume_permit u)) as Hu.
  { intros u. apply tx_grows_store; [apply consume_permit_store|]. unfold consume_permit. tx_steps.
    apply try_permits_rel; [apply _|]. intros. apply grows_use_permit. }
  unfold detach_resource, detach_permit. tx_steps; auto with tx.
Qed.

#[local] Hint Resolve resolve_operation_grows schedule_deletion_grows detach_resource_grows
  recover_interrupted_grows : tx.
#[local] Hint Extern 1 (tx_rel grows_store _) =>
  apply tx_grows_same;
    [first [by apply begin_operation_allowed; apply _ | by apply record_operation_inputs_allowed; apply _
       | by apply keep_recovery_cookie_allowed; apply _ | by apply record_resource_status_allowed; apply _
       | by apply mark_restored_allowed; apply _]
    |first [apply begin_operation_same | apply record_operation_inputs_same | apply keep_recovery_cookie_same
       | apply record_resource_status_same | apply mark_restored_same]] : tx.

(** The methods on resources keep all rows. *)
Lemma exec_grows_resources op :
  match op with
  | OpBeginOperation _ | OpCheckpoint _ _ | OpRecordInputs _ _ | OpKeepCookie _ _ _ | OpResolve _ _ _
  | OpRecordStatus _ _ _ _ _ _ _ | OpDetach _ _ _ _ _ | OpScheduleDeletion _ _ _ _ _ | OpRecover
  | OpMarkRestored => True
  | _ => False
  end → tx_rel grows_store (exec org digest op).
Proof. intros Hop. destruct op; try done; simpl; unfold drop, checkpoint_operation; tx_steps; auto with tx. Qed.

Definition is_finish (op : StoreOp) : bool := match op with OpFinishDeployment _ _ _ _ _ => true | _ => false end.

Lemma is_finish_true op : is_finish op = true → ∃ o app env id error, op = OpFinishDeployment o app env id error.
Proof. destruct op; try done. intros _. by eexists _, _, _, _, _. Qed.

(** Every operation but finishing a deployment keeps all rows. *)
Lemma exec_grows op : is_finish op = false → tx_rel grows_store (exec org digest op).
Proof.
  intros Hop. destruct op; try done; clear Hop;
    try (apply drop_rel; [apply _|]; apply accept_deployment_grows);
    try (apply drop_rel; [apply _|]; apply accept_app_deletion_grows);
    try (by apply exec_grows_resources);
    (apply tx_grows_store; [apply exec_store|]); simpl;
    unfold drop, create_principal, create_bootstrap_admin,
    set_org_role, update_principal, remove_principal, set_identity, create_token, revoke_token,
    authenticate_token, record_session, revoke_session, signing_key, create_invitation,
    accept_invitation, set_app_role, remove_app_role, set_env_type_role, remove_env_type_role,
    record_audit, create_env_type, update_env_type, delete_env_type, create_app, update_app,
    create_env, update_env, put_set, put_set_audited, write_delta, insert_principal,
    set_org_role_column, set_name_column, insert_identity, upsert_app_role,
    insert_env_type_role, ensure_env_type, insert_env, insert_set, insert_token, delete_principal,
    put_plan, record_approval_request, issue_permits, insert_permit; tx_steps; auto with tx.
Qed.


(** ** The claims *)

Abbreviation run := (run org digest).

Lemma run_grows op c :
  is_finish op = false → store_ok (c_db c) → grows (c_db c) (c_db (run op c)).
Proof.
  intros Hop Hok. unfold Operations.run. destruct (exec org digest op c) as [[u c']|e] eqn:E; [|done].
  by apply (exec_grows op Hop _ _ _ E).
Qed.

(** C16: history is not rewritten. Across any operation of the store, a deployment that has
    finished is unchanged and a running one changes only by finishing, apart from the driver
    versions ([pins]) that are added to its snapshot; a permit keeps its
    resource, action, generation and issuer, and once bound stays bound to the same
    deployment; an environment keeps its type and its generation does not go down. *)
Theorem history_is_kept (op : StoreOp) (c : Conn) :
  store_ok (c_db c) →
  (∀ r r', r ∈ db_deployments (c_db c) → r' ∈ db_deployments (c_db (run op c)) →
     deployment_key r = deployment_key r' → deployment_le r r')
  ∧ (∀ p p', p ∈ db_permits (c_db c) → p' ∈ db_permits (c_db (run op c)) →
     pm_id p = pm_id p' → permit_le p p')
  ∧ (∀ e e', e ∈ db_envs (c_db c) → e' ∈ db_envs (c_db (run op c)) →
     env_key e = env_key e' → env_le e e').
Proof.
  intros Hok. pose proof deployment_le_key as Hdk.
  assert (∀ p p', permit_le p p' → pm_id p' = pm_id p) as Hpk by by intros p p' [? _].
  assert (∀ e e', env_le e e' → env_key e' = env_key e) as Hek by by intros e e' [? _].
  pose proof (run_store org digest op c Hok) as Hok'. destruct (is_finish op) eqn:Eop.
  - assert (derives (c_db c) (c_db (run op c))) as [He Hd Hp].
    { unfold Operations.run. destruct (exec org digest op c) as [[u c']|e] eqn:E; [|done].
      destruct op; try done. destruct c as [d n]. by eapply finish_deployment_derives; [apply Hok|]. }
    split_and!; intros x y Hx Hy Hk.
    + eapply (derived_version deployment_key); [done|apply Hok|exact Hd|done..].
    + eapply (derived_version pm_id); [done|apply Hok|exact Hp|done..].
    + eapply (derived_version env_key); [done|apply Hok|exact He|done..].
  - destruct (run_grows op c Eop Hok) as [He Hd Hp]. split_and!; intros x y Hx Hy Hk.
    + eapply (kept_version deployment_key); [done|apply Hok'|exact Hd|done..].
    + eapply (kept_version pm_id); [done|apply Hok'|exact Hp|done..].
    + eapply (kept_version env_key); [done|apply Hok'|exact He|done..].
Qed.

(** C27: an environment goes only by its own deletion, and with everything it owns. Whatever
    operation makes an environment disappear, it is the successful finish of a running
    deletion of that environment; no resource that it owns, or that it adopted and was told
    to delete, was left; the others are released with a tombstone; and no deployment, permit
    or resource of the environment remains. *)
Theorem environment_removal (op : StoreOp) (c : Conn) (e : EnvRow) :
  store_ok (c_db c) → e ∈ db_envs (c_db c) → env_key e ∉ env_key <$> db_envs (c_db (run op c)) →
  (∃ o id row, op = OpFinishDeployment o (en_app e) (en_id e) id None
     ∧ row ∈ db_deployments (c_db c) ∧ deployment_key row = (en_app e, en_id e, id)
     ∧ is_running row = true ∧ deployment_kind_parse (dp_kind row) = Ok DeleteEnv)
  ∧ (∀ x, x ∈ db_active_resources (c_db c) → blocks_removal (en_app e) (en_id e) x = false)
  ∧ removes (en_app e) (en_id e) (c_db c) (c_db (run op c)).
Proof.
  intros Hok He Hgone. destruct (is_finish op) eqn:Eop.
  - apply is_finish_true in Eop as (o & app & env & id & error & ->). unfold Operations.run in *.
    destruct c as [d n]. destruct (exec org digest _ (mk_Conn d n)) as [[u c']|x] eqn:E in Hgone |- *.
    2: { destruct Hgone. by apply list_elem_of_fmap_2. }
    simpl in E. unfold finish_deployment in E. inv_tx E.
    apply finish_in_tx_Ok in E as (row & kind & Hr & Hk & Hrun & Hp & [Hg|(-> & -> & Hrm & Hb)]); [| |apply Hok].
    { destruct Hgone. destruct (gr_envs _ _ Hg e He) as (e' & He' & <- & _). by apply list_elem_of_fmap_2. }
    assert (env_key e = (app, env)) as [= <- <-].
    { destruct (is_env app env e) eqn:Ee; [by apply is_env_spec|]. destruct Hgone.
      apply list_elem_of_fmap_2. rewrite (rm_envs _ _ _ _ Hrm). by apply elem_of_delete. }
    split_and!; [|exact Hb|exact Hrm]. by exists o, id, row.
  - destruct Hgone. destruct (gr_envs _ _ (run_grows op c Eop Hok) e He) as (e' & He' & <- & _).
    by apply list_elem_of_fmap_2.
Qed.
End methods.

(** ** Deployments are accepted

    The converse of the acceptance conditions: when they hold and no permit is needed, the
    request is accepted. Identifiers are random; that those drawn for the deployment and its
    audit entry are not in use is a hypothesis. *)

Lemma bind_run {A B} (m : tx A) (k : A → tx B) c a c' : m c = Ok (a, c') → bind m k c = k a c'.
Proof. intros Hm. unfold bind. by rewrite Hm. Qed.

Lemma check_run {B} b e (k : unit → tx B) c : b = true → bind (check b e) k c = k tt c.
Proof. by intros ->. Qed.

Lemma query_run {A B} (f : Db → A) (k : A → tx B) c : bind (query f) k c = k (f (c_db c)) c.
Proof. done. Qed.

Lemma require_run {A B} o e (k : A → tx B) a c : o = Some a → bind (require o e) k c = k a c.
Proof. by intros ->. Qed.

Lemma check_env_authority_total d n actor app t :
  identity_ok d → may_deploy (view d) actor app t →
  check_env_authority actor app t (mk_Conn d n) = Ok (tt, mk_Conn d n).
Proof.
  intros Hok Hm. destruct actor as [a|]; [|done]. unfold check_env_authority.
  rewrite (bind_run _ _ _ _ _ (roles_in_total d Hok a n)). unfold is_administrator. rewrite roles_of_org.
  destruct (Hm a eq_refl) as [Ha|[Hr Hd]]; simpl in *; [by rewrite bool_decide_true|].
  case_bool_decide; [done|]. rewrite roles_of_app by done. apply at_least_developer in Hr. rewrite Hr.
  apply (roles_of_deployer d Hok), bs_mem_spec in Hd. unfold bind, check. by rewrite Hd.
Qed.

Lemma none_to_sort {A} (p : A → bool) (key : A → string) (t : list A) :
  (∀ r, r ∈ t → p r = false) → sort_by_key key (select p t) = [].
Proof.
  intros Hn. destruct (sort_by_key key (select p t)) as [|x l] eqn:E; [done|].
  assert (x ∈ sort_by_key key (select p t)) as Hx by (rewrite E; left).
  rewrite sort_by_key_perm in Hx. apply elem_of_select in Hx as [Hx Hp]. by rewrite Hn in Hp.
Qed.

Lemma check_accept_total req d n e :
  identity_ok d → acceptable req d e → check_accept req (mk_Conn d n) = Ok (en_generation e, mk_Conn d n).
Proof.
  intros Hok [He Ha (a & Happ & Hk) Hg Hi Hc Hs Hd]. unfold check_accept.
  rewrite query_run. rewrite (require_run _ _ _ e) by done.
  rewrite (bind_run _ _ _ _ _ (check_env_authority_total d n _ _ _ Hok Ha)).
  rewrite query_run. rewrite (require_run _ _ _ a) by done.
  rewrite (bind_run _ _ _ tt (mk_Conn d n)) by (by apply check_kind_Ok).
  rewrite check_run by (by rewrite Hg, Z.eqb_refl). rewrite query_run.
  rewrite (proj2 (select_one_None _ (db_deployments _))).
  2: { intros r Hr. destruct (in_env _ _ r) eqn:E; [|done]. by apply Hi; [|apply in_env_spec]. }
  rewrite (bind_run _ _ _ tt (mk_Conn d n)) by done. rewrite query_run. rewrite none_to_sort.
  2: { intros r Hr. destruct (res_in_env _ _ r) eqn:E; [|done]. simpl.
       destruct (Hc r Hr E) as [H1%String.eqb_neq H2%String.eqb_neq]. by rewrite H1, H2. }
  rewrite check_run by done.
  rewrite (bind_run _ _ _ tt (mk_Conn d n)) by (by apply check_set_Ok).
  by rewrite (bind_run _ _ _ tt (mk_Conn d n)) by (by apply check_delta_Ok).
Qed.

Section progress.
Context `{System} (org : string).

(** Identifiers the random generator draws from call [n] on are not in use. *)
Definition fresh_ids (d : Db) (n : nat) : Prop := ∀ k b, (n ≤ k)%nat →
  entropy k b ∉ au_id <$> db_audit_log d ∧ entropy k b ∉ dp_id <$> db_deployments d.

Lemma audit_insert_total intent op corr d n :
  entropy n 16 ∉ au_id <$> db_audit_log d →
  ∃ d', audit_insert intent op corr (mk_Conn d n) = Ok (entropy n 16, mk_Conn d' (S (S n)))
    ∧ only_audit d d'.
Proof.
  intros Hf. unfold audit_insert, bind, random_hex, now_ms, query. simpl.
  destruct (db_seq d) as [[[au lo] to] va]. unfold insert_row, bind, query, check. simpl.
  rewrite (proj2 (existsb_false _ (db_audit_log d))); simpl.
  - eexists. split; [done|]. by eexists _, _.
  - intros r Hr. apply String.eqb_neq. intros E. apply Hf.
    rewrite <- E. by apply list_elem_of_fmap_2.
Qed.

Lemma freeze_delta_total app i d n :
  (∀ id, i = Some id → is_Some (select_one (is_delta app id) (db_deltas d))) →
  ∃ f n', freeze_delta app i (mk_Conn d n) = Ok (tt, mk_Conn (upd_deltas f d) n') ∧ (n ≤ n')%nat.
Proof.
  intros Hi. destruct i as [id|]; simpl.
  - destruct (Hi id eq_refl) as [r [Hin Hr]%select_one_Some]. unfold bind, now_ms, query, execute, check. simpl.
    destruct (select (is_delta app id) (db_deltas d)) as [|x l] eqn:E; simpl.
    + assert (r ∈ select (is_delta app id) (db_deltas d)) as Hs by by apply elem_of_select.
      rewrite E in Hs. by apply not_elem_of_nil in Hs.
    + eexists _, _. split; [done|lia].
  - exists (λ t, t), n. split; [|lia]. by destruct d.
Qed.

Lemma fresh_deployment req d n g created :
  fresh_ids d n → (∀ r, r ∈ db_deployments d → deployment_env r = (dq_app req, dq_env req) → is_running r = false) →
  (∀ key, dq_idempotency_key req = Some key → ∀ r, r ∈ db_deployments d →
     in_env (dq_app req) (dq_env req) r && has_key (dq_actor req) key r = false) →
  deployment_unique (new_deployment req (entropy n 16) (next_seq (dq_app req) (dq_env req) d) g created) d = true.
Proof.
  intros Hf Hi Hk. unfold deployment_unique. apply negb_true_iff, existsb_false. intros r Hr. simpl.
  destruct (in_env (dq_app req) (dq_env req) r) eqn:E; [|done]. simpl. apply in_env_spec in E as E'.
  rewrite (Hi r Hr E'), !orb_false_r. rewrite !orb_false_iff. split_and!.
  - apply String.eqb_neq. intros Hid. destruct (Hf n 16%nat) as [_ Hn]; [lia|]. apply Hn. rewrite <- Hid.
    by apply list_elem_of_fmap_2.
  - apply Z.eqb_neq. pose proof (next_seq_gt _ _ _ _ Hr E'). lia.
  - destruct (dq_idempotency_key req) as [key|].
    + specialize (Hk key eq_refl r Hr). rewrite E in Hk. done.
    + destruct (dp_idempotency_key r); simpl; by rewrite andb_false_r.
Qed.

Lemma bind_no_permits app env g dep digests d n :
  bind_permits app env g dep (mk_PermitBinding [] digests []) (mk_Conn d n) = Ok ([], mk_Conn d (S n)).
Proof. done. Qed.

Lemma create_deployment_total req d n g digests :
  dq_permits req = mk_PermitBinding [] digests [] → fresh_ids d n →
  existsb (is_env (dq_app req) (dq_env req)) (db_envs d) = true →
  (∀ created, deployment_unique (new_deployment req (entropy n 16)
     (next_seq (dq_app req) (dq_env req) d) (g + 1) created) d = true) →
  ∃ r c', create_deployment req g (mk_Conn d n) = Ok (r, c').
Proof.
  intros Hp Hf He Hu. unfold create_deployment, random_hex at 1, bind at 1. simpl. rewrite Hp.
  rewrite (bind_run _ _ _ _ _ (bind_no_permits _ _ _ _ _ _ _)). rewrite query_run.
  unfold bind at 1, now_ms at 1. simpl. set (row := mk_DeploymentRow _ _ _ _ _ _ _ _ _ _ _ _ _ _ _ _ _).
  assert (insert_deployment row (mk_Conn d (S (S (S n)))) =
    Ok (tt, mk_Conn (upd_deployments (λ t, t ++ [row]) d) (S (S (S n))))) as Hins.
  { apply insert_row_Ok. split_and!; try done. apply (Hu (clock (S (S n)))). }
  rewrite (bind_run _ _ _ _ _ Hins). unfold bind at 1, execute at 1. simpl.
  set (d2 := upd_envs _ _).
  destruct (audit_insert_total (with_outcome (dq_audit req) (ai_action (dq_audit req))
    (Some (option_default (dq_app req +:+ "/" +:+ dq_env req) (ai_target (dq_audit req)))) Accepted
    (ai_reason (dq_audit req))) (Some (entropy n 16)) None d2 (S (S (S n)))) as (d3 & Ha & f & s & Hd3).
  { destruct (Hf (S (S (S n))) 16%nat) as [? _]; [lia|done]. }
  rewrite (bind_run _ _ _ _ _ Ha). unfold bind at 1, audit_bound at 1. simpl.
  unfold require_deployment, fetch_deployment. rewrite Hd3. unfold bind, query. simpl.
  rewrite select_one_app. rewrite (proj2 (select_one_None _ (db_deployments d))).
  - assert (is_deployment (dq_app req) (dq_env req) (entropy n 16) row = true) as -> by (by apply is_deployment_spec).
    unfold lift, deployment_into_record, row. simpl. destruct (dq_kind req); simpl; by eexists _, _.
  - intros r Hr. apply not_true_is_false. rewrite is_deployment_spec. intros Hk.
    destruct (Hf n 16%nat) as [_ Hn]; [lia|]. apply Hn. injection Hk as _ _ <-. by apply list_elem_of_fmap_2.
Qed.

(** an idle environment accepts. When a request is acceptable, is not a retry, needs no
    permit and names a delta that exists if any, acceptance succeeds with a new running
    deployment: nothing else can stand in its way. *)
Theorem idle_environment_accepts (req : DeploymentRequest) (d : Db) (n : nat) (e : EnvRow)
    (digests : list (string * string)) :
  store_ok d → dq_org req = org → acceptable req d e → fresh_ids d n →
  dq_permits req = mk_PermitBinding [] digests [] →
  (∀ id, dq_delta_id req = Some id → is_Some (select_one (is_delta (dq_app req) id) (db_deltas d))) →
  (∀ key, dq_idempotency_key req = Some key → ∀ r, r ∈ db_deployments d →
     in_env (dq_app req) (dq_env req) r && has_key (dq_actor req) key r = false) →
  ∃ r c', accept_deployment org req (mk_Conn d n) = Ok (Created r, c').
Proof.
  intros [Hok Hd] Ho Hac Hf Hp Hdel Hkey.
  assert (∃ r c', accept_new req (mk_Conn d n) = Ok (Created r, c')) as (r & c' & Hnew).
  { unfold accept_new. rewrite (bind_run _ _ _ _ _ (check_accept_total req d n e Hok Hac)).
    destruct (freeze_delta_total (dq_app req) (dq_delta_id req) d n Hdel) as (f & n' & Hfr & Hn).
    rewrite (bind_run _ _ _ _ _ Hfr).
    destruct (create_deployment_total req (upd_deltas f d) n' (en_generation e) digests Hp) as (r & c' & Hc).
    - intros k b Hkb. apply Hf. lia.
    - pose proof (ac_env _ _ _ Hac) as [Hin Hk]%select_one_Some. apply existsb_true. eauto.
    - intros created. apply fresh_deployment; [intros k b Hkb; apply Hf; lia|apply Hac|exact Hkey].
    - rewrite (bind_run _ _ _ _ _ Hc). by eexists _, _. }
  exists r, c'. unfold accept_deployment, check_org. rewrite Ho, check_run by apply String.eqb_refl.
  unfold accept_in_tx. destruct (dq_idempotency_key req) as [key|] eqn:Ek; [|done].
  unfold prior_deployment. rewrite query_run. cbn [c_db].
  by rewrite (proj2 (select_one_None _ _) (Hkey key eq_refl)).
Qed.
End progress.
