(* ===== verification/Phases.v ===== *)
(** * The phases of a resource

    What the tables of resources and operations say about the resource with a given GUResID: it
    is not there, at rest, in the hands of a driver, or in doubt because the outcome of an
    operation is unknown. The invariant of the two tables, and what each kind of write does to
    it and to the phases. *)

From Stdlib Require Import Ascii.
From stdpp Require Import base sets strings list.
From S2P Require Import Prelude Strings OrdMap Json Db DbLogic Identity Apps Permits Deployments Resources.

Local Open Scope string_scope.
Local Open Scope Z_scope.
Local Open Scope list_scope.

Inductive Phase :=
| Gone
| Idle
| Calling (op : string)
| InDoubt (op : string).

Definition open_on (g : string) (o : OperationRow) : bool := String.eqb (op_guresid o) g && is_open o.

Definition open_phase (o : OperationRow) : Phase :=
  if String.eqb (op_state o) "unknown" then InDoubt (op_id o) else Calling (op_id o).

Definition phase_of (rs : list ResourceRow) (os : list OperationRow) (g : string) : Phase :=
  if existsb (has_guresid g) rs then
    match select_one (open_on g) os with None => Idle | Some o => open_phase o end
  else Gone.

Definition phase (d : Db) : string → Phase := phase_of (db_active_resources d) (db_operations d).

(** ** The invariant *)

Definition res_key (r : ResourceRow) : string * string * string := (rs_app r, rs_env r, rs_descriptor r).
Definition res_env (r : ResourceRow) : string * string := (rs_app r, rs_env r).
Definition op_place (o : OperationRow) : string * string := (op_app o, op_env o).
Definition is_unknown (o : OperationRow) : bool := String.eqb (op_state o) "unknown".

(** A resource has at most one open operation, in its own environment; a resource is in doubt
    exactly when the outcome of an operation on it is unknown. *)
Record tables_ok (rs : list ResourceRow) (os : list OperationRow) : Prop := {
  to_keys : NoDup (res_key <$> rs);
  to_guresids : NoDup (rs_guresid <$> rs);
  to_ids : NoDup (op_id <$> os);
  to_one_open : ∀ o o' g, o ∈ os → o' ∈ os → open_on g o = true → open_on g o' = true → o = o';
  to_resource : ∀ o, o ∈ os → is_open o = true →
    ∃ r, r ∈ rs ∧ rs_guresid r = op_guresid o ∧ res_env r = op_place o;
  to_doubt : ∀ r, r ∈ rs →
    in_doubt (rs_status r) = true ↔ ∃ o, o ∈ os ∧ op_guresid o = rs_guresid r ∧ is_unknown o = true;
  to_restored : ∀ o s, o ∈ os → restored_status (op_recovery o) = Ok (Some s) → in_doubt s = false;
}.

Definition res_ok (d : Db) : Prop := tables_ok (db_active_resources d) (db_operations d).

Lemma empty_res_ok : res_ok empty_db.
Proof.
  constructor; try apply NoDup_nil_2; try (intros x Hx; by apply not_elem_of_nil in Hx);
    intros x y Hx; try (intros Hy; by apply not_elem_of_nil in Hx); by intros ? ?%not_elem_of_nil.
Qed.

Lemma open_on_spec g o : open_on g o = true ↔ op_guresid o = g ∧ is_open o = true.
Proof. unfold open_on. by rewrite andb_true_iff, String.eqb_eq. Qed.

Lemma unknown_open o : is_unknown o = true → is_open o = true.
Proof. unfold is_unknown, is_open. intros ->. by rewrite orb_true_r. Qed.

Lemma has_guresid_spec g r : has_guresid g r = true ↔ rs_guresid r = g.
Proof. apply String.eqb_eq. Qed.

Lemma is_operation_spec id o : is_operation id o = true ↔ op_id o = id.
Proof. apply String.eqb_eq. Qed.

(** ** Reading off a phase *)

Section phase.
Context (rs : list ResourceRow) (os : list OperationRow) (g : string).

Lemma phase_gone : (∀ r, r ∈ rs → rs_guresid r ≠ g) → phase_of rs os g = Gone.
Proof.
  intros Hn. unfold phase_of. rewrite (proj2 (existsb_false _ _)); [done|].
  intros r Hr. by apply String.eqb_neq, Hn.
Qed.

Lemma phase_idle r :
  r ∈ rs → rs_guresid r = g → (∀ o, o ∈ os → open_on g o = false) → phase_of rs os g = Idle.
Proof.
  intros Hr Hg Hn. unfold phase_of. rewrite (proj2 (existsb_true _ _)).
  - by rewrite (proj2 (select_one_None _ _)).
  - exists r. by rewrite has_guresid_spec.
Qed.

Lemma phase_open r o :
  (∀ o o', o ∈ os → o' ∈ os → open_on g o = true → open_on g o' = true → o = o') →
  r ∈ rs → rs_guresid r = g → o ∈ os → open_on g o = true → phase_of rs os g = open_phase o.
Proof.
  intros H1 Hr Hg Ho Hop. unfold phase_of. rewrite (proj2 (existsb_true _ _)).
  - destruct (select_one (open_on g) os) as [o'|] eqn:E.
    + apply select_one_Some in E as [Ho' Hop']. by rewrite (H1 o o').
    + by rewrite (proj1 (select_one_None _ _) E o Ho) in Hop.
  - exists r. by rewrite has_guresid_spec.
Qed.

Lemma phase_cases :
  (phase_of rs os g = Gone ∧ ∀ r, r ∈ rs → rs_guresid r ≠ g)
  ∨ (∃ r, r ∈ rs ∧ rs_guresid r = g ∧
      ((phase_of rs os g = Idle ∧ ∀ o, o ∈ os → open_on g o = false)
       ∨ ∃ o, o ∈ os ∧ open_on g o = true ∧ phase_of rs os g = open_phase o)).
Proof.
  unfold phase_of. destruct (existsb (has_guresid g) rs) eqn:E.
  - right. apply existsb_true in E as (r & Hr & Hg%has_guresid_spec). exists r. split_and!; [done..|].
    destruct (select_one (open_on g) os) as [o|] eqn:Eo.
    + right. apply select_one_Some in Eo as [Ho Hop]. by exists o.
    + left. split; [done|]. by apply select_one_None.
  - left. split; [done|]. intros r Hr <-. pose proof (proj1 (existsb_false _ _) E r Hr) as Hf.
    unfold has_guresid in Hf. by rewrite String.eqb_refl in Hf.
Qed.
End phase.

(** The tables agree on what decides the phase. *)
Lemma phase_same rs os rs' os' g :
  (∀ o o', o ∈ os' → o' ∈ os' → open_on g o = true → open_on g o' = true → o = o') →
  ((∃ r, r ∈ rs ∧ rs_guresid r = g) ↔ ∃ r, r ∈ rs' ∧ rs_guresid r = g) →
  (∀ o, o ∈ os → open_on g o = true → ∃ o', o' ∈ os' ∧ open_on g o' = true ∧ open_phase o' = open_phase o) →
  (∀ o', o' ∈ os' → open_on g o' = true → ∃ o, o ∈ os ∧ open_on g o = true) →
  phase_of rs' os' g = phase_of rs os g.
Proof.
  intros H1 Hr Ho Ho'. destruct (phase_cases rs os g) as [[-> Hn]|(r & Hin & Hg & [[-> Hn]|(o & Hio & Hop & ->)])].
  - apply phase_gone. intros r Hr' Hg. destruct (proj2 Hr) as (r0 & Hr0 & Hg0); [by exists r|]. by apply (Hn r0).
  - destruct (proj1 Hr) as (r' & Hr' & Hg'); [by exists r|]. apply (phase_idle _ _ _ r'); [done..|].
    intros o Hio. destruct (open_on g o) eqn:E; [|done]. destruct (Ho' o Hio E) as (o0 & Ho0 & E0).
    by rewrite Hn in E0.
  - destruct (proj1 Hr) as (r' & Hr' & Hg'); [by exists r|].
    destruct (Ho o Hio Hop) as (o' & Hio' & Hop' & <-). by apply (phase_open _ _ _ r').
Qed.

(** ** What a write to the tables does *)

Section writes.
Context (rs : list ResourceRow) (os : list OperationRow) (Hok : tables_ok rs os).

Lemma open_resource o g : o ∈ os → open_on g o = true → ∃ r, r ∈ rs ∧ rs_guresid r = g.
Proof using Hok.
  intros Ho [Hg Hop]%open_on_spec. destruct (to_resource _ _ Hok o Ho Hop) as (r & Hr & Hrg & _).
  exists r. by rewrite Hrg.
Qed.

(** What an open operation is after rows changed in place. *)
Definition next_phase (G : OperationRow → OperationRow) (g : string) : Phase :=
  if existsb (has_guresid g) rs then
    match select_one (open_on g) os with
    | Some o => if is_open (G o) then open_phase (G o) else Idle
    | None => Idle
    end
  else Gone.

(** Rows change in place: no operation is opened, and doubt follows the outcomes. *)
Lemma rewrite_rows F G :
  (∀ r, res_key (F r) = res_key r) → (∀ r, rs_guresid (F r) = rs_guresid r) →
  (∀ o, op_id (G o) = op_id o) → (∀ o, op_guresid (G o) = op_guresid o) → (∀ o, op_place (G o) = op_place o) →
  (∀ o, o ∈ os → is_open (G o) = true → is_open o = true) →
  (∀ o s, o ∈ os → restored_status (op_recovery (G o)) = Ok (Some s) → in_doubt s = false) →
  (∀ r, r ∈ rs → in_doubt (rs_status (F r)) = true ↔
     ∃ o, o ∈ os ∧ op_guresid o = rs_guresid r ∧ is_unknown (G o) = true) →
  tables_ok (F <$> rs) (G <$> os) ∧ ∀ g, phase_of (F <$> rs) (G <$> os) g = next_phase G g.
Proof using Hok.
  intros Fk Fg Gi Gg Gp Gopen Grest Hd.
  assert (∀ g o, o ∈ os → open_on g (G o) = true → open_on g o = true) as Gon.
  { intros g o Ho. rewrite !open_on_spec, Gg. intros [? ?]. auto. }
  assert (tables_ok (F <$> rs) (G <$> os)) as Hok'.
  { constructor.
    - rewrite <- list_fmap_compose. rewrite (list_fmap_ext _ res_key) by (intros ? ? _; apply Fk). apply Hok.
    - rewrite <- list_fmap_compose. rewrite (list_fmap_ext _ rs_guresid) by (intros ? ? _; apply Fg). apply Hok.
    - rewrite <- list_fmap_compose. rewrite (list_fmap_ext _ op_id) by (intros ? ? _; apply Gi). apply Hok.
    - intros ? ? g (o & -> & Ho)%list_elem_of_fmap (o' & -> & Ho')%list_elem_of_fmap E E'.
      f_equal. apply (to_one_open _ _ Hok o o' g); auto.
    - intros ? (o & -> & Ho)%list_elem_of_fmap Hop. destruct (to_resource _ _ Hok o Ho) as (r & Hr & Hg & He); [auto|].
      exists (F r). rewrite Fg, Gg, Gp. split_and!; [by apply list_elem_of_fmap_2|done|].
      rewrite <- He. specialize (Fk r). unfold res_key, res_env in *. congruence.
    - intros ? (r & -> & Hr)%list_elem_of_fmap. rewrite Hd, Fg by done. split.
      + intros (o & Ho & Hg & Hu). exists (G o). rewrite Gg. split_and!; [by apply list_elem_of_fmap_2|done..].
      + intros (? & (o & -> & Ho)%list_elem_of_fmap & Hg & Hu). rewrite Gg in Hg. by exists o.
    - intros ? s (o & -> & Ho)%list_elem_of_fmap. by apply Grest. }
  split; [done|]. intros g. unfold next_phase.
  destruct (existsb (has_guresid g) rs) eqn:Er.
  - apply existsb_true in Er as (r & Hr & Hg%has_guresid_spec).
    assert (F r ∈ F <$> rs) as Hr' by by apply list_elem_of_fmap_2.
    assert (rs_guresid (F r) = g) as Hg' by by rewrite Fg.
    destruct (select_one (open_on g) os) as [o|] eqn:E.
    + apply select_one_Some in E as [Ho Hop]. destruct (is_open (G o)) eqn:Eo.
      * apply (phase_open _ _ _ (F r)); [intros ? ?; by apply Hok'|done..|by apply list_elem_of_fmap_2|].
        apply open_on_spec. rewrite Gg. apply open_on_spec in Hop. naive_solver.
      * apply (phase_idle _ _ _ (F r)); [done..|]. intros ? (o' & -> & Ho')%list_elem_of_fmap.
        apply not_true_is_false. intros E'. rewrite (to_one_open _ _ Hok o' o g) in E' by auto.
        apply open_on_spec in E' as [_ E']. congruence.
    + apply (phase_idle _ _ _ (F r)); [done..|]. intros ? (o' & -> & Ho')%list_elem_of_fmap.
      apply not_true_is_false. intros E'%Gon; [|done]. by rewrite (proj1 (select_one_None _ _) E o' Ho') in E'.
  - apply phase_gone. intros ? (r & -> & Hr)%list_elem_of_fmap. rewrite Fg. intros Hg.
    pose proof (proj1 (existsb_false _ _) Er r Hr) as Hf. by rewrite (proj2 (has_guresid_spec _ _) Hg) in Hf.
Qed.

Lemma next_phase_same G g : (∀ o, o ∈ os → open_on g o = true → is_open (G o) = true ∧ open_phase (G o) = open_phase o) →
  next_phase G g = phase_of rs os g.
Proof.
  intros HG. unfold next_phase, phase_of. destruct (existsb _ rs); [|done].
  destruct (select_one (open_on g) os) as [o|] eqn:E; [|done].
  apply select_one_Some in E as [Ho Hop]. by destruct (HG o Ho Hop) as [-> ->].
Qed.

(** A change that concerns neither. *)
Lemma touch p fr :
  (∀ r, res_key (fr r) = res_key r) → (∀ r, rs_guresid (fr r) = rs_guresid r) →
  (∀ r, r ∈ rs → p r = true → in_doubt (rs_status (fr r)) = in_doubt (rs_status r)) →
  tables_ok (update p fr rs) os ∧ ∀ g, phase_of (update p fr rs) os g = phase_of rs os g.
Proof using Hok.
  intros Fk Fg Fd. set (F := λ r, if p r then fr r else r).
  assert (∀ r, res_key (F r) = res_key r ∧ rs_guresid (F r) = rs_guresid r) as HF.
  { intros r. unfold F. destruct (p r); auto. }
  destruct (rewrite_rows F (λ o, o)) as [Hk Hp]; try done; try (intros r; apply HF).
  - intros o s. apply Hok.
  - intros r Hr. rewrite <- (to_doubt _ _ Hok r Hr). unfold F. destruct (p r) eqn:E; [|done]. by rewrite Fd.
  - rewrite list_fmap_id in Hk, Hp. split; [done|]. intros g. unfold update. rewrite Hp. apply next_phase_same.
    by intros o _ [_ ?]%open_on_spec.
Qed.

Lemma touch_operations p fo :
  (∀ o, op_id (fo o) = op_id o) → (∀ o, op_guresid (fo o) = op_guresid o) → (∀ o, op_place (fo o) = op_place o) →
  (∀ o, op_state (fo o) = op_state o) →
  (∀ o s, o ∈ os → restored_status (op_recovery (fo o)) = Ok (Some s) → in_doubt s = false) →
  tables_ok rs (update p fo os) ∧ ∀ g, phase_of rs (update p fo os) g = phase_of rs os g.
Proof using Hok.
  intros Gi Gg Gp Gs Gr. set (G := λ o, if p o then fo o else o).
  assert (∀ o, op_id (G o) = op_id o ∧ op_guresid (G o) = op_guresid o ∧ op_place (G o) = op_place o
    ∧ is_open (G o) = is_open o ∧ is_unknown (G o) = is_unknown o) as HG.
  { intros o. unfold G, is_open, is_unknown. destruct (p o); rewrite ?Gs; auto. }
  destruct (rewrite_rows (λ r, r) G) as [Hk Hp]; try done; try (intros o; apply HG).
  - intros o _. by destruct (HG o) as (_ & _ & _ & -> & _).
  - intros o s Ho. unfold G. destruct (p o); [by apply Gr|by apply Hok].
  - intros r Hr. rewrite (to_doubt _ _ Hok r Hr). split; intros (o & Ho & Hg & Hu); exists o;
      destruct (HG o) as (_ & _ & _ & _ & Eu); by rewrite Eu in *.
  - rewrite list_fmap_id in Hk, Hp. split; [done|]. intros g. unfold update. rewrite Hp. apply next_phase_same.
    intros o Ho Hop. unfold open_phase. fold (is_unknown (G o)) (is_unknown o).
    destruct (HG o) as (-> & _ & _ & -> & ->). apply open_on_spec in Hop. naive_solver.
Qed.

(** The outcome of the operation [o] on the resource [g]. *)
Lemma settle_operation o g fo fr :
  o ∈ os → open_on g o = true →
  (∀ r, res_key (fr r) = res_key r) → (∀ r, rs_guresid (fr r) = rs_guresid r) →
  (∀ o, op_id (fo o) = op_id o) → (∀ o, op_guresid (fo o) = op_guresid o) → (∀ o, op_place (fo o) = op_place o) →
  (∀ o, op_recovery (fo o) = op_recovery o) →
  (∀ r, in_doubt (rs_status (fr r)) = is_unknown (fo o)) → is_open (fo o) = is_unknown (fo o) →
  let rs' := update (has_guresid g) fr rs in
  let os' := update (is_operation (op_id o)) fo os in
  tables_ok rs' os' ∧ phase_of rs' os' g = (if is_unknown (fo o) then InDoubt (op_id o) else Idle)
  ∧ ∀ g', g' ≠ g → phase_of rs' os' g' = phase_of rs os g'.
Proof using Hok.
  intros Ho Hop Fk Fg Gi Gg Gp Gr Fd Fo. set (G := λ x, if is_operation (op_id o) x then fo x else x).
  set (F := λ r, if has_guresid g r then fr r else r).
  assert (∀ x, op_id (G x) = op_id x ∧ op_guresid (G x) = op_guresid x ∧ op_place (G x) = op_place x
    ∧ op_recovery (G x) = op_recovery x) as HG.
  { intros x. unfold G. destruct (is_operation _ x); auto. }
  assert (∀ r, res_key (F r) = res_key r ∧ rs_guresid (F r) = rs_guresid r) as HF.
  { intros r. unfold F. destruct (has_guresid g r); auto. }
  assert (G o = fo o) as Go. { unfold G. by rewrite (proj2 (is_operation_spec _ _) eq_refl). }
  assert (∀ x, x ∈ os → x = o ∨ G x = x) as Gx.
  { intros x Hx. unfold G. destruct (is_operation (op_id o) x) eqn:E; [|by right]. left.
    apply is_operation_spec in E. by apply (row_of_key op_id os); [apply Hok|..]. }
  destruct (proj1 (open_on_spec _ _) Hop) as [Hgo Hio].
  destruct (rewrite_rows F G) as [Hk Hp]; try (intros ?; apply HG); try (intros ?; apply HF).
  - intros x Hx. destruct (Gx x Hx) as [->| ->]; auto.
  - intros x s Hx. destruct (HG x) as (_ & _ & _ & ->). by apply Hok.
  - intros r Hr. unfold F. destruct (has_guresid g r) eqn:E.
    + apply has_guresid_spec in E. rewrite Fd. split.
      * intros Hu. exists o. by rewrite Go, Hgo.
      * intros (x & Hx & Hg & Hu). destruct (Gx x Hx) as [->|Ex]; [by rewrite <- Go|]. rewrite Ex in Hu.
        assert (x = o) as ->; [|by rewrite <- Go, Ex]. apply (to_one_open _ _ Hok x o g); try done.
        apply open_on_spec. split; [by rewrite Hg|by apply unknown_open].
    + rewrite (to_doubt _ _ Hok r Hr).
      assert (∀ x, x ∈ os → op_guresid x = rs_guresid r → G x = x) as Hsame.
      { intros x Hx Hg. destruct (Gx x Hx) as [->|]; [|done]. exfalso.
        apply not_true_iff_false in E. apply E, has_guresid_spec. congruence. }
      split; intros (x & Hx & Hg & Hu); exists x; rewrite (Hsame x Hx Hg) in *; done.
  - simpl. split; [done|]. change (phase_of (F <$> rs) (G <$> os) g = (if is_unknown (fo o) then InDoubt (op_id o) else Idle)
      ∧ ∀ g', g' ≠ g → phase_of (F <$> rs) (G <$> os) g' = phase_of rs os g'). split.
    + rewrite Hp. unfold next_phase. destruct (open_resource o g Ho Hop) as (r & Hr & Hg).
      rewrite (proj2 (existsb_true _ rs)) by (exists r; by rewrite has_guresid_spec).
      destruct (select_one (open_on g) os) as [x|] eqn:E.
      * apply select_one_Some in E as [Hx Hxo]. rewrite (to_one_open _ _ Hok x o g), Go, Fo by done.
        unfold open_phase. fold (is_unknown (fo o)). rewrite Gi. by destruct (is_unknown (fo o)).
      * by rewrite (proj1 (select_one_None _ _) E o Ho) in Hop.
    + intros g' Hne. rewrite Hp. apply next_phase_same. intros x Hx Hxo. destruct (Gx x Hx) as [->| ->].
      * apply open_on_spec in Hxo. naive_solver.
      * apply open_on_spec in Hxo. naive_solver.
Qed.

(** A resource is added. *)
Lemma add_resource r :
  (∀ r', r' ∈ rs → res_key r' ≠ res_key r) → (∀ r', r' ∈ rs → rs_guresid r' ≠ rs_guresid r) →
  in_doubt (rs_status r) = false →
  tables_ok (rs ++ [r]) os ∧ phase_of (rs ++ [r]) os (rs_guresid r) = Idle
  ∧ ∀ g, g ≠ rs_guresid r → phase_of (rs ++ [r]) os g = phase_of rs os g.
Proof using Hok.
  intros Hk Hg Hd.
  assert (∀ o, o ∈ os → open_on (rs_guresid r) o = false) as Hn.
  { intros o Ho. apply not_true_is_false. intros Hop. destruct (open_resource o _ Ho Hop) as (r' & Hr' & Hg').
    by apply (Hg r'). }
  split_and!.
  - constructor; try apply Hok; try (apply insert_column_NoDup; [apply Hok|done]).
    + intros o Ho Hop. destruct (to_resource _ _ Hok o Ho Hop) as (r' & ? & ? & ?). exists r'.
      rewrite elem_of_app. auto.
    + intros r' [Hr'| ->%list_elem_of_singleton]%elem_of_app; [by apply Hok|]. rewrite Hd. split; [done|].
      intros (o & Ho & Ho' & Hu). rewrite <- (Hn o Ho). apply open_on_spec.
      split; [done|by apply unknown_open].
  - apply (phase_idle _ _ _ r); [apply elem_of_app; right; by left|done..].
  - intros g Hne. apply phase_same; [intros ? ?; apply Hok| |by eauto..]. split; intros (r' & Hr' & Hg').
    + exists r'. rewrite elem_of_app. auto.
    + apply elem_of_app in Hr' as [Hr'| ->%list_elem_of_singleton]; [by exists r'|done].
Qed.

(** An operation is opened on a resource that has none open. *)
Lemma open_one r o fr :
  r ∈ rs → rs_guresid r = op_guresid o → res_env r = op_place o → is_open o = true →
  (∀ x, x ∈ os → op_id x ≠ op_id o) → (∀ x, x ∈ os → open_on (op_guresid o) x = false) →
  (∀ s, restored_status (op_recovery o) = Ok (Some s) → in_doubt s = false) →
  (∀ r, res_key (fr r) = res_key r) → (∀ r, rs_guresid (fr r) = rs_guresid r) →
  (∀ x, x ∈ rs → rs_guresid x = op_guresid o → in_doubt (rs_status (fr x)) = is_unknown o) →
  let rs' := update (has_guresid (op_guresid o)) fr rs in
  tables_ok rs' (os ++ [o]) ∧ phase_of rs' (os ++ [o]) (op_guresid o) = open_phase o
  ∧ ∀ g, g ≠ op_guresid o → phase_of rs' (os ++ [o]) g = phase_of rs os g.
Proof using Hok.
  intros Hr Hg He Hop Hid Hn Hs Fk Fg Fd rs'. set (F := λ r, if has_guresid (op_guresid o) r then fr r else r).
  assert (∀ r, res_key (F r) = res_key r ∧ rs_guresid (F r) = rs_guresid r) as HF.
  { intros x. unfold F. destruct (has_guresid _ x); auto. }
  assert (∀ x, x ∈ rs → F x ∈ rs') as Hin by (intros x Hx; by apply list_elem_of_fmap_2).
  assert (∀ x, x ∈ os → op_guresid x = op_guresid o → is_unknown x = false) as Hu.
  { intros x Hx Hgx. apply not_true_is_false. intros Eu%unknown_open. specialize (Hn x Hx).
    by rewrite (proj2 (open_on_spec _ _)) in Hn. }
  assert (tables_ok rs' (os ++ [o])) as Hok'.
  { constructor.
    - unfold rs'. rewrite update_column; [apply Hok|done].
    - unfold rs'. rewrite update_column; [apply Hok|done].
    - apply insert_column_NoDup; [apply Hok|done].
    - intros x x' g [Hx| ->%list_elem_of_singleton]%elem_of_app [Hx'| ->%list_elem_of_singleton]%elem_of_app E E';
        [by apply (to_one_open _ _ Hok x x' g)|..|done].
      + apply open_on_spec in E' as [<- _]. by rewrite Hn in E.
      + apply open_on_spec in E as [<- _]. by rewrite Hn in E'.
    - intros x [Hx| ->%list_elem_of_singleton]%elem_of_app Ho.
      + destruct (to_resource _ _ Hok x Hx Ho) as (y & Hy & Hgy & Hey). exists (F y). split; [by apply Hin|].
        destruct (HF y) as [Hky ->]. split; [done|]. rewrite <- Hey. unfold res_key, res_env in *. congruence.
      + exists (F r). split; [by apply Hin|]. destruct (HF r) as [Hkr ->]. split; [done|].
        rewrite <- He. unfold res_key, res_env in *. congruence.
    - intros y (x & Hx & ->)%elem_of_update. fold (F x). destruct (HF x) as [_ ->]. unfold F.
      destruct (has_guresid (op_guresid o) x) eqn:E.
      + apply has_guresid_spec in E. rewrite (Fd x Hx E). split.
        * intros Huo. exists o. rewrite elem_of_app. split_and!; [right; by left|done..].
        * intros (y & [Hy| ->%list_elem_of_singleton]%elem_of_app & Hgy & Huy); [|done].
          rewrite (Hu y Hy) in Huy by congruence. done.
      + rewrite (to_doubt _ _ Hok x Hx). apply not_true_iff_false in E. rewrite has_guresid_spec in E.
        split; intros (y & Hy & Hgy & Huy); [exists y; rewrite elem_of_app; auto|].
        apply elem_of_app in Hy as [Hy| ->%list_elem_of_singleton]; [by exists y|]. congruence.
    - intros x s [Hx| ->%list_elem_of_singleton]%elem_of_app; [by apply Hok|apply Hs]. }
  split_and!; [done| |].
  - apply (phase_open _ _ _ (F r)); [intros ? ?; apply Hok'|by apply Hin|by destruct (HF r) as [_ ->]|..].
    + apply elem_of_app. right. by left.
    + by apply open_on_spec.
  - intros g Hne. apply phase_same; [intros ? ?; apply Hok'|..].
    + split; intros (x & Hx & Hgx).
      * exists (F x). split; [by apply Hin|by destruct (HF x) as [_ ->]].
      * apply elem_of_update in Hx as (y & Hy & ->). exists y. split; [done|].
        fold (F y) in Hgx. by destruct (HF y) as [_ <-].
    + intros x Hx E. exists x. rewrite elem_of_app. auto.
    + intros x [Hx| ->%list_elem_of_singleton]%elem_of_app E; [by exists x|].
      by apply open_on_spec in E as [<- _].
Qed.

(** Resources go, and nothing is open on them. *)
Lemma remove_resources p q :
  (∀ o, o ∈ os → is_open o = true → q o = false → ∀ r, r ∈ rs → rs_guresid r = op_guresid o → p r = false) →
  (∀ o, o ∈ os → is_open o = true → q o = true → ∀ r, r ∈ rs → rs_guresid r = op_guresid o → p r = true) →
  let rs' := delete_rows p rs in
  let os' := delete_rows q os in
  tables_ok rs' os' ∧ ∀ g, phase_of rs' os' g = if existsb (λ r, has_guresid g r && p r) rs then Gone else phase_of rs os g.
Proof using Hok.
  intros Hkeep Hgo rs' os'.
  assert (tables_ok rs' os') as Hok'.
  { constructor; try (apply delete_column_NoDup, Hok).
    - intros o o' g [Ho _]%elem_of_delete [Ho' _]%elem_of_delete. by apply Hok.
    - intros o [Ho Hq]%elem_of_delete Hop. destruct (to_resource _ _ Hok o Ho Hop) as (r & Hr & Hg & He).
      exists r. split; [|done]. apply elem_of_delete. split; [done|]. by apply (Hkeep o).
    - intros r [Hr Hp]%elem_of_delete. rewrite (to_doubt _ _ Hok r Hr). split.
      + intros (o & Ho & Hg & Hu). exists o. split_and!; [|done..]. apply elem_of_delete. split; [done|].
        apply not_true_is_false. intros Hq. rewrite (Hgo o Ho (unknown_open o Hu) Hq r Hr) in Hp; done.
      + intros (o & [Ho _]%elem_of_delete & Hg & Hu). by exists o.
    - intros o s [Ho _]%elem_of_delete. by apply Hok. }
  split; [done|]. intros g. destruct (existsb _ rs) eqn:E.
  - apply existsb_true in E as (r & Hr & [Hg%has_guresid_spec Hp]%andb_true_iff). apply phase_gone.
    intros r' [Hr' Hp']%elem_of_delete Hg'. assert (r' = r) as ->; [|congruence].
    apply (row_of_key rs_guresid rs); [apply Hok|done|done|congruence].
  - assert (∀ r, r ∈ rs → rs_guresid r = g → p r = false) as Hpf.
    { intros r Hr Hg. pose proof (proj1 (existsb_false _ _) E r Hr) as Hf. simpl in Hf.
      by rewrite (proj2 (has_guresid_spec _ _) Hg) in Hf. }
    apply phase_same; [intros ? ?; apply Hok'|..].
    + split; intros (r & Hr & Hg); exists r; [|by apply elem_of_delete in Hr as [? _]].
      split; [|done]. apply elem_of_delete. auto.
    + intros o Ho Hop. exists o. split_and!; [|done..]. apply elem_of_delete. split; [done|].
      apply not_true_is_false. intros Hq. destruct (open_resource o g Ho Hop) as (r & Hr & Hg).
      apply open_on_spec in Hop as [Hgo' Hop]. pose proof (Hpf r Hr Hg) as Hf.
      rewrite (Hgo o Ho Hop Hq r Hr) in Hf; congruence.
    + intros o [Ho _]%elem_of_delete Hop. by exists o.
Qed.
End writes.
