(* ===== verification/ResourceSteps.v ===== *)
(** * What the store does to a resource

    The transitions of a resource between its phases, as a relation indexed by the operation
    of the store, and what each method on resources does to the tables. *)

From Stdlib Require Import Ascii.
From stdpp Require Import base sets strings list.
From S2P Require Import Prelude Strings OrdMap Json Model Ids Sets Db DbLogic Identity Rbac Apps Permits Deployments Resources IdentityInv IdentityRoles DeployInv Access Operations DeployProofs Lifecycle Phases.

Local Open Scope string_scope.
Local Open Scope Z_scope.
Local Open Scope list_scope.

(** ** The specification *)

(** A recovery document that does not claim to come from a backup. *)
Definition unmarked (recovery : Value) : bool :=
  match restored_status recovery with Ok (Some _) => false | _ => true end.

(** What the callers of the store keep to: the recovery document that an operation begins or is
    recorded with has no [restored_status], the mark that [sqlite_restore.rs] alone writes. The
    store does not check it; the documents of the planner, the only caller, are such
    ([PlanRecords]). *)
Definition plain_op (op : StoreOp) : bool :=
  match op with
  | OpBeginOperation start => unmarked (os_recovery start)
  | OpRecordInputs _ recovery => unmarked recovery
  | _ => true
  end.

(** The operation had reached its driver, and whether it completed is not recorded. *)
Definition in_flight (d : Db) (o : OperationRow) : bool :=
  negb (String.eqb (op_kind o) "delete"
    && existsb (λ r, has_guresid (op_guresid o) r && rs_cleanup_pending r) (db_active_resources d))
  && negb (String.eqb (op_kind o) "put" && negb (has_inputs (op_recovery o))).

Definition interrupted (d : Db) (o : OperationRow) : Phase :=
  if in_flight d o then InDoubt (op_id o) else Idle.

(** The deployment of the operation no longer runs. *)
Definition abandoned (d : Db) (o : OperationRow) : bool :=
  match select_one (λ x, String.eqb (dp_id x) (op_deployment_id o)) (db_deployments d) with
  | Some x => negb (is_running x)
  | None => false
  end.

(** The resource that the operation begins on, if it is there already. *)
Definition begins_on (d : Db) (start : OperationStart) : option string :=
  rs_guresid <$> select_one (is_resource (os_app start) (os_env start) (Descriptor_show (os_descriptor start)))
    (db_active_resources d).

(** Finishing the deployment removes the environment. *)
Definition removes_env (d : Db) (app env id : string) (error : option string) : bool :=
  match select_one (is_deployment app env id) (db_deployments d) with
  | Some r => negb (is_some error) && String.eqb (dp_kind r) "delete_env"
      && negb (existsb (blocks_removal app env) (db_active_resources d))
  | None => false
  end.

(** A restored database has no open operation on the resource, which it records as provisioned. *)
Definition to_mark (d : Db) (g : string) : bool :=
  existsb (λ r, has_guresid g r && negb (rs_cleanup_pending r) && negb (String.eqb (rs_status r) "deletion_failed"))
    (db_active_resources d)
  && negb (existsb (open_on g) (db_operations d)) && is_some (last_provisioning g d).

Definition on_resource (id g : string) (d : Db) : bool :=
  existsb (λ o, is_operation id o && String.eqb (op_guresid o) g) (db_operations d).

(** The resources that an operation of the store is about. *)
Definition concerns (d : Db) (op : StoreOp) (g : string) : bool :=
  match op with
  | OpBeginOperation start => eq_opt (begins_on d start) (Some g)
  | OpCheckpoint id _ | OpResolve id _ _ => on_resource id g d
  | OpDetach _ _ _ detach _ => String.eqb (dt_guresid detach) g
  | OpFinishDeployment _ app env id error =>
      removes_env d app env id error && existsb (λ r, has_guresid g r && res_in_env app env r) (db_active_resources d)
  | OpRecover => match phase d g with Calling _ => true | _ => false end
  | OpMarkRestored => to_mark d g
  | _ => false
  end.

(** Where the result of an operation leaves its resource. *)
Definition after (result : CheckpointResult) (id : string) : Phase :=
  match result with
  | WasDeleted => Gone
  | WasUnknown _ _ => InDoubt id
  | WasProvisioned _ | WasFailed _ | CleanupPending _ => Idle
  end.

(** What an observation of the resource can establish. *)
Definition observation (result : CheckpointResult) : bool :=
  match result with WasProvisioned _ | WasDeleted => true | _ => false end.

Definition resolved (resolution : Resolution) (id : string) : Phase :=
  match resolution with
  | Observed result => after result id
  | NeedsRecovery _ => InDoubt id
  | Repeatable _ | Confirmed | Operator _ => Idle
  end.

(** Nothing is deployed in the environment. *)
Definition env_idle (d : Db) (app env : string) : Prop :=
  ∀ r, r ∈ db_deployments d → deployment_env r = (app, env) → is_running r = false.

(** When an unknown outcome may be resolved this way. *)
Definition may_resolve (d : Db) (o : OperationRow) (resolution : Resolution) (actor : option string) : Prop :=
  env_idle d (op_app o) (op_env o)
  ∧ match resolution with
    | Observed result => observation result = true
    | Confirmed => ∃ s, restored_status (op_recovery o) = Ok (Some s)
    | Operator _ => is_Some actor ∧ administers (view d) actor
    | Repeatable _ | NeedsRecovery _ => True
    end.

(** The transitions of the resource [g]. *)
Inductive phase_step (d : Db) (g : string) : StoreOp → Phase → Phase → Prop :=
| ps_stay op p : concerns d op g = false → phase_step d g op p p
| ps_create start id :
    begins_on d start = None → os_kind start = Put → phase_step d g (OpBeginOperation start) Gone (Calling id)
| ps_begin start id : begins_on d start = Some g → phase_step d g (OpBeginOperation start) Idle (Calling id)
| ps_abandoned start o id :
    begins_on d start = Some g → o ∈ db_operations d → in_flight d o = false → abandoned d o = true →
    phase_step d g (OpBeginOperation start) (Calling (op_id o)) (Calling id)
| ps_lost start o :
    begins_on d start = Some g → o ∈ db_operations d → in_flight d o = true → abandoned d o = true →
    phase_step d g (OpBeginOperation start) (Calling (op_id o)) (InDoubt (op_id o))
| ps_result id result : phase_step d g (OpCheckpoint id result) (Calling id) (after result id)
| ps_observed id result :
    observation result = true → phase_step d g (OpCheckpoint id result) (InDoubt id) (after result id)
| ps_resolved o resolution audit :
    o ∈ db_operations d → may_resolve d o resolution (ai_actor audit) →
    phase_step d g (OpResolve (op_id o) resolution audit) (InDoubt (op_id o)) (resolved resolution (op_id o))
| ps_restart o : o ∈ db_operations d → phase_step d g OpRecover (Calling (op_id o)) (interrupted d o)
| ps_restored id : to_mark d g = true → phase_step d g OpMarkRestored Idle (InDoubt id)
| ps_detached org app env detach audit :
    dt_guresid detach = g → administers (view d) (ai_actor audit) → env_idle d app env →
    phase_step d g (OpDetach org app env detach audit) Idle Gone
| ps_removed org app env id p :
    concerns d (OpFinishDeployment org app env id None) g = true →
    phase_step d g (OpFinishDeployment org app env id None) p Gone.

(** ** Operations that concern no resource *)

Definition same_res : relation Db := λ d d',
  db_active_resources d' = db_active_resources d ∧ db_operations d' = db_operations d.

#[export] Instance same_res_PreOrder : PreOrder same_res.
Proof. split; [by intros d|]. intros d1 d2 d3 [] []. split; congruence. Qed.

Lemma same_res_ok d d' : same_res d d' → res_ok d → res_ok d'.
Proof. intros [E1 E2]. unfold res_ok. by rewrite E1, E2. Qed.

Lemma same_res_phase d d' g : same_res d d' → phase d' g = phase d g.
Proof. intros [E1 E2]. unfold phase. by rewrite E1, E2. Qed.

Section steps.
Context `{System} (org : string).

#[local] Hint Extern 1 (same_res _ _) => (split; reflexivity) : tx.

Lemma audit_same_res i o c : tx_rel same_res (audit_insert i o c).
Proof. by apply tx_rel_audit. Qed.

Lemma log_same_res id op level line : tx_rel same_res (log_in_tx id op level line).
Proof. unfold log_in_tx, append_log. tx_steps; done. Qed.

Lemma try_permits_same_res u t g now l rows : tx_rel same_res (try_permits u t g now l rows).
Proof. by apply try_permits_rel; [apply _|]. Qed.

Lemma remove_app_same_res app : tx_rel same_res (remove_app app).
Proof. unfold remove_app. tx_steps; done. Qed.

Lemma accept_in_tx_same_res req : tx_rel same_res (accept_in_tx req).
Proof.
  unfold accept_in_tx, accept_new, freeze_delta, create_deployment, insert_deployment, audit_bound,
    bind_permits, bind_permit. tx_steps; done.
Qed.
#[local] Hint Resolve log_same_res try_permits_same_res remove_app_same_res accept_in_tx_same_res : tx.

(** The operations that leave resources and their operations alone. *)
Definition about_resources (op : StoreOp) : bool :=
  match op with
  | OpFinishDeployment _ _ _ _ _ | OpBeginOperation _ | OpCheckpoint _ _ | OpRecordInputs _ _
  | OpKeepCookie _ _ _ | OpResolve _ _ _ | OpDetach _ _ _ _ _ | OpScheduleDeletion _ _ _ _ _
  | OpRecover | OpMarkRestored => true
  | _ => false
  end.

Lemma exec_same_res digest op : about_resources op = false → tx_rel same_res (exec org digest op).
Proof.
  intros Hop. destruct op; try done; clear Hop; simpl; unfold drop, create_principal, create_bootstrap_admin,
    set_org_role, update_principal, remove_principal, set_identity, create_token, revoke_token,
    authenticate_token, record_session, revoke_session, signing_key, create_invitation,
    accept_invitation, set_app_role, remove_app_role, set_env_type_role, remove_env_type_role,
    record_audit, create_env_type, update_env_type, delete_env_type, create_app, update_app,
    create_env, update_env, put_set, put_set_audited, write_delta, insert_principal,
    set_org_role_column, set_name_column, insert_identity, upsert_app_role,
    insert_env_type_role, ensure_env_type, insert_env, insert_set, insert_token, delete_principal,
    put_plan, record_approval_request, issue_permits, insert_permit, use_permit, consume_permit, append_logs,
    append_log, accept_deployment, accept_app_deletion, delete_env_of, record_resource_status, upsert_run;
    tx_steps; auto with tx.
Qed.

(** The step that changes nothing of them. *)
Definition good_step (op : StoreOp) (d d' : Db) : Prop := res_ok d' ∧ ∀ g, phase_step d g op (phase d g) (phase d' g).

Lemma same_step_good op d d' :
  res_ok d → same_res d d' → (∀ g, concerns d op g = false) → good_step op d d'.
Proof.
  intros Hok Hs Hc. split; [by eapply same_res_ok|]. intros g. rewrite (same_res_phase d d' g Hs). by apply ps_stay.
Qed.

(** Changes in place that keep every phase. *)
Lemma touched_good op d d' :
  (∀ g, concerns d op g = false) → res_ok d' → (∀ g, phase d' g = phase d g) → good_step op d d'.
Proof. intros Hc Hk Hp. split; [done|]. intros g. rewrite Hp. by apply ps_stay. Qed.

Lemma record_operation_inputs_good id recovery d n u c' :
  unmarked recovery = true → res_ok d → record_operation_inputs id recovery (mk_Conn d n) = Ok (u, c') →
  good_step (OpRecordInputs id recovery) d (c_db c').
Proof.
  intros Hm Hok Hx. unfold record_operation_inputs in Hx. inv_tx Hx.
  edestruct (touch_operations _ _ Hok (λ o, is_operation id o && String.eqb (op_state o) "started")
    (set_op_recovery recovery)) as [Hk Hp]; try done; [|by apply touched_good].
  intros o s _ Hs. simpl in Hs. unfold unmarked in Hm. by rewrite Hs in Hm.
Qed.

Lemma keep_recovery_cookie_good id observed cookie d n u c' :
  res_ok d → keep_recovery_cookie id observed cookie (mk_Conn d n) = Ok (u, c') →
  good_step (OpKeepCookie id observed cookie) d (c_db c').
Proof.
  intros Hok Hx. unfold keep_recovery_cookie in Hx. inv_tx Hx. destruct (select_one _ _); inv_tx Hx.
  - 
    edestruct (touch _ _ Hok) as [Hk Hp]; [..|apply touched_good; [done|exact Hk|exact Hp]]; done.
  - by apply same_step_good.
Qed.

Lemma schedule_deletion_good o app env descriptor audit d n u c' :
  res_ok d → schedule_deletion org o app env descriptor audit (mk_Conn d n) = Ok (u, c') →
  good_step (OpScheduleDeletion o app env descriptor audit) d (c_db c').
Proof.
  intros Hok Hx. unfold schedule_deletion in Hx. inv_tx Hx. settle H0. settle H1.
  destruct (rs_scheduled_deletion v); inv_tx Hx.
  - by apply same_step_good.
  - settle H2. 
    edestruct (touch _ _ Hok) as [Hk Hp]; [..|apply touched_good; [done|exact Hk|exact Hp]]; done.
Qed.

(** ** Checkpoints *)

(** The phase of [g] alone moves, from [before]. *)
Definition moves (g : string) (before next : Phase) (d d' : Db) : Prop :=
  res_ok d' ∧ phase d g = before ∧ phase d' g = next ∧ ∀ g', g' ≠ g → phase d' g' = phase d g'.

Lemma moves_good op g p q d d' :
  moves g p q d d' → phase_step d g op p q → (∀ g', g' ≠ g → concerns d op g' = false) → good_step op d d'.
Proof.
  intros (Hk & Hp & Hq & Ho) Hs Hc. split; [done|]. intros g'. destruct (String.eqb_spec g' g) as [->|Hne].
  - by rewrite Hp, Hq.
  - rewrite Ho by done. by apply ps_stay, Hc.
Qed.

Lemma moves_same g p q d d1 d2 : moves g p q d d1 → same_res d1 d2 → moves g p q d d2.
Proof.
  intros (Hk & Hp & Hq & Ho) Hs. split; [by eapply same_res_ok|]. split_and!; [done|by rewrite (same_res_phase _ _ _ Hs)|].
  intros g' Hne. rewrite (same_res_phase _ _ _ Hs). auto.
Qed.

Lemma open_phase_of d o : res_ok d → o ∈ db_operations d → is_open o = true → phase d (op_guresid o) = open_phase o.
Proof.
  intros Hok Ho Hop. destruct (to_resource _ _ Hok o Ho Hop) as (r & Hr & Hg & _).
  apply (phase_open _ _ _ r); [intros ? ?; by apply Hok|done..|by apply open_on_spec].
Qed.

(** The outcome of an open operation, written to both tables. *)
Lemma settled_moves d d' o state fo fr :
  res_ok d → o ∈ db_operations d → is_open o = true →
  (∀ r, res_key (fr r) = res_key r) → (∀ r, rs_guresid (fr r) = rs_guresid r) →
  (∀ x, op_id (fo x) = op_id x) → (∀ x, op_guresid (fo x) = op_guresid x) → (∀ x, op_place (fo x) = op_place x) →
  (∀ x, op_recovery (fo x) = op_recovery x) → op_state (fo o) = state →
  (∀ r, in_doubt (rs_status (fr r)) = String.eqb state "unknown") → state ≠ "started" →
  db_active_resources d' = update (has_guresid (op_guresid o)) fr (db_active_resources d) →
  db_operations d' = update (is_operation (op_id o)) fo (db_operations d) →
  moves (op_guresid o) (open_phase o) (if String.eqb state "unknown" then InDoubt (op_id o) else Idle) d d'.
Proof.
  intros Hok Ho Hop Fk Fg Gi Gg Gp Gr Gs Fd Hst Er Eo.
  destruct (settle_operation _ _ Hok o (op_guresid o) fo fr)
    as (Hk & Hg & Hn); try done.
  - by apply open_on_spec.
  - intros r. unfold is_unknown. by rewrite Gs.
  - unfold is_open, is_unknown. by rewrite Gs, (proj2 (String.eqb_neq _ _) Hst).
  - split; [unfold res_ok; by rewrite Er, Eo|]. split; [by apply open_phase_of|].
    unfold phase. rewrite Er, Eo. unfold is_unknown in Hg. by rewrite Gs in Hg.
Qed.

Lemma update_update {A} (p : A → bool) f g t :
  (∀ r, p (g r) = p r) → update p f (update p g t) = update p (λ r, f (g r)) t.
Proof.
  intros Hp. unfold update. rewrite <- list_fmap_compose. apply list_fmap_ext. intros i r _. simpl.
  destruct (p r) eqn:E; [by rewrite Hp, E|by rewrite E].
Qed.

Lemma delete_updated {A} (p : A → bool) f t : (∀ r, p (f r) = p r) → delete_rows p (update p f t) = delete_rows p t.
Proof.
  intros Hp. induction t as [|r t IH]; [done|]. unfold update, delete_rows in *.
  rewrite fmap_cons, !filter_cons, IH. destruct (p r) eqn:E; by rewrite ?Hp, ?E.
Qed.

Lemma delete_none {A} (t : list A) : delete_rows (λ _, false) t = t.
Proof. induction t as [|r t IH]; [done|]. unfold delete_rows in *. rewrite filter_cons, IH. by case_decide. Qed.

(** The resource of an operation that is settled goes. *)
Lemma gone_moves d d' o error finished :
  res_ok d → o ∈ db_operations d → is_open o = true →
  db_active_resources d' = delete_rows (has_guresid (op_guresid o)) (db_active_resources d) →
  db_operations d' = update (is_operation (op_id o)) (set_op_state "succeeded" error finished) (db_operations d) →
  moves (op_guresid o) (open_phase o) Gone d d'.
Proof.
  intros Hok Ho Hop Er Eo.
  destruct (settle_operation _ _ Hok o (op_guresid o) (set_op_state "succeeded" error finished)
    (set_res_status "deleting" None 0)) as (Hk & Hg & Hn); try done; [by apply open_on_spec|].
  destruct (remove_resources _ _ Hk (has_guresid (op_guresid o)) (λ _, false)) as [Hk' Hp]; [|done|].
  - intros x Hx Hxo _ r Hr Hrg. apply not_true_is_false. rewrite has_guresid_spec, Hrg. intros E.
    pose proof (phase_cases (update (has_guresid (op_guresid o)) (set_res_status "deleting" None 0) (db_active_resources d))
      (update (is_operation (op_id o)) (set_op_state "succeeded" error finished) (db_operations d)) (op_guresid o)) as Hc.
    rewrite Hg in Hc. destruct Hc as [[? _]|(_ & _ & _ & [[_ Hno]|(y & _ & _ & Hy)])]; [done| |].
    + specialize (Hno x Hx). by rewrite (proj2 (open_on_spec _ _)) in Hno.
    + simpl in Hy. unfold open_phase in Hy. by destruct (String.eqb _ _).
  - rewrite delete_updated, delete_none in Hk', Hp by done.
    split; [unfold res_ok; by rewrite Er, Eo|]. split; [by apply open_phase_of|].
    destruct (to_resource _ _ Hok o Ho Hop) as (r & Hr & Hrg & _). unfold phase. rewrite Er, Eo. split.
    + rewrite Hp. rewrite (proj2 (existsb_true _ _)); [done|].
      exists (set_res_status "deleting" None 0 r). rewrite andb_diag, has_guresid_spec. split; [|done].
      apply elem_of_update. exists r. by rewrite (proj2 (has_guresid_spec _ _) Hrg).
    + intros g Hne. rewrite Hp, Hn by done. rewrite (proj2 (existsb_false _ _)); [done|].
      intros x _. apply not_true_is_false. rewrite andb_true_iff, !has_guresid_spec. intros [<- ?]. done.
Qed.

Lemma bury_tables g stone c u c' :
  bury g stone c = Ok (u, c') →
  db_active_resources (c_db c') = delete_rows (has_guresid g) (db_active_resources (c_db c))
  ∧ db_operations (c_db c') = db_operations (c_db c).
Proof.
  intros Hx. unfold bury in Hx. inv_tx Hx.
  assert (∀ l, tx_rel same_res (for_each (λ r, append_tombstone (stone r)) l)) as Hs.
  { intros l. unfold append_tombstone. tx_steps; done. }
  apply Hs in H0 as [E1 E2]. simpl. by rewrite E1, E2.
Qed.

Lemma pin_deployment_same_res o descriptor pin : tx_rel same_res (pin_deployment o descriptor pin).
Proof. unfold pin_deployment. tx_steps; done. Qed.

Lemma check_result_Ok id state kind result c u c' :
  check_result id state kind result c = Ok (u, c') →
  c' = c ∧ (state = "unknown" → observation result = true).
Proof.
  intros Hx. unfold check_result in Hx.
  destruct result; inv_tx Hx; split; try done; intros ->; try done. by rewrite andb_false_r in Hc.
Qed.

Lemma checkpoint_moves id result d n u c' :
  res_ok d → checkpoint_in_tx id result (mk_Conn d n) = Ok (u, c') →
  ∃ o, o ∈ db_operations d ∧ op_id o = id ∧ is_open o = true
    ∧ (op_state o = "unknown" → observation result = true)
    ∧ moves (op_guresid o) (open_phase o) (after result id) d (c_db c').
Proof.
  intros Hok Hx. unfold checkpoint_in_tx in Hx. inv_tx Hx.
  apply select_one_Some in Hr as [Ho Hid%is_operation_spec]. apply check_result_Ok in H0 as [-> Hobs].
  exists v. split_and!; [done..|]. subst id.
  destruct result; simpl in H1; inv_tx H1; simpl in Hx; inv_tx Hx; simpl.
  - apply pin_deployment_same_res in H0 as [Er Eo]. simpl in *.
    apply (settled_moves _ _ v "succeeded" (set_op_state "succeeded" None (Some (clock n))) (provision_res_row p v (clock n))); try done;
      simpl; by rewrite ?Er, ?Eo.
  - apply bury_tables in H0 as [Er Eo]. simpl in *.
    apply (gone_moves _ _ v None (Some (clock n))); try done; simpl; by rewrite ?Er, ?Eo.
  - apply (settled_moves _ _ v "failed" (set_op_state "failed" (Some error) (Some (clock n))) (set_res_status
      (if String.eqb (op_kind v) "delete" then "deletion_failed" else "failed") (Some (clock n)) (clock n))); try done.
    intros r. cbn. by destruct (String.eqb (op_kind v) "delete").
  - apply (settled_moves _ _ v "failed" (set_op_state "failed" (Some ("cleanup pending: " +:+ error)) (Some (clock n))) (λ r, set_res_status
      "deletion_failed" (Some (clock n)) (clock n) (set_res_flags (rs_scheduled_deletion r) true (rs_updated_at r) r)));
      try done. by rewrite <- update_update.
  - destruct cookie as [k|]; inv_tx H0.
    + apply (settled_moves _ _ v "unknown" (set_op_state "unknown" (Some error) (Some (clock n))) (λ r, set_res_status "unknown"
        (Some (clock n)) (clock n) (set_cookie k r))); try done. by rewrite <- update_update.
    + by apply (settled_moves _ _ v "unknown" (set_op_state "unknown" (Some error) (Some (clock n))) (set_res_status "unknown"
        (Some (clock n)) (clock n))).
Qed.

Lemma on_resource_other d o id g :
  res_ok d → o ∈ db_operations d → op_id o = id → g ≠ op_guresid o → on_resource id g d = false.
Proof.
  intros Hok Ho Hid Hne. apply existsb_false. intros x Hx. apply not_true_is_false.
  rewrite andb_true_iff, is_operation_spec, String.eqb_eq. intros [Hxi Hxg].
  rewrite (row_of_key op_id (db_operations d) x o) in Hxg; [done|apply Hok|done|done|congruence].
Qed.

Lemma checkpoint_good id result d n u c' :
  res_ok d → checkpoint_in_tx id result (mk_Conn d n) = Ok (u, c') →
  good_step (OpCheckpoint id result) d (c_db c').
Proof.
  intros Hok Hx. apply checkpoint_moves in Hx as (o & Ho & <- & Hop & Hobs & Hm); [|done].
  apply (moves_good _ _ _ _ _ _ Hm); [|intros g; by apply on_resource_other].
  unfold open_phase. destruct (String.eqb_spec (op_state o) "unknown") as [E|_]; constructor; auto.
Qed.

(** ** Resolving doubt *)

#[local] Arguments check_admin_authority : simpl never.

Lemma check_idle_Ok app env d n u c' :
  check_idle app env (mk_Conn d n) = Ok (u, c') → c' = mk_Conn d n ∧ env_idle d app env.
Proof.
  intros Hx. unfold check_idle in Hx. inv_tx Hx. destruct (select_one _ _) eqn:E; inv_tx Hx. split; [done|].
  intros r Hr He%in_env_spec. pose proof (proj1 (select_one_None _ _) E r Hr) as Hn. simpl in Hn. by rewrite He in Hn.
Qed.

Lemma restore_status_Ok g status now c u c' :
  restore_status g status now c = Ok (u, c') →
  c_db c' = upd_active_resources (update (has_guresid g) (set_res_status status (Some now) now)) (c_db c).
Proof. intros Hx. unfold restore_status in Hx. by inv_tx Hx. Qed.

Lemma apply_resolution_moves o restored dep now actor resolution d n repeat c' :
  res_ok d → identity_ok d → o ∈ db_operations d → op_state o = "unknown" →
  restored_status (op_recovery o) = Ok restored →
  apply_resolution o restored dep now actor resolution (mk_Conn d n) = Ok (repeat, c') →
  match resolution with
  | Observed result => observation result = true
  | Confirmed => ∃ s, restored_status (op_recovery o) = Ok (Some s)
  | Operator _ => is_Some actor ∧ administers (view d) actor
  | Repeatable _ | NeedsRecovery _ => True
  end
  ∧ match repeat with
    | None => moves (op_guresid o) (InDoubt (op_id o)) (resolved resolution (op_id o)) d (c_db c')
    | Some _ => c_db c' = d ∧ resolved resolution (op_id o) = Idle
    end.
Proof.
  intros Hok Hid Ho Hst Hrs Hx.
  assert (is_open o = true) as Hop by (unfold is_open; by rewrite Hst).
  assert (open_phase o = InDoubt (op_id o)) as Hph by (unfold open_phase; by rewrite Hst).
  destruct resolution as [result|reason|reason| |reason]; simpl in Hx; inv_tx Hx; try done.
  - apply checkpoint_moves in H0 as (x & Hx & Hxi & _ & Hobs & Hm); [|done].
    rewrite (row_of_key op_id (db_operations d) x o) in Hobs, Hm by (done || apply Hok).
    rewrite Hph in Hm. auto.
  - split; [done|]. rewrite <- Hph at 1.
    by apply (settled_moves _ _ o "unknown" (λ x, set_op_state (op_state x)
      (Some ("recovery required: " +:+ reason)) (op_finished_at x) x)
      (set_res_status "recovery_required" (Some now) now)).
  - apply restore_status_Ok in H0. split; [by eexists|]. rewrite <- Hph, H0.
    apply (settled_moves _ _ o "succeeded" (set_op_state "succeeded" None (Some now)) (set_res_status v (Some now) now)); try done.
    intros r. by apply (to_restored _ _ Hok o v).
  - match goal with Hc : check_admin_authority _ _ = _ |- _ =>
      pose proof (check_admin_authority_reads _ _ _ _ Hc) as Hd; apply (check_admin_authority_Ok d Hid) in Hc end.
    split; [split; [by eexists|done]|]. split; [by rewrite <- Hd|done].
Qed.

(** A resolution that is allowed settles the resource of its operation, and no other. *)
Lemma resolve_operation_moves id resolution audit d n u c' :
  res_ok d → identity_ok d → resolve_operation id resolution audit (mk_Conn d n) = Ok (u, c') →
  ∃ o, o ∈ db_operations d ∧ op_id o = id ∧ may_resolve d o resolution (ai_actor audit)
    ∧ moves (op_guresid o) (InDoubt id) (resolved resolution id) d (c_db c').
Proof.
  intros Hok Hid Hx. unfold resolve_operation in Hx. inv_tx Hx.
  rewrite Hr in Hl. apply select_one_Some in Hr as [Ho <-%is_operation_spec].
  apply String.eqb_eq in Hc. apply check_idle_Ok in H0 as [-> Hidle].
  apply apply_resolution_moves in H1 as [Hmay Hm]; try done.
  exists v0. split_and!; [done..|]. destruct a0 as [error|]; inv_tx H2; [|done]. destruct Hm as [Hd ->].
  assert (is_open v0 = true) as Hop by (unfold is_open; by rewrite Hc).
  assert (open_phase v0 = InDoubt (op_id v0)) as <- by (unfold open_phase; by rewrite Hc).
  apply (settled_moves _ _ v0 "failed" (set_op_state "failed" (Some error) (Some (clock n))) (set_res_status
    (if String.eqb (op_kind v0) "delete" then "deletion_failed" else "failed") (Some (clock n)) (clock n)));
    try done; simpl; rewrite ?Hd; try done.
  intros r. by destruct (String.eqb (op_kind v0) "delete").
Qed.

Lemma resolve_operation_good id resolution audit d n u c' :
  res_ok d → identity_ok d → resolve_operation id resolution audit (mk_Conn d n) = Ok (u, c') →
  good_step (OpResolve id resolution audit) d (c_db c').
Proof.
  intros Hok Hid Hx. eapply resolve_operation_moves in Hx as (o & Ho & <- & Hmay & Hm); [|done..].
  apply (moves_good _ _ _ _ _ _ Hm); [by apply ps_resolved|]. intros g. by apply on_resource_other.
Qed.

(** ** Resources that go *)

(** A resource at rest is removed. *)
Lemma buried_moves d d' r :
  res_ok d → r ∈ db_active_resources d → (∀ o, o ∈ db_operations d → open_on (rs_guresid r) o = false) →
  db_active_resources d' = delete_rows (has_guresid (rs_guresid r)) (db_active_resources d) →
  db_operations d' = db_operations d → moves (rs_guresid r) Idle Gone d d'.
Proof.
  intros Hok Hr Hn Er Eo.
  destruct (remove_resources _ _ Hok (has_guresid (rs_guresid r)) (λ _, false)) as [Hk Hp]; [|done|].
  - intros o Ho Hop _ x _ Hx. apply not_true_is_false. rewrite has_guresid_spec, Hx. intros Hg.
    specialize (Hn o Ho). by rewrite (proj2 (open_on_spec _ _)) in Hn.
  - rewrite delete_none in Hk, Hp. split; [unfold res_ok; by rewrite Er, Eo|].
    split; [by apply (phase_idle _ _ _ r)|]. unfold phase. rewrite Er, Eo. split.
    + rewrite Hp. rewrite (proj2 (existsb_true _ _)); [done|]. exists r. by rewrite andb_diag, has_guresid_spec.
    + intros g Hne. rewrite Hp. rewrite (proj2 (existsb_false _ _)); [done|].
      intros x _. apply not_true_is_false. rewrite andb_true_iff, !has_guresid_spec. intros [<- ?]. done.
Qed.

Lemma check_detach_Ok app env detach d n u c' :
  check_detach app env detach (mk_Conn d n) = Ok (u, c') →
  c' = mk_Conn d n ∧ ∃ r, r ∈ db_active_resources d ∧ rs_guresid r = dt_guresid detach
    ∧ is_resource app env (dt_descriptor detach) r = true
    ∧ ∀ o, o ∈ db_operations d → open_on (rs_guresid r) o = false.
Proof.
  intros Hx. unfold check_detach in Hx. inv_tx Hx. destruct (select_one _ (db_operations d)) eqn:E; inv_tx Hx.
  split; [done|]. apply select_one_Some in Hr as [Hr Hres]. apply String.eqb_eq in Hc.
  exists v. split_and!; [done..|]. intros o Ho. pose proof (proj1 (select_one_None _ _) E o Ho) as Hn.
  unfold open_on, is_open. unfold op_in_state in Hn. by destruct (String.eqb (op_guresid o) _).
Qed.

Lemma detach_permit_same_res o app env detach : tx_rel same_res (detach_permit o app env detach).
Proof. unfold detach_permit, consume_permit. tx_steps; done. Qed.

Lemma detach_resource_good o app env detach audit d n t c' :
  res_ok d → identity_ok d → detach_resource org o app env detach audit (mk_Conn d n) = Ok (t, c') →
  good_step (OpDetach o app env detach audit) d (c_db c').
Proof.
  intros Hok Hid Hx. unfold detach_resource in Hx. inv_tx Hx.
  pose proof (check_admin_authority_Ok d Hid _ _ _ _ H0) as Ha. settle H0.
  apply check_idle_Ok in H1 as [-> Hidle]. apply check_detach_Ok in H2 as [-> (r & Hin & Hg & _ & Hn)].
  apply detach_permit_same_res in H3 as [E1 E2]. apply bury_tables in H4 as [E3 E4].
  assert (moves (dt_guresid detach) Idle Gone d (c_db c3)) as Hm.
  { rewrite <- Hg. apply (buried_moves _ _ r); try done; simpl in *; [by rewrite E3, E1, Hg|congruence]. }
  assert (same_res (c_db c3) (c_db c5)) as Hs by (destruct a2; inv_tx H5; done).
  apply (moves_good _ (dt_guresid detach) Idle Gone); [by eapply moves_same|by apply ps_detached|].
  intros g Hne. simpl. apply String.eqb_neq. congruence.
Qed.

(** ** Finishing a deployment *)

Definition op_in_env (app env : string) (o : OperationRow) : bool :=
  String.eqb (op_app o) app && String.eqb (op_env o) env.

Lemma remove_env_tables app env c u c' :
  remove_env app env c = Ok (u, c') →
  db_active_resources (c_db c') = delete_rows (res_in_env app env) (db_active_resources (c_db c))
  ∧ db_operations (c_db c') = delete_rows (op_in_env app env) (db_operations (c_db c)).
Proof.
  intros Hx. unfold remove_env in Hx. inv_tx Hx.
  assert (tx_rel same_res (release_resources app env)) as Hs.
  { unfold release_resources, append_tombstone. tx_steps; done. }
  apply Hs in H0 as [E1 E2]. simpl. by rewrite E1, E2.
Qed.

Lemma nothing_blocks app env d :
  take 5 (rs_descriptor <$> sort_by_key rs_descriptor (select (blocks_removal app env) (db_active_resources d))) = [] ↔
  existsb (blocks_removal app env) (db_active_resources d) = false.
Proof.
  rewrite existsb_false. split.
  - intros Ht r Hr. apply not_true_is_false. intros Hb.
    assert (r ∈ sort_by_key rs_descriptor (select (blocks_removal app env) (db_active_resources d))) as Hin
      by (rewrite sort_by_key_perm; by apply elem_of_select).
    by destruct (sort_by_key _ _); [apply not_elem_of_nil in Hin|].
  - intros Hn. destruct (sort_by_key rs_descriptor _) as [|r l] eqn:E; [done|].
    assert (r ∈ sort_by_key rs_descriptor (select (blocks_removal app env) (db_active_resources d))) as Hin
      by (rewrite E; left).
    rewrite sort_by_key_perm in Hin. apply elem_of_select in Hin as [Hr Hb]. by rewrite Hn in Hb.
Qed.

(** The error a deployment finishes with. *)
Lemma finish_error_removes app env kind error c e c' :
  finish_error app env kind error c = Ok (e, c') →
  c' = c ∧ (kind = DeleteEnv ∧ e = None ↔
    kind = DeleteEnv ∧ error = None ∧ existsb (blocks_removal app env) (db_active_resources (c_db c)) = false).
Proof.
  intros Hx. unfold finish_error in Hx. destruct kind, error; inv_tx Hx; (split; [done|]); try naive_solver.
  rewrite <- nothing_blocks. destruct (take 5 _); naive_solver.
Qed.

Lemma finish_env_same_res app env id kind set_id error :
  ¬ (kind = DeleteEnv ∧ error = None) → tx_rel same_res (finish_env app env id kind set_id error).
Proof. intros Hn. destruct kind, error; simpl; try (by destruct Hn); tx_steps; done. Qed.

Lemma finish_audit_same_res o app env id error b : tx_rel same_res (finish_audit o app env id error b).
Proof. unfold finish_audit. tx_steps; done. Qed.

Lemma finish_in_tx_tables o app env id error d n u c' :
  finish_in_tx o app env id error (mk_Conn d n) = Ok (u, c') →
  if removes_env d app env id error then
    db_active_resources (c_db c') = delete_rows (res_in_env app env) (db_active_resources d)
    ∧ db_operations (c_db c') = delete_rows (op_in_env app env) (db_operations d)
  else same_res d (c_db c').
Proof.
  intros Hx. unfold finish_in_tx in Hx. inv_tx Hx. apply finish_error_removes in H0 as [-> Hrem].
  apply log_same_res in H1 as [E1 E2]. apply finish_audit_same_res in Hx as [E3 E4]. simpl in *.
  assert (removes_env d app env id error = true ↔ v0 = DeleteEnv ∧ a = None) as Hiff.
  { rewrite Hrem. unfold removes_env. rewrite Hr. rewrite !andb_true_iff, !negb_true_iff, String.eqb_eq.
    unfold deployment_kind_parse in Hl. destruct error; simpl; [naive_solver|].
    destruct (String.eqb_spec (dp_kind v) "deploy") as [E|Hn]; [rewrite E; naive_solver|].
    destruct (String.eqb_spec (dp_kind v) "delete_env"); naive_solver. }
  destruct (removes_env d app env id error).
  - destruct (proj1 Hiff eq_refl) as [-> ->]. unfold finish_env in H2. inv_tx H2.
    apply remove_env_tables in H0 as [E5 E6]. simpl in *.
    assert (same_res (c_db c) (c_db c1)) as [E7 E8].
    { destruct (_ && _) in H2; inv_tx H2; [|done]. by eapply remove_app_same_res. }
    split; congruence.
  - apply finish_env_same_res in H2 as [E5 E6]; [|intros Hc'; by apply Hiff in Hc']. simpl in *. split; congruence.
Qed.

Lemma res_in_env_spec app env r : res_in_env app env r = true ↔ res_env r = (app, env).
Proof. apply eqb_pair. Qed.

Lemma op_in_env_spec app env o : op_in_env app env o = true ↔ op_place o = (app, env).
Proof. apply eqb_pair. Qed.

Lemma removed_good d d' app env :
  res_ok d → db_active_resources d' = delete_rows (res_in_env app env) (db_active_resources d) →
  db_operations d' = delete_rows (op_in_env app env) (db_operations d) →
  res_ok d' ∧ ∀ g, phase d' g =
    if existsb (λ r, has_guresid g r && res_in_env app env r) (db_active_resources d) then Gone else phase d g.
Proof.
  intros Hok Er Eo. unfold res_ok, phase. rewrite Er, Eo.
  assert (∀ o, o ∈ db_operations d → is_open o = true → ∀ r, r ∈ db_active_resources d →
    rs_guresid r = op_guresid o → res_in_env app env r = op_in_env app env o) as Hsame.
  { intros o Ho Hop r Hr Hg. destruct (to_resource _ _ Hok o Ho Hop) as (r' & Hr' & Hg' & He).
    rewrite (row_of_key rs_guresid (db_active_resources d) r r') by (done || apply Hok || congruence).
    apply eq_true_iff_eq. by rewrite res_in_env_spec, op_in_env_spec, He. }
  destruct (remove_resources _ _ Hok (res_in_env app env) (op_in_env app env)) as [Hk Hp]; [..|done].
  - intros o Ho Hop Hq r Hr Hg. by rewrite (Hsame o).
  - intros o Ho Hop Hq r Hr Hg. by rewrite (Hsame o).
Qed.

Lemma finish_deployment_good o app env id error d n u c' :
  res_ok d → finish_deployment org o app env id error (mk_Conn d n) = Ok (u, c') →
  good_step (OpFinishDeployment o app env id error) d (c_db c').
Proof.
  intros Hok Hx. unfold finish_deployment in Hx. inv_tx Hx. apply finish_in_tx_tables in Hx.
  destruct (removes_env d app env id error) eqn:Erem.
  - destruct Hx as [Er Eo]. destruct (removed_good _ _ _ _ Hok Er Eo) as [Hk Hp]. split; [done|].
    intros g. rewrite Hp. destruct (existsb _ _) eqn:E.
    + assert (error = None) as -> by (unfold removes_env in Erem; destruct (select_one _ _), error; done).
      apply ps_removed. simpl. by rewrite Erem, E.
    + apply ps_stay. simpl. by rewrite Erem, E.
  - apply same_step_good; [done..|]. intros g. simpl. by rewrite Erem.
Qed.

(** ** Beginning an operation *)

Lemma upsert_run_same_res row p f : tx_rel same_res (upsert_run row p f).
Proof. unfold upsert_run. tx_steps; done. Qed.

(** A resource that is not in doubt has no operation of unknown outcome. *)
Lemma certain d r o :
  res_ok d → r ∈ db_active_resources d → in_doubt (rs_status r) = false → o ∈ db_operations d →
  open_on (rs_guresid r) o = true → op_state o = "started" ∧ open_phase o = Calling (op_id o).
Proof.
  intros Hok Hr Hd Ho [Hg Hop]%open_on_spec. unfold open_phase.
  destruct (is_unknown o) eqn:Eu.
  - assert (in_doubt (rs_status r) = true); [|congruence]. apply (to_doubt _ _ Hok r Hr). eauto.
  - unfold is_unknown in Eu. rewrite Eu. unfold is_open in Hop. rewrite Eu, orb_false_r in Hop.
    by apply String.eqb_eq in Hop.
Qed.

Lemma close_operation_Ok id dep g a b e f now run c u c' :
  close_operation id dep g a b run e f now c = Ok (u, c') →
  db_active_resources (c_db c') = update (has_guresid g) (set_res_status b None now) (db_active_resources (c_db c))
  ∧ db_operations (c_db c') = update (is_operation id) (set_op_state a (Some e) f) (db_operations (c_db c)).
Proof. intros Hx. unfold close_operation in Hx. by inv_tx Hx. Qed.

(** An operation is closed: it failed, or its outcome is unknown. *)
Lemma closed_moves d n dep a b e f now run o u c' :
  res_ok d → o ∈ db_operations d → op_state o = "started" → a ≠ "started" →
  in_doubt b = String.eqb a "unknown" →
  close_operation (op_id o) dep (op_guresid o) a b run e f now (mk_Conn d n) = Ok (u, c') →
  moves (op_guresid o) (Calling (op_id o)) (if String.eqb a "unknown" then InDoubt (op_id o) else Idle) d (c_db c').
Proof.
  intros Hok Ho Hst Ha Hb [Er Eo]%close_operation_Ok.
  assert (open_phase o = Calling (op_id o)) as <- by (unfold open_phase; by rewrite Hst).
  apply (settled_moves _ _ o a (set_op_state a (Some e) f) (set_res_status b None now)); try done.
  unfold is_open. by rewrite Hst.
Qed.

Lemma cleanup_pending_row d r g :
  res_ok d → r ∈ db_active_resources d → rs_guresid r = g →
  existsb (λ x, has_guresid g x && rs_cleanup_pending x) (db_active_resources d) = rs_cleanup_pending r.
Proof.
  intros Hok Hr Hg. apply eq_true_iff_eq. rewrite existsb_true. split.
  - intros (x & Hx & [Hxg%has_guresid_spec Hp]%andb_true_iff).
    by rewrite (row_of_key rs_guresid (db_active_resources d) r x) by (done || apply Hok || congruence).
  - intros Hp. exists r. by rewrite (proj2 (has_guresid_spec _ _) Hg).
Qed.

Lemma close_abandoned_moves descriptor r o d n b c' :
  res_ok d → r ∈ db_active_resources d → o ∈ db_operations d → op_guresid o = rs_guresid r →
  op_state o = "started" → close_abandoned descriptor r o (mk_Conn d n) = Ok (b, c') →
  b = in_flight d o ∧ abandoned d o = true
  ∧ moves (rs_guresid r) (Calling (op_id o)) (interrupted d o) d (c_db c').
Proof.
  intros Hok Hr Ho Hg Hst Hx. unfold close_abandoned in Hx. inv_tx Hx.
  assert (abandoned d o = true) as Hab.
  { unfold abandoned. destruct (select_one _ _) as [x|]; [|done]. by injection Hr0 as <-. }
  unfold interrupted, in_flight. rewrite (cleanup_pending_row d r) by done. rewrite <- Hg in *.
  destruct (String.eqb (op_kind o) "delete" && rs_cleanup_pending r);
    [|destruct (String.eqb (op_kind o) "put" && negb _)]; inv_tx Hx; (split_and!; [done..|]);
    by eapply closed_moves in H0.
Qed.

Lemma moves_trans g p q q' r d1 d2 d3 : moves g p q d1 d2 → moves g q' r d2 d3 → moves g p r d1 d3.
Proof.
  intros (Hk1 & Hp1 & Hq1 & Ho1) (Hk2 & Hp2 & Hq2 & Ho2). split_and!; try done.
  intros g' Hne. by rewrite Ho2, Ho1.
Qed.

Lemma idle_closed d g o : phase d g = Idle → o ∈ db_operations d → open_on g o = false.
Proof.
  intros Hp Ho. destruct (phase_cases (db_active_resources d) (db_operations d) g)
    as [[Hg _]|(_ & _ & _ & [[_ Hn]|(x & _ & _ & Hx)])].
  - unfold phase in Hp. congruence.
  - by apply Hn.
  - unfold phase in Hp. rewrite Hp in Hx. unfold open_phase in Hx. by destruct (String.eqb _ _).
Qed.

Lemma update_same {A} (p : A → bool) t : update p (λ r, r) t = t.
Proof. unfold update. rewrite (list_fmap_ext _ id); [apply list_fmap_id|]. intros i r _. by destruct (p r). Qed.

(** An operation is opened on a resource at rest. *)
Lemma begun_moves d d' r o fr :
  res_ok d → phase d (op_guresid o) = Idle → r ∈ db_active_resources d → rs_guresid r = op_guresid o →
  res_env r = op_place o → is_open o = true → existsb (is_operation (op_id o)) (db_operations d) = false →
  (∀ s, restored_status (op_recovery o) = Ok (Some s) → in_doubt s = false) →
  (∀ r, res_key (fr r) = res_key r) → (∀ r, rs_guresid (fr r) = rs_guresid r) →
  (∀ x, x ∈ db_active_resources d → rs_guresid x = op_guresid o → in_doubt (rs_status (fr x)) = is_unknown o) →
  db_active_resources d' = update (has_guresid (op_guresid o)) fr (db_active_resources d) →
  db_operations d' = db_operations d ++ [o] → moves (op_guresid o) Idle (open_phase o) d d'.
Proof.
  intros Hok Hp Hr Hg He Hop Hid Hs Fk Fg Fd Er Eo.
  destruct (open_one _ _ Hok r o fr) as (Hk & Hn & Hr'); try done.
  - intros x Hx Hxi. apply (proj1 (existsb_false _ _) Hid) in Hx. by rewrite (proj2 (is_operation_spec _ _) Hxi) in Hx.
  - intros x Hx. by apply (idle_closed d).
  - unfold moves, res_ok. split; [by rewrite Er, Eo|]. split; [done|]. unfold phase. by rewrite Er, Eo.
Qed.

Lemma idle_certain d x :
  res_ok d → phase d (rs_guresid x) = Idle → x ∈ db_active_resources d → in_doubt (rs_status x) = false.
Proof.
  intros Hok Hp Hx. apply not_true_is_false. intros (o & Ho & Hg & Hu)%(to_doubt _ _ Hok x Hx).
  pose proof (idle_closed d _ o Hp Ho) as Hn. rewrite (proj2 (open_on_spec _ _)) in Hn; [done|].
  split; [done|by apply unknown_open].
Qed.

Lemma touched_moves d d' g p fr :
  res_ok d → phase d g = Idle →
  (∀ r, res_key (fr r) = res_key r) → (∀ r, rs_guresid (fr r) = rs_guresid r) →
  (∀ r, in_doubt (rs_status (fr r)) = false) → (∀ r, p r = true → rs_guresid r = g) →
  db_active_resources d' = update p fr (db_active_resources d) → db_operations d' = db_operations d →
  moves g Idle Idle d d'.
Proof.
  intros Hok Hp Fk Fg Fd Hpg Er Eo.
  destruct (touch _ _ Hok p fr) as [Hk Hph]; [done..| |].
  - intros r Hr Hpr. rewrite Fd. symmetry. apply (idle_certain d); [done| |done]. by rewrite (Hpg r Hpr).
  - split; [unfold res_ok; by rewrite Er, Eo|]. unfold phase in *. rewrite Er, Eo, Hph. auto.
Qed.

(** What [begin_resource] prepares: a resource at rest in the right environment. *)
Definition ready (start : OperationStart) (g : string) (d d1 : Db) : Prop :=
  (∃ p, moves g p Idle d d1 ∧ ∀ id, phase_step d g (OpBeginOperation start) p (Calling id))
  ∧ (∀ g', g' ≠ g → concerns d (OpBeginOperation start) g' = false)
  ∧ ∃ r, r ∈ db_active_resources d1 ∧ rs_guresid r = g ∧ res_env r = (os_app start, os_env start).

Lemma is_resource_spec app env descriptor r :
  is_resource app env descriptor r = true ↔ res_key r = (app, env, descriptor).
Proof.
  unfold is_resource. rewrite andb_true_iff, res_in_env_spec, String.eqb_eq. unfold res_env, res_key. naive_solver.
Qed.

Lemma insert_resource_moves start descriptor g now d n u c' :
  res_ok d → insert_resource (new_resource start descriptor g now) (mk_Conn d n) = Ok (u, c') →
  moves g Gone Idle d (c_db c') ∧ new_resource start descriptor g now ∈ db_active_resources (c_db c').
Proof.
  intros Hok Hx. unfold insert_resource in Hx. inv_tx Hx. apply negb_true_iff in Huniq.
  pose proof (proj1 (existsb_false _ _) Huniq) as Hn.
  assert (∀ r, r ∈ db_active_resources d → res_key r ≠ (os_app start, os_env start, descriptor) ∧ rs_guresid r ≠ g) as Hfresh.
  { intros r Hr. specialize (Hn r Hr). simpl in Hn. apply orb_false_iff in Hn as [Hk Hg].
    rewrite <- not_true_iff_false in Hk, Hg. rewrite is_resource_spec in Hk. by rewrite has_guresid_spec in Hg. }
  destruct (add_resource _ _ Hok (new_resource start descriptor g now)) as (Hk & Hi & Ho); try done;
    try (intros r Hr; by apply Hfresh).
  split; [|apply elem_of_app; right; left]. split_and!; [done| |done|done].
  apply phase_gone. intros r Hr. by apply Hfresh.
Qed.

(** The places of resources are not changed. *)
Definition same_places : relation Db := λ d d',
  (λ r, (res_key r, rs_guresid r)) <$> db_active_resources d' = (λ r, (res_key r, rs_guresid r)) <$> db_active_resources d.

#[local] Instance same_places_PreOrder : PreOrder same_places.
Proof. split; [by intros d|]. unfold same_places. intros d1 d2 d3 H1 H2. congruence. Qed.

Lemma place_kept d d' r :
  same_places d d' → r ∈ db_active_resources d →
  ∃ r', r' ∈ db_active_resources d' ∧ res_key r' = res_key r ∧ rs_guresid r' = rs_guresid r.
Proof.
  intros Hs Hr. assert ((res_key r, rs_guresid r) ∈ (λ r, (res_key r, rs_guresid r)) <$> db_active_resources d') as Hin.
  { rewrite Hs. by apply (list_elem_of_fmap_2 (λ r, (res_key r, rs_guresid r))). }
  apply list_elem_of_fmap in Hin as (r' & E & ?). exists r'. symmetry in E.
  split_and!; [done|exact (f_equal fst E)|exact (f_equal snd E)].
Qed.

Lemma close_abandoned_places descriptor r o : tx_rel same_places (close_abandoned descriptor r o).
Proof.
  unfold close_abandoned, close_operation. tx_steps; try done. unfold same_places. simpl. by apply update_column.
Qed.

(** What is open on the resource is closed, when it was abandoned. *)
Lemma abandon_Ok start descriptor r d n b c' :
  res_ok d → r ∈ db_active_resources d → in_doubt (rs_status r) = false → begins_on d start = Some (rs_guresid r) →
  match select_one (op_in_state (rs_guresid r) "started") (db_operations d) with
  | Some o => close_abandoned descriptor r o
  | None => ret false
  end (mk_Conn d n) = Ok (b, c') →
  same_places d (c_db c')
  ∧ if b : bool then ∃ p q, moves (rs_guresid r) p q d (c_db c') ∧ phase_step d (rs_guresid r) (OpBeginOperation start) p q
    else ∃ p, moves (rs_guresid r) p Idle d (c_db c')
      ∧ ∀ id, phase_step d (rs_guresid r) (OpBeginOperation start) p (Calling id).
Proof.
  intros Hok Hr Hd Hb Hx. destruct (select_one _ _) as [o|] eqn:E.
  - apply select_one_Some in E as [Ho [Hg%String.eqb_eq Hst%String.eqb_eq]%andb_true_iff].
    split; [by apply (close_abandoned_places _ _ _ _ _ _ Hx)|].
    apply close_abandoned_moves in Hx as (-> & Hab & Hm); [|done..]. unfold interrupted in Hm.
    destruct (in_flight d o) eqn:Ef.
    + exists (Calling (op_id o)), (InDoubt (op_id o)). split; [done|]. by apply ps_lost.
    + exists (Calling (op_id o)). split; [done|]. intros id. by apply ps_abandoned.
  - inv_tx Hx. split; [done|]. exists Idle. split; [|by intros id; apply ps_begin].
    assert (phase d (rs_guresid r) = Idle) as Hi; [|done].
    apply (phase_idle _ _ _ r); [done..|]. intros o Ho. apply not_true_is_false. intros Hop.
    destruct (certain d r o) as [Hst _]; [done..|]. apply open_on_spec in Hop as [Hg _].
    pose proof (proj1 (select_one_None _ _) E o Ho) as Hn. unfold op_in_state in Hn.
    by rewrite Hg, Hst, !String.eqb_refl in Hn.
Qed.

Lemma begin_resource_Ok start now d n res c' :
  let descriptor := Descriptor_show (os_descriptor start) in
  res_ok d → begin_resource start descriptor now (mk_Conn d n) = Ok (res, c') →
  match res with
  | Some g => ready start g d (c_db c')
  | None => good_step (OpBeginOperation start) d (c_db c')
  end.
Proof.
  intros descriptor Hok Hx. unfold begin_resource in Hx. inv_tx Hx.
  destruct (select_one _ (db_active_resources d)) as [r|] eqn:Es.
  - assert (begins_on d start = Some (rs_guresid r)) as Hb by (unfold begins_on; unfold descriptor in Es; by rewrite Es).
    apply select_one_Some in Es as [Hr Hkey%is_resource_spec]. inv_tx Hx. apply negb_true_iff in Hc.
    assert (c0 = mk_Conn d n) as -> by (destruct (driver_conflict start r) as [[? ?]|]; by inv_tx H0).
    assert (∀ g', g' ≠ rs_guresid r → concerns d (OpBeginOperation start) g' = false) as Hother.
    { intros g' Hne. simpl. rewrite Hb. simpl. apply String.eqb_neq. congruence. }
    apply (abandon_Ok start) in H1 as [Hp Hstep]; [|done..].
    destruct a0; inv_tx Hx.
    + destruct Hstep as (p & q & Hm & Hs). by apply (moves_good _ _ _ _ _ _ Hm).
    + destruct Hstep as (p & Hm & Hs). unfold Guresid_new in Hl. destruct (_ && _) in Hl; [|done].
      injection Hl as <-. split_and!; [|exact Hother|].
      * exists p. split; [|exact Hs]. eapply moves_trans; [exact Hm|].
        eapply (touched_moves _ _ _ (has_guresid (rs_guresid r)) (begin_res_row start _ now));
          [apply Hm|apply Hm|done|done| |intros x; apply has_guresid_spec|done|done].
        intros x. simpl. by destruct (os_kind start).
      * apply (place_kept d _ r) in Hp as (r' & Hr' & Hk & Hg'); [|done]. eexists.
        split; [apply elem_of_update; exists r'; split; [exact Hr'|reflexivity]|].
        rewrite (proj2 (has_guresid_spec _ _) Hg'). split; [exact Hg'|].
        unfold res_key, res_env in *. simpl. congruence.
  - inv_tx Hx. apply bool_decide_eq_true in Hc.
    pose proof (detached_reads _ _ _ _ _ _ H0) as Hd. destruct c as [d0 n0]. simpl in *. subst d0.
    destruct (insert_resource_moves _ _ _ _ _ _ _ _ Hok H1) as [Hm Hin].
    assert (begins_on d start = None) as Hb by (unfold begins_on; unfold descriptor in Es; by rewrite Es).
    split_and!; [|intros g' _; simpl; by rewrite Hb|].
    + exists Gone. split; [exact Hm|]. intros id. by apply ps_create.
    + eexists. split; [exact Hin|done].
Qed.

Lemma begin_operation_good start d n res c' :
  unmarked (os_recovery start) = true → res_ok d →
  begin_operation org start (mk_Conn d n) = Ok (res, c') → good_step (OpBeginOperation start) d (c_db c').
Proof.
  intros Hm Hok Hx. unfold begin_operation in Hx. inv_tx Hx. settle H0.
  apply begin_resource_Ok in H1; [|done]. destruct a0 as [g|]; inv_tx Hx; [|done].
  unfold insert_operation in H2. inv_tx H2. apply upsert_run_same_res in H3. simpl in *.
  destruct H1 as ((p & Hmv & Hs) & Ho & (r & Hr & Hg & He)).
  set (o := mk_OperationRow _ _ _ _ _ _ _ _ _ _ _ _ _ _ _ _) in *.
  apply (moves_good _ g p (Calling (op_id o))); [|apply Hs|exact Ho].
  eapply moves_same; [|exact H3]. eapply moves_trans; [exact Hmv|].
  eapply (begun_moves _ _ r o (λ r, r)); try done; try apply Hmv.
  - by apply negb_true_iff.
  - intros s Hrs. simpl in Hrs. unfold unmarked in Hm. by rewrite Hrs in Hm.
  - intros x Hx Hxg. simpl in *. rewrite (idle_certain (c_db c)); [done|apply Hmv| |done]. rewrite Hxg. apply Hmv.
  - simpl. by rewrite update_same.
Qed.
End steps.
