(* ===== verification/Restart.v ===== *)
(** * Restarts and restores

    What [recover_interrupted] and [mark_restored] do to the phases of resources, and, with the
    other methods, that the store refines the transitions of [phase_step]. *)

From Stdlib Require Import Ascii.
From stdpp Require Import base sets strings list.
From S2P Require Import Prelude Strings OrdMap Json Model Ids Sets Db DbLogic Identity Rbac Apps Permits Deployments Resources IdentityInv IdentityRoles DeployInv Access Operations DeployProofs Lifecycle Phases ResourceSteps.

Local Open Scope string_scope.
Local Open Scope Z_scope.
Local Open Scope list_scope.

Lemma phase_calling d g id :
  phase d g = Calling id → ∃ o, o ∈ db_operations d ∧ op_id o = id ∧ op_guresid o = g ∧ op_state o = "started".
Proof.
  intros Hp. destruct (phase_cases (db_active_resources d) (db_operations d) g)
    as [[E _]|(_ & _ & _ & [[E _]|(o & Ho & [Hg Hop]%open_on_spec & E)])]; unfold phase in Hp; rewrite Hp in E; [done..|].
  exists o. unfold open_phase, is_open in *. destruct (String.eqb_spec (op_state o) "unknown") as [Eu|]; [done|].
  rewrite orb_false_r in Hop. apply String.eqb_eq in Hop. naive_solver.
Qed.

(** The phase after the operations with the given identifiers were closed. *)
Definition settle_ids (bad : bool) (ids : list string) (p : Phase) : Phase :=
  match p with
  | Calling id => if decide (id ∈ ids) then (if bad then InDoubt id else Idle) else p
  | _ => p
  end.

Section restart.
Context `{System} (org : string).

(** Closing one operation. *)
Definition closes (bad : bool) (G : OperationRow → tx unit) : Prop :=
  ∀ o d n u c', res_ok d → o ∈ db_operations d → op_state o = "started" → G o (mk_Conn d n) = Ok (u, c') →
    moves (op_guresid o) (Calling (op_id o)) (if bad then InDoubt (op_id o) else Idle) d (c_db c')
    ∧ (∀ x, x ∈ db_operations d → op_id x ≠ op_id o → x ∈ db_operations (c_db c'))
    ∧ (∀ x, x ∈ db_operations (c_db c') → op_state x = "started" → x ∈ db_operations d ∧ op_id x ≠ op_id o).

Lemma interrupt_closes (bad : bool) b e level line f now :
  in_doubt b = bad →
  closes bad (λ o, interrupt (if bad then "unknown" else "failed") b e level line (f o) now o).
Proof.
  intros Hb o d n u c' Hok Ho Hst Hx. unfold interrupt in Hx. inv_tx Hx.
  pose proof (close_operation_Ok _ _ _ _ _ _ _ _ _ _ _ _ H0) as [_ Eo]. simpl in Eo.
  apply closed_moves in H0 as Hm; [|done..|by destruct bad|by destruct bad].
  apply log_same_res in Hx as Hs. pose proof Hs as [_ Es]. rewrite Es, Eo. split_and!.
  - eapply moves_same; [|exact Hs]. by destruct bad.
  - intros x Hin Hne. apply elem_of_update. exists x. split; [done|].
    destruct (is_operation (op_id o) x) eqn:E; [|done]. by apply is_operation_spec in E.
  - intros x (y & Hy & ->)%elem_of_update. destruct (is_operation (op_id o) y) eqn:E; [by destruct bad|].
    intros _. split; [done|]. intros Hid%is_operation_spec. congruence.
Qed.

Lemma for_each_closes bad G l d n u c' :
  closes bad G → res_ok d → NoDup (op_id <$> l) →
  (∀ o, o ∈ l → o ∈ db_operations d ∧ op_state o = "started") →
  for_each G l (mk_Conn d n) = Ok (u, c') →
  res_ok (c_db c') ∧ (∀ g, phase (c_db c') g = settle_ids bad (op_id <$> l) (phase d g))
  ∧ (∀ x, x ∈ db_operations d → op_id x ∉ op_id <$> l → x ∈ db_operations (c_db c'))
  ∧ (∀ x, x ∈ db_operations (c_db c') → op_state x = "started" → x ∈ db_operations d ∧ op_id x ∉ op_id <$> l).
Proof.
  intros HG. revert d n. induction l as [|o l IH]; intros d n Hok Hnd Hin Hx; simpl in Hx.
  - inv_tx Hx. split_and!; [done| |done|].
    + intros g. by destruct (phase d g).
    + intros x Hx _. split; [done|]. apply not_elem_of_nil.
  - inv_tx Hx. destruct (Hin o) as [Ho Hst]; [left|]. apply NoDup_cons in Hnd as [Hno Hnd].
    destruct (HG o d n _ _ Hok Ho Hst H0) as ((Hk & Hp & Hq & Hother) & Hkeep & Hback).
    destruct c as [d1 n1]. simpl in *.
    destruct (IH d1 n1) as (Hk2 & Hp2 & Hkeep2 & Hback2); [done..| |done|].
    { intros x Hxl. destruct (Hin x) as [Hxo Hxs]; [by right|]. split; [|done]. apply Hkeep; [done|].
      intros E. apply Hno. rewrite <- E. by apply list_elem_of_fmap_2. }
    split_and!; [done| | |].
    + intros g. rewrite Hp2. destruct (String.eqb_spec g (op_guresid o)) as [->|Hne].
      * rewrite Hp, Hq. simpl. rewrite (decide_True (P := _ ∈ _)) by left. by destruct bad.
      * rewrite Hother by done. destruct (phase d g) as [| |id|id] eqn:E; try done. simpl.
        apply phase_calling in E as (x & Hxo & <- & Hxg & _).
        assert (op_id x ≠ op_id o) as Hne'.
        { intros E. apply Hne. rewrite <- Hxg. f_equal. apply (row_of_key op_id (db_operations d)); [apply Hok|done..]. }
        destruct (decide (op_id x ∈ op_id <$> l)) as [E|E].
        -- rewrite decide_True; [done|]. by right.
        -- rewrite decide_False; [done|]. rewrite not_elem_of_cons. auto.
    + intros x Hxo Hn. rewrite not_elem_of_cons in Hn. apply Hkeep2; [apply Hkeep|]; naive_solver.
    + intros x Hxo Hxs. destruct (Hback2 x Hxo Hxs) as [Hx1 Hn]. destruct (Hback x Hx1 Hxs). split; [done|].
      rewrite not_elem_of_cons. auto.
Qed.

Lemma select_ids_NoDup d p : res_ok d → NoDup (op_id <$> select p (db_operations d)).
Proof. intros Hok. apply NoDup_fmap_filter, Hok. Qed.

Lemma uncertain_fst d :
  (uncertain_operations d).*1 =
  sort_by_key op_started_at (select (λ o, String.eqb (op_state o) "started") (db_operations d)).
Proof. unfold uncertain_operations. rewrite <- list_fmap_compose. apply list_fmap_id. Qed.

(** The restart after the operations of known outcome were closed. *)
Lemma restart_phases d d1 d2 g :
  res_ok d →
  (∀ g, phase d1 g = settle_ids false (op_id <$> open_cleanups d) (phase d g)) →
  (∀ x, x ∈ db_operations d → op_id x ∉ op_id <$> open_cleanups d → x ∈ db_operations d1) →
  (∀ x, x ∈ db_operations d1 → op_state x = "started" → x ∈ db_operations d) →
  (∀ g, phase d2 g = settle_ids false (op_id <$> unstarted_operations d1) (phase d1 g)) →
  (∀ x, x ∈ db_operations d1 → op_id x ∉ op_id <$> unstarted_operations d1 → x ∈ db_operations d2) →
  settle_ids true (op_id <$> (uncertain_operations d2).*1) (phase d2 g) =
  match phase d g with
  | Calling id => option_default (Calling id) (interrupted d <$> select_one (is_operation id) (db_operations d))
  | p => p
  end.
Proof.
  intros Hok Hp1 Hk1 Hb1 Hp2 Hk2. rewrite Hp2, Hp1. destruct (phase d g) as [| |id|id] eqn:E; try done. simpl.
  apply phase_calling in E as (o & Ho & <- & _ & Hst).
  assert (∀ x, x ∈ db_operations d → op_id x = op_id o → x = o) as Huniq.
  { intros x Hx Hid. by apply (row_of_key op_id (db_operations d)); [apply Hok|..]. }
  rewrite (select_key op_id (is_operation (op_id o)) _ o); [|apply Hok| |done|by apply is_operation_spec].
  2: { intros x y Hx%is_operation_spec Hy%is_operation_spec. congruence. }
  simpl. unfold interrupted, in_flight.
  set (cleanup := String.eqb (op_kind o) "delete" && existsb _ _).
  set (unstarted := String.eqb (op_kind o) "put" && negb _).
  assert (op_id o ∈ op_id <$> open_cleanups d ↔ cleanup = true) as HC.
  { rewrite list_elem_of_fmap. unfold open_cleanups. split.
    - intros (x & Hid & [Hx [[_ Hd]%andb_true_iff Hp]%andb_true_iff]%elem_of_select).
      rewrite (Huniq x Hx) in * by done. by apply andb_true_iff.
    - intros [Hd Hp]%andb_true_iff. exists o. rewrite elem_of_select, Hst, Hd, Hp. done. }
  destruct (decide (op_id o ∈ op_id <$> open_cleanups d)) as [Hc|Hnc].
  { rewrite (proj1 HC Hc). done. }
  assert (cleanup = false) as -> by (apply not_true_is_false; by rewrite <- HC).
  assert (o ∈ db_operations d1) as Ho1 by by apply Hk1.
  assert (op_id o ∈ op_id <$> unstarted_operations d1 ↔ unstarted = true) as HU.
  { rewrite list_elem_of_fmap. unfold unstarted_operations. split.
    - intros (x & Hid & [Hx [[Hs%String.eqb_eq Hd]%andb_true_iff Hp]%andb_true_iff]%elem_of_select).
      rewrite (Huniq x (Hb1 x Hx Hs)) in * by done. by apply andb_true_iff.
    - intros [Hd Hp]%andb_true_iff. exists o. rewrite elem_of_select, Hst, Hd, Hp. done. }
  simpl. destruct (decide (op_id o ∈ op_id <$> unstarted_operations d1)) as [Hc|Hnu].
  { rewrite (proj1 HU Hc). done. }
  assert (unstarted = false) as -> by (apply not_true_is_false; by rewrite <- HU).
  assert (o ∈ db_operations d2) as Ho2 by by apply Hk2.
  simpl. rewrite decide_True; [done|]. apply list_elem_of_fmap. exists o. split; [done|].
  rewrite uncertain_fst, sort_by_key_perm. apply elem_of_select. by rewrite Hst.
Qed.

Lemma finish_failed_same_res app env id error : tx_rel same_res (finish_in_tx org app env id (Some error)).
Proof.
  intros [d n] u c' Hx. apply finish_in_tx_tables in Hx.
  assert (removes_env d app env id (Some error) = false) as E by (unfold removes_env; by destruct (select_one _ _)).
  by rewrite E in Hx.
Qed.
#[local] Hint Resolve finish_failed_same_res : tx.

Lemma uncertain_started d :
  res_ok d → NoDup (op_id <$> (uncertain_operations d).*1)
  ∧ ∀ o, o ∈ (uncertain_operations d).*1 ↔ o ∈ db_operations d ∧ op_state o = "started".
Proof.
  intros Hok. rewrite uncertain_fst. split; [rewrite sort_by_key_perm; by apply select_ids_NoDup|].
  intros o. by rewrite sort_by_key_perm, elem_of_select, String.eqb_eq.
Qed.

(** What a restart does to the tables of resources and operations. *)
Lemma recover_interrupted_Ok d n r c' :
  res_ok d → recover_interrupted org (mk_Conn d n) = Ok (r, c') →
  res_ok (c_db c')
  ∧ (∀ g, phase (c_db c') g = match phase d g with
      | Calling id => option_default (Calling id) (interrupted d <$> select_one (is_operation id) (db_operations d))
      | p => p
      end)
  ∧ ∀ o, o ∈ db_operations (c_db c') → op_state o ≠ "started".
Proof.
  intros Hok Hx. unfold recover_interrupted in Hx. inv_tx Hx.
  destruct c0 as [d1 n1], c1 as [d2 n2], c as [d3 n3]. simpl in *.
  apply (for_each_closes false) in H0 as (Hk1 & Hp1 & Hkeep1 & Hback1);
    [|by apply (interrupt_closes false _ _ _ _ (λ _, _))|done|by apply select_ids_NoDup|].
  2: { by intros o [Ho [[?%String.eqb_eq _]%andb_true_iff _]%andb_true_iff]%elem_of_select. }
  apply (for_each_closes false) in H1 as (Hk2 & Hp2 & Hkeep2 & Hback2);
    [|by apply (interrupt_closes false _ _ _ _ (λ _, _))|done|by apply select_ids_NoDup|].
  2: { by intros o [Ho [[?%String.eqb_eq _]%andb_true_iff _]%andb_true_iff]%elem_of_select. }
  destruct (uncertain_started d2 Hk2) as [Hnd Hunc].
  apply (for_each_closes true) in H2 as (Hk3 & Hp3 & _ & Hback3);
    [|by apply (interrupt_closes true _ _ _ _ op_finished_at)|done|done|by intros o ?%Hunc].
  assert (same_res d3 (c_db c2)) as Hs.
  { eapply (tx_rel_for_each same_res) in H3; [exact H3|]. intros x. apply finish_failed_same_res. }
  split_and!; [by eapply same_res_ok|..].
  - intros g. rewrite (same_res_phase _ _ _ Hs), Hp3. apply (restart_phases d d1); try done.
    intros x Hx Hst. by apply Hback1.
  - intros o Ho Hst. rewrite (proj2 Hs) in Ho. destruct (Hback3 o Ho Hst) as [Ho2 Hn].
    apply Hn, list_elem_of_fmap_2. by apply Hunc.
Qed.

Lemma recover_interrupted_good d n r c' :
  res_ok d → recover_interrupted org (mk_Conn d n) = Ok (r, c') → good_step OpRecover d (c_db c').
Proof.
  intros Hok Hx. apply recover_interrupted_Ok in Hx as (Hk & Hp & _); [|done]. split; [done|].
  intros g. rewrite Hp. destruct (phase d g) as [| |id|id] eqn:E; try (apply ps_stay; simpl; by rewrite E).
  apply phase_calling in E as (o & Ho & <- & _).
  destruct (select_one (is_operation (op_id o)) (db_operations d)) as [x|] eqn:Es.
  - apply select_one_Some in Es as [Hx Hid%is_operation_spec]. simpl. rewrite <- Hid. by apply ps_restart.
  - apply (proj1 (select_one_None _ _) Es) in Ho. by rewrite (proj2 (is_operation_spec _ _) eq_refl) in Ho.
Qed.

(** ** Restored databases *)

Lemma open_operation_None g d : open_operation g d = None → ∀ o, o ∈ db_operations d → open_on g o = false.
Proof.
  unfold open_operation. intros Hh o Ho. apply not_true_is_false. intros Hop.
  assert (o ∈ sort_by_key (λ o, - op_started_at o) (select (λ o, String.eqb (op_guresid o) g && is_open o) (db_operations d)))
    as Hin by (rewrite sort_by_key_perm; by apply elem_of_select).
  by destruct (sort_by_key _ _); [apply not_elem_of_nil in Hin|].
Qed.

Lemma head_sorted {A} (key : A → Z) (p : A → bool) t x :
  head (sort_by_key key (select p t)) = Some x → x ∈ t ∧ p x = true.
Proof.
  intros Hh. assert (x ∈ sort_by_key key (select p t)) as Hin.
  { destruct (sort_by_key key _); [done|]. injection Hh as ->. left. }
  rewrite sort_by_key_perm in Hin. by apply elem_of_select in Hin.
Qed.

(** A restore leaves an observation to be made of the resource. *)
Definition marks (d : Db) (g : string) : bool :=
  negb (existsb (open_on g) (db_operations d)) && is_some (last_provisioning g d).

Lemma marked_status status recovery :
  has_inputs recovery = true → restored_status (mark_recovery status recovery) = Ok (Some status).
Proof.
  destruct recovery as [| | | | |o]; try done. intros _. simpl.
  rewrite !im_get_insert. simpl. done.
Qed.

Lemma marks_other d d' o g :
  db_operations d' = db_operations d ++ [o] → g ≠ op_guresid o → marks d' g = marks d g.
Proof.
  intros Eo Hne. unfold marks, last_provisioning. rewrite Eo. apply not_eq_sym, String.eqb_neq in Hne.
  rewrite existsb_app. simpl. unfold open_on at 2. rewrite Hne. simpl. rewrite orb_false_r.
  unfold select. rewrite filter_app. simpl. rewrite filter_cons, filter_nil, Hne. simpl. by rewrite app_nil_r.
Qed.

Lemma mark_resource_Ok now marked r d n m c' :
  res_ok d → r ∈ db_active_resources d → mark_resource now marked r (mk_Conn d n) = Ok (m, c') →
  if marks d (rs_guresid r) then
    ∃ id, moves (rs_guresid r) Idle (InDoubt id) d (c_db c')
      ∧ (∀ g, g ≠ rs_guresid r → marks (c_db c') g = marks d g)
      ∧ (∀ x, x ∈ db_active_resources d → rs_guresid x ≠ rs_guresid r → x ∈ db_active_resources (c_db c'))
  else c_db c' = d.
Proof.
  intros Hok Hr Hx. unfold mark_resource in Hx. inv_tx Hx.
  destruct (open_operation (rs_guresid r) d) as [o|] eqn:Eop.
  - inv_tx Hx. unfold open_operation in Eop. apply head_sorted in Eop as [Ho Hop].
    assert (marks d (rs_guresid r) = false) as ->; [|done]. unfold marks.
    by rewrite (proj2 (existsb_true _ _)) by (exists o; done).
  - pose proof (open_operation_None _ _ Eop) as Hn. inv_tx Hx.
    assert (marks d (rs_guresid r) = is_some (last_provisioning (rs_guresid r) d)) as ->.
    { unfold marks. by rewrite (proj2 (existsb_false _ _) Hn). }
    destruct (last_provisioning (rs_guresid r) d) as [l|] eqn:El; inv_tx Hx; [|done]. simpl.
    unfold insert_operation in H0. inv_tx H0.
    apply head_sorted in El as [Hl [_ Hin]%andb_true_iff].
    set (o := mk_OperationRow _ _ _ _ _ _ _ _ _ _ _ _ _ _ _ _).
    assert (phase d (rs_guresid r) = Idle) as Hi by (by apply (phase_idle _ _ _ r)).
    exists (op_id o). split_and!.
    + apply (begun_moves _ _ r o (set_res_status "unknown" None now)); try done.
      * by apply negb_true_iff.
      * simpl. intros s. rewrite marked_status by done. intros [= <-]. by apply (idle_certain d).
    + intros g Hne. by apply (marks_other d _ o).
    + intros x Hx Hne. apply elem_of_update. exists x. split; [done|].
      destruct (has_guresid (rs_guresid r) x) eqn:E; [|done]. by apply has_guresid_spec in E.
Qed.

Lemma mark_each_Ok now marked l d n m c' :
  res_ok d → NoDup (rs_guresid <$> l) → (∀ r, r ∈ l → r ∈ db_active_resources d) →
  fold_each (mark_resource now) marked l (mk_Conn d n) = Ok (m, c') →
  res_ok (c_db c') ∧ ∀ g, if existsb (has_guresid g) l && marks d g
    then phase d g = Idle ∧ ∃ id, phase (c_db c') g = InDoubt id else phase (c_db c') g = phase d g.
Proof.
  revert marked d n. induction l as [|r l IH]; intros marked d n Hok Hnd Hin Hx; simpl in Hx.
  - by inv_tx Hx.
  - inv_tx Hx. simpl in Hnd. apply NoDup_cons in Hnd as [Hno Hnd].
    apply mark_resource_Ok in H0 as Hm; [|done|apply Hin; left].
    assert (existsb (has_guresid (rs_guresid r)) l = false) as Hnl.
    { apply existsb_false. intros x Hxl. apply not_true_is_false. intros E%has_guresid_spec. apply Hno.
      rewrite <- E. by apply list_elem_of_fmap_2. }
    destruct c as [d1 n1]. simpl in Hm. destruct (marks d (rs_guresid r)) eqn:Em.
    + destruct Hm as (id & (Hk & Hp & Hq & Ho) & Hmk & Hrows).
      destruct (IH a d1 n1 Hk Hnd) with (2 := Hx) as [Hk' Hp'].
      { intros x Hxl. apply Hrows; [apply Hin; by right|]. intros E. apply Hno. rewrite <- E. by apply list_elem_of_fmap_2. }
      split; [done|]. intros g. specialize (Hp' g). simpl.
      destruct (String.eqb_spec g (rs_guresid r)) as [->|Hne].
      * rewrite Em, (proj2 (has_guresid_spec _ _) eq_refl). simpl. rewrite Hnl in Hp'. simpl in Hp'.
        split; [done|]. exists id. by rewrite Hp'.
      * assert (has_guresid g r = false) as -> by (apply not_true_is_false; rewrite has_guresid_spec; congruence).
        simpl. by rewrite Hmk, Ho in Hp'.
    + subst d1. destruct (IH a d n1 Hok Hnd) with (2 := Hx) as [Hk' Hp'].
      { intros x Hxl. apply Hin. by right. }
      split; [done|]. intros g. specialize (Hp' g). simpl.
      destruct (has_guresid g r) eqn:E; [|done]. apply has_guresid_spec in E as <-. simpl. rewrite Em.
      by rewrite Hnl in Hp'.
Qed.

Lemma mark_restored_good d n m c' :
  res_ok d → mark_restored (mk_Conn d n) = Ok (m, c') → good_step OpMarkRestored d (c_db c').
Proof.
  intros Hok Hx. unfold mark_restored in Hx. inv_tx Hx.
  set (p := λ r, negb (rs_cleanup_pending r) && negb (String.eqb (rs_status r) "deletion_failed")) in *.
  apply mark_each_Ok in Hx as [Hk Hp]; [|done| |].
  - split; [done|]. intros g. specialize (Hp g).
    assert (to_mark d g = existsb (has_guresid g) (sort_by_key (λ r, (rs_app r, (rs_env r, rs_descriptor r)))
      (select p (db_active_resources d))) && marks d g) as E.
    { unfold to_mark, marks. rewrite <- andb_assoc. f_equal. apply eq_true_iff_eq. rewrite !existsb_true.
      split.
      - intros (x & Hx & [[Hg Hc]%andb_true_iff Hs]%andb_true_iff). exists x. split; [|done].
        rewrite sort_by_key_perm. apply elem_of_select. split; [done|]. by apply andb_true_iff.
      - intros (x & Hx & Hg). rewrite sort_by_key_perm in Hx. apply elem_of_select in Hx as [Hx [Hc Hs]%andb_true_iff].
        exists x. by rewrite Hg, Hc, Hs. }
    rewrite <- E in Hp. destruct (to_mark d g) eqn:Em.
    + destruct Hp as [-> [id ->]]. by apply ps_restored.
    + rewrite Hp. by apply ps_stay.
  - rewrite sort_by_key_perm. apply NoDup_fmap_filter, Hok.
  - intros r Hr. rewrite sort_by_key_perm in Hr. by apply elem_of_select in Hr as [? _].
Qed.
End restart.
