(* ===== verification/Recovery.v ===== *)
(** * Doubt and recovery

    The theorems about resources: every operation of the store moves a resource by a transition
    of [phase_step]; a resource in doubt stays so, and blocks its environment, until the outcome
    is established; a restart leaves nothing running; and an administrator can end any doubt. *)

From Stdlib Require Import Ascii.
From stdpp Require Import base sets strings list.
From S2P Require Import Prelude Strings OrdMap Json Model Ids Sets Db DbLogic Identity Rbac Apps Permits Deployments Resources IdentityInv IdentityRoles DeployInv Access Operations DeployProofs Lifecycle History Phases ResourceSteps Restart.

Local Open Scope string_scope.
Local Open Scope Z_scope.
Local Open Scope list_scope.

Section recovery.
Context `{System} (org : string) (digest : string → string).

Abbreviation exec := (exec org digest).
Abbreviation run := (run org digest).
Abbreviation run_all := (run_all org digest).

(** ** Refinement *)

Lemma exec_good op d n u c' :
  plain_op op = true → res_ok d → identity_ok d → exec op (mk_Conn d n) = Ok (u, c') → good_step op d (c_db c').
Proof.
  intros Hpl Hok Hid Hx. destruct (about_resources op) eqn:Ea.
  - destruct op; try done; simpl in Hx; try apply drop_Ok in Hx as [? Hx].
    + by eapply finish_deployment_good.
    + by eapply begin_operation_good.
    + by eapply checkpoint_good.
    + by eapply record_operation_inputs_good.
    + by eapply keep_recovery_cookie_good.
    + by eapply resolve_operation_good.
    + by eapply detach_resource_good.
    + by eapply schedule_deletion_good.
    + by eapply recover_interrupted_good.
    + by eapply mark_restored_good.
  - apply same_step_good; [done|by apply (exec_same_res org digest op Ea _ _ _ Hx)|]. intros g. by destruct op.
Qed.

(** C8: the store implements the life cycle of a resource. Every method that succeeds, where a
    recovery document it is given does not carry the [restored_status] mark of a restored backup
    (which the store does not check, and the planner's documents do not carry), keeps the tables of resources and operations consistent (one open operation at most on a
    resource, in its environment; in doubt exactly when an outcome is unknown) and moves every
    resource by a transition of [phase_step]: a driver is called only on a resource at rest or
    after an abandoned call was closed; an unknown outcome is left only by an observation, by
    a resolution that is allowed, or with the environment; and a method leaves every resource
    it is not about as it was. *)
Theorem store_refines_phases (op : StoreOp) (d : Db) (n : nat) (u : unit) (c' : Conn) :
  plain_op op = true → res_ok d → identity_ok d → exec op (mk_Conn d n) = Ok (u, c') →
  res_ok (c_db c') ∧ ∀ g, phase_step d g op (phase d g) (phase (c_db c') g).
Proof. apply exec_good. Qed.

Lemma run_res_ok op c :
  plain_op op = true → identity_ok (c_db c) → res_ok (c_db c) → res_ok (c_db (run op c)).
Proof.
  intros Hp Hid Hok. unfold Operations.run. destruct (exec op c) as [[u c']|e] eqn:E; [|done].
  destruct c as [d n]. by eapply exec_good in E as [? _].
Qed.

Lemma run_all_res_ok ops c :
  forallb plain_op ops = true → identity_ok (c_db c) → res_ok (c_db c) → res_ok (c_db (run_all ops c)).
Proof.
  revert c. induction ops as [|op ops IH]; intros c Hp Hid Hok; [done|].
  simpl in Hp. apply andb_true_iff in Hp as [Hp1 Hp2]. simpl. apply IH; [done|by apply run_ok|by apply run_res_ok].
Qed.

(** C28: the records of resources stay consistent along any sequence of operations, whichever
    fail, in which no recovery document carries the [restored_status] mark of a restored backup
    (the store does not check this; the planner's documents carry none): no two resources share a place or an identity, no two open operations are on one
    resource, every open operation has its resource, and a resource is in doubt exactly when
    the outcome of its last operation is unknown. *)
Theorem resources_stay_consistent (ops : list StoreOp) (c : Conn) :
  forallb plain_op ops = true → identity_ok (c_db c) → res_ok (c_db c) → res_ok (c_db (run_all ops c)).
Proof. apply run_all_res_ok. Qed.

(** ** Doubt *)

(** The operations that settle the operation [id] on [g], or remove its environment. *)
Definition settles (d : Db) (g id : string) (op : StoreOp) : bool :=
  match op with
  | OpCheckpoint i _ => String.eqb i id
  | OpResolve i (NeedsRecovery _) _ => false
  | OpResolve i _ _ => String.eqb i id
  | OpFinishDeployment _ _ _ _ _ => concerns d op g
  | _ => false
  end.

(** None of the operations, each run after the ones before it, settles it. *)
Fixpoint unsettled (g id : string) (ops : list StoreOp) (c : Conn) : Prop :=
  match ops with
  | [] => True
  | op :: ops => settles (c_db c) g id op = false ∧ unsettled g id ops (run op c)
  end.

Lemma doubt_step d g id op q :
  settles d g id op = false → phase_step d g op (InDoubt id) q → q = InDoubt id.
Proof.
  intros Hs Hp. inversion Hp as [| | | | | |id' r Hobs|o res audit Ho Hm| | | |o app env i p Hc]; subst; try done; simpl in Hs.
  - by rewrite String.eqb_refl in Hs.
  - destruct res; try done; by rewrite String.eqb_refl in Hs.
  - simpl in Hc. congruence.
Qed.

Lemma run_phase op c g :
  plain_op op = true → identity_ok (c_db c) → res_ok (c_db c) →
  phase_step (c_db c) g op (phase (c_db c) g) (phase (c_db (run op c)) g) ∨ c_db (run op c) = c_db c.
Proof.
  intros Hp Hid Hok. unfold Operations.run. destruct (exec op c) as [[u c']|e] eqn:E; [|by right].
  left. destruct c as [d n]. by eapply exec_good in E as [_ ?].
Qed.

Lemma doubt_persists ops c g id :
  forallb plain_op ops = true → store_ok (c_db c) → res_ok (c_db c) → phase (c_db c) g = InDoubt id →
  unsettled g id ops c → phase (c_db (run_all ops c)) g = InDoubt id.
Proof.
  revert c. induction ops as [|op ops IH]; intros c Hp [Hid Hd] Hok Hg Hu; [done|]. simpl in Hp, Hu |- *.
  apply andb_true_iff in Hp as [Hp1 Hp2]. destruct Hu as [Hs Hu].
  apply IH; [done|by apply run_store|by apply run_res_ok| |done].
  destruct (run_phase op c g Hp1 Hid Hok) as [Hst| ->]; [|done]. rewrite Hg in Hst. by apply (doubt_step (c_db c) g id op).
Qed.

(** The resource in doubt. *)
Lemma doubtful d g id r :
  res_ok d → phase d g = InDoubt id → r ∈ db_active_resources d → rs_guresid r = g → in_doubt (rs_status r) = true.
Proof.
  intros Hok Hp Hr Hg. apply (to_doubt _ _ Hok r Hr).
  destruct (phase_cases (db_active_resources d) (db_operations d) g)
    as [[E _]|(_ & _ & _ & [[E _]|(o & Ho & [Hog _]%open_on_spec & E)])]; unfold phase in Hp; rewrite Hp in E; [done..|].
  exists o. split_and!; [done|congruence|]. unfold open_phase in E. unfold is_unknown. by destruct (String.eqb _ _).
Qed.

Lemma accept_doubt req d n a c' r :
  identity_ok d → r ∈ db_active_resources d → in_doubt (rs_status r) = true →
  dq_app req = rs_app r → dq_env req = rs_env r →
  accept_deployment org req (mk_Conn d n) = Ok (a, c') → ∃ x, a = Replayed x.
Proof.
  intros Hid Hr Hd Ha He Hx. unfold accept_deployment in Hx. inv_tx Hx.
  assert (∀ n a c1, accept_new req (mk_Conn d n) = Ok (a, c1) → False) as Hno.
  { intros n1 b c1 Hn. apply accept_new_Ok in Hn as (e & _ & _ & _ & Hacc & _); [|done].
    destruct (ac_certain _ _ _ Hacc r Hr) as [H1%String.eqb_neq H2%String.eqb_neq].
    - rewrite Ha, He. by apply res_in_env_spec.
    - unfold in_doubt in Hd. by rewrite H1, H2 in Hd. }
  unfold accept_in_tx in Hx. destruct (dq_idempotency_key req) as [key|]; [|by destruct (Hno _ _ _ Hx)].
  inv_tx Hx. settle H0. destruct a0 as [[i f]|]; [|by destruct (Hno _ _ _ Hx)].
  inv_tx Hx. by eexists.
Qed.

Lemma begin_doubt start d n x c' :
  (∀ r, r ∈ db_active_resources d → Some (rs_guresid r) = begins_on d start → in_doubt (rs_status r) = true) →
  is_Some (begins_on d start) → begin_operation org start (mk_Conn d n) = Ok (x, c') → False.
Proof.
  intros Hd Hs Hx. unfold begin_operation in Hx. inv_tx Hx. settle H0.
  unfold begin_resource in H1. inv_tx H1. unfold begins_on in *.
  destruct (select_one _ (db_active_resources d)) as [r|] eqn:E; [|by destruct Hs].
  inv_tx H1. apply negb_true_iff in Hc0. apply select_one_Some in E as [Hr _].
  rewrite (Hd r Hr) in Hc0; [done|reflexivity].
Qed.

(** C9: doubt blocks. While the outcome of an operation on a resource is unknown, and whatever
    else is done with recovery documents that do not carry the [restored_status] mark of a
    restored backup (as those of the planner do not), until the operation is settled
    (checkpointed with an observation, resolved, or its environment removed): it stays unknown, no operation begins on the resource, and no
    deployment of its environment is accepted, other than as the replay of an earlier one. *)
Theorem doubt_blocks (ops : list StoreOp) (c : Conn) (g id : string) :
  forallb plain_op ops = true → store_ok (c_db c) → res_ok (c_db c) →
  phase (c_db c) g = InDoubt id → unsettled g id ops c →
  let d := c_db (run_all ops c) in
  phase d g = InDoubt id
  ∧ (∀ start n, begins_on d start = Some g → is_ok (begin_operation org start (mk_Conn d n)) = false)
  ∧ (∀ r req n a c', r ∈ db_active_resources d → rs_guresid r = g →
       dq_app req = rs_app r → dq_env req = rs_env r →
       accept_deployment org req (mk_Conn d n) = Ok (a, c') → ∃ x, a = Replayed x).
Proof.
  intros Hp Hst Hok Hg Hu d.
  assert (phase d g = InDoubt id) as Hd by by apply doubt_persists.
  assert (res_ok d) as Hok' by (apply run_all_res_ok; [done|apply Hst|done]).
  assert (identity_ok d) as Hid by (apply run_all_ok, Hst). split_and!; [done| |].
  - intros start n Hb. apply not_true_is_false. intros ([x c'] & E)%is_ok_spec.
    eapply begin_doubt; [|by rewrite Hb|exact E]. intros r Hr. rewrite Hb. intros [= Hrg].
    by apply (doubtful d g id).
  - intros r req n a c' Hr Hrg Ha He. apply (accept_doubt _ _ _ _ _ r); try done. by apply (doubtful d g id).
Qed.

(** ** Restarts *)

Lemma finish_env_failed_deployments app env id kind set_id error :
  tx_rel (λ d d', db_deployments d' = db_deployments d) (finish_env app env id kind set_id (Some error)).
Proof.
  assert (PreOrder (λ d d', db_deployments d' = db_deployments d)) by (split; [done|intros ???; congruence]).
  destruct kind; simpl; tx_steps; done.
Qed.

(** A failed deployment no longer runs, and no other starts. *)
Lemma finish_failed_deployments app env id error d n u c' :
  finish_in_tx org app env id (Some error) (mk_Conn d n) = Ok (u, c') →
  ∀ r, r ∈ db_deployments (c_db c') → is_running r = true →
    r ∈ db_deployments d ∧ deployment_key r ≠ (app, env, id).
Proof.
  intros Hx. unfold finish_in_tx in Hx. inv_tx Hx. apply finish_error_failed in H0 as Ha. subst a.
  apply finish_error_reads in H0. destruct c as [d0 n0]. simpl in *. subst d0.
  apply log_in_tx_same in H1 as (_ & E1 & _). apply finish_env_failed_deployments in H2.
  apply finish_audit_same in Hx as (_ & E3 & _). simpl in *. rewrite E3, H2, E1.
  intros r (r0 & Hr0 & ->)%elem_of_update. destruct (is_deployment app env id r0) eqn:E; [done|].
  intros _. split; [done|]. intros Hk%is_deployment_spec. congruence.
Qed.

Lemma finish_each_deployments (e : DeploymentRow → string) l d n u c' :
  for_each (λ r, finish_in_tx org (dp_app r) (dp_env r) (dp_id r) (Some (e r))) l (mk_Conn d n) = Ok (u, c') →
  ∀ r, r ∈ db_deployments (c_db c') → is_running r = true → r ∈ db_deployments d ∧ deployment_key r ∉ deployment_key <$> l.
Proof.
  revert d n. induction l as [|x l IH]; intros d n Hx; simpl in Hx; inv_tx Hx.
  - intros r Hr _. split; [done|apply not_elem_of_nil].
  - destruct c as [d1 n1]. intros r Hr Hrun. destruct (IH _ _ Hx r Hr Hrun) as [Hr1 Hn].
    destruct (finish_failed_deployments _ _ _ _ _ _ _ _ H0 r Hr1 Hrun) as [Hr0 Hk]. split; [done|].
    simpl. by rewrite not_elem_of_cons.
Qed.

Lemma interrupt_each_same (G : OperationRow → tx unit) l :
  (∀ o, tx_rel same_deploys (G o)) → tx_rel same_deploys (for_each G l).
Proof. intros HG. by apply tx_rel_for_each; [apply _|]. Qed.

Lemma restart_deployments d n rep c' :
  recover_interrupted org (mk_Conn d n) = Ok (rep, c') →
  rr_failed_deployments rep ≡ₚ dp_id <$> select is_running (db_deployments d)
  ∧ ∀ r, r ∈ db_deployments (c_db c') → is_running r = false.
Proof.
  intros Hx. unfold recover_interrupted in Hx. inv_tx Hx. split; [by rewrite sort_by_key_perm|].
  apply (interrupt_each_same (interrupt_cleanup (clock n))) in H0 as (_ & E0 & _);
    [|intros o; unfold interrupt_cleanup; apply interrupt_same].
  apply (interrupt_each_same (interrupt_unstarted (clock n))) in H1 as (_ & E1 & _);
    [|intros o; unfold interrupt_unstarted; apply interrupt_same].
  apply (interrupt_each_same (interrupt_uncertain (clock n))) in H2 as (_ & E2 & _);
    [|intros o; unfold interrupt_uncertain; apply interrupt_same].
  destruct c as [d3 n3]. simpl in *. intros r Hr. apply not_true_is_false. intros Hrun.
  destruct (finish_each_deployments _ _ _ _ _ _ H3 r Hr Hrun) as [Hr3 Hn]. apply Hn, list_elem_of_fmap_2.
  rewrite sort_by_key_perm. apply elem_of_select. split; [congruence|done].
Qed.

(** C11: a restart leaves nothing running. Every deployment that ran is failed and reported, no
    operation is left started; of the resources a driver was working on, those whose driver
    was not called, or whose deletion was confirmed, are at rest, and all others, and only
    those, come to be in doubt. *)
Theorem restart_leaves_nothing_running (d : Db) (n : nat) (rep : RecoveryReport) (c' : Conn) :
  res_ok d → recover_interrupted org (mk_Conn d n) = Ok (rep, c') →
  rr_failed_deployments rep ≡ₚ dp_id <$> select is_running (db_deployments d)
  ∧ (∀ r, r ∈ db_deployments (c_db c') → is_running r = false)
  ∧ (∀ o, o ∈ db_operations (c_db c') → op_state o ≠ "started")
  ∧ ∀ g, match phase d g with
    | Calling id => ∃ o, o ∈ db_operations d ∧ op_id o = id ∧ op_guresid o = g
        ∧ phase (c_db c') g = if in_flight d o then InDoubt id else Idle
    | p => phase (c_db c') g = p
    end.
Proof.
  intros Hok Hx. destruct (restart_deployments _ _ _ _ Hx) as [Hrep Hrun].
  apply recover_interrupted_Ok in Hx as (_ & Hp & Hst); [|done]. split_and!; [done..|].
  intros g. specialize (Hp g). destruct (phase d g) as [| |id|id] eqn:E; try done.
  apply phase_calling in E as (o & Ho & Hid & Hg & _). exists o. split_and!; [done..|]. subst id.
  rewrite (select_key op_id (is_operation (op_id o)) _ o) in Hp; [done|apply Hok| |done|by apply is_operation_spec].
  intros x y Hx%is_operation_spec Hy%is_operation_spec. congruence.
Qed.

End recovery.

(** ** Ending doubt *)

Section ending.
Context `{System}.

Lemma check_admin_authority_total d n a :
  identity_ok d → v_org (view d) a = Some Administrator →
  check_admin_authority (Some a) (mk_Conn d n) = Ok (tt, mk_Conn d n).
Proof.
  intros Hid Ha. unfold check_admin_authority. rewrite (bind_run _ _ _ _ _ (roles_in_total d Hid a n)).
  unfold is_administrator. rewrite roles_of_org. simpl in *. rewrite Ha. by rewrite bool_decide_true.
Qed.

Lemma check_idle_total d n app env :
  env_idle d app env → check_idle app env (mk_Conn d n) = Ok (tt, mk_Conn d n).
Proof.
  intros Hi. unfold check_idle. rewrite query_run. simpl. rewrite (proj2 (select_one_None _ _)); [done|].
  intros r Hr. destruct (in_env app env r) eqn:E; [|done]. by apply Hi; [|apply in_env_spec].
Qed.

Lemma operator_repeats o restored dep now actor reason d n :
  identity_ok d → v_org (view d) actor = Some Administrator →
  apply_resolution o restored dep now (Some actor) (Operator reason) (mk_Conn d n)
  = Ok (Some ("resolved by " +:+ quoted actor +:+ ": " +:+ reason), mk_Conn d n).
Proof.
  intros Hid Ha. unfold apply_resolution. rewrite (require_run _ _ _ actor) by done.
  by rewrite (bind_run _ _ _ _ _ (check_admin_authority_total d n actor Hid Ha)).
Qed.

Lemma phase_doubt d g id :
  phase d g = InDoubt id → ∃ o, o ∈ db_operations d ∧ op_id o = id ∧ op_state o = "unknown".
Proof.
  intros Hp. destruct (phase_cases (db_active_resources d) (db_operations d) g)
    as [[E _]|(_ & _ & _ & [[E _]|(o & Ho & _ & E)])]; unfold phase in Hp; rewrite Hp in E; [done..|].
  exists o. unfold open_phase in E. destruct (String.eqb_spec (op_state o) "unknown"); naive_solver.
Qed.

(** C29: an administrator can end any doubt. When nothing is deployed in the environment and the
    recovery document is readable, resolving the operation succeeds, with a random identifier
    that is not in use, and leaves the resource at rest. *)
Theorem administrator_ends_doubt (d : Db) (n : nat) (o : OperationRow) (actor reason : string) (audit : AuditIntent)
    (restored : option string) :
  res_ok d → identity_ok d → o ∈ db_operations d → phase d (op_guresid o) = InDoubt (op_id o) →
  restored_status (op_recovery o) = Ok restored → env_idle d (op_app o) (op_env o) →
  ai_actor audit = Some actor → v_org (view d) actor = Some Administrator → fresh_ids d n →
  ∃ c', resolve_operation (op_id o) (Operator reason) audit (mk_Conn d n) = Ok (tt, c')
    ∧ phase (c_db c') (op_guresid o) = Idle.
Proof.
  intros Hok Hid Ho Hp Hrs Hidle Hact Hadm Hfresh.
  assert (∃ c', resolve_operation (op_id o) (Operator reason) audit (mk_Conn d n) = Ok (tt, c')) as [c' Hx].
  { unfold resolve_operation. rewrite query_run. cbn [c_db].
    rewrite (select_key op_id (is_operation (op_id o)) _ o); [|apply Hok| |done|by apply is_operation_spec].
    2: { intros x y Hx%is_operation_spec Hy%is_operation_spec. congruence. }
    rewrite Hrs. unfold lift at 1. unfold bind at 1. rewrite (require_run _ _ _ o) by done.
    assert (op_state o = "unknown") as Hu.
    { destruct (phase_doubt _ _ _ Hp) as (x & Hx & Hxi & Hxs).
      by rewrite (row_of_key op_id (db_operations d) o x) by (done || apply Hok). }
    rewrite check_run by (by rewrite Hu).
    rewrite (bind_run _ _ _ _ _ (check_idle_total d n _ _ Hidle)).
    unfold bind at 1, now_ms at 1. cbn [c_db c_calls]. rewrite Hact.
    rewrite (bind_run _ _ _ _ _ (operator_repeats o restored _ _ _ reason d (S n) Hid Hadm)).
    unfold bind at 1 2 3, execute. cbn [c_db c_calls].
    match goal with |- context [mk_Conn ?x (S n)] => set (d1 := x) end.
    destruct (audit_insert_total audit (Some (op_id o)) None d1 (S n)) as (d2 & Ha & _).
    { apply (Hfresh (S n) 16%nat). lia. }
    rewrite (bind_run _ _ _ _ _ Ha). by eexists. }
  exists c'. split; [done|]. apply resolve_operation_good in Hx as [_ Hs]; [|done..]. specialize (Hs (op_guresid o)).
  rewrite Hp in Hs. inversion Hs as [op p Hc| | | | | | |o' res au Ho' Hm Heq| | | |]; subst; try done.
  exfalso. simpl in Hc. apply existsb_false with (r := o) in Hc; [|done]. simpl in Hc.
  by rewrite (proj2 (is_operation_spec _ _) eq_refl), String.eqb_refl in Hc.
Qed.
End ending.
