(* ===== verification/Effects.v ===== *)
(** * Programs with effects

    A program of the engine asks things outside of it, the store, a driver, the clock, and
    continues with whatever the answer is. What can be asked is a parameter: a type of calls and,
    for each call, the type of its answers. *)

From stdpp Require Import base tactics.

Section prog.
Context {Call : Type} {answer : Call → Type}.

Inductive prog (A : Type) :=
| Done (a : A)
| Ask (c : Call) (k : answer c → prog A).
Arguments Done {A} a.
Arguments Ask {A} c k.

Fixpoint pbind {A B} (p : prog A) (f : A → prog B) : prog B :=
  match p with
  | Done a => f a
  | Ask c k => Ask c (λ x, pbind (k x) f)
  end.

Definition ask (c : Call) : prog (answer c) := Ask c Done.

(** The result when calls are answered by a function. *)
Fixpoint answered {A} (reply : ∀ c, answer c) (p : prog A) : A :=
  match p with
  | Done a => a
  | Ask c k => answered reply (k (reply c))
  end.

Lemma answered_bind {A B} reply (p : prog A) (f : A → prog B) :
  answered reply (pbind p f) = answered reply (f (answered reply p)).
Proof. induction p as [a|c k IH]; [done|]. simpl. apply IH. Qed.

(** ** Protocols *)

Section protocol.
Context {L : Type} (allowed : L → Call → Prop) (next : L → ∀ c, answer c → L).

(** The program makes only allowed calls, and ends in a state and with a result as in [Q]. *)
Fixpoint follows {A} (Q : L → A → Prop) (l : L) (p : prog A) : Prop :=
  match p with
  | Done a => Q l a
  | Ask c k => allowed l c ∧ ∀ a, follows Q (next l c a) (k a)
  end.

Lemma follows_bind {A B} (Q : L → A → Prop) (R : L → B → Prop) p f l :
  follows Q l p → (∀ l a, Q l a → follows R l (f a)) → follows R l (pbind p f).
Proof.
  intros Hp Hf. revert l Hp. induction p as [a|c k IH]; intros l; simpl; [by auto|].
  intros [Hc Hk]. split; [done|]. intros a. by apply IH.
Qed.

Lemma follows_mono {A} (Q R : L → A → Prop) p l :
  follows Q l p → (∀ l a, Q l a → R l a) → follows R l p.
Proof.
  intros Hp HQ. revert l Hp. induction p as [a|c k IH]; intros l; simpl; [by auto|].
  intros [Hc Hk]. split; [done|]. intros a. by apply IH.
Qed.
End protocol.

(** ** Traces *)

(** What a program asked, with the answers, and what it gave. *)
Fixpoint gives {A} (p : prog A) (tr : list {c & answer c}) (a : A) : Prop :=
  match p with
  | Done b => tr = [] ∧ a = b
  | Ask c k => ∃ x tr', tr = existT c x :: tr' ∧ gives (k x) tr' a
  end.

Lemma gives_bind {A B} (p : prog A) (f : A → prog B) tr b :
  gives (pbind p f) tr b ↔ ∃ a tr1 tr2, tr = tr1 ++ tr2 ∧ gives p tr1 a ∧ gives (f a) tr2 b.
Proof.
  revert tr. induction p as [a|c k IH]; intros tr; simpl.
  - split; [by exists a, [], tr|]. by intros (? & ? & ? & -> & [-> ->] & Hg).
  - split.
    + intros (x & tr' & -> & (a & tr1 & tr2 & -> & H1 & H2)%IH).
      exists a, (existT c x :: tr1), tr2. split; [done|]. split; [|done]. by exists x, tr1.
    + intros (a & tr1 & tr2 & -> & (x & tr' & -> & Hp) & Hf).
      exists x, (tr' ++ tr2). split; [done|]. apply IH. by exists a, tr', tr2.
Qed.

Lemma gives_ask c tr x : gives (ask c) tr x ↔ tr = [existT c x].
Proof. simpl. split; [by intros (y & tr' & -> & -> & ->)|]. intros ->. by exists x, []. Qed.

(** A protocol over what was asked and answered so far holds of every trace. *)
Lemma follows_gives {A} (allowed : list {c & answer c} → Call → Prop) (Q : list {c & answer c} → A → Prop) p h tr a :
  follows allowed (λ h c x, h ++ [existT c x]) Q h p → gives p tr a →
  Q (h ++ tr) a ∧ ∀ tr1 c x tr2, tr = tr1 ++ existT c x :: tr2 → allowed (h ++ tr1) c.
Proof.
  revert h tr. induction p as [b|c k IH]; intros h tr; simpl.
  - intros HQ [-> ->]. rewrite app_nil_r. split; [done|]. by intros [] ??? [=].
  - intros [Hc Hk] (x & tr' & -> & Hg). destruct (IH x _ _ (Hk x) Hg) as [HQ Hall].
    rewrite <-app_assoc in HQ. split; [done|]. intros [|e tr1] c' x' tr2 Htr.
    + pose proof (f_equal (λ l, match l with existT c _ :: _ => Some c | [] => None end) Htr) as [= ->]. by rewrite app_nil_r.
    + pose proof (f_equal (hd e) Htr) as He. apply (f_equal (@tl _)) in Htr. simpl in He, Htr. subst e.
      specialize (Hall tr1 c' x' tr2 Htr). by rewrite <-app_assoc in Hall.
Qed.

(** What is asked when calls are answered by a function. *)
Fixpoint transcript {A} (reply : ∀ c, answer c) (p : prog A) : list {c & answer c} :=
  match p with
  | Done _ => []
  | Ask c k => existT c (reply c) :: transcript reply (k (reply c))
  end.

Lemma gives_transcript {A} reply (p : prog A) : gives p (transcript reply p) (answered reply p).
Proof. induction p as [a|c k IH]; [done|]. simpl. exists (reply c). eauto. Qed.
End prog.

Arguments prog {Call} answer A.
Arguments Done {Call answer A} a.
Arguments Ask {Call answer A} c k.
Arguments ask {Call answer} c.

Declare Scope prog_scope.
Delimit Scope prog_scope with prog.
Notation "'let!' x := p 'in' k" := (pbind p (λ x, k))
  (at level 10, x pattern, p at level 200, k at level 200) : prog_scope.
Open Scope prog_scope.
