(* ===== verification/Artifacts.v ===== *)
(** * Names of artifacts ([crates/engine/src/cloud/mod.rs], [crates/engine/src/registry.rs])

    Artifacts are named by S3 object versions, and images by references into container
    registries, those of Amazon ECR among them. Here are their parsers and printers: what a
    deployment pins is the text of an identity, and reading that text gives the identity back. *)

From Stdlib Require Import Ascii.
From stdpp Require Import base sets strings list.
From S2P Require Import Prelude Strings Utf8.

Local Open Scope string_scope.
Local Open Scope nat_scope.
Local Open Scope list_scope.

(** ** Text *)

(** [str::rfind]. *)
Fixpoint str_rfind (p s : string) : option nat :=
  match s with
  | ε => if str_is_empty p then Some 0 else None
  | String _ s' =>
      match str_rfind p s' with
      | Some i => Some (S i)
      | None => if starts_with p s then Some 0 else None
      end
  end.

(** [str::rsplit_once]. *)
Definition rsplit_once (p s : string) : option (string * string) :=
  (λ i, (str_take i s, str_drop (i + String.length p) s)) <$> str_rfind p s.

(** [s.rsplit(c).next()]. *)
Definition last_segment (c : ascii) (s : string) : string := option_default s (last (split c s)).

Definition lower_char (c : ascii) : ascii :=
  if is_ascii_uppercase c then ascii_of_N (N_of_ascii c + 32) else c.
Fixpoint to_ascii_lowercase (s : string) : string :=
  match s with ε => ε | String c s => String (lower_char c) (to_ascii_lowercase s) end.

Definition is_ascii_hexdigit (c : ascii) : bool :=
  is_ascii_digit c || in_range 97 102 c || in_range 65 70 c.

(** The value of a hexadecimal digit. *)
Definition hex_value (c : ascii) : N :=
  if is_ascii_digit c then (N_of_ascii c - 48)%N
  else if in_range 97 102 c then (N_of_ascii c - 87)%N else (N_of_ascii c - 55)%N.

(** ** S3 objects *)

Record S3Version := mk_S3Version { s3v_bucket : string; s3v_key : string; s3v_version : string }.
Record S3Object := mk_S3Object { s3o_bucket : string; s3o_key : string }.

(** The characters that would change how a URI parses; all of them are one byte. *)
Definition escaped (c : ascii) : bool :=
  Ascii.eqb c "%" || Ascii.eqb c "?" || Ascii.eqb c "#" || Ascii.eqb c "&".

Definition upper_hex (n : N) : ascii := ascii_of_N (if (n <? 10)%N then n + 48 else n + 55).

Fixpoint escape (s : string) : string :=
  match s with
  | ε => ε
  | String c s =>
      if escaped c then
        String "%" (String (upper_hex (N_of_ascii c / 16)) (String (upper_hex (N_of_ascii c mod 16)) (escape s)))
      else String c (escape s)
  end.

Fixpoint percent_decode_bytes (s : string) : option string :=
  match s with
  | ε => Some ε
  | String c s' =>
      if Ascii.eqb c "%" then
        match s' with
        | String a (String b rest) =>
            if is_ascii_hexdigit a && is_ascii_hexdigit b then
              String (ascii_of_N (hex_value a * 16 + hex_value b)) <$> percent_decode_bytes rest
            else None
        | _ => None
        end
      else String c <$> percent_decode_bytes s'
  end.

(** [String::from_utf8] checks the result. *)
Definition percent_decode (s : string) : option string :=
  percent_decode_bytes s ≫= λ out, if utf8_valid out then Some out else None.

(** [iter().find_map(f)]. *)
Fixpoint find_map {A B} (f : A → option B) (l : list A) : option B :=
  match l with
  | [] => None
  | x :: l => match f x with Some y => Some y | None => find_map f l end
  end.

Definition S3Version_parse (uri : string) : option S3Version :=
  rest ← strip_prefix "s3://" uri;
  '(path, query) ← split_once "?" rest;
  '(bucket, key) ← split_once "/" path;
  version ← find_map (strip_prefix "versionId=") (split "&" query);
  key ← percent_decode key;
  version ← percent_decode version;
  if str_is_empty bucket || str_is_empty key || str_is_empty version || contains_char "#" uri
  then None else Some (mk_S3Version bucket key version).

Definition S3Version_show (v : S3Version) : string :=
  "s3://" +:+ s3v_bucket v +:+ "/" +:+ escape (s3v_key v) +:+ "?versionId=" +:+ escape (s3v_version v).

Definition S3Object_parse (uri : string) : option S3Object :=
  path ← strip_prefix "s3://" uri;
  if contains_char "?" path || contains_char "#" path then None else
  '(bucket, key) ← split_once "/" path;
  key ← percent_decode key;
  if str_is_empty bucket || str_is_empty key then None else Some (mk_S3Object bucket key).

Definition S3Object_at (o : S3Object) (version : string) : S3Version :=
  mk_S3Version (s3o_bucket o) (s3o_key o) version.

Definition S3Object_show (o : S3Object) : string :=
  "s3://" +:+ s3o_bucket o +:+ "/" +:+ escape (s3o_key o).

(** ** Images *)

Definition pinned_image (image : string) : bool :=
  match rsplit_once "@sha256:" image with
  | Some (name, hex) =>
      negb (str_is_empty name) && negb (contains_char "@" name)
      && Nat.eqb (String.length hex) 64 && bytes_all is_ascii_hexdigit hex
  | None => false
  end.

(** The account, region and FIPS flag of an ECR registry host. *)
Definition ecr_registry (host : string) : option (string * string * bool) :=
  let host := to_ascii_lowercase (option_default host (strip_suffix ":443" host)) in
  '(account, kind, region) ←
    match split "." host with
    | [account; "dkr"; kind; region; "amazonaws"; "com"]
    | [account; "dkr"; kind; region; "amazonaws"; "com"; "cn"] => Some (account, kind, region)
    | [account; "dkr-ecr"; region; "on"; "aws"] => Some (account, "ecr", region)
    | [account; "dkr-ecr-fips"; region; "on"; "aws"] => Some (account, "ecr-fips", region)
    | _ => None
    end;
  fips ←
    (if String.eqb kind "ecr" then Some false
     else if String.eqb kind "ecr-fips" then Some true else None);
  if negb (Nat.eqb (String.length account) 12) || negb (bytes_all is_ascii_digit account)
    || str_is_empty region
  then None else Some (account, region, fips).

Definition in_ecr (image : string) : bool :=
  match split_once "/" image with
  | Some (host, _) => is_some (ecr_registry host)
  | None => false
  end.

(** A tag follows the last [:] after the last [/]. *)
Definition split_tag (path : string) : string * option string :=
  match rsplit_once ":" (last_segment "/" path) with
  | Some (_, tag) => (str_take (String.length path - String.length tag - 1) path, Some tag)
  | None => (path, None)
  end.

Record EcrImage := mk_EcrImage {
  ei_registry : string; ei_account : string; ei_region : string; ei_fips : bool;
  ei_repository : string; ei_tag : string }.

Definition EcrImage_parse (image : string) : option EcrImage :=
  if contains_char "@" image then None else
  '(registry, path) ← split_once "/" image;
  '(account, region, fips) ← ecr_registry registry;
  let (repository, tag) := split_tag path in
  let tag := option_default "latest" tag in
  if str_is_empty repository || ends_with_char "/" repository || str_is_empty tag then None
  else Some (mk_EcrImage registry account region fips repository tag).

Definition EcrImage_at (i : EcrImage) (digest : string) : string :=
  ei_registry i +:+ "/" +:+ ei_repository i +:+ "@" +:+ digest.
Definition EcrImage_show (i : EcrImage) : string :=
  ei_registry i +:+ "/" +:+ ei_repository i +:+ ":" +:+ ei_tag i.

Record EcrDigest := mk_EcrDigest {
  ed_registry : string; ed_account : string; ed_region : string; ed_fips : bool;
  ed_repository : string; ed_digest : string }.

Definition EcrDigest_parse (image : string) : option EcrDigest :=
  if negb (pinned_image image) then None else
  '(name, hex) ← rsplit_once "@sha256:" image;
  '(registry, repository) ← split_once "/" name;
  '(account, region, fips) ← ecr_registry registry;
  let (repository, _) := split_tag repository in
  if str_is_empty repository || ends_with_char "/" repository then None
  else Some (mk_EcrDigest registry account region fips repository ("sha256:" +:+ to_ascii_lowercase hex)).

Definition EcrDigest_show (d : EcrDigest) : string :=
  ed_registry d +:+ "/" +:+ ed_repository d +:+ "@" +:+ ed_digest d.

(** ** IPv6 addresses ([std::net])

    Parsers return what they read and the rest of the text. *)

Definition read_given_char (c : ascii) (s : string) : option string :=
  match s with String x rest => if Ascii.eqb x c then Some rest else None | ε => None end.

(** The digits of a radix at the start. *)
Fixpoint read_digits (digit : ascii → bool) (s : string) : string * string :=
  match s with
  | String c rest => if digit c then let (d, r) := read_digits digit rest in (String c d, r) else (ε, s)
  | ε => (ε, ε)
  end.

Fixpoint digits_value (radix acc : N) (s : string) : N :=
  match s with ε => acc | String c s => digits_value radix (acc * radix + hex_value c) s end.

Definition read_number (radix : N) (digit : ascii → bool) (max_digits : nat) (bound : N)
    (zero_prefix : bool) (s : string) : option (N * string) :=
  let (d, rest) := read_digits digit s in
  let n := String.length d in
  if Nat.eqb n 0 || Nat.ltb max_digits n then None
  else if negb zero_prefix && starts_with_char "0" d && Nat.ltb 1 n then None
  else let v := digits_value radix 0 d in if (v <=? bound)%N then Some (v, rest) else None.

Definition read_separator {A} (sep : ascii) (index : nat) (inner : string → option (A * string))
    (s : string) : option (A * string) :=
  match index with
  | 0 => inner s
  | _ => rest ← read_given_char sep s; inner rest
  end.

Definition read_octet : string → option (N * string) := read_number 10 is_ascii_digit 3 255 false.

Definition read_ipv4_addr (s : string) : option (unit * string) :=
  '(_, s) ← read_octet s;
  '(_, s) ← read_separator "." 1 read_octet s;
  '(_, s) ← read_separator "." 2 read_octet s;
  '(_, s) ← read_separator "." 3 read_octet s;
  Some (tt, s).

(** Reads up to [limit] groups from the [i]th on: how many, whether the last two are an
    embedded IPv4 address, and the rest. *)
Fixpoint read_groups (left i : nat) (s : string) : nat * bool * string :=
  match left with
  | 0 => (i, false, s)
  | S left' =>
      match (if Nat.ltb 1 left then read_separator ":" i read_ipv4_addr s else None) with
      | Some (_, rest) => (i + 2, true, rest)
      | None =>
          match read_separator ":" i (read_number 16 is_ascii_hexdigit 4 65535 true) s with
          | Some (_, rest) => read_groups left' (S i) rest
          | None => (i, false, s)
          end
      end
  end.

(** [s.parse::<Ipv6Addr>().is_ok()]. *)
Definition is_ipv6 (s : string) : bool :=
  match read_groups 8 0 s with
  | (8, _, rest) => str_is_empty rest
  | (_, true, _) => false
  | (n, false, rest) =>
      match (rest ← read_given_char ":" rest; read_given_char ":" rest) with
      | Some rest => str_is_empty (read_groups (7 - n) 0 rest).2
      | None => false
      end
  end.

(** ** References into registries *)

Definition DOCKER_HUB : string := "docker.io".
Definition DOCKER_HUB_API : string := "registry-1.docker.io".

Definition port_ok (port : option string) : bool :=
  match port with
  | None => true
  | Some p =>
      bytes_all is_ascii_digit p && negb (str_is_empty p)
      && (digits_value 10 0 p <=? 65535)%N && (0 <? digits_value 10 0 p)%N
  end.

Definition valid_registry_host (host : string) : bool :=
  match strip_prefix "[" host with
  | Some rest =>
      match split_once "]" rest with
      | None => false
      | Some (address, after) =>
          if str_is_empty after then is_ipv6 address && port_ok None
          else match strip_prefix ":" after with
               | Some port => is_ipv6 address && port_ok (Some port)
               | None => false
               end
      end
  | None =>
      let (name, port) := match split_once ":" host with
        | Some (name, port) => (name, Some port) | None => (host, None) end in
      negb (str_is_empty name)
      && bytes_all (λ b, is_ascii_alphanumeric b || Ascii.eqb b "." || Ascii.eqb b "-") name
      && port_ok port
  end.

Inductive Reference := RefTag (tag : string) | RefDigest (digest : string).

Record OciImage := mk_OciImage {
  oi_name : string; oi_host : string; oi_repository : string; oi_reference : Reference }.

Definition valid_digest (digest : string) : bool :=
  match strip_prefix "sha256:" digest with
  | Some hex => Nat.eqb (String.length hex) 64 && bytes_all is_ascii_hexdigit hex
  | None => false
  end.

Definition valid_tag (tag : string) : bool :=
  negb (str_is_empty tag) && Nat.leb (String.length tag) 128
  && negb (starts_with_char "." tag || starts_with_char "-" tag)
  && bytes_all (λ b, is_ascii_alphanumeric b || Ascii.eqb b "_" || Ascii.eqb b "." || Ascii.eqb b "-") tag.

Definition valid_part (part : string) : bool :=
  match part with
  | ε => false
  | String c _ =>
      bytes_all (λ b, is_ascii_lowercase b || is_ascii_digit b || Ascii.eqb b "." || Ascii.eqb b "_"
        || Ascii.eqb b "-") part && is_ascii_alphanumeric c
  end.

(** The image of a name without its tag or digest, with what it refers to. *)
Definition oci_named (name : string) (reference : Reference) : option OciImage :=
  if match reference with RefTag tag => negb (valid_tag tag) | RefDigest _ => false end then None else
  let (host, repository) :=
    match split_once "/" name with
    | Some (first, rest) =>
        if contains_char "." first || contains_char ":" first || String.eqb first "localhost"
        then (to_ascii_lowercase first, rest) else (DOCKER_HUB, name)
    | None => (DOCKER_HUB, name)
    end in
  if negb (negb (str_is_empty repository) && forallb valid_part (split "/" repository)
    && valid_registry_host host) then None else
  let (host, repository) :=
    if String.eqb host DOCKER_HUB || String.eqb host "index.docker.io" || String.eqb host DOCKER_HUB_API
    then (DOCKER_HUB, if contains_char "/" repository then repository else "library/" +:+ repository)
    else (host, repository) in
  Some (mk_OciImage name host repository reference).

Definition OciImage_parse (image : string) : option OciImage :=
  match split_once "@" image with
  | Some (named, digest) =>
      if negb (pinned_image image) || negb (valid_digest digest) then None
      else oci_named (split_tag named).1 (RefDigest (to_ascii_lowercase digest))
  | None =>
      let (name, tag) := split_tag image in
      oci_named name (RefTag (option_default "latest" tag))
  end.

Definition OciImage_show (i : OciImage) : string :=
  match oi_reference i with
  | RefTag tag => oi_name i +:+ ":" +:+ tag
  | RefDigest digest => oi_name i +:+ "@" +:+ digest
  end.
Definition OciImage_at (i : OciImage) (digest : string) : string := oi_name i +:+ "@" +:+ digest.
Definition OciImage_tagged_at (i : OciImage) (digest : string) : string :=
  match oi_reference i with
  | RefTag tag => oi_name i +:+ ":" +:+ tag +:+ "@" +:+ digest
  | RefDigest _ => OciImage_at i digest
  end.

(** Whether a tag precedes the digest. *)
Definition pinned_from_tag (image : string) : bool :=
  match split_once "@" image with
  | Some (named, _) => contains_char ":" (last_segment "/" named)
  | None => false
  end.

(** ** Examples *)

Example s3_examples :
  S3Version_parse "s3://builds/api.zip?versionId=v1" = Some (mk_S3Version "builds" "api.zip" "v1")
  ∧ S3Version_parse "s3://builds/api.zip" = None
  ∧ S3Version_show (mk_S3Version "b" "a?b&c" "v%1") = "s3://b/a%3Fb%26c?versionId=v%251"
  ∧ S3Version_parse "s3://b/a%3Fb%26c?versionId=v%251" = Some (mk_S3Version "b" "a?b&c" "v%1").
Proof. by vm_compute. Qed.

Example image_examples :
  (λ i, (oi_host i, oi_repository i)) <$> OciImage_parse "nginx" = Some ("docker.io", "library/nginx")
  ∧ oi_reference <$> OciImage_parse "ghcr.io/acme/api:1.2" = Some (RefTag "1.2")
  ∧ OciImage_parse "[::1]:5000/api" = Some (mk_OciImage "[::1]:5000/api" "[::1]:5000" "api" (RefTag "latest"))
  ∧ OciImage_parse "[::1::]/api" = None
  ∧ is_ipv6 "1:2:3:4:5:6:7:8" = true ∧ is_ipv6 "::ffff:1.2.3.4" = true ∧ is_ipv6 "1.2.3.4::" = false
  ∧ ecr_registry "123456789012.dkr.ecr.eu-west-1.amazonaws.com:443" = Some ("123456789012", "eu-west-1", false)
  ∧ ei_tag <$> EcrImage_parse "123456789012.dkr.ecr.eu-west-1.amazonaws.com/web" = Some "latest".
Proof. by vm_compute. Qed.

(** ** Percent encoding *)

Lemma escaped_cases c : escaped c = true → c = "%"%char ∨ c = "?"%char ∨ c = "#"%char ∨ c = "&"%char.
Proof. unfold escaped. rewrite !orb_true_iff, !Ascii.eqb_eq. tauto. Qed.

Lemma percent_decode_escape s : percent_decode_bytes (escape s) = Some s.
Proof.
  induction s as [|c s IH]; [done|]. cbn [escape]. destruct (escaped c) eqn:E.
  - apply escaped_cases in E as [->|[->|[->| ->]]]; cbn -[escape]; by rewrite IH.
  - cbn [percent_decode_bytes]. unfold escaped in E. apply orb_false_iff in E as [[[-> _]%orb_false_iff _]%orb_false_iff _].
    by rewrite IH.
Qed.

(** No character that ends a part of a URI. *)
Definition uri_safe (c : ascii) : bool := negb (Ascii.eqb c "?" || Ascii.eqb c "#" || Ascii.eqb c "&").

Lemma escape_safe s : bytes_all uri_safe (escape s) = true.
Proof.
  induction s as [|c s IH]; [done|]. cbn [escape]. destruct (escaped c) eqn:E.
  - apply escaped_cases in E as [->|[->|[->| ->]]]; cbn -[escape]; by rewrite IH.
  - cbn [bytes_all]. rewrite IH, andb_true_r. unfold escaped, uri_safe in *. by destruct (Ascii.eqb c "%"), (Ascii.eqb c "?"), (Ascii.eqb c "#"), (Ascii.eqb c "&").
Qed.

Lemma escape_empty s : escape s = ε → s = ε.
Proof. destruct s as [|c s]; [done|]. cbn [escape]. by destruct (escaped c). Qed.

(** ** Object versions round trip *)

(** The object versions that a URI can name. *)
Record s3_valid (v : S3Version) : Prop := {
  sv_bucket : s3v_bucket v ≠ ε;
  sv_key : s3v_key v ≠ ε;
  sv_version : s3v_version v ≠ ε;
  sv_plain : contains_char "/" (s3v_bucket v) = false ∧ bytes_all (λ c, negb (Ascii.eqb c "?" || Ascii.eqb c "#")) (s3v_bucket v) = true;
  sv_utf8 : utf8_valid (s3v_key v) = true ∧ utf8_valid (s3v_version v) = true
}.

Lemma str_is_empty_false s : str_is_empty s = false ↔ s ≠ ε.
Proof. by destruct s. Qed.

Lemma no_char_bytes c d s :
  contains_char c s = false → contains_char d s = false → bytes_all (λ b, negb (Ascii.eqb b c || Ascii.eqb b d)) s = true.
Proof.
  induction s as [|x s IH]; simpl; [done|]. intros [-> ?]%orb_false_iff [-> ?]%orb_false_iff. by rewrite IH.
Qed.

Lemma percent_decode_Some s t : percent_decode s = Some t ↔ percent_decode_bytes s = Some t ∧ utf8_valid t = true.
Proof.
  unfold percent_decode. destruct (percent_decode_bytes s) as [u|]; simpl; [|naive_solver].
  destruct (utf8_valid u) eqn:E; naive_solver congruence.
Qed.

Lemma s3_parse_valid uri v : S3Version_parse uri = Some v → s3_valid v.
Proof.
  unfold S3Version_parse. intros H.
  apply bind_Some in H as (rest & Hr & H). apply strip_prefix_Some in Hr as ->.
  apply bind_Some in H as ([path query] & [-> Hpq]%split_once_Some & H).
  apply bind_Some in H as ([bucket key] & [-> Hbk]%split_once_Some & H).
  apply bind_Some in H as (vtext & _ & H). apply bind_Some in H as (k & [_ Hk]%percent_decode_Some & H).
  apply bind_Some in H as (ver & [_ Hv]%percent_decode_Some & H).
  destruct (_ || _) eqn:E in H; [done|]. injection H as <-. bool_hyps. rewrite str_is_empty_false in *.
  split; try done. split; [done|]. apply no_char_bytes.
  - rewrite contains_char_app in Hpq. by apply orb_false_iff in Hpq as [? _].
  - rewrite !contains_char_app in H0. by bool_hyps.
Qed.

Lemma s3_valid_parse v : s3_valid v → S3Version_parse (S3Version_show v) = Some v.
Proof.
  destruct v as [b k ver]. intros [Hb Hk Hv [Hs Hp] [Uk Uv]]. simpl in *. unfold S3Version_parse, S3Version_show. simpl s3v_bucket; simpl s3v_key; simpl s3v_version.
  assert (∀ c, uri_safe c = false → ∀ s, contains_char c (escape s) = false) as Hsafe
    by (intros c Hc s; by eapply bytes_all_no_char, escape_safe).
  assert (∀ c, (Ascii.eqb c "?" || Ascii.eqb c "#") = true → contains_char c b = false) as Hplain.
  { intros c Hc. eapply bytes_all_no_char; [|exact Hp]. simpl. by rewrite Hc. }
  rewrite strip_prefix_app. cbn [mbind option_bind].
  change ("/" +:+ escape k +:+ "?versionId=" +:+ escape ver) with (String "/" (escape k +:+ String "?" ("versionId=" +:+ escape ver))).
  replace (b +:+ String "/" (escape k +:+ String "?" ("versionId=" +:+ escape ver)))
    with ((b +:+ String "/" (escape k)) +:+ String "?" ("versionId=" +:+ escape ver)) by by rewrite app_assoc_str.
  rewrite split_once_app.
  2: { rewrite contains_char_app. cbn [contains_char]. by rewrite Hplain, Hsafe. }
  cbn [mbind option_bind]. rewrite split_once_app by done. cbn [mbind option_bind].
  rewrite split_no_char by by rewrite contains_char_app, Hsafe.
  cbn [find_map]. rewrite strip_prefix_app. cbn [mbind option_bind].
  assert (∀ s, utf8_valid s = true → percent_decode (escape s) = Some s) as Hdec.
  { intros s Hs'. apply percent_decode_Some. split; [apply percent_decode_escape|done]. }
  rewrite !Hdec by done. cbn [mbind option_bind].
  rewrite !(proj2 (str_is_empty_false _)) by done. cbn [orb].
  rewrite !contains_char_app. cbn [contains_char]. rewrite !contains_char_app. cbn [contains_char].
  by rewrite Hplain, !Hsafe.
Qed.

(** a pinned artifact keeps its identity. Reading the printed URI of an object version gives
    that object version back exactly when it is one a URI can name (its parts are not empty,
    the bucket holds no character that ends it, key and version are UTF-8; the key and the version
    may hold any character), and whatever a URI names is such. *)
Theorem s3_version_roundtrip (uri : string) (v : S3Version) :
  (S3Version_parse (S3Version_show v) = Some v ↔ s3_valid v)
  ∧ (S3Version_parse uri = Some v → S3Version_parse (S3Version_show v) = Some v).
Proof.
  split; [split|]; [apply s3_parse_valid|apply s3_valid_parse|]. intros H. by eapply s3_valid_parse, s3_parse_valid.
Qed.

(** ** Splitting from the end *)

Lemma rsplit_once_Some p s a b : rsplit_once p s = Some (a, b) → s = a +:+ p +:+ b.
Proof.
  unfold rsplit_once. revert a b. induction s as [|c s IH]; intros a b.
  - simpl. destruct p; simpl; [|done]. by intros [= <- <-].
  - cbn [str_rfind]. destruct (str_rfind p s) as [i|].
    + intros [= <- <-]. simpl. f_equal. by apply IH.
    + destruct (starts_with p (String c s)) eqn:E; [|done]. intros [= <- <-].
      apply starts_with_spec in E as [r E]. rewrite E. simpl. by rewrite str_drop_length_app.
Qed.

Lemma str_rfind_None c q s : contains_char c s = false → str_rfind (String c q) s = None.
Proof.
  induction s as [|d s IH]; simpl; [done|]. intros [Hd Hs]%orb_false_iff. rewrite IH by done.
  unfold starts_with. cbn [strip_prefix]. by rewrite Ascii.eqb_sym, Hd.
Qed.

Lemma rsplit_once_app c q a b :
  contains_char c (q +:+ b) = false → rsplit_once (String c q) (a +:+ String c (q +:+ b)) = Some (a, b).
Proof.
  intros Hq. unfold rsplit_once.
  assert (str_rfind (String c q) (a +:+ String c (q +:+ b)) = Some (String.length a)) as ->.
  { induction a as [|d a IH]; simpl.
    - rewrite str_rfind_None by done. unfold starts_with. cbn [strip_prefix]. by rewrite Ascii.eqb_refl, strip_prefix_app.
    - by rewrite IH. }
  simpl. rewrite str_take_length_app. f_equal. f_equal.
  replace (String.length a + S (String.length q)) with (String.length (a +:+ String c q)) by (rewrite length_app_str; simpl; lia).
  replace (a +:+ String c (q +:+ b)) with ((a +:+ String c q) +:+ b) by by rewrite app_assoc_str.
  apply str_drop_length_app.
Qed.

Lemma last_segment_cons c d s :
  last_segment c (String d s) = if Ascii.eqb d c || contains_char c s then last_segment c s else String d s.
Proof.
  unfold last_segment. cbn [split]. pose proof (split_not_nil c s) as Hn.
  destruct (Ascii.eqb d c) eqn:Ed; simpl.
  - destruct (split c s) as [|x l] eqn:E; [done|]. rewrite last_cons. destruct (last (x :: l)) eqn:E2; [done|].
    by apply last_None in E2.
  - destruct (contains_char c s) eqn:Ec; [|by rewrite split_no_char].
    destruct (split_once c s) as [[a b]|] eqn:E; [|apply split_once_None in E; congruence].
    apply split_once_Some in E as [-> Ha]. rewrite split_app by done. rewrite !last_cons.
    destruct (last (split c b)) eqn:E2; [done|]. apply last_None in E2. by apply split_not_nil in E2.
Qed.

Lemma last_segment_no_char c s : contains_char c (last_segment c s) = false.
Proof.
  induction s as [|d s IH]; [done|]. rewrite last_segment_cons.
  destruct (Ascii.eqb d c || contains_char c s) eqn:E; [done|]. done.
Qed.

Lemma last_segment_id c s : contains_char c s = false → last_segment c s = s.
Proof. destruct s as [|d s]; [done|]. simpl. intros H. by rewrite last_segment_cons, H. Qed.

Lemma last_segment_app c a x : contains_char c x = false → last_segment c (a +:+ x) = last_segment c a +:+ x.
Proof.
  intros Hx. induction a as [|d a IH]; simpl; [by apply last_segment_id|].
  rewrite !last_segment_cons, contains_char_app, Hx, orb_false_r.
  by destruct (Ascii.eqb d c || contains_char c a).
Qed.

Lemma last_segment_split c s : ∃ pre, s = pre +:+ last_segment c s.
Proof.
  induction s as [|d s [pre IH]]; [by exists ε|]. rewrite last_segment_cons.
  destruct (_ || _); [|by exists ε]. exists (String d pre). simpl. by rewrite <- IH.
Qed.

Lemma split_tag_app name tag :
  contains_char "/" tag = false → contains_char ":" tag = false →
  split_tag (name +:+ String ":" tag) = (name, Some tag).
Proof.
  intros Hs Hc. unfold split_tag. rewrite last_segment_app by done.
  change ":" with (String ":" ε). rewrite (rsplit_once_app ":" ε _ tag) by done.
  rewrite length_app_str. simpl. replace (String.length name + S (String.length tag) - String.length tag - 1)
    with (String.length name) by lia. by rewrite str_take_length_app.
Qed.

Lemma split_tag_none path : contains_char ":" (last_segment "/" path) = false → split_tag path = (path, None).
Proof. intros H. unfold split_tag, rsplit_once. by rewrite str_rfind_None. Qed.

(** What was split off. *)
Lemma split_tag_spec path name tag :
  split_tag path = (name, tag) →
  match tag with
  | Some tag => path = name +:+ String ":" tag ∧ contains_char "/" tag = false
  | None => path = name
  end.
Proof.
  unfold split_tag. destruct (rsplit_once ":" (last_segment "/" path)) as [[a t]|] eqn:E; intros [= <- <-]; [|done].
  apply rsplit_once_Some in E. pose proof (last_segment_no_char "/" path) as Hn. rewrite E in Hn.
  rewrite contains_char_app in Hn. cbn in Hn. bool_hyps. split; [|done].
  destruct (last_segment_split "/" path) as [pre Hp]. rewrite E in Hp. rewrite Hp.
  replace (pre +:+ a +:+ ":" +:+ t) with ((pre +:+ a) +:+ String ":" t) by by rewrite app_assoc_str.
  rewrite length_app_str. simpl. replace (String.length (pre +:+ a) + S (String.length t) - String.length t - 1)
    with (String.length (pre +:+ a)) by lia. by rewrite str_take_length_app.
Qed.

(** ** Image references round trip *)

Lemma split_contains c d s : d ≠ c → contains_char d s = existsb (contains_char d) (split c s).
Proof.
  intros Hne. induction s as [|x s IH]; [done|]. cbn [contains_char split]. rewrite IH.
  destruct (Ascii.eqb_spec x c) as [->|Hx]; simpl.
  - by rewrite (proj2 (Ascii.eqb_neq c d)).
  - destruct (split c s) as [|h t] eqn:E; [by apply split_not_nil in E|]. simpl. by rewrite orb_assoc.
Qed.

Lemma valid_part_no_char d part :
  is_ascii_lowercase d || is_ascii_digit d || Ascii.eqb d "." || Ascii.eqb d "_" || Ascii.eqb d "-" = false →
  valid_part part = true → contains_char d part = false.
Proof. intros Hd. destruct part as [|c p]; [done|]. intros [H _]%andb_true_iff. apply (bytes_all_no_char _ d _ Hd H). Qed.

Lemma repository_no_colon r : forallb valid_part (split "/" r) = true → contains_char ":" r = false.
Proof.
  intros H. rewrite (split_contains "/" ":") by done. apply not_true_iff_false. intros (part & Hin & Hc)%existsb_exists.
  rewrite forallb_forall in H. by rewrite (valid_part_no_char ":" part) in Hc by auto.
Qed.

Lemma last_segment_no d s : contains_char d s = false → contains_char d (last_segment "/" s) = false.
Proof.
  intros H. destruct (last_segment_split "/" s) as [pre E]. rewrite E, contains_char_app in H. by bool_hyps.
Qed.

Lemma last_segment_after c a b : last_segment c (a +:+ String c b) = last_segment c b.
Proof.
  induction a as [|d a IH]; simpl; rewrite last_segment_cons; [by rewrite Ascii.eqb_refl|].
  rewrite contains_char_app. cbn [contains_char]. by rewrite Ascii.eqb_refl, orb_true_r, orb_true_r.
Qed.

Lemma oci_named_Some name ref i :
  oci_named name ref = Some i →
  oi_name i = name ∧ oi_reference i = ref ∧ name ≠ ε ∧ contains_char ":" (last_segment "/" name) = false
  ∧ match ref with RefTag tag => valid_tag tag = true | RefDigest _ => True end.
Proof.
  unfold oci_named. intros H.
  assert (∃ r, (r = name ∨ ∃ first, name = first +:+ String "/" r) ∧ r ≠ ε ∧ forallb valid_part (split "/" r) = true
    ∧ oi_name i = name ∧ oi_reference i = ref ∧ match ref with RefTag tag => valid_tag tag = true | RefDigest _ => True end)
    as (r & Hr & Hne & Hv & -> & -> & Href).
  { destruct (match ref with RefTag _ => _ | _ => _ end) eqn:Et; [done|].
    assert (match ref with RefTag tag => valid_tag tag = true | RefDigest _ => True end)
      by (destruct ref; [by apply negb_false_iff in Et|done]).
    destruct (match split_once "/" name with Some _ => _ | None => _ end) as [host r] eqn:Eh.
    destruct (negb _) eqn:En in H; [done|]. bool_hyps. rewrite str_is_empty_false in *. exists r.
    assert (oi_name i = name ∧ oi_reference i = ref) as [-> ->] by (repeat case_match; by simplify_eq).
    split_and!; try done. destruct (split_once "/" name) as [[first rest]|] eqn:Es; [|by left; injection Eh].
    destruct (_ || _) in Eh; injection Eh as <- <-; [right|by left]. apply split_once_Some in Es as [-> _]. by exists first. }
  apply repository_no_colon in Hv. split_and!; try done.
  - intros ->. destruct Hr as [->|[[] ?]]; done.
  - destruct Hr as [->|[first ->]]; [by apply last_segment_no|]. rewrite last_segment_after. by apply last_segment_no.
Qed.

Lemma lower_hexdigit c :
  is_ascii_hexdigit c = true → is_ascii_hexdigit (lower_char c) = true ∧ lower_char (lower_char c) = lower_char c
    ∧ Ascii.eqb (lower_char c) "@" = false.
Proof. destruct c as [[|] [|] [|] [|] [|] [|] [|] [|]]; by vm_compute. Qed.

Lemma lower_hex s :
  bytes_all is_ascii_hexdigit s = true →
  bytes_all is_ascii_hexdigit (to_ascii_lowercase s) = true
  ∧ to_ascii_lowercase (to_ascii_lowercase s) = to_ascii_lowercase s
  ∧ contains_char "@" (to_ascii_lowercase s) = false ∧ String.length (to_ascii_lowercase s) = String.length s.
Proof.
  induction s as [|c s IH]; [done|]. cbn [bytes_all]. intros [Hc Hs]%andb_true_iff.
  destruct (IH Hs) as (H1 & H2 & H3 & H4), (lower_hexdigit c Hc) as (H5 & H6 & H7). simpl.
  by rewrite H1, H2, H3, H4, H5, H6, H7.
Qed.

Lemma valid_digest_spec digest :
  valid_digest digest = true → ∃ hex, digest = "sha256:" +:+ hex ∧ String.length hex = 64 ∧ bytes_all is_ascii_hexdigit hex = true.
Proof.
  unfold valid_digest. destruct (strip_prefix "sha256:" digest) as [hex|] eqn:E; [|done].
  apply strip_prefix_Some in E as ->. intros H. bool_hyps. by exists hex.
Qed.

(** The text of a name with a digest. *)
Lemma OciImage_parse_digest name hex :
  name ≠ ε → contains_char "@" name = false → contains_char ":" (last_segment "/" name) = false →
  String.length hex = 64 → bytes_all is_ascii_hexdigit hex = true →
  OciImage_parse (name +:+ "@sha256:" +:+ to_ascii_lowercase hex)
  = oci_named name (RefDigest ("sha256:" +:+ to_ascii_lowercase hex)).
Proof.
  intros Hn Ha Hc Hl Hh. destruct (lower_hex hex Hh) as (H1 & H2 & H3 & H4). unfold OciImage_parse.
  change ("@sha256:" +:+ to_ascii_lowercase hex) with (String "@" ("sha256:" +:+ to_ascii_lowercase hex)).
  rewrite split_once_app by done.
  assert (pinned_image (name +:+ String "@" ("sha256:" +:+ to_ascii_lowercase hex)) = true) as ->.
  { unfold pinned_image. change "@sha256:" with (String "@" "sha256:"). rewrite rsplit_once_app by done.
    by rewrite (proj2 (str_is_empty_false name) Hn), Ha, H4, Hl, H1. }
  assert (valid_digest ("sha256:" +:+ to_ascii_lowercase hex) = true) as ->.
  { unfold valid_digest. by rewrite strip_prefix_app, H4, Hl, H1. }
  rewrite split_tag_none by done. cbn [negb orb fst].
  change (to_ascii_lowercase ("sha256:" +:+ to_ascii_lowercase hex)) with ("sha256:" +:+ to_ascii_lowercase (to_ascii_lowercase hex)).
  by rewrite H2.
Qed.

Lemma contains_app_l c a b : contains_char c (a +:+ b) = false → contains_char c a = false.
Proof. rewrite contains_char_app. by intros [? _]%orb_false_iff. Qed.

(** Image references keep their identity. Printing a parsed image and parsing the text gives
    the same image, with the same registry, repository, and tag or digest; an image with a
    digest is printed pinned and without a tag. *)
Theorem oci_image_roundtrip (image : string) (i : OciImage) :
  OciImage_parse image = Some i →
  OciImage_parse (OciImage_show i) = Some i
  ∧ (pinned_image image = true → ∃ digest, oi_reference i = RefDigest digest ∧ OciImage_show i = OciImage_at i digest
     ∧ pinned_from_tag (OciImage_show i) = false).
Proof.
  unfold OciImage_parse at 1. destruct (split_once "@" image) as [[named digest]|] eqn:Es.
  - destruct (negb _ || negb _) eqn:E; [done|]. bool_hyps. apply split_once_Some in Es as [-> Ha].
    apply valid_digest_spec in H0 as (hex & -> & Hl & Hh). intros Hi.
    destruct (split_tag named) as [name tag] eqn:Et. cbn [fst] in Hi. pose proof (oci_named_Some _ _ _ Hi) as (Hn & Hr & Hne & Hc & _).
    assert (contains_char "@" name = false) as Hna.
    { apply split_tag_spec in Et. destruct tag; [destruct Et as [-> _]; by eapply contains_app_l|by subst]. }
    unfold OciImage_show. rewrite Hn, Hr.
    change (to_ascii_lowercase ("sha256:" +:+ hex)) with ("sha256:" +:+ to_ascii_lowercase hex) in *. split.
    + change ("@" +:+ "sha256:" +:+ to_ascii_lowercase hex) with ("@sha256:" +:+ to_ascii_lowercase hex).
      by rewrite OciImage_parse_digest.
    + intros _. eexists. split_and!; [done|by unfold OciImage_at; rewrite Hn|]. unfold pinned_from_tag.
      change ("@" +:+ "sha256:" +:+ to_ascii_lowercase hex) with (String "@" ("sha256:" +:+ to_ascii_lowercase hex)).
      by rewrite split_once_app.
  - apply split_once_None in Es. destruct (split_tag image) as [name tag] eqn:Et. intros Hi.
    pose proof (oci_named_Some _ _ _ Hi) as (Hn & Hr & Hne & Hc & Hv). split.
    + unfold OciImage_show. rewrite Hn, Hr. unfold valid_tag in Hv. bool_hyps.
      assert (∀ d, (is_ascii_alphanumeric d || Ascii.eqb d "_" || Ascii.eqb d "." || Ascii.eqb d "-") = false →
        contains_char d (option_default "latest" tag) = false) as Hd by (intros d Hd; match goal with H : bytes_all ?p _ = true |- _ => exact (bytes_all_no_char p d _ Hd H) end).
      assert (contains_char "@" name = false) as Hna.
      { apply split_tag_spec in Et. destruct tag; [destruct Et as [-> _]; by eapply contains_app_l|by subst]. }
      unfold OciImage_parse. change (":" +:+ option_default "latest" tag) with (String ":" (option_default "latest" tag)).
      rewrite (proj2 (split_once_None _ _)).
      2: { rewrite contains_char_app. cbn [contains_char]. by rewrite Hna, Hd. }
      by rewrite split_tag_app by by apply Hd.
    + unfold pinned_image. destruct (rsplit_once "@sha256:" image) as [[a b]|] eqn:E; [|done].
      apply rsplit_once_Some in E as ->. rewrite contains_char_app in Es. simpl in Es. bool_hyps. done.
Qed.

Lemma oci_image_roundtrip_witness :
  OciImage_parse "ghcr.io/acme/api:1.2" = Some (mk_OciImage "ghcr.io/acme/api" "ghcr.io" "acme/api" (RefTag "1.2"))
  ∧ OciImage_parse (OciImage_show (mk_OciImage "ghcr.io/acme/api" "ghcr.io" "acme/api" (RefTag "1.2")))
    = Some (mk_OciImage "ghcr.io/acme/api" "ghcr.io" "acme/api" (RefTag "1.2")).
Proof.
  split; [by vm_compute|]. apply (oci_image_roundtrip "ghcr.io/acme/api:1.2"). by vm_compute.
Defined.
