(* ===== verification/Deletion.v ===== *)
(** * What a deployment deletes ([crates/engine/src/planner/deprovision.rs])

    Which of the environment's resources a deployment deletes once it converges
    ([deletion_candidates]), who still uses them, and which of them stay because of that
    ([kept_candidates]). Both are least fixed points that the source computes in rounds. *)

From Stdlib Require Import Ascii.
From stdpp Require Import base sets strings list.
From S2P Require Import Prelude Strings OrdMap Ids Json Model Graph Db.

Local Open Scope string_scope.
Local Open Scope nat_scope.
Local Open Scope list_scope.

Inductive DestructiveAction := ActDelete | ActDetach | ActReplace | ActUnknown.

Definition destructive_action_as_str (a : DestructiveAction) : string :=
  match a with
  | ActDelete => "delete"
  | ActDetach => "detach"
  | ActReplace => "replace"
  | ActUnknown => "unknown"
  end.

(** ** Candidates *)

(** Removed workloads go, and when the environment is deleted, everything it owns and every
    adopted resource scheduled for deletion. *)
Definition must_go (teardown : bool) (d : Descriptor) (r : ResourceRow) : bool :=
  if String.eqb (rs_ownership r) "owned" then teardown || String.eqb (d_ty d) "workload"
  else if String.eqb (rs_ownership r) "adopted" then teardown && rs_scheduled_deletion r
  else false.

(** External resources are never deleted. *)
Definition deletable (teardown : bool) (d : Descriptor) (r : ResourceRow) : bool :=
  if String.eqb (rs_ownership r) "owned" || String.eqb (rs_ownership r) "adopted"
  then rs_scheduled_deletion r || must_go teardown d r
  else false.

Record Removal := mk_Removal {
  rm_candidates : list (Descriptor * ResourceRow);
  rm_mandatory : list string;
  rm_left_out : list (Descriptor * ResourceRow)
}.

Definition consider (graph : ResourceGraph) (teardown : bool) (s : Removal) (r : ResourceRow)
    : Removal :=
  match Descriptor_parse (rs_descriptor r) with
  | Err _ => s
  | Ok d =>
      if bt_contains d (g_nodes graph) then s
      else if negb (deletable teardown d r || rs_cleanup_pending r) then
        mk_Removal (rm_candidates s) (rm_mandatory s) (rm_left_out s ++ [(d, r)])
      else
        mk_Removal (bt_insert d r (rm_candidates s))
          (if must_go teardown d r then bs_insert (rs_descriptor r) (rm_mandatory s)
           else rm_mandatory s) (rm_left_out s)
  end.

(** One call of [left_out.retain]: what removed resources own goes with them. *)
Definition retain_one (s : Removal) (x : Descriptor * ResourceRow) : Removal :=
  let (d, r) := x in
  if String.eqb (rs_ownership r) "owned"
    && existsb (λ dep, bs_mem dep (rm_mandatory s)) (rs_dependencies r)
  then mk_Removal (bt_insert d r (rm_candidates s)) (bs_insert (rs_descriptor r) (rm_mandatory s))
         (rm_left_out s)
  else mk_Removal (rm_candidates s) (rm_mandatory s) (rm_left_out s ++ [(d, r)]).

Definition retain_round (s : Removal) : Removal * bool :=
  let s' := foldl retain_one (mk_Removal (rm_candidates s) (rm_mandatory s) []) (rm_left_out s) in
  (s', negb (Nat.eqb (length (rm_mandatory s')) (length (rm_mandatory s)))).

Definition removal_of (graph : ResourceGraph) (teardown : bool) (active : list ResourceRow)
    : option Removal :=
  let s := foldl (consider graph teardown) (mk_Removal [] [] []) active in
  until_stable retain_round (S (length (rm_left_out s))) s.

(** The candidates, and the removals the deployment must complete. The rounds always end
    ([removal_of_total]). *)
Definition deletion_candidates (graph : ResourceGraph) (teardown : bool) (active : list ResourceRow)
    : list (Descriptor * ResourceRow) * list string :=
  match removal_of graph teardown active with
  | Some s => (rm_candidates s, rm_mandatory s)
  | None => ([], [])
  end.

(** ** Users *)

Abbreviation Users := (list (string * list string)).

Definition users_get (users : Users) (dep : string) : list string :=
  option_default [] (bt_get dep users).

(** [users.entry(dep).or_default().insert(user)]. *)
Definition add_user (user : string) (users : Users) (dep : string) : Users :=
  bt_insert dep (bs_insert user (users_get users dep)) users.

Definition active_users (active : list ResourceRow) (users : Users) : Users :=
  foldl (λ users r, foldl (add_user (rs_descriptor r)) users (rs_dependencies r)) users active.

(** The dependencies a tombstone keeps: [body["dependencies"]]. *)
Definition tombstone_dependencies (t : TombstoneRow) : list string :=
  filter_map as_str (option_default [] (json_get "dependencies" (tb_body t) ≫= as_array)).

Definition detached_users (name : TombstoneRow → string) (tombstones : list TombstoneRow)
    (users : Users) : Users :=
  foldl (λ users t, foldl (add_user (name t)) users (tombstone_dependencies t)) users
    (filter (λ t, tb_reason t = "detached") tombstones).

(** ** What stays *)

Definition keep_one (blockers : ResourceRow → list string) (names mandatory : list string)
    (s : list string * bool) (r : ResourceRow) : list string * bool :=
  let (kept, changed) := s in
  if bs_mem (rs_descriptor r) kept || bs_mem (rs_descriptor r) mandatory then s
  else if existsb (λ u, negb (bs_mem u names) || bs_mem u kept) (blockers r)
  then (bs_insert (rs_descriptor r) kept, true) else s.

Definition keep_round (blockers : ResourceRow → list string) (names mandatory : list string)
    (rows : list ResourceRow) (kept : list string) : list string * bool :=
  foldl (keep_one blockers names mandatory) (kept, false) rows.

Definition candidate_names (candidates : list (Descriptor * ResourceRow)) : list string :=
  bs_of_list (rs_descriptor <$> bt_values candidates).

Definition kept_of (graph : ResourceGraph) (active : list ResourceRow)
    (tombstones : list TombstoneRow) (candidates : list (Descriptor * ResourceRow))
    (mandatory : list string) : option (list string) :=
  let in_graph := bs_of_list (Descriptor_show <$> bt_keys (g_nodes graph)) in
  let users := detached_users tb_descriptor tombstones
    (active_users (filter (λ r, bs_mem (rs_descriptor r) in_graph = false) active) []) in
  until_stable (keep_round (λ r, users_get users (rs_descriptor r)) (candidate_names candidates) mandatory
    (bt_values candidates)) (S (length candidates)) [].

(** The rounds always end ([kept_of_total]). *)
Definition kept_candidates (graph : ResourceGraph) (active : list ResourceRow)
    (tombstones : list TombstoneRow) (candidates : list (Descriptor * ResourceRow))
    (mandatory : list string) : list string :=
  option_default [] (kept_of graph active tombstones candidates mandatory).

(** ** The candidates are a least fixed point *)

Section candidates.
Context (graph : ResourceGraph) (teardown : bool) (active : list ResourceRow).

(** A readable resource that the deployment leaves out. *)
Definition outside (d : Descriptor) (r : ResourceRow) : Prop :=
  r ∈ active ∧ Descriptor_parse (rs_descriptor r) = Ok d ∧ bt_get d (g_nodes graph) = None.

(** Deleted in its own right, or already deleted by its driver. *)
Definition chosen (d : Descriptor) (r : ResourceRow) : bool :=
  deletable teardown d r || rs_cleanup_pending r.

(** The removals the deployment must complete: removed workloads (everything, in a teardown)
    and what they own, and so on. *)
Inductive removed : string → Prop :=
| removed_self d r : outside d r → must_go teardown d r = true → removed (rs_descriptor r)
| removed_owned d r dep :
    outside d r → chosen d r = false → rs_ownership r = "owned" → dep ∈ rs_dependencies r →
    removed dep → removed (rs_descriptor r).

Record removal_inv (s : Removal) : Prop := {
  ri_wf : bs_wf (rm_mandatory s);
  ri_cwf : bt_wf (rm_candidates s);
  ri_left : ∀ d r, (d, r) ∈ rm_left_out s → outside d r ∧ chosen d r = false;
  ri_mandatory : ∀ n, n ∈ rm_mandatory s → removed n;
  ri_candidates : ∀ d r, bt_get d (rm_candidates s) = Some r →
    outside d r ∧ (chosen d r = true ∨ rs_descriptor r ∈ rm_mandatory s);
  ri_fresh : NoDup (rs_descriptor <$> (rm_left_out s).*2);
  ri_apart : ∀ d r, (d, r) ∈ rm_left_out s → rs_descriptor r ∉ rm_mandatory s
}.

(** Every resource outside of the graph among [seen] is accounted for. *)
Definition accounted (seen : ResourceRow → Prop) (s : Removal) : Prop :=
  ∀ d r, outside d r → seen r →
    ((d, r) ∈ rm_left_out s ∨ bt_get d (rm_candidates s) = Some r)
    ∧ (must_go teardown d r = true → rs_descriptor r ∈ rm_mandatory s).

Lemma must_go_deletable d r : must_go teardown d r = true → deletable teardown d r = true.
Proof.
  unfold deletable, must_go. intros H. destruct (String.eqb (rs_ownership r) "owned"), (String.eqb (rs_ownership r) "adopted");
    simpl in *; rewrite ?H, ?orb_true_r; done.
Qed.

Hypothesis Hkeys : NoDup (rs_descriptor <$> active).

Lemma outside_inj d r e q : outside d r → outside e q → rs_descriptor r = rs_descriptor q → r = q ∧ d = e.
Proof.
  intros (Hr & Hd & _) (Hq & He & _) E. split; [|congruence].
  apply list_elem_of_lookup in Hr as [i Hi], Hq as [j Hj].
  assert (i = j) as ->; [|congruence].
  eapply NoDup_lookup; [exact Hkeys|by rewrite list_lookup_fmap, Hi|by rewrite list_lookup_fmap, Hj, E].
Qed.

Lemma outside_key d r q : outside d r → outside d q → r = q.
Proof.
  intros Hr Hq. eapply outside_inj; [done..|]. destruct Hr as (_ & Hr & _), Hq as (_ & Hq & _).
  apply descriptor_roundtrip in Hr as [_ ->], Hq as [_ ->]. done.
Qed.

Lemma retain_step s x rest :
  removal_inv (mk_Removal (rm_candidates s) (rm_mandatory s) (rm_left_out s ++ x :: rest)) →
  accounted (λ _, True) (mk_Removal (rm_candidates s) (rm_mandatory s) (rm_left_out s ++ x :: rest)) →
  let s' := retain_one s x in
  removal_inv (mk_Removal (rm_candidates s') (rm_mandatory s') (rm_left_out s' ++ rest))
  ∧ accounted (λ _, True) (mk_Removal (rm_candidates s') (rm_mandatory s') (rm_left_out s' ++ rest))
  ∧ length (rm_left_out s') + length (rm_mandatory s') = S (length (rm_left_out s) + length (rm_mandatory s))
  ∧ length (rm_mandatory s) ≤ length (rm_mandatory s')
  ∧ (length (rm_mandatory s') = length (rm_mandatory s) → rm_mandatory s' = rm_mandatory s
      ∧ (rs_ownership x.2 = "owned" → ∀ dep, dep ∈ rs_dependencies x.2 → dep ∉ rm_mandatory s)).
Proof.
  destruct s as [c m lo], x as [d r]. simpl. intros [Hw Hcw Hl Hm Hc Hf Ha] Hacc. simpl in *.
  destruct (Hl d r) as [Hout Hch]; [set_solver|].
  assert (rs_descriptor r ∉ m) as Hnm by (apply (Ha d); set_solver).
  destruct (String.eqb_spec (rs_ownership r) "owned") as [Ho|Ho]; simpl;
    [destruct (existsb _ _) eqn:E|]; simpl.
  - apply existsb_exists in E as (dep & Hdep & Hin%bs_mem_spec). apply list_elem_of_In in Hdep.
    assert (removed (rs_descriptor r)) as Hrem by (eapply removed_owned; eauto).
    assert (∀ e q, (e, q) ∈ lo ++ rest → rs_descriptor q ≠ rs_descriptor r) as Hne.
    { intros e q Hq. rewrite !fmap_app, !fmap_cons in Hf. apply NoDup_app in Hf as (_ & H1 & H2%NoDup_cons).
      destruct H2 as [H2 _]. intros Heq. apply elem_of_app in Hq as [Hq|Hq].
      - apply (H1 (rs_descriptor q)); [|rewrite Heq; left]. apply list_elem_of_fmap_2. by apply (list_elem_of_fmap_2' snd _ (e, q)).
      - apply H2. simpl. rewrite <- Heq. apply list_elem_of_fmap_2. by apply (list_elem_of_fmap_2' snd _ (e, q)). }
    assert (length (bs_insert (rs_descriptor r) m) = S (length m)) as Hlen by by rewrite (bs_insert_perm _ m).
    split_and!; [split; simpl| |rewrite Hlen; lia..].
    + by apply bs_wf_insert.
    + by apply bt_wf_insert.
    + intros e q Hq. apply Hl. rewrite elem_of_app, elem_of_cons in *. tauto.
    + intros n [->|Hn]%elem_of_bs_insert; auto.
    + intros e q. rewrite bt_get_insert_if. case_decide; [intros [= <-]; subst e|]; [|intros Hq].
      * split; [done|]. right. rewrite elem_of_bs_insert. by left.
      * destruct (Hc _ _ Hq) as [? [?|?]]; (split; [done|]); [by left|]. right. rewrite elem_of_bs_insert. by right.
    + revert Hf. rewrite !fmap_app, !fmap_cons. intros Hf.
      rewrite <- Permutation_middle in Hf. by apply NoDup_cons in Hf as [_ ?].
    + intros e q Hq. rewrite elem_of_bs_insert. intros [Heq|Hq']; [by apply (Hne e q)|].
      apply (Ha e q); [|done]. rewrite elem_of_app in Hq. rewrite elem_of_app, elem_of_cons. tauto.
    + intros e q Hq _. simpl. destruct (Hacc e q Hq I) as [H1 H2]. split; [|intros H3; rewrite elem_of_bs_insert; right; auto].
      rewrite bt_get_insert_if. case_decide as Hde; [subst e; right; by rewrite (outside_key d r q)|].
      destruct H1 as [H1|H1]; [|by right]. left. simpl in H1. rewrite elem_of_app, elem_of_cons in H1. rewrite elem_of_app. naive_solver.
  - split_and!; rewrite <-?app_assoc; simpl; [split; done|done|rewrite length_app; simpl; lia|lia|]. intros _.
    split; [done|]. intros _ dep Hdep Hin. apply not_true_iff_false in E. apply E, existsb_exists.
    exists dep. by rewrite <- list_elem_of_In, bs_mem_spec.
  - split_and!; rewrite <-?app_assoc; simpl; [split; done|done|rewrite length_app; simpl; lia|lia|]. done.
Qed.

Lemma retain_all l s :
  removal_inv (mk_Removal (rm_candidates s) (rm_mandatory s) (rm_left_out s ++ l)) →
  accounted (λ _, True) (mk_Removal (rm_candidates s) (rm_mandatory s) (rm_left_out s ++ l)) →
  let s' := foldl retain_one s l in
  removal_inv s' ∧ accounted (λ _, True) s'
  ∧ length (rm_left_out s') + length (rm_mandatory s') = length l + (length (rm_left_out s) + length (rm_mandatory s))
  ∧ length (rm_mandatory s) ≤ length (rm_mandatory s')
  ∧ (length (rm_mandatory s') = length (rm_mandatory s) → rm_mandatory s' = rm_mandatory s
      ∧ ∀ d r dep, (d, r) ∈ l → rs_ownership r = "owned" → dep ∈ rs_dependencies r → dep ∉ rm_mandatory s).
Proof.
  revert s. induction l as [|x l IH]; intros s Hi Ha.
  - simpl. rewrite app_nil_r in Hi, Ha. destruct s. split_and!; try done. intros _. split; [done|]. by intros d r dep []%not_elem_of_nil.
  - destruct (retain_step s x l Hi Ha) as (Hi' & Ha' & Hn & Hle & Hsame). simpl in *.
    destruct (IH _ Hi' Ha') as (Hi2 & Ha2 & Hn2 & Hle2 & Hsame2). split_and!; [done..|lia|lia|].
    intros E. destruct Hsame as [E1 Hx]; [lia|]. destruct Hsame2 as [E2 Hl]; [lia|]. split; [congruence|].
    intros d r dep [<-|Hin]%elem_of_cons Ho Hdep; [by apply Hx|]. rewrite <- E1. by apply (Hl d r).
Qed.

(** What the resources seen so far are named. *)
Definition taken (s : Removal) (n : string) : Prop :=
  n ∈ rs_descriptor <$> (rm_left_out s).*2 ∨ n ∈ rm_mandatory s.

Lemma retain_all_left l s x : x ∈ rm_left_out (foldl retain_one s l) → x ∈ rm_left_out s ∨ x ∈ l.
Proof.
  revert s. induction l as [|[d r] l IH]; intros s Hx; simpl in *; [by left|].
  apply IH in Hx as [Hx|Hx]; [|right; by right]. unfold retain_one in Hx.
  destruct (_ && _); simpl in Hx; [by left|]. apply elem_of_app in Hx as [Hx|Hx%list_elem_of_singleton]; [by left|].
  right. subst x. by left.
Qed.

Lemma consider_chosen s d r (seen : ResourceRow → Prop) :
  outside d r → chosen d r = true → ¬ taken s (rs_descriptor r) → removal_inv s → accounted seen s →
  let s' := mk_Removal (bt_insert d r (rm_candidates s))
    (if must_go teardown d r then bs_insert (rs_descriptor r) (rm_mandatory s) else rm_mandatory s) (rm_left_out s) in
  removal_inv s' ∧ accounted (λ q, seen q ∨ q = r) s'.
Proof.
  intros Hout Hch Hfr [Hw Hcw Hl Hm Hc Hf Ha] Hs. simpl.
  assert (∀ n, n ∈ (if must_go teardown d r then bs_insert (rs_descriptor r) (rm_mandatory s) else rm_mandatory s)
    ↔ (must_go teardown d r = true ∧ n = rs_descriptor r) ∨ n ∈ rm_mandatory s) as Hmem.
  { intros n. destruct (must_go teardown d r); [rewrite elem_of_bs_insert|]; naive_solver. }
  split; [split; simpl|].
  - destruct (must_go teardown d r); [by apply bs_wf_insert|done].
  - by apply bt_wf_insert.
  - done.
  - intros n [[Hgo ->]|Hn]%Hmem; [by eapply removed_self|auto].
  - intros e q. rewrite Hmem, bt_get_insert_if. case_decide; [intros [= <-]; subst e; split; [done|by left]|].
    intros Hq. destruct (Hc _ _ Hq) as [? [?|?]]; tauto.
  - done.
  - intros e q Hq. rewrite Hmem. intros [[_ Heq]|Hq']; [|by apply (Ha e q)]. apply Hfr. left.
    rewrite <- Heq. apply list_elem_of_fmap_2. by apply (list_elem_of_fmap_2' snd _ (e, q)).
  - intros e q Hq Hseen. simpl. rewrite bt_get_insert_if, Hmem. case_decide as Hde.
    + subst e. rewrite (outside_key d q r) by done. split; [by right|]. tauto.
    + destruct Hseen as [Hseen| ->]; [|destruct Hq as (_ & Hq & _), Hout as (_ & Hout & _); congruence].
      destruct (Hs e q Hq Hseen) as [H1 H2]. tauto.
Qed.

Lemma consider_left s d r (seen : ResourceRow → Prop) :
  outside d r → chosen d r = false → ¬ taken s (rs_descriptor r) → removal_inv s → accounted seen s →
  let s' := mk_Removal (rm_candidates s) (rm_mandatory s) (rm_left_out s ++ [(d, r)]) in
  removal_inv s' ∧ accounted (λ q, seen q ∨ q = r) s'.
Proof.
  intros Hout Hch Hfr [Hw Hcw Hl Hm Hc Hf Ha] Hs. simpl. split; [split; simpl; try done|].
  - intros e q [Hq|[= -> ->]%list_elem_of_singleton]%elem_of_app; [by apply Hl|done].
  - rewrite !fmap_app. apply NoDup_app. split_and!; [done| |apply NoDup_singleton].
    intros n Hn Hn'. simpl in Hn'. apply list_elem_of_singleton in Hn'. subst n. apply Hfr. by left.
  - intros e q [Hq|[= -> ->]%list_elem_of_singleton]%elem_of_app; [by apply (Ha e q)|].
    intros Hq. apply Hfr. by right.
  - intros e q Hq Hseen. simpl. rewrite elem_of_app, list_elem_of_singleton. destruct Hseen as [Hseen| ->].
    + destruct (Hs e q Hq Hseen) as [? ?]. tauto.
    + assert (e = d) as -> by (destruct Hq as (_ & Hq & _), Hout as (_ & Hout & _); congruence).
      split; [left; by right|]. intros Hgo%must_go_deletable. unfold chosen in Hch. by rewrite Hgo in Hch.
Qed.

Lemma consider_step s r seen :
  r ∈ active → ¬ taken s (rs_descriptor r) → removal_inv s → accounted seen s →
  let s' := consider graph teardown s r in
  removal_inv s' ∧ accounted (λ q, seen q ∨ q = r) s'
  ∧ ∀ n, taken s' n → n = rs_descriptor r ∨ taken s n.
Proof.
  intros Hr Hfr Hi Hs. unfold consider.
  assert (∀ P : Prop, (∀ d, ¬ outside d r) → P → removal_inv s ∧ accounted (λ q, seen q ∨ q = r) s ∧ P) as Hno.
  { intros P Hno HP. split_and!; [done| |done]. intros d q Hq [Hq'| ->]; [by apply Hs|by destruct (Hno d)]. }
  destruct (Descriptor_parse (rs_descriptor r)) as [d|e] eqn:Ed.
  2: { apply Hno; [|tauto]. intros d (_ & Hq & _). congruence. }
  unfold bt_contains. destruct (bt_get d (g_nodes graph)) eqn:Eg; simpl.
  { apply Hno; [|tauto]. intros e (_ & Hq & Hq'). congruence. }
  assert (outside d r) as Hout by done. fold (chosen d r). destruct (chosen d r) eqn:Ech; simpl.
  - destruct (consider_chosen s d r seen) as [H1 H2]; try done. split_and!; [done..|]. unfold taken. simpl.
    intros n [Hn|Hn]; [tauto|]. destruct (must_go teardown d r); [|tauto]. apply elem_of_bs_insert in Hn. tauto.
  - destruct (consider_left s d r seen) as [H1 H2]; try done. split_and!; [done..|]. unfold taken. simpl.
    intros n. rewrite !fmap_app, elem_of_app. simpl. rewrite list_elem_of_singleton. tauto.
Qed.

Lemma consider_all l s seen :
  (∀ r, r ∈ l → r ∈ active) → NoDup (rs_descriptor <$> l) → (∀ r, r ∈ l → ¬ taken s (rs_descriptor r)) →
  removal_inv s → accounted seen s →
  let s' := foldl (consider graph teardown) s l in
  removal_inv s' ∧ accounted (λ r, seen r ∨ r ∈ l) s'.
Proof.
  revert s seen. induction l as [|r l IH]; intros s seen Hact Hnd Hfr Hi Hs; simpl.
  - split; [done|]. intros d r Hr [Hseen|[]%not_elem_of_nil]. by apply Hs.
  - rewrite fmap_cons, NoDup_cons in Hnd. destruct Hnd as [Hr Hnd].
    destruct (consider_step s r seen) as (Hi' & Hs' & Hn'); [apply Hact; left|apply Hfr; left|done..|].
    destruct (IH (consider graph teardown s r) (λ q, seen q ∨ q = r)) as [H1 H2]; try done.
    + intros q Hq. apply Hact. by right.
    + intros q Hq [E|Ht]%Hn'; [|by apply (Hfr q); [right|]]. apply Hr. rewrite <- E. by apply list_elem_of_fmap_2.
    + split; [done|]. intros d q Hq Hseen. apply H2; [done|]. rewrite elem_of_cons in Hseen. tauto.
Qed.

Lemma retain_round_spec s :
  removal_inv s ∧ accounted (λ _, True) s →
  (removal_inv (retain_round s).1 ∧ accounted (λ _, True) (retain_round s).1)
  ∧ ((retain_round s).2 = true → length (rm_left_out (retain_round s).1) < length (rm_left_out s)).
Proof.
  intros [Hi Ha]. destruct (retain_all (rm_left_out s) (mk_Removal (rm_candidates s) (rm_mandatory s) []))
    as (Hi' & Ha' & Hn & Hle & _); [by destruct s..|]. simpl in *. split; [done|].
  intros Hne%negb_true_iff%Nat.eqb_neq. lia.
Qed.

(** The rounds end, with every resource accounted for and nothing left out that a removed
    resource owns. *)
Lemma removal_of_total :
  ∃ s, removal_of graph teardown active = Some s ∧ removal_inv s ∧ accounted (λ _, True) s
    ∧ ∀ d r dep, (d, r) ∈ rm_left_out s → rs_ownership r = "owned" → dep ∈ rs_dependencies r →
        dep ∉ rm_mandatory s.
Proof.
  unfold removal_of. destruct (consider_all active (mk_Removal [] [] []) (λ _, False)) as [Hi Ha]; try done.
  - intros r _ [H|H]; by apply not_elem_of_nil in H.
  - split; simpl; try done; try constructor; intros; by apply not_elem_of_nil in H || done.
  - set (s0 := foldl _ _ active) in *.
    destruct (until_stable_total retain_round (λ s, length (rm_left_out s))
      (λ s, removal_inv s ∧ accounted (λ _, True) s) retain_round_spec (S (length (rm_left_out s0))) s0)
      as (s & [Hsi Hsa] & Hst & ->).
    + split; [done|]. intros d r Hr _. apply Ha; [done|]. right. apply Hr.
    + lia.
    + destruct (retain_round_spec s) as [[? ?] _]; [done|]. exists (retain_round s).1. split_and!; [done..|].
      destruct (retain_all (rm_left_out s) (mk_Removal (rm_candidates s) (rm_mandatory s) []))
        as (_ & _ & Hn & Hle & Hsame); [by destruct s..|]. simpl in *.
      apply negb_false_iff, Nat.eqb_eq in Hst. destruct (Hsame Hst) as [-> Hd].
      intros d r dep [Hin|Hin]%retain_all_left; [by apply not_elem_of_nil in Hin|]. by apply (Hd d r dep).
Qed.

Lemma candidates_exact :
  let (candidates, mandatory) := deletion_candidates graph teardown active in
  (∀ n, n ∈ mandatory ↔ removed n)
  ∧ (∀ d r, (d, r) ∈ candidates ↔ outside d r ∧ (chosen d r = true ∨ removed (rs_descriptor r)))
  ∧ (∀ d r, (d, r) ∈ candidates → rs_cleanup_pending r = false →
       rs_ownership r = "owned" ∨ rs_ownership r = "adopted" ∧ rs_scheduled_deletion r = true).
Proof.
  unfold deletion_candidates. destruct removal_of_total as (s & -> & [Hw Hcw Hl Hm Hc _ Ha] & Hacc & Hst).
  assert (∀ n, removed n → n ∈ rm_mandatory s) as Hall.
  { induction 1 as [d r Hr Hgo|d r dep Hr Hch Ho Hdep _ IH]; [by apply (Hacc d r)|].
    destruct (Hacc d r Hr I) as [[Hleft|Hcand] _]; [by destruct (Hst d r dep)|].
    destruct (Hc d r Hcand) as [_ [?|?]]; congruence. }
  assert (∀ d r, (d, r) ∈ rm_candidates s ↔ outside d r ∧ (chosen d r = true ∨ removed (rs_descriptor r))) as Hcand.
  { intros d r. rewrite <- bt_get_Some by done. split.
    - intros H. destruct (Hc d r H) as [Hr [?|?]]; split; auto.
    - intros [Hr Hcase]. destruct (Hacc d r Hr I) as [[Hleft|?] _]; [|done]. exfalso. destruct (Hl d r Hleft) as [_ Hch].
      destruct Hcase as [?|Hrem%Hall]; [congruence|]. by apply (Ha d r). }
  split_and!; [split; auto|done|]. intros d r [Hr [Hch|Hrem]]%Hcand Hcl.
  - unfold chosen, deletable, must_go in Hch. rewrite Hcl, orb_false_r in Hch.
    destruct (String.eqb_spec (rs_ownership r) "owned"); [by left|].
    destruct (String.eqb_spec (rs_ownership r) "adopted"); [right|done]. split; [done|].
    simpl in Hch. by destruct (rs_scheduled_deletion r), teardown.
  - inversion Hrem as [e q Hq Hgo E|e q dep Hq _ Ho _ _ E].
    + destruct (outside_inj _ _ _ _ Hq Hr E) as [-> ->]. unfold must_go in Hgo.
      destruct (String.eqb_spec (rs_ownership r) "owned"); [by left|].
      destruct (String.eqb_spec (rs_ownership r) "adopted"); [right|done]. bool_hyps. done.
    + destruct (outside_inj _ _ _ _ Hq Hr E) as [-> ->]. by left.
Qed.

(** *** What must go, spelled out *)

Definition goes_itself (d : Descriptor) (r : ResourceRow) : Prop :=
  rs_ownership r = "owned" ∧ (teardown = true ∨ d_ty d = "workload")
  ∨ rs_ownership r = "adopted" ∧ teardown = true ∧ rs_scheduled_deletion r = true.

Definition chosen_itself (d : Descriptor) (r : ResourceRow) : Prop :=
  goes_itself d r
  ∨ (rs_ownership r = "owned" ∨ rs_ownership r = "adopted") ∧ rs_scheduled_deletion r = true
  ∨ rs_cleanup_pending r = true.

(** Removed resources, and the owned ones that depend on one of them and would otherwise be left. *)
Inductive goes : string → Prop :=
| goes_self d r : outside d r → goes_itself d r → goes (rs_descriptor r)
| goes_with d r dep :
    outside d r → ¬ chosen_itself d r → rs_ownership r = "owned" → dep ∈ rs_dependencies r → goes dep →
    goes (rs_descriptor r).

Lemma must_go_spec d r : must_go teardown d r = true ↔ goes_itself d r.
Proof.
  unfold must_go, goes_itself. destruct (String.eqb_spec (rs_ownership r) "owned") as [->|].
  - rewrite orb_true_iff, String.eqb_eq. naive_solver.
  - destruct (String.eqb_spec (rs_ownership r) "adopted"); [rewrite andb_true_iff|]; naive_solver.
Qed.

Lemma chosen_spec d r : chosen d r = true ↔ chosen_itself d r.
Proof.
  unfold chosen, chosen_itself, deletable. rewrite <- must_go_spec, orb_true_iff.
  assert (must_go teardown d r = true → rs_ownership r = "owned" ∨ rs_ownership r = "adopted") as Hgo.
  { rewrite must_go_spec. unfold goes_itself. tauto. }
  destruct (_ || _) eqn:E; rewrite ?orb_true_iff.
  - apply orb_true_iff in E. rewrite !String.eqb_eq in E. tauto.
  - apply orb_false_iff in E. rewrite !String.eqb_neq in E. naive_solver.
Qed.

Lemma removed_goes n : removed n ↔ goes n.
Proof.
  assert (∀ d r, chosen d r = false ↔ ¬ chosen_itself d r) as Hc by (intros; rewrite <- chosen_spec; by rewrite not_true_iff_false).
  split; induction 1 as [d r Hr Hgo|d r dep Hr Hch Ho Hdep _ IH].
  - by apply (goes_self d); [|apply must_go_spec].
  - by apply (goes_with d r dep); [|apply Hc| | |].
  - by apply (removed_self d); [|apply must_go_spec].
  - by apply (removed_owned d r dep); [|apply Hc| | |].
Qed.

(** C26: what a deployment deletes. Among resources with distinct descriptors, the removals it
    must complete are exactly the least set with the resources outside of the graph that go for
    themselves (an owned workload; in a teardown everything owned, and what was adopted and
    scheduled), and each owned resource outside of the graph that depends on one of the set and
    is not already chosen in its own right. The candidates are exactly the resources outside of
    the graph that are in the set, that are owned or adopted and scheduled for deletion, or whose
    deletion was already confirmed. So a resource in the graph is no candidate, an external one is
    none unless its driver deleted it before, and an adopted one only when it is scheduled; and a
    resource that is chosen in its own right and does not go for itself, such as a scheduled one,
    is never in the set, even when it depends on a removed workload, so that nothing is removed
    for depending on it. *)
Theorem deletion_candidates_spec :
  let (candidates, mandatory) := deletion_candidates graph teardown active in
  (∀ n, n ∈ mandatory ↔ goes n)
  ∧ (∀ d r, (d, r) ∈ candidates ↔ outside d r ∧ (chosen_itself d r ∨ goes (rs_descriptor r)))
  ∧ (∀ d r, (d, r) ∈ candidates → rs_cleanup_pending r = false →
       rs_ownership r = "owned" ∨ rs_ownership r = "adopted" ∧ rs_scheduled_deletion r = true)
  ∧ (∀ d r, outside d r → chosen_itself d r → ¬ goes_itself d r → rs_descriptor r ∉ mandatory).
Proof.
  pose proof candidates_exact as Hex. destruct (deletion_candidates _ _ _) as [candidates mandatory].
  destruct Hex as (Hm & Hc & Ho). split_and!.
  - intros n. by rewrite Hm, removed_goes.
  - intros d r. by rewrite Hc, chosen_spec, removed_goes.
  - done.
  - intros d r Hr Hch Hgo. rewrite Hm, removed_goes. intros Hg.
    inversion Hg as [e q Hq Hgo' E|e q dep Hq Hch' _ _ _ E]; destruct (outside_inj _ _ _ _ Hq Hr E) as [-> ->]; done.
Qed.
End candidates.

(** Every candidate is a resource that the deployment leaves out, whatever the resources are. *)
Definition all_outside (graph : ResourceGraph) (active : list ResourceRow) (s : Removal) : Prop :=
  bt_wf (rm_candidates s) ∧ ∀ d r, (d, r) ∈ rm_candidates s ∨ (d, r) ∈ rm_left_out s → outside graph active d r.

Lemma consider_outside graph teardown active s r :
  r ∈ active → all_outside graph active s → all_outside graph active (consider graph teardown s r).
Proof.
  intros Hr Hs. unfold consider. destruct (Descriptor_parse _) as [d|] eqn:Ed; [|done].
  unfold bt_contains. destruct (bt_get d (g_nodes graph)) eqn:Eg; [done|]. simpl. destruct Hs as [Hw Hs].
  case_match; (split; [try done; by apply bt_wf_insert|]); intros d' r' [Hin|Hin]; simpl in Hin; try (by apply Hs; auto).
  - apply elem_of_app in Hin as [?|[= -> ->]%list_elem_of_singleton]; [by apply Hs; auto|]. by split_and!.
  - apply bt_elem_insert in Hin as [[= -> ->]|?]; [|by apply Hs; auto]. by split_and!.
Qed.

Lemma retain_all_outside graph active l s :
  all_outside graph active s → (∀ d r, (d, r) ∈ l → outside graph active d r) →
  all_outside graph active (foldl retain_one s l).
Proof.
  revert s. induction l as [|[d r] l IH]; intros s [Hw Hs] Hl; [done|]. simpl.
  apply IH; [|intros ???; apply Hl; by right]. assert (outside graph active d r) by (apply Hl; left).
  case_match; (split; [try done; by apply bt_wf_insert|]); intros d' r' [Hin|Hin]; simpl in Hin; try (by apply Hs; auto).
  - apply bt_elem_insert in Hin as [[= -> ->]|?]; [done|]. by apply Hs; auto.
  - apply elem_of_app in Hin as [?|[= -> ->]%list_elem_of_singleton]; [by apply Hs; auto|done].
Qed.

Lemma candidates_outside graph teardown active :
  let candidates := (deletion_candidates graph teardown active).1 in
  bt_wf candidates ∧ ∀ d r, (d, r) ∈ candidates → outside graph active d r.
Proof.
  unfold deletion_candidates, removal_of. set (s := foldl _ _ _).
  assert (all_outside graph active s) as Hs.
  { subst s. assert (∀ l s, (∀ r, r ∈ l → r ∈ active) → all_outside graph active s →
      all_outside graph active (foldl (consider graph teardown) s l)) as Hf.
    { induction l as [|r l IH]; intros s Hl Hs; [done|]. simpl.
      apply IH; [intros ??; apply Hl; by right|]. apply consider_outside; [apply Hl; left|done]. }
    apply Hf; [done|]. split; [apply bt_wf_nil|]. set_solver. }
  generalize (S (length (rm_left_out s))). intros fuel. clearbody s. revert s Hs.
  induction fuel as [|fuel IH]; intros s Hs; cbn [until_stable]; [split; [apply bt_wf_nil|set_solver]|].
  assert (all_outside graph active (retain_round s).1) as Hr.
  { destruct Hs as [Hw Hs]. apply retain_all_outside; [split; [done|]; set_solver|auto]. }
  destruct (retain_round s) as [s' [|]]; [by apply IH|]. simpl in *. destruct Hr as [? Hr]. split; [done|]. auto.
Qed.

(** ** What stays is a least fixed point *)

(** A removal that is not mandatory stays while something that stays uses it: a resource that
    is no candidate, or another that stays. *)
Inductive stays (used : string → string → Prop) (names mandatory : list string)
    (rows : list ResourceRow) : string → Prop :=
| stays_used r u :
    r ∈ rows → rs_descriptor r ∉ mandatory → used (rs_descriptor r) u → u ∉ names →
    stays used names mandatory rows (rs_descriptor r)
| stays_after r u :
    r ∈ rows → rs_descriptor r ∉ mandatory → used (rs_descriptor r) u →
    stays used names mandatory rows u → stays used names mandatory rows (rs_descriptor r).

Section kept.
Context (blockers : ResourceRow → list string) (names mandatory : list string) (rows : list ResourceRow).
Context (used : string → string → Prop) (Hused : ∀ r u, u ∈ blockers r ↔ used (rs_descriptor r) u).

#[local] Abbreviation stays := (stays used names mandatory rows).

(** Nothing keeps the resource yet. *)
Definition unused (kept : list string) (r : ResourceRow) : Prop :=
  rs_descriptor r ∈ kept ∨ rs_descriptor r ∈ mandatory
  ∨ ∀ u, u ∈ blockers r → u ∈ names ∧ u ∉ kept.

Lemma keep_one_cases kept ch r :
  (keep_one blockers names mandatory (kept, ch) r = (kept, ch) ∧ unused kept r)
  ∨ (keep_one blockers names mandatory (kept, ch) r = (bs_insert (rs_descriptor r) kept, true)
     ∧ rs_descriptor r ∉ kept ∧ rs_descriptor r ∉ mandatory
     ∧ ∃ u, u ∈ blockers r ∧ (u ∉ names ∨ u ∈ kept)).
Proof.
  unfold keep_one, unused. destruct (bs_mem _ kept) eqn:E1; [apply bs_mem_spec in E1; left; tauto|].
  destruct (bs_mem _ mandatory) eqn:E2; [apply bs_mem_spec in E2; left; tauto|].
  apply bs_mem_false in E1, E2. simpl. destruct (existsb _ _) eqn:E3.
  - right. split_and!; try done. apply existsb_exists in E3 as (u & Hu & Hc). exists u.
    rewrite list_elem_of_In. split; [done|]. apply orb_true_iff in Hc as [Hc%negb_true_iff|Hc].
    + left. by apply bs_mem_false.
    + right. by apply bs_mem_spec.
  - left. split; [done|]. right. right. intros u Hu. apply not_true_iff_false in E3. rewrite existsb_exists in E3.
    rewrite <- bs_mem_spec, <- bs_mem_false. destruct (bs_mem u names) eqn:En, (bs_mem u kept) eqn:Ek; try done;
      exfalso; apply E3; exists u; rewrite <- list_elem_of_In, En, Ek; done.
Qed.

Lemma keep_rows l kept ch kept' ch' :
  (∀ r, r ∈ l → r ∈ rows) → (∀ n, n ∈ kept → stays n) →
  foldl (keep_one blockers names mandatory) (kept, ch) l = (kept', ch') →
  (∀ n, n ∈ kept' → stays n) ∧ kept ⊆ kept'
  ∧ (ch = true → ch' = true)
  ∧ (ch' = false → kept' = kept ∧ ∀ r, r ∈ l → unused kept r)
  ∧ (ch' = true → ch = true ∨ ∃ r, r ∈ l ∧ rs_descriptor r ∈ kept' ∧ rs_descriptor r ∉ kept).
Proof.
  revert kept ch. induction l as [|r l IH]; intros kept ch Hl Hk Hf.
  - simpl in Hf. simplify_eq. split_and!; auto. intros _. split; [done|]. by intros r []%not_elem_of_nil.
  - assert (∀ q, q ∈ l → q ∈ rows) as Hl' by (intros q Hq; apply Hl; by right). cbn [foldl] in Hf.
    destruct (keep_one_cases kept ch r) as [[E Hu]|(E & Hn & Hm & u & Hu & Hs)]; rewrite E in Hf.
    + destruct (IH kept ch Hl' Hk Hf) as (H1 & H2 & H3 & H4 & H5). split_and!; try done.
      * intros Hc. destruct (H4 Hc) as [-> H6]. split; [done|]. intros q [->|Hq]%elem_of_cons; auto.
      * intros Hc. destruct (H5 Hc) as [?|(q & Hq & ?)]; [by left|]. right. exists q. split; [by right|done].
    + destruct (IH (bs_insert (rs_descriptor r) kept) true Hl') as (H1 & H2 & H3 & H4 & H5); [|done|].
      { assert (r ∈ rows) as Hr by (apply Hl; left). intros n [->|?]%elem_of_bs_insert; [|by apply Hk].
        apply Hused in Hu. destruct Hs as [Hs|Hs]; [by eapply stays_used|]. eapply stays_after; eauto. }
      assert (∀ n, n ∈ bs_insert (rs_descriptor r) kept → n ∈ kept') as H2' by (intros n; apply H2).
      rewrite H3 in * by done. split_and!; try done.
      * intros n Hn'. apply H2', elem_of_bs_insert. by right.
      * intros _. right. exists r. split_and!; [left| |done]. apply H2', elem_of_bs_insert. by left.
Qed.

Lemma keep_round_spec kept :
  (∀ n, n ∈ kept → stays n) →
  (∀ n, n ∈ (keep_round blockers names mandatory rows kept).1 → stays n)
  ∧ ((keep_round blockers names mandatory rows kept).2 = true →
     length (filter (λ r, rs_descriptor r ∉ (keep_round blockers names mandatory rows kept).1) rows)
     < length (filter (λ r, rs_descriptor r ∉ kept) rows)).
Proof.
  intros Hk. unfold keep_round. destruct (foldl _ _ rows) as [kept' ch'] eqn:E. simpl.
  apply keep_rows in E as (H1 & H2 & _ & _ & H5); [|done..]. split; [done|]. intros Hc.
  destruct (H5 Hc) as [?|(r & Hr & Hin & Hout)]; [done|]. clear -H2 Hr Hin Hout.
  assert (∀ q, rs_descriptor q ∉ kept' → rs_descriptor q ∉ kept) as Himp by (intros q Hq Hq'; by apply Hq, H2).
  assert (∀ l, length (filter (λ q, rs_descriptor q ∉ kept') l) ≤ length (filter (λ q, rs_descriptor q ∉ kept) l)) as Hle.
  { induction l as [|q l IH]; [done|]. rewrite !filter_cons. repeat case_decide; simpl; try lia. by destruct (Himp q). }
  apply list_elem_of_split in Hr as (l1 & l2 & ->). rewrite !filter_app, !filter_cons, !length_app.
  rewrite (decide_False (P := rs_descriptor r ∉ kept')) by tauto. rewrite (decide_True (P := rs_descriptor r ∉ kept)) by done.
  simpl. pose proof (Hle l1). pose proof (Hle l2). lia.
Qed.

(** The rounds end with exactly what stays. *)
Lemma keep_rounds_total fuel :
  length rows < fuel →
  ∃ kept, until_stable (keep_round blockers names mandatory rows) fuel [] = Some kept ∧ ∀ n, n ∈ kept ↔ stays n.
Proof.
  intros Hf. destruct (until_stable_total (keep_round blockers names mandatory rows)
    (λ kept, length (filter (λ r, rs_descriptor r ∉ kept) rows)) (λ kept, ∀ n, n ∈ kept → stays n) keep_round_spec fuel [])
    as (kept & Hk & Hst & ->).
  - by intros n []%not_elem_of_nil.
  - pose proof (length_filter (λ r, rs_descriptor r ∉ []) rows). lia.
  - exists (keep_round blockers names mandatory rows kept).1. split; [done|].
    unfold keep_round in *. destruct (foldl _ _ rows) as [kept' ch'] eqn:E. simpl in *. subst ch'.
    apply keep_rows in E as (H1 & _ & _ & H4 & _); [|done..]. destruct (H4 eq_refl) as [-> Hu].
    intros n. split; [auto|]. induction 1 as [r u Hr Hm Hin Hn|r u Hr Hm Hin _ IH];
      destruct (Hu r Hr) as [?|[?|Hno]]; try done; apply Hused in Hin; by destruct (Hno u Hin).
Qed.
End kept.

(** ** Users *)

Lemma add_users_spec user deps users dep u :
  u ∈ users_get (foldl (add_user user) users deps) dep ↔ (u = user ∧ dep ∈ deps) ∨ u ∈ users_get users dep.
Proof.
  revert users. induction deps as [|x deps IH]; intros users; simpl; [rewrite elem_of_nil; tauto|].
  rewrite IH, elem_of_cons. unfold users_get, add_user at 1. rewrite bt_get_insert_if. case_decide as E; simpl.
  - rewrite elem_of_bs_insert. unfold users_get. subst x. tauto.
  - tauto.
Qed.

Lemma fold_users_spec {A} (name : A → string) (deps : A → list string) l users dep u :
  u ∈ users_get (foldl (λ users x, foldl (add_user (name x)) users (deps x)) users l) dep
  ↔ (∃ x, x ∈ l ∧ dep ∈ deps x ∧ u = name x) ∨ u ∈ users_get users dep.
Proof.
  revert users. induction l as [|x l IH]; intros users; simpl; [set_solver|].
  rewrite IH, add_users_spec. set_solver.
Qed.

(** Who uses [dep]: the resources of [active] that depend on it, and what was detached while it did. *)
Definition used_in (active : list ResourceRow) (tombstones : list TombstoneRow) (name : TombstoneRow → string)
    (dep u : string) : Prop :=
  (∃ r, r ∈ active ∧ dep ∈ rs_dependencies r ∧ u = rs_descriptor r)
  ∨ (∃ t, t ∈ tombstones ∧ tb_reason t = "detached" ∧ dep ∈ tombstone_dependencies t ∧ u = name t).

Lemma users_spec active tombstones name dep u :
  u ∈ users_get (detached_users name tombstones (active_users active [])) dep ↔ used_in active tombstones name dep u.
Proof.
  unfold detached_users, active_users, used_in. rewrite (fold_users_spec name tombstone_dependencies).
  rewrite (fold_users_spec rs_descriptor rs_dependencies). unfold users_get at 1. simpl. rewrite elem_of_nil.
  setoid_rewrite list_elem_of_filter. naive_solver.
Qed.

Lemma length_bt_values {K V} (m : list (K * V)) : length (bt_values m) = length m.
Proof. unfold bt_values. by rewrite length_fmap. Qed.

(** The resources that the deployment leaves in place or deletes, as users of others. *)
Definition leaves_in (graph : ResourceGraph) (active : list ResourceRow) : list ResourceRow :=
  filter (λ r, bs_mem (rs_descriptor r) (bs_of_list (Descriptor_show <$> bt_keys (g_nodes graph))) = false) active.

Lemma elem_of_leaves_in graph active r :
  r ∈ leaves_in graph active ↔ r ∈ active ∧ rs_descriptor r ∉ Descriptor_show <$> bt_keys (g_nodes graph).
Proof. unfold leaves_in. rewrite list_elem_of_filter, bs_mem_false, elem_of_bs_of_list. tauto. Qed.

(** The rounds end. *)
Lemma kept_of_total graph active tombstones candidates mandatory :
  ∃ kept, kept_of graph active tombstones candidates mandatory = Some kept
    ∧ ∀ n, n ∈ kept ↔ stays (used_in (leaves_in graph active) tombstones tb_descriptor)
        (candidate_names candidates) mandatory (bt_values candidates) n.
Proof.
  apply keep_rounds_total; [intros r u; apply users_spec|]. rewrite length_bt_values. lia.
Qed.

(** The candidates that a deployment keeps are exactly those it need not remove that
    something staying uses, directly or through other candidates that stay: a resource that
    is neither a candidate nor part of the deployment, or one that was detached. *)
Theorem kept_candidates_spec (graph : ResourceGraph) (active : list ResourceRow) (tombstones : list TombstoneRow)
    (candidates : list (Descriptor * ResourceRow)) (mandatory : list string) (n : string) :
  n ∈ kept_candidates graph active tombstones candidates mandatory
  ↔ stays (used_in (leaves_in graph active) tombstones tb_descriptor) (candidate_names candidates) mandatory
      (bt_values candidates) n.
Proof.
  unfold kept_candidates. destruct (kept_of_total graph active tombstones candidates mandatory) as (kept & -> & Hk).
  apply Hk.
Qed.
