(* ===== verification/PlanInputs.v ===== *)
(** * The inputs of a deployment ([crates/engine/src/planner.rs])

    What the planner runs ([Deployment]), what a resource's placeholders may refer to
    ([scope_for]), and the job it hands to the executor ([job]): plain values resolved, secrets
    left as references with where they came from. All of it is pure; what other crates do
    (JSON text, digests, reading a snapshot) is a parameter. *)

From Stdlib Require Import Ascii.
From stdpp Require Import base sets strings list.
From S2P Require Import Prelude Strings OrdMap Regex Ids Float64 Json Canonical Model Template Placeholder Catalog Sets Graph Pointer Artifacts Db Identity Permits Deployments Resources.

Local Open Scope string_scope.
Local Open Scope list_scope.

(** ** JSON forms *)

Definition str_array (l : list string) : Value := Arr (Str <$> l).

(** A field that is skipped when it is empty. *)
Definition map_field (k : string) (m : jmap) : jmap :=
  match m with [] => [] | _ => [(k, Obj m)] end.

Definition criterion_to_value (c : Criterion) : Value :=
  Obj (opt_field "id" (Str <$> c_id c) ++ opt_field "env_type" (Str <$> c_env_type c)
    ++ opt_field "app_id" (Str <$> c_app_id c) ++ opt_field "env_id" (Str <$> c_env_id c)
    ++ opt_field "res_id" (Str <$> c_res_id c) ++ opt_field "class" (Str <$> c_class c)).

Definition driver_inputs_to_value (i : DriverInputs) : Value :=
  Obj ([("values", Obj (di_values i))] ++ map_field "secrets" (di_secrets i)
    ++ map_field "secret_refs" (di_secret_refs i)).

Definition provision_to_value (p : Provision) : Value :=
  Obj ([("is_dependent", Bool (p_is_dependent p)); ("match_dependents", Bool (p_match_dependents p))]
    ++ opt_field "params" (p_params p)).

Definition definition_to_value (def : ResourceDefinition) : Value :=
  Obj ([("id", Str (rd_id def)); ("name", Str (rd_name def)); ("type", Str (rd_ty def));
        ("driver_type", Str (rd_driver_type def))]
    ++ opt_field "driver_account" (Str <$> rd_driver_account def)
    ++ [("driver_inputs", driver_inputs_to_value (rd_driver_inputs def))]
    ++ map_field "provision" ((λ kv, (kv.1, provision_to_value kv.2)) <$> rd_provision def)
    ++ [("criteria", Arr (criterion_to_value <$> rd_criteria def))]).

Definition outputs_to_value (o : ResourceOutputs) : Value :=
  Obj ([("values", Obj (ro_values o)); ("secrets", map_to_value secret_ref_to_value (ro_secrets o))]
    ++ opt_field "guresid" (Str <$> ro_guresid o) ++ opt_field "account" (Str <$> ro_account o)).

(** A map by descriptor has their texts as keys. *)
Definition dependencies_to_value (deps : list (Descriptor * ResourceOutputs)) : Value :=
  Obj ((λ kv, (Descriptor_show kv.1, outputs_to_value kv.2)) <$> deps).

Definition secret_part_to_value (p : SecretPart) : Value :=
  match p with
  | SPLiteral s => Obj [("literal", Str s)]
  | SPSecret r => Obj [("secret", secret_ref_to_value r)]
  end.

Fixpoint resolved_to_value (r : Resolved) : Value :=
  match r with
  | RValue v => Obj [("value", v)]
  | RSecret e => Obj [("secret", Obj [("parts", Arr (secret_part_to_value <$> e))])]
  | RArray items => Obj [("array", Arr (resolved_to_value <$> items))]
  | RObject fields => Obj [("object", Arr ((λ kr, Arr [Str kr.1; resolved_to_value kr.2]) <$> fields))]
  end.

(** Reading a secret reference: from an object with no other fields, or from its fields in order. *)
Definition opt_version (v : option Value) : option (option string) :=
  match v with
  | None | Some Null => Some None
  | Some (Str s) => Some (Some s)
  | Some _ => None
  end.

Definition secret_ref_from_value (v : Value) : option SecretRef :=
  match v with
  | Obj m =>
      if forallb (λ k, bool_decide (k ∈ ["store"; "ref"; "version"])) m.*1 then
        store ← im_get "store" m ≫= as_str;
        reference ← im_get "ref" m ≫= as_str;
        version ← opt_version (im_get "version" m);
        Some (mk_SecretRef store reference version)
      else None
  | Arr [Str store; Str reference] => Some (mk_SecretRef store reference None)
  | Arr [Str store; Str reference; version] =>
      mk_SecretRef store reference <$> opt_version (Some version)
  | _ => None
  end.

(** ** The deployment *)

Record Deployment := mk_Deployment {
  dep_org : string; dep_app : string; dep_env : string; dep_env_type : string;
  dep_id : string; dep_set_id : string;
  dep_graph : ResourceGraph;
  dep_definitions : list (string * (Z * ResourceDefinition));
  dep_values : list (string * SharedValue);
  dep_permits : list string;
  dep_pins : list (string * Value);
  dep_types : list (string * ResourceType);
  dep_teardown : bool
}.

Definition output_schema (d : Deployment) (ty : string) : option ResourceType := bt_get ty (dep_types d).

(** What other crates do for the planner. *)
Class Libraries := {
  json_text : Value → string;
  sha256_hex : string → string;
  read_graph : Value → result ResourceGraph string;
  read_definition : Value → result ResourceDefinition string;
  read_type : Value → result ResourceType string;
  secret_ref_error : Value → string;
  sql_error_text : DbError → string;
}.

(** [v[k]], [Null] when there is no such field. *)
Definition json_index (v : Value) (k : string) : Value := option_default Null (json_get k v).

(** The entries of an object, if it is one. *)
Definition entries (v : Value) : jmap := option_default [] (as_object v).

Section snapshot.
Context `{Libraries}.

Definition snapshot_definition (defs : list (string * (Z * ResourceDefinition))) (e : string * Value)
    : result (list (string * (Z * ResourceDefinition))) string :=
  let? version := ok_or (match json_index e.2 "version" with Num n => as_i64 n | _ => None end)
    ("the snapshot has no version for definition `" +:+ e.1 +:+ "`") in
  let? def := map_err (λ err, "the snapshot's definition `" +:+ e.1 +:+ "` is unreadable: " +:+ err)
    (read_definition (json_index e.2 "definition")) in
  Ok (bt_insert (rd_id def) (version, def) defs).

Definition snapshot_value (values : list (string * SharedValue)) (e : string * Value)
    : result (list (string * SharedValue)) string :=
  let? value :=
    match json_get "value" e.2, json_get "secret_ref" e.2 with
    | Some (Str text), None => Ok (SVValue (Str text))
    | None, Some reference =>
        let? r := ok_or (secret_ref_from_value reference)
          ("the snapshot's value `" +:+ e.1 +:+ "` is unreadable: " +:+ secret_ref_error reference) in
        Ok (SVSecret r)
    | _, _ => Err ("the snapshot's value `" +:+ e.1 +:+ "` is unreadable")
    end in
  Ok (bt_insert e.1 value values).

Definition snapshot_type (types : list (string * ResourceType)) (e : string * Value)
    : result (list (string * ResourceType)) string :=
  let? ty := map_err (λ err, "the snapshot's type `" +:+ e.1 +:+ "` is unreadable: " +:+ err)
    (read_type e.2) in
  Ok (bt_insert (rt_id ty) ty types).

Definition from_snapshot (org app env env_type id set_id : string) (snapshot : Value)
    : result Deployment string :=
  let? graph := map_err (λ e, "the snapshot's graph is unreadable: " +:+ e)
    (read_graph (json_index snapshot "graph")) in
  let? definitions := try_fold snapshot_definition [] (entries (json_index snapshot "definitions")) in
  let? values := try_fold snapshot_value []
    (entries (json_index (json_index snapshot "values") "resolved")) in
  let permits := filter_map as_str (option_default [] (as_array (json_index snapshot "permits"))) in
  let pins := bt_of_list (entries (json_index snapshot "pins")) in
  let? types := try_fold snapshot_type [] (entries (json_index snapshot "types")) in
  Ok (mk_Deployment org app env env_type id set_id graph definitions values permits pins types false).
End snapshot.

(** ** Jobs *)

Record JobContext := mk_JobContext {
  jc_org : string; jc_app : string; jc_env : string; jc_env_type : string;
  jc_deployment_id : string; jc_permits : list string
}.

Definition context_of_deployment (d : Deployment) : JobContext :=
  mk_JobContext (dep_org d) (dep_app d) (dep_env d) (dep_env_type d) (dep_id d) (dep_permits d).

(** Where a secret reference came from. *)
Inductive SecretSource := FromValues | FromOutput (guresid : string).
#[export] Instance SecretSource_eq_dec : EqDecision SecretSource.
Proof. solve_decision. Defined.

Definition secret_source_key (s : SecretSource) : option string :=
  match s with FromValues => None | FromOutput g => Some g end.
#[export] Instance ord_SecretSource : Ord SecretSource.
Proof. apply (ord_inj secret_source_key). by intros [] []; simpl; congruence. Defined.

Definition secret_ref_key (r : SecretRef) : string * (string * option string) :=
  (sr_store r, (sr_reference r, sr_version r)).
#[export] Instance ord_SecretRef : Ord SecretRef.
Proof. apply (ord_inj secret_ref_key). by intros [] [] [= -> -> ->]. Defined.

Definition secret_source_to_value (s : SecretSource) : Value :=
  match s with
  | FromValues => Obj [("from", Str "values")]
  | FromOutput g => Obj [("from", Str "output"); ("guresid", Str g)]
  end.

Record JobInputs := mk_JobInputs {
  ji_values : Value; ji_secrets : Resolved; ji_secret_refs : Resolved; ji_resource : Resolved;
  ji_sources : list (SecretRef * SecretSource)
}.

Definition job_inputs_to_value (i : JobInputs) : Value :=
  Obj [("values", ji_values i); ("secrets", resolved_to_value (ji_secrets i));
       ("secret_refs", resolved_to_value (ji_secret_refs i));
       ("resource", resolved_to_value (ji_resource i));
       ("sources", Arr ((λ s, Arr [secret_ref_to_value s.1; secret_source_to_value s.2]) <$> ji_sources i))].

(** Reading recorded inputs back. *)
Class InputsReader := read_job_inputs : Value → result JobInputs string.

Record ProvisionJob := mk_ProvisionJob {
  pj_operation_id : string; pj_attempt : Z; pj_descriptor : Descriptor; pj_guresid : string;
  pj_context : JobContext; pj_definition_id : string; pj_definition_version : Z;
  pj_driver_type : string; pj_driver_account : option string; pj_inputs : JobInputs;
  pj_input_fingerprint : string; pj_cookie : option Sealed; pj_target : option string;
  pj_pin : option Value; pj_existing : bool; pj_output_schema : option ResourceType;
  pj_deadline : Z
}.

Record DeprovisionJob := mk_DeprovisionJob {
  xj_job : ProvisionJob; xj_snapshot : Value; xj_recovery : Value
}.

Record ProvisionResult := mk_ProvisionResult {
  pr_outputs : jmap; pr_secret_outputs : list (string * SecretRef); pr_cookie : option Sealed;
  pr_recovery : Value; pr_target : option string; pr_backend : option string;
  pr_external_ids : list string; pr_pin : option Value
}.

(** Why provisioning failed. *)
Inductive ExecFailure :=
| Permanent (error : string)
| Retryable (error : string) (retry_after : option Z)
| Uncertain (error : string) (cookie : option Sealed).

Definition uncertain (error : string) : ExecFailure := Uncertain error None.

(** How one resource ended in a deployment. *)
Inductive Outcome :=
| OProvisioned
| OFailed (error : string)
| OUnknown (error : string)
| OPending (reason : string)
| ODeleted
| OCleanupPending (error : string)
| OKept (reason : string).
#[export] Instance Outcome_eq_dec : EqDecision Outcome.
Proof. solve_decision. Defined.

(** Durations and instants are nanoseconds. *)
Record Limits := mk_Limits {
  lm_concurrency : nat; lm_attempts : nat; lm_backoff : Z; lm_max_backoff : Z; lm_deadline : Z;
  lm_log_bytes : Z
}.

Definition secs (n : Z) : Z := (n * 1000000000)%Z.
Definition default_limits : Limits :=
  mk_Limits 4 3 (secs 1) (secs 30) (secs (30 * 60)) (16 * 1024 * 1024).

(** ** Error texts *)

Section texts.
Context `{Libraries}.

Definition store_error_show (e : StoreError) : string :=
  match e with
  | AlreadyOwned path => "the installation at " +:+ path +:+ " is owned by another openporch process"
  | SchemaTooNew found supported =>
      "database schema version " +:+ show_Z found +:+ " is newer than this binary supports (up to "
      +:+ show_Z supported +:+ "); run a compatible openporch version or restore a compatible backup"
  | NotFound what => what +:+ " not found"
  | AlreadyExists what => what +:+ " already exists"
  | StaleGeneration expected actual =>
      "environment generation is " +:+ show_Z actual +:+ ", not the expected " +:+ show_Z expected
  | Busy deployment => "deployment " +:+ deployment +:+ " is already running in this environment"
  | Detached descriptor =>
      "`" +:+ descriptor +:+ "` was detached from management; adopt the existing object explicitly instead of provisioning a new one"
  | RecoveryRequired descriptors => "resources need recovery before new changes: " +:+ descriptors
  | MigrationRequired descriptor from to =>
      "`" +:+ descriptor +:+ "` is managed by driver `" +:+ from +:+ "`, but its definition now uses `" +:+ to
      +:+ "`; migrate or replace the resource explicitly"
  | PermitInvalid reason | ApprovalRequired reason | Invalid reason | Conflict reason | Forbidden reason => reason
  | IdempotencyMismatch key => "idempotency key `" +:+ key +:+ "` was already used for a different request"
  | Corrupt what => "corrupt record: " +:+ what
  | Database error => "database error: " +:+ sql_error_text error
  end.
End texts.
