(* ===== verification/PlanJob.v ===== *)
(** * Scopes and jobs ([crates/engine/src/planner.rs])

    The scope a resource's placeholders are resolved in, and how its inputs become a job. *)

From Stdlib Require Import Ascii.
From stdpp Require Import base sets strings list.
From S2P Require Import Prelude Strings OrdMap Regex Ids Float64 Json Canonical Model Template Placeholder Catalog Sets Graph Pointer Artifacts Db Identity Permits Deployments Resources PlanInputs.

Local Open Scope string_scope.
Local Open Scope list_scope.

(** ** Scopes *)

(** [s.split_once(p)]. *)
Definition split_once_str (p s : string) : option (string * string) :=
  (λ i, (str_take i s, str_drop (i + String.length p) s)) <$> str_find p s.

(** The resource that co-provisioned a node, from the path of its request. *)
Definition coprovisioned_by (path : string) : option string :=
  rest ← strip_prefix "definition `" path;
  '(_, rest) ← split_once_str "` provision." rest;
  '(_, source) ← rsplit_once " for `" rest;
  strip_suffix "`" source.

(** What finished nodes contribute. *)
Abbreviation Finished := (list (Descriptor * ResourceOutputs)).

Definition implicit_types : list string :=
  rt_id <$> filter (λ t, rt_use t = Implicit) builtin_types.

Definition scope_context (dep : Deployment) (d : Descriptor) : list (ContextKey * Value) :=
  foldl (λ m kv, bt_insert kv.1 (Str kv.2) m) []
    [(OrgId, dep_org dep); (AppId, dep_app dep); (EnvId, dep_env dep); (EnvType, dep_env_type dep);
     (ResType, d_ty d); (ResClass, d_class d); (ResId, d_id d); (DeployId, dep_id dep);
     (DeploySetId, dep_set_id dep)].

(** The paths under which the node's own dependencies are requested, when it is a workload. *)
Definition own_paths (node : Node) : list string :=
  rq_path <$> filter (λ r, starts_with "modules." (rq_path r) = true
    ∧ str_contains ".externals." (rq_path r) = false) (n_requests node).

(** The ID under which the request makes the resource shared: by the set's [shared] section, or
    by a workload dependency declared with a shared ID. *)
Definition shared_as (other : Node) (r : Request) : option string :=
  match strip_prefix "shared." (rq_path r) with
  | Some id => Some id
  | None =>
      if starts_with "modules." (rq_path r) && str_contains ".externals." (rq_path r)
      then strip_prefix "shared." (d_id (n_descriptor other)) else None
  end.

(** The key under which a workload sees the resource. *)
Definition external_key (own : string) (r : Request) : option string :=
  strip_prefix own (rq_path r) ≫= strip_prefix ".externals.".

Record Visible := mk_Visible {
  vs_shared : list (string * ResourceOutputs);
  vs_externals : list (string * ResourceOutputs);
  vs_keyed : list Descriptor
}.

Definition see_request (own : list string) (other : Node) (outputs : ResourceOutputs) (v : Visible)
    (r : Request) : Visible :=
  let shared :=
    match shared_as other r with
    | Some id => bt_insert id outputs (vs_shared v)
    | None => vs_shared v
    end in
  foldl (λ v w,
    match external_key w r with
    | Some key => mk_Visible (vs_shared v) (bt_insert key outputs (vs_externals v))
                    (bs_insert (n_descriptor other) (vs_keyed v))
    | None => v
    end) (mk_Visible shared (vs_externals v) (vs_keyed v)) own.

Definition see_node (own : list string) (done : Finished) (v : Visible) (other : Node) : Visible :=
  match bt_get (n_descriptor other) done with
  | None => v
  | Some outputs => foldl (see_request own other outputs) v (n_requests other)
  end.

(** Whether a dependency of the node was co-provisioned with another of its dependencies. *)
Definition coprovisioned (node other : Node) : bool :=
  existsb (λ r,
    match coprovisioned_by (rq_path r) with
    | Some source => existsb (λ d, String.eqb (Descriptor_show d) source) (n_depends_on node)
    | None => false
    end) (n_requests other).

Definition see_coprovisioned (dep : Deployment) (node : Node) (done : Finished) (keyed : list Descriptor)
    (externals : list (string * ResourceOutputs)) (d : Descriptor) : list (string * ResourceOutputs) :=
  if bs_mem d keyed then externals
  else match bt_get d (g_nodes (dep_graph dep)) with
       | None => externals
       | Some other =>
           if negb (coprovisioned node other) then externals
           else match bt_get d done with
                | Some outputs => bt_insert (Descriptor_show d) outputs externals
                | None => externals
                end
       end.

Definition scope_for (dep : Deployment) (node : Node) (done : Finished) : MapScope :=
  let own := own_paths node in
  let v := foldl (see_node own done) (mk_Visible [] [] []) (bt_values (g_nodes (dep_graph dep))) in
  let externals :=
    match own with
    | [] => vs_externals v
    | _ => foldl (see_coprovisioned dep node done (vs_keyed v)) (vs_externals v) (n_depends_on node)
    end in
  mk_MapScope (scope_context dep (n_descriptor node)) (Some (n_descriptor node)) implicit_types
    (foldl (λ m kv, bt_insert kv.1 kv.2 m) [] done) externals (vs_shared v) (dep_values dep).

(** The scope once the resource has its identity. *)
Definition with_guresid (g : string) (scope : MapScope) : MapScope :=
  mk_MapScope (bt_insert ResGuresid (Str g) (ms_context scope)) (ms_referrer scope)
    (ms_implicit_types scope) (ms_resources scope) (ms_externals scope) (ms_shared scope)
    (ms_values scope).

(** What is not known before the deployment runs. *)
Definition UNKNOWN : string := "(not known before the deployment runs)".

Record UnknownScope := mk_UnknownScope { us_scope : MapScope }.
#[export] Instance UnknownScope_Scope : Scope UnknownScope := λ s e,
  match lookup_expr (us_scope s) e with
  | Ok l => Ok l
  | Err _ => Ok (LValue (Str UNKNOWN))
  end.

(** ** Where secrets came from *)

(** The resource whose outputs an expression reads. *)
Definition output_of (scope : MapScope) (e : Expr) : option string :=
  let outputs :=
    match e with
    | EResource target _ =>
        match descriptor_for scope target with
        | Ok d => bt_get d (ms_resources scope)
        | Err _ => None
        end
    | EExternals key _ => bt_get key (ms_externals scope)
    | EShared id _ => bt_get id (ms_shared scope)
    | _ => None
    end in
  outputs ≫= ro_guresid.

(** What a lookup of the expression records. *)
Definition recorded_source (scope : MapScope) (e : Expr) : option (SecretRef * SecretSource) :=
  match lookup_expr scope e with
  | Ok (LSecret r) =>
      match e with
      | EValues _ _ => Some (r, FromValues)
      | _ => (λ g, (r, FromOutput g)) <$> output_of scope e
      end
  | _ => None
  end.

(** What resolving the value records: resolution looks up the placeholders it collects. *)
Definition recorded (scope : MapScope) (dialect : Dialect) (v : Value) (location : string)
    : list (SecretRef * SecretSource) :=
  match collect_placeholders dialect v location with
  | Ok cs => filter_map (λ c : Collected, recorded_source scope c.2) cs
  | Err _ => []
  end.

(** ** Inputs *)

Definition placeholder_kind_show (k : PlaceholderErrorKind) : string :=
  match k with
  | Syntax m => "invalid placeholder syntax: " +:+ m
  | UnknownRoot r => "unknown placeholder root `" +:+ r +:+ "`"
  | NotAllowed m => "placeholder not allowed here: " +:+ m
  | Unresolvable m => "cannot resolve placeholder: " +:+ m
  | SecretInNonSecret => "a secret cannot be used in a non-secret input"
  end.

Definition placeholder_error_show (e : PlaceholderError) : string :=
  placeholder_kind_show (pe_kind e) +:+ " in `" +:+ pe_placeholder e +:+ "` at " +:+ pe_location e.

(** Secret references in a value, as secret expressions; the rest stays plain. *)
Fixpoint references (v : Value) : Resolved :=
  match v with
  | Obj m =>
      match secret_ref_from_value v with
      | Some r => RSecret (secret_whole r)
      | None =>
          let items := (λ kv, (kv.1, references kv.2)) <$> m in
          if forallb (λ kr : string * Resolved, negb (is_tainted kr.2)) items then RValue v
          else RObject items
      end
  | Arr l =>
      let items := references <$> l in
      if forallb (λ r, negb (is_tainted r)) items then RValue v else RArray items
  | other => RValue other
  end.

(** Whether the text can follow a dot in a placeholder. *)
Definition is_name (s : string) : bool :=
  negb (str_is_empty s)
  && bytes_all (λ c, is_ascii_alphanumeric c || Ascii.eqb c "_" || Ascii.eqb c "-") s.

Definition output_placeholders (key : string) (outputs : ResourceOutputs) : Value :=
  let names := filter (λ n, is_name n = true) ((ro_values outputs).*1 ++ bt_keys (ro_secrets outputs)) in
  Obj (im_of_list ((λ name,
    (name, Str (if is_name key then "${externals." +:+ key +:+ "." +:+ name +:+ "}"
                else "${externals['" +:+ key +:+ "']." +:+ name +:+ "}"))) <$> names)).

Definition add_dependency_outputs (scope : MapScope) (params : Value) : Value :=
  match params with
  | Obj m =>
      let deps := (λ kv, (kv.1, output_placeholders kv.1 kv.2)) <$> ms_externals scope in
      Obj (im_insert "dependencies" (Obj (im_of_list deps)) m)
  | other => other
  end.

(** [get_mut(k)] with a function applied to what is there. *)
Fixpoint update_key (k : string) (f : Value → Value) (m : jmap) : jmap :=
  match m with
  | [] => []
  | kv :: m => if String.eqb kv.1 k then (kv.1, f kv.2) :: m else kv :: update_key k f m
  end.

Definition map_values (f : Value → Value) (v : Value) : Value :=
  match v with Obj m => Obj ((λ kv, (kv.1, f kv.2)) <$> m) | other => other end.

Definition add_body_outputs (scope : MapScope) (body : Value) : Value :=
  match body with
  | Obj m =>
      match im_get "resource" m ≫= as_str with
      | Some key =>
          match bt_get key (ms_externals scope) with
          | Some outputs => Obj (im_insert "outputs" (output_placeholders key outputs) m)
          | None => body
          end
      | None => body
      end
  | other => other
  end.

Definition add_trigger_outputs (scope : MapScope) (spec : Value) : Value :=
  match spec with
  | Obj m => Obj (update_key "triggers" (map_values (map_values (add_body_outputs scope))) m)
  | other => other
  end.

(** A file marked [noExpand], without its content. *)
Definition no_expand_file (file : Value) : Value * option Value :=
  match file with
  | Obj m =>
      if match im_get "noExpand" m with Some (Bool true) => true | _ => false end then
        match im_get "content" m with
        | Some content => (Obj (update_key "content" (λ _, Null) m), Some content)
        | None => (file, None)
        end
      else (file, None)
  | other => (other, None)
  end.

Definition no_expand_files (id : string) (files : jmap) : jmap * list (list string * Value) :=
  ((λ tf, (tf.1, (no_expand_file tf.2).1)) <$> files,
   filter_map (λ tf, (λ content, (["containers"; id; "files"; tf.1; "content"], content))
     <$> (no_expand_file tf.2).2) files).

Definition no_expand_container (ic : string * Value) : (string * Value) * list (list string * Value) :=
  match ic.2 with
  | Obj c =>
      match im_get "files" c with
      | Some (Obj files) =>
          ((ic.1, Obj (update_key "files" (λ _, Obj (no_expand_files ic.1 files).1) c)),
           (no_expand_files ic.1 files).2)
      | _ => (ic, [])
      end
  | _ => (ic, [])
  end.

(** Takes the content of files marked [noExpand] out of a workload spec, with their paths. *)
Definition set_aside_no_expand (spec : Value) : Value * list (list string * Value) :=
  match spec with
  | Obj m =>
      match im_get "containers" m with
      | Some (Obj containers) =>
          let parts := no_expand_container <$> containers in
          (Obj (update_key "containers" (λ _, Obj parts.*1) m), mjoin parts.*2)
      | _ => (spec, [])
      end
  | other => (other, [])
  end.

(** Puts a value at a path of keys, if there is something there. *)
Fixpoint value_put (v : Value) (path : list string) (x : Value) {struct path} : Value :=
  match path with
  | [] => x
  | k :: path => match v with Obj m => Obj (update_key k (λ w, value_put w path x) m) | other => other end
  end.

Fixpoint update_field (k : string) (f : Resolved → Resolved) (fields : list (string * Resolved))
    : list (string * Resolved) :=
  match fields with
  | [] => []
  | kr :: fields => if String.eqb kr.1 k then (kr.1, f kr.2) :: fields else kr :: update_field k f fields
  end.

Fixpoint put (r : Resolved) (path : list string) (x : Value) {struct path} : Resolved :=
  match path with
  | [] => RValue x
  | first :: rest =>
      match r with
      | RValue v => RValue (value_put v path x)
      | RObject fields => RObject (update_field first (λ r, put r rest x) fields)
      | RArray _ | RSecret _ => r
      end
  end.

(** ** Artifacts and images *)

Definition artifacts (node : Node) : list string :=
  if negb (String.eqb (d_ty (n_descriptor node)) "workload") then []
  else match (n_params node ≫= λ p, pointer_get p "/spec/function/package/artifact") ≫= as_str with
       | Some a => [a]
       | None => []
       end.

(** The images of a workload, by their JSON pointer in its node. *)
Definition images (node : Node) : list (string * string) :=
  if negb (String.eqb (d_ty (n_descriptor node)) "workload") then []
  else match n_params node ≫= json_get "spec" with
       | None => []
       | Some spec =>
           filter_map (λ ic,
               (λ image, ("/params/spec/containers/" +:+ escape_pointer ic.1 +:+ "/image", image))
               <$> as_str (json_index ic.2 "image")) (entries (json_index spec "containers"))
           ++ match pointer_get spec "/function/package/image" ≫= as_str with
              | Some image => [("/params/spec/function/package/image", image)]
              | None => []
              end
       end.

Section job.
Context `{Libraries}.

(** The cloud account of a definition. *)
Definition driver_account {S} `{Scope S} (def : ResourceDefinition) (scope : S)
    : result (option string) string :=
  let at_ what := "definition `" +:+ rd_id def +:+ "`: " +:+ what in
  match rd_driver_account def with
  | None => Ok None
  | Some account =>
      let? r := map_err (λ e, at_ (placeholder_error_show e))
        (resolve_value scope json_text DialectDriverAccount SinkPlain (Str account) "driver_account") in
      let? text := ok_or (as_plain r ≫= as_str) (at_ "driver_account must resolve to a string") in
      let? id := map_err (λ e, at_ ("driver_account: " +:+ id_error_show e)) (AccountId_new text) in
      Ok (Some id)
  end.

(** The definition's driver inputs: values, secrets and secret references. *)
Definition driver_inputs {S T} `{Scope S, Scope T} (def : ResourceDefinition) (plain : S) (recording : T)
    : result (Value * Resolved * Resolved) string :=
  let at_ what := "definition `" +:+ rd_id def +:+ "`: " +:+ what in
  let inputs := rd_driver_inputs def in
  let? r := map_err (λ e, at_ (placeholder_error_show e))
    (resolve_value plain json_text DialectDefinition SinkPlain (Obj (di_values inputs)) "driver_inputs.values") in
  let? values := ok_or (as_plain r) (at_ "driver_inputs.values contains a secret") in
  let? secrets := map_err (λ e, at_ (placeholder_error_show e))
    (resolve_value recording json_text DialectDefinition SinkSecret (Obj (di_secrets inputs)) "driver_inputs.secrets") in
  Ok (values, secrets, references (Obj (di_secret_refs inputs))).

(** A text with shared values resolved, when they are known before the deployment runs. *)
Definition resolve_plain (named location : string) (scope : MapScope) : option string :=
  if negb (str_contains "${" named) then Some named
  else match resolve_value scope json_text DialectSet SinkPlain (Str named) location with
       | Ok r => as_plain r ≫= as_str
       | Err _ => None
       end.

(** A digest of everything the inputs derive from. *)
Definition fingerprint (node : Node) (version : Z) (def : ResourceDefinition) (dependencies : Finished)
    : string :=
  sha256_hex (to_canonical_string
    (Obj [("descriptor", Str (Descriptor_show (n_descriptor node)));
          ("definition", definition_to_value def); ("definition_version", opt_num (Some version));
          ("params", option_default Null (n_params node));
          ("dependencies", dependencies_to_value dependencies)])).

(** Params from a set use the set's placeholders, others the definition's. *)
Definition params_dialect (node : Node) : Dialect :=
  if existsb (λ r, is_some (rq_params r)
    && (starts_with "modules." (rq_path r) || starts_with "shared." (rq_path r))) (n_requests node)
  then DialectSet else DialectDefinition.

(** The params to resolve, and the file contents to put back literally. *)
Definition job_params (node : Node) (scope : MapScope) : Value * list (list string * Value) :=
  let params := option_default Null (n_params node) in
  if negb (String.eqb (d_ty (n_descriptor node)) "workload") then (params, [])
  else
    let params := add_dependency_outputs scope params in
    match params with
    | Obj m =>
        match im_get "spec" m with
        | Some spec =>
            let (spec, literal) := set_aside_no_expand (add_trigger_outputs scope spec) in
            (Obj (update_key "spec" (λ _, spec) m),
             (λ pc, ("spec" :: pc.1, pc.2)) <$> literal)
        | None => (params, [])
        end
    | other => (other, [])
    end.

(** Resolves the node's inputs into a job. *)
Definition job (dep : Deployment) (deadline : Z) (scope : MapScope) (node : Node) (version : Z)
    (def : ResourceDefinition) (fp : string) (started : OperationStarted) : result ProvisionJob string :=
  let? (values, secrets, secret_refs) := driver_inputs def scope scope in
  let? account := driver_account def scope in
  let dialect := params_dialect node in
  let (params, literal) := job_params node scope in
  let? resource := map_err (λ e, "`" +:+ Descriptor_show (n_descriptor node) +:+ "`: " +:+ placeholder_error_show e)
    (resolve_value scope json_text dialect SinkSecret params "params") in
  let resource := foldl (λ r pc, put r pc.1 pc.2) resource literal in
  let sources := bs_of_list
    (recorded scope DialectDefinition (Obj (di_secrets (rd_driver_inputs def))) "driver_inputs.secrets"
     ++ recorded scope dialect params "params") in
  Ok (mk_ProvisionJob (ost_operation_id started) (ost_attempt started) (n_descriptor node)
    (ost_guresid started) (context_of_deployment dep) (rd_id def) version (rd_driver_type def) account
    (mk_JobInputs values secrets secret_refs resource sources) fp None None
    (bt_get (Descriptor_show (n_descriptor node)) (dep_pins dep)) false
    (output_schema dep (d_ty (n_descriptor node))) deadline).
End job.
