(* ===== verification/JobProofs.v ===== *)
(** * What reaches a job

    A job's plain values hold no secret; every secret reference in its other inputs was read by
    a placeholder, and its source is recorded; a workload sees the outputs of its own
    dependencies only. *)

From Stdlib Require Import Ascii.
From stdpp Require Import base sets strings list.
From S2P Require Import Prelude Strings OrdMap Regex Ids Float64 Json Canonical Model Template Placeholder Catalog Sets Graph Pointer Artifacts Db Identity Permits Deployments Resources PlanInputs PlanJob.

Local Open Scope string_scope.
Local Open Scope list_scope.

(** The secret references in a resolved value. *)
Fixpoint resolved_refs (r : Resolved) : list SecretRef :=
  match r with
  | RValue _ => []
  | RSecret e => secret_references e
  | RArray items => mjoin (resolved_refs <$> items)
  | RObject items => mjoin ((λ kr, resolved_refs kr.2) <$> items)
  end.

Lemma refs_array items sr : sr ∈ resolved_refs (resolved_array items) → ∃ r, r ∈ items ∧ sr ∈ resolved_refs r.
Proof.
  unfold resolved_array. destruct (forallb _ _); simpl; [by intros []%not_elem_of_nil|].
  intros (l & Hs & (r & -> & Hr)%list_elem_of_fmap_1)%list_elem_of_join. by exists r.
Qed.

Lemma refs_object items sr :
  sr ∈ resolved_refs (resolved_object items) → ∃ kr, kr ∈ items ∧ sr ∈ resolved_refs kr.2.
Proof.
  unfold resolved_object. destruct (forallb _ _); simpl; [by intros []%not_elem_of_nil|].
  intros (l & Hs & (r & -> & Hr)%list_elem_of_fmap_1)%list_elem_of_join. by exists r.
Qed.

Section refs.
Context `{Scope Sc} (scope : Sc) (json_text : Value → string) (dialect : Dialect) (sink : Sink).

Abbreviation resolve := (resolve_value scope json_text dialect sink).
Abbreviation collect := (collect_placeholders dialect).

Lemma resolve_string_refs s location r sr :
  resolve (Str s) location = Ok r → sr ∈ resolved_refs r →
  ∃ lks t, template_parse s = Ok t
    ∧ Forall2 (λ p l, lookup_one scope dialect sink location p = Ok l) (template_placeholders t) lks
    ∧ LSecret sr ∈ lks.
Proof.
  intros Hr Hsr. cbn [resolve_value] in Hr. unfold resolve_string in Hr.
  destruct (template_parse s) as [t|] eqn:Ht; cbn [map_err] in Hr; [|done]. rewrite lookups_eq in Hr.
  destruct (try_map _ _) as [lks|] eqn:El; [|done]. apply try_map_Ok in El. exists lks, t. split_and!; [done..|].
  destruct (is_some (template_whole t)).
  - destruct (last lks) as [[v|r']|] eqn:Elast; simplify_eq; simpl in Hsr; [by apply not_elem_of_nil in Hsr|].
    apply list_elem_of_singleton in Hsr as <-. apply last_Some in Elast as [l' ->]. set_solver.
  - destruct (build_expr_spec scope json_text dialect t lks []) as (e & He & Hre & _); [symmetry; by eapply Forall2_length|].
    rewrite He in Hr. cbn [ok_or] in Hr.
    assert (sr ∈ secret_references e) as Hin.
    { destruct (secret_references e) as [|x l] eqn:E; [|simplify_eq; simpl in Hsr; by rewrite E in Hsr].
      destruct (map_err _ _); simplify_eq. by apply not_elem_of_nil in Hsr. }
    rewrite Hre in Hin. simpl in Hin. apply elem_of_filter_map in Hin as ([v|x] & Hx & [= ->]). done.
Qed.

(** Every secret reference in a resolved value was found by a placeholder of the value. *)
Lemma resolve_refs v : ∀ location r cs sr,
  resolve v location = Ok r → collect v location = Ok cs → sr ∈ resolved_refs r →
  ∃ c, c ∈ cs ∧ lookup_expr scope c.2 = Ok (LSecret sr).
Proof.
  induction v as [|b|n|s|l IH|m IH] using Value_ind; intros location r cs sr Hr Hc Hsr;
    try (cbn [resolve_value] in Hr; simplify_eq; by apply not_elem_of_nil in Hsr).
  - destruct (resolve_string_refs _ _ _ _ Hr Hsr) as (lks & t & Ht & Hl & Hin).
    rewrite collect_Str, Ht in Hc. cbn [map_err] in Hc. apply try_map_Ok in Hc.
    apply (Forall2_elem_r _ _ _ _ Hl) in Hin as (p & Hp & (e & He & Hlk & _)%lookup_one_Ok).
    apply (Forall2_elem_l _ _ _ _ Hc) in Hp as (c & Hin & Hone). exists c. split; [done|].
    unfold collect_one in Hone. rewrite He in Hone. by simplify_eq/=.
  - rewrite Forall_forall in IH. rewrite collect_Arr in Hc. cbn [resolve_value] in Hr. rewrite try_mapi_map in Hr.
    destruct (try_map _ _) as [rs|] eqn:Er in Hr; [|done]. injection Hr as <-.
    destruct (try_map _ _) as [css|] eqn:Ec in Hc; [|done]. injection Hc as <-. apply try_map_Ok in Er, Ec.
    apply refs_array in Hsr as (r & Hin & Hsr). apply (Forall2_elem_r _ _ _ _ Er) in Hin as ([i x] & Hix & Hx).
    apply (Forall2_elem_l _ _ _ _ Ec) in Hix as Hcs. destruct Hcs as (cs & Hcs & Hc). apply enumerate_from_elem in Hix.
    destruct (IH x Hix _ _ _ _ Hx Hc Hsr) as (c & Hin & Hl). exists c. split; [|done].
    apply list_elem_of_In, in_concat. exists cs. by rewrite <-!list_elem_of_In.
  - rewrite Forall_forall in IH. rewrite collect_Obj in Hc. cbn [resolve_value] in Hr.
    destruct (try_map _ _) as [rs|] eqn:Er in Hr; [|done]. injection Hr as <-.
    destruct (try_map _ _) as [css|] eqn:Ec in Hc; [|done]. injection Hc as <-. apply try_map_Ok in Er, Ec.
    apply refs_object in Hsr as (kr & Hin & Hsr). apply (Forall2_elem_r _ _ _ _ Er) in Hin as ([k x] & Hix & Hx).
    apply (Forall2_elem_l _ _ _ _ Ec) in Hix as Hcs. destruct Hcs as (cs & Hcs & Hc). simpl in *.
    destruct (resolve_value _ _ _ _ x _) as [r|] eqn:E; [|done]. injection Hx as <-.
    destruct (IH (k, x) Hix _ _ _ _ E Hc Hsr) as (c & Hin & Hl). exists c. split; [|done].
    apply list_elem_of_In, in_concat. exists cs. by rewrite <-!list_elem_of_In.
Qed.

Lemma resolve_collects v location r : resolve v location = Ok r → ∃ cs, collect v location = Ok cs.
Proof.
  intros Hr. destruct (agrees_value scope json_text dialect sink v location) as [H1 _].
  destruct (H1 r Hr) as (cs & lks & Hc & _). by exists cs.
Qed.
End refs.

(** Putting literal text in a value adds no reference. *)
Lemma put_refs path : ∀ r x sr, sr ∈ resolved_refs (put r path x) → sr ∈ resolved_refs r.
Proof.
  induction path as [|k path IH]; intros r x sr; [simpl; by intros ?%not_elem_of_nil|].
  destruct r as [v|e|items|fields]; try done. cbn [put resolved_refs].
  induction fields as [|[j r] fields IHf]; [done|]. cbn [update_field]. destruct (String.eqb _ _); csimpl.
  - rewrite !elem_of_app. intros [Hs|Hs]; [left; by apply IH in Hs|by right].
  - rewrite !elem_of_app. intros [Hs|Hs]; [by left|right; by apply IHf].
Qed.

Lemma put_all_refs l r sr : sr ∈ resolved_refs (foldl (λ r pc, put r pc.1 pc.2) r l) → sr ∈ resolved_refs r.
Proof.
  revert r. induction l as [|pc l IH]; intros r; simpl; [done|]. intros Hs%IH. by apply put_refs in Hs.
Qed.

(** ** What a scope shows *)

Section scope.
Context (dep : Deployment) (node : Node) (done : Finished).

(** A finished resource that the node requested, as a workload, under the key. *)
Definition own_dependency (key : string) (o : ResourceOutputs) : Prop :=
  ∃ other r w, other ∈ bt_values (g_nodes (dep_graph dep)) ∧ bt_get (n_descriptor other) done = Some o
    ∧ r ∈ n_requests other ∧ w ∈ own_paths node ∧ rq_path r = w +:+ ".externals." +:+ key.

(** A finished resource that was co-provisioned with a dependency, and is one itself. *)
Definition own_companion (key : string) (o : ResourceOutputs) : Prop :=
  ∃ d other, d ∈ n_depends_on node ∧ own_paths node ≠ [] ∧ key = Descriptor_show d
    ∧ bt_get d (g_nodes (dep_graph dep)) = Some other ∧ coprovisioned node other = true
    ∧ bt_get d done = Some o.

(** A finished resource that is shared under the ID. *)
Definition shared_resource (id : string) (o : ResourceOutputs) : Prop :=
  ∃ other r, other ∈ bt_values (g_nodes (dep_graph dep)) ∧ bt_get (n_descriptor other) done = Some o
    ∧ r ∈ n_requests other ∧ shared_as other r = Some id.

Definition visible_ok (v : Visible) : Prop :=
  (∀ key o, bt_get key (vs_externals v) = Some o → own_dependency key o)
  ∧ (∀ id o, bt_get id (vs_shared v) = Some o → shared_resource id o).

Lemma see_request_ok other o v r :
  other ∈ bt_values (g_nodes (dep_graph dep)) → bt_get (n_descriptor other) done = Some o → r ∈ n_requests other →
  visible_ok v → visible_ok (see_request (own_paths node) other o v r).
Proof.
  intros Hin Hdone Hr [He Hs]. unfold see_request.
  assert (∀ l u, (∀ w, w ∈ l → w ∈ own_paths node) → visible_ok u → visible_ok (foldl (λ u w,
    match external_key w r with
    | Some key => mk_Visible (vs_shared u) (bt_insert key o (vs_externals u)) (bs_insert (n_descriptor other) (vs_keyed u))
    | None => u
    end) u l)) as Hfold.
  { induction l as [|w l IH]; intros u Hl Hu; simpl; [done|]. apply IH; [intros w' Hw'; apply Hl; by right|].
    destruct (external_key w r) as [key|] eqn:E; [|done]. destruct Hu as [Hue Hus]. split; [|done].
    intros key' o'. simpl. rewrite bt_get_insert_if. case_decide as Hk; [|apply Hue]. intros [= <-]. subst key'.
    exists other, r, w. split_and!; try done; [apply Hl; left|].
    unfold external_key in E. apply bind_Some in E as (rest & ->%strip_prefix_Some & ->%strip_prefix_Some). done. }
  apply Hfold; [done|]. split; [done|]. simpl. intros id o'. destruct (shared_as other r) as [id'|] eqn:E; [|apply Hs].
  rewrite bt_get_insert_if. case_decide as Hk; [|apply Hs]. intros [= <-]. subst id'. by exists other, r.
Qed.

Lemma see_node_ok v other :
  other ∈ bt_values (g_nodes (dep_graph dep)) → visible_ok v → visible_ok (see_node (own_paths node) done v other).
Proof.
  intros Hin Hv. unfold see_node. destruct (bt_get _ done) as [o|] eqn:E; [|done].
  assert (∀ l u, (∀ r, r ∈ l → r ∈ n_requests other) → visible_ok u →
    visible_ok (foldl (see_request (own_paths node) other o) u l)) as Hfold; [|by apply Hfold].
  induction l as [|r l IH]; intros u Hl Hu; simpl; [done|]. apply IH; [intros r' Hr'; apply Hl; by right|].
  apply see_request_ok; try done. apply Hl. left.
Qed.

Lemma see_coprovisioned_ok keyed l externals :
  own_paths node ≠ [] → (∀ d, d ∈ l → d ∈ n_depends_on node) →
  (∀ key o, bt_get key externals = Some o → own_dependency key o ∨ own_companion key o) →
  ∀ key o, bt_get key (foldl (see_coprovisioned dep node done keyed) externals l) = Some o →
    own_dependency key o ∨ own_companion key o.
Proof.
  intros Hown. revert externals. induction l as [|d l IH]; intros externals Hl He; simpl; [done|].
  apply IH; [intros d' Hd'; apply Hl; by right|]. unfold see_coprovisioned. destruct (bs_mem d keyed); [done|].
  destruct (bt_get d (g_nodes (dep_graph dep))) as [other|] eqn:Eo; [|done].
  destruct (coprovisioned node other) eqn:Ec; [|done]. simpl. destruct (bt_get d done) as [o'|] eqn:Ed; [|done].
  intros key o. rewrite bt_get_insert_if. case_decide as Hk; [|apply He]. intros [= <-]. subst key. right.
  exists d, other. split_and!; try done. apply Hl. left.
Qed.

Lemma finished_resources m l :
  (∀ d o, bt_get d m = Some o → (d, o) ∈ done) → (∀ x, x ∈ l → x ∈ done) →
  ∀ d o, bt_get d (foldl (λ m kv, bt_insert kv.1 kv.2 m) m l) = Some o → (d, o) ∈ done.
Proof.
  revert m. induction l as [|[e q] l IH]; intros m Hm Hl; simpl; [done|].
  apply IH; [|intros x Hx; apply Hl; by right]. intros d o. simpl. rewrite bt_get_insert_if.
  case_decide; [|apply Hm]. intros [= <-]. subst d. apply Hl. left.
Qed.

(** a resource's job sees no outputs but those it may. The scope of a node holds the outputs
    of finished resources only; under [externals] a workload finds exactly dependencies
    requested by itself, and resources that were co-provisioned with one of its
    dependencies and that it depends on; under [shared] it finds shared resources. *)
Theorem scope_shows_only :
  (∀ key o, bt_get key (ms_externals (scope_for dep node done)) = Some o → own_dependency key o ∨ own_companion key o)
  ∧ (∀ id o, bt_get id (ms_shared (scope_for dep node done)) = Some o → shared_resource id o)
  ∧ (∀ d o, bt_get d (ms_resources (scope_for dep node done)) = Some o → (d, o) ∈ done).
Proof.
  unfold scope_for. set (v := foldl (see_node _ _) _ _).
  assert (visible_ok v) as [He Hs].
  { subst v. assert (∀ l u, (∀ n, n ∈ l → n ∈ bt_values (g_nodes (dep_graph dep))) → visible_ok u →
      visible_ok (foldl (see_node (own_paths node) done) u l)) as Hfold; [|apply Hfold; [done|by split]].
    induction l as [|n l IH]; intros u Hl Hu; simpl; [done|]. apply IH; [intros x Hx; apply Hl; by right|].
    apply see_node_ok; [apply Hl; left|done]. }
  cbn [ms_externals ms_shared ms_resources]. split_and!; [|done|by apply finished_resources].
  destruct (own_paths node) as [|w ws] eqn:Eo.
  - intros key o H. left. by apply He.
  - apply see_coprovisioned_ok; [by rewrite Eo|done|]. intros key o H. left. by apply He.
Qed.
End scope.

(** ** Sources of secrets *)

(** Every output that the scope shows is one of [outputs]. *)
Definition shows (scope : MapScope) (outputs : ResourceOutputs → Prop) : Prop :=
  (∀ d o, bt_get d (ms_resources scope) = Some o → outputs o)
  ∧ (∀ key o, bt_get key (ms_externals scope) = Some o → outputs o)
  ∧ (∀ id o, bt_get id (ms_shared scope) = Some o → outputs o).

Lemma scope_for_shows dep node done : shows (scope_for dep node done) (λ o, ∃ d, (d, o) ∈ done).
Proof.
  destruct (scope_shows_only dep node done) as (He & Hs & Hr). split_and!.
  - intros d o H. exists d. by apply Hr.
  - intros key o [(other & r & w & _ & H & _)|(d & other & _ & _ & _ & _ & _ & H)]%He; eexists; by apply bt_get_elem.
  - intros id o (other & r & _ & H & _)%Hs. eexists. by apply bt_get_elem.
Qed.

Lemma outputs_get_secret o path sr :
  outputs_get o path = Ok (LSecret sr) → ∃ name, bt_get name (ro_secrets o) = Some sr.
Proof.
  unfold outputs_get. destruct path as [|first rest]; [done|]. intros H.
  destruct (segment_key first) as [name|]; [|done]. simpl in H. destruct (bt_get name (ro_secrets o)) as [r|] eqn:E.
  - exists name. by destruct rest; simplify_eq.
  - destruct (im_get name _) as [v|]; [|done]. simpl in H. by destruct (walk v rest).
Qed.

(** A secret comes from a shared value, or from an output of a resource that the scope shows. *)
Lemma lookup_secret scope outputs e sr :
  shows scope outputs → map_scope_lookup scope e = Ok (LSecret sr) →
  (∃ key path, e = EValues key path ∧ bt_get key (ms_values scope) = Some (SVSecret sr))
  ∨ (∃ o, outputs o ∧ output_of scope e = ro_guresid o ∧ (∃ name, bt_get name (ro_secrets o) = Some sr)
      ∧ ∀ key path, e ≠ EValues key path).
Proof.
  intros (Hr & He & Hs) H. destruct e as [k|target field|key path|id path|key path|path]; simpl in H.
  - by destruct (bt_get k _).
  - right. unfold output_of. destruct (descriptor_for scope target) as [d|]; [|done]. simpl in H.
    destruct (bt_get d (ms_resources scope)) as [o|] eqn:E; [|done]. simpl in H.
    destruct field as [path| |]; [|by destruct (ro_guresid o)|by destruct (ro_account o)].
    exists o. split_and!; [by apply (Hr d)|done|by eapply outputs_get_secret|done].
  - right. unfold output_of. destruct (bt_get key (ms_externals scope)) as [o|] eqn:E; [|done].
    cbn [ok_or] in H. exists o. split_and!; [by apply (He key)|done|by eapply outputs_get_secret|done].
  - right. unfold output_of. destruct (bt_get id (ms_shared scope)) as [o|] eqn:E; [|done].
    cbn [ok_or] in H. exists o. split_and!; [by apply (Hs id)|done|by eapply outputs_get_secret|done].
  - left. exists key, path. split; [done|].
    destruct (bt_get key _) as [[v|r]|]; [by destruct (walk v path)| |done].
    by destruct path; simplify_eq.
  - done.
Qed.

Section sources.
Context `{Libraries}.

Lemma recorded_complete scope outputs dialect v location r sr :
  shows scope outputs → (∀ o, outputs o → is_Some (ro_guresid o)) →
  resolve_value scope json_text dialect SinkSecret v location = Ok r → sr ∈ resolved_refs r →
  ∃ source, (sr, source) ∈ recorded scope dialect v location.
Proof.
  intros Hsh Hg Hr Hsr. destruct (resolve_collects _ _ _ _ _ _ _ Hr) as [cs Hc].
  destruct (resolve_refs _ _ _ _ _ _ _ _ _ Hr Hc Hsr) as (c & Hin & Hl). unfold recorded. rewrite Hc.
  assert (∃ source, recorded_source scope c.2 = Some (sr, source)) as [source Hs].
  { unfold recorded_source. change (lookup_expr scope c.2) with (map_scope_lookup scope c.2) in Hl |- *. rewrite Hl.
    destruct (lookup_secret _ _ _ _ Hsh Hl) as [(key & path & -> & _)|(o & Ho & Hout & _ & Hne)]; [by eexists|].
    destruct (Hg o Ho) as [g Eg]. rewrite Hout, Eg. exists (FromOutput g). destruct c.2; try done. by destruct (Hne key path). }
  exists source. apply elem_of_filter_map. by exists c.
Qed.

Lemma recorded_sound scope outputs dialect v location sr source :
  shows scope outputs → (sr, source) ∈ recorded scope dialect v location →
  match source with
  | FromValues => ∃ key, bt_get key (ms_values scope) = Some (SVSecret sr)
  | FromOutput g => ∃ o, outputs o ∧ ro_guresid o = Some g ∧ ∃ name, bt_get name (ro_secrets o) = Some sr
  end.
Proof.
  intros Hsh. unfold recorded. destruct (collect_placeholders _ _ _) as [cs|]; [|by intros []%not_elem_of_nil].
  intros (c & _ & Hs)%elem_of_filter_map. unfold recorded_source in Hs.
  change (lookup_expr scope c.2) with (map_scope_lookup scope c.2) in Hs.
  destruct (map_scope_lookup scope c.2) as [[w|r]|] eqn:E; try done.
  destruct (lookup_secret _ _ _ _ Hsh E) as [(key & path & Ec & Hk)|(o & Ho & Hout & Hn & Hne)].
  - rewrite Ec in Hs. simplify_eq. by exists key.
  - rewrite Hout in Hs. destruct c.2; try done; try (by destruct (Hne key path));
      destruct (ro_guresid o) as [g|] eqn:Eg; simplify_eq/=; by exists o.
Qed.

(** C25: secrets stay references, and each has its source. When a resource's inputs become a
    job: no placeholder of its plain values is a secret; every secret reference in its secret
    inputs and params is recorded with a source, so the executor can authorize it; and a
    recorded source is true: the secret is a shared value of the deployment, or a secret output
    of the finished resource with that GUResID. *)
Theorem job_sources (dep : Deployment) (done : Finished) (deadline version : Z) (g fp : string) (node : Node)
    (def : ResourceDefinition) (started : OperationStarted) (j : ProvisionJob) :
  (∀ d o, (d, o) ∈ done → is_Some (ro_guresid o)) →
  let scope := with_guresid g (scope_for dep node done) in
  job dep deadline scope node version def fp started = Ok j →
  (∃ cs, collect_placeholders DialectDefinition (Obj (di_values (rd_driver_inputs def))) "driver_inputs.values" = Ok cs
     ∧ ∀ c, c ∈ cs → ∃ v, lookup_expr scope c.2 = Ok (LValue v))
  ∧ (∀ sr, sr ∈ resolved_refs (ji_secrets (pj_inputs j)) ++ resolved_refs (ji_resource (pj_inputs j)) →
       ∃ source, (sr, source) ∈ ji_sources (pj_inputs j))
  ∧ (∀ sr source, (sr, source) ∈ ji_sources (pj_inputs j) →
       match source with
       | FromValues => ∃ key, bt_get key (dep_values dep) = Some (SVSecret sr)
       | FromOutput g => ∃ d o, (d, o) ∈ done ∧ ro_guresid o = Some g ∧ ∃ name, bt_get name (ro_secrets o) = Some sr
       end).
Proof.
  intros Hdone scope Hj. assert (shows scope (λ o, ∃ d, (d, o) ∈ done)) as Hsh by apply scope_for_shows.
  assert (∀ o, (∃ d, (d, o) ∈ done) → is_Some (ro_guresid o)) as Hg by (intros o [d Hd]; by eapply Hdone).
  unfold job in Hj. destruct (driver_inputs def scope scope) as [[[values secrets] refs]|] eqn:Ei; [|done].
  destruct (driver_account def scope) as [account|]; [|done].
  destruct (job_params node scope) as [params literal]. destruct (resolve_value scope _ _ _ params _) as [resource|] eqn:Er; [|done].
  simpl in Hj. injection Hj as <-. cbn [pj_inputs ji_secrets ji_resource ji_sources].
  unfold driver_inputs in Ei. destruct (resolve_value scope _ _ SinkPlain _ _) as [plain|] eqn:Ep; [|done].
  cbn [map_err ok_or] in Ei. destruct (as_plain plain) as [w|]; [|done]. cbn [map_err ok_or] in Ei.
  destruct (resolve_value scope _ _ SinkSecret _ _) as [sec|] eqn:Es; [|done]. cbn [map_err] in Ei.
  injection Ei as <- <- <-. split_and!.
  - destruct (agrees_value scope json_text DialectDefinition SinkPlain (Obj (di_values (rd_driver_inputs def))) "driver_inputs.values") as [H1 _].
    destruct (H1 _ Ep) as (cs & lks & Hc & Hf & _). exists cs. split; [done|]. intros c Hin.
    apply (Forall2_elem_l _ _ _ _ Hf) in Hin as ([u|sr] & _ & Hl & Hp); [by exists u|by specialize (Hp eq_refl)].
  - intros sr. rewrite elem_of_app. setoid_rewrite elem_of_bs_of_list. setoid_rewrite elem_of_app. intros [Hs|Hs].
    + destruct (recorded_complete _ _ _ _ _ _ _ Hsh Hg Es Hs) as [source ?]. exists source. by left.
    + apply put_all_refs in Hs. destruct (recorded_complete _ _ _ _ _ _ _ Hsh Hg Er Hs) as [source ?]. exists source. by right.
  - intros sr source. rewrite elem_of_bs_of_list, elem_of_app.
    intros [Hs|Hs]; apply (recorded_sound _ _ _ _ _ _ _ Hsh) in Hs; destruct source; naive_solver.
Qed.
End sources.
