(* ===== verification/CatalogStore.v ===== *)
(** * The catalog, accounts and values of the store

    The part of the store that administrators configure ([sqlite_catalog.rs],
    [sqlite_accounts.rs]): custom resource types and classes, external drivers, definitions with
    their criteria, cloud accounts, secret stores and grants; who may use a secret
    ([secret_use.rs]); and the shared values of applications and environments
    ([sqlite_values.rs]). Every change rechecks, inside its transaction, the authority of the actor
    and what it refers to. Columns hold what was validated when it was written. *)

From Stdlib Require Import Ascii.
From stdpp Require Import base sets strings list.
From S2P Require Import Prelude Strings OrdMap Ids Json Model Template Placeholder Catalog Sets Db Identity Apps Resources PlanInputs PlanJob.

Local Open Scope string_scope.
Local Open Scope Z_scope.
Local Open Scope list_scope.

(** ** Secret references *)

Definition BUILTIN_STORE : string := "openporch".

(** An object whose configuration holds a secret reference. *)
Inductive SecretOwner :=
| OwnerValues
| OwnerDefinition (id : string)
| OwnerAccount (id : string)
| OwnerDriver (id : string)
| OwnerResource (guresid : string).
#[export] Instance SecretOwner_eq_dec : EqDecision SecretOwner.
Proof. solve_decision. Defined.

Definition own_prefix (o : SecretOwner) : option string :=
  match o with
  | OwnerValues => None
  | OwnerDefinition id => Some ("defs/" +:+ id +:+ "/")
  | OwnerAccount id => Some ("accounts/" +:+ id +:+ "/")
  | OwnerDriver id => Some ("drivers/" +:+ id +:+ "/")
  | OwnerResource g => Some ("resources/" +:+ g +:+ "/")
  end.

Definition owner_describe (o : SecretOwner) : string :=
  match o with
  | OwnerValues => "shared values"
  | OwnerDefinition id => "definition " +:+ quoted id
  | OwnerAccount id => "cloud account " +:+ quoted id
  | OwnerDriver id => "driver " +:+ quoted id
  | OwnerResource g => "resource " +:+ quoted g
  end.

Definition owns (o : SecretOwner) (r : SecretRef) : bool :=
  String.eqb (sr_store r) BUILTIN_STORE
  && match own_prefix o with Some p => starts_with p (sr_reference r) | None => false end.

(** The stores named by the references in a value, at any depth. *)
Fixpoint value_stores (v : Value) : list string :=
  match v with
  | Obj m =>
      match im_get "store" m, im_get "ref" m with
      | Some (Str store), Some (Str _) => [store]
      | _, _ => mjoin ((λ kv, value_stores kv.2) <$> m)
      end
  | _ => []
  end.
Definition referenced_stores (refs : jmap) : list string := mjoin ((λ kv, value_stores kv.2) <$> refs).

(** The references in a value, at any depth. *)
Fixpoint value_refs (v : Value) : list SecretRef :=
  match v with
  | Obj m =>
      match im_get "store" m, im_get "ref" m with
      | Some (Str store), Some (Str reference) => [mk_SecretRef store reference None]
      | _, _ => mjoin ((λ kv, value_refs kv.2) <$> m)
      end
  | _ => []
  end.
Definition collect (refs : jmap) : list SecretRef := mjoin ((λ kv, value_refs kv.2) <$> refs).

Definition is_secret_store (id : string) (r : SecretStoreRow) : bool := String.eqb (ss_id r) id.

Definition check_ref_store (store : string) : tx unit :=
  let* row := query (λ d, select_one (is_secret_store store) (db_secret_stores d)) in
  check (is_some row) (Invalid ("secret store " +:+ quoted store +:+ " is not registered")).

Definition check_ref_stores (refs : jmap) : tx unit :=
  for_each check_ref_store (bs_of_list (referenced_stores refs)).

(** A grant of the reference for this application and environment; [None] is no environment. *)
Definition grants_use (app : string) (env : option string) (r : SecretRef) (g : SecretGrantRow) : bool :=
  String.eqb (sg_store g) (sr_store r) && String.eqb (sg_ref g) (sr_reference r)
  && (sg_org_wide g || (sql_eq (sg_app g) (Some app) && (is_none (sg_env g) || sql_eq (sg_env g) env))).

Definition value_secret_prefix (app : string) (env : option string) : string :=
  match env with
  | None => "apps/" +:+ app +:+ "/values/"
  | Some env => "apps/" +:+ app +:+ "/envs/" +:+ env +:+ "/values/"
  end.

(** A reference that was written for the values of this scope or of its application. *)
Definition written_for (app : string) (env : option string) (r : SecretRef) : bool :=
  String.eqb (sr_store r) BUILTIN_STORE
  && (starts_with (value_secret_prefix app None) (sr_reference r)
      || (is_some env && starts_with (value_secret_prefix app env) (sr_reference r))).

Definition check_secret_use (app : string) (env : option string) (r : SecretRef) : tx unit :=
  check_ref_stores [("ref", secret_ref_to_value r)];;
  if written_for app env r then ret tt
  else
    let* granted := query (λ d, select_one (grants_use app env r) (db_secret_grants d)) in
    check (is_some granted)
      (Forbidden ("no grant lets " +:+ quoted (match env with Some e => app +:+ "/" +:+ e | None => app end)
        +:+ " use secret " +:+ quoted (sr_reference r) +:+ " in store " +:+ quoted (sr_store r))).

(** One use of a reference by its owner for a deployment of [app] to [env]. *)
Definition check_use (app env : string) (owner : SecretOwner) (r : SecretRef) : tx unit :=
  if decide (owner = OwnerValues) then check_secret_use app (Some env) r
  else
    match owner with
    | OwnerResource g =>
        let* active := query (λ d, select_one (λ x, String.eqb (rs_app x) app && String.eqb (rs_env x) env
          && String.eqb (rs_guresid x) g) (db_active_resources d)) in
        check (is_some active)
          (Forbidden ("resource " +:+ quoted g +:+ " is not in " +:+ quoted (app +:+ "/" +:+ env)
            +:+ ", so its secret outputs cannot be used there"))
    | _ => ret tt
    end;;
    check_ref_stores [("ref", secret_ref_to_value r)];;
    if owns owner r then ret tt
    else
      let* granted := query (λ d, select_one (grants_use app (Some env) r) (db_secret_grants d)) in
      check (is_some granted)
        (Forbidden ("no grant lets " +:+ owner_describe owner +:+ " use secret " +:+ quoted (sr_reference r)
          +:+ " in store " +:+ quoted (sr_store r) +:+ " for " +:+ quoted (app +:+ "/" +:+ env))).

(** The references a platform object is assigned: its own, or granted to some scope. *)
Definition check_assigned_ref (owner : SecretOwner) (r : SecretRef) : tx unit :=
  if owns owner r then ret tt
  else
    let* granted := query (λ d, select_one (λ g, String.eqb (sg_store g) (sr_store r) && String.eqb (sg_ref g) (sr_reference r))
      (db_secret_grants d)) in
    check (is_some granted)
      (Forbidden (owner_describe owner +:+ " cannot use secret " +:+ quoted (sr_reference r) +:+ " in store "
        +:+ quoted (sr_store r) +:+ ": no grant covers it")).
Definition check_assigned (owner : SecretOwner) (refs : jmap) : tx unit := for_each (check_assigned_ref owner) (collect refs).

(** ** The credential graph *)

(** An account reads its secrets from stores, and a store reads through an account. *)
Inductive CredNode := NAccount (id : string) | NStore (id : string).
#[export] Instance CredNode_eq_dec : EqDecision CredNode.
Proof. solve_decision. Defined.
Definition cred_node_key (n : CredNode) : string * string :=
  match n with NAccount a => ("0", a) | NStore s => ("1", s) end.
#[export] Instance ord_CredNode : Ord CredNode.
Proof. apply (ord_inj cred_node_key). by intros [] [] [=]; subst. Defined.

Definition cred_node_show (n : CredNode) : string :=
  match n with NAccount a => "account " +:+ quoted a | NStore s => "store " +:+ quoted s end.

Abbreviation CredGraph := (list (CredNode * list CredNode)).

(** The external stores an account reads its secrets from. *)
Definition account_edges (refs : list (string * SecretRef)) : list CredNode :=
  bs_of_list (NStore <$> filter (λ s, s ≠ BUILTIN_STORE) (sr_store <$> bt_values refs)).

(** The account a store reads through. *)
Definition store_edges (config : jmap) : list CredNode :=
  match im_get "cloud_account" config with Some (Str a) => [NAccount a] | _ => [] end.

Definition graph_of (d : Db) : CredGraph :=
  foldl (λ g s, bt_insert (NStore (ss_id s)) (store_edges (ss_config s)) g)
    (foldl (λ g a, bt_insert (NAccount (cc_id a)) (account_edges (cc_secret_refs a)) g) [] (db_cloud_accounts d))
    (db_secret_stores d).

(** The successors of a node on the stack: a way back to the start is an error with the path. *)
Fixpoint visit (start : CredNode) (path nexts seen : list CredNode) (stack : list (CredNode * list CredNode))
    : result (list CredNode * list (CredNode * list CredNode)) (list CredNode) :=
  match nexts with
  | [] => Ok (seen, stack)
  | next :: nexts =>
      if decide (next = start) then Err (path ++ [next])
      else if bs_mem next seen then visit start path nexts seen stack
      else visit start path nexts (bs_insert next seen) ((next, path ++ [next]) :: stack)
  end.

(** Depth-first search; the first element of [stack] is its top. *)
Fixpoint search (fuel : nat) (g : CredGraph) (start : CredNode) (seen : list CredNode)
    (stack : list (CredNode * list CredNode)) : option (result unit (list CredNode)) :=
  match stack, fuel with
  | [], _ => Some (Ok tt)
  | _, O => None
  | (node, path) :: stack, S fuel =>
      match visit start path (option_default [] (bt_get node g)) seen stack with
      | Err chain => Some (Err chain)
      | Ok (seen, stack) => search fuel g start seen stack
      end
  end.

(** Every node but the start is pushed once, for some edge. *)
Definition search_limit (g : CredGraph) : nat := S (length (mjoin (bt_values g))).

Definition find_cycle (g : CredGraph) (start : CredNode) : option (result unit (list CredNode)) :=
  search (search_limit g) g start [] [(start, [start])].

Definition check_credential_graph (node : CredNode) (edges : list CredNode) : tx unit :=
  let* g := query (λ d, bt_insert node edges (graph_of d)) in
  match find_cycle g node with
  | Some (Err chain) => fail (Invalid ("credential cycle: " +:+ join " -> " (cred_node_show <$> chain)))
  | _ => ret tt
  end.

(** ** Cloud accounts, secret stores and grants *)

Definition type_name (t : CloudAccountType) : string :=
  match t with Aws => "aws" | AwsRole => "aws-role" | AwsIdentity => "aws-identity" end.

Definition parse_type (s : string) : result CloudAccountType StoreError :=
  if String.eqb s "aws" then Ok Aws
  else if String.eqb s "aws-role" then Ok AwsRole
  else if String.eqb s "aws-identity" then Ok AwsIdentity
  else Err (Corrupt ("account type: unknown variant " +:+ quoted s +:+ ", expected one of `aws`, `aws-role`, `aws-identity`")).

Record AccountRecord := mk_AccountRecord { acr_account : CloudAccount; acr_created_at : Z }.
Record SecretStoreRecord := mk_SecretStoreRecord {
  ssr_id : string; ssr_ty : string; ssr_config : jmap; ssr_primary : bool; ssr_created_at : Z
}.
Record NewGrant := mk_NewGrant {
  ng_store : string; ng_reference : string; ng_app : option string; ng_env : option string; ng_org_wide : bool
}.

Definition is_account (id : string) (r : AccountRow) : bool := String.eqb (cc_id r) id.

Definition account_from_row (r : AccountRow) : result AccountRecord StoreError :=
  let? id := map_err (λ e, Corrupt ("account: " +:+ id_error e)) (AccountId_new (cc_id r)) in
  let? ty := parse_type (cc_type r) in
  Ok (mk_AccountRecord (mk_CloudAccount id (cc_name r) ty (cc_config r) (cc_secret_refs r)) (cc_created_at r)).

Definition account_row (id : string) : tx (option AccountRecord) :=
  let* row := query (λ d, select_one (is_account id) (db_cloud_accounts d)) in
  match row with
  | Some r => let* a := lift (account_from_row r) in ret (Some a)
  | None => ret None
  end.

Definition refs_to_value (refs : list (string * SecretRef)) : jmap := (λ kr, (kr.1, secret_ref_to_value kr.2)) <$> refs.

(** A create or an update of an account. *)
Definition check_account_in (a : CloudAccount) (create : bool) : tx unit :=
  let id := ca_id a in
  let* existing := account_row id in
  match existing, create with
  | Some _, true => fail (AlreadyExists ("cloud account " +:+ quoted id))
  | None, false => fail (NotFound ("cloud account " +:+ quoted id))
  | Some e, false =>
      check (String.eqb (type_name (ca_ty (acr_account e))) (type_name (ca_ty a)))
        (Invalid ("the type of cloud account " +:+ quoted id +:+ " cannot change from " +:+ quoted (type_name (ca_ty (acr_account e)))))
  | None, true => ret tt
  end;;
  let refs := refs_to_value (ca_secret_refs a) in
  check_ref_stores refs;;
  check_credential_graph (NAccount id) (account_edges (ca_secret_refs a));;
  check_assigned (OwnerAccount id) refs.

Definition store_from_row (r : SecretStoreRow) : SecretStoreRecord :=
  mk_SecretStoreRecord (ss_id r) (ss_type r) (ss_config r) (ss_is_primary r) (ss_created_at r).
Definition store_row (id : string) : tx (option SecretStoreRecord) :=
  query (λ d, store_from_row <$> select_one (is_secret_store id) (db_secret_stores d)).

Definition check_store_config (id : string) (config : jmap) : tx unit :=
  match im_get "cloud_account" config with
  | Some (Str account) =>
      let* found := account_row account in
      match found with
      | None => fail (Invalid ("cloud account " +:+ quoted account +:+ " does not exist"))
      | Some a =>
          match ca_ty (acr_account a) with
          | AwsIdentity =>
              fail (Invalid ("cloud account " +:+ quoted account +:+ " of type `aws-identity` cannot read secret stores"))
          | _ => ret tt
          end
      end
  | _ => ret tt
  end;;
  check_credential_graph (NStore id) (store_edges config).

(** The first five of the rows whose references, where a row keeps them, name the store. *)
Definition pointed_stores (v : option Value) : list string :=
  match v with
  | Some (Obj m) =>
      match im_get "ref" m with
      | Some (Str _) => match im_get "store" m with Some (Str s) => [s] | _ => [] end
      | _ => referenced_stores m
      end
  | _ => []
  end.
Definition referencing_store (rows : list (string * option Value)) (store : string) : list string :=
  take 5 (fst <$> filter (λ r, store ∈ pointed_stores r.2) (sort_by_key fst rows)).

Definition definition_refs_at (d : Db) : list (string * option Value) :=
  (λ r, (df_id r, Some (Obj (di_secret_refs (df_driver_inputs r))))) <$> db_definitions d.
Definition account_refs_at (d : Db) : list (string * option Value) :=
  (λ r, (cc_id r, Some (Obj (refs_to_value (cc_secret_refs r))))) <$> db_cloud_accounts d.
Definition driver_refs_at (d : Db) : list (string * option Value) :=
  (λ r, (dv_id r, secret_ref_to_value <$> dr_token (dv_body r))) <$> db_drivers d.

(** [json_extract(v, '$.store') = store]. *)
Definition names_store (store : string) (v : Value) : bool :=
  match json_get "store" v with Some (Str s) => String.eqb s store | _ => false end.
Definition value_names_store (store : string) (r : ValueRow) : bool :=
  match av_secret_ref r with Some v => names_store store v | None => false end.
Definition version_names_store (store : string) (r : ValueVersionRow) : bool :=
  existsb (λ kv, match json_get "secret_ref" kv.2 with Some v => names_store store v | None => false end)
    (option_default [] (as_object (vv_content r))).

Definition scope_text (app env : string) : string := if str_is_empty env then app else app +:+ "/" +:+ env.

(** Current values and the value set versions deployments may replay. *)
Definition values_referencing (store : string) (d : Db) : list string :=
  take 5 (bs_of_list (
    ((λ r, scope_text (av_app r) (av_env r)) <$> select (value_names_store store) (db_app_values d))
    ++ ((λ r, scope_text (vv_app r) (vv_env r)) <$> select (version_names_store store) (db_value_set_versions d)))).

Definition store_users (store : string) (d : Db) : list (string * list string) :=
  [("definitions", referencing_store (definition_refs_at d) store);
   ("cloud accounts", referencing_store (account_refs_at d) store);
   ("drivers", referencing_store (driver_refs_at d) store);
   ("shared values", values_referencing store d);
   ("grants", take 5 (sort_by_key id (sg_id <$> select (λ g, String.eqb (sg_store g) store) (db_secret_grants d))))].

(** Up to five definitions with this in a column. *)
Definition definitions_using (p : DefinitionRow → bool) (d : Db) : list string :=
  take 5 (sort_by_key id (df_id <$> select p (db_definitions d))).

(** Nothing uses it. *)
Definition unused (users : list string) (message : string → string) : tx unit :=
  check (match users with [] => true | _ => false end) (Conflict (message (join ", " users))).

Section store.
Context `{System} `{Libraries} (store_org : string).

Abbreviation check_org := (check_org store_org).

(** The start of an installation, whose organization is [existing] when it has started before: the
    first start makes the environment type and the secret store that every installation has. *)
Definition init_installation (existing : option string) : tx unit :=
  let* now := now_ms in
  match existing with
  | Some org =>
      check (String.eqb org store_org)
        (Conflict ("this installation serves organization " +:+ quoted org +:+ ", not " +:+ quoted store_org))
  | None =>
      insert_row db_env_types upd_env_types (λ _, true)
        (λ d, negb (existsb (λ r, String.eqb (et_id r) "development") (db_env_types d))) (λ _, true)
        (mk_EnvTypeRow "development" "Default environment type" false now None);;
      insert_row db_secret_stores upd_secret_stores (λ _, true)
        (λ d, negb (existsb (is_secret_store BUILTIN_STORE) (db_secret_stores d))) (λ _, true)
        (mk_SecretStoreRow BUILTIN_STORE "openporch" [] true now None)
  end.

Definition authorize_secret_use (org app env : string) (owner : SecretOwner) (r : SecretRef) : tx unit :=
  check_org org;; check_use app env owner r.

Definition accounts (org : string) : tx (list AccountRecord) :=
  check_org org;;
  let* rows := query (λ d, sort_by_key cc_id (db_cloud_accounts d)) in
  lift (try_map account_from_row rows).
Definition account (org id : string) : tx (option AccountRecord) := check_org org;; account_row id.

Definition check_account (org : string) (a : CloudAccount) (create : bool) (actor : option string) : tx unit :=
  check_org org;;
  check_admin_authority actor;;
  check_account_in a create.

Definition create_account (org : string) (a : CloudAccount) (audit : AuditIntent) : tx unit :=
  check_org org;;
  check_admin_authority (ai_actor audit);;
  check_account_in a true;;
  let* now := now_ms in
  or_exists
    (insert_row db_cloud_accounts upd_cloud_accounts (λ _, true)
      (λ d, negb (existsb (is_account (ca_id a)) (db_cloud_accounts d))) (λ _, true)
      (mk_AccountRow (ca_id a) (ca_name a) (type_name (ca_ty a)) (ca_config a) (ca_secret_refs a) now (ai_actor audit)))
    (AlreadyExists ("cloud account " +:+ quoted (ca_id a)));;
  audit_in audit.

Definition update_account (org : string) (a : CloudAccount) (audit : AuditIntent) : tx unit :=
  check_org org;;
  check_admin_authority (ai_actor audit);;
  check_account_in a false;;
  execute (upd_cloud_accounts (update (is_account (ca_id a)) (λ r,
    mk_AccountRow (cc_id r) (ca_name a) (cc_type r) (ca_config a) (ca_secret_refs a) (cc_created_at r) (cc_created_by r))));;
  audit_in audit.

Definition delete_account (org id : string) (audit : AuditIntent) : tx unit :=
  check_org org;;
  check_admin_authority (ai_actor audit);;
  let* existing := account_row id in
  check (is_some existing) (NotFound ("cloud account " +:+ quoted id));;
  let* defs := query (definitions_using (λ r, sql_eq (df_driver_account r) (Some id))) in
  unused defs (λ l, "cloud account " +:+ quoted id +:+ " is used by definitions " +:+ l);;
  let* stores := query (λ d, take 5 (sort_by_key (λ s, s) (ss_id <$> select (λ s,
    match im_get "cloud_account" (ss_config s) with Some (Str a) => String.eqb a id | _ => false end) (db_secret_stores d)))) in
  unused stores (λ l, "cloud account " +:+ quoted id +:+ " is used by secret stores " +:+ l);;
  let* resources := query (λ d, take 5 ((λ r, rs_app r +:+ "/" +:+ rs_env r +:+ "/" +:+ rs_descriptor r)
    <$> sort_by_key (λ r, (rs_app r, (rs_env r, rs_descriptor r)))
          (select (λ r, sql_eq (rs_driver_account r) (Some id)) (db_active_resources d)))) in
  unused resources (λ l, "cloud account " +:+ quoted id +:+ " holds active resources " +:+ l);;
  execute (upd_cloud_accounts (delete_rows (is_account id)));;
  audit_in audit.

Definition secret_stores (org : string) : tx (list SecretStoreRecord) :=
  check_org org;; query (λ d, store_from_row <$> sort_by_key ss_id (db_secret_stores d)).
Definition secret_store (org id : string) : tx (option SecretStoreRecord) := check_org org;; store_row id.

Definition create_secret_store (org : string) (s : SecretStoreRecord) (audit : AuditIntent) : tx unit :=
  check_org org;;
  check_admin_authority (ai_actor audit);;
  let* existing := store_row (ssr_id s) in
  check (is_none existing) (AlreadyExists ("secret store " +:+ quoted (ssr_id s)));;
  check_store_config (ssr_id s) (ssr_config s);;
  let* now := now_ms in
  insert_row db_secret_stores upd_secret_stores (λ _, true)
    (λ d, negb (existsb (is_secret_store (ssr_id s)) (db_secret_stores d))) (λ _, true)
    (mk_SecretStoreRow (ssr_id s) (ssr_ty s) (ssr_config s) false now (ai_actor audit));;
  audit_in audit.

Definition update_secret_store (org id : string) (config : jmap) (audit : AuditIntent) : tx unit :=
  check_org org;;
  check_admin_authority (ai_actor audit);;
  let* existing := store_row id in
  match existing with
  | None => fail (NotFound ("secret store " +:+ quoted id))
  | Some s =>
      check (negb (String.eqb (ssr_ty s) BUILTIN_STORE)) (Conflict "the built-in store has no configuration to change")
  end;;
  check_store_config id config;;
  execute (upd_secret_stores (update (is_secret_store id) (λ r,
    mk_SecretStoreRow (ss_id r) (ss_type r) config (ss_is_primary r) (ss_created_at r) (ss_created_by r))));;
  audit_in audit.

Definition delete_secret_store (org id : string) (audit : AuditIntent) : tx unit :=
  check_org org;;
  check_admin_authority (ai_actor audit);;
  let* existing := store_row id in
  let* s := require existing (NotFound ("secret store " +:+ quoted id)) in
  check (negb (String.eqb (ssr_id s) BUILTIN_STORE || ssr_primary s))
    (Conflict ("secret store " +:+ quoted id +:+ " is "
      +:+ (if String.eqb (ssr_id s) BUILTIN_STORE then "the built-in store" else "the primary store") +:+ " and cannot be deleted"));;
  let* users := query (store_users id) in
  let named := filter_map (λ u : string * list string,
    match u.2 with [] => None | ids => Some (u.1 +:+ " " +:+ join ", " ids) end) users in
  check (match named with [] => true | _ => false end)
    (Conflict ("secret store " +:+ quoted id +:+ " is referenced by " +:+ join "; " named));;
  execute (upd_secret_stores (delete_rows (is_secret_store id)));;
  audit_in audit.

Definition grants (org store : string) : tx (list SecretGrantRow) :=
  check_org org;;
  query (λ d, sort_by_key (λ g, (sg_created_at g, sg_id g)) (select (λ g, String.eqb (sg_store g) store) (db_secret_grants d))).

Definition same_grant (g : NewGrant) (r : SecretGrantRow) : bool :=
  String.eqb (sg_store r) (ng_store g) && String.eqb (sg_ref r) (ng_reference g)
  && eq_opt (sg_app r) (ng_app g) && eq_opt (sg_env r) (ng_env g) && Bool.eqb (sg_org_wide r) (ng_org_wide g).

Definition check_grant_scope (g : NewGrant) : tx unit :=
  match ng_app g with
  | None => ret tt
  | Some app =>
      let* known := query (λ d, existsb (is_app app) (db_apps d)) in
      check known (Invalid ("application " +:+ quoted app +:+ " does not exist"));;
      match ng_env g with
      | None => ret tt
      | Some env =>
          let* known := query (λ d, existsb (is_env app env) (db_envs d)) in
          check known (Invalid ("environment " +:+ env_name app env +:+ " does not exist"))
      end
  end.

Definition create_grant (org : string) (g : NewGrant) (audit : AuditIntent) : tx SecretGrantRow :=
  check_org org;;
  let* actor := require (ai_actor audit) (Forbidden "grants need an acting administrator") in
  check_admin_authority (Some actor);;
  let* store := store_row (ng_store g) in
  check (is_some store) (NotFound ("secret store " +:+ quoted (ng_store g)));;
  check_grant_scope g;;
  let* duplicate := query (λ d, select_one (same_grant g) (db_secret_grants d)) in
  match duplicate with
  | Some r => fail (AlreadyExists ("an identical grant (" +:+ quoted (sg_id r) +:+ ")"))
  | None => ret tt
  end;;
  let* id := random_hex 8 in
  let* now := now_ms in
  let row := mk_SecretGrantRow id (ng_store g) (ng_reference g) (ng_app g) (ng_env g) (ng_org_wide g) now actor in
  insert_row db_secret_grants upd_secret_grants (λ _, ng_org_wide g || is_some (ng_app g))
    (λ d, negb (existsb (λ r, String.eqb (sg_id r) id) (db_secret_grants d))) (λ _, true) row;;
  audit_in audit;;
  ret row.

Definition delete_grant (org store id : string) (audit : AuditIntent) : tx unit :=
  check_org org;;
  check_admin_authority (ai_actor audit);;
  let is_it g := String.eqb (sg_store g) store && String.eqb (sg_id g) id in
  let* n := query (λ d, select is_it (db_secret_grants d)) in
  execute (upd_secret_grants (delete_rows is_it));;
  check (negb (Nat.eqb (length n) 0)) (NotFound ("grant " +:+ quoted id +:+ " of secret store " +:+ quoted store));;
  audit_in audit.

(** ** Types and classes *)

Definition is_type (id : string) (r : TypeRow) : bool := String.eqb (ty_id r) id.
Definition is_class (ty id : string) (r : ClassRow) : bool := String.eqb (kl_type r) ty && String.eqb (kl_id r) id.
Definition is_definition (id : string) (r : DefinitionRow) : bool := String.eqb (df_id r) id.
Definition is_driver (id : string) (r : DriverRow) : bool := String.eqb (dv_id r) id.

Definition type_exists (d : Db) (ty : string) : bool :=
  is_some (builtin_type ty) || existsb (is_type ty) (db_resource_types d).
Definition class_exists (d : Db) (ty class : string) : bool :=
  is_default class || existsb (is_class ty class) (db_resource_classes d).

Definition custom_types (org : string) : tx (list ResourceType) :=
  check_org org;; query (λ d, ty_body <$> sort_by_key ty_id (db_resource_types d)).
Definition custom_type (org id : string) : tx (option ResourceType) :=
  check_org org;; query (λ d, ty_body <$> select_one (is_type id) (db_resource_types d)).

Definition create_type (org : string) (t : ResourceType) (audit : AuditIntent) : tx unit :=
  check_org org;;
  let id := rt_id t in
  check (is_none (builtin_type id)) (AlreadyExists ("built-in type " +:+ quoted id));;
  check_admin_authority (ai_actor audit);;
  let* now := now_ms in
  or_exists
    (insert_row db_resource_types upd_resource_types (λ _, true)
      (λ d, negb (existsb (is_type id) (db_resource_types d))) (λ _, true)
      (mk_TypeRow id t now (ai_actor audit)))
    (AlreadyExists ("resource type " +:+ quoted id));;
  audit_in audit.

Definition update_type (org : string) (t : ResourceType) (audit : AuditIntent) : tx unit :=
  check_org org;;
  let id := rt_id t in
  check (is_none (builtin_type id)) (Conflict ("built-in type " +:+ quoted id +:+ " cannot be modified"));;
  check_admin_authority (ai_actor audit);;
  let* n := query (λ d, select (is_type id) (db_resource_types d)) in
  execute (upd_resource_types (update (is_type id) (λ r, mk_TypeRow (ty_id r) t (ty_created_at r) (ty_created_by r))));;
  check (negb (Nat.eqb (length n) 0)) (NotFound ("resource type " +:+ quoted id));;
  audit_in audit.

(** Whether a definition co-provisions resources of the type. *)
Definition provisions_type (ty : string) (r : DefinitionRow) : bool :=
  existsb (λ k, match ResourceRef_parse k with Ok ref => String.eqb (rr_ty ref) ty | Err _ => false end) (bt_keys (df_provision r)).
Definition definitions_provisioning (ty : string) (d : Db) : list string :=
  take 5 (df_id <$> select (provisions_type ty) (sort_by_key df_id (db_definitions d))).

Definition delete_type (org id : string) (audit : AuditIntent) : tx unit :=
  check_org org;;
  check (is_none (builtin_type id)) (Conflict ("built-in type " +:+ quoted id +:+ " cannot be deleted"));;
  check_admin_authority (ai_actor audit);;
  let* known := query (λ d, type_exists d id) in
  check known (NotFound ("resource type " +:+ quoted id));;
  let* users := query (definitions_using (λ r, String.eqb (df_type r) id)) in
  unused users (λ l, "resource type " +:+ quoted id +:+ " is used by definitions " +:+ l);;
  let* users := query (definitions_provisioning id) in
  unused users (λ l, "resource type " +:+ quoted id +:+ " is co-provisioned by definitions " +:+ l);;
  execute (upd_resource_classes (delete_rows (λ r, String.eqb (kl_type r) id)));;
  execute (upd_resource_types (delete_rows (is_type id)));;
  audit_in audit.

Definition class_of_row (r : ClassRow) : result ResourceClass StoreError :=
  let? id := map_err (λ e, Corrupt ("class: " +:+ id_error e)) (ClassId_new (kl_id r)) in
  let? ty := map_err (λ e, Corrupt ("class: " +:+ id_error e)) (ResourceTypeId_new (kl_type r)) in
  Ok (mk_ResourceClass id ty (kl_description r)).
Definition classes (org : string) (ty : option string) : tx (list ResourceClass) :=
  check_org org;;
  let* rows := query (λ d, sort_by_key (λ r, (kl_type r, kl_id r))
    (select (λ r, match ty with None => true | Some t => String.eqb (kl_type r) t end) (db_resource_classes d))) in
  lift (try_map class_of_row rows).

Definition create_class (org : string) (c : ResourceClass) (audit : AuditIntent) : tx unit :=
  check_org org;;
  let ty := cl_resource_type c in
  check (negb (is_default (cl_id c))) (AlreadyExists ("class `default` of type " +:+ quoted ty));;
  check_admin_authority (ai_actor audit);;
  let* known := query (λ d, type_exists d ty) in
  check known (NotFound ("resource type " +:+ quoted ty));;
  let* now := now_ms in
  or_exists
    (insert_row db_resource_classes upd_resource_classes (λ _, true)
      (λ d, negb (existsb (is_class ty (cl_id c)) (db_resource_classes d))) (λ _, true)
      (mk_ClassRow ty (cl_id c) (cl_description c) now (ai_actor audit)))
    (AlreadyExists ("class " +:+ quoted (cl_id c) +:+ " of type " +:+ quoted ty));;
  audit_in audit.

(** The definitions of the type with a criterion on the class. *)
Definition class_users (ty id : string) (d : Db) : list string :=
  take 5 (bs_of_list (df_id <$> select (λ r, String.eqb (df_type r) ty
    && existsb (λ c, String.eqb (ct_definition c) (df_id r) && sql_eq (ct_class c) (Some id)) (db_criteria d)) (db_definitions d))).

Definition delete_class (org ty id : string) (audit : AuditIntent) : tx unit :=
  check_org org;;
  check (negb (String.eqb id "default")) (Conflict "class `default` exists for every type and cannot be deleted");;
  check_admin_authority (ai_actor audit);;
  let* users := query (class_users ty id) in
  unused users (λ l, "class " +:+ quoted id +:+ " of type " +:+ quoted ty +:+ " is referenced by the criteria of " +:+ l);;
  let* n := query (λ d, select (is_class ty id) (db_resource_classes d)) in
  execute (upd_resource_classes (delete_rows (is_class ty id)));;
  check (negb (Nat.eqb (length n) 0)) (NotFound ("class " +:+ quoted id +:+ " of type " +:+ quoted ty));;
  audit_in audit.

(** ** Drivers *)

Definition driver_targets_covers (t : DriverTargets) (ty : string) : bool :=
  match driver_target_of_type ty with TargetResource => dtg_resources t | TargetWorkload => dtg_workloads t end.
Definition driver_covers (d : DriverRecord) (ty : string) : bool := driver_targets_covers (dcap_targets (dr_capabilities d)) ty.

Inductive DriverChange := ChangeCreate | ChangeReplace (based_on : DriverRecord).

Definition is_builtin_driver (id : string) : bool := existsb (String.eqb id) BUILTIN_DRIVERS.

Definition opt_value_eqb (a b : option Value) : bool :=
  match a, b with Some a, Some b => value_eqb a b | None, None => true | _, _ => false end.
Definition targets_eqb (a b : DriverTargets) : bool :=
  Bool.eqb (dtg_resources a) (dtg_resources b) && Bool.eqb (dtg_workloads a) (dtg_workloads b) && Bool.eqb (dtg_triggers a) (dtg_triggers b).
Definition capabilities_eqb (a b : DriverCapabilities) : bool :=
  targets_eqb (dcap_targets a) (dcap_targets b) && Bool.eqb (dcap_observe a) (dcap_observe b)
  && Bool.eqb (dcap_recover a) (dcap_recover b) && Bool.eqb (dcap_preview a) (dcap_preview b) && Bool.eqb (dcap_cancel a) (dcap_cancel b).
Definition driver_record_eqb (a b : DriverRecord) : bool :=
  String.eqb (dr_id a) (dr_id b) && String.eqb (dr_target a) (dr_target b) && opt_value_eqb (dr_inputs_schema a) (dr_inputs_schema b)
  && bool_decide (dr_token a = dr_token b) && String.eqb (dr_protocol_version a) (dr_protocol_version b)
  && (dr_cookie_version a =? dr_cookie_version b) && opt_value_eqb (dr_outputs_schema a) (dr_outputs_schema b)
  && capabilities_eqb (dr_capabilities a) (dr_capabilities b).

(** Environments with an operation of the driver that is running or of unknown outcome. *)
Definition open_operations (id : string) (d : Db) : list string :=
  take 5 (bs_of_list ((λ o, op_app o +:+ "/" +:+ op_env o) <$> select (λ o, sql_eq (op_driver_type o) (Some id)
    && (String.eqb (op_state o) "started" || String.eqb (op_state o) "unknown")) (db_operations d))).
Definition check_no_open_operations (id : string) : tx unit :=
  let* busy := query (open_operations id) in
  unused busy (λ l, "driver " +:+ quoted id +:+ " has operations in " +:+ l +:+ " whose outcome is not known yet").

(** The active resources of the driver, the first ten by name with a count of the rest. *)
Definition driver_resources (id : string) (d : Db) : list ResourceRow :=
  select (λ r, sql_eq (rs_driver_type r) (Some id)) (db_active_resources d).
Definition cookie_version_kept (stored driver : DriverRecord) : tx unit :=
  if dr_cookie_version driver =? dr_cookie_version stored then ret tt
  else
    let id := dr_id driver in
    let* held := query (driver_resources id) in
    let shown := take 10 ((λ r, quoted (rs_guresid r) +:+ " (" +:+ rs_app r +:+ "/" +:+ rs_env r +:+ ")") <$> sort_by_key rs_guresid held) in
    let more := if Nat.leb (length held) 10 then ε else " and " +:+ show_nat (length held - 10) +:+ " more" in
    check (match held with [] => true | _ => false end)
      (Conflict ("the cookie version of driver " +:+ quoted id +:+ " cannot change from " +:+ show_Z (dr_cookie_version stored)
        +:+ " while it has active resources, whose cookies are of that version: " +:+ join ", " shown +:+ more)).

Definition check_secret_stores (owner : SecretOwner) (refs : jmap) : tx unit := check_ref_stores refs;; check_assigned owner refs.

Definition uncovered (driver : DriverRecord) (d : Db) : list string :=
  take 5 ((λ r, quoted (df_id r) +:+ " (" +:+ quoted (df_type r) +:+ ")")
    <$> select (λ r, negb (driver_covers driver (df_type r)))
          (sort_by_key df_id (select (λ r, String.eqb (df_driver_type r) (dr_id driver)) (db_definitions d)))).

Definition check_replace (driver based_on : DriverRecord) (stored : option DriverRow) : tx unit :=
  let id := dr_id driver in
  let* row := require stored (NotFound ("driver " +:+ quoted id)) in
  check (driver_record_eqb (dv_body row) based_on)
    (Conflict ("driver " +:+ quoted id +:+ " changed while this request was being handled; retry"));;
  check_no_open_operations id;;
  cookie_version_kept (dv_body row) driver;;
  let* users := query (uncovered driver) in
  check (match users with [] => true | _ => false end)
    (Invalid ("driver " +:+ quoted id +:+ " would no longer provision the types of definitions " +:+ join ", " users +:+ " that use it")).

Definition check_driver_record (driver : DriverRecord) (change : DriverChange) : tx unit :=
  let id := dr_id driver in
  let create := match change with ChangeCreate => true | ChangeReplace _ => false end in
  check (create || negb (is_builtin_driver id)) (Conflict ("built-in driver " +:+ quoted id +:+ " cannot be modified"));;
  let* stored := query (λ d, select_one (is_driver id) (db_drivers d)) in
  check (negb (create && (is_builtin_driver id || is_some stored))) (AlreadyExists ("driver " +:+ quoted id));;
  match change with ChangeReplace based_on => check_replace driver based_on stored | ChangeCreate => ret tt end;;
  match dr_token driver with
  | Some token => check_secret_stores (OwnerDriver id) [("token", secret_ref_to_value token)]
  | None => ret tt
  end.

Definition drivers (org : string) : tx (list DriverRecord) :=
  check_org org;; query (λ d, dv_body <$> sort_by_key dv_id (db_drivers d)).
Definition driver (org id : string) : tx (option DriverRecord) :=
  check_org org;; query (λ d, dv_body <$> select_one (is_driver id) (db_drivers d)).

Definition create_driver (org : string) (r : DriverRecord) (audit : AuditIntent) : tx unit :=
  check_org org;;
  check_admin_authority (ai_actor audit);;
  check_driver_record r ChangeCreate;;
  let* now := now_ms in
  or_exists
    (insert_row db_drivers upd_drivers (λ _, true)
      (λ d, negb (existsb (is_driver (dr_id r)) (db_drivers d))) (λ _, true)
      (mk_DriverRow (dr_id r) r now (ai_actor audit)))
    (AlreadyExists ("driver " +:+ quoted (dr_id r)));;
  audit_in audit.

Definition replace_driver (org : string) (r based_on : DriverRecord) (audit : AuditIntent) : tx unit :=
  check_org org;;
  check_admin_authority (ai_actor audit);;
  check_driver_record r (ChangeReplace based_on);;
  let* n := query (λ d, select (is_driver (dr_id r)) (db_drivers d)) in
  execute (upd_drivers (update (is_driver (dr_id r)) (λ x, mk_DriverRow (dv_id x) r (dv_created_at x) (dv_created_by x))));;
  check (negb (Nat.eqb (length n) 0)) (NotFound ("driver " +:+ quoted (dr_id r)));;
  audit_in audit.

Definition check_driver (org : string) (r : DriverRecord) (change : DriverChange) (actor : option string) : tx unit :=
  check_org org;;
  check_admin_authority actor;;
  check_driver_record r change.

(** Environments with active resources for which [p]. *)
Definition resource_envs (p : ResourceRow → bool) (d : Db) : list string :=
  take 5 (bs_of_list ((λ r, rs_app r +:+ "/" +:+ rs_env r) <$> select p (db_active_resources d))).

Definition delete_driver (org id : string) (audit : AuditIntent) : tx unit :=
  check_org org;;
  check (negb (is_builtin_driver id)) (Conflict ("built-in driver " +:+ quoted id +:+ " cannot be deleted"));;
  check_admin_authority (ai_actor audit);;
  let* users := query (definitions_using (λ r, String.eqb (df_driver_type r) id)) in
  unused users (λ l, "driver " +:+ quoted id +:+ " is used by definitions " +:+ l);;
  let* envs := query (resource_envs (λ r, sql_eq (rs_driver_type r) (Some id))) in
  unused envs (λ l, "driver " +:+ quoted id +:+ " provisioned active resources in " +:+ l);;
  check_no_open_operations id;;
  let* n := query (λ d, select (is_driver id) (db_drivers d)) in
  execute (upd_drivers (delete_rows (is_driver id)));;
  check (negb (Nat.eqb (length n) 0)) (NotFound ("driver " +:+ quoted id));;
  audit_in audit.

(** ** Definitions *)

Record DefinitionRecord := mk_DefinitionRecord {
  dfr_definition : ResourceDefinition; dfr_version : Z; dfr_created_at : Z; dfr_created_by : option string; dfr_updated_at : Z
}.
Record DefinitionUpdate := mk_DefinitionUpdate {
  du_name : string; du_driver_type : string; du_driver_account : option string; du_driver_inputs : DriverInputs;
  du_provision : list (string * Provision)
}.

(** The driver is there, and can provision the type. *)
Definition check_definition_driver (ty driver_type : string) : tx unit :=
  if is_builtin_driver driver_type then ret tt
  else
    let* row := query (λ d, select_one (is_driver driver_type) (db_drivers d)) in
    let* r := require row (Invalid ("driver " +:+ quoted driver_type +:+ " is not registered")) in
    check (driver_covers (dv_body r) ty)
      (Invalid ("driver " +:+ quoted driver_type +:+ " cannot provision resources of type " +:+ quoted ty
        +:+ ": its registration does not declare the " +:+ quoted (driver_target_as_str (driver_target_of_type ty)) +:+ " target")).

(** The account is there; a template is resolved at deployment time, and must be valid now. *)
Definition check_definition_account (account : string) : tx unit :=
  let* template := lift (map_err (λ e, Invalid ("`driver_account` " +:+ quoted account +:+ " is invalid: " +:+ placeholder_kind_show e))
    (template_parse account)) in
  if template_is_literal template then
    let* row := query (λ d, select_one (is_account account) (db_cloud_accounts d)) in
    check (is_some row) (Invalid ("cloud account " +:+ quoted account +:+ " does not exist"))
  else
    for_each (λ raw, let* _ := lift (map_err (λ e, Invalid ("`driver_account` placeholder " +:+ quoted (rp_text raw) +:+ " is invalid: "
      +:+ placeholder_kind_show e)) (interpret raw DialectDriverAccount)) in ret tt) (template_placeholders template).

Definition check_driver_and_account (ty driver_type : string) (driver_account : option string) : tx unit :=
  check_definition_driver ty driver_type;;
  match driver_account with None => ret tt | Some account => check_definition_account account end.

Definition without_id (c : Criterion) : Criterion :=
  mk_Criterion None (c_env_type c) (c_app_id c) (c_env_id c) (c_res_id c) (c_class c).

Definition check_criterion (ty : string) (c : Criterion) (existing : list Criterion) : tx unit :=
  match c_class c with
  | Some class =>
      let* known := query (λ d, class_exists d ty class) in
      check known (Invalid ("class " +:+ quoted class +:+ " is not defined for type " +:+ quoted ty))
  | None => ret tt
  end;;
  check (negb (existsb (λ e, bool_decide (without_id e = without_id c)) existing))
    (Conflict "the definition already has an identical criterion").

Definition check_provision_key (key : string) : tx unit :=
  let* target := lift (map_err (λ e, Invalid ("`provision` key " +:+ quoted key +:+ " is invalid: " +:+ id_error e)) (ResourceRef_parse key)) in
  let* known := query (λ d, type_exists d (rr_ty target)) in
  check known (Invalid ("`provision` key " +:+ quoted key +:+ " names resource type " +:+ quoted (rr_ty target) +:+ ", which does not exist")).
Definition check_provision (provision : list (string * Provision)) : tx unit := for_each check_provision_key (bt_keys provision).

Fixpoint check_criteria (ty : string) (before after : list Criterion) : tx unit :=
  match after with
  | [] => ret tt
  | c :: after => check_criterion ty c before;; check_criteria ty (before ++ [c]) after
  end.

Definition check_definition_refs (def : ResourceDefinition) : tx unit :=
  let ty := rd_ty def in
  let* known := query (λ d, type_exists d ty) in
  check known (Invalid ("resource type " +:+ quoted ty +:+ " does not exist"));;
  check_driver_and_account ty (rd_driver_type def) (rd_driver_account def);;
  check_secret_stores (OwnerDefinition (rd_id def)) (di_secret_refs (rd_driver_inputs def));;
  check_provision (rd_provision def);;
  check_criteria ty [] (rd_criteria def).

Definition insert_criterion (def : string) (c : Criterion) : tx string :=
  let* drawn := random_hex 8 in
  let* id := lift (map_err (λ e, Corrupt ("criterion ID: " +:+ id_error e)) (CriterionId_new drawn)) in
  insert_row db_criteria upd_criteria (λ _, true)
    (λ d, negb (existsb (λ r, String.eqb (ct_definition r) def && String.eqb (ct_id r) id) (db_criteria d)))
    (λ d, existsb (is_definition def) (db_definitions d))
    (mk_CriterionRow def id (c_env_type c) (c_app_id c) (c_env_id c) (c_res_id c) (c_class c));;
  ret id.

Definition criterion_of_row (r : CriterionRow) : Criterion :=
  mk_Criterion (Some (ct_id r)) (ct_env_type r) (ct_app r) (ct_env r) (ct_res r) (ct_class r).
Definition criteria_of (def : string) (d : Db) : list Criterion :=
  criterion_of_row <$> select (λ r, String.eqb (ct_definition r) def) (db_criteria d).

Definition definition_from_row (r : DefinitionRow) : tx DefinitionRecord :=
  let* criteria := query (criteria_of (df_id r)) in
  let* id := lift (map_err (λ e, Corrupt ("definition: " +:+ id_error e)) (DefinitionId_new (df_id r))) in
  let* ty := lift (map_err (λ e, Corrupt ("definition: " +:+ id_error e)) (ResourceTypeId_new (df_type r))) in
  ret (mk_DefinitionRecord
    (mk_ResourceDefinition id (df_name r) ty (df_driver_type r) (df_driver_account r) (df_driver_inputs r) (df_provision r) criteria)
    (df_version r) (df_created_at r) (df_created_by r) (df_updated_at r)).

Definition definition_exists (id : string) : tx string :=
  let* row := query (λ d, select_one (is_definition id) (db_definitions d)) in
  let* r := require row (NotFound ("resource definition " +:+ quoted id)) in
  ret (df_type r).

Definition definitions (org : string) : tx (list DefinitionRecord) :=
  check_org org;;
  let* rows := query (λ d, sort_by_key df_id (db_definitions d)) in
  fold_each (λ out r, let* def := definition_from_row r in ret (out ++ [def])) [] rows.

Definition definition (org id : string) : tx (option DefinitionRecord) :=
  check_org org;;
  let* row := query (λ d, select_one (is_definition id) (db_definitions d)) in
  match row with Some r => let* def := definition_from_row r in ret (Some def) | None => ret None end.

Definition check_definition (org : string) (def : ResourceDefinition) (actor : option string) : tx unit :=
  check_org org;;
  check_admin_authority actor;;
  check_definition_refs def.

Definition create_definition (org : string) (def : ResourceDefinition) (audit : AuditIntent) : tx unit :=
  check_org org;;
  let id := rd_id def in
  let* now := now_ms in
  check_admin_authority (ai_actor audit);;
  check_definition_refs def;;
  or_exists
    (insert_row db_definitions upd_definitions (λ _, true)
      (λ d, negb (existsb (is_definition id) (db_definitions d))) (λ _, true)
      (mk_DefinitionRow id (rd_name def) (rd_ty def) (rd_driver_type def) (rd_driver_account def) (rd_driver_inputs def)
        (rd_provision def) 1 now (ai_actor audit) now))
    (AlreadyExists ("resource definition " +:+ quoted id));;
  for_each (λ c, let* _ := insert_criterion id c in ret tt) (rd_criteria def);;
  audit_in audit.

Definition update_definition (org id : string) (u : DefinitionUpdate) (audit : AuditIntent) : tx unit :=
  check_org org;;
  check_admin_authority (ai_actor audit);;
  let* ty := definition_exists id in
  check_driver_and_account ty (du_driver_type u) (du_driver_account u);;
  check_secret_stores (OwnerDefinition id) (di_secret_refs (du_driver_inputs u));;
  check_provision (du_provision u);;
  let* now := now_ms in
  execute (upd_definitions (update (is_definition id) (λ r,
    mk_DefinitionRow (df_id r) (du_name u) (df_type r) (du_driver_type u) (du_driver_account u) (du_driver_inputs u)
      (du_provision u) (df_version r + 1) (df_created_at r) (df_created_by r) now)));;
  audit_in audit.

Definition delete_definition (org id : string) (audit : AuditIntent) : tx unit :=
  check_org org;;
  check_admin_authority (ai_actor audit);;
  let* _ := definition_exists id in
  let* users := query (resource_envs (λ r, sql_eq (rs_definition_id r) (Some id))) in
  unused users (λ l, "resource definition " +:+ quoted id +:+ " provisioned active resources in " +:+ l);;
  execute (upd_criteria (delete_rows (λ r, String.eqb (ct_definition r) id)));;
  execute (upd_definitions (delete_rows (is_definition id)));;
  audit_in audit.

Definition add_criterion (org def : string) (c : Criterion) (audit : AuditIntent) : tx string :=
  check_org org;;
  check_admin_authority (ai_actor audit);;
  let* ty := definition_exists def in
  let* existing := query (criteria_of def) in
  check_criterion ty c existing;;
  let* id := insert_criterion def c in
  audit_in audit;;
  ret id.

Definition delete_criterion (org def id : string) (audit : AuditIntent) : tx unit :=
  check_org org;;
  check_admin_authority (ai_actor audit);;
  let* _ := definition_exists def in
  let is_it r := String.eqb (ct_definition r) def && String.eqb (ct_id r) id in
  let* n := query (λ d, select is_it (db_criteria d)) in
  execute (upd_criteria (delete_rows is_it));;
  check (negb (Nat.eqb (length n) 0)) (NotFound ("criterion " +:+ quoted id +:+ " of definition " +:+ quoted def));;
  audit_in audit.

(** ** Shared values *)

Inductive ValueContent := ContentValue (text : string) | ContentSecret (r : SecretRef).
Record ValueRecord := mk_ValueRecord {
  vr_key : string; vr_description : string; vr_content : ValueContent; vr_is_secret : bool; vr_updated_at : Z
}.
Record PutValue := mk_PutValue { pv_key : string; pv_description : string; pv_content : ValueContent; pv_create : bool }.
Record ValueSetVersion := mk_ValueSetVersion { vs_id : string; vs_values : Value; vs_created_at : Z; vs_created_by : option string }.

Definition value_record (r : ValueRow) : result ValueRecord StoreError :=
  let? content :=
    match av_value r, av_secret_ref r with
    | Some v, None => Ok (ContentValue v)
    | None, Some v =>
        match secret_ref_from_value v with
        | Some r => Ok (ContentSecret r)
        | None => Err (Corrupt ("value " +:+ quoted (av_key r) +:+ ": " +:+ secret_ref_error v))
        end
    | _, _ => Err (Corrupt ("value " +:+ quoted (av_key r) +:+ " has no content"))
    end in
  Ok (mk_ValueRecord (av_key r) (av_description r) content
    (match content with ContentSecret _ => true | ContentValue _ => false end) (av_updated_at r)).

(** Values of a scope; the environment is empty for those of the application. *)
Definition in_scope (app env : string) (r : ValueRow) : bool := String.eqb (av_app r) app && String.eqb (av_env r) env.
Definition is_value (app env key : string) (r : ValueRow) : bool := in_scope app env r && String.eqb (av_key r) key.

Definition scope_values (app env : string) : tx (list ValueRecord) :=
  let* rows := query (λ d, sort_by_key av_key (select (in_scope app env) (db_app_values d))) in
  lift (try_map value_record rows).

Definition value_row (app env key : string) : tx (option ValueRecord) :=
  let* row := query (λ d, select_one (is_value app env key) (db_app_values d)) in
  match row with Some r => let* v := lift (value_record r) in ret (Some v) | None => ret None end.

Definition scope_name (app env : string) : string :=
  if str_is_empty env then "application " +:+ quoted app else "environment " +:+ quoted (app +:+ "/" +:+ env).

Definition check_scope (app env : string) : tx unit :=
  let* known := query (λ d, if str_is_empty env then existsb (is_app app) (db_apps d) else existsb (is_env app env) (db_envs d)) in
  check known (NotFound (scope_name app env)).

Definition value_entry (v : ValueRecord) : Value :=
  Obj [("description", Str (vr_description v));
    match vr_content v with
    | ContentValue text => ("value", Str text)
    | ContentSecret r => ("secret_ref", secret_ref_to_value r)
    end].

(** [CAST(id AS INTEGER)] of the decimal texts that are written. *)
Definition cast_integer (s : string) : Z := match parse_usize s with Some n => Z.of_N n | None => 0 end.
Definition latest_version (app env : string) (d : Db) : Z :=
  foldr Z.max 0 ((λ r, cast_integer (vv_id r)) <$> select (λ r, String.eqb (vv_app r) app && String.eqb (vv_env r) env) (db_value_set_versions d)).

Definition record_version (app env : string) (actor : option string) : tx unit :=
  let* values := scope_values app env in
  let content := Obj (foldl (λ m v, im_insert (vr_key v) (value_entry v) m) [] values) in
  let* latest := query (latest_version app env) in
  let id := show_Z (latest + 1) in
  let* now := now_ms in
  let* seq := query db_seq in
  let '(audit, logs, tombs, versions) := seq in
  insert_row db_value_set_versions upd_value_set_versions (λ _, true)
    (λ d, negb (existsb (λ r, String.eqb (vv_app r) app && String.eqb (vv_env r) env && String.eqb (vv_id r) id) (db_value_set_versions d)))
    (λ _, true) (mk_ValueVersionRow (versions + 1) app env id content now actor);;
  execute (set_seq (audit, logs, tombs, versions + 1)).

Definition values (org app : string) (env : option string) : tx (list ValueRecord) :=
  check_org org;; scope_values app (option_default ε env).
Definition value (org app : string) (env : option string) (key : string) : tx (option ValueRecord) :=
  check_org org;; value_row app (option_default ε env) key.

(** [INSERT ... ON CONFLICT DO UPDATE]. *)
Definition upsert_value (row : ValueRow) (d : Db) : Db :=
  let is_it := is_value (av_app row) (av_env row) (av_key row) in
  upd_app_values (λ t, if existsb is_it t then update is_it (λ _, row) t else t ++ [row]) d.

Definition put_value (org app : string) (env : option string) (v : PutValue) (audit : AuditIntent) : tx unit :=
  check_org org;;
  let scope := option_default ε env in
  let key := pv_key v in
  check_scope app scope;;
  check_values_authority (ai_actor audit) app env;;
  let* existing := value_row app scope key in
  match existing, pv_create v with
  | Some _, true => fail (AlreadyExists ("value " +:+ quoted key +:+ " in " +:+ scope_name app scope))
  | None, false => fail (NotFound ("value " +:+ quoted key +:+ " in " +:+ scope_name app scope))
  | _, _ => ret tt
  end;;
  match env with
  | Some _ =>
      let* overridden := value_row app ε key in
      check (is_some overridden)
        (Invalid ("environment value " +:+ quoted key +:+ " overrides an application value, but " +:+ quoted app
          +:+ " has no value " +:+ quoted key))
  | None => ret tt
  end;;
  match pv_content v with ContentSecret r => check_secret_use app env r | ContentValue _ => ret tt end;;
  let* now := now_ms in
  execute (upsert_value (mk_ValueRow app scope key (pv_description v)
    (match pv_content v with ContentValue t => Some t | ContentSecret _ => None end)
    (match pv_content v with ContentValue _ => None | ContentSecret r => Some (secret_ref_to_value r) end) now));;
  record_version app scope (ai_actor audit);;
  audit_in audit.

Definition delete_value (org app : string) (env : option string) (key : string) (audit : AuditIntent) : tx unit :=
  check_org org;;
  let scope := option_default ε env in
  check_values_authority (ai_actor audit) app env;;
  let* existing := value_row app scope key in
  check (is_some existing) (NotFound ("value " +:+ quoted key +:+ " in " +:+ scope_name app scope));;
  match env with
  | None =>
      let* overriding := query (λ d, sort_by_key (λ e, e) (av_env <$> select (λ r, String.eqb (av_app r) app && String.eqb (av_key r) key
        && negb (str_is_empty (av_env r))) (db_app_values d))) in
      check (match overriding with [] => true | _ => false end)
        (Conflict ("value " +:+ quoted key +:+ " is overridden in environments " +:+ join ", " (quoted <$> overriding)
          +:+ "; delete the overrides first"))
  | Some _ => ret tt
  end;;
  execute (upd_app_values (delete_rows (is_value app scope key)));;
  record_version app scope (ai_actor audit);;
  audit_in audit.

Definition value_versions (org app : string) (env : option string) : tx (list ValueSetVersion) :=
  check_org org;;
  query (λ d, (λ r, mk_ValueSetVersion (vv_id r) (vv_content r) (vv_created_at r) (vv_created_by r))
    <$> sort_by_key (λ r, - vv_seq r) (select (λ r, String.eqb (vv_app r) app && String.eqb (vv_env r) (option_default ε env)) (db_value_set_versions d))).
End store.

(** ** Every change *)

Inductive CatalogOp :=
| CatCreateType (org : string) (t : ResourceType) (audit : AuditIntent)
| CatUpdateType (org : string) (t : ResourceType) (audit : AuditIntent)
| CatDeleteType (org id : string) (audit : AuditIntent)
| CatCreateClass (org : string) (c : ResourceClass) (audit : AuditIntent)
| CatDeleteClass (org ty id : string) (audit : AuditIntent)
| CatCreateDriver (org : string) (r : DriverRecord) (audit : AuditIntent)
| CatReplaceDriver (org : string) (r based_on : DriverRecord) (audit : AuditIntent)
| CatDeleteDriver (org id : string) (audit : AuditIntent)
| CatCreateDefinition (org : string) (def : ResourceDefinition) (audit : AuditIntent)
| CatUpdateDefinition (org id : string) (u : DefinitionUpdate) (audit : AuditIntent)
| CatDeleteDefinition (org id : string) (audit : AuditIntent)
| CatAddCriterion (org def : string) (c : Criterion) (audit : AuditIntent)
| CatDeleteCriterion (org def id : string) (audit : AuditIntent)
| CatCreateAccount (org : string) (a : CloudAccount) (audit : AuditIntent)
| CatUpdateAccount (org : string) (a : CloudAccount) (audit : AuditIntent)
| CatDeleteAccount (org id : string) (audit : AuditIntent)
| CatCreateStore (org : string) (s : SecretStoreRecord) (audit : AuditIntent)
| CatUpdateStore (org id : string) (config : jmap) (audit : AuditIntent)
| CatDeleteStore (org id : string) (audit : AuditIntent)
| CatCreateGrant (org : string) (g : NewGrant) (audit : AuditIntent)
| CatDeleteGrant (org store id : string) (audit : AuditIntent)
| CatPutValue (org app : string) (env : option string) (v : PutValue) (audit : AuditIntent)
| CatDeleteValue (org app : string) (env : option string) (key : string) (audit : AuditIntent).

Section catalog_op.
Context `{System} `{Libraries} (org : string).

Definition catalog_exec (op : CatalogOp) : tx unit :=
  match op with
  | CatCreateType o t audit => create_type org o t audit
  | CatUpdateType o t audit => update_type org o t audit
  | CatDeleteType o id audit => delete_type org o id audit
  | CatCreateClass o c audit => create_class org o c audit
  | CatDeleteClass o ty id audit => delete_class org o ty id audit
  | CatCreateDriver o r audit => create_driver org o r audit
  | CatReplaceDriver o r b audit => replace_driver org o r b audit
  | CatDeleteDriver o id audit => delete_driver org o id audit
  | CatCreateDefinition o def audit => create_definition org o def audit
  | CatUpdateDefinition o id u audit => update_definition org o id u audit
  | CatDeleteDefinition o id audit => delete_definition org o id audit
  | CatAddCriterion o def c audit => let* _ := add_criterion org o def c audit in ret tt
  | CatDeleteCriterion o def id audit => delete_criterion org o def id audit
  | CatCreateAccount o a audit => create_account org o a audit
  | CatUpdateAccount o a audit => update_account org o a audit
  | CatDeleteAccount o id audit => delete_account org o id audit
  | CatCreateStore o s audit => create_secret_store org o s audit
  | CatUpdateStore o id config audit => update_secret_store org o id config audit
  | CatDeleteStore o id audit => delete_secret_store org o id audit
  | CatCreateGrant o g audit => let* _ := create_grant org o g audit in ret tt
  | CatDeleteGrant o store id audit => delete_grant org o store id audit
  | CatPutValue o app env v audit => put_value org o app env v audit
  | CatDeleteValue o app env key audit => delete_value org o app env key audit
  end.
End catalog_op.
