(* ===== verification/CatalogProofs.v ===== *)
(** * What the catalog keeps

    Credentials never depend on themselves; whatever a definition, an account, a driver, a store,
    a value or a grant refers to is there; and a secret is used only where its owner has it or a
    grant covers it. *)

From Stdlib Require Import Ascii.
From stdpp Require Import base sets strings list relations.
From S2P Require Import Prelude Strings OrdMap Ids Json Model Template Placeholder Catalog Sets Db DbLogic Identity Rbac Apps Permits Deployments Resources IdentityInv IdentityRoles DeployInv Access Operations PlanInputs PlanJob CatalogStore.

Local Open Scope string_scope.
Local Open Scope Z_scope.
Local Open Scope list_scope.

(** ** The search for a cycle *)

Definition successors (g : CredGraph) (n : CredNode) : list CredNode := option_default [] (bt_get n g).
Definition leads (g : CredGraph) (a b : CredNode) : Prop := b ∈ successors g a.

Section search.
Context (g : CredGraph) (start : CredNode).

(** A path from the start: the nodes, in order. *)
Fixpoint chained (n : CredNode) (l : list CredNode) : Prop :=
  match l with [] => True | m :: l => leads g n m ∧ chained m l end.
Definition path_to (path : list CredNode) (n : CredNode) : Prop :=
  ∃ l, path = start :: l ∧ chained start l ∧ last (start :: l) = Some n.

Lemma chained_app n l m : chained n (l ++ [m]) ↔ chained n l ∧ ∀ x, last (n :: l) = Some x → leads g x m.
Proof.
  revert n. induction l as [|k l IH]; intros n; simpl.
  - split; [intros [H _]; split; [done|]; by intros x [= <-]|]. intros [_ H]. split; [by apply H|done].
  - rewrite IH. naive_solver.
Qed.

Lemma path_to_snoc path n m : path_to path n → leads g n m → path_to (path ++ [m]) m.
Proof.
  intros (l & -> & Hc & Hl) Hm. exists (l ++ [m]). split_and!; [done| |].
  - apply chained_app. split; [done|]. intros x Hx. rewrite Hl in Hx. by simplify_eq.
  - rewrite app_comm_cons. apply last_snoc.
Qed.

Lemma path_to_reaches path n : path_to path n → rtc (leads g) start n.
Proof.
  intros (l & -> & Hc & Hl). generalize dependent start. induction l as [|m l IH]; intros s Hc Hl.
  - simpl in Hl. simplify_eq. apply rtc_refl.
  - destruct Hc as [Hm Hc]. eapply rtc_l; [exact Hm|]. by apply IH.
Qed.

(** What the successors of a node do to the stack, when none is the start. *)
Lemma visit_Ok path nexts seen stack seen' stack' :
  visit start path nexts seen stack = Ok (seen', stack') →
  (∀ n, n ∈ nexts → n ≠ start ∧ n ∈ seen')
  ∧ (∀ n, n ∈ seen → n ∈ seen')
  ∧ (∀ n, n ∈ seen' → n ∈ seen ∨ (n ≠ start ∧ n ∈ stack'.*1))
  ∧ (∀ x, x ∈ stack → x ∈ stack')
  ∧ ∀ n p, (n, p) ∈ stack' → (n, p) ∈ stack ∨ n ∈ nexts ∧ p = path ++ [n].
Proof.
  revert seen stack. induction nexts as [|n nexts IH]; intros seen stack; simpl.
  { intros [= <- <-]. split_and!; try by auto. intros n ?%not_elem_of_nil. done. }
  case_decide as Hs; [done|]. destruct (bs_mem n seen) eqn:Em; intros Hv; apply IH in Hv as (H1 & H2 & H3 & H4 & H5).
  - apply bs_mem_spec in Em. split_and!; [|done|done|done|].
    + intros m [->|Hm]%elem_of_cons; [by auto|by apply H1].
    + intros m p Hm. destruct (H5 m p Hm) as [?|[? ?]]; [by left|right; split; [by right|done]].
  - split_and!.
    + intros m [->|Hm]%elem_of_cons; [|by apply H1]. split; [done|]. apply H2, elem_of_bs_insert. by left.
    + intros m Hm. apply H2, elem_of_bs_insert. by right.
    + intros m Hm. destruct (H3 m Hm) as [[->|?]%elem_of_bs_insert|?]; [|by left|by right].
      right. split; [done|]. apply list_elem_of_fmap. exists (n, path ++ [n]). split; [done|]. apply H4. by left.
    + intros x Hx. apply H4. by right.
    + intros m p Hm. destruct (H5 m p Hm) as [[[= -> ->]|?]%elem_of_cons|[? ?]];
        [right; split; [by left|done]|by left|right; split; [by right|done]].
Qed.

Lemma visit_Err path nexts seen stack chain :
  visit start path nexts seen stack = Err chain → start ∈ nexts ∧ chain = path ++ [start].
Proof.
  revert seen stack. induction nexts as [|n nexts IH]; intros seen stack; simpl; [done|].
  case_decide as Hs; [intros [= <-]; subst n; split; [by left|done]|].
  destruct (bs_mem n seen); intros [Hin ->]%IH; (split; [by right|done]).
Qed.

(** Nodes that may be pushed yet. *)
Definition unseen (seen : list CredNode) : nat :=
  length (filter (λ n, n ∉ seen) (mjoin (bt_values g))).

Lemma filter_unseen_le (s s' k : list CredNode) :
  (∀ n, n ∈ s → n ∈ s') → (length (filter (λ n, n ∉ s') k) ≤ length (filter (λ n, n ∉ s) k))%nat.
Proof.
  intros Hs. induction k as [|m k IH]; [done|]. rewrite !filter_cons.
  destruct (decide (m ∉ s')), (decide (m ∉ s)); simpl; try lia. exfalso. naive_solver.
Qed.

Lemma unseen_insert n seen : n ∈ mjoin (bt_values g) → n ∉ seen → (S (unseen (bs_insert n seen)) ≤ unseen seen)%nat.
Proof.
  unfold unseen. generalize (mjoin (bt_values g)) as l. intros l Hin Hn.
  assert (∀ m, m ∈ seen → m ∈ bs_insert n seen) as Hsub by (intros m Hm; apply elem_of_bs_insert; by right).
  induction l as [|m l IH]; [by apply not_elem_of_nil in Hin|]. rewrite !filter_cons.
  apply elem_of_cons in Hin as [->|Hin].
  - rewrite decide_False by (intros H; apply H, elem_of_bs_insert; by left). rewrite decide_True by done. simpl.
    pose proof (filter_unseen_le seen (bs_insert m seen) l Hsub). lia.
  - specialize (IH Hin). destruct (decide (m ∉ bs_insert n seen)), (decide (m ∉ seen)); simpl; try lia. exfalso. naive_solver.
Qed.

Lemma visit_measure path nexts seen stack seen' stack' :
  (∀ n, n ∈ nexts → n ∈ mjoin (bt_values g)) →
  visit start path nexts seen stack = Ok (seen', stack') →
  (length stack' + unseen seen' ≤ length stack + unseen seen)%nat.
Proof.
  revert seen stack. induction nexts as [|n nexts IH]; intros seen stack Hall; simpl; [by intros [= <- <-]|].
  assert (∀ m, m ∈ nexts → m ∈ mjoin (bt_values g)) as Hrest by (intros m Hm; apply Hall; by right).
  case_decide; [done|]. destruct (bs_mem n seen) eqn:Em; intros Hv; apply IH in Hv; [done..| |done].
  apply bs_mem_false in Em. pose proof (unseen_insert n seen (Hall n ltac:(by left)) Em). simpl in *. lia.
Qed.

Lemma successors_values n m : m ∈ successors g n → m ∈ mjoin (bt_values g).
Proof.
  unfold successors. destruct (bt_get n g) as [l|] eqn:E; [|by intros ?%not_elem_of_nil]. simpl. intros Hm.
  apply list_elem_of_join. exists l. split; [done|]. apply list_elem_of_fmap. exists (n, l). split; [done|]. by apply bt_get_elem.
Qed.

Lemma search_ends fuel seen stack : (length stack + unseen seen ≤ fuel)%nat → search fuel g start seen stack ≠ None.
Proof.
  revert seen stack. induction fuel as [|fuel IH]; intros seen stack Hf; destruct stack as [|[n path] stack]; simpl in *; try done; [lia|].
  destruct (visit _ _ _ _ _) as [[seen' stack']|chain] eqn:E; [|done]. apply IH.
  apply visit_measure in E; [lia|]. intros m Hm. by apply (successors_values n).
Qed.

(** What has been seen is closed but for the stack. *)
Definition covered (seen : list CredNode) (stack : list (CredNode * list CredNode)) : Prop :=
  start ∉ seen ∧ ∀ n, n = start ∨ n ∈ seen → n ∈ stack.*1 ∨ ∀ m, leads g n m → m ≠ start ∧ m ∈ seen.

Lemma search_Ok fuel seen stack :
  covered seen stack → search fuel g start seen stack = Some (Ok tt) →
  ∃ seen' : list CredNode, start ∉ seen' ∧ ∀ n, n = start ∨ n ∈ seen' → ∀ m, leads g n m → m ≠ start ∧ m ∈ seen'.
Proof.
  revert seen stack. induction fuel as [|fuel IH]; intros seen stack [Hs Hc];
    (destruct stack as [|[n path] stack]; [intros _; exists seen; split; [done|]; intros n Hn;
      destruct (Hc n Hn) as [?%not_elem_of_nil|?]; done|]); simpl; [done|].
  destruct (visit _ _ _ _ _) as [[seen' stack']|chain] eqn:E; [|done].
  apply visit_Ok in E as (H1 & H2 & H3 & H4 & _). apply IH. split.
  - intros Hin. destruct (H3 start Hin) as [?|[? _]]; done.
  - intros k Hk. assert (k = start ∨ k ∈ seen ∨ k ∈ stack'.*1) as [Hk'|[Hk'|Hk']] by (destruct Hk as [?|Hk]; [auto|]; destruct (H3 k Hk) as [?|[_ ?]]; auto).
    3: by left.
    1,2: destruct (Hc k ltac:(auto)) as [Hin|Hout];
      [|right; intros m Hm; destruct (Hout m Hm); split; [done|by apply H2]];
      apply list_elem_of_fmap in Hin as ([k' p] & -> & [[= -> ->]|Hin]%elem_of_cons);
      [right; intros m Hm; by apply H1|left; apply list_elem_of_fmap; exists (k', p); split; [done|by apply H4]].
Qed.

Lemma search_Err fuel seen stack chain :
  (∀ n p, (n, p) ∈ stack → path_to p n) → search fuel g start seen stack = Some (Err chain) →
  ∃ l, chain = start :: l ++ [start] ∧ chained start (l ++ [start]).
Proof.
  revert seen stack. induction fuel as [|fuel IH]; intros seen stack Hst; destruct stack as [|[n path] stack]; simpl; try done.
  pose proof (Hst n path ltac:(by left)) as Hp.
  destruct (visit _ _ _ _ _) as [[seen' stack']|chain'] eqn:E.
  - apply visit_Ok in E as (_ & _ & _ & _ & H5). apply IH. intros m p Hm. destruct (H5 m p Hm) as [Hin|[Hin ->]].
    + apply Hst. by right.
    + by eapply path_to_snoc.
  - intros [= <-]. apply visit_Err in E as [Hin ->]. destruct (path_to_snoc _ _ _ Hp Hin) as (l & El & Hch & Hla).
    destruct Hp as (l0 & -> & _). simpl in El. injection El as <-. by exists l0.
Qed.
End search.

Lemma credential_search_spec (g : CredGraph) (start : CredNode) :
  match find_cycle g start with
  | Some (Ok _) => ¬ tc (leads g) start start
  | Some (Err chain) => ∃ l, chain = start :: l ++ [start] ∧ chained g start (l ++ [start])
  | None => False
  end.
Proof.
  unfold find_cycle. destruct (search _ _ _ _ _) as [[[]|chain]|] eqn:E.
  - apply search_Ok in E as (seen & Hs & Hc).
    + assert (∀ n m, tc (leads g) n m → (n = start ∨ n ∈ seen) → m ≠ start ∧ m ∈ seen) as Htc.
      { induction 1 as [n m Hm|n k m Hk _ IH]; intros Hn; [by eapply Hc|]. apply IH. right. by eapply Hc. }
      intros Hbad. destruct (Htc _ _ Hbad (or_introl eq_refl)). done.
    + split; [apply not_elem_of_nil|]. intros n [->|?%not_elem_of_nil]; [left; by left|done].
  - eapply search_Err; [|exact E]. intros n p [[= -> ->]|?%not_elem_of_nil]%elem_of_cons; [|done]. by exists [].
  - eapply search_ends; [|exact E]. unfold search_limit, unseen. simpl.
    apply le_n_S, length_filter.
Qed.

(** C22: Checking the credential graph is exact and always ends. The search from a node, which
    keeps a stack and the nodes it has seen, finds a path back to the node exactly when there is
    one in the graph, and the chain it then reports is such a path, edge by edge. *)
Theorem cycle_search_exact (g : CredGraph) (start : CredNode) :
  match find_cycle g start with
  | Some (Ok _) => ¬ tc (leads g) start start
  | Some (Err chain) => ∃ l, chain = start :: l ++ [start] ∧ chained g start (l ++ [start])
  | None => False
  end.
Proof. apply credential_search_spec. Qed.

(** ** The references of the catalog *)

Definition has_store (d : Db) (s : string) : Prop := s ∈ ss_id <$> db_secret_stores d.
Definition has_account (d : Db) (a : string) : Prop := a ∈ cc_id <$> db_cloud_accounts d.

(** An account that stores may read through. *)
Definition reading_account (d : Db) (a : string) : Prop :=
  ∃ r, r ∈ db_cloud_accounts d ∧ cc_id r = a ∧ cc_type r ≠ "aws-identity".

(** Which credentials are needed for which: those of an account for its stores, and of a store
    for its account. *)
Definition cred_edge (d : Db) (a b : CredNode) : Prop :=
  match a with
  | NAccount id => ∃ r, r ∈ db_cloud_accounts d ∧ cc_id r = id ∧ b ∈ account_edges (cc_secret_refs r)
  | NStore id => ∃ s, s ∈ db_secret_stores d ∧ ss_id s = id ∧ b ∈ store_edges (ss_config s)
  end.

Definition driver_there (d : Db) (id ty : string) : Prop :=
  is_builtin_driver id = true ∨ ∃ v, v ∈ db_drivers d ∧ dv_id v = id ∧ driver_covers (dv_body v) ty = true.

(** An account that is named literally. *)
Definition account_there (d : Db) (account : option string) : Prop :=
  ∀ a t, account = Some a → template_parse a = Ok t → template_is_literal t = true → has_account d a.

Definition provision_there (d : Db) (provision : list (string * Provision)) : Prop :=
  ∀ k, k ∈ bt_keys provision → ∃ x, ResourceRef_parse k = Ok x ∧ type_exists d (rr_ty x) = true.

Definition stores_there (d : Db) (refs : jmap) : Prop := ∀ s, s ∈ referenced_stores refs → has_store d s.

(** References are objects, as the server writes them, so none of them is a text named [ref]. *)
Definition refs_shaped (refs : jmap) : Prop := ∀ s, im_get "ref" refs ≠ Some (Str s).

Definition definition_ok (d : Db) (r : DefinitionRow) : Prop :=
  type_exists d (df_type r) = true ∧ driver_there d (df_driver_type r) (df_type r) ∧ account_there d (df_driver_account r)
  ∧ refs_shaped (di_secret_refs (df_driver_inputs r)) ∧ stores_there d (di_secret_refs (df_driver_inputs r))
  ∧ provision_there d (df_provision r).

(** A stored reference, to a store that is there. *)
Definition reference_there (d : Db) (v : Value) : Prop := ∃ x, v = secret_ref_to_value x ∧ has_store d (sr_store x).

Record catalog_ok (d : Db) : Prop := {
  ck_accounts : NoDup (cc_id <$> db_cloud_accounts d);
  ck_stores : NoDup (ss_id <$> db_secret_stores d);
  ck_definitions : NoDup (df_id <$> db_definitions d);
  ck_acyclic : ∀ n, ¬ tc (cred_edge d) n n;
  ck_store_account : ∀ s a, s ∈ db_secret_stores d → im_get "cloud_account" (ss_config s) = Some (Str a) → reading_account d a;
  ck_account_store : ∀ r x, r ∈ db_cloud_accounts d → x ∈ bt_values (cc_secret_refs r) → has_store d (sr_store x);
  ck_definition : ∀ r, r ∈ db_definitions d → definition_ok d r;
  ck_criterion : ∀ c k, c ∈ db_criteria d → ct_class c = Some k →
    ∃ r, r ∈ db_definitions d ∧ df_id r = ct_definition c ∧ class_exists d (df_type r) k = true;
  ck_class : ∀ r, r ∈ db_resource_classes d → type_exists d (kl_type r) = true;
  ck_driver : ∀ r, r ∈ db_drivers d → dv_id r = dr_id (dv_body r) ∧ ∀ t, dr_token (dv_body r) = Some t → has_store d (sr_store t);
  ck_value : ∀ r v, r ∈ db_app_values d → av_secret_ref r = Some v → reference_there d v;
  ck_version : ∀ r, r ∈ db_value_set_versions d →
    ∃ m, vv_content r = Obj m ∧ ∀ k e v, (k, e) ∈ m → json_get "secret_ref" e = Some v → reference_there d v;
  ck_grant : ∀ g, g ∈ db_secret_grants d → has_store d (sg_store g)
}.

(** ** The graph of the tables *)

Lemma foldl_insert_get {A} (key : A → CredNode) (val : A → list CredNode) l g0 n :
  NoDup (key <$> l) →
  (∀ x, x ∈ l → key x = n → bt_get n (foldl (λ g x, bt_insert (key x) (val x) g) g0 l) = Some (val x))
  ∧ (n ∉ key <$> l → bt_get n (foldl (λ g x, bt_insert (key x) (val x) g) g0 l) = bt_get n g0).
Proof.
  revert g0. induction l as [|y l IH]; intros g0; simpl; [intros _; split; [by intros x ?%not_elem_of_nil|done]|].
  intros [Hy Hnd]%NoDup_cons. destruct (IH (bt_insert (key y) (val y) g0) Hnd) as [H1 H2]. split.
  - intros x [->|Hx]%elem_of_cons Hk; [|by apply H1]. rewrite H2 by (by rewrite <-Hk). subst n. apply bt_get_insert_eq.
  - intros [Hn Hl]%not_elem_of_cons. rewrite H2 by done. by apply bt_get_insert_ne.
Qed.

Lemma foldl_insert_None {A} (key : A → CredNode) (val : A → list CredNode) l g0 n :
  n ∉ key <$> l → bt_get n (foldl (λ g x, bt_insert (key x) (val x) g) g0 l) = bt_get n g0.
Proof.
  revert g0. induction l as [|y l IH]; intros g0; simpl; [done|]. intros [Hn Hl]%not_elem_of_cons.
  rewrite IH by done. by apply bt_get_insert_ne.
Qed.

Lemma graph_of_leads d :
  NoDup (cc_id <$> db_cloud_accounts d) → NoDup (ss_id <$> db_secret_stores d) → ∀ a b, leads (graph_of d) a b ↔ cred_edge d a b.
Proof.
  intros Ha Hs. assert (NoDup ((λ r, NAccount (cc_id r)) <$> db_cloud_accounts d)) as Ha'.
  { rewrite (list_fmap_compose cc_id NAccount). apply NoDup_fmap; [by intros ?? [= ->]|done]. }
  assert (NoDup ((λ s, NStore (ss_id s)) <$> db_secret_stores d)) as Hs'.
  { rewrite (list_fmap_compose ss_id NStore). apply NoDup_fmap; [by intros ?? [= ->]|done]. }
  intros [id|id] b; unfold leads, successors, graph_of, cred_edge.
  - rewrite (foldl_insert_None (λ s, NStore (ss_id s)) (λ s, store_edges (ss_config s))) by (by intros (? & ? & ?)%list_elem_of_fmap).
    destruct (foldl_insert_get (λ r, NAccount (cc_id r)) (λ r, account_edges (cc_secret_refs r)) (db_cloud_accounts d) [] (NAccount id) Ha') as [H1 H2].
    split.
    + destruct (decide (NAccount id ∈ (λ r, NAccount (cc_id r)) <$> db_cloud_accounts d)) as [(r & Hr & Hin)%list_elem_of_fmap|Hn].
      * rewrite (H1 r Hin) by done. injection Hr as ->. by eauto.
      * rewrite (H2 Hn). by intros ?%not_elem_of_nil.
    + intros (r & Hin & <- & Hb). by rewrite (H1 r Hin).
  - destruct (foldl_insert_get (λ s, NStore (ss_id s)) (λ s, store_edges (ss_config s)) (db_secret_stores d)
      (foldl (λ g a, bt_insert (NAccount (cc_id a)) (account_edges (cc_secret_refs a)) g) [] (db_cloud_accounts d)) (NStore id) Hs') as [H1 H2].
    split.
    + destruct (decide (NStore id ∈ (λ s, NStore (ss_id s)) <$> db_secret_stores d)) as [(s & Hr & Hin)%list_elem_of_fmap|Hn].
      * rewrite (H1 s Hin) by done. injection Hr as ->. by eauto.
      * rewrite (H2 Hn), (foldl_insert_None (λ r, NAccount (cc_id r)) (λ r, account_edges (cc_secret_refs r)))
          by (by intros (? & ? & ?)%list_elem_of_fmap). by intros ?%not_elem_of_nil.
    + intros (s & Hin & <- & Hb). by rewrite (H1 s Hin).
Qed.

Lemma tc_mono {A} (R S : relation A) x y : (∀ a b, R a b → S a b) → tc R x y → tc S x y.
Proof. intros Hsub. induction 1 as [a b Hab|a b c Hab _ IH]; [by apply tc_once, Hsub|by eapply tc_l; [apply Hsub|]]. Qed.

(** A change of the edges of one node closes a cycle only through it. *)
Lemma acyclic_change {A} `{EqDecision A} (R R' : relation A) (node : A) :
  (∀ a b, R' a b → a ≠ node → R a b) → ¬ tc R' node node → (∀ n, ¬ tc R n n) → ∀ n, ¬ tc R' n n.
Proof.
  intros Hsame Hnode Hold n Hn.
  assert (∀ a b, tc R' a b → tc R a b ∨ (rtc R' a node ∧ tc R' node b)) as Hsplit.
  { induction 1 as [a b Hab|a k b Hak Hkb IH].
    - destruct (decide (a = node)) as [->|Ha]; [right; split; [apply rtc_refl|by apply tc_once]|left; by apply tc_once, Hsame].
    - destruct (decide (a = node)) as [->|Ha]; [right; split; [apply rtc_refl|by eapply tc_l]|].
      destruct IH as [IH|[Hk Hb]]; [left; eapply tc_l; [by apply Hsame|done]|]. right. split; [by eapply rtc_l|done]. }
  destruct (Hsplit n n Hn) as [Ho|[Hto Hfrom]]; [by eapply Hold|]. apply Hnode.
  eapply tc_rtc_r; [exact Hfrom|exact Hto].
Qed.

(** ** Checks *)

Lemma for_each_reads {A} (f : A → tx unit) l c u c' :
  (∀ x, reads (f x)) → for_each f l c = Ok (u, c') → ∀ x, x ∈ l → ∃ c1 v c2, c_db c1 = c_db c ∧ f x c1 = Ok (v, c2).
Proof.
  intros Hr. revert c. induction l as [|y l IH]; intros c; simpl; [by intros _ x ?%not_elem_of_nil|].
  intros (v & c1 & Hy & Hl)%bind_Ok x [->|Hx]%elem_of_cons; [by exists c, v, c1|].
  destruct (IH _ Hl x Hx) as (c2 & w & c3 & Ed & Hw). exists c2, w, c3. split; [|done]. by rewrite Ed, (Hr _ _ _ _ Hy).
Qed.

Lemma check_ref_store_reads s : reads (check_ref_store s).
Proof. unfold check_ref_store. tx_steps. Qed.
#[local] Hint Resolve check_ref_store_reads : tx.
Lemma check_ref_stores_reads refs : reads (check_ref_stores refs).
Proof. unfold check_ref_stores. tx_steps. Qed.
Lemma check_assigned_reads owner refs : reads (check_assigned owner refs).
Proof. unfold check_assigned, check_assigned_ref. tx_steps. Qed.
Lemma check_secret_use_reads app env r : reads (check_secret_use app env r).
Proof. unfold check_secret_use, check_ref_stores. tx_steps. Qed.
Lemma check_credential_graph_reads n edges : reads (check_credential_graph n edges).
Proof. unfold check_credential_graph. tx_steps. Qed.
Lemma account_row_reads id : reads (account_row id).
Proof. unfold account_row. tx_steps. Qed.
Lemma unused_reads users message : reads (unused users message).
Proof. unfold unused. tx_steps. Qed.
Lemma store_row_reads id : reads (store_row id).
Proof. unfold store_row. tx_steps. Qed.
Lemma check_no_open_operations_reads id : reads (check_no_open_operations id).
Proof. unfold check_no_open_operations, unused. tx_steps. Qed.
#[local] Hint Resolve check_ref_stores_reads check_assigned_reads check_secret_use_reads check_credential_graph_reads
  account_row_reads unused_reads store_row_reads check_no_open_operations_reads : tx.
Lemma check_account_in_reads a create : reads (check_account_in a create).
Proof. unfold check_account_in. tx_steps. Qed.
Lemma check_store_config_reads id config : reads (check_store_config id config).
Proof. unfold check_store_config. tx_steps. Qed.
Lemma check_secret_stores_reads owner refs : reads (check_secret_stores owner refs).
Proof. unfold check_secret_stores. tx_steps. Qed.
#[local] Hint Resolve check_account_in_reads check_store_config_reads check_secret_stores_reads : tx.
Lemma cookie_version_kept_reads s r : reads (cookie_version_kept s r).
Proof. unfold cookie_version_kept. tx_steps. Qed.
#[local] Hint Resolve cookie_version_kept_reads : tx.
Lemma check_replace_reads r b s : reads (check_replace r b s).
Proof. unfold check_replace. tx_steps. Qed.
#[local] Hint Resolve check_replace_reads : tx.
Lemma check_driver_record_reads r change : reads (check_driver_record r change).
Proof. unfold check_driver_record. tx_steps. Qed.
Lemma check_definition_account_reads a : reads (check_definition_account a).
Proof. unfold check_definition_account. tx_steps. Qed.
#[local] Hint Resolve check_driver_record_reads check_definition_account_reads : tx.
Lemma check_definition_driver_reads ty v : reads (check_definition_driver ty v).
Proof. unfold check_definition_driver. tx_steps. Qed.
#[local] Hint Resolve check_definition_driver_reads : tx.
Lemma check_driver_and_account_reads ty driver account : reads (check_driver_and_account ty driver account).
Proof. unfold check_driver_and_account, check_definition_driver. tx_steps. Qed.
Lemma check_provision_key_reads k : reads (check_provision_key k).
Proof. unfold check_provision_key. tx_steps. Qed.
#[local] Hint Resolve check_driver_and_account_reads check_provision_key_reads : tx.
Lemma check_provision_reads p : reads (check_provision p).
Proof. unfold check_provision. tx_steps. Qed.
Lemma check_criterion_reads ty c l : reads (check_criterion ty c l).
Proof. unfold check_criterion. tx_steps. Qed.
#[local] Hint Resolve check_provision_reads check_criterion_reads : tx.
Lemma check_criteria_reads ty l k : reads (check_criteria ty l k).
Proof. revert l. induction k as [|c k IH]; intros l; simpl; tx_steps. Qed.
Lemma definition_exists_reads id : reads (definition_exists id).
Proof. unfold definition_exists. tx_steps. Qed.
#[local] Hint Resolve check_criteria_reads definition_exists_reads : tx.
Lemma check_definition_refs_reads def : reads (check_definition_refs def).
Proof. unfold check_definition_refs. tx_steps. Qed.
Lemma check_grant_scope_reads g : reads (check_grant_scope g).
Proof. unfold check_grant_scope. tx_steps. Qed.
Lemma scope_values_reads `{Libraries} app env : reads (scope_values app env).
Proof. unfold scope_values. tx_steps. Qed.
Lemma value_row_reads `{Libraries} app env key : reads (value_row app env key).
Proof. unfold value_row. tx_steps. Qed.
#[local] Hint Resolve scope_values_reads value_row_reads : tx.
Lemma check_scope_reads app env : reads (check_scope app env).
Proof. unfold check_scope. tx_steps. Qed.
#[local] Hint Resolve check_definition_refs_reads check_grant_scope_reads check_scope_reads : tx.

(** What a check that succeeded found. *)

Lemma select_one_key {A} (p : A → bool) (key : A → string) id t :
  (∀ r, p r = String.eqb (key r) id) → is_some (select_one p t) = true → id ∈ key <$> t.
Proof.
  intros Hp Hs. destruct (select_one p t) as [r|] eqn:E; [|done]. apply select_one_Some in E as [Hin Hr].
  rewrite Hp in Hr. apply String.eqb_eq in Hr. subst id. by apply list_elem_of_fmap_2.
Qed.

Lemma check_ref_stores_Ok refs c u c' : check_ref_stores refs c = Ok (u, c') → stores_there (c_db c) refs.
Proof.
  intros Hx s Hs. unfold check_ref_stores in Hx.
  destruct (for_each_reads _ _ _ _ _ check_ref_store_reads Hx s) as (c1 & v & c2 & <- & H1); [by apply elem_of_bs_of_list|].
  unfold check_ref_store in H1. inv_tx H1. by eapply (select_one_key (is_secret_store s)).
Qed.

Lemma check_credential_graph_Ok node edges c u c' :
  check_credential_graph node edges c = Ok (u, c') → ¬ tc (leads (bt_insert node edges (graph_of (c_db c)))) node node.
Proof.
  intros Hx. unfold check_credential_graph in Hx. inv_tx Hx.
  match type of Hx with context [find_cycle ?g ?n] => pose proof (credential_search_spec g n) as Hc; destruct (find_cycle g n) as [[[]|chain]|] end;
    [done|by inv_tx Hx|done].
Qed.

(** The stores of references that are kept as such. *)
Lemma value_stores_ref r : value_stores (secret_ref_to_value r) = [sr_store r].
Proof. done. Qed.
Lemma referenced_stores_refs refs : referenced_stores (refs_to_value refs) = sr_store <$> bt_values refs.
Proof.
  unfold referenced_stores, refs_to_value, bt_values. induction refs as [|[k r] refs IH]; [done|]. cbn [fmap list_fmap mjoin list_join].
  cbn -[value_stores]. rewrite value_stores_ref. simpl. f_equal. exact IH.
Qed.

(** ** Credentials stay acyclic *)

Lemma acyclic_kept d d' node edges :
  catalog_ok d →
  (∀ a b, cred_edge d' a b → (a = node ∧ b ∈ edges) ∨ (a ≠ node ∧ cred_edge d a b)) →
  ¬ tc (leads (bt_insert node edges (graph_of d))) node node → ∀ n, ¬ tc (cred_edge d') n n.
Proof.
  intros Hok Hedge Hnode. apply (acyclic_change (cred_edge d) _ node).
  - intros a b Hab Ha. destruct (Hedge a b Hab) as [[-> _]|[_ ?]]; done.
  - intros Hc. apply Hnode. eapply tc_mono, Hc. intros a b Hab. unfold leads, successors.
    destruct (Hedge a b Hab) as [[-> Hb]|[Ha Hb]]; [by rewrite bt_get_insert_eq|].
    rewrite bt_get_insert_ne by done. by apply (graph_of_leads d); [apply Hok..|].
  - apply Hok.
Qed.

Lemma acyclic_shrinks d d' : catalog_ok d → (∀ a b, cred_edge d' a b → cred_edge d a b) → ∀ n, ¬ tc (cred_edge d') n n.
Proof. intros Hok Hsub n Hn. apply (ck_acyclic d Hok n). by eapply tc_mono. Qed.

(** ** Operations on accounts, stores and grants *)

(** Goals about tables that did not change. *)
Ltac same_tables Hok := first [exact (ck_accounts _ Hok) | exact (ck_stores _ Hok) | exact (ck_definitions _ Hok) | exact (ck_acyclic _ Hok)
  | exact (ck_store_account _ Hok) | exact (ck_account_store _ Hok) | exact (ck_definition _ Hok) | exact (ck_criterion _ Hok)
  | exact (ck_class _ Hok) | exact (ck_driver _ Hok) | exact (ck_value _ Hok) | exact (ck_version _ Hok) | exact (ck_grant _ Hok) | idtac].

Section operations.
Context `{System} `{Libraries} (org : string).

(** The database after steps that only read is the one before. *)
Ltac reads_step Hx :=
  lazymatch type of Hx with
  | ?m ?c = Ok (?a, ?c') =>
      let E := fresh "E" in
      assert (c_db c = c_db c') as E by
        (let Hr := fresh in assert (reads m) as Hr by (solve [eauto with tx|tx_steps]); exact (Hr _ _ _ Hx));
      let d' := fresh "d" in destruct c' as [d' ?]; simpl in E; subst d'
  end.
Ltac settles :=
  repeat match goal with
  | Hx : _ (mk_Conn _ _) = Ok (_, ?c) |- _ => is_var c; reads_step Hx
  end.

(** What the checks found. *)
Ltac facts :=
  repeat match goal with
  | Hx : check_ref_stores _ _ = Ok _ |- _ => apply check_ref_stores_Ok in Hx; simpl in Hx
  | Hx : check_credential_graph _ _ _ = Ok _ |- _ => apply check_credential_graph_Ok in Hx; simpl in Hx
  end.

Lemma check_account_in_Ok a create c u c' :
  check_account_in a create c = Ok (u, c') →
  (∀ x, x ∈ bt_values (ca_secret_refs a) → has_store (c_db c) (sr_store x))
  ∧ ¬ tc (leads (bt_insert (NAccount (ca_id a)) (account_edges (ca_secret_refs a)) (graph_of (c_db c)))) (NAccount (ca_id a)) (NAccount (ca_id a)).
Proof.
  destruct c as [d n]. intros Hx. unfold check_account_in in Hx. inv_tx Hx. settles. facts. split; [|done].
  intros x Hin. match goal with Hs : stores_there _ _ |- _ => apply Hs end.
  rewrite referenced_stores_refs. by apply list_elem_of_fmap_2.
Qed.

Lemma definition_ok_grows d d' r :
  (∀ t, type_exists d t = true → type_exists d' t = true) →
  (∀ v ty, driver_there d v ty → driver_there d' v ty) → (∀ a, has_account d a → has_account d' a) →
  (∀ s, has_store d s → has_store d' s) → definition_ok d r → definition_ok d' r.
Proof.
  intros Ht Hd Ha Hs (H1 & H2 & H3 & H4 & H5 & H6). split_and!; auto.
  - intros a t E1 E2 E3. apply Ha. by eapply H3.
  - intros s Hin. by apply Hs, H5.
  - intros k Hk. destruct (H6 k Hk) as (x & Hx & Hty). exists x. auto.
Qed.

(** The rows of a table after a change by key. *)
Lemma update_ids {A} (key : A → string) (p : A → bool) (f : A → A) t : (∀ r, key (f r) = key r) → key <$> update p f t = key <$> t.
Proof. apply update_column. Qed.

Lemma existsb_update {A} (p q : A → bool) (f : A → A) t : (∀ r, p (f r) = p r) → existsb p (update q f t) = existsb p t.
Proof.
  intros Hf. unfold update. induction t as [|r t IH]; csimpl; [done|]. rewrite IH. f_equal. destruct (q r); [apply Hf|done].
Qed.

Lemma create_account_ok o a audit d n u c' :
  catalog_ok d → create_account org o a audit (mk_Conn d n) = Ok (u, c') → catalog_ok (c_db c').
Proof.
  intros Hok Hx. unfold create_account in Hx. inv_tx Hx. settles.
  match goal with Hc : check_account_in _ _ _ = Ok _ |- _ => apply check_account_in_Ok in Hc as [Hst Hcy]; simpl in Hst, Hcy end.
  assert (∀ r, r ∈ db_cloud_accounts d → cc_id r ≠ ca_id a) as Hnew.
  { intros r Hr E. apply negb_true_iff in Huniq. rewrite existsb_false in Huniq. specialize (Huniq r Hr). unfold is_account in Huniq.
    by rewrite E, String.eqb_refl in Huniq. }
  split; simpl; same_tables Hok.
  - apply insert_column_NoDup; [apply Hok|]. intros r Hr. by apply Hnew.
  - eapply acyclic_kept; [exact Hok| |exact Hcy]. intros [id|id] b; [|intros Hs; right; split; [done|exact Hs]].
    intros (r & [Hr|Hr]%elem_of_app & <- & Hb).
    + right. split; [intros [= E]; by apply (Hnew r Hr)|]. exists r. auto.
    + apply list_elem_of_singleton in Hr as ->. by left.
  - intros st x Hs Hcfg. destruct (ck_store_account _ Hok st x Hs Hcfg) as (r & Hr & ?). exists r. split; [apply elem_of_app; by left|done].
  - intros r x [Hr|Hr]%elem_of_app Hin; [by eapply Hok|]. apply list_elem_of_singleton in Hr as ->. by apply Hst.
  - intros r Hr. eapply definition_ok_grows; [..|by apply Hok]; try done.
    intros x Hin. unfold has_account. simpl. rewrite fmap_app. apply elem_of_app. by left.
Qed.

Lemma update_account_ok o a audit d n u c' :
  catalog_ok d → update_account org o a audit (mk_Conn d n) = Ok (u, c') → catalog_ok (c_db c').
Proof.
  intros Hok Hx. unfold update_account in Hx. inv_tx Hx. settles.
  match goal with Hc : check_account_in _ _ _ = Ok _ |- _ => apply check_account_in_Ok in Hc as [Hst Hcy]; simpl in Hst, Hcy end.
  split; simpl; same_tables Hok.
  - rewrite update_ids by done. apply Hok.
  - eapply acyclic_kept; [exact Hok| |exact Hcy]. intros [id|id] b; [|intros Hs; right; split; [done|exact Hs]].
    simpl. intros (r & (r0 & Hr0 & ->)%elem_of_update & <- & Hb). unfold is_account in *. destruct (String.eqb (cc_id r0) (ca_id a)) eqn:E.
    + apply String.eqb_eq in E. left. simpl. by rewrite E.
    + right. split; [intros [= E']; by rewrite E', String.eqb_refl in E|]. exists r0. auto.
  - intros st x Hs Hcfg. destruct (ck_store_account _ Hok st x Hs Hcfg) as (r & Hr & E1 & E2).
    exists (if is_account (ca_id a) r then mk_AccountRow (cc_id r) (ca_name a) (cc_type r) (ca_config a) (ca_secret_refs a) (cc_created_at r) (cc_created_by r) else r).
    split; [apply elem_of_update; by exists r|]. by destruct (is_account _ r).
  - intros r x (r0 & Hr0 & ->)%elem_of_update Hin. destruct (is_account _ r0); [by apply Hst|by eapply (ck_account_store _ Hok r0)].
  - intros r Hr. eapply definition_ok_grows; [..|by apply Hok]; try done.
    intros x Hin. unfold has_account. simpl. by rewrite update_ids.
Qed.

(** Lists of users that are empty. *)
Lemma take_five {A} (l : list A) : take 5 l = [] → l = [].
Proof. by destruct l. Qed.

Lemma select_nil {A} (p : A → bool) t : select p t = [] → ∀ r, r ∈ t → p r = false.
Proof.
  intros E r Hr. destruct (p r) eqn:Ep; [|done]. assert (r ∈ select p t) as Hin by (by apply elem_of_select). rewrite E in Hin.
  by apply not_elem_of_nil in Hin.
Qed.

Lemma sort_nil {A B} `{Ord B} (key : A → B) l : sort_by_key key l = [] → l = [].
Proof. intros E. pose proof (sort_by_key_perm key l) as Hp. rewrite E in Hp. by apply Permutation_nil in Hp. Qed.

Lemma sorted_users {A} (key : A → string) (p : A → bool) t :
  take 5 (sort_by_key id (key <$> select p t)) = [] → ∀ r, r ∈ t → p r = false.
Proof. intros E%take_five%sort_nil%fmap_nil_inv. by apply select_nil. Qed.

Lemma set_users {A} (key : A → string) (p : A → bool) t :
  take 5 (bs_of_list (key <$> select p t)) = [] → ∀ r, r ∈ t → p r = false.
Proof.
  intros E%take_five r Hr. destruct (p r) eqn:Ep; [|done]. assert (key r ∈ bs_of_list (key <$> select p t)) as Hin.
  { apply elem_of_bs_of_list, list_elem_of_fmap_2. by apply elem_of_select. }
  rewrite E in Hin. by apply not_elem_of_nil in Hin.
Qed.

Lemma unused_Ok users message c u c' : unused users message c = Ok (u, c') → users = [].
Proof. intros Hx. unfold unused in Hx. inv_tx Hx. by destruct users. Qed.

Lemma delete_account_ok o id audit d n u c' :
  catalog_ok d → delete_account org o id audit (mk_Conn d n) = Ok (u, c') → catalog_ok (c_db c').
Proof.
  intros Hok Hx. unfold delete_account in Hx. inv_tx Hx.
  repeat match goal with Hu : unused _ _ _ = Ok _ |- _ => let E := fresh "E" in pose proof (unused_Ok _ _ _ _ _ Hu) as E; revert Hu end.
  intros. settles. clear E.
  pose proof (sorted_users _ _ _ E0) as Hstores. pose proof (sorted_users _ _ _ E1) as Hdefs.
  assert (∀ a, a ≠ id → has_account d a → a ∈ cc_id <$> delete_rows (is_account id) (db_cloud_accounts d)) as Hkept.
  { intros ac Ha Hin. by apply (not_deleted cc_id id). }
  split; simpl; same_tables Hok.
  - by apply delete_column_NoDup, Hok.
  - eapply acyclic_shrinks; [exact Hok|]. intros [x|x] b; [|done]. simpl. intros (r & [Hr _]%elem_of_delete & E). by exists r.
  - intros st ac Hs Hcfg. destruct (ck_store_account _ Hok st ac Hs Hcfg) as (r & Hr & <- & Hty). exists r. split_and!; [|done|done].
    apply elem_of_delete. split; [done|]. specialize (Hstores st Hs). simpl in Hstores. by rewrite Hcfg in Hstores.
  - intros r x [Hr _]%elem_of_delete Hin. by eapply (ck_account_store _ Hok r).
  - intros r Hr. destruct (ck_definition _ Hok r Hr) as (D1 & D2 & D3 & D4 & D5 & D6). split_and!; try done.
    intros ac t Ea Et El. apply Hkept; [|by eapply D3]. intros ->. specialize (Hdefs r Hr). simpl in Hdefs. rewrite Ea in Hdefs. simpl in Hdefs.
    by rewrite String.eqb_refl in Hdefs.
Qed.

(** ** Stores *)

(** What refers to a store. *)
Inductive store_used (d : Db) : string → Prop :=
| used_account r x : r ∈ db_cloud_accounts d → x ∈ bt_values (cc_secret_refs r) → store_used d (sr_store x)
| used_definition r st : r ∈ db_definitions d → st ∈ referenced_stores (di_secret_refs (df_driver_inputs r)) → store_used d st
| used_driver r t : r ∈ db_drivers d → dr_token (dv_body r) = Some t → store_used d (sr_store t)
| used_value r x : r ∈ db_app_values d → av_secret_ref r = Some (secret_ref_to_value x) → store_used d (sr_store x)
| used_version r m k e x : r ∈ db_value_set_versions d → vv_content r = Obj m → (k, e) ∈ m →
    json_get "secret_ref" e = Some (secret_ref_to_value x) → store_used d (sr_store x)
| used_grant g : g ∈ db_secret_grants d → store_used d (sg_store g).
#[local] Hint Constructors store_used : core.

Lemma store_used_there d st : catalog_ok d → store_used d st → has_store d st.
Proof.
  intros Hok [r x ??|r x ??|r x ??|r x Hr E|r m k e x Hr Em Hin E|g ?].
  - by eapply Hok.
  - by eapply (ck_definition _ Hok).
  - by eapply (ck_driver _ Hok).
  - destruct (ck_value _ Hok _ _ Hr E) as (y & Ey & ?). injection Ey. congruence.
  - destruct (ck_version _ Hok _ Hr) as (m' & Em' & Hm). rewrite Em in Em'. injection Em' as <-. destruct (Hm _ _ _ Hin E) as (y & Ey & ?). injection Ey. congruence.
  - by apply (ck_grant _ Hok).
Qed.

(** A change of the stores that keeps those in use. *)
Lemma stores_change d d' :
  catalog_ok d →
  (db_cloud_accounts d', db_definitions d', db_drivers d', db_app_values d', db_value_set_versions d', db_secret_grants d')
    = (db_cloud_accounts d, db_definitions d, db_drivers d, db_app_values d, db_value_set_versions d, db_secret_grants d) →
  (db_criteria d', db_resource_classes d', db_resource_types d') = (db_criteria d, db_resource_classes d, db_resource_types d) →
  (∀ st, store_used d st → has_store d' st) → NoDup (ss_id <$> db_secret_stores d') → (∀ n, ¬ tc (cred_edge d') n n) →
  (∀ s a, s ∈ db_secret_stores d' → im_get "cloud_account" (ss_config s) = Some (Str a) → reading_account d a) → catalog_ok d'.
Proof.
  intros Hok [= Ea Ed Ev Eav Evv Eg] [= Ec Ek Et] Hused Hnd Hac Hacc.
  assert (∀ t, type_exists d' t = type_exists d t) as Hty by (intros t; unfold type_exists; by rewrite Et).
  assert (∀ t k, class_exists d' t k = class_exists d t k) as Hcl by (intros t k; unfold class_exists; by rewrite Ek).
  split.
  - rewrite Ea. apply Hok.
  - done.
  - rewrite Ed. apply Hok.
  - done.
  - intros s a Hs Hcfg. destruct (Hacc s a Hs Hcfg) as (r & Hr). exists r. by rewrite Ea.
  - intros r x. rewrite Ea. eauto.
  - intros r Hr. rewrite Ed in Hr. destruct (ck_definition _ Hok r Hr) as (H1 & H2 & H3 & H4 & H5 & H6). split_and!; try done.
    + by rewrite Hty.
    + unfold driver_there. by rewrite Ev.
    + intros a t. unfold has_account. rewrite Ea. apply H3.
    + intros st Hst. eauto.
    + intros k Hk. destruct (H6 k Hk) as (x & Ex & Hx). exists x. by rewrite Hty.
  - intros c k. rewrite Ec, Ed. intros Hc Hk. destruct (ck_criterion _ Hok c k Hc Hk) as (r & Hr). exists r. by rewrite Hcl.
  - intros r. rewrite Ek, Hty. apply Hok.
  - intros r Hr. rewrite Ev in Hr. destruct (ck_driver _ Hok r Hr) as [H1 H2]. split; [done|]. eauto.
  - intros r v. rewrite Eav. intros Hr Hv. destruct (ck_value _ Hok r v Hr Hv) as (x & -> & _). exists x. eauto.
  - intros r. rewrite Evv. intros Hr. destruct (ck_version _ Hok r Hr) as (m & Em & Hm). exists m. split; [done|].
    intros k e v Hin Ev'. destruct (Hm k e v Hin Ev') as (x & -> & _). exists x. eauto.
  - intros g. rewrite Eg. eauto.
Qed.

Lemma account_from_row_Ok r a : account_from_row r = Ok a → type_name (ca_ty (acr_account a)) = cc_type r.
Proof.
  unfold account_from_row, parse_type. destruct (map_err _ _) as [i|]; [simpl|done].
  repeat (destruct (String.eqb (cc_type r) _) eqn:E; [intros [= <-]; simpl; symmetry; by apply String.eqb_eq|clear E]). done.
Qed.

Lemma check_store_config_Ok id config d n u c' :
  check_store_config id config (mk_Conn d n) = Ok (u, c') →
  (∀ a, im_get "cloud_account" config = Some (Str a) → reading_account d a)
  ∧ ¬ tc (leads (bt_insert (NStore id) (store_edges config) (graph_of d))) (NStore id) (NStore id).
Proof.
  intros Hx. unfold check_store_config in Hx. inv_tx Hx.
  reads_step H1. facts. split; [|done].
  intros a' Ea. rewrite Ea in H1. unfold account_row in H1. inv_tx H1.
  destruct (select_one _ _) as [r|] eqn:Es; inv_tx H2; inv_tx H1. apply select_one_Some in Es as [Hin Hid].
  exists r. split_and!; [done|by apply String.eqb_eq|]. rewrite <-(account_from_row_Ok _ _ Hl).
  by destruct (ca_ty _).
Qed.

Lemma new_key {A} (key : A → string) (p : A → bool) id t :
  (∀ r, p r = String.eqb (key r) id) → negb (existsb p t) = true → ∀ r, r ∈ t → key r ≠ id.
Proof.
  intros Hp Hn r Hr E. apply negb_true_iff in Hn. rewrite existsb_false in Hn. specialize (Hn r Hr).
  by rewrite Hp, E, String.eqb_refl in Hn.
Qed.

Lemma create_secret_store_ok o s audit d n u c' :
  catalog_ok d → create_secret_store org o s audit (mk_Conn d n) = Ok (u, c') → catalog_ok (c_db c').
Proof.
  intros Hok Hx. unfold create_secret_store in Hx. inv_tx Hx. settles.
  match goal with Hc : check_store_config _ _ _ = Ok _ |- _ => apply check_store_config_Ok in Hc as [Hacc Hcy] end.
  pose proof (new_key ss_id (is_secret_store (ssr_id s)) (ssr_id s) (db_secret_stores d) ltac:(done) Huniq) as Hnew.
  apply (stores_change d); try done; simpl.
  - intros st Hst. apply (store_used_there _ _ Hok) in Hst. unfold has_store. simpl. rewrite fmap_app. apply elem_of_app. by left.
  - apply insert_column_NoDup; [apply Hok|]. done.
  - eapply acyclic_kept; [exact Hok| |exact Hcy]. intros [x|x] b; [intros Hs; right; split; [done|exact Hs]|]. simpl.
    intros (r & [Hr|Hr]%elem_of_app & <- & Hb).
    + right. split; [intros [= E]; by apply (Hnew r Hr)|]. by exists r.
    + apply list_elem_of_singleton in Hr as ->. by left.
  - intros r ac [Hr|Hr]%elem_of_app Hcfg; [by eapply Hok|]. apply list_elem_of_singleton in Hr as ->. by apply Hacc.
Qed.

Lemma update_secret_store_ok o id config audit d n u c' :
  catalog_ok d → update_secret_store org o id config audit (mk_Conn d n) = Ok (u, c') → catalog_ok (c_db c').
Proof.
  intros Hok Hx. unfold update_secret_store in Hx. inv_tx Hx. settles.
  match goal with Hc : check_store_config _ _ _ = Ok _ |- _ => apply check_store_config_Ok in Hc as [Hacc Hcy] end.
  apply (stores_change d); try done; simpl.
  - intros st Hst. apply (store_used_there _ _ Hok) in Hst. unfold has_store. simpl. by rewrite update_ids.
  - rewrite update_ids by done. apply Hok.
  - eapply acyclic_kept; [exact Hok| |exact Hcy]. intros [x|x] b; [intros Hs; right; split; [done|exact Hs]|]. simpl.
    intros (r & (r0 & Hr0 & ->)%elem_of_update & <- & Hb). unfold is_secret_store in *. destruct (String.eqb (ss_id r0) id) eqn:E.
    + apply String.eqb_eq in E. left. simpl. by rewrite E.
    + right. split; [intros [= E']; by rewrite E', String.eqb_refl in E|]. by exists r0.
  - intros r ac (r0 & Hr0 & ->)%elem_of_update. destruct (is_secret_store id r0); [apply Hacc|by apply (ck_store_account _ Hok)].
Qed.

(** The references of an account are objects. *)
Lemma im_get_refs k refs : im_get k (refs_to_value refs) = secret_ref_to_value <$> im_get k refs.
Proof. unfold refs_to_value. induction refs as [|[k' r] refs IH]; [done|]. simpl. by destruct (String.eqb k k'). Qed.
Lemma pointed_account refs : pointed_stores (Some (Obj (refs_to_value refs))) = sr_store <$> bt_values refs.
Proof. unfold pointed_stores. rewrite im_get_refs, <-referenced_stores_refs. by destruct (im_get "ref" refs). Qed.

Lemma names_store_ref st x : names_store st (secret_ref_to_value x) = String.eqb (sr_store x) st.
Proof. done. Qed.

(** A store is deleted when none of the lists of its users has an entry. *)
Lemma referencing_none rows st k v : referencing_store rows st = [] → (k, v) ∈ rows → st ∉ pointed_stores v.
Proof.
  intros E%take_five%fmap_nil_inv Hin Hst. apply (not_elem_of_nil (k, v)). rewrite <-E.
  apply list_elem_of_filter. split; [done|]. by rewrite sort_by_key_perm.
Qed.

Lemma bs_of_list_nil {A} `{Ord A} (l : list A) : bs_of_list l = [] → l = [].
Proof.
  destruct l as [|x l]; [done|]. intros E. exfalso. apply (not_elem_of_nil x). rewrite <-E. apply elem_of_bs_of_list. by left.
Qed.

Lemma store_users_none d st : catalog_ok d → Forall (λ users, users.2 = []) (store_users st d) → ¬ store_used d st.
Proof.
  intros Hok Hnone Hused. unfold store_users in Hnone. rewrite !Forall_cons in Hnone. simpl in Hnone.
  destruct Hnone as (Hdef & Hacc & Hdrv & Hval & Hgr & _). apply take_five, bs_of_list_nil, app_nil in Hval as [Hv%fmap_nil_inv Hvv%fmap_nil_inv].
  destruct Hused as [r x Hr Hin|r x Hr Hin|r x Hr E|r x Hr E|r m k e x Hr Em Hin E|g Hg].
  - eapply referencing_none in Hacc; [|apply list_elem_of_fmap; by exists r]. apply Hacc. cbn -[pointed_stores].
    rewrite pointed_account. by apply list_elem_of_fmap_2.
  - eapply referencing_none in Hdef; [|apply list_elem_of_fmap; by exists r]. apply Hdef. simpl.
    destruct (ck_definition _ Hok r Hr) as (_ & _ & _ & Hsh & _). unfold refs_shaped in Hsh.
    destruct (im_get "ref" _) as [[]|]; try done. by destruct (Hsh s).
  - eapply referencing_none in Hdrv; [|apply list_elem_of_fmap; by exists r]. apply Hdrv. simpl. rewrite E. simpl. by left.
  - pose proof (select_nil _ _ Hv r Hr) as Hn. unfold value_names_store in Hn. rewrite E, names_store_ref in Hn. by rewrite String.eqb_refl in Hn.
  - pose proof (select_nil _ _ Hvv r Hr) as Hn. unfold version_names_store in Hn. rewrite Em in Hn. simpl in Hn.
    rewrite existsb_false in Hn. specialize (Hn (k, e) Hin). simpl in Hn. rewrite E, names_store_ref in Hn. by rewrite String.eqb_refl in Hn.
  - pose proof (sorted_users _ _ _ Hgr g Hg) as Hn. simpl in Hn. by rewrite String.eqb_refl in Hn.
Qed.

Lemma delete_secret_store_ok o id audit d n u c' :
  catalog_ok d → delete_secret_store org o id audit (mk_Conn d n) = Ok (u, c') → catalog_ok (c_db c').
Proof.
  intros Hok Hx. unfold delete_secret_store in Hx. inv_tx Hx. settles.
  assert (¬ store_used d id) as Hfree.
  { apply store_users_none; [done|]. clear -Hc1. unfold store_users in Hc1 |- *. simpl in Hc1. revert Hc1.
    repeat match goal with |- context [match ?l with [] => None | _ :: _ => _ end] => let E := fresh in destruct l eqn:E; [|done] end.
    intros _. repeat constructor; simpl; assumption. }
  apply (stores_change d); try done; simpl.
  - intros st Hst. apply (not_deleted ss_id id); [by apply store_used_there|]. by intros ->.
  - by apply delete_column_NoDup, Hok.
  - eapply acyclic_shrinks; [exact Hok|]. intros [x|x] b; [done|]. simpl. intros (r & [Hr _]%elem_of_delete & E). by exists r.
  - intros r ac [Hr _]%elem_of_delete. by apply (ck_store_account _ Hok).
Qed.

(** ** Grants *)

Lemma create_grant_ok o g audit d n u c' :
  catalog_ok d → create_grant org o g audit (mk_Conn d n) = Ok (u, c') → catalog_ok (c_db c').
Proof.
  intros Hok Hx. unfold create_grant in Hx. inv_tx Hx.
  match goal with Hs : store_row _ _ = Ok _ |- _ => unfold store_row in Hs; inv_tx Hs end. settles.
  split; simpl; same_tables Hok.
  intros r [Hin|Hin]%elem_of_app; [by apply (ck_grant _ Hok)|]. apply list_elem_of_singleton in Hin as ->. simpl.
  apply (select_one_key (is_secret_store (ng_store g))); [done|]. by destruct (select_one _ _).
Qed.

Lemma delete_grant_ok o st id audit d n u c' :
  catalog_ok d → delete_grant org o st id audit (mk_Conn d n) = Ok (u, c') → catalog_ok (c_db c').
Proof.
  intros Hok Hx. unfold delete_grant in Hx. inv_tx Hx. settles.
  split; simpl; same_tables Hok. intros r [Hr _]%elem_of_delete. by apply (ck_grant _ Hok).
Qed.

(** ** Types and classes *)

Lemma create_type_ok o t audit d n u c' :
  catalog_ok d → create_type org o t audit (mk_Conn d n) = Ok (u, c') → catalog_ok (c_db c').
Proof.
  intros Hok Hx. unfold create_type in Hx. inv_tx Hx. settles.
  match goal with |- catalog_ok ?d' => assert (∀ x, type_exists d x = true → type_exists d' x = true) as Hgrow end.
  { intros x. unfold type_exists. simpl. rewrite existsb_app. intros [->| ->]%orb_true_iff; simpl; by rewrite ?orb_true_r. }
  split; simpl; same_tables Hok.
  - intros r Hr. eapply definition_ok_grows; [..|by apply Hok]; done.
  - intros r Hr. apply Hgrow. by apply Hok.
Qed.

Lemma update_type_ok o t audit d n u c' :
  catalog_ok d → update_type org o t audit (mk_Conn d n) = Ok (u, c') → catalog_ok (c_db c').
Proof.
  intros Hok Hx. unfold update_type in Hx. inv_tx Hx. settles.
  match goal with |- catalog_ok ?d' => assert (∀ x, type_exists d' x = type_exists d x) as Hsame end.
  { intros x. unfold type_exists. simpl. by rewrite existsb_update. }
  split; simpl; same_tables Hok.
  - intros r Hin. eapply definition_ok_grows; [..|by apply Hok]; try done. intros x. by rewrite Hsame.
  - intros r Hin. rewrite Hsame. by apply Hok.
Qed.

Lemma definitions_provisioning_none ty d r k x :
  definitions_provisioning ty d = [] → r ∈ db_definitions d → k ∈ bt_keys (df_provision r) → ResourceRef_parse k = Ok x → rr_ty x ≠ ty.
Proof.
  intros E%take_five%fmap_nil_inv Hr Hk Hx <-. assert (r ∈ sort_by_key df_id (db_definitions d)) as Hs by (by rewrite sort_by_key_perm).
  pose proof (select_nil _ _ E r Hs) as Hn. unfold provisions_type in Hn. rewrite existsb_false in Hn. specialize (Hn k Hk).
  by rewrite Hx, String.eqb_refl in Hn.
Qed.

Lemma delete_type_ok o id audit d n u c' :
  catalog_ok d → delete_type org o id audit (mk_Conn d n) = Ok (u, c') → catalog_ok (c_db c').
Proof.
  intros Hok Hx. unfold delete_type in Hx. inv_tx Hx. settles.
  repeat match goal with Hu : unused _ _ _ = Ok _ |- _ => apply unused_Ok in Hu end.
  match goal with Hu : definitions_using _ _ = [] |- _ => pose proof (sorted_users _ _ _ Hu) as Htypes; simpl in Htypes end.
  match goal with |- catalog_ok ?d' => assert (∀ x, x ≠ id → type_exists d x = true → type_exists d' x = true) as Hkept;
    [|assert (∀ x k, x ≠ id → class_exists d x k = true → class_exists d' x k = true) as Hclass] end.
  - intros x Hne. unfold type_exists. simpl. intros [->|(r & Hin & Hr)%existsb_true]%orb_true_iff; [done|].
    apply orb_true_iff. right. apply existsb_true. exists r. split; [|done]. apply elem_of_delete. split; [done|].
    unfold is_type in *. apply String.eqb_eq in Hr as ->. by apply String.eqb_neq.
  - intros x k Hne. unfold class_exists. simpl. intros [->|(r & Hin & Hr)%existsb_true]%orb_true_iff; [done|].
    apply orb_true_iff. right. apply existsb_true. exists r. split; [|done]. apply elem_of_delete. split; [done|].
    unfold is_class in *. apply andb_true_iff in Hr as [->%String.eqb_eq _]. by apply String.eqb_neq.
  - assert (∀ r, r ∈ db_definitions d → df_type r ≠ id) as Hty by (intros r Hin; by apply String.eqb_neq, Htypes).
    split; simpl; same_tables Hok.
    + intros r Hin. destruct (ck_definition _ Hok r Hin) as (D1 & D2 & D3 & D4 & D5 & D6). split_and!; auto.
      intros k Hk. destruct (D6 k Hk) as (x & Ex & Htx). exists x. split; [done|]. apply Hkept; [|done].
      by eapply definitions_provisioning_none.
    + intros cr k Hin Hk. destruct (ck_criterion _ Hok cr k Hin Hk) as (r & Hr & E1 & E2). exists r. eauto 6.
    + intros r [Hin Hr]%elem_of_delete. apply Hkept; [by apply String.eqb_neq|]. by apply Hok.
Qed.

Lemma create_class_ok o k audit d n u c' :
  catalog_ok d → create_class org o k audit (mk_Conn d n) = Ok (u, c') → catalog_ok (c_db c').
Proof.
  intros Hok Hx. unfold create_class in Hx. inv_tx Hx. settles. split; simpl; same_tables Hok.
  - intros cr k' Hin Hk. destruct (ck_criterion _ Hok cr k' Hin Hk) as (r & Hr & E1 & E2). exists r. split_and!; [done..|].
    revert E2. unfold class_exists. simpl. rewrite existsb_app. intros [->| ->]%orb_true_iff; simpl; by rewrite ?orb_true_r.
  - intros r [Hin|Hin]%elem_of_app; [by apply Hok|]. apply list_elem_of_singleton in Hin as ->. done.
Qed.

Lemma delete_class_ok o ty id audit d n u c' :
  catalog_ok d → delete_class org o ty id audit (mk_Conn d n) = Ok (u, c') → catalog_ok (c_db c').
Proof.
  intros Hok Hx. unfold delete_class in Hx. inv_tx Hx. settles.
  match goal with Hu : unused _ _ _ = Ok _ |- _ => apply unused_Ok in Hu; pose proof (set_users _ _ _ Hu) as Hfree; simpl in Hfree end.
  split; simpl; same_tables Hok.
  - intros cr k Hin Hk. destruct (ck_criterion _ Hok cr k Hin Hk) as (r & Hr & E1 & E2). exists r. split_and!; [done..|].
    unfold class_exists in *. simpl. apply orb_true_iff in E2 as [->|(x & Hx1 & Hx2)%existsb_true]; [done|].
    apply orb_true_iff. right. apply existsb_true. exists x. split; [|done]. apply elem_of_delete. split; [done|].
    unfold is_class in *. apply andb_true_iff in Hx2 as [->%String.eqb_eq ->%String.eqb_eq].
    specialize (Hfree r Hr). apply andb_false_iff in Hfree as [->|Hfree]; [done|]. rewrite existsb_false in Hfree. specialize (Hfree cr Hin).
    rewrite E1, String.eqb_refl, Hk in Hfree. simpl in Hfree. rewrite Hfree. by rewrite andb_false_r.
  - intros r [Hin _]%elem_of_delete. by apply Hok.
Qed.

(** ** Drivers *)

Lemma check_driver_record_Ok r change d n u c' :
  check_driver_record r change (mk_Conn d n) = Ok (u, c') →
  (∀ t, dr_token r = Some t → has_store d (sr_store t))
  ∧ ∀ b, change = ChangeReplace b → ∀ def, def ∈ db_definitions d → df_driver_type def = dr_id r → driver_covers r (df_type def) = true.
Proof.
  intros Hx. unfold check_driver_record in Hx. inv_tx Hx.
  match goal with Hq : (match change with ChangeCreate => _ | ChangeReplace _ => _ end) _ = Ok _ |- _ => rename Hq into Hm end.
  pose proof Hm as Hm'. reads_step Hm'. split.
  - intros t Et. rewrite Et in Hx. unfold check_secret_stores in Hx. inv_tx Hx. facts.
    match goal with Hs : stores_there _ _ |- _ => apply Hs end. by left.
  - intros b -> def Hdef Eid. unfold check_replace in Hm. inv_tx Hm. settles.
    match goal with Hq : (match uncovered r _ with [] => true | _ :: _ => false end) = true |- _ => rename Hq into Hu end.
    simpl in Hu. destruct (uncovered r d) eqn:E; [|done]. apply take_five, fmap_nil_inv in E.
    apply negb_false_iff, (select_nil _ _ E def). rewrite sort_by_key_perm. apply elem_of_select. split; [done|]. by apply String.eqb_eq.
Qed.

Lemma create_driver_ok o r audit d n u c' :
  catalog_ok d → create_driver org o r audit (mk_Conn d n) = Ok (u, c') → catalog_ok (c_db c').
Proof.
  intros Hok Hx. unfold create_driver in Hx. inv_tx Hx. settles.
  match goal with Hc : check_driver_record _ _ _ = Ok _ |- _ => apply check_driver_record_Ok in Hc as [Htok _] end.
  split; simpl; same_tables Hok.
  - intros def Hin. eapply definition_ok_grows; [..|by apply Hok]; try done.
    intros v ty [?|(w & Hw & ?)]; [by left|]. right. exists w. split; [apply elem_of_app; by left|done].
  - intros w [Hin|Hin]%elem_of_app; [by apply (ck_driver _ Hok)|]. by apply list_elem_of_singleton in Hin as ->.
Qed.

Lemma replace_driver_ok o r b audit d n u c' :
  catalog_ok d → replace_driver org o r b audit (mk_Conn d n) = Ok (u, c') → catalog_ok (c_db c').
Proof.
  intros Hok Hx. unfold replace_driver in Hx. inv_tx Hx. settles.
  match goal with Hc : check_driver_record _ _ _ = Ok _ |- _ => apply check_driver_record_Ok in Hc as [Htok Hcov] end.
  split; simpl; same_tables Hok.
  - intros def Hin. destruct (ck_definition _ Hok def Hin) as (D1 & D2 & D3 & D4 & D5 & D6). split_and!; try done.
    destruct D2 as [?|(w & Hw & Ew & Hc')]; [by left|]. right. simpl. destruct (is_driver (dr_id r) w) eqn:E.
    + exists (mk_DriverRow (dv_id w) r (dv_created_at w) (dv_created_by w)). split_and!; [|done|].
      * apply elem_of_update. exists w. by rewrite E.
      * apply String.eqb_eq in E. apply (Hcov b eq_refl def Hin). congruence.
    + exists w. split_and!; [|done..]. apply elem_of_update. exists w. by rewrite E.
  - intros w (w0 & Hw & ->)%elem_of_update. destruct (is_driver (dr_id r) w0) eqn:E; [|by apply (ck_driver _ Hok)].
    split; [by apply String.eqb_eq in E|done].
Qed.

Lemma delete_driver_ok o id audit d n u c' :
  catalog_ok d → delete_driver org o id audit (mk_Conn d n) = Ok (u, c') → catalog_ok (c_db c').
Proof.
  intros Hok Hx. unfold delete_driver in Hx. inv_tx Hx. settles.
  repeat match goal with Hu : unused _ _ _ = Ok _ |- _ => apply unused_Ok in Hu end.
  match goal with Hu : definitions_using _ _ = [] |- _ => pose proof (sorted_users _ _ _ Hu) as Hfree; simpl in Hfree end.
  split; simpl; same_tables Hok.
  - intros def Hin. destruct (ck_definition _ Hok def Hin) as (D1 & D2 & D3 & D4 & D5 & D6). split_and!; try done.
    destruct D2 as [?|(w & Hw & Ew & Hc')]; [by left|]. right. exists w. split_and!; [|done..]. simpl. apply elem_of_delete.
    split; [done|]. unfold is_driver. rewrite Ew. by apply Hfree.
  - intros w [Hin _]%elem_of_delete. by apply (ck_driver _ Hok).
Qed.

(** ** Definitions *)

Lemma check_definition_driver_Ok ty v d n u c' : check_definition_driver ty v (mk_Conn d n) = Ok (u, c') → driver_there d v ty.
Proof.
  unfold check_definition_driver. destruct (is_builtin_driver v) eqn:E; [by left|]. intros Hx. inv_tx Hx. right.
  match goal with Hs : select_one _ _ = Some ?r |- _ => apply select_one_Some in Hs as [Hin Hid]; exists r end.
  split_and!; [done|by apply String.eqb_eq|done].
Qed.

Lemma check_definition_account_Ok a d n u c' : check_definition_account a (mk_Conn d n) = Ok (u, c') → account_there d (Some a).
Proof.
  unfold check_definition_account. intros Hx. inv_tx Hx. intros a' t [= <-] Et El. rewrite Et in *. simplify_eq/=.
  rewrite El in Hx. inv_tx Hx. by eapply (select_one_key (is_account a)).
Qed.

Lemma check_driver_and_account_Ok ty v account d n u c' :
  check_driver_and_account ty v account (mk_Conn d n) = Ok (u, c') → driver_there d v ty ∧ account_there d account.
Proof.
  unfold check_driver_and_account. intros Hx. inv_tx Hx.
  match goal with Hc : check_definition_driver _ _ _ = Ok _ |- _ => pose proof Hc as Hd; reads_step Hc end.
  split; [by eapply check_definition_driver_Ok|]. destruct account as [a'|]; [by eapply check_definition_account_Ok|done].
Qed.

Lemma check_provision_Ok p d n u c' : check_provision p (mk_Conn d n) = Ok (u, c') → provision_there d p.
Proof.
  intros Hx k Hk. destruct (for_each_reads _ _ _ _ _ check_provision_key_reads Hx k Hk) as (c1 & v & c2 & Ed & H1).
  simpl in Ed. subst d. unfold check_provision_key in H1. inv_tx H1. 
  destruct (ResourceRef_parse k) as [x|]; simplify_eq/=. by eexists.
Qed.

Lemma check_criterion_Ok ty k before d n u c' :
  check_criterion ty k before (mk_Conn d n) = Ok (u, c') → ∀ x, c_class k = Some x → class_exists d ty x = true.
Proof. intros Hx x Ex. unfold check_criterion in Hx. rewrite Ex in Hx. inv_tx Hx. done. Qed.

Lemma check_criteria_Ok ty before l d n u c' :
  check_criteria ty before l (mk_Conn d n) = Ok (u, c') → ∀ k x, k ∈ l → c_class k = Some x → class_exists d ty x = true.
Proof.
  revert before n. induction l as [|k l IH]; intros before n; simpl; [by intros _ k x ?%not_elem_of_nil|].
  intros Hx k' x. inv_tx Hx. pose proof H1 as Hk. reads_step H1. intros [->|Hin]%elem_of_cons; [by eapply check_criterion_Ok|by eapply IH].
Qed.

(** The database after the criteria of a definition were added. *)
Definition criteria_added (def : string) (l : list Criterion) (d d' : Db) : Prop :=
  ∃ rows, d' = upd_criteria (λ t, t ++ rows) d ∧ ∀ r, r ∈ rows → ct_definition r = def ∧ ∃ k, k ∈ l ∧ ct_class r = c_class k.

Lemma upd_criteria_app d t t' : upd_criteria (λ x, x ++ t') (upd_criteria (λ x, x ++ t) d) = upd_criteria (λ x, x ++ (t ++ t')) d.
Proof. destruct d. unfold upd_criteria. simpl. by rewrite app_assoc. Qed.

Lemma insert_criterion_Ok def k d n u c' : insert_criterion def k (mk_Conn d n) = Ok (u, c') → criteria_added def [k] d (c_db c').
Proof.
  intros Hx. unfold insert_criterion in Hx. inv_tx Hx. eexists [_]. split; [done|].
  intros r ->%list_elem_of_singleton. split; [done|]. exists k. split; [by left|done].
Qed.

Lemma insert_criteria_Ok def l d n u c' :
  for_each (λ k, let* _ := insert_criterion def k in ret tt) l (mk_Conn d n) = Ok (u, c') → criteria_added def l d (c_db c').
Proof.
  revert d n. induction l as [|k l IH]; intros d n; simpl; intros Hx.
  - inv_tx Hx. exists []. split; [|by intros r ?%not_elem_of_nil]. destruct d. unfold upd_criteria. simpl. by rewrite app_nil_r.
  - inv_tx Hx. match goal with Hi : insert_criterion _ _ _ = Ok (_, ?c) |- _ => destruct c as [d1 n1]; apply insert_criterion_Ok in Hi as (rows1 & E1 & F1) end.
    apply IH in Hx as (rows2 & E2 & F2). simpl in E1. subst d1. rewrite upd_criteria_app in E2. exists (rows1 ++ rows2). split; [done|].
    intros r [Hr|Hr]%elem_of_app.
    + destruct (F1 r Hr) as (? & k' & ->%list_elem_of_singleton & ?). split; [done|]. exists k. split; [by left|done].
    + destruct (F2 r Hr) as (? & k' & Hk' & ?). split; [done|]. exists k'. split; [by right|done].
Qed.

Lemma check_definition_refs_Ok def d n u c' :
  refs_shaped (di_secret_refs (rd_driver_inputs def)) → check_definition_refs def (mk_Conn d n) = Ok (u, c') →
  (∀ r, df_type r = rd_ty def → df_driver_type r = rd_driver_type def → df_driver_account r = rd_driver_account def →
    df_driver_inputs r = rd_driver_inputs def → df_provision r = rd_provision def → definition_ok d r)
  ∧ ∀ k x, k ∈ rd_criteria def → c_class k = Some x → class_exists d (rd_ty def) x = true.
Proof.
  intros Hsh Hx. unfold check_definition_refs, check_secret_stores in Hx. inv_tx Hx. settles.
  match goal with Hc : check_driver_and_account _ _ _ _ = Ok _ |- _ => apply check_driver_and_account_Ok in Hc as [Hdrv Hacc] end.
  match goal with Hc : check_provision _ _ = Ok _ |- _ => apply check_provision_Ok in Hc end. facts. split.
  - intros r E1 E2 E3 E4 E5. unfold definition_ok. by rewrite E1, E2, E3, E4, E5.
  - intros k x. by eapply check_criteria_Ok.
Qed.

Lemma create_definition_ok o def audit d n u c' :
  refs_shaped (di_secret_refs (rd_driver_inputs def)) → catalog_ok d →
  create_definition org o def audit (mk_Conn d n) = Ok (u, c') → catalog_ok (c_db c').
Proof.
  intros Hsh Hok Hx. unfold create_definition in Hx. inv_tx Hx. settles.
  match goal with Hc : check_definition_refs _ _ = Ok _ |- _ => apply check_definition_refs_Ok in Hc as [Hdef Hcrit]; [|done] end.
  match goal with Hc : for_each _ _ _ = Ok (_, ?c) |- _ => apply insert_criteria_Ok in Hc as (rows & -> & Hrows) end.
  pose proof (new_key df_id (is_definition (rd_id def)) (rd_id def) (db_definitions d) ltac:(done) Huniq) as Hnew.
  split; simpl; same_tables Hok.
  - apply insert_column_NoDup; [apply Hok|]. done.
  - intros r [Hin|Hin]%elem_of_app; [by apply Hok|]. apply list_elem_of_singleton in Hin as ->. by apply Hdef.
  - intros cr k [Hin|Hin]%elem_of_app Hk.
    + destruct (ck_criterion _ Hok cr k Hin Hk) as (r & Hr & ?). exists r. split; [apply elem_of_app; by left|done].
    + destruct (Hrows cr Hin) as (E & k' & Hk' & Ek). eexists. split; [apply elem_of_app; right; by left|]. split; [done|]. simpl.
      apply (Hcrit k'); congruence.
Qed.

Lemma definition_exists_Ok id d n ty c' :
  definition_exists id (mk_Conn d n) = Ok (ty, c') → ∃ r, r ∈ db_definitions d ∧ df_id r = id ∧ df_type r = ty.
Proof.
  intros Hx. unfold definition_exists in Hx. inv_tx Hx.
  match goal with Hs : select_one _ _ = Some ?r |- _ => apply select_one_Some in Hs as [Hin Hid]; exists r end.
  split_and!; [done|by apply String.eqb_eq|done].
Qed.

Lemma update_definition_ok o id upd audit d n u c' :
  refs_shaped (di_secret_refs (du_driver_inputs upd)) → catalog_ok d →
  update_definition org o id upd audit (mk_Conn d n) = Ok (u, c') → catalog_ok (c_db c').
Proof.
  intros Hsh Hok Hx. unfold update_definition, check_secret_stores in Hx. inv_tx Hx. settles.
  match goal with Hc : definition_exists _ _ = Ok _ |- _ => apply definition_exists_Ok in Hc as (r0 & Hr0 & Eid & Ety) end.
  match goal with Hc : check_driver_and_account _ _ _ _ = Ok _ |- _ => apply check_driver_and_account_Ok in Hc as [Hdrv Hacc] end.
  match goal with Hc : check_provision _ _ = Ok _ |- _ => apply check_provision_Ok in Hc end. facts.
  split; simpl; same_tables Hok.
  - rewrite update_ids by done. apply Hok.
  - intros r (r1 & Hr1 & ->)%elem_of_update. destruct (is_definition id r1) eqn:E; [|by apply (ck_definition _ Hok)].
    apply String.eqb_eq in E. assert (r1 = r0) as -> by (eapply (row_of_key df_id); [apply Hok|done..|congruence]).
    split_and!; simpl; try done; rewrite Ety; [|done]. rewrite <-Ety. by apply (ck_definition _ Hok).
  - intros cr k Hin Hk. destruct (ck_criterion _ Hok cr k Hin Hk) as (r & Hr & E1 & E2).
    eexists. split; [apply elem_of_update; by exists r|]. by destruct (is_definition id r).
Qed.

Lemma delete_definition_ok o id audit d n u c' :
  catalog_ok d → delete_definition org o id audit (mk_Conn d n) = Ok (u, c') → catalog_ok (c_db c').
Proof.
  intros Hok Hx. unfold delete_definition in Hx. inv_tx Hx. settles. split; simpl; same_tables Hok.
  - by apply delete_column_NoDup, Hok.
  - intros r [Hin _]%elem_of_delete. by apply (ck_definition _ Hok).
  - intros cr k [Hin Hne]%elem_of_delete Hk. destruct (ck_criterion _ Hok cr k Hin Hk) as (r & Hr & E1 & E2). exists r.
    split_and!; [|done..]. apply elem_of_delete. split; [done|]. unfold is_definition. by rewrite E1.
Qed.

Lemma add_criterion_ok o def k audit d n u c' :
  catalog_ok d → add_criterion org o def k audit (mk_Conn d n) = Ok (u, c') → catalog_ok (c_db c').
Proof.
  intros Hok Hx. unfold add_criterion in Hx. inv_tx Hx. settles.
  match goal with Hc : definition_exists _ _ = Ok _ |- _ => apply definition_exists_Ok in Hc as (r0 & Hr0 & Eid & Ety) end.
  match goal with Hc : check_criterion _ _ _ _ = Ok _ |- _ => pose proof (check_criterion_Ok _ _ _ _ _ _ _ Hc) as Hk end.
  match goal with Hc : insert_criterion _ _ _ = Ok _ |- _ => apply insert_criterion_Ok in Hc as (rows & -> & Hrows) end.
  split; simpl; same_tables Hok.
  intros cr x [Hin|Hin]%elem_of_app Hcl; [by apply (ck_criterion _ Hok)|].
  destruct (Hrows cr Hin) as (E & k' & ->%list_elem_of_singleton & Ek). exists r0. split_and!; [done|congruence|].
  unfold class_exists. simpl. rewrite Ety. apply Hk. congruence.
Qed.

Lemma delete_criterion_ok o def id audit d n u c' :
  catalog_ok d → delete_criterion org o def id audit (mk_Conn d n) = Ok (u, c') → catalog_ok (c_db c').
Proof.
  intros Hok Hx. unfold delete_criterion in Hx. inv_tx Hx. settles. split; simpl; same_tables Hok.
  intros cr k [Hin _]%elem_of_delete Hk. by apply (ck_criterion _ Hok).
Qed.

(** ** Values *)

Lemma check_secret_use_Ok app env r d n u c' : check_secret_use app env r (mk_Conn d n) = Ok (u, c') → has_store d (sr_store r).
Proof.
  intros Hx. unfold check_secret_use in Hx. inv_tx Hx. facts. match goal with Hs : stores_there _ _ |- _ => apply Hs end. by left.
Qed.

Lemma secret_ref_read x y : secret_ref_from_value (secret_ref_to_value x) = Some y → y = x.
Proof. destruct x as [st reference [v|]]; by intros [= <-]. Qed.

(** The references of the values of a scope. *)
Lemma scope_values_refs app env d n l c' :
  (∀ r v, r ∈ db_app_values d → av_secret_ref r = Some v → reference_there d v) →
  scope_values app env (mk_Conn d n) = Ok (l, c') →
  ∀ v k, v ∈ l → json_get "secret_ref" (value_entry v) = Some k → reference_there d k.
Proof.
  intros Hval Hx v k Hv Hk. unfold scope_values in Hx. inv_tx Hx. apply try_map_Ok in Hl.
  apply list_elem_of_lookup in Hv as (i & Hi). apply (Forall2_lookup_r _ _ _ _ _ Hl) in Hi as (r & Hr & Ev).
  apply list_elem_of_lookup_2 in Hr. rewrite sort_by_key_perm in Hr. apply elem_of_select in Hr as [Hr _].
  unfold value_record in Ev. destruct (av_value r), (av_secret_ref r) as [j|] eqn:Ej; simplify_eq/=.
  destruct (Hval r j Hr Ej) as (x & -> & Hst). destruct (secret_ref_from_value _) as [y|] eqn:Ey; simplify_eq/=.
  apply secret_ref_read in Ey as ->. by exists x.
Qed.

Lemma fold_entries (P : Value → Prop) (l : list ValueRecord) m :
  (∀ k e, (k, e) ∈ m → P e) → (∀ v, v ∈ l → P (value_entry v)) →
  ∀ k e, (k, e) ∈ foldl (λ m v, im_insert (vr_key v) (value_entry v) m) m l → P e.
Proof.
  revert m. induction l as [|v l IH]; intros m Hm Hl k e; simpl; [apply Hm|]. apply IH; [|intros w Hw; apply Hl; by right].
  intros k' e'. clear IH k e. assert (P (value_entry v)) as Hv by (apply Hl; by left). induction m as [|[j w] m IH]; simpl.
  - by intros [= -> ->]%list_elem_of_singleton.
  - destruct (String.eqb (vr_key v) j); intros [[= -> ->]|Hin]%elem_of_cons; [done|apply (Hm k'); by right|apply (Hm j); by left|].
    apply IH; [|done]. intros k2 e2 Hin2. apply (Hm k2). by right.
Qed.

Lemma record_version_ok app env actor d n u c' :
  catalog_ok d → record_version app env actor (mk_Conn d n) = Ok (u, c') → catalog_ok (c_db c').
Proof.
  intros Hok Hx. unfold record_version in Hx. inv_tx Hx.
  match goal with Hs : scope_values _ _ _ = Ok (?l, _) |- _ => pose proof (scope_values_refs _ _ _ _ _ _ (ck_value _ Hok) Hs) as Hrefs end.
  settles. simpl in Hx. destruct (db_seq d) as [[[s1 s2] s3] s4] eqn:Es. inv_tx Hx. split; simpl; same_tables Hok.
  intros r [Hin|Hin]%elem_of_app; [by apply (ck_version _ Hok)|]. apply list_elem_of_singleton in Hin as ->. eexists. split; [done|].
  intros k e v Hin Hv. revert v Hv. revert k e Hin. 
  apply (fold_entries (λ e, ∀ v, json_get "secret_ref" e = Some v → reference_there d v)); [by intros k e ?%not_elem_of_nil|].
  intros v Hv k Hk. by eapply Hrefs.
Qed.

Lemma values_change d d' :
  catalog_ok d → (∃ t, d' = upd_app_values (λ _, t) d) →
  (∀ r v, r ∈ db_app_values d' → av_secret_ref r = Some v → reference_there d v) → catalog_ok d'.
Proof. intros Hok (t & ->) Hval. split; simpl; same_tables Hok. exact Hval. Qed.

(** The audit log is not part of the catalog. *)
Ltac after_version Hok :=
  lazymatch goal with Hr : record_version _ _ _ _ = Ok (_, ?c) |- _ =>
    let Hok5 := fresh in cut (catalog_ok (c_db c)); [intros Hok5; split; simpl; same_tables Hok5|]; eapply record_version_ok; [|exact Hr] end.

Lemma elem_of_upsert row d r :
  r ∈ db_app_values (upsert_value row d) → r = row ∨ r ∈ db_app_values d.
Proof.
  unfold upsert_value. simpl. case_match.
  - intros (r0 & Hr0 & ->)%elem_of_update. destruct (is_value _ _ _ r0); auto.
  - intros [?|?%list_elem_of_singleton]%elem_of_app; auto.
Qed.

Lemma put_value_ok o app env v audit d n u c' :
  catalog_ok d → put_value org o app env v audit (mk_Conn d n) = Ok (u, c') → catalog_ok (c_db c').
Proof.
  intros Hok Hx. unfold put_value in Hx. inv_tx Hx. settles. after_version Hok.
  eapply values_change; [exact Hok|by eexists|]. intros r w [->|Hr]%elem_of_upsert Hw; [|by eapply Hok].
  simpl in Hw. destruct (pv_content v) as [|x]; [done|]. injection Hw as <-. exists x. split; [done|].
  match goal with Hs : check_secret_use _ _ _ _ = Ok _ |- _ => by apply check_secret_use_Ok in Hs end.
Qed.

Lemma delete_value_ok o app env key audit d n u c' :
  catalog_ok d → delete_value org o app env key audit (mk_Conn d n) = Ok (u, c') → catalog_ok (c_db c').
Proof.
  intros Hok Hx. unfold delete_value in Hx. inv_tx Hx. settles. after_version Hok.
  eapply values_change; [exact Hok|by eexists|]. simpl. intros r w [Hr _]%elem_of_delete Hw. by eapply Hok.
Qed.

(** ** Every change *)

(** The references of a definition's inputs are not themselves a reference: there is no text
    under [ref] at their top. The store's methods do not check it; the server makes the references
    itself ([secret_inputs.rs]) and writes only objects there, as [SecretInputs] proves. *)
Definition op_shaped (op : CatalogOp) : Prop :=
  match op with
  | CatCreateDefinition _ def _ => refs_shaped (di_secret_refs (rd_driver_inputs def))
  | CatUpdateDefinition _ _ upd _ => refs_shaped (di_secret_refs (du_driver_inputs upd))
  | _ => True
  end.

Lemma catalog_exec_ok op d n u c' : op_shaped op → catalog_ok d → catalog_exec org op (mk_Conn d n) = Ok (u, c') → catalog_ok (c_db c').
Proof.
  destruct op; simpl; intros Hsh Hok Hx.
  - by eapply create_type_ok.
  - by eapply update_type_ok.
  - by eapply delete_type_ok.
  - by eapply create_class_ok.
  - by eapply delete_class_ok.
  - by eapply create_driver_ok.
  - by eapply replace_driver_ok.
  - by eapply delete_driver_ok.
  - by eapply create_definition_ok.
  - by eapply update_definition_ok.
  - by eapply delete_definition_ok.
  - inv_tx Hx. by eapply add_criterion_ok.
  - by eapply delete_criterion_ok.
  - by eapply create_account_ok.
  - by eapply update_account_ok.
  - by eapply delete_account_ok.
  - by eapply create_secret_store_ok.
  - by eapply update_secret_store_ok.
  - by eapply delete_secret_store_ok.
  - inv_tx Hx. by eapply create_grant_ok.
  - by eapply delete_grant_ok.
  - by eapply put_value_ok.
  - by eapply delete_value_ok.
Qed.
End operations.

(** ** The rest of the store *)

(** Rows of a table that are kept, or deleted. *)
Definition keeps_catalog (d d' : Db) : Prop :=
  (db_resource_types d', db_resource_classes d', db_drivers d', db_cloud_accounts d', db_definitions d', db_criteria d', db_secret_stores d')
    = (db_resource_types d, db_resource_classes d, db_drivers d, db_cloud_accounts d, db_definitions d, db_criteria d, db_secret_stores d)
  ∧ db_app_values d' ⊆ db_app_values d ∧ db_value_set_versions d' ⊆ db_value_set_versions d ∧ db_secret_grants d' ⊆ db_secret_grants d.

#[export] Instance keeps_catalog_PreOrder : PreOrder keeps_catalog.
Proof.
  split; [by intros d|]. intros a b c (E1 & H1 & H2 & H3) (E2 & J1 & J2 & J3). split_and!; [by rewrite E2| | |]; by etrans.
Qed.

Lemma delete_rows_subseteq {A} (p : A → bool) t : delete_rows p t ⊆ t.
Proof. by intros r [Hr _]%elem_of_delete. Qed.

#[local] Hint Extern 1 (keeps_catalog _ _) => (split_and!; simpl; try apply delete_rows_subseteq; done) : tx.

Section rest.
Context `{System} (org : string) (digest : string → string).

#[export] Instance keeps_catalog_deploys : allows_deploys keeps_catalog.
Proof. split; intros; try apply _; auto with tx. Qed.

Lemma remove_app_catalog app : tx_rel keeps_catalog (remove_app app).
Proof. unfold remove_app. tx_steps. auto with tx. Qed.
Lemma remove_env_catalog app env : tx_rel keeps_catalog (remove_env app env).
Proof. unfold remove_env. tx_steps; [by apply release_resources_allowed; apply _|]. auto with tx. Qed.
#[local] Hint Resolve remove_app_catalog remove_env_catalog : tx.
#[local] Hint Extern 1 (tx_rel keeps_catalog _) =>
  first [apply put_plan_allowed; apply _ | apply issue_permits_allowed; apply _
    | apply use_permit_allowed; apply _ | apply record_approval_request_allowed; apply _
    | apply append_logs_allowed; apply _ | apply accept_deployment_allowed; apply _
    | apply delete_env_of_allowed; apply _ | apply log_in_tx_allowed; apply _
    | apply finish_audit_allowed; apply _ | apply begin_operation_allowed; apply _
    | apply checkpoint_in_tx_allowed; apply _
    | apply record_operation_inputs_allowed; apply _ | apply keep_recovery_cookie_allowed; apply _
    | apply resolve_operation_allowed; apply _ | apply record_resource_status_allowed; apply _
    | apply detach_resource_allowed; apply _ | apply schedule_deletion_allowed; apply _
    | apply recover_interrupted_allowed; apply _ | apply mark_restored_allowed; apply _] : tx.

(** The methods of the store that are not about the catalog delete values and grants at most. *)
Lemma exec_keeps_catalog op : tx_rel keeps_catalog (exec org digest op).
Proof.
  destruct op; simpl; unfold drop, create_principal, create_bootstrap_admin,
    set_org_role, update_principal, remove_principal, set_identity, create_token, revoke_token,
    authenticate_token, record_session, revoke_session, signing_key, create_invitation,
    accept_invitation, set_app_role, remove_app_role, set_env_type_role, remove_env_type_role,
    record_audit, create_env_type, update_env_type, delete_env_type, create_app, update_app,
    create_env, update_env, put_set, put_set_audited, write_delta, insert_principal, insert_token,
    set_org_role_column, set_name_column, insert_identity, upsert_app_role, delete_principal,
    insert_env_type_role, ensure_env_type, insert_env, insert_set, accept_app_deletion,
    finish_deployment, finish_in_tx, finish_env; tx_steps; auto with tx.
Qed.

Lemma keeps_catalog_ok d d' : keeps_catalog d d' → catalog_ok d → catalog_ok d'.
Proof.
  intros ([= Et Ek Ev Ea Ed Ec Es] & Hv & Hvv & Hg) Hok.
  assert (cred_edge d' = cred_edge d) as Ee by (unfold cred_edge; by rewrite Ea, Es).
  assert (has_store d' = has_store d) as Eh by (unfold has_store; by rewrite Es).
  assert (∀ v, reference_there d' v = reference_there d v) as Er by (intros; unfold reference_there; by rewrite Eh).
  assert (type_exists d' = type_exists d) as Ety by (unfold type_exists; by rewrite Et).
  assert (class_exists d' = class_exists d) as Ecl by (unfold class_exists; by rewrite Ek).
  assert (∀ r, definition_ok d' r = definition_ok d r) as Edf.
  { intros r. unfold definition_ok, driver_there, account_there, has_account, stores_there, provision_there. by rewrite Ety, Ev, Ea, Eh. }
  split; rewrite ?Ea, ?Es, ?Ed, ?Ee, ?Ec, ?Ek, ?Ev, ?Ety, ?Ecl, ?Eh; same_tables Hok.
  - intros s a. unfold reading_account. rewrite Ea. apply (ck_store_account _ Hok).
  - intros r Hr. rewrite Edf. by apply Hok.
  - intros r v Hr. rewrite Er. by apply (ck_value _ Hok), Hv.
  - intros r Hr. setoid_rewrite Er. by apply (ck_version _ Hok), Hvv.
  - intros g Hin. by apply (ck_grant _ Hok), Hg.
Qed.
End rest.

(** ** Any sequence of changes *)

Inductive AnyOp := StoreMethod (op : StoreOp) | CatalogMethod (op : CatalogOp).

Definition any_shaped (op : AnyOp) : Prop := match op with StoreMethod _ => True | CatalogMethod op => op_shaped op end.

Section any.
Context `{System} `{Libraries} (org : string) (digest : string → string).

Definition any_exec (op : AnyOp) : tx unit :=
  match op with StoreMethod op => exec org digest op | CatalogMethod op => catalog_exec org op end.

(** A request that fails leaves the database as it was. *)
Definition run_any (op : AnyOp) (c : Conn) : Conn := match any_exec op c with Ok (_, c') => c' | Err _ => c end.

Lemma run_any_ok ops c : Forall any_shaped ops → catalog_ok (c_db c) → catalog_ok (c_db (foldl (λ c op, run_any op c) c ops)).
Proof.
  revert c. induction ops as [|op ops IH]; intros c Hsh Hok; [done|]. apply Forall_cons in Hsh as [Hop Hsh]. simpl. apply IH; [done|].
  unfold run_any. destruct (any_exec op c) as [[u c']|e] eqn:E; [|done]. destruct c as [d n], op as [op|op]; simpl in *.
  - eapply keeps_catalog_ok; [|exact Hok]. by apply (exec_keeps_catalog org digest op _ _ _ E).
  - by eapply catalog_exec_ok.
Qed.

Lemma installed_ok n u c : init_installation org None (mk_Conn empty_db n) = Ok (u, c) → catalog_ok (c_db c).
Proof.
  intros Hx. unfold init_installation in Hx. inv_tx Hx. split; simpl; try apply NoDup_nil_2; try (by intros ? ?%not_elem_of_nil);
    try (by intros ? ? ?%not_elem_of_nil).
  - apply NoDup_singleton.
  - intros m Hm. match type of Hm with tc (cred_edge ?d') _ _ => assert (∀ a b, ¬ cred_edge d' a b) as He end.
    { intros [x|x] b; simpl; [by intros (r & ?%not_elem_of_nil & _)|]. intros (r & ->%list_elem_of_singleton & _ & Hb). by apply not_elem_of_nil in Hb. }
    by destruct Hm as [a b Hab|a b k Hab _]; apply He in Hab.
  - by intros s a ->%list_elem_of_singleton.
Qed.

(** C18: Credentials never depend on themselves, and everything the catalog refers to is there. In an
    installation, after any sequence of requests to the store, of the catalog and any other, with
    those that fail, in which the [secret_refs] of a definition have no text under the key [ref] at
    their top (the store does not check this; what the server writes has only objects there, as
    [SecretInputs] shows): no cloud account needs a secret from a store that reads, through other
    accounts and stores, with the account's own credentials; a store reads through an account that
    exists and may read stores; every secret reference of an account, a definition, a driver's
    token, a shared value, a version of the shared values or a grant names a registered store;
    a definition's type, driver, account and co-provisioned types exist and its driver provisions
    its type; the class of each criterion is one of the type of its definition. *)
Theorem catalog_references_hold (n : nat) (u : unit) (c : Conn) (ops : list AnyOp) :
  init_installation org None (mk_Conn empty_db n) = Ok (u, c) → Forall any_shaped ops →
  catalog_ok (c_db (foldl (λ c op, run_any op c) c ops)).
Proof. intros Hx Hsh. apply run_any_ok; [done|]. by eapply installed_ok. Qed.
End any.

(** ** Using a secret *)

(** A grant covers the reference for the environment. *)
Definition covered_by_grant (d : Db) (app env : string) (r : SecretRef) : Prop :=
  ∃ g, g ∈ db_secret_grants d ∧ sg_store g = sr_store r ∧ sg_ref g = sr_reference r
    ∧ (sg_org_wide g = true ∨ sg_app g = Some app ∧ (sg_env g = None ∨ sg_env g = Some env)).

(** The reference is the owner's own: it was written below its name in the built-in store. *)
Definition own_secret (prefix : option string) (r : SecretRef) : Prop :=
  ∃ p rest, prefix = Some p ∧ sr_store r = BUILTIN_STORE ∧ sr_reference r = p +:+ rest.

(** Who may use a secret for a deployment of [app] to [env]. *)
Definition use_allowed (d : Db) (app env : string) (owner : SecretOwner) (r : SecretRef) : Prop :=
  has_store d (sr_store r)
  ∧ match owner with
    | OwnerValues =>
        own_secret (Some (value_secret_prefix app None)) r ∨ own_secret (Some (value_secret_prefix app (Some env))) r
        ∨ covered_by_grant d app env r
    | OwnerResource g =>
        (∃ x, x ∈ db_active_resources d ∧ rs_app x = app ∧ rs_env x = env ∧ rs_guresid x = g)
        ∧ (own_secret (own_prefix owner) r ∨ covered_by_grant d app env r)
    | _ => own_secret (own_prefix owner) r ∨ covered_by_grant d app env r
    end.

(** Checks whose outcome is a condition on the database. *)
Lemma ref_store_passes r c : check_ref_stores [("ref", secret_ref_to_value r)] c
  = if is_some (select_one (is_secret_store (sr_store r)) (db_secret_stores (c_db c))) then Ok (tt, c)
    else Err (Invalid ("secret store " +:+ quoted (sr_store r) +:+ " is not registered")).
Proof.
  unfold check_ref_stores, referenced_stores. cbn -[check_ref_store]. unfold bind, check_ref_store. cbn -[is_secret_store select_one].
  by destruct (select_one _ _).
Qed.

Lemma store_registered d st : is_some (select_one (is_secret_store st) (db_secret_stores d)) = true ↔ has_store d st.
Proof.
  split; [by apply select_one_key|]. intros (r & -> & Hr)%list_elem_of_fmap. destruct (select_one _ _) eqn:E; [done|].
  rewrite select_one_None in E. specialize (E r Hr). unfold is_secret_store in E. by rewrite String.eqb_refl in E.
Qed.

Lemma select_one_exists {A} (p : A → bool) t : is_some (select_one p t) = true ↔ ∃ x, x ∈ t ∧ p x = true.
Proof.
  split.
  - destruct (select_one p t) eqn:E; [|done]. intros _. apply select_one_Some in E. eauto.
  - intros (x & Hx & Hp). destruct (select_one p t) eqn:E; [done|]. rewrite select_one_None in E. by rewrite E in Hp.
Qed.

Lemma sql_eq_Some a b : sql_eq a (Some b) = true ↔ a = Some b.
Proof. destruct a as [a|]; simpl; [|done]. rewrite String.eqb_eq. naive_solver. Qed.

Lemma granted_iff d app env r :
  is_some (select_one (grants_use app (Some env) r) (db_secret_grants d)) = true ↔ covered_by_grant d app env r.
Proof.
  rewrite select_one_exists. unfold covered_by_grant, grants_use. apply exist_proper. intros g.
  rewrite !andb_true_iff, orb_true_iff, andb_true_iff, orb_true_iff, !String.eqb_eq, !sql_eq_Some.
  assert (is_none (sg_env g) = true ↔ sg_env g = None) as -> by (by destruct (sg_env g)). naive_solver.
Qed.

Lemma prefixed_iff p r : String.eqb (sr_store r) BUILTIN_STORE && starts_with p (sr_reference r) = true ↔ own_secret (Some p) r.
Proof. unfold own_secret. rewrite andb_true_iff, String.eqb_eq, starts_with_spec. naive_solver. Qed.

Lemma owns_iff o r : owns o r = true ↔ own_secret (own_prefix o) r.
Proof.
  unfold owns. destruct (own_prefix o) as [p|]; [apply prefixed_iff|]. rewrite andb_false_r. split; [done|]. by intros (? & ? & ? & _).
Qed.

Lemma written_for_iff app env r :
  written_for app (Some env) r = true
  ↔ own_secret (Some (value_secret_prefix app None)) r ∨ own_secret (Some (value_secret_prefix app (Some env))) r.
Proof. unfold written_for. rewrite andb_orb_distrib_r, orb_true_iff, <-!prefixed_iff. done. Qed.

(** A check succeeds when its condition holds. *)
Lemma check_passes b e c : (∃ x, check b e c = Ok x) ↔ b = true.
Proof. unfold check. destruct b; [split; [done|]; intros _; by eexists|]. split; [by intros [x Hx]|done]. Qed.

(** Either of two conditions lets a secret be used. *)
Lemma either_passes (b : bool) (p : SecretGrantRow → bool) e c :
  (∃ x, (if b then ret tt else let* granted := query (λ d, select_one p (db_secret_grants d)) in check (is_some granted) e) c = Ok x)
  ↔ b = true ∨ is_some (select_one p (db_secret_grants (c_db c))) = true.
Proof.
  destruct b; [split; [by left|]; intros _; by eexists|]. unfold bind, query. rewrite check_passes. naive_solver.
Qed.

Lemma after_store r (m : tx unit) c :
  (∃ x, (check_ref_stores [("ref", secret_ref_to_value r)];; m) c = Ok x) ↔ has_store (c_db c) (sr_store r) ∧ ∃ x, m c = Ok x.
Proof.
  unfold bind. rewrite ref_store_passes, <-store_registered. destruct (is_some _); [naive_solver|]. split; [by intros [x Hx]|by intros [? _]].
Qed.

Lemma after_query {A} (f : Db → option A) e (m : tx unit) c :
  (∃ x, ((let* found := query f in check (is_some found) e);; m) c = Ok x) ↔ is_some (f (c_db c)) = true ∧ ∃ x, m c = Ok x.
Proof.
  unfold bind, query, check. destruct (is_some (f (c_db c))); simpl; [naive_solver|]. split; [by intros [x Hx]|by intros [? _]].
Qed.

Lemma check_use_exact app env owner r c : (∃ x, check_use app env owner r c = Ok x) ↔ use_allowed (c_db c) app env owner r.
Proof.
  unfold check_use, use_allowed. destruct owner as [|id|id|id|g].
  - rewrite decide_True by done. unfold check_secret_use. rewrite after_store, either_passes, written_for_iff, granted_iff. tauto.
  - rewrite decide_False by done. unfold bind at 1, ret at 1. rewrite after_store, either_passes, owns_iff, granted_iff. tauto.
  - rewrite decide_False by done. unfold bind at 1, ret at 1. rewrite after_store, either_passes, owns_iff, granted_iff. tauto.
  - rewrite decide_False by done. unfold bind at 1, ret at 1. rewrite after_store, either_passes, owns_iff, granted_iff. tauto.
  - rewrite decide_False by done. rewrite after_query, after_store, either_passes, owns_iff, granted_iff, select_one_exists.
    assert (∀ P Q Q' : Prop, (Q ↔ Q') → ∀ R, (Q ∧ P ∧ R) ↔ (P ∧ Q' ∧ R)) as Hand by tauto. apply Hand. apply exist_proper. intros x.
    rewrite !andb_true_iff, !String.eqb_eq. tauto.
Qed.

(** A use is authorized exactly when it is allowed in the organization of the installation. *)
Lemma authorize_secret_use_exact store_org org app env owner r c :
  (∃ x, authorize_secret_use store_org org app env owner r c = Ok x) ↔ org = store_org ∧ use_allowed (c_db c) app env owner r.
Proof.
  rewrite <-check_use_exact. unfold authorize_secret_use, Db.check_org, bind, check. destruct (String.eqb_spec org store_org); simpl.
  - naive_solver.
  - split; [by intros [x Hx]|by intros [? _]].
Qed.
