(* ===== verification/PlanTask.v ===== *)
(** * The planner's tasks ([crates/engine/src/planner.rs], [planner/deprovision.rs])

    One task per resource provisions or deletes it, with retries. A task is a program: what it
    asks of the store, the executor, the clock and the other tasks are calls, and it continues
    with the answer. How calls are answered is left to [PlanRun], where tasks are interleaved.
    Log lines and metrics are not part of a task. *)

From Stdlib Require Import Ascii.
From stdpp Require Import base sets strings list.
From S2P Require Import Prelude Effects Strings OrdMap Regex Ids Float64 Json Canonical Model Template Placeholder Catalog Sets Graph Pointer Artifacts Db Identity Permits Deployments Resources Deletion PlanInputs PlanJob.

Local Open Scope string_scope.
Local Open Scope list_scope.

(** ** Calls *)

Record PermitRequest := mk_PermitRequest {
  pq_org : string; pq_app : string; pq_env : string; pq_descriptor : string;
  pq_guresid : option string; pq_deployment : option string; pq_action : DestructiveAction;
  pq_permits : list string; pq_plan : option string; pq_planned : list (string * string)
}.

Inductive Call :=
| CNow                                                  (* [Instant::now()] *)
| CJitter (delay : Z)                                   (* the delay with jitter in its upper half *)
| CSleep (delay : Z)
| CAcquire                                              (* a permit of the planner, until the deadline *)
| CRelease
| CBegin (start : OperationStart)
| CRecordInputs (id : string) (recovery : Value)
| CCheckpoint (id : string) (result : CheckpointResult)
| CActiveResource (org app env descriptor : string)
| CPermitCheck (request : PermitRequest)                (* until the deadline *)
| CProvision (job : ProvisionJob)                       (* a task of its own, until the deadline *)
| CDeprovision (job : DeprovisionJob)
| CActiveResources (org app env : string)
| CTombstones (org app env : string)
| CRecordStatus (org app env deployment descriptor : string) (status : ResourceRunStatus) (error : option string)
| CFinish (org app env id : string) (error : option string).

Inductive Acquired := Granted | Closed | AcquireTimeout.

(** How waiting for the executor ends. *)
Inductive Joined (A : Type) := Finished_ (a : A) | Stopped | OutOfTime.
Arguments Finished_ {A} a.
Arguments Stopped {A}.
Arguments OutOfTime {A}.

Definition answer (c : Call) : Type :=
  match c with
  | CNow | CJitter _ => Z
  | CSleep _ | CRelease => unit
  | CAcquire => Acquired
  | CBegin _ => result OperationStarted StoreError
  | CRecordInputs _ _ | CCheckpoint _ _ => result unit StoreError
  | CActiveResource _ _ _ _ => result (option ResourceRow) StoreError
  | CPermitCheck _ => option (result unit string)
  | CProvision _ => Joined (result ProvisionResult ExecFailure)
  | CDeprovision _ => Joined (result unit ExecFailure)
  | CActiveResources _ _ _ => result (list ResourceRow) StoreError
  | CTombstones _ _ _ => result (list TombstoneRow) StoreError
  | CRecordStatus _ _ _ _ _ _ _ | CFinish _ _ _ _ _ => result unit StoreError
  end.

(** ** Programs *)

Abbreviation prog := (Effects.prog answer).
Abbreviation ask := (Effects.ask (answer := answer)).

(** ** Retries *)

Definition DURATION_MAX : Z := ((2 ^ 64 - 1) * 1000000000 + 999999999)%Z.

(** The delay before the next attempt, without its jitter: exponential from the base, capped. *)
Definition backoff_delay (limits : Limits) (attempt : nat) : Z :=
  Z.min (Z.min (lm_backoff limits * 2 ^ Z.min (Z.of_nat attempt - 1) 16) DURATION_MAX) (lm_max_backoff limits).

Definition backoff (limits : Limits) (attempt : nat) : prog Z := ask (CJitter (backoff_delay limits attempt)).

(** [retry_after.unwrap_or_else(|| backoff(..))]. *)
Definition retry_delay (limits : Limits) (attempt : nat) (retry_after : option Z) : prog Z :=
  match retry_after with Some d => Done d | None => backoff limits attempt end.

(** Records an operation's outcome; whether it was recorded. *)
Definition checkpoint (id : string) (result : CheckpointResult) : prog bool :=
  let! r := ask (CCheckpoint id result) in Done (is_ok r).

Definition out_of_time : Outcome := OPending "the deployment ran out of time".

(** A permit of the planner, before the deadline. *)
Definition acquire (deadline : Z) : prog (result unit Outcome) :=
  let! permit := ask CAcquire in
  match permit with
  | Granted =>
      let! now := ask CNow in
      if (deadline <=? now)%Z then let! _ := ask CRelease in Done (Err out_of_time) else Done (Ok tt)
  | Closed => Done (Err (OFailed "the planner is shutting down"))
  | AcquireTimeout => Done (Err out_of_time)
  end.

(** ** Provisioning a resource *)

Section tasks.
Context `{Libraries} `{InputsReader} (dep : Deployment) (limits : Limits) (deadline : Z).

Section node.
Context (node : Node) (version : Z) (def : ResourceDefinition).
Context (scope : MapScope) (dependencies : Finished).

(** The record that an operation starts with. *)
Definition start_recovery : Value :=
  Obj [("definition_id", Str (rd_id def)); ("definition_version", opt_num (Some version));
       ("driver_type", Str (rd_driver_type def))].

Definition put_start (fp : string) : OperationStart :=
  mk_OperationStart (dep_org dep) (dep_app dep) (dep_env dep) (dep_id dep) (n_descriptor node)
    (Some (rd_id def)) (Some version) (Some (rd_driver_type def)) Put fp start_recovery.

Definition begin_failure (e : StoreError) : Outcome :=
  match e with
  | RecoveryRequired _ =>
      OFailed ("an earlier operation's outcome is unknown; recover the resource first (" +:+ store_error_show e +:+ ")")
  | MigrationRequired _ _ _ | Detached _ => OFailed (store_error_show e)
  | other => OFailed ("the operation was not recorded: " +:+ store_error_show other)
  end.

(** What is recorded right before the executor is called. *)
Definition inputs_recovery (j : ProvisionJob) : Value :=
  Obj [("definition_id", Str (rd_id def)); ("definition_version", opt_num (Some version));
       ("definition", definition_to_value def); ("driver_type", Str (rd_driver_type def));
       ("driver_account", opt_str (pj_driver_account j)); ("guresid", Str (pj_guresid j));
       ("inputs", job_inputs_to_value (pj_inputs j)); ("dependencies", dependencies_to_value dependencies);
       ("existing", Bool (pj_existing j))].

Definition account_name (a : option string) : string :=
  match a with Some a => "cloud account `" +:+ a +:+ "`" | None => "no cloud account" end.

(** Adds the state of the resource's last successful operation, and refuses to move a
    provisioned resource to another cloud account. *)
Definition with_prior_state (j : ProvisionJob) : prog (result ProvisionJob ExecFailure) :=
  let descriptor := Descriptor_show (n_descriptor node) in
  let! resource := ask (CActiveResource (dep_org dep) (dep_app dep) (dep_env dep) descriptor) in
  match resource with
  | Err e => Done (Err (Retryable ("the resource's driver state could not be read: " +:+ store_error_show e) None))
  | Ok None => Done (Ok j)
  | Ok (Some r) =>
      if is_some (rs_last_deploy_id r) && negb (bool_decide (rs_driver_account r = pj_driver_account j)) then
        Done (Err (Permanent ("`" +:+ descriptor +:+ "` was provisioned in " +:+ account_name (rs_driver_account r)
          +:+ ", but its definition now uses " +:+ account_name (pj_driver_account j)
          +:+ "; migrate or replace the resource explicitly")))
      else
        let cookie := resource_cookie r in
        let existing := is_some (rs_last_deploy_id r) || is_some cookie || is_some (rs_target r) in
        Done (Ok (mk_ProvisionJob (pj_operation_id j) (pj_attempt j) (pj_descriptor j) (pj_guresid j)
          (pj_context j) (pj_definition_id j) (pj_definition_version j) (pj_driver_type j)
          (pj_driver_account j) (pj_inputs j) (pj_input_fingerprint j) cookie (rs_target r) (pj_pin j)
          existing (pj_output_schema j) (pj_deadline j)))
  end.

(** Runs the executor until the deadline. *)
Definition provision (j : ProvisionJob) : prog (result ProvisionResult ExecFailure) :=
  let! r := ask (CProvision j) in
  Done (match r with
    | Finished_ r => r
    | Stopped => Err (uncertain "the executor stopped unexpectedly while the resource was provisioning")
    | OutOfTime => Err (uncertain "the deployment ran out of time while the resource was provisioning")
    end).

(** The inputs are recorded before the executor is called. *)
Definition record_and_provision (j : ProvisionJob) : prog (result ProvisionResult ExecFailure) :=
  let! recorded := ask (CRecordInputs (pj_operation_id j) (inputs_recovery j)) in
  match recorded with
  | Err e => Done (Err (Retryable ("the operation's inputs were not recorded: " +:+ store_error_show e) None))
  | Ok _ => provision j
  end.

Definition provision_result (j : ProvisionJob) : prog (result ProvisionResult ExecFailure) :=
  let! prior := with_prior_state j in
  match prior with
  | Err failure => Done (Err failure)
  | Ok j => record_and_provision j
  end.

Definition provisioned_record (j : ProvisionJob) (p : ProvisionResult) : Provisioned :=
  mk_Provisioned (Obj (pr_outputs p)) (pr_secret_outputs p) (pr_cookie p) (pr_recovery p)
    (job_inputs_to_value (pj_inputs j)) (Descriptor_show <$> n_depends_on node)
    (Obj [("deployment_id", Str (dep_id dep)); ("definition_version", opt_num (Some version));
          ("definition", definition_to_value def)])
    (pj_driver_account j) (pr_target p) (pr_backend p) (pr_external_ids p) (pr_pin p).

Definition unrecorded : string := "the resource provisioned, but its result could not be recorded".

(** What a successful call leaves: the outputs, once they are recorded. *)
Definition record_provisioned (started : OperationStarted) (j : ProvisionJob) (p : ProvisionResult)
    : prog (result ResourceOutputs Outcome) :=
  let! recorded := checkpoint (ost_operation_id started) (WasProvisioned (provisioned_record j p)) in
  if recorded : bool then
    Done (Ok (mk_ResourceOutputs (pr_outputs p) (pr_secret_outputs p) (Some (ost_guresid started))
      (pj_driver_account j)))
  else
    let! _ := checkpoint (ost_operation_id started) (WasUnknown unrecorded None) in
    Done (Err (OUnknown unrecorded)).

(** One attempt: a result that ends the task, or the error of a retry with its delay. *)
Definition node_attempt (fp : string) : prog (result ResourceOutputs Outcome + string * option Z) :=
  let! permit := acquire deadline in
  match permit with
  | Err o => Done (inl (Err o))
  | Ok _ =>
      let! began := ask (CBegin (put_start fp)) in
      match began with
      | Err e => let! _ := ask CRelease in Done (inl (Err (begin_failure e)))
      | Ok started =>
          let id := ost_operation_id started in
          match job dep deadline (with_guresid (ost_guresid started) scope) node version def fp started with
          | Err error =>
              let! _ := checkpoint id (WasFailed error) in
              let! _ := ask CRelease in
              Done (inl (Err (OFailed error)))
          | Ok j =>
              let! result := provision_result j in
              let! _ := ask CRelease in
              match result with
              | Ok p => let! r := record_provisioned started j p in Done (inl r)
              | Err (Permanent error) =>
                  let! _ := checkpoint id (WasFailed error) in Done (inl (Err (OFailed error)))
              | Err (Uncertain error cookie) =>
                  let! _ := checkpoint id (WasUnknown error cookie) in Done (inl (Err (OUnknown error)))
              | Err (Retryable error retry_after) =>
                  let! _ := checkpoint id (WasFailed error) in Done (inr (error, retry_after))
              end
          end
      end
  end.

Definition after_attempts (error : string) (attempt : nat) : string :=
  error +:+ " (after " +:+ show_nat attempt +:+ " attempts)".

(** The attempts: [more] is how many may follow the attempt [attempt]. *)
Fixpoint node_attempts (fp : string) (more attempt : nat) : prog (result ResourceOutputs Outcome) :=
  let! r := node_attempt fp in
  match r with
  | inl r => Done r
  | inr (error, retry_after) =>
      match more with
      | O => Done (Err (OFailed (after_attempts error attempt)))
      | S more =>
          let! delay := retry_delay limits attempt retry_after in
          let! now := ask CNow in
          if (deadline <=? now + delay)%Z then Done (Err (OFailed (error +:+ " (no time left for another attempt)")))
          else let! _ := ask (CSleep delay) in node_attempts fp more (S attempt)
      end
  end.
End node.

(** Provisions the node of the scope. *)
Definition node_run (scope : MapScope) (dependencies : Finished) : prog (result ResourceOutputs Outcome) :=
  match ms_referrer scope with
  | None => Done (Err (OFailed "the resource has no descriptor"))
  | Some d =>
      match bt_get d (g_nodes (dep_graph dep)) with
      | None => Done (Err (OFailed "the resource is not in the graph"))
      | Some node =>
          match bt_get (n_definition node) (dep_definitions dep) with
          | None => Done (Err (OFailed ("definition `" +:+ n_definition node
              +:+ "` is missing from the deployment's snapshot")))
          | Some (version, def) =>
              node_attempts node version def scope dependencies (fingerprint node version def dependencies)
                (lm_attempts limits - 1) 1
          end
      end
  end.

(** ** Deleting a resource *)

(** What a resource recorded when it last provisioned. *)
Record Recorded := mk_Recorded {
  rc_driver_type : string; rc_definition_id : string; rc_inputs : JobInputs;
  rc_driver_account : option string
}.

Definition no_inputs : JobInputs := mk_JobInputs Null (RValue Null) (RValue Null) (RValue Null) [].

Definition recorded_of (r : ResourceRow) : result Recorded string :=
  let? driver_type := ok_or (rs_driver_type r) "the resource has no recorded driver" in
  let? definition_id := map_err (λ _, "the resource has no valid recorded definition")
    (DefinitionId_new (option_default ε (rs_definition_id r))) in
  let absent := match rs_inputs r with Null | Obj [] => true | _ => false end in
  let? inputs := if absent then Ok no_inputs
    else map_err (λ e, "the resource's recorded inputs are unreadable: " +:+ e) (read_job_inputs (rs_inputs r)) in
  let? driver_account :=
    match rs_driver_account r with
    | None => Ok None
    | Some a => result_map Some (map_err (λ _, "the resource's recorded cloud account is invalid") (AccountId_new a))
    end in
  Ok (mk_Recorded driver_type definition_id inputs driver_account).

Section deletion.
Context (d : Descriptor) (r : ResourceRow) (recorded : Recorded).

Definition delete_start : OperationStart :=
  mk_OperationStart (dep_org dep) (dep_app dep) (dep_env dep) (dep_id dep) d (rs_definition_id r)
    (rs_definition_version r) (Some (rc_driver_type recorded)) Delete "delete"
    (Obj [("definition_id", opt_str (rs_definition_id r)); ("definition_version", opt_num (rs_definition_version r));
          ("driver_type", Str (rc_driver_type recorded)); ("driver_account", opt_str (rs_driver_account r));
          ("inputs", rs_inputs r); ("cleanup_only", Bool (rs_cleanup_pending r))]).

(** The driver deletes against what was retained. *)
Definition deprovision_job (id : string) (attempt : Z) (guresid : string) : DeprovisionJob :=
  mk_DeprovisionJob
    (mk_ProvisionJob id attempt d guresid (context_of_deployment dep) (rc_definition_id recorded)
      (option_default 0%Z (rs_definition_version r)) (rc_driver_type recorded) (rc_driver_account recorded)
      (rc_inputs recorded) "delete" (resource_cookie r) (rs_target r) None true None deadline)
    (rs_snapshot r) (rs_recovery r).

Definition check_permit : prog (result unit Outcome) :=
  let! checked := ask (CPermitCheck (mk_PermitRequest (dep_org dep) (dep_app dep) (dep_env dep) (rs_descriptor r)
    (Some (rs_guresid r)) (Some (dep_id dep)) ActDelete (dep_permits dep) None [])) in
  Done (match checked with
    | Some (Ok _) => Ok tt
    | Some (Err e) => Err (OFailed ("approval_required: " +:+ e))
    | None => Err out_of_time
    end).

Definition undeleted : string := "the resource was deleted, but its record could not be removed".

(** Up to three tries to remove the record, [more] of them after this one. *)
Fixpoint remove_record (id : string) (more : nat) (pause : Z) : prog bool :=
  let! removed := checkpoint id WasDeleted in
  if removed : bool then Done true
  else match more with
       | O => Done false
       | S more => let! _ := ask (CSleep pause) in remove_record id more (pause + 50000000)%Z
       end.

(** Records a deletion the driver confirmed; when the record cannot be removed, the resource is
    marked so that a later attempt only removes it. *)
Definition record_deletion (id : string) : prog (result unit Outcome) :=
  let! removed := remove_record id 2 50000000 in
  if removed : bool then Done (Ok tt)
  else
    let! marked := checkpoint id (CleanupPending undeleted) in
    if marked : bool then Done (Err (OCleanupPending undeleted))
    else
      let! _ := checkpoint id (WasUnknown undeleted None) in
      Done (Err (OUnknown undeleted)).

Definition execute_deletion (j : DeprovisionJob) : prog (result unit ExecFailure) :=
  let! r := ask (CDeprovision j) in
  Done (match r with
    | Finished_ r => r
    | Stopped => Err (uncertain "the executor stopped unexpectedly while the resource was being deleted")
    | OutOfTime => Err (uncertain "the deployment ran out of time while the resource was being deleted")
    end).

Definition delete_failure (e : StoreError) : Outcome :=
  match e with
  | RecoveryRequired _ =>
      OFailed ("an earlier operation's outcome is unknown; recover the resource first (" +:+ store_error_show e +:+ ")")
  | other => OFailed ("the deletion was not recorded: " +:+ store_error_show other)
  end.

(** The deletion, once its operation is recorded. *)
Definition delete_started (started : OperationStarted) : prog (result unit Outcome + string * option Z) :=
  let id := ost_operation_id started in
  let! result :=
    if rs_cleanup_pending r then Done (Ok tt)
    else execute_deletion (deprovision_job id (ost_attempt started) (ost_guresid started)) in
  let! _ := ask CRelease in
  match result with
  | Ok _ => let! r := record_deletion id in Done (inl r)
  | Err (Permanent error) =>
      let! _ := checkpoint id (WasFailed error) in Done (inl (Err (OFailed error)))
  | Err (Uncertain error cookie) =>
      let! _ := checkpoint id (WasUnknown error cookie) in Done (inl (Err (OUnknown error)))
  | Err (Retryable error retry_after) =>
      let! recorded := checkpoint id (WasFailed error) in
      Done (if recorded : bool then inr (error, retry_after)
            else inl (Err (OFailed (error +:+ " (the failure could not be recorded, so it is not retried)"))))
  end.

Definition delete_attempt (attempt : nat) : prog (result unit Outcome + string * option Z) :=
  let! permit := acquire deadline in
  match permit with
  | Err o => Done (inl (Err o))
  | Ok _ =>
      let! permitted := if Nat.eqb attempt 1 && negb (rs_cleanup_pending r) then check_permit else Done (Ok tt) in
      match permitted with
      | Err o => let! _ := ask CRelease in Done (inl (Err o))
      | Ok _ =>
          let! began := ask (CBegin delete_start) in
          match began with
          | Err e => let! _ := ask CRelease in Done (inl (Err (delete_failure e)))
          | Ok started => delete_started started
          end
      end
  end.

Fixpoint delete_attempts (more attempt : nat) : prog (result unit Outcome) :=
  let! r := delete_attempt attempt in
  match r with
  | inl r => Done r
  | inr (error, retry_after) =>
      match more with
      | O => Done (Err (OFailed (after_attempts error attempt)))
      | S more =>
          let! delay := retry_delay limits attempt retry_after in
          let! now := ask CNow in
          if (deadline <=? now + delay)%Z then Done (Err (OFailed (error +:+ " (no time left for another attempt)")))
          else let! _ := ask (CSleep delay) in delete_attempts more (S attempt)
      end
  end.
End deletion.

Definition delete_run (d : Descriptor) (r : ResourceRow) : prog Outcome :=
  match recorded_of r with
  | Err e => Done (OFailed e)
  | Ok recorded =>
      let! result := delete_attempts d r recorded (lm_attempts limits - 1) 1 in
      Done (match result with Ok _ => ODeleted | Err o => o end)
  end.
End tasks.
