(* ===== verification/PlanRun.v ===== *)
(** * Running a deployment ([crates/engine/src/planner.rs], [planner/deprovision.rs])

    The planner's main loop as a transition system: it starts a task for every resource whose
    dependencies provisioned, joins tasks as they end, and then deletes what the deployment
    leaves out, in the order of who uses whom, before it records how everything ended. Tasks are
    interleaved with each other and with everything else that uses the store. *)

From Stdlib Require Import Ascii.
From stdpp Require Import base sets strings list.
From S2P Require Import Prelude Effects Strings OrdMap Regex Ids Float64 Json Canonical Model Template Placeholder Catalog Sets Graph Pointer Artifacts Db DbLogic Identity Rbac Apps Permits Deployments Resources IdentityInv IdentityRoles DeployInv Access Operations DeployProofs Lifecycle Phases ResourceSteps Deletion PlanInputs PlanJob PlanTask.

Local Open Scope string_scope.
Local Open Scope list_scope.

(** ** The world of the tasks *)

(** The store; the planner's permits that are free, and those that other deployments hold; and,
    to state what is promised, the operations whose driver was called and whose outcome was not
    recorded since, with their resources. *)
Record World := mk_World {
  w_conn : Conn; w_free : nat; w_others : nat; w_called : list (string * string)
}.

Definition set_conn (w : World) (c : Conn) : World := mk_World c (w_free w) (w_others w) (w_called w).
Definition set_free (w : World) (n : nat) : World := mk_World (w_conn w) n (w_others w) (w_called w).
Definition add_called (w : World) (id guresid : string) : World :=
  mk_World (w_conn w) (w_free w) (w_others w) ((id, guresid) :: w_called w).
Definition settle_called (w : World) (id : string) : World :=
  mk_World (w_conn w) (w_free w) (w_others w) (filter (λ x, x.1 ≠ id) (w_called w)).

(** A transaction commits, or is rolled back; and the database may fail before it starts. *)
Definition tx_answers {A} (m : tx A) (c : Conn) (r : result A StoreError) (c' : Conn) : Prop :=
  match m c with
  | Ok (a, c1) => r = Ok a ∧ c' = c1
  | Err e => r = Err e ∧ c' = c
  end ∨ ∃ e, r = Err e ∧ c' = c.

(** An error that is returned after the transaction committed. *)
Definition flatten {A} (r : result (result A StoreError) StoreError) : result A StoreError :=
  match r with Ok r => r | Err e => Err e end.

Section run.
Context `{System} `{Libraries} `{InputsReader} (org : string) (digest : string → string).

(** How the server checks a permit for a deletion ([StorePermits]). *)
Definition permit_use (q : PermitRequest) (deployment : string) : PermitUse :=
  mk_PermitUse (pq_org q) (pq_app q) (pq_env q) (Some deployment) [] (pq_descriptor q) (pq_guresid q)
    (destructive_action_as_str (pq_action q)) (pq_plan q).

Definition permit_error (e : StoreError) : string :=
  match e with
  | ApprovalRequired e => e +:+ "; preview the environment again and request a permit for this plan"
  | e => "the permit could not be checked: " +:+ store_error_show e
  end.

Definition permit_answers (q : PermitRequest) (w : World) (r : option (result unit string)) (w' : World) : Prop :=
  match pq_deployment q with
  | None => r = Some (Err "a permit is used only by the deployment it is bound to") ∧ w' = w
  | Some deployment =>
      ∃ x c', tx_answers (use_permit org (permit_use q deployment)) (w_conn w) x c' ∧ w' = set_conn w c'
        ∧ (r = Some (map_err permit_error (flatten x)) ∨ r = None)
  end.

(** How a call is answered. *)
Definition answers (w : World) (c : Call) : answer c → World → Prop :=
  match c with
  | CNow | CJitter _ => λ _ w', w' = w
  | CSleep _ => λ _ w', w' = w
  | CAcquire => λ a w',
      match a with
      | Granted => ∃ n, w_free w = S n ∧ w' = set_free w n
      | Closed | AcquireTimeout => w' = w
      end
  | CRelease => λ _ w', w' = set_free w (S (w_free w))
  | CBegin start => λ r w',
      ∃ x c', tx_answers (begin_operation org start) (w_conn w) x c' ∧ r = flatten x ∧ w' = set_conn w c'
  | CRecordInputs id recovery => λ r w',
      ∃ c', tx_answers (record_operation_inputs id recovery) (w_conn w) r c' ∧ w' = set_conn w c'
  | CCheckpoint id result => λ r w',
      ∃ c', tx_answers (checkpoint_operation id result) (w_conn w) r c'
        ∧ w' = if is_ok r then settle_called (set_conn w c') id else set_conn w c'
  | CActiveResource o app env descriptor => λ r w',
      ∃ c', tx_answers (active_resource org o app env descriptor) (w_conn w) r c' ∧ w' = set_conn w c'
  | CPermitCheck q => permit_answers q w
  | CProvision j => λ _ w', w' = add_called w (pj_operation_id j) (pj_guresid j)
  | CDeprovision j => λ _ w', w' = add_called w (pj_operation_id (xj_job j)) (pj_guresid (xj_job j))
  | CActiveResources o app env => λ r w',
      ∃ c', tx_answers (active_resources org o app env) (w_conn w) r c' ∧ w' = set_conn w c'
  | CTombstones o app env => λ r w',
      ∃ c', tx_answers (tombstones org o app env) (w_conn w) r c' ∧ w' = set_conn w c'
  | CRecordStatus o app env id descriptor status error => λ r w',
      ∃ c', tx_answers (record_resource_status org o app env id descriptor status error) (w_conn w) r c'
        ∧ w' = set_conn w c'
  | CFinish o app env id error => λ r w',
      ∃ c', tx_answers (finish_deployment org o app env id error) (w_conn w) r c' ∧ w' = set_conn w c'
  end.

(** Whether a task holds a permit after the call. *)
Definition permit_after (held : bool) (c : Call) : answer c → bool :=
  match c with
  | CAcquire => λ a, match a with Granted => true | Closed | AcquireTimeout => held end
  | CRelease => λ _, false
  | _ => λ _, held
  end.

(** A task that stops drops its permit. *)
Definition drop_permit (held : bool) (w : World) : World := if held then set_free w (S (w_free w)) else w.

(** A task that stops during a call of the executor leaves the call unanswered. *)
Definition unanswered {A} (p : prog A) (w : World) : World :=
  match p with
  | Ask (CProvision j) _ => add_called w (pj_operation_id j) (pj_guresid j)
  | Ask (CDeprovision j) _ => add_called w (pj_operation_id (xj_job j)) (pj_guresid (xj_job j))
  | _ => w
  end.

(** ** Everything else *)

(** What others do while a deployment runs in the environment: anything but the operations on
    its resources, which only the deployment's own tasks make, and what a server does when it
    starts. *)
Definition foreign (app env : string) (d : Db) (op : StoreOp) : bool :=
  match op with
  | OpRecover | OpMarkRestored => false
  | OpBeginOperation start => negb (String.eqb (os_app start) app && String.eqb (os_env start) env)
  | OpFinishDeployment _ a e _ _ => negb (String.eqb a app && String.eqb e env)
  | OpCheckpoint id _ | OpRecordInputs id _ | OpResolve id _ _ =>
      negb (existsb (λ o, is_operation id o && op_in_env app env o) (db_operations d))
  | _ => true
  end.

Inductive others_step (app env : string) (w : World) : World → Prop :=
| others_op op :
    plain_op op = true → foreign app env (c_db (w_conn w)) op = true →
    others_step app env w (set_conn w (run org digest op (w_conn w)))
| others_take n :
    w_free w = S n → others_step app env w (mk_World (w_conn w) n (S (w_others w)) (w_called w))
| others_give n :
    w_others w = S n → others_step app env w (mk_World (w_conn w) (S (w_free w)) n (w_called w)).

(** ** Provisioning *)

Context (dep : Deployment) (limits : Limits) (deadline : Z).

Abbreviation nodes := (bt_values (g_nodes (dep_graph dep))).
Abbreviation NodeTask := (prog (result ResourceOutputs Outcome)).
Abbreviation Outcomes := (list (Descriptor * Outcome)).

Record Loop := mk_Loop {
  lp_outcomes : Outcomes; lp_done : Finished; lp_started : list Descriptor;
  lp_running : list (Descriptor * bool * NodeTask)
}.

(** The outputs of the node's dependencies that finished. *)
Definition finished_dependencies (node : Node) (done : Finished) : Finished :=
  bt_of_list (filter_map (λ d, (λ o, (d, o)) <$> bt_get d done) (n_depends_on node)).

(** Starts the node if its dependencies provisioned and it did not start; [late] tells whether
    the deadline has passed. *)
Definition start_node (late : Descriptor → bool) (s : Loop) (node : Node) : Loop :=
  let d := n_descriptor node in
  if bs_mem d (lp_started s) || negb (forallb (λ x, bt_contains x (lp_done s)) (n_depends_on node)) then s
  else
    let started := bs_insert d (lp_started s) in
    if late d then mk_Loop (lp_outcomes s) (lp_done s) started (lp_running s)
    else mk_Loop (lp_outcomes s) (lp_done s) started
      (lp_running s ++ [(d, false, node_run dep limits deadline (scope_for dep node (lp_done s))
         (finished_dependencies node (lp_done s)))]).

Definition start_nodes (late : Descriptor → bool) (s : Loop) : Loop := foldl (start_node late) s nodes.

Definition first_loop (late : Descriptor → bool) : Loop := start_nodes late (mk_Loop [] [] [] []).

(** A task that ended, with its result. *)
Definition join_node (s : Loop) (i : nat) (d : Descriptor) (r : result ResourceOutputs Outcome) : Loop :=
  match r with
  | Ok outputs =>
      mk_Loop (bt_insert d OProvisioned (lp_outcomes s)) (bt_insert d outputs (lp_done s)) (lp_started s)
        (delete i (lp_running s))
  | Err o => mk_Loop (bt_insert d o (lp_outcomes s)) (lp_done s) (lp_started s) (delete i (lp_running s))
  end.

Definition stopped_node : result ResourceOutputs Outcome :=
  Err (OUnknown "provisioning stopped unexpectedly; recover the resource").

(** Whatever did not run waits behind a failed dependency, or ran out of time. *)
Definition pending_reason (late : bool) (outcomes : Outcomes) (node : Node) : string :=
  match find (λ d, negb (bool_decide (bt_get d outcomes = Some OProvisioned))) (n_depends_on node) with
  | Some d => "waiting for `" +:+ Descriptor_show d +:+ "`"
  | None => if late then "the deployment ran out of time" else "not started"
  end.

Definition leave_pending (late : Descriptor → bool) (outcomes : Outcomes) (node : Node) : Outcomes :=
  if bt_contains (n_descriptor node) outcomes then outcomes
  else bt_insert (n_descriptor node) (OPending (pending_reason (late (n_descriptor node)) outcomes node)) outcomes.

Definition settle_nodes (late : Descriptor → bool) (outcomes : Outcomes) : Outcomes :=
  foldl (leave_pending late) outcomes nodes.

(** Why nothing starts: the checks found something missing. *)
Inductive Refusal := MissingArtifacts | MissingPins | MissingDeletions.

Definition refusal_text (r : Refusal) : string :=
  match r with
  | MissingArtifacts => "not started: an artifact the deployment needs is missing"
  | MissingPins => "not started: a version of the code the deployment replays is missing"
  | MissingDeletions => "not started: a resource the deployment deletes cannot be deleted"
  end.

Definition refuse (why : Refusal) (missing : list (Descriptor * string)) : Outcomes :=
  foldl (λ o node,
      if bt_contains (n_descriptor node) missing then o
      else bt_insert (n_descriptor node) (OPending (refusal_text why)) o)
    (foldl (λ o m, bt_insert m.1 (OFailed m.2) o) [] missing) nodes.

(** ** Deleting *)

Definition converged (outcomes : Outcomes) : bool := forallb (λ o, bool_decide (o = OProvisioned)) (bt_values outcomes).

Record DeletePlan := mk_DeletePlan {
  dx_candidates : list (Descriptor * ResourceRow); dx_mandatory : list string; dx_users : Users
}.

Inductive Prepared :=
| NothingToDelete (outcomes : Outcomes) (listed : result unit string)
| ToDelete (plan : DeletePlan).

Definition not_listed (e : StoreError) : string := "the resources to delete could not be listed: " +:+ store_error_show e.

(** Who is detached still uses what it depended on. *)
Definition detached_name (t : TombstoneRow) : string := tb_descriptor t +:+ " (detached)".

Definition leave_candidates (candidates : list (Descriptor * ResourceRow)) (outcomes : Outcomes) : Outcomes :=
  foldl (λ o d, if bt_contains d o then o
    else bt_insert d (OPending "deleted only once the deployment's other resources provision") o)
    outcomes (bt_keys candidates).

(** Lists what the deployment deletes; unless it converged, nothing is deleted. *)
Definition prepare_deletion (outcomes : Outcomes) : prog Prepared :=
  let! active := ask (CActiveResources (dep_org dep) (dep_app dep) (dep_env dep)) in
  match active with
  | Err e => Done (NothingToDelete outcomes (Err (not_listed e)))
  | Ok active =>
      let (candidates, mandatory) := deletion_candidates (dep_graph dep) (dep_teardown dep) active in
      match candidates with
      | [] => Done (NothingToDelete outcomes (Ok tt))
      | _ =>
          if negb (converged outcomes) then Done (NothingToDelete (leave_candidates candidates outcomes) (Ok tt))
          else
            let! stones := ask (CTombstones (dep_org dep) (dep_app dep) (dep_env dep)) in
            match stones with
            | Err e => Done (NothingToDelete outcomes (Err (not_listed e)))
            | Ok stones =>
                Done (ToDelete (mk_DeletePlan candidates mandatory
                  (detached_users detached_name stones (active_users active []))))
            end
      end
  end.

Abbreviation DeleteTask := (prog Outcome).

Record DeleteLoop := mk_DeleteLoop {
  dl_outcomes : Outcomes; dl_deleted : list string; dl_started : list Descriptor;
  dl_running : list (Descriptor * bool * DeleteTask)
}.

(** Nothing that is left uses the resource, or it is already deleted in the cloud. *)
Definition ready_to_delete (users : Users) (deleted : list string) (r : ResourceRow) : bool :=
  rs_cleanup_pending r || forallb (λ u, bs_mem u deleted) (users_get users (rs_descriptor r)).

Definition start_deletion (plan : DeletePlan) (late : Descriptor → bool) (s : DeleteLoop)
    (c : Descriptor * ResourceRow) : DeleteLoop :=
  let (d, r) := c in
  if bs_mem d (dl_started s) || negb (ready_to_delete (dx_users plan) (dl_deleted s) r) then s
  else
    let started := bs_insert d (dl_started s) in
    if late d then mk_DeleteLoop (dl_outcomes s) (dl_deleted s) started (dl_running s)
    else mk_DeleteLoop (dl_outcomes s) (dl_deleted s) started
      (dl_running s ++ [(d, false, delete_run dep limits deadline d r)]).

Definition start_deletions (plan : DeletePlan) (late : Descriptor → bool) (s : DeleteLoop) : DeleteLoop :=
  foldl (start_deletion plan late) s (dx_candidates plan).

Definition join_deletion (s : DeleteLoop) (i : nat) (d : Descriptor) (o : Outcome) : DeleteLoop :=
  mk_DeleteLoop (bt_insert d o (dl_outcomes s))
    (if bool_decide (o = ODeleted) then bs_insert (Descriptor_show d) (dl_deleted s) else dl_deleted s)
    (dl_started s) (delete i (dl_running s)).

Definition stopped_deletion : Outcome := OUnknown "the deletion stopped unexpectedly".

(** *** What was not deleted *)

Definition blockers (plan : DeletePlan) (deleted : list string) (r : ResourceRow) : list string :=
  filter (λ u, bs_mem u deleted = false) (users_get (dx_users plan) (rs_descriptor r)).

Definition keeper_one (plan : DeletePlan) (deleted : list string) (s : list (string * string) * bool)
    (r : ResourceRow) : list (string * string) * bool :=
  let (kept, changed) := s in
  if bt_contains (rs_descriptor r) kept || bs_mem (rs_descriptor r) (dx_mandatory plan) then s
  else match find (λ u, negb (bs_mem u (candidate_names (dx_candidates plan))) || bt_contains u kept)
               (blockers plan deleted r) with
       | Some u => (bt_insert (rs_descriptor r) u kept, true)
       | None => s
       end.

(** The candidates that stay, each with who keeps it. *)
Definition keepers (plan : DeletePlan) (deleted : list string) (undecided : list (Descriptor * ResourceRow))
    : option (list (string * string)) :=
  until_stable (λ kept, foldl (keeper_one plan deleted) (kept, false) undecided.*2) (S (length undecided)) [].

Definition ends_with (p s : string) : bool := is_some (strip_suffix p s).

Definition undeleted_reason (plan : DeletePlan) (deleted : list string) (kept : list (string * string))
    (late : bool) (r : ResourceRow) : string :=
  match blockers plan deleted r with
  | u :: _ =>
      if ends_with " (detached)" u then
        "still used by `" +:+ u +:+ "`, which openporch no longer manages; detach this resource too to leave it in place, then retry"
      else if negb (bs_mem u (candidate_names (dx_candidates plan))) || bt_contains u kept then
        "still used by `" +:+ u +:+ "`, which stays; schedule it for deletion too"
      else "waiting for `" +:+ u +:+ "` to be deleted"
  | [] => if late then "the deployment ran out of time" else "deletion stopped unexpectedly"
  end.

Definition leave_candidate (plan : DeletePlan) (deleted : list string) (kept : list (string * string))
    (late : Descriptor → bool) (o : Outcomes) (c : Descriptor * ResourceRow) : Outcomes :=
  let (d, r) := c in
  bt_insert d
    (match bt_get (rs_descriptor r) kept with
     | Some u => OKept ("scheduled for deletion, but still used by `" +:+ u +:+ "`")
     | None => OPending (undeleted_reason plan deleted kept (late d) r)
     end) o.

Definition undecided (plan : DeletePlan) (o : Outcomes) : list (Descriptor * ResourceRow) :=
  filter (λ c, bt_contains c.1 o = false) (dx_candidates plan).

Definition settle_deletions (plan : DeletePlan) (late : Descriptor → bool) (s : DeleteLoop) : Outcomes :=
  let left_ := undecided plan (dl_outcomes s) in
  let kept := option_default [] (keepers plan (dl_deleted s) left_) in
  foldl (leave_candidate plan (dl_deleted s) kept late) (dl_outcomes s) left_.

(** ** Reporting *)

Definition run_status (o : Outcome) : option (ResourceRunStatus * string) :=
  match o with
  | OProvisioned | ODeleted => None
  | OPending r => Some (RunPending, r)
  | OKept r => Some (RunSkipped, r)
  | OFailed r => Some (RunFailed, r)
  | OCleanupPending r => Some (RunFailed, "cleanup pending: " +:+ r)
  | OUnknown r => Some (RunUnknown, r)
  end.

(** Every resource gets a record; a failure to write one is only logged. *)
Definition record_outcome (c : Descriptor * Outcome) : prog unit :=
  match run_status c.2 with
  | None => Done tt
  | Some (status, reason) =>
      let! _ := ask (CRecordStatus (dep_org dep) (dep_app dep) (dep_env dep) (dep_id dep) (Descriptor_show c.1)
        status (Some reason)) in
      Done tt
  end.

Fixpoint record_outcomes (l : Outcomes) : prog unit :=
  match l with
  | [] => Done tt
  | c :: l => let! _ := record_outcome c in record_outcomes l
  end.

Record Summary := mk_Summary { sm_failed : list string; sm_unknown : list string; sm_pending : nat }.

Definition summarize (s : Summary) (c : Descriptor * Outcome) : Summary :=
  let d := Descriptor_show c.1 in
  match c.2 with
  | OProvisioned | ODeleted | OKept _ => s
  | OFailed e => mk_Summary (sm_failed s ++ ["`" +:+ d +:+ "` failed: " +:+ e]) (sm_unknown s) (sm_pending s)
  | OCleanupPending e =>
      mk_Summary (sm_failed s ++ ["`" +:+ d +:+ "` failed: cleanup pending: " +:+ e]) (sm_unknown s) (sm_pending s)
  | OUnknown e =>
      mk_Summary (sm_failed s) (sm_unknown s ++ ["`" +:+ d +:+ "` has an unknown outcome and needs recovery: " +:+ e])
        (sm_pending s)
  | OPending _ => mk_Summary (sm_failed s) (sm_unknown s) (S (sm_pending s))
  end.

(** The deployment's error, if any. *)
Definition summary (outcomes : Outcomes) : option string :=
  let s := foldl summarize (mk_Summary [] [] 0) outcomes in
  match sm_failed s, sm_unknown s, sm_pending s with
  | [], [], O => None
  | failed, unknown, pending =>
      Some (join "; " (unknown ++ failed
        ++ match pending with O => [] | _ => [show_nat pending +:+ " resource(s) not started"] end))
  end.

(** Lost log lines are reported. *)
Definition with_lost_lines (error : option string) (lost : nat) : option string :=
  match error, lost with
  | error, O => error
  | None, n => Some (show_nat n +:+ " log lines could not be stored")
  | Some e, n => Some (e +:+ "; " +:+ show_nat n +:+ " log lines could not be stored")
  end.

Definition run_error (outcomes : Outcomes) (listed : result unit string) (lost : nat) : option string :=
  with_lost_lines
    match summary outcomes, listed with
    | error, Ok _ => error
    | None, Err e => Some e
    | Some error, Err e => Some (error +:+ "; " +:+ e)
    end lost.

Definition report (outcomes : Outcomes) (listed : result unit string) (lost : nat) : prog unit :=
  let! _ := record_outcomes outcomes in
  let! _ := ask (CFinish (dep_org dep) (dep_app dep) (dep_env dep) (dep_id dep) (run_error outcomes listed lost)) in
  Done tt.

(** ** The run *)

Inductive Stage :=
| Provisioning (s : Loop)
| Preparing (outcomes : Outcomes) (p : prog Prepared)
| Deleting (plan : DeletePlan) (s : DeleteLoop)
| Reporting (outcomes : Outcomes) (p : prog unit).

(** How a run begins: with the first tasks, or, when a check found something missing, without. *)
Inductive run_start : Stage → Prop :=
| start_running late : run_start (Provisioning (first_loop late))
| start_refused why missing :
    missing ≠ [] → run_start (Preparing (refuse why missing) (prepare_deletion (refuse why missing))).

Inductive run_step : World * Stage → World * Stage → Prop :=
| step_node w w' s i d held c k a :
    lp_running s !! i = Some (d, held, Ask c k) → answers w c a w' →
    run_step (w, Provisioning s)
      (w', Provisioning (mk_Loop (lp_outcomes s) (lp_done s) (lp_started s) (<[i := (d, permit_after held c a, k a)]> (lp_running s))))
| step_join w s i d held r late :
    lp_running s !! i = Some (d, held, Done r) →
    run_step (w, Provisioning s) (drop_permit held w, Provisioning (start_nodes late (join_node s i d r)))
| step_stop w s i d held p late :
    lp_running s !! i = Some (d, held, p) →
    run_step (w, Provisioning s)
      (drop_permit held (unanswered p w), Provisioning (start_nodes late (join_node s i d stopped_node)))
| step_provisioned w s late :
    lp_running s = [] →
    run_step (w, Provisioning s)
      (w, let outcomes := settle_nodes late (lp_outcomes s) in Preparing outcomes (prepare_deletion outcomes))
| step_prepare w w' o c k a :
    answers w c a w' → run_step (w, Preparing o (Ask c k)) (w', Preparing o (k a))
| step_nothing w o outcomes listed lost :
    run_step (w, Preparing o (Done (NothingToDelete outcomes listed))) (w, Reporting outcomes (report outcomes listed lost))
| step_delete w o plan late :
    run_step (w, Preparing o (Done (ToDelete plan)))
      (w, Deleting plan (start_deletions plan late (mk_DeleteLoop o [] [] [])))
| step_deletion w w' plan s i d held c k a :
    dl_running s !! i = Some (d, held, Ask c k) → answers w c a w' →
    run_step (w, Deleting plan s)
      (w', Deleting plan (mk_DeleteLoop (dl_outcomes s) (dl_deleted s) (dl_started s) (<[i := (d, permit_after held c a, k a)]> (dl_running s))))
| step_join_deletion w plan s i d held o late :
    dl_running s !! i = Some (d, held, Done o) →
    run_step (w, Deleting plan s) (drop_permit held w, Deleting plan (start_deletions plan late (join_deletion s i d o)))
| step_stop_deletion w plan s i d held p late :
    dl_running s !! i = Some (d, held, p) →
    run_step (w, Deleting plan s)
      (drop_permit held (unanswered p w), Deleting plan (start_deletions plan late (join_deletion s i d stopped_deletion)))
| step_deleted w plan s late lost :
    dl_running s = [] →
    run_step (w, Deleting plan s)
      (w, let outcomes := settle_deletions plan late s in Reporting outcomes (report outcomes (Ok tt) lost))
| step_report w w' o c k a :
    answers w c a w' → run_step (w, Reporting o (Ask c k)) (w', Reporting o (k a)).

(** A step of the run or of anything else. *)
Inductive any_step : World * Stage → World * Stage → Prop :=
| any_run x y : run_step x y → any_step x y
| any_others w w' s : others_step (dep_app dep) (dep_env dep) w w' → any_step (w, s) (w', s).

End run.
