(* ===== verification/PlanLogic.v ===== *)
(** * Protocols of the planner's tasks

    What a task may call, and when, as a protocol over the states a caller can tell apart. The
    first protocol is that of the planner's permits: a task calls the executor only while it
    holds one. From it follows the bound on the driver operations at once. *)

From Stdlib Require Import Ascii.
From stdpp Require Import base sets strings list relations.
From S2P Require Import Prelude Effects Strings OrdMap Ids Json Model Placeholder Graph Db DbLogic Identity Rbac Apps Permits Deployments Resources IdentityInv DeployInv Access Operations Deletion PlanInputs PlanJob PlanTask PlanRun.

Local Open Scope string_scope.
Local Open Scope list_scope.
Local Open Scope nat_scope.

(** What every step preserves holds wherever steps lead. *)
Lemma rtc_invariant {A} (R : relation A) (P : A → Prop) x y :
  rtc R x y → (∀ x y, P x → R x y → P y) → P x → P y.
Proof. intros Hr HP. induction Hr; [done|]. intros Hx. eauto. Qed.

(** ** Permits of the planner *)

Definition calls_executor {A} (p : prog A) : bool :=
  match p with Ask (CProvision _) _ | Ask (CDeprovision _) _ => true | _ => false end.

(** A permit is acquired when none is held, released when one is, and held during a call of the
    executor. *)
Definition permit_allowed (held : bool) (c : Call) : Prop :=
  match c with
  | CAcquire => held = false
  | CRelease | CProvision _ | CDeprovision _ => held = true
  | _ => True
  end.

Abbreviation keeps_permits := (follows permit_allowed permit_after).
Abbreviation released := (λ held _, held = false).

(** Runs a program through its calls. *)
Ltac walk :=
  repeat first
    [ done
    | match goal with
      | |- _ ∧ _ => split
      | |- ∀ _, _ => intro
      | |- context [match ?x with _ => _ end] => destruct x
      | |- follows _ _ _ _ (if ?b then _ else _) => destruct b
      end
    | progress cbn [follows pbind ask checkpoint permit_allowed permit_after] ].

Section permits.
Context `{System} `{Libraries} `{InputsReader} (org : string) (digest : string → string).
Context (dep : Deployment) (limits : Limits) (deadline : Z).

Lemma checkpoint_permits id r held : keeps_permits (λ h (_ : bool), h = held) held (checkpoint id r).
Proof. by cbn. Qed.

Lemma acquire_permits : keeps_permits (λ h r, h = is_ok r) false (acquire deadline).
Proof. unfold acquire. walk. Qed.

Lemma prior_state_permits node j held :
  keeps_permits (λ h (_ : result ProvisionJob ExecFailure), h = held) held (with_prior_state dep node j).
Proof. unfold with_prior_state. walk. Qed.

Lemma record_and_provision_permits version def dependencies j :
  keeps_permits (λ h (_ : result ProvisionResult ExecFailure), h = true) true
    (record_and_provision version def dependencies j).
Proof. unfold record_and_provision, provision. walk. Qed.

Lemma node_attempt_permits node version def scope dependencies fp :
  keeps_permits released false (node_attempt dep deadline node version def scope dependencies fp).
Proof.
  unfold node_attempt. eapply follows_bind; [apply acquire_permits|]. intros h [[]|o] ->; [|done].
  cbn [follows pbind ask permit_allowed permit_after is_ok]. split; [done|]. intros [started|e]; [|by walk].
  destruct (job _ _ _ _ _ _ _ _) as [j|]; [|by walk]. unfold provision_result.
  eapply follows_bind; [eapply follows_bind; [apply prior_state_permits|]|].
  { intros h [j'|e] ->; [apply record_and_provision_permits|by cbn]. }
  intros h [p|[| |]] Hh; cbn in Hh; subst; unfold record_provisioned; walk.
Qed.

Lemma node_attempts_permits node version def scope dependencies fp more attempt :
  keeps_permits released false (node_attempts dep limits deadline node version def scope dependencies fp more attempt).
Proof.
  revert attempt. induction more as [|more IH]; intros attempt; cbn [node_attempts];
    (eapply follows_bind; [apply node_attempt_permits|]); intros h [r|[e after]] ->; try done.
  unfold retry_delay, backoff. destruct after; walk; by apply IH.
Qed.

Lemma node_run_permits scope dependencies :
  keeps_permits released false (node_run dep limits deadline scope dependencies).
Proof. unfold node_run. repeat case_match; try done. apply node_attempts_permits. Qed.

Lemma remove_record_permits id more pause held : keeps_permits (λ h (_ : bool), h = held) held (remove_record id more pause).
Proof. revert pause. induction more; intros; cbn; walk. Qed.

Lemma record_deletion_permits id : keeps_permits released false (record_deletion id).
Proof.
  unfold record_deletion. eapply follows_bind; [apply remove_record_permits|]. intros h b ->. unfold checkpoint. walk.
Qed.

Lemma delete_attempt_permits d r recorded attempt :
  keeps_permits released false (delete_attempt dep deadline d r recorded attempt).
Proof.
  unfold delete_attempt. eapply follows_bind; [apply acquire_permits|]. intros h [[]|o] ->; [|done].
  eapply (follows_bind _ _ (λ h (_ : result unit Outcome), h = true)); [by case_match; unfold check_permit; walk|].
  intros h [[]|o] ->; [|by cbn]. cbn [follows pbind ask permit_allowed permit_after]. split; [done|].
  intros [started|e]; [|by cbn]. unfold delete_started.
  eapply (follows_bind _ _ (λ h (_ : result unit ExecFailure), h = true));
    [by case_match; unfold execute_deletion; walk|].
  intros h result ->. cbn [follows pbind ask permit_allowed permit_after]. split; [done|]. intros _.
  destruct result as [[]|[| |]].
  - eapply follows_bind; [apply record_deletion_permits|]. by intros h o ->.
  - walk.
  - walk.
  - walk.
Qed.

Lemma delete_attempts_permits d r recorded more attempt :
  keeps_permits released false (delete_attempts dep limits deadline d r recorded more attempt).
Proof.
  revert attempt. induction more as [|more IH]; intros attempt; cbn [delete_attempts];
    (eapply follows_bind; [apply delete_attempt_permits|]); intros h [o|[e after]] ->; try done.
  unfold retry_delay, backoff. destruct after; walk; by apply IH.
Qed.

Lemma delete_run_permits d r : keeps_permits released false (delete_run dep limits deadline d r).
Proof.
  unfold delete_run. case_match; [|done]. eapply follows_bind; [apply delete_attempts_permits|]. by intros h o ->.
Qed.
End permits.

(** ** Tasks that run *)

Section running.
Context {A : Type}.
Implicit Types l : list (Descriptor * bool * prog A).

Definition held_count l : nat := sum_list_with (λ t, Nat.b2n t.1.2) l.

(** How many of the tasks wait for the executor. *)
Definition calling_count l : nat := length (filter (λ t, calls_executor t.2 = true) l).

Lemma held_count_insert l i d h p d' h' p' :
  l !! i = Some (d, h, p) → held_count (<[i := (d', h', p')]> l) + Nat.b2n h = held_count l + Nat.b2n h'.
Proof.
  intros Hi. pose proof (lookup_lt_Some _ _ _ Hi) as Hlt. rewrite insert_take_drop by done.
  rewrite <- (take_drop_middle _ _ _ Hi) at 3. unfold held_count. rewrite !sum_list_with_app. simpl. lia.
Qed.

Lemma held_count_delete l i d h p : l !! i = Some (d, h, p) → held_count (delete i l) + Nat.b2n h = held_count l.
Proof.
  intros Hi. rewrite delete_take_drop. rewrite <- (take_drop_middle _ _ _ Hi) at 3. unfold held_count.
  rewrite !sum_list_with_app. simpl. lia.
Qed.

(** All that runs keeps to the permits. *)
Definition all_keep l : Prop := Forall (λ t, keeps_permits released t.1.2 t.2) l.

Lemma calling_bound l : all_keep l → calling_count l ≤ held_count l.
Proof.
  unfold calling_count, held_count. induction 1 as [|[[d h] p] l Hp _ IH]; [done|]. rewrite filter_cons. simpl in *.
  case_decide as Hc; simpl; [|lia]. destruct p as [|[] k]; try done; cbn in Hp; destruct Hp as [-> _]; simpl; lia.
Qed.

Lemma all_keep_insert l i d h p : all_keep l → keeps_permits released h p → all_keep (<[i := (d, h, p)]> l).
Proof. intros. by apply Forall_insert. Qed.

Lemma all_keep_delete l i : all_keep l → all_keep (delete i l).
Proof. apply Forall_delete. Qed.
End running.

(** What the main task calls. *)
Definition main_allowed (_ : unit) (c : Call) : Prop :=
  match c with CAcquire | CRelease | CProvision _ | CDeprovision _ => False | _ => True end.
Abbreviation main_only := (follows main_allowed (λ l _ _, l) (λ _ _, True) tt).

Section bound.
Context `{System} `{Libraries} `{InputsReader} (org : string) (digest : string → string).
Context (dep : Deployment) (limits : Limits) (deadline : Z).

Lemma answers_permits w c a w' held :
  answers org w c a w' → permit_allowed held c →
  w_others w' = w_others w ∧ w_free w' + Nat.b2n (permit_after held c a) = w_free w + Nat.b2n held.
Proof.
  destruct c; cbn; intros Ha Hp; subst; try (by split); try (by destruct Ha as (? & ? & ->); split);
    try (by destruct Ha as (? & ? & ? & ? & ->); split).
  - destruct a; subst; [|by split..]. destruct Ha as (n & Hn & ->). cbn. split; [done|]. rewrite Hn. lia.
  - cbn. split; [done|]. lia.
  - destruct Ha as (c' & _ & ->). by destruct (is_ok a).
  - unfold permit_answers in Ha. destruct (pq_deployment request); [|by destruct Ha as [_ ->]].
    by destruct Ha as (? & ? & _ & -> & _).
Qed.

Lemma main_answers w c a w' :
  answers org w c a w' → main_allowed tt c → w_others w' = w_others w ∧ w_free w' = w_free w.
Proof.
  intros Ha Hc. assert (permit_allowed false c) as Hp by (by destruct c).
  destruct (answers_permits _ _ _ _ _ Ha Hp) as [-> Hf]. split; [done|].
  assert (permit_after false c a = false) as E by (by destruct c). rewrite E in Hf. lia.
Qed.

Definition holding (s : Stage) : nat :=
  match s with
  | Provisioning s => held_count (lp_running s)
  | Deleting _ s => held_count (dl_running s)
  | Preparing _ _ | Reporting _ _ => 0
  end.

Definition calling (s : Stage) : nat :=
  match s with
  | Provisioning s => calling_count (lp_running s)
  | Deleting _ s => calling_count (dl_running s)
  | Preparing _ _ | Reporting _ _ => 0
  end.

Definition stage_keeps (s : Stage) : Prop :=
  match s with
  | Provisioning s => all_keep (lp_running s)
  | Deleting _ s => all_keep (dl_running s)
  | Preparing _ p => main_only p
  | Reporting _ p => main_only p
  end.

Definition permits_inv (total : nat) (x : World * Stage) : Prop :=
  w_free x.1 + w_others x.1 + holding x.2 = total ∧ stage_keeps x.2.

Lemma start_nodes_running late s :
  ∃ new, lp_running (start_nodes dep limits deadline late s) = lp_running s ++ new ∧ held_count new = 0 ∧ all_keep new.
Proof.
  unfold start_nodes. generalize (bt_values (g_nodes (dep_graph dep))). intros l. revert s.
  induction l as [|n l IH]; intros s; simpl; [exists []; rewrite app_nil_r; by repeat constructor|].
  destruct (IH (start_node dep limits deadline late s n)) as (new & -> & Hn & Hk). unfold start_node.
  repeat case_match; try by exists new. cbn [lp_running]. rewrite <- app_assoc. eexists. split; [done|]. split; [done|].
  constructor; [apply node_run_permits|done].
Qed.

Lemma start_deletions_running plan late s :
  ∃ new, dl_running (start_deletions dep limits deadline plan late s) = dl_running s ++ new ∧ held_count new = 0 ∧ all_keep new.
Proof.
  unfold start_deletions. generalize (dx_candidates plan). intros l. revert s.
  induction l as [|n l IH]; intros s; simpl; [exists []; rewrite app_nil_r; by repeat constructor|].
  destruct (IH (start_deletion dep limits deadline plan late s n)) as (new & -> & Hn & Hk). unfold start_deletion.
  repeat case_match; try by exists new. cbn [dl_running]. rewrite <- app_assoc. eexists. split; [done|]. split; [done|].
  constructor; [apply delete_run_permits|done].
Qed.

Lemma prepare_main o : main_only (prepare_deletion dep o).
Proof. unfold prepare_deletion. walk; unfold main_allowed; walk. Qed.

Lemma record_outcomes_main l : main_only (record_outcomes dep l).
Proof.
  induction l as [|[d o] l IH]; cbn; [done|]. unfold record_outcome. destruct (run_status _) as [[]|]; [|done].
  by cbn.
Qed.

Lemma report_main o listed lost : main_only (report dep o listed lost).
Proof. unfold report. eapply follows_bind; [apply record_outcomes_main|]. by intros [] [] _. Qed.

Lemma drop_permit_free held w : w_free (drop_permit held w) = w_free w + Nat.b2n held.
Proof. destruct held; simpl; lia. Qed.
Lemma drop_permit_others held w : w_others (drop_permit held w) = w_others w.
Proof. by destruct held. Qed.
Lemma unanswered_permits {A} (p : prog A) w : w_free (unanswered p w) = w_free w ∧ w_others (unanswered p w) = w_others w.
Proof. by destruct p as [|[] ?]. Qed.

Lemma join_node_running s i d r : lp_running (join_node s i d r) = delete i (lp_running s).
Proof. by destruct r. Qed.

(** A step of a task, and its end, whatever the tasks are. *)
Lemma call_permits {A} (l : list (Descriptor * bool * prog A)) w w' i d held c k a total :
  w_free w + w_others w + held_count l = total → all_keep l →
  l !! i = Some (d, held, Ask c k) → answers org w c a w' →
  w_free w' + w_others w' + held_count (<[i := (d, permit_after held c a, k a)]> l) = total
  ∧ all_keep (<[i := (d, permit_after held c a, k a)]> l).
Proof.
  intros Ht Hk Hi Ha. pose proof (Forall_lookup_1 _ _ _ _ Hk Hi) as [Hc Hn]. cbn in Hc, Hn.
  destruct (answers_permits _ _ _ _ _ Ha Hc) as [Eo Ef]. split; [|by apply all_keep_insert].
  pose proof (held_count_insert _ _ _ _ _ d (permit_after held c a) (k a) Hi). lia.
Qed.

Lemma end_permits {A} (l new : list (Descriptor * bool * prog A)) w w' i d held p total :
  w_free w + w_others w + held_count l = total → all_keep l →
  l !! i = Some (d, held, p) → w_free w' = w_free w → w_others w' = w_others w → held_count new = 0 → all_keep new →
  w_free (drop_permit held w') + w_others (drop_permit held w') + held_count (delete i l ++ new) = total
  ∧ all_keep (delete i l ++ new).
Proof.
  intros Ht Hk Hi Ef Eo Hn Hkn. split; [|by apply Forall_app; split; [apply all_keep_delete|]].
  pose proof (held_count_delete _ _ _ _ _ Hi). rewrite drop_permit_free, drop_permit_others, Ef, Eo.
  unfold held_count in *. rewrite sum_list_with_app. lia.
Qed.

Lemma permits_step total x y :
  permits_inv total x → any_step org digest dep limits deadline x y → permits_inv total y.
Proof.
  intros Hi Hst. revert Hi. destruct Hst as [x y []|w w' s []]; intros [Ht Hk]; unfold permits_inv in *;
    cbn [fst snd holding stage_keeps lp_running dl_running] in *.
  - by eapply call_permits.
  - destruct (start_nodes_running late (join_node s i d r)) as (new & -> & Hn & Hkn). rewrite join_node_running.
    by eapply end_permits.
  - destruct (start_nodes_running late (join_node s i d stopped_node)) as (new & -> & Hn & Hkn).
    rewrite join_node_running. destruct (unanswered_permits p w). by eapply end_permits.
  - rewrite H2 in Ht. split; [done|apply prepare_main].
  - destruct Hk as [Hc Hk]. destruct (main_answers _ _ _ _ H2 Hc) as [-> ->]. by split.
  - split; [done|apply report_main].
  - destruct (start_deletions_running plan late (mk_DeleteLoop o [] [] [])) as (new & -> & Hn & Hkn).
    change (dl_running _ ++ new) with new. split; [lia|done].
  - by eapply call_permits.
  - destruct (start_deletions_running plan late (join_deletion s i d o)) as (new & -> & Hn & Hkn).
    by eapply end_permits.
  - destruct (start_deletions_running plan late (join_deletion s i d stopped_deletion)) as (new & -> & Hn & Hkn).
    destruct (unanswered_permits p w). by eapply end_permits.
  - rewrite H2 in Ht. split; [done|apply report_main].
  - destruct Hk as [Hc Hk]. destruct (main_answers _ _ _ _ H2 Hc) as [-> ->]. by split.
  - by split.
  - cbn. split; [lia|done].
  - cbn. split; [lia|done].
Qed.

Lemma permits_start w s : run_start dep limits deadline s → permits_inv (w_free w + w_others w) (w, s).
Proof.
  intros [late|why missing _]; unfold permits_inv; cbn [fst snd holding stage_keeps].
  - destruct (start_nodes_running late (mk_Loop [] [] [] [])) as (new & E & Hn & Hk). unfold first_loop. rewrite E.
    change (lp_running _ ++ new) with new. split; [lia|done].
  - split; [lia|apply prepare_main].
Qed.

(** C17: the planner bounds driver operations across all deployments. However the tasks of a run
    are interleaved with each other, with other deployments and with the rest of the server,
    and whether they end or stop, every permit is free, held by another deployment, or held by
    a task that runs; and a task waits for the executor only while it holds one. So when the
    planner has [concurrency] permits, at most that many operations are in the executor. *)
Theorem executor_calls_bounded (w0 w : World) (s0 s : Stage) :
  run_start dep limits deadline s0 →
  rtc (any_step org digest dep limits deadline) (w0, s0) (w, s) →
  w_free w0 + w_others w0 = Nat.max (lm_concurrency limits) 1 →
  w_free w + w_others w + holding s = Nat.max (lm_concurrency limits) 1
  ∧ calling s ≤ holding s.
Proof.
  intros Hs Hr <-. pose proof (permits_start w0 s0 Hs) as Hi. revert Hi.
  generalize (w_free w0 + w_others w0). intros total Hi.
  assert (permits_inv total (w, s)) as [Ht Hk].
  { revert Hi. apply (rtc_invariant _ _ _ _ Hr). intros x y. apply permits_step. }
  split; [done|]. destruct s; cbn in *; try lia; by apply calling_bound.
Qed.
End bound.
