(* ===== verification/PlanOrder.v ===== *)
(** * The order of a run

    A resource is provisioned only after everything it depends on, and deleted only after
    everything that uses it; nothing is deleted unless the whole graph provisioned; and at the
    end every resource of the graph has an outcome. The invariants are those of the two loops
    of the planner, and hold however their tasks are interleaved. *)

From Stdlib Require Import Ascii.
From stdpp Require Import base sets strings list relations.
From S2P Require Import Prelude Effects Strings OrdMap Ids Json Model Placeholder Graph Db DbLogic Identity Rbac Apps Permits Deployments Resources IdentityInv DeployInv Access Operations Deletion PlanInputs PlanJob PlanTask PlanRun PlanLogic.

Local Open Scope string_scope.
Local Open Scope list_scope.
Local Open Scope nat_scope.

(** ** Results of tasks *)

Abbreviation returns Q := (follows (λ (_ : unit) (_ : Call), True) (λ l _ _, l) (λ _ r, Q r) tt).

(** What a resource that did not provision ends with. *)
Definition not_provisioned (o : Outcome) : bool :=
  match o with OFailed _ | OUnknown _ | OPending _ => true | _ => false end.

Definition node_result (r : result ResourceOutputs Outcome) : Prop :=
  match r with Ok _ => True | Err o => not_provisioned o = true end.

(** What a deployment may succeed with. *)
Definition good_outcome (o : Outcome) : bool :=
  match o with OProvisioned | ODeleted | OKept _ => true | _ => false end.

(** A task that deletes confirms the deletion, or ends badly. *)
Definition deletion_tried (r : result unit Outcome) : Prop :=
  match r with Ok _ => True | Err o => good_outcome o = false end.
Definition deletion_ended (o : Outcome) : Prop := o = ODeleted ∨ good_outcome o = false.

Section results.
Context `{System} `{Libraries} `{InputsReader} (dep : Deployment) (limits : Limits) (deadline : Z).

Abbreviation attempt_result := (λ r : result ResourceOutputs Outcome + string * option Z, match r with inl r => node_result r | inr _ => True end).

Lemma node_attempt_returns node version def scope dependencies fp :
  returns attempt_result (node_attempt dep deadline node version def scope dependencies fp).
Proof.
  unfold node_attempt.
  eapply (follows_bind _ _ (λ _ r, match r with Ok _ => True | Err o => not_provisioned o = true end)).
  { unfold acquire. walk. }
  intros [] [[]|o] Ho; [|done]. cbn [follows pbind ask]. split; [done|]. intros [started|e]; [|by unfold begin_failure; cbn; split; [done|]; intros _; destruct e].
  destruct (job _ _ _ _ _ _ _ _) as [j|]; [|by walk]. eapply (follows_bind _ _ (λ _ _, True)).
  { unfold provision_result, with_prior_state, record_and_provision, provision. walk. }
  intros [] [p|[| |]] _; unfold record_provisioned; walk.
Qed.

Lemma node_attempts_returns node version def scope dependencies fp more attempt :
  returns node_result (node_attempts dep limits deadline node version def scope dependencies fp more attempt).
Proof.
  revert attempt. induction more as [|more IH]; intros attempt; cbn [node_attempts];
    (eapply follows_bind; [apply node_attempt_returns|]); intros [] [r|[e after]] Hr; try done.
  unfold retry_delay, backoff. destruct after; walk; by apply IH.
Qed.

Lemma node_run_returns scope dependencies : returns node_result (node_run dep limits deadline scope dependencies).
Proof. unfold node_run. repeat case_match; try done. apply node_attempts_returns. Qed.

Abbreviation attempted := (λ r : result unit Outcome + string * option Z, match r with inl r => deletion_tried r | inr _ => True end).

Lemma delete_attempt_returns d r recorded attempt :
  returns attempted (delete_attempt dep deadline d r recorded attempt).
Proof.
  unfold delete_attempt. eapply (follows_bind _ _ (λ _, deletion_tried)); [unfold acquire; walk|].
  intros [] [[]|o] Ho; [|done].
  eapply (follows_bind _ _ (λ _, deletion_tried)); [by case_match; unfold check_permit; walk|].
  intros [] [[]|o] Hp; [|by cbn]. cbn [follows pbind ask]. split; [done|].
  intros [started|e]; [|by destruct e; cbn]. unfold delete_started.
  eapply (follows_bind _ _ (λ _ _, True)); [by case_match; unfold execute_deletion; walk|].
  intros [] result _. cbn [follows pbind ask]. split; [done|]. intros _.
  destruct result as [[]|[| |]]; [|by cbn; split; [done|]; intros [] ..]. eapply (follows_bind _ _ (λ _, deletion_tried)); [|done].
  unfold record_deletion. eapply (follows_bind _ _ (λ _ _, True)).
  { generalize 2, 50000000%Z. induction n as [|more IH]; intros; cbn; walk. }
  intros [] b _. unfold checkpoint. walk.
Qed.

Lemma delete_attempts_returns d r recorded more attempt :
  returns deletion_tried (delete_attempts dep limits deadline d r recorded more attempt).
Proof.
  revert attempt. induction more as [|more IH]; intros attempt; cbn [delete_attempts];
    (eapply follows_bind; [apply delete_attempt_returns|]); intros [] [o|[e after]] Hr; try done.
  unfold retry_delay, backoff. destruct after; walk; by apply IH.
Qed.

Lemma delete_run_returns d r : returns deletion_ended (delete_run dep limits deadline d r).
Proof.
  unfold delete_run. case_match; [|by right]. eapply follows_bind; [apply delete_attempts_returns|].
  intros [] [[]|o] Ho; [by left|by right].
Qed.
End results.

(** ** Tasks run once *)

Section once.
Context {A : Type}.
Implicit Types l : list (Descriptor * bool * prog A).

(** Each resource has one task, which started, and no outcome while it runs. *)
Definition run_once (started : list Descriptor) (outcomes : list (Descriptor * Outcome)) l : Prop :=
  NoDup l.*1.*1 ∧ ∀ d, d ∈ l.*1.*1 → d ∈ started ∧ bt_get d outcomes = None.

Lemma run_once_call started outcomes l i d h p h' p' :
  l !! i = Some (d, h, p) → run_once started outcomes l → run_once started outcomes (<[i := (d, h', p')]> l).
Proof.
  intros Hi. unfold run_once. assert ((<[i := (d, h', p')]> l).*1.*1 = l.*1.*1) as ->; [|done].
  rewrite !list_fmap_insert. apply list_insert_id. by rewrite !list_lookup_fmap, Hi.
Qed.

Lemma run_once_end started outcomes l i d h p o :
  l !! i = Some (d, h, p) → run_once started outcomes l → run_once started (bt_insert d o outcomes) (delete i l).
Proof.
  intros Hi [Hn Hr]. unfold run_once in *. rewrite delete_take_drop. rewrite <- (take_drop_middle _ _ _ Hi) in Hn, Hr.
  rewrite !fmap_app in *. cbn [fmap list_fmap fst] in *. apply NoDup_app in Hn as (Hn1 & Hn2 & Hn3).
  apply NoDup_cons in Hn3 as [Hd Hn3]. split.
  - apply NoDup_app. split_and!; [done| |done]. intros x Hx. specialize (Hn2 x Hx). set_solver.
  - intros x Hx. assert (x ≠ d) as Hne.
    { intros ->. apply elem_of_app in Hx as [Hx|Hx]; [|done]. specialize (Hn2 d Hx). set_solver. }
    rewrite bt_get_insert_ne by done. apply Hr. set_solver.
Qed.

Lemma run_once_start started outcomes l d h p :
  d ∉ started → bt_get d outcomes = None → run_once started outcomes l →
  run_once (bs_insert d started) outcomes (l ++ [(d, h, p)]).
Proof.
  intros Hd Ho [Hn Hr]. unfold run_once. rewrite !fmap_app. cbn. split.
  - apply NoDup_app. split_and!; [done| |apply NoDup_singleton].
    intros x Hx Hd'. apply list_elem_of_singleton in Hd' as ->. by destruct (Hr d Hx).
  - intros x Hx. rewrite elem_of_bs_insert. apply elem_of_app in Hx as [Hx|Hx%list_elem_of_singleton]; [|by subst; auto].
    destruct (Hr x Hx). auto.
Qed.

Lemma run_once_late started outcomes l d :
  run_once started outcomes l → run_once (bs_insert d started) outcomes l.
Proof. intros [Hn Hr]. split; [done|]. intros x Hx. rewrite elem_of_bs_insert. destruct (Hr x Hx). auto. Qed.

Lemma run_once_running started outcomes l i d h p :
  l !! i = Some (d, h, p) → run_once started outcomes l → d ∈ started ∧ bt_get d outcomes = None.
Proof.
  intros Hi [_ Hr]. apply Hr. apply list_elem_of_lookup. exists i. by rewrite !list_lookup_fmap, Hi.
Qed.
End once.

(** ** Provisioning *)

Section order.
Context `{System} `{Libraries} `{InputsReader} (org : string) (digest : string → string).
Context (dep : Deployment) (limits : Limits) (deadline : Z).

Abbreviation nodes := (bt_values (g_nodes (dep_graph dep))).

(** A resource of the graph whose dependencies provisioned. *)
Definition may_start (outcomes : list (Descriptor * Outcome)) (d : Descriptor) : Prop :=
  ∃ node, node ∈ nodes ∧ n_descriptor node = d ∧ ∀ x, x ∈ n_depends_on node → bt_get x outcomes = Some OProvisioned.

Record loop_inv (s : Loop) : Prop := {
  li_once : run_once (lp_started s) (lp_outcomes s) (lp_running s);
  li_done : ∀ d, bt_contains d (lp_done s) = true → bt_get d (lp_outcomes s) = Some OProvisioned;
  li_settled : ∀ d, is_Some (bt_get d (lp_outcomes s)) → d ∈ lp_started s;
  li_ready : ∀ d, d ∈ lp_started s → may_start (lp_outcomes s) d;
  li_ended : ∀ d o, bt_get d (lp_outcomes s) = Some o → o = OProvisioned ∨ not_provisioned o = true;
  li_results : Forall (λ t, returns node_result t.2) (lp_running s);
  li_wf : bt_wf (lp_outcomes s)
}.

Lemma start_node_inv late s node : node ∈ nodes → loop_inv s → loop_inv (start_node dep limits deadline late s node).
Proof.
  intros Hn [Ho Hd Hs Hr He Hq Hw]. unfold start_node. destruct (bs_mem _ _ || negb _) eqn:E; [done|].
  apply orb_false_elim in E as [E%bs_mem_false Hf]. apply negb_false_iff in Hf. rewrite forallb_forall in Hf.
  assert (bt_get (n_descriptor node) (lp_outcomes s) = None) as Hnone.
  { apply eq_None_not_Some. intros Hsome. by apply E, Hs. }
  assert (∀ d, d ∈ bs_insert (n_descriptor node) (lp_started s) → may_start (lp_outcomes s) d) as Hready.
  { intros d [-> |?]%elem_of_bs_insert; [|auto]. exists node. split_and!; [done..|]. intros x Hx.
    apply Hd, Hf. by apply list_elem_of_In. }
  case_match; split; cbn [lp_outcomes lp_done lp_started lp_running]; try done.
  - by apply run_once_late.
  - intros d Hd'. rewrite elem_of_bs_insert. auto.
  - by apply run_once_start.
  - intros d Hd'. rewrite elem_of_bs_insert. auto.
  - apply Forall_app. split; [done|]. constructor; [apply node_run_returns|constructor].
Qed.

Lemma start_nodes_inv late s : loop_inv s → loop_inv (start_nodes dep limits deadline late s).
Proof.
  unfold start_nodes. assert (∀ n, n ∈ nodes → n ∈ nodes) as Hl by done. revert Hl.
  generalize nodes at 1 3. intros l. revert s. induction l as [|n l IH]; intros s Hl Hs; [done|].
  simpl. apply IH; [set_solver|]. apply start_node_inv; [|done]. set_solver.
Qed.

Lemma may_start_insert outcomes d e o : bt_get e outcomes = None → may_start outcomes d → may_start (bt_insert e o outcomes) d.
Proof.
  intros He (node & Hn & Hd & Hx). exists node. split_and!; [done..|]. intros x Hin. specialize (Hx x Hin).
  rewrite bt_get_insert_ne; [done|]. by intros ->; rewrite He in Hx.
Qed.

Lemma join_node_inv s i d held p r :
  lp_running s !! i = Some (d, held, p) → node_result r → loop_inv s → loop_inv (join_node s i d r).
Proof.
  intros Hi Hr [Ho Hd Hs Hrd He Hq Hw]. destruct (run_once_running _ _ _ _ _ _ _ Hi Ho) as [Hst Hnone].
  assert (bt_contains d (lp_done s) = false) as Hnd.
  { destruct (bt_contains d (lp_done s)) eqn:E; [|done]. by rewrite (Hd _ E) in Hnone. }
  assert (∀ o x, is_Some (bt_get x (bt_insert d o (lp_outcomes s))) → x ∈ lp_started s) as Hs'.
  { intros o x. rewrite bt_get_insert_if. case_decide; [by subst|]. apply Hs. }
  assert (∀ o x, bt_contains x (lp_done s) = true → bt_get x (bt_insert d o (lp_outcomes s)) = Some OProvisioned) as Hd'.
  { intros o x Hx. rewrite bt_get_insert_ne; [by apply Hd|]. by intros ->; rewrite Hnd in Hx. }
  assert (∀ o x y, o = OProvisioned ∨ not_provisioned o = true → bt_get x (bt_insert d o (lp_outcomes s)) = Some y →
    y = OProvisioned ∨ not_provisioned y = true) as He'.
  { intros o x y Hoo. rewrite bt_get_insert_if. case_decide; [by intros [= <-]|]. apply He. }
  destruct r as [outputs|o]; split; cbn [join_node lp_outcomes lp_done lp_started lp_running];
    try (by eapply run_once_end); try (by intros; apply may_start_insert; auto); try (by apply Forall_delete);
    try (by apply Hs'); try (by apply Hd'); try (by apply bt_wf_insert).
  - intros x. unfold bt_contains. rewrite !bt_get_insert_if. case_decide; [done|]. apply Hd.
  - intros x y. apply He'. by left.
  - intros x y. apply He'. by right.
Qed.

(** *** When nothing runs *)

Definition accounted_for (outcomes : list (Descriptor * Outcome)) : Prop :=
  ∀ node, node ∈ nodes → ∃ o, bt_get (n_descriptor node) outcomes = Some o ∧ (o = OProvisioned ∨ not_provisioned o = true).

(** Before anything is deleted: if all provisioned, only the resources of the graph have outcomes;
    if not, there is an outcome to show for it. *)
Definition settled (outcomes : list (Descriptor * Outcome)) : Prop :=
  accounted_for outcomes
  ∧ (converged outcomes = true → ∀ d, is_Some (bt_get d outcomes) → ∃ node, node ∈ nodes ∧ n_descriptor node = d)
  ∧ (converged outcomes = false → ∃ d x, bt_get d outcomes = Some x ∧ not_provisioned x = true).

Lemma not_converged o :
  bt_wf o → converged o = false → ∃ d x, bt_get d o = Some x ∧ x ≠ OProvisioned.
Proof.
  intros Hw Hc. unfold converged in Hc. apply not_true_iff_false in Hc. rewrite forallb_forall in Hc.
  assert (Exists (λ x, x ≠ OProvisioned) (bt_values o)) as He.
  { apply not_Forall_Exists; [intros x; apply decide; apply _|]. rewrite Forall_forall. intros Hall. apply Hc. intros x Hx.
    apply bool_decide_eq_true, Hall. by apply list_elem_of_In. }
  apply Exists_exists in He as (x & Hx & Hne). apply list_elem_of_fmap_1 in Hx as ([d y] & -> & Hx).
  exists d, y. by rewrite bt_get_Some.
Qed.

Lemma leave_pending_wf late l o : bt_wf o → bt_wf (foldl (leave_pending late) o l).
Proof.
  revert o. induction l as [|n l IH]; intros o Hw; [done|]. simpl. apply IH. unfold leave_pending. case_match; [done|].
  by apply bt_wf_insert.
Qed.

Lemma leave_pending_kept late l o d x :
  bt_get d o = Some x → bt_get d (foldl (leave_pending late) o l) = Some x.
Proof.
  revert o. induction l as [|n l IH]; intros o Ho; [done|]. simpl. apply IH. unfold leave_pending, bt_contains.
  destruct (bt_get (n_descriptor n) o) eqn:E; simpl; [done|]. rewrite bt_get_insert_ne; [done|]. congruence.
Qed.

Lemma leave_pending_new late l o d x :
  bt_get d (foldl (leave_pending late) o l) = Some x →
  bt_get d o = Some x ∨ (∃ node, node ∈ l ∧ n_descriptor node = d) ∧ not_provisioned x = true.
Proof.
  revert o. induction l as [|n l IH]; intros o Ho; [by left|]. simpl in Ho.
  apply IH in Ho as [Ho|[(m & Hm & Hd) Hx]]; [|right; split; [exists m; set_solver|done]].
  unfold leave_pending in Ho. case_match; [by left|]. rewrite bt_get_insert_if in Ho. case_decide; [|by left].
  injection Ho as <-. right. split; [exists n; set_solver|done].
Qed.

Lemma leave_pending_all late l o n : n ∈ l → is_Some (bt_get (n_descriptor n) (foldl (leave_pending late) o l)).
Proof.
  revert o. induction l as [|m l IH]; intros o Hn; [by apply not_elem_of_nil in Hn|]. simpl.
  apply elem_of_cons in Hn as [-> |Hn]; [|by apply IH].
  assert (is_Some (bt_get (n_descriptor m) (leave_pending late o m))) as [x Hx].
  { unfold leave_pending, bt_contains. destruct (bt_get (n_descriptor m) o) eqn:E; simpl; [by rewrite E|].
    by rewrite bt_get_insert_eq. }
  eapply leave_pending_kept in Hx. rewrite Hx. by eexists.
Qed.

Lemma settle_nodes_settled late s : loop_inv s → settled (settle_nodes dep late (lp_outcomes s)).
Proof.
  intros [_ _ Hs Hr He _ Hw]. unfold settle_nodes. split_and!.
  - intros node Hn. destruct (leave_pending_all late nodes (lp_outcomes s) node Hn) as [x Hx]. exists x. split; [done|].
    apply leave_pending_new in Hx as [Hx|[_ Hx]]; [by eapply He|by right].
  - intros _ d [x Hx]. apply leave_pending_new in Hx as [Hx|[Hx _]]; [|done].
    destruct (Hr d) as (node & Hn & Hd & _); [by apply Hs|by exists node].
  - intros (d & x & Hx & Hne)%not_converged; [|by apply leave_pending_wf]. exists d, x. split; [done|].
    apply leave_pending_new in Hx as [[?|?]%He|[_ Hx]]; done.
Qed.

Lemma converged_all o d x : converged o = true → bt_get d o = Some x → x = OProvisioned.
Proof.
  unfold converged. rewrite forallb_forall. intros Hc Hx. apply bt_get_elem in Hx.
  eapply bool_decide_eq_true, Hc, list_elem_of_In, (list_elem_of_fmap_2 snd _ _ Hx).
Qed.

Lemma failed_all (missing : list (Descriptor * string)) (o : list (Descriptor * Outcome)) :
  (∀ d, is_Some (bt_get d o) → ∃ e, bt_get d o = Some (OFailed e)) →
  ∀ d, d ∈ bt_keys missing ∨ is_Some (bt_get d o) →
  ∃ e, bt_get d (foldl (λ o m, bt_insert m.1 (OFailed m.2) o) o missing) = Some (OFailed e).
Proof.
  revert o. induction missing as [|[m e] missing IH]; intros o Ho d Hd; simpl.
  - destruct Hd as [Hd|Hd]; [by apply not_elem_of_nil in Hd|auto].
  - apply IH.
    + intros x. rewrite bt_get_insert_if. case_decide; [by eexists|]. apply Ho.
    + rewrite bt_get_insert_if. case_decide; [right; by eexists|].
      destruct Hd as [Hd|Hd]; [|by right]. left. by apply elem_of_cons in Hd as [->|?].
Qed.

Abbreviation all_missing missing o := (∀ d, d ∈ bt_keys missing → ∃ e, bt_get d o = Some (OFailed e)).
Abbreviation has_failed o d := (∃ x, bt_get d o = Some x ∧ not_provisioned x = true).

(** The rest of the graph is left out. *)
Lemma refuse_rest why (missing : list (Descriptor * string)) l o :
  all_missing missing o →
  let o' := foldl (λ o node, if bt_contains (n_descriptor node) missing then o
    else bt_insert (n_descriptor node) (OPending (refusal_text why)) o) o l in
  all_missing missing o'
  ∧ ∀ d, has_failed o d ∨ (∃ node, node ∈ l ∧ n_descriptor node = d) → has_failed o' d.
Proof.
  revert o. induction l as [|n l IH]; intros o Ho; simpl.
  { split; [done|]. intros d [?|(node & Hn & _)]; [done|by apply not_elem_of_nil in Hn]. }
  assert (bt_contains (n_descriptor n) missing = true ↔ n_descriptor n ∈ bt_keys missing) as Hc.
  { rewrite bt_get_keys. unfold bt_contains. destruct (bt_get _ missing); simpl; split; try done; by intros []. }
  destruct (bt_contains (n_descriptor n) missing).
  - destruct (IH o Ho) as [Hm Hf]. split; [done|]. intros d Hd. apply Hf.
    destruct Hd as [?|(node & [-> |Hn]%elem_of_cons & Hd)]; [by left| |right; by exists node].
    left. destruct (Ho d) as [e He]; [subst; by apply Hc|]. by eexists.
  - assert (n_descriptor n ∉ bt_keys missing) as Hnot by (intros Hx; by apply Hc in Hx).
    destruct (IH (bt_insert (n_descriptor n) (OPending (refusal_text why)) o)) as [Hm Hf].
    { intros d Hd. rewrite bt_get_insert_ne; [by apply Ho|]. by intros ->. }
    split; [done|]. intros d Hd. apply Hf. rewrite bt_get_insert_if. case_decide as E; [left; by eexists|].
    destruct Hd as [?|(node & [-> |Hn]%elem_of_cons & Hd)]; [by left|by subst|right; by exists node].
Qed.

Lemma refuse_settled why missing : missing ≠ [] → settled (refuse dep why missing).
Proof.
  intros Hne. unfold refuse. destruct (refuse_rest why missing nodes
    (foldl (λ o m, bt_insert m.1 (OFailed m.2) o) [] missing)) as [Hmiss Hall].
  { intros d Hd. apply failed_all; [|by left]. intros x. simpl. by intros []. }
  assert (∃ m e, bt_get m (refuse dep why missing) = Some (OFailed e)) as (m & e & He).
  { destruct missing as [|[m e] missing]; [done|]. exists m. apply Hmiss. left. }
  split_and!; [|by intros Hc; pose proof (converged_all _ _ _ Hc He)|by intros _; exists m, (OFailed e)].
  - intros node Hn. destruct (Hall (n_descriptor node)) as (x & Hx & Hp); [right; by exists node|]. exists x. auto.
Qed.

(** *** What counts as success *)

Definition clean (s : Summary) : Prop := sm_failed s = [] ∧ sm_unknown s = [] ∧ sm_pending s = 0.

Lemma summarize_clean l s : clean (foldl summarize s l) ↔ clean s ∧ ∀ c, c ∈ l → good_outcome c.2 = true.
Proof.
  revert s. induction l as [|[d o] l IH]; intros s; cbn [foldl]; [set_solver|]. rewrite IH.
  assert (clean (summarize s (d, o)) ↔ clean s ∧ good_outcome o = true) as ->; [|set_solver].
  unfold clean, summarize. assert (∀ (a : list string) b, a ++ [b] = [] ↔ False) as Hne by (by intros []).
  destruct o; cbn; rewrite ?Hne; naive_solver lia.
Qed.

Lemma summary_None o : summary o = None ↔ ∀ d x, (d, x) ∈ o → good_outcome x = true.
Proof.
  transitivity (∀ c, c ∈ o → good_outcome c.2 = true); [|split; [intros Hc d x; apply Hc|intros Hc []; apply Hc]].
  pose proof (summarize_clean o (mk_Summary [] [] 0)) as Hs. unfold clean in Hs. unfold summary.
  destruct (foldl summarize _ o) as [failed unknown pending]. cbn in *.
  destruct failed, unknown, pending; naive_solver.
Qed.

(** *** The plan of deletions *)

Section past.
(** The states of the store that the run went through. *)
Context (past : Db → Prop).

(** The environment's resources in one of them, and what was removed from the environment. *)
Definition listed (active : list ResourceRow) : Prop :=
  ∃ x, past x ∧ ∀ r, r ∈ active ↔ r ∈ db_active_resources x ∧ rs_app r = dep_app dep ∧ rs_env r = dep_env dep.
Definition buried (stones : list TombstoneRow) : Prop :=
  ∃ x, past x ∧ ∀ t, t ∈ stones ↔ t ∈ db_tombstones x ∧ tb_app t = dep_app dep ∧ tb_env t = dep_env dep.

(** The plan is made from a listing of the resources and the tombstones. *)
Definition planned (plan : DeletePlan) : Prop :=
  ∃ active stones, listed active ∧ buried stones ∧ plan =
    let (candidates, mandatory) := deletion_candidates (dep_graph dep) (dep_teardown dep) active in
    mk_DeletePlan candidates mandatory (detached_users detached_name stones (active_users active [])).

(** Something uses the resource that this run did not delete: a resource that was listed, or one
    that was detached. *)
Definition still_used (active : list ResourceRow) (o : list (Descriptor * Outcome)) (name : string) : Prop :=
  ∃ stones u, buried stones ∧ used_in active stones detached_name name u
    ∧ ∀ d, Descriptor_show d = u → bt_get d o ≠ Some ODeleted.

(** Every removal was carried out, or was not needed and is prevented by a use. *)
Definition removals_settled (o : list (Descriptor * Outcome)) : Prop :=
  ∃ active, listed active ∧
    let (candidates, mandatory) := deletion_candidates (dep_graph dep) (dep_teardown dep) active in
    ∀ d r, (d, r) ∈ candidates →
      bt_get d o = Some ODeleted
      ∨ (∃ why, bt_get d o = Some (OKept why)) ∧ rs_descriptor r ∉ mandatory ∧ still_used active o (rs_descriptor r).

Definition prepared_ok (o : list (Descriptor * Outcome)) (r : Prepared) : Prop :=
  match r with
  | NothingToDelete o' listed => accounted_for o' ∧ (listed = Ok tt → summary o' = None → removals_settled o')
  | ToDelete plan => converged o = true ∧ planned plan
  end.

(** How the plan is made: before the resources are listed, before the tombstones are, and after. *)
Inductive preparing (o : list (Descriptor * Outcome)) : prog Prepared → Prop :=
| preparing_first : preparing o (prepare_deletion dep o)
| preparing_second active candidates mandatory k :
    listed active → deletion_candidates (dep_graph dep) (dep_teardown dep) active = (candidates, mandatory) →
    converged o = true →
    k = (λ stones : result (list TombstoneRow) StoreError, match stones with
      | Err e => Done (NothingToDelete o (Err (not_listed e)))
      | Ok stones => Done (ToDelete (mk_DeletePlan candidates mandatory
          (detached_users detached_name stones (active_users active []))))
      end) →
    preparing o (Ask (CTombstones (dep_org dep) (dep_app dep) (dep_env dep)) k)
| preparing_last r : prepared_ok o r → preparing o (Done r).

Lemma leave_candidates_kept candidates o d x : bt_get d o = Some x → bt_get d (leave_candidates candidates o) = Some x.
Proof.
  unfold leave_candidates. generalize (bt_keys candidates). intros l. revert o.
  induction l as [|k l IH]; intros o Ho; [done|]. simpl. apply IH. unfold bt_contains.
  destruct (bt_get k o) eqn:E; simpl; [done|]. rewrite bt_get_insert_ne; [done|]. congruence.
Qed.

Lemma active_listed w w' r :
  answers org w (CActiveResources (dep_org dep) (dep_app dep) (dep_env dep)) (Ok r) w' →
  past (c_db (w_conn w)) → listed r.
Proof.
  intros (c' & [Hx|(e & ? & _)] & _) Hp; [|done]. exists (c_db (w_conn w)). split; [done|].
  destruct (active_resources _ _ _ _ (w_conn w)) as [[a c1]|] eqn:E; destruct Hx as [[= ->] _].
  unfold active_resources in E. inv_tx E. intros x. unfold res_in_env.
  rewrite sort_by_key_perm, elem_of_select, andb_true_iff, !String.eqb_eq. naive_solver.
Qed.

Lemma stones_buried w w' r :
  answers org w (CTombstones (dep_org dep) (dep_app dep) (dep_env dep)) (Ok r) w' →
  past (c_db (w_conn w)) → buried r.
Proof.
  intros (c' & [Hx|(e & ? & _)] & _) Hp; [|done]. exists (c_db (w_conn w)). split; [done|].
  destruct (tombstones _ _ _ _ (w_conn w)) as [[a c1]|] eqn:E; destruct Hx as [[= ->] _].
  unfold tombstones in E. inv_tx E. intros x. rewrite sort_by_key_perm, elem_of_select, andb_true_iff, !String.eqb_eq.
  naive_solver.
Qed.

Lemma summary_bad d x o : bt_get d o = Some x → good_outcome x = false → summary o ≠ None.
Proof. intros Hx Hb Hs. rewrite summary_None in Hs. apply bt_get_elem, Hs in Hx. congruence. Qed.

Lemma preparing_answers o p :
  settled o → preparing o p →
  match p with
  | Ask c k => ∀ w w' a, past (c_db (w_conn w)) → answers org w c a w' → preparing o (k a)
  | Done r => prepared_ok o r
  end.
Proof.
  intros (Ha & _ & Hbad) [|active candidates mandatory k Hl Ec Hc ->|r Hr]; [cbn [prepare_deletion pbind ask]| |done];
    intros w w' a Hpast Hans.
  - destruct a as [active|e]; [|by apply preparing_last; cbn].
    pose proof (active_listed _ _ _ Hans Hpast) as Hl.
    destruct (deletion_candidates _ _ _) as [candidates mandatory] eqn:Ec. destruct candidates as [|c candidates].
    { apply preparing_last. split; [done|]. intros _ _. exists active. rewrite Ec. split; [done|]. by intros ?? ?%not_elem_of_nil. }
    destruct (converged o) eqn:Ecv; cbn [negb]; [by eapply preparing_second|]. apply preparing_last. split.
    + intros node Hn. destruct (Ha node Hn) as (x & Hx & Hp'). exists x. split; [|done]. by apply leave_candidates_kept.
    + intros _ Hs. destruct Hbad as (d & x & Hx & Hb); [done|]. exfalso. revert Hs.
      eapply summary_bad; [by apply leave_candidates_kept|by destruct x].
  - destruct a as [stones|e]; apply preparing_last; [|by split].
    split; [done|]. exists active, stones. rewrite Ec. split_and!; [done| |done]. by eapply stones_buried.
Qed.

(** ** Deleting *)

(** The graph's keys are its nodes' descriptors. *)
Definition keyed : Prop := ∀ d node, (d, node) ∈ g_nodes (dep_graph dep) → n_descriptor node = d.

Lemma planned_outside plan d r node :
  keyed → planned plan → (d, r) ∈ dx_candidates plan → node ∈ nodes → n_descriptor node ≠ d.
Proof.
  intros Hk (active & stones & _ & _ & ->) Hc Hn <-. destruct (candidates_outside (dep_graph dep) (dep_teardown dep) active) as [_ Ho].
  destruct (deletion_candidates _ _ _) as [candidates mandatory]. destruct (Ho _ _ Hc) as (_ & _ & Hnone).
  apply list_elem_of_fmap_1 in Hn as ([d' node'] & -> & Hn). simpl in *. rewrite (Hk _ _ Hn) in Hnone.
  apply eq_None_not_Some in Hnone. apply Hnone. apply bt_get_keys. by apply (list_elem_of_fmap_2 fst) in Hn.
Qed.

Record delete_inv (plan : DeletePlan) (s : DeleteLoop) : Prop := {
  dv_once : run_once (dl_started s) (dl_outcomes s) (dl_running s);
  dv_graph : ∀ node, node ∈ nodes → bt_get (n_descriptor node) (dl_outcomes s) = Some OProvisioned;
  dv_deleted : ∀ u, u ∈ dl_deleted s ↔ ∃ d, Descriptor_show d = u ∧ bt_get d (dl_outcomes s) = Some ODeleted;
  dv_settled : ∀ d, is_Some (bt_get d (dl_outcomes s)) →
    d ∈ dl_started s ∨ ∃ node, node ∈ nodes ∧ n_descriptor node = d;
  dv_ready : ∀ d, d ∈ dl_started s →
    ∃ r, (d, r) ∈ dx_candidates plan ∧ ready_to_delete (dx_users plan) (dl_deleted s) r = true;
  dv_ended : ∀ d x, d ∈ dl_started s → bt_get d (dl_outcomes s) = Some x → deletion_ended x;
  dv_results : Forall (λ t, returns deletion_ended t.2) (dl_running s)
}.

Lemma start_deletion_inv plan late s c :
  keyed → planned plan → c ∈ dx_candidates plan → delete_inv plan s →
  delete_inv plan (start_deletion dep limits deadline plan late s c).
Proof.
  intros Hk Hp Hc [Ho Hg Hd Hs Hr He Hq]. destruct c as [d r]. unfold start_deletion.
  destruct (bs_mem _ _ || negb _) eqn:E; [done|]. apply orb_false_elim in E as [E%bs_mem_false Hf].
  apply negb_false_iff in Hf.
  assert (bt_get d (dl_outcomes s) = None) as Hnone.
  { apply eq_None_not_Some. intros [?|(node & Hn & Hd')]%Hs; [done|]. by eapply planned_outside. }
  assert (∀ e, e ∈ bs_insert d (dl_started s) →
    ∃ r, (e, r) ∈ dx_candidates plan ∧ ready_to_delete (dx_users plan) (dl_deleted s) r = true) as Hready.
  { intros e [-> |?]%elem_of_bs_insert; [by exists r|auto]. }
  assert (∀ e, is_Some (bt_get e (dl_outcomes s)) →
    e ∈ bs_insert d (dl_started s) ∨ ∃ node, node ∈ nodes ∧ n_descriptor node = e) as Hs'.
  { intros e [?|?]%Hs; [left; by apply elem_of_bs_insert; right|by right]. }
  assert (∀ e x, e ∈ bs_insert d (dl_started s) → bt_get e (dl_outcomes s) = Some x → deletion_ended x) as He'.
  { intros e x [-> |?]%elem_of_bs_insert; [by rewrite Hnone|by apply He]. }
  case_match; split; cbn [dl_outcomes dl_deleted dl_started dl_running]; try done.
  - by apply run_once_late.
  - by apply run_once_start.
  - apply Forall_app. split; [done|]. constructor; [apply delete_run_returns|constructor].
Qed.

Lemma start_deletions_inv plan late s :
  keyed → planned plan → delete_inv plan s → delete_inv plan (start_deletions dep limits deadline plan late s).
Proof.
  intros Hk Hp. unfold start_deletions. assert (∀ c, c ∈ dx_candidates plan → c ∈ dx_candidates plan) as Hl by done.
  revert Hl. generalize (dx_candidates plan) at 1 3. intros l. revert s.
  induction l as [|c l IH]; intros s Hl Hs; [done|]. simpl. apply IH; [set_solver|].
  apply start_deletion_inv; try done. set_solver.
Qed.

Lemma ready_more users deleted deleted' r :
  (∀ u, u ∈ deleted → u ∈ deleted') → ready_to_delete users deleted r = true → ready_to_delete users deleted' r = true.
Proof.
  intros Hsub. unfold ready_to_delete. rewrite !orb_true_iff, !forallb_forall. intros [?|Hall]; [by left|]. right.
  intros u Hu. apply bs_mem_spec, Hsub, bs_mem_spec. auto.
Qed.

Lemma join_deletion_inv plan s i d held p o :
  keyed → planned plan → dl_running s !! i = Some (d, held, p) → deletion_ended o → delete_inv plan s →
  delete_inv plan (join_deletion s i d o).
Proof.
  intros Hk Hp Hi Hend [Ho Hg Hd Hs Hr He Hq]. destruct (run_once_running _ _ _ _ _ _ _ Hi Ho) as [Hst Hnone].
  assert (∀ u, u ∈ dl_deleted (join_deletion s i d o) ↔ u ∈ dl_deleted s ∨ u = Descriptor_show d ∧ o = ODeleted) as Hdel.
  { intros u. cbn. case_bool_decide; rewrite ?elem_of_bs_insert; naive_solver. }
  split; cbn [join_deletion dl_outcomes dl_started dl_running].
  - by eapply run_once_end.
  - intros node Hn. rewrite bt_get_insert_ne; [by apply Hg|]. destruct (Hr d Hst) as (r & Hc & _).
    by eapply planned_outside.
  - intros u. rewrite Hdel, Hd. split.
    + intros [(e & Hshow & Hx)|[-> ->]]; [|exists d; by rewrite bt_get_insert_eq].
      exists e. split; [done|]. rewrite bt_get_insert_ne; [done|]. congruence.
    + intros (e & Hshow & Hx). rewrite bt_get_insert_if in Hx. case_decide; [right|left; by exists e].
      subst e. by simplify_eq.
  - intros e. rewrite bt_get_insert_if. case_decide; [by subst; left|]. apply Hs.
  - intros e Hin. destruct (Hr e Hin) as (r & Hc & Hready). exists r. split; [done|]. eapply ready_more, Hready.
    intros u Hu. apply Hdel. by left.
  - intros e x Hin. rewrite bt_get_insert_if. case_decide; [by intros [= <-]|]. by apply He.
  - by apply Forall_delete.
Qed.

Lemma leave_candidate_kept plan deleted kept late l o d x :
  (∀ c, c ∈ l → c.1 ≠ d) → bt_get d o = Some x → bt_get d (foldl (leave_candidate plan deleted kept late) o l) = Some x.
Proof.
  revert o. induction l as [|[e r] l IH]; intros o Hne Hx; [done|]. simpl. apply IH; [set_solver|].
  rewrite bt_get_insert_ne; [done|]. intros ->. by eapply (Hne (e, r)); [left|].
Qed.

Lemma settle_deletions_kept plan late s d x :
  bt_get d (dl_outcomes s) = Some x → bt_get d (settle_deletions plan late s) = Some x.
Proof.
  intros Hx. unfold settle_deletions. apply leave_candidate_kept; [|done].
  intros c [Hc _]%list_elem_of_filter <-. unfold bt_contains in Hc. by rewrite Hx in Hc.
Qed.

(** *** What was not deleted *)

Lemma bt_keys_insert_eq {V} k (v : V) (m : list (string * V)) : bt_keys (bt_insert k v m) = bs_insert k (bt_keys m).
Proof.
  induction m as [|[j u] m IH]; [done|]. cbn [bt_insert bs_insert bt_keys fmap list_fmap fst] in *.
  destruct (cmp k j) eqn:E; [by apply cmp_eq_iff in E as ->|done|]. exact (f_equal (cons j) IH).
Qed.

Lemma bt_contains_keys {V} k (m : list (string * V)) : bt_contains k m = bs_mem k (bt_keys m).
Proof.
  unfold bt_contains. pose proof (bt_get_keys k m) as Hk. destruct (bs_mem k (bt_keys m)) eqn:E.
  - apply bs_mem_spec, Hk in E as [x ->]. done.
  - apply bs_mem_false in E. rewrite Hk in E. by apply eq_None_not_Some in E as ->.
Qed.

(** Who keeps a resource is found as what stays is. *)
Lemma keeper_one_keep plan deleted kept ch r :
  let k := keep_one (blockers plan deleted) (candidate_names (dx_candidates plan)) (dx_mandatory plan) (bt_keys kept, ch) r in
  let k' := keeper_one plan deleted (kept, ch) r in
  (bt_keys k'.1, k'.2) = k.
Proof.
  unfold keep_one, keeper_one. rewrite bt_contains_keys. destruct (_ || _); [done|]. destruct (find _ _) as [u|] eqn:E.
  - apply find_Some in E as [Hu Hc]. cbn [fst snd]. rewrite bt_keys_insert_eq, (proj2 (existsb_exists _ _)); [done|].
    exists u. split; [by apply list_elem_of_In|]. by rewrite bt_contains_keys in Hc.
  - destruct (existsb _ _) eqn:Ex; [|done]. apply existsb_exists in Ex as (u & Hu%list_elem_of_In & Hc).
    rewrite find_None in E. apply E in Hu. by rewrite bt_contains_keys, Hc in Hu.
Qed.

Lemma keeper_round plan deleted kept ch l :
  let s := foldl (keeper_one plan deleted) (kept, ch) l in
  (bt_keys s.1, s.2)
  = foldl (keep_one (blockers plan deleted) (candidate_names (dx_candidates plan)) (dx_mandatory plan)) (bt_keys kept, ch) l.
Proof.
  revert kept ch. induction l as [|r l IH]; intros kept ch; [done|]. cbn [foldl]. rewrite <- keeper_one_keep.
  destruct (keeper_one plan deleted (kept, ch) r) as [kept' ch']. apply IH.
Qed.

(** A blocker of a resource: a user that was not deleted. *)
Definition blocks (plan : DeletePlan) (deleted : list string) (name u : string) : Prop :=
  u ∈ users_get (dx_users plan) name ∧ u ∉ deleted.

(** The rounds end, with exactly the resources that stay. *)
Lemma keepers_total plan deleted l :
  ∃ kept, keepers plan deleted l = Some kept
    ∧ ∀ n, n ∈ bt_keys kept ↔ stays (blocks plan deleted) (candidate_names (dx_candidates plan)) (dx_mandatory plan) l.*2 n.
Proof.
  destruct (keep_rounds_total (blockers plan deleted) (candidate_names (dx_candidates plan)) (dx_mandatory plan) l.*2
    (blocks plan deleted)) with (fuel := S (length l)) as (kept & Hk & Hs).
  { intros r u. unfold blockers, blocks. rewrite list_elem_of_filter, bs_mem_false. tauto. }
  { rewrite length_fmap. lia. }
  unfold keepers. change (@nil string) with (bt_keys (@nil (string * string))) in Hk. revert Hk.
  generalize (@nil (string * string)), (S (length l)). intros m fuel. revert m.
  induction fuel as [|fuel IH]; intros m; [done|]. cbn [until_stable]. unfold keep_round at 1.
  pose proof (keeper_round plan deleted m false l.*2) as Hr. cbn in Hr. rewrite <- Hr.
  destruct (foldl (keeper_one plan deleted) (m, false) l.*2) as [m' [|]]; cbn; [apply IH|].
  intros [= <-]. by exists m'.
Qed.

(** What a candidate without an outcome is left with. *)
Definition left_with (kept : list (string * string)) (l : list (Descriptor * ResourceRow)) (d : Descriptor) (x : Outcome) : Prop :=
  ∃ r, (d, r) ∈ l ∧ (good_outcome x = false ∨ ∃ why, x = OKept why ∧ rs_descriptor r ∈ bt_keys kept).

Lemma leave_one plan deleted kept late l o d r :
  (d, r) ∈ l → ∃ x, bt_get d (leave_candidate plan deleted kept late o (d, r)) = Some x ∧ left_with kept l d x.
Proof.
  intros Hin. cbn. rewrite bt_get_insert_eq. eexists. split; [done|]. exists r. split; [done|].
  destruct (bt_get (rs_descriptor r) kept) eqn:E; [right|by left]. eexists. split; [done|]. apply bt_get_keys. by eexists.
Qed.

Lemma leave_candidate_new plan deleted kept late l l' o d x :
  (∀ c, c ∈ l → c ∈ l') → bt_get d (foldl (leave_candidate plan deleted kept late) o l) = Some x →
  bt_get d o = Some x ∨ left_with kept l' d x.
Proof.
  revert o. induction l as [|[e r] l IH]; intros o Hl Hx; [by left|]. cbn [foldl] in Hx.
  apply IH in Hx as [Hx|Hx]; [|by right|set_solver]. destruct (decide (d = e)) as [->|Hne].
  - right. destruct (leave_one plan deleted kept late l' o e r) as (y & Hy & Hleft); [apply Hl; left|]. congruence.
  - left. cbn in Hx. by rewrite bt_get_insert_ne in Hx.
Qed.

Lemma leave_candidate_all plan deleted kept late l o d r :
  (d, r) ∈ l → ∃ x, bt_get d (foldl (leave_candidate plan deleted kept late) o l) = Some x ∧ left_with kept l d x.
Proof.
  intros Hin. assert (∀ l' o, (∀ c, c ∈ l' → c ∈ l) →
    (∃ x, bt_get d o = Some x ∧ left_with kept l d x) ∨ (d, r) ∈ l' →
    ∃ x, bt_get d (foldl (leave_candidate plan deleted kept late) o l') = Some x ∧ left_with kept l d x) as Hall; [|by eauto].
  intros l'. induction l' as [|[e q] l' IH]; intros o' Hl Hor; cbn [foldl].
  - destruct Hor as [?|?%not_elem_of_nil]; done.
  - apply IH; [set_solver|]. destruct (decide (d = e)) as [->|Hne].
    + left. apply leave_one. apply Hl. left.
    + destruct Hor as [(x & Hx & Hleft)|[[= -> ->]|?]%elem_of_cons]; [left|done|by right].
      exists x. cbn. by rewrite bt_get_insert_ne.
Qed.

Lemma users_used plan active stones candidates mandatory name u :
  plan = mk_DeletePlan candidates mandatory (detached_users detached_name stones (active_users active [])) →
  u ∈ users_get (dx_users plan) name ↔ used_in active stones detached_name name u.
Proof. intros ->. apply users_spec. Qed.

(** A deployment that ends well carried its removals out. *)
Lemma settle_deletions_settled plan late s :
  keyed → planned plan → delete_inv plan s → summary (settle_deletions plan late s) = None →
  removals_settled (settle_deletions plan late s).
Proof.
  intros Hk Hp Hi Hsum. pose proof (planned_outside plan) as Hout. destruct Hp as (active & stones & Hl & Hb & Hplan).
  exists active. split; [done|]. destruct (candidates_outside (dep_graph dep) (dep_teardown dep) active) as [Hwf _].
  destruct (deletion_candidates _ _ active) as [candidates mandatory] eqn:Ec. cbn [fst] in Hwf.
  assert (dx_candidates plan = candidates ∧ dx_mandatory plan = mandatory) as [E1 E2] by (by rewrite Hplan).
  assert (∀ d x, bt_get d (settle_deletions plan late s) = Some x → good_outcome x = true) as Hgood.
  { intros d x Hx. eapply summary_None, bt_get_elem, Hx. done. }
  intros d r Hc. destruct (bt_get d (dl_outcomes s)) as [x|] eqn:Ex.
  - left. pose proof (settle_deletions_kept plan late s d x Ex) as Hx.
    assert (deletion_ended x) as [-> |Hbad]; [|done|by rewrite (Hgood d x Hx) in Hbad].
    destruct (dv_settled _ _ Hi d) as [Hst|(node & Hn & Hd)]; [by eexists|by eapply dv_ended|]. exfalso.
    eapply (Hout d r node); try done; [|by rewrite E1]. exists active, stones. by rewrite Ec.
  - right. unfold settle_deletions in *. set (left_ := undecided plan (dl_outcomes s)) in *.
    destruct (keepers_total plan (dl_deleted s) left_) as (kept & Hkept & Hstays). rewrite Hkept in *. cbn [option_default] in *.
    assert ((d, r) ∈ left_) as Hin.
    { subst left_. unfold undecided. apply list_elem_of_filter. split; [|by rewrite E1]. cbn [fst]. unfold bt_contains. by rewrite Ex. }
    destruct (leave_candidate_all plan (dl_deleted s) kept late left_ (dl_outcomes s) d r Hin) as (x & Hx & q & Hq & [Hbad|(why & -> & Hn)]).
    { by rewrite (Hgood d x Hx) in Hbad. }
    assert (q = r) as ->.
    { subst left_. apply list_elem_of_filter in Hq as [_ Hq]. rewrite E1 in Hq. apply bt_get_Some in Hq, Hc; [|done..]. congruence. }
    split; [by exists why|]. apply Hstays in Hn.
    assert (rs_descriptor r ∉ mandatory ∧ ∃ u, blocks plan (dl_deleted s) (rs_descriptor r) u) as [Hm (u & Hu & Hnd)].
    { rewrite E2 in Hn. by inversion Hn as [? u ? Hm Hu ? E|? u ? Hm Hu ? E]; rewrite <- ?E; eauto. }
    split; [done|]. exists stones, u. split_and!; [done|by eapply users_used|].
    intros e Hshow Hdel. apply Hnd. apply leave_candidate_new with (l' := left_) in Hdel as [Hdel|(q & _ & [?|(y & ? & _)])]; try done.
    eapply dv_deleted; [done|by exists e].
Qed.

(** ** The report *)

Lemma run_error_None o listed lost : run_error o listed lost = None → summary o = None ∧ listed = Ok tt.
Proof. unfold run_error, with_lost_lines. by destruct (summary o), listed as [[]|], lost. Qed.

(** What a report may finish the deployment with. *)
Definition report_allowed (o : list (Descriptor * Outcome)) (_ : unit) (c : Call) : Prop :=
  match c with
  | CFinish _ _ _ id error => id = dep_id dep ∧ (error = None → summary o = None ∧ removals_settled o)
  | CRecordStatus _ _ _ id _ _ _ => id = dep_id dep
  | _ => False
  end.
Abbreviation reports o := (follows (report_allowed o) (λ l _ _, l) (λ _ _, True) tt).

Lemma report_ok o listed lost :
  (listed = Ok tt → summary o = None → removals_settled o) → reports o (report dep o listed lost).
Proof.
  intros Hrem. unfold report. eapply (follows_bind _ _ (λ _ _, True)).
  - generalize o at 2. intros l. induction l as [|c l IH]; [done|]. cbn [record_outcomes]. unfold record_outcome.
    by destruct (run_status _) as [[]|]; cbn.
  - intros [] [] _. cbn. split; [|done]. split; [done|]. intros [Hs Hl]%run_error_None. auto.
Qed.

(** ** The run *)

Definition stage_ok (s : Stage) : Prop :=
  match s with
  | Provisioning s => loop_inv s
  | Preparing o p => settled o ∧ preparing o p
  | Deleting plan s => planned plan ∧ delete_inv plan s
  | Reporting o p => accounted_for o ∧ reports o p
  end.

Lemma stage_start s : run_start dep limits deadline s → stage_ok s.
Proof.
  intros [late|why missing Hm]; cbn.
  - apply start_nodes_inv. split; cbn; try done; [|by intros d ?%not_elem_of_nil|apply bt_wf_nil].
    split; [apply NoDup_nil_2|]. by intros d ?%not_elem_of_nil.
  - split; [by apply refuse_settled|apply preparing_first].
Qed.

Lemma deleting_start plan o late :
  keyed → settled o → converged o = true → planned plan →
  delete_inv plan (start_deletions dep limits deadline plan late (mk_DeleteLoop o [] [] [])).
Proof.
  intros Hk (Ha & Hs & _) Hc Hp. apply start_deletions_inv; [done..|]. split; cbn; try done.
  - split; [apply NoDup_nil_2|]. by intros d ?%not_elem_of_nil.
  - intros node Hn. destruct (Ha node Hn) as (x & Hx & _). by rewrite (converged_all _ _ _ Hc Hx) in Hx.
  - intros u. split; [by intros ?%not_elem_of_nil|]. intros (d & _ & Hd). by apply converged_all in Hd.
  - intros d Hd. right. by apply Hs.
  - by intros d ?%not_elem_of_nil.
  - by intros d x ?%not_elem_of_nil.
Qed.

Lemma graph_accounted o :
  (∀ node, node ∈ nodes → bt_get (n_descriptor node) o = Some OProvisioned) → accounted_for o.
Proof. intros Hg node Hn. exists OProvisioned. auto. Qed.

Lemma stage_step x y :
  keyed → past (c_db (w_conn x.1)) → stage_ok x.2 → any_step org digest dep limits deadline x y → stage_ok y.2.
Proof.
  intros Hk Hpast Hi Hst. revert Hpast Hi. destruct Hst as [x y []|w w' s Ho]; cbn [fst snd stage_ok]; intros Hpast;
    [| | | | | | | | | | | |done].
  - intros [? Hd Hs Hr He Hq Hw]. split; cbn; try done; [by eapply run_once_call|].
    apply Forall_insert; [done|]. pose proof (Forall_lookup_1 _ _ _ _ Hq H2) as [_ Hf]. apply Hf.
  - intros Hi. apply start_nodes_inv. eapply join_node_inv; [done| |done].
    apply (Forall_lookup_1 _ _ _ _ (li_results _ Hi) H2).
  - intros Hi. apply start_nodes_inv. by eapply join_node_inv.
  - intros Hi. split; [by apply settle_nodes_settled|apply preparing_first].
  - intros [Ho Hp]. split; [done|]. by eapply (preparing_answers o _ Ho Hp).
  - intros [Ho Hp]. destruct (preparing_answers o _ Ho Hp) as [Ha Hs]. split; [done|]. by apply report_ok.
  - intros [Ho Hp]. destruct (preparing_answers o _ Ho Hp) as [Hc Hplan]. split; [done|]. by apply deleting_start.
  - intros [Hp [? ? ? ? ? ? Hq]]. split; [done|]. split; cbn; try done; [by eapply run_once_call|].
    apply Forall_insert; [done|]. pose proof (Forall_lookup_1 _ _ _ _ Hq H2) as [_ Hf]. apply Hf.
  - intros [Hp Hi]. split; [done|]. apply start_deletions_inv; [done..|]. eapply join_deletion_inv; [done..| |done].
    apply (Forall_lookup_1 _ _ _ _ (dv_results _ _ Hi) H2).
  - intros [Hp Hi]. split; [done|]. apply start_deletions_inv; [done..|]. eapply join_deletion_inv; [done..| |done]. by right.
  - intros [Hp Hi]. split.
    + apply graph_accounted. intros node Hn. by apply settle_deletions_kept, (dv_graph _ _ Hi).
    + apply report_ok. intros _. by apply settle_deletions_settled.
  - intros [Ho [_ Hp]]. split; [done|]. apply Hp.
Qed.
End past.

(** *** More of the past *)

Section more.
Context (past past' : Db → Prop) (Hmore : ∀ x, past x → past' x).

Lemma listed_more active : listed past active → listed past' active.
Proof. intros (x & Hx & Hl). exists x. auto. Qed.

Lemma buried_more stones : buried past stones → buried past' stones.
Proof. intros (x & Hx & Hl). exists x. auto. Qed.

Lemma planned_more plan : planned past plan → planned past' plan.
Proof. intros (active & stones & Hl%listed_more & Hb%buried_more & ->). by exists active, stones. Qed.

Lemma removals_settled_more o : removals_settled past o → removals_settled past' o.
Proof.
  intros (active & Hl%listed_more & Ho). exists active. split; [done|]. destruct (deletion_candidates _ _ _) as [candidates mandatory].
  intros d r Hc. destruct (Ho d r Hc) as [?|(? & ? & stones & u & Hb%buried_more & Hu)]; [by left|right]. split_and!; [done..|].
  by exists stones, u.
Qed.

Lemma preparing_more o p : preparing past o p → preparing past' o p.
Proof.
  intros [|active candidates mandatory k Hl%listed_more Ec Hc Hk|[o' listed|plan] Hr].
  - apply preparing_first.
  - by eapply preparing_second.
  - apply preparing_last. destruct Hr as [? Hr]. split; [done|]. intros. by apply removals_settled_more, Hr.
  - apply preparing_last. destruct Hr as [? Hr]. split; [done|]. by apply planned_more.
Qed.

Abbreviation reports_in past o := (follows (report_allowed past o) (λ l _ _, l) (λ _ _, True) tt).

Lemma reports_more o (p : prog unit) : reports_in past o p → reports_in past' o p.
Proof.
  induction p as [r|c k IH]; [done|]. intros [Hc Hk]. split; [|intros a; apply IH, Hk].
  destruct c; try done. destruct Hc as [? Hc]. split; [done|]. intros He. destruct (Hc He). split; [done|]. by apply removals_settled_more.
Qed.

Lemma stage_more s : stage_ok past s → stage_ok past' s.
Proof.
  destruct s as [s|o p|plan s|o p]; cbn; [done|intros [? ?%preparing_more]; done|intros [?%planned_more ?]|intros [? ?%reports_more]; done].
  done.
Qed.
End more.

(** The states of the store between two states of a run. *)
Definition between (x y : World * Stage) (d : Db) : Prop :=
  ∃ z, rtc (any_step org digest dep limits deadline) x z ∧ rtc (any_step org digest dep limits deadline) z y
    ∧ c_db (w_conn z.1) = d.

Lemma stage_reachable x y :
  keyed → run_start dep limits deadline x.2 → rtc (any_step org digest dep limits deadline) x y → stage_ok (between x y) y.2.
Proof.
  intros Hk Hs Hr. assert (rtc (any_step org digest dep limits deadline) x y ∧ stage_ok (between x y) y.2) as [_ ?]; [|done].
  apply (rtc_invariant _ (λ y, rtc _ x y ∧ stage_ok (between x y) y.2) _ _ Hr); [|split; [done|by apply stage_start]].
  intros y1 y2 [Hr1 Hok] Hst. split; [by eapply rtc_r|]. eapply stage_step; [done| | |done].
  - exists y1. split_and!; [done|by apply rtc_once|done].
  - eapply stage_more, Hok. intros d (z & Hz1 & Hz2 & Hd). exists z. split_and!; [done|by eapply rtc_r|done].
Qed.

(** No resource is called as one that was detached is. *)
Lemma res_id_no_space s : res_id_ok s = true → contains_char " " s = false.
Proof.
  unfold res_id_ok. intros [_ Hf]%andb_true_iff. rewrite <- (join_split "." s). revert Hf.
  generalize (split "." s). induction l as [|a l IH]; [done|]. cbn [forallb]. intros [[_ Ha]%andb_true_iff Hl]%andb_true_iff.
  assert (contains_char " " a = false) as Hs by (by apply (bytes_all_no_char res_id_byte)). destruct l as [|b l]; [done|].
  rewrite join_cons, !contains_char_app, Hs. by apply IH.
Qed.

Lemma detached_name_apart d t : descriptor_valid d → Descriptor_show d ≠ detached_name t.
Proof.
  intros (Ht & Hc & Hi) E. apply (f_equal (contains_char " ")) in E. revert E. unfold Descriptor_show, detached_name.
  rewrite !contains_char_app, (resource_type_no_char " " _ eq_refl Ht), (object_id_no_char " " _ eq_refl Hc), (res_id_no_space _ Hi).
  by rewrite orb_true_r.
Qed.

(** C4: a run respects the dependencies of resources. In every state a run can reach, a task
    that provisions a resource runs only while everything the resource depends on has
    provisioned. Once anything is deleted, every resource of the graph has provisioned, and the
    run has read the active resources and the tombstones of its environment from the store: the
    candidates are those of that reading, and a task deletes a candidate only when every
    resource read as depending on it was deleted by this run, and nothing that was detached from
    the environment depends on it; or when its driver had already deleted it. Whatever a run
    ends with, every resource of the graph has an outcome: it provisioned, it failed, its outcome
    is unknown, or it did not start. *)
Theorem run_respects_dependencies (w0 w : World) (s0 s : Stage) :
  keyed → run_start dep limits deadline s0 → rtc (any_step org digest dep limits deadline) (w0, s0) (w, s) →
  match s with
  | Provisioning l => ∀ d held p, (d, held, p) ∈ lp_running l → may_start (lp_outcomes l) d
  | Deleting plan l =>
      (∀ node, node ∈ nodes → bt_get (n_descriptor node) (dl_outcomes l) = Some OProvisioned)
      ∧ ∃ active stones,
          listed (between (w0, s0) (w, s)) active ∧ buried (between (w0, s0) (w, s)) stones
          ∧ dx_candidates plan = (deletion_candidates (dep_graph dep) (dep_teardown dep) active).1
          ∧ ∀ d held p, (d, held, p) ∈ dl_running l → ∃ r, (d, r) ∈ dx_candidates plan
              ∧ (rs_cleanup_pending r = true
                 ∨ (∀ u, u ∈ active → rs_descriptor r ∈ rs_dependencies u →
                      ∃ d', Descriptor_show d' = rs_descriptor u ∧ bt_get d' (dl_outcomes l) = Some ODeleted)
                   ∧ ∀ t, t ∈ stones → tb_reason t = "detached" → rs_descriptor r ∉ tombstone_dependencies t)
  | Preparing o _ | Reporting o _ => accounted_for o
  end.
Proof.
  intros Hk Hs Hr. pose proof (stage_reachable (w0, s0) _ Hk Hs Hr) as Hi. destruct s as [l|o p|plan l|o p]; cbn in Hi.
  - intros d held p Hp. apply list_elem_of_lookup in Hp as [i Hp]. eapply li_ready; [done|].
    by eapply run_once_running, li_once.
  - apply Hi.
  - destruct Hi as [Hp Hi]. split; [apply Hi|]. destruct Hp as (active & stones & Hl & Hb & Hplan). exists active, stones.
    split_and!; [done..|by rewrite Hplan; destruct (deletion_candidates _ _ _)|].
    intros d held p Hp. apply list_elem_of_lookup in Hp as [i Hp]. destruct (dv_ready _ _ Hi d) as (r & Hc & Hready);
      [by eapply run_once_running, (dv_once _ _ Hi)|]. exists r. split; [done|]. unfold ready_to_delete in Hready.
    apply orb_true_iff in Hready as [?|Hall]; [by left|right]. rewrite forallb_forall in Hall.
    assert (∀ u, used_in active stones detached_name (rs_descriptor r) u →
      ∃ d', Descriptor_show d' = u ∧ bt_get d' (dl_outcomes l) = Some ODeleted) as Hdel.
    { intros u Hu. apply (dv_deleted _ _ Hi), bs_mem_spec, Hall, list_elem_of_In.
      rewrite Hplan. destruct (deletion_candidates _ _ _). by apply users_spec. }
    split; [intros u Hu Hd; apply Hdel; left; by exists u|]. intros t Ht Hdet Hd.
    destruct (Hdel (detached_name t)) as (d' & Hshow & Hx); [right; by exists t|]. revert Hshow. apply detached_name_apart.
    destruct (dv_settled _ _ Hi d') as [Hst|(node & Hn & <-)]; [by eexists| |].
    + destruct (dv_ready _ _ Hi d' Hst) as (q & Hq & _). rewrite Hplan in Hq.
      destruct (candidates_outside (dep_graph dep) (dep_teardown dep) active) as [_ Ho].
      destruct (deletion_candidates _ _ _) as [candidates mandatory]. by destruct (Ho _ _ Hq) as (_ & [? _]%descriptor_roundtrip & _).
    + by rewrite (dv_graph _ _ Hi _ Hn) in Hx.
  - apply Hi.
Qed.

(** C12: a deployment succeeds only when its work is done. Whenever a run records the end of its
    deployment without an error, every resource of the graph provisioned, nothing failed, is
    unknown or was left pending, and the run has read the active resources of its environment
    from the store: every candidate for deletion among them was deleted by this run, or was kept,
    which happens only to one whose removal the deployment need not complete and which is still
    used by a resource of that reading, or by one that was detached, that this run did not
    delete. *)
Theorem success_means_provisioned (w0 w : World) (s0 : Stage) (o : list (Descriptor * Outcome))
    (a b c id : string) (k : answer (CFinish a b c id None) → prog unit) :
  keyed → run_start dep limits deadline s0 →
  rtc (any_step org digest dep limits deadline) (w0, s0) (w, Reporting o (Ask (CFinish a b c id None) k)) →
  id = dep_id dep
  ∧ (∀ node, node ∈ nodes → bt_get (n_descriptor node) o = Some OProvisioned)
  ∧ (∀ d x, (d, x) ∈ o → good_outcome x = true)
  ∧ removals_settled (between (w0, s0) (w, Reporting o (Ask (CFinish a b c id None) k))) o.
Proof.
  intros Hk Hs Hr. pose proof (stage_reachable (w0, s0) _ Hk Hs Hr) as [Ha [[-> He] _]].
  destruct (He eq_refl) as [Hsum Hrem]. pose proof (proj1 (summary_None o) Hsum) as Hgood. split_and!; [done| |done..].
  intros node Hn. destruct (Ha node Hn) as (x & Hx & [-> |Hbad]); [done|]. apply bt_get_elem in Hx.
  apply Hgood in Hx. by destruct x.
Qed.
End order.
