(* ===== verification/PlanEnd.v ===== *)
(** * Every run ends

    The tasks of a run are finite however their calls are answered, and each round of the
    planner's loops ends a task or starts one that never ran. So a run ends after finitely many
    of its own steps, whatever happens in between, and it ends by recording its result. *)

From Stdlib Require Import Ascii Wellfounded.
From stdpp Require Import base sets strings list relations.
From S2P Require Import Prelude Effects Strings OrdMap Ids Json Model Placeholder Graph Db DbLogic Identity Rbac Apps Permits Deployments Resources IdentityInv DeployInv Access Operations Deletion PlanInputs PlanJob PlanTask PlanRun PlanLogic.

Local Open Scope list_scope.
Local Open Scope nat_scope.

(** ** Tasks *)

Section tasks.
Context {A : Type}.
Abbreviation task := (Descriptor * bool * prog A)%type.

(** What is left of a program once a call is answered. *)
Definition continues (p' p : prog A) : Prop := match p with Done _ => False | Ask c k => ∃ a, p' = k a end.

Lemma continues_wf p : Acc continues p.
Proof. induction p as [a|c k IH]; constructor; intros p'; simpl; [done|]. by intros [a ->]. Qed.

(** One of the tasks gets an answer. *)
Definition advances (l' l : list task) : Prop :=
  ∃ i d h h' p p', l !! i = Some (d, h, p) ∧ continues p' p ∧ l' = <[i := (d, h', p')]> l.

Lemma advances_cons d p l : Acc continues p → Acc advances l → ∀ h, Acc advances ((d, h, p) :: l).
Proof.
  intros Hp. revert l. induction Hp as [p _ IHp]. intros l Hl. induction Hl as [l Hl IHl]. intros h. constructor.
  intros l' ([|i] & e & g & h' & q & p' & Hi & Hc & ->); cbn in *.
  - injection Hi as -> -> ->. apply IHp; [done|]. by constructor.
  - apply IHl. by exists i, e, g, h', q, p'.
Qed.

Lemma advances_wf : well_founded advances.
Proof.
  intros l. induction l as [|[[d h] p] l IH]; [constructor; by intros l' (i & ? & ? & ? & ? & ? & ? & _)|].
  apply advances_cons; [apply continues_wf|done].
Qed.

Lemma advances_length l' l : advances l' l → length l' = length l.
Proof. intros (i & d & h & h' & p & p' & _ & _ & ->). apply length_insert. Qed.

(** A loop whose every step starts something, or ends a task, or continues one. *)
Lemma loop_wf {S} (R : S → S → Prop) (todo : S → nat) (running : S → list task) :
  (∀ s' s, R s' s → todo s' < todo s
     ∨ todo s' = todo s ∧ (length (running s') < length (running s) ∨ advances (running s') (running s))) →
  well_founded R.
Proof.
  intros HR s. remember (todo s) as n eqn:En. revert s En. induction (lt_wf n) as [n _ IHn]. intros s ->.
  remember (length (running s)) as m eqn:Em. revert s Em IHn. induction (lt_wf m) as [m _ IHm]. intros s -> IHn.
  remember (running s) as l eqn:El. revert s El IHm IHn. induction (advances_wf l) as [l _ IHl]. intros s -> IHm IHn.
  constructor. intros s' Hs. destruct (HR s' s Hs) as [Hlt|[E [Hlt|Ha]]].
  - by eapply IHn.
  - eapply IHm; [done..|]. by rewrite E.
  - eapply IHl; [done..| |].
    + by rewrite (advances_length _ _ Ha).
    + by rewrite E.
Qed.
End tasks.

(** ** What did not start yet *)

Definition todo (all started : list Descriptor) : nat := length (filter (λ d, d ∉ started) all).

Lemma todo_insert all started d : d ∈ all → d ∉ started → todo all (bs_insert d started) < todo all started.
Proof.
  intros Hd Hs. unfold todo. apply list_elem_of_split in Hd as (l1 & l2 & ->). rewrite !filter_app, !length_app, !filter_cons.
  rewrite decide_False by (rewrite elem_of_bs_insert; tauto). rewrite decide_True by done. simpl.
  assert (∀ l : list Descriptor, length (filter (λ x, x ∉ bs_insert d started) l) ≤ length (filter (λ x, x ∉ started) l)) as Hle.
  { induction l as [|x l IH]; [done|]. rewrite !filter_cons. repeat case_decide; simpl; try lia.
    exfalso. rewrite elem_of_bs_insert in *. tauto. }
  pose proof (Hle l1). pose proof (Hle l2). lia.
Qed.

Section ends.
Context `{System} `{Libraries} `{InputsReader} (org : string) (digest : string → string).
Context (dep : Deployment) (limits : Limits) (deadline : Z).

Definition node_todo (s : Loop) : nat := todo (n_descriptor <$> bt_values (g_nodes (dep_graph dep))) (lp_started s).
Definition delete_todo (plan : DeletePlan) (s : DeleteLoop) : nat := todo (bt_keys (dx_candidates plan)) (dl_started s).

Lemma start_nodes_todo late s :
  node_todo (start_nodes dep limits deadline late s) < node_todo s ∨ start_nodes dep limits deadline late s = s.
Proof.
  unfold start_nodes. assert (∀ n, n ∈ bt_values (g_nodes (dep_graph dep)) → n ∈ bt_values (g_nodes (dep_graph dep))) as Hl
    by done. revert Hl. generalize (bt_values (g_nodes (dep_graph dep))) at 1 3 4. intros l. revert s.
  induction l as [|n l IH]; intros s Hl; [by right|]. simpl.
  assert (node_todo (start_node dep limits deadline late s n) < node_todo s ∨ start_node dep limits deadline late s n = s) as Hn.
  { unfold start_node. destruct (bs_mem _ _ || _) eqn:E; [by right|]. apply orb_false_elim in E as [E%bs_mem_false _].
    left. unfold node_todo. case_match; cbn [lp_started]; (apply todo_insert; [|done]);
      apply (list_elem_of_fmap_2 n_descriptor), Hl; left. }
  destruct (IH (start_node dep limits deadline late s n)) as [Hlt| ->]; [set_solver| |done].
  left. destruct Hn as [?|E]; [lia|by rewrite E in Hlt |- *].
Qed.

Lemma start_deletions_todo plan late s :
  delete_todo plan (start_deletions dep limits deadline plan late s) < delete_todo plan s
  ∨ start_deletions dep limits deadline plan late s = s.
Proof.
  unfold start_deletions. assert (∀ n, n ∈ dx_candidates plan → n ∈ dx_candidates plan) as Hl by done. revert Hl.
  generalize (dx_candidates plan) at 1 3 4. intros l. revert s.
  induction l as [|[d r] l IH]; intros s Hl; [by right|]. cbn [foldl].
  assert (delete_todo plan (start_deletion dep limits deadline plan late s (d, r)) < delete_todo plan s
    ∨ start_deletion dep limits deadline plan late s (d, r) = s) as Hn.
  { unfold start_deletion. destruct (bs_mem _ _ || _) eqn:E; [by right|]. apply orb_false_elim in E as [E%bs_mem_false _].
    left. unfold delete_todo. case_match; cbn [dl_started]; (apply todo_insert; [|done]);
      apply (list_elem_of_fmap_2 fst _ (d, r)), Hl; left. }
  destruct (IH (start_deletion dep limits deadline plan late s (d, r))) as [Hlt| ->]; [set_solver| |done].
  left. destruct Hn as [?|E]; [lia|by rewrite E in Hlt |- *].
Qed.

(** ** The stages *)

(** A step of the run, whatever the world was. *)
Definition stage_step (s' s : Stage) : Prop := ∃ w w', run_step org dep limits deadline (w, s) (w', s').

Definition node_step (s' s : Loop) : Prop := stage_step (Provisioning s') (Provisioning s).
Definition delete_step (plan : DeletePlan) (s' s : DeleteLoop) : Prop :=
  stage_step (Deleting plan s') (Deleting plan s).

Lemma advance_insert {A} (l : list (Descriptor * bool * prog A)) i d h h' c k a :
  l !! i = Some (d, h, Ask c k) → advances (<[i := (d, h', k a)]> l) l.
Proof. intros Hi. exists i, d, h, h', (Ask c k), (k a). split_and!; [done|by exists a|done]. Qed.

Lemma ended_shorter {A} (l : list A) i x : l !! i = Some x → length (delete i l) < length l.
Proof.
  intros Hi. pose proof (lookup_lt_Some _ _ _ Hi). pose proof (length_delete l i (mk_is_Some _ _ Hi)). lia.
Qed.

Lemma join_started late s i d held p r :
  lp_running s !! i = Some (d, held, p) →
  let s' := start_nodes dep limits deadline late (join_node s i d r) in
  node_todo s' < node_todo s ∨ node_todo s' = node_todo s ∧ length (lp_running s') < length (lp_running s).
Proof.
  intros Hi s'. subst s'. assert (node_todo (join_node s i d r) = node_todo s) as E by (by destruct r).
  destruct (start_nodes_todo late (join_node s i d r)) as [Hlt|Es]; [left; by rewrite <- E|].
  right. rewrite Es, E. split; [done|]. rewrite join_node_running. by eapply ended_shorter.
Qed.

Lemma join_deletion_started plan late s i d held p o :
  dl_running s !! i = Some (d, held, p) →
  let s' := start_deletions dep limits deadline plan late (join_deletion s i d o) in
  delete_todo plan s' < delete_todo plan s
  ∨ delete_todo plan s' = delete_todo plan s ∧ length (dl_running s') < length (dl_running s).
Proof.
  intros Hi s'. subst s'. destruct (start_deletions_todo plan late (join_deletion s i d o)) as [Hlt|Es]; [by left|].
  right. rewrite Es. split; [done|]. cbn. by eapply ended_shorter.
Qed.

Lemma node_step_wf : well_founded node_step.
Proof.
  apply (loop_wf _ node_todo lp_running). intros s' s (w & w' & Hs). inversion Hs; subst.
  - right. split; [done|]. right. by eapply advance_insert.
  - destruct (join_started late s i d held (Done r) r) as [?|[??]]; auto.
  - destruct (join_started late s i d held p stopped_node) as [?|[??]]; auto.
Qed.

Lemma delete_step_wf plan : well_founded (delete_step plan).
Proof.
  apply (loop_wf _ (delete_todo plan) dl_running). intros s' s (w & w' & Hs). inversion Hs; subst.
  - right. split; [done|]. right. by eapply advance_insert.
  - destruct (join_deletion_started plan late s i d held (Done o) o) as [?|[??]]; auto.
  - destruct (join_deletion_started plan late s i d held p stopped_deletion) as [?|[??]]; auto.
Qed.

Lemma reporting_step o p s' : stage_step s' (Reporting o p) → ∃ p', s' = Reporting o p' ∧ continues p' p.
Proof. intros (w & w' & Hs). inversion Hs; subst. eexists. split; [done|]. by eexists. Qed.

Lemma reporting_ends o p : Acc stage_step (Reporting o p).
Proof. induction (continues_wf p) as [p _ IH]. constructor. intros s' (p' & -> & Hp)%reporting_step. by apply IH. Qed.

Lemma deleting_ends plan s : Acc stage_step (Deleting plan s).
Proof.
  induction (delete_step_wf plan s) as [s _ IH]. constructor. intros s' (w & w' & Hs).
  assert ((∃ l, s' = Deleting plan l) ∨ ∃ o p, s' = Reporting o p) as [[l ->]|(o & p & ->)].
  { inversion Hs; eauto. }
  - apply IH. by exists w, w'.
  - apply reporting_ends.
Qed.

Lemma preparing_step o p s' :
  stage_step s' (Preparing o p) →
  (∃ p', s' = Preparing o p' ∧ continues p' p) ∨ (∃ o' q, s' = Reporting o' q) ∨ ∃ plan l, s' = Deleting plan l.
Proof. intros (w & w' & Hs). inversion Hs; subst; [left|right; left; eauto|right; right; eauto]. eexists. split; [done|]. by eexists. Qed.

Lemma preparing_ends o p : Acc stage_step (Preparing o p).
Proof.
  induction (continues_wf p) as [p _ IH]. constructor.
  intros s' [(p' & -> & Hp)|[(o' & q & ->)|(plan & l & ->)]]%preparing_step; [by apply IH|apply reporting_ends|apply deleting_ends].
Qed.

Lemma stage_ends s : Acc stage_step s.
Proof.
  destruct s as [s|o p|plan s|o p]; [|apply preparing_ends|apply deleting_ends|apply reporting_ends].
  induction (node_step_wf s) as [s _ IH]. constructor. intros s' (w & w' & Hs).
  assert ((∃ l, s' = Provisioning l) ∨ ∃ o p, s' = Preparing o p) as [[l ->]|(o & p & ->)].
  { inversion Hs; eauto. }
  - apply IH. by exists w, w'.
  - apply preparing_ends.
Qed.

(** ** Progress *)

Lemma tx_answers_some {A} (m : tx A) c : ∃ r c', tx_answers m c r c'.
Proof. unfold tx_answers. destruct (m c) as [[a c1]|e]; eauto. Qed.

(** Every call can be answered. *)
Lemma answers_total w c : ∃ a w', answers org w c a w'.
Proof.
  destruct c; cbn.
  - exists 0%Z. eauto.
  - exists 0%Z. eauto.
  - exists tt. eauto.
  - exists AcquireTimeout. eauto.
  - exists tt. eauto.
  - destruct (tx_answers_some (begin_operation org start) (w_conn w)) as (r & c' & ?). eauto 10.
  - destruct (tx_answers_some (record_operation_inputs id recovery) (w_conn w)) as (r & c' & ?). eauto 10.
  - destruct (tx_answers_some (checkpoint_operation id result) (w_conn w)) as (r & c' & ?). eauto 10.
  - destruct (tx_answers_some (active_resource org org0 app env descriptor) (w_conn w)) as (r & c' & ?). eauto 10.
  - unfold permit_answers. destruct (pq_deployment request) as [deployment|]; [|eauto].
    destruct (tx_answers_some (use_permit org (permit_use request deployment)) (w_conn w)) as (r & c' & ?). eauto 10.
  - exists Stopped. eauto.
  - exists Stopped. eauto.
  - destruct (tx_answers_some (active_resources org org0 app env) (w_conn w)) as (r & c' & ?). eauto 10.
  - destruct (tx_answers_some (tombstones org org0 app env) (w_conn w)) as (r & c' & ?). eauto 10.
  - destruct (tx_answers_some (record_resource_status org org0 app env deployment descriptor status error) (w_conn w))
      as (r & c' & ?). eauto 10.
  - destruct (tx_answers_some (finish_deployment org org0 app env id error) (w_conn w)) as (r & c' & ?). eauto 10.
Qed.

Lemma progress w s : (∃ o, s = Reporting o (Done tt)) ∨ ∃ y, run_step org dep limits deadline (w, s) y.
Proof.
  destruct s as [s|o p|plan s|o p].
  - right. destruct (lp_running s) as [|[[d held] p] l] eqn:E; [eexists; by apply (step_provisioned _ _ _ _ _ _ (λ _, false))|].
    destruct p as [r|c k].
    + eexists. apply (step_join _ _ _ _ _ s 0 d held r (λ _, false)). by rewrite E.
    + destruct (answers_total w c) as (a & w' & Ha). eexists. eapply (step_node _ _ _ _ w w' s 0); [by rewrite E|done].
  - right. destruct p as [[outcomes listed|plan]|c k].
    + eexists. apply (step_nothing _ _ _ _ _ _ _ _ 0).
    + eexists. apply (step_delete _ _ _ _ _ _ _ (λ _, false)).
    + destruct (answers_total w c) as (a & w' & Ha). eexists. by apply step_prepare.
  - right. destruct (dl_running s) as [|[[d held] p] l] eqn:E;
      [eexists; by apply (step_deleted _ _ _ _ _ _ _ (λ _, false) 0)|].
    destruct p as [o|c k].
    + eexists. apply (step_join_deletion _ _ _ _ _ plan s 0 d held o (λ _, false)). by rewrite E.
    + destruct (answers_total w c) as (a & w' & Ha). eexists. eapply (step_deletion _ _ _ _ w w' plan s 0); [by rewrite E|done].
  - destruct p as [[]|c k]; [left; eauto|]. right. destruct (answers_total w c) as (a & w' & Ha). eexists. by apply step_report.
Qed.

(** A step of the run, after anything others did. *)
Definition run_next (y x : World * Stage) : Prop :=
  ∃ w, rtc (others_step org digest (dep_app dep) (dep_env dep)) x.1 w ∧ run_step org dep limits deadline (w, x.2) y.

(** C14: every run ends. Whatever the store, the drivers and the clock answer, and whatever
    others do between its steps, a run makes only finitely many steps of its own; and as long as
    it did not record the end of its deployment, it can make another, so it cannot be stuck. *)
Theorem run_ends (x : World * Stage) :
  Acc run_next x ∧ ((∃ o, x.2 = Reporting o (Done tt)) ∨ ∃ y, run_step org dep limits deadline x y).
Proof.
  split; [|destruct x; apply progress]. destruct x as [w s]. revert w. induction (stage_ends s) as [s _ IH]. intros w.
  constructor. intros [w' s'] (w1 & _ & Hs). apply IH. by exists w1, w'.
Qed.
End ends.
