(* ===== verification/PlanFrame.v ===== *)
(** * What operations leave of other resources

    The operations of the store change the records of resources and operations in place, remove
    some, and add at most one of each: what is known of the other records stays true. *)

From Stdlib Require Import Ascii.
From stdpp Require Import base sets strings list.
From S2P Require Import Prelude Strings OrdMap Ids Json Db DbLogic Identity Rbac Apps Permits Deployments Resources IdentityInv IdentityRoles DeployInv Access Operations DeployProofs Lifecycle Phases ResourceSteps Restart.

Local Open Scope string_scope.
Local Open Scope list_scope.

(** ** Records that stay *)

(** A record of [d] with the same identity; a deletion is not newly confirmed. *)
Definition row_from (d : Db) (r' : ResourceRow) : Prop :=
  ∃ r, r ∈ db_active_resources d ∧ rs_guresid r = rs_guresid r' ∧ res_key r = res_key r'
    ∧ (rs_cleanup_pending r' = true → rs_cleanup_pending r = true).

Definition same_op (o o' : OperationRow) : Prop :=
  op_id o = op_id o' ∧ op_guresid o = op_guresid o' ∧ op_place o = op_place o' ∧ op_kind o = op_kind o'
  ∧ op_recovery o = op_recovery o'.

Definition op_from (d : Db) (o' : OperationRow) : Prop := ∃ o, o ∈ db_operations d ∧ same_op o o'.

(** Every record comes from one of before. *)
Definition derives : relation Db := λ d d',
  (∀ r, r ∈ db_active_resources d' → row_from d r) ∧ (∀ o, o ∈ db_operations d' → op_from d o).

#[export] Instance derives_PreOrder : PreOrder derives.
Proof.
  split.
  - intros d. split; [intros r Hr; by exists r|intros o Ho; by exists o].
  - intros d1 d2 d3 [Hr1 Ho1] [Hr2 Ho2]. split.
    + intros r Hr. destruct (Hr2 r Hr) as (r2 & Hr2' & Eg & Ek & Hc).
      destruct (Hr1 r2 Hr2') as (r1 & Hr1' & Eg' & Ek' & Hc'). exists r1. split_and!; [done|congruence|congruence|auto].
    + intros o Ho. destruct (Ho2 o Ho) as (o2 & Ho2' & E1 & E2 & E3 & E4 & E5).
      destruct (Ho1 o2 Ho2') as (o1 & Ho1' & ?). exists o1. unfold same_op in *. destruct_and!. split_and!; congruence || done.
Qed.

Lemma same_res_derives d d' : same_res d d' → derives d d'.
Proof. intros [Er Eo]. unfold derives, row_from, op_from. rewrite Er, Eo. by apply derives_PreOrder. Qed.

Lemma derives_rows d d' p f :
  db_active_resources d' = update p f (db_active_resources d) → db_operations d' = db_operations d →
  (∀ r, rs_guresid (f r) = rs_guresid r ∧ res_key (f r) = res_key r
    ∧ (rs_cleanup_pending (f r) = true → rs_cleanup_pending r = true)) → derives d d'.
Proof.
  intros Er Eo Hf. split.
  - intros r. rewrite Er. intros (r0 & Hr & ->)%elem_of_update. exists r0. destruct (p r0); [|done].
    destruct (Hf r0) as (? & ? & ?). auto.
  - intros o. rewrite Eo. intros Ho. by exists o.
Qed.

Lemma derives_ops d d' p f :
  db_operations d' = update p f (db_operations d) → db_active_resources d' = db_active_resources d →
  (∀ o, same_op o (f o)) → derives d d'.
Proof.
  intros Eo Er Hf. split.
  - intros r. rewrite Er. intros Hr. by exists r.
  - intros o. rewrite Eo. intros (o0 & Ho & ->)%elem_of_update. exists o0. by destruct (p o0).
Qed.

Lemma derives_deleted d d' p q :
  db_active_resources d' = delete_rows p (db_active_resources d) →
  db_operations d' = delete_rows q (db_operations d) → derives d d'.
Proof.
  intros Er Eo. split.
  - intros r. rewrite Er. intros [Hr _]%elem_of_delete. by exists r.
  - intros o. rewrite Eo. intros [Ho _]%elem_of_delete. by exists o.
Qed.

Ltac derive :=
  first [ by apply same_res_derives
        | by eapply derives_rows
        | by eapply derives_ops ].

Section frame.
Context `{System} (org : string).

Lemma close_abandoned_derives descriptor r o : tx_rel derives (close_abandoned descriptor r o).
Proof. unfold close_abandoned, close_operation. tx_steps; derive. Qed.

Lemma bury_derives g stone : tx_rel derives (bury g stone).
Proof.
  intros c u c' [Er Eo]%bury_tables. apply (derives_deleted _ _ (has_guresid g) (λ _, false)); [done|].
  by rewrite delete_none.
Qed.

(** A recorded result, other than a confirmed deletion whose record stays. *)
Lemma checkpoint_derives id result :
  (∀ e, result ≠ CleanupPending e) → tx_rel derives (checkpoint_in_tx id result).
Proof.
  intros Hr. unfold checkpoint_in_tx, check_result, apply_result, pin_deployment.
  destruct result; try (by destruct (Hr error)); tx_steps; try derive. apply bury_derives.
Qed.

Lemma finish_derives o app env id error : tx_rel derives (finish_deployment org o app env id error).
Proof.
  intros [d n] u c' Hx. unfold finish_deployment in Hx. inv_tx Hx. apply finish_in_tx_tables in Hx.
  destruct (removes_env _ _ _ _ _); [|by apply same_res_derives]. destruct Hx. by eapply derives_deleted.
Qed.

Lemma keep_cookie_derives id observed cookie : tx_rel derives (keep_recovery_cookie id observed cookie).
Proof. unfold keep_recovery_cookie. tx_steps; derive. Qed.

Lemma detach_derives o app env detach audit : tx_rel derives (detach_resource org o app env detach audit).
Proof.
  unfold detach_resource, check_detach, detach_permit, consume_permit, check_idle. tx_steps; try derive.
  - eapply tx_rel_impl; [apply same_res_derives|]. by apply try_permits_same_res.
  - apply bury_derives.
Qed.

Lemma schedule_derives o app env descriptor audit : tx_rel derives (schedule_deletion org o app env descriptor audit).
Proof.
  unfold schedule_deletion, check_idle. tx_steps; derive.
Qed.

(** An outcome that is unknown is resolved by no confirmed deletion whose record stays. *)
Lemma apply_resolution_derives o restored dep now actor resolution d n a c' :
  select_one (is_operation (op_id o)) (db_operations d) = Some o → op_state o = "unknown" →
  apply_resolution o restored dep now actor resolution (mk_Conn d n) = Ok (a, c') → derives d (c_db c').
Proof.
  intros Hs Hu. assert (∀ resolution, (∀ r, resolution ≠ Observed r) →
    tx_rel derives (apply_resolution o restored dep now actor resolution)) as Hother.
  { intros [] Hne; try (by destruct (Hne r)); unfold apply_resolution, restore_status; tx_steps; try derive. }
  intros Hx. destruct resolution as [result| | | |]; try (by eapply Hother in Hx). simpl in Hx. inv_tx Hx.
  destruct result; try (by apply checkpoint_derives in H0). exfalso. unfold checkpoint_in_tx in H0. inv_tx H0.
  apply check_result_Ok in H1 as [_ Hobs]. by apply Hobs in Hu.
Qed.

(** A transaction that derives, inside another one. *)
Ltac step_derives H :=
  lazymatch type of H with
  | ?m _ = Ok _ => let Hd := fresh in assert (tx_rel derives m) as Hd by (tx_steps; derive); apply Hd in H; clear Hd
  end.

Lemma resolve_derives id resolution audit : tx_rel derives (resolve_operation id resolution audit).
Proof.
  intros [d n] u c' Hx. unfold resolve_operation in Hx. inv_tx Hx. apply check_idle_Ok in H0 as [-> _].
  apply String.eqb_eq in Hc. pose proof (select_one_Some _ _ _ Hr) as [_ <-%is_operation_spec].
  apply apply_resolution_derives in H1; [|done..]. step_derives H2.
  etransitivity; [exact H1|]. etransitivity; [exact H2|]. derive.
Qed.

(** What others may do, and the reports of a run. *)
Definition changes_identity (op : StoreOp) : bool :=
  match op with
  | OpBeginOperation _ | OpRecordInputs _ _ | OpCheckpoint _ (CleanupPending _) | OpRecover | OpMarkRestored => true
  | _ => false
  end.

Lemma exec_derives digest op : changes_identity op = false → tx_rel derives (exec org digest op).
Proof.
  intros Hop. destruct (about_resources op) eqn:Ea.
  - intros c u c' Hx. destruct op; try done; simpl in Hx; try apply drop_Ok in Hx as [? Hx].
    + by eapply finish_derives.
    + by eapply checkpoint_derives in Hx; [|by intros e ->].
    + by eapply keep_cookie_derives.
    + by eapply resolve_derives.
    + by eapply detach_derives.
    + by eapply schedule_derives.
  - eapply tx_rel_impl; [apply same_res_derives|]. by apply exec_same_res.
Qed.

(** A confirmed deletion whose record stays marks one resource. *)
Lemma cleanup_derives id error d n u c' o :
  checkpoint_in_tx id (CleanupPending error) (mk_Conn d n) = Ok (u, c') →
  select_one (is_operation id) (db_operations d) = Some o →
  (∀ r, r ∈ db_active_resources (c_db c') → ∃ r0, r0 ∈ db_active_resources d ∧ rs_guresid r0 = rs_guresid r
     ∧ res_key r0 = res_key r ∧ (rs_guresid r ≠ op_guresid o → rs_cleanup_pending r = true → rs_cleanup_pending r0 = true))
  ∧ (∀ x, x ∈ db_operations (c_db c') → op_from d x).
Proof.
  intros Hx Ho. unfold checkpoint_in_tx in Hx. inv_tx Hx. apply check_result_Ok in H0 as [-> _]. simpl. split.
  - intros r (r1 & (r0 & Hr1 & ->)%elem_of_update & ->)%elem_of_update. exists r0.
    destruct (has_guresid (op_guresid v) r0) eqn:E; simpl; [|by rewrite E].
    change (has_guresid (op_guresid v) (set_res_flags (rs_scheduled_deletion r0) true (rs_updated_at r0) r0))
      with (has_guresid (op_guresid v) r0). rewrite E. apply has_guresid_spec in E. simpl. split_and!; [done..|].
    intros Hne. congruence.
  - intros x (x0 & Hx & ->)%elem_of_update. exists x0. split; [done|]. by destruct (is_operation id x0).
Qed.

Lemma checkpoint_frame id result d n u c' o :
  checkpoint_in_tx id result (mk_Conn d n) = Ok (u, c') →
  select_one (is_operation id) (db_operations d) = Some o →
  (∀ r, r ∈ db_active_resources (c_db c') → ∃ r0, r0 ∈ db_active_resources d ∧ rs_guresid r0 = rs_guresid r
     ∧ res_key r0 = res_key r ∧ (rs_guresid r ≠ op_guresid o → rs_cleanup_pending r = true → rs_cleanup_pending r0 = true))
  ∧ (∀ x, x ∈ db_operations (c_db c') → op_from d x).
Proof.
  intros Hx Ho. destruct result as [| | |e|]; [..|by eapply cleanup_derives|]; apply checkpoint_derives in Hx as [Hr Hop]; try done;
    (split; [|done]); intros r Hin; destruct (Hr r Hin) as (r0 & ? & ? & ? & ?); exists r0; auto.
Qed.

(** ** Recording inputs *)

Lemma record_inputs_Ok id recovery d n u c' :
  record_operation_inputs id recovery (mk_Conn d n) = Ok (u, c') →
  db_active_resources (c_db c') = db_active_resources d
  ∧ db_operations (c_db c') =
      update (λ o, is_operation id o && String.eqb (op_state o) "started") (set_op_recovery recovery) (db_operations d).
Proof. intros Hx. unfold record_operation_inputs in Hx. by inv_tx Hx. Qed.

(** ** Beginning an operation *)

Definition start_key (start : OperationStart) : string * string * string :=
  (os_app start, os_env start, Descriptor_show (os_descriptor start)).

Lemma begin_resource_frame start now d n res c' :
  begin_resource start (Descriptor_show (os_descriptor start)) now (mk_Conn d n) = Ok (res, c') →
  (∀ r, r ∈ db_active_resources (c_db c') → row_from d r
     ∨ rs_cleanup_pending r = false ∧ ∀ r0, r0 ∈ db_active_resources d → rs_guresid r0 ≠ rs_guresid r)
  ∧ (∀ o, o ∈ db_operations (c_db c') → op_from d o)
  ∧ match res with
    | Some g => ∃ r, r ∈ db_active_resources (c_db c') ∧ rs_guresid r = g ∧ res_key r = start_key start
    | None => derives d (c_db c')
    end.
Proof.
  intros Hx. unfold begin_resource in Hx. inv_tx Hx.
  destruct (select_one _ (db_active_resources d)) as [r|] eqn:Es.
  - apply select_one_Some in Es as [Hr Hkey%is_resource_spec]. inv_tx Hx.
    assert (c0 = mk_Conn d n) as -> by (destruct (driver_conflict start r) as [[? ?]|]; by inv_tx H0).
    assert (derives d (c_db c) ∧ same_places d (c_db c)) as [Hd Hp].
    { destruct (select_one _ _); [|by inv_tx H1]. split; [by apply close_abandoned_derives in H1|].
      by apply close_abandoned_places in H1. }
    destruct a0; inv_tx Hx; [split_and!; [intros x Hx; left; by apply Hd|apply Hd|exact Hd]|].
    assert (v = rs_guresid r) as -> by (unfold Guresid_new in Hl; destruct (_ && _) in Hl; [by injection Hl|done]).
    assert (derives d (upd_active_resources (update (has_guresid (rs_guresid r)) (begin_res_row start
      match os_kind start with Put => "provisioning" | Delete => "deleting" end now)) (c_db c))) as [Hd1 Hd2].
    { etransitivity; [exact Hd|]. eapply derives_rows; [done..|]. intros x. split_and!; [done..|]. cbn [begin_res_row rs_cleanup_pending]. by destruct (bool_decide _). }
    split_and!; [intros x Hx; left; by apply Hd1|exact Hd2|].
    apply (place_kept d _ r) in Hp as (r' & Hr' & Hk & Hg'); [|done]. eexists.
    split; [apply elem_of_update; exists r'; split; [exact Hr'|reflexivity]|].
    rewrite (proj2 (has_guresid_spec _ _) Hg'). split; [exact Hg'|]. unfold start_key. by rewrite <- Hkey, <- Hk.
  - inv_tx Hx. pose proof (detached_reads _ _ _ _ _ _ H0) as Hd. destruct c as [d0 n0]. simpl in *. subst d0.
    unfold insert_resource in H1. inv_tx H1. apply negb_true_iff in Huniq.
    pose proof (proj1 (existsb_false _ _) Huniq) as Hn. simpl. split_and!.
    + intros r [Hr|Hr%list_elem_of_singleton]%elem_of_app; [left; by exists r|subst r; right]. split; [done|].
      intros r0 Hr0 E. specialize (Hn r0 Hr0). cbv beta in Hn. apply orb_false_iff in Hn as [_ Hn].
      apply not_true_iff_false in Hn. by apply Hn, has_guresid_spec.
    + intros o Ho. by exists o.
    + eexists. split; [apply elem_of_app; right; by left|done].
Qed.

(** A new operation: it is open on the resource at the place it was asked for. *)
Lemma begin_operation_frame start d n st c' :
  begin_operation org start (mk_Conn d n) = Ok (Ok st, c') →
  ∃ o, o ∈ db_operations (c_db c') ∧ op_id o = ost_operation_id st ∧ op_guresid o = ost_guresid st
    ∧ op_place o = (os_app start, os_env start) ∧ op_kind o = operation_kind_as_str (os_kind start)
    ∧ is_open o = true ∧ op_state o = "started"
    ∧ (∀ x, x ∈ db_operations (c_db c') → op_from d x ∨ x = o)
    ∧ (∀ r, r ∈ db_active_resources (c_db c') → row_from d r
         ∨ rs_cleanup_pending r = false ∧ ∀ r0, r0 ∈ db_active_resources d → rs_guresid r0 ≠ rs_guresid r)
    ∧ ∃ r, r ∈ db_active_resources (c_db c') ∧ rs_guresid r = ost_guresid st ∧ res_key r = start_key start.
Proof.
  intros Hx. unfold begin_operation in Hx. inv_tx Hx. settle H0.
  apply begin_resource_frame in H1 as (Hrows & Hops & Hres). destruct a0 as [g|]; inv_tx Hx.
  unfold insert_operation in H1. inv_tx H1. apply upsert_run_same_res in H2 as [Er Eo]. simpl in *.
  set (o := mk_OperationRow _ _ _ _ _ _ _ _ _ _ _ _ _ _ _ _) in *. exists o. rewrite Er, Eo.
  split_and!; try done.
  - apply elem_of_app. right. by left.
  - intros x [Hx|Hx%list_elem_of_singleton]%elem_of_app; [left; by apply Hops|by right].
Qed.

(** A refusal that is committed. *)
Lemma begin_operation_refused start d n e c' :
  begin_operation org start (mk_Conn d n) = Ok (Err e, c') → derives d (c_db c').
Proof.
  intros Hx. unfold begin_operation in Hx. inv_tx Hx. settle H0.
  apply begin_resource_frame in H1 as (_ & _ & Hres). by destruct a0 as [g|]; inv_tx Hx.
Qed.
End frame.
