(* ===== verification/PlanKept.v ===== *)
(** * Operations that stay in the hands of their task

    While an operation is open, or its outcome is unknown, what the store knows of it is changed
    only by a checkpoint of it, by resolving it, or by what removes its environment. Other
    operations of the store keep its phase and the record that tells whether its driver may have
    been called. *)

From Stdlib Require Import Ascii.
From stdpp Require Import base sets strings list.
From S2P Require Import Prelude Effects Strings OrdMap Ids Json Db DbLogic Identity Rbac Apps Permits Deployments Resources IdentityInv IdentityRoles DeployInv Access Operations DeployProofs Lifecycle History Phases ResourceSteps Restart Recovery Deletion PlanInputs PlanJob PlanTask PlanRun PlanFrame.

Local Open Scope string_scope.
Local Open Scope list_scope.

Section kept.
Context (app env : string).

(** The operation is one of the environment, on the resource. *)
Definition held (d : Db) (id g : string) (o : OperationRow) : Prop :=
  o ∈ db_operations d ∧ op_id o = id ∧ op_guresid o = g ∧ op_place o = (app, env).

(** It is open, or its outcome is unknown. *)
Definition live (d : Db) (id g : string) : Prop :=
  (phase d g = Calling id ∨ phase d g = InDoubt id) ∧ ∃ o, held d id g o.

(** It is open; when [sure], a restart would not assume that its driver was not called. *)
Definition at_work (d : Db) (id g : string) (kind : OperationKind) (sure : bool) : Prop :=
  phase d g = Calling id
  ∧ ∃ o, held d id g o ∧ op_kind o = operation_kind_as_str kind ∧ (sure = true → in_flight d o = true).

(** After a restart its resource is in doubt. *)
Definition accountable (d : Db) (id g : string) : Prop :=
  ∃ o, held d id g o ∧ (phase d g = Calling id ∧ in_flight d o = true ∨ phase d g = InDoubt id).

(** What is known of it stays. *)
Definition kept (d d' : Db) (id g : string) : Prop :=
  phase d' g = phase d g
  ∧ (∀ r, r ∈ db_active_resources d' → rs_guresid r = g → row_from d r)
  ∧ (∀ o, o ∈ db_operations d' → op_id o = id → op_guresid o = g → op_from d o).

Lemma phase_op d g id :
  phase d g = Calling id ∨ phase d g = InDoubt id →
  ∃ o, o ∈ db_operations d ∧ op_id o = id ∧ op_guresid o = g ∧ is_open o = true.
Proof.
  intros Hp. destruct (phase_cases (db_active_resources d) (db_operations d) g)
    as [[E _]|(_ & _ & _ & [[E _]|(o & Ho & [Hg Hop]%open_on_spec & E)])]; fold (phase d g) in E;
    [destruct Hp; congruence..|]. exists o. split_and!; try done.
  unfold open_phase in E. case_match; destruct Hp; congruence.
Qed.

Lemma phase_row d g id :
  phase d g = Calling id ∨ phase d g = InDoubt id → ∃ r, r ∈ db_active_resources d ∧ rs_guresid r = g.
Proof.
  intros Hp. destruct (phase_cases (db_active_resources d) (db_operations d) g) as [[E _]|(r & ? & ? & _)]; [|eauto].
  fold (phase d g) in E. destruct Hp; congruence.
Qed.

Lemma at_work_live d id g kind sure : at_work d id g kind sure → live d id g.
Proof. intros (Hp & o & Ho & _). split; [by left|eauto]. Qed.

Lemma accountable_live d id g : accountable d id g → live d id g.
Proof. intros (o & Ho & [[Hp _]|Hp]); (split; [|by eauto]); auto. Qed.

(** The environment of the resource is that of its live operation. *)
Lemma live_env d id g r :
  res_ok d → live d id g → r ∈ db_active_resources d → rs_guresid r = g → res_env r = (app, env).
Proof.
  intros Hok [Hp (o & Ho & Hid & Hg & Hpl)] Hr Hrg. destruct (phase_op _ _ _ Hp) as (x & Hx & Hxid & Hxg & Hop).
  assert (x = o) as -> by (apply (row_of_key op_id (db_operations d)); [apply Hok|done|done|congruence]).
  destruct (to_resource _ _ Hok o Ho Hop) as (r' & Hr' & Hg' & He).
  assert (r = r') as -> by (apply (row_of_key rs_guresid (db_active_resources d)); [apply Hok|done|done|congruence]).
  congruence.
Qed.

Section kept_of.
Context (d d' : Db) (id g : string) (Hok : res_ok d) (Hok' : res_ok d') (Hk : kept d d' id g).

Lemma kept_op o :
  phase d g = Calling id ∨ phase d g = InDoubt id → held d id g o →
  ∃ o', held d' id g o' ∧ same_op o o' ∧ (in_flight d o = true → in_flight d' o' = true).
Proof using Hok Hk.
  intros Hp (Ho & Hid & Hg & Hpl). destruct Hk as (Ep & Hrows & Hops). rewrite <- Ep in Hp.
  destruct (phase_op _ _ _ Hp) as (o' & Ho' & Hid' & Hg' & _).
  destruct (Hops o' Ho' Hid' Hg') as (x & Hx & Hs).
  assert (x = o) as -> by (apply (row_of_key op_id (db_operations d)); [apply Hok|done|done|destruct Hs; congruence]).
  exists o'. split_and!; [destruct Hs as (_ & _ & E & _); split_and!; congruence || done|done|].
  destruct Hs as (_ & _ & _ & Ek & Er). unfold in_flight. rewrite <- Ek, <- Er, Hg, Hg'.
  intros [Hd Hput]%andb_true_iff. apply andb_true_iff. split; [|done]. apply negb_true_iff. apply negb_true_iff in Hd.
  apply andb_false_iff. apply andb_false_iff in Hd as [?|Hd]; [by left|right].
  rewrite existsb_false in Hd |- *. intros r Hr. apply not_true_is_false. intros [Hrg%has_guresid_spec Hc]%andb_true_iff.
  destruct (Hrows r Hr Hrg) as (r0 & Hr0 & Hg0 & _ & Hc0). specialize (Hd r0 Hr0). cbv beta in Hd.
  rewrite (proj2 (has_guresid_spec _ _)), (Hc0 Hc) in Hd; [done|congruence].
Qed.

Lemma kept_at_work kind sure : at_work d id g kind sure → at_work d' id g kind sure.
Proof using Hok Hk.
  intros (Hp & o & Ho & Hkind & Hs). destruct (kept_op o) as (o' & Ho' & (_ & _ & _ & Ek & _) & Hf); [auto..|].
  split; [by rewrite (proj1 Hk)|]. exists o'. rewrite <- Ek. auto.
Qed.

Lemma kept_accountable : accountable d id g → accountable d' id g.
Proof using Hok Hk.
  intros (o & Ho & Hp). destruct (kept_op o) as (o' & Ho' & _ & Hf); [tauto|done|].
  exists o'. rewrite (proj1 Hk). naive_solver.
Qed.

Lemma kept_row r :
  phase d g = Calling id ∨ phase d g = InDoubt id → r ∈ db_active_resources d → rs_guresid r = g →
  ∃ r', r' ∈ db_active_resources d' ∧ rs_guresid r' = g ∧ res_key r' = res_key r.
Proof using Hok Hk.
  intros Hp Hr Hg. destruct Hk as (Ep & Hrows & _). rewrite <- Ep in Hp.
  destruct (phase_row _ _ _ Hp) as (r' & Hr' & Hg'). exists r'. split_and!; [done..|].
  destruct (Hrows r' Hr' Hg') as (x & Hx & Hxg & <- & _).
  by rewrite (row_of_key rs_guresid (db_active_resources d) r x) by (done || apply Hok || congruence).
Qed.
End kept_of.

Lemma derives_kept d d' id g : derives d d' → phase d' g = phase d g → kept d d' id g.
Proof. intros [Hr Ho] Hp. split_and!; [done|auto..]. Qed.

Lemma same_res_kept d d' id g : same_res d d' → kept d d' id g.
Proof. intros Hs. apply derives_kept; [by apply same_res_derives|by apply same_res_phase]. Qed.

(** ** Rows that are not confirmed deleted *)

Definition clean_at (d : Db) (key : string * string * string) : Prop :=
  ∀ r, r ∈ db_active_resources d → res_key r = key → rs_cleanup_pending r = false.

Lemma clean_kept d d' key :
  (∀ r, r ∈ db_active_resources d' → res_key r = key → row_from d r ∨ rs_cleanup_pending r = false) →
  clean_at d key → clean_at d' key.
Proof.
  intros Hf Hc r Hr Hk. destruct (Hf r Hr Hk) as [(r0 & Hr0 & _ & Hk0 & Hcl)|?]; [|done].
  apply not_true_is_false. intros Ht. specialize (Hcl Ht). rewrite (Hc r0 Hr0) in Hcl; [done|congruence].
Qed.

Lemma derives_clean d d' key : derives d d' → clean_at d key → clean_at d' key.
Proof. intros [Hr _]. apply clean_kept. auto. Qed.

(** ** Operations of the store *)

Section store.
Context `{System} (org : string) (digest : string → string).

Lemma begins_on_Some d start g :
  res_ok d → begins_on d start = Some g ↔ ∃ r, r ∈ db_active_resources d ∧ res_key r = start_key start ∧ rs_guresid r = g.
Proof.
  intros Hok. unfold begins_on. destruct (select_one _ _) as [r|] eqn:E; simpl.
  - apply select_one_Some in E as [Hr Hk%is_resource_spec]. split.
    + intros [= <-]. by exists r.
    + intros (r' & Hr' & Hk' & <-). f_equal. f_equal.
      apply (row_of_key res_key (db_active_resources d)); [apply Hok|done|done|]. unfold start_key in Hk'. congruence.
  - split; [done|]. intros (r & Hr & Hk & _). pose proof (proj1 (select_one_None _ _) E r Hr) as Hn.
    by rewrite (proj2 (is_resource_spec _ _ _ _) Hk) in Hn.
Qed.

(** Resources that were there stay as they are. *)
Lemma begin_rows start d n res c' r r0 :
  begin_operation org start (mk_Conn d n) = Ok (res, c') → r ∈ db_active_resources (c_db c') →
  r0 ∈ db_active_resources d → rs_guresid r = rs_guresid r0 → row_from d r.
Proof.
  intros Hx Hr Hr0 Hg. destruct res as [st|e]; [|by apply (begin_operation_refused _ _ _ _ _ _ Hx)].
  destruct (begin_operation_frame _ _ _ _ _ _ Hx) as (o & _ & _ & _ & _ & _ & _ & _ & _ & Hrows & _).
  destruct (Hrows r Hr) as [?|[_ Hn]]; [done|]. by destruct (Hn r0 Hr0).
Qed.

Lemma begin_clean start d n res c' key :
  begin_operation org start (mk_Conn d n) = Ok (res, c') → clean_at d key → clean_at (c_db c') key.
Proof.
  intros Hx. apply clean_kept. intros r Hr _.
  destruct res as [st|e]; [|left; by apply (begin_operation_refused _ _ _ _ _ _ Hx)].
  destruct (begin_operation_frame _ _ _ _ _ _ Hx) as (o & _ & _ & _ & _ & _ & _ & _ & _ & Hrows & _).
  destruct (Hrows r Hr) as [?|[? _]]; auto.
Qed.

(** Beginning elsewhere. *)
Lemma begin_kept start d n res c' id g :
  res_ok d → unmarked (os_recovery start) = true → begin_operation org start (mk_Conn d n) = Ok (res, c') →
  live d id g → begins_on d start ≠ Some g → kept d (c_db c') id g.
Proof.
  intros Hok Hm Hx [Hp _] Hb. destruct (begin_operation_good org start d n res c' Hm Hok Hx) as [Hok' Hs].
  assert (phase (c_db c') g = phase d g) as Ep.
  { specialize (Hs g). inversion Hs; subst; try done; destruct Hp; congruence. }
  destruct res as [st|e]; [|by apply derives_kept; [eapply begin_operation_refused|]].
  destruct (begin_operation_frame _ _ _ _ _ _ Hx) as (o & Ho & Hid & Hg & _ & _ & _ & _ & Hops & Hrows & r & Hr & Hrg & Hrk).
  destruct (phase_row _ _ _ Hp) as (r0 & Hr0 & Hg0).
  assert (∀ r, r ∈ db_active_resources (c_db c') → rs_guresid r = g → row_from d r) as Hfrom.
  { intros x Hx' Hxg. eapply begin_rows; [done..|congruence]. }
  split_and!; [done..|]. intros x Hx' Hxid Hxg. destruct (Hops x Hx') as [?| ->]; [done|]. exfalso. apply Hb.
  apply begins_on_Some; [done|]. destruct (Hfrom r Hr) as (y & Hy & Hyg & Hyk & _); [congruence|].
  exists y. split_and!; [done|congruence|congruence].
Qed.

Lemma begin_concerns d start g : begins_on d start = Some g → concerns d (OpBeginOperation start) g = true.
Proof. intros Hb. simpl. rewrite Hb. simpl. by rewrite String.eqb_refl. Qed.

Lemma begin_step_calling d g start id q :
  begins_on d start = Some g → phase_step d g (OpBeginOperation start) (Calling id) q →
  ∃ o, o ∈ db_operations d ∧ op_id o = id ∧ (in_flight d o = true → q = InDoubt id).
Proof.
  intros Hb%begin_concerns Hs. inversion Hs; subst; [congruence|eexists..]; split_and!; try done. congruence.
Qed.

Lemma begin_step_doubt d g start id q :
  begins_on d start = Some g → ¬ phase_step d g (OpBeginOperation start) (InDoubt id) q.
Proof. intros Hb%begin_concerns Hs. inversion Hs; subst; congruence. Qed.

(** Beginning anywhere: what may have been called is not forgotten. *)
Lemma begin_accountable start d n res c' id g :
  res_ok d → unmarked (os_recovery start) = true → begin_operation org start (mk_Conn d n) = Ok (res, c') →
  accountable d id g → accountable (c_db c') id g.
Proof.
  intros Hok Hm Hx Ha. destruct (decide (begins_on d start = Some g)) as [Hb|Hb].
  2: { eapply kept_accountable; [exact Hok| |exact Ha]. eapply begin_kept; try done. by apply accountable_live. }
  destruct (begin_operation_good org start d n res c' Hm Hok Hx) as [Hok' Hs]. specialize (Hs g).
  pose proof (accountable_live _ _ _ Ha) as Hl. assert (phase (c_db c') g = InDoubt id) as Hp.
  { destruct Ha as (o & (Ho & Hid & _) & [[Hp Hf]|Hp]); rewrite Hp in Hs; [|by apply begin_step_doubt in Hs].
    apply begin_step_calling in Hs as (x & Hx' & Hxid & Hq); [|done].
    rewrite (row_of_key op_id (db_operations d) x o) in Hq by (done || apply Hok || congruence). auto. }
  destruct (phase_op (c_db c') g id) as (o' & Ho' & Hid' & Hg' & Hop'); [by right|].
  exists o'. split; [|by right]. split_and!; [done..|].
  destruct (to_resource _ _ Hok' o' Ho' Hop') as (r & Hr & Hrg & <-).
  apply begins_on_Some in Hb as (r0 & Hr0 & Hk0 & Hg0); [|done]. rewrite <- (live_env d id g r0) by done.
  destruct (begin_rows _ _ _ _ _ r r0 Hx Hr Hr0) as (x & Hx' & Hxg & Hxk & _); [congruence|].
  rewrite (row_of_key rs_guresid (db_active_resources d) r0 x) by (done || apply Hok || congruence).
  unfold res_key, res_env in *. congruence.
Qed.

(** What the new operation is for its own task. *)
Lemma begin_own start d n st c' :
  res_ok d → unmarked (os_recovery start) = true → (os_app start, os_env start) = (app, env) →
  begin_operation org start (mk_Conn d n) = Ok (Ok st, c') →
  at_work (c_db c') (ost_operation_id st) (ost_guresid st) (os_kind start) false
  ∧ (os_kind start = Delete → clean_at d (start_key start) →
     at_work (c_db c') (ost_operation_id st) (ost_guresid st) (os_kind start) true)
  ∧ ∃ r, r ∈ db_active_resources (c_db c') ∧ rs_guresid r = ost_guresid st ∧ res_key r = start_key start.
Proof.
  intros Hok Hm Hpl Hx. destruct (begin_operation_good org start d n _ c' Hm Hok Hx) as [Hok' _].
  destruct (begin_operation_frame _ _ _ _ _ _ Hx) as (o & Ho & Hid & Hg & Hop & Hkind & Hopen & Hst & _ & _ & r & Hr & Hrg & Hrk).
  assert (phase (c_db c') (ost_guresid st) = Calling (ost_operation_id st)) as Hp.
  { rewrite <- Hg, <- Hid, (open_phase_of _ o) by done. unfold open_phase. by rewrite Hst. }
  assert (held (c_db c') (ost_operation_id st) (ost_guresid st) o) as Hheld by (split_and!; congruence || done).
  split_and!; [split; [done|]; by exists o| |by exists r].
  intros Hdel Hc. split; [done|]. exists o. split_and!; [done..|]. intros _. unfold in_flight. rewrite Hkind, Hdel. simpl.
  rewrite andb_true_r. apply negb_true_iff. rewrite Hg, (cleanup_pending_row _ r) by done.
  by apply (begin_clean _ _ _ _ _ _ Hx Hc).
Qed.

Lemma select_op d o id :
  res_ok d → o ∈ db_operations d → op_id o = id → select_one (is_operation id) (db_operations d) = Some o.
Proof.
  intros Hok Ho Hid. destruct (select_one _ _) as [x|] eqn:E.
  - apply select_one_Some in E as [Hx Hxid%is_operation_spec]. f_equal.
    apply (row_of_key op_id (db_operations d)); [apply Hok|done|done|congruence].
  - pose proof (proj1 (select_one_None _ _) E o Ho) as Hn. by rewrite (proj2 (is_operation_spec _ _) Hid) in Hn.
Qed.

(** Checkpoints of other operations. *)
Lemma checkpoint_kept id1 result d n u c' id g :
  res_ok d → checkpoint_in_tx id1 result (mk_Conn d n) = Ok (u, c') → live d id g → id ≠ id1 → kept d (c_db c') id g.
Proof.
  intros Hok Hx [Hp _] Hne. destruct (checkpoint_moves _ _ _ _ _ _ Hok Hx) as (o & Ho & Hid & Hop & _ & _ & Hbefore & _ & Hmv).
  assert (g ≠ op_guresid o) as Hg.
  { intros ->. rewrite Hbefore in Hp. unfold open_phase in Hp. case_match; destruct Hp; congruence. }
  pose proof (select_op _ _ _ Hok Ho Hid) as Hsel.
  destruct (checkpoint_frame _ _ _ _ _ _ _ Hx Hsel) as [Hr Ho']. split_and!; [auto| |auto].
  intros r Hin Hrg. destruct (Hr r Hin) as (r0 & ? & ? & ? & Hc). exists r0. split_and!; [done..|]. apply Hc. congruence.
Qed.

Lemma checkpoint_clean id1 result d n u c' key :
  res_ok d → checkpoint_in_tx id1 result (mk_Conn d n) = Ok (u, c') →
  (∀ o r, o ∈ db_operations d → op_id o = id1 → is_open o = true → r ∈ db_active_resources d →
     rs_guresid r = op_guresid o → res_key r ≠ key) →
  clean_at d key → clean_at (c_db c') key.
Proof.
  intros Hok Hx Hn Hc r Hr Hk. destruct (checkpoint_moves _ _ _ _ _ _ Hok Hx) as (o & Ho & Hid & Hop & _).
  destruct (checkpoint_frame _ _ _ _ _ _ o Hx) as [Hrows _]; [by apply select_op|].
  destruct (Hrows r Hr) as (r0 & Hr0 & Hg0 & Hk0 & Hcl). apply not_true_is_false. intros Ht.
  destruct (decide (rs_guresid r = op_guresid o)) as [E|E].
  - eapply (Hn o r0); [done..|congruence|congruence].
  - specialize (Hcl E Ht). rewrite (Hc r0) in Hcl; [done|done|congruence].
Qed.

(** Recording inputs. *)
Lemma record_phase id1 recovery d n u c' :
  unmarked recovery = true → res_ok d → record_operation_inputs id1 recovery (mk_Conn d n) = Ok (u, c') →
  res_ok (c_db c') ∧ ∀ g, phase (c_db c') g = phase d g.
Proof.
  intros Hm Hok Hx. destruct (record_operation_inputs_good _ _ _ _ _ _ Hm Hok Hx) as [Hok' Hs]. split; [done|].
  intros g. specialize (Hs g). by inversion Hs.
Qed.

Lemma record_kept id1 recovery d n u c' id g :
  unmarked recovery = true → res_ok d → record_operation_inputs id1 recovery (mk_Conn d n) = Ok (u, c') →
  id ≠ id1 → kept d (c_db c') id g.
Proof.
  intros Hm Hok Hx Hne. destruct (record_phase _ _ _ _ _ _ Hm Hok Hx) as [_ Hp].
  apply record_inputs_Ok in Hx as [Er Eo]. split_and!; [done| |].
  - intros r. rewrite Er. intros Hr _. by exists r.
  - intros o. rewrite Eo. intros (o0 & Ho0 & ->)%elem_of_update Hid _.
    destruct (is_operation id1 o0 && _) eqn:E; [|by exists o0].
    apply andb_true_iff in E as [E%is_operation_spec _]. by simpl in Hid; destruct Hne; congruence.
Qed.

Lemma record_own id recovery d n u c' g sure :
  unmarked recovery = true → has_inputs recovery = true → res_ok d →
  record_operation_inputs id recovery (mk_Conn d n) = Ok (u, c') →
  at_work d id g Put sure → at_work (c_db c') id g Put true.
Proof.
  intros Hm Hi Hok Hx (Hp & o & (Ho & Hid & Hg & Hpl) & Hk & _).
  destruct (record_phase _ _ _ _ _ _ Hm Hok Hx) as [_ Hp']. split; [by rewrite Hp'|].
  apply record_inputs_Ok in Hx as [Er Eo]. exists (set_op_recovery recovery o). split; [|split; [done|]].
  - split_and!; try done. rewrite Eo. apply elem_of_update. exists o. split; [done|].
    destruct (phase_calling _ _ _ Hp) as (x & Hx & Hxid & _ & Hst).
    rewrite (row_of_key op_id (db_operations d) x o) in Hst by (done || apply Hok || congruence).
    by rewrite (proj2 (is_operation_spec _ _) Hid), Hst.
  - intros _. unfold in_flight. simpl. rewrite Hk, Hi. done.
Qed.

Lemma record_accountable id1 recovery d n u c' id g :
  unmarked recovery = true → has_inputs recovery = true → res_ok d →
  record_operation_inputs id1 recovery (mk_Conn d n) = Ok (u, c') → accountable d id g → accountable (c_db c') id g.
Proof.
  intros Hm Hi Hok Hx (o & (Ho & Hid & Hg & Hpl) & Hp). destruct (record_phase _ _ _ _ _ _ Hm Hok Hx) as [_ Hph].
  apply record_inputs_Ok in Hx as [Er Eo].
  set (p := λ o, is_operation id1 o && String.eqb (op_state o) "started") in Eo.
  exists (if p o then set_op_recovery recovery o else o). split.
  - split_and!; try (by destruct (p o)). rewrite Eo. apply elem_of_update. by exists o.
  - rewrite Hph. destruct Hp as [[Hp Hf]|Hp]; [left|by right]. split; [done|].
    unfold in_flight in *. rewrite Er. apply andb_true_iff in Hf as [Hf1 Hf2].
    destruct (p o); cbn [op_kind op_guresid op_recovery set_op_recovery]; rewrite Hf1; simpl; [|done].
    by rewrite Hi, andb_false_r.
Qed.

Lemma same_rows_clean d d' key : db_active_resources d' = db_active_resources d → clean_at d key → clean_at d' key.
Proof. unfold clean_at. by intros ->. Qed.

(** ** Everything else *)

Lemma foreign_phase op d n u c' id g :
  plain_op op = true → foreign app env d op = true → res_ok d → identity_ok d → exec org digest op (mk_Conn d n) = Ok (u, c') →
  live d id g → phase (c_db c') g = phase d g.
Proof.
  intros Hpl Hf Hok Hid Hx Hl. destruct (exec_good org digest op d n u c' Hpl Hok Hid Hx) as [_ Hs]. specialize (Hs g).
  pose proof Hl as [Hp (o & Ho & Hoid & Hog & Hopl)].
  assert (∀ i, existsb (λ o, is_operation i o && op_in_env app env o) (db_operations d) = false → i ≠ id) as Hnot.
  { intros i Hn ->. pose proof (proj1 (existsb_false _ _) Hn o Ho) as Hn'. cbv beta in Hn'.
    by rewrite (proj2 (is_operation_spec _ _) Hoid), (proj2 (op_in_env_spec _ _ _) Hopl) in Hn'. }
  assert (∀ start, negb (String.eqb (os_app start) app && String.eqb (os_env start) env) = true →
    begins_on d start ≠ Some g) as Hbeg.
  { intros start Hn (r & Hr & Hk & Hrg)%begins_on_Some; [|done]. pose proof (live_env d id g r Hok Hl Hr Hrg) as He.
    unfold res_key, res_env, start_key in *. assert (os_app start = app ∧ os_env start = env) as [Ea Ee] by (split; congruence).
    by rewrite Ea, Ee, !String.eqb_refl in Hn. }
  inversion Hs as [| | |start x i Hb|start x Hb|i res Ecall|i res Hobs|x resolution audit Hx' Hmay|x|i Hmark|? ? ? ? ? Hdt|o1 a e i p Hc];
    subst; try done; simpl in Hf; try (destruct Hp; congruence); try (by destruct (Hbeg start)).
  1-3: apply negb_true_iff, Hnot in Hf; destruct Hp; congruence.
  simpl in Hc. apply andb_true_iff in Hc as [_ (r & Hr & [Hrg%has_guresid_spec He%res_in_env_spec]%andb_true_iff)%existsb_true].
  rewrite (live_env d _ _ r Hok Hl Hr Hrg) in He. injection He as <- <-. by rewrite !String.eqb_refl in Hf.
Qed.

(** An operation in another environment is on a resource of that environment. *)
Lemma foreign_checkpoint d o r :
  res_ok d → o ∈ db_operations d → is_open o = true → op_in_env app env o = false →
  r ∈ db_active_resources d → rs_guresid r = op_guresid o → res_env r ≠ (app, env).
Proof.
  intros Hok Ho Hop Hn Hr Hg He. destruct (to_resource _ _ Hok o Ho Hop) as (x & Hx & Hxg & Hxe).
  rewrite (row_of_key rs_guresid (db_active_resources d) r x) in He by (done || apply Hok || congruence).
  rewrite Hxe in He. by rewrite (proj2 (op_in_env_spec _ _ _) He) in Hn.
Qed.

Lemma foreign_kept op d n u c' id g :
  plain_op op = true → foreign app env d op = true → res_ok d → identity_ok d → exec org digest op (mk_Conn d n) = Ok (u, c') →
  live d id g → kept d (c_db c') id g.
Proof.
  intros Hpl Hf Hok Hid Hx Hl. pose proof (foreign_phase _ _ _ _ _ _ _ Hpl Hf Hok Hid Hx Hl) as Hp.
  destruct (changes_identity op) eqn:Ec; [|by apply derives_kept; [apply exec_derives in Hx|]].
  pose proof Hl as [_ (o & Ho & Hoid & _ & Hopl)].
  assert (∀ i, existsb (λ o, is_operation i o && op_in_env app env o) (db_operations d) = false → id ≠ i) as Hnot.
  { intros i Hn <-. pose proof (proj1 (existsb_false _ _) Hn o Ho) as Hn'. cbv beta in Hn'.
    by rewrite (proj2 (is_operation_spec _ _) Hoid), (proj2 (op_in_env_spec _ _ _) Hopl) in Hn'. }
  destruct op; try done; simpl in Hx, Hf; try apply drop_Ok in Hx as [? Hx].
  - eapply begin_kept; [done..|]. intros (r & Hr & Hk & Hrg)%begins_on_Some; [|done].
    pose proof (live_env d id g r Hok Hl Hr Hrg) as He. unfold res_key, res_env, start_key in *.
    assert (os_app start = app ∧ os_env start = env) as [Ea Ee] by (split; congruence).
    by rewrite Ea, Ee, !String.eqb_refl in Hf.
  - apply negb_true_iff, Hnot in Hf. by eapply checkpoint_kept.
  - apply negb_true_iff, Hnot in Hf. by eapply record_kept.
Qed.

Lemma foreign_clean op d n u c' descriptor :
  foreign app env d op = true → res_ok d → exec org digest op (mk_Conn d n) = Ok (u, c') →
  clean_at d (app, env, descriptor) → clean_at (c_db c') (app, env, descriptor).
Proof.
  intros Hf Hok Hx. destruct (changes_identity op) eqn:Ec; [|by apply derives_clean; apply exec_derives in Hx].
  destruct op; try done; simpl in Hx, Hf; try apply drop_Ok in Hx as [? Hx].
  - by eapply begin_clean.
  - eapply checkpoint_clean; [done..|]. intros o r Ho Hid Hop Hr Hg Hk. apply negb_true_iff in Hf.
    pose proof (proj1 (existsb_false _ _) Hf o Ho) as Hn. cbv beta in Hn. rewrite (proj2 (is_operation_spec _ _) Hid) in Hn.
    apply (foreign_checkpoint d o r); try done. unfold res_key, res_env in *. congruence.
  - apply same_rows_clean. by apply record_inputs_Ok in Hx as [? _].
Qed.
End store.
End kept.
