(* ===== verification/PlanRecords.v ===== *)
(** * The records behind a run

    A task records its operation before it calls the executor, and the inputs it calls with; it
    settles only its own operation: a protocol over what a task knows of the store. What a task knows of the store is true when it learns it, and stays true whatever the tasks
    of other resources do: each kind of call, with the store operation that answers it. *)

From Stdlib Require Import Ascii.
From stdpp Require Import base sets strings list relations.
From S2P Require Import Prelude Effects Strings OrdMap Ids Json Model Placeholder Graph Db DbLogic Identity Rbac Apps Permits Deployments Resources IdentityInv IdentityRoles DeployInv Access Operations DeployProofs Lifecycle History Phases ResourceSteps Restart Recovery Deletion PlanInputs PlanJob PlanTask PlanRun PlanLogic PlanOrder PlanFrame PlanKept.

Local Open Scope string_scope.
Local Open Scope list_scope.

(** ** The protocol of a task *)

(** What a task knows of the store: nothing of its resource (when [clean], that no deletion of
    it is confirmed), or that it holds an open operation (when [sure], one that a restart would
    not take for uncalled). *)
Inductive Local :=
| Resting (clean : bool)
| Held (id g : string) (sure : bool)
| Adrift.

Section protocol.
Context (app env : string) (kind : OperationKind) (d : Descriptor).

Definition task_allowed (l : Local) (c : Call) : Prop :=
  match c with
  | CNow | CJitter _ | CSleep _ | CAcquire | CRelease | CActiveResource _ _ _ _ | CPermitCheck _ => True
  | CBegin start =>
      os_app start = app ∧ os_env start = env ∧ os_descriptor start = d ∧ os_kind start = kind
      ∧ unmarked (os_recovery start) = true
  | CRecordInputs id recovery =>
      kind = Put ∧ unmarked recovery = true ∧ has_inputs recovery = true ∧ ∃ g sure, l = Held id g sure
  | CCheckpoint id _ => ∃ g sure, l = Held id g sure
  | CProvision j => l = Held (pj_operation_id j) (pj_guresid j) true
  | CDeprovision j => l = Held (pj_operation_id (xj_job j)) (pj_guresid (xj_job j)) true
  | CActiveResources _ _ _ | CTombstones _ _ _ | CRecordStatus _ _ _ _ _ _ _ | CFinish _ _ _ _ _ => False
  end.

(** Whether a deletion that begins is sure. *)
Definition sure_deletion (l : Local) : bool :=
  match kind, l with Delete, Resting true => true | _, _ => false end.

Definition task_next (l : Local) (c : Call) : answer c → Local :=
  match c with
  | CBegin _ => λ r,
      match r with
      | Ok started => Held (ost_operation_id started) (ost_guresid started) (sure_deletion l)
      | Err _ => Adrift
      end
  | CRecordInputs _ _ => λ r,
      match r, l with Ok _, Held id g _ => Held id g true | _, l => l end
  | CCheckpoint _ result => λ r,
      match r, l with
      | Ok _, Held _ _ sure =>
          Resting (match kind, result with Delete, WasFailed _ => sure | _, _ => false end)
      | Ok _, _ => Resting false
      | Err _, l => l
      end
  | _ => λ _, l
  end.
End protocol.

Abbreviation keeps_records app env kind d := (follows (task_allowed app env kind d) (task_next kind)).

(** Like [walk], for this protocol. *)
Ltac walk_records :=
  repeat first
    [ done
    | match goal with
      | |- _ ∧ _ => split
      | |- ∀ _, _ => intro
      | |- ∃ _, _ => eexists
      | |- context [match ?x with _ => _ end] => destruct x
      end
    | progress cbn [follows pbind ask checkpoint task_allowed task_next] ].

Section follow.
Context `{System} `{Libraries} `{InputsReader} (dep : Deployment) (limits : Limits) (deadline : Z).

Abbreviation keeps kind d := (keeps_records (dep_app dep) (dep_env dep) kind d).

Lemma job_operation scope node version def fp started j :
  job dep deadline scope node version def fp started = Ok j →
  pj_operation_id j = ost_operation_id started ∧ pj_guresid j = ost_guresid started.
Proof.
  intros Hj. unfold job in Hj. destruct (driver_inputs def scope scope) as [[[values secrets] refs]|]; [|done].
  destruct (job_params node scope) as [params literal]. by inv_result Hj.
Qed.

Lemma acquire_records kind d l : keeps kind d (λ l' (_ : result unit Outcome), l' = l) l (acquire deadline).
Proof. unfold acquire. walk_records. Qed.

Lemma provision_result_records node version def dependencies j id g sure :
  pj_operation_id j = id → pj_guresid j = g →
  keeps Put (n_descriptor node) (λ l (_ : result ProvisionResult ExecFailure), ∃ s, l = Held id g s) (Held id g sure)
    (provision_result dep node version def dependencies j).
Proof.
  intros Hid Hg. unfold provision_result.
  eapply (follows_bind _ _ (λ l r, l = Held id g sure
    ∧ match r with Ok j => pj_operation_id j = id ∧ pj_guresid j = g | Err _ => True end)).
  - unfold with_prior_state. walk_records.
  - intros l [j'|e] [-> Hj]; [|by eexists]. destruct Hj as [<- <-]. unfold record_and_provision, provision. walk_records.
Qed.

Lemma node_attempt_records node version def scope dependencies fp l :
  keeps Put (n_descriptor node) (λ _ _, True) l (node_attempt dep deadline node version def scope dependencies fp).
Proof.
  unfold node_attempt. eapply follows_bind; [apply acquire_records|]. intros ? [[]|o] ->; [|done].
  cbn [follows pbind ask task_allowed task_next]. split; [done|]. intros [started|e]; [|by walk_records].
  destruct (job _ _ _ _ _ _ _ _) as [j|] eqn:Ej; [|by walk_records]. apply job_operation in Ej as [Hid Hg].
  eapply follows_bind; [by apply provision_result_records|]. intros ? [p|[| |]] [s ->]; unfold record_provisioned; walk_records.
Qed.

Lemma node_attempts_records node version def scope dependencies fp more attempt l :
  keeps Put (n_descriptor node) (λ _ _, True) l
    (node_attempts dep limits deadline node version def scope dependencies fp more attempt).
Proof.
  revert attempt l. induction more as [|more IH]; intros attempt l; cbn [node_attempts];
    (eapply follows_bind; [apply node_attempt_records|]); intros l' [r|[e after]] _; try done.
  unfold retry_delay, backoff. destruct after; walk_records; by apply IH.
Qed.

Lemma node_run_records node done dependencies l :
  keyed dep → keeps Put (n_descriptor node) (λ _ _, True) l
    (node_run dep limits deadline (scope_for dep node done) dependencies).
Proof.
  intros Hk. unfold node_run. cbn [ms_referrer scope_for]. destruct (bt_get _ (g_nodes _)) as [n|] eqn:E; [|done].
  apply bt_get_elem, Hk in E. destruct (bt_get (n_definition n) _) as [[]|]; [|done]. rewrite <- E. apply node_attempts_records.
Qed.

Lemma checkpoint_records kind d id g sure result :
  keeps kind d (λ l (recorded : bool), if recorded
      then l = Resting (match kind, result with Delete, WasFailed _ => sure | _, _ => false end) else l = Held id g sure)
    (Held id g sure) (checkpoint id result).
Proof. cbn. split; [by do 2 eexists|]. by intros [u|e]. Qed.

Lemma remove_record_records d id g sure more pause :
  keeps Delete d (λ l (removed : bool), removed = false → l = Held id g sure) (Held id g sure) (remove_record id more pause).
Proof.
  revert pause. induction more as [|more IH]; intros pause; cbn [remove_record];
    (eapply follows_bind; [apply checkpoint_records|]); intros l [|] Hl; subst; try done.
  cbn [follows pbind ask task_allowed task_next]. split; [done|]. intros _. apply IH.
Qed.

Lemma record_deletion_records d id g sure : keeps Delete d (λ _ _, True) (Held id g sure) (record_deletion id).
Proof.
  unfold record_deletion. eapply follows_bind; [apply remove_record_records|]. intros l [|] Hl; [done|].
  rewrite (Hl eq_refl). eapply follows_bind; [apply checkpoint_records|]. intros l' [|] Hl'; [done|]. subst. walk_records.
Qed.

Section delete.
Context (d : Descriptor) (r : ResourceRow) (recorded : Recorded).

Abbreviation resting := (Resting (negb (rs_cleanup_pending r))).

Lemma delete_started_records started :
  keeps Delete d (λ l x, match x with inl _ => True | inr _ => l = resting end)
    (Held (ost_operation_id started) (ost_guresid started) (sure_deletion Delete resting))
    (delete_started dep deadline d r recorded started).
Proof.
  unfold delete_started, sure_deletion. destruct (rs_cleanup_pending r) eqn:Ec; cbn [negb].
  - cbn [follows pbind ask task_allowed task_next]. split; [done|]. intros _.
    eapply follows_bind; [apply record_deletion_records|]. by intros.
  - eapply (follows_bind _ _ (λ l _, l = Held (ost_operation_id started) (ost_guresid started) true)).
    { unfold execute_deletion. walk_records. }
    intros l result ->. cbn [follows pbind ask task_allowed task_next]. split; [done|]. intros _.
    destruct result as [[]|[| |]].
    + eapply follows_bind; [apply record_deletion_records|]. by intros.
    + eapply follows_bind; [apply checkpoint_records|]. by intros l [|] Hl.
    + eapply follows_bind; [apply checkpoint_records|]. by intros l [|] Hl.
    + eapply follows_bind; [apply checkpoint_records|]. by intros l [|] Hl.
Qed.

Lemma delete_attempt_records attempt :
  keeps Delete d (λ l x, match x with inl _ => True | inr _ => l = resting end) resting
    (delete_attempt dep deadline d r recorded attempt).
Proof.
  unfold delete_attempt. eapply follows_bind; [apply acquire_records|]. intros ? [[]|o] ->; [|done].
  eapply (follows_bind _ _ (λ l _, l = resting)); [case_match; unfold check_permit; walk_records|].
  intros ? [[]|o] ->; [|by walk_records]. cbn [follows pbind ask task_allowed task_next]. split; [done|].
  intros [started|e]; [|by walk_records]. apply delete_started_records.
Qed.

Lemma delete_attempts_records more attempt :
  keeps Delete d (λ _ _, True) resting (delete_attempts dep limits deadline d r recorded more attempt).
Proof.
  revert attempt. induction more as [|more IH]; intros attempt; cbn [delete_attempts];
    (eapply follows_bind; [apply delete_attempt_records|]); intros l [o|[e after]] Hl; try done.
  unfold retry_delay, backoff. destruct after; walk_records; subst; by apply IH.
Qed.
End delete.

Lemma delete_run_records d r :
  keeps Delete d (λ _ _, True) (Resting (negb (rs_cleanup_pending r))) (delete_run dep limits deadline d r).
Proof.
  unfold delete_run. destruct (recorded_of r) as [recorded|]; [|done].
  eapply follows_bind; [apply delete_attempts_records|]. by intros.
Qed.
End follow.

(** ** The records of a run *)

Section records.
Context `{System} `{Libraries} `{InputsReader} (org : string) (digest : string → string).
Context (dep : Deployment) (limits : Limits) (deadline : Z).

Abbreviation app := (dep_app dep).
Abbreviation env := (dep_env dep).
Abbreviation db w := (c_db (w_conn w)).
Abbreviation accountable := (accountable app env).
Abbreviation at_work := (at_work app env).

Definition key_of (d : Descriptor) : string * string * string := (app, env, Descriptor_show d).

(** The store is consistent, and whatever may have been called is accounted for. *)
Definition world_ok (w : World) : Prop :=
  identity_ok (db w) ∧ res_ok (db w) ∧ ∀ id g, (id, g) ∈ w_called w → accountable (db w) id g.

(** What the task of [d] knows is true. *)
Definition knows (kind : OperationKind) (d : Descriptor) (x : Db) (l : Local) : Prop :=
  match l with
  | Resting clean => clean = true → clean_at x (key_of d)
  | Held id g sure =>
      at_work x id g kind sure ∧ ∃ r, r ∈ db_active_resources x ∧ rs_guresid r = g ∧ res_key r = key_of d
  | Adrift => True
  end.

(** What the tasks of other resources know stays true. *)
Definition elsewhere (d : Descriptor) (x x' : Db) : Prop :=
  ∀ d', key_of d' ≠ key_of d →
    (∀ kind l, knows kind d' x l → knows kind d' x' l) ∧ (clean_at x (key_of d') → clean_at x' (key_of d')).

Lemma knows_kept kind d x x' l :
  res_ok x →
  (∀ id g r, live app env x id g → r ∈ db_active_resources x → rs_guresid r = g → res_key r = key_of d → kept x x' id g) →
  (clean_at x (key_of d) → clean_at x' (key_of d)) → knows kind d x l → knows kind d x' l.
Proof.
  intros Hok Hk Hc. destruct l as [clean|id g sure|]; simpl; [auto| |done].
  intros (Hw & r & Hr & Hg & Hkey). pose proof (at_work_live _ _ _ _ _ _ _ Hw) as Hl.
  pose proof (Hk id g r Hl Hr Hg Hkey) as Hkept. split; [by eapply kept_at_work|].
  destruct (kept_row x x' id g Hok Hkept r) as (r' & Hr' & Hg' & Hk'); [apply Hl|done..|].
  exists r'. split_and!; congruence || done.
Qed.

Lemma same_res_elsewhere d x x' : res_ok x → same_res x x' → elsewhere d x x'.
Proof.
  intros Hok Hs d' _. assert (clean_at x (key_of d') → clean_at x' (key_of d')) as Hc.
  { apply derives_clean. by apply same_res_derives. }
  split; [|done]. intros kind l. apply knows_kept; [done| |done]. intros. by apply same_res_kept.
Qed.

Lemma same_res_knows kind d x x' l : res_ok x → same_res x x' → knows kind d x l → knows kind d x' l.
Proof.
  intros Hok Hs. apply knows_kept; [done| |apply derives_clean; by apply same_res_derives].
  intros. by apply same_res_kept.
Qed.

(** A step that changes neither resources nor operations. *)
Lemma same_res_world w w' :
  identity_ok (db w') → same_res (db w) (db w') → w_called w' = w_called w → world_ok w → world_ok w'.
Proof.
  intros Hid Hs Ec (_ & Hok & Hc). split_and!; [done|by eapply same_res_ok|]. rewrite Ec. intros id g Hin.
  eapply kept_accountable; [exact Hok| |by apply Hc]. by apply same_res_kept.
Qed.

(** The row of an operation that a task holds is its own. *)
Lemma own_row kind d x id g sure r o :
  res_ok x → knows kind d x (Held id g sure) → o ∈ db_operations x → op_id o = id →
  r ∈ db_active_resources x → rs_guresid r = op_guresid o → res_key r = key_of d.
Proof.
  intros Hok ((_ & o' & (Ho' & Hid' & Hg' & _) & _) & r' & Hr' & Hrg' & Hk') Ho Hid Hr Hrg.
  assert (o = o') as -> by (apply (row_of_key op_id (db_operations x)); [apply Hok|done|done|congruence]).
  by rewrite (row_of_key rs_guresid (db_active_resources x) r r') by (done || apply Hok || congruence).
Qed.

(** Tasks of different resources hold different operations. *)
Lemma other_operation kind d x id g sure id' g' d' r :
  res_ok x → knows kind d x (Held id g sure) → live app env x id' g' → r ∈ db_active_resources x →
  rs_guresid r = g' → res_key r = key_of d' → key_of d' ≠ key_of d → id' ≠ id.
Proof.
  intros Hok Hkn [_ (o & Ho & Hid & Hg & _)] Hr Hrg Hk Hne ->. apply Hne. rewrite <- Hk.
  eapply own_row; [done|exact Hkn|exact Ho|done|done|congruence].
Qed.

(** ** Calls *)

Lemma dropped {A} (m : tx A) c a c' : m c = Ok (a, c') → drop m c = Ok (tt, c').
Proof. intros Hm. unfold drop. simpl. unfold bind. by rewrite Hm. Qed.

Lemma exec_stays_ok op c u c' :
  plain_op op = true → identity_ok (c_db c) → res_ok (c_db c) → exec org digest op c = Ok (u, c') →
  identity_ok (c_db c') ∧ res_ok (c_db c').
Proof.
  intros Hp Hid Hok Hx. split; [by apply (exec_keeps org digest op _ _ _ Hx)|]. destruct c as [x n].
  by eapply exec_good in Hx as [? _].
Qed.

(** The result of a call: what the world, the caller and the others know. *)
Definition call_ok (kind : OperationKind) (d : Descriptor) (w w' : World) (l' : Local) : Prop :=
  world_ok w' ∧ knows kind d (db w') l' ∧ elsewhere d (db w) (db w').

Lemma unchanged kind d w w' l :
  db w' = db w → w_called w' = w_called w → world_ok w → knows kind d (db w) l → call_ok kind d w w' l.
Proof.
  intros E Ec (Hid & Hok & Hc) Hk. split_and!; [|by rewrite E|intros d' _; by rewrite E].
  unfold world_ok. rewrite E, Ec. done.
Qed.

Lemma same_res_call kind d w w' l :
  identity_ok (db w') → same_res (db w) (db w') → w_called w' = w_called w → world_ok w → knows kind d (db w) l →
  call_ok kind d w w' l.
Proof.
  intros Hid Hs Ec Hw Hk. pose proof Hw as (_ & Hok & _).
  split_and!; [by eapply same_res_world|by eapply same_res_knows|by apply same_res_elsewhere].
Qed.

Lemma begin_call kind d w l start x c' :
  world_ok w → knows kind d (db w) l → task_allowed app env kind d l (CBegin start) →
  tx_answers (begin_operation org start) (w_conn w) x c' →
  call_ok kind d w (set_conn w c') (task_next kind l (CBegin start) (flatten x)).
Proof.
  intros Hw Hk (Ha & He & Hd & Hkind & Hm) Hx. pose proof Hw as (Hid & Hok & Hc).
  destruct (w_conn w) as [y n] eqn:Ew. simpl in *.
  assert (call_ok kind d w (set_conn w (mk_Conn y n)) Adrift) as Hsame.
  { apply unchanged; cbn; rewrite ?Ew; done. }
  destruct Hx as [Hx|(e & -> & ->)]; [|done]. destruct (begin_operation org start (mk_Conn y n)) as [[res c1]|e] eqn:E;
    destruct Hx as [-> ->]; [|done]. cbn [flatten].
  destruct (exec_stays_ok (OpBeginOperation start) (mk_Conn y n) tt c1) as [Hid' Hok'];
    [done..|by eapply dropped|].
  assert (start_key start = key_of d) as Hkey by (unfold start_key, key_of; congruence).
  split_and!; cbn [set_conn w_conn w_called c_db]; rewrite ?Ew; cbn [c_db].
  - split_and!; [done..|]. intros id g Hin. eapply begin_accountable; [exact Hok|done|exact E|]. by apply Hc.
  - destruct res as [st|]; [|done]. destruct (begin_own app env org start y n st c1) as (Hw1 & Hw2 & r & Hr & Hg & Hrk);
      [done|done|congruence|done|]. rewrite Hkind in *. split; [|exists r; by rewrite <- Hkey].
    unfold sure_deletion. destruct kind, l as [[|]| |]; try done. apply Hw2; [done|]. rewrite Hkey. by apply Hk.
  - intros d' Hne. assert (clean_at y (key_of d') → clean_at (c_db c1) (key_of d')) as Hclean by (by eapply begin_clean).
    split; [|done]. intros kind' l'. apply knows_kept; [done| |done]. intros id g r Hl Hr Hg Hrk.
    eapply begin_kept; [done..|]. intros (r0 & Hr0 & Hk0 & Hg0)%begins_on_Some; [|done]. apply Hne.
    rewrite <- Hrk, <- Hkey, <- Hk0. f_equal. apply (row_of_key rs_guresid (db_active_resources y)); [apply Hok|done|done|congruence].
Qed.

Lemma record_call d w id recovery g sure r c' :
  world_ok w → knows Put d (db w) (Held id g sure) → unmarked recovery = true → has_inputs recovery = true →
  tx_answers (record_operation_inputs id recovery) (w_conn w) r c' →
  call_ok Put d w (set_conn w c') (if is_ok r then Held id g true else Held id g sure).
Proof.
  intros Hw Hk Hm Hi Hx. pose proof Hw as (Hid & Hok & Hc). destruct (w_conn w) as [y n] eqn:Ew. simpl in *.
  assert (call_ok Put d w (set_conn w (mk_Conn y n)) (Held id g sure)) as Hsame.
  { apply unchanged; cbn; rewrite ?Ew; done. }
  destruct Hx as [Hx|(e & -> & ->)]; [|done]. destruct (record_operation_inputs id recovery (mk_Conn y n)) as [[u c1]|e] eqn:E;
    destruct Hx as [-> ->]; [|done].
  destruct (exec_stays_ok (OpRecordInputs id recovery) (mk_Conn y n) u c1) as [Hid' Hok']; [done..|].
  pose proof (record_inputs_Ok _ _ _ _ _ _ E) as [Er _].
  split_and!; cbn [set_conn w_conn w_called c_db is_ok]; rewrite ?Ew; cbn [c_db].
  - split_and!; [done..|]. intros id' g' Hin. eapply record_accountable; [exact Hm|done|exact Hok|exact E|]. by apply Hc.
  - destruct Hk as [Hk (row & Hr & Hg & Hrk)]. split; [by apply (record_own app env id recovery y n u c1 g sure)|]. exists row. by rewrite Er.
  - intros d' Hne. assert (clean_at y (key_of d') → clean_at (c_db c1) (key_of d')) as Hclean by (by apply same_rows_clean).
    split; [|done]. intros kind' l'. apply knows_kept; [done| |done]. intros id' g' row Hl Hr Hg Hrk.
    eapply record_kept; [done..|]. by eapply (other_operation Put d y id g sure).
Qed.

(** A task that holds an operation of unconfirmed deletion leaves its resource so. *)
Lemma sure_clean d x id g : res_ok x → knows Delete d x (Held id g true) → clean_at x (key_of d).
Proof.
  intros Hok ((_ & o & (Ho & Hid & Hg & _) & Hk & Hf) & r & Hr & Hrg & Hrk) r' Hr' Hk'.
  rewrite (row_of_key res_key (db_active_resources x) r' r) by (done || apply Hok || congruence).
  specialize (Hf eq_refl). unfold in_flight in Hf. rewrite Hk, Hg, (cleanup_pending_row _ r) in Hf by done.
  simpl in Hf. by destruct (rs_cleanup_pending r).
Qed.

Lemma checkpoint_call kind d w id result g sure r c' :
  world_ok w → knows kind d (db w) (Held id g sure) →
  tx_answers (checkpoint_operation id result) (w_conn w) r c' →
  call_ok kind d w (if is_ok r then settle_called (set_conn w c') id else set_conn w c')
    (task_next kind (Held id g sure) (CCheckpoint id result) r).
Proof.
  intros Hw Hk Hx. pose proof Hw as (Hid & Hok & Hc). destruct (w_conn w) as [y n] eqn:Ew. cbn [c_db] in *.
  assert (call_ok kind d w (set_conn w (mk_Conn y n)) (Held id g sure)) as Hsame.
  { apply unchanged; cbn [set_conn w_conn w_called]; rewrite ?Ew; done. }
  destruct Hx as [Hx|(e & -> & ->)]; [|done]. destruct (checkpoint_operation id result (mk_Conn y n)) as [[u c1]|e] eqn:E;
    destruct Hx as [-> ->]; [|done].
  destruct (exec_stays_ok (OpCheckpoint id result) (mk_Conn y n) u c1) as [Hid' Hok']; [done..|].
  split_and!; cbn [settle_called set_conn w_conn w_called c_db is_ok task_next]; rewrite ?Ew; cbn [c_db].
  - split_and!; [done..|]. intros id' g' [Hne Hin]%list_elem_of_filter.
    eapply kept_accountable; [exact Hok| |by apply Hc]. eapply checkpoint_kept; [done..| |done]. by apply accountable_live, Hc.
  - simpl. intros Hs. destruct kind, result; try done. subst. apply sure_clean in Hk; [|done].
    apply checkpoint_derives in E; [|done]. by eapply derives_clean.
  - intros d' Hne. assert (clean_at y (key_of d') → clean_at (c_db c1) (key_of d')) as Hclean.
    { eapply checkpoint_clean; [done..|]. intros o row Ho Hoid _ Hr Hrg E'. apply Hne. rewrite <- E'.
      by apply (own_row kind d y id g sure row o). }
    split; [|done]. intros kind' l'. apply knows_kept; [done| |done]. intros id' g' row Hl Hr Hg Hrk.
    eapply checkpoint_kept; [done..|]. by eapply (other_operation kind d y id g sure).
Qed.

(** Calls that only read. *)
Lemma read_call {A} (m : tx A) kind d w l r c' :
  reads m → world_ok w → knows kind d (db w) l → tx_answers m (w_conn w) r c' → call_ok kind d w (set_conn w c') l.
Proof.
  intros Hm Hw Hk Hx. apply unchanged; try done. cbn.
  destruct Hx as [Hx|(e & _ & ->)]; [|done]. destruct (m (w_conn w)) as [[a c1]|e] eqn:E; destruct Hx as [_ ->]; [|done].
  symmetry. by apply (Hm _ _ _ E).
Qed.

(** Calls about neither resources nor operations. *)
Lemma other_call {A} (m : tx A) op kind d w l r c' :
  about_resources op = false → (∀ c a c', m c = Ok (a, c') → exec org digest op c = Ok (tt, c')) → plain_op op = true →
  world_ok w → knows kind d (db w) l → tx_answers m (w_conn w) r c' → call_ok kind d w (set_conn w c') l.
Proof.
  intros Ha Em Hp Hw Hk Hx. destruct Hx as [Hx|(e & _ & ->)]; [|by apply unchanged].
  destruct (m (w_conn w)) as [[a c1]|e] eqn:E; destruct Hx as [_ ->]; [|by apply unchanged].
  apply Em in E. pose proof Hw as (Hid & Hok & _).
  apply same_res_call; try done; [by apply (exec_keeps org digest op _ _ _ E)|by apply (exec_same_res org digest op Ha _ _ _ E)].
Qed.

Lemma accountable_sure kind d x id g : knows kind d x (Held id g true) → accountable x id g.
Proof. intros [(Hp & o & Ho & _ & Hf) _]. exists o. split; [done|]. left. auto. Qed.

Lemma add_called_ok w id g : world_ok w → accountable (db w) id g → world_ok (add_called w id g).
Proof.
  intros (Hid & Hok & Hc) Ha. split_and!; [done..|]. intros id' g' [[= -> ->]|Hin]%elem_of_cons; [done|]. by apply Hc.
Qed.

Lemma executor_call kind d w id g : world_ok w → knows kind d (db w) (Held id g true) →
  call_ok kind d w (add_called w id g) (Held id g true).
Proof. intros Hw Hk. split_and!; [|done|by intros d' _]. apply add_called_ok; [done|]. by eapply accountable_sure. Qed.

Lemma task_call kind d w l c a w' :
  world_ok w → knows kind d (db w) l → task_allowed app env kind d l c → answers org w c a w' →
  call_ok kind d w w' (task_next kind l c a).
Proof.
  intros Hw Hk Hc Ha. destruct c; cbn in Ha; try done.
  - subst. by apply unchanged.
  - subst. by apply unchanged.
  - subst. by apply unchanged.
  - destruct a; [destruct Ha as (n & _ & ->)|subst..]; by apply unchanged.
  - subst. by apply unchanged.
  - destruct Ha as (x & c' & Hx & -> & ->). by apply begin_call.
  - destruct Ha as (c' & Hx & ->). destruct Hc as (-> & Hm & Hi & g & sure & ->).
    pose proof (record_call d w id recovery g sure a c' Hw Hk Hm Hi Hx) as Hr. by destruct a.
  - destruct Ha as (c' & Hx & ->). destruct Hc as (g & sure & ->). by apply checkpoint_call.
  - destruct Ha as (c' & Hx & ->). eapply read_call; [|done..]. unfold active_resource. tx_steps.
  - unfold permit_answers in Ha. destruct (pq_deployment request) as [dp|]; [|destruct Ha as [_ ->]; by apply unchanged].
    destruct Ha as (x & c' & Hx & -> & _). eapply (other_call _ (OpUsePermit (permit_use request dp))); try done. intros ? ? ?. apply dropped.
  - subst. cbn in Hc. subst. by apply executor_call.
  - subst. cbn in Hc. subst. by apply executor_call.
Qed.
End records.
