(* ===== verification/PlanCrash.v ===== *)
(** * A crash loses no call of a driver

    The invariant of a run's stages: every task that runs knows only what is true, and whatever
    may have been called is accounted for. So wherever a run stands when the server stops, a
    restart finds the operations whose drivers may have been called, and puts their resources in
    doubt. *)

From Stdlib Require Import Ascii.
From stdpp Require Import base sets strings list relations.
From S2P Require Import Prelude Effects Strings OrdMap Ids Json Model Placeholder Graph Db DbLogic Identity Rbac Apps Permits Deployments Resources IdentityInv IdentityRoles DeployInv Access Operations DeployProofs Lifecycle History Phases ResourceSteps Restart Recovery Deletion PlanInputs PlanJob PlanTask PlanRun PlanLogic PlanOrder PlanFrame PlanKept PlanRecords.

Local Open Scope string_scope.
Local Open Scope list_scope.

(** ** The stages of a run *)

Section stages.
Context `{System} `{Libraries} `{InputsReader} (org : string) (digest : string → string).
Context (dep : Deployment) (limits : Limits) (deadline : Z).

Abbreviation app := (dep_app dep).
Abbreviation env := (dep_env dep).
Abbreviation db w := (c_db (w_conn w)).
Abbreviation key := (key_of dep).
Abbreviation knows := (knows dep).
Abbreviation world_ok := (world_ok dep).

(** Descriptors that can be printed and read. *)
Definition all_valid : Prop := ∀ d node, (d, node) ∈ g_nodes (dep_graph dep) → descriptor_valid d.

Lemma key_of_inj d d' : descriptor_valid d → descriptor_valid d' → key d = key d' → d = d'.
Proof.
  intros Hd Hd' [= E]. assert (Descriptor_parse (Descriptor_show d) = Ok d) as H1' by (by apply descriptor_roundtrip).
  assert (Descriptor_parse (Descriptor_show d) = Ok d') as H2' by (by apply descriptor_roundtrip). congruence.
Qed.

(** What every task knows stays true. *)
Definition everywhere (x x' : Db) : Prop :=
  ∀ d, (∀ kind l, knows kind d x l → knows kind d x' l) ∧ (clean_at x (key d) → clean_at x' (key d)).

Lemma same_res_everywhere x x' : res_ok x → same_res x x' → everywhere x x'.
Proof.
  intros Hok Hs d. split; [intros kind l; by apply same_res_knows|]. apply derives_clean. by apply same_res_derives.
Qed.

(** *** Tasks *)

Definition task_ok {A} (kind : OperationKind) (x : Db) (t : Descriptor * bool * prog A) : Prop :=
  ∃ l, knows kind t.1.1 x l ∧ keeps_records app env kind t.1.1 (λ _ _, True) l t.2.

Lemma tasks_everywhere {A} kind x x' (l : list (Descriptor * bool * prog A)) :
  everywhere x x' → Forall (task_ok kind x) l → Forall (task_ok kind x') l.
Proof. intros He Hl. eapply Forall_impl; [exact Hl|]. intros t (s & Hk & Hf). exists s. split; [by apply He|done]. Qed.

Lemma tasks_call {A} kind w w' (l : list (Descriptor * bool * prog A)) i d held c k a :
  world_ok w → Forall (task_ok kind (db w)) l → NoDup l.*1.*1 → (∀ d, d ∈ l.*1.*1 → descriptor_valid d) →
  l !! i = Some (d, held, Ask c k) → answers org w c a w' →
  world_ok w' ∧ Forall (task_ok kind (db w')) (<[i := (d, permit_after held c a, k a)]> l)
  ∧ elsewhere dep d (db w) (db w').
Proof.
  intros Hw Hl Hn Hv Hi Ha. destruct (Forall_lookup_1 _ _ _ _ Hl Hi) as (s & Hk & Hc & Hf). cbn in Hk, Hc, Hf.
  destruct (task_call org digest dep kind d w s c a w' Hw Hk Hc Ha) as (Hw' & Hk' & He). split_and!; [done| |done].
  apply Forall_lookup. intros j t Hj. destruct (decide (j = i)) as [->|Hne].
  - rewrite list_lookup_insert_eq in Hj by (by eapply lookup_lt_Some). injection Hj as <-. eexists. split; [exact Hk'|apply Hf].
  - rewrite list_lookup_insert_ne in Hj by done. destruct (Forall_lookup_1 _ _ _ _ Hl Hj) as (s' & Hs' & Hf').
    assert (l.*1.*1 !! i = Some d) as Hdi by (by rewrite !list_lookup_fmap, Hi).
    assert (l.*1.*1 !! j = Some t.1.1) as Hdj by (by rewrite !list_lookup_fmap, Hj).
    exists s'. split; [|done]. apply He; [|done]. intros E%key_of_inj; [|by apply Hv; eapply list_elem_of_lookup_2..].
    apply Hne. rewrite E in Hdj. by eapply NoDup_lookup.
Qed.

(** A task that stops leaves its call accounted for. *)
Lemma unanswered_ok {A} kind w d held (p : prog A) :
  world_ok w → task_ok kind (db w) (d, held, p) → world_ok (unanswered p w) ∧ db (unanswered p w) = db w.
Proof.
  intros Hw (l & Hk & Hf). destruct p as [|[] k]; try done; cbn in Hf; destruct Hf as [-> _]; (split; [|done]);
    (apply add_called_ok; [done|]); by eapply accountable_sure.
Qed.

Lemma drop_permit_ok held w : world_ok w → world_ok (drop_permit held w).
Proof. by destruct held. Qed.

Lemma drop_permit_db held w : db (drop_permit held w) = db w.
Proof. by destruct held. Qed.

Lemma start_nodes_records late s x :
  keyed dep → Forall (task_ok Put x) (lp_running s) →
  Forall (task_ok Put x) (lp_running (start_nodes dep limits deadline late s)).
Proof.
  intros Hk. unfold start_nodes. generalize (bt_values (g_nodes (dep_graph dep))). intros l. revert s.
  induction l as [|n l IH]; intros s Hs; [done|]. cbn [foldl]. apply IH. unfold start_node. repeat case_match; try done.
  cbn [lp_running]. apply Forall_app. split; [done|]. constructor; [|constructor].
  exists (Resting false). split; [done|]. by apply node_run_records.
Qed.

(** *** Deletions *)

(** What was not confirmed deleted when it was listed, and was not started since, still is not. *)
Definition clean_plan (x : Db) (plan : DeletePlan) (started : list Descriptor) : Prop :=
  ∀ d r, (d, r) ∈ dx_candidates plan → d ∉ started → rs_cleanup_pending r = false → clean_at x (key d).

Lemma start_deletions_records plan late s x :
  Forall (task_ok Delete x) (dl_running s) → clean_plan x plan (dl_started s) →
  let s' := start_deletions dep limits deadline plan late s in
  Forall (task_ok Delete x) (dl_running s') ∧ clean_plan x plan (dl_started s').
Proof.
  unfold start_deletions. assert (∀ c, c ∈ dx_candidates plan → c ∈ dx_candidates plan) as Hl by done. revert Hl.
  generalize (dx_candidates plan) at 1 3 4. intros l. revert s. induction l as [|[d r] l IH]; intros s Hl Hs Hc; [done|].
  cbn [foldl]. apply IH; [set_solver| |].
  - unfold start_deletion. destruct (bs_mem _ _ || _) eqn:E; [done|]. case_match; [done|]. cbn [dl_running].
    apply orb_false_elim in E as [E%bs_mem_false _]. apply Forall_app. split; [done|]. constructor; [|constructor].
    exists (Resting (negb (rs_cleanup_pending r))). split; [|apply delete_run_records].
    intros Hr. eapply Hc; [apply Hl; left|done|by apply negb_true_iff].
  - unfold start_deletion. destruct (bs_mem _ _ || _); [done|].
    case_match; intros e q Hq Hn; (apply (Hc e q Hq)); cbn [dl_started] in Hn; rewrite elem_of_bs_insert in Hn; tauto.
Qed.

(** What the main task lists. *)
Definition listing (x : Db) : list ResourceRow :=
  sort_by_key rs_descriptor (select (res_in_env app env) (db_active_resources x)).

Lemma listing_clean x teardown mandatory users :
  res_ok x →
  clean_plan x (mk_DeletePlan (deletion_candidates (dep_graph dep) teardown (listing x)).1 mandatory users) [].
Proof.
  intros Hok d r Hc _ Hr y Hy Hk. destruct (candidates_outside (dep_graph dep) teardown (listing x)) as [_ Ho].
  destruct (Ho d r Hc) as (Hin & [_ Hshow]%descriptor_roundtrip & _). unfold listing in Hin.
  rewrite sort_by_key_perm in Hin. apply elem_of_select in Hin as [Hin He%res_in_env_spec].
  assert (y = r) as ->; [|done]. apply (row_of_key res_key (db_active_resources x)); [apply Hok|done..|].
  rewrite Hk. unfold res_key, res_env, key_of in *. congruence.
Qed.

Fixpoint prep_ok (x : Db) (p : prog Prepared) : Prop :=
  match p with
  | Done (ToDelete plan) => clean_plan x plan []
  | Done (NothingToDelete _ _) => True
  | Ask c k =>
      match c as c return (answer c → prog Prepared) → Prop with
      | CActiveResources _ a e => λ k, a = app ∧ e = env
          ∧ (∀ y, res_ok y → prep_ok y (k (Ok (listing y)))) ∧ ∀ y e, prep_ok y (k (Err e))
      | CTombstones _ _ _ => λ k, ∀ r, prep_ok x (k r)
      | _ => λ _, False
      end k
  end.

Lemma prepare_deletion_records x o : prep_ok x (prepare_deletion dep o).
Proof.
  unfold prepare_deletion. cbn. split_and!; [done|done| |done]. intros y Hok.
  pose proof (listing_clean y (dep_teardown dep)) as Hc.
  destruct (deletion_candidates _ _ (listing y)) as [candidates mandatory]. destruct candidates as [|c candidates]; [done|].
  destruct (converged o); cbn [negb]; [|done]. intros [stones|e]; [|done]. by apply Hc.
Qed.

Lemma prep_everywhere x x' p : everywhere x x' → prep_ok x p → prep_ok x' p.
Proof.
  intros He. induction p as [[|plan]|c k IH]; [done| |].
  - intros Hc d r Hin Hn Hr. apply He. by eapply Hc.
  - destruct c; try done. intros Hk r. by apply IH.
Qed.

(** The report finishes once, and last. *)
Definition report_order (finished : bool) (c : Call) : Prop :=
  match c with CRecordStatus _ _ _ _ _ _ _ | CFinish _ _ _ _ _ => finished = false | _ => False end.
Definition report_next (finished : bool) (c : Call) : answer c → bool :=
  match c with CFinish _ _ _ _ _ => λ _, true | _ => λ _, finished end.
Abbreviation finishes := (follows report_order report_next (λ _ _, True) false).

Lemma report_finishes o listed lost : finishes (report dep o listed lost).
Proof.
  unfold report. eapply (follows_bind _ _ (λ f _, f = false)).
  - generalize o. intros l. induction l as [|c l IH]; [done|]. cbn [record_outcomes]. unfold record_outcome.
    by destruct (run_status _) as [[]|]; cbn.
  - by intros f [] ->.
Qed.

Definition stage_records (x : World * Stage) : Prop :=
  match x.2 with
  | Provisioning s => world_ok x.1 ∧ Forall (task_ok Put (db x.1)) (lp_running s)
  | Preparing _ p => world_ok x.1 ∧ prep_ok (db x.1) p
  | Deleting plan s =>
      world_ok x.1 ∧ Forall (task_ok Delete (db x.1)) (dl_running s) ∧ clean_plan (db x.1) plan (dl_started s)
  | Reporting _ (Done _) => True
  | Reporting _ p => world_ok x.1 ∧ finishes p
  end.

(** What others do. *)
Lemma others_records w w' :
  world_ok w → others_step org digest app env w w' → world_ok w' ∧ everywhere (db w) (db w').
Proof.
  intros Hw Ho. destruct Ho as [op Hp Hf|n _|n _]; [|by split..]. pose proof Hw as (Hid & Hok & Hc). cbn.
  unfold run. destruct (exec org digest op (w_conn w)) as [[u c']|e] eqn:E; [|by destruct w].
  destruct (exec_stays_ok org digest op _ _ _ Hp Hid Hok E) as [Hid' Hok']. destruct (w_conn w) as [x n] eqn:Ew. cbn [c_db] in *.
  assert (∀ id g, live app env x id g → kept x (c_db c') id g) as Hk by (intros; by eapply foreign_kept).
  split.
  - split_and!; [done..|]. cbn [set_conn w_conn w_called]. intros id g Hin. eapply kept_accountable; [exact Hok| |by apply Hc].
    by apply Hk, accountable_live, Hc.
  - intros d. assert (clean_at x (key d) → clean_at (c_db c') (key d)) as Hcl by (by eapply foreign_clean).
    split; [|done]. intros kind l. apply knows_kept; [done| |done]. intros id g r Hl _ _ _. by apply Hk.
Qed.

Lemma stage_everywhere w w' s :
  world_ok w' → everywhere (db w) (db w') → stage_records (w, s) → stage_records (w', s).
Proof.
  intros Hw He. destruct s as [s|o p|plan s|o p]; cbn.
  - intros [_ Hl]. split; [done|]. by eapply tasks_everywhere.
  - intros [_ Hp]. split; [done|]. by eapply prep_everywhere.
  - intros (_ & Hl & Hc). split_and!; [done|by eapply tasks_everywhere|].
    intros d r Hin Hn Hr. apply He. by eapply Hc.
  - destruct p; [done|]. by intros [_ Hp].
Qed.

(** Calls of the main task. *)
Lemma main_read {A} (m : tx A) w r c' :
  reads m → world_ok w → tx_answers m (w_conn w) r c' → world_ok (set_conn w c') ∧ c_db c' = db w.
Proof.
  intros Hm Hw Hx. destruct (read_call dep m Put (mk_Descriptor ε ε ε) w Adrift r c') as (Hw' & _ & _); try done.
  split; [done|]. destruct Hx as [Hx|(e & _ & ->)]; [|done].
  destruct (m (w_conn w)) as [[a c1]|e] eqn:E; destruct Hx as [_ ->]; [|done]. symmetry. by apply (Hm _ _ _ E).
Qed.

Lemma prep_call w w' c k a :
  world_ok w → prep_ok (db w) (Ask c k) → answers org w c a w' → world_ok w' ∧ prep_ok (db w') (k a).
Proof.
  intros Hw Hp Ha. destruct c; try done; cbn in Ha, Hp; destruct Ha as (c' & Hx & ->).
  - destruct Hp as (-> & -> & Hok & Herr).
    assert (reads (active_resources org org0 app env)) as Hr by (unfold active_resources; tx_steps).
    destruct (main_read _ _ _ _ Hr Hw Hx) as [Hw' E]. split; [done|]. cbn. destruct a as [active|e]; [|apply Herr].
    assert (active = listing (db w)) as ->; [|rewrite E; apply Hok, Hw].
    destruct Hx as [Hx|(e & ? & _)]; [|done]. destruct (active_resources org org0 app env (w_conn w)) as [[r c1]|] eqn:Eq;
      destruct Hx as [[= ->] ->]. unfold active_resources in Eq. by inv_tx Eq.
  - assert (∀ o a e, reads (tombstones org o a e)) as Hr by (intros; unfold tombstones; tx_steps).
    destruct (main_read _ w a c' (Hr _ _ _) Hw Hx) as [Hw' E].
    split; [done|]. cbn. rewrite E. apply Hp.
Qed.

Lemma report_call w w' o c k a :
  world_ok w → finishes (Ask c k) → answers org w c a w' → stage_records (w', Reporting o (k a)).
Proof.
  intros Hw [Hc Hk] Ha. specialize (Hk a). destruct c; try done; cbn in Ha, Hk.
  - destruct Ha as (c' & Hx & ->).
    assert (world_ok (set_conn w c')) as Hw'.
    { lazymatch type of Hx with tx_answers (record_resource_status _ ?o ?a ?e ?i ?ds ?st ?er) _ _ _ =>
        eapply (other_call org digest dep _ (OpRecordStatus o a e i ds st er) Put (mk_Descriptor ε ε ε) w Adrift) end;
        [done| |done|done|done|exact Hx]. by intros ? [] ?. }
    cbn. destruct (k a); [done|]. by split.
  - cbn. destruct (k a) as [|c k']; [done|]. destruct Hk as [Hk _]. by destruct c.
Qed.

(** *** Every step *)

Lemma node_valid d outcomes : keyed dep → all_valid → may_start dep outcomes d → descriptor_valid d.
Proof.
  intros Hk Hv (node & Hn & <- & _). apply list_elem_of_fmap_1 in Hn as ([d n] & -> & Hin). simpl.
  rewrite (Hk _ _ Hin). by eapply Hv.
Qed.

Lemma candidate_valid past plan d r : planned dep past plan → (d, r) ∈ dx_candidates plan → descriptor_valid d.
Proof.
  intros (active & stones & _ & _ & ->) Hc. destruct (candidates_outside (dep_graph dep) (dep_teardown dep) active) as [_ Ho].
  destruct (deletion_candidates _ _ _) as [candidates mandatory]. destruct (Ho _ _ Hc) as (_ & [? _]%descriptor_roundtrip & _).
  done.
Qed.

Lemma ended_records {A} kind w (l : list (Descriptor * bool * prog A)) i d held p :
  world_ok w → Forall (task_ok kind (db w)) l → l !! i = Some (d, held, p) →
  world_ok (drop_permit held (unanswered p w)) ∧ db (drop_permit held (unanswered p w)) = db w
  ∧ Forall (task_ok kind (db w)) (delete i l).
Proof.
  intros Hw Hl Hi. destruct (unanswered_ok kind w d held p Hw (Forall_lookup_1 _ _ _ _ Hl Hi)) as [Hw' E].
  split_and!; [by apply drop_permit_ok|by rewrite drop_permit_db|by apply Forall_delete].
Qed.

Lemma records_step x y :
  keyed dep → all_valid → stage_ok dep (λ _, True) x.2 → stage_records x → any_step org digest dep limits deadline x y → stage_records y.
Proof.
  intros Hk Hv Hok Hr Hst. revert Hok Hr. destruct Hst as [x y []|w w' s Ho]; cbn [fst snd stage_ok stage_records].
  - intros Hi (Hw & Hl). destruct (li_once _ _ Hi) as [Hn Hin].
    destruct (tasks_call Put w w' (lp_running s) i d held c k a) as (Hw' & Hl' & _); try done.
    intros e He. eapply node_valid; [done..|]. by eapply li_ready, Hin.
  - intros _ (Hw & Hl). destruct (ended_records Put w _ _ _ _ _ Hw Hl H2) as (Hw' & E & Hl'). cbn [unanswered] in *.
    split; [done|]. rewrite E. apply start_nodes_records; [done|]. by rewrite join_node_running.
  - intros _ (Hw & Hl). destruct (ended_records Put w _ _ _ _ _ Hw Hl H2) as (Hw' & E & Hl').
    split; [done|]. rewrite E. apply start_nodes_records; [done|]. by rewrite join_node_running.
  - intros _ (Hw & _). split; [done|]. apply prepare_deletion_records.
  - intros _ (Hw & Hp). by eapply prep_call.
  - intros _ (Hw & _). pose proof (report_finishes outcomes listed lost) as Hf. by destruct (report dep outcomes listed lost).
  - intros _ (Hw & Hp). split; [done|]. apply start_deletions_records; [constructor|done].
  - intros [Hp Hi] (Hw & Hl & Hc). destruct (dv_once _ _ _ Hi) as [Hn Hin].
    destruct (tasks_call Delete w w' (dl_running s) i d held c k a) as (Hw' & Hl' & He); try done.
    { intros e Hin'. destruct (dv_ready _ _ _ Hi e) as (r & Hr & _); [by apply Hin|]. by eapply candidate_valid. }
    split_and!; [done..|]. intros e r Hr Hns Hcl. apply He; [|by eapply Hc]. intros E%key_of_inj; [|by eapply candidate_valid|].
    + subst. apply Hns. by eapply run_once_running, (dv_once _ _ _ Hi).
    + destruct (dv_ready _ _ _ Hi d) as (q & Hq & _); [by eapply run_once_running, (dv_once _ _ _ Hi)|]. by eapply candidate_valid.
  - intros _ (Hw & Hl & Hc). destruct (ended_records Delete w _ _ _ _ _ Hw Hl H2) as (Hw' & E & Hl'). cbn [unanswered] in *.
    split; [done|]. rewrite E. by apply start_deletions_records.
  - intros _ (Hw & Hl & Hc). destruct (ended_records Delete w _ _ _ _ _ Hw Hl H2) as (Hw' & E & Hl').
    split; [done|]. rewrite E. by apply start_deletions_records.
  - intros _ (Hw & _). pose proof (report_finishes (settle_deletions plan late s) (Ok tt) lost) as Hf.
    by destruct (report dep (settle_deletions plan late s) (Ok tt) lost).
  - intros _ (Hw & Hp). exact (report_call w w' o c k a Hw Hp H2).
  - intros _ Hr. destruct s as [s|o p|plan s|o [u|c k]]; try done;
      (destruct (others_records w w') as [Hw' He]; [apply Hr|done|]); by eapply stage_everywhere.
Qed.

Lemma records_start w s :
  keyed dep → identity_ok (db w) → res_ok (db w) → w_called w = [] → run_start dep limits deadline s → stage_records (w, s).
Proof.
  intros Hk Hid Hok Hc Hs. assert (world_ok w) as Hw by (split_and!; [done..|]; rewrite Hc; by intros ?? ?%not_elem_of_nil).
  destruct Hs as [late|why missing Hm]; unfold stage_records; cbn [fst snd]; (split; [done|]).
  - apply start_nodes_records; [done|constructor].
  - apply prepare_deletion_records.
Qed.

(** ** The server stops *)

(** The call of the executor that a task waits for. *)
Definition call_of {A} (p : prog A) : list (string * string) :=
  match p with
  | Ask (CProvision j) _ => [(pj_operation_id j, pj_guresid j)]
  | Ask (CDeprovision j) _ => [(pj_operation_id (xj_job j), pj_guresid (xj_job j))]
  | _ => []
  end.

(** The operations whose driver may have been called, and whose outcome is not recorded. *)
Definition maybe_called (x : World * Stage) : list (string * string) :=
  w_called x.1 ++
  match x.2 with
  | Provisioning s => mjoin (call_of <$> (lp_running s).*2)
  | Deleting _ s => mjoin (call_of <$> (dl_running s).*2)
  | Preparing _ _ | Reporting _ _ => []
  end.

Lemma call_accountable {A} kind x (l : list (Descriptor * bool * prog A)) id g :
  Forall (task_ok kind x) l → (id, g) ∈ mjoin (call_of <$> l.*2) → accountable app env x id g.
Proof.
  intros Hl Hin. apply list_elem_of_join in Hin as (calls & Hin & (p & -> & Hp)%list_elem_of_fmap_1).
  apply list_elem_of_fmap_1 in Hp as ([[d held] q] & -> & Hq). rewrite Forall_forall in Hl.
  destruct (Hl _ Hq) as (s & Hk & Hf). simpl in Hin, Hk, Hf. destruct q as [|[] k]; try (by apply not_elem_of_nil in Hin);
    cbn in Hin, Hf; apply list_elem_of_singleton in Hin; injection Hin as -> ->; destruct Hf as [-> _]; by eapply accountable_sure.
Qed.

Lemma maybe_called_accountable w s id g :
  stage_records (w, s) → (∀ o, s ≠ Reporting o (Done tt)) → (id, g) ∈ maybe_called (w, s) →
  world_ok w ∧ accountable app env (db w) id g.
Proof.
  intros Hr Hn Hin. unfold maybe_called in Hin. cbn [fst snd] in Hin.
  assert (world_ok w) as Hw by (destruct s as [?| |?|o [[]|]]; try apply Hr; by destruct (Hn o)). split; [done|].
  apply elem_of_app in Hin as [Hin|Hin]; [by apply Hw|].
  destruct s as [s|o p|plan s|o p]; try (by apply not_elem_of_nil in Hin); (eapply call_accountable; [|exact Hin]); apply Hr.
Qed.

(** C3: a crash loses no call of a driver. Let a run start on a consistent store and be
    interleaved with anything else that happens in the server. Wherever it is when the server
    stops, short of having recorded its end: every operation whose driver was called, or was
    being called, and whose outcome the run did not record, is found by the restart, which
    leaves its resource in doubt, so that nothing more is done to it before the outcome is
    established. This holds for provisioning and for deletion, for tasks that ended, failed to
    record a result, were stopped or are at any of their attempts. *)
Theorem crash_loses_no_call (w0 w : World) (s0 s : Stage) (id g : string) (report : RecoveryReport) (c' : Conn) :
  keyed dep → all_valid → identity_ok (db w0) → res_ok (db w0) → w_called w0 = [] →
  run_start dep limits deadline s0 → rtc (any_step org digest dep limits deadline) (w0, s0) (w, s) →
  (∀ o, s ≠ Reporting o (Done tt)) →
  (id, g) ∈ maybe_called (w, s) → recover_interrupted org (w_conn w) = Ok (report, c') →
  phase (c_db c') g = InDoubt id.
Proof.
  intros Hk Hv Hid Hok Hc Hs Hr Hn Hin Hrec.
  assert (stage_ok dep (λ _, True) s ∧ stage_records (w, s)) as [_ Hrecs].
  { apply (rtc_invariant _ (λ x, stage_ok dep (λ _, True) x.2 ∧ stage_records x) _ _ Hr).
    - intros x y [Hx1 Hx2] Hst. split; [by eapply stage_step|by eapply records_step].
    - split; [by eapply stage_start|by apply records_start]. }
  destruct (maybe_called_accountable w s id g Hrecs Hn Hin) as [(_ & Hok' & _) (o & (Ho & Hoid & Hg & _) & Hp)].
  destruct (w_conn w) as [x n]. cbn [c_db] in *. apply recover_interrupted_Ok in Hrec as (_ & Hph & _); [|done].
  rewrite Hph. destruct Hp as [[-> Hf]| ->]; [|done]. rewrite (select_op x o id) by done. simpl. unfold interrupted.
  by rewrite Hf, Hoid.
Qed.
End stages.
