(* ===== verification/Recover.v ===== *)
(** * Recovering a resource in doubt ([crates/engine/src/planner/recover.rs])

    A resource whose last operation has an unknown outcome is observed with what the operation
    recorded before its driver ran, and what the observation establishes is recorded. *)

From Stdlib Require Import Ascii.
From stdpp Require Import base sets strings list.
From S2P Require Import Prelude Effects Strings OrdMap Ids Json Model Placeholder Catalog Db Identity Apps Deployments Resources PlanInputs.

Local Open Scope string_scope.
Local Open Scope list_scope.

(** ** Observations ([planner.rs]) *)

Inductive Observed :=
| ObAbsent (repeatable : bool)
| ObReady (result : ProvisionResult) (repeatable : bool)
| ObInProgress
| ObFailed (error : string) (repeatable : bool)
| ObUnknown (reason : string).

Record Observation := mk_Observation { ob_result : result Observed ExecFailure; ob_cookie : option Sealed }.

(** ** Calls *)

Inductive RCall :=
| RUnknown (org app env descriptor : string)
| REnv (org app env : string)
| RSnapshot (org app env deployment : string)
| RNow
| RSlot                                           (* a driver slot, waited for briefly *)
| RObserve (job : ProvisionJob) (deleting : bool) (* in a task of its own, which frees the slot *)
| RKeep (id : string) (observed_with : option Sealed) (cookie : Sealed)
| RResolve (id : string) (resolution : Resolution) (audit : AuditIntent).

(** An observation whose task stopped has no answer. *)
Definition ranswer (c : RCall) : Type :=
  match c with
  | RUnknown _ _ _ _ => result (option UnknownOperation) StoreError
  | REnv _ _ _ => result (option EnvRecord) StoreError
  | RSnapshot _ _ _ _ => result (option Value) StoreError
  | RNow => Z
  | RSlot => bool
  | RObserve _ _ => option Observation
  | RKeep _ _ _ | RResolve _ _ _ => result unit StoreError
  end.

Abbreviation rprog := (prog ranswer).
Abbreviation rask := (ask (answer := ranswer)).

(** ** How recovering ends *)

Inductive Recovered :=
| RcProvisioned
| RcDeleted
| RcRepeatable (reason : string)
| RcInProgress
| RcRecoveryRequired (reason : string).

#[export] Instance Recovered_eq_dec : EqDecision Recovered.
Proof. solve_decision. Defined.

Inductive RecoverError :=
| NothingToRecover (descriptor : string)
| ObservationFailed (error : string)
| StoreFailed (error : StoreError).

Definition repeatable_reason (reason : string) : Resolution * Recovered :=
  (Repeatable reason, RcRepeatable reason).

Definition required (reason : string) : Resolution * Recovered :=
  (NeedsRecovery reason, RcRecoveryRequired reason).

(** The record of an operation was copied from a backup. *)
Definition was_restored (op : UnknownOperation) : bool :=
  match json_get "restored" (un_recovery op) with Some (Bool b) => b | _ => false end.

Definition deleting (op : UnknownOperation) : bool :=
  match un_kind op with Delete => true | Put => false end.

Definition builtin_type (ty : string) : option ResourceType :=
  find (λ t, String.eqb (rt_id t) ty) builtin_types.

Section recover.
Context `{Libraries} `{InputsReader}.

(** ** The job that ran *)

Record RecordedCall := mk_RecordedCall {
  rcl_inputs : JobInputs; rcl_definition_id : string; rcl_driver_type : string;
  rcl_driver_account : option string
}.

Definition invalid (what : string) : string := "the operation's recorded " +:+ what +:+ " is invalid".
Definition invalid_id (what : string) : string := "the stored " +:+ what +:+ " ID is invalid".

(** [text(key).or(other)]. *)
Definition text_or (key : string) (v : Value) (other : option string) : option string :=
  match json_get key v ≫= as_str with Some s => Some s | None => other end.

Definition recorded_call (op : UnknownOperation) : result RecordedCall string :=
  let r := un_resource op in
  let recorded := un_recovery op in
  let? inputs :=
    match json_get "inputs" recorded with
    | None | Some Null => Err "the operation recorded no inputs"
    | Some v => map_err (λ _, invalid "inputs") (read_job_inputs v)
    end in
  let? definition := ok_or (text_or "definition_id" recorded (rs_definition_id r)) (invalid "definition") in
  let? definition := map_err (λ _, invalid "definition") (DefinitionId_new definition) in
  let? driver_type := ok_or (text_or "driver_type" recorded (rs_driver_type r)) (invalid "driver") in
  let? driver_account :=
    match json_get "driver_account" recorded ≫= as_str with
    | Some a => result_map Some (map_err (λ _, invalid "cloud account") (AccountId_new a))
    | None => Ok None
    end in
  Ok (mk_RecordedCall inputs definition driver_type driver_account).

(** Whether the resource existed before the operation. *)
Definition existed (op : UnknownOperation) : bool :=
  let r := un_resource op in
  was_restored op
  || match json_get "existing" (un_recovery op) with
     | Some (Bool b) => b
     | _ => is_some (rs_last_deploy_id r) || is_some (resource_cookie r) || is_some (rs_target r)
     end.

Definition OBSERVE_TIMEOUT : Z := secs (5 * 60).

Definition rebuilt_job (org app env env_type : string) (op : UnknownOperation) (call : RecordedCall)
    (descriptor : Descriptor) (schema : option ResourceType) (now : Z) : result ProvisionJob string :=
  let r := un_resource op in
  let? guresid := map_err (λ _, invalid_id "GUResID") (Guresid_new (rs_guresid r)) in
  let? org := map_err (λ _, invalid_id "organization") (OrgId_new org) in
  let? app := map_err (λ _, invalid_id "application") (AppId_new app) in
  let? env := map_err (λ _, invalid_id "environment") (EnvId_new env) in
  let? env_type := map_err (λ _, invalid_id "environment type") (EnvTypeId_new env_type) in
  let version :=
    match json_get "definition_version" (un_recovery op) with
    | Some (Num n) => match as_i64 n with Some z => Some z | None => rs_definition_version r end
    | _ => rs_definition_version r
    end in
  Ok (mk_ProvisionJob (un_operation_id op) (un_attempt op) descriptor guresid
    (mk_JobContext org app env env_type (un_deployment_id op) []) (rcl_definition_id call)
    (option_default 0%Z version) (rcl_driver_type call) (rcl_driver_account call) (rcl_inputs call)
    (un_input_fingerprint op) (resource_cookie r) (rs_target r) None (existed op) schema
    (now + OBSERVE_TIMEOUT)%Z).

(** The type that the operation's deployment recorded for the resource. *)
Definition recorded_type (org app env deployment : string) (d : Descriptor)
    : rprog (result (option ResourceType) string) :=
  let! snapshot := rask (RSnapshot org app env deployment) in
  Done match snapshot with
    | Err e => Err ("the operation's deployment could not be read: " +:+ store_error_show e)
    | Ok snapshot =>
        match snapshot ≫= λ s, json_get (d_ty d) (json_index s "types") with
        | Some ty =>
            result_map Some (map_err (λ e, "the deployment's recorded type `" +:+ d_ty d +:+ "` is unreadable: " +:+ e)
              (read_type ty))
        | None => Ok (builtin_type (d_ty d))
        end
    end.

Definition recover_job (org app env : string) (op : UnknownOperation) : rprog (result ProvisionJob string) :=
  match recorded_call op with
  | Err e => Done (Err e)
  | Ok call =>
      let! found := rask (REnv org app env) in
      match found with
      | Err e => Done (Err ("the environment could not be read: " +:+ store_error_show e))
      | Ok None => Done (Err ("environment `" +:+ app +:+ "/" +:+ env +:+ "` no longer exists"))
      | Ok (Some e) =>
          match Descriptor_parse (rs_descriptor (un_resource op)) with
          | Err _ => Done (Err (invalid_id "resource"))
          | Ok d =>
              let! schema := recorded_type org app env (un_deployment_id op) d in
              match schema with
              | Err e => Done (Err e)
              | Ok schema =>
                  let! now := rask RNow in
                  Done (rebuilt_job org app env (ec_env_type e) op call d schema now)
              end
          end
      end
  end.

(** ** What an observation establishes *)

(** What a creation or update that took effect records. *)
Definition recovered_record (op : UnknownOperation) (p : ProvisionResult) (account : option string) : Provisioned :=
  let recorded := un_recovery op in
  let definition :=
    match json_get "definition" recorded with
    | Some v => v
    | None => json_index (rs_snapshot (un_resource op)) "definition"
    end in
  mk_Provisioned (Obj (pr_outputs p)) (pr_secret_outputs p) (pr_cookie p) (pr_recovery p)
    (json_index recorded "inputs") (entries (json_index recorded "dependencies")).*1
    (Obj [("deployment_id", Str (un_deployment_id op)); ("definition_version", json_index recorded "definition_version");
          ("definition", definition)])
    account (pr_target p) (pr_backend p) (pr_external_ids p) (pr_pin p).

(** The resolution and what is returned with it; or, on the right, what is returned without one. *)
Definition conclude (op : UnknownOperation) (j : ProvisionJob) (observed : result Observed ExecFailure)
    : (Resolution * Recovered) + result Recovered RecoverError :=
  let restored := was_restored op in
  let updating := negb (deleting op) && pj_existing j && negb restored in
  match observed with
  | Ok ObInProgress => inr (Ok RcInProgress)
  | Ok (ObAbsent repeatable) =>
      inl (if deleting op then (Resources.Observed WasDeleted, RcDeleted)
        else if restored then required "the backup records the resource, but nothing exists for its identity: it was deleted after the backup was taken, or its state was not restored; check the cloud before resolving it"
        else if repeatable then repeatable_reason "nothing exists for the resource's identity, so the next deployment provisions it with the same identity"
        else required "nothing exists for the resource's identity yet, but its driver cannot guarantee that a creation still on its way is not duplicated")
  | Ok (ObReady p repeatable) =>
      inl (if restored then (Confirmed, RcProvisioned)
        else if deleting op then
          if repeatable then repeatable_reason "the resource still exists, so the next deployment that leaves it out deletes it again"
          else required "the resource still exists, but its driver cannot guarantee that repeating the deletion is safe"
        else if updating then
          if repeatable then repeatable_reason "the resource exists, but whether the update took effect is unknown, so the next deployment repeats it with the same identity"
          else required "the resource exists, but whether the update took effect is unknown and its driver cannot guarantee that repeating it is safe"
        else (Resources.Observed (WasProvisioned (recovered_record op p (pj_driver_account j))), RcProvisioned))
  | Ok (ObFailed error repeatable) =>
      inl (if repeatable then repeatable_reason ("the driver reports that the operation failed and can be repeated: " +:+ error)
        else required ("the driver reports that the operation failed, but cannot guarantee that repeating it is safe: " +:+ error))
  | Ok (ObUnknown reason) => inl (required reason)
  | Err (Permanent e) => inl (required ("the resource cannot be observed: " +:+ e))
  | Err (Retryable error _) | Err (Uncertain error _) => inr (Err (ObservationFailed error))
  end.

Definition stopped_observing : Observation :=
  mk_Observation (Err (uncertain "the executor stopped unexpectedly while observing the resource")) None.

(** Observes with the job, and keeps a newer cookie whatever the observation concludes. *)
Definition observe (op : UnknownOperation) (j : ProvisionJob)
    : rprog ((Resolution * Recovered) + result Recovered RecoverError) :=
  let! slot := rask RSlot in
  if negb slot then Done (inr (Err (ObservationFailed "every driver slot is busy; try the recovery again later")))
  else
    let! observed := rask (RObserve j (deleting op)) in
    let observed := option_default stopped_observing observed in
    let! kept :=
      match ob_cookie observed with
      | Some cookie => rask (RKeep (un_operation_id op) (pj_cookie j) cookie)
      | None => Done (Ok tt)
      end in
    match kept with
    | Err e => Done (inr (Err (StoreFailed e)))
    | Ok _ => Done (conclude op j (ob_result observed))
    end.

Definition recover (org app env descriptor : string) (audit : AuditIntent)
    : rprog (result Recovered RecoverError) :=
  let! found := rask (RUnknown org app env descriptor) in
  match found with
  | Err e => Done (Err (StoreFailed e))
  | Ok None => Done (Err (NothingToRecover descriptor))
  | Ok (Some op) =>
      let! job := recover_job org app env op in
      let! concluded := match job with Err reason => Done (inl (required reason)) | Ok j => observe op j end in
      match concluded with
      | inr r => Done r
      | inl (resolution, recovered) =>
          let! resolved := rask (RResolve (un_operation_id op) resolution audit) in
          Done (match resolved with Err e => Err (StoreFailed e) | Ok _ => Ok recovered end)
      end
  end.
End recover.
