(* ===== verification/RecoverProofs.v ===== *)
(** * What recovery promises

    Recovering a resource reads the store, asks the driver what it sees, and settles the
    operation in doubt with what was seen, while anything else goes on in the store. It settles
    nothing else, and nothing it did not see; and the job it observes with is the job that ran. *)

From Stdlib Require Import Ascii.
From stdpp Require Import base sets strings list.
From S2P Require Import Prelude Effects Strings OrdMap Ids Json Model Placeholder Catalog Graph Db DbLogic Identity Rbac Apps Permits Deployments Resources IdentityInv DeployInv Access Operations Phases ResourceSteps Recovery Deletion PlanInputs PlanJob PlanTask PlanRun Recover.

Local Open Scope string_scope.
Local Open Scope list_scope.

(** ** Executions *)

(** What recovery does to the world: it has a driver observe, keeps a cookie, or settles an
    operation. *)
Inductive Event :=
| Observing (job : ProvisionJob) (deleting : bool) (found : option Observation)
| Keeping (d d' : Db)
| Settling (id : string) (resolution : Resolution) (d d' : Db).

Definition settled_in (es : list Event) : list (string * Resolution * Db * Db) :=
  filter_map (λ e, match e with Settling id r d d' => Some (id, r, d, d') | _ => None end) es.
Definition observed_in (es : list Event) : list (ProvisionJob * bool * option Observation) :=
  filter_map (λ e, match e with Observing j b found => Some (j, b, found) | _ => None end) es.

Section recovers.
Context `{System} `{Libraries} `{InputsReader} (org : string) (digest : string → string).

Definition ranswers (c : Conn) (q : RCall) : ranswer q → Conn → Prop :=
  match q with
  | RUnknown o app env descriptor => λ r c', tx_answers (unknown_operation org o app env descriptor) c r c'
  | REnv o app e => λ r c', tx_answers (env org o app e) c r c'
  | RSnapshot o app env id => λ r c', tx_answers (deployment_snapshot org o app env id) c r c'
  | RNow | RSlot | RObserve _ _ => λ _ c', c' = c
  | RKeep id observed_with cookie => λ r c', tx_answers (keep_recovery_cookie id observed_with cookie) c r c'
  | RResolve id resolution audit => λ r c', tx_answers (resolve_operation id resolution audit) c r c'
  end.

Definition events (c c' : Conn) (q : RCall) : ranswer q → list Event :=
  match q with
  | RObserve j b => λ found, [Observing j b found]
  | RKeep _ _ _ => λ r, if is_ok r then [Keeping (c_db c) (c_db c')] else []
  | RResolve id resolution _ => λ r, if is_ok r then [Settling id resolution (c_db c) (c_db c')] else []
  | _ => λ _, []
  end.

(** Anything else that happens in the store. *)
Definition meanwhile (c c' : Conn) : Prop := ∃ ops, forallb plain_op ops = true ∧ c' = run_all org digest ops c.

Fixpoint recovers {A} (p : rprog A) (c : Conn) (es : list Event) (r : A) (c' : Conn) : Prop :=
  match p with
  | Done a => es = [] ∧ r = a ∧ meanwhile c c'
  | Ask q k => ∃ c1 a c2 es', meanwhile c c1 ∧ ranswers c1 q a c2 ∧ es = events c1 c2 q a ++ es' ∧ recovers (k a) c2 es' r c'
  end.

Lemma recovers_bind {A B} (p : rprog A) (f : A → rprog B) c es r c' :
  recovers (pbind p f) c es r c' →
  ∃ c1 es1 a es2, recovers p c es1 a c1 ∧ recovers (f a) c1 es2 r c' ∧ es = es1 ++ es2.
Proof.
  revert c es. induction p as [a|q k IH]; intros c es; simpl.
  - intros Hr. exists c, [], a, es. split_and!; [done..| |done|done]. by exists [].
  - intros (c1 & a & c2 & es' & Hm & Ha & -> & Hk).
    apply IH in Hk as (c3 & es1 & b & es2 & Hp1 & Hp2 & ->). exists c3, (events c1 c2 q a ++ es1), b, es2.
    split_and!; [|done|by rewrite app_assoc]. by exists c1, a, c2, es1.
Qed.

(** *** What the events are *)

Definition good_conn (c : Conn) : Prop := res_ok (c_db c) ∧ identity_ok (c_db c).

Definition event_ok (e : Event) : Prop :=
  match e with
  | Observing _ _ _ => True
  | Keeping d d' => ∀ g, phase d' g = phase d g
  | Settling id resolution d d' => ∃ g, moves g (InDoubt id) (resolved resolution id) d d'
  end.

Lemma meanwhile_good c c' : good_conn c → meanwhile c c' → good_conn c'.
Proof. intros [Hok Hid] (ops & Hp & ->). split; [by apply run_all_res_ok|by apply run_all_ok]. Qed.

Lemma run_good op c : plain_op op = true → good_conn c → good_conn (run org digest op c).
Proof. intros Hp [Hok Hid]. split; [by apply run_res_ok|by apply run_ok]. Qed.

Lemma read_good {A} (m : tx A) c r c' : reads m → good_conn c → tx_answers m c r c' → good_conn c'.
Proof.
  intros Hm [Hok Hid] [Hx|(e & _ & ->)]; [|done]. destruct (m c) as [[a c1]|e] eqn:E; destruct Hx as [_ ->]; [|done].
  unfold good_conn. by rewrite <- (Hm _ _ _ E).
Qed.

Lemma unknown_operation_reads o app e d : reads (unknown_operation org o app e d).
Proof. unfold unknown_operation, active_resource. tx_steps; done. Qed.
Lemma env_reads o app e : reads (env org o app e).
Proof. unfold env. tx_steps; done. Qed.
Lemma deployment_snapshot_reads o app e d : reads (deployment_snapshot org o app e d).
Proof. unfold deployment_snapshot. tx_steps; done. Qed.

Lemma answer_good c q a c' :
  good_conn c → ranswers c q a c' → good_conn c' ∧ Forall event_ok (events c c' q a).
Proof.
  intros Hg. destruct q as [?|?|?| | |?|id w cookie|id res audit]; simpl; intros Ha.
  - split; [|done]. eapply read_good; [apply unknown_operation_reads|done..].
  - split; [|done]. eapply read_good; [apply env_reads|done..].
  - split; [|done]. eapply read_good; [apply deployment_snapshot_reads|done..].
  - by rewrite Ha.
  - by rewrite Ha.
  - rewrite Ha. split; [done|]. by repeat constructor.
  - destruct Ha as [Hx|(e & -> & ->)]; [|done].
    pose proof (run_good (OpKeepCookie id w cookie) c eq_refl Hg) as Hr. unfold run in Hr. simpl in Hr.
    destruct (keep_recovery_cookie id w cookie c) as [[u c1]|e] eqn:E; destruct Hx as [-> ->]; [|done].
    split; [done|]. constructor; [|done]. destruct Hg as [Hok Hid], c as [d n].
    apply keep_recovery_cookie_good in E as [_ Hs]; [|done]. intros g. specialize (Hs g).
    by inversion Hs.
  - destruct Ha as [Hx|(e & -> & ->)]; [|done].
    pose proof (run_good (OpResolve id res audit) c eq_refl Hg) as Hr. unfold run in Hr. simpl in Hr.
    destruct (resolve_operation id res audit c) as [[u c1]|e] eqn:E; destruct Hx as [-> ->]; [|done].
    split; [done|]. constructor; [|done]. destruct Hg as [Hok Hid], c as [d n].
    apply resolve_operation_moves in E as (o & _ & _ & _ & Hm); [|done..]. by eexists.
Qed.

Lemma recovers_good {A} (p : rprog A) c es r c' :
  good_conn c → recovers p c es r c' → Forall event_ok es.
Proof.
  revert c es. induction p as [a|q k IH]; intros c es Hg; simpl; [by intros (-> & _)|].
  intros (c1 & a & c2 & es' & Hm & Ha & -> & Hk). apply (answer_good c1 q a c2) in Ha as [Hg2 He].
  - apply Forall_app. split; [done|]. by eapply IH.
  - by eapply meanwhile_good.
Qed.

(** ** What is settled was seen *)

(** The driver guarantees that repeating the operation is safe. *)
Definition guaranteed (seen : Observed) : bool :=
  match seen with
  | ObAbsent repeatable | ObReady _ repeatable | ObFailed _ repeatable => repeatable
  | ObInProgress | ObUnknown _ => false
  end.

(** What the observation establishes about the operation. *)
Definition established (op : UnknownOperation) (seen : Observed) (out : Recovered) : Prop :=
  match out with
  | RcProvisioned =>
      (∃ p b, seen = ObReady p b) ∧ (was_restored op = true ∨ un_kind op = Put ∧ existed op = false)
  | RcDeleted => un_kind op = Delete ∧ ∃ b, seen = ObAbsent b
  | RcRepeatable _ => guaranteed seen = true
  | RcInProgress => seen = ObInProgress
  | RcRecoveryRequired _ => True
  end.

Definition recovered_phase (out : Recovered) (id : string) : Phase :=
  match out with
  | RcProvisioned | RcRepeatable _ => Idle
  | RcDeleted => Gone
  | RcInProgress | RcRecoveryRequired _ => InDoubt id
  end.

Definition is_required (out : Recovered) : Prop := ∃ reason, out = RcRecoveryRequired reason.

Lemma conclude_spec op j observed :
  pj_existing j = existed op →
  match conclude op j observed with
  | inl (res, out) =>
      (∀ id, resolved res id = recovered_phase out id) ∧ out ≠ RcInProgress
      ∧ (is_required out ∨ ∃ seen, observed = Ok seen ∧ established op seen out)
  | inr (Ok out) => out = RcInProgress ∧ observed = Ok ObInProgress
  | inr (Err _) => True
  end.
Proof.
  intros He. unfold conclude, deleting. rewrite He.
  destruct observed as [[b|p b| |e b|reason]|[]], (un_kind op) eqn:Ek, (was_restored op) eqn:Er;
    try destruct (existed op) eqn:Ee; try destruct b; simpl; try done;
    (split; [done|]; split; [done|]);
    first [left; by eexists | right; eexists; split; [done|]; simpl; eauto 10].
Qed.

Lemma recover_job_quiet o app e op c es r c' :
  recovers (recover_job o app e op) c es r c' →
  es = [] ∧ ∀ j, r = Ok j → pj_existing j = existed op ∧ pj_operation_id j = un_operation_id op.
Proof.
  unfold recover_job, recorded_type. intros Hr.
  destruct (recorded_call op) as [call|]; [|by destruct Hr as (-> & -> & _)].
  destruct Hr as (c1 & found & c2 & es1 & _ & _ & -> & Hr). simpl in Hr.
  destruct found as [[found|]|]; [|by destruct Hr as (-> & -> & _)..].
  destruct (Descriptor_parse _) as [d|]; [|by destruct Hr as (-> & -> & _)].
  destruct Hr as (c3 & snapshot & c4 & es2 & _ & _ & -> & Hr). simpl in Hr.
  match type of Hr with recovers (match ?x with _ => _ end) _ _ _ _ => destruct x as [schema|] end;
    [|by destruct Hr as (-> & -> & _)].
  destruct Hr as (c5 & now & c6 & es3 & _ & _ & -> & -> & -> & _). split; [done|].
  intros j. unfold rebuilt_job. repeat (destruct (map_err _ _); [|done]). by intros [= <-].
Qed.

(** What observing the operation with the job can do. *)
Lemma observe_spec op j c es x c' :
  pj_existing j = existed op → pj_operation_id j = un_operation_id op → recovers (observe op j) c es x c' →
  settled_in es = []
  ∧ match x with
    | inl (res, out) =>
        (∀ id, resolved res id = recovered_phase out id) ∧ out ≠ RcInProgress
        ∧ (is_required out ∨ ∃ found seen, observed_in es = [(j, deleting op, Some found)] ∧ ob_result found = Ok seen
             ∧ established op seen out)
    | inr (Ok out) =>
        out = RcInProgress ∧ ∃ found, observed_in es = [(j, deleting op, Some found)] ∧ ob_result found = Ok ObInProgress
    | inr (Err _) => True
    end.
Proof.
  intros He _. unfold observe. intros (c1 & slot & c2 & es1 & _ & _ & -> & Hr). simpl in Hr.
  destruct slot; simpl in Hr; [|by destruct Hr as (-> & -> & _)].
  destruct Hr as (c3 & found & c4 & es2 & _ & _ & -> & Hr).
  apply recovers_bind in Hr as (c5 & es3 & kept & es4 & Hk & Hr & ->).
  assert (settled_in es3 = [] ∧ observed_in es3 = []) as [Hs Ho].
  { destruct (ob_cookie _); [|by destruct Hk as (-> & _)]. destruct Hk as (? & kept' & ? & ? & _ & _ & -> & -> & _).
    simpl. by destruct kept'. }
  cbn [events app]. rewrite app_nil_l.
  assert (settled_in (Observing j (deleting op) found :: es3 ++ es4) = settled_in es4) as ->.
  { unfold settled_in in *. simpl. by rewrite filter_map_app, Hs. }
  assert (observed_in (Observing j (deleting op) found :: es3 ++ es4) = (j, deleting op, found) :: observed_in es4) as ->.
  { unfold observed_in in *. simpl. by rewrite filter_map_app, Ho. }
  destruct kept as [|e]; destruct Hr as (-> & -> & _); [|done]. split; [done|].
  pose proof (conclude_spec op j (ob_result (option_default stopped_observing found)) He) as Hc.
  destruct found as [found|]; simpl in Hc |- *; [|done].
  destruct (conclude op j (ob_result found)) as [[res out]|[out|]]; [|naive_solver|done].
  destruct Hc as (Hp & Hne & [Hq|(seen & Hseen & Hest)]); split_and!; [done..|by left|done|done|].
  right. by exists found, seen.
Qed.

(** C10: recovery settles what it saw, and nothing else. Recover a resource while anything else
    happens in the store. When it succeeds, it settled one operation, the one it read from the
    store, of a resource that was in doubt because of it, and moved no other resource: to rest
    when it reports a resource provisioned or an operation to be repeated, away when it reports
    a deletion, and not out of doubt when it asks for an operator. It reports a creation only
    when the driver, asked with the job of that operation, saw the resource and the resource did
    not exist before (or a backup is confirmed), a deletion only when the operation was one and
    the driver saw nothing, a safe repetition only when the driver guarantees it. When it fails
    or finds the operation running, it settles nothing. *)
Theorem recovery_settles_what_it_saw (o ap e descriptor : string) (audit : AuditIntent)
    (c c' : Conn) (es : list Event) (r : result Recovered RecoverError) :
  res_ok (c_db c) → identity_ok (c_db c) →
  recovers (recover o ap e descriptor audit) c es r c' →
  (∀ d d' g, Keeping d d' ∈ es → phase d' g = phase d g)
  ∧ match r with
    | Err _ => settled_in es = []
    | Ok out =>
        ∃ op c0, (∃ c1, meanwhile c c0 ∧ unknown_operation org o ap e descriptor c0 = Ok (Some op, c1))
        ∧ (is_required out ∨ ∃ j found seen, observed_in es = [(j, deleting op, Some found)]
             ∧ pj_operation_id j = un_operation_id op ∧ ob_result found = Ok seen ∧ established op seen out)
        ∧ if decide (out = RcInProgress) then settled_in es = []
          else ∃ g res d d', settled_in es = [(un_operation_id op, res, d, d')]
            ∧ moves g (InDoubt (un_operation_id op)) (recovered_phase out (un_operation_id op)) d d'
    end.
Proof.
  intros Hok Hid Hr. assert (Forall event_ok es) as Hev by (by eapply recovers_good).
  split. { intros d d' g Hk. by apply (proj1 (Forall_forall _ _) Hev _ Hk). }
  destruct Hr as (c0 & found & c1 & es1 & Hm & Ha & -> & Hr). cbn [events app pbind] in *. rewrite ?app_nil_l in *.
  destruct found as [[op|]|er]; [|by destruct Hr as (-> & -> & _)..].
  apply recovers_bind in Hr as (c2 & es2 & job & es3 & Hj & Hr & ->). apply recover_job_quiet in Hj as [-> Hj].
  rewrite ?app_nil_l in *. apply recovers_bind in Hr as (c3 & es4 & concluded & es5 & Hc & Hr & ->).
  assert (settled_in es4 = [] ∧ match concluded with
    | inl (res, out) => (∀ id, resolved res id = recovered_phase out id) ∧ out ≠ RcInProgress
        ∧ (is_required out ∨ ∃ j found seen, observed_in es4 = [(j, deleting op, Some found)]
             ∧ pj_operation_id j = un_operation_id op ∧ ob_result found = Ok seen ∧ established op seen out)
    | inr (Ok out) => out = RcInProgress ∧ ∃ j found, observed_in es4 = [(j, deleting op, Some found)]
        ∧ pj_operation_id j = un_operation_id op ∧ ob_result found = Ok ObInProgress
    | inr (Err _) => True end) as [Hs Hx].
  { destruct job as [j|reason].
    - destruct (Hj j eq_refl) as [He Hi]. apply observe_spec in Hc as [Hs Hx]; [|done..]. split; [done|].
      destruct concluded as [[res out]|[out|]]; naive_solver.
    - destruct Hc as (-> & -> & _). split; [done|]. simpl. split_and!; [done..|]. left. by eexists. }
  assert (∃ c1', meanwhile c c0 ∧ unknown_operation org o ap e descriptor c0 = Ok (Some op, c1')) as Hread.
  { exists c1. split; [done|]. destruct Ha as [Ha|(? & ? & _)]; [|done].
    destruct (unknown_operation _ _ _ _ _ c0) as [[x c1']|]; destruct Ha as [[= <-] ->]; done. }
  assert (∀ l, observed_in es4 = l → observed_in (es4 ++ es5) = l ++ observed_in es5) as Hobs.
  { intros l <-. unfold observed_in. by rewrite filter_map_app. }
  assert (settled_in (es4 ++ es5) = settled_in es5) as ->.
  { unfold settled_in in *. by rewrite filter_map_app, Hs. }
  destruct concluded as [[res out]|r'].
  - destruct Hr as (c4 & a & c5 & es6 & _ & _ & -> & -> & -> & _). destruct a as [[]|er]; [|done].
    destruct Hx as (Hp & Hne & Hx). exists op, c0. split; [done|]. split.
    + destruct Hx as [Hx|(j & found & seen & Ho & Hx)]; [by left|]. right. exists j, found, seen.
      rewrite (Hobs _ Ho). done.
    + rewrite decide_False by done. apply Forall_app in Hev as [_ Hev]. apply Forall_inv in Hev as (g & Hg).
      exists g, res, (c_db c4), (c_db c5). split; [done|]. by rewrite <- Hp.
  - destruct Hr as (-> & -> & _). destruct r' as [out|]; [|done]. destruct Hx as (-> & j & found & Ho & Hi & Hin).
    exists op, c0. split; [done|]. split; [|done]. right. exists j, found, ObInProgress. by rewrite (Hobs _ Ho).
Qed.
End recovers.

(** ** The job that ran *)

(** The two jobs make the same call of the same driver about the same resource. *)
Definition same_call (j' j : ProvisionJob) : Prop :=
  pj_operation_id j' = pj_operation_id j ∧ pj_attempt j' = pj_attempt j ∧ pj_descriptor j' = pj_descriptor j
  ∧ pj_guresid j' = pj_guresid j ∧ pj_definition_id j' = pj_definition_id j
  ∧ pj_definition_version j' = pj_definition_version j ∧ pj_driver_type j' = pj_driver_type j
  ∧ pj_driver_account j' = pj_driver_account j ∧ pj_inputs j' = pj_inputs j
  ∧ pj_input_fingerprint j' = pj_input_fingerprint j ∧ pj_existing j' = pj_existing j
  ∧ jc_org (pj_context j') = jc_org (pj_context j) ∧ jc_app (pj_context j') = jc_app (pj_context j)
  ∧ jc_env (pj_context j') = jc_env (pj_context j) ∧ jc_env_type (pj_context j') = jc_env_type (pj_context j)
  ∧ jc_deployment_id (pj_context j') = jc_deployment_id (pj_context j).

(** The job with the state of the resource's last successful operation. *)
Definition with_state (j : ProvisionJob) (cookie : option Sealed) (target : option string) (existing : bool) : ProvisionJob :=
  mk_ProvisionJob (pj_operation_id j) (pj_attempt j) (pj_descriptor j) (pj_guresid j) (pj_context j)
    (pj_definition_id j) (pj_definition_version j) (pj_driver_type j) (pj_driver_account j) (pj_inputs j)
    (pj_input_fingerprint j) cookie target (pj_pin j) existing (pj_output_schema j) (pj_deadline j).

Lemma opt_num_i64 (v : Z) : (v <= i64_max)%Z → ∃ n, opt_num (Some v) = Num n ∧ as_i64 n = Some v.
Proof.
  intros Hv. unfold opt_num. destruct (Z.ltb_spec v 0); eexists; (split; [done|]); simpl; [done|].
  rewrite Z2N.id by done. by apply Z.leb_le in Hv as ->.
Qed.

Section rebuild.
Context `{Libraries} `{InputsReader} (dep : Deployment) (deadline : Z) (scope : MapScope) (node : Node).
Context (version : Z) (def : ResourceDefinition) (fp : string) (started : OperationStarted) (deps : Finished).

(** The IDs are valid, as their types in the source say. *)
Definition ids_valid : Prop :=
  OrgId_new (dep_org dep) = Ok (dep_org dep) ∧ AppId_new (dep_app dep) = Ok (dep_app dep)
  ∧ EnvId_new (dep_env dep) = Ok (dep_env dep) ∧ EnvTypeId_new (dep_env_type dep) = Ok (dep_env_type dep)
  ∧ DefinitionId_new (rd_id def) = Ok (rd_id def) ∧ Guresid_new (ost_guresid started) = Ok (ost_guresid started)
  ∧ Descriptor_parse (Descriptor_show (n_descriptor node)) = Ok (n_descriptor node) ∧ (version <= i64_max)%Z.

(** The store has the operation that the task recorded before it called the driver. *)
Definition records (op : UnknownOperation) (j : ProvisionJob) : Prop :=
  un_recovery op = inputs_recovery version def deps j ∧ un_operation_id op = ost_operation_id started
  ∧ un_attempt op = ost_attempt started ∧ un_input_fingerprint op = fp ∧ un_deployment_id op = dep_id dep
  ∧ rs_guresid (un_resource op) = ost_guresid started
  ∧ rs_descriptor (un_resource op) = Descriptor_show (n_descriptor node).

Lemma driver_account_valid a :
  driver_account def scope = Ok (Some a) → AccountId_new a = Ok a.
Proof.
  unfold driver_account, AccountId_new, object_id_new. destruct (rd_driver_account def); [|done].
  destruct (map_err _ _) as [r|]; [|done]. destruct (ok_or _ _) as [text|]; [|done].
  destruct (validate_object_id _ text) eqn:E; simpl; [|done]. intros [= <-]. by rewrite E.
Qed.

(** What a job takes from its operation, its definition and its deployment. *)
Lemma job_fields j :
  job dep deadline scope node version def fp started = Ok j →
  pj_operation_id j = ost_operation_id started ∧ pj_attempt j = ost_attempt started ∧ pj_descriptor j = n_descriptor node
  ∧ pj_guresid j = ost_guresid started ∧ pj_context j = context_of_deployment dep ∧ pj_definition_id j = rd_id def
  ∧ pj_definition_version j = version ∧ pj_driver_type j = rd_driver_type def ∧ pj_input_fingerprint j = fp
  ∧ driver_account def scope = Ok (pj_driver_account j).
Proof.
  unfold job. intros Hj. destruct (driver_inputs def scope scope) as [[[values secrets] refs]|]; [|done].
  destruct (driver_account def scope) as [account|]; [|done]. destruct (job_params node scope) as [params literal].
  destruct (map_err _ (resolve_value _ _ _ _ _ _)) as [resource|]; [|done]. by injection Hj as <-.
Qed.

Lemma rebuilt_job_same j cookie target existing op schema now :
  job dep deadline scope node version def fp started = Ok j →
  ids_valid → records op (with_state j cookie target existing) →
  ∃ j', rebuilt_job (dep_org dep) (dep_app dep) (dep_env dep) (dep_env_type dep) op
      (mk_RecordedCall (pj_inputs j) (rd_id def) (rd_driver_type def) (pj_driver_account j)) (n_descriptor node) schema now = Ok j'
    ∧ same_call j' (with_state j cookie target existing).
Proof.
  intros Hj (Ho & Ha & He & Het & _ & Hg & _ & Hv) (Hrec & Hid & Hat & Hfp & Hdep & Hgu & _).
  apply job_fields in Hj as (Jid & Jat & Jd & Jg & Jc & Jdef & Jv & Jdr & Jfp & _).
  destruct (opt_num_i64 version Hv) as (n & Hn & Hi).
  unfold rebuilt_job. rewrite Hgu, Hg, Ho, Ha, He, Het. eexists. split; [reflexivity|].
  unfold same_call, existed, was_restored. rewrite Hrec. unfold inputs_recovery. rewrite Hn.
  cbn -[job_inputs_to_value definition_to_value dependencies_to_value as_i64 opt_str]. rewrite Hi, Jc.
  split_and!; cbn; congruence.
Qed.

(** C30: recovery observes with the call that was made. When a task has recorded the inputs of
    a call of a driver and the server then stopped, the job that recovery rebuilds from the
    record is about the same operation, resource, definition, driver, cloud account and inputs
    as the job of the call, and knows as it did whether the resource existed before. *)
Theorem recovery_rebuilds_job (j : ProvisionJob) (cookie : option Sealed) (target : option string)
    (existing : bool) (op : UnknownOperation) (reply : ∀ q, ranswer q) (e : EnvRecord) (s : option Value) :
  job dep deadline scope node version def fp started = Ok j →
  ids_valid → records op (with_state j cookie target existing) →
  read_job_inputs (job_inputs_to_value (pj_inputs j)) = Ok (pj_inputs j) →
  reply (REnv (dep_org dep) (dep_app dep) (dep_env dep)) = Ok (Some e) → ec_env_type e = dep_env_type dep →
  reply (RSnapshot (dep_org dep) (dep_app dep) (dep_env dep) (dep_id dep)) = Ok s →
  (∀ ty, s ≫= (λ s, json_get (d_ty (n_descriptor node)) (json_index s "types")) = Some ty → is_ok (read_type ty) = true) →
  ∃ j', answered reply (recover_job (dep_org dep) (dep_app dep) (dep_env dep) op) = Ok j'
    ∧ same_call j' (with_state j cookie target existing).
Proof.
  intros Hj (Ho & Ha & He & Het & Hdef & Hg & Hd & Hv) (Hrec & Hid & Hat & Hfp & Hdep & Hgu & Hds) Hread Henv Hty Hsnap Htype.
  pose proof (job_fields j Hj) as (_ & _ & _ & _ & _ & _ & _ & _ & _ & Jacc).
  assert (recorded_call op = Ok (mk_RecordedCall (pj_inputs j) (rd_id def) (rd_driver_type def) (pj_driver_account j))) as Hcall.
  { unfold recorded_call, text_or. rewrite Hrec. unfold inputs_recovery. cbn -[job_inputs_to_value DefinitionId_new AccountId_new].
    change (job_inputs_to_value (pj_inputs (with_state j cookie target existing))) with (job_inputs_to_value (pj_inputs j)).
    rewrite Hread. cbn -[DefinitionId_new AccountId_new]. rewrite Hdef. cbn -[AccountId_new].
    destruct (pj_driver_account j) as [acc|]; cbn -[AccountId_new]; [|done]. by rewrite (driver_account_valid acc Jacc). }
  unfold recover_job. rewrite Hcall. rewrite answered_bind. cbn [answered ask]. rewrite Henv, Hds, Hd, answered_bind, Hdep.
  unfold recorded_type. rewrite answered_bind. cbn [answered ask]. rewrite Hsnap.
  assert (∃ schema, match s ≫= λ s, json_get (d_ty (n_descriptor node)) (json_index s "types") with
    | Some ty => result_map Some (map_err (λ e, "the deployment's recorded type `" +:+ d_ty (n_descriptor node)
        +:+ "` is unreadable: " +:+ e) (read_type ty))
    | None => Ok (builtin_type (d_ty (n_descriptor node))) end = Ok schema) as [schema ->].
  { destruct (s ≫= _) as [ty|] eqn:E; [|by eexists]. specialize (Htype ty eq_refl). destruct (read_type ty); [by eexists|done]. }
  rewrite answered_bind. cbn [answered ask]. rewrite Hty. apply rebuilt_job_same; done.
Qed.
End rebuild.
