(* ===== verification/PlanChecks.v ===== *)
(** * Before a deployment runs ([crates/engine/src/planner.rs])

    Artifacts and images are pinned before a deployment is accepted; and before anything runs,
    what the deployment deploys, replays and deletes is checked to be available. *)

From Stdlib Require Import Ascii.
From stdpp Require Import base sets strings list.
From S2P Require Import Prelude Effects Strings OrdMap Ids Json Canonical Model Placeholder Catalog Sets Graph Artifacts Db Identity Permits Deployments Resources Deletion PlanInputs PlanJob PlanTask PlanRun.

Local Open Scope string_scope.
Local Open Scope list_scope.

(** ** Calls *)

Record ArtifactCheck := mk_ArtifactCheck {
  ac_context : JobContext; ac_descriptor : Descriptor; ac_definition_id : string; ac_account : string;
  ac_artifacts : list string
}.
Record ArtifactPin := mk_ArtifactPin {
  apn_context : JobContext; apn_descriptor : Descriptor; apn_definition_id : string; apn_account : string;
  apn_artifact : string
}.
Record ImagePin := mk_ImagePin {
  ipn_context : JobContext; ipn_descriptor : Descriptor; ipn_definition_id : string; ipn_account : string;
  ipn_image : string
}.

Inductive PinError := Refused (why : string) | Unavailable (why : string).

(** What the executor is asked has no answer when the deadline passes first. *)
Inductive KCall :=
| KNow
| KJitter (delay : Z)
| KSleep (delay : Z)
| KCheckImages (d : Descriptor) (images : list string)
| KCheckArtifacts (check : ArtifactCheck)
| KCheckPin (job : ProvisionJob)
| KCheckRetained (job : DeprovisionJob)
| KPinArtifact (pin : ArtifactPin)
| KPinRegistryImage (d : Descriptor) (image : string)
| KPinImage (pin : ImagePin)
| KActiveResource (org app env descriptor : string)
| KActiveResources (org app env : string)
| KTombstones (org app env : string).

Definition kanswer (c : KCall) : Type :=
  match c with
  | KNow | KJitter _ => Z
  | KSleep _ => unit
  | KCheckImages _ _ | KCheckArtifacts _ | KCheckPin _ | KCheckRetained _ => option (result unit ExecFailure)
  | KPinArtifact _ | KPinRegistryImage _ _ | KPinImage _ => option (result string ExecFailure)
  | KActiveResource _ _ _ _ => result (option ResourceRow) StoreError
  | KActiveResources _ _ _ => result (list ResourceRow) StoreError
  | KTombstones _ _ _ => result (list TombstoneRow) StoreError
  end.

Abbreviation kprog := (Effects.prog kanswer).
Abbreviation kask := (Effects.ask (answer := kanswer)).

Fixpoint pfold {A S} (f : S → A → kprog S) (s : S) (l : list A) : kprog S :=
  match l with
  | [] => Done s
  | x :: l => let! s := f s x in pfold f s l
  end.

(** A fold that an error ends. *)
Fixpoint pfold_ok {A S X} (f : S → A → kprog (result S X)) (s : S) (l : list A) : kprog (result S X) :=
  match l with
  | [] => Done (Ok s)
  | x :: l => let! r := f s x in match r with Ok s => pfold_ok f s l | Err e => Done (Err e) end
  end.

Abbreviation Missing := (list (Descriptor * string)).

Section checks.
Context `{Libraries} `{InputsReader} (dep : Deployment) (limits : Limits) (deadline : Z).

(** ** Retries *)

(** Runs [call], with [more] further attempts; [late] and [over] make the errors. *)
Fixpoint retrying {T E} (refuse : string → E) (over : string → E) (late : E) (call : kprog (option (result T ExecFailure)))
    (more attempt : nat) : kprog (result T E) :=
  let! answer := call in
  match answer with
  | Some (Ok v) => Done (Ok v)
  | Some (Err (Permanent e)) | Some (Err (Uncertain e _)) => Done (Err (refuse e))
  | None => Done (Err late)
  | Some (Err (Retryable error retry_after)) =>
      let! delay := match retry_after with Some d => Done d | None => kask (KJitter (backoff_delay limits attempt)) end in
      match more with
      | O => Done (Err (over (after_attempts error attempt)))
      | S more =>
          let! now := kask KNow in
          if (deadline <=? now + delay)%Z then Done (Err (over (after_attempts error attempt)))
          else let! _ := kask (KSleep delay) in retrying refuse over late call more (S attempt)
      end
  end.

Definition check_with_retries (what : string) (call : kprog (option (result unit ExecFailure))) : kprog (result unit string) :=
  retrying id id ("the deployment ran out of time checking " +:+ what) call (lm_attempts limits - 1) 1.

Definition with_retries (what : string) (d : Descriptor) (call : kprog (option (result string ExecFailure)))
    : kprog (result string PinError) :=
  retrying Refused Unavailable
    (Unavailable ("ran out of time pinning the " +:+ what +:+ " of `" +:+ Descriptor_show d +:+ "`"))
    call (lm_attempts limits - 1) 1.

(** ** Artifacts *)

(** Images pinned in registries that need no cloud account. *)
Definition elsewhere (node : Node) : list string :=
  filter (λ i, pinned_image i && negb (in_ecr i) = true) (images node).*2.

(** What is checked with the account of the workload's definition. *)
Definition account_artifacts (node : Node) : list string :=
  filter (λ a, is_some (S3Version_parse a) = true) (artifacts node)
  ++ filter (λ i, is_some (EcrDigest_parse i) = true) (images node).*2.

Definition check_account_artifacts (missing : Missing) (node : Node) : kprog Missing :=
  match account_artifacts node with
  | [] => Done missing
  | found =>
      match bt_get (n_definition node) (dep_definitions dep) with
      | None => Done missing
      | Some (_, def) =>
          match driver_account def (scope_for dep node []) with
          | Ok (Some account) =>
              let check := mk_ArtifactCheck (context_of_deployment dep) (n_descriptor node) (rd_id def) account found in
              let! checked := check_with_retries ("the artifacts of `" +:+ Descriptor_show (n_descriptor node) +:+ "`")
                (kask (KCheckArtifacts check)) in
              Done (match checked with Ok _ => missing | Err reason => bt_insert (n_descriptor node) reason missing end)
          | _ => Done missing
          end
      end
  end.

Definition check_node_artifacts (missing : Missing) (node : Node) : kprog Missing :=
  match elsewhere node with
  | [] => check_account_artifacts missing node
  | found =>
      let! checked := check_with_retries ("the images of `" +:+ Descriptor_show (n_descriptor node) +:+ "`")
        (kask (KCheckImages (n_descriptor node) found)) in
      match checked with
      | Err reason => Done (bt_insert (n_descriptor node) reason missing)
      | Ok _ => check_account_artifacts missing node
      end
  end.

Definition check_artifacts : kprog Missing := pfold check_node_artifacts [] (bt_values (g_nodes (dep_graph dep))).

(** ** Pins *)

(** The definition, and the cloud account it reads with. *)
Definition pin_account (node : Node) (scope : MapScope) (refused : string → PinError) (pinned_form : string)
    : result (ResourceDefinition * string) PinError :=
  match bt_get (n_definition node) (dep_definitions dep) with
  | None => Err (refused ("cannot be pinned: definition `" +:+ n_definition node +:+ "` is not in the deployment"))
  | Some (_, def) =>
      match driver_account def scope with
      | Ok (Some account) => Ok (def, account)
      | Ok None => Err (refused ("cannot be pinned: definition `" +:+ rd_id def
          +:+ "` has no cloud account to read it with; give it one, or " +:+ pinned_form))
      | Err _ => Err (refused ("cannot be pinned: the cloud account of definition `" +:+ rd_id def
          +:+ "` comes from another resource, which is not known before the deployment runs; " +:+ pinned_form))
      end
  end.

Definition unknown_yet : string :=
  "must be known before the deployment runs to be pinned: name it literally or through shared values".

Definition pin_node_artifact (pinned : list (Descriptor * string)) (node : Node)
    : kprog (result (list (Descriptor * string)) PinError) :=
  match artifacts node with
  | [] => Done (Ok pinned)
  | named :: _ =>
      let d := n_descriptor node in
      let refused why := Refused ("artifact `" +:+ named +:+ "` of `" +:+ Descriptor_show d +:+ "` " +:+ why) in
      let scope := scope_for dep node [] in
      match resolve_plain named "artifact" scope with
      | None => Done (Err (refused unknown_yet))
      | Some artifact =>
          if is_some (S3Version_parse artifact) then
            Done (Ok (if String.eqb artifact named then pinned else bt_insert d artifact pinned))
          else if String.eqb artifact "." then
            Done (Err (refused "was not supplied: pass `--artifact main=<uri>`"))
          else if is_none (S3Object_parse artifact) then
            Done (Err (refused "has no fixed identity: name an S3 object (`s3://<bucket>/<key>` in a versioned bucket, or with `?versionId=`)"))
          else
            match pin_account node scope refused "name the version with `?versionId=`" with
            | Err e => Done (Err e)
            | Ok (def, account) =>
                let! version := with_retries "artifacts" d
                  (kask (KPinArtifact (mk_ArtifactPin (context_of_deployment dep) d (rd_id def) account artifact))) in
                Done (result_map (λ v, bt_insert d v pinned) version)
            end
      end
  end.

Definition pin_artifacts : kprog (result (list (Descriptor * string)) PinError) :=
  pfold_ok pin_node_artifact [] (bt_values (g_nodes (dep_graph dep))).

Abbreviation Images := (list (Descriptor * list (string * string))).

(** [pinned.entry(d).or_default().insert(pointer, image)]. *)
Definition put_image (d : Descriptor) (pointer image : string) (pinned : Images) : Images :=
  bt_insert d (bt_insert pointer image (option_default [] (bt_get d pinned))) pinned.

Definition put_changed (d : Descriptor) (pointer named image : string) (pinned : Images) : Images :=
  if String.eqb image named then pinned else put_image d pointer image pinned.

(** An image pinned from a public tag keeps only its digest when it is named by it. *)
Definition pinned_form (image : string) : string :=
  match OciImage_parse image with
  | Some parsed => if negb (in_ecr image) && pinned_from_tag image then OciImage_show parsed else image
  | None => image
  end.

Definition pin_node_image (node : Node) (pinned : Images) (pi : string * string) : kprog (result Images PinError) :=
  let (pointer, named) := pi in
  let d := n_descriptor node in
  let refused why := Refused ("image `" +:+ named +:+ "` of `" +:+ Descriptor_show d +:+ "` " +:+ why) in
  let scope := scope_for dep node [] in
  match resolve_plain named "image" scope with
  | None => Done (if in_ecr named then Err (refused unknown_yet) else Ok pinned)
  | Some image =>
      if pinned_image image then Done (Ok (put_changed d pointer named (pinned_form image) pinned))
      else if String.eqb image "." then
        Done (Err (refused "was not supplied: pass `--image <container>=<image>`"))
      else if contains_char "@" image then
        Done (Err (refused ("names a digest that is not `sha256:` and 64 hex digits: `" +:+ image +:+ "`")))
      else if is_none (EcrImage_parse image) then
        let! found := with_retries "images" d (kask (KPinRegistryImage d image)) in
        Done (result_map (λ i, put_changed d pointer named i pinned) found)
      else
        match pin_account node scope refused "name it by digest as `<image>@sha256:<digest>`" with
        | Err e => Done (Err e)
        | Ok (def, account) =>
            let! found := with_retries "images" d
              (kask (KPinImage (mk_ImagePin (context_of_deployment dep) d (rd_id def) account image))) in
            Done (result_map (λ i, put_image d pointer i pinned) found)
        end
  end.

Definition pin_images : kprog (result Images PinError) :=
  pfold_ok (λ pinned node, pfold_ok (pin_node_image node) pinned (images node)) [] (bt_values (g_nodes (dep_graph dep))).

(** ** Versions of drivers' code *)

Definition check_id : string := dep_id dep +:+ "-check".

(** The job that a pinned version is checked with. *)
Definition pin_job (node : Node) (version : Z) (def : ResourceDefinition) (pin : Value) (guresid : option string)
    : result ProvisionJob string :=
  let scope := scope_for dep node [] in
  let scope := match guresid with Some g => with_guresid g scope | None => scope end in
  let? (values, secrets, secret_refs) := driver_inputs def (mk_UnknownScope scope) (mk_UnknownScope scope) in
  let sources := bs_of_list
    (recorded scope DialectDefinition (Obj (di_secrets (rd_driver_inputs def))) "driver_inputs.secrets") in
  let account := match driver_account def (mk_UnknownScope scope) with Ok a => a | Err _ => None end in
  Ok (mk_ProvisionJob check_id 0 (n_descriptor node)
    (option_default (Guresid_from_bytes (replicate 16 Byte.x00)) guresid) (context_of_deployment dep) (rd_id def) version
    (rd_driver_type def) account (mk_JobInputs values secrets secret_refs (RValue Null) sources) ε None None (Some pin)
    false None deadline).

Definition unknown_inputs : string :=
  " (some of its driver inputs come from other resources, which are not known before the deployment runs; deploy the current configuration instead)".

Definition check_node_pin (missing : Missing) (node : Node) : kprog Missing :=
  let d := n_descriptor node in
  match bt_get (Descriptor_show d) (dep_pins dep), bt_get (n_definition node) (dep_definitions dep) with
  | Some pin, Some (version, def) =>
      let! active := kask (KActiveResource (dep_org dep) (dep_app dep) (dep_env dep) (Descriptor_show d)) in
      match active with
      | Err e => Done (bt_insert d ("the resource could not be read to check its pinned version: " +:+ store_error_show e) missing)
      | Ok active =>
          let guresid := active ≫= λ r, match Guresid_new (rs_guresid r) with Ok g => Some g | Err _ => None end in
          match pin_job node version def pin guresid with
          | Err e => Done (bt_insert d e missing)
          | Ok j =>
              let unknown := str_contains UNKNOWN (json_text (job_inputs_to_value (pj_inputs j))) in
              let! checked := check_with_retries ("the pinned version of `" +:+ Descriptor_show d +:+ "`") (kask (KCheckPin j)) in
              Done (match checked with
                | Ok _ => missing
                | Err reason => bt_insert d (if unknown then reason +:+ unknown_inputs else reason) missing
                end)
          end
      end
  | _, _ => Done missing
  end.

Definition check_pins : kprog Missing := pfold check_node_pin [] (bt_values (g_nodes (dep_graph dep))).

(** ** Deletions *)

Definition unlisted (e : StoreError) : Missing :=
  bt_of_list ((λ d, (d, "the resources the deployment deletes could not be listed to check: " +:+ store_error_show e))
    <$> bt_keys (g_nodes (dep_graph dep))).

(** The job that the version a resource was applied with is checked with. *)
Definition retained_job (d : Descriptor) (r : ResourceRow) (recorded : Recorded) (guresid : string) : DeprovisionJob :=
  deprovision_job dep deadline d r recorded check_id 0 guresid.

Definition check_deletion (kept : list string) (missing : Missing) (c : Descriptor * ResourceRow) : kprog Missing :=
  let (d, r) := c in
  if rs_cleanup_pending r || bs_mem (rs_descriptor r) kept then Done missing
  else
    match recorded_of r, Guresid_new (rs_guresid r) with
    | Err e, _ => Done (bt_insert d ("the deployment deletes this resource, but " +:+ e) missing)
    | Ok _, Err _ => Done (bt_insert d "the deployment deletes this resource, but its recorded GUResID is invalid" missing)
    | Ok recorded, Ok guresid =>
        let! checked := check_with_retries ("the retained version of `" +:+ Descriptor_show d +:+ "`")
          (kask (KCheckRetained (retained_job d r recorded guresid))) in
        Done (match checked with
          | Ok _ => missing
          | Err reason => bt_insert d ("the deployment deletes this resource, but the version it was applied with, which the deletion runs, is not available: " +:+ reason) missing
          end)
    end.

Definition check_deletions : kprog Missing :=
  let! active := kask (KActiveResources (dep_org dep) (dep_app dep) (dep_env dep)) in
  match active with
  | Err e => Done (unlisted e)
  | Ok active =>
      let (candidates, mandatory) := deletion_candidates (dep_graph dep) (dep_teardown dep) active in
      if forallb (λ r, rs_cleanup_pending r || bs_mem (rs_descriptor r) mandatory) (bt_values candidates) then
        pfold (check_deletion []) [] candidates
      else
        let! stones := kask (KTombstones (dep_org dep) (dep_app dep) (dep_env dep)) in
        match stones with
        | Err e => Done (unlisted e)
        | Ok stones => pfold (check_deletion (kept_candidates (dep_graph dep) active stones candidates mandatory)) [] candidates
        end
  end.

(** ** All of them *)

(** What is missing, and of which kind: the first check that finds something counts. *)
Definition run_checks : kprog (Refusal * Missing) :=
  let! missing := check_artifacts in
  match missing with
  | _ :: _ => Done (MissingArtifacts, missing)
  | [] =>
      let! missing := check_pins in
      match missing with
      | _ :: _ => Done (MissingPins, missing)
      | [] => let! missing := check_deletions in Done (MissingDeletions, missing)
      end
  end.
End checks.
