(* ===== verification/CheckProofs.v ===== *)
(** * What the checks before a deployment ensure

    What was confirmed of what a deployment names, replays and deletes when the checks find
    nothing against it; and artifacts that were pinned name versions that do not change. *)

From Stdlib Require Import Ascii.
From stdpp Require Import base sets strings list.
From S2P Require Import Prelude Effects Strings OrdMap Ids Json Canonical Model Placeholder Catalog Sets Graph Artifacts Db Identity Permits Deployments Resources Deletion PlanInputs PlanJob PlanTask PlanRun PlanOrder PlanChecks.

Local Open Scope string_scope.
Local Open Scope list_scope.

(** ** Folds and retries *)


Section checks.
Context `{Libraries} `{InputsReader} (dep : Deployment) (limits : Limits) (deadline : Z).

Abbreviation scope node := (scope_for dep node []).
Abbreviation nodes := (bt_values (g_nodes (dep_graph dep))).

(** A call that is retried and succeeds was answered with success once. *)
Lemma retrying_ok {T E} (refuse over : string → E) late (call : kprog (option (result T ExecFailure))) more attempt tr v :
  gives (retrying limits deadline refuse over late call more attempt) tr (Ok v) →
  ∃ tr', tr' ⊆ tr ∧ gives call tr' (Some (Ok v)).
Proof.
  revert attempt tr. induction more as [|more IH]; intros attempt tr; simpl;
    intros (x & tr1 & tr2 & -> & Hc & Hr)%gives_bind;
    destruct x as [[w|[e|error after|e c]]|]; try (by destruct Hr);
    try (destruct Hr as [-> [= <-]]; exists tr1; split; [set_solver|done]).
  - apply gives_bind in Hr as (? & ? & ? & -> & _ & Hr). by destruct Hr.
  - apply gives_bind in Hr as (delay & t1 & t2 & -> & _ & (now & t3 & -> & Hr)).
    destruct (deadline <=? now + delay)%Z; [by destruct Hr|].
    destruct Hr as (? & t4 & -> & Hr). destruct (IH _ _ Hr) as (tr' & Hs & Hg).
    exists tr'. split; [set_solver|done].
Qed.

Lemma asked c tr tr' (x : kanswer c) : tr' ⊆ tr → gives (kask c) tr' x → existT c x ∈ tr.
Proof. intros Hs ->%gives_ask. apply Hs. set_solver. Qed.

(** ** The checks *)

Abbreviation confirmed c tr := (existT (P := kanswer) c (Some (Ok tt)) ∈ tr).








Abbreviation listed tr active :=
  (existT (P := kanswer) (KActiveResources (dep_org dep) (dep_app dep) (dep_env dep)) (Ok active) ∈ tr).
Abbreviation stoned tr stones :=
  (existT (P := kanswer) (KTombstones (dep_org dep) (dep_app dep) (dep_env dep)) (Ok stones) ∈ tr).






(** C39: A deployment with no resources, such as one that tears an environment down, is not held
    back when the resources it deletes cannot be listed to be checked: the check, which says for
    each resource of the deployment that nothing could be listed, says it of none, and the
    deployment runs with nothing that it deletes checked. *)
Theorem unlisted_deletions_unchecked e :
  g_nodes (dep_graph dep) = [] →
  gives (run_checks dep limits deadline)
    [existT (KActiveResources (dep_org dep) (dep_app dep) (dep_env dep)) (Err e)] (MissingDeletions, []).
Proof.
  intros Hn. unfold run_checks, check_artifacts, check_pins, check_deletions. rewrite Hn. simpl.
  exists (Err e), []. split; [done|]. simpl. unfold unlisted. rewrite Hn. by simpl.
Qed.

(** ** Pinned artifacts *)

Lemma keyed_descriptors : keyed dep → n_descriptor <$> nodes = bt_keys (g_nodes (dep_graph dep)).
Proof.
  unfold keyed, bt_values, bt_keys. rewrite <-list_fmap_compose. intros Hk. apply list_fmap_ext.
  intros i [d node] Hi. simpl. apply Hk. by eapply list_elem_of_lookup_2.
Qed.

(** The artifact a workload deploys, once pinned: the text it resolves to before the deployment
    runs when that names a version already, or else the version that the executor gave for it. *)
Definition artifact_fixed (tr : list {c & kanswer c}) (node : Node) (o : option string) : Prop :=
  ∀ named, head (artifacts node) = Some named →
    ∃ artifact, resolve_plain named "artifact" (scope node) = Some artifact
      ∧ ((is_some (S3Version_parse artifact) = true ∧ option_default named o = artifact)
         ∨ (is_some (S3Version_parse artifact) = false ∧ is_some (S3Object_parse artifact) = true
            ∧ ∃ pin version, o = Some version ∧ apn_descriptor pin = n_descriptor node ∧ apn_artifact pin = artifact
                ∧ existT (P := kanswer) (KPinArtifact pin) (Some (Ok version)) ∈ tr)).

Lemma artifact_fixed_mono tr tr' node o : tr ⊆ tr' → artifact_fixed tr node o → artifact_fixed tr' node o.
Proof.
  intros Hs Hf named Hn. destruct (Hf named Hn) as (a & Ha & [?|(H1 & H2 & pin & v & Hp)]); exists a; [by auto|].
  split; [done|]. right. split_and!; [done..|]. exists pin, v. set_solver.
Qed.

Lemma pin_node_artifact_fixes pinned node tr pinned' :
  bt_get (n_descriptor node) pinned = None →
  gives (pin_node_artifact dep limits deadline pinned node) tr (Ok pinned') →
  artifact_fixed tr node (bt_get (n_descriptor node) pinned')
  ∧ ∀ d, d ≠ n_descriptor node → bt_get d pinned' = bt_get d pinned.
Proof.
  intros Hfree. unfold pin_node_artifact, artifact_fixed. destruct (artifacts node) as [|named l]; simpl.
  { by intros [_ [= ->]]. }
  destruct (resolve_plain _ _ _) as [artifact|] eqn:Er; [|by intros [_ ?]].
  destruct (S3Version_parse artifact) as [v|] eqn:Ev; simpl.
  { intros [_ [= ->]]. destruct (String.eqb_spec artifact named) as [<-|Hne].
    - split; [|done]. intros ? [= <-]. exists artifact. rewrite Ev. split; [done|]. left. by rewrite Hfree.
    - split; [|by intros; apply bt_get_insert_ne]. intros ? [= <-]. exists artifact. rewrite Ev, bt_get_insert_eq. auto. }
  destruct (String.eqb artifact "."); [by intros [_ ?]|].
  destruct (S3Object_parse artifact) as [object|] eqn:Eo; simpl; [|by intros [_ ?]].
  destruct (pin_account _ _ _ _ _) as [[def account]|e]; [|by intros [_ ?]].
  intros ([version|e] & tr1 & tr2 & -> & Hc & [_ [= ->]])%gives_bind.
  apply retrying_ok in Hc as (tr' & Hs & Hg). split; [|by intros; apply bt_get_insert_ne].
  intros ? [= <-]. exists artifact. rewrite Ev, Eo, bt_get_insert_eq. split; [done|]. right. split_and!; [done..|].
  eexists _, version. split; [done|]. split_and!; [..|eapply asked, Hg; set_solver]; done.
Qed.

Lemma pin_all_artifacts l pinned tr pinned' :
  NoDup (n_descriptor <$> l) → (∀ node, node ∈ l → bt_get (n_descriptor node) pinned = None) →
  gives (pfold_ok (pin_node_artifact dep limits deadline) pinned l) tr (Ok pinned') →
  (∀ d, d ∉ n_descriptor <$> l → bt_get d pinned' = bt_get d pinned)
  ∧ ∀ node, node ∈ l → artifact_fixed tr node (bt_get (n_descriptor node) pinned').
Proof.
  revert pinned tr. induction l as [|node l IH]; intros pinned tr Hd Hfree; simpl.
  { intros [_ [= ->]]. split; [done|]. by intros ? ?%elem_of_nil. }
  rewrite fmap_cons in Hd. apply NoDup_cons in Hd as [Hnew Hd].
  intros ([pinned1|e] & tr1 & tr2 & -> & H1 & H2)%gives_bind; [|by destruct H2].
  apply pin_node_artifact_fixes in H1 as [Hf Hk]; [|apply Hfree; set_solver].
  apply IH in H2 as [Hk2 Hf2]; [|done|].
  - split.
    + intros d [??]%not_elem_of_cons. by rewrite Hk2, Hk.
    + intros n [->|Hin]%elem_of_cons; [rewrite (Hk2 _ Hnew)|]; (eapply artifact_fixed_mono; [|by eauto]); set_solver.
  - intros n Hn. rewrite Hk; [apply Hfree; set_solver|]. intros E. apply Hnew. rewrite <-E. by apply list_elem_of_fmap_2.
Qed.

(** Pinning gives every artifact a fixed identity. When the artifacts of a deployment are
    pinned, and the executor answers with object versions, the artifact of each workload, the
    pinned one if there is one and else the one it names, is an S3 object version: the one its
    text resolves to, with shared values, before the deployment runs, or, when that names an
    object without a version, the one the executor gave for this object and this workload. *)
Theorem pinned_artifacts_are_versions tr pinned :
  bt_wf (g_nodes (dep_graph dep)) → keyed dep →
  gives (pin_artifacts dep limits deadline) tr (Ok pinned) →
  (∀ pin version, existT (P := kanswer) (KPinArtifact pin) (Some (Ok version)) ∈ tr → is_some (S3Version_parse version) = true) →
  ∀ node named, node ∈ nodes → head (artifacts node) = Some named →
    is_some (S3Version_parse (option_default named (bt_get (n_descriptor node) pinned))) = true
    ∧ artifact_fixed tr node (bt_get (n_descriptor node) pinned).
Proof.
  intros Hwf Hkeyed Hp Hversions node named Hn Hnamed.
  apply pin_all_artifacts in Hp as [_ Hf]; [|by rewrite (keyed_descriptors Hkeyed); apply bt_wf_NoDup|done].
  split; [|by apply Hf].
  destruct (Hf node Hn named Hnamed) as (a & _ & [[Ha ->]|(_ & _ & pin & v & -> & _ & _ & Hv)]); [done|].
  by eapply Hversions.
Qed.
End checks.
