(* ===== verification/DriverRun.v ===== *)
(** * Driver calls ([crates/drivers/src/lib.rs], [crates/drivers/src/run.rs])

    What a driver is asked and answers, the timeout of a call, and how a [put] or a [delete] is
    followed until it settles: polls through [get] within a deadline, with the newest cookie, and
    a cancellation when time runs out. *)

From Stdlib Require Import Ascii SpecFloat.
From stdpp Require Import base sets strings list.
From S2P Require Import Prelude Effects Strings OrdMap Float64 Json Catalog PlanInputs.

Local Open Scope string_scope.
Local Open Scope Z_scope.
Local Open Scope list_scope.

(** ** Drivers *)

Definition MAX_COOKIE_BYTES : Z := 10 * 1024.

Record Cookie := mk_Cookie { ck_version : Z; ck_data : string }.
#[export] Instance Cookie_eq_dec : EqDecision Cookie.
Proof. solve_decision. Defined.

Record DriverContext := mk_DriverContext {
  dx_org : string; dx_app : string; dx_env : string; dx_env_type : string; dx_res_id : string; dx_class : string
}.

(** Secret maps are maps; the run log is apart. *)
Record DriverRequest := mk_DriverRequest {
  rq_guresid : string; rq_operation_id : string; rq_fingerprint : string; rq_resource_type : string;
  rq_resource : jmap; rq_resource_secrets : jmap; rq_resource_secret_paths : list (list string);
  rq_values : jmap; rq_secrets : jmap; rq_credentials : option jmap; rq_context : DriverContext;
  rq_cookie : option Cookie; rq_permit : option string; rq_pin : option Value
}.

Definition set_cookie (req : DriverRequest) (c : option Cookie) : DriverRequest :=
  mk_DriverRequest (rq_guresid req) (rq_operation_id req) (rq_fingerprint req) (rq_resource_type req)
    (rq_resource req) (rq_resource_secrets req) (rq_resource_secret_paths req) (rq_values req) (rq_secrets req)
    (rq_credentials req) (rq_context req) c (rq_permit req) (rq_pin req).

Record Footprint := mk_Footprint { fp_backend : option string; fp_external_ids : list string; fp_pin : option Value }.
Record Manifest := mk_Manifest { mf_location : string; mf_data : Value }.
Record DriverOutputs := mk_DriverOutputs {
  do_values : jmap; do_secrets : jmap; do_manifests : list Manifest; do_footprint : Footprint
}.

(** Durations are nanoseconds. *)
Inductive DriverError :=
| DInvalid (code : option string) (message : string)
| DConflict (message : string)
| DTransient (message : string) (retry_after : option Z)
| DTimeout (after : Z)
| DUncertain (message : string)
| DUnsupported (message : string)
| DWithCookie (error : DriverError) (cookie : Cookie).

Inductive PutOutcome :=
| PutReady (outputs : DriverOutputs) (cookie : option Cookie)
| PutInProgress (poll_after : Z) (cookie : option Cookie).

Inductive DriverObservation :=
| DoAbsent (cookie : option Cookie)
| DoInProgress (poll_after : Z) (cookie : option Cookie)
| DoReady (outputs : DriverOutputs) (cookie : option Cookie)
| DoFailed (error : DriverError)
| DoUnknown (reason : string) (cookie : option Cookie).

Inductive DeleteOutcome := DeDeleted | DeInProgress (poll_after : Z) (cookie : option Cookie).

Inductive Action := ACreate | AUpdate | AReplace | ADelete.
#[export] Instance Action_eq_dec : EqDecision Action.
Proof. solve_decision. Defined.

Inductive Plan := PlanUnknown | PlanNoEffects | PlanActions (actions : list (Action * string)) (fingerprint : string).

Record Targets := mk_Targets { tg_resources : bool; tg_workloads : bool; tg_triggers : bool }.
Record Capabilities := mk_Capabilities {
  cp_targets : Targets; cp_observe : bool; cp_recover : bool; cp_preview : bool; cp_cancel : bool
}.
Record DriverInfo := mk_DriverInfo {
  dn_id : string; dn_protocol_version : string; dn_cookie_version : Z; dn_input_schema : Value;
  dn_output_schema : Value; dn_capabilities : Capabilities
}.

(** The error without a cookie, and the cookie it carried. *)
Fixpoint error_split (e : DriverError) : DriverError * option Cookie :=
  match e with
  | DWithCookie error cookie => ((error_split error).1, Some cookie)
  | other => (other, None)
  end.

Definition error_with_cookie (e : DriverError) (cookie : option Cookie) : DriverError :=
  match e, cookie with
  | DWithCookie error _, Some cookie => DWithCookie error cookie
  | error, Some cookie => DWithCookie error cookie
  | error, None => error
  end.

Fixpoint is_retryable (e : DriverError) : bool :=
  match e with DTransient _ _ => true | DWithCookie error _ => is_retryable error | _ => false end.

(** [{:?}] of a duration: whole units, and a fraction without trailing zeros. *)
Fixpoint fraction_digits (width : nat) (n : Z) : string :=
  match width with
  | O => ε
  | S w => if n =? 0 then ε else str1 (digit_char (n / 10 ^ Z.of_nat w)) +:+ fraction_digits w (n mod 10 ^ Z.of_nat w)
  end.
Definition decimal (whole fraction : Z) (width : nat) (unit_ : string) : string :=
  show_Z whole +:+ (if fraction =? 0 then ε else "." +:+ fraction_digits width fraction) +:+ unit_.
Definition duration_debug (d : Z) : string :=
  if secs 1 <=? d then decimal (d / secs 1) (d mod secs 1) 9 "s"
  else if 1000000 <=? d then decimal (d / 1000000) (d mod 1000000) 6 "ms"
  else if 1000 <=? d then decimal (d / 1000) (d mod 1000) 3 "µs"
  else decimal d 0 0 "ns".

Fixpoint driver_error_show (e : DriverError) : string :=
  match e with
  | DInvalid (Some code) message => code +:+ ": " +:+ message
  | DInvalid None message => message
  | DConflict m => "conflict: " +:+ m
  | DTransient message _ => message
  | DTimeout d => "the driver did not finish within " +:+ duration_debug d
  | DUncertain m => "the outcome is unknown: " +:+ m
  | DUnsupported m => "unsupported: " +:+ m
  | DWithCookie error _ => driver_error_show error
  end.

Example duration_debug_ok :
  duration_debug (secs 900) = "900s" ∧ duration_debug 1500000000 = "1.5s" ∧ duration_debug 2050000 = "2.05ms".
Proof. by vm_compute. Qed.

(** ** Timeouts *)

Definition DEFAULT_TIMEOUT : Z := secs (15 * 60).
Definition MAX_TIMEOUT : Z := secs (24 * 3600).
Definition MIN_POLL : Z := secs 1.
Definition FINAL_POLL_MARGIN : Z := secs 30.
Definition CANCEL_GRACE : Z := secs 60.

(** A whole float from 1 to a day in seconds, as an integer. *)
Definition whole_seconds (f : f64) : option Z :=
  match f with
  | S754_finite false m e =>
      let n := if 0 <=? e then Some (Z.pos m * 2 ^ e)
               else if Z.pos m mod 2 ^ (- e) =? 0 then Some (Z.pos m / 2 ^ (- e)) else None in
      match n with Some n => if (1 <=? n) && (n <=? 24 * 3600) then Some n else None | None => None end
  | _ => None
  end.

(** [str::trim]. *)
Fixpoint trim_start_chars (l : list string) : list string :=
  match l with ch :: l' => if is_whitespace ch then trim_start_chars l' else l | [] => [] end.
Definition trim (s : string) : string :=
  concat_str (reverse (trim_start_chars (reverse (trim_start_chars (chars s))))).

(** The leading digits, and the rest. *)
Fixpoint split_digits (s : string) : string * string :=
  match s with
  | String c s' => if is_ascii_digit c then let (d, u) := split_digits s' in (String c d, u) else (ε, s)
  | ε => (ε, ε)
  end.

Definition timeout_scale (unit_ : string) : option N :=
  if String.eqb unit_ "s" then Some 1%N
  else if String.eqb unit_ "m" then Some 60%N
  else if String.eqb unit_ "h" then Some 3600%N
  else None.

Definition timeout_text (s : string) : option Z :=
  let (digits, unit_) := split_digits (trim s) in
  let unit_ := if str_is_empty unit_ then "s" else unit_ in
  match parse_usize digits, timeout_scale unit_ with
  | Some n, Some scale => if (n * scale <? 2 ^ 64)%N then Some (Z.of_N (n * scale)) else None
  | _, _ => None
  end.

Definition parse_timeout (v : Value) : option Z :=
  let n :=
    match v with
    | Num n => match as_u64 n with Some n => Some (Z.of_N n) | None => whole_seconds (as_f64 n) end
    | Str s => timeout_text s
    | _ => None
    end in
  match n with Some n => if 0 <? n then Some (secs n) else None | None => None end.

Example parse_timeout_ok :
  parse_timeout (Str " 15m ") = Some (secs 900) ∧ parse_timeout (Str "1h") = Some (secs 3600)
  ∧ parse_timeout (Num (Float (f64_of_Z 90))) = Some (secs 90) ∧ parse_timeout (Str "-1") = None
  ∧ parse_timeout (Num (PosInt 0)) = None ∧ parse_timeout (Str "90") = Some (secs 90).
Proof. by vm_compute. Qed.

Section timeouts.
Context `{Libraries}.

Definition configured_timeout (values : jmap) : result Z DriverError :=
  match im_get "timeout" values with
  | None | Some Null => Ok DEFAULT_TIMEOUT
  | Some v =>
      let invalid := DInvalid None ("`timeout` must be a positive number of seconds or a duration such as `90s`, `15m` or `1h`, at most a day, not " +:+ json_text v) in
      match parse_timeout v with
      | Some t => if t <=? MAX_TIMEOUT then Ok t else Err invalid
      | None => Err invalid
      end
  end.

Definition call_timeout (values : jmap) (remaining : option Z) : result Z DriverError :=
  let? configured := configured_timeout values in
  match remaining with
  | Some r =>
      if r =? 0 then Err (DInvalid None "the deployment deadline has passed; the driver was not called")
      else Ok (Z.min configured r)
  | None => Ok configured
  end.
End timeouts.

(** ** Runs *)

(** The calls of a driver with the clock. A call that does not answer in time has no answer. *)
Inductive DCall :=
| DNow
| DSleepUntil (t : Z)
| DPut (req : DriverRequest)
| DGet (req : DriverRequest)
| DDelete (req : DriverRequest)
| DCancel (req : DriverRequest)
| DPlan (delete : bool) (req : DriverRequest)
| DCheckPin (req : DriverRequest)
| DCheckRetained (req : DriverRequest).

Definition danswer (c : DCall) : Type :=
  match c with
  | DNow => Z
  | DSleepUntil _ => unit
  | DPut _ => option (result PutOutcome DriverError)
  | DGet _ | DCancel _ => option (result DriverObservation DriverError)
  | DDelete _ => option (result DeleteOutcome DriverError)
  | DPlan _ _ => option (result Plan DriverError)
  | DCheckPin _ | DCheckRetained _ => option (result unit DriverError)
  end.

Abbreviation dprog := (Effects.prog danswer).
Abbreviation dask := (Effects.ask (answer := danswer)).

Definition with_timeout {T} (timeout : Z) (call : dprog (option (result T DriverError))) : dprog (result T DriverError) :=
  let! answer := call in
  Done (option_default (Err (DTimeout timeout)) answer).

Record Settled (T : Type) := mk_Settled { st_result : result T DriverError; st_cookie : option Cookie }.
Arguments mk_Settled {T} _ _.
Arguments st_result {T} _.
Arguments st_cookie {T} _.

Definition cookie_check (c : Cookie) : result unit DriverError :=
  let size := Z.of_nat (String.length (ck_data c)) in
  if MAX_COOKIE_BYTES <? size then
    Err (DInvalid None ("the driver returned a " +:+ show_Z size +:+ " byte cookie; the limit is " +:+ show_Z MAX_COOKIE_BYTES))
  else Ok tt.

Definition check_cookie (info : DriverInfo) (c : Cookie) : result unit string :=
  let? _ := map_err driver_error_show (cookie_check c) in
  if ck_version c =? dn_cookie_version info then Ok tt
  else Err ("the driver returned a version " +:+ show_Z (ck_version c) +:+ " cookie but declares version "
    +:+ show_Z (dn_cookie_version info)).

Section run.
Context (info : DriverInfo).

(** Records a cookie the driver returned. *)
Definition keep (req : DriverRequest) (cookie : option Cookie) : result DriverRequest DriverError :=
  match cookie with
  | None => Ok req
  | Some c => let? _ := map_err DUncertain (check_cookie info c) in Ok (set_cookie req (Some c))
  end.

(** Records the cookie a failed call returned, and passes on the failure without it. *)
Definition absorb {T} (req : DriverRequest) (r : result T DriverError) : DriverRequest * result T DriverError :=
  match r with
  | Err (DWithCookie error cookie) =>
      let (error, cookie) := error_split (DWithCookie error cookie) in
      match keep req cookie with Ok req => (req, Err error) | Err e => (req, Err e) end
  | other => (req, other)
  end.

Definition settle {T} (req : DriverRequest) (r : result T DriverError) : Settled T := mk_Settled r (rq_cookie req).

(** Keeps the cookie, and settles on the result if it could be kept. *)
Definition keep_and {T} (req : DriverRequest) (cookie : option Cookie) (r : result T DriverError) : Settled T :=
  match keep req cookie with Ok req => settle req r | Err e => settle req (Err e) end.

Section deadline.
Context (timeout deadline : Z).

(** Whether the driver confirmed that nothing runs any more, and the cookie it returned. *)
Definition stopped (cancelled : option (result DriverObservation DriverError)) : bool * option Cookie :=
  match cancelled with
  | Some (Ok (DoAbsent cookie)) => (true, cookie)
  | Some (Ok (DoFailed error)) => (true, (error_split error).2)
  | Some (Ok (DoInProgress _ cookie)) | Some (Ok (DoReady _ cookie)) | Some (Ok (DoUnknown _ cookie)) => (false, cookie)
  | Some (Err error) => (false, (error_split error).2)
  | None => (false, None)
  end.

Definition unconfirmed : DriverError :=
  DUncertain ("the driver did not finish within " +:+ duration_debug timeout
    +:+ " and did not confirm that the operation stopped").

Definition timed_out (req : DriverRequest) : dprog DriverError :=
  if cp_cancel (dn_capabilities info) then
    let! cancelled := dask (DCancel req) in
    let (stopped, cookie) := stopped cancelled in
    Done (error_with_cookie (if stopped then DTimeout timeout else unconfirmed) cookie)
  else Done (DTimeout timeout).

Definition bounded {T} (req : DriverRequest) (call : dprog (option (result T DriverError))) : dprog (result T DriverError) :=
  let! now := dask DNow in
  if deadline <=? now then let! e := timed_out req in Done (Err e)
  else
    let! answer := call in
    match answer with
    | Some r => Done r
    | None => let! e := timed_out req in Done (Err e)
    end.

(** When the wait for the next poll ends at the latest. *)
Definition last_poll : Z := deadline - Z.min (timeout / 20) FINAL_POLL_MARGIN.

Definition pause (req : DriverRequest) (wait : Z) : dprog (result unit DriverError) :=
  let! now := dask DNow in
  if last_poll <=? now then let! e := timed_out req in Done (Err e)
  else
    let! _ := dask (DSleepUntil (Z.min (now + Z.max wait MIN_POLL) last_poll)) in
    Done (Ok tt).

(** One wait and one poll. *)
Definition poll (req : DriverRequest) (wait : Z) : dprog (DriverRequest * result DriverObservation DriverError) :=
  let! paused := pause req wait in
  match absorb req paused with
  | (req, Err e) => Done (req, Err e)
  | (req, Ok _) =>
      let! observed := bounded req (dask (DGet req)) in
      Done (absorb req observed)
  end.

(** Polls, at most [polls] times, until the resource is ready. *)
Fixpoint poll_ready (polls : nat) (req : DriverRequest) (wait : Z) : dprog (option (Settled DriverOutputs)) :=
  match polls with
  | O => Done None
  | S polls =>
      let! (req, observed) := poll req wait in
      match observed with
      | Err e => Done (Some (settle req (Err e)))
      | Ok (DoReady outputs cookie) => Done (Some (keep_and req cookie (Ok outputs)))
      | Ok (DoInProgress poll_after cookie) =>
          match keep req cookie with
          | Ok req => poll_ready polls req poll_after
          | Err e => Done (Some (settle req (Err e)))
          end
      | Ok (DoFailed error) => let (req, r) := absorb req (Err error) in Done (Some (settle req r))
      | Ok (DoAbsent cookie) =>
          Done (Some (keep_and req cookie (Err (DUncertain "`put` reported an operation in progress, but `get` found no resource"))))
      | Ok (DoUnknown reason cookie) => Done (Some (keep_and req cookie (Err (DUncertain reason))))
      end
  end.

(** Polls, at most [polls] times, until the resource is absent. *)
Fixpoint poll_absent (polls : nat) (req : DriverRequest) (wait : Z) : dprog (option (Settled unit)) :=
  match polls with
  | O => Done None
  | S polls =>
      let! (req, observed) := poll req wait in
      match observed with
      | Err e => Done (Some (settle req (Err e)))
      | Ok (DoAbsent _) => Done (Some (settle req (Ok tt)))
      | Ok (DoInProgress poll_after cookie) =>
          match keep req cookie with
          | Ok req => poll_absent polls req poll_after
          | Err e => Done (Some (settle req (Err e)))
          end
      | Ok (DoReady _ cookie) =>
          match keep req cookie with
          | Ok req => poll_absent polls req MIN_POLL
          | Err e => Done (Some (settle req (Err e)))
          end
      | Ok (DoFailed error) => let (req, r) := absorb req (Err error) in Done (Some (settle req r))
      | Ok (DoUnknown reason cookie) => Done (Some (keep_and req cookie (Err (DUncertain reason))))
      end
  end.
End deadline.

(** Every poll but the last waits at least [MIN_POLL], so this many are never used up. *)
Definition poll_limit (timeout : Z) : nat := Z.to_nat (timeout / MIN_POLL + 2).

(** [None] is running out of polls. *)
Definition converge (req : DriverRequest) (timeout : Z) : dprog (option (Settled DriverOutputs)) :=
  let timeout := Z.min timeout MAX_TIMEOUT in
  let! now := dask DNow in
  let deadline := now + timeout in
  let! put := bounded timeout deadline req (dask (DPut req)) in
  match absorb req put with
  | (req, Err e) => Done (Some (settle req (Err e)))
  | (req, Ok (PutReady outputs cookie)) => Done (Some (keep_and req cookie (Ok outputs)))
  | (req, Ok (PutInProgress poll_after cookie)) =>
      match keep req cookie with
      | Ok req => poll_ready timeout deadline (poll_limit timeout) req poll_after
      | Err e => Done (Some (settle req (Err e)))
      end
  end.

Definition remove (req : DriverRequest) (timeout : Z) : dprog (option (Settled unit)) :=
  let timeout := Z.min timeout MAX_TIMEOUT in
  let! now := dask DNow in
  let deadline := now + timeout in
  let! deleted := bounded timeout deadline req (dask (DDelete req)) in
  match absorb req deleted with
  | (req, Err e) => Done (Some (settle req (Err e)))
  | (req, Ok DeDeleted) => Done (Some (settle req (Ok tt)))
  | (req, Ok (DeInProgress poll_after cookie)) =>
      match keep req cookie with
      | Ok req => poll_absent timeout deadline (poll_limit timeout) req poll_after
      | Err e => Done (Some (settle req (Err e)))
      end
  end.
End run.
