(* ===== verification/DriverRunProofs.v ===== *)
(** * What a driver's run ensures

    Every run settles, however slow the driver is; each call carries the newest cookie; and the
    result says no more than what the driver answered. *)

From Stdlib Require Import Ascii.
From stdpp Require Import base sets strings list.
From S2P Require Import Prelude Effects Strings OrdMap Float64 Json Catalog PlanInputs DriverRun.

Local Open Scope string_scope.
Local Open Scope Z_scope.
Local Open Scope list_scope.

(** ** Runs settle *)

(** The clock does not go back, and has reached the instant that was slept until. [t] is a time
    that has passed. *)
Fixpoint clock_ok (t : Z) (tr : list {c & danswer c}) : Prop :=
  match tr with
  | [] => True
  | e :: tr =>
      match e with
      | existT DNow now => t ≤ now ∧ clock_ok now tr
      | existT (DSleepUntil u) _ => clock_ok (Z.max t u) tr
      | _ => clock_ok t tr
      end
  end.

(** The time that has passed at the end. *)
Fixpoint clock_end (t : Z) (tr : list {c & danswer c}) : Z :=
  match tr with
  | [] => t
  | e :: tr =>
      match e with
      | existT DNow now => clock_end now tr
      | existT (DSleepUntil u) _ => clock_end (Z.max t u) tr
      | _ => clock_end t tr
      end
  end.

Lemma clock_ok_app t tr1 tr2 : clock_ok t (tr1 ++ tr2) ↔ clock_ok t tr1 ∧ clock_ok (clock_end t tr1) tr2.
Proof.
  revert t. induction tr1 as [|[[] x] tr1 IH]; intros now; simpl; [naive_solver|..]; rewrite IH; naive_solver.
Qed.

Lemma clock_end_app t tr1 tr2 : clock_end t (tr1 ++ tr2) = clock_end (clock_end t tr1) tr2.
Proof. revert t. by induction tr1 as [|[[] x] tr1 IH]; intros now; simpl. Qed.

Lemma clock_end_le t tr : clock_ok t tr → t ≤ clock_end t tr.
Proof.
  revert t. induction tr as [|[[] x] tr IH]; intros now; simpl; [lia| |intros ?%IH; lia|auto..].
  intros [? ?%IH]. lia.
Qed.

Lemma absorb_Err {T} info req e : ∃ req' e', absorb info req (Err (A := T) e) = (req', Err e').
Proof.
  destruct e; try by eexists _, _. unfold absorb. destruct (error_split _) as [??].
  destruct (keep _ _ _); by eexists _, _.
Qed.

Section settles.
Context (info : DriverInfo) (timeout deadline : Z).
Abbreviation last := (last_poll timeout deadline).

(** A poll that ends with an answer has slept. *)
Lemma poll_sleeps req wait t tr req' o :
  clock_ok t tr → gives (poll info timeout deadline req wait) tr (req', Ok o) →
  t < last ∧ Z.min (t + MIN_POLL) last ≤ clock_end t tr.
Proof.
  intros Hc (paused & tr1 & tr2 & -> & Hp & Hr)%gives_bind. apply clock_ok_app in Hc as [Hc1 Hc2].
  destruct Hp as (now & tr1' & -> & Hp). destruct Hc1 as [Hnow Hc1].
  cbn [pbind] in Hp. destruct (last <=? now) eqn:El in Hp; [apply Z.leb_le in El|apply Z.leb_gt in El].
  - apply gives_bind in Hp as (e & t1 & t2 & -> & _ & [-> ->]).
    destruct (absorb_Err (T := unit) info req e) as (r' & e' & E). rewrite E in Hr.
    by destruct Hr.
  - destruct Hp as (u & tr1'' & -> & [-> ->]). split; [lia|]. rewrite clock_end_app. simpl in *.
    apply clock_end_le in Hc2. unfold MIN_POLL in *. lia.
Qed.

Lemma poll_ready_settles polls req wait t tr r :
  clock_ok t tr → (1 ≤ polls)%nat → last - t ≤ (Z.of_nat polls - 1) * MIN_POLL →
  gives (poll_ready info timeout deadline polls req wait) tr r → r ≠ None.
Proof.
  revert req wait t tr. induction polls as [|polls IH]; intros req wait t tr Hc Hpolls Hlast; [lia|].
  intros ([req' o] & tr1 & tr2 & -> & Hp & Hr)%gives_bind. apply clock_ok_app in Hc as [Hc1 Hc2].
  destruct o as [[cookie|after cookie|outputs cookie|error|reason cookie]|e]; try by destruct Hr as [_ ->].
  - destruct (keep info req' cookie) as [req''|e]; [|by destruct Hr as [_ ->]].
    destruct (poll_sleeps _ _ _ _ _ _ Hc1 Hp). eapply IH; [exact Hc2| | |exact Hr]; unfold MIN_POLL, secs in *; lia.
  - destruct (absorb info req' (Err error)). by destruct Hr as [_ ->].
Qed.

Lemma poll_absent_settles polls req wait t tr r :
  clock_ok t tr → (1 ≤ polls)%nat → last - t ≤ (Z.of_nat polls - 1) * MIN_POLL →
  gives (poll_absent info timeout deadline polls req wait) tr r → r ≠ None.
Proof.
  revert req wait t tr. induction polls as [|polls IH]; intros req wait t tr Hc Hpolls Hlast; [lia|].
  intros ([req' o] & tr1 & tr2 & -> & Hp & Hr)%gives_bind. apply clock_ok_app in Hc as [Hc1 Hc2].
  destruct o as [[cookie|after cookie|outputs cookie|error|reason cookie]|e]; try by destruct Hr as [_ ->].
  1,2: destruct (keep info req' cookie) as [req''|e]; [|by destruct Hr as [_ ->]];
    destruct (poll_sleeps _ _ _ _ _ _ Hc1 Hp); (eapply IH; [exact Hc2| | |exact Hr]); unfold MIN_POLL, secs in *; lia.
  destruct (absorb info req' (Err error)). by destruct Hr as [_ ->].
Qed.

Lemma poll_limit_enough t now :
  0 ≤ timeout → deadline = now + timeout → now ≤ t →
  (1 ≤ poll_limit timeout)%nat ∧ last - t ≤ (Z.of_nat (poll_limit timeout) - 1) * MIN_POLL.
Proof.
  intros Ht -> Hn. unfold poll_limit, last_poll. set (m := Z.min (timeout / 20) FINAL_POLL_MARGIN).
  assert (0 ≤ m) by (unfold m, FINAL_POLL_MARGIN, secs; pose proof (Z.div_pos timeout 20 Ht eq_refl); lia).
  pose proof (Z.div_pos timeout MIN_POLL Ht eq_refl). pose proof (Z.mul_succ_div_gt timeout MIN_POLL eq_refl).
  generalize dependent (timeout / MIN_POLL). intros q Hq. rewrite Z2Nat.id by lia. split; [lia|].
  unfold MIN_POLL, secs in *. lia.
Qed.
End settles.

(** C24: Every call of a driver settles. Whatever the driver answers and however often it says that
    the operation is still in progress, following a [put] or a [delete] ends with a result, as
    long as the clock does not go back and sleeping until an instant does not end before it:
    waits are at least a second and at most until shortly before the deadline, so the polls are
    bounded by the timeout. *)
Theorem driver_runs_settle (info : DriverInfo) (req : DriverRequest) (timeout t : Z) (tr : list {c & danswer c}) :
  0 ≤ timeout → clock_ok t tr →
  (∀ r, gives (converge info req timeout) tr r → ∃ s, r = Some s)
  ∧ (∀ r, gives (remove info req timeout) tr r → ∃ s, r = Some s).
Proof.
  intros Ht Hc. set (timeout' := Z.min timeout MAX_TIMEOUT).
  assert (0 ≤ timeout') by (unfold timeout', MAX_TIMEOUT, secs; lia).
  assert (∀ now tr1 tr2, clock_ok t (existT DNow now :: tr1 ++ tr2) →
    ∃ t', clock_ok t' tr2 ∧ now ≤ t') as Hafter.
  { intros now tr1 tr2 [_ [H1 H2]%clock_ok_app]. exists (clock_end now tr1). split; [done|]. by apply clock_end_le. }
  split; intros r Hr; apply not_eq_None_Some; destruct Hr as (now & tr' & -> & Hr);
    cbn [pbind] in Hr; cbv zeta in Hr; apply gives_bind in Hr as (x & tr1 & tr2 & -> & _ & Hr); destruct (Hafter _ _ _ Hc) as (t' & Hc' & Hn).
  - destruct (absorb info req x) as [req' [[outputs cookie|after cookie]|e]]; try by destruct Hr as [_ ->].
    destruct (keep info req' cookie); [|by destruct Hr as [_ ->]].
    eapply poll_ready_settles; [exact Hc'| | |exact Hr]; by eapply poll_limit_enough.
  - destruct (absorb info req x) as [req' [[|after cookie]|e]]; try by destruct Hr as [_ ->].
    destruct (keep info req' cookie); [|by destruct Hr as [_ ->]].
    eapply poll_absent_settles; [exact Hc'| | |exact Hr]; by eapply poll_limit_enough.
Qed.

(** ** What a run knows *)

(** What the driver's answers so far say about the operation. *)
Inductive Known :=
| NotCalled
| InProgress
| IsReady (outputs : DriverOutputs)
| IsGone
| HasFailed (error : DriverError)
| HasStopped
| IsLost.

(** With the newest cookie the driver returned, and whether it returned one that cannot be kept. *)
Record Knowledge := mk_Knowledge { kn_cookie : option Cookie; kn_unreadable : bool; kn_state : Known }.

Section knowledge.
Context (info : DriverInfo) (removing : bool).

Definition observation_cookie (o : DriverObservation) : option Cookie :=
  match o with
  | DoAbsent c => if removing then None else c
  | DoInProgress _ c | DoReady _ c | DoUnknown _ c => c
  | DoFailed e => (error_split e).2
  end.

(** The cookie that an answer brought; a resource that is gone leaves none. *)
Definition answer_cookie (c : DCall) : danswer c → option Cookie :=
  match c with
  | DPut _ => λ a, match a with
      | Some (Ok (PutReady _ c)) | Some (Ok (PutInProgress _ c)) => c | Some (Err e) => (error_split e).2 | None => None end
  | DDelete _ => λ a, match a with
      | Some (Ok (DeInProgress _ c)) => c | Some (Err e) => (error_split e).2 | _ => None end
  | DGet _ => λ a, match a with
      | Some (Ok o) => observation_cookie o | Some (Err e) => (error_split e).2 | None => None end
  | DCancel _ => λ a, (stopped a).2
  | _ => λ _, None
  end.

Definition answer_state (k : Known) (c : DCall) : danswer c → Known :=
  match c with
  | DPut _ => λ a, match a with
      | Some (Ok (PutReady o _)) => IsReady o | Some (Ok (PutInProgress _ _)) => InProgress
      | Some (Err e) => HasFailed (error_split e).1 | None => IsLost end
  | DDelete _ => λ a, match a with
      | Some (Ok DeDeleted) => IsGone | Some (Ok (DeInProgress _ _)) => InProgress
      | Some (Err e) => HasFailed (error_split e).1 | None => IsLost end
  | DGet _ => λ a, match a with
      | Some (Ok (DoAbsent _)) => IsGone
      | Some (Ok (DoInProgress _ _)) => InProgress
      | Some (Ok (DoReady o _)) => if removing then InProgress else IsReady o
      | Some (Ok (DoFailed e)) | Some (Err e) => HasFailed (error_split e).1
      | Some (Ok (DoUnknown _ _)) | None => IsLost end
  | DCancel _ => λ a, if (stopped a).1 then HasStopped else IsLost
  | _ => λ _, k
  end.

Definition readable (c : Cookie) : bool := is_ok (check_cookie info c).

Definition learn_cookie (k : Knowledge) (c : option Cookie) : Knowledge :=
  match c with
  | None => k
  | Some c => if readable c then mk_Knowledge (Some c) (kn_unreadable k) (kn_state k)
              else mk_Knowledge (kn_cookie k) true (kn_state k)
  end.

Definition learn (k : Knowledge) (c : DCall) (a : danswer c) : Knowledge :=
  learn_cookie (mk_Knowledge (kn_cookie k) (kn_unreadable k) (answer_state (kn_state k) c a)) (answer_cookie c a).

(** The calls a run may make of [req]: one that changes something first and only once; polls while
    it is in progress; a cancellation when nothing is known of its end; each with the newest
    cookie, and none after a cookie that cannot be kept. *)
Definition may_call (req : DriverRequest) (k : Knowledge) (c : DCall) : Prop :=
  let newest req' := req' = set_cookie req (kn_cookie k) ∧ kn_unreadable k = false in
  match c with
  | DNow | DSleepUntil _ => True
  | DPut req' => removing = false ∧ kn_state k = NotCalled ∧ newest req'
  | DDelete req' => removing = true ∧ kn_state k = NotCalled ∧ newest req'
  | DGet req' => kn_state k = InProgress ∧ newest req'
  | DCancel req' =>
      cp_cancel (dn_capabilities info) = true ∧ newest req'
      ∧ match kn_state k with NotCalled | InProgress | IsLost => True | _ => False end
  | _ => False
  end.

(** The error that a run with this timeout may settle on. *)
Definition error_told (timeout : Z) (k : Knowledge) (e : DriverError) : Prop :=
  if kn_unreadable k then ∃ m, e = DUncertain m
  else match kn_state k with
       | NotCalled | InProgress | HasStopped => e = DTimeout timeout
       | HasFailed e' => e = e'
       | IsLost => e = DTimeout timeout ∨ ∃ m, e = DUncertain m
       | IsGone => removing = false ∧ ∃ m, e = DUncertain m
       | IsReady _ => False
       end.

Definition tells {T} (success : T → Known) (timeout : Z) (k : Knowledge) (s : Settled T) : Prop :=
  st_cookie s = kn_cookie k
  ∧ match st_result s with
    | Ok t => kn_unreadable k = false ∧ kn_state k = success t
    | Err e => error_told timeout k e
    end.
End knowledge.

Lemma set_cookie_twice req c c' : set_cookie (set_cookie req c) c' = set_cookie req c'.
Proof. done. Qed.

Lemma set_cookie_same req : set_cookie req (rq_cookie req) = req.
Proof. by destruct req. Qed.

Section told.
Context (info : DriverInfo) (removing : bool) (req0 : DriverRequest) (timeout deadline : Z).

(** The request of a run that goes on. *)
Abbreviation current k req := (req = set_cookie req0 (kn_cookie k)).
Abbreviation goes_on k req := (current k req ∧ kn_unreadable k = false).

Lemma keep_learn k req cookie :
  goes_on k req →
  match keep info req cookie with
  | Ok req' => goes_on (learn_cookie info k cookie) req'
  | Err e => current (learn_cookie info k cookie) req ∧ kn_unreadable (learn_cookie info k cookie) = true ∧ ∃ m, e = DUncertain m
  end.
Proof.
  intros [-> Hu]. destruct cookie as [c|]; [|done]. unfold keep, learn_cookie, readable.
  destruct (check_cookie info c); simpl; [done|]. split; [done|]. by eauto.
Qed.

Lemma learn_cookie_state k c : kn_state (learn_cookie info k c) = kn_state k.
Proof. destruct c as [c|]; [|done]. unfold learn_cookie. by destruct (readable info c). Qed.

(** A failure settles on what it says, or on its cookie that cannot be kept. *)
Lemma absorb_told {T} (success : T → Known) k req e :
  goes_on k req →
  let k' := learn_cookie info k (error_split e).2 in
  error_told removing timeout (mk_Knowledge (kn_cookie k') false (kn_state k)) (error_split e).1 →
  let (req', r) := absorb info req (Err e) in tells removing success timeout k' (settle req' r).
Proof.
  intros Hk k' He. pose proof (keep_learn k req (error_split e).2 Hk) as Hkeep. fold k' in Hkeep.
  assert (absorb (T := T) info req (Err e)
    = match keep info req (error_split e).2 with Ok req' => (req', Err (error_split e).1) | Err e' => (req, Err e') end) as ->.
  { by destruct e. }
  unfold tells, error_told in *. rewrite <-(learn_cookie_state k (error_split e).2) in He. fold k' in He.
  destruct (keep _ _ _) as [req'|e'].
  - destruct Hkeep as [-> Hu]. rewrite Hu. by split.
  - destruct Hkeep as (-> & Hu & m & ->). rewrite Hu. split; [done|]. by exists m.
Qed.

Lemma keep_and_told {T} (success : T → Known) k req cookie (r : result T DriverError) :
  goes_on k req →
  match r with Ok t => kn_state k = success t | Err e => error_told removing timeout (mk_Knowledge None false (kn_state k)) e end →
  tells removing success timeout (learn_cookie info k cookie) (keep_and info req cookie r).
Proof.
  intros Hk Hr. pose proof (keep_learn k req cookie Hk) as Hkeep. pose proof (learn_cookie_state k cookie) as Hs.
  unfold keep_and, tells, error_told in *. destruct (keep info req cookie) as [req'|e].
  - destruct Hkeep as [-> Hu]. split; [done|]. simpl. rewrite Hu, Hs. by destruct r.
  - destruct Hkeep as (-> & Hu & m & ->). simpl. rewrite Hu. eauto.
Qed.

(** *** Runs follow the driver *)

Abbreviation run_of := (follows (may_call info removing req0) (learn info removing)).

(** A call of [req] failed with [e]. *)
Definition failed (req : DriverRequest) (k : Knowledge) (e : DriverError) : Prop :=
  ∃ k1, goes_on k1 req ∧ k = learn_cookie info k1 (error_split e).2
    ∧ error_told removing timeout (mk_Knowledge (kn_cookie k) false (kn_state k1)) (error_split e).1.

(** It was answered with a cookie, after which the operation is in this state. *)
Definition answered_with (req : DriverRequest) (k : Knowledge) (state : Known) (cookie : option Cookie) : Prop :=
  ∃ k1, goes_on k1 req ∧ kn_state k1 = state ∧ k = learn_cookie info k1 cookie.

Definition answer_told {T} (P : Knowledge → T → Prop) (req : DriverRequest) (k : Knowledge)
    (a : option (result T DriverError)) : Prop :=
  match a with
  | None => goes_on k req ∧ kn_state k = IsLost
  | Some (Err e) => failed req k e
  | Some (Ok t) => P k t
  end.

Lemma failed_answer req k e :
  goes_on k req →
  failed req (learn_cookie info (mk_Knowledge (kn_cookie k) (kn_unreadable k) (HasFailed (error_split e).1)) (error_split e).2) e.
Proof.
  intros [-> Hu]. rewrite Hu. exists (mk_Knowledge (kn_cookie k) false (HasFailed (error_split e).1)).
  by split_and!.
Qed.

Lemma timed_out_told k req :
  goes_on k req → match kn_state k with NotCalled | InProgress | IsLost => True | _ => False end →
  run_of (failed req) k (timed_out info timeout req).
Proof.
  intros Hk Hs. unfold timed_out. destruct (cp_cancel _) eqn:Ec; simpl.
  - split; [split_and!; [done|apply Hk..|done]|]. intros a. unfold learn. simpl. destruct (stopped a) as [b cookie].
    exists (mk_Knowledge (kn_cookie k) (kn_unreadable k) (if b then HasStopped else IsLost)).
    destruct b, cookie as [c|]; simpl; split_and!; try done; try apply Hk; unfold error_told, unconfirmed; simpl; eauto.
  - exists k. split; [done|]. split; [done|]. unfold error_told. simpl. destruct (kn_state k); try done. by left.
Qed.

Lemma bounded_told {T} (P : Knowledge → T → Prop) (call : dprog (option (result T DriverError))) k req :
  goes_on k req → kn_state k = NotCalled ∨ kn_state k = InProgress →
  run_of (answer_told P req) k call →
  run_of (λ k r, answer_told P req k (Some r)) k (bounded info timeout deadline req call).
Proof.
  intros Hk Hs Hcall. unfold bounded. cbn [pbind Effects.ask follows]. split; [done|]. intros now.
  replace (learn info removing k DNow now) with k by (by destruct k).
  destruct (deadline <=? now).
  - eapply follows_bind; [apply timed_out_told; [done|by destruct Hs as [-> | ->]]|]. by intros k' e He.
  - eapply follows_bind; [exact Hcall|]. intros k' [r|] Ha; [done|]. destruct Ha as [Hk' Hs'].
    eapply follows_bind; [apply timed_out_told; [done|by rewrite Hs']|]. by intros k'' e He.
Qed.

Lemma pause_told k req wait :
  goes_on k req → kn_state k = InProgress →
  run_of (λ k' r, answer_told (λ k' _, k' = k) req k' (Some r)) k (pause info timeout deadline req wait).
Proof.
  intros Hk Hs. unfold pause. cbn [pbind Effects.ask follows]. split; [done|]. intros now.
  replace (learn info removing k DNow now) with k by (by destruct k).
  destruct (last_poll timeout deadline <=? now).
  - eapply follows_bind; [apply timed_out_told; [done|by rewrite Hs]|]. by intros k' e He.
  - cbn [pbind Effects.ask follows]. split; [done|]. intros []. by destruct k.
Qed.

(** What a poll says of the operation. *)
Definition poll_state (o : DriverObservation) : Known := answer_state removing InProgress (DGet req0) (Some (Ok o)).

Definition poll_told (k : Knowledge) (x : DriverRequest * result DriverObservation DriverError) : Prop :=
  match x.2 with
  | Ok o => answered_with x.1 k (poll_state o) (observation_cookie removing o)
  | Err e => rq_cookie x.1 = kn_cookie k ∧ error_told removing timeout k e
  end.

Lemma failed_told U {T} (success : T → Known) req k e :
  failed req k e →
  ∃ req' e', absorb info req (Err (A := U) e) = (req', Err e') ∧ tells removing success timeout k (settle req' (Err e')).
Proof.
  intros (k1 & Hk & -> & He). destruct (absorb_Err (T := U) info req e) as (req' & e' & E). exists req', e'.
  split; [done|]. pose proof (absorb_told (λ _ : U, IsGone) k1 req e Hk He) as Ht. cbv zeta in Ht. by rewrite E in Ht.
Qed.

Lemma poll_follows k req wait :
  goes_on k req → kn_state k = InProgress → run_of poll_told k (poll info timeout deadline req wait).
Proof.
  intros Hk Hs. unfold poll. eapply follows_bind; [by apply pause_told|]. intros k' [[]|e] Hp; cbn in Hp.
  - subst k'. cbn [absorb]. eapply follows_bind;
      [apply (bounded_told (λ k o, answered_with req k (poll_state o) (observation_cookie removing o))); [done|by right|]|].
    + cbn [Effects.ask follows]. split; [by split_and!; [|apply Hk..]|]. intros [[o|e]|]; unfold learn; cbn.
      * exists (mk_Knowledge (kn_cookie k) (kn_unreadable k) (poll_state o)). split_and!; [apply Hk..|done|done].
      * by apply failed_answer.
      * split; [|done]. apply Hk.
    + intros k' [o|e] Ha; [exact Ha|].
      by destruct (failed_told DriverObservation (λ _ : unit, IsGone) _ _ _ Ha) as (req' & e' & -> & ?).
  - by destruct (failed_told unit (λ _ : unit, IsGone) _ _ _ Hp) as (req' & e' & -> & ?).
Qed.
End told.

Section loops.
Context (info : DriverInfo) (req0 : DriverRequest) (timeout deadline : Z).

Abbreviation current k req := (req = set_cookie req0 (kn_cookie k)).
Abbreviation goes_on k req := (current k req ∧ kn_unreadable k = false).
Abbreviation run_of removing := (follows (may_call info removing req0) (learn info removing)).

Ltac loop :=
  match goal with
  | Hk : _ ∧ kn_unreadable ?k1 = false, IH : ∀ _ _ _, _ |- context [keep ?info ?req' ?cookie] =>
      let Hkeep := fresh in
      pose proof (keep_learn info req0 k1 req' cookie Hk) as Hkeep; destruct (keep info req' cookie) as [req''|e];
      [apply IH; [done|by rewrite learn_cookie_state]
      |destruct Hkeep as (-> & Hu & m & ->); cbn [follows]; unfold tells, error_told; rewrite Hu; cbn; by eauto]
  | Hk : _ ∧ kn_unreadable ?k1 = false, Hs : kn_state ?k1 = HasFailed _ |- context [absorb ?info ?req' (Err ?error)] =>
      match goal with |- context [tells ?removing ?success _ _] =>
        let Hab := fresh in
        pose proof (absorb_told info removing req0 timeout success k1 req' error Hk) as Hab; cbv zeta in Hab;
        destruct (absorb info req' (Err error)) as [? ?]; apply Hab; unfold error_told; cbn; by rewrite Hs
      end
  | Hk : _ ∧ kn_unreadable ?k1 = false, Hs : kn_state ?k1 = _ |- context [keep_and] =>
      eapply keep_and_told; [exact Hk|]; unfold error_told; cbn; rewrite Hs; by eauto
  end.

Lemma poll_ready_told polls k req wait :
  goes_on k req → kn_state k = InProgress →
  run_of false (λ k r, match r with Some s => tells false IsReady timeout k s | None => kn_state k = InProgress end) k
    (poll_ready info timeout deadline polls req wait).
Proof.
  revert k req wait. induction polls as [|polls IH]; intros k req wait Hk Hs; [done|].
  cbn [poll_ready]. eapply follows_bind; [by apply poll_follows|]. intros k' [req' [o|e]] Hp; [|exact Hp].
  destruct Hp as (k1 & Hk1 & Hs1 & ->). destruct o; cbn -[absorb keep] in *; loop.
Qed.

Lemma poll_absent_told polls k req wait :
  goes_on k req → kn_state k = InProgress →
  run_of true (λ k r, match r with Some s => tells true (λ _ : unit, IsGone) timeout k s | None => kn_state k = InProgress end) k
    (poll_absent info timeout deadline polls req wait).
Proof.
  revert k req wait. induction polls as [|polls IH]; intros k req wait Hk Hs; [done|].
  cbn [poll_absent]. eapply follows_bind; [by apply poll_follows|]. intros k' [req' [o|e]] Hp; [|exact Hp].
  destruct Hp as (k1 & Hk1 & Hs1 & ->). destruct o; cbn -[absorb keep] in *; try loop.
  destruct Hk1 as [-> Hu]. by split.
Qed.

(** The first call, and what follows it. *)
Lemma first_call_told {T} removing (P : Knowledge → T → Prop) (call : dprog (option (result T DriverError))) :
  follows (may_call info removing req0) (learn info removing) (answer_told info removing req0 timeout P req0)
    (mk_Knowledge (rq_cookie req0) false NotCalled) call →
  run_of removing (λ k r, answer_told info removing req0 timeout P req0 k (Some r))
    (mk_Knowledge (rq_cookie req0) false NotCalled) (bounded info timeout deadline req0 call).
Proof. intros Hcall. apply bounded_told; [by rewrite set_cookie_same|by left|done]. Qed.
End loops.

Lemma converge_follows (info : DriverInfo) (req : DriverRequest) (timeout : Z) :
  let timeout' := Z.min timeout MAX_TIMEOUT in
  let start := mk_Knowledge (rq_cookie req) false NotCalled in
  follows (may_call info false req) (learn info false)
    (λ k r, match r with Some s => tells false IsReady timeout' k s | None => kn_state k = InProgress end)
    start (converge info req timeout).
Proof.
  intros timeout' start. cbn [converge pbind Effects.ask follows]. split; [done|]. intros now.
  change (learn _ _ start DNow now) with start.
  eapply follows_bind; [apply (first_call_told info req timeout' _ false
    (λ k o, match o with
      | PutReady o c => answered_with info req req k (IsReady o) c
      | PutInProgress _ c => answered_with info req req k InProgress c end))|].
  - cbn [Effects.ask follows]. split; [by destruct req|]. intros [[[o c|after c]|e]|]; cbn.
    1,2: eexists (mk_Knowledge _ _ _); split_and!; [..|reflexivity]; try done; by destruct req.
    + apply (failed_answer info false req timeout' req start). by rewrite set_cookie_same.
    + by destruct req.
  - intros k [[o c|after c]|e] Ha.
    + destruct Ha as (k1 & Hk & Hs & ->). by eapply keep_and_told.
    + destruct Ha as (k1 & Hk & Hs & ->). cbn -[keep]. pose proof (keep_learn info req k1 req c Hk) as Hkeep.
      destruct (keep info req c) as [req'|e].
      * apply poll_ready_told; [done|]. by rewrite learn_cookie_state.
      * destruct Hkeep as (-> & Hu & m & ->). cbn [follows]. unfold tells, error_told. rewrite Hu. cbn. eauto.
    + by destruct (failed_told info false req timeout' PutOutcome IsReady _ _ _ Ha) as (req' & e' & -> & ?).
Qed.

Lemma remove_follows (info : DriverInfo) (req : DriverRequest) (timeout : Z) :
  let timeout' := Z.min timeout MAX_TIMEOUT in
  let start := mk_Knowledge (rq_cookie req) false NotCalled in
  follows (may_call info true req) (learn info true)
    (λ k r, match r with Some s => tells true (λ _, IsGone) timeout' k s | None => kn_state k = InProgress end)
    start (remove info req timeout).
Proof.
  intros timeout' start. cbn [remove pbind Effects.ask follows]. split; [done|]. intros now.
  change (learn _ _ start DNow now) with start.
  eapply follows_bind; [apply (first_call_told info req timeout' _ true
    (λ k o, match o with
      | DeDeleted => answered_with info req req k IsGone None
      | DeInProgress _ c => answered_with info req req k InProgress c end))|].
  - cbn [Effects.ask follows]. split; [by destruct req|]. intros [[[|after c]|e]|]; cbn.
    1,2: eexists (mk_Knowledge _ _ _); split_and!; [..|reflexivity]; try done; by destruct req.
    + apply (failed_answer info true req timeout' req start). by rewrite set_cookie_same.
    + by destruct req.
  - intros k [[|after c]|e] Ha.
    + destruct Ha as (k1 & [Hk Hu] & Hs & ->). cbn. split; [|done]. by rewrite Hk.
    + destruct Ha as (k1 & Hk & Hs & ->). cbn -[keep]. pose proof (keep_learn info req k1 req c Hk) as Hkeep.
      destruct (keep info req c) as [req'|e].
      * apply poll_absent_told; [done|]. by rewrite learn_cookie_state.
      * destruct Hkeep as (-> & Hu & m & ->). cbn [follows]. unfold tells, error_told. rewrite Hu. cbn. eauto.
    + by destruct (failed_told info true req timeout' DeleteOutcome (λ _ : unit, IsGone) _ _ _ Ha) as (req' & e' & -> & ?).
Qed.

(** C23: A run says of an operation no more than its driver did. The call that changes something is
    made once and first; while it is in progress the resource is polled; a driver is asked to
    cancel only when it can and nothing is known of the end of the operation; every call carries
    the newest cookie the driver returned, and none is made after a cookie that cannot be kept.
    The run succeeds exactly as the driver last answered, ready with these outputs or gone. An
    error is the one the driver reported; a timeout when nothing was called, the operation is in
    progress or the driver confirmed that it stopped; and uncertain, or a timeout, whenever the
    answers leave the outcome open. The cookie that is kept is the newest one. *)
Theorem driver_runs_tell (info : DriverInfo) (req : DriverRequest) (timeout : Z) :
  let timeout' := Z.min timeout MAX_TIMEOUT in
  let start := mk_Knowledge (rq_cookie req) false NotCalled in
  follows (may_call info false req) (learn info false)
    (λ k r, match r with Some s => tells false IsReady timeout' k s | None => kn_state k = InProgress end)
    start (converge info req timeout)
  ∧ follows (may_call info true req) (learn info true)
    (λ k r, match r with Some s => tells true (λ _, IsGone) timeout' k s | None => kn_state k = InProgress end)
    start (remove info req timeout).
Proof. split; [apply converge_follows|apply remove_follows]. Qed.
