(* ===== verification/Executor.v ===== *)
(** * The executor ([crates/engine/src/executor.rs])

    What runs a job in the server's process: it finds the job's driver, authorizes and reads each
    secret the job needs, gets credentials for its cloud account, has the driver plan the change,
    checks the plan against the deployment's permits, calls the driver, and writes its secret
    outputs to the secret store. A program of the executor carries the secret values it has
    registered with its log; lines and failures have them redacted. *)

From Stdlib Require Import Ascii.
From stdpp Require Import base sets strings list.
From S2P Require Import Prelude Effects Strings OrdMap Ids Float64 Json Model Criteria Placeholder Catalog Redact Artifacts Db Identity Deletion PlanInputs CatalogStore PlanTask PlanChecks Recover DriverRun.

Local Open Scope string_scope.
Local Open Scope list_scope.

(** ** What the executor calls *)

Inductive SecretError :=
| SeNotFound (store reference : string) (version : option string)
| SeInvalidReference (reference reason : string)
| SeMissingKey (key_id : string)
| SeDecrypt (store reference : string)
| SeInvalidKey (what : string)
| SeStore (e : StoreError).

Inductive CloudError :=
| CeInvalid (message : string)
| CeRejected (message : string)
| CeUnavailable (message : string)
| CeExpiring (message : string)
| CeThrottled (message : string) (retry_after : option Z).

(** Expiry times are nanoseconds. *)
Record AwsCredentials := mk_AwsCredentials {
  aws_access_key_id : string; aws_secret_access_key : string; aws_session_token : option string;
  aws_region : option string; aws_expires_at : option Z
}.

Inductive Latest := LMissing | LUnversioned | LVersion (version : string).
Inductive Lookup := LkFound (digest : string) | LkMissing | LkPrivate | LkUnlisted | LkUnresolved.

(** A driver that is ready to be called: one of the server's, or an external one with its token. *)
Inductive Handle :=
| InProcess (id : string)
| External (id target : string) (token : option string).

Inductive XCall :=
| XNow
| XDriverRecord (org id : string)
| XDefinition (org id : string)
| XAccount (org id : string)
| XAuthorize (org app env : string) (owner : SecretOwner) (r : SecretRef)
| XRead (r : SecretRef)
| XWrite (name value : string)
| XSeal (aad plain : string)
| XOpen (aad : string) (sealed : Sealed)
| XGeneration
| XResolve (account : CloudAccount) (read_at window : Z)
| XIdentity (credentials : AwsCredentials)
| XPermit (q : PermitRequest)
| XClient                                             (* whether an HTTP client is there *)
| XDefaultClient
| XOpenHttp (info : DriverInfo) (target : string) (token : option string)
| XDrive (d : Handle) (c : DCall)
| XLogFull
| XLog (level line : string)
| XObjectExists (credentials : AwsCredentials) (v : S3Version)
| XImageExists (credentials : AwsCredentials) (i : EcrDigest)
| XLatestVersion (credentials : AwsCredentials) (o : S3Object)
| XImageDigest (credentials : AwsCredentials) (i : EcrImage)
| XLookup (i : OciImage).

Definition xanswer (c : XCall) : Type :=
  match c with
  | XNow | XGeneration => Z
  | XDriverRecord _ _ => result (option DriverRecord) StoreError
  | XDefinition _ _ => result (option ResourceDefinition) StoreError
  | XAccount _ _ => result (option CloudAccount) StoreError
  | XAuthorize _ _ _ _ _ => result unit StoreError
  | XRead _ => result string SecretError
  | XWrite _ _ => result SecretRef SecretError
  | XSeal _ _ => Sealed
  | XOpen _ _ => result (option string) SecretError
  | XResolve _ _ _ => result AwsCredentials CloudError
  | XIdentity _ => result string CloudError
  | XPermit _ => option (result unit string)
  | XClient | XLogFull => bool
  | XDefaultClient | XOpenHttp _ _ _ => result unit string
  | XDrive _ c => danswer c
  | XLog _ _ => unit
  | XObjectExists _ _ | XImageExists _ _ => result bool CloudError
  | XLatestVersion _ _ => result Latest CloudError
  | XImageDigest _ _ => result (option string) CloudError
  | XLookup _ => result Lookup CloudError
  end.

Abbreviation xprog := (Effects.prog xanswer).
Abbreviation xask := (Effects.ask (answer := xanswer)).

(** A driver's program, run against a driver. *)
Fixpoint embed {A} (d : Handle) (p : dprog A) : xprog A :=
  match p with
  | Done a => Done a
  | Ask c k => Ask (XDrive d c) (λ x, embed d (k x))
  end.

(** ** Programs of the executor *)

(** They carry the redactor of their log, and may fail. *)
Definition exec (A : Type) : Type := Redactor → xprog (Redactor * result A ExecFailure).

Definition eret {A} (a : A) : exec A := λ log, Done (log, Ok a).
Definition efail {A} (f : ExecFailure) : exec A := λ log, Done (log, Err f).
Definition eresult {A} (r : result A ExecFailure) : exec A := λ log, Done (log, r).
Definition ebind {A B} (m : exec A) (k : A → exec B) : exec B :=
  λ log, let! x := m log in match x.2 with Ok a => k a x.1 | Err f => Done (x.1, Err f) end.
Definition ecall (c : XCall) : exec (xanswer c) := λ log, let! x := xask c in Done (log, Ok x).
Definition emap_err {A} (g : ExecFailure → ExecFailure) (m : exec A) : exec A :=
  λ log, let! x := m log in Done (x.1, map_err g x.2).
Definition edrive {A} (d : Handle) (p : dprog A) : exec A := λ log, let! a := embed d p in Done (log, Ok a).

Declare Scope exec_scope.
Delimit Scope exec_scope with exec.
Notation "'let^' x := m 'in' k" := (ebind m (λ x, k))
  (at level 10, x pattern, m at level 200, k at level 200) : exec_scope.
Open Scope exec_scope.

(** Reading the driver state that was sealed. *)
Class CookieReader := read_cookie : string → option Cookie.

Section executor.
Context `{Libraries} `{CookieReader}.
(** The drivers in the process, the ID of the primary secret store, and whether images in other
    registries are read. *)
Context (drivers : string → option DriverInfo) (store_id : string) (registry : bool).

Definition json_string (v : string) : string := json_text (Str v).

(** Redaction always finishes ([Redact.redact_clean]). *)
Definition redacted (log : Redactor) (text : string) : string := option_default ε (redact log text).

Definition register (values : list string) : exec unit := λ log, Done (redactor_add json_string log values, Ok tt).

Definition log_write (level text : string) : exec unit :=
  λ log, let! full := xask XLogFull in
    if full : bool then Done (log, Ok tt) else let! _ := xask (XLog level (redacted log text)) in Done (log, Ok tt).

Definition redact_failure (log : Redactor) (f : ExecFailure) : ExecFailure :=
  match f with
  | Permanent e => Permanent (redacted log e)
  | Uncertain error cookie => Uncertain (redacted log error) cookie
  | Retryable error retry_after => Retryable (redacted log error) retry_after
  end.

(** A program with a log of its own, whose failure is handed back redacted. *)
Definition run_redacted {A} (m : exec A) : xprog (result A ExecFailure) :=
  let! x := m [] in Done (map_err (redact_failure x.1) x.2).

(** *** Failures *)

Definition store_failure (e : StoreError) (what : string) : ExecFailure :=
  match e with
  | Forbidden m => Permanent m
  | NotFound _ => Permanent (what +:+ ": " +:+ store_error_show e)
  | other => Retryable (what +:+ ": " +:+ store_error_show other) None
  end.

Definition secret_error_show (e : SecretError) : string :=
  match e with
  | SeNotFound store reference version =>
      "secret `" +:+ reference +:+ "`" +:+ match version with Some v => " version " +:+ v | None => ε end
      +:+ " not found in store `" +:+ store +:+ "`"
  | SeInvalidReference reference reason => "invalid secret reference `" +:+ reference +:+ "`: " +:+ reason
  | SeMissingKey key_id => "master key `" +:+ key_id +:+ "` is not available"
  | SeDecrypt store reference => "secret `" +:+ reference +:+ "` in store `" +:+ store +:+ "` could not be decrypted"
  | SeInvalidKey what => "invalid master key: " +:+ what
  | SeStore e => store_error_show e
  end.

Definition secret_failure (e : SecretError) : ExecFailure :=
  match e with
  | SeStore e => store_failure e "the secret could not be read"
  | other => Permanent (secret_error_show other)
  end.

Definition cloud_failure (e : CloudError) : ExecFailure :=
  match e with
  | CeUnavailable m => Retryable m None
  | CeThrottled message retry_after => Retryable message retry_after
  | CeInvalid m | CeRejected m | CeExpiring m => Permanent m
  end.

Fixpoint driver_failure (e : DriverError) : ExecFailure :=
  match e with
  | DInvalid _ _ | DUnsupported _ | DConflict _ => Permanent (driver_error_show e)
  | DTransient message retry_after => Retryable message retry_after
  | DTimeout _ | DUncertain _ => uncertain (driver_error_show e)
  | DWithCookie error _ => driver_failure error
  end.

(** A failed mutation: once the driver accepted it, it may have left changes behind. *)
Definition mutation_failure (e : DriverError) (accepted : bool) : ExecFailure :=
  let accepted_then error := uncertain ("the driver accepted the change, then failed: " +:+ error) in
  match driver_failure e with
  | Uncertain error cookie => Uncertain error cookie
  | Permanent error => if accepted then accepted_then error else Permanent error
  | Retryable error retry_after => if accepted then accepted_then error else Retryable error retry_after
  end.

Definition with_cookie (f : ExecFailure) (newer : option Sealed) : ExecFailure :=
  match f with
  | Uncertain error cookie => Uncertain error (match newer with Some c => Some c | None => cookie end)
  | f => f
  end.

Definition prefixed (f : ExecFailure) (what : string) : ExecFailure :=
  match f with
  | Permanent m => Permanent (what +:+ ": " +:+ m)
  | Retryable error retry_after => Retryable (what +:+ ": " +:+ error) retry_after
  | Uncertain error cookie => Uncertain (what +:+ ": " +:+ error) cookie
  end.

(** *** Inputs *)

(** Every secret reference in a resolved value. *)
Fixpoint refs_in (r : Resolved) : list SecretRef :=
  match r with
  | RValue _ => []
  | RSecret e => secret_references e
  | RArray items => mjoin (refs_in <$> items)
  | RObject fields => mjoin ((λ kf, refs_in kf.2) <$> fields)
  end.

Abbreviation Secrets := (list (SecretRef * string)).

Fixpoint render (read : Secrets) (r : Resolved) : result Value ExecFailure :=
  match r with
  | RValue v => Ok v
  | RSecret e =>
      result_map Str (secret_render (λ r, ok_or (bt_get r read) (Permanent ("secret `" +:+ sr_reference r +:+ "` was not read"))) e)
  | RArray items => result_map Arr (try_map (render read) items)
  | RObject fields =>
      result_map (λ l, Obj (im_of_list l)) (try_map (λ kf, result_map (pair kf.1) (render read kf.2)) fields)
  end.

(** The path of every secret inside. *)
Fixpoint secret_paths_at (path : list string) (r : Resolved) : list (list string) :=
  match r with
  | RValue _ => []
  | RSecret _ => [path]
  | RArray items =>
      (fix go (i : nat) (items : list Resolved) : list (list string) :=
         match items with [] => [] | item :: items => secret_paths_at (path ++ [show_nat i]) item ++ go (S i) items end) O items
  | RObject fields => mjoin ((λ kf, secret_paths_at (path ++ [kf.1]) kf.2) <$> fields)
  end.
Definition secret_paths (r : Resolved) : list (list string) := secret_paths_at [] r.

Definition object (read : Secrets) (r : Resolved) (what : string) : result jmap ExecFailure :=
  let? v := render read r in
  match v with
  | Obj m => Ok m
  | Null => Ok []
  | _ => Err (Permanent (what +:+ " is not an object"))
  end.

(** The resource inputs without a secret inside, and those that resolved from secrets. *)
Definition split_inputs (read : Secrets) (r : Resolved) : result (jmap * jmap) ExecFailure :=
  match r with
  | RValue (Obj plain) => Ok (plain, [])
  | RValue Null => Ok ([], [])
  | RObject fields =>
      try_fold (λ acc kf,
        let? v := render read kf.2 in
        Ok (if is_tainted kf.2 then (acc.1, im_insert kf.1 v acc.2) else (im_insert kf.1 v acc.1, acc.2)))
        ([], []) fields
  | _ => Err (Permanent "the resource inputs are not an object")
  end.

Definition secret_text (v : Value) : string := match v with Str s => s | other => json_text other end.

Fixpoint secret_leaves (v : Value) : list string :=
  match v with
  | Str s => [s]
  | Arr items => mjoin (secret_leaves <$> items)
  | Obj fields => mjoin ((λ kf, secret_leaves kf.2) <$> fields)
  | _ => []
  end.
Definition secret_texts (v : Value) : list string :=
  secret_text v :: match v with Arr _ | Obj _ => secret_leaves v | _ => [] end.

(** The sources of a job recorded before they were tracked. *)
Definition inferred_source (r : SecretRef) : SecretSource :=
  match strip_prefix "resources/" (sr_reference r) ≫= split_once "/" with
  | Some (guresid, _) => match Guresid_new guresid with Ok g => FromOutput g | Err _ => FromValues end
  | None => FromValues
  end.
Definition inferred_sources (inputs : JobInputs) : list (SecretRef * SecretSource) :=
  (λ r, (r, inferred_source r)) <$> bs_of_list (refs_in (ji_secrets inputs) ++ refs_in (ji_resource inputs)).
Definition sources_of (inputs : JobInputs) : list (SecretRef * SecretSource) :=
  match ji_sources inputs with [] => inferred_sources inputs | l => l end.

(** *** Secrets *)

Section job.
Context (job : ProvisionJob).
Abbreviation ctx := (pj_context job).

(** Succeeds when any of the owners may use the reference here. *)
Fixpoint authorize_any (c : JobContext) (owners : list SecretOwner) (r : SecretRef) (refused : option string) : exec unit :=
  match owners with
  | [] => efail (Permanent (option_default ("secret `" +:+ sr_reference r +:+ "` may not be used here") refused))
  | owner :: owners =>
      let^ allowed := ecall (XAuthorize (jc_org c) (jc_app c) (jc_env c) owner r) in
      match allowed with
      | Ok _ => eret tt
      | Err (Forbidden e) => authorize_any c owners r (Some e)
      | Err e => efail (store_failure e "secret use could not be authorized")
      end
  end.
Definition authorize (c : JobContext) (owners : list SecretOwner) (r : SecretRef) : exec unit := authorize_any c owners r None.

Definition read (r : SecretRef) : exec string :=
  if negb (String.eqb (sr_store r) store_id) then
    efail (Permanent ("secret store `" +:+ sr_store r +:+ "` cannot be read yet; only `" +:+ store_id +:+ "` can"))
  else
    let^ found := ecall (XRead r) in
    match found with
    | Ok v => eret v
    | Err (SeStore e) =>
        efail (Retryable ("secret `" +:+ sr_reference r +:+ "` in store `" +:+ sr_store r +:+ "` could not be read: "
          +:+ store_error_show e) None)
    | Err other => efail (secret_failure other)
    end.

(** Authorizes and reads a reference, and registers its value. *)
Definition use_secret (c : JobContext) (owners : list SecretOwner) (r : SecretRef) : exec string :=
  let^ _ := authorize c owners r in
  let^ value := read r in
  let^ _ := register [value] in
  eret value.

(** Whether the definition still matches the resource. *)
Definition definition_matches (c : JobContext) (id : string) (d : Descriptor) : exec unit :=
  let^ found := ecall (XDefinition (jc_org c) id) in
  match found with
  | Err e => efail (store_failure e "the resource definition could not be read")
  | Ok None => efail (Permanent ("definition `" +:+ id +:+ "` no longer exists, so its secrets are not read"))
  | Ok (Some def) =>
      match definition_weight def (mk_ResourceContext (jc_org c) (jc_app c) (jc_env c) (jc_env_type c) d) with
      | Some _ => eret tt
      | None =>
          efail (Permanent ("definition `" +:+ id +:+ "` no longer matches `" +:+ Descriptor_show d +:+ "` in `" +:+ jc_app c
            +:+ "/" +:+ jc_env c +:+ "`, so its secrets are not read"))
      end
  end.

Definition owner_of (s : SecretSource) : SecretOwner :=
  match s with FromValues => OwnerValues | FromOutput g => OwnerResource g end.
Definition owners_of (sources : list (SecretRef * SecretSource)) (r : SecretRef) : list SecretOwner :=
  (λ s, owner_of s.2) <$> filter (λ s, s.1 = r) sources.

Fixpoint read_definition_refs (refs : list SecretRef) (read : Secrets) : exec Secrets :=
  match refs with
  | [] => eret read
  | r :: refs =>
      let^ value := use_secret ctx [OwnerDefinition (pj_definition_id job)] r in
      read_definition_refs refs (bt_insert r value read)
  end.

Fixpoint read_input_refs (sources : list (SecretRef * SecretSource)) (refs : list SecretRef) (read : Secrets) : exec Secrets :=
  match refs with
  | [] => eret read
  | r :: refs =>
      if bt_contains r read then read_input_refs sources refs read
      else match owners_of sources r with
        | [] =>
            efail (Permanent ("secret `" +:+ sr_reference r +:+ "` in store `" +:+ sr_store r
              +:+ "` has no recorded source, so its use cannot be authorized"))
        | owners =>
            let^ value := use_secret ctx owners r in
            read_input_refs sources refs (bt_insert r value read)
        end
  end.

Definition definition_refs : list SecretRef := bs_of_list (refs_in (ji_secret_refs (pj_inputs job))).
Definition input_refs : list SecretRef :=
  bs_of_list (refs_in (ji_secrets (pj_inputs job)) ++ refs_in (ji_resource (pj_inputs job))).

Definition read_secrets (sources : list (SecretRef * SecretSource)) (check_criteria : bool) : exec Secrets :=
  let needs := match definition_refs with [] => is_some (pj_driver_account job) | _ => true end in
  let^ _ := if check_criteria && needs then definition_matches ctx (pj_definition_id job) (pj_descriptor job) else eret tt in
  let^ read := read_definition_refs definition_refs [] in
  read_input_refs sources input_refs read.

(** *** Cloud accounts *)

Fixpoint authorize_all (c : JobContext) (owner : SecretOwner) (refs : list SecretRef) : exec unit :=
  match refs with
  | [] => eret tt
  | r :: refs => let^ _ := authorize c [owner] r in authorize_all c owner refs
  end.

Definition credential_secrets (c : AwsCredentials) : list string :=
  filter (λ s, s ≠ ε) (aws_secret_access_key c :: match aws_session_token c with Some t => [t] | None => [] end).

Definition account_credentials (c : JobContext) (id : string) (window : Z) : exec AwsCredentials :=
  let^ read_at := ecall XGeneration in
  let^ found := ecall (XAccount (jc_org c) id) in
  match found with
  | Err e => efail (store_failure e "the cloud account could not be read")
  | Ok None => efail (Permanent ("cloud account `" +:+ id +:+ "` does not exist"))
  | Ok (Some account) =>
      let^ _ := authorize_all c (OwnerAccount id) (bt_values (ca_secret_refs account)) in
      let^ resolved := ecall (XResolve account read_at window) in
      match resolved with
      | Err e => efail (cloud_failure e)
      | Ok credentials => let^ _ := register (credential_secrets credentials) in eret credentials
      end
  end.

Definition credential_inputs (c : AwsCredentials) : jmap :=
  [("AccessKeyId", Str (aws_access_key_id c)); ("Region", Str (option_default ε (aws_region c)));
   ("SecretAccessKey", Str (aws_secret_access_key c)); ("SessionToken", Str (option_default ε (aws_session_token c)))].

(** Fresh credentials and the AWS account they belong to, which is the one the resource is in. *)
Definition credentials (window : Z) : exec (option (jmap * string)) :=
  match pj_driver_account job with
  | None => eret None
  | Some id =>
      let^ credentials := account_credentials ctx id window in
      let^ identity := ecall (XIdentity credentials) in
      match identity with
      | Err e => efail (cloud_failure e)
      | Ok account =>
          let^ _ :=
            if is_none (pj_target job) && pj_existing job then
              log_write "warn" ("`" +:+ Descriptor_show (pj_descriptor job) +:+ "` has no recorded AWS account; it is now recorded as " +:+ account)
            else eret tt in
          match pj_target job with
          | Some previous =>
              if String.eqb previous account then eret (Some (credential_inputs credentials, account))
              else efail (Permanent ("cloud account `" +:+ id +:+ "` now resolves to AWS account " +:+ account +:+ ", but `"
                +:+ Descriptor_show (pj_descriptor job) +:+ "` was provisioned in " +:+ previous
                +:+ "; moving a resource is an explicit migration"))
          | None => eret (Some (credential_inputs credentials, account))
          end
      end
  end.

(** *** Cookies *)

Definition COOKIE_AAD : string := "openporch-cookie:v1".
Definition cookie_aad : string := COOKIE_AAD +:+ ":" +:+ jc_org ctx +:+ ":" +:+ pj_guresid job.

Definition cookie_text (c : Cookie) : string :=
  json_text (Obj [("version", Num (PosInt (Z.to_N (ck_version c)))); ("data", Str (ck_data c))]).

Definition open_cookie : exec (option Cookie) :=
  match pj_cookie job with
  | None => eret None
  | Some sealed =>
      let^ opened := ecall (XOpen cookie_aad sealed) in
      match opened with
      | Err e => efail (secret_failure e)
      | Ok None =>
          efail (Permanent ("the driver state of `" +:+ Descriptor_show (pj_descriptor job) +:+ "` could not be decrypted"))
      | Ok (Some plain) =>
          match read_cookie plain with
          | Some c => eret (Some c)
          | None => efail (Permanent ("the driver state of `" +:+ Descriptor_show (pj_descriptor job) +:+ "` is unreadable"))
          end
      end
  end.

(** Encoding a cookie cannot fail. *)
Definition seal_cookie (c : Cookie) : exec Sealed := ecall (XSeal cookie_aad (cookie_text c)).

(** The cookie a mutation left, sealed, when it differs from the one the call was given. *)
Definition newer_cookie (req : DriverRequest) (cookie : option Cookie) : exec (option Sealed) :=
  match cookie with
  | Some c => if decide (Some c = rq_cookie req) then eret None else let^ s := seal_cookie c in eret (Some s)
  | None => eret None
  end.

(** *** Drivers *)

Inductive Found := FoundInProcess (id : string) (info : DriverInfo) | FoundRegistered (record : DriverRecord) (info : DriverInfo).
Definition found_info (f : Found) : DriverInfo :=
  match f with FoundInProcess _ info => info | FoundRegistered _ info => info end.

Definition registered_driver_info (record : DriverRecord) : DriverInfo :=
  let any_object := Obj [("type", Str "object")] in
  mk_DriverInfo (dr_id record) (dr_protocol_version record) (dr_cookie_version record)
    (option_default any_object (dr_inputs_schema record)) (option_default any_object (dr_outputs_schema record))
    (let c := dr_capabilities record in
     let t := dcap_targets c in
     mk_Capabilities (mk_Targets (dtg_resources t) (dtg_workloads t) (dtg_triggers t))
       (dcap_observe c) (dcap_recover c) (dcap_preview c) (dcap_cancel c)).

Definition find_driver : exec Found :=
  let id := pj_driver_type job in
  match drivers id with
  | Some info => eret (FoundInProcess id info)
  | None =>
      let^ found := ecall (XDriverRecord (jc_org ctx) id) in
      match found with
      | Err e => efail (store_failure e ("driver `" +:+ id +:+ "` could not be read"))
      | Ok None => efail (Permanent ("driver `" +:+ id +:+ "` is not registered on this server"))
      | Ok (Some record) => eret (FoundRegistered record (registered_driver_info record))
      end
  end.

Definition cannot_call (id why : string) : ExecFailure := Permanent ("driver `" +:+ id +:+ "` cannot be called: " +:+ why).

(** An HTTP client; a target that is not an [https] URL never gets a default one. *)
Definition http_client (record : DriverRecord) : exec unit :=
  let^ ready := ecall XClient in
  if ready : bool then eret tt
  else if starts_with "https://" (dr_target record) then
    let^ made := ecall XDefaultClient in
    eresult (map_err (cannot_call (dr_id record)) made)
  else efail (cannot_call (dr_id record) "its target is not an https URL").

Definition open_driver (found : Found) : exec (Handle * DriverInfo) :=
  match found with
  | FoundInProcess id info => eret (InProcess id, info)
  | FoundRegistered record info =>
      let id := dr_id record in
      let^ token :=
        match dr_token record with
        | None => eret None
        | Some r =>
            let failed f := prefixed f ("the token of driver `" +:+ id +:+ "` could not be used") in
            let^ _ := emap_err failed (authorize ctx [OwnerDriver id] r) in
            let^ value := emap_err failed (read r) in
            let^ _ := register [value] in
            eret (Some value)
        end in
      let^ _ := http_client record in
      let^ opened := ecall (XOpenHttp info (dr_target record) token) in
      let^ _ := eresult (map_err (cannot_call id) opened) in
      eret (External id (dr_target record) token, info)
  end.

(** *** Requests *)

(** A driver call ready to run. *)
Record ReadyCall := mk_ReadyCall {
  rc_driver : Handle; rc_info : DriverInfo; rc_req : DriverRequest; rc_timeout : Z; rc_target : option string
}.

Definition input_values : result jmap ExecFailure :=
  match ji_values (pj_inputs job) with
  | Obj values => Ok values
  | Null => Ok []
  | other => Err (Permanent ("the driver inputs are not an object: " +:+ json_text other))
  end.

(** The time left until the deadline. *)
Definition remaining : exec Z := let^ now := ecall XNow in eret (Z.max 0 (pj_deadline job - now)).

Definition driver_context : DriverContext :=
  mk_DriverContext (jc_org ctx) (jc_app ctx) (jc_env ctx) (jc_env_type ctx) (d_id (pj_descriptor job)) (d_class (pj_descriptor job)).

Definition request_with (driver : Handle) (info : DriverInfo) (sources : list (SecretRef * SecretSource))
    (check_criteria : bool) : exec ReadyCall :=
  let inputs := pj_inputs job in
  let^ values := eresult input_values in
  let^ time_left := remaining in
  let^ timeout := eresult (map_err driver_failure (call_timeout values (Some time_left))) in
  let^ found := read_secrets sources check_criteria in
  let^ (resource, resource_secrets) := eresult (split_inputs found (ji_resource inputs)) in
  let^ secrets := eresult (object found (ji_secrets inputs) "`driver_inputs.secrets`") in
  let^ refs := eresult (object found (ji_secret_refs inputs) "`driver_inputs.secret_refs`") in
  let^ credentials := credentials timeout in
  let^ cookie := open_cookie in
  eret (mk_ReadyCall driver info
    (mk_DriverRequest (pj_guresid job) (pj_operation_id job) (pj_input_fingerprint job) (d_ty (pj_descriptor job))
      resource resource_secrets (secret_paths (ji_resource inputs)) values
      (foldl (λ m kv, im_insert kv.1 kv.2 m) secrets refs) (fst <$> credentials) driver_context cookie None (pj_pin job))
    timeout (snd <$> credentials)).

Definition request (sources : list (SecretRef * SecretSource)) (check_criteria : bool) : exec ReadyCall :=
  let^ found := find_driver in
  let^ (driver, info) := open_driver found in
  request_with driver info sources check_criteria.

(** *** Plans and permits *)

Definition action_name (a : Action) : string :=
  match a with ACreate => "create" | AUpdate => "update" | AReplace => "replace" | ADelete => "delete" end.

Definition describe (actions : list (Action * string)) : string :=
  let count a := show_nat (length (filter (λ x, x.1 = a) actions)) in
  count ACreate +:+ " to create, " +:+ count AUpdate +:+ " to update, " +:+ count AReplace +:+ " to replace and "
  +:+ count ADelete +:+ " to delete".

Definition permit_request (action : DestructiveAction) (plan : option (string * list (Action * string))) : PermitRequest :=
  mk_PermitRequest (jc_org ctx) (jc_app ctx) (jc_env ctx) (Descriptor_show (pj_descriptor job)) (Some (pj_guresid job))
    (Some (jc_deployment_id ctx)) action (jc_permits ctx) (fst <$> plan)
    match plan with Some (_, actions) => (λ a, (action_name a.1, a.2)) <$> actions | None => [] end.

Definition permit (action : DestructiveAction) (plan : option (string * list (Action * string))) : exec unit :=
  let^ checked := ecall (XPermit (permit_request action plan)) in
  match checked with
  | Some (Ok _) => eret tt
  | Some (Err e) => efail (Permanent ("approval_required: " +:+ e))
  | None => efail (Permanent "the deployment ran out of time before its permits were checked")
  end.

(** The driver's preview, when it can preview. *)
Definition plan (c : ReadyCall) (delete : bool) : exec Plan :=
  if cp_preview (dn_capabilities (rc_info c)) then
    let^ planned := edrive (rc_driver c) (with_timeout (rc_timeout c) (dask (DPlan delete (rc_req c)))) in
    eresult (map_err (λ e,
      match e with
      | DInvalid _ _ | DUnsupported _ => driver_failure e
      | other => Retryable ("planning failed: " +:+ driver_error_show other) None
      end) planned)
  else eret PlanUnknown.

(** The action a plan needs a permit for. *)
Definition destructive (actions : list (Action * string)) : option DestructiveAction :=
  if existsb (λ a, bool_decide (a.1 = AReplace)) actions then Some ActReplace
  else if existsb (λ a, bool_decide (a.1 = ADelete)) actions then Some ActDelete
  else None.

Definition set_permit (req : DriverRequest) (p : option string) : DriverRequest :=
  mk_DriverRequest (rq_guresid req) (rq_operation_id req) (rq_fingerprint req) (rq_resource_type req)
    (rq_resource req) (rq_resource_secrets req) (rq_resource_secret_paths req) (rq_values req) (rq_secrets req)
    (rq_credentials req) (rq_context req) (rq_cookie req) p (rq_pin req).
Definition set_credentials (req : DriverRequest) (c : option jmap) : DriverRequest :=
  mk_DriverRequest (rq_guresid req) (rq_operation_id req) (rq_fingerprint req) (rq_resource_type req)
    (rq_resource req) (rq_resource_secrets req) (rq_resource_secret_paths req) (rq_values req) (rq_secrets req)
    c (rq_context req) (rq_cookie req) (rq_permit req) (rq_pin req).

(** The request with credentials that last for the mutation, and the target they are for. *)
Definition refresh (req : DriverRequest) (window : Z) : exec (DriverRequest * option string) :=
  let^ fresh := credentials window in
  eret match fresh with
    | Some (c, target) => (set_credentials req (Some c), Some target)
    | None => (req, None)
    end.

(** The permits of a change that was planned, and the request they allow. *)
Definition permit_put (req : DriverRequest) (planned : Plan) : exec DriverRequest :=
  match planned with
  | PlanNoEffects => let^ _ := log_write "info" "the driver plans no changes" in eret req
  | PlanActions actions fingerprint =>
      let^ _ := log_write "info" ("the driver plans " +:+ describe actions +:+ " (" +:+ fingerprint +:+ ")") in
      match destructive actions with
      | Some action =>
          let^ _ := permit action (Some (fingerprint, actions)) in
          eret (set_permit req (Some fingerprint))
      | None => eret req
      end
  | PlanUnknown =>
      if pj_existing job then
        let^ _ := log_write "info" "the driver cannot preview this change, so its impact is unknown" in
        let^ _ := permit ActUnknown None in
        eret req
      else eret req
  end.

(** *** Provisioning *)

Definition output_error_show (e : OutputError) : string :=
  "output `" +:+ oe_output e +:+ "` of resource type `" +:+ oe_ty e +:+ "` " +:+ oe_problem e.

Definition check_outputs (values secrets : jmap) : result unit ExecFailure :=
  match pj_output_schema job with
  | None => Ok tt
  | Some ty =>
      map_err (λ e, Permanent ("the driver's outputs are invalid: " +:+ output_error_show e))
        (let? _ := validate_outputs ty values (bs_of_list secrets.*1) in
         try_fold (λ _ kv, validate_secret_output ty kv.1 kv.2) tt secrets)
  end.

Fixpoint write_secrets (secrets : jmap) (written : list (string * SecretRef)) : exec (list (string * SecretRef)) :=
  match secrets with
  | [] => eret written
  | (key, value) :: secrets =>
      let^ reference := ecall (XWrite ("resources/" +:+ pj_guresid job +:+ "/outputs/" +:+ key) (secret_text value)) in
      match reference with
      | Ok r => write_secrets secrets (bt_insert key r written)
      | Err e =>
          efail (uncertain ("the resource provisioned, but its secret output `" +:+ key +:+ "` could not be stored: "
            +:+ secret_error_show e))
      end
  end.

(** What a resource that provisioned returns. *)
Definition provisioned (outputs : DriverOutputs) (cookie : option Cookie) (target : option string) : exec ProvisionResult :=
  let footprint := do_footprint outputs in
  let^ _ := eresult (check_outputs (do_values outputs) (do_secrets outputs)) in
  let^ _ := register (mjoin ((λ kv, secret_texts kv.2) <$> do_secrets outputs)) in
  let^ written := write_secrets (do_secrets outputs) [] in
  let^ sealed := match cookie with Some c => let^ s := seal_cookie c in eret (Some s) | None => eret None end in
  eret (mk_ProvisionResult (do_values outputs) written sealed Null target (fp_backend footprint)
    (fp_external_ids footprint) (fp_pin footprint)).

(** A driver's run never uses up its polls ([DriverRunProofs.driver_runs_settle]). *)
Definition settled {T} (req : DriverRequest) (s : option (Settled T)) : Settled T :=
  option_default (mk_Settled (Err (DUncertain ε)) (rq_cookie req)) s.

Definition made_the_change (changed : bool) (f : ExecFailure) : ExecFailure :=
  match f with
  | Permanent error | Retryable error _ =>
      if changed then uncertain ("the driver made the change, but " +:+ error) else f
  | f => f
  end.

Definition run_provision : exec ProvisionResult :=
  let^ c := request (ji_sources (pj_inputs job)) true in
  let^ planned := plan c false in
  let changes := match planned with PlanNoEffects => false | _ => true end in
  let^ req := permit_put (rc_req c) planned in
  let^ time_left := remaining in
  let timeout := Z.min (rc_timeout c) time_left in
  let^ (req, refreshed) := refresh req timeout in
  let target := match refreshed with Some t => Some t | None => rc_target c end in
  let^ s := edrive (rc_driver c) (converge (rc_info c) req timeout) in
  let s := settled req s in
  let^ newer := newer_cookie req (st_cookie s) in
  match st_result s with
  | Err e => efail (with_cookie (mutation_failure e (is_some newer)) newer)
  | Ok outputs =>
      emap_err (λ f, with_cookie (made_the_change (changes || is_some newer) f) newer)
        (provisioned outputs (st_cookie s) target)
  end.

Definition provision : xprog (result ProvisionResult ExecFailure) := run_redacted run_provision.

(** *** Deleting *)

Definition permit_delete (req : DriverRequest) (planned : Plan) : exec DriverRequest :=
  match planned with
  | PlanActions actions fingerprint =>
      let^ _ := permit ActDelete (Some (fingerprint, actions)) in
      eret (set_permit req (Some fingerprint))
  | PlanNoEffects | PlanUnknown => eret req
  end.

Definition run_deprovision : exec unit :=
  let^ c := request (sources_of (pj_inputs job)) false in
  let^ planned := plan c true in
  let^ req := permit_delete (rc_req c) planned in
  let^ time_left := remaining in
  let timeout := Z.min (rc_timeout c) time_left in
  let^ (req, _) := refresh req timeout in
  let^ s := edrive (rc_driver c) (remove (rc_info c) req timeout) in
  let s := settled req s in
  let^ newer := newer_cookie req (st_cookie s) in
  eresult (map_err (λ e, with_cookie (mutation_failure e (is_some newer)) newer) (st_result s)).

Definition deprovision : xprog (result unit ExecFailure) := run_redacted run_deprovision.

(** *** Observing *)

Definition no_result : ProvisionResult := mk_ProvisionResult [] [] None Null None None [] None.

(** The cookie an observation returned, sealed, when it is newer and the driver can read it. *)
Definition observed_cookie (c : ReadyCall) (cookie : option Cookie) : exec (option Sealed) :=
  match cookie with
  | Some k => if is_ok (check_cookie (rc_info c) k) then newer_cookie (rc_req c) (Some k) else eret None
  | None => eret None
  end.

Definition observing (c : ReadyCall) (r : result Observed ExecFailure) (cookie : option Cookie) : exec Observation :=
  let^ kept := observed_cookie c cookie in eret (mk_Observation r kept).

(** Runs [m], and keeps its failure apart. *)
Definition etry {A} (m : exec A) : exec (result A ExecFailure) := λ log, let! x := m log in Done (x.1, Ok x.2).

(** A creation found finished. *)
Definition observed_ready (c : ReadyCall) (outputs : DriverOutputs) (cookie : option Cookie) (repeatable : bool)
    : exec Observation :=
  match match cookie with Some k => check_cookie (rc_info c) k | None => Ok tt end with
  | Err e => efail (uncertain e)
  | Ok _ =>
      let kept := match cookie with Some k => Some k | None => rq_cookie (rc_req c) end in
      let^ result := etry (provisioned outputs kept (rc_target c)) in
      match result with
      | Ok p => eret (mk_Observation (Ok (ObReady p repeatable)) None)
      | Err f => observing c (Err f) cookie
      end
  end.

Definition observed (c : ReadyCall) (deleting : bool) (o : DriverObservation) : exec Observation :=
  let repeatable := cp_recover (dn_capabilities (rc_info c)) in
  match o with
  | DoAbsent cookie => observing c (Ok (ObAbsent repeatable)) cookie
  | DoInProgress _ cookie => observing c (Ok ObInProgress) cookie
  | DoFailed error =>
      let (error, cookie) := error_split error in
      observing c (Ok (ObFailed (driver_error_show error) repeatable)) cookie
  | DoUnknown reason cookie => observing c (Ok (ObUnknown reason)) cookie
  | DoReady outputs cookie =>
      if deleting || pj_existing job then observing c (Ok (ObReady no_result repeatable)) cookie
      else observed_ready c outputs cookie repeatable
  end.

Definition run_observe (deleting : bool) : exec Observation :=
  let^ found := find_driver in
  if negb (cp_observe (dn_capabilities (found_info found))) then
    eret (mk_Observation (Ok (ObUnknown ("driver `" +:+ pj_driver_type job +:+ "` cannot observe resources"))) None)
  else
    let^ (driver, info) := open_driver found in
    let^ c := request_with driver info (sources_of (pj_inputs job)) false in
    let^ got := edrive driver (with_timeout (rc_timeout c) (dask (DGet (rc_req c)))) in
    match got with
    | Ok o => observed c deleting o
    | Err e =>
        let (e, cookie) := error_split e in
        observing c (Err (Retryable ("the resource could not be observed: " +:+ driver_error_show e) None)) cookie
    end.

(** What the driver said goes into records, so it is redacted too. *)
Definition redact_observed (log : Redactor) (r : result Observed ExecFailure) : result Observed ExecFailure :=
  match r with
  | Ok (ObFailed error repeatable) => Ok (ObFailed (redacted log error) repeatable)
  | Ok (ObUnknown reason) => Ok (ObUnknown (redacted log reason))
  | Ok other => Ok other
  | Err f => Err (redact_failure log f)
  end.

Definition observe (deleting : bool) : xprog Observation :=
  let! x := run_observe deleting [] in
  let o := match x.2 with Ok o => o | Err f => mk_Observation (Err f) None end in
  Done (mk_Observation (redact_observed x.1 (ob_result o)) (ob_cookie o)).

(** *** Checks *)

(** A check changes nothing, so running out of time is not uncertain. *)
Definition check_failure (what : string) (e : DriverError) : ExecFailure :=
  match e with
  | DTimeout _ => Retryable ("checking the " +:+ what +:+ " version failed: " +:+ driver_error_show e) None
  | e => driver_failure e
  end.

Definition check_pin : xprog (result unit ExecFailure) :=
  run_redacted (
    let^ c := request (ji_sources (pj_inputs job)) true in
    let^ checked := edrive (rc_driver c) (with_timeout (rc_timeout c) (dask (DCheckPin (rc_req c)))) in
    eresult (map_err (check_failure "pinned") checked)).

Definition check_retained : xprog (result unit ExecFailure) :=
  run_redacted (
    let^ c := request (sources_of (pj_inputs job)) false in
    let^ checked := edrive (rc_driver c) (with_timeout (rc_timeout c) (dask (DCheckRetained (rc_req c)))) in
    eresult (map_err (check_failure "retained") checked)).
End job.

(** *** Artifacts and images *)

Definition CHECK_WINDOW : Z := secs 60.

(** The credentials of the account, for a definition that still matches. *)
Definition matching_credentials (c : JobContext) (definition : string) (d : Descriptor) (account : string)
    : exec AwsCredentials :=
  let^ _ := definition_matches c definition d in
  account_credentials c account CHECK_WINDOW.

(** A refusal that names only what was asked for, which is handed back as it is. *)
Definition refuse_plainly {A} (m : string) : exec (result A ExecFailure) := eret (Err (Permanent m)).

(** A program whose own refusals are handed back as they are, and other failures redacted. *)
Definition run_apart {A} (m : exec (result A ExecFailure)) : xprog (result A ExecFailure) :=
  let! x := m [] in
  Done match x.2 with Ok r => r | Err f => Err (redact_failure x.1 f) end.

Fixpoint each_exists {A} (exists_ : A → exec (result bool CloudError)) (gone : A → string) (l : list A)
    : exec (result unit ExecFailure) :=
  match l with
  | [] => eret (Ok tt)
  | a :: l =>
      let^ found := exists_ a in
      match found with
      | Ok true => each_exists exists_ gone l
      | Ok false => refuse_plainly (gone a)
      | Err e => efail (cloud_failure e)
      end
  end.

Definition check_artifacts (check : ArtifactCheck) : xprog (result unit ExecFailure) :=
  let versions := filter_map S3Version_parse (ac_artifacts check) in
  let images := filter_map EcrDigest_parse (ac_artifacts check) in
  let gone what := what +:+ "` of `" +:+ Descriptor_show (ac_descriptor check) +:+ "` no longer exists; nothing changed" in
  match versions, images with
  | [], [] => Done (Ok tt)
  | _, _ =>
      run_apart (
        let^ credentials := matching_credentials (ac_context check) (ac_definition_id check) (ac_descriptor check) (ac_account check) in
        let^ objects := each_exists (λ v, ecall (XObjectExists credentials v)) (λ v, gone ("artifact `" +:+ S3Version_show v)) versions in
        match objects with
        | Err f => eret (Err f)
        | Ok _ => each_exists (λ i, ecall (XImageExists credentials i)) (λ i, gone ("image `" +:+ EcrDigest_show i)) images
        end)
  end.

Definition pin_artifact (pin : ArtifactPin) : xprog (result string ExecFailure) :=
  let of_ := "` of `" +:+ Descriptor_show (apn_descriptor pin) +:+ "` " in
  match S3Object_parse (apn_artifact pin) with
  | None => Done (Err (Permanent ("artifact `" +:+ apn_artifact pin +:+ of_ +:+ "is not an S3 object (`s3://<bucket>/<key>`)")))
  | Some object =>
      run_apart (
        let^ credentials := matching_credentials (apn_context pin) (apn_definition_id pin) (apn_descriptor pin) (apn_account pin) in
        let^ latest := ecall (XLatestVersion credentials object) in
        match latest with
        | Ok (LVersion v) => eret (Ok (S3Version_show (S3Object_at object v)))
        | Ok LUnversioned =>
            refuse_plainly ("artifact `" +:+ S3Object_show object +:+ of_ +:+ "needs an immutable identity, but its bucket does not keep versions: enable versioning on the bucket, or name an object version with `?versionId=`")
        | Ok LMissing => refuse_plainly ("artifact `" +:+ S3Object_show object +:+ of_ +:+ "does not exist")
        | Err e => efail (cloud_failure e)
        end)
  end.

Definition pin_image (pin : ImagePin) : xprog (result string ExecFailure) :=
  let of_ := "` of `" +:+ Descriptor_show (ipn_descriptor pin) +:+ "` " in
  match EcrImage_parse (ipn_image pin) with
  | None => Done (Err (Permanent ("image `" +:+ ipn_image pin +:+ of_ +:+ "is not an ECR image named by tag")))
  | Some image =>
      run_apart (
        let^ credentials := matching_credentials (ipn_context pin) (ipn_definition_id pin) (ipn_descriptor pin) (ipn_account pin) in
        let^ found := ecall (XImageDigest credentials image) in
        match found with
        | Ok (Some digest) =>
            if pinned_image (EcrImage_at image digest) then eret (Ok (EcrImage_at image digest))
            else refuse_plainly ("image `" +:+ EcrImage_show image +:+ of_ +:+ "has digest `" +:+ digest
              +:+ "`, which is not a sha256 digest")
        | Ok None =>
            refuse_plainly ("image `" +:+ EcrImage_show image +:+ of_ +:+ "does not exist, or cloud account `" +:+ ipn_account pin
              +:+ "` cannot see it")
        | Err e => efail (cloud_failure e)
        end)
  end.

(** Images in other registries are read without secrets. *)
Definition pin_registry_image (d : Descriptor) (image : string) : xprog (result string ExecFailure) :=
  let named := "image `" +:+ image +:+ "` of `" +:+ Descriptor_show d +:+ "` " in
  match registry, OciImage_parse image with
  | true, Some parsed =>
      match oi_reference parsed with
      | RefDigest _ => Done (Ok image)
      | RefTag _ =>
          let! found := xask (XLookup parsed) in
          Done match found with
            | Ok (LkFound digest) =>
                if pinned_image (OciImage_tagged_at parsed digest) then Ok (OciImage_tagged_at parsed digest)
                else Err (Permanent (named +:+ "has digest `" +:+ digest +:+ "`, which is not a sha256 digest"))
            | Ok LkMissing => Err (Permanent (named +:+ "does not exist in registry `" +:+ oi_host parsed +:+ "`"))
            | Ok LkPrivate =>
                Err (Permanent (named +:+ "cannot be read without credentials, so its tag cannot be pinned; name it by digest as `<image>@sha256:<digest>`"))
            | Ok LkUnlisted =>
                Err (Permanent (named +:+ "is in registry `" +:+ oi_host parsed +:+ "` on a private address, so its tag cannot be pinned; list the registry in `images.private_registries`, or name the image by digest as `<image>@sha256:<digest>`"))
            | Ok LkUnresolved => Err (Retryable ("registry `" +:+ oi_host parsed +:+ "` of image `" +:+ image +:+ "` does not resolve") None)
            | Err e => Err (cloud_failure e)
            end
      end
  | _, _ => Done (Ok image)
  end.

(** Why an image named by digest cannot be deployed, by what its registry said. *)
Definition registry_refuses (d : Descriptor) (named : string) (image : OciImage) (found : result Lookup CloudError)
    : option ExecFailure :=
  let named_of := "image `" +:+ named +:+ "` of `" +:+ Descriptor_show d +:+ "` " in
  match found with
  | Ok (LkFound _) => None
  | Ok LkPrivate | Ok LkUnlisted =>
      if pinned_from_tag named then
        Some (Permanent (named_of +:+ "was pinned from a public tag, but its registry no longer shows it without credentials; nothing changed"))
      else None
  | Ok LkUnresolved =>
      if pinned_from_tag named then
        Some (Retryable ("registry `" +:+ oi_host image +:+ "` of " +:+ named_of +:+ "does not resolve") None)
      else None
  | Ok LkMissing => Some (Permanent (named_of +:+ "no longer exists; nothing changed"))
  | Err e => Some (cloud_failure e)
  end.

Fixpoint check_each_image (d : Descriptor) (images : list string) : xprog (result unit ExecFailure) :=
  match images with
  | [] => Done (Ok tt)
  | named :: images =>
      match OciImage_parse named with
      | Some (mk_OciImage _ _ _ (RefDigest _) as image) =>
          let! found := xask (XLookup image) in
          match registry_refuses d named image found with
          | Some f => Done (Err f)
          | None => check_each_image d images
          end
      | _ => check_each_image d images
      end
  end.

Definition check_registry_images (d : Descriptor) (images : list string) : xprog (result unit ExecFailure) :=
  if registry then check_each_image d images else Done (Ok tt).
End executor.
