(* ===== verification/ExecLogic.v ===== *)
(** * A logic of the executor's programs

    A program of the executor is judged by what it asks, given everything that was asked and
    answered before: secrets are read where an owner was authorized, drivers change something
    where it was permitted, and lines are logged without the secrets that are known. *)

From Stdlib Require Import Ascii.
From stdpp Require Import base sets strings list.
From S2P Require Import Prelude Effects Strings OrdMap Ids Float64 Json Model Criteria Placeholder Catalog Redact Artifacts Db Identity Deletion PlanInputs CatalogStore PlanTask PlanChecks Recover DriverRun DriverRunProofs Executor.

Local Open Scope string_scope.
Local Open Scope list_scope.

(** ** Histories *)

Abbreviation history := (list {c & xanswer c}).
Abbreviation heard h c x := (existT (P := xanswer) c x ∈ h).
Abbreviation hear := (λ (h : history) c (x : xanswer c), h ++ [existT c x]).

(** The secret values that an answer brought, and the plans: a value that was read, and the secret
    key and the session token of credentials. *)
Definition event_secrets (e : {c & xanswer c}) : list string :=
  match e with existT c x =>
    match c as c return xanswer c → list string with
    | XRead _ => λ x, match x with Ok v => [v] | Err _ => [] end
    | XResolve _ _ _ => λ x, match x with Ok k => aws_secret_access_key k :: option_list (aws_session_token k) | Err _ => [] end
    | _ => λ _, []
    end x
  end.
Definition secrets_of (h : history) : list string := mjoin (event_secrets <$> h).

Definition event_plans (e : {c & xanswer c}) : list Plan :=
  match e with existT c x =>
    match c as c return xanswer c → list Plan with
    | XDrive _ (DPlan _ _) => λ x, match x with Some (Ok p) => [p] | _ => [] end
    | _ => λ _, []
    end x
  end.
Definition plans_of (h : history) : list Plan := mjoin (event_plans <$> h).

Lemma secrets_of_app h t : secrets_of (h ++ t) = secrets_of h ++ secrets_of t.
Proof. unfold secrets_of. by rewrite fmap_app, join_app. Qed.
Lemma plans_of_app h t : plans_of (h ++ t) = plans_of h ++ plans_of t.
Proof. unfold plans_of. by rewrite fmap_app, join_app. Qed.

(** Later, with no further plan. *)
Definition later (h h' : history) : Prop := ∃ t, h' = h ++ t ∧ plans_of t = [].
#[export] Instance later_PreOrder : PreOrder later.
Proof.
  split; [intros h; exists []; by rewrite app_nil_r|].
  intros h1 h2 h3 (t1 & -> & P1) (t2 & -> & P2). exists (t1 ++ t2). by rewrite app_assoc, plans_of_app, P1, P2.
Qed.

Lemma later_heard h h' e : later h h' → e ∈ h → e ∈ h'.
Proof. intros (t & -> & _). set_solver. Qed.
Lemma later_plans h h' : later h h' → plans_of h' = plans_of h.
Proof. intros (t & -> & Ht). by rewrite plans_of_app, Ht, app_nil_r. Qed.
Lemma later_one h e : event_plans e = [] → later h (h ++ [e]).
Proof. intros He. exists [e]. split; [done|]. unfold plans_of. simpl. by rewrite He. Qed.
Lemma heard_now (h : history) e : e ∈ h ++ [e].
Proof. apply elem_of_app. right. by left. Qed.
#[export] Hint Resolve later_heard heard_now : core.

(** ** What may be asked *)

(** What a program is for: it changes a resource, deletes it, or only looks. *)
Inductive Mode := Changing | Deleting | Looking.

Section protocol.
Context `{Libraries}.
Context (job : ProvisionJob) (sources : list (SecretRef * SecretSource)) (criteria : bool) (mode : Mode).
Abbreviation ctx := (pj_context job).

Definition authorized (h : history) (owner : SecretOwner) (r : SecretRef) : Prop :=
  heard h (XAuthorize (jc_org ctx) (jc_app ctx) (jc_env ctx) owner r) (Ok tt).

(** The job's definition was read, and still matches the resource. *)
Definition definition_matched (h : history) : Prop :=
  ∃ def w, heard h (XDefinition (jc_org ctx) (pj_definition_id job)) (Ok (Some def))
    ∧ definition_weight def (mk_ResourceContext (jc_org ctx) (jc_app ctx) (jc_env ctx) (jc_env_type ctx) (pj_descriptor job)) = Some w.

(** Who the job may use a secret as: its definition, when it is one of the definition's and the
    definition still matches where that is checked; the sources that were recorded for one of its
    inputs; its driver, for the driver's token. *)
Definition may_use (h : history) (owner : SecretOwner) (r : SecretRef) : Prop :=
  (owner = OwnerDefinition (pj_definition_id job) ∧ r ∈ refs_in (ji_secret_refs (pj_inputs job))
   ∧ (criteria = true → definition_matched h))
  ∨ (∃ s, (r, s) ∈ sources ∧ owner = owner_of s
      ∧ (r ∈ refs_in (ji_secrets (pj_inputs job)) ∨ r ∈ refs_in (ji_resource (pj_inputs job))))
  ∨ (∃ record, heard h (XDriverRecord (jc_org ctx) (pj_driver_type job)) (Ok (Some record))
      ∧ dr_token record = Some r ∧ owner = OwnerDriver (dr_id record)).

(** The account is the job's, and the use of all of its secrets was authorized. *)
Definition may_resolve (h : history) (account : CloudAccount) : Prop :=
  (criteria = true → definition_matched h)
  ∧ ∃ id, pj_driver_account job = Some id ∧ heard h (XAccount (jc_org ctx) id) (Ok (Some account))
      ∧ ∀ r, r ∈ bt_values (ca_secret_refs account) → authorized h (OwnerAccount id) r.

Definition permitted (h : history) (action : DestructiveAction) (p : option (string * list (Action * string))) : Prop :=
  heard h (XPermit (permit_request job action p)) (Some (Ok tt)).

(** What a plan needs to be permitted: to replace, when anything is replaced; to delete, when
    something is deleted and nothing replaced. *)
Inductive needs_permit (actions : list (Action * string)) : DestructiveAction → Prop :=
| needs_replace what : (AReplace, what) ∈ actions → needs_permit actions ActReplace
| needs_delete what :
    (ADelete, what) ∈ actions → (∀ other, (AReplace, other) ∉ actions) → needs_permit actions ActDelete.

(** A planned replacement or deletion is permitted, and the driver is told for which plan; a change
    of an existing resource that the driver did not plan is permitted as unknown. *)
Definition put_permitted (h : history) (req : DriverRequest) : Prop :=
  (∀ actions fp action, PlanActions actions fp ∈ plans_of h → needs_permit actions action →
    permitted h action (Some (fp, actions)) ∧ rq_permit req = Some fp)
  ∧ ((plans_of h = [] ∨ PlanUnknown ∈ plans_of h) → pj_existing job = true → permitted h ActUnknown None).

Definition delete_permitted (h : history) (req : DriverRequest) : Prop :=
  ∀ actions fp, PlanActions actions fp ∈ plans_of h → permitted h ActDelete (Some (fp, actions)) ∧ rq_permit req = Some fp.

(** The text shows none of the secrets, as they are or escaped. *)
Definition hides (secrets : list string) (text : string) : Prop :=
  ∀ v, v ∈ secrets → v ≠ ε → ¬ occurs v text ∧ ∀ f, f ∈ escaped_forms json_string v → ¬ occurs f text.

Definition may_ask (h : history) (c : XCall) : Prop :=
  match c with
  | XRead r => ∃ owner, may_use h owner r ∧ authorized h owner r
  | XResolve account _ _ => may_resolve h account
  | XDrive _ (DPut req) => mode = Changing ∧ put_permitted h req
  | XDrive _ (DDelete req) => mode = Deleting ∧ delete_permitted h req
  | XDrive _ (DCancel _) => mode ≠ Looking
  | XLog _ line => hides (secrets_of h) line
  | _ => True
  end.

(** ** The log *)

(** The log knows every secret. *)
Definition log_knows (h : history) (log : Redactor) : Prop :=
  ε ∉ log ∧ ∀ v, v ∈ secrets_of h → v ≠ ε → v ∈ log ∧ ∀ f, f ∈ escaped_forms json_string v → f ∈ log.

Lemma redacted_hides h log text : log_knows h log → hides (secrets_of h) (redacted log text).
Proof.
  intros [Hne Hall]. unfold redacted. destruct (redact_clean log text Hne) as (out & -> & Hout). simpl.
  intros v Hv Hv'. destruct (Hall v Hv Hv') as [Hin Hf]. split; [by apply Hout|]. intros f Hfin. by apply Hout, Hf.
Qed.

Context (Hjson : ∀ v, v ≠ ε → json_form json_string v ≠ ε).

Lemma log_knows_same h t log : secrets_of t = [] → log_knows h log → log_knows (h ++ t) log.
Proof. unfold log_knows. intros Ht Hk. by rewrite secrets_of_app, Ht, app_nil_r. Qed.

Lemma log_knows_add h t values log :
  (∀ v, v ∈ secrets_of t → v ≠ ε → v ∈ values) → log_knows h log → log_knows (h ++ t) (redactor_add json_string log values).
Proof.
  intros Ht [Hne Hall]. split.
  - intros [Hin|(v & Hv & Hv' & [Hv''|Hf])]%elem_of_redactor_add; [done..|].
    by apply (forms_ne json_string v ε); [apply Hjson| |].
  - intros v Hv Hv'. rewrite secrets_of_app in Hv. apply elem_of_app in Hv as [Hv|Hv].
    + destruct (Hall v Hv Hv') as [Hin Hf]. split; [apply elem_of_redactor_add; by left|].
      intros f Hfin. apply elem_of_redactor_add. left. by apply Hf.
    + split; [|intros f Hf]; apply elem_of_redactor_add; right; exists v; auto.
Qed.

(** ** Judgements *)

Abbreviation asks := (follows may_ask hear).

(** From a history and a log that knows its secrets, the program asks only what it may, without
    another plan, and ends with a log that knows; a result is as in [Q]. *)
Definition runs {A} (h : history) (log : Redactor) (m : exec A) (Q : history → A → Prop) : Prop :=
  log_knows h log →
  asks (λ h' x, later h h' ∧ log_knows h' x.1 ∧ match x.2 with Ok a => Q h' a | Err _ => True end) h (m log).

Lemma runs_ret {A} h log (a : A) (Q : history → A → Prop) : Q h a → runs h log (eret a) Q.
Proof. intros HQ Hk. by split. Qed.

Lemma runs_fail {A} h log f (Q : history → A → Prop) : runs h log (efail f) Q.
Proof. intros Hk. by split. Qed.

Lemma runs_result {A} h log r (Q : history → A → Prop) : (∀ a, r = Ok a → Q h a) → runs h log (eresult r) Q.
Proof. intros HQ Hk. split; [done|]. split; [done|]. destruct r; [by apply HQ|done]. Qed.

Lemma runs_mono {A} h log m (Q R : history → A → Prop) :
  runs h log m Q → (∀ h' a, later h h' → Q h' a → R h' a) → runs h log m R.
Proof.
  intros Hm HQ Hk. eapply follows_mono; [by apply Hm|]. intros h' [log' [a|f]] (Hl & Hk' & HQ'); cbn in *; auto.
Qed.

Lemma runs_bind {A B} h log (m : exec A) (k : A → exec B) Q R :
  runs h log m Q → (∀ h' log' a, later h h' → Q h' a → runs h' log' (k a) R) → runs h log (ebind m k) R.
Proof.
  intros Hm Hk Hlog. unfold ebind. eapply follows_bind; [by apply Hm|].
  intros h' [log' [a|f]] (Hl & Hlog' & HQ); cbn in *; [|done].
  eapply follows_mono; [by eapply Hk|]. intros h'' x (Hl' & ? & ?). split; [by transitivity h'|done].
Qed.

Lemma runs_call h log c (Q : history → xanswer c → Prop) :
  may_ask h c → (∀ x, event_secrets (existT c x) = [] ∧ event_plans (existT c x) = []) →
  (∀ x, Q (h ++ [existT c x]) x) → runs h log (ecall c) Q.
Proof.
  intros Hc Hquiet HQ Hk. split; [done|]. intros x. destruct (Hquiet x) as [Hs Hp].
  split; [by apply later_one|]. split; [|apply HQ]. apply log_knows_same; [|done]. change (event_secrets (existT c x) ++ [] = []). rewrite app_nil_r. exact Hs.
Qed.

Lemma runs_map_err {A} h log g (m : exec A) Q : runs h log m Q → runs h log (emap_err g m) Q.
Proof.
  intros Hm Hk. unfold emap_err. eapply follows_bind; [by apply Hm|].
  intros h' [log' [a|f]] (Hl & Hk' & HQ); by split_and!.
Qed.

Lemma runs_register h log values (Q : history → unit → Prop) : Q h tt → runs h log (register values) Q.
Proof.
  intros HQ Hk. split; [done|]. split; [|done]. cbn. rewrite <-(app_nil_r h). apply log_knows_add; [by intros v ?%not_elem_of_nil|done].
Qed.

Lemma runs_log h log level text (Q : history → unit → Prop) :
  (∀ h', later h h' → Q h' tt) → runs h log (log_write level text) Q.
Proof.
  intros HQ Hk. split; [done|]. intros full.
  assert (log_knows (h ++ [existT XLogFull full]) log) as Hk1 by (by apply log_knows_same).
  destruct full; cbn.
  - split_and!; [by apply later_one|done|]. apply HQ. by apply later_one.
  - split; [by apply redacted_hides|]. intros [].
    assert (later h ((h ++ [existT XLogFull false]) ++ [existT (XLog level (redacted log text)) ()])) as Hl.
    { transitivity (h ++ [existT XLogFull false]); by apply later_one. }
    split_and!; [done|by apply log_knows_same|by apply HQ].
Qed.

(** A call, and what follows it. *)
Lemma runs_ask {B} h log c (k : xanswer c → exec B) (Q : history → B → Prop) :
  may_ask h c → (∀ x, event_secrets (existT c x) = [] ∧ event_plans (existT c x) = []) →
  (∀ log' x, runs (h ++ [existT c x]) log' (k x) Q) → runs h log (ebind (ecall c) k) Q.
Proof.
  intros Hc Hq Hk. eapply runs_bind; [by apply (runs_call _ _ _ (λ h' x, h' = h ++ [existT c x]))|].
  intros h' log' x _ ->. apply Hk.
Qed.

(** ** Drivers *)

(** A driver's program that follows a protocol of its own, where the executor may call as it does. *)
Lemma embed_asks {A L} (allowed : L → DCall → Prop) next (P : L → A → Prop) d (p : dprog A) l h :
  follows allowed next P l p →
  (∀ l c h', later h h' → allowed l c → may_ask h' (XDrive d c) ∧ ∀ x, event_plans (existT (XDrive d c) x) = []) →
  asks (λ h' a, later h h' ∧ secrets_of h' = secrets_of h ∧ ∃ l', P l' a) h (embed d p).
Proof.
  intros Hp Hall. assert (∀ h', later h h' → secrets_of h' = secrets_of h →
    asks (λ h' a, later h h' ∧ secrets_of h' = secrets_of h ∧ ∃ l', P l' a) h' (embed d p)) as Hgen; [|by apply Hgen].
  revert l Hp. induction p as [a|c k IH]; intros l Hp h' Hl Hs; [split; [done|]; by split; [|exists l]|]. destruct Hp as [Hc Hk].
  destruct (Hall l c h' Hl Hc) as [Hm Hq]. cbn [embed follows]. split; [done|]. intros x.
  apply (IH x _ (Hk x)); [etransitivity; [exact Hl|]; by apply later_one|].
  rewrite secrets_of_app, Hs. apply app_nil_r.
Qed.

Lemma runs_drive {A L} (allowed : L → DCall → Prop) next (P : L → A → Prop) d (p : dprog A) l h log (Q : history → A → Prop) :
  follows allowed next P l p →
  (∀ l c h', later h h' → allowed l c → may_ask h' (XDrive d c) ∧ ∀ x, event_plans (existT (XDrive d c) x) = []) →
  (∀ h' l' a, later h h' → P l' a → Q h' a) → runs h log (edrive d p) Q.
Proof.
  intros Hp Hall HQ Hk. unfold edrive. eapply follows_bind; [by eapply embed_asks|].
  intros h' a (Hl & Hs & l' & Ha). cbn. split_and!; [done| |by eapply HQ]. unfold log_knows. by rewrite Hs.
Qed.

(** One call of a driver that changes nothing. *)
Lemma runs_drive_ask {T} d timeout (call : dprog (option (result T DriverError))) h log :
  follows (λ _ c, match c with DGet _ | DCheckPin _ | DCheckRetained _ => True | _ => False end) (λ u _ _, u)
    (λ _ _, True) tt call →
  runs h log (edrive d (with_timeout timeout call)) (λ _ _, True).
Proof.
  intros Hcall. eapply (runs_drive _ _ (λ _ _, True)); [eapply follows_bind; [exact Hcall|by intros]| |done].
  intros l c h' _ Hc. by destruct c.
Qed.

(** ** Programs that plan *)

Definition ends {A} (h : history) (log : Redactor) (m : exec A) (Q : history → A → Prop) : Prop :=
  log_knows h log → asks (λ h' x, log_knows h' x.1 ∧ match x.2 with Ok a => Q h' a | Err _ => True end) h (m log).

Lemma ends_bind {A B} h log (m : exec A) (k : A → exec B) Q R :
  ends h log m Q → (∀ h' log' a, Q h' a → ends h' log' (k a) R) → ends h log (ebind m k) R.
Proof.
  intros Hm Hk Hlog. unfold ebind. eapply follows_bind; [by apply Hm|].
  intros h' [log' [a|f]] [Hlog' HQ]; cbn in *; [by apply Hk|done].
Qed.

Lemma runs_ends {A} h log (m : exec A) Q : runs h log m Q → ends h log m (λ h' a, later h h' ∧ Q h' a).
Proof.
  intros Hm Hlog. eapply follows_mono; [by apply Hm|]. intros h' [log' [a|f]] (Hl & Hk & HQ); by split.
Qed.

Lemma ends_mono {A} h log (m : exec A) (Q R : history → A → Prop) :
  ends h log m Q → (∀ h' a, Q h' a → R h' a) → ends h log m R.
Proof.
  intros Hm HQ Hlog. eapply follows_mono; [by apply Hm|]. intros h' [log' [a|f]] [Hk HQ']; cbn in *; auto.
Qed.

Lemma runs_ends_done {A} h log (m : exec A) : runs h log m (λ _ _, True) → ends h log m (λ _ _, True).
Proof. intros Hm. eapply ends_mono; [by apply runs_ends|done]. Qed.

(** The plans after planning. *)
Definition planned (h h' : history) (p : Plan) : Prop :=
  (∀ e, e ∈ h → e ∈ h') ∧ (plans_of h' = plans_of h ++ [p] ∨ plans_of h' = plans_of h ∧ p = PlanUnknown).

Lemma plan_ends h log c delete : ends h log (plan c delete) (λ h' p, planned h h' p).
Proof.
  unfold plan. destruct (cp_preview _).
  - intros Hlog. cbn. split; [done|]. intros x.
    assert (log_knows (h ++ [existT (XDrive (rc_driver c) (DPlan delete (rc_req c))) x]) log) as Hk by (by apply log_knows_same).
    split; [done|]. destruct x as [[p|e]|]; cbn; [|done..]. split; [intros e He; apply elem_of_app; by left|]. left. by rewrite plans_of_app.
  - intros Hlog. split; [done|]. split; [done|]. by right.
Qed.

(** A program's failure is handed back redacted. *)
Lemma run_redacted_hides {A} (m : exec A) Q :
  ends [] [] m Q →
  asks (λ h r, match r with
    | Ok a => Q h a
    | Err (Permanent e) | Err (Retryable e _) | Err (Uncertain e _) => hides (secrets_of h) e
    end) [] (run_redacted m).
Proof.
  intros Hm. unfold run_redacted. eapply follows_bind; [apply Hm; split; [apply not_elem_of_nil|by intros v ?%not_elem_of_nil]|].
  intros h [log [a|f]] [Hk HQ]; cbn in *; [done|]. destruct f; by apply redacted_hides.
Qed.
End protocol.
