(* ===== verification/ExecutorProofs.v ===== *)
(** * What the executor ensures

    A secret is read only where its use was authorized for the deployment, by an owner the job
    may use it as; a driver replaces or deletes something only for a plan that was permitted;
    and neither a log nor a failure shows a secret. *)

From Stdlib Require Import Ascii.
From stdpp Require Import base sets strings list.
From S2P Require Import Prelude Effects Strings OrdMap Ids Float64 Json Model Criteria Placeholder Catalog Redact Artifacts Db Identity Deletion PlanInputs CatalogStore CatalogProofs PlanTask PlanChecks Recover DriverRun DriverRunProofs Executor ExecLogic.

Local Open Scope string_scope.
Local Open Scope list_scope.

Section job.
Context `{Libraries} `{CookieReader} (drivers : string → option DriverInfo) (store_id : string).
Context (job : ProvisionJob) (sources : list (SecretRef * SecretSource)) (criteria : bool) (mode : Mode).
Context (Hjson : ∀ v, v ≠ ε → json_form json_string v ≠ ε).
Abbreviation ctx := (pj_context job).
Abbreviation runs := (runs job sources criteria mode).
Abbreviation authorized := (authorized job).

(** ** Secrets *)

Lemma authorize_runs h log owners r refused :
  runs h log (authorize_any ctx owners r refused) (λ h' _, ∃ owner, owner ∈ owners ∧ authorized h' owner r).
Proof.
  revert h log refused. induction owners as [|owner owners IH]; intros h log refused; [apply runs_fail|].
  cbn [authorize_any]. apply runs_ask; [done..|]. intros log' [[]|e].
  - apply runs_ret. exists owner. split; [by left|]. apply heard_now.
  - destruct e; try apply runs_fail. eapply runs_mono; [apply IH|]. intros h' _ _ (o & Ho & Ha). exists o. split; [by right|done].
Qed.

(** A program that reads one secret, which its log does not know yet. *)
Definition reads (h : history) (log : Redactor) (m : exec string) : Prop :=
  follows (may_ask job sources criteria mode) hear
    (λ h' x, x.1 = log ∧ ∃ t, h' = h ++ t ∧ plans_of t = [] ∧ secrets_of t = match x.2 with Ok v => [v] | Err _ => [] end)
    h (m log).

Lemma read_reads h log r :
  (∃ owner, may_use job sources criteria h owner r ∧ authorized h owner r) → reads h log (read store_id r).
Proof.
  intros Hmay. unfold reads, read. destruct (negb _); [split; [done|]; exists []; by rewrite app_nil_r|].
  cbn. split; [done|]. intros [v|e]; cbn; [split; [done|]; by eexists|].
  destruct e; cbn; (split; [done|]; by eexists).
Qed.

Lemma reads_map_err h log g m : reads h log m → reads h log (emap_err g m).
Proof.
  intros Hm. unfold reads, emap_err in *. eapply follows_bind; [exact Hm|].
  intros h' [log' [v|f]] (-> & t & -> & Hp & Hs); (split; [done|]; by exists t).
Qed.

(** A value that is read is registered at once. *)
Lemma reads_registered {B} h log m (k : string → exec B) Q :
  reads h log m → (∀ h' log' v, later h h' → runs h' log' (k v) Q) →
  runs h log (ebind m (λ v, ebind (register [v]) (λ _, k v))) Q.
Proof.
  intros Hm Hk Hlog. unfold ebind at 1. eapply follows_bind; [exact Hm|].
  intros h' [log' [v|f]] (-> & t & -> & Hp & Hs); cbn -[redactor_add] in *.
  - assert (later h (h ++ t)) as Hl by (by exists t).
    eapply follows_mono; [apply (Hk (h ++ t) _ v Hl), log_knows_add; [done|by rewrite Hs|done]|].
    intros h' x (Hl' & ? & ?). split; [by transitivity (h ++ t)|done].
  - split_and!; [by exists t|by apply log_knows_same|done].
Qed.

Lemma definition_matched_later h h' : later h h' → definition_matched job h → definition_matched job h'.
Proof. intros Hl (def & w & Hh & Hw). exists def, w. eauto. Qed.

Lemma may_use_later h h' owner r : later h h' → may_use job sources criteria h owner r → may_use job sources criteria h' owner r.
Proof.
  intros Hl [(-> & Hr & Hm)|[Hs|(record & Hh & Ht & ->)]]; [left|by right; left|right; right].
  - split_and!; [done..|]. intros Hc. by eapply definition_matched_later, Hm.
  - exists record. eauto.
Qed.

Lemma use_secret_runs h log owners r :
  (∀ owner, owner ∈ owners → may_use job sources criteria h owner r) →
  runs h log (use_secret store_id ctx owners r) (λ _ _, True).
Proof.
  intros Hmay. eapply runs_bind; [apply authorize_runs|]. intros h' log' _ Hl (owner & Ho & Ha).
  apply reads_registered; [apply read_reads; exists owner; eauto using may_use_later|].
  intros. by apply runs_ret.
Qed.

Lemma definition_matches_runs h log :
  runs h log (definition_matches ctx (pj_definition_id job) (pj_descriptor job)) (λ h' _, definition_matched job h').
Proof.
  unfold definition_matches. apply runs_ask; [done..|]. intros log' [[def|]|e]; [|apply runs_fail..].
  destruct (definition_weight def _) as [w|] eqn:E; [|apply runs_fail]. apply runs_ret. exists def, w. split; [apply heard_now|done].
Qed.

Lemma read_definition_refs_runs h log refs read :
  (criteria = true → refs ≠ [] → definition_matched job h) → (∀ r, r ∈ refs → r ∈ refs_in (ji_secret_refs (pj_inputs job))) →
  runs h log (read_definition_refs store_id job refs read) (λ _ _, True).
Proof.
  revert h log read. induction refs as [|r refs IH]; intros h log read Hm Hr; [by apply runs_ret|]. cbn [read_definition_refs].
  eapply runs_bind; [apply use_secret_runs|].
  - intros owner ->%list_elem_of_singleton. left. split_and!; [done|apply Hr; by left|]. intros Hc. by apply Hm.
  - intros h' log' v Hl _. apply IH; [|intros r' Hr'; apply Hr; by right]. intros Hc _. by eapply definition_matched_later, Hm.
Qed.

Lemma elem_of_owners owner r : owner ∈ owners_of sources r → ∃ s, (r, s) ∈ sources ∧ owner = owner_of s.
Proof. intros ([r' s] & -> & [<- Hin]%list_elem_of_filter)%list_elem_of_fmap. by exists s. Qed.

Lemma read_input_refs_runs h log refs read :
  (∀ r, r ∈ refs → r ∈ refs_in (ji_secrets (pj_inputs job)) ∨ r ∈ refs_in (ji_resource (pj_inputs job))) →
  runs h log (read_input_refs store_id job sources refs read) (λ _ _, True).
Proof.
  revert h log read. induction refs as [|r refs IH]; intros h log read Hr; [by apply runs_ret|]. cbn [read_input_refs].
  assert (∀ r', r' ∈ refs → r' ∈ refs_in (ji_secrets (pj_inputs job)) ∨ r' ∈ refs_in (ji_resource (pj_inputs job))) as Hrest
    by (intros r' Hr'; apply Hr; by right).
  destruct (bt_contains r read); [by apply IH|].
  destruct (owners_of sources r) as [|o owners] eqn:Eo; [apply runs_fail|].
  eapply runs_bind; [apply use_secret_runs|intros; by apply IH].
  intros owner Hin. rewrite <-Eo in Hin. apply elem_of_owners in Hin as (s & Hs & ->).
  right; left. exists s. split_and!; [done..|]. apply Hr. by left.
Qed.

Lemma read_secrets_runs h log :
  runs h log (read_secrets store_id job sources criteria)
    (λ h' _, criteria = true → is_Some (pj_driver_account job) → definition_matched job h').
Proof.
  unfold read_secrets. set (needs := match definition_refs job with [] => _ | _ => true end).
  eapply (runs_bind _ _ _ _ _ _ _ _ (λ h' _, criteria && needs = true → definition_matched job h')).
  { destruct (criteria && needs); [|by apply runs_ret]. by eapply runs_mono; [apply definition_matches_runs|]. }
  intros h1 log1 _ Hl1 Hm. eapply runs_bind; [apply read_definition_refs_runs|].
  - intros Hc Hne. apply Hm. rewrite Hc. unfold needs. by destruct (definition_refs job).
  - intros r Hr. unfold definition_refs in Hr. by rewrite elem_of_bs_of_list in Hr.
  - intros h2 log2 read Hl2 _. eapply runs_mono; [apply read_input_refs_runs|].
    + intros r Hr. unfold input_refs in Hr. by rewrite elem_of_bs_of_list, elem_of_app in Hr.
    + intros h3 read' Hl3 _ Hc [id Hid]. eapply definition_matched_later; [exact Hl3|].
      eapply definition_matched_later; [exact Hl2|]. apply Hm. rewrite Hc. unfold needs. rewrite Hid.
      by destruct (definition_refs job).
Qed.

(** ** Cloud accounts *)

Lemma authorize_all_runs h log owner refs :
  runs h log (authorize_all ctx owner refs) (λ h' _, ∀ r, r ∈ refs → authorized h' owner r).
Proof.
  revert h log. induction refs as [|r refs IH]; intros h log; [apply runs_ret; by intros ? ?%not_elem_of_nil|].
  eapply runs_bind; [apply authorize_runs|]. intros h1 log1 _ Hl1 (o & ->%list_elem_of_singleton & Ha).
  eapply runs_mono; [apply IH|]. intros h2 u Hl2 Hall r' [->|Hr]%elem_of_cons; [by eapply later_heard|by apply Hall].
Qed.

Lemma credential_secrets_all c v :
  v ∈ aws_secret_access_key c :: option_list (aws_session_token c) → v ≠ ε → v ∈ credential_secrets c.
Proof.
  intros Hv Hne. unfold credential_secrets. apply list_elem_of_filter. split; [done|]. by destruct (aws_session_token c).
Qed.

Lemma account_credentials_runs h log id window :
  pj_driver_account job = Some id → (criteria = true → definition_matched job h) →
  runs h log (account_credentials ctx id window) (λ _ _, True).
Proof.
  intros Hid Hm. unfold account_credentials. apply runs_ask; [done..|]. intros log1 read_at.
  apply runs_ask; [done..|]. intros log2 [[account|]|e]; [|apply runs_fail..].
  eapply runs_bind; [apply authorize_all_runs|]. intros h3 log3 u Hl3 Hall Hlog. cbn -[redactor_add].
  assert (later h h3) as Hl.
  { etransitivity; [|exact Hl3]. etransitivity; apply later_one; done. }
  split.
  { split; [intros Hc; by eapply definition_matched_later, Hm|]. exists id. split_and!; [done| |done].
    eapply later_heard; [exact Hl3|]. apply heard_now. }
  intros [credentials|e]; cbn -[redactor_add].
  - split_and!; [by apply later_one| |done]. apply log_knows_add; [done| |done].
    intros v Hv Hne. cbn in Hv. rewrite app_nil_r in Hv. by apply credential_secrets_all.
  - split_and!; [by apply later_one|by apply log_knows_same|done].
Qed.

Lemma credentials_runs h log window :
  (criteria = true → is_Some (pj_driver_account job) → definition_matched job h) →
  runs h log (credentials job window) (λ _ _, True).
Proof.
  intros Hm. unfold credentials. destruct (pj_driver_account job) as [id|] eqn:Hid; [|by apply runs_ret].
  eapply runs_bind; [apply account_credentials_runs; [done|]; intros; by apply Hm|].
  intros h1 log1 keys Hl1 _. apply runs_ask; [done..|]. intros log2 [account|e]; [|apply runs_fail].
  eapply (runs_bind _ _ _ _ _ _ _ _ (λ _ _, True)); [destruct (_ && _); [by apply runs_log|by apply runs_ret]|].
  intros h3 log3 _ Hl3 _. destruct (pj_target job) as [previous|]; [destruct (String.eqb _ _)|]; by apply runs_ret || apply runs_fail.
Qed.

(** ** Drivers and requests *)

Lemma open_cookie_runs h log : runs h log (open_cookie job) (λ _ _, True).
Proof.
  unfold open_cookie. destruct (pj_cookie job) as [sealed|]; [|by apply runs_ret].
  apply runs_ask; [done..|]. intros log1 [[plain|]|e]; [|apply runs_fail..].
  destruct (read_cookie plain); [by apply runs_ret|apply runs_fail].
Qed.

Lemma newer_cookie_runs h log req cookie : runs h log (newer_cookie job req cookie) (λ _ _, True).
Proof.
  unfold newer_cookie. destruct cookie as [c|]; [|by apply runs_ret]. destruct (decide _); [by apply runs_ret|].
  apply runs_ask; [done..|]. intros. by apply runs_ret.
Qed.

(** A registration that is found was read. *)
Definition found_ok (h : history) (f : Found) : Prop :=
  match f with
  | FoundInProcess _ _ => True
  | FoundRegistered record _ => heard h (XDriverRecord (jc_org ctx) (pj_driver_type job)) (Ok (Some record))
  end.

Lemma find_driver_runs h log : runs h log (find_driver drivers job) found_ok.
Proof.
  unfold find_driver. destruct (drivers _) as [info|]; [by apply runs_ret|].
  apply runs_ask; [done..|]. intros log1 [[record|]|e]; [|apply runs_fail..]. apply runs_ret. apply heard_now.
Qed.

Lemma http_client_runs h log record : runs h log (http_client record) (λ _ _, True).
Proof.
  unfold http_client. apply runs_ask; [done..|]. intros log1 []; [by apply runs_ret|].
  destruct (starts_with _ _); [|apply runs_fail]. apply runs_ask; [done..|]. intros. by apply runs_result.
Qed.

Lemma open_driver_runs h log found : found_ok h found → runs h log (open_driver store_id job found) (λ _ _, True).
Proof.
  intros Hf. destruct found as [id info|record info]; [by apply runs_ret|]. cbn [open_driver].
  eapply (runs_bind _ _ _ _ _ _ _ _ (λ _ _, True)).
  - destruct (dr_token record) as [r|] eqn:Et; [|by apply runs_ret].
    eapply runs_bind; [apply runs_map_err, authorize_runs|].
    intros h1 log1 _ Hl1 (owner & ->%list_elem_of_singleton & Ha).
    apply reads_registered; [|intros; by apply runs_ret].
    apply reads_map_err, read_reads. exists (OwnerDriver (dr_id record)). split; [|done].
    right; right. exists record. split_and!; [by eapply later_heard|done..].
  - intros h1 log1 token Hl1 _. eapply runs_bind; [apply http_client_runs|]. intros h2 log2 _ Hl2 _.
    apply runs_ask; [done..|]. intros log3 opened. eapply runs_bind; [by apply (runs_result _ _ _ _ _ _ _ (λ _ _, True))|].
    intros. by apply runs_ret.
Qed.

(** The request is built from the job, and carries no permit yet. *)
Lemma request_with_runs h log driver info :
  runs h log (request_with store_id job driver info sources criteria)
    (λ h' c, rc_driver c = driver ∧ rc_info c = info
      ∧ (criteria = true → is_Some (pj_driver_account job) → definition_matched job h')).
Proof.
  unfold request_with. eapply (runs_bind _ _ _ _ _ _ _ _ (λ _ _, True)); [by apply runs_result|]. intros h1 log1 values _ _.
  eapply (runs_bind _ _ _ _ _ _ _ _ (λ _ _, True)); [apply runs_ask; [done..|]; intros; by apply runs_ret|]. intros h2 log2 time_left _ _.
  eapply (runs_bind _ _ _ _ _ _ _ _ (λ _ _, True)); [by apply runs_result|]. intros h3 log3 timeout _ _.
  eapply runs_bind; [apply read_secrets_runs|]. intros h4 log4 found _ Hm.
  eapply (runs_bind _ _ _ _ _ _ _ _ (λ _ _, True)); [by apply runs_result|]. intros h5 log5 [resource resource_secrets] Hl5 _.
  eapply (runs_bind _ _ _ _ _ _ _ _ (λ _ _, True)); [by apply runs_result|]. intros h6 log6 secrets Hl6 _.
  eapply (runs_bind _ _ _ _ _ _ _ _ (λ _ _, True)); [by apply runs_result|]. intros h7 log7 refs Hl7 _.
  assert (later h4 h7) as Hl by (by etransitivity; [|etransitivity]).
  eapply runs_bind; [apply credentials_runs; intros; eapply definition_matched_later; [exact Hl|]; by apply Hm|].
  intros h8 log8 keys Hl8 _. eapply runs_bind; [apply open_cookie_runs|]. intros h9 log9 cookie Hl9 _.
  apply runs_ret. split_and!; [done..|]. intros Hc Ha.
  eapply definition_matched_later; [|by apply Hm]. by etransitivity; [|etransitivity].
Qed.

Lemma request_runs h log :
  runs h log (request drivers store_id job sources criteria)
    (λ h' c, criteria = true → is_Some (pj_driver_account job) → definition_matched job h').
Proof.
  unfold request. eapply runs_bind; [apply find_driver_runs|]. intros h1 log1 found Hl1 Hf.
  eapply runs_bind; [by apply open_driver_runs|]. intros h2 log2 [driver info] Hl2 _.
  eapply runs_mono; [apply request_with_runs|]. by intros h3 c _ (_ & _ & ?).
Qed.

(** ** Permits *)

Lemma permit_runs h log action p : runs h log (permit job action p) (λ h' _, permitted job h' action p).
Proof.
  unfold permit. apply runs_ask; [done..|]. intros log1 [[[]|e]|]; [|apply runs_fail..].
  apply runs_ret. apply heard_now.
Qed.

Lemma put_permitted_later h h' req req' :
  later h h' → rq_permit req' = rq_permit req → put_permitted job h req → put_permitted job h' req'.
Proof.
  intros Hl Hp [Hd Hu]. unfold put_permitted, permitted in *. rewrite (later_plans _ _ Hl), Hp. split; [|by eauto].
  intros actions fp action Hin Ha. destruct (Hd actions fp action Hin Ha). eauto.
Qed.

Lemma delete_permitted_later h h' req req' :
  later h h' → rq_permit req' = rq_permit req → delete_permitted job h req → delete_permitted job h' req'.
Proof.
  intros Hl Hp Hd. unfold delete_permitted, permitted in *. rewrite (later_plans _ _ Hl), Hp.
  intros actions fp Hin. destruct (Hd actions fp Hin). eauto.
Qed.

Lemma destructive_needs actions action : needs_permit actions action → destructive actions = Some action.
Proof.
  assert (∀ a, existsb (λ x : Action * string, bool_decide (x.1 = a)) actions = true ↔ ∃ what, (a, what) ∈ actions) as Hex.
  { intros a. rewrite existsb_exists. setoid_rewrite bool_decide_eq_true. setoid_rewrite <- list_elem_of_In.
    split; [intros ([b what] & Hin & <-); by exists what|intros (what & Hin); by exists (a, what)]. }
  unfold destructive. intros [what Hin|what Hin Hno].
  - by rewrite (proj2 (Hex AReplace)) by (by exists what).
  - destruct (existsb _ actions) eqn:E at 1; [apply Hex in E as [other Ho]; by destruct (Hno other)|].
    by rewrite (proj2 (Hex ADelete)) by (by exists what).
Qed.

Lemma permit_put_runs h log req p :
  plans_of h = [p] ∨ plans_of h = [] ∧ p = PlanUnknown →
  runs h log (permit_put job req p) (λ h' req', put_permitted job h' req').
Proof.
  intros Hp. assert (∀ h' req', later h h' →
    (∀ actions fp action, p = PlanActions actions fp → needs_permit actions action →
      permitted job h' action (Some (fp, actions)) ∧ rq_permit req' = Some fp) →
    (p = PlanUnknown → pj_existing job = true → permitted job h' ActUnknown None) → put_permitted job h' req') as Hput.
  { intros h' req' Hl Ha Hu. unfold put_permitted. rewrite (later_plans _ _ Hl).
    destruct Hp as [-> | [-> ->]]; (split; [intros actions fp action Hin|intros Hin]).
    - apply list_elem_of_singleton in Hin as <-. by apply Ha.
    - destruct Hin as [?|<-%list_elem_of_singleton]; [done|]. by apply Hu.
    - by apply not_elem_of_nil in Hin.
    - by apply Hu. }
  destruct p as [| |actions fp]; cbn [permit_put].
  - destruct (pj_existing job) eqn:Ee; [|by apply runs_ret, Hput].
    eapply runs_bind; [by apply (runs_log _ _ _ _ _ _ _ _ (λ _ _, True))|]. intros h1 log1 _ Hl1 _.
    eapply runs_bind; [apply permit_runs|]. intros h2 log2 u Hl2 Hper. apply runs_ret, Hput; [by transitivity h1|done..].
  - eapply runs_bind; [by apply (runs_log _ _ _ _ _ _ _ _ (λ _ _, True))|]. intros h1 log1 _ Hl1 _. by apply runs_ret, Hput.
  - eapply runs_bind; [by apply (runs_log _ _ _ _ _ _ _ _ (λ _ _, True))|]. intros h1 log1 _ Hl1 _.
    destruct (destructive actions) as [action|] eqn:Ed.
    + eapply runs_bind; [apply permit_runs|]. intros h2 log2 u Hl2 Hper. apply runs_ret, Hput; [by transitivity h1| |done].
      intros actions' fp' action' [= <- <-] Ed'%destructive_needs. rewrite Ed in Ed'. by simplify_eq.
    + apply runs_ret, Hput; [done| |done]. intros actions' fp' action' [= <- <-] Ed'%destructive_needs. congruence.
Qed.

Lemma permit_delete_runs h log req p :
  plans_of h = [p] ∨ plans_of h = [] ∧ p = PlanUnknown →
  runs h log (permit_delete job req p) (λ h' req', delete_permitted job h' req').
Proof.
  intros Hp. destruct p as [| |actions fp]; cbn [permit_delete].
  1,2: apply runs_ret; intros actions fp Hin; destruct Hp as [E|[E _]]; rewrite E in Hin; [by apply list_elem_of_singleton in Hin|by apply not_elem_of_nil in Hin].
  eapply runs_bind; [apply permit_runs|]. intros h2 log2 u Hl2 Hper. apply runs_ret.
  intros actions' fp' Hin. rewrite (later_plans _ _ Hl2) in Hin. destruct Hp as [E|[_ ?]]; [|done].
  rewrite E in Hin. by apply list_elem_of_singleton in Hin as [= -> ->].
Qed.

(** ** Results *)

Lemma refresh_runs h log req window :
  (criteria = true → is_Some (pj_driver_account job) → definition_matched job h) →
  runs h log (refresh job req window) (λ _ x, rq_permit x.1 = rq_permit req).
Proof.
  intros Hm. eapply runs_bind; [by apply credentials_runs|]. intros h1 log1 [[keys target]|] Hl1 _; by apply runs_ret.
Qed.

Lemma write_secrets_runs h log secrets written : runs h log (write_secrets job secrets written) (λ _ _, True).
Proof.
  revert h log written. induction secrets as [|[key value] secrets IH]; intros h log written; [by apply runs_ret|].
  cbn [write_secrets]. apply runs_ask; [done..|]. intros log1 [r|e]; [apply IH|apply runs_fail].
Qed.

Lemma provisioned_runs h log outputs cookie target : runs h log (provisioned job outputs cookie target) (λ _ _, True).
Proof.
  unfold provisioned. eapply (runs_bind _ _ _ _ _ _ _ _ (λ _ _, True)); [by apply runs_result|]. intros h1 log1 _ _ _.
  eapply (runs_bind _ _ _ _ _ _ _ _ (λ _ _, True)); [by apply runs_register|]. intros h2 log2 _ _ _.
  eapply runs_bind; [apply write_secrets_runs|]. intros h3 log3 written _ _.
  eapply (runs_bind _ _ _ _ _ _ _ _ (λ _ _, True)); [|intros; by apply runs_ret].
  destruct cookie; [apply runs_ask; [done..|]; intros; by apply runs_ret|by apply runs_ret].
Qed.

Lemma converge_runs h log d info req timeout :
  mode = Changing → put_permitted job h req → runs h log (edrive d (converge info req timeout)) (λ _ _, True).
Proof.
  intros Hmode Hp. eapply runs_drive; [apply converge_follows| |done]. intros k c h' Hl Hc.
  destruct c; cbn in *; try done; split; try done; [|by destruct Hc as [? _]|by rewrite Hmode].
  destruct Hc as (_ & _ & -> & _). split; [done|]. by eapply put_permitted_later.
Qed.

Lemma remove_runs h log d info req timeout :
  mode = Deleting → delete_permitted job h req → runs h log (edrive d (remove info req timeout)) (λ _ _, True).
Proof.
  intros Hmode Hp. eapply runs_drive; [apply remove_follows| |done]. intros k c h' Hl Hc.
  destruct c; cbn in *; try done; split; try done; [by destruct Hc as [? _]| |by rewrite Hmode].
  destruct Hc as (_ & _ & -> & _). split; [done|]. by eapply delete_permitted_later.
Qed.
End job.

(** ** Jobs *)

Section operations.
Context `{Libraries} `{CookieReader} (drivers : string → option DriverInfo) (store_id : string) (job : ProvisionJob).
Context (Hjson : ∀ v, v ≠ ε → json_form json_string v ≠ ε).

Abbreviation direct := (ji_sources (pj_inputs job)).
Abbreviation derived := (sources_of (pj_inputs job)).
Abbreviation done_ := (λ _ _, True).

Lemma remaining_runs sources criteria mode h log : runs job sources criteria mode h log (remaining job) done_.
Proof. apply runs_ask; [done..|]. intros. by apply runs_ret. Qed.

(** Plans of a program that has not planned before. *)
Lemma planned_first h h' h'' p :
  later [] h → planned h h' p → later h' h'' → plans_of h'' = [p] ∨ plans_of h'' = [] ∧ p = PlanUnknown.
Proof.
  intros Hl [_ Hp] Hl'. rewrite (later_plans _ _ Hl'). apply later_plans in Hl. rewrite Hl in Hp. cbn in Hp. done.
Qed.

Lemma planned_matched h h' p : planned h h' p → definition_matched job h → definition_matched job h'.
Proof. intros [Hsub _] (def & w & Hh & Hw). exists def, w. auto. Qed.

Lemma run_provision_ends : ends job direct true Changing [] [] (run_provision drivers store_id job) done_.
Proof.
  unfold run_provision. eapply ends_bind; [by apply runs_ends, request_runs|]. intros h1 log1 c [Hl1 Hm1].
  eapply ends_bind; [apply plan_ends|]. intros h2 log2 p Hp.
  eapply ends_bind; [apply runs_ends, permit_put_runs; by eapply planned_first|]. intros h3 log3 req [Hl3 Hput].
  eapply ends_bind; [by apply runs_ends, remaining_runs|]. intros h4 log4 time_left [Hl4 _]. cbv zeta.
  eapply ends_bind; [apply runs_ends, refresh_runs; [done|]|].
  { intros Hc Ha. eapply definition_matched_later; [exact Hl4|]. eapply definition_matched_later; [exact Hl3|].
    eapply planned_matched; [exact Hp|]. by apply Hm1. }
  intros h5 log5 [req' target] [Hl5 Hpermit].
  eapply ends_bind; [apply runs_ends, converge_runs; [done|]|].
  { eapply put_permitted_later, Hput; [|done]. by transitivity h4. }
  intros h6 log6 s _. eapply ends_bind; [apply runs_ends, newer_cookie_runs|]. intros h7 log7 newer _.
  destruct (st_result _) as [outputs|e]; [|by intros Hk].
  by apply runs_ends_done, runs_map_err, provisioned_runs.
Qed.

Lemma run_deprovision_ends : ends job derived false Deleting [] [] (run_deprovision drivers store_id job) done_.
Proof.
  unfold run_deprovision. eapply ends_bind; [by apply runs_ends, request_runs|]. intros h1 log1 c [Hl1 Hm1].
  eapply ends_bind; [apply plan_ends|]. intros h2 log2 p Hp.
  eapply ends_bind; [apply runs_ends, permit_delete_runs; by eapply planned_first|]. intros h3 log3 req [Hl3 Hdel].
  eapply ends_bind; [by apply runs_ends, remaining_runs|]. intros h4 log4 time_left [Hl4 _]. cbv zeta.
  eapply ends_bind; [by apply runs_ends, refresh_runs|]. intros h5 log5 [req' target] [Hl5 Hpermit].
  eapply ends_bind; [apply runs_ends, remove_runs; [done|]|].
  { eapply delete_permitted_later, Hdel; [|done]. by transitivity h4. }
  intros h6 log6 s _. eapply ends_bind; [apply runs_ends, newer_cookie_runs|]. intros h7 log7 newer _.
  intros Hk. split; [done|]. by destruct (map_err _ _).
Qed.

Lemma observing_runs h log c r cookie : runs job derived false Looking h log (observing job c r cookie) done_.
Proof.
  unfold observing. eapply (runs_bind _ _ _ _ _ _ _ _ done_); [|intros; by apply runs_ret]. unfold observed_cookie.
  destruct cookie; [|by apply runs_ret]. destruct (is_ok _); [apply newer_cookie_runs|by apply runs_ret].
Qed.

Lemma runs_try {A} h log (m : exec A) : runs job derived false Looking h log m done_ → runs job derived false Looking h log (etry m) done_.
Proof.
  intros Hm Hk. unfold etry. eapply follows_bind; [by apply Hm|]. by intros h' [log' r] (Hl & Hk' & _).
Qed.

Lemma observed_runs h log c deleting o : runs job derived false Looking h log (observed job c deleting o) done_.
Proof.
  destruct o as [cookie|after cookie|outputs cookie|error|reason cookie]; cbn [observed]; try apply observing_runs.
  - destruct (_ || _); [apply observing_runs|]. unfold observed_ready.
    destruct (match cookie with Some k => check_cookie _ k | None => _ end); [|apply runs_fail].
    eapply runs_bind; [by apply runs_try, provisioned_runs|]. intros h1 log1 [p|f] _ _; [by apply runs_ret|apply observing_runs].
  - destruct (error_split error). apply observing_runs.
Qed.

Lemma run_observe_ends deleting : ends job derived false Looking [] [] (run_observe drivers store_id job deleting) done_.
Proof.
  unfold run_observe. apply runs_ends_done.
  eapply runs_bind; [apply find_driver_runs|]. intros h1 log1 found Hl1 Hf.
  destruct (negb _); [by apply runs_ret|]. eapply runs_bind; [by apply open_driver_runs|].
  intros h2 log2 [driver info] Hl2 _. eapply runs_bind; [by apply request_with_runs|]. intros h3 log3 c Hl3 _.
  eapply runs_bind; [by apply runs_drive_ask|]. intros h4 log4 [o|e] Hl4 _; [apply observed_runs|].
  destruct (error_split e). apply observing_runs.
Qed.

Lemma check_ends sources criteria what (call : DriverRequest → dprog (option (result unit DriverError))) :
  (∀ req, follows (λ _ c, match c with DGet _ | DCheckPin _ | DCheckRetained _ => True | _ => False end) (λ u _ _, u)
    (λ _ _, True) tt (call req)) →
  ends job sources criteria Looking [] []
    (let^ c := request drivers store_id job sources criteria in
     let^ checked := edrive (rc_driver c) (with_timeout (rc_timeout c) (call (rc_req c))) in
     eresult (map_err (check_failure what) checked)) done_.
Proof.
  intros Hcall. apply runs_ends_done. eapply runs_bind; [by apply request_runs|]. intros h1 log1 c _ _.
  eapply runs_bind; [apply runs_drive_ask, Hcall|]. intros. by apply runs_result.
Qed.
End operations.

(** ** Traces of a job *)

(** What the planner has the executor do with a job. *)
Inductive JobCall := JProvision | JDeprovision | JObserve (deleting : bool) | JCheckPin | JCheckRetained.

Definition call_mode (j : JobCall) : Mode :=
  match j with JProvision => Changing | JDeprovision => Deleting | _ => Looking end.

(** A change is made as the definition is now; what is there is looked at and deleted as it was. *)
Definition checks_criteria (j : JobCall) : bool :=
  match j with JProvision | JCheckPin => true | _ => false end.

Definition failure_text (f : ExecFailure) : string :=
  match f with Permanent e | Retryable e _ | Uncertain e _ => e end.

(** The texts of a result; those of an observation go into records. *)
Definition result_texts {A} (r : result A ExecFailure) : list string :=
  match r with Ok _ => [] | Err f => [failure_text f] end.
Definition observed_texts (r : result Observed ExecFailure) : list string :=
  match r with
  | Ok (ObFailed e _) | Ok (ObUnknown e) => [e]
  | Ok _ => []
  | Err f => [failure_text f]
  end.

Section traces.
Context `{Libraries} `{CookieReader} (drivers : string → option DriverInfo) (store_id : string) (job : ProvisionJob).

Definition call_sources (j : JobCall) : list (SecretRef * SecretSource) :=
  if checks_criteria j then ji_sources (pj_inputs job) else sources_of (pj_inputs job).

(** The call asked this, and handed back these texts. *)
Definition call_gives (j : JobCall) (tr : history) (texts : list string) : Prop :=
  match j with
  | JProvision => ∃ r, gives (provision drivers store_id job) tr r ∧ texts = result_texts r
  | JDeprovision => ∃ r, gives (deprovision drivers store_id job) tr r ∧ texts = result_texts r
  | JObserve deleting => ∃ o, gives (observe drivers store_id job deleting) tr o ∧ texts = observed_texts (ob_result o)
  | JCheckPin => ∃ r, gives (check_pin drivers store_id job) tr r ∧ texts = result_texts r
  | JCheckRetained => ∃ r, gives (check_retained drivers store_id job) tr r ∧ texts = result_texts r
  end.

Context (Hjson : ∀ v, v ≠ ε → json_form json_string v ≠ ε).

Abbreviation allowed j := (may_ask job (call_sources j) (checks_criteria j) (call_mode j)).

Lemma ends_gives {A} j (m : exec A) Q tr r :
  ends job (call_sources j) (checks_criteria j) (call_mode j) [] [] m Q → gives (run_redacted m) tr r →
  (∀ tr1 c x tr2, tr = tr1 ++ existT c x :: tr2 → allowed j tr1 c) ∧ Forall (hides (secrets_of tr)) (result_texts r).
Proof.
  intros Hm Hg. destruct (follows_gives _ _ _ _ _ _ (run_redacted_hides _ _ _ _ m Q Hm) Hg) as [Hr Hall].
  split; [exact Hall|]. destruct r as [a|f]; [by apply Forall_nil|]. apply Forall_singleton. by destruct f.
Qed.

Lemma observe_gives deleting tr o :
  gives (observe drivers store_id job deleting) tr o →
  (∀ tr1 c x tr2, tr = tr1 ++ existT c x :: tr2 → allowed (JObserve deleting) tr1 c)
  ∧ Forall (hides (secrets_of tr)) (observed_texts (ob_result o)).
Proof.
  intros Hg. eapply (follows_gives (allowed (JObserve deleting))
    (λ h o, Forall (hides (secrets_of h)) (observed_texts (ob_result o))) _ []) in Hg as [Ho Hall]; [by split|].
  unfold observe. eapply follows_bind.
  { apply (run_observe_ends drivers store_id job Hjson deleting). split; [apply not_elem_of_nil|by intros v ?%not_elem_of_nil]. }
  intros h [log [o'|f]] [Hk _]; cbn in *.
  - destruct (ob_result o') as [[]|[]]; try done; apply Forall_singleton; by apply redacted_hides.
  - destruct f; apply Forall_singleton; by apply redacted_hides.
Qed.

(** A call asks only what it may, and hands back texts that hide every secret it came across. *)
Lemma call_asks j tr texts :
  call_gives j tr texts →
  (∀ tr1 c x tr2, tr = tr1 ++ existT c x :: tr2 → allowed j tr1 c) ∧ Forall (hides (secrets_of tr)) texts.
Proof.
  destruct j; cbn [call_gives]; intros (r & Hg & ->).
  - eapply (ends_gives JProvision), Hg. by apply run_provision_ends.
  - eapply (ends_gives JDeprovision), Hg. by apply run_deprovision_ends.
  - by apply observe_gives.
  - eapply (ends_gives JCheckPin), Hg. by apply (check_ends drivers store_id job Hjson _ _ "pinned" (λ req, dask (DCheckPin req))).
  - eapply (ends_gives JCheckRetained), Hg. by apply (check_ends drivers store_id job Hjson _ _ "retained" (λ req, dask (DCheckRetained req))).
Qed.
End traces.

(** ** What the executor ensures *)

Section claims.
Context `{Libraries} `{CookieReader} (drivers : string → option DriverInfo) (store_id : string) (job : ProvisionJob).

(** The store's answers: each use was checked against the database of that time. *)
Definition checked_by_store (store_org : string) (states : nat → Db) (tr : history) : Prop :=
  ∀ i org app env owner r x, tr !! i = Some (existT (XAuthorize org app env owner r) x) →
    x = match authorize_secret_use store_org org app env owner r (mk_Conn (states i) 0) with Ok _ => Ok tt | Err e => Err e end.

Lemma checked_before store_org states tr i owner r :
  checked_by_store store_org states tr → authorized job (take i tr) owner r →
  ∃ k, k < i ∧ use_allowed (states k) (jc_app (pj_context job)) (jc_env (pj_context job)) owner r.
Proof.
  intros Hst (k & [Hk Hlt]%lookup_take_Some)%list_elem_of_lookup. exists k. split; [done|]. specialize (Hst _ _ _ _ _ _ _ Hk).
  destruct (authorize_secret_use _ _ _ _ _ _ _) as [y|] eqn:E; [|done].
  by destruct (proj1 (authorize_secret_use_exact store_org _ _ _ owner r _) (ex_intro _ y E)).
Qed.

(** C19: Every secret that a job reads was one that the job may use, at the time. With a store that
    answers as it does, before each secret that is read, and for each secret of an account whose
    credentials are resolved, there was a time in the job at which its store was registered and
    the owner the job has it from could use it in the job's environment: it was the owner's own,
    written below the owner's name in the built-in store, or a grant covered it there; and where
    it comes from another resource, that resource was active in the environment. The owner is the
    job's definition for the definition's own references, an owner recorded for one of the job's
    inputs, its driver for the driver's token, or its cloud account for the account's secrets.
    Where something changes, the definition was read again and still matched the resource before a
    secret of the definition or of its account was used. *)
Theorem secrets_read_were_allowed (j : JobCall) (tr : history) (i : nat) (c : XCall) (x : xanswer c) (texts : list string)
    (store_org : string) (states : nat → Db) :
  (∀ v, v ≠ ε → json_form json_string v ≠ ε) →
  call_gives drivers store_id job j tr texts → checked_by_store store_org states tr → tr !! i = Some (existT c x) →
  let allowed owner r := ∃ k, k < i ∧ use_allowed (states k) (jc_app (pj_context job)) (jc_env (pj_context job)) owner r in
  match c with
  | XRead r => ∃ owner, may_use job (call_sources job j) (checks_criteria j) (take i tr) owner r ∧ allowed owner r
  | XResolve account _ _ =>
      may_resolve job (checks_criteria j) (take i tr) account
      ∧ ∃ id, pj_driver_account job = Some id ∧ ∀ r, r ∈ bt_values (ca_secret_refs account) → allowed (OwnerAccount id) r
  | _ => True
  end.
Proof.
  intros Hjson Hg Hst Hi. destruct (call_asks drivers store_id job Hjson j tr texts Hg) as [Hall _].
  specialize (Hall _ _ _ _ (eq_sym (take_drop_middle _ _ _ Hi))). destruct c; try done; simpl in Hall |- *.
  - destruct Hall as (owner & Hmay & Hauth). exists owner. split; [done|]. by eapply checked_before.
  - split; [done|]. destruct Hall as (_ & id & Hid & _ & Hrefs). exists id. split; [done|]. intros r Hr. eapply checked_before; [exact Hst|]. by apply Hrefs.
Qed.

(** C20: A driver changes something only with the permits of the deployment. A driver is called to
    put a resource only when a job is provisioned, and to delete one only when it is
    deprovisioned; observing and checking call it neither to change nor to cancel anything. When
    the driver planned a change that replaces something, the permits were checked for a
    replacement by that plan before it is called, when it planned one that deletes something and
    replaces nothing, for a deletion by it, and the driver is told the fingerprint it may act on;
    when the impact
    of changing an existing resource is unknown, that was permitted. A planned deletion was
    permitted for its plan. *)
Theorem driver_changes_are_permitted (j : JobCall) (tr tr1 tr2 : history) (d : Handle) (c : DCall) (x : danswer c) (texts : list string) :
  (∀ v, v ≠ ε → json_form json_string v ≠ ε) →
  call_gives drivers store_id job j tr texts → tr = tr1 ++ existT (XDrive d c) x :: tr2 →
  match c with
  | DPut req => j = JProvision ∧ put_permitted job tr1 req
  | DDelete req => j = JDeprovision ∧ delete_permitted job tr1 req
  | DCancel _ => j = JProvision ∨ j = JDeprovision
  | _ => True
  end.
Proof.
  intros Hjson Hg Htr. destruct (call_asks drivers store_id job Hjson j tr texts Hg) as [Hall _].
  specialize (Hall _ _ _ _ Htr). destruct c; try done; cbn in Hall; destruct j; naive_solver.
Qed.

(** C21: No secret leaves the executor in a text of its own. Whenever a job is provisioned,
    deprovisioned, observed or checked, no line that the executor writes to the run's log shows, as
    it is or escaped, a secret value that was read, or the secret access key or the session token
    of credentials that were resolved, before; and neither the failure that is handed back, with
    what a driver said in it, nor what is recorded of an observation shows one. The lines that a
    driver writes to the log through its own sink are not part of this. *)
Theorem no_secret_leaves (j : JobCall) (tr : history) (texts : list string) :
  (∀ v, v ≠ ε → json_form json_string v ≠ ε) →
  call_gives drivers store_id job j tr texts →
  (∀ tr1 level line x tr2, tr = tr1 ++ existT (XLog level line) x :: tr2 → hides (secrets_of tr1) line)
  ∧ ∀ text, text ∈ texts → hides (secrets_of tr) text.
Proof.
  intros Hjson Hg. destruct (call_asks drivers store_id job Hjson j tr texts Hg) as [Hall Htexts]. split.
  - intros tr1 level line x tr2 Htr. exact (Hall _ _ _ _ Htr).
  - by rewrite Forall_forall in Htexts.
Qed.
End claims.
