(* ===== verification/SecretInputs.v ===== *)
(** * Secrets on their way in

    The built-in secret store ([crates/store/src/secrets.rs]): master keys, sealed versions of
    secrets, their references. And how the server turns the secrets of a request into references
    ([crates/server/src/secret_inputs.rs]): references pass, values are written to the store below
    the name of their owner, only placeholders stay inline, and a change that is then rejected
    leaves no secret behind. The cipher (AES-256-GCM) and base64 are parameters. *)

From Stdlib Require Import Ascii.
From stdpp Require Import base sets strings list.
From S2P Require Import Prelude Strings Utf8 OrdMap Float64 Json Model Template Placeholder Db DbLogic Identity Resources PlanInputs CatalogStore CatalogProofs DriverRun Executor.

Local Open Scope string_scope.
Local Open Scope Z_scope.
Local Open Scope list_scope.

(** Where a secret input is, key by key. *)
Abbreviation path := (list string).

(** ** The built-in secret store *)

(** Authenticated encryption with a key, a nonce and associated data, and standard base64. *)
Class Cipher := {
  encrypt (key nonce aad plain : string) : string;
  decrypt (key nonce aad cipher : string) : option string;
  base64_decode (s : string) : option string
}.

Inductive SecretInput := InputRef (r : SecretRef) | InputValue (value : string).

(** [char::is_control]: C0, DEL and C1. *)
Definition is_control (ch : string) : bool :=
  match ch with
  | String a ε => (N_of_ascii a <? 32)%N || (N_of_ascii a =? 127)%N
  | String a (String b ε) => (N_of_ascii a =? 194)%N && (128 <=? N_of_ascii b)%N && (N_of_ascii b <=? 159)%N
  | _ => false
  end.

Definition ref_fields (r : SecretRef) : list string :=
  sr_store r :: sr_reference r :: match sr_version r with Some v => [v] | None => [] end.

Definition validate_reference (r : SecretRef) : result unit SecretError :=
  let invalid reason := Err (SeInvalidReference (sr_reference r) reason) in
  if str_is_empty (sr_store r) || str_is_empty (sr_reference r) then invalid "`store` and `ref` are required"
  else if existsb (str_contains "${") (ref_fields r) then invalid "placeholders are not allowed in secret references"
  else if existsb (λ s, Nat.ltb 512 (String.length s) || existsb is_control (chars s)) (ref_fields r)
  then invalid "references are at most 512 characters without control characters"
  else Ok tt.

(** [s.parse::<i64>()]. *)
Definition parse_i64 (s : string) : option Z :=
  let '(neg, body) :=
    match s with
    | String c s' => if Ascii.eqb c "-" then (true, s') else if Ascii.eqb c "+" then (false, s') else (false, s)
    | ε => (false, ε)
    end in
  if str_is_empty body then None
  else
    n ← parse_digits 0 body;
    let z := if neg then - Z.of_N n else Z.of_N n in
    if (- 2 ^ 63 <=? z) && (z <? 2 ^ 63) then Some z else None.

Record SecretVersionRow := mk_SecretVersionRow { sv_ref : string; sv_version : Z; sv_sealed : Sealed; sv_created_at : Z }.

Section store.
Context `{Libraries} `{Cipher}.

(** *** Keys *)

Record MasterKey := mk_MasterKey { mk_id : string; mk_key : string }.

Definition from_bytes (bytes : string) : MasterKey :=
  mk_MasterKey ("mk-" +:+ str_take 16 (sha256_hex ("openporch master key v1" +:+ str1 "000" +:+ bytes))) bytes.

Definition from_base64 (s : string) : result MasterKey SecretError :=
  match base64_decode (trim s) with
  | None => Err (SeInvalidKey "not valid base64")
  | Some bytes => if Nat.eqb (String.length bytes) 32 then Ok (from_bytes bytes) else Err (SeInvalidKey "expected 32 bytes")
  end.

Record Keyring := mk_Keyring { kr_active : string; kr_keys : list (string * string) }.

Definition Keyring_new (active : MasterKey) (retired : list MasterKey) : Keyring :=
  mk_Keyring (mk_id active) (bt_insert (mk_id active) (mk_key active) (foldl (λ m k, bt_insert (mk_id k) (mk_key k) m) [] retired)).

Definition from_text (text : string) : result Keyring SecretError :=
  let lines := filter (λ l, str_is_empty l = false ∧ starts_with "#" l = false) (trim <$> split "010" text) in
  match lines with
  | [] => Err (SeInvalidKey "no key found")
  | l :: lines =>
      let? active := from_base64 l in
      let? retired := try_map from_base64 lines in
      Ok (Keyring_new active retired)
  end.

Definition ensure_keys (k : Keyring) (required : list string) : result unit SecretError :=
  match find (λ id, negb (is_some (bt_get id (kr_keys k)))) required with
  | Some id => Err (SeMissingKey id)
  | None => Ok tt
  end.

(** [keys[&active]]: a keyring always has its active key ([Keyring_new_ok]). *)
Definition active_key (k : Keyring) : string := option_default ε (bt_get (kr_active k) (kr_keys k)).

(** The nonce is drawn at random. *)
Definition seal (k : Keyring) (nonce aad plain : string) : Sealed :=
  mk_Sealed (kr_active k) nonce (encrypt (active_key k) nonce aad plain).

Definition open (k : Keyring) (aad : string) (s : Sealed) : result (option string) SecretError :=
  match bt_get (sl_key_id s) (kr_keys k) with
  | None => Err (SeMissingKey (sl_key_id s))
  | Some key => if Nat.eqb (String.length (sl_nonce s)) 12 then Ok (decrypt key (sl_nonce s) aad (sl_ciphertext s)) else Ok None
  end.

(** *** Versions *)

Section builtin.
Context (org : string) (k : Keyring).

Definition aad (reference : string) (version : Z) : string :=
  "openporch-secret:v1:" +:+ org +:+ ":" +:+ reference +:+ ":" +:+ show_Z version.

Definition not_found (r : SecretRef) : SecretError := SeNotFound BUILTIN_STORE (sr_reference r) (sr_version r).

Definition versions_of (name : string) (rows : list SecretVersionRow) : list Z := sv_version <$> select (λ r, String.eqb (sv_ref r) name) rows.
(** [MAX(version)]. *)
Definition latest_of (name : string) (rows : list SecretVersionRow) : option Z :=
  match versions_of name rows with [] => None | v :: vs => Some (foldr Z.max v vs) end.

Definition write_impl (nonce : string) (now : Z) (name value : string) (rows : list SecretVersionRow)
    : result (SecretRef * list SecretVersionRow) SecretError :=
  let reference := mk_SecretRef BUILTIN_STORE name None in
  let? _ := validate_reference reference in
  let version := option_default 0 (latest_of name rows) + 1 in
  let sealed := seal k nonce (aad name version) value in
  Ok (mk_SecretRef BUILTIN_STORE name (Some (show_Z version)), rows ++ [mk_SecretVersionRow name version sealed now]).

Definition is_version (name : string) (version : Z) (r : SecretVersionRow) : bool :=
  String.eqb (sv_ref r) name && (sv_version r =? version).

Definition discard (r : SecretRef) (rows : list SecretVersionRow) : list SecretVersionRow :=
  match String.eqb (sr_store r) BUILTIN_STORE, sr_version r ≫= parse_i64 with
  | true, Some version => delete_rows (is_version (sr_reference r) version) rows
  | _, _ => rows
  end.

Definition read_impl (r : SecretRef) (rows : list SecretVersionRow) : result string SecretError :=
  let? _ := validate_reference r in
  if negb (String.eqb (sr_store r) BUILTIN_STORE) then
    Err (SeInvalidReference (sr_reference r) ("store `" +:+ sr_store r +:+ "` is not the built-in store"))
  else
    let? version :=
      match sr_version r with
      | Some v => match parse_i64 v with Some n => Ok (Some n) | None => Err (not_found r) end
      | None => Ok None
      end in
    let found := select (λ x, String.eqb (sv_ref x) (sr_reference r)
      && match version with None => true | Some n => sv_version x =? n end) rows in
    let? row := ok_or (head (sort_by_key (λ x, - sv_version x) found)) (not_found r) in
    let failed := SeDecrypt BUILTIN_STORE (sr_reference r) in
    let? plain := open k (aad (sr_reference r) (sv_version row)) (sv_sealed row) in
    let? text := ok_or plain failed in
    if utf8_valid text then Ok text else Err failed.

Definition latest_secret_versions (names : list string) (rows : list SecretVersionRow) : list (string * Z) :=
  foldl (λ found name, match latest_of name rows with Some v => bt_insert name v found | None => found end) [] names.

Definition has_secret_version (name : string) (version : Z) (rows : list SecretVersionRow) : bool :=
  is_some (select_one (is_version name version) rows).
End builtin.

(** ** Secret inputs *)

Inductive ApiError := ApiInvalid (message : string) | ApiInternal (message : string).

Definition secret_store_error (e : SecretError) : ApiError :=
  match e with SeInvalidReference _ _ => ApiInvalid (secret_error_show e) | other => ApiInternal (secret_error_show other) end.

(** [{value}]. *)
Definition new_secret_from_value (v : Value) : option string :=
  match v with
  | Obj m => if forallb (String.eqb "value") m.*1 then im_get "value" m ≫= as_str else None
  | Arr [Str s] => Some s
  | _ => None
  end.

(** Untagged: a reference, or else a value. *)
Definition secret_input_from_value (v : Value) : option SecretInput :=
  match secret_ref_from_value v with Some r => Some (InputRef r) | None => InputValue <$> new_secret_from_value v end.

Inductive Planned := PlannedRef (r : SecretRef) | PlannedWrite (value : string).

Definition is_template (s : string) : bool :=
  match template_parse s with
  | Ok t => negb (template_is_literal t) && forallb (λ raw, is_ok (interpret raw DialectDefinition)) (template_placeholders t)
  | Err _ => false
  end.

Definition literal_text (s : string) : string :=
  match template_parse s with
  | Ok t =>
      if template_is_literal t then concat_str ((λ p, match p with Literal l => l | Placeholder raw => rp_text raw end) <$> t) else s
  | Err _ => s
  end.

Definition planned_new (what : string) (input : Value) : result Planned ApiError :=
  match secret_input_from_value input with
  | None => Err (ApiInvalid (what +:+ " must be a secret reference `{store, ref, version?}` or `{value}`"))
  | Some (InputRef r) => let? _ := map_err secret_store_error (validate_reference r) in Ok (PlannedRef r)
  | Some (InputValue v) =>
      if is_template v then
        Err (ApiInvalid (what +:+ " is a `{value}` with a placeholder; secret values cannot hold placeholders (a definition takes templates under `driver_inputs.secrets`)"))
      else Ok (PlannedWrite v)
  end.

Definition planned_reference (p : Planned) : option SecretRef := match p with PlannedRef r => Some r | PlannedWrite _ => None end.

(** Whether an object in [secret_refs] is a single secret input. *)
Definition is_secret_leaf (m : jmap) : bool :=
  let is_ref := Nat.leb (length m) 3 && im_contains "store" m && im_contains "ref" m
    && forallb (λ k, bool_decide (k ∈ ["store"; "ref"; "version"])) m.*1
    && forallb (λ v, negb (is_object v) && negb (is_array v)) m.*2 in
  let is_value := Nat.eqb (length m) 1 && match im_get "value" m with Some (Str _) => true | _ => false end in
  is_ref || is_value.

Definition display_path (p : path) : string := join "." p.

(** The secret inputs below a value of [secret_refs]. *)
Fixpoint collect_ref (p : path) (v : Value) : result (list (path * Planned)) ApiError :=
  let what := "driver_inputs.secret_refs." +:+ display_path p in
  match v with
  | Obj m =>
      if is_secret_leaf m then let? s := planned_new what v in Ok [(p, s)]
      else
        (fix go (l : jmap) :=
          match l with
          | [] => Ok []
          | (key, w) :: l => let? a := collect_ref (p ++ [key]) w in let? b := go l in Ok (a ++ b)
          end) m
  | _ => Err (ApiInvalid (what +:+ " must be an object of secret references"))
  end.
Fixpoint collect_refs (p : path) (m : jmap) : result (list (path * Planned)) ApiError :=
  match m with
  | [] => Ok []
  | (key, w) :: m => let? a := collect_ref (p ++ [key]) w in let? b := collect_refs p m in Ok (a ++ b)
  end.

(** The templates and the values below an inline secret. *)
Fixpoint collect_inline_at (p : path) (v : Value) : result (list (path * Value) * list (path * Planned)) ApiError :=
  match v with
  | Str s =>
      if is_template s then
        if is_some (match template_parse s with Ok t => template_whole t | Err _ => None end) then Ok ([(p, v)], [])
        else Err (ApiInvalid ("driver_inputs.secrets." +:+ display_path p
          +:+ " mixes literal text with placeholders; a secret template must be a single placeholder, with literal parts in their own secret input"))
      else Ok ([], [(p, PlannedWrite (literal_text s))])
  | Obj m =>
      (fix go (l : jmap) :=
        match l with
        | [] => Ok ([], [])
        | (key, w) :: l =>
            let? a := collect_inline_at (p ++ [key]) w in let? b := go l in Ok (a.1 ++ b.1, a.2 ++ b.2)
        end) m
  | _ => Err (ApiInvalid ("driver_inputs.secrets." +:+ display_path p +:+ " must be a string or an object of strings"))
  end.
Fixpoint collect_inline (p : path) (m : jmap) : result (list (path * Value) * list (path * Planned)) ApiError :=
  match m with
  | [] => Ok ([], [])
  | (key, w) :: m => let? a := collect_inline_at (p ++ [key]) w in let? b := collect_inline p m in Ok (a.1 ++ b.1, a.2 ++ b.2)
  end.

(** Inserting at a path, never over another leaf or inside of one. *)
Fixpoint insert_with (is_leaf : jmap → bool) (root : jmap) (p : path) (value : Value) : option jmap :=
  match p with
  | [] => None
  | [last] => if im_contains last root then None else Some (im_insert last value root)
  | key :: p =>
      match option_default (Obj []) (im_get key root) with
      | Obj m => if is_leaf m then None else (λ child, im_insert key (Obj child) root) <$> insert_with is_leaf m p value
      | _ => None
      end
  end.
Definition insert_leaf (root : jmap) (p : path) (value : Value) : option jmap := insert_with is_secret_leaf root p value.

Record PlannedInputs := mk_PlannedInputs {
  pi_values : jmap; pi_templates : list (path * Value); pi_secrets : list (path * Planned)
}.

Definition layout_marker : Value := Obj [("store", Null); ("ref", Null)].

(** Every path must be its own leaf. *)
Fixpoint check_layout (layout : jmap) (paths : list path) : result unit ApiError :=
  match paths with
  | [] => Ok tt
  | p :: paths =>
      match insert_leaf layout p layout_marker with
      | Some layout => check_layout layout paths
      | None => Err (ApiInvalid ("secret input `" +:+ display_path p +:+ "` is given more than once or overlaps another secret input"))
      end
  end.

Definition planned_inputs_new (inputs : DriverInputs) : result PlannedInputs ApiError :=
  let? refs := collect_refs [] (di_secret_refs inputs) in
  let? inline := collect_inline [] (di_secrets inputs) in
  let secrets := refs ++ inline.2 in
  let? _ := check_layout [] (inline.1.*1 ++ secrets.*1) in
  Ok (mk_PlannedInputs (di_values inputs) inline.1 secrets).

(** The given references alone. *)
Definition references (p : PlannedInputs) : DriverInputs :=
  mk_DriverInputs [] [] (foldl (λ out s,
    match s.2 with PlannedRef r => option_default out (insert_leaf out s.1 (secret_ref_to_value r)) | PlannedWrite _ => out end) [] (pi_secrets p)).

Definition layout_changed : ApiError := ApiInternal "checked secret layout changed".
End store.

(** *** Writing *)

Section writing.
Context `{Libraries} {St : Type} (put : string → string → St → St * result SecretRef SecretError).

Definition materialize (p : Planned) (name : string) (written : list SecretRef) (s : St) : St * list SecretRef * result SecretRef ApiError :=
  match p with
  | PlannedRef r => (s, written, Ok r)
  | PlannedWrite v =>
      match put name v s with
      | (s, Ok r) => (s, written ++ [r], Ok r)
      | (s, Err e) => (s, written, Err (secret_store_error e))
      end
  end.

Fixpoint write_templates (out : jmap) (templates : list (path * Value)) : result jmap ApiError :=
  match templates with
  | [] => Ok out
  | (p, t) :: templates => let? out := ok_or (insert_with (λ _, false) out p t) layout_changed in write_templates out templates
  end.

Fixpoint write_secrets (prefix : string) (out : jmap) (secrets : list (path * Planned)) (written : list SecretRef) (s : St)
    : St * list SecretRef * result jmap ApiError :=
  match secrets with
  | [] => (s, written, Ok out)
  | (p, planned) :: secrets =>
      match materialize planned (prefix +:+ "/" +:+ join "/" p) written s with
      | (s, written, Ok r) =>
          match insert_leaf out p (secret_ref_to_value r) with
          | Some out => write_secrets prefix out secrets written s
          | None => (s, written, Err layout_changed)
          end
      | (s, written, Err e) => (s, written, Err e)
      end
  end.

Definition write_inputs (p : PlannedInputs) (prefix : string) (s : St) : St * list SecretRef * result DriverInputs ApiError :=
  match write_templates [] (pi_templates p) with
  | Err e => (s, [], Err e)
  | Ok secrets =>
      match write_secrets prefix [] (pi_secrets p) [] s with
      | (s, written, Ok refs) => (s, written, Ok (mk_DriverInputs (pi_values p) secrets refs))
      | (s, written, Err e) => (s, written, Err e)
      end
  end.
End writing.

(** Discarding what was written for a change that is then rejected. *)
Definition discard_all (written : list SecretRef) (rows : list SecretVersionRow) : list SecretVersionRow :=
  foldl (λ rows r, discard r rows) rows written.

(** Every quoted text of an error about a request's body becomes ["[REDACTED]"]. *)
Fixpoint redact_chars (quoted : bool) (skip : bool) (s : string) : string :=
  match s with
  | ε => ε
  | String c s =>
      if quoted then
        if skip then redact_chars true false s
        else if Ascii.eqb c "\" then redact_chars true true s
        else if Ascii.eqb c dquote then redact_chars false false s
        else redact_chars true false s
      else if Ascii.eqb c dquote then str1 dquote +:+ "[REDACTED]" +:+ str1 dquote +:+ redact_chars true false s
      else String c (redact_chars false false s)
  end.
Definition redact_quoted (message : string) : string := redact_chars false false message.

(** A keyring seals with its active key. *)
Lemma Keyring_new_ok `{Libraries} `{Cipher} active retired :
  active_key (Keyring_new active retired) = mk_key active.
Proof. unfold active_key, Keyring_new. cbn [kr_active kr_keys]. by rewrite bt_get_insert_eq. Qed.

(** ** Paths that do not overlap *)

Definition apart (p q : path) : Prop := ¬ p `prefix_of` q ∧ ¬ q `prefix_of` p.

Fixpoint all_apart (l : list path) : Prop :=
  match l with [] => True | p :: l => p ≠ [] ∧ Forall (apart p) l ∧ all_apart l end.

Lemma all_apart_app l k : all_apart (l ++ k) → all_apart l ∧ all_apart k.
Proof.
  induction l as [|p l IH]; simpl; [done|]. intros (Hp & [Hl Hk]%Forall_app & Hr). destruct (IH Hr). done.
Qed.

Lemma apart_cons k p q : apart (k :: p) (k :: q) ↔ apart p q.
Proof.
  unfold apart. split; intros [H1 H2]; split; intros H.
  - apply H1. by apply prefix_cons.
  - apply H2. by apply prefix_cons.
  - apply H1. by apply prefix_cons_inv_2 in H.
  - apply H2. by apply prefix_cons_inv_2 in H.
Qed.

Lemma apart_head k k' p q : k ≠ k' → apart (k :: p) (k' :: q).
Proof. intros Hk. split; intros ?%prefix_cons_inv_1; congruence. Qed.

(** *** Inserting by path *)

Section insertion.
Context (is_leaf : jmap → bool) (ok : Value → Prop).
Context (leaf_nil : is_leaf [] = false) (leaf_ok : ∀ m k v, im_get k m = Some v → ok v → is_leaf m = false).
Context (ok_obj : ∀ m, ok (Obj m)).

Definition leaf (v : Value) : bool := match v with Obj m => is_leaf m | _ => true end.

(** A leaf of a tree of objects. *)
Inductive stored : jmap → path → Value → Prop :=
| stored_here t k v : im_get k t = Some v → leaf v = true → stored t [k] v
| stored_in t k m p v : im_get k t = Some (Obj m) → is_leaf m = false → stored m p v → stored t (k :: p) v.

(** Every object that is not a leaf has one below it. *)
Inductive full : jmap → Prop :=
| full_intro t :
    (∀ k v, im_get k t = Some v → ok v) →
    (∀ k m, im_get k t = Some (Obj m) → is_leaf m = false → ∃ p v, stored m p v) →
    (∀ k m, im_get k t = Some (Obj m) → is_leaf m = false → full m) → full t.

Lemma full_nil : full [].
Proof. by constructor. Qed.

Lemma stored_nil t v : ¬ stored t [] v.
Proof. inversion 1. Qed.
Lemma stored_empty p v : ¬ stored [] p v.
Proof. inversion 1; simplify_eq/=. Qed.

Lemma stored_at t k p v :
  stored t (k :: p) v ↔ ∃ w, im_get k t = Some w ∧ ((leaf w = true ∧ p = [] ∧ w = v) ∨ ∃ m, w = Obj m ∧ is_leaf m = false ∧ stored m p v).
Proof.
  split.
  - inversion 1; subst; eauto 10.
  - intros (w & Hw & [(Hl & -> & ->)|(m & -> & Hm & Hs)]); [by apply stored_here|by eapply stored_in].
Qed.

(** A value at a key is at or above a leaf. *)
Lemma above_leaf t k w : full t → im_get k t = Some w → ∃ p v, stored t (k :: p) v ∧ (leaf w = true → p = []).
Proof.
  intros Hf Hw. destruct Hf as [t _ Hne _]. destruct (leaf w) eqn:El.
  - exists [], w. split; [by apply stored_here|done].
  - destruct w as [| | | | |m]; try done. simpl in El. destruct (Hne k m Hw El) as (p & v & Hs). exists p, v. split; [by eapply stored_in|done].
Qed.

Lemma not_leaf_stored m p v : full m → stored m p v → is_leaf m = false.
Proof. intros [t Hok _ _] Hs. destruct Hs; by eapply leaf_ok, Hok. Qed.

Lemma full_insert t k w :
  full t → ok w → (∀ m, w = Obj m → is_leaf m = false → full m ∧ ∃ p v, stored m p v) → full (im_insert k w t).
Proof.
  intros [t' Hok Hne Hf] Hw Hm. constructor.
  - intros k' v. rewrite im_get_insert. destruct (String.eqb k' k); [by intros [= <-]|apply Hok].
  - intros k' m. rewrite im_get_insert. destruct (String.eqb k' k); [intros [= ->] El; by apply (Hm m)|apply Hne].
  - intros k' m. rewrite im_get_insert. destruct (String.eqb k' k); [intros [= ->] El; by apply (Hm m)|apply Hf].
Qed.

Lemma stored_insert_ne t k w k' p v : k' ≠ k → stored (im_insert k w t) (k' :: p) v ↔ stored t (k' :: p) v.
Proof. intros Hk. rewrite !stored_at, im_get_insert. by destruct (String.eqb_spec k' k). Qed.

(** Insertion below an object, which may be new. *)
Lemma insert_below t k m c p v :
  full t → im_get k t = None ∧ m = [] ∨ im_get k t = Some (Obj m) → is_leaf m = false → full c →
  (∀ q w, stored c q w ↔ stored m q w ∨ q = p ∧ w = v) →
  full (im_insert k (Obj c) t) ∧ ∀ q w, stored (im_insert k (Obj c) t) q w ↔ stored t q w ∨ q = k :: p ∧ w = v.
Proof.
  intros Hf Hm Hl Hc Hst. assert (stored c p v) as Hp by (apply Hst; by right). split.
  - apply full_insert; [done|apply ok_obj|]. intros m' [= <-] _. split; [done|]. by eexists _, _.
  - intros [|k' q] w; [split; [by intros ?%stored_nil|by intros [?%stored_nil|[? _]]]|]. destruct (decide (k' = k)) as [->|Hk].
    + rewrite !stored_at, im_get_insert, String.eqb_refl. split.
      * intros (w0 & [= <-] & [(Hl' & _)|(m0 & [= <-] & _ & [Hs|[-> ->]]%Hst)]); [simpl in Hl'; by rewrite (not_leaf_stored c p v) in Hl'| |by right].
        left. destruct Hm as [[_ ->]|Hm]; [by apply stored_empty in Hs|]. exists (Obj m). eauto 10.
      * intros Hs. exists (Obj c). split; [done|]. right. exists c. split; [done|]. split; [by eapply not_leaf_stored|]. apply Hst.
        destruct Hs as [(w0 & Hw0 & Hs)|[[= ->] ->]]; [|by right]. left.
        destruct Hm as [[Hn _]|Hm]; [congruence|]. rewrite Hm in Hw0. injection Hw0 as <-.
        destruct Hs as [(Hl' & _)|(m0 & [= <-] & _ & Hs)]; [simpl in Hl'; congruence|done].
    + rewrite stored_insert_ne by done. split; [by left|]. intros [?|[[= -> ->] _]]; done.
Qed.

Lemma insert_ok p t v :
  full t → ok v → leaf v = true → p ≠ [] → (∀ q w, stored t q w → apart q p) →
  ∃ t', insert_with is_leaf t p v = Some t' ∧ full t' ∧ ∀ q w, stored t' q w ↔ stored t q w ∨ q = p ∧ w = v.
Proof.
  revert t. induction p as [|k p IH]; intros t Hf Hok Hl Hp Hap; [done|].
  assert (∀ w, im_get k t = Some w → leaf w = true → False) as Hno.
  { intros w Hw El. destruct (Hap [k] w) as [Hx _]; [by apply stored_here|]. apply Hx. apply prefix_cons, prefix_nil. }
  destruct p as [|k2 p].
  - simpl. unfold im_contains. destruct (im_get k t) as [w|] eqn:Ew; simpl.
    + destruct (above_leaf t k w Hf Ew) as (q & v' & Hs & _). destruct (Hap _ _ Hs) as [_ []]. apply prefix_cons, prefix_nil.
    + exists (im_insert k v t). split; [done|]. split; [apply full_insert; [done|done|]; intros m -> El; simpl in Hl; congruence|].
      intros [|k' q] w; [split; [by intros ?%stored_nil|by intros [?%stored_nil|[? _]]]|]. destruct (decide (k' = k)) as [->|Hk].
      * rewrite !stored_at, im_get_insert, String.eqb_refl, Ew. split.
        -- intros (w0 & [= <-] & [(_ & -> & ->)|(m & -> & Em & _)]); [by right|simpl in Hl; congruence].
        -- intros [(w0 & ? & _)|[[= ->] ->]]; [done|]. eauto 10.
      * rewrite stored_insert_ne by done. split; [by left|]. intros [?|[[= -> ->] _]]; done.
  - change (insert_with is_leaf t (k :: k2 :: p) v) with
      (match option_default (Obj []) (im_get k t) with
       | Obj m => if is_leaf m then None else (λ child, im_insert k (Obj child) t) <$> insert_with is_leaf m (k2 :: p) v
       | _ => None end).
    destruct (im_get k t) as [w|] eqn:Ew.
    + destruct w as [| | | | |m]; try (exfalso; by eapply Hno). destruct (is_leaf m) eqn:Em; [exfalso; by eapply (Hno (Obj m))|].
      cbn [option_default]. rewrite Em. assert (full m) as Hm by (destruct Hf as [? _ _ Hf]; by eapply Hf).
      destruct (IH m Hm Hok Hl ltac:(done)) as (c & -> & Hc & Hst).
      { intros q w Hs. apply (apart_cons k). apply (Hap (k :: q) w). by eapply stored_in. }
      eexists. split; [done|]. eapply insert_below; eauto.
    + cbn [option_default]. rewrite leaf_nil. destruct (IH [] full_nil Hok Hl ltac:(done)) as (c & -> & Hc & Hst); [by intros q w ?%stored_empty|].
      eexists. split; [done|]. eapply insert_below; eauto.
Qed.

Lemma insert_apart p t v t' :
  full t → insert_with is_leaf t p v = Some t' → p ≠ [] ∧ ∀ q w, stored t q w → apart q p.
Proof.
  revert t t'. induction p as [|k p IH]; intros t t' Hf; [done|]. split; [done|]. intros [|k' q] w Hs; [by apply stored_nil in Hs|].
  destruct (decide (k' = k)) as [->|Hk]; [|by apply apart_head]. destruct p as [|k2 p].
  - simpl in *. unfold im_contains in *. apply stored_at in Hs as (w0 & Hw0 & _). by rewrite Hw0 in *.
  - change (insert_with is_leaf t (k :: k2 :: p) v) with
      (match option_default (Obj []) (im_get k t) with
       | Obj m => if is_leaf m then None else (λ child, im_insert k (Obj child) t) <$> insert_with is_leaf m (k2 :: p) v
       | _ => None end) in *.
    apply stored_at in Hs as (w0 & Hw0 & Hs). rewrite Hw0 in *. cbn [option_default] in *.
    destruct w0 as [| | | | |m]; try done. destruct (is_leaf m) eqn:Em; [done|].
    destruct (insert_with is_leaf m (k2 :: p) v) as [c|] eqn:Ec; [|done].
    destruct Hs as [(Hl & _)|(m0 & [= <-] & _ & Hs)]; [simpl in Hl; congruence|].
    apply apart_cons. destruct Hf as [? _ _ Hf]. eapply (proj2 (IH m c (Hf k m Hw0 Em) Ec)), Hs.
Qed.

Fixpoint insert_all (t : jmap) (l : list (path * Value)) : option jmap :=
  match l with [] => Some t | (p, v) :: l => t' ← insert_with is_leaf t p v; insert_all t' l end.

Definition leaves (l : list (path * Value)) : Prop := Forall (λ x, ok x.2 ∧ leaf x.2 = true) l.

Lemma insert_all_ok l t :
  full t → leaves l → all_apart l.*1 → (∀ q w, stored t q w → Forall (apart q) l.*1) →
  ∃ t', insert_all t l = Some t' ∧ full t' ∧ ∀ q w, stored t' q w ↔ stored t q w ∨ (q, w) ∈ l.
Proof.
  revert t. induction l as [|[p v] l IH]; intros t Hf Hl Hap Hst.
  { exists t. split_and!; [done..|]. intros q w. split; [by left|]. by intros [?|?%not_elem_of_nil]. }
  apply Forall_cons in Hl as [[Hok Hleaf] Hl]. destruct Hap as (Hp & Hpl & Hap). simpl in *.
  destruct (insert_ok p t v Hf Hok Hleaf Hp) as (t1 & -> & Hf1 & Hst1). { intros q w Hs. by apply Hst in Hs as [? _]%Forall_cons. }
  destruct (IH t1 Hf1 Hl Hap) as (t2 & Ht2 & Hf2 & Hst2).
  { intros q w [Hs|[-> ->]]%Hst1; [by apply Hst in Hs as [_ ?]%Forall_cons|done]. }
  exists t2. split_and!; [done..|]. intros q w. rewrite Hst2, Hst1, elem_of_cons. naive_solver.
Qed.

Lemma insert_all_apart l t t' :
  full t → leaves l → insert_all t l = Some t' → all_apart l.*1 ∧ ∀ q w, stored t q w → Forall (apart q) l.*1.
Proof.
  revert t. induction l as [|[p v] l IH]; intros t Hf Hl; simpl; [done|]. apply Forall_cons in Hl as [[Hok Hleaf] Hl].
  destruct (insert_with is_leaf t p v) as [t1|] eqn:E; simpl; [|done]. intros Hall.
  destruct (insert_apart _ _ _ _ Hf E) as [Hp Hap].
  destruct (insert_ok p t v Hf Hok Hleaf Hp Hap) as (t2 & E1 & Hf1 & Hst1). rewrite E in E1. injection E1 as <-.
  destruct (IH t1 Hf1 Hl Hall) as [Hrest Hpast]. split_and!; [done| |done|].
  - apply (Hpast p v). apply Hst1. by right.
  - intros q w Hs. constructor; [by eapply Hap|]. apply (Hpast q w), Hst1. by left.
Qed.
End insertion.

(** ** What becomes of the secrets of a request *)

Definition objects (v : Value) : Prop := is_object v = true.

Lemma secret_leaf_nil : is_secret_leaf [] = false.
Proof. done. Qed.

Lemma secret_leaf_object m k v : im_get k m = Some v → objects v → is_secret_leaf m = false.
Proof.
  intros Hk Hv. pose proof (im_get_elem _ _ _ Hk) as Hin. unfold is_secret_leaf. apply orb_false_iff. split.
  - apply andb_false_iff. right. apply not_true_iff_false. rewrite forallb_forall. intros Hall.
    assert (In v m.*2) as Hv2 by (apply list_elem_of_In, list_elem_of_fmap; by exists (k, v)).
    specialize (Hall v Hv2). unfold objects in Hv. by rewrite Hv in Hall.
  - apply andb_false_iff. destruct m as [|[k1 v1] [|x m]]; [by left| |by left]. right. cbn [im_get].
    apply list_elem_of_singleton in Hin as [= -> ->]. destruct (String.eqb "value" k1); [|done]. by destruct v1.
Qed.

Lemma object_ok m : objects (Obj m).
Proof. done. Qed.

Lemma ref_is_leaf r : leaf is_secret_leaf (secret_ref_to_value r) = true.
Proof. by destruct r as [? ? [?|]]. Qed.

#[local] Hint Resolve secret_leaf_nil secret_leaf_object object_ok ref_is_leaf : core.

(** Something at a path below a value. *)
Inductive below : Value → path → Value → Prop :=
| below_here v : below v [] v
| below_in m k w p x : (k, w) ∈ m → below w p x → below (Obj m) (k :: p) x.

Definition whole_placeholder (v : Value) : Prop :=
  ∃ s t raw, v = Str s ∧ template_parse s = Ok t ∧ template_whole t = Some raw.

Section inputs.
Context `{Libraries}.

(** What is planned for what is given at a path. *)
Definition planned_for (given : Value) (p : Planned) : Prop :=
  match p with
  | PlannedRef r => secret_ref_from_value given = Some r ∧ validate_reference r = Ok tt
  | PlannedWrite v => new_secret_from_value given = Some v ∨ ∃ s, given = Str s ∧ v = literal_text s
  end.

Lemma planned_new_Ok what v p : planned_new what v = Ok p → planned_for v p.
Proof.
  unfold planned_new, secret_input_from_value. destruct (secret_ref_from_value v) as [r|] eqn:E.
  - simpl. destruct (validate_reference r) as [[]|] eqn:Ev; [|done]. by intros [= <-].
  - destruct (new_secret_from_value v) as [t|] eqn:En; simpl; [|done]. destruct (is_template t); [done|]. intros [= <-]. by left.
Qed.

Lemma collect_ref_Ok v p l : collect_ref p v = Ok l → Forall (λ x, ∃ q given, x.1 = p ++ q ∧ below v q given ∧ planned_for given x.2) l.
Proof.
  revert p l. induction v as [| | | |vs _|m IH] using Value_ind; intros p l Hx; try done. simpl in Hx.
  destruct (is_secret_leaf m).
  { destruct (planned_new _ _) as [s|] eqn:E; [|done]. injection Hx as <-. constructor; [|done]. exists [], (Obj m). simpl.
    split_and!; [by rewrite app_nil_r|constructor|]. by apply planned_new_Ok in E. }
  revert l Hx. assert (∀ kv, kv ∈ m → kv ∈ m) as Hsub by done. revert IH Hsub. generalize m at 1 2 4 as m'. induction m' as [|[key w] m' IHm]; intros IH Hsub l Hx.
  { injection Hx as <-. done. }
  apply Forall_cons in IH as [IHw IH]. destruct (collect_ref (p ++ [key]) w) as [a|] eqn:Ea; [|done].
  match type of Hx with (let? _ := ?g in _) = _ => destruct g as [b|] eqn:Eb; [|done] end. injection Hx as <-. apply Forall_app. split.
  - eapply Forall_impl; [by apply IHw|]. intros x (q & given & Ex & Hb & Hp). exists (key :: q), given. split_and!; [|constructor 2 with w|done].
    + by rewrite Ex, <-app_assoc.
    + apply Hsub. by left.
    + done.
  - apply IHm; [done| |done]. intros kv Hkv. apply Hsub. by right.
Qed.

Lemma collect_refs_Ok m l : collect_refs [] m = Ok l → Forall (λ x, ∃ given, below (Obj m) x.1 given ∧ planned_for given x.2) l.
Proof.
  assert (∀ kv, kv ∈ m → kv ∈ m) as Hsub by done. revert l Hsub. generalize m at 1 3 as m'.
  induction m' as [|[key w] m' IH]; simpl; intros l Hsub Hx; [by injection Hx as <-|].
  destruct (collect_ref [key] w) as [a|] eqn:Ea; [|done]. destruct (collect_refs [] m') as [b|]; [|done]. injection Hx as <-.
  apply Forall_app. split; [|apply IH; [intros kv Hkv; apply Hsub; by right|done]].
  eapply Forall_impl; [by eapply collect_ref_Ok|]. intros x (q & given & -> & Hb & Hp). exists given. split; [|done].
  apply below_in with w; [apply Hsub; by left|done].
Qed.

(** What is collected of inline secrets: templates stay as they are, literals are written. *)
Definition inline_ok (v : Value) (p : path) (x : list (path * Value) * list (path * Planned)) : Prop :=
  Forall (λ t, ∃ q, t.1 = p ++ q ∧ below v q t.2 ∧ whole_placeholder t.2) x.1
  ∧ Forall (λ y, ∃ q given, y.1 = p ++ q ∧ below v q given ∧ planned_for given y.2) x.2.

Lemma collect_inline_at_Ok v p x : collect_inline_at p v = Ok x → inline_ok v p x.
Proof.
  revert p x. induction v as [| | |t|vs _|m IH] using Value_ind; intros p x Hx; try done; simpl in Hx.
  - destruct (is_template t) eqn:Et.
    + destruct (template_parse t) as [tp|] eqn:Ep; [|done]. destruct (template_whole tp) as [raw|] eqn:Ew; [|done]. injection Hx as <-.
      split; [|done]. constructor; [|done]. exists []. rewrite app_nil_r. split_and!; [done|constructor|]. by exists t, tp, raw.
    + injection Hx as <-. split; [done|]. constructor; [|done]. exists [], (Str t). rewrite app_nil_r. split_and!; [done|constructor|].
      right. by exists t.
  - revert x Hx. assert (∀ kv, kv ∈ m → kv ∈ m) as Hsub by done. revert IH Hsub. generalize m at 1 2 4 as m'.
    induction m' as [|[key w] m' IHm]; intros IH Hsub x Hx.
    { injection Hx as <-. done. }
    apply Forall_cons in IH as [IHw IH]. destruct (collect_inline_at (p ++ [key]) w) as [a|] eqn:Ea; [|done].
    match type of Hx with (let? _ := ?g in _) = _ => destruct g as [b|] eqn:Eb; [|done] end. injection Hx as <-.
    destruct (IHw _ _ Ea) as [Ht Hs]. destruct (IHm IH) with b as [Hbt Hbs]; [intros kv Hkv; apply Hsub; by right|done|].
    assert (∀ q given, below w q given → below (Obj m) (key :: q) given) as Hin by (intros q given Hb; apply below_in with w; [apply Hsub; by left|done]).
    split; apply Forall_app; (split; [|done]).
    + eapply Forall_impl; [done|]. intros y (q & Ey & Hb & Hp). exists (key :: q). rewrite Ey, <-app_assoc. auto.
    + eapply Forall_impl; [done|]. intros y (q & given & Ey & Hb & Hp). exists (key :: q), given. rewrite Ey, <-app_assoc. auto.
Qed.

Lemma collect_inline_Ok m x : collect_inline [] m = Ok x → inline_ok (Obj m) [] x.
Proof.
  assert (∀ kv, kv ∈ m → kv ∈ m) as Hsub by done. revert x Hsub. generalize m at 1 3 as m'.
  induction m' as [|[key w] m' IH]; simpl; intros x Hsub Hx; [by injection Hx as <-|].
  destruct (collect_inline_at [key] w) as [a|] eqn:Ea; [|done]. destruct (collect_inline [] m') as [b|]; [|done]. injection Hx as <-.
  destruct (collect_inline_at_Ok _ _ _ Ea) as [Ht Hs]. destruct (IH b) as [Hbt Hbs]; [intros kv Hkv; apply Hsub; by right|done|].
  assert (∀ q given, below w q given → below (Obj m) (key :: q) given) as Hin by (intros q given Hb; apply below_in with w; [apply Hsub; by left|done]).
  split; apply Forall_app; (split; [|done]).
  - eapply Forall_impl; [done|]. intros y (q & Ey & Hb & Hp). exists (key :: q). auto.
  - eapply Forall_impl; [done|]. intros y (q & given & Ey & Hb & Hp). exists (key :: q), given. auto.
Qed.

(** The dry run accepts exactly paths that are apart. *)
Lemma check_layout_Ok paths : check_layout [] paths = Ok tt → all_apart paths.
Proof.
  assert (∀ t, check_layout t paths = Ok tt → is_Some (insert_all is_secret_leaf t ((λ p, (p, layout_marker)) <$> paths))) as Hins.
  { induction paths as [|p paths IH]; intros t; simpl; [by eexists|]. unfold insert_leaf. destruct (insert_with _ _ _ _); simpl; [apply IH|done]. }
  intros [t Ht]%Hins. apply (insert_all_apart is_secret_leaf objects) in Ht as [Hap _]; eauto using full_nil.
  - by rewrite <-list_fmap_compose, list_fmap_id in Hap.
  - apply Forall_fmap, Forall_true. done.
Qed.
(** *** What is written *)

Context {St : Type} (put : string → string → St → St * result SecretRef SecretError).

(** What a planned secret becomes: its reference, or one that was just written. *)
Definition becomes (written : list SecretRef) (p : Planned) (r : SecretRef) : Prop :=
  match p with PlannedRef r' => r = r' | PlannedWrite _ => r ∈ written end.

Lemma becomes_more written more p r : becomes written p r → becomes (written ++ more) p r.
Proof. destruct p; simpl; [done|]. intros. apply elem_of_app. by left. Qed.

Lemma materialize_spec p name written s :
  let '(s', written', r) := materialize put p name written s in
  (∃ more, written' = written ++ more)
  ∧ match r with Ok r => becomes written' p r | Err e => ∃ x, e = secret_store_error x end.
Proof.
  destruct p as [r|v]; simpl; [split; [exists []; by rewrite app_nil_r|done]|].
  destruct (put name v s) as [s' [r|e]]; simpl; split; eauto.
  - apply elem_of_app. right. by left.
  - exists []. by rewrite app_nil_r.
Qed.

Abbreviation leaf_at := (stored is_secret_leaf).

(** Writing fails only where the secret store does; what it gives has a reference at the path of
    each secret, and nothing else. *)
Lemma write_secrets_spec prefix secrets out written s :
  full is_secret_leaf objects out → all_apart secrets.*1 → (∀ q v, leaf_at out q v → Forall (apart q) secrets.*1) →
  let '(s', written', r) := write_secrets put prefix out secrets written s in
  (∃ more, written' = written ++ more)
  ∧ match r with
    | Ok out' => full is_secret_leaf objects out'
        ∧ (∀ q v, leaf_at out' q v → leaf_at out q v ∨ ∃ p r, (q, p) ∈ secrets ∧ becomes written' p r ∧ v = secret_ref_to_value r)
        ∧ (∀ q v, leaf_at out q v → leaf_at out' q v)
        ∧ ∀ q p, (q, p) ∈ secrets → ∃ r, becomes written' p r ∧ leaf_at out' q (secret_ref_to_value r)
    | Err e => ∃ x, e = secret_store_error x
    end.
Proof.
  revert out written s. induction secrets as [|[p planned] secrets IH]; intros out written s Hf Hap Hst; cbn [write_secrets].
  { split; [exists []; by rewrite app_nil_r|]. split_and!; [done|by left|done|]. by intros q p ?%not_elem_of_nil. }
  destruct Hap as (Hp & Hpl & Hap). simpl in Hp, Hpl.
  pose proof (materialize_spec planned (prefix +:+ "/" +:+ join "/" p) written s) as Hm.
  destruct (materialize put planned _ written s) as [[s1 written1] [r|e]]; destruct Hm as [[more ->] Hr]; [|split; [by eauto|done]].
  unfold insert_leaf. destruct (insert_ok is_secret_leaf objects secret_leaf_nil secret_leaf_object object_ok p out
    (secret_ref_to_value r)) as (t & -> & Hf1 & Hst1); eauto.
  { by destruct r as [? ? [?|]]. }
  { intros q w Hs. by apply Hst in Hs as [? _]%Forall_cons. }
  specialize (IH t (written ++ more) s1 Hf1 Hap).
  destruct (write_secrets put prefix t secrets (written ++ more) s1) as [[s2 written2] r2].
  destruct IH as [[more2 ->] IH].
  { intros q w [Hs|[-> ->]]%Hst1; [by apply Hst in Hs as [_ ?]%Forall_cons|done]. }
  split; [exists (more ++ more2); by rewrite app_assoc|]. destruct r2 as [out'|e]; [|done]. destruct IH as (Hf2 & Honly & Hkeep & Hall).
  assert (leaf_at out' p (secret_ref_to_value r)) as Hhere by (apply Hkeep, Hst1; by right).
  split_and!; [done| |intros q v Hs; by apply Hkeep, Hst1; left|].
  - intros q v [[Hs|[-> ->]]%Hst1|(pl & r' & Hin & ?)]%Honly; [by left| |right; exists pl, r'; split; [by right|done]].
    right. exists planned, r. split; [by left|]. split; [by apply becomes_more|done].
  - intros q pl [[= -> ->]|Hin]%elem_of_cons; [|by apply Hall]. exists r. split; [by apply becomes_more|done].
Qed.

Lemma write_templates_all out l :
  write_templates out l = match insert_all (λ _, false) out l with Some t => Ok t | None => Err layout_changed end.
Proof.
  revert out. induction l as [|[p t] l IH]; intros out; [done|]. simpl. destruct (insert_with _ out p t); simpl; [apply IH|done].
Qed.

Lemma write_templates_spec l :
  all_apart l.*1 → Forall (λ t, whole_placeholder t.2) l →
  ∃ out, write_templates [] l = Ok out ∧ ∀ q v, stored (λ _, false) out q v ↔ (q, v) ∈ l.
Proof.
  intros Hap Hl. destruct (insert_all_ok (λ _, false) (λ _, True)) with (l := l) (t := @nil (string * Value)) as (t & Ht & _ & Hst); try done.
  - eapply Forall_impl; [done|]. intros [p v] (x & t & raw & -> & _). done.
  - by intros q w ?%stored_empty.
  - exists t. rewrite write_templates_all, Ht. split; [done|]. intros q v. rewrite Hst. split; [by intros [?%stored_empty|?]|by right].
Qed.

(** The root of a tree of objects is no reference. *)
Lemma full_shaped t : full is_secret_leaf objects t → refs_shaped t.
Proof. intros [t' Hok _ _] x Hx. by specialize (Hok _ _ Hx). Qed.

(** Where a secret of a request is given. *)
Definition given_at (inputs : DriverInputs) (q : path) (given : Value) : Prop :=
  below (Obj (di_secret_refs inputs)) q given ∨ below (Obj (di_secrets inputs)) q given.

Lemma planned_inputs_spec inputs p :
  planned_inputs_new inputs = Ok p →
  pi_values p = di_values inputs
  ∧ all_apart (pi_templates p).*1 ∧ all_apart (pi_secrets p).*1
  ∧ Forall (λ t, below (Obj (di_secrets inputs)) t.1 t.2 ∧ whole_placeholder t.2) (pi_templates p)
  ∧ Forall (λ x, ∃ given, given_at inputs x.1 given ∧ planned_for given x.2) (pi_secrets p).
Proof.
  unfold planned_inputs_new. destruct (collect_refs [] _) as [refs|] eqn:Er; [|done]. cbn.
  destruct (collect_inline [] _) as [[templates values]|] eqn:Ei; [|done]. cbn.
  destruct (check_layout [] _) as [[]|] eqn:El; [|done]. cbn. intros [= <-]. cbn.
  apply check_layout_Ok, all_apart_app in El as [Ht Hs]. apply collect_refs_Ok in Er. apply collect_inline_Ok in Ei as [Hit His].
  split_and!; [done..| |].
  - eapply Forall_impl; [done|]. intros t (q & -> & ?). done.
  - apply Forall_app. split; (eapply Forall_impl; [done|]).
    + intros x (given & ? & ?). exists given. split; [by left|done].
    + intros x (q & given & -> & ? & ?). exists given. split; [by right|done].
Qed.

(** What the server stores of a request's driver inputs. Once they were checked, storing them fails
    only where the secret store does, never for two secrets at one place. The values stay as they
    are; what is kept of the inline secrets is whole placeholders, where they stood; and every leaf
    of the references is a reference, that the request gave there or that was just written, so that
    no literal secret is kept. The references are a tree of objects, as the catalog relies on. *)
Theorem secret_inputs_stored (inputs : DriverInputs) (p : PlannedInputs) (prefix : string) (s : St) :
  planned_inputs_new inputs = Ok p →
  let '(s', written, r) := write_inputs put p prefix s in
  match r with
  | Ok out =>
      di_values out = di_values inputs
      ∧ (∀ q v, stored (λ _, false) (di_secrets out) q v → below (Obj (di_secrets inputs)) q v ∧ whole_placeholder v)
      ∧ (∀ q v, stored is_secret_leaf (di_secret_refs out) q v → ∃ r given, v = secret_ref_to_value r ∧ given_at inputs q given
          ∧ (secret_ref_from_value given = Some r ∨ r ∈ written))
      ∧ refs_shaped (di_secret_refs out)
  | Err e => ∃ x, e = secret_store_error x
  end.
Proof.
  intros (Hv & Hat & Has & Ht & Hs)%planned_inputs_spec. unfold write_inputs.
  destruct (write_templates_spec (pi_templates p) Hat) as (out & -> & Hout).
  { eapply Forall_impl; [done|]. by intros t [_ ?]. }
  pose proof (write_secrets_spec prefix (pi_secrets p) [] [] s) as Hw.
  destruct (write_secrets put prefix [] (pi_secrets p) [] s) as [[s' written] [refs|e]];
    (destruct Hw as [_ Hw]; [apply full_nil|done|by intros q v ?%stored_empty|]); [|done].
  destruct Hw as (Hf & Honly & _). cbn. split_and!; [done| | |by apply full_shaped].
  - intros q v Hst%Hout. by apply (proj1 (Forall_forall _ _) Ht (q, v)).
  - intros q v [?%stored_empty|(pl & r & Hin & Hb & ->)]%Honly; [done|].
    destruct (proj1 (Forall_forall _ _) Hs _ Hin) as (given & Hg & Hp). exists r, given. split_and!; [done..|].
    destruct pl; [left; simpl in Hb; subst; apply Hp|by right].
Qed.
End inputs.
