(* ===== verification/Preview.v ===== *)
(** * Previews and permits ([crates/engine/src/preview.rs], [crates/server/src/handlers/plans.rs])

    What each resource's change is before drivers plan, which changes need a permit, how permits
    are asked for from a stored preview, and what an acceptance checks permits against. *)

From Stdlib Require Import Ascii.
From stdpp Require Import base sets strings list.
From S2P Require Import Prelude Strings OrdMap Ids Json Canonical Model Placeholder Sets Graph Db Identity Permits Deployments Resources Deletion PlanInputs PlanJob PlanTask.

Local Open Scope string_scope.
Local Open Scope list_scope.

(** ** The preview *)

Record DriverFacts := mk_DriverFacts { df_preview : bool; df_backend : option string }.

Inductive Change := ChCreate | ChUpdate | ChDelete | ChUnknown | ChReplace | ChDetach.

Definition permit_action (c : Change) : option string :=
  match c with
  | ChDelete => Some "delete"
  | ChUnknown => Some "unknown"
  | ChReplace => Some "replace"
  | ChDetach => Some "detach"
  | ChCreate | ChUpdate => None
  end.

Record DriverPlan := mk_DriverPlan {
  dpl_action : string; dpl_fingerprint : string; dpl_actions : list (string * string)
}.

Record Entry := mk_Entry {
  ent_descriptor : string; ent_guresid : option string; ent_definition : option string;
  ent_driver_type : option string; ent_action : Change; ent_known : bool; ent_reason : string;
  ent_permit_required : bool; ent_driver_plan : option DriverPlan; ent_digest : string
}.

Definition request_to_value (r : Request) : Value :=
  Obj ([("path", Str (rq_path r))] ++ opt_field "params" (Str <$> rq_params r)).

Definition node_to_value (n : Node) : Value :=
  Obj ([("descriptor", Str (Descriptor_show (n_descriptor n))); ("definition", Str (n_definition n));
        ("driver_type", Str (n_driver_type n))]
    ++ opt_field "params" (n_params n)
    ++ [("requests", Arr (request_to_value <$> n_requests n));
        ("depends_on", Arr ((λ d, Str (Descriptor_show d)) <$> n_depends_on n))]).

Section preview.
Context `{Libraries}.

Definition digest (v : Value) : string := sha256_hex (to_canonical_string v).

(** The shared values that the node may reference. *)
Definition referenced_values (dep : Deployment) (node : Node) : list (string * Value) :=
  let text := json_text (node_to_value node) in
  (λ kv, (kv.1, match kv.2 with
     | SVValue v => Obj [("value", v)]
     | SVSecret r => Obj [("secret_ref", secret_ref_to_value r)]
     end)) <$> filter (λ kv, str_contains ("values." +:+ kv.1) text = true) (dep_values dep).

(** What the resource is provisioned from. *)
Definition node_digest (dep : Deployment) (node : Node) : string :=
  digest (Obj [("node", node_to_value node);
    ("definition", match bt_get (n_definition node) (dep_definitions dep) with
       | Some (version, def) => Arr [opt_num (Some version); definition_to_value def]
       | None => Null
       end);
    ("values", Obj (referenced_values dep node));
    ("pin", option_default Null (bt_get (Descriptor_show (n_descriptor node)) (dep_pins dep)))]).

Definition was_provisioned (r : ResourceRow) : bool :=
  is_some (rs_last_deploy_id r) || is_some (resource_cookie r) || is_some (rs_target r).

(** A plan that an earlier attempt could not run without a permit. *)
Definition refused_plan (plan : DriverPlan) : option (Change * string) :=
  if String.eqb (dpl_action plan) "delete" then
    Some (ChDelete, "an earlier attempt's driver plan deletes objects")
  else if String.eqb (dpl_action plan) "replace" then
    Some (ChReplace, "an earlier attempt's driver plan destroys or replaces objects")
  else if String.eqb (dpl_action plan) "unknown" then
    Some (ChUnknown, "an earlier attempt's driver could not tell what the change does")
  else None.

Definition node_entry (dep : Deployment) (node : Node) (current : option ResourceRow) (action : Change)
    (known : bool) (reason : string) (required : bool) (plan : option DriverPlan) : Entry :=
  mk_Entry (Descriptor_show (n_descriptor node)) (rs_guresid <$> current) (Some (n_definition node))
    (Some (n_driver_type node)) action known reason required plan (node_digest dep node).

Definition previews (driver : option DriverFacts) : bool :=
  match driver with Some f => df_preview f | None => false end.

(** Why a resource that exists cannot be changed in place: it moves to another driver, *)
Definition driver_moves (node : Node) (r : ResourceRow) : option string :=
  match rs_driver_type r with
  | Some from =>
      if String.eqb from (n_driver_type node) then None
      else Some ("`" +:+ Descriptor_show (n_descriptor node) +:+ "` is managed by driver `" +:+ from
        +:+ "`, but its definition now uses `" +:+ n_driver_type node +:+ "`; migrate or replace the resource explicitly")
  | None => None
  end.

(** another cloud account, unless that is known only when the deployment runs, *)
Definition account_moves (dep : Deployment) (node : Node) (r : ResourceRow) : option string :=
  let def := snd <$> bt_get (n_definition node) (dep_definitions dep) in
  let account := def ≫= rd_driver_account in
  let literal := is_some def && negb (match account with Some a => str_contains "${" a | None => false end) in
  if literal && is_some (rs_last_deploy_id r) && negb (bool_decide (rs_driver_account r = account)) then
    Some ("`" +:+ Descriptor_show (n_descriptor node) +:+ "` was provisioned in " +:+ account_name (rs_driver_account r)
      +:+ ", but its definition now uses " +:+ account_name account +:+ "; migrate or replace the resource explicitly")
  else None.

(** or another state backend. *)
Definition backend_moves (node : Node) (driver : option DriverFacts) (r : ResourceRow) : option string :=
  match rs_backend r, driver ≫= df_backend with
  | Some was, Some now =>
      if String.eqb was now then None
      else Some ("`" +:+ Descriptor_show (n_descriptor node) +:+ "` keeps its state in " +:+ was
        +:+ ", but its driver now uses " +:+ now +:+ "; migrate the state explicitly")
  | _, _ => None
  end.

Definition migration (dep : Deployment) (node : Node) (driver : option DriverFacts) (r : ResourceRow) : option string :=
  match driver_moves node r with
  | Some e => Some e
  | None => match account_moves dep node r with Some e => Some e | None => backend_moves node driver r end
  end.

(** The entry of a node, or the migration that it would need. *)
Definition preview_node (dep : Deployment) (current : option ResourceRow) (driver : option DriverFacts)
    (plans : list (string * DriverPlan)) (node : Node) : Entry + string :=
  let entry := node_entry dep node current in
  match (current ≫= λ r, bt_get (rs_guresid r) plans) ≫= λ plan, (λ ar, (plan, ar)) <$> refused_plan plan with
  | Some (plan, (action, reason)) =>
      let fingerprinted := match action with ChUnknown => false | _ => true end in
      inl (entry action fingerprinted reason true (if fingerprinted then Some plan else None))
  | None =>
      match current with
      | Some r =>
          if was_provisioned r then
            match migration dep node driver r with
            | Some e => inr e
            | None =>
                inl (if previews driver then
                  entry ChUpdate false "the driver plans the change when the deployment runs; a replacement it finds needs a permit for that plan" false None
                else entry ChUnknown false "the driver cannot preview changes" true None)
            end
          else
            inl (if previews driver then
              entry ChCreate false "an earlier attempt did not finish; the driver plans the change when the deployment runs" false None
            else entry ChCreate true "not provisioned yet" false None)
      | None => inl (entry ChCreate true "not provisioned yet" false None)
      end
  end.

Definition deletion_reason (dep : Deployment) (mandatory : list string) (d : Descriptor) (r : ResourceRow) : string :=
  if rs_cleanup_pending r then "deleted by its driver already; only its record is removed"
  else if dep_teardown dep then "the environment is deleted"
  else if String.eqb (d_ty d) "workload" then "the workload was removed"
  else if bs_mem (rs_descriptor r) mandatory then "it belongs to a removed workload"
  else "scheduled for deletion; kept while something that stays uses it".

(** The record of a resource as a permit for its end binds it. *)
Definition record_digest (what : string) (r : ResourceRow) : string :=
  digest (Obj [(what, Str (rs_guresid r)); ("last_deploy_id", opt_str (rs_last_deploy_id r));
    ("definition", opt_str (rs_definition_id r)); ("version", opt_num (rs_definition_version r))]).

Definition deletion_entry (dep : Deployment) (mandatory : list string) (c : Descriptor * ResourceRow) : Entry :=
  let (d, r) := c in
  mk_Entry (Descriptor_show d) (Some (rs_guresid r)) (rs_definition_id r) (rs_driver_type r) ChDelete true
    (deletion_reason dep mandatory d r) (negb (rs_cleanup_pending r)) None (record_digest "delete" r).

Definition preview (dep : Deployment) (active : list ResourceRow) (facts : string → option DriverFacts)
    (plans : list (string * DriverPlan)) : result (list Entry) (list string) :=
  let by_descriptor := bt_of_list ((λ r, (rs_descriptor r, r)) <$> active) in
  let nodes := (λ node, preview_node dep (bt_get (Descriptor_show (n_descriptor node)) by_descriptor)
    (facts (n_driver_type node)) plans node) <$> bt_values (g_nodes (dep_graph dep)) in
  let migrations := filter_map (λ x, match x with inr e => Some e | inl _ => None end) nodes in
  let (candidates, mandatory) := deletion_candidates (dep_graph dep) (dep_teardown dep) active in
  let entries := filter_map (λ x, match x with inl e => Some e | inr _ => None end) nodes
    ++ (deletion_entry dep mandatory <$> candidates) in
  match migrations with
  | [] => Ok (sort_by_key ent_descriptor entries)
  | _ => Err migrations
  end.

(** The preview of a detach. *)
Definition detach (r : ResourceRow) : Entry :=
  mk_Entry (rs_descriptor r) (Some (rs_guresid r)) (rs_definition_id r) (rs_driver_type r) ChDetach true
    "detached: no longer managed, and the object stays" true None (record_digest "detach" r).
End preview.

(** ** Asking for permits *)

Definition change_to_str (c : Change) : string :=
  match c with
  | ChCreate => "create" | ChUpdate => "update" | ChDelete => "delete" | ChUnknown => "unknown"
  | ChReplace => "replace" | ChDetach => "detach"
  end.

Definition driver_plan_to_value (p : DriverPlan) : Value :=
  Obj [("action", Str (dpl_action p)); ("fingerprint", Str (dpl_fingerprint p));
       ("actions", Arr ((λ a, Arr [Str a.1; Str a.2]) <$> dpl_actions p))].

Definition entry_to_value (e : Entry) : Value :=
  Obj [("descriptor", Str (ent_descriptor e)); ("guresid", opt_str (ent_guresid e));
       ("definition", opt_str (ent_definition e)); ("driver_type", opt_str (ent_driver_type e));
       ("action", Str (change_to_str (ent_action e))); ("known", Bool (ent_known e)); ("reason", Str (ent_reason e));
       ("permit_required", Bool (ent_permit_required e));
       ("driver_plan", match ent_driver_plan e with Some p => driver_plan_to_value p | None => Null end);
       ("digest", Str (ent_digest e))].

(** The body of a stored plan. *)
Definition plan_body (entries : list Entry) : Value := Obj [("resources", Arr (entry_to_value <$> entries))].

Record PermitAsk := mk_PermitAsk { ask_descriptor : string; ask_action : string; ask_fingerprint : option string }.

Definition str_is (v : Value) (s : string) : bool := match v with Str x => String.eqb x s | _ => false end.

(** One permit to issue, checked against the stored preview. *)
Definition permit_for (plan : string) (resources : list Value) (a : PermitAsk) : result NewPermit string :=
  let? entry := ok_or (find (λ r, str_is (json_index r "descriptor") (ask_descriptor a)) resources)
    ("plan `" +:+ plan +:+ "` does not change `" +:+ ask_descriptor a +:+ "`") in
  let required := match json_index entry "permit_required" with Bool b => b | _ => false end in
  if negb required || negb (str_is (json_index entry "action") (ask_action a)) then
    Err ("plan `" +:+ plan +:+ "` shows `" +:+ ask_descriptor a +:+ "` as "
      +:+ option_default "unchanged" (as_str (json_index entry "action")) +:+ ", which needs no `"
      +:+ ask_action a +:+ "` permit")
  else
    let planned := as_str (json_index (json_index entry "driver_plan") "fingerprint") in
    if is_some (ask_fingerprint a) && negb (bool_decide (ask_fingerprint a = planned)) then
      Err ("plan `" +:+ plan +:+ "` shows no driver plan `" +:+ option_default ε (ask_fingerprint a)
        +:+ "` for `" +:+ ask_descriptor a +:+ "`")
    else Ok (mk_NewPermit (ask_descriptor a) (as_str (json_index entry "guresid")) (ask_action a) planned
      (option_default ε (as_str (json_index entry "digest")))).

Definition permits_for (plan : string) (body : Value) (asks : list PermitAsk) : result (list NewPermit) string :=
  match asks with
  | [] => Err "ask for at least one permit"
  | _ =>
      let resources := option_default [] (as_array (json_index body "resources")) in
      try_fold (λ issue a, let? p := permit_for plan resources a in Ok (issue ++ [p])) [] asks
  end.

(** What an acceptance checks the presented permits against. *)
Definition binding (entries : list Entry) (presented : list string) : PermitBinding :=
  mk_PermitBinding presented (bt_of_list ((λ e, (ent_descriptor e, ent_digest e)) <$> entries))
    (filter_map (λ e, if ent_permit_required e then (λ a, (ent_descriptor e, a)) <$> permit_action (ent_action e) else None)
      entries).
