(* ===== verification/PreviewProofs.v ===== *)
(** * What previews promise

    A preview has one entry for every resource a deployment changes, the deletions that its run
    will make included; permits asked for from it are for what it shows; and a deployment is
    accepted only with a permit, for exactly what was previewed, for every change that needs one. *)

From Stdlib Require Import Ascii.
From stdpp Require Import base sets strings list sorting.
From S2P Require Import Prelude Strings OrdMap Ids Json Canonical Model Placeholder Sets Graph Db DbLogic Identity Rbac Apps Permits Deployments Resources IdentityInv IdentityRoles DeployInv Access DeployProofs Lifecycle Deletion PlanInputs PlanJob PlanTask Preview.

Local Open Scope string_scope.
Local Open Scope list_scope.

(** The last of the values given for a key counts; with one for each, that one. *)
Lemma previewed_get_of_list {K V} `{Ord K} (l : list (K * V)) k v :
  NoDup l.*1 → (k, v) ∈ l → bt_get k (bt_of_list l) = Some v.
Proof.
  unfold bt_of_list. generalize (@nil (K * V)). induction l as [|[k' v'] l IH]; intros m; simpl; [by intros _ ?%not_elem_of_nil|].
  intros [Hn Hl]%NoDup_cons [[= -> ->]|Hin]%elem_of_cons; [|by apply IH].
  assert (∀ l m, k' ∉ l.*1 → bt_get k' m = Some v' → bt_get k' (foldl (λ m kv, bt_insert kv.1 kv.2 m) m l) = Some v') as Hf.
  { clear. induction l as [|[j w] l IH]; intros m Hn Hg; [done|]. simpl. apply IH; [set_solver|].
    rewrite bt_get_insert_ne; [done|]. set_solver. }
  apply Hf; [done|]. apply bt_get_insert_eq.
Qed.

Lemma Descriptor_show_inj d d' : descriptor_valid d → descriptor_valid d' → Descriptor_show d = Descriptor_show d' → d = d'.
Proof.
  intros Hd Hd' E. assert (Descriptor_parse (Descriptor_show d) = Ok d) as E1 by (by apply descriptor_roundtrip).
  assert (Descriptor_parse (Descriptor_show d) = Ok d') as E2 by (by apply descriptor_roundtrip). congruence.
Qed.

(** A graph as it is built: nodes under their own, valid descriptors. *)
Record graph_ok (g : ResourceGraph) : Prop := {
  gk_wf : bt_wf (g_nodes g);
  gk_keyed : ∀ d node, (d, node) ∈ g_nodes g → n_descriptor node = d ∧ descriptor_valid d
}.

Lemma inl_all {A B} (l : list (A + B)) :
  filter_map (λ x, match x with inr b => Some b | inl _ => None end) l = [] →
  l = inl <$> filter_map (λ x, match x with inl a => Some a | inr _ => None end) l.
Proof. induction l as [|[a|b] l IH]; simpl; [done| |done]. intros Hl. csimpl. f_equal. by apply IH. Qed.

Lemma Forall2_fmap_eq {A B C} (P : A → B → Prop) (f : A → C) (g : B → C) l k :
  Forall2 P l k → (∀ x y, P x y → g y = f x) → g <$> k = f <$> l.
Proof. intros Hl Hf. induction Hl as [|x y l k Hxy _ IH]; csimpl; [done|]. by rewrite IH, (Hf x y). Qed.

Section preview.
Context `{Libraries} (dep : Deployment) (active : list ResourceRow) (facts : string → option DriverFacts).
Context (plans : list (string * DriverPlan)).

Abbreviation nodes := (bt_values (g_nodes (dep_graph dep))).
Abbreviation candidates := ((deletion_candidates (dep_graph dep) (dep_teardown dep) active).1).
Abbreviation mandatory := ((deletion_candidates (dep_graph dep) (dep_teardown dep) active).2).

(** The record of the resource, if there is one. *)
Definition current (node : Node) : option ResourceRow :=
  bt_get (Descriptor_show (n_descriptor node)) (bt_of_list ((λ r, (rs_descriptor r, r)) <$> active)).

Abbreviation shows := (λ node e, preview_node dep (current node) (facts (n_driver_type node)) plans node = inl e).

Lemma preview_Ok entries :
  preview dep active facts plans = Ok entries →
  StronglySorted (key_le ent_descriptor) entries
  ∧ ∃ es, Forall2 shows nodes es ∧ entries ≡ₚ es ++ (deletion_entry dep mandatory <$> candidates).
Proof.
  unfold preview. set (l := _ <$> nodes). destruct (deletion_candidates _ _ _) as [cs ms].
  destruct (filter_map _ l) as [|] eqn:E; [|done]. intros [= <-]. split; [apply sort_by_key_sorted|].
  apply inl_all in E. set (es := filter_map _ l) in *. exists es. split; [|apply sort_by_key_perm].
  clearbody es. subst l. revert es E. induction nodes as [|node l IH]; intros [|e es] E; csimpl in *; try done.
  injection E as E1 E2. constructor; [done|]. by apply IH.
Qed.

(** What an entry of a node says. *)
Lemma preview_node_entry node e :
  shows node e →
  ent_descriptor e = Descriptor_show (n_descriptor node) ∧ ent_guresid e = rs_guresid <$> current node
  ∧ ent_digest e = node_digest dep node ∧ (ent_permit_required e = true ↔ is_Some (permit_action (ent_action e))).
Proof.
  unfold preview_node. destruct (current node) as [r|] eqn:Ec; simpl.
  - destruct (bt_get (rs_guresid r) plans ≫= _) as [[plan [action reason]]|] eqn:Ep.
    + apply bind_Some in Ep as (p & _ & ([a s] & Hr & [= <- <- <-])%fmap_Some).
      assert (is_Some (permit_action action)) as Ha.
      { unfold refused_plan in Hr. repeat case_match; simplify_eq; by eexists. }
      intros [= <-]. split_and!; [done..|]. by split.
    + destruct (was_provisioned r); [destruct (migration dep node _ r); [done|]|]; intros [= <-]; destruct (previews _);
        (split_and!; [done..|]); simpl; (split; [try done; by eexists|try by intros []]).
  - intros [= <-]. split_and!; [done..|]. simpl. split; [done|by intros []].
Qed.

Lemma candidate_entry d r :
  (d, r) ∈ candidates → rs_descriptor r = Descriptor_show d ∧ descriptor_valid d ∧ bt_get d (g_nodes (dep_graph dep)) = None.
Proof.
  intros Hc. destruct (candidates_outside (dep_graph dep) (dep_teardown dep) active) as [_ Ho].
  destruct (Ho d r Hc) as (_ & Hp & Hn). by apply descriptor_roundtrip in Hp as [Hv ->].
Qed.

(** Every resource of the graph, and every resource that the deployment deletes, has its entry. *)
Lemma preview_descriptors entries :
  graph_ok (dep_graph dep) → preview dep active facts plans = Ok entries →
  ent_descriptor <$> entries ≡ₚ Descriptor_show <$> (bt_keys (g_nodes (dep_graph dep)) ++ bt_keys candidates).
Proof.
  intros [_ Hk] (_ & es & Hes & ->)%preview_Ok. rewrite !fmap_app. f_equiv.
  - rewrite (Forall2_fmap_eq _ (λ node, Descriptor_show (n_descriptor node)) ent_descriptor _ _ Hes)
      by (intros node e Hs; by apply preview_node_entry in Hs as [? _]).
    unfold bt_values, bt_keys. rewrite <- !list_fmap_compose. erewrite list_fmap_ext; [done|]. intros i [d node] Hin%list_elem_of_lookup_2. simpl.
    by destruct (Hk d node Hin) as [-> _].
  - unfold bt_keys. rewrite <- !list_fmap_compose. erewrite list_fmap_ext; [done|]. by intros i [d r] _.
Qed.

(** No resource has two entries. *)
Lemma preview_distinct entries :
  graph_ok (dep_graph dep) → preview dep active facts plans = Ok entries → NoDup (ent_descriptor <$> entries).
Proof.
  intros Hg Hp. rewrite (preview_descriptors entries Hg Hp). destruct Hg as [Hw Hk].
  destruct (candidates_outside (dep_graph dep) (dep_teardown dep) active) as [Hc _].
  assert (∀ d, d ∈ bt_keys candidates → descriptor_valid d ∧ bt_get d (g_nodes (dep_graph dep)) = None) as Hd.
  { intros d ([d' r] & -> & Hin)%list_elem_of_fmap. by apply candidate_entry in Hin as (_ & ? & ?). }
  apply NoDup_fmap_2_strong.
  - intros x y Hx Hy. apply Descriptor_show_inj; [clear Hy y|clear Hx x; rename Hy into Hx]; apply elem_of_app in Hx as [Hx|Hx];
      [|by apply Hd| |by apply Hd]; apply list_elem_of_fmap in Hx as ([d node] & -> & Hin); by apply (Hk d node).
  - apply NoDup_app. split_and!; [by apply bt_wf_NoDup| |by apply bt_wf_NoDup].
    intros d Hin Hn. apply Hd in Hn as [_ Hn]. apply bt_get_keys in Hin as [node Hnode]. congruence.
Qed.

Lemma node_shown entries node :
  preview dep active facts plans = Ok entries → node ∈ nodes → ∃ e, e ∈ entries ∧ shows node e.
Proof.
  intros (_ & es & Hes & Hp)%preview_Ok Hn. destruct (Forall2_elem_l _ _ _ _ Hes Hn) as (e & He & Hs).
  exists e. split; [|done]. rewrite Hp. by apply elem_of_app; left.
Qed.

Lemma deletion_shown entries d r :
  preview dep active facts plans = Ok entries → (d, r) ∈ candidates → deletion_entry dep mandatory (d, r) ∈ entries.
Proof. intros (_ & es & _ & Hp)%preview_Ok Hc. rewrite Hp. apply elem_of_app. right. by apply list_elem_of_fmap_2. Qed.

Lemma required_action entries e :
  preview dep active facts plans = Ok entries → e ∈ entries → ent_permit_required e = true →
  permit_action (ent_action e) = Some (change_to_str (ent_action e)).
Proof.
  intros (_ & es & Hes & Hp)%preview_Ok He Hr. assert (is_Some (permit_action (ent_action e))) as [a Ha].
  { rewrite Hp in He. apply elem_of_app in He as [He|([d r] & -> & _)%list_elem_of_fmap]; [|by eexists].
    destruct (Forall2_elem_r _ _ _ _ Hes He) as (node & _ & Hs). apply preview_node_entry in Hs as (_ & _ & _ & Hq). by apply Hq. }
  by destruct (ent_action e).
Qed.

(** A preview shows every change. It has one entry, no more, for every resource of the
    deployment and for every resource its run would delete. A deletion is shown for the
    resource and identity that the run asks a permit for, and needs one unless the driver
    deleted it already. A resource that exists and whose driver cannot preview is shown as a
    change of unknown impact that needs a permit; and unless a plan of an earlier attempt is
    pending, one that would move to another driver, account or backend is not shown at all but
    refused. *)
Theorem preview_spec (entries : list Entry) :
  graph_ok (dep_graph dep) → preview dep active facts plans = Ok entries →
  NoDup (ent_descriptor <$> entries)
  ∧ (∀ name, name ∈ ent_descriptor <$> entries ↔
      ∃ d, name = Descriptor_show d ∧ (d ∈ bt_keys (g_nodes (dep_graph dep)) ∨ d ∈ bt_keys candidates))
  ∧ (∀ d r, (d, r) ∈ candidates → ∃ e, e ∈ entries ∧ ent_descriptor e = rs_descriptor r
      ∧ ent_guresid e = Some (rs_guresid r) ∧ ent_action e = ChDelete
      ∧ ent_permit_required e = negb (rs_cleanup_pending r))
  ∧ (∀ node r, node ∈ nodes → current node = Some r → was_provisioned r = true → bt_get (rs_guresid r) plans = None →
      migration dep node (facts (n_driver_type node)) r = None
      ∧ (previews (facts (n_driver_type node)) = false → ∃ e, e ∈ entries
          ∧ ent_descriptor e = Descriptor_show (n_descriptor node) ∧ ent_action e = ChUnknown ∧ ent_permit_required e = true)).
Proof.
  intros Hg Hp. split_and!; [by apply preview_distinct| | |].
  - intros name. rewrite (preview_descriptors entries Hg Hp), list_elem_of_fmap. setoid_rewrite elem_of_app. naive_solver.
  - intros d r Hc. exists (deletion_entry dep mandatory (d, r)). split; [by apply deletion_shown|].
    by apply candidate_entry in Hc as (-> & _).
  - intros node r Hn Hc Hw Hpl. destruct (node_shown entries node Hp Hn) as (e & He & Hs). simpl in Hs.
    unfold preview_node in Hs. rewrite Hc in Hs. simpl in Hs. rewrite Hpl in Hs. simpl in Hs. rewrite Hw in Hs.
    destruct (migration _ _ _ _); [done|]. split; [done|]. intros Hv. exists e. split; [done|]. rewrite Hv in Hs.
    by injection Hs as <-.
Qed.

(** ** Asking for permits *)

(** The permit that an entry asks for. *)
Definition permit_of (e : Entry) : NewPermit :=
  mk_NewPermit (ent_descriptor e) (ent_guresid e) (change_to_str (ent_action e)) (dpl_fingerprint <$> ent_driver_plan e)
    (ent_digest e).

Definition ask_for (e : Entry) : PermitAsk := mk_PermitAsk (ent_descriptor e) (change_to_str (ent_action e)) None.

Lemma find_entry entries (name : string) :
  find (λ r, str_is (json_index r "descriptor") name) (entry_to_value <$> entries)
  = entry_to_value <$> find (λ e, String.eqb (ent_descriptor e) name) entries.
Proof. induction entries as [|e l IH]; [done|]. csimpl. cbn [str_is json_index]. simpl. by destruct (String.eqb _ _). Qed.

Lemma permit_for_entry plan entries a :
  permit_for plan (entry_to_value <$> entries) a
  = match find (λ e, String.eqb (ent_descriptor e) (ask_descriptor a)) entries with
    | None => Err ("plan `" +:+ plan +:+ "` does not change `" +:+ ask_descriptor a +:+ "`")
    | Some e =>
        if negb (ent_permit_required e) || negb (String.eqb (change_to_str (ent_action e)) (ask_action a)) then
          Err ("plan `" +:+ plan +:+ "` shows `" +:+ ask_descriptor a +:+ "` as " +:+ change_to_str (ent_action e)
            +:+ ", which needs no `" +:+ ask_action a +:+ "` permit")
        else if is_some (ask_fingerprint a) && negb (bool_decide (ask_fingerprint a = dpl_fingerprint <$> ent_driver_plan e)) then
          Err ("plan `" +:+ plan +:+ "` shows no driver plan `" +:+ option_default ε (ask_fingerprint a)
            +:+ "` for `" +:+ ask_descriptor a +:+ "`")
        else Ok (mk_NewPermit (ask_descriptor a) (ent_guresid e) (ask_action a) (dpl_fingerprint <$> ent_driver_plan e) (ent_digest e))
    end.
Proof.
  unfold permit_for. rewrite find_entry. destruct (find _ entries) as [e|]; [|done].
  destruct e as [dn gu de dr ac kn re rq [pl|] di], gu; reflexivity.
Qed.

Lemma find_by_name entries e :
  NoDup (ent_descriptor <$> entries) → e ∈ entries →
  find (λ x, String.eqb (ent_descriptor x) (ent_descriptor e)) entries = Some e.
Proof.
  induction entries as [|x l IH]; [by intros _ ?%not_elem_of_nil|]. csimpl.
  intros [Hn Hl]%NoDup_cons [->|Hin]%elem_of_cons; [by rewrite String.eqb_refl|].
  destruct (String.eqb_spec (ent_descriptor x) (ent_descriptor e)) as [E|]; [|by apply IH].
  destruct Hn. rewrite E. by apply list_elem_of_fmap_2.
Qed.

(** permits are for what the preview shows. Asking the stored preview for permits gives,
    for every permit asked for, one for an entry that needs a permit for that action, with the
    identity, the driver plan and the configuration that the entry shows; and a permit can be
    asked for every entry that needs one. *)
Theorem permits_match_preview (plan : string) (entries : list Entry) :
  graph_ok (dep_graph dep) → preview dep active facts plans = Ok entries →
  (∀ asks issue, permits_for plan (plan_body entries) asks = Ok issue →
     length issue = length asks ∧ ∀ p, p ∈ issue → ∃ e, e ∈ entries ∧ ent_permit_required e = true ∧ p = permit_of e
       ∧ permit_action (ent_action e) = Some (npm_action p))
  ∧ (∀ e, e ∈ entries → ent_permit_required e = true → permits_for plan (plan_body entries) [ask_for e] = Ok [permit_of e]).
Proof.
  intros Hg Hp. assert (∀ asks, asks ≠ [] → permits_for plan (plan_body entries) asks
    = try_map (permit_for plan (entry_to_value <$> entries)) asks) as Hm.
  { intros [|a asks] Hne; [done|]. unfold permits_for, plan_body. cbn [json_index json_get].
    rewrite (try_fold_push _ (permit_for plan (entry_to_value <$> entries))) by done. by destruct (try_map _ _). }
  split.
  - intros [|a asks] issue; [done|]. rewrite Hm by done. intros Hf%try_map_Ok. split; [by eapply eq_sym, Forall2_length|].
    intros p Hin. destruct (Forall2_elem_r _ _ _ _ Hf Hin) as (a' & _ & Ha). rewrite permit_for_entry in Ha.
    destruct (find _ entries) as [e|] eqn:E; [|done]. apply find_Some in E as [He Hn%String.eqb_eq].
    destruct (ent_permit_required e) eqn:Er; [|done].
    destruct (String.eqb_spec (change_to_str (ent_action e)) (ask_action a')) as [Hac|]; [|done].
    destruct (_ && _) in Ha; [done|]. injection Ha as <-. exists e.
    pose proof (required_action entries e Hp He Er) as Hq. rewrite Hac in Hq.
    split_and!; [done..| |done]. unfold permit_of. by rewrite Hac, Hn.
  - intros e He Hr. rewrite Hm by done. cbn [try_map]. rewrite permit_for_entry. cbn [ask_for ask_descriptor ask_action ask_fingerprint].
    rewrite find_by_name; [|by apply preview_distinct|done]. rewrite Hr, String.eqb_refl. done.
Qed.

(** ** Acceptance *)

Lemma binding_required entries presented e :
  e ∈ entries → ent_permit_required e = true → permit_action (ent_action e) = Some (change_to_str (ent_action e)) →
  (ent_descriptor e, change_to_str (ent_action e)) ∈ pb_required (binding entries presented).
Proof. intros He Hr Ha. simpl. apply elem_of_filter_map. exists e. by rewrite Hr, Ha. Qed.

(** What acceptance binds is in the table afterwards. *)
Lemma bound_row app env g id b d d1 now da :
  bound_to app env g id b d d1 now → da ∈ pb_required b →
  ∃ i e p0 p, i ∈ pb_presented b ∧ binds app env (en_type e) g now (pb_digests b) d i p0 ∧ p ∈ db_permits d1 ∧ pm_id p = i
    ∧ (pm_descriptor p, pm_action p) = da ∧ pm_bound_to p = Some id ∧ pm_config_digest p = pm_config_digest p0
    ∧ pm_descriptor p0 = pm_descriptor p ∧ pm_guresid p = pm_guresid p0.
Proof.
  intros Hb Hda. destruct (bt_required _ _ _ _ _ _ _ _ Hb da Hda) as (i & e & p0 & Hi & _ & Hp & <-).
  pose proof (bd_row _ _ _ _ _ _ _ _ _ Hp) as Hrow. pose proof (bd_id _ _ _ _ _ _ _ _ _ Hp) as Hid.
  assert (pm_id p0 = i) as Hpi. { unfold is_permit in Hid. rewrite !andb_true_iff, !String.eqb_eq in Hid. by destruct_and?. }
  exists i, e, p0, (bind_all (bs_of_list (pb_presented b)) id now p0). rewrite (bt_update _ _ _ _ _ _ _ _ Hb).
  assert (bind_all (bs_of_list (pb_presented b)) id now p0 = bind_permit_row id now p0) as ->.
  { unfold bind_all. rewrite (proj2 (existsb_true _ _)); [done|]. exists i. rewrite Hpi, String.eqb_refl.
    split; [by apply elem_of_bs_of_list|done]. }
  split_and!; try done. simpl. apply list_elem_of_fmap. exists p0. split; [|done].
  unfold bind_all. rewrite (proj2 (existsb_true _ _)); [done|]. exists i. rewrite Hpi, String.eqb_refl.
  split; [by apply elem_of_bs_of_list|done].
Qed.

(** C5: a deployment is accepted only with a permit for every previewed change that needs one:
    presented with the request, bound now to this deployment, for that resource and action, and
    issued for the very configuration that the preview at acceptance shows. So no resource that
    its run deletes is without one, unless the driver deleted it already. *)
Theorem accepted_changes_are_permitted `{System} (org : string) (req : DeploymentRequest) (presented : list string)
    (entries : list Entry) (d : Db) (n : nat) (rec : DeploymentRecord) (c' : Conn) :
  graph_ok (dep_graph dep) → store_ok d → preview dep active facts plans = Ok entries →
  dq_permits req = binding entries presented →
  accept_deployment org req (mk_Conn d n) = Ok (Created rec, c') →
  let permitted e := ∃ p, p ∈ db_permits (c_db c') ∧ pm_id p ∈ presented ∧ pm_bound_to p = Some (dl_id rec)
    ∧ pm_descriptor p = ent_descriptor e ∧ permit_action (ent_action e) = Some (pm_action p)
    ∧ pm_config_digest p = ent_digest e in
  (∀ e, e ∈ entries → ent_permit_required e = true → permitted e)
  ∧ ∀ x r, (x, r) ∈ candidates → rs_cleanup_pending r = false →
      ∃ e, permitted e ∧ ent_descriptor e = rs_descriptor r ∧ ent_action e = ChDelete.
Proof.
  intros Hg [Hok Hd] Hp Hreq Hx permitted.
  assert (∀ e, e ∈ entries → ent_permit_required e = true → permitted e) as Hall.
  { intros e He Hr. apply accept_created in Hx as (en & f & row & _ & Hrec & (d1 & now & created & Hb & Hrow & _ & _ & Hda)); [|done].
    pose proof (required_action entries e Hp He Hr) as Ha. rewrite Hreq in Hb.
    destruct (bound_row _ _ _ _ _ _ _ _ _ Hb (binding_required entries presented e He Hr Ha))
      as (i & en' & p0 & p & Hi & Hbd & Hin & <- & [= Hn Hac] & Hbo & Hdig & Hsame & _).
    exists p. destruct Hda as (fa & sa & ->).
    pose proof (bd_digest _ _ _ _ _ _ _ _ _ Hbd) as Hg0. rewrite Hsame, Hn in Hg0. simpl in Hg0.
    rewrite (previewed_get_of_list _ _ (ent_digest e)) in Hg0.
    - apply into_record_Ok in Hrec as (-> & _). injection Hg0 as Hg0. split_and!; try done; [by rewrite Ha, Hac|congruence].
    - rewrite <- list_fmap_compose. by apply preview_distinct.
    - by apply (list_elem_of_fmap_2 (λ e, (ent_descriptor e, ent_digest e))). }
  split; [done|]. intros x r Hc Hcl. exists (deletion_entry dep mandatory (x, r)).
  pose proof (deletion_shown entries x r Hp Hc) as Hin. split_and!; [apply Hall; [done|]; simpl; by rewrite Hcl| |done].
  by apply candidate_entry in Hc as (-> & _).
Qed.
End preview.
