(* ===== verification/Scenarios.v ===== *)
(** * An installation at work

    A small installation, from its first start to a deployment with a permit and the deletion of
    an environment; the theorems about deployments are applied to it. *)

From Stdlib Require Import Ascii.
From stdpp Require Import base sets strings list.
From S2P Require Import Prelude Strings OrdMap Json Ids Sets Db DbLogic Identity Rbac Apps Permits Deployments Resources IdentityInv IdentityRoles DeployInv Access Operations DeployProofs Lifecycle History Phases ResourceSteps Restart Recovery.

Local Open Scope string_scope.
Local Open Scope Z_scope.
Local Open Scope list_scope.

#[local] Existing Instance example_system.

Definition same_text (s : string) : string := s.
Definition run_demo : list StoreOp → Conn → Conn := run_all "acme" same_text.
Definition by_actor (actor : string) : AuditIntent := audit_accepted "acme" actor "POST" "/" "test".

Definition set_of_demo : string := set_id same_text empty_set.

(** An administrator, a manager who owns an application and may deploy it, with a second
    environment. *)
Definition demo_setup : list StoreOp := [
  OpBootstrap "acme" "h0" 3600000 (by_actor "system");
  OpCreatePrincipal "acme" (mk_NewPrincipal "mia" "user" "Mia" None Manager) (by_actor "bootstrap");
  OpCreateApp "acme" "shop" "Shop" "mia" (by_actor "mia");
  OpSetEnvTypeRole "acme" "development" "mia" (by_actor "bootstrap");
  OpCreateEnv "acme" "shop" (mk_NewEnv "staging" "Staging" "development" None) (by_actor "mia");
  OpPutSet "acme" "shop" empty_set].

Definition demo : Conn := run_demo demo_setup (mk_Conn empty_db 0).

Lemma demo_ok : store_ok (c_db demo).
Proof. apply run_all_store, empty_store_ok. Qed.

(** A deployment that replaces a resource, with the permit it needs. *)
Definition demo_plan : NewPlan :=
  mk_NewPlan "acme" "shop" "development" "deploy" 0 (Some set_of_demo) Null (by_actor "mia").
Definition demo_permit : NewPermit := mk_NewPermit "dns.default#www" None "replace" None "digest".

Definition planned : Conn := run_demo [OpPutPlan demo_plan] demo.
Definition plan_id : string := option_default ε (pl_id <$> head (db_plans (c_db planned))).
Definition permitted_demo : Conn :=
  run_demo [OpIssuePermits "acme" "shop" "development" plan_id [demo_permit] (by_actor "mia")] planned.
Definition permit_id : string := option_default ε (pm_id <$> head (db_permits (c_db permitted_demo))).

Definition demo_request : DeploymentRequest :=
  mk_DeploymentRequest "acme" "shop" "development" "mia" 0 (Some "key") "print" Deploy
    (Some set_of_demo) None None ε Null (by_actor "mia")
    (mk_PermitBinding [permit_id] [("dns.default#www", "digest")] [("dns.default#www", "replace")]).

Definition accepted : Conn := run_demo [OpAcceptDeployment demo_request] permitted_demo.
Definition deployment_id : string := option_default ε (dp_id <$> head (db_deployments (c_db accepted))).

Definition demo_use : PermitUse :=
  mk_PermitUse "acme" "shop" "development" (Some deployment_id) [] "dns.default#www" None "replace" None.

Definition finished : Conn :=
  run_demo [OpFinishDeployment "acme" "shop" "development" deployment_id None] accepted.

Lemma permitted_ok : store_ok (c_db permitted_demo).
Proof. apply run_all_store, run_all_store, demo_ok. Qed.
Lemma accepted_ok : store_ok (c_db accepted).
Proof. apply run_all_store, permitted_ok. Qed.

(** Deleting an environment. *)
Definition deletion : DeploymentRequest :=
  mk_DeploymentRequest "acme" "shop" "staging" "mia" 0 None "print" DeleteEnv None None None ε Null
    (by_actor "mia") no_permits.
Definition deleting : Conn := run_demo [OpAcceptDeployment deletion] demo.
Definition deletion_id : string := option_default ε (dp_id <$> head (db_deployments (c_db deleting))).

Lemma deleting_ok : store_ok (c_db deleting).
Proof. apply run_all_store, demo_ok. Qed.

(** ** The theorems, applied *)

Lemma deployments_in_order_witness :
  length (db_deployments (c_db accepted)) = 1%nat
  ∧ store_ok (c_db (run_all "acme" same_text [OpFinishDeployment "acme" "shop" "development" deployment_id None] accepted)).
Proof.
  split; [by vm_compute|]. apply (deployments_in_order "acme" same_text). exact accepted_ok.
Defined.

Definition is_created (r : result (Acceptance * Conn) StoreError) : bool :=
  match r with Ok (Created _, _) => true | _ => false end.

Lemma is_created_spec r : is_created r = true → ∃ x c, r = Ok (Created x, c).
Proof. destruct r as [[[x|x] c]|e]; try done. by exists x, c. Qed.

Lemma acceptance_spec_witness :
  is_created (accept_deployment "acme" demo_request (mk_Conn (c_db permitted_demo) 25)) = true ∧ ∃ e, acceptable demo_request (c_db permitted_demo) e.
Proof.
  assert (is_created (accept_deployment "acme" demo_request (mk_Conn (c_db permitted_demo) 25)) = true) as Hc by (by vm_compute). split; [exact Hc|].
  apply is_created_spec in Hc as (x & c' & E).
  destruct (acceptance_spec "acme" demo_request (c_db permitted_demo) 25 (Created x) c' permitted_ok E)
    as (e & f & d1 & now & row & He & _). exists e. exact He.
Defined.

Definition demo_row : DeploymentRow := new_deployment demo_request deployment_id 1 1 27.

Lemma retry_is_replayed_witness :
  ∃ r, deployment_into_record demo_row = Ok r
    ∧ accept_deployment "acme" demo_request (mk_Conn (c_db accepted) 40)
      = Ok (Replayed r, mk_Conn (c_db accepted) 40).
Proof.
  apply (retry_is_replayed "acme" demo_request "key" demo_row (c_db accepted) 40).
  - exact accepted_ok.
  - assert (db_deployments (c_db accepted) = [demo_row]) as -> by (by vm_compute). left.
  - reflexivity.
  - reflexivity.
  - reflexivity.
  - reflexivity.
  - reflexivity.
Defined.

Definition use_ok (r : result (result unit StoreError * Conn) StoreError) : bool :=
  match r with Ok (Ok _, _) => true | _ => false end.

Lemma use_ok_spec r : use_ok r = true → ∃ u c, r = Ok (Ok u, c).
Proof. destruct r as [[[u|e] c]|e]; try done. by exists u, c. Qed.

Lemma permit_use_authorized_witness :
  use_ok (use_permit "acme" demo_use (mk_Conn (c_db accepted) 40)) = true
  ∧ ∃ dep p, pu_deployment demo_use = Some dep ∧ p ∈ db_permits (c_db accepted) ∧ pm_bound_to p = Some dep
      ∧ (pm_descriptor p, pm_action p) = (pu_descriptor demo_use, pu_action demo_use).
Proof.
  assert (use_ok (use_permit "acme" demo_use (mk_Conn (c_db accepted) 40)) = true) as Hu by (by vm_compute).
  split; [exact Hu|]. apply use_ok_spec in Hu as (u & c' & E).
  destruct (permit_use_authorized "acme" demo_use (c_db accepted) 40 (Ok u) c' accepted_ok E)
    as (dep & e & p & Hdep & _ & Hp & Hb & Hda & _).
  exists dep, p. exact (conj Hdep (conj Hp (conj Hb Hda))).
Defined.

Lemma history_is_kept_witness :
  ∃ r', r' ∈ db_deployments (c_db (run "acme" same_text
      (OpFinishDeployment "acme" "shop" "development" deployment_id None) accepted))
    ∧ dp_status r' = "succeeded" ∧ deployment_le demo_row r'.
Proof.
  exists (finish_deployment_row "succeeded" None 33 demo_row).
  assert (db_deployments (c_db (run "acme" same_text
      (OpFinishDeployment "acme" "shop" "development" deployment_id None) accepted))
    = [finish_deployment_row "succeeded" None 33 demo_row]) as E by (by vm_compute).
  assert (db_deployments (c_db accepted) = [demo_row]) as E' by (by vm_compute).
  split; [rewrite E; left|]. split; [reflexivity|].
  apply (history_is_kept "acme" same_text
    (OpFinishDeployment "acme" "shop" "development" deployment_id None) accepted accepted_ok).
  - rewrite E'. left.
  - rewrite E. left.
  - vm_compute. reflexivity.
Defined.

Definition staging : EnvRow :=
  mk_EnvRow "shop" "staging" "Staging" "development" 1 None None None "deleting" 13 (Some "mia").

Lemma environment_removal_witness :
  let op := OpFinishDeployment "acme" "shop" "staging" deletion_id None in
  staging ∈ db_envs (c_db deleting)
  ∧ removes "shop" "staging" (c_db deleting) (c_db (run "acme" same_text op deleting)).
Proof.
  intros op.
  assert (staging ∈ db_envs (c_db deleting)) as Hin.
  { assert (nth_error (db_envs (c_db deleting)) 1 = Some staging) as E by (by vm_compute).
    apply nth_error_In in E. by apply list_elem_of_In. }
  split; [exact Hin|].
  apply (environment_removal "acme" same_text op deleting staging deleting_ok Hin).
  assert (env_key <$> db_envs (c_db (run "acme" same_text op deleting)) = [("shop", "development")]) as ->
    by (by vm_compute).
  intros [E|E%not_elem_of_nil]%elem_of_cons; [discriminate E|exact E].
Defined.

(** A request that needs no permit. *)
Definition plain_request : DeploymentRequest :=
  mk_DeploymentRequest "acme" "shop" "development" "mia" 0 None "print" Deploy
    (Some set_of_demo) None None ε Null (by_actor "mia") no_permits.

Definition development : EnvRow :=
  mk_EnvRow "shop" "development" "Development" "development" 0 None None None "active" 7 (Some "mia").
Definition shop : AppRow := mk_AppRow "shop" "Shop" 7 (Some "mia") "active".

Lemma mia_may_deploy : may_deploy (view (c_db demo)) (Some "mia") "shop" "development".
Proof.
  assert (v_app (view (c_db demo)) "shop" "mia" = Some Owner) as Ha by (by vm_compute).
  assert (v_dep (view (c_db demo)) "development" "mia" = true) as Hd by (by vm_compute).
  intros a Ea. assert (a = "mia") as -> by congruence.
  right. split; [exists Owner; split; [exact Ha|discriminate]|exact Hd].
Qed.

Lemma demo_idle : db_deployments (c_db demo) = [].
Proof. by vm_compute. Qed.

Lemma demo_nothing_active : db_active_resources (c_db demo) = [].
Proof. by vm_compute. Qed.

Lemma demo_env : select_one (is_env "shop" "development") (db_envs (c_db demo)) = Some development.
Proof. by vm_compute. Qed.

Lemma demo_app : select_one (is_app "shop") (db_apps (c_db demo)) = Some shop.
Proof. by vm_compute. Qed.

Lemma demo_has_set : is_Some (select_one (is_set "shop" set_of_demo) (db_sets (c_db demo))).
Proof.
  assert (is_some (select_one (is_set "shop" set_of_demo) (db_sets (c_db demo))) = true) as E by (by vm_compute).
  destruct (select_one (is_set "shop" set_of_demo) (db_sets (c_db demo))); [by eexists|discriminate E].
Qed.

Lemma acceptable_plain (d : Db) :
  select_one (is_env "shop" "development") (db_envs d) = Some development →
  may_deploy (view d) (Some "mia") "shop" "development" →
  select_one (is_app "shop") (db_apps d) = Some shop →
  db_deployments d = [] → db_active_resources d = [] →
  is_Some (select_one (is_set "shop" set_of_demo) (db_sets d)) →
  acceptable plain_request d development.
Proof.
  intros He Hm Ha Hd Hr Hs. constructor; [exact He|exact Hm| | | | | |].
  - exists shop. split; [exact Ha|]. split; reflexivity.
  - reflexivity.
  - rewrite Hd. intros r Hin. destruct (not_elem_of_nil _ Hin).
  - rewrite Hr. intros r Hin. destruct (not_elem_of_nil _ Hin).
  - exists set_of_demo. split; [reflexivity|exact Hs].
  - intros id content E. discriminate E.
Qed.

Lemma plain_acceptable : acceptable plain_request (c_db demo) development.
Proof.
  exact (acceptable_plain (c_db demo) demo_env mia_may_deploy demo_app demo_idle demo_nothing_active demo_has_set).
Qed.

(** A generator that has not drawn an identifier of the demonstration. *)
Definition later_system : System := {| clock n := Z.of_nat n; entropy n _ := "new" +:+ show_nat n; scalar_pins v := Ok v |}.

Lemma fresh_later d n :
  forallb (λ s, negb (String.prefix "n" s)) ((au_id <$> db_audit_log d) ++ (dp_id <$> db_deployments d)) = true →
  fresh_ids (H := later_system) d n.
Proof.
  intros Ha k b _. rewrite forallb_forall in Ha.
  split; intros Hin; assert (negb (String.prefix "n" (entropy (System := later_system) k b)) = true) as Hf; try done;
    apply Ha, list_elem_of_In, elem_of_app; auto.
Qed.

Lemma demo_fresh n : fresh_ids (H := later_system) (c_db demo) n.
Proof. apply fresh_later. by vm_compute. Qed.

Lemma idle_environment_accepts_witness :
  ∃ r c', accept_deployment (H := later_system) "acme" plain_request (mk_Conn (c_db demo) 100) = Ok (Created r, c').
Proof.
  apply (idle_environment_accepts (H := later_system) "acme" plain_request (c_db demo) 100 development []).
  - exact demo_ok.
  - reflexivity.
  - exact plain_acceptable.
  - exact (demo_fresh 100).
  - reflexivity.
  - intros id E. discriminate E.
  - intros key E. discriminate E.
Defined.

(** ** A resource of the deployment *)

Definition www : Descriptor := mk_Descriptor "dns" "default" "www".
Definition www_start : OperationStart :=
  mk_OperationStart "acme" "shop" "development" deployment_id www (Some "zone") (Some 1) (Some "route53") Put
    "print" (Obj []).

Definition begun : Conn := run_demo [OpBeginOperation www_start] accepted.
Definition www_id : string := option_default ε (rs_guresid <$> head (db_active_resources (c_db begun))).
Definition call_id : string := option_default ε (op_id <$> head (db_operations (c_db begun))).

(** The driver is called, and the server restarts. *)
Definition called : Conn := run_demo [OpRecordInputs call_id (Obj [("inputs", Obj [])])] begun.
Definition restarted : Conn := run_demo [OpRecover] called.

(** The invariants of the store and of resources, together. *)
Definition all_ok (c : Conn) : Prop := store_ok (c_db c) ∧ res_ok (c_db c).

Lemma run_demo_ok ops c : forallb plain_op ops = true → all_ok c → all_ok (run_demo ops c).
Proof.
  intros Hp [Hs Hr]. split; [by apply run_all_store|]. apply run_all_res_ok; [done|apply Hs|done].
Qed.

Lemma demo_all_ok : all_ok demo.
Proof. exact (run_demo_ok demo_setup (mk_Conn empty_db 0) eq_refl (conj empty_store_ok empty_res_ok)). Qed.
Lemma planned_ok : all_ok planned.
Proof. exact (run_demo_ok [OpPutPlan demo_plan] demo eq_refl demo_all_ok). Qed.
Lemma permitted_all_ok : all_ok permitted_demo.
Proof.
  exact (run_demo_ok [OpIssuePermits "acme" "shop" "development" plan_id [demo_permit] (by_actor "mia")] planned
    eq_refl planned_ok).
Qed.
Lemma accepted_all_ok : all_ok accepted.
Proof. exact (run_demo_ok [OpAcceptDeployment demo_request] permitted_demo eq_refl permitted_all_ok). Qed.
Lemma begun_ok : all_ok begun.
Proof. exact (run_demo_ok [OpBeginOperation www_start] accepted eq_refl accepted_all_ok). Qed.
Lemma called_ok : all_ok called.
Proof. exact (run_demo_ok [OpRecordInputs call_id (Obj [("inputs", Obj [])])] begun eq_refl begun_ok). Qed.
Lemma restarted_ok : all_ok restarted.
Proof. exact (run_demo_ok [OpRecover] called eq_refl called_ok). Qed.

Lemma store_refines_phases_witness :
  phase (c_db begun) www_id = Calling call_id
  ∧ phase_step (c_db accepted) www_id (OpBeginOperation www_start) (phase (c_db accepted) www_id)
      (phase (c_db begun) www_id).
Proof.
  split; [by vm_compute|].
  apply (store_refines_phases "acme" same_text (OpBeginOperation www_start) (c_db accepted) (c_calls accepted) tt begun).
  - reflexivity.
  - exact (proj2 accepted_all_ok).
  - exact (proj1 accepted_ok).
  - by vm_compute.
Defined.

Lemma resources_stay_consistent_witness :
  length (db_active_resources (c_db restarted)) = 1%nat
  ∧ res_ok (c_db (run_all "acme" same_text
      [OpResolve call_id (Operator "checked by hand") (by_actor "bootstrap")] restarted)).
Proof.
  split; [by vm_compute|]. apply (resources_stay_consistent "acme" same_text).
  - reflexivity.
  - exact (proj1 (proj1 restarted_ok)).
  - exact (proj2 restarted_ok).
Defined.

Lemma doubt_blocks_witness :
  phase (c_db restarted) www_id = InDoubt call_id
  ∧ phase (c_db (run_all "acme" same_text [OpAcceptDeployment demo_request; OpMarkRestored] restarted)) www_id = InDoubt call_id.
Proof.
  assert (phase (c_db restarted) www_id = InDoubt call_id) as Hp by (by vm_compute). split; [exact Hp|].
  apply (doubt_blocks "acme" same_text [OpAcceptDeployment demo_request; OpMarkRestored] restarted www_id call_id).
  - reflexivity.
  - exact (proj1 restarted_ok).
  - exact (proj2 restarted_ok).
  - exact Hp.
  - repeat split.
Defined.

Lemma restart_leaves_nothing_running_witness :
  ∃ rep c', recover_interrupted "acme" (mk_Conn (c_db called) 60) = Ok (rep, c')
    ∧ ∀ r, r ∈ db_deployments (c_db c') → is_running r = false.
Proof.
  assert (is_ok (recover_interrupted "acme" (mk_Conn (c_db called) 60)) = true) as Hk by (by vm_compute).
  apply is_ok_spec in Hk as [[rep c'] E]. exists rep, c'. split; [exact E|].
  exact (proj1 (proj2 (restart_leaves_nothing_running "acme" (c_db called) 60 rep c' (proj2 called_ok) E))).
Defined.

(** The operation that the restart interrupted. *)
Definition www_operation : OperationRow :=
  option_default (mk_OperationRow ε ε ε ε ε ε ε ε 0 Null None 0 None None None None)
    (head (db_operations (c_db restarted))).

Lemma www_operation_in : www_operation ∈ db_operations (c_db restarted).
Proof.
  assert (db_operations (c_db restarted) = [www_operation]) as -> by (by vm_compute). left.
Qed.

Lemma none_running d app env : forallb (λ r, negb (is_running r)) (db_deployments d) = true → env_idle d app env.
Proof.
  intros Ha r Hr _. rewrite forallb_forall in Ha. apply negb_true_iff, Ha. by apply list_elem_of_In.
Qed.

Lemma restarted_idle : env_idle (c_db restarted) "shop" "development".
Proof. apply none_running. by vm_compute. Qed.

Lemma restarted_fresh n : fresh_ids (H := later_system) (c_db restarted) n.
Proof. apply fresh_later. by vm_compute. Qed.

Lemma administrator_ends_doubt_witness :
  ∃ c', resolve_operation (H := later_system) (op_id www_operation) (Operator "checked by hand") (by_actor "bootstrap")
      (mk_Conn (c_db restarted) 70) = Ok (tt, c')
    ∧ phase (c_db c') (op_guresid www_operation) = Idle.
Proof.
  apply (administrator_ends_doubt (H := later_system) (c_db restarted) 70 www_operation "bootstrap" "checked by hand"
    (by_actor "bootstrap") None).
  - exact (proj2 restarted_ok).
  - exact (proj1 (proj1 restarted_ok)).
  - exact www_operation_in.
  - by vm_compute.
  - by vm_compute.
  - exact restarted_idle.
  - reflexivity.
  - by vm_compute.
  - exact (restarted_fresh 70).
Defined.
