(* ===== verification/PlanScenario.v ===== *)
(** * A run at work

    One schedule of a run, executed: the first task that can do anything does it, the store
    commits, and drivers answer at once. A deployment of two resources on the installation of
    [Scenarios]; the theorems about runs are applied to it. *)

From Stdlib Require Import Ascii.
From stdpp Require Import base sets strings list relations.
From S2P Require Import Prelude Effects Strings OrdMap Ids Float64 Json Model Template Placeholder Catalog Graph Db DbLogic Identity Rbac Apps Permits Deployments Resources IdentityInv IdentityRoles DeployInv Access Operations DeployProofs Lifecycle History Phases ResourceSteps Restart Recovery Deletion PlanInputs PlanJob JobProofs PlanTask PlanRun PlanLogic PlanOrder PlanEnd PlanFrame PlanKept PlanRecords PlanCrash Recover RecoverProofs Scenarios.

Local Open Scope string_scope.
Local Open Scope list_scope.
Local Open Scope nat_scope.

(** ** A schedule *)

Section schedule.
Context `{System} `{Libraries} `{InputsReader} (org : string) (digest : string → string).
Context (dep : Deployment) (limits : Limits) (deadline : Z).
Context (drive : ProvisionJob → Joined (result ProvisionResult ExecFailure)).

Definition committed {A} (m : tx A) (w : World) : result A StoreError * World :=
  match m (w_conn w) with Ok (a, c) => (Ok a, set_conn w c) | Err e => (Err e, w) end.

Lemma committed_answers {A} (m : tx A) w :
  ∃ c, tx_answers m (w_conn w) (committed m w).1 c ∧ (committed m w).2 = set_conn w c.
Proof.
  unfold committed, tx_answers. destruct (m (w_conn w)) as [[a c]|e] eqn:E; [by exists c; auto|].
  exists (w_conn w). split; [auto|by destruct w].
Qed.

Definition reply (w : World) (c : Call) : answer c * World :=
  match c with
  | CNow => (0%Z, w)
  | CJitter delay => (delay, w)
  | CSleep _ => (tt, w)
  | CAcquire => match w_free w with S n => (Granted, set_free w n) | O => (AcquireTimeout, w) end
  | CRelease => (tt, set_free w (S (w_free w)))
  | CBegin start => let (x, w') := committed (begin_operation org start) w in (flatten x, w')
  | CRecordInputs id recovery => committed (record_operation_inputs id recovery) w
  | CCheckpoint id r =>
      let (x, w') := committed (checkpoint_operation id r) w in (x, if is_ok x then settle_called w' id else w')
  | CActiveResource o app env descriptor => committed (active_resource org o app env descriptor) w
  | CPermitCheck q => (None, (committed (use_permit org (permit_use q (option_default ε (pq_deployment q)))) w).2)
  | CProvision j => (drive j, add_called w (pj_operation_id j) (pj_guresid j))
  | CDeprovision j => (Stopped, add_called w (pj_operation_id (xj_job j)) (pj_guresid (xj_job j)))
  | CActiveResources o app env => committed (active_resources org o app env) w
  | CTombstones o app env => committed (tombstones org o app env) w
  | CRecordStatus o app env id descriptor status error =>
      committed (record_resource_status org o app env id descriptor status error) w
  | CFinish o app env id error => committed (finish_deployment org o app env id error) w
  end.

Definition checks_permits (c : Call) : bool := match c with CPermitCheck _ => true | _ => false end.

Lemma reply_answers w c : checks_permits c = false → answers org w c (reply w c).1 (reply w c).2.
Proof.
  intros Hc. destruct c; try done; cbn [reply answers]; try apply committed_answers.
  - cbn. destruct (w_free w) eqn:E; [done|]. by exists n.
  - destruct (committed_answers (begin_operation org start) w) as (c & Hx & E).
    destruct (committed _ w) as [x w']. exists x, c. cbn in *. auto.
  - destruct (committed_answers (checkpoint_operation id result) w) as (c & Hx & E).
    destruct (committed _ w) as [x w']. exists c. cbn in *. subst. auto.
Qed.

Definition never (_ : Descriptor) : bool := false.

(** The answer to the first task, or its end. *)
Definition turn (x : World * Stage) : World * Stage :=
  let (w, s) := x in
  match s with
  | Provisioning s =>
      match lp_running s with
      | [] => (w, let o := settle_nodes dep never (lp_outcomes s) in Preparing o (prepare_deletion dep o))
      | (d, held, Done r) :: _ =>
          (drop_permit held w, Provisioning (start_nodes dep limits deadline never (join_node s 0 d r)))
      | (d, held, Ask c k) :: l =>
          if checks_permits c then x
          else let (a, w') := reply w c in
            (w', Provisioning (mk_Loop (lp_outcomes s) (lp_done s) (lp_started s) ((d, permit_after held c a, k a) :: l)))
      end
  | Preparing o (Done (NothingToDelete outcomes listed)) => (w, Reporting outcomes (report dep outcomes listed 0))
  | Preparing o (Ask c k) => if checks_permits c then x else let (a, w') := reply w c in (w', Preparing o (k a))
  | Reporting o (Ask c k) => if checks_permits c then x else let (a, w') := reply w c in (w', Reporting o (k a))
  | _ => x
  end.

Lemma turn_step x : turn x = x ∨ run_step org dep limits deadline x (turn x).
Proof.
  destruct x as [w [s|o p|plan s|o p]]; [..|by left|]; cbn [turn].
  - destruct (lp_running s) as [|[[d held] [r|c k]] l] eqn:E.
    + right. by apply step_provisioned.
    + right. eapply step_join. by rewrite E.
    + destruct (checks_permits c) eqn:Ec; [by left|]. right. pose proof (reply_answers w c Ec) as Ha.
      destruct (reply w c) as [a w']. pose proof (step_node org dep limits deadline w w' s 0 d held c k a) as Hs.
      rewrite E in Hs. by apply Hs.
  - destruct p as [[outcomes listed|plan]|c k]; [right; apply step_nothing|by left|].
    destruct (checks_permits c) eqn:Ec; [by left|]. right. pose proof (reply_answers w c Ec) as Ha.
    destruct (reply w c) as [a w']. by apply step_prepare.
  - destruct p as [[]|c k]; [by left|].
    destruct (checks_permits c) eqn:Ec; [by left|]. right. pose proof (reply_answers w c Ec) as Ha.
    destruct (reply w c) as [a w']. by apply step_report.
Qed.

(** The state after [n] turns. *)
Definition turns (n : nat) (x : World * Stage) : World * Stage := Nat.iter n turn x.

Lemma turns_reachable n x : rtc (any_step org digest dep limits deadline) x (turns n x).
Proof.
  induction n as [|n IH]; [apply rtc_refl|]. change (turns (S n) x) with (turn (turns n x)). etransitivity; [exact IH|].
  destruct (turn_step (turns n x)) as [->|Hs]; [apply rtc_refl|]. apply rtc_once. by apply any_run.
Qed.
End schedule.

(** ** Two resources *)

#[local] Existing Instance example_system.

Definition example_libraries : Libraries := {|
  json_text v := ε; sha256_hex s := s; read_graph v := Err "not a graph";
  read_definition v := Err "not a definition"; read_type v := Err "not a type";
  secret_ref_error v := "not a secret reference"; sql_error_text e := "the database failed"
|}.
#[local] Existing Instance example_libraries.
Definition example_reader : InputsReader := λ v, Err "not inputs".
#[local] Existing Instance example_reader.

Definition bucket : Descriptor := mk_Descriptor "s3" "default" "shared.files".
Definition site : Descriptor := mk_Descriptor "dns" "default" "shared.site".

Definition plain_definition (id ty : string) : ResourceDefinition :=
  mk_ResourceDefinition id id ty "openporch/echo" None (mk_DriverInputs [] [] []) [] [].

Definition two_nodes : ResourceGraph :=
  mk_ResourceGraph
    [(site, mk_Node site "names" "openporch/echo" None [] [bucket]);
     (bucket, mk_Node bucket "files" "openporch/echo" None [] [])]
    [[bucket]; [site]].

Definition two_resources : Deployment :=
  mk_Deployment "acme" "shop" "development" "development" deployment_id "set" two_nodes
    [("files", (1%Z, plain_definition "files" "s3")); ("names", (1%Z, plain_definition "names" "dns"))]
    [] [] [] [] false.

Definition good_driver (j : ProvisionJob) : Joined (result ProvisionResult ExecFailure) :=
  Finished_ (Ok (mk_ProvisionResult [] [] None Null None None [] None)).

Definition first_world : World := mk_World accepted 4 0 [].
Definition first_stage : Stage := Provisioning (first_loop two_resources default_limits 1000%Z never).

Definition at_turn (n : nat) : World * Stage :=
  turns "acme" two_resources default_limits 1000%Z good_driver n (first_world, first_stage).

Lemma at_turn_reachable n :
  rtc (any_step "acme" same_text two_resources default_limits 1000%Z) (first_world, first_stage) (at_turn n).
Proof. apply turns_reachable. Qed.

Lemma two_keyed : keyed two_resources.
Proof. intros d node Hin. by repeat (apply elem_of_cons in Hin as [[= -> ->]|Hin]); [..|apply not_elem_of_nil in Hin]. Qed.

Lemma two_valid : all_valid two_resources.
Proof.
  intros d node Hin. apply (proj1 (descriptor_roundtrip (Descriptor_show d) d)).
  by repeat (apply elem_of_cons in Hin as [[= -> ->]|Hin]); [vm_compute..|apply not_elem_of_nil in Hin].
Qed.

Definition stage_name (s : Stage) : string :=
  match s with
  | Provisioning _ => "provisioning" | Preparing _ _ => "preparing" | Deleting _ _ => "deleting"
  | Reporting _ (Done _) => "reported" | Reporting _ _ => "reporting"
  end.


Definition loop_of (s : Stage) : Loop := match s with Provisioning l => l | _ => mk_Loop [] [] [] [] end.

Lemma loop_of_spec s : stage_name s = "provisioning" → s = Provisioning (loop_of s).
Proof. by destruct s as [| | |? []]. Qed.

(** The second resource is in the hands of its driver. *)
Lemma executor_calls_bounded_witness :
  calling (at_turn 14).2 = 1 ∧ calling (at_turn 14).2 ≤ holding (at_turn 14).2.
Proof.
  split; [by vm_compute|].
  refine (proj2 (executor_calls_bounded "acme" same_text two_resources default_limits 1000%Z first_world (at_turn 14).1
    first_stage (at_turn 14).2 (start_running _ _ _ _) _ eq_refl)).
  rewrite <- surjective_pairing. apply at_turn_reachable.
Defined.

Lemma run_respects_dependencies_witness :
  length (lp_running (loop_of (at_turn 14).2)) = 1
  ∧ ∀ d held p, (d, held, p) ∈ lp_running (loop_of (at_turn 14).2) →
      may_start two_resources (lp_outcomes (loop_of (at_turn 14).2)) d.
Proof.
  split; [by vm_compute|].
  pose proof (run_respects_dependencies "acme" same_text two_resources default_limits 1000%Z first_world (at_turn 14).1
    first_stage (at_turn 14).2 two_keyed (start_running _ _ _ _)) as Ht.
  rewrite <- surjective_pairing in Ht. specialize (Ht (at_turn_reachable 14)).
  rewrite (loop_of_spec (at_turn 14).2) in Ht by (by vm_compute). exact Ht.
Defined.

Definition succeeds (s : Stage) : bool :=
  match s with Reporting _ (Ask (CFinish _ _ _ _ None) _) => true | _ => false end.

Lemma succeeds_spec s :
  succeeds s = true → ∃ o a b c id k, s = Reporting o (Ask (CFinish a b c id None) k).
Proof.
  destruct s as [| | |o p]; try done. destruct p as [|c k]; [done|]. destruct c as [| | | | | | | | | | | | | | |a b c id [e|]];
    try done. intros _. by exists o, a, b, c, id, k.
Qed.

Lemma success_means_provisioned_witness :
  ∃ o p, (at_turn 21).2 = Reporting o p
    ∧ ∀ node, node ∈ bt_values (g_nodes (dep_graph two_resources)) → bt_get (n_descriptor node) o = Some OProvisioned.
Proof.
  assert (succeeds (at_turn 21).2 = true) as Hs by (by vm_compute).
  apply succeeds_spec in Hs as (o & a & b & c & id & k & Hs). exists o, (Ask (CFinish a b c id None) k). split; [exact Hs|].
  refine (proj1 (proj2 (success_means_provisioned "acme" same_text two_resources default_limits 1000%Z first_world
    (at_turn 21).1 first_stage o a b c id k two_keyed (start_running _ _ _ _) _))).
  rewrite <- Hs, <- surjective_pairing. apply at_turn_reachable.
Defined.

Definition first_called (x : World * Stage) : string * string := option_default (ε, ε) (head (maybe_called x)).

(** The server stops while the driver of the second resource works. *)
Lemma crash_loses_no_call_witness :
  let x := at_turn 14 in
  ∃ report c', recover_interrupted "acme" (w_conn x.1) = Ok (report, c')
    ∧ phase (c_db c') (first_called x).2 = InDoubt (first_called x).1.
Proof.
  intros x. assert (is_ok (recover_interrupted "acme" (w_conn x.1)) = true) as Hk by (by vm_compute).
  destruct (recover_interrupted "acme" (w_conn x.1)) as [[report c']|e] eqn:E; [|discriminate Hk].
  exists report, c'. split; [reflexivity|].
  refine (crash_loses_no_call "acme" same_text two_resources default_limits 1000%Z first_world x.1 first_stage x.2
    (first_called x).1 (first_called x).2 report c' two_keyed two_valid (proj1 accepted_ok) (proj2 accepted_all_ok) eq_refl
    (start_running _ _ _ _) _ _ _ E).
  - rewrite <- surjective_pairing. apply at_turn_reachable.
  - intros o Ho. assert (stage_name x.2 = "provisioning") as Hn by (by vm_compute). rewrite Ho in Hn. discriminate Hn.
  - assert (maybe_called (x.1, x.2) = [((first_called x).1, (first_called x).2)]) as -> by (by vm_compute). left.
Defined.

(** ** Deletions *)

(** The resources that the run left, torn down. *)
Definition left_active : list ResourceRow := db_active_resources (c_db (w_conn (at_turn 22).1)).

Lemma deletion_candidates_spec_witness :
  length (deletion_candidates (mk_ResourceGraph [] []) true left_active).1 = 2
  ∧ ∀ n, n ∈ (deletion_candidates (mk_ResourceGraph [] []) true left_active).2 ↔ goes (mk_ResourceGraph [] []) true left_active n.
Proof.
  split; [by vm_compute|]. assert (NoDup (rs_descriptor <$> left_active)) as Hn.
  { apply (bool_decide_unpack (NoDup (rs_descriptor <$> left_active))). by vm_compute. }
  pose proof (deletion_candidates_spec (mk_ResourceGraph [] []) true left_active Hn) as Hs.
  destruct (deletion_candidates (mk_ResourceGraph [] []) true left_active) as [candidates mandatory]. exact (proj1 Hs).
Defined.

(** ** A secret output *)

Definition bucket_key : SecretRef := mk_SecretRef "local" "bucket-key" None.
Definition bucket_done : Finished := [(bucket, mk_ResourceOutputs [] [("key", bucket_key)] (Some "id33") None)].
Definition site_node : Node := mk_Node site "names" "openporch/echo" None [] [bucket].
Definition secret_definition : ResourceDefinition :=
  mk_ResourceDefinition "names" "names" "dns" "openporch/echo" None
    (mk_DriverInputs [] [("token", Str "${resources['s3.default#shared.files'].outputs.key}")] []) [] [].
Definition site_started : OperationStarted := mk_OperationStarted "id40" "id39" 1.

Lemma job_sources_witness :
  ∃ j, job two_resources 1000%Z (with_guresid "id39" (scope_for two_resources site_node bucket_done)) site_node 1%Z
         secret_definition "print" site_started = Ok j
    ∧ ji_sources (pj_inputs j) = [(bucket_key, FromOutput "id33")]
    ∧ ∀ sr, sr ∈ resolved_refs (ji_secrets (pj_inputs j)) ++ resolved_refs (ji_resource (pj_inputs j)) →
        ∃ source, (sr, source) ∈ ji_sources (pj_inputs j).
Proof.
  set (r := job _ _ _ _ _ _ _ _).
  assert (match r with Ok j => bool_decide (ji_sources (pj_inputs j) = [(bucket_key, FromOutput "id33")]) | Err _ => false end = true)
    as Hr by (by vm_compute).
  destruct r as [j|e] eqn:E; [|discriminate Hr]. exists j. apply bool_decide_eq_true in Hr. split; [reflexivity|]. split; [exact Hr|].
  refine (proj1 (proj2 (job_sources two_resources bucket_done 1000%Z 1%Z "id39" "print" site_node secret_definition
    site_started j _ E))).
  intros d o Hin. apply list_elem_of_singleton in Hin. injection Hin as _ ->. by eexists.
Defined.

(** ** Recovery *)

Section recovery.
Context `{System} `{Libraries} `{InputsReader} (org : string) (digest : string → string).
Context (see : ProvisionJob → bool → option Observation).

Definition rcommitted {A} (m : tx A) (c : Conn) : result A StoreError * Conn :=
  match m c with Ok (a, c) => (Ok a, c) | Err e => (Err e, c) end.

Lemma rcommitted_answers {A} (m : tx A) c : tx_answers m c (rcommitted m c).1 (rcommitted m c).2.
Proof. unfold rcommitted, tx_answers. left. by destruct (m c) as [[a c']|e]. Qed.

Definition rreply (c : Conn) (q : RCall) : ranswer q * Conn :=
  match q with
  | RUnknown o app env descriptor => rcommitted (unknown_operation org o app env descriptor) c
  | REnv o app e => rcommitted (env org o app e) c
  | RSnapshot o app env id => rcommitted (deployment_snapshot org o app env id) c
  | RNow => (0%Z, c)
  | RSlot => (true, c)
  | RObserve j deleting => (see j deleting, c)
  | RKeep id w cookie => rcommitted (keep_recovery_cookie id w cookie) c
  | RResolve id resolution audit => rcommitted (resolve_operation id resolution audit) c
  end.

Lemma rreply_answers c q : ranswers org c q (rreply c q).1 (rreply c q).2.
Proof. destruct q; cbn [rreply ranswers]; try apply rcommitted_answers; done. Qed.

Fixpoint rrun {A} (p : rprog A) (c : Conn) : list Event * A * Conn :=
  match p with
  | Done a => ([], a, c)
  | Ask q k =>
      let (x, c') := rreply c q in
      let '(es, r, c'') := rrun (k x) c' in (events c c' q x ++ es, r, c'')
  end.

Lemma rrun_recovers {A} (p : rprog A) c es r c' : rrun p c = (es, r, c') → recovers org digest p c es r c'.
Proof.
  revert c es. induction p as [a|q k IH]; intros c es; simpl.
  - intros [= <- <- <-]. split_and!; [done..|]. by exists [].
  - pose proof (rreply_answers c q) as Ha. destruct (rreply c q) as [x c1]. simpl in Ha.
    destruct (rrun (k x) c1) as [[es' r'] c2] eqn:E. intros [= <- <- <-]. exists c, x, c1, es'. split_and!; [|done..|by apply IH].
    by exists [].
Qed.
End recovery.

(** An operation whose resource has a well-formed identity. *)
Definition hex_id : string := "0123456789abcdef0123456789abcdef".
Definition hex_system : System := {| clock n := Z.of_nat n; entropy n _ := hex_id; scalar_pins v := Ok v |}.
Definition hex_begun : Conn := run_all (H := hex_system) "acme" same_text [OpBeginOperation www_start] accepted.
Definition hex_called : Conn := run_demo [OpRecordInputs hex_id (Obj [("inputs", Obj [])])] hex_begun.
Definition hex_restarted : Conn := run_demo [OpRecover] hex_called.

Lemma hex_restarted_ok : all_ok hex_restarted.
Proof.
  apply run_demo_ok, run_demo_ok; [done..|]. destruct accepted_all_ok as [Hs Hr]. split.
  - exact (run_all_store (H := hex_system) "acme" same_text _ _ Hs).
  - exact (run_all_res_ok (H := hex_system) "acme" same_text [OpBeginOperation www_start] accepted eq_refl (proj1 Hs) Hr).
Qed.

Definition seen_ready (j : ProvisionJob) (deleting : bool) : option Observation :=
  Some (mk_Observation (Ok (ObReady (mk_ProvisionResult [] [] None Null None None [] None) true)) None).
Definition no_inputs_reader : InputsReader := λ _, Ok no_inputs.

(** The driver sees the resource that the server was creating when it stopped. *)
Lemma recovery_settles_what_it_saw_witness :
  ∃ es c', recovers "acme" same_text
      (recover (H0 := no_inputs_reader) "acme" "shop" "development" (Descriptor_show www) (by_actor "bootstrap"))
      hex_restarted es (Ok RcProvisioned) c'
    ∧ ∃ op g res d d', settled_in es = [(un_operation_id op, res, d, d')]
        ∧ moves g (InDoubt (un_operation_id op)) Idle d d'.
Proof.
  pose (run := rrun "acme" seen_ready (recover (H0 := no_inputs_reader) "acme" "shop" "development" (Descriptor_show www)
    (by_actor "bootstrap")) hex_restarted).
  assert (match run.1.2 with Ok RcProvisioned => true | _ => false end = true) as Hr by (by vm_compute).
  destruct run as [[es r] c'] eqn:E. destruct r as [[]|]; try discriminate Hr.
  apply (rrun_recovers "acme" same_text) in E. exists es, c'. split; [exact E|].
  destruct (recovery_settles_what_it_saw "acme" same_text _ _ _ _ _ _ _ _ _ (proj2 hex_restarted_ok)
    (proj1 (proj1 hex_restarted_ok)) E) as (_ & op & c0 & _ & _ & Hs). exists op. exact Hs.
Defined.

(** The inputs of a call, recorded and read back. *)
Definition hex_started : OperationStarted := mk_OperationStarted "id40" hex_id 1.
Definition site_scope : MapScope := with_guresid hex_id (scope_for two_resources site_node bucket_done).
Definition site_job : ProvisionJob :=
  match job two_resources 1000%Z site_scope site_node 1%Z secret_definition "print" hex_started with
  | Ok j => j
  | Err _ => mk_ProvisionJob ε 0 site ε (context_of_deployment two_resources) ε 0 ε None no_inputs ε None None None false None 0
  end.
Definition site_operation : UnknownOperation :=
  mk_UnknownOperation "id40" deployment_id Put 1 "print"
    (inputs_recovery 1 secret_definition bucket_done (with_state site_job None None true)) None
    (new_resource (put_start two_resources site_node 1 secret_definition "print") (Descriptor_show site) hex_id 0).
Definition site_reader : InputsReader := λ _, Ok (pj_inputs site_job).
Definition site_env : EnvRecord := mk_EnvRecord "shop" "development" ε "development" 0 None None None "active".
Definition site_reply (q : RCall) : ranswer q :=
  match q with
  | RUnknown _ _ _ _ => Ok None
  | REnv _ _ _ => Ok (Some site_env)
  | RSnapshot _ _ _ _ => Ok None
  | RNow => 0%Z
  | RSlot => false
  | RObserve _ _ => None
  | RKeep _ _ _ | RResolve _ _ _ => Ok tt
  end.

Lemma recovery_rebuilds_job_witness :
  ∃ j', answered site_reply (recover_job (H0 := site_reader) "acme" "shop" "development" site_operation) = Ok j'
    ∧ same_call j' (with_state site_job None None true).
Proof.
  apply (recovery_rebuilds_job (H0 := site_reader) two_resources 1000%Z site_scope site_node 1%Z secret_definition "print"
    hex_started bucket_done site_job None None true site_operation site_reply site_env None).
  - by vm_compute.
  - repeat split; by vm_compute.
  - unfold records. split_and!; by vm_compute.
  - reflexivity.
  - reflexivity.
  - reflexivity.
  - reflexivity.
  - intros ty Hty. discriminate Hty.
Defined.
