(* ===== verification/CheckScenario.v ===== *)
(** * Previews and checks at work

    The environment that a run left is previewed again, permits are issued for what the preview
    shows, and the deployment is accepted with them. A workload with an artifact and an image is
    replayed with a version of its driver's code, while a resource that is scheduled for it is
    deleted. The theorems about previews and checks are applied. *)

From Stdlib Require Import Ascii.
From stdpp Require Import base sets strings list sorting.
From S2P Require Import Prelude Strings OrdMap Ids Json Model Sets Graph Db DbLogic Identity Apps Permits Deployments Resources Operations DeployProofs Lifecycle Effects Artifacts Deletion PlanInputs PlanJob PlanTask PlanRun PlanOrder PlanChecks CheckProofs Preview PreviewProofs Scenarios PlanScenario.

Local Open Scope string_scope.
Local Open Scope Z_scope.
Local Open Scope list_scope.

#[local] Existing Instance example_system.
#[local] Existing Instance example_libraries.

(** ** A preview *)

(** The run has ended, and both resources are there; neither driver can preview. *)
Definition no_facts (_ : string) : option DriverFacts := None.
Definition again : list Entry :=
  match preview two_resources left_active no_facts [] with Ok entries => entries | Err _ => [] end.

Lemma again_preview : preview two_resources left_active no_facts [] = Ok again.
Proof. by vm_compute. Qed.

Lemma two_graph_ok : graph_ok two_nodes.
Proof.
  constructor.
  - by repeat constructor.
  - intros d node Hin. by split; [apply two_keyed|apply (two_valid d node)].
Qed.

Lemma preview_spec_witness :
  (ent_descriptor <$> again) = ["dns.default#shared.site"; "s3.default#shared.files"]
  ∧ ∀ r, current left_active site_node = Some r → was_provisioned r = true →
      ∃ e, e ∈ again ∧ ent_descriptor e = Descriptor_show site ∧ ent_action e = ChUnknown ∧ ent_permit_required e = true.
Proof.
  split; [by vm_compute|]. intros r Hr Hw.
  destruct (preview_spec two_resources left_active no_facts [] again two_graph_ok again_preview) as (_ & _ & _ & Hs).
  refine (proj2 (Hs site_node r _ Hr Hw eq_refl) eq_refl). left.
Defined.

Lemma permits_match_preview_witness :
  length again = 2%nat ∧ ∀ e, e ∈ again → ent_permit_required e = true →
    permits_for "plan" (plan_body again) [ask_for e] = Ok [permit_of e].
Proof.
  split; [by vm_compute|].
  exact (proj2 (permits_match_preview two_resources left_active no_facts [] "plan" again two_graph_ok again_preview)).
Defined.

(** ** Deleting a resource that is scheduled for it *)

Definition www_provisioned : Provisioned :=
  mk_Provisioned (Obj []) [] None Null (Obj []) [] (Obj []) None None None [] None.
Definition www_there : Conn :=
  run_demo [OpCheckpoint call_id (WasProvisioned www_provisioned);
    OpFinishDeployment "acme" "shop" "development" deployment_id None;
    OpScheduleDeletion "acme" "shop" "development" (Descriptor_show www) (by_actor "mia")] begun.
Definition www_active : list ResourceRow := db_active_resources (c_db www_there).

Definition without_www : Deployment :=
  mk_Deployment "acme" "shop" "development" "development" "preview" ε (mk_ResourceGraph [] []) [] [] [] [] [] false.
Definition deletions : list Entry :=
  match preview without_www www_active no_facts [] with Ok entries => entries | Err _ => [] end.

Definition deletion_plan : NewPlan :=
  mk_NewPlan "acme" "shop" "development" "deploy" 2 (Some set_of_demo) (plan_body deletions) (by_actor "mia").
Definition deletion_planned : Conn := run_demo [OpPutPlan deletion_plan] www_there.
Definition deletion_plan_id : string := option_default ε (pl_id <$> last (db_plans (c_db deletion_planned))).
Definition deletion_issue : list NewPermit :=
  match permits_for deletion_plan_id (plan_body deletions) (ask_for <$> deletions) with Ok l => l | Err _ => [] end.
Definition deletion_permitted : Conn :=
  run_demo [OpIssuePermits "acme" "shop" "development" deletion_plan_id deletion_issue (by_actor "mia")] deletion_planned.
Definition deletion_permits : list string := pm_id <$> filter (λ p, pm_action p = "delete") (db_permits (c_db deletion_permitted)).

Definition deletion_request : DeploymentRequest :=
  mk_DeploymentRequest "acme" "shop" "development" "mia" 2 None "print" Deploy (Some set_of_demo) None None ε Null
    (by_actor "mia") (binding deletions deletion_permits).

Definition first_deletion : Entry :=
  match deletions with e :: _ => e | [] => detach (new_resource www_start ε ε 0) end.

Lemma conn_eta (c : Conn) : c = mk_Conn (c_db c) (c_calls c).
Proof. by destruct c. Qed.

Lemma empty_graph_ok : graph_ok (mk_ResourceGraph [] []).
Proof. constructor; simpl; [apply bt_wf_nil|]. by intros d node ?%not_elem_of_nil. Qed.

Lemma accepted_changes_are_permitted_witness :
  ∃ rec c', accept_deployment "acme" deletion_request deletion_permitted = Ok (Created rec, c')
    ∧ ∃ p, p ∈ db_permits (c_db c') ∧ pm_bound_to p = Some (dl_id rec) ∧ pm_descriptor p = Descriptor_show www.
Proof.
  assert (is_created (accept_deployment "acme" deletion_request deletion_permitted) = true) as Hc by (by vm_compute).
  apply is_created_spec in Hc as (rec & c' & Hx). exists rec, c'. split; [exact Hx|].
  rewrite (conn_eta deletion_permitted) in Hx. assert (store_ok (c_db deletion_permitted)) as Hs.
  { apply run_all_store, run_all_store, run_all_store. exact (proj1 begun_ok). }
  assert (preview without_www www_active no_facts [] = Ok deletions) as Hp by (by vm_compute).
  destruct (proj1 (accepted_changes_are_permitted without_www www_active no_facts [] "acme" deletion_request deletion_permits deletions
    (c_db deletion_permitted) (c_calls deletion_permitted) rec c' empty_graph_ok Hs Hp eq_refl Hx)
    first_deletion) as (p & Hin & _ & Hb & Hd & _).
  - assert (deletions = [first_deletion]) as -> by (by vm_compute). left.
  - by vm_compute.
  - exists p. split; [exact Hin|]. split; [exact Hb|]. rewrite Hd. by vm_compute.
Defined.

(** ** Checks *)

#[local] Existing Instance no_inputs_reader.

Definition web : Descriptor := mk_Descriptor "workload" "default" "modules.web".
Definition web_digest : string := "docker.io/library/web@sha256:0123456789abcdef0123456789abcdef0123456789abcdef0123456789abcdef".
Definition web_node (artifact : string) : Node :=
  mk_Node web "web" "openporch/echo"
    (Some (Obj [("spec", Obj [("containers", Obj [("main", Obj [("image", Str web_digest)])]);
      ("function", Obj [("package", Obj [("artifact", Str artifact)])])])])) [] [].
Definition web_definition : ResourceDefinition :=
  mk_ResourceDefinition "web" "web" "workload" "openporch/echo" (Some "cloud") (mk_DriverInputs [] [] []) [] [].
Definition web_deployment (artifact : string) : Deployment :=
  mk_Deployment "acme" "shop" "development" "development" "replay" ε
    (mk_ResourceGraph [(web, web_node artifact)] [[web]]) [("web", (1, web_definition))] [] []
    [(Descriptor_show web, Str "v1")] [] false.

Definition hex_there : Conn :=
  run_demo [OpCheckpoint hex_id (WasProvisioned www_provisioned);
    OpFinishDeployment "acme" "shop" "development" deployment_id None;
    OpScheduleDeletion "acme" "shop" "development" (Descriptor_show www) (by_actor "mia")] hex_begun.

(** Everything is available. *)
Definition all_there (q : KCall) : kanswer q :=
  match q with
  | KNow => 0
  | KJitter delay => delay
  | KSleep _ => tt
  | KCheckImages _ _ | KCheckArtifacts _ | KCheckPin _ | KCheckRetained _ => Some (Ok tt)
  | KPinArtifact pin => Some (Ok (apn_artifact pin +:+ "?versionId=v1"))
  | KPinRegistryImage _ image => Some (Ok image)
  | KPinImage pin => Some (Ok (ipn_image pin))
  | KActiveResource _ _ _ _ => Ok None
  | KActiveResources _ _ _ => Ok (db_active_resources (c_db hex_there))
  | KTombstones _ _ _ => Ok []
  end.

Definition pinned_web : string := "s3://code/web.zip?versionId=v1".
Definition pinning : kprog (result Missing PinError) := pin_artifacts (web_deployment "s3://code/web.zip") default_limits 1000.


Lemma unlisted_deletions_unchecked_witness :
  gives (run_checks without_www default_limits 1000)
    [existT (KActiveResources "acme" "shop" "development") (Err (Database ColumnDecode))] (MissingDeletions, []).
Proof. exact (unlisted_deletions_unchecked without_www default_limits 1000 (Database ColumnDecode) eq_refl). Defined.

Definition version_answered (e : {c & kanswer c}) : bool :=
  match e with existT c x =>
    match c as c return kanswer c → bool with
    | KPinArtifact _ => λ x, match x with Some (Ok v) => is_some (S3Version_parse v) | _ => true end
    | _ => λ _, true
    end x
  end.

Lemma pinned_artifacts_are_versions_witness :
  ∃ tr pinned, gives pinning tr (Ok pinned)
    ∧ option_default "s3://code/web.zip" (bt_get web pinned) = pinned_web
    ∧ is_some (S3Version_parse (option_default "s3://code/web.zip" (bt_get web pinned))) = true.
Proof.
  assert (answered all_there pinning = Ok [(web, pinned_web)]) as Ha by (by vm_compute).
  pose proof (gives_transcript all_there pinning) as Hg. rewrite Ha in Hg.
  exists (transcript all_there pinning), [(web, pinned_web)]. split; [exact Hg|]. split; [by vm_compute|].
  refine (proj1 (pinned_artifacts_are_versions (web_deployment "s3://code/web.zip") default_limits 1000
    (transcript all_there pinning) [(web, pinned_web)] _ _ Hg _ (web_node "s3://code/web.zip") "s3://code/web.zip" _ _)).
  - by repeat constructor.
  - intros d node Hin. apply list_elem_of_singleton in Hin. by inversion Hin.
  - intros pin version Hin.
    assert (forallb version_answered (transcript all_there pinning) = true) as Hf by (by vm_compute).
    rewrite forallb_forall in Hf. apply list_elem_of_In in Hin. exact (Hf _ Hin).
  - by left.
  - by vm_compute.
Defined.
