(* ===== verification/ExecScenario.v ===== *)
(** * The executor at work

    An existing resource with a secret of its definition, an account and a driver with a token is
    replaced with a permit, and its driver fails with a text that shows the secret; the theorems
    about drivers' runs and the executor are applied. *)

From Stdlib Require Import Ascii.
From stdpp Require Import base sets strings list.
From S2P Require Import Prelude Effects Strings OrdMap Ids Float64 Json Model Criteria Placeholder Catalog Redact Artifacts Db Identity Rbac Apps Deletion PlanInputs CatalogStore CatalogProofs PlanTask PlanChecks Recover DriverRun DriverRunProofs Executor ExecLogic ExecutorProofs.

Local Open Scope string_scope.
Local Open Scope Z_scope.
Local Open Scope list_scope.

(** A JSON text of a string is quoted. *)
Definition quoting_libraries : Libraries := {|
  json_text v := match v with Str s => str1 dquote +:+ s +:+ str1 dquote | _ => "{}" end;
  sha256_hex s := s; read_graph v := Err "not a graph";
  read_definition v := Err "not a definition"; read_type v := Err "not a type";
  secret_ref_error v := "not a secret reference"; sql_error_text e := "the database failed"
|}.
#[local] Existing Instance quoting_libraries.
Definition plain_cookies : CookieReader := λ s, Some (mk_Cookie 1 s).
#[local] Existing Instance plain_cookies.

Lemma quoted_form v : v ≠ ε → json_form json_string v ≠ ε.
Proof.
  intros Hv. change (json_form json_string v) with (option_default ε (strip_suffix (str1 dquote) (v +:+ str1 dquote))).
  by rewrite (proj2 (strip_suffix_Some (str1 dquote) _ v)).
Qed.

(** ** A job *)

Definition queue : Descriptor := mk_Descriptor "queue" "default" "shared.jobs".
Definition secret_at (name : string) : SecretRef := mk_SecretRef "primary" name None.
Definition queue_definition : ResourceDefinition :=
  mk_ResourceDefinition "queues" "queues" "queue" "acme/queue" (Some "cloud") (mk_DriverInputs [] [] []) []
    [mk_Criterion None None None None None None].
Definition queue_job : ProvisionJob :=
  mk_ProvisionJob "op" 1 queue "0123456789abcdef0123" (mk_JobContext "acme" "shop" "development" "development" "deployment" ["shared.jobs"])
    "queues" 1 "acme/queue" (Some "cloud")
    (mk_JobInputs (Obj []) (RObject []) (RObject [("password", RSecret [SPSecret (secret_at "password")])]) (RObject []) [])
    "fingerprint" None None None true None (secs 3600).

Definition external_driver : DriverRecord :=
  mk_DriverRecord "acme/queue" "https://queue.example" None (Some (secret_at "token")) "1" 1 None
    (mk_DriverCapabilities (mk_DriverTargets true false false) true true true true).
Definition cloud_account : CloudAccount := mk_CloudAccount "cloud" "cloud" Aws [] [("key", secret_at "key")].

Definition replacement : list (Action * string) := [(AReplace, "queue")].

(** The driver plans a replacement, takes it up, and then fails with a text that shows the password. *)
Definition driver_reply (c : DCall) : danswer c :=
  match c with
  | DNow => 0
  | DSleepUntil _ => tt
  | DPut _ => Some (Ok (PutInProgress (secs 5) None))
  | DGet _ => Some (Ok (DoFailed (DInvalid None "hunter2 is too short")))
  | DDelete _ => Some (Ok DeDeleted)
  | DCancel _ => Some (Ok (DoAbsent None))
  | DPlan _ _ => Some (Ok (PlanActions replacement "plan"))
  | DCheckPin _ | DCheckRetained _ => Some (Ok tt)
  end.

Definition reply (c : XCall) : xanswer c :=
  match c with
  | XNow | XGeneration => 0
  | XDriverRecord _ _ => Ok (Some external_driver)
  | XDefinition _ _ => Ok (Some queue_definition)
  | XAccount _ _ => Ok (Some cloud_account)
  | XAuthorize _ _ _ _ _ => Ok tt
  | XRead r => Ok (if String.eqb (sr_reference r) "password" then "hunter2" else "s3cr3t")
  | XWrite name _ => Ok (secret_at name)
  | XSeal _ plain => mk_Sealed "key" "nonce" plain
  | XOpen _ sealed => Ok (Some (sl_ciphertext sealed))
  | XResolve _ _ _ => Ok (mk_AwsCredentials "AKIA" "secretkey" None None None)
  | XIdentity _ => Ok "123456789012"
  | XPermit _ => Some (Ok tt)
  | XClient => true
  | XDefaultClient => Ok tt
  | XOpenHttp _ _ _ => Ok tt
  | XDrive _ c => driver_reply c
  | XLogFull => false
  | XLog _ _ => tt
  | XObjectExists _ _ | XImageExists _ _ => Ok true
  | XLatestVersion _ _ => Ok LMissing
  | XImageDigest _ _ => Ok None
  | XLookup _ => Ok LkMissing
  end.

Definition queue_driver : DriverInfo := registered_driver_info external_driver.
Definition provisioning : xprog (result ProvisionResult ExecFailure) := provision (λ _, None) "primary" queue_job.
Definition queue_trace : history := transcript reply provisioning.

Lemma queue_given : call_gives (λ _, None) "primary" queue_job JProvision queue_trace ["[REDACTED] is too short"].
Proof.
  exists (Err (Permanent "[REDACTED] is too short")). split; [|done].
  assert (answered reply provisioning = Err (Permanent "[REDACTED] is too short")) as <- by (by vm_compute).
  apply gives_transcript.
Qed.

(** The request that the driver is called with. *)
Definition queue_request : DriverRequest :=
  mk_DriverRequest "0123456789abcdef0123" "op" "fingerprint" "queue" [] [] [] [] [("password", Str "hunter2")]
    (Some (credential_inputs (mk_AwsCredentials "AKIA" "secretkey" None None None)))
    (driver_context queue_job) None (Some "plan") None.
Definition queue_handle : Handle := External "acme/queue" "https://queue.example" (Some "s3cr3t").

Lemma driver_changes_are_permitted_witness :
  queue_trace = take 30 queue_trace
    ++ existT (XDrive queue_handle (DPut queue_request)) (Some (Ok (PutInProgress (secs 5) None))) :: drop 31 queue_trace
  ∧ put_permitted queue_job (take 30 queue_trace) queue_request
  ∧ permitted queue_job (take 30 queue_trace) ActReplace (Some ("plan", replacement)).
Proof.
  assert (queue_trace = take 30 queue_trace
    ++ existT (XDrive queue_handle (DPut queue_request)) (Some (Ok (PutInProgress (secs 5) None))) :: drop 31 queue_trace)
    as Htr by (by vm_compute).
  destruct (driver_changes_are_permitted (λ _, None) "primary" queue_job JProvision queue_trace (take 30 queue_trace)
    (drop 31 queue_trace) queue_handle (DPut queue_request) _ _ quoted_form queue_given Htr) as [_ Hput].
  split; [exact Htr|]. split; [exact Hput|].
  refine (proj1 (proj1 Hput replacement "plan" ActReplace _ _)); [|by eapply needs_replace; left].
  assert (plans_of (take 30 queue_trace) = [PlanActions replacement "plan"]) as -> by (by vm_compute). by left.
Defined.

Lemma no_secret_leaves_witness :
  "hunter2" ∈ secrets_of queue_trace ∧ ¬ occurs "hunter2" "[REDACTED] is too short".
Proof.
  assert ("hunter2" ∈ secrets_of queue_trace) as Hin.
  { assert (secrets_of queue_trace = ["s3cr3t"; "hunter2"; "secretkey"; "secretkey"]) as -> by (by vm_compute). by right; left. }
  split; [exact Hin|].
  refine (proj1 (proj2 (no_secret_leaves (λ _, None) "primary" queue_job JProvision queue_trace _ quoted_form queue_given)
    "[REDACTED] is too short" _ "hunter2" Hin _)); [by left|done].
Defined.

(** ** A run *)

(** The driver takes the change up, and it has failed when it is asked six seconds later. *)
Definition queue_run : list {c & danswer c} :=
  [existT DNow 0; existT DNow 0; existT (DPut queue_request) (Some (Ok (PutInProgress (secs 5) None)));
   existT DNow 0; existT (DSleepUntil (secs 5)) tt; existT DNow (secs 6);
   existT (DGet queue_request) (Some (Ok (DoFailed (DInvalid None "too short"))))].

Lemma driver_runs_settle_witness :
  gives (converge queue_driver queue_request (secs 900)) queue_run
    (Some (mk_Settled (Err (DInvalid None "too short")) None))
  ∧ (∀ r, gives (converge queue_driver queue_request (secs 900)) queue_run r → ∃ s, r = Some s).
Proof.
  split.
  - unfold queue_run. cbn. repeat (eexists _, _; split; [reflexivity|cbn]). done.
  - exact (proj1 (driver_runs_settle queue_driver queue_request (secs 900) 0 queue_run ltac:(done) ltac:(by vm_compute))).
Defined.

(** ** A catalog *)

Section catalog.
#[local] Existing Instance example_system.

Definition admin : AuditIntent := audit_accepted "acme" "bootstrap" "POST" "/" "test".

Definition installed : Conn :=
  match init_installation "acme" None (mk_Conn empty_db 0) with Ok (_, c) => c | Err _ => mk_Conn empty_db 0 end.

(** An external store that reads through the account [main], and grants of the job's secrets in it;
    then a change of the account to read its key from that store, and a deletion of the store. *)
Definition catalog_requests : list AnyOp := [
  StoreMethod (Operations.OpBootstrap "acme" "h0" 3600000 admin);
  StoreMethod (Operations.OpCreateApp "acme" "shop" "Shop" "bootstrap" admin);
  CatalogMethod (CatCreateAccount "acme" (mk_CloudAccount "main" "Main" Aws [] []) admin);
  CatalogMethod (CatCreateStore "acme" (mk_SecretStoreRecord "primary" "aws" [("cloud_account", Str "main")] false 0) admin);
  CatalogMethod (CatCreateGrant "acme" (mk_NewGrant "primary" "password" (Some "shop") None false) admin);
  CatalogMethod (CatCreateGrant "acme" (mk_NewGrant "primary" "token" None None true) admin);
  CatalogMethod (CatCreateGrant "acme" (mk_NewGrant "primary" "key" None None true) admin);
  CatalogMethod (CatUpdateAccount "acme" (mk_CloudAccount "main" "Main" Aws [] [("key", secret_at "key")]) admin);
  CatalogMethod (CatDeleteStore "acme" "primary" admin)].

Definition catalog_after : Conn := foldl (λ c op, run_any "acme" (λ s, s) op c) installed catalog_requests.

(** The last two requests are refused. *)
Lemma catalog_refusals :
  catalog_exec "acme" (CatUpdateAccount "acme" (mk_CloudAccount "main" "Main" Aws [] [("key", secret_at "key")]) admin) catalog_after
    = Err (Invalid "credential cycle: account `main` -> store `primary` -> account `main`")
  ∧ ss_id <$> db_secret_stores (c_db catalog_after) = ["openporch"; "primary"]
  ∧ sg_ref <$> db_secret_grants (c_db catalog_after) = ["password"; "token"; "key"].
Proof. by vm_compute. Qed.

Lemma catalog_references_hold_witness :
  ss_id <$> db_secret_stores (c_db catalog_after) = ["openporch"; "primary"] ∧ catalog_ok (c_db catalog_after).
Proof.
  split; [by vm_compute|].
  refine (catalog_references_hold "acme" (λ s, s) 0 tt installed catalog_requests _ _); [by vm_compute|by repeat constructor].
Defined.

(** Uses that were authorized, and are by the store. *)
Definition agrees (d : Db) (e : {c & xanswer c}) : bool :=
  match e with
  | existT (XAuthorize org app env owner r) x =>
      match x, authorize_secret_use "acme" org app env owner r (mk_Conn d 0) with Ok _, Ok _ => true | _, _ => false end
  | _ => true
  end.
Lemma all_agree d tr : forallb (agrees d) tr = true → checked_by_store "acme" (λ _, d) tr.
Proof.
  rewrite forallb_forall. intros Hall i org app env owner r x Hi%list_elem_of_lookup_2%list_elem_of_In. specialize (Hall _ Hi).
  simpl in Hall. destruct x as [[]|], (authorize_secret_use _ _ _ _ _ _ _); done.
Qed.

Lemma secrets_read_were_allowed_witness :
  queue_trace !! 8%nat = Some (existT (XRead (secret_at "password")) (Ok "hunter2"))
  ∧ ∃ owner, use_allowed (c_db catalog_after) "shop" "development" owner (secret_at "password").
Proof.
  assert (queue_trace !! 8%nat = Some (existT (XRead (secret_at "password")) (Ok "hunter2"))) as Hi by (by vm_compute).
  split; [exact Hi|].
  assert (checked_by_store "acme" (λ _, c_db catalog_after) queue_trace) as Hst by (apply all_agree; by vm_compute).
  destruct (secrets_read_were_allowed (λ _, None) "primary" queue_job JProvision queue_trace 8 (XRead (secret_at "password")) (Ok "hunter2")
    _ "acme" (λ _, c_db catalog_after) quoted_form queue_given Hst Hi) as (owner & _ & k & _ & Hallowed).
  by exists owner.
Defined.
End catalog.
